(* ===== verification/_CoqProject ===== *)
-Q . S2P
Prelude.v
SealableCounter.v
DrainGate.v
GateControl.v
TerminalGate.v
RotatingDomain.v
RotatingGates.v
RotatingInvariant.v
RotatingTheorems.v
Names.v
Errors.v
Dates.v
Utf16.v
Token.v
Budget.v
Channel.v
ChannelInvariant.v
ChannelSteps.v
ChannelShapes.v
ChannelThreads.v
ChannelHistory.v
ChannelTheorems.v
ChannelProgress.v
ChannelLiveness.v
DataShard.v
ShardInvariant.v
DataPlane.v
DataPlaneSteps.v
DataPlaneInvariant.v
DataPlaneChange.v
DataPlaneRefresh.v
DataPlaneHistory.v
DataPlaneTheorems.v
ModuleRuntime.v
Lifecycle.v
LifecycleMachine.v
LifecycleTokens.v
LifecycleShape.v
LifecycleInvariant.v
LifecycleClaims.v
LifecycleSafety.v
LifecycleReaders.v
LifecycleEntries.v
LifecycleProgress.v
LifecycleTheorems.v
Cancellation.v
CancellationShape.v
CancellationInvariant.v
CancellationScopes.v
CancellationPlaces.v
CancellationWaiters.v
CancellationWakeups.v
CancellationCoverage.v
CancellationAnswers.v
CancellationDelivery.v
CancellationEnding.v
CancellationProgress.v
CancellationTheorems.v
HostCalls.v
Preflight.v
RegistrationHost.v
Registration.v
RegistrationHostSpecs.v
RegistrationAccounts.v
PreflightTheorems.v
RegistrationMachine.v
ExampleExcel.v
RegistrationTheorems.v
RegistrationSessions.v
PeImage.v
PeGraph.v
