(* ===== verification/Prelude.v ===== *)
(** * Verification of xlfn

    xlfn is a framework for Excel add-ins in Rust: worksheet functions,
    handles to objects, real-time data and their packaging.  This development
    models the parts of it that decide something on their own: the reclamation
    and closing protocols of the kernel crate, the real-time data channels, the
    codecs and validators that stand between Excel and the program, the
    registration of its functions with Excel, and the package verifier.  Definitions are translated from the sources by hand,
    under the names the sources use.  Everything computes: the theorems are
    accompanied by witnesses that evaluate the definitions.

    ** How the program fits together

    Everything Excel can call passes a gate of crates/xlfn-kernel, so that the
    add-in can be closed: a gate is built on a counter packed into one machine
    word.  The lifecycle coordinator owns the generation of the add-in that is
    opening, open or closing, and publishes it to readers through such a gate.
    Values whose readers do not lock are reclaimed by a rotating read
    domain, which is built on striped gates.  A worksheet function receives
    UTF-16 strings and serial dates and returns handles as text tokens; its
    name and arguments were checked when it was registered.  Opening registers
    the functions in one transaction; what Excel still holds of them is in the
    transaction's journal and then in the host ledger, which decides whether
    the module may be unloaded.  Asynchronous work
    learns from a cancellation token that the scope it runs for has ended, and
    delivers its result only if it has not.  Real-time data goes from a
    producer thread through a bounded channel, charged to the budgets of its
    source and of the runtime, to the publisher thread, which hands it to the
    storage Excel reads.  The packager accepts an add-in only after checking
    the images it is made of.

    ** The files

    - Prelude (this file): results of code that can stop, [Result], pointer
      widths and machine arithmetic, list and sum lemmas, automation.
    - SealableCounter: crates/xlfn-kernel/src/sealable_counter.rs and
      sealable_counter/transitions.rs.  [Transitions] has the word updates at
      both widths, [Counter] the operations, [CounterTheorems] their
      specification on (sealed, waiting, active) and its consequences.
    - DrainGate, GateControl: drain_gate.rs, drain_gate/protocol.rs and
      drain_gate/control.rs.  Single and striped gates as state passing, the
      management claim as a typestate over an interface both implement, the
      choice of a stripe.
    - TerminalGate: operation_gate.rs with the loops of drain_gate/protocol.rs.
      Threads interleaved at every atomic access, mutex and condition variable.
    - RotatingDomain, RotatingGates, RotatingInvariant, RotatingTheorems:
      rotating_read_domain.rs and its directory.  The machine (readers,
      registration, rotation, closure), the interface of its striped gates, the
      invariant of all reachable states, and the theorems.
    - Names, Errors, Dates, Utf16, Token: crates/xlfn-common/src/lib.rs,
      crates/xlfn/src/error.rs, value/date.rs, utf16.rs, handle/token.rs.
    - Budget: crates/xlfn/src/subscription/budget.rs.  [Accounts] says what
      every charge is owed to.
    - Channel: subscription/channel.rs with subscription/value.rs.  One machine
      for senders, producers, the publisher, cancellation, setup,
      disconnection and shutdown; a thread is a program counter, a step is one
      critical section or one atomic access.
    - ChannelInvariant, ChannelSteps: the invariant of that machine (who holds
      which mutex, what each thread and channel is charged for) and its
      preservation; ChannelShapes: a classification of steps; ChannelThreads:
      who joins whom; ChannelHistory: admissions and deliveries;
      ChannelTheorems: the safety theorems; ChannelProgress: publication turns;
      ChannelLiveness: termination and delivery.
    - DataShard, ShardInvariant: the critical sections of
      subscription/data_plane.rs and data_plane/refresh.rs on one topic shard,
      as functions that return the counter updates they perform; [shard_ok],
      and what every section does to it.
    - DataPlane: the storage behind the sink: publication, connection
      transactions, refresh, notification and termination as a machine of
      threads over the shards, the refresh state and the counters
      (subscription/delivery.rs, data_plane/notification.rs, runtime.rs and
      crates/xlfn-kernel/src/quota.rs).  A shard is held across steps; what its
      holder still owes to the counters is kept with the lock.
    - DataPlaneSteps, DataPlaneInvariant, DataPlaneChange: a classification of
      its steps, exact counters, the connection transactions, and [change],
      which describes a step by what it does to connections and pending
      updates; DataPlaneRefresh: who owns a refresh and what is in flight;
      DataPlaneHistory: what was accepted and shown; DataPlaneTheorems: the
      theorems for the open server, and three schedules on which the code does
      something it does not mean to.
    - ModuleRuntime: module_runtime.rs, ingress.rs, callback_gate.rs and the
      identities of generation.rs: the module's epoch, the tokens that move it
      on, and the export calls and callbacks in progress.
    - Lifecycle: lifecycle/state.rs with its parts, phase.rs and authority.rs:
      the canonical state and every transition of the coordinator.
    - LifecycleMachine: the transitions with their callers, the commit of the
      read-side projections one access at a time, and the readers.
    - LifecycleTokens, LifecycleShape: what each transition moves, and the
      transitions as one relation; LifecycleInvariant, LifecycleClaims,
      LifecycleSafety, LifecycleReaders: the epochs of the module, the removal
      claim, the sessions, and the read side; LifecycleEntries: the export
      calls in progress belong to the current epoch; LifecycleProgress: nothing
      aborts; LifecycleTheorems: the theorems.
    - Cancellation: cancellation.rs.  Slots, shards of the registry, and one
      machine of agents: the calls in progress and the sources, futures and
      registrations their callers own.
    - CancellationShape: what a step may do to slots, shards and agents, as one
      relation; CancellationInvariant, CancellationScopes, CancellationPlaces,
      CancellationWaiters: who is inside which mutex, who owns which scope,
      where the addresses of slots are, and which waiters a slot has, together
      [base_ok]; CancellationWakeups, CancellationCoverage: for every waiter,
      the waker that is stored for it or about to be called;
      CancellationAnswers, CancellationDelivery, CancellationEnding: what
      checks and deliveries have answered, and that no delivery starts after
      the end of its scope; CancellationProgress: the work left, and who can always
      move; CancellationTheorems: the theorems.
    - HostCalls: host_callback.rs, callback_value.rs, invoke of host_api.rs and
      excel12_with_invocation of crates/xlfn-sys/src/callback.rs.  A state
      monad over the session of an entry point and Excel, which is an interface
      ([Excel]: any function from calls to a status, a result and a new state).
    - Preflight, RegistrationHost, Registration: registration/schema.rs,
      preflight.rs, host.rs, ledger.rs, registrar.rs, recovery.rs and
      runtime_components/host_ledger.rs, from the validation of descriptors to
      the claims of the ledger.
    - RegistrationHostSpecs: weakest preconditions, one callback, and
      [ExcelContract], what the registrar relies on: which identities Excel
      holds, and what a name is bound to.  RegistrationAccounts: every operation
      against the contract; RegistrationMachine: openings, merges and claims in
      any order, and the invariant that every identity held is answered for.
    - PreflightTheorems, RegistrationTheorems, RegistrationSessions: the
      theorems; ExampleExcel: a small Excel that satisfies the contract, on
      which their witnesses run.
    - PeImage, PeGraph: crates/xlfn-package/src/pe.rs, architecture.rs and
      error.rs.  Sections, export policy, the CRT marker; the import and
      forwarder graph of a package.

    ** What the theorems show

    Gates and domains: a gate whose drain has returned is unreachable, draining
    terminates and loses no wakeup, no interleaving fail-stops; retired records
    outlive the readers that could see them, one generation admits at a time,
    closure is permanent, nothing retired is lost or detached twice.

    Channels: the budgets account exactly for every queued value, batch in
    flight, reservation and permit, and nothing leaks; no interleaving panics;
    delivery follows admission (FIFO order, or coalescing that keeps the last
    value); disconnection is a barrier; every started call finishes, and in
    every continuation every open channel delivers what it admitted.

    Data plane: while the server is open no interleaving fail-stops; the shared
    counters are exactly the sums of what the shards hold and owe; a topic
    shows its updates in the order they were accepted, and its newest one is
    never dropped; a collection takes for every topic it drains the newest
    pending update, and two refreshes never overlap.

    Lifecycle: a reader's generation stays owned while the reader is admitted;
    the projections are a function of the canonical state between commits;
    each module epoch has one authority and each removal claim one guard;
    quarantine is final, attempts are never reused, a closed lifecycle has no
    live module, no export guard outlives its epoch, and no call aborts, except
    a start of the module over a callback permit of an earlier epoch.

    Cancellation: a slot has one live source, and the end of a scope is seen by
    all its tokens forever; lock-free checks are linearizable in spite of the
    reuse of slots; a scope is delivered at most once and never after its end;
    no waiter of an ended scope is left without a wakeup; no call panics, and
    calls finish.

    Registration: accepted descriptors can be registered, and their type texts
    read back; a transaction registers all of its functions or owes what Excel
    may hold of them; a clean-up accounts for every entry; a ledger that
    reports quiescence owns nothing; every entry point returns, and after a
    terminal status only releases results.

    Codecs and validators: round trips of dates, strings, tokens and argument
    lists; exact acceptance of names, limits and export tables; tokens are
    accepted only in the form this session issued; the dependency closure of a
    package is decided over exactly the images that ship, and verification
    terminates.

    ** Bounds and fuel

    Machine integers are [Z] with the wrap or check of the source written out,
    at 32 and 64 bits where the pointer width matters.  Loops of the sources
    that are not structural run on fuel: 15 halvings for the year search over
    9999 years and 13 steps for the months in Dates, the length of the input in
    Utf16, the number of edges of the images not yet visited and the number of
    forwarded exports in PeGraph.  The theorems prove that the amount suffices:
    they give results, not only properties of results.  An atomic update that
    retries is one step, since only the attempt that succeeds changes state.
    The machines of threads have no bound on their runs; their termination is
    proved by measures.  The size of a stored value in memory is a parameter of
    Channel with the range 0 to 65536; the byte sums of a batch fit 32 bits
    then.  Two identifier spaces of cancellation can run out, the slots of a
    shard and the waiters of a scope; [exhausted] names that case, in which the
    source panics.  Generations cannot: a slot whose generation is the last one
    is not reused.  The theorems of the data plane assume that the limit of
    queued updates plus 64 fits the counter's word, which leaves room for what
    the shards can hold in transit.

    ** Not modelled

    Memory orderings: each atomic access is one step of a sequentially
    consistent store.  Allocation failure is an answer of the environment where
    the source handles it.  Reference counts: a channel dropped by its last
    owner is closed, which the model covers by allowing a cancellation at any
    time; the second [finish] that dropping a finished subscription runs finds
    nothing to do.  Not modelled at all, with the reasons in the inventory
    beside this development: the COM server, foreign calls and their memory
    protocols, code generation by macros, file-system transactions of the
    packager, diagnostics, the command line.  In the data plane the catalog,
    the source callbacks and Excel's host call are answers of the environment,
    the map of indexmap is modelled by its documented order of entries, and
    the theorems cover the server until it is sealed.  The gates of the module
    are the lists and counts of what they admitted, without the bound of their
    counters, which SealableCounter checks.  In the registration the
    gate that admits callbacks and the address of Excel's callback are answers
    of the environment, and whether a module path is absolute is a parameter;
    callbacks nested inside a call of Excel, the audit of failed releases, and
    the opening transaction that owns a journal until it is merged are not
    modelled.  Left for later: the service slot, the catalog and disconnection
    of subscriptions, the registry of asynchronous functions and the cache. *)

From stdpp Require Export base option list list_numbers numbers gmap strings.
From Stdlib Require Export ZArith Lia.

(** Notations of the development live in a scope of their own. *)
Declare Scope xlfn_scope.
Delimit Scope xlfn_scope with xlfn.
#[global] Open Scope xlfn_scope.

(** ** Results of code that can stop

    [Done a] is a normal return.  [Panicked] is a Rust panic (slice bounds,
    [unwrap], [expect]).  [Aborted] is [invariant::fail_stop], which aborts
    the process. *)
Inductive outcome (A : Type) : Type :=
| Done (a : A)
| Panicked
| Aborted.
Arguments Done {A} _.
Arguments Panicked {A}.
Arguments Aborted {A}.

Definition obind {A B} (o : outcome A) (f : A -> outcome B) : outcome B :=
  match o with
  | Done a => f a
  | Panicked => Panicked
  | Aborted => Aborted
  end.

Definition omap_outcome {A B} (f : A -> B) (o : outcome A) : outcome B :=
  obind o (fun a => Done (f a)).

Notation "'let*' x := e 'in' k" := (obind e (fun x => k))
  (at level 10, x pattern, e at level 100, k at level 200) : xlfn_scope.

(** [Result<T, E>] of the source. *)
Inductive result (T E : Type) : Type :=
| Ok (t : T)
| Err (e : E).
Arguments Ok {T E} _.
Arguments Err {T E} _.

Definition is_ok {T E} (r : result T E) : bool :=
  match r with Ok _ => true | Err _ => false end.

Definition is_err {T E} (r : result T E) : bool := negb (is_ok r).

#[export] Instance result_eq_dec {T E} `{EqDecision T} `{EqDecision E} :
  EqDecision (result T E).
Proof. solve_decision. Defined.

#[export] Instance outcome_eq_dec {A} `{EqDecision A} : EqDecision (outcome A).
Proof. solve_decision. Defined.

(** ** Machine integers

    An unsigned [w]-bit integer is a [Z] in [[0, 2^w)]. *)
Definition in_width (w z : Z) : Prop := (0 <= z < 2 ^ w)%Z.

#[export] Instance in_width_dec w z : Decision (in_width w z).
Proof. unfold in_width. apply _. Defined.

Definition wrap (w z : Z) : Z := (z mod 2 ^ w)%Z.
Definition wrapping_add (w a b : Z) : Z := wrap w (a + b).
Definition wrapping_sub (w a b : Z) : Z := wrap w (a - b).

Definition checked_add (w a b : Z) : option Z :=
  if (a + b <? 2 ^ w)%Z then Some (a + b)%Z else None.
Definition checked_sub (a b : Z) : option Z :=
  if (b <=? a)%Z then Some (a - b)%Z else None.
Definition checked_mul (w a b : Z) : option Z :=
  if (a * b <? 2 ^ w)%Z then Some (a * b)%Z else None.
Definition saturating_add (w a b : Z) : Z := Z.min (a + b) (2 ^ w - 1).
Definition saturating_sub (a b : Z) : Z := Z.max (a - b) 0.

Lemma wrap_small w z : in_width w z -> wrap w z = z.
Proof. apply Z.mod_small. Qed.

Lemma wrap_in_width w z : (0 <= w)%Z -> in_width w (wrap w z).
Proof.
  intros Hw. unfold in_width, wrap.
  pose proof (Z.pow_pos_nonneg 2 w). apply Z.mod_pos_bound. lia.
Qed.

Lemma wrap_wrap w z : wrap w (wrap w z) = wrap w z.
Proof. apply Z.mod_mod_divide. done. Qed.

Lemma wrapping_add_small w a b : in_width w (a + b) -> wrapping_add w a b = (a + b)%Z.
Proof. apply wrap_small. Qed.

Lemma wrapping_sub_small w a b : in_width w (a - b) -> wrapping_sub w a b = (a - b)%Z.
Proof. apply wrap_small. Qed.

(** ** Packed words

    A word [a + h * 2^k] with [a < 2^k] carries the field [a] in its low [k]
    bits and the field [h] above them. *)
Section Packed.
Local Open Scope Z_scope.
Context (k a : Z) (Hk : 0 <= k) (Ha : 0 <= a < 2 ^ k).

Lemma packed_testbit_low h n : 0 <= n < k -> Z.testbit (a + h * 2 ^ k) n = Z.testbit a n.
Proof.
  intros Hn. rewrite <- (Z.mod_pow2_bits_low _ k) by lia.
  rewrite Z.mod_add by (apply Z.pow_nonzero; lia).
  by rewrite Z.mod_small by lia.
Qed.

Lemma packed_testbit_high h n : k <= n -> Z.testbit (a + h * 2 ^ k) n = Z.testbit h (n - k).
Proof.
  intros Hn. replace n with ((n - k) + k) at 1 by lia.
  rewrite <- Z.div_pow2_bits by lia.
  rewrite Z.div_add by (apply Z.pow_nonzero; lia).
  by rewrite Z.div_small by lia.
Qed.

Lemma packed_land_high h m : Z.land (a + h * 2 ^ k) (m * 2 ^ k) = Z.land h m * 2 ^ k.
Proof.
  apply Z.bits_inj'. intros n Hn. rewrite Z.land_spec.
  destruct (decide (n < k)).
  - rewrite !Z.mul_pow2_bits_low by lia. apply andb_false_r.
  - rewrite packed_testbit_high, !Z.mul_pow2_bits, Z.land_spec by lia. done.
Qed.

Lemma packed_land_low h : Z.land (a + h * 2 ^ k) (2 ^ k - 1) = a.
Proof.
  rewrite Z.sub_1_r, <- Z.ones_equiv, Z.land_ones by lia.
  rewrite Z.mod_add by (apply Z.pow_nonzero; lia).
  by apply Z.mod_small.
Qed.

Lemma packed_lor_high h m : Z.lor (a + h * 2 ^ k) (m * 2 ^ k) = a + Z.lor h m * 2 ^ k.
Proof.
  apply Z.bits_inj'. intros n Hn. rewrite Z.lor_spec.
  destruct (decide (n < k)).
  - rewrite Z.mul_pow2_bits_low, orb_false_r, !packed_testbit_low by lia. done.
  - rewrite !packed_testbit_high, Z.mul_pow2_bits, Z.lor_spec by lia. done.
Qed.

End Packed.

(** ** Sums over lists

    Thread pools are lists of program counters; resource counts are sums of
    a per-thread weight.  Replacing one entry moves the sum by the difference
    of the two weights. *)
Lemma sum_list_with_insert {A} (f : A -> nat) (l : list A) i x y :
  l !! i = Some x ->
  sum_list_with f (<[i := y]> l) + f x = sum_list_with f l + f y.
Proof.
  revert i. induction l as [|a l IH]; intros [|i] H; simplify_eq/=; [lia|].
  specialize (IH _ H). lia.
Qed.

Lemma sum_list_with_ge {A} (f : A -> nat) (l : list A) i x :
  l !! i = Some x -> f x <= sum_list_with f l.
Proof.
  revert i. induction l as [|a l IH]; intros [|i] H; simplify_eq/=; [lia|].
  specialize (IH _ H). lia.
Qed.

Lemma sum_list_with_zero {A} (f : A -> nat) (l : list A) :
  sum_list_with f l = 0 <-> forall i x, l !! i = Some x -> f x = 0.
Proof.
  split.
  - intros H i x Hi. pose proof (sum_list_with_ge f l i x Hi). lia.
  - induction l as [|a l IH]; intros H; simpl; [done|].
    rewrite (H 0 a) by done. rewrite IH; [done|]. intros i. apply (H (S i)).
Qed.

Lemma sum_list_with_le_length {A} (f : A -> nat) (l : list A) :
  (forall x, f x <= 1) -> sum_list_with f l <= length l.
Proof.
  intros Hf. induction l as [|a l IH]; simpl; [done|]. specialize (Hf a). lia.
Qed.

Lemma sum_list_with_pos {A} (f : A -> nat) (l : list A) :
  0 < sum_list_with f l -> exists i x, l !! i = Some x /\ 0 < f x.
Proof.
  induction l as [|a l IH]; simpl; [lia|]. intros H.
  destruct (decide (0 < f a)) as [Ha|Ha]; [by exists 0, a|].
  destruct IH as (i & x & Hi & Hx); [lia|]. by exists (S i), x.
Qed.

(** The same over [Z]. *)
Fixpoint ztotal {A} (f : A -> Z) (l : list A) : Z :=
  match l with [] => 0%Z | x :: l => (f x + ztotal f l)%Z end.

Lemma ztotal_app {A} (f : A -> Z) l k : ztotal f (l ++ k) = (ztotal f l + ztotal f k)%Z.
Proof. induction l as [|x l IH]; simpl; lia. Qed.

Lemma ztotal_insert {A} (f : A -> Z) (l : list A) i x y :
  l !! i = Some x -> (ztotal f (<[i := y]> l) + f x = ztotal f l + f y)%Z.
Proof.
  revert i. induction l as [|a l IH]; intros [|i] H; simplify_eq/=; [lia|].
  specialize (IH _ H). lia.
Qed.

Lemma ztotal_nonneg {A} (f : A -> Z) (l : list A) :
  (forall i x, l !! i = Some x -> (0 <= f x)%Z) -> (0 <= ztotal f l)%Z.
Proof.
  induction l as [|a l IH]; intros H; simpl; [done|].
  pose proof (H 0 a eq_refl). specialize (IH (fun i => H (S i))). lia.
Qed.

Lemma ztotal_ge {A} (f : A -> Z) (l : list A) i x :
  (forall j y, l !! j = Some y -> (0 <= f y)%Z) -> l !! i = Some x -> (f x <= ztotal f l)%Z.
Proof.
  revert i. induction l as [|a l IH]; intros [|i] Hf Hi; simplify_eq/=.
  - pose proof (ztotal_nonneg f l (fun j => Hf (S j))). lia.
  - specialize (IH i (fun j => Hf (S j)) Hi). pose proof (Hf 0 a eq_refl). lia.
Qed.

Lemma ztotal_ext {A} (f g : A -> Z) (l : list A) :
  (forall i x, l !! i = Some x -> f x = g x) -> ztotal f l = ztotal g l.
Proof.
  induction l as [|a l IH]; intros H; simpl; [done|].
  rewrite (H 0 a eq_refl), (IH (fun i => H (S i))). done.
Qed.

(** ** Boolean folds *)
Lemma forallb_Forall {A} (f : A -> bool) l :
  forallb f l = true <-> Forall (fun x => f x = true) l.
Proof. rewrite forallb_forall, Forall_forall. by setoid_rewrite list_elem_of_In. Qed.

Lemma existsb_Exists {A} (f : A -> bool) l :
  existsb f l = true <-> Exists (fun x => f x = true) l.
Proof. rewrite existsb_exists, Exists_exists. by setoid_rewrite list_elem_of_In. Qed.

(** ** Automation *)
Create HintDb xlfn.

#[export] Hint Resolve wrap_small wrapping_add_small wrapping_sub_small : xlfn.

(** Split every [match] and [if] of the goal, keeping the equations. *)
Ltac split_match :=
  repeat (case_match; simplify_eq/=; try done).

(** Look up an index in an updated list by comparing the two indices. *)
Ltac list_upd j k :=
  destruct (decide (j = k)) as [->|?];
  [ rewrite ?list_lookup_insert_eq in * by (eapply lookup_lt_Some; eassumption)
  | rewrite ?list_lookup_insert_ne in * by done ].
