(* ===== verification/SealableCounter.v ===== *)
(** * The sealable active counter

    Models crates/xlfn-kernel/src/sealable_counter/transitions.rs (the pure
    state transitions of the packed word, for 32- and 64-bit targets) and
    crates/xlfn-kernel/src/sealable_counter.rs (the atomic operations built on
    them).  A word packs a sealed bit, a drain-notification bit and an active
    count.  The abstract specification is the record [view]; every operation
    is shown to implement its specification on that record. *)

From S2P Require Import Prelude.

Local Open Scope Z_scope.

(** ** transitions.rs: the packed word *)
Module Transitions.

Definition SEALED_BIT_32 : Z := 0x80000000.
Definition WAITING_BIT_32 : Z := 0x40000000.
Definition ACTIVE_COUNT_MASK_32 : Z := 0x3FFFFFFF.
Definition SEALED_BIT_64 : Z := 0x8000000000000000.
Definition WAITING_BIT_64 : Z := 0x4000000000000000.
Definition ACTIVE_COUNT_MASK_64 : Z := 0x3FFFFFFFFFFFFFFF.

Inductive TransitionOutcome (T : Type) : Type :=
| Success (next : T)
| Rejected
| FailStop.
Arguments Success {T} _.
Arguments Rejected {T}.
Arguments FailStop {T}.

Inductive ReleaseOutcome : Type := StillActive | BecameIdle.

#[export] Instance release_outcome_eq_dec : EqDecision ReleaseOutcome.
Proof. solve_decision. Defined.

Definition acquire_step_32 (state : Z) : TransitionOutcome Z :=
  if negb (Z.land state SEALED_BIT_32 =? 0) then Rejected
  else if Z.land state ACTIVE_COUNT_MASK_32 =? ACTIVE_COUNT_MASK_32 then FailStop
  else Success (wrapping_add 32 state 1).

Definition acquire_step_64 (state : Z) : TransitionOutcome Z :=
  if negb (Z.land state SEALED_BIT_64 =? 0) then Rejected
  else if Z.land state ACTIVE_COUNT_MASK_64 =? ACTIVE_COUNT_MASK_64 then FailStop
  else Success (wrapping_add 64 state 1).

Definition release_step_32 (state : Z) : TransitionOutcome Z :=
  if Z.land state ACTIVE_COUNT_MASK_32 =? 0 then FailStop
  else Success (wrapping_sub 32 state 1).

Definition release_step_64 (state : Z) : TransitionOutcome Z :=
  if Z.land state ACTIVE_COUNT_MASK_64 =? 0 then FailStop
  else Success (wrapping_sub 64 state 1).

Definition release_without_notification_step_32 (state : Z) : TransitionOutcome Z :=
  let active := Z.land state ACTIVE_COUNT_MASK_32 in
  if active =? 0 then FailStop
  else if (active =? 1) && negb (Z.land state WAITING_BIT_32 =? 0) then Rejected
  else Success (wrapping_sub 32 state 1).

Definition release_without_notification_step_64 (state : Z) : TransitionOutcome Z :=
  let active := Z.land state ACTIVE_COUNT_MASK_64 in
  if active =? 0 then FailStop
  else if (active =? 1) && negb (Z.land state WAITING_BIT_64 =? 0) then Rejected
  else Success (wrapping_sub 64 state 1).

Definition release_outcome_step_32 (previous : Z) : ReleaseOutcome :=
  if Z.land previous ACTIVE_COUNT_MASK_32 =? 1 then BecameIdle else StillActive.

Definition release_outcome_step_64 (previous : Z) : ReleaseOutcome :=
  if Z.land previous ACTIVE_COUNT_MASK_64 =? 1 then BecameIdle else StillActive.

Definition reopen_step_32 (state : Z) : TransitionOutcome Z :=
  if negb (Z.land state SEALED_BIT_32 =? 0)
     && (Z.land state ACTIVE_COUNT_MASK_32 =? 0)
  then Success 0 else Rejected.

Definition reopen_step_64 (state : Z) : TransitionOutcome Z :=
  if negb (Z.land state SEALED_BIT_64 =? 0)
     && (Z.land state ACTIVE_COUNT_MASK_64 =? 0)
  then Success 0 else Rejected.

(** The [usize] adapters.  [target_pointer_width] is an argument; a cast to
    the target's own width is a wrap at that width. *)
Inductive pointer_width := W32 | W64.

Definition bits (pw : pointer_width) : Z :=
  match pw with W32 => 32 | W64 => 64 end.

Definition as_usize (pw : pointer_width) (o : TransitionOutcome Z) : TransitionOutcome Z :=
  match o with
  | Success next => Success (wrap (bits pw) next)
  | Rejected => Rejected
  | FailStop => FailStop
  end.

Definition acquire_step (pw : pointer_width) (state : Z) : TransitionOutcome Z :=
  match pw with
  | W32 => as_usize pw (acquire_step_32 (wrap 32 state))
  | W64 => as_usize pw (acquire_step_64 (wrap 64 state))
  end.

Definition release_step (pw : pointer_width) (state : Z) : TransitionOutcome Z :=
  match pw with
  | W32 => as_usize pw (release_step_32 (wrap 32 state))
  | W64 => as_usize pw (release_step_64 (wrap 64 state))
  end.

Definition release_without_notification_step (pw : pointer_width) (state : Z)
  : TransitionOutcome Z :=
  match pw with
  | W32 => as_usize pw (release_without_notification_step_32 (wrap 32 state))
  | W64 => as_usize pw (release_without_notification_step_64 (wrap 64 state))
  end.

Definition release_outcome_step (pw : pointer_width) (previous : Z) : ReleaseOutcome :=
  match pw with
  | W32 => release_outcome_step_32 (wrap 32 previous)
  | W64 => release_outcome_step_64 (wrap 64 previous)
  end.

Definition reopen_step (pw : pointer_width) (state : Z) : TransitionOutcome Z :=
  match pw with
  | W32 => as_usize pw (reopen_step_32 (wrap 32 state))
  | W64 => as_usize pw (reopen_step_64 (wrap 64 state))
  end.

(** [idle_seal_logic!] and [undo_idle_seal_logic!]: the bits are macro
    arguments in the source and ordinary arguments here; [!sealed] is the
    complement at the pointer width. *)
Definition idle_seal_logic (state sealed mask : Z) : option Z :=
  if Z.land state (Z.lor sealed mask) =? 0 then Some (Z.lor state sealed) else None.

Definition undo_idle_seal_logic (pw : pointer_width) (state sealed mask : Z) : option Z :=
  if negb (Z.land state sealed =? 0) && (Z.land state mask =? 0)
  then Some (Z.land state (2 ^ bits pw - 1 - sealed)) else None.

End Transitions.
Export Transitions.

(** ** sealable_counter.rs: the atomic counter

    Each method performs one atomic read-modify-write on [state], so it is a
    function of the word it observes. *)
Module Counter.

Record SealableCounter : Type := { state : Z }.

#[export] Instance counter_eq_dec : EqDecision SealableCounter.
Proof. solve_decision. Defined.

Inductive Sealed_error : Type := Sealed.
Inductive Reopen_error : Type := ReopenError.

Definition SEALED_BIT (pw : pointer_width) : Z := Z.shiftl 1 (bits pw - 1).
Definition WAITING_BIT (pw : pointer_width) : Z := Z.shiftr (SEALED_BIT pw) 1.
Definition ACTIVE_COUNT_MASK (pw : pointer_width) : Z := WAITING_BIT pw - 1.

(** [AtomicUsize::try_update]: the closure sees the current word; [Some next]
    stores it and returns [Ok] of the previous word, [None] returns [Err]. *)
Definition try_update (f : Z -> outcome (option Z)) (c : SealableCounter)
  : outcome (result Z Z * SealableCounter) :=
  let* o := f (state c) in
  match o with
  | Some next => Done (Ok (state c), {| state := next |})
  | None => Done (Err (state c), c)
  end.

(** [AtomicUsize::compare_exchange]. *)
Definition compare_exchange (current new : Z) (c : SealableCounter)
  : result Z Z * SealableCounter :=
  if state c =? current then (Ok (state c), {| state := new |})
  else (Err (state c), c).

Definition of_transition (o : TransitionOutcome Z) : outcome (option Z) :=
  match o with
  | Success next => Done (Some next)
  | Rejected => Done None
  | FailStop => Aborted
  end.

Section Ops.
Context (pw : pointer_width).

Definition acquire_update (s : Z) : outcome (option Z) :=
  of_transition (acquire_step pw s).

Definition release_update (s : Z) : outcome (option Z) :=
  of_transition (release_step pw s).

Definition release_without_notification_update (s : Z) : outcome (option Z) :=
  of_transition (release_without_notification_step pw s).

Definition release_outcome (previous : Z) : ReleaseOutcome :=
  release_outcome_step pw previous.

Definition reopen_update (s : Z) : outcome (option Z) :=
  of_transition (reopen_step pw s).

Definition new_open : SealableCounter := {| state := 0 |}.
Definition new_sealed : SealableCounter := {| state := SEALED_BIT pw |}.

Definition try_acquire (c : SealableCounter)
  : outcome (result unit Sealed_error * SealableCounter) :=
  let* (r, c') := try_update acquire_update c in
  Done (match r with Ok _ => Ok tt | Err _ => Err Sealed end, c').

Definition release (c : SealableCounter) : outcome (ReleaseOutcome * SealableCounter) :=
  let* (r, c') := try_update release_update c in
  match r with
  | Ok previous => Done (release_outcome previous, c')
  | Err _ => Aborted
  end.

Definition try_release_without_notification (c : SealableCounter)
  : outcome (option ReleaseOutcome * SealableCounter) :=
  let* (r, c') := try_update release_without_notification_update c in
  Done (match r with Ok previous => Some (release_outcome previous) | Err _ => None end, c').

Definition mark_waiting (c : SealableCounter) : Z * SealableCounter :=
  (Z.land (state c) (ACTIVE_COUNT_MASK pw),
   {| state := Z.lor (state c) (WAITING_BIT pw) |}).

Definition seal (c : SealableCounter) : SealableCounter :=
  {| state := Z.lor (state c) (SEALED_BIT pw) |}.

(** [try_idle_seal!] loads the word and then exchanges it; [observed] is the
    loaded value, which another thread may have outdated. *)
Definition try_idle_seal (observed : Z) (c : SealableCounter) : bool * SealableCounter :=
  match idle_seal_logic observed (SEALED_BIT pw) (ACTIVE_COUNT_MASK pw) with
  | Some next => let '(r, c') := compare_exchange observed next c in (is_ok r, c')
  | None => (false, c)
  end.

Definition try_seal_if_idle (c : SealableCounter) : bool * SealableCounter :=
  try_idle_seal (state c) c.

Definition undo_idle_seal (c : SealableCounter)
  : outcome (result unit Reopen_error * SealableCounter) :=
  let* (r, c') :=
    try_update (fun s => Done (undo_idle_seal_logic pw s (SEALED_BIT pw) (ACTIVE_COUNT_MASK pw))) c in
  Done (match r with Ok _ => Ok tt | Err _ => Err ReopenError end, c').

Definition reopen (c : SealableCounter) : outcome (result unit Reopen_error * SealableCounter) :=
  let* (r, c') := try_update reopen_update c in
  Done (match r with Ok _ => Ok tt | Err _ => Err ReopenError end, c').

Definition is_sealed (c : SealableCounter) : bool :=
  negb (Z.land (state c) (SEALED_BIT pw) =? 0).

Definition active (c : SealableCounter) : Z :=
  Z.land (state c) (ACTIVE_COUNT_MASK pw).

End Ops.
End Counter.

(** ** Abstract specification

    What the packed word stands for, and the specified effect of every
    operation on it. *)
Module Spec.

Record view : Type := View { sealed : bool; waiting : bool; count : Z }.

#[export] Instance view_eq_dec : EqDecision view.
Proof. solve_decision. Defined.

Definition max_count (pw : pointer_width) : Z := 2 ^ (bits pw - 2) - 1.

Definition valid (pw : pointer_width) (v : view) : Prop := 0 <= count v <= max_count pw.

Definition decode (pw : pointer_width) (s : Z) : view :=
  View (Z.testbit s (bits pw - 1)) (Z.testbit s (bits pw - 2)) (s mod 2 ^ (bits pw - 2)).

Definition encode (pw : pointer_width) (v : view) : Z :=
  count v + (Z.b2z (waiting v) + 2 * Z.b2z (sealed v)) * 2 ^ (bits pw - 2).

Definition acquire (pw : pointer_width) (v : view) : TransitionOutcome view :=
  if sealed v then Rejected
  else if count v =? max_count pw then FailStop
  else Success (View false (waiting v) (count v + 1)).

Definition release (v : view) : TransitionOutcome view :=
  if count v =? 0 then FailStop else Success (View (sealed v) (waiting v) (count v - 1)).

Definition release_without_notification (v : view) : TransitionOutcome view :=
  if count v =? 0 then FailStop
  else if (count v =? 1) && waiting v then Rejected
  else Success (View (sealed v) (waiting v) (count v - 1)).

Definition release_outcome (v : view) : ReleaseOutcome :=
  if count v =? 1 then BecameIdle else StillActive.

Definition reopen (v : view) : TransitionOutcome view :=
  if sealed v && (count v =? 0) then Success (View false false 0) else Rejected.

Definition seal (v : view) : view := View true (waiting v) (count v).
Definition mark_waiting (v : view) : view := View (sealed v) true (count v).

Definition idle_seal (v : view) : option view :=
  if negb (sealed v) && (count v =? 0) then Some (View true (waiting v) 0) else None.

Definition undo_idle_seal (v : view) : option view :=
  if sealed v && (count v =? 0) then Some (View false (waiting v) 0) else None.

Definition tmap {A B} (f : A -> B) (o : TransitionOutcome A) : TransitionOutcome B :=
  match o with
  | Success a => Success (f a)
  | Rejected => Rejected
  | FailStop => FailStop
  end.

End Spec.

(** ** The packed word implements the specification *)
Section Refinement.
Context (pw : pointer_width).
Import Spec.

Abbreviation k := (bits pw - 2).

Lemma bits_ge : 3 <= bits pw.
Proof. by destruct pw. Qed.

Lemma k_nonneg : 0 <= k.
Proof. pose proof bits_ge. lia. Qed.

Lemma pow_bits : 2 ^ bits pw = 4 * 2 ^ k.
Proof. destruct pw; reflexivity. Qed.

Definition flags (v : view) : Z := Z.b2z (waiting v) + 2 * Z.b2z (sealed v).

Lemma encode_packed v : encode pw v = count v + flags v * 2 ^ k.
Proof. done. Qed.

Lemma flags_bounds v : 0 <= flags v <= 3.
Proof. destruct v as [[] [] ?]; unfold flags; simpl; lia. Qed.

Lemma valid_count v : valid pw v -> 0 <= count v < 2 ^ k.
Proof. unfold valid, max_count. lia. Qed.

Lemma encode_in_width v : valid pw v -> in_width (bits pw) (encode pw v).
Proof.
  intros Hv%valid_count. pose proof (flags_bounds v).
  unfold in_width. rewrite pow_bits, encode_packed. nia.
Qed.

Lemma SEALED_BIT_pow : Counter.SEALED_BIT pw = 2 * 2 ^ k.
Proof. destruct pw; reflexivity. Qed.

Lemma WAITING_BIT_pow : Counter.WAITING_BIT pw = 1 * 2 ^ k.
Proof. destruct pw; reflexivity. Qed.

Lemma MASK_pow : Counter.ACTIVE_COUNT_MASK pw = 2 ^ k - 1.
Proof. destruct pw; reflexivity. Qed.

Lemma decode_encode v : valid pw v -> decode pw (encode pw v) = v.
Proof.
  intros Hv%valid_count. pose proof k_nonneg. unfold decode.
  rewrite encode_packed.
  rewrite !packed_testbit_high by lia.
  replace (bits pw - 1 - k) with 1 by lia. replace (k - k) with 0 by lia.
  rewrite Z.mod_add by (apply Z.pow_nonzero; lia).
  rewrite Z.mod_small by lia.
  by destruct v as [[] [] ?].
Qed.

Lemma decode_valid s : valid pw (decode pw s).
Proof.
  unfold valid, decode, max_count; simpl. pose proof k_nonneg.
  pose proof (Z.mod_pos_bound s (2 ^ k)). pose proof (Z.pow_pos_nonneg 2 k). lia.
Qed.

Lemma encode_decode s : in_width (bits pw) s -> encode pw (decode pw s) = s.
Proof.
  intros Hs. unfold in_width in Hs. rewrite pow_bits in Hs. pose proof k_nonneg.
  pose proof (Z.pow_pos_nonneg 2 k ltac:(lia) ltac:(lia)) as Hp.
  pose proof (Z.div_mod s (2 ^ k) ltac:(lia)) as Hdm.
  pose proof (Z.mod_pos_bound s (2 ^ k) ltac:(lia)) as Hm.
  assert (Hq : 0 <= s / 2 ^ k <= 3) by nia.
  unfold encode, decode; cbn [count waiting sealed].
  remember (s / 2 ^ k) as q eqn:Eq. remember (s mod 2 ^ k) as a eqn:Ea.
  assert (s = a + q * 2 ^ k) as Hs' by lia. rewrite Hs'.
  rewrite !packed_testbit_high by lia.
  replace (bits pw - 1 - k) with 1 by lia. replace (k - k) with 0 by lia.
  assert (q = 0 \/ q = 1 \/ q = 2 \/ q = 3) as Hc by lia.
  f_equal. f_equal. clear - Hc. by destruct Hc as [-> | [-> | [-> | ->]]].
Qed.

Lemma scaled_test x : (x * 2 ^ k =? 0) = (x =? 0).
Proof.
  pose proof k_nonneg. pose proof (Z.pow_pos_nonneg 2 k ltac:(lia) ltac:(lia)).
  destruct (Z.eqb_spec x 0) as [->|Hx]; [done|]. apply Z.eqb_neq. nia.
Qed.

Lemma sealed_test v :
  valid pw v -> (Z.land (encode pw v) (Counter.SEALED_BIT pw) =? 0) = negb (sealed v).
Proof.
  intros Hv%valid_count. pose proof k_nonneg.
  rewrite SEALED_BIT_pow, encode_packed, packed_land_high by lia.
  rewrite scaled_test. by destruct v as [[] [] ?].
Qed.

Lemma waiting_test v :
  valid pw v -> (Z.land (encode pw v) (Counter.WAITING_BIT pw) =? 0) = negb (waiting v).
Proof.
  intros Hv%valid_count. pose proof k_nonneg.
  rewrite WAITING_BIT_pow, encode_packed, packed_land_high by lia.
  rewrite scaled_test. by destruct v as [[] [] ?].
Qed.

Lemma count_test v :
  valid pw v -> Z.land (encode pw v) (Counter.ACTIVE_COUNT_MASK pw) = count v.
Proof.
  intros Hv%valid_count. pose proof k_nonneg.
  rewrite MASK_pow, encode_packed, packed_land_low by lia. done.
Qed.

(** The 32- and 64-bit transitions are one function of the platform's bits. *)
Ltac fold_bits :=
  change (Counter.SEALED_BIT W32) with SEALED_BIT_32;
  change (Counter.SEALED_BIT W64) with SEALED_BIT_64;
  change (Counter.WAITING_BIT W32) with WAITING_BIT_32;
  change (Counter.WAITING_BIT W64) with WAITING_BIT_64;
  change (Counter.ACTIVE_COUNT_MASK W32) with ACTIVE_COUNT_MASK_32;
  change (Counter.ACTIVE_COUNT_MASK W64) with ACTIVE_COUNT_MASK_64.

Ltac both_widths :=
  intros Hs; destruct pw; fold_bits;
  unfold acquire_step, release_step, release_without_notification_step,
    reopen_step, acquire_step_32, acquire_step_64, release_step_32, release_step_64,
    release_without_notification_step_32, release_without_notification_step_64,
    reopen_step_32, reopen_step_64, wrapping_add, wrapping_sub;
  rewrite wrap_small by exact Hs; cbv zeta;
  repeat case_match; cbn [as_usize bits]; rewrite ?wrap_wrap; done.

Lemma acquire_step_generic s :
  in_width (bits pw) s ->
  acquire_step pw s =
    if negb (Z.land s (Counter.SEALED_BIT pw) =? 0) then Rejected
    else if Z.land s (Counter.ACTIVE_COUNT_MASK pw) =? Counter.ACTIVE_COUNT_MASK pw then FailStop
    else Success (wrapping_add (bits pw) s 1).
Proof. both_widths. Qed.

Lemma release_step_generic s :
  in_width (bits pw) s ->
  release_step pw s =
    if Z.land s (Counter.ACTIVE_COUNT_MASK pw) =? 0 then FailStop
    else Success (wrapping_sub (bits pw) s 1).
Proof. both_widths. Qed.

Lemma release_without_notification_step_generic s :
  in_width (bits pw) s ->
  release_without_notification_step pw s =
    if Z.land s (Counter.ACTIVE_COUNT_MASK pw) =? 0 then FailStop
    else if (Z.land s (Counter.ACTIVE_COUNT_MASK pw) =? 1)
            && negb (Z.land s (Counter.WAITING_BIT pw) =? 0) then Rejected
    else Success (wrapping_sub (bits pw) s 1).
Proof. both_widths. Qed.

Lemma reopen_step_generic s :
  in_width (bits pw) s ->
  reopen_step pw s =
    if negb (Z.land s (Counter.SEALED_BIT pw) =? 0)
       && (Z.land s (Counter.ACTIVE_COUNT_MASK pw) =? 0) then Success 0 else Rejected.
Proof. both_widths. Qed.

Lemma release_outcome_step_generic s :
  in_width (bits pw) s ->
  release_outcome_step pw s =
    if Z.land s (Counter.ACTIVE_COUNT_MASK pw) =? 1 then BecameIdle else StillActive.
Proof. intros Hs. destruct pw; simpl; by rewrite wrap_small. Qed.

(** Each transition computes its specification on the encoded word. *)
Lemma acquire_step_encode v :
  valid pw v -> acquire_step pw (encode pw v) = tmap (encode pw) (acquire pw v).
Proof.
  intros Hv. pose proof (encode_in_width v Hv) as Hw.
  rewrite acquire_step_generic, sealed_test, count_test, negb_involutive, MASK_pow by done.
  unfold acquire, max_count. destruct v as [[] w c]; [done|]; cbn [sealed count waiting].
  destruct (Z.eqb_spec c (2 ^ k - 1)); [done|]. cbn [tmap]. f_equal.
  unfold valid, max_count in Hv; simpl in Hv. pose proof (flags_bounds (View false w c)).
  rewrite wrapping_add_small; [unfold encode; simpl; lia|].
  unfold in_width in *. rewrite pow_bits in *. rewrite encode_packed in *.
  unfold flags in *. simpl in *. destruct w; simpl in *; lia.
Qed.

Lemma pred_encode s w c :
  valid pw (View s w c) -> c <> 0 ->
  wrapping_sub (bits pw) (encode pw (View s w c)) 1 = encode pw (View s w (c - 1)).
Proof.
  intros Hv Hc. pose proof (encode_in_width _ Hv) as Hw.
  unfold valid in Hv; simpl in Hv. rewrite wrapping_sub_small; [unfold encode; simpl; lia|].
  unfold in_width in *. split; [|lia]. unfold encode; simpl.
  pose proof k_nonneg. pose proof (Z.pow_pos_nonneg 2 k ltac:(lia) ltac:(lia)).
  destruct s, w; simpl; lia.
Qed.

Lemma release_step_encode v :
  valid pw v -> release_step pw (encode pw v) = tmap (encode pw) (release v).
Proof.
  intros Hv. pose proof (encode_in_width v Hv) as Hw.
  rewrite release_step_generic, count_test by done. unfold release.
  destruct v as [s w c]; cbn [sealed count waiting] in *.
  destruct (Z.eqb_spec c 0); [done|]. cbn [tmap]. f_equal. by apply pred_encode.
Qed.

Lemma release_without_notification_step_encode v :
  valid pw v ->
  release_without_notification_step pw (encode pw v)
  = tmap (encode pw) (release_without_notification v).
Proof.
  intros Hv. pose proof (encode_in_width v Hv) as Hw.
  rewrite release_without_notification_step_generic, count_test, waiting_test by done.
  unfold release_without_notification. rewrite negb_involutive.
  destruct v as [s w c]; cbn [sealed count waiting] in *.
  destruct (Z.eqb_spec c 0); [done|].
  destruct ((c =? 1) && w); [done|]. cbn [tmap]. f_equal. by apply pred_encode.
Qed.

Lemma release_outcome_step_encode v :
  valid pw v -> release_outcome_step pw (encode pw v) = release_outcome v.
Proof.
  intros Hv. pose proof (encode_in_width v Hv) as Hw.
  by rewrite release_outcome_step_generic, count_test.
Qed.

Lemma reopen_step_encode v :
  valid pw v -> reopen_step pw (encode pw v) = tmap (encode pw) (reopen v).
Proof.
  intros Hv. pose proof (encode_in_width v Hv) as Hw.
  rewrite reopen_step_generic, count_test, sealed_test, negb_involutive by done.
  unfold reopen. destruct (sealed v && (count v =? 0)); done.
Qed.

End Refinement.

(** The counter operations, as equations on counters given by their view.
    Clients reason with these and never unfold the word. *)
Section Ops_spec.
Context (pw : pointer_width).
Import Counter.
Implicit Types v : Spec.view.

Definition of_view v : SealableCounter := {| state := Spec.encode pw v |}.
Definition view_of (c : SealableCounter) : Spec.view := Spec.decode pw (state c).
Definition wf (c : SealableCounter) : Prop := in_width (bits pw) (state c).

Lemma of_view_of c : wf c -> of_view (view_of c) = c.
Proof. intros H. destruct c. unfold of_view, view_of. simpl. by rewrite encode_decode. Qed.

Lemma view_of_view v : Spec.valid pw v -> view_of (of_view v) = v.
Proof. apply decode_encode. Qed.

Lemma of_view_wf v : Spec.valid pw v -> wf (of_view v).
Proof. apply encode_in_width. Qed.

Lemma view_of_valid c : Spec.valid pw (view_of c).
Proof. apply decode_valid. Qed.

Lemma new_open_view : new_open = of_view (Spec.View false false 0).
Proof. done. Qed.

Lemma new_sealed_view : new_sealed pw = of_view (Spec.View true false 0).
Proof. unfold of_view. destruct pw; reflexivity. Qed.

Lemma try_acquire_view v :
  Spec.valid pw v ->
  try_acquire pw (of_view v) =
    match Spec.acquire pw v with
    | Success v' => Done (Ok tt, of_view v')
    | Rejected => Done (Err Sealed, of_view v)
    | FailStop => Aborted
    end.
Proof.
  intros Hv. unfold try_acquire, try_update, acquire_update. simpl.
  rewrite acquire_step_encode by done. by destruct (Spec.acquire pw v).
Qed.

Lemma release_view v :
  Spec.valid pw v ->
  release pw (of_view v) =
    match Spec.release v with
    | Success v' => Done (Spec.release_outcome v, of_view v')
    | _ => Aborted
    end.
Proof.
  intros Hv. unfold release, try_update, release_update, release_outcome. simpl.
  rewrite release_step_encode by done. unfold Spec.release.
  destruct (Spec.count v =? 0); [done|]. simpl. by rewrite release_outcome_step_encode.
Qed.

Lemma try_release_without_notification_view v :
  Spec.valid pw v ->
  try_release_without_notification pw (of_view v) =
    match Spec.release_without_notification v with
    | Success v' => Done (Some (Spec.release_outcome v), of_view v')
    | Rejected => Done (None, of_view v)
    | FailStop => Aborted
    end.
Proof.
  intros Hv. unfold try_release_without_notification, try_update,
    release_without_notification_update, release_outcome. simpl.
  rewrite release_without_notification_step_encode by done.
  destruct (Spec.release_without_notification v); simpl; [|done|done].
  by rewrite release_outcome_step_encode.
Qed.

Lemma mark_waiting_view v :
  Spec.valid pw v ->
  mark_waiting pw (of_view v) = (Spec.count v, of_view (Spec.mark_waiting v)).
Proof.
  intros Hv. unfold mark_waiting. simpl. rewrite count_test by done. f_equal.
  unfold of_view. f_equal. pose proof (k_nonneg pw). pose proof (valid_count pw v Hv).
  rewrite WAITING_BIT_pow, encode_packed, packed_lor_high by lia.
  by destruct v as [[] [] ?].
Qed.

Lemma seal_view v : Spec.valid pw v -> seal pw (of_view v) = of_view (Spec.seal v).
Proof.
  intros Hv. unfold seal, of_view. f_equal. cbn [state].
  pose proof (k_nonneg pw). pose proof (valid_count pw v Hv).
  rewrite SEALED_BIT_pow, encode_packed, packed_lor_high by lia.
  by destruct v as [[] [] ?].
Qed.

Lemma reopen_view v :
  Spec.valid pw v ->
  reopen pw (of_view v) =
    match Spec.reopen v with
    | Success v' => Done (Ok tt, of_view v')
    | _ => Done (Err ReopenError, of_view v)
    end.
Proof.
  intros Hv. unfold reopen, try_update, reopen_update. simpl.
  rewrite reopen_step_encode by done. unfold Spec.reopen.
  destruct (Spec.sealed v && (Spec.count v =? 0)); done.
Qed.

Lemma is_sealed_view v : Spec.valid pw v -> is_sealed pw (of_view v) = Spec.sealed v.
Proof. intros Hv. unfold is_sealed. simpl. by rewrite sealed_test, negb_involutive. Qed.

Lemma active_view v : Spec.valid pw v -> active pw (of_view v) = Spec.count v.
Proof. apply count_test. Qed.

Lemma idle_seal_logic_encode v :
  Spec.valid pw v ->
  idle_seal_logic (Spec.encode pw v) (SEALED_BIT pw) (ACTIVE_COUNT_MASK pw)
  = Spec.encode pw <$> Spec.idle_seal v.
Proof.
  intros Hv. unfold idle_seal_logic, Spec.idle_seal.
  rewrite Z.land_lor_distr_r, count_test by done.
  pose proof (sealed_test pw v Hv) as Hs.
  destruct (Z.eqb_spec (Z.lor (Z.land (Spec.encode pw v) (SEALED_BIT pw)) (Spec.count v)) 0)
    as [E|E].
  - apply Z.lor_eq_0_iff in E as [E1 E2]. rewrite E1 in Hs. simpl in Hs.
    rewrite <- Hs, E2. simpl. f_equal.
    pose proof (seal_view v Hv) as Heq. unfold seal, of_view in Heq.
    injection Heq as Heq. rewrite Heq. unfold Spec.seal. by rewrite E2.
  - destruct (Z.eqb_spec (Z.land (Spec.encode pw v) (SEALED_BIT pw)) 0) as [E1|E1].
    + rewrite <- Hs. simpl. rewrite E1 in E. simpl in E.
      by destruct (Z.eqb_spec (Spec.count v) 0).
    + by rewrite <- Hs.
Qed.

Lemma undo_idle_seal_logic_encode v :
  Spec.valid pw v ->
  undo_idle_seal_logic pw (Spec.encode pw v) (SEALED_BIT pw) (ACTIVE_COUNT_MASK pw)
  = Spec.encode pw <$> Spec.undo_idle_seal v.
Proof.
  intros Hv. unfold undo_idle_seal_logic, Spec.undo_idle_seal.
  rewrite count_test, sealed_test, negb_involutive by done.
  destruct v as [s w c]; cbn [Spec.sealed Spec.count Spec.waiting].
  destruct s; [|done]. destruct (Z.eqb_spec c 0) as [->|]; [|done]. simpl. f_equal.
  pose proof (k_nonneg pw). pose proof (Z.pow_pos_nonneg 2 (bits pw - 2) ltac:(lia) ltac:(lia)).
  rewrite pow_bits, SEALED_BIT_pow, Z.land_comm, !encode_packed.
  cbn [Spec.count]. rewrite !Z.add_0_l.
  replace (4 * 2 ^ (bits pw - 2) - 1 - 2 * 2 ^ (bits pw - 2))
    with ((2 ^ (bits pw - 2) - 1) + 1 * 2 ^ (bits pw - 2)) by lia.
  rewrite packed_land_high by lia. by destruct w.
Qed.

(** The seal attempt succeeds exactly when nothing changed since the load and
    the counter is open and idle; otherwise it leaves the word alone. *)
Lemma try_idle_seal_view observed v :
  Spec.valid pw v -> in_width (bits pw) observed ->
  try_idle_seal pw observed (of_view v) =
    match Spec.idle_seal v with
    | Some v' => if observed =? Spec.encode pw v then (true, of_view v') else (false, of_view v)
    | None => (false, of_view v)
    end.
Proof.
  intros Hv Ho. unfold try_idle_seal.
  rewrite <- (encode_decode pw observed Ho).
  rewrite idle_seal_logic_encode by apply decode_valid.
  rewrite (encode_decode pw observed Ho). unfold compare_exchange. cbn [state of_view].
  destruct (Z.eqb_spec observed (Spec.encode pw v)) as [->|Hne].
  - rewrite Z.eqb_refl, decode_encode by done. by destruct (Spec.idle_seal v).
  - rewrite (proj2 (Z.eqb_neq _ _)) by done.
    by destruct (Spec.idle_seal v), (Spec.idle_seal (Spec.decode pw observed)).
Qed.

Lemma undo_idle_seal_view v :
  Spec.valid pw v ->
  undo_idle_seal pw (of_view v) =
    match Spec.undo_idle_seal v with
    | Some v' => Done (Ok tt, of_view v')
    | None => Done (Err ReopenError, of_view v)
    end.
Proof.
  intros Hv. unfold undo_idle_seal, try_update. simpl.
  rewrite undo_idle_seal_logic_encode by done. by destruct (Spec.undo_idle_seal v).
Qed.

End Ops_spec.

(** The specification keeps the count in range: the reachable words never
    overflow into the flag bits. *)
Lemma spec_acquire_valid pw v v' :
  Spec.valid pw v -> Spec.acquire pw v = Success v' -> Spec.valid pw v'.
Proof. unfold Spec.valid, Spec.acquire. intros. split_match; lia. Qed.

Lemma spec_release_valid pw v v' :
  Spec.valid pw v -> Spec.release v = Success v' -> Spec.valid pw v'.
Proof. unfold Spec.valid, Spec.release. intros. split_match; lia. Qed.

Lemma spec_release_without_notification_valid pw v v' :
  Spec.valid pw v -> Spec.release_without_notification v = Success v' -> Spec.valid pw v'.
Proof. unfold Spec.valid, Spec.release_without_notification. intros. split_match; lia. Qed.

Lemma max_count_pos pw : 0 < Spec.max_count pw.
Proof. by destruct pw. Qed.

Lemma idle_valid pw s w : Spec.valid pw (Spec.View s w 0).
Proof. pose proof (max_count_pos pw). unfold Spec.valid; simpl; lia. Qed.

Lemma spec_reopen_valid pw v v' : Spec.reopen v = Success v' -> Spec.valid pw v'.
Proof.
  unfold Spec.valid, Spec.reopen. pose proof (max_count_pos pw). intros. split_match; lia.
Qed.

Lemma spec_idle_seal_valid pw v v' : Spec.idle_seal v = Some v' -> Spec.valid pw v'.
Proof.
  unfold Spec.valid, Spec.idle_seal. pose proof (max_count_pos pw). intros. split_match; lia.
Qed.

Lemma spec_undo_idle_seal_valid pw v v' : Spec.undo_idle_seal v = Some v' -> Spec.valid pw v'.
Proof.
  unfold Spec.valid, Spec.undo_idle_seal. pose proof (max_count_pos pw). intros.
  split_match; lia.
Qed.

Lemma spec_seal_valid pw v : Spec.valid pw v -> Spec.valid pw (Spec.seal v).
Proof. done. Qed.

Lemma spec_mark_waiting_valid pw v : Spec.valid pw v -> Spec.valid pw (Spec.mark_waiting v).
Proof. done. Qed.

#[export] Hint Resolve spec_acquire_valid spec_release_valid
  spec_release_without_notification_valid spec_reopen_valid spec_idle_seal_valid
  spec_undo_idle_seal_valid spec_seal_valid spec_mark_waiting_valid
  idle_valid view_of_valid of_view_wf : xlfn.

(** ** Sequences of operations *)
Module Traces.
Import Counter.

Inductive op : Type :=
| OpAcquire | OpRelease | OpReleaseFast | OpMarkWaiting | OpSeal
| OpIdleSeal | OpUndoIdleSeal | OpReopen.

(** One operation, with the change of outstanding permits its caller sees in
    the returned value. *)
Definition apply_op (pw : pointer_width) (o : op) (c : SealableCounter)
  : outcome (Z * SealableCounter) :=
  match o with
  | OpAcquire =>
      let* (r, c') := try_acquire pw c in Done (if is_ok r then 1 else 0, c')
  | OpRelease => let* (_, c') := release pw c in Done (-1, c')
  | OpReleaseFast =>
      let* (r, c') := try_release_without_notification pw c in
      Done (match r with Some _ => -1 | None => 0 end, c')
  | OpMarkWaiting => Done (0, snd (mark_waiting pw c))
  | OpSeal => Done (0, seal pw c)
  | OpIdleSeal => Done (0, snd (try_seal_if_idle pw c))
  | OpUndoIdleSeal => let* (_, c') := undo_idle_seal pw c in Done (0, c')
  | OpReopen => let* (_, c') := reopen pw c in Done (0, c')
  end.

Fixpoint run (pw : pointer_width) (ops : list op) (permits : Z) (c : SealableCounter)
  : outcome (Z * SealableCounter) :=
  match ops with
  | [] => Done (permits, c)
  | o :: ops =>
      let* (d, c') := apply_op pw o c in run pw ops (permits + d) c'
  end.

(** The caller releases only permits it holds, and holds at most the maximum. *)
Fixpoint disciplined (pw : pointer_width) (ops : list op) (permits : Z) (c : SealableCounter)
  : Prop :=
  match ops with
  | [] => True
  | o :: ops =>
      match o with
      | OpAcquire => permits < Spec.max_count pw
      | OpRelease | OpReleaseFast => 0 < permits
      | _ => True
      end /\
      match apply_op pw o c with
      | Done (d, c') => disciplined pw ops (permits + d) c'
      | _ => True
      end
  end.

Definition reopening (o : op) : bool :=
  match o with OpReopen | OpUndoIdleSeal => true | _ => false end.

Ltac op_done :=
  match goal with H : _ = Done _ |- _ => cbn in H; simplify_eq end;
  (eexists; split; [reflexivity|];
   unfold Spec.valid; simpl; repeat split; intros; try lia; try done).

(** One operation on the view: the new view is valid, the count moves by the
    reported difference, and only reopening clears the seal. *)
Lemma apply_op_view pw o v d c' :
  Spec.valid pw v -> apply_op pw o (of_view pw v) = Done (d, c') ->
  exists v', c' = of_view pw v' /\ Spec.valid pw v' /\ Spec.count v' = Spec.count v + d
    /\ (reopening o = false -> Spec.sealed v = true -> Spec.sealed v' = true /\ d <= 0).
Proof.
  intros Hv. destruct v as [s w n]. pose proof (max_count_pos pw) as Hmax.
  assert (Hn : 0 <= n <= Spec.max_count pw) by apply Hv.
  destruct o; unfold apply_op; intros H.
  - rewrite try_acquire_view in H by done. unfold Spec.acquire in H.
    destruct s; [by op_done|]. cbn in H. destruct (Z.eqb_spec n (Spec.max_count pw)); by op_done.
  - rewrite release_view in H by done. unfold Spec.release in H. cbn in H.
    destruct (Z.eqb_spec n 0); by op_done.
  - rewrite try_release_without_notification_view in H by done.
    unfold Spec.release_without_notification in H. cbn in H.
    destruct (Z.eqb_spec n 0); [done|]. destruct ((n =? 1) && w); by op_done.
  - rewrite mark_waiting_view in H by done. by op_done.
  - rewrite seal_view in H by done. by op_done.
  - unfold try_seal_if_idle in H. rewrite try_idle_seal_view in H;
      [|done|by apply of_view_wf]. rewrite Z.eqb_refl in H. unfold Spec.idle_seal in H.
    destruct s; [by op_done|]. cbn in H. destruct (Z.eqb_spec n 0); by op_done.
  - rewrite undo_idle_seal_view in H by done. unfold Spec.undo_idle_seal in H. cbn in H.
    destruct s; [|by op_done]. destruct (Z.eqb_spec n 0); by op_done.
  - rewrite reopen_view in H by done. unfold Spec.reopen in H. cbn in H.
    destruct s; [|by op_done]. destruct (Z.eqb_spec n 0); by op_done.
Qed.

Lemma run_view pw ops permits v permits' c' :
  Spec.valid pw v -> Spec.count v = permits ->
  run pw ops permits (of_view pw v) = Done (permits', c') ->
  exists v', c' = of_view pw v' /\ Spec.valid pw v' /\ Spec.count v' = permits'.
Proof.
  revert permits v. induction ops as [|o ops IH]; intros permits v Hv Hn H; simpl in H.
  - simplify_eq. eauto.
  - destruct (apply_op pw o (of_view pw v)) as [[d c]| |] eqn:E; try done. simpl in H.
    destruct (apply_op_view _ _ _ _ _ Hv E) as (v1 & -> & Hv1 & Hc & _).
    eapply IH; [done| |done]. lia.
Qed.

Lemma run_sealed pw ops permits v permits' c' :
  Spec.valid pw v -> Spec.sealed v = true -> forallb (fun o => negb (reopening o)) ops = true ->
  run pw ops permits (of_view pw v) = Done (permits', c') ->
  exists v', c' = of_view pw v' /\ Spec.valid pw v' /\ Spec.sealed v' = true
    /\ Spec.count v' <= Spec.count v.
Proof.
  revert permits v. induction ops as [|o ops IH]; intros permits v Hv Hs Hf H; simpl in H, Hf.
  - simplify_eq. eauto 6 with lia.
  - apply andb_true_iff in Hf as [Ho Hf]. apply negb_true_iff in Ho.
    destruct (apply_op pw o (of_view pw v)) as [[d c]| |] eqn:E; try done. simpl in H.
    destruct (apply_op_view _ _ _ _ _ Hv E) as (v1 & -> & Hv1 & Hc & Hk).
    destruct (Hk Ho Hs) as [Hs1 Hd].
    destruct (IH _ _ Hv1 Hs1 Hf H) as (v2 & -> & ? & ? & ?). eauto 6 with lia.
Qed.

Lemma apply_op_no_abort pw o v :
  Spec.valid pw v ->
  match o with
  | OpAcquire => Spec.count v < Spec.max_count pw
  | OpRelease | OpReleaseFast => 0 < Spec.count v
  | _ => True
  end ->
  exists d c', apply_op pw o (of_view pw v) = Done (d, c').
Proof.
  intros Hv Ho. destruct o; unfold apply_op.
  - rewrite try_acquire_view by done. unfold Spec.acquire. destruct (Spec.sealed v); [by eauto|].
    destruct (Z.eqb_spec (Spec.count v) (Spec.max_count pw)); [lia|by eauto].
  - rewrite release_view by done. unfold Spec.release.
    destruct (Z.eqb_spec (Spec.count v) 0); [lia|by eauto].
  - rewrite try_release_without_notification_view by done.
    unfold Spec.release_without_notification.
    destruct (Z.eqb_spec (Spec.count v) 0); [lia|].
    destruct ((Spec.count v =? 1) && Spec.waiting v); by eauto.
  - by eauto.
  - by eauto.
  - by eauto.
  - rewrite undo_idle_seal_view by done. destruct (Spec.undo_idle_seal v); by eauto.
  - rewrite reopen_view by done. unfold Spec.reopen.
    destruct (Spec.sealed v && (Spec.count v =? 0)); by eauto.
Qed.

Lemma disciplined_run_view pw ops permits v :
  Spec.valid pw v -> Spec.count v = permits -> disciplined pw ops permits (of_view pw v) ->
  exists permits' c', run pw ops permits (of_view pw v) = Done (permits', c').
Proof.
  revert permits v. induction ops as [|o ops IH]; intros permits v Hv Hn Hd; [by eauto|].
  destruct Hd as [Ho Hd]. subst permits.
  destruct (apply_op_no_abort pw o v Hv Ho) as (d & c & E). simpl. rewrite E in *. simpl.
  destruct (apply_op_view _ _ _ _ _ Hv E) as (v1 & -> & Hv1 & Hc & _). by apply IH.
Qed.

End Traces.

(** ** Properties of the counter *)
Module CounterTheorems.
Import Counter Traces.

(** C31: on every machine word of the platform's width, each of the transitions
    of transitions.rs, read through the packed layout, is its specification on
    the triple (sealed, waiting, active): it succeeds, rejects or fail-stops in
    the same cases, changes only the field it should, and yields a word of the
    same width. *)
Theorem word_transitions_refine_view (pw : pointer_width) (s : Z) :
  in_width (bits pw) s ->
  Spec.tmap (Spec.decode pw) (acquire_step pw s) = Spec.acquire pw (Spec.decode pw s)
  /\ Spec.tmap (Spec.decode pw) (release_step pw s) = Spec.release (Spec.decode pw s)
  /\ Spec.tmap (Spec.decode pw) (release_without_notification_step pw s)
     = Spec.release_without_notification (Spec.decode pw s)
  /\ Spec.tmap (Spec.decode pw) (reopen_step pw s) = Spec.reopen (Spec.decode pw s)
  /\ release_outcome_step pw s = Spec.release_outcome (Spec.decode pw s)
  /\ (forall step s', In step [acquire_step; release_step; release_without_notification_step; reopen_step] ->
        step pw s = Success s' -> in_width (bits pw) s').
Proof.
  intros Hs. pose proof (decode_valid pw s) as Hv. set (v := Spec.decode pw s) in *.
  rewrite <- (encode_decode pw s Hs). fold v.
  assert (Hd : forall o, (forall v', o = Success v' -> Spec.valid pw v') ->
            Spec.tmap (Spec.decode pw) (Spec.tmap (Spec.encode pw) o) = o).
  { intros [v'| |] Hok; simpl; [|done|done]. by rewrite decode_encode by eauto. }
  rewrite acquire_step_encode, release_step_encode, release_without_notification_step_encode,
    reopen_step_encode, release_outcome_step_encode by done.
  split_and!; [by apply Hd; eauto with xlfn..|done|].
  intros step s' Hin.
  assert (Hw : forall o s', (forall v', o = Success v' -> Spec.valid pw v') ->
            Spec.tmap (Spec.encode pw) o = Success s' -> in_width (bits pw) s').
  { intros [v'| |] s'' Hok E; simplify_eq/=. apply encode_in_width; eauto. }
  destruct Hin as [<-|[<-|[<-|[<-|[]]]]];
    rewrite ?acquire_step_encode, ?release_step_encode,
      ?release_without_notification_step_encode, ?reopen_step_encode by done;
    apply Hw; eauto with xlfn.
Qed.

(** A word of 64 bits with the seal and the notification bit set and three
    active permits. *)
Lemma word_transitions_refine_view_witness :
  release_step W64 0xC000000000000003 = Success 0xC000000000000002
  /\ Spec.tmap (Spec.decode W64) (acquire_step W64 0xC000000000000003) = Rejected.
Proof.
  split; [reflexivity|].
  refine (eq_trans (proj1 (word_transitions_refine_view W64 0xC000000000000003 _)) eq_refl).
  by vm_compute.
Defined.

(** The active count never drifts: after any sequence of operations on a
    fresh counter, it equals the number of admissions granted minus the number
    of releases reported, and stays within the count field. *)
Theorem active_counts_outstanding_permits (pw : pointer_width) (ops : list op)
  (permits : Z) (c : SealableCounter) :
  run pw ops 0 new_open = Done (permits, c) ->
  active pw c = permits /\ 0 <= permits <= Spec.max_count pw.
Proof.
  rewrite (new_open_view pw). intros H. apply run_view in H as (v & -> & Hv & <-);
    [|apply idle_valid|done].
  by rewrite active_view.
Qed.

Lemma active_counts_outstanding_permits_witness :
  active W32 {| state := 0xC0000001 |} = 1.
Proof.
  apply (active_counts_outstanding_permits W32
           [OpAcquire; OpAcquire; OpSeal; OpMarkWaiting; OpAcquire; OpReleaseFast; OpReleaseFast] 1).
  reflexivity.
Defined.

(** Sealing is final until a reopen: whatever operations other than a
    reopen or a seal rollback follow, admission keeps being refused with the
    counter untouched, and the active count can only go down. *)
Theorem sealed_counter_never_admits (pw : pointer_width) (ops : list op) (permits permits' : Z)
  (c c' : SealableCounter) :
  in_width (bits pw) (state c) -> is_sealed pw c = true ->
  forallb (fun o => negb (reopening o)) ops = true ->
  run pw ops permits c = Done (permits', c') ->
  try_acquire pw c' = Done (Err Sealed, c') /\ active pw c' <= active pw c.
Proof.
  intros Hw. rewrite <- (of_view_of pw c Hw). pose proof (view_of_valid pw c) as Hv.
  set (v := view_of pw c) in *. rewrite is_sealed_view, active_view by done. intros Hs Hf H.
  apply run_sealed in H as (v' & -> & Hv' & Hs' & Hc); [|done..].
  rewrite try_acquire_view, active_view by done. unfold Spec.acquire. by rewrite Hs'.
Qed.

Lemma sealed_counter_never_admits_witness :
  try_acquire W32 {| state := 0x80000001 |} = Done (Err Sealed, {| state := 0x80000001 |})
  /\ active W32 {| state := 0x80000001 |} <= active W32 {| state := 0x80000002 |}.
Proof.
  apply (sealed_counter_never_admits W32 [OpAcquire; OpRelease; OpAcquire] 2 1);
    [by vm_compute|reflexivity|reflexivity|reflexivity].
Defined.

(** The process never aborts in the counter when callers release only
    permits they hold and hold fewer than the maximum when they ask for one
    more. *)
Theorem disciplined_callers_never_abort (pw : pointer_width) (ops : list op) :
  disciplined pw ops 0 new_open ->
  exists permits c, run pw ops 0 new_open = Done (permits, c).
Proof.
  rewrite (new_open_view pw). apply disciplined_run_view; [apply idle_valid|done].
Qed.

Lemma disciplined_callers_never_abort_witness :
  exists permits c, run W32 [OpAcquire; OpRelease; OpSeal; OpReopen; OpAcquire] 0 new_open
    = Done (permits, c).
Proof. apply disciplined_callers_never_abort. by vm_compute. Defined.

End CounterTheorems.
