(* ===== verification/DrainGate.v ===== *)
(** * Drain gates

    Models crates/xlfn-kernel/src/drain_gate.rs, drain_gate/protocol.rs and
    drain_gate/control.rs: the single-counter gate, the striped gate, the
    terminal adapter, the typestate of the management claim and the per-thread
    stripe assignment.  Each definition is the effect of one whole call with no
    other thread in between; the interleavings are in TerminalGate.v and
    StripedGate.v, which reuse the per-stripe steps defined here. *)

From S2P Require Import Prelude SealableCounter.
Import SealableCounter.Counter.

(** ** The single-counter gate *)
Module DrainGate.

Section Gate.
Context (pw : pointer_width).

(** The notification mutex, the condition variable and the management mutex
    carry no data. *)
Record t : Type := { counter : SealableCounter }.

Definition new_open : t := {| counter := Counter.new_open |}.
Definition new_sealed : t := {| counter := Counter.new_sealed pw |}.

(** [try_enter], [try_enter_owned] and [DetachedDrainPermit::acquire]: [Ok]
    carries a permit for one active count. *)
Definition try_enter (g : t) : outcome (result unit Sealed_error * t) :=
  let* (r, c) := Counter.try_acquire pw (counter g) in Done (r, {| counter := c |}).

(** [release]: the fast path, or the tail that locks, releases, notifies when
    the gate became idle, and unlocks.  The boolean says whether [notify_all]
    ran. *)
Definition release_and_notify (g : t) : outcome (ReleaseOutcome * bool * t) :=
  let* (o, c) := Counter.release pw (counter g) in
  Done (o, match o with BecameIdle => true | StillActive => false end, {| counter := c |}).

Definition release (g : t) : outcome (ReleaseOutcome * bool * t) :=
  let* (fast, c) := Counter.try_release_without_notification pw (counter g) in
  match fast with
  | Some o => Done (o, false, {| counter := c |})
  | None => release_and_notify {| counter := c |}
  end.

Definition seal (g : t) : t := {| counter := Counter.seal pw (counter g) |}.

(** [wait_until_idle] up to its first decision: [true] when it returns, [false]
    when the caller parks on the condition variable. *)
Definition wait_until_idle (g : t) : bool * t :=
  let '(active, c) := Counter.mark_waiting pw (counter g) in
  ((active =? 0)%Z, {| counter := c |}).

Definition reopen (g : t) : outcome (result unit Reopen_error * t) :=
  let* (r, c) := Counter.reopen pw (counter g) in Done (r, {| counter := c |}).

Definition active (g : t) : Z := Counter.active pw (counter g).
Definition is_sealed (g : t) : bool := Counter.is_sealed pw (counter g).

End Gate.
End DrainGate.

(** ** The striped gate *)
Module Striped.

Section Gate.
Context (pw : pointer_width).
Local Open Scope Z_scope.

Record t : Type := { counters : list SealableCounter }.

Definition new_open (n : nat) : t := {| counters := replicate n Counter.new_open |}.
Definition new_sealed (n : nat) : t := {| counters := replicate n (Counter.new_sealed pw) |}.

(** [counter]: [expect] panics when the stripe is out of range. *)
Definition counter (g : t) (stripe : nat) : outcome SealableCounter :=
  match counters g !! stripe with
  | Some c => Done c
  | None => Panicked
  end.

Definition set_counter (g : t) (stripe : nat) (c : SealableCounter) : t :=
  {| counters := <[stripe := c]> (counters g) |}.

Definition try_enter (g : t) (stripe : nat) : outcome (result unit Sealed_error * t) :=
  let* c := counter g stripe in
  let* (r, c') := Counter.try_acquire pw c in
  Done (r, set_counter g stripe c').

Definition release (g : t) (stripe : nat) : outcome (ReleaseOutcome * bool * t) :=
  let* c := counter g stripe in
  let* (fast, c1) := Counter.try_release_without_notification pw c in
  match fast with
  | Some o => Done (o, false, set_counter g stripe c1)
  | None =>
      let* (o, c2) := Counter.release pw c1 in
      Done (o, match o with BecameIdle => true | StillActive => false end,
            set_counter g stripe c2)
  end.

(** [seal_all_stripes!]: [todo] iterations from [index]. *)
Fixpoint seal_all_stripes (todo index : nat) (cs : list SealableCounter)
  : list SealableCounter :=
  match todo with
  | O => cs
  | S todo => seal_all_stripes todo (S index) (alter (Counter.seal pw) index cs)
  end.

Definition seal (g : t) : t :=
  {| counters := seal_all_stripes (length (counters g)) 0 (counters g) |}.

(** [seal_stripes!]: the inner rollback loop reopens stripes [rollback],
    [rollback + 1], ... ; a refused undo is a fail-stop. *)
Fixpoint undo_stripes (todo rollback : nat) (cs : list SealableCounter)
  : outcome (list SealableCounter) :=
  match todo with
  | O => Done cs
  | S todo =>
      match cs !! rollback with
      | None => Panicked
      | Some c =>
          let* (r, c') := Counter.undo_idle_seal pw c in
          match r with
          | Err _ => Aborted
          | Ok _ => undo_stripes todo (S rollback) (<[rollback := c']> cs)
          end
      end
  end.

Fixpoint seal_stripes (todo index : nat) (cs : list SealableCounter)
  : outcome (bool * list SealableCounter) :=
  match todo with
  | O => Done (true, cs)
  | S todo =>
      match cs !! index with
      | None => Panicked
      | Some c =>
          let '(sealed, c') := Counter.try_seal_if_idle pw c in
          let cs' := <[index := c']> cs in
          if sealed then seal_stripes todo (S index) cs'
          else let* cs'' := undo_stripes index 0 cs' in Done (false, cs'')
      end
  end.

Definition try_seal_if_idle (g : t) : outcome (bool * t) :=
  let* (b, cs) := seal_stripes (length (counters g)) 0 (counters g) in
  Done (b, {| counters := cs |}).

(** [observe_stripes!]: visits every stripe even after a busy one. *)
Fixpoint observe_stripes (todo index : nat) (idle : bool) (cs : list SealableCounter)
  : outcome (bool * list SealableCounter) :=
  match todo with
  | O => Done (idle, cs)
  | S todo =>
      match cs !! index with
      | None => Panicked
      | Some c =>
          let '(active, c') := Counter.mark_waiting pw c in
          observe_stripes todo (S index) (if negb (active =? 0) then false else idle)
            (<[index := c']> cs)
      end
  end.

Definition observe_stripes_idle (g : t) : outcome (bool * t) :=
  let* (b, cs) := observe_stripes (length (counters g)) 0 true (counters g) in
  Done (b, {| counters := cs |}).

(** [try_wait_until_idle]: [lock_free] says whether [idle.lock.try_lock()]
    succeeds. *)
Definition try_wait_until_idle (lock_free : bool) (g : t) : outcome (bool * t) :=
  if lock_free then observe_stripes_idle g else Done (false, g).

(** [wait_until_idle] up to its first decision, as for the single gate. *)
Definition wait_until_idle (g : t) : outcome (bool * t) := observe_stripes_idle g.

(** [reopen_stripes!]: stops at the first rejected transition and returns the
    number of stripes reopened. *)
Fixpoint reopen_stripes (todo index : nat) (cs : list SealableCounter)
  : outcome (nat * list SealableCounter) :=
  match todo with
  | O => Done (index, cs)
  | S todo =>
      match cs !! index with
      | None => Panicked
      | Some c =>
          let* (r, c') := Counter.reopen pw c in
          if is_ok r then reopen_stripes todo (S index) (<[index := c']> cs)
          else Done (index, <[index := c']> cs)
      end
  end.

Definition reopen (g : t) : outcome (result unit Reopen_error * t) :=
  if existsb (fun c => negb (Counter.is_sealed pw c) || negb (Counter.active pw c =? 0))
       (counters g)
  then Done (Err ReopenError, g)
  else
    let* (opened, cs) := reopen_stripes (length (counters g)) 0 (counters g) in
    Done (if bool_decide (opened = length (counters g)) then Ok tt else Err ReopenError,
          {| counters := cs |}).

(** [active]: a sum that fail-stops on overflow. *)
Definition active (g : t) : outcome Z :=
  foldl (fun acc c =>
           let* a := acc in
           match checked_add (bits pw) a (Counter.active pw c) with
           | Some s => Done s
           | None => Aborted
           end) (Done 0) (counters g).

Definition stripe_active (g : t) (stripe : nat) : outcome Z :=
  let* c := counter g stripe in Done (Counter.active pw c).

Definition is_sealed (g : t) : bool := forallb (Counter.is_sealed pw) (counters g).

End Gate.
End Striped.

(** ** Stripe loops on views

    A gate is described by the views of its counters; each loop of protocol.rs
    is a list function on those views. *)
Section Loops.
Context (pw : pointer_width).
Local Open Scope Z_scope.
Implicit Types vs : list Spec.view.

Abbreviation F := (fmap (M := list) (of_view pw)).
Abbreviation valid_all := (Forall (Spec.valid pw)).

Definition open_idle (v : Spec.view) : bool :=
  negb (Spec.sealed v) && (Spec.count v =? 0).
Definition sealed_idle (v : Spec.view) : bool :=
  Spec.sealed v && (Spec.count v =? 0).

Lemma lookup_middle {A} (a b : list A) x : (a ++ x :: b) !! length a = Some x.
Proof. by rewrite lookup_app_r, Nat.sub_diag. Qed.

Lemma insert_middle {A} (a b : list A) x y : <[length a := y]> (a ++ x :: b) = a ++ y :: b.
Proof. by rewrite insert_app_r_alt, Nat.sub_diag. Qed.

Lemma lookup_F_middle a b v : (F a ++ F (v :: b)) !! length a = Some (of_view pw v).
Proof. rewrite <- (length_fmap (of_view pw) a). apply lookup_middle. Qed.

Lemma insert_F_middle a b v v' :
  <[length a := of_view pw v']> (F a ++ F (v :: b)) = F (a ++ [v']) ++ F b.
Proof.
  rewrite <- (length_fmap (of_view pw) a), fmap_cons, insert_middle, fmap_app, <- app_assoc.
  done.
Qed.

Lemma snoc_length {A} (a : list A) x : S (length a) = length (a ++ [x]).
Proof. rewrite length_app. simpl. lia. Qed.

Lemma seal_all_stripes_views b : forall a,
  valid_all b ->
  Striped.seal_all_stripes pw (length b) (length a) (F a ++ F b)
  = F a ++ F (Spec.seal <$> b).
Proof.
  induction b as [|v b IH]; intros a Hb; [done|]. inversion Hb; subst.
  cbn [length Striped.seal_all_stripes].
  rewrite alter_app_r_alt; rewrite length_fmap; [|done].
  rewrite Nat.sub_diag, !fmap_cons. cbn [alter list_alter].
  rewrite seal_view by done. rewrite (snoc_length a (Spec.seal v)).
  replace (F a ++ of_view pw (Spec.seal v) :: F b) with (F (a ++ [Spec.seal v]) ++ F b)
    by (by rewrite fmap_app, <- app_assoc).
  rewrite IH by done. by rewrite fmap_app, <- app_assoc.
Qed.

Lemma observe_stripes_views b : forall a idle,
  valid_all b ->
  Striped.observe_stripes pw (length b) (length a) idle (F a ++ F b)
  = Done (idle && forallb (fun v => Spec.count v =? 0) b, F a ++ F (Spec.mark_waiting <$> b)).
Proof.
  induction b as [|v b IH]; intros a idle Hb; [by rewrite andb_true_r|].
  inversion Hb; subst. cbn [length Striped.observe_stripes].
  rewrite lookup_F_middle, mark_waiting_view, insert_F_middle, (snoc_length a (Spec.mark_waiting v))
    by done.
  rewrite IH by done. f_equal. f_equal.
  - simpl. by destruct (Spec.count v =? 0), idle.
  - by rewrite fmap_app, <- app_assoc.
Qed.

Lemma undo_stripes_views b : forall a c,
  valid_all b -> forallb open_idle b = true ->
  Striped.undo_stripes pw (length b) (length a) (F a ++ F ((Spec.seal <$> b) ++ c))
  = Done (F a ++ F (b ++ c)).
Proof.
  induction b as [|v b IH]; intros a c Hb Hi; [done|].
  inversion Hb; subst. simpl in Hi. apply andb_true_iff in Hi as [Hv Hi].
  cbn [length Striped.undo_stripes]. rewrite fmap_cons, <- app_comm_cons.
  rewrite lookup_F_middle, undo_idle_seal_view by done.
  destruct v as [s w n]. unfold open_idle in Hv. simpl in Hv.
  apply andb_true_iff in Hv as [Hs Hn]. apply negb_true_iff in Hs as ->.
  apply Z.eqb_eq in Hn as ->. cbn [Spec.undo_idle_seal Spec.seal Spec.sealed Spec.count andb Z.eqb].
  cbn [obind]. rewrite insert_F_middle, (snoc_length a (Spec.View false w 0)).
  rewrite IH by done. by rewrite fmap_app, <- app_assoc.
Qed.

Lemma seal_stripes_views b : forall a,
  valid_all (a ++ b) -> forallb open_idle a = true ->
  Striped.seal_stripes pw (length b) (length a) (F (Spec.seal <$> a) ++ F b)
  = Done (if forallb open_idle b then (true, F (Spec.seal <$> (a ++ b))) else (false, F (a ++ b))).
Proof.
  induction b as [|v b IH]; intros a Hab Ha.
  { simpl. by rewrite !app_nil_r. }
  pose proof Hab as [Hva Hvb]%Forall_app. inversion Hvb; subst.
  cbn [length Striped.seal_stripes forallb].
  rewrite <- (length_fmap Spec.seal a), lookup_F_middle.
  unfold Counter.try_seal_if_idle. rewrite try_idle_seal_view; [|done|by apply of_view_wf].
  cbn [state of_view]. rewrite Z.eqb_refl. unfold Spec.idle_seal.
  fold (open_idle v). destruct (open_idle v) eqn:Hv; cbv beta iota zeta.
  - rewrite insert_F_middle, length_fmap, (snoc_length a v).
    replace ((Spec.seal <$> a) ++ [Spec.View true (Spec.waiting v) 0])
      with (Spec.seal <$> (a ++ [v])).
    + rewrite IH; [by rewrite <- !app_assoc|by rewrite <- app_assoc|].
      rewrite forallb_app, Ha. simpl. by rewrite Hv.
    + rewrite fmap_app. simpl. unfold open_idle in Hv.
      apply andb_true_iff in Hv as [_ Hn%Z.eqb_eq]. unfold Spec.seal. by rewrite Hn.
  - rewrite (insert_F_middle _ _ v v), length_fmap.
    rewrite <- fmap_app, <- app_assoc. cbn [app].
    pose proof (undo_stripes_views a [] (v :: b) Hva Ha) as Hu. simpl in Hu. rewrite Hu. done.
Qed.

Lemma reopen_stripes_views b : forall a,
  valid_all b -> forallb sealed_idle b = true ->
  Striped.reopen_stripes pw (length b) (length a) (F a ++ F b)
  = Done ((length a + length b)%nat, F a ++ F (replicate (length b) (Spec.View false false 0))).
Proof.
  induction b as [|v b IH]; intros a Hb Hi.
  { simpl. by rewrite Nat.add_0_r. }
  inversion Hb; subst. cbn [forallb] in Hi. cbn [length Striped.reopen_stripes replicate]. apply andb_true_iff in Hi as [Hv Hi].
  rewrite lookup_F_middle, reopen_view by done. unfold Spec.reopen. fold (sealed_idle v).
  rewrite Hv. cbn [obind is_ok].
  rewrite insert_F_middle, (snoc_length a (Spec.View false false 0)).
  rewrite IH by done. f_equal. f_equal; [rewrite length_app; simpl; lia|].
  by rewrite fmap_app, <- app_assoc.
Qed.

End Loops.
