(* ===== verification/GateControl.v ===== *)
(** * Gate interface, management claims and the operation gate

    The contract a drain gate offers its clients is the class [AdmissionGate]
    with its laws; the single-counter and the striped gate are its two
    instances.  Against that contract this file models the typestate of
    drain_gate/control.rs ([GateControl] and [StripedGateControl]), the
    terminal adapter of drain_gate.rs and operation_gate.rs. *)

From S2P Require Import Prelude SealableCounter DrainGate.
Import SealableCounter.Counter.

Local Open Scope Z_scope.

(** ** The interface *)
Class AdmissionGate (G K : Type) : Type := {
  gate_try_enter : G -> K -> outcome (result unit Sealed_error * G);
  gate_release : G -> K -> outcome (ReleaseOutcome * bool * G);
  gate_seal : G -> G;
  gate_wait : G -> outcome (bool * G);
  gate_reopen : G -> outcome (result unit Reopen_error * G);
  gate_is_sealed : G -> bool;
}.

(** What the gate promises.  [gate_ok] is its representation invariant,
    [gate_key] the valid stripes, [gate_count] the outstanding permits. *)
Class AdmissionGateLaws (G K : Type) `{AdmissionGate G K} : Type := {
  gate_ok : G -> Prop;
  gate_key : G -> K -> Prop;
  gate_at : G -> K -> Z;
  gate_count : G -> Z;
  law_enter_sealed g k :
    gate_ok g -> gate_key g k -> gate_is_sealed g = true ->
    gate_try_enter g k = Done (Err Sealed, g);
  law_enter_admits g k g' :
    gate_ok g -> gate_key g k -> gate_try_enter g k = Done (Ok tt, g') ->
    gate_ok g' /\ gate_count g' = gate_count g + 1 /\ gate_at g' k = gate_at g k + 1
    /\ gate_is_sealed g = false /\ gate_is_sealed g' = false;
  law_release g k :
    gate_ok g -> gate_key g k -> 0 < gate_at g k ->
    exists o n g', gate_release g k = Done (o, n, g') /\ gate_ok g'
      /\ gate_count g' = gate_count g - 1 /\ gate_is_sealed g' = gate_is_sealed g;
  law_seal g :
    gate_ok g -> gate_ok (gate_seal g) /\ gate_is_sealed (gate_seal g) = true
      /\ gate_count (gate_seal g) = gate_count g;
  law_wait g :
    gate_ok g -> exists g', gate_wait g = Done (gate_count g =? 0, g') /\ gate_ok g'
      /\ gate_is_sealed g' = gate_is_sealed g /\ gate_count g' = gate_count g;
  law_reopen g :
    gate_ok g ->
    if gate_is_sealed g && (gate_count g =? 0)
    then exists g', gate_reopen g = Done (Ok tt, g') /\ gate_ok g'
           /\ gate_is_sealed g' = false /\ gate_count g' = 0
    else gate_reopen g = Done (Err ReopenError, g);
}.

(** ** Both gates are instances *)
#[export] Instance drain_gate_ops (pw : pointer_width) : AdmissionGate DrainGate.t unit := {
  gate_try_enter g _ := DrainGate.try_enter pw g;
  gate_release g _ := DrainGate.release pw g;
  gate_seal := DrainGate.seal pw;
  gate_wait g := Done (DrainGate.wait_until_idle pw g);
  gate_reopen := DrainGate.reopen pw;
  gate_is_sealed := DrainGate.is_sealed pw;
}.

#[export] Instance striped_ops (pw : pointer_width) : AdmissionGate Striped.t nat := {
  gate_try_enter := Striped.try_enter pw;
  gate_release := Striped.release pw;
  gate_seal := Striped.seal pw;
  gate_wait := Striped.wait_until_idle pw;
  gate_reopen := Striped.reopen pw;
  gate_is_sealed := Striped.is_sealed pw;
}.

Ltac gate_simpl :=
  cbn [gate_try_enter gate_release gate_seal gate_wait gate_reopen gate_is_sealed
       drain_gate_ops striped_ops].

Section SingleLaws.
Context (pw : pointer_width).

Definition single_of (v : Spec.view) : DrainGate.t := {| DrainGate.counter := of_view pw v |}.
Definition single_view (g : DrainGate.t) : Spec.view := view_of pw (DrainGate.counter g).

(** Every well-formed gate is given by a valid view. *)
Lemma single_cases g :
  wf pw (DrainGate.counter g) -> exists v, Spec.valid pw v /\ g = single_of v.
Proof.
  intros H. destruct g as [c]. exists (view_of pw c). split; [apply view_of_valid|].
  unfold single_of. by rewrite of_view_of.
Qed.

Lemma single_view_of v : Spec.valid pw v -> single_view (single_of v) = v.
Proof. apply view_of_view. Qed.

Lemma single_wf v : Spec.valid pw v -> wf pw (DrainGate.counter (single_of v)).
Proof. apply of_view_wf. Qed.

Lemma single_is_sealed v :
  Spec.valid pw v -> DrainGate.is_sealed pw (single_of v) = Spec.sealed v.
Proof. apply is_sealed_view. Qed.

Lemma single_seal v :
  Spec.valid pw v -> DrainGate.seal pw (single_of v) = single_of (Spec.seal v).
Proof.
  intros Hv. unfold DrainGate.seal. cbn [DrainGate.counter single_of]. by rewrite seal_view.
Qed.

Lemma single_try_enter v :
  Spec.valid pw v ->
  DrainGate.try_enter pw (single_of v) =
    match Spec.acquire pw v with
    | Success v' => Done (Ok tt, single_of v')
    | Rejected => Done (Err Sealed, single_of v)
    | FailStop => Aborted
    end.
Proof.
  intros Hv. unfold DrainGate.try_enter. simpl. rewrite try_acquire_view by done.
  by destruct (Spec.acquire pw v).
Qed.

(** Both paths of a release leave the same gate; a notification runs exactly
    when the last permit goes and a waiter is registered. *)
Lemma single_release v :
  Spec.valid pw v -> 0 < Spec.count v ->
  DrainGate.release pw (single_of v) =
    Done (Spec.release_outcome v, (Spec.count v =? 1) && Spec.waiting v,
          single_of (Spec.View (Spec.sealed v) (Spec.waiting v) (Spec.count v - 1))).
Proof.
  intros Hv Hc. unfold DrainGate.release. simpl.
  rewrite try_release_without_notification_view by done.
  unfold Spec.release_without_notification.
  rewrite (proj2 (Z.eqb_neq (Spec.count v) 0)) by lia.
  destruct (Z.eqb_spec (Spec.count v) 1) as [E|E]; [|done].
  destruct (Spec.waiting v) eqn:Ew; simpl; [|done].
  unfold DrainGate.release_and_notify. simpl. rewrite release_view by done.
  unfold Spec.release, Spec.release_outcome. rewrite E, Ew. done.
Qed.

Lemma single_wait v :
  Spec.valid pw v ->
  DrainGate.wait_until_idle pw (single_of v)
  = (Spec.count v =? 0, single_of (Spec.mark_waiting v)).
Proof.
  intros Hv. unfold DrainGate.wait_until_idle. cbn [DrainGate.counter single_of].
  by rewrite mark_waiting_view.
Qed.

Lemma single_reopen v :
  Spec.valid pw v ->
  DrainGate.reopen pw (single_of v) =
    if Spec.sealed v && (Spec.count v =? 0)
    then Done (Ok tt, single_of (Spec.View false false 0))
    else Done (Err ReopenError, single_of v).
Proof.
  intros Hv. unfold DrainGate.reopen. simpl. rewrite reopen_view by done. unfold Spec.reopen.
  by destruct (Spec.sealed v && (Spec.count v =? 0)).
Qed.

End SingleLaws.
#[local] Obligation Tactic := idtac.


#[export] Program Instance drain_gate_laws (pw : pointer_width) :
  @AdmissionGateLaws DrainGate.t unit (drain_gate_ops pw) := {
  gate_ok g := wf pw (DrainGate.counter g);
  gate_key _ _ := True;
  gate_at g _ := Spec.count (single_view pw g);
  gate_count g := Spec.count (single_view pw g);
}.
Next Obligation.
  gate_simpl.
  intros pw g [] (v & Hv & ->)%single_cases _ Hs. rewrite single_is_sealed in Hs by done.
  rewrite single_try_enter by done. unfold Spec.acquire. by rewrite Hs.
Qed.
Next Obligation.
  gate_simpl.
  intros pw g [] g' (v & Hv & ->)%single_cases _ He.
  rewrite single_try_enter in He by done.
  destruct (Spec.acquire pw v) as [v'| |] eqn:E; simplify_eq.
  pose proof (spec_acquire_valid _ _ _ Hv E) as Hv'.
  rewrite !single_is_sealed, !single_view_of by done. split; [by apply single_wf|].
  unfold Spec.acquire in E. destruct (Spec.sealed v) eqn:Es; [done|].
  destruct (Spec.count v =? Spec.max_count pw); simplify_eq; simpl. split_and!; lia || done.
Qed.
Next Obligation.
  gate_simpl.
  intros pw g [] (v & Hv & ->)%single_cases _ Hc. rewrite single_view_of in * by done.
  rewrite single_release by done. do 3 eexists. split; [done|].
  assert (Spec.valid pw (Spec.View (Spec.sealed v) (Spec.waiting v) (Spec.count v - 1))) as Hv'.
  { unfold Spec.valid in *; simpl in *; lia. }
  rewrite !single_is_sealed, single_view_of by done. split; [by apply single_wf|done].
Qed.
Next Obligation.
  gate_simpl.
  intros pw g (v & Hv & ->)%single_cases.
  rewrite single_seal, single_is_sealed, !single_view_of by done. split; [by apply single_wf|done].
Qed.
Next Obligation.
  gate_simpl.
  intros pw g (v & Hv & ->)%single_cases. rewrite single_wait, single_view_of by done.
  eexists. split; [done|]. rewrite !single_is_sealed, single_view_of by done.
  split; [by apply single_wf|done].
Qed.
Next Obligation.
  gate_simpl.
  intros pw g (v & Hv & ->)%single_cases.
  rewrite single_reopen, single_is_sealed, single_view_of by done.
  destruct (Spec.sealed v && (Spec.count v =? 0)); [|done].
  eexists. split; [done|]. rewrite single_is_sealed, single_view_of by apply idle_valid.
  split; [apply single_wf, idle_valid|done].
Qed.

(** The striped gate, on the views of its stripes. *)
Section StripedLaws.
Context (pw : pointer_width).
Implicit Types vs : list Spec.view.

Definition striped_of vs : Striped.t := {| Striped.counters := of_view pw <$> vs |}.
Definition striped_views (g : Striped.t) : list Spec.view := view_of pw <$> Striped.counters g.
Definition striped_ok (g : Striped.t) : Prop :=
  Forall (wf pw) (Striped.counters g) /\ Striped.counters g <> [].
Definition total vs : Z := foldr (fun v acc => Spec.count v + acc) 0 vs.

Abbreviation valid_all := (Forall (Spec.valid pw)).

Lemma striped_cases g :
  striped_ok g -> exists vs, valid_all vs /\ vs <> [] /\ g = striped_of vs.
Proof.
  intros [Hw Hn]. destruct g as [cs]. simpl in *. exists (view_of pw <$> cs). split_and!.
  - apply Forall_fmap. eapply Forall_impl; [exact Hw|]. intros. apply view_of_valid.
  - by destruct cs.
  - unfold striped_of. f_equal. clear Hn. induction Hw as [|c cs Hc Hcs IH]; [done|].
    rewrite !fmap_cons, of_view_of by done. by f_equal.
Qed.

Lemma striped_of_ok vs : valid_all vs -> vs <> [] -> striped_ok (striped_of vs).
Proof.
  intros Hv Hn. split; [|by destruct vs]. apply Forall_fmap.
  eapply Forall_impl; [exact Hv|]. intros. by apply of_view_wf.
Qed.

Lemma striped_views_of vs : valid_all vs -> striped_views (striped_of vs) = vs.
Proof.
  unfold striped_views, striped_of. simpl. induction 1 as [|v vs Hv _ IH]; [done|].
  rewrite !fmap_cons, view_of_view, IH by done. done.
Qed.

Lemma total_nonneg vs : valid_all vs -> 0 <= total vs.
Proof.
  induction 1 as [|v vs Hv _ IH]; [done|]. unfold Spec.valid in Hv. simpl. lia.
Qed.

Lemma total_insert vs i v v' :
  vs !! i = Some v -> total (<[i := v']> vs) = total vs + Spec.count v' - Spec.count v.
Proof.
  revert i. induction vs as [|u vs IH]; intros [|i] H; simplify_eq/=; [lia|].
  rewrite (IH _ H). lia.
Qed.

Lemma total_zero vs :
  valid_all vs -> (total vs =? 0) = forallb (fun v => Spec.count v =? 0) vs.
Proof.
  induction 1 as [|v vs Hv Hvs IH]; [done|]. unfold Spec.valid in Hv. simpl. rewrite <- IH.
  pose proof (total_nonneg vs Hvs).
  destruct (Z.eqb_spec (Spec.count v) 0), (Z.eqb_spec (total vs) 0),
    (Z.eqb_spec (Spec.count v + total vs) 0); lia || done.
Qed.

Lemma striped_lookup vs i v :
  vs !! i = Some v -> Striped.counter (striped_of vs) i = Done (of_view pw v).
Proof.
  intros H. unfold Striped.counter, striped_of. simpl. by rewrite list_lookup_fmap, H.
Qed.

Lemma striped_set vs i v :
  Striped.set_counter (striped_of vs) i (of_view pw v) = striped_of (<[i := v]> vs).
Proof. unfold Striped.set_counter, striped_of. simpl. by rewrite list_fmap_insert. Qed.

Lemma striped_is_sealed vs :
  valid_all vs -> Striped.is_sealed pw (striped_of vs) = forallb Spec.sealed vs.
Proof.
  unfold Striped.is_sealed, striped_of. simpl. induction 1 as [|v vs Hv _ IH]; [done|].
  rewrite fmap_cons. simpl. by rewrite is_sealed_view, IH.
Qed.

Lemma striped_seal vs :
  valid_all vs -> Striped.seal pw (striped_of vs) = striped_of (Spec.seal <$> vs).
Proof.
  intros Hv. unfold Striped.seal, striped_of. cbn [Striped.counters]. f_equal.
  rewrite length_fmap. apply (seal_all_stripes_views pw vs [] Hv).
Qed.

Lemma striped_observe vs :
  valid_all vs ->
  Striped.observe_stripes_idle pw (striped_of vs)
  = Done (total vs =? 0, striped_of (Spec.mark_waiting <$> vs)).
Proof.
  intros Hv. unfold Striped.observe_stripes_idle, striped_of. cbn [Striped.counters].
  pose proof (observe_stripes_views pw vs [] true Hv) as E. simpl in E. rewrite length_fmap.
  setoid_rewrite E. simpl. by rewrite total_zero.
Qed.

Lemma striped_try_seal_if_idle vs :
  valid_all vs ->
  Striped.try_seal_if_idle pw (striped_of vs)
  = Done (if forallb open_idle vs then (true, striped_of (Spec.seal <$> vs))
          else (false, striped_of vs)).
Proof.
  intros Hv. unfold Striped.try_seal_if_idle, striped_of. cbn [Striped.counters].
  pose proof (seal_stripes_views pw vs [] Hv eq_refl) as E. simpl in E. rewrite length_fmap.
  setoid_rewrite E. by destruct (forallb open_idle vs).
Qed.

Lemma reopen_guard vs :
  valid_all vs ->
  existsb (fun c => negb (Counter.is_sealed pw c) || negb (Counter.active pw c =? 0))
    (of_view pw <$> vs) = negb (forallb sealed_idle vs).
Proof.
  induction 1 as [|v vs Hv _ IH]; [done|]. rewrite fmap_cons. simpl.
  rewrite is_sealed_view, active_view, IH by done. unfold sealed_idle.
  by destruct (Spec.sealed v), (Spec.count v =? 0), (forallb _ vs).
Qed.

Lemma striped_reopen vs :
  valid_all vs ->
  Striped.reopen pw (striped_of vs) =
    if forallb sealed_idle vs
    then Done (Ok tt, striped_of (replicate (length vs) (Spec.View false false 0)))
    else Done (Err ReopenError, striped_of vs).
Proof.
  intros Hv. unfold Striped.reopen, striped_of. cbn [Striped.counters].
  rewrite reopen_guard by done. destruct (forallb sealed_idle vs) eqn:E; [|done]. simpl.
  pose proof (reopen_stripes_views pw vs [] Hv E) as R. simpl in R. rewrite length_fmap.
  setoid_rewrite R. simpl. by rewrite bool_decide_true.
Qed.

Lemma sealed_idle_all vs :
  valid_all vs -> forallb sealed_idle vs = forallb Spec.sealed vs && (total vs =? 0).
Proof.
  intros Hv. rewrite total_zero by done. clear Hv. induction vs as [|v vs IH]; [done|].
  simpl. rewrite IH. unfold sealed_idle.
  by destruct (Spec.sealed v), (Spec.count v =? 0), (forallb Spec.sealed vs).
Qed.

Lemma forallb_sealed_insert vs i v v' :
  vs !! i = Some v -> Spec.sealed v' = Spec.sealed v ->
  forallb Spec.sealed (<[i := v']> vs) = forallb Spec.sealed vs.
Proof.
  revert i. induction vs as [|u vs IH]; intros [|i] H E; simplify_eq/=; [by rewrite E|].
  by rewrite (IH _ H E).
Qed.

Lemma forallb_sealed_lookup vs i v :
  forallb Spec.sealed vs = true -> vs !! i = Some v -> Spec.sealed v = true.
Proof.
  rewrite forallb_forall. intros H Hi. apply H, list_elem_of_In, list_elem_of_lookup. eauto.
Qed.

Lemma forallb_sealed_fmap vs : forallb Spec.sealed (Spec.seal <$> vs) = true.
Proof. by induction vs. Qed.

Lemma total_fmap (f : Spec.view -> Spec.view) vs :
  (forall v, Spec.count (f v) = Spec.count v) -> total (f <$> vs) = total vs.
Proof. intros Hf. induction vs as [|v vs IH]; [done|]. simpl. rewrite Hf. setoid_rewrite IH. done. Qed.

End StripedLaws.

#[export] Program Instance striped_laws (pw : pointer_width) :
  @AdmissionGateLaws Striped.t nat (striped_ops pw) := {
  gate_ok := striped_ok pw;
  gate_key g stripe := (stripe < length (Striped.counters g))%nat;
  gate_at g stripe := from_option Spec.count 0 (striped_views pw g !! stripe);
  gate_count g := total (striped_views pw g);
}.
Next Obligation.
  gate_simpl. intros pw g i (vs & Hv & Hn & ->)%striped_cases Hi Hs.
  rewrite striped_is_sealed in Hs by done. unfold striped_of in Hi. simpl in Hi.
  rewrite length_fmap in Hi. destruct (lookup_lt_is_Some_2 vs i Hi) as [v Ev].
  unfold Striped.try_enter. rewrite (striped_lookup _ _ _ _ Ev). cbn [obind].
  rewrite try_acquire_view by (eapply Forall_lookup_1; eauto). unfold Spec.acquire.
  rewrite (forallb_sealed_lookup _ _ _ Hs Ev). cbn [obind].
  by rewrite striped_set, list_insert_id.
Qed.
Next Obligation.
  gate_simpl. intros pw g i g' (vs & Hv & Hn & ->)%striped_cases Hi He.
  unfold striped_of in Hi. simpl in Hi. rewrite length_fmap in Hi.
  destruct (lookup_lt_is_Some_2 vs i Hi) as [v Ev].
  unfold Striped.try_enter in He. rewrite (striped_lookup _ _ _ _ Ev) in He. cbn [obind] in He.
  pose proof (Forall_lookup_1 _ _ _ _ Hv Ev) as Hvi. rewrite try_acquire_view in He by done.
  destruct (Spec.acquire pw v) as [v'| |] eqn:E; cbn [obind] in He; simplify_eq.
  pose proof (spec_acquire_valid _ _ _ Hvi E) as Hv'. rewrite striped_set.
  assert (Hvs' : Forall (Spec.valid pw) (<[i := v']> vs)) by (by apply Forall_insert).
  assert (Hsv : Spec.sealed v = false /\ Spec.sealed v' = false
                /\ Spec.count v' = Spec.count v + 1).
  { unfold Spec.acquire in E. destruct (Spec.sealed v); [done|].
    destruct (Spec.count v =? Spec.max_count pw); by simplify_eq. }
  destruct Hsv as (Hs & Hs' & Hc).
  rewrite !striped_is_sealed, !striped_views_of, (total_insert _ _ _ _ Ev) by done.
  rewrite list_lookup_insert_eq, Ev by done. simpl.
  rewrite (forallb_sealed_insert _ _ v) by (done || congruence).
  assert (forallb Spec.sealed vs = false) as Hfs.
  { apply not_true_is_false. intros Ht. rewrite (forallb_sealed_lookup _ _ _ Ht Ev) in Hs. done. }
  split; [apply striped_of_ok; [done|]; by destruct vs, i|]. split_and!; lia || done.
Qed.
Next Obligation.
  gate_simpl. intros pw g i (vs & Hv & Hn & ->)%striped_cases Hi Hc.
  unfold striped_of in Hi. simpl in Hi. rewrite length_fmap in Hi.
  destruct (lookup_lt_is_Some_2 vs i Hi) as [v Ev].
  rewrite striped_views_of, Ev in * by done. simpl in Hc.
  pose proof (Forall_lookup_1 _ _ _ _ Hv Ev) as Hvi.
  set (v' := Spec.View (Spec.sealed v) (Spec.waiting v) (Spec.count v - 1)).
  assert (Spec.valid pw v') as Hv' by (unfold Spec.valid in *; simpl in *; lia).
  exists (Spec.release_outcome v), ((Spec.count v =? 1) && Spec.waiting v), (striped_of pw (<[i := v']> vs)).
  assert (Forall (Spec.valid pw) (<[i := v']> vs)) by (by apply Forall_insert).
  rewrite !striped_is_sealed, striped_views_of, (total_insert _ _ _ _ Ev),
    (forallb_sealed_insert _ _ v v') by done.
  split_and!; [|apply striped_of_ok; [done|]; by destruct vs, i|simpl; lia|done].
  pose proof (single_release pw v Hvi Hc) as R. fold v' in R.
  unfold Striped.release. rewrite (striped_lookup _ _ _ _ Ev). cbn [obind].
  unfold DrainGate.release, single_of in R. cbn [DrainGate.counter] in R.
  rewrite <- striped_set.
  destruct (try_release_without_notification pw (of_view pw v)) as [[[o|] c]| |];
    cbn [obind] in *; [by injection R as -> -> -> | |discriminate R..].
  unfold DrainGate.release_and_notify in R. cbn [DrainGate.counter] in R.
  destruct (Counter.release pw c) as [[o c2]| |]; cbn [obind] in *;
    [by injection R as -> -> -> |discriminate R..].
Qed.
Next Obligation.
  gate_simpl. intros pw g (vs & Hv & Hn & ->)%striped_cases. rewrite striped_seal by done.
  assert (Forall (Spec.valid pw) (Spec.seal <$> vs)) by (by apply Forall_fmap).
  rewrite striped_is_sealed, !striped_views_of, forallb_sealed_fmap, total_fmap by done.
  split; [|done]. apply striped_of_ok; [done|]. by destruct vs.
Qed.
Next Obligation.
  gate_simpl. intros pw g (vs & Hv & Hn & ->)%striped_cases. unfold Striped.wait_until_idle.
  rewrite striped_observe, striped_views_of by done. eexists. split; [done|].
  assert (Forall (Spec.valid pw) (Spec.mark_waiting <$> vs)) by (by apply Forall_fmap).
  rewrite !striped_is_sealed, striped_views_of, total_fmap by done.
  split_and!; [apply striped_of_ok; [done|]; by destruct vs| |done].
  clear. induction vs as [|v vs IH]; [done|]. rewrite fmap_cons. simpl. by rewrite IH.
Qed.
Next Obligation.
  gate_simpl. intros pw g (vs & Hv & Hn & ->)%striped_cases.
  rewrite striped_reopen, striped_is_sealed, striped_views_of, <- (sealed_idle_all pw) by done.
  destruct (forallb sealed_idle vs); [|done]. eexists. split; [done|].
  assert (Forall (Spec.valid pw) (replicate (length vs) (Spec.View false false 0))).
  { apply Forall_replicate, idle_valid. }
  rewrite striped_is_sealed, striped_views_of by done.
  split_and!; [apply striped_of_ok; [done|]; by destruct vs|by destruct vs|].
  clear. by induction vs.
Qed.

(** ** The management claim: drain_gate/control.rs

    The phase of a claim is an index of its type, as in the source.  A blocking
    wait either returns the claim in its new phase or parks. *)
Module Control.

Inductive phase : Type := GateUnknown | GateSealed | GateDrained | GateOpen.

Record GateControl (G : Type) (p : phase) : Type := Claim { gate : G }.
Arguments Claim {G} p _.
Arguments gate {G p} _.

Inductive waited (G : Type) (p : phase) : Type :=
| Returned (c : GateControl G p)
| Parked (g : G).
Arguments Returned {G p} _.
Arguments Parked {G p} _.

Section Claims.
Context {G K : Type} `{AdmissionGate G K}.

Definition control (g : G) : GateControl G GateUnknown := Claim GateUnknown g.

(** [try_claim]: [free] says whether the control mutex can be taken. *)
Definition try_control (free : bool) (g : G) : option (GateControl G GateUnknown) :=
  if free then Some (Claim GateUnknown g) else None.

Definition seal {p} (c : GateControl G p) : GateControl G GateSealed :=
  Claim GateSealed (gate_seal (gate c)).

Definition wait_idle (c : GateControl G GateUnknown) : outcome (waited G GateUnknown) :=
  let* (idle, g) := gate_wait (gate c) in
  Done (if idle then Returned (Claim GateUnknown g) else Parked g).

Definition wait_if_sealed (c : GateControl G GateUnknown)
  : outcome (result (waited G GateDrained) (GateControl G GateUnknown)) :=
  if negb (gate_is_sealed (gate c)) then Done (Err c)
  else
    let* (idle, g) := gate_wait (gate c) in
    Done (Ok (if idle then Returned (Claim GateDrained g) else Parked g)).

(** [lock_free] says whether the notification mutex can be taken. *)
Definition try_drained (lock_free : bool) (c : GateControl G GateUnknown)
  : outcome (result (GateControl G GateDrained) (GateControl G GateUnknown)) :=
  if negb (gate_is_sealed (gate c)) then Done (Err c)
  else if negb lock_free then Done (Err c)
  else
    let* (idle, g) := gate_wait (gate c) in
    Done (if idle then Ok (Claim GateDrained g) else Err (Claim GateUnknown g)).

Definition wait (c : GateControl G GateSealed) : outcome (waited G GateDrained) :=
  let* (idle, g) := gate_wait (gate c) in
  Done (if idle then Returned (Claim GateDrained g) else Parked g).

Definition try_wait (lock_free : bool) (c : GateControl G GateSealed)
  : outcome (result (GateControl G GateDrained) (GateControl G GateSealed)) :=
  if negb lock_free then Done (Err c)
  else
    let* (idle, g) := gate_wait (gate c) in
    Done (if idle then Ok (Claim GateDrained g) else Err (Claim GateSealed g)).

Definition reopen (c : GateControl G GateDrained) : outcome (GateControl G GateOpen) :=
  let* (r, g) := gate_reopen (gate c) in
  match r with
  | Ok _ => Done (Claim GateOpen g)
  | Err _ => Aborted
  end.

End Claims.

(** [StripedGateControl::try_seal_if_idle]. *)
Definition try_seal_if_idle (pw : pointer_width) (c : GateControl Striped.t GateUnknown)
  : outcome (result (GateControl Striped.t GateSealed) (GateControl Striped.t GateUnknown)) :=
  let* (sealed, g) := Striped.try_seal_if_idle pw (gate c) in
  Done (if sealed then Ok (Claim GateSealed g) else Err (Claim GateUnknown g)).

(** What each phase certifies of the gate it claims. *)
Definition certified {G K} `{L : AdmissionGateLaws G K} {p : phase} (c : GateControl G p) : Prop :=
  gate_ok (gate c) /\
  match p with
  | GateUnknown => True
  | GateSealed => gate_is_sealed (gate c) = true
  | GateDrained => gate_is_sealed (gate c) = true /\ gate_count (gate c) = 0
  | GateOpen => gate_is_sealed (gate c) = false /\ gate_count (gate c) = 0
  end.

Section Laws.
Context {G K : Type} `{L : AdmissionGateLaws G K}.

Lemma seal_certified {p} (c : GateControl G p) : gate_ok (gate c) -> certified (seal c).
Proof. intros Hok. destruct (law_seal _ Hok) as (? & ? & ?). done. Qed.

Lemma wait_certified (c : GateControl G GateSealed) :
  certified c ->
  exists w, wait c = Done w /\
    match w with
    | Returned d => certified d
    | Parked g => gate_ok g /\ gate_is_sealed g = true /\ gate_count g <> 0
    end.
Proof.
  intros [Hok Hs]. destruct (law_wait _ Hok) as (g & E & Hg & Hsg & Hcg).
  unfold wait. rewrite E. simpl. eexists. split; [done|]. rewrite Hs in Hsg.
  destruct (Z.eqb_spec (gate_count (gate c)) 0); unfold certified; simpl;
    split_and?; congruence || done.
Qed.

Lemma reopen_certified (c : GateControl G GateDrained) :
  certified c -> exists o, reopen c = Done o /\ certified o.
Proof.
  intros (Hok & Hs & Hc). pose proof (law_reopen _ Hok) as R. rewrite Hs, Hc in R. simpl in R.
  destruct R as (g & E & ? & ? & ?). unfold reopen. rewrite E. simpl. by eexists.
Qed.

Lemma try_drained_certified lock_free (c : GateControl G GateUnknown) :
  gate_ok (gate c) ->
  exists r, try_drained lock_free c = Done r /\
    match r with
    | Ok d => certified d
    | Err u => gate_ok (gate u)
    end.
Proof.
  intros Hok. unfold try_drained.
  destruct (gate_is_sealed (gate c)) eqn:Hs; simpl; [|by eexists].
  destruct lock_free; simpl; [|by eexists].
  destruct (law_wait _ Hok) as (g & E & Hg & Hsg & Hcg). rewrite E. simpl. eexists.
  split; [done|]. destruct (Z.eqb_spec (gate_count (gate c)) 0); unfold certified; simpl;
    split_and?; congruence || done.
Qed.

Lemma wait_if_sealed_certified (c : GateControl G GateUnknown) :
  gate_ok (gate c) ->
  exists r, wait_if_sealed c = Done r /\
    match r with
    | Ok (Returned d) => certified d
    | Ok (Parked g) => gate_ok g /\ gate_count g <> 0
    | Err u => gate_ok (gate u) /\ gate_is_sealed (gate u) = false
    end.
Proof.
  intros Hok. unfold wait_if_sealed.
  destruct (gate_is_sealed (gate c)) eqn:Hs; simpl; [|by eexists].
  destruct (law_wait _ Hok) as (g & E & Hg & Hsg & Hcg). rewrite E. simpl. eexists.
  split; [done|]. destruct (Z.eqb_spec (gate_count (gate c)) 0); unfold certified; simpl;
    split_and?; congruence || done.
Qed.

End Laws.

(** ** Properties *)

(** The typestate of a management claim is sound for every gate that meets
    the interface: sealing certifies closed admission, a completed wait or a
    successful poll certifies a sealed gate with no permit outstanding, and
    reopening a drained claim never aborts and yields an open idle gate. *)
Theorem control_typestate_sound {G K : Type} `{L : AdmissionGateLaws G K} (g : G)
  (lock_free : bool) :
  gate_ok g ->
  certified (seal (control g))
  /\ (forall d, wait (seal (control g)) = Done (Returned d) ->
        certified d /\ exists o, reopen d = Done o /\ certified o)
  /\ (forall d, try_drained lock_free (control g) = Done (Ok d) ->
        certified d /\ exists o, reopen d = Done o /\ certified o)
  /\ (forall g', wait (seal (control g)) = Done (Parked g') -> gate_count g' <> 0).
Proof.
  intros Hok. pose proof (seal_certified (control g) Hok) as Hs.
  destruct (wait_certified _ Hs) as (w & Ew & Hw).
  destruct (try_drained_certified lock_free (control g) Hok) as (r & Er & Hr).
  split_and!; [done| | |].
  - intros d E. rewrite Ew in E. simplify_eq. split; [done|]. by apply reopen_certified.
  - intros d E. rewrite Er in E. simplify_eq. split; [done|]. by apply reopen_certified.
  - intros g' E. rewrite Ew in E. simplify_eq. tauto.
Qed.

(** A striped gate with a sealed third stripe and a permit on the second. *)
Definition busy_gate : Striped.t :=
  Striped.Build_t [{| state := 0 |}; {| state := 1 |}; {| state := 0x80000000 |}].

Lemma control_typestate_sound_witness :
  certified (L := striped_laws W32) (seal (H := striped_ops W32) (control busy_gate)).
Proof.
  apply (control_typestate_sound (L := striped_laws W32) busy_gate true).
  split; [|done]. repeat constructor; by vm_compute.
Defined.

End Control.

(** ** current_thread_stripe

    [cached] is the thread-local cell of each thread ([None] is the
    [usize::MAX] sentinel), [next] the process-wide counter. *)
Module ThreadStripe.

Definition DEFAULT_STRIPE_COUNT : Z := 32.

Record stripes : Type := { cached : gmap nat Z; next : Z }.

Definition initial : stripes := {| cached := ∅; next := 0 |}.

Definition current_thread_stripe (pw : pointer_width) (thread : nat) (s : stripes)
  : Z * stripes :=
  match cached s !! thread with
  | Some current => (current, s)
  | None =>
      let assigned := Z.land (next s) (DEFAULT_STRIPE_COUNT - 1) in
      (assigned, {| cached := <[thread := assigned]> (cached s);
                    next := wrapping_add (bits pw) (next s) 1 |})
  end.

(** The calls of a run, in order, with the stripe each got. *)
Fixpoint calls (pw : pointer_width) (threads : list nat) (s : stripes) : list Z * stripes :=
  match threads with
  | [] => ([], s)
  | t :: threads =>
      let '(i, s1) := current_thread_stripe pw t s in
      let '(rest, s2) := calls pw threads s1 in (i :: rest, s2)
  end.

Definition stripes_ok (pw : pointer_width) (s : stripes) : Prop :=
  in_width (bits pw) (next s) /\ map_Forall (fun _ i => 0 <= i < DEFAULT_STRIPE_COUNT) (cached s).

Lemma stripe_range z : 0 <= Z.land z (DEFAULT_STRIPE_COUNT - 1) < DEFAULT_STRIPE_COUNT.
Proof.
  change (DEFAULT_STRIPE_COUNT - 1) with (Z.ones 5). rewrite Z.land_ones by lia.
  apply Z.mod_pos_bound. done.
Qed.

Lemma stripes_ok_step pw t s i s' :
  stripes_ok pw s -> current_thread_stripe pw t s = (i, s') ->
  stripes_ok pw s' /\ 0 <= i < DEFAULT_STRIPE_COUNT /\ cached s' !! t = Some i
  /\ cached s ⊆ cached s'.
Proof.
  intros [Hn Hc] E. unfold current_thread_stripe in E.
  destruct (cached s !! t) as [j|] eqn:Et; simplify_eq; simpl.
  - pose proof (Hc _ _ Et) as [? ?]. split_and!; done.
  - pose proof (stripe_range (next s)). split_and!; [split|..]; simpl.
    + apply wrap_in_width. by destruct pw.
    + by apply map_Forall_insert_2.
    + lia.
    + lia.
    + apply lookup_insert_eq.
    + by apply insert_subseteq.
Qed.

Lemma calls_cached pw threads s : forall out s',
  stripes_ok pw s -> calls pw threads s = (out, s') ->
  cached s ⊆ cached s' /\ length out = length threads
  /\ forall k t i, threads !! k = Some t -> out !! k = Some i ->
       cached s' !! t = Some i /\ 0 <= i < DEFAULT_STRIPE_COUNT.
Proof.
  revert s. induction threads as [|t threads IH]; intros s out s' Hs E; simpl in E.
  { simplify_eq. done. }
  destruct (current_thread_stripe pw t s) as [i s1] eqn:E1.
  destruct (calls pw threads s1) as [rest s2] eqn:E2. simplify_eq.
  destruct (stripes_ok_step _ _ _ _ _ Hs E1) as (Hs1 & Hi & Hc & Hsub).
  destruct (IH _ _ _ Hs1 E2) as (Hsub2 & Hlen & Hall).
  split_and!; [by etrans|simpl; lia|]. intros [|k] t' i' Ht Hi'; simplify_eq/=.
  - split; [|done]. by eapply lookup_weaken.
  - by eapply Hall.
Qed.

(** Stripe selection is total, in range and sticky: however threads
    interleave their calls, a thread gets the same stripe every time, and every
    stripe indexes the [DEFAULT_STRIPE_COUNT] counters of the default gates. *)
Theorem thread_stripe_sticky_and_in_range (pw : pointer_width) (threads : list nat) :
  let out := fst (calls pw threads initial) in
  length out = length threads
  /\ (forall k i, out !! k = Some i -> 0 <= i < DEFAULT_STRIPE_COUNT)
  /\ (forall j k t, threads !! j = Some t -> threads !! k = Some t -> out !! j = out !! k).
Proof.
  destruct (calls pw threads initial) as [out s] eqn:E. simpl.
  assert (Hs : stripes_ok pw initial) by (split; [by destruct pw|apply map_Forall_empty]).
  destruct (calls_cached _ _ _ _ _ Hs E) as (_ & Hlen & Hall). split_and!; [done| |].
  - intros k i Hk. assert (k < length threads)%nat as Hlt
      by (rewrite <- Hlen; by eapply lookup_lt_Some).
    destruct (lookup_lt_is_Some_2 threads k Hlt) as [t Ht]. by eapply Hall.
  - intros j k t Hj Hk.
    destruct (lookup_lt_is_Some_2 out j) as [i Hi]; [rewrite Hlen; by eapply lookup_lt_Some|].
    destruct (lookup_lt_is_Some_2 out k) as [i' Hi']; [rewrite Hlen; by eapply lookup_lt_Some|].
    destruct (Hall _ _ _ Hj Hi), (Hall _ _ _ Hk Hi'). congruence.
Qed.

End ThreadStripe.

(** ** Properties of the gates *)
Module GateTheorems.

(** The striped administrative loops are all or nothing.  Sealing an idle
    gate succeeds exactly when every stripe is open and idle, and otherwise the
    rollback restores the gate bit for bit without aborting; reopening succeeds
    exactly when every stripe is sealed and idle, and then yields a fresh open
    gate, and otherwise leaves the gate unchanged. *)
Theorem striped_admin_all_or_nothing (pw : pointer_width) (g : Striped.t) :
  striped_ok pw g ->
  (if forallb (fun c => negb (is_sealed pw c) && (active pw c =? 0)) (Striped.counters g)
   then Striped.try_seal_if_idle pw g = Done (true, Striped.seal pw g)
   else Striped.try_seal_if_idle pw g = Done (false, g))
  /\ (if forallb (fun c => is_sealed pw c && (active pw c =? 0)) (Striped.counters g)
      then Striped.reopen pw g = Done (Ok tt, Striped.new_open (length (Striped.counters g)))
      else Striped.reopen pw g = Done (Err ReopenError, g)).
Proof.
  intros (vs & Hv & _ & ->)%striped_cases.
  rewrite striped_try_seal_if_idle, striped_reopen, striped_seal by done.
  assert (E1 : forallb (fun c => negb (is_sealed pw c) && (active pw c =? 0))
                 (Striped.counters (striped_of pw vs)) = forallb open_idle vs).
  { unfold striped_of. simpl. induction Hv as [|v vs Hv _ IH]; [done|]. rewrite fmap_cons. simpl.
    by rewrite is_sealed_view, active_view, IH. }
  assert (E2 : forallb (fun c => is_sealed pw c && (active pw c =? 0))
                 (Striped.counters (striped_of pw vs)) = forallb sealed_idle vs).
  { unfold striped_of. simpl. clear E1. induction Hv as [|v vs Hv _ IH]; [done|].
    rewrite fmap_cons. simpl. by rewrite is_sealed_view, active_view, IH. }
  rewrite E1, E2. split; [by destruct (forallb open_idle vs)|].
  destruct (forallb sealed_idle vs); [|done]. unfold striped_of, Striped.new_open. simpl.
  by rewrite length_fmap, fmap_replicate, <- new_open_view.
Qed.

(** Three stripes of which the second is busy: the first is sealed and rolled
    back. *)
Definition half_idle_gate : Striped.t :=
  Striped.Build_t [{| state := 0x40000000 |}; {| state := 1 |}; {| state := 0 |}].

Lemma striped_admin_all_or_nothing_witness :
  Striped.try_seal_if_idle W32 half_idle_gate = Done (false, half_idle_gate).
Proof.
  assert (Hok : striped_ok W32 half_idle_gate).
  { split; [repeat constructor; by vm_compute|done]. }
  pose proof (proj1 (striped_admin_all_or_nothing W32 half_idle_gate Hok)) as T. exact T.
Defined.

Definition one_stripe (g : DrainGate.t) : Striped.t :=
  {| Striped.counters := [DrainGate.counter g] |}.

(** A striped gate with one stripe behaves exactly like the single-counter
    gate: entering, releasing (with the same outcome and the same decision to
    notify), sealing, waiting and reopening give the same results and the same
    counter. *)
Theorem single_stripe_is_drain_gate (pw : pointer_width) (g : DrainGate.t) :
  in_width (bits pw) (state (DrainGate.counter g)) ->
  Striped.try_enter pw (one_stripe g) 0
    = omap_outcome (fun '(r, g') => (r, one_stripe g')) (DrainGate.try_enter pw g)
  /\ Striped.release pw (one_stripe g) 0
    = omap_outcome (fun '(o, n, g') => (o, n, one_stripe g')) (DrainGate.release pw g)
  /\ Striped.seal pw (one_stripe g) = one_stripe (DrainGate.seal pw g)
  /\ Striped.wait_until_idle pw (one_stripe g)
    = Done (let '(b, g') := DrainGate.wait_until_idle pw g in (b, one_stripe g'))
  /\ Striped.reopen pw (one_stripe g)
    = omap_outcome (fun '(r, g') => (r, one_stripe g')) (DrainGate.reopen pw g).
Proof.
  intros Hg. destruct (single_cases pw g Hg) as (v & Hv & ->).
  change (one_stripe (single_of pw v)) with (striped_of pw [v]).
  assert (Forall (Spec.valid pw) [v]) by (constructor; [done|constructor]). split_and!.
  - unfold Striped.try_enter, DrainGate.try_enter. simpl.
    by destruct (try_acquire pw (of_view pw v)) as [[]| |].
  - unfold Striped.release, DrainGate.release, DrainGate.release_and_notify. simpl.
    destruct (try_release_without_notification pw (of_view pw v)) as [[[] ]| |]; try done.
    simpl. by destruct (release pw _) as [[]| |].
  - by rewrite striped_seal, single_seal.
  - unfold Striped.wait_until_idle. rewrite striped_observe, single_wait by done.
    cbn [total foldr]. by rewrite Z.add_0_r.
  - rewrite striped_reopen, single_reopen by done. cbn [forallb]. unfold sealed_idle.
    by destruct (Spec.sealed v), (Spec.count v =? 0).
Qed.

(** A sealed gate with a registered waiter and one permit: the release takes
    the notifying path in both. *)
Lemma single_stripe_is_drain_gate_witness :
  Striped.release W64 (one_stripe {| DrainGate.counter := {| state := 0xC000000000000001 |} |}) 0
  = Done (BecameIdle, true, one_stripe {| DrainGate.counter := {| state := 0xC000000000000000 |} |}).
Proof.
  refine (eq_trans (proj1 (proj2 (single_stripe_is_drain_gate W64 _ _))) eq_refl).
  by vm_compute.
Defined.

End GateTheorems.
