(* ===== verification/TerminalGate.v ===== *)
(** * Interleaved executions of the operation gate

    Models the threads that share one [TerminalDrainGate] of
    crates/xlfn-kernel/src/drain_gate.rs through the [OperationGate] of
    operation_gate.rs.  A thread is a program counter inside one of the calls
    [enter], [OperationGuard::drop], [begin_close] and
    [close_and_wait_begin().wait()]; a step runs one atomic access (a counter
    read-modify-write, a lock, an unlock, a park or a notification), in any
    interleaving.  The theorems are about every reachable configuration:
    quiescence after a close, the absence of lost wakeups, termination of the
    drain, and that no thread touches the gate after a waiter has returned. *)

From S2P Require Import Prelude SealableCounter.
Import SealableCounter.Counter.

(** ** Programs *)
Module OperationGate.

Inductive pc : Type :=
| Idle                          (* no capability on the gate *)
| Permit                        (* holds an [OperationGuard] *)
| RelSlow                       (* the fast release was refused *)
| RelLocked                     (* holds [idle.lock], still owns its count *)
| RelOutcome (o : ReleaseOutcome)  (* count released, lock held *)
| RelUnlock                     (* about to drop the lock *)
| Closing                       (* holds a [TerminationWaitGuard] *)
| WaitLock                      (* about to lock [idle.lock] *)
| WaitObserve                   (* lock held, about to register and observe *)
| WaitDecide (active : Z)       (* lock held, observed [active] *)
| WaitParked                    (* parked on the condition variable *)
| WaitWoken                     (* notified, about to take the lock back *)
| WaitUnlock                    (* observed zero, about to drop the lock *)
| Drained.                      (* holds [OperationsDrained] *)

#[export] Instance pc_eq_dec : EqDecision pc.
Proof. solve_decision. Defined.

(** What a thread may do next.  [Run] continues the code it is in (for a
    permit holder, drops the guard); the others start a call or wake a parked
    thread spuriously. *)
Inductive action : Type := Run | Enter | BeginClose | CloseAndWait | Spurious.

Record shared : Type := Shared { ctr : SealableCounter; lock : option nat }.

Record config : Type := Config { mem : shared; threads : list pc }.

Definition initial (n : nat) : config :=
  Config (Shared new_open None) (replicate n Idle).

Section Steps.
Context (pw : pointer_width).

(** The result of one step of thread [t]: its next program counter, the shared
    memory, and whether it notified the condition variable.  [Done None] is a
    step that cannot be taken now. *)
Definition effect : Type := outcome (option (pc * shared * bool)).

Definition continue (p : pc) (m : shared) : effect := Done (Some (p, m, false)).

(** [OperationGate::enter], down to [SealableCounter::try_acquire]. *)
Definition enter (m : shared) : effect :=
  let* (r, c) := try_acquire pw (ctr m) in
  continue (match r with Ok _ => Permit | Err _ => Idle end) (Shared c (lock m)).

(** [OperationGate::begin_close], down to [SealableCounter::seal]. *)
Definition begin_close (next : pc) (m : shared) : effect :=
  continue next (Shared (seal pw (ctr m)) (lock m)).

Definition take_lock (t : nat) (next : pc) (m : shared) : effect :=
  match lock m with
  | None => continue next (Shared (ctr m) (Some t))
  | Some _ => Done None
  end.

Definition drop_lock (next : pc) (m : shared) : effect :=
  continue next (Shared (ctr m) None).

(** [DrainGate::release]: the fast path, then [release_tail!]. *)
Definition release_step (t : nat) (p : pc) (m : shared) : effect :=
  match p with
  | Permit =>
      let* (fast, c) := try_release_without_notification pw (ctr m) in
      continue (match fast with Some _ => Idle | None => RelSlow end) (Shared c (lock m))
  | RelSlow => take_lock t RelLocked m
  | RelLocked =>
      let* (o, c) := release pw (ctr m) in continue (RelOutcome o) (Shared c (lock m))
  | RelOutcome BecameIdle => Done (Some (RelUnlock, m, true))
  | RelOutcome StillActive => continue RelUnlock m
  | RelUnlock => drop_lock Idle m
  | _ => Done None
  end.

(** [wait_for_idle] with [wait_loop!] of protocol.rs. *)
Definition wait_step (t : nat) (p : pc) (m : shared) : effect :=
  match p with
  | WaitLock | WaitWoken => take_lock t WaitObserve m
  | WaitObserve =>
      let '(active, c) := mark_waiting pw (ctr m) in
      continue (WaitDecide active) (Shared c (lock m))
  | WaitDecide active =>
      if (active =? 0)%Z then continue WaitUnlock m else drop_lock WaitParked m
  | WaitUnlock => drop_lock Drained m
  | _ => Done None
  end.

Definition thread_step (t : nat) (a : action) (p : pc) (m : shared) : effect :=
  match a, p with
  | Enter, Idle => enter m
  | BeginClose, Idle => begin_close Idle m
  | CloseAndWait, Idle => begin_close Closing m
  | Spurious, WaitParked => continue WaitWoken m
  | Run, Closing => begin_close WaitLock m
  | Run, (Permit | RelSlow | RelLocked | RelOutcome _ | RelUnlock) => release_step t p m
  | Run, (WaitLock | WaitObserve | WaitDecide _ | WaitWoken | WaitUnlock) => wait_step t p m
  | _, _ => Done None
  end.

(** [Condvar::notify_all]. *)
Definition wake (p : pc) : pc := match p with WaitParked => WaitWoken | _ => p end.

Definition step (t : nat) (a : action) (s : config) : outcome (option config) :=
  match threads s !! t with
  | None => Done None
  | Some p =>
      let* e := thread_step t a p (mem s) in
      Done (match e with
            | None => None
            | Some (p', m, notified) =>
                let ts := <[t := p']> (threads s) in
                Some (Config m (if (notified : bool) then wake <$> ts else ts))
            end)
  end.

Definition steps (s s' : config) : Prop := exists t a, step t a s = Done (Some s').
Definition reachable (n : nat) (s : config) : Prop := rtc steps (initial n) s.

(** Runs that only continue calls already started. *)
Definition run_step (s s' : config) : Prop := exists t, step t Run s = Done (Some s').

Fixpoint schedule (moves : list (nat * action)) (s : config) : outcome (option config) :=
  match moves with
  | [] => Done (Some s)
  | (t, a) :: moves =>
      let* o := step t a s in
      match o with Some s' => schedule moves s' | None => Done None end
  end.

End Steps.

(** ** Invariant *)

(** Threads whose count is still in the counter. *)
Definition holds (p : pc) : nat :=
  match p with Permit | RelSlow | RelLocked => 1 | _ => 0 end.

Definition owns_lock (p : pc) : bool :=
  match p with
  | RelLocked | RelOutcome _ | RelUnlock | WaitObserve | WaitDecide _ | WaitUnlock => true
  | _ => false
  end.

(** Threads that may still access the gate through a permit. *)
Definition releasing (p : pc) : bool :=
  match p with
  | Permit | RelSlow | RelLocked | RelOutcome _ | RelUnlock => true
  | _ => false
  end.

Definition closing (p : pc) : bool :=
  match p with
  | Closing | WaitLock | WaitObserve | WaitDecide _ | WaitParked | WaitWoken | WaitUnlock
  | Drained => true
  | _ => false
  end.

Definition finished (p : pc) : bool := match p with Idle | Drained => true | _ => false end.

Section Invariant.
Context (pw : pointer_width).
Local Open Scope Z_scope.

Definition outstanding (ts : list pc) : Z := Z.of_nat (sum_list_with holds ts).

(** What a thread's position says of the counter. *)
Definition thread_ok (v : Spec.view) (ts : list pc) (p : pc) : Prop :=
  (closing p = true -> Spec.sealed v = true)
  /\ match p with
     | WaitDecide active =>
         Spec.waiting v = true /\ (active = 0 -> Spec.count v = 0)
         /\ (active <> 0 -> 0 < Spec.count v)
     | WaitParked =>
         Spec.waiting v = true
         /\ (0 < Spec.count v \/ RelOutcome BecameIdle ∈ ts)
     | WaitUnlock => Spec.count v = 0
     | Drained => forall p', p' ∈ ts -> releasing p' = false
     | _ => True
     end.

Record inv (s : config) (v : Spec.view) : Prop := {
  inv_ctr : ctr (mem s) = of_view pw v;
  inv_valid : Spec.valid pw v;
  inv_count : Spec.count v = outstanding (threads s);
  inv_lock : forall t p, threads s !! t = Some p ->
               (owns_lock p = true <-> lock (mem s) = Some t);
  inv_owner : forall t, lock (mem s) = Some t -> (t < length (threads s))%nat;
  inv_thread : forall t p, threads s !! t = Some p -> thread_ok v (threads s) p;
}.

Lemma inv_initial n : inv (initial n) (Spec.View false false 0).
Proof.
  assert (Hr : forall t p, threads (initial n) !! t = Some p -> p = Idle).
  { intros t p [Hp _]%lookup_replicate. done. }
  split; simpl.
  - apply new_open_view.
  - apply idle_valid.
  - unfold outstanding. assert (sum_list_with holds (replicate n Idle) = 0%nat) as ->; [|done].
    clear Hr. by induction n.
  - intros t p ->%Hr. done.
  - done.
  - intros t p ->%Hr. done.
Qed.

Lemma holds_le p : (holds p <= 1)%nat.
Proof. destruct p; simpl; lia. Qed.

Lemma outstanding_update ts t p p' :
  ts !! t = Some p ->
  outstanding (<[t := p']> ts) = outstanding ts + Z.of_nat (holds p') - Z.of_nat (holds p).
Proof.
  intros H. unfold outstanding. pose proof (sum_list_with_insert holds ts t p p' H). lia.
Qed.

Lemma outstanding_wake ts : outstanding (wake <$> ts) = outstanding ts.
Proof.
  unfold outstanding. f_equal. induction ts as [|p ts IH]; [done|].
  rewrite fmap_cons. cbn [sum_list_with]. rewrite IH. by destruct p.
Qed.

(** Two threads never own the lock at once. *)
Lemma lock_exclusive s v t t' p p' :
  inv s v -> threads s !! t = Some p -> threads s !! t' = Some p' ->
  owns_lock p = true -> owns_lock p' = true -> t = t'.
Proof.
  intros I Ht Ht' Ho Ho'. apply (inv_lock _ _ I _ _ Ht) in Ho.
  apply (inv_lock _ _ I _ _ Ht') in Ho'. congruence.
Qed.

(** How one thread's move may change the lock. *)
Definition lock_move (t : nat) (p p' : pc) (l l' : option nat) : Prop :=
  (l' = l /\ owns_lock p' = owns_lock p)
  \/ (l = None /\ l' = Some t /\ owns_lock p' = true)
  \/ (owns_lock p = true /\ l' = None /\ owns_lock p' = false).

(** A move of thread [t] preserves the invariant when it satisfies these local
    conditions; every case of [thread_step] is an instance. *)
Lemma inv_update s v t p p' m' v' :
  inv s v -> threads s !! t = Some p ->
  let ts' := <[t := p']> (threads s) in
  ctr m' = of_view pw v' -> Spec.valid pw v' ->
  Spec.count v' = Spec.count v + Z.of_nat (holds p') - Z.of_nat (holds p) ->
  lock_move t p p' (lock (mem s)) (lock m') ->
  (Spec.sealed v = true -> Spec.sealed v' = true) ->
  (Spec.waiting v = true -> Spec.waiting v' = true) ->
  (Spec.sealed v = true -> Spec.count v = 0 -> Spec.count v' = 0) ->
  (forall j q, j <> t -> threads s !! j = Some q -> owns_lock q = true ->
     Spec.waiting v = true -> 0 < Spec.count v -> 0 < Spec.count v') ->
  (Spec.waiting v = true -> 0 < Spec.count v \/ RelOutcome BecameIdle ∈ threads s ->
     0 < Spec.count v' \/ RelOutcome BecameIdle ∈ ts') ->
  (Spec.sealed v = true -> releasing p = false -> releasing p' = false) ->
  thread_ok v' ts' p' ->
  inv (Config m' ts') v'.
Proof.
  intros I Ht ts' Hc Hv Hn Hl Hs Hw Hz Hd He Hf Hok.
  assert (Hlt : (t < length (threads s))%nat) by (by eapply lookup_lt_Some).
  split; simpl; [done|done| | | |].
  - rewrite Hn, (inv_count _ _ I). unfold ts'. by rewrite (outstanding_update _ _ p).
  - intros j q. unfold ts'. pose proof (inv_lock _ _ I) as IL.
    destruct (decide (j = t)) as [->|Hj].
    + rewrite list_lookup_insert_eq by done. intros [= <-]. specialize (IL t p Ht).
      destruct Hl as [[-> ->]|[(E & -> & ->)|(E & -> & ->)]]; [done|done|done].
    + rewrite list_lookup_insert_ne by done. intros Hq. specialize (IL j q Hq).
      specialize (inv_lock _ _ I t p Ht) as It.
      destruct Hl as [[-> _]|[(E & -> & _)|(E & -> & _)]]; [done| |].
      * rewrite IL, E. split; congruence.
      * apply It in E. rewrite IL, E. split; congruence.
  - intros j Hj. unfold ts'. rewrite length_insert.
    destruct Hl as [[El _]|[(_ & El & _)|(_ & El & _)]]; rewrite El in Hj; simplify_eq; [|done].
    by apply (inv_owner _ _ I).
  - intros j q Hq. destruct (decide (j = t)) as [->|Hj].
    + unfold ts' in Hq. rewrite list_lookup_insert_eq in Hq by done. by simplify_eq.
    + unfold ts' in Hq. rewrite list_lookup_insert_ne in Hq by done.
      destruct (inv_thread _ _ I _ _ Hq) as [Hcl Hpos].
      assert (Hcl' : closing q = true -> Spec.sealed v' = true) by auto.
      split; [done|]. specialize (Hd j q Hj Hq).
      destruct q; simpl in *; try done; auto.
      * destruct Hpos as (? & ? & ?). split_and!; auto.
      * destruct Hpos. split; auto.
      * intros p'' Hin%list_elem_of_lookup. destruct Hin as [i Hi]. unfold ts' in Hi.
        assert (Hpt : releasing p = false) by (apply Hpos, list_elem_of_lookup; eauto).
        destruct (decide (i = t)) as [->|Hi'].
        -- rewrite list_lookup_insert_eq in Hi by done. simplify_eq. auto.
        -- rewrite list_lookup_insert_ne in Hi by done. apply Hpos, list_elem_of_lookup. eauto.
Qed.

(** The counter seen by a thread that still owns a count is positive. *)
Lemma count_pos s v t p :
  inv s v -> threads s !! t = Some p -> holds p = 1%nat -> 0 < Spec.count v.
Proof.
  intros I Ht Hp. rewrite (inv_count _ _ I). unfold outstanding.
  pose proof (sum_list_with_ge holds _ _ _ Ht). lia.
Qed.

(** While another thread owns the lock and the waiting bit is set, the fast
    path cannot take the last count. *)
Lemma elem_insert_self (ts : list pc) t p p' : ts !! t = Some p -> p' ∈ <[t := p']> ts.
Proof. intros H. apply list_elem_of_lookup. exists t. apply list_lookup_insert_eq. by eapply lookup_lt_Some. Qed.

Lemma elem_insert_other (ts : list pc) t p p' q :
  ts !! t = Some p -> q ∈ ts -> q <> p -> q ∈ <[t := p']> ts.
Proof.
  intros Ht [j Hj]%list_elem_of_lookup Hne. apply list_elem_of_lookup. exists j.
  rewrite list_lookup_insert_ne; [done|]. intros ->. congruence.
Qed.

(** Moves that do not touch the counter. *)
Lemma inv_move s v t p p' l' :
  inv s v -> threads s !! t = Some p ->
  holds p' = holds p -> lock_move t p p' (lock (mem s)) l' ->
  p <> RelOutcome BecameIdle -> releasing p' = releasing p ->
  thread_ok v (<[t := p']> (threads s)) p' ->
  inv (Config (Shared (ctr (mem s)) l') (<[t := p']> (threads s))) v.
Proof.
  intros I Ht Hh Hl Hne Hr Hok.
  apply (inv_update s v t p p' _ v I Ht); simpl; try done.
  - apply (inv_ctr _ _ I).
  - apply (inv_valid _ _ I).
  - lia.
  - intros _ [?|Hin]; [by left|right]. eapply elem_insert_other; eauto.
  - congruence.
Qed.

Lemma inv_enter s v t r c :
  inv s v -> threads s !! t = Some Idle -> try_acquire pw (ctr (mem s)) = Done (r, c) ->
  exists v', inv (Config (Shared c (lock (mem s)))
    (<[t := match r with Ok _ => Permit | Err _ => Idle end]> (threads s))) v'.
Proof.
  intros I Ht E. rewrite (inv_ctr _ _ I), try_acquire_view in E by apply (inv_valid _ _ I).
  destruct (Spec.acquire pw v) as [v'| |] eqn:Ea; simplify_eq.
  - pose proof (spec_acquire_valid _ _ _ (inv_valid _ _ I) Ea) as Hv'.
    unfold Spec.acquire in Ea. destruct (Spec.sealed v) eqn:Hs; [done|].
    destruct (Spec.count v =? Spec.max_count pw); simplify_eq.
    eexists. eapply (inv_update s v t Idle); [exact I|exact Ht|reflexivity|exact Hv'|..]; simpl;
      try done; try (intros; congruence); try (intros; lia).
    + by left.
    + intros _ [?|?]; [left; lia|right; by eapply elem_insert_other].
  - exists v. rewrite <- (inv_ctr _ _ I). apply (inv_move s v t Idle); [done|done|done|by left|done..].
Qed.

Lemma inv_seal s v t p p' :
  inv s v -> threads s !! t = Some p -> (p = Idle \/ p = Closing) ->
  (p' = Idle \/ p' = Closing \/ p' = WaitLock) ->
  inv (Config (Shared (seal pw (ctr (mem s))) (lock (mem s))) (<[t := p']> (threads s)))
    (Spec.seal v).
Proof.
  intros I Ht Hp Hp'. pose proof (inv_valid _ _ I) as Hv.
  apply (inv_update s v t p p' _ (Spec.seal v) I Ht); simpl; try done.
  - by rewrite (inv_ctr _ _ I), seal_view.
  - destruct Hp as [-> | ->], Hp' as [->|[->| ->]]; simpl; lia.
  - left. split; [done|]. by destruct Hp as [-> | ->], Hp' as [->|[->| ->]].
  - intros _ [?|Hin]; [by left|right]. eapply elem_insert_other; eauto.
    by destruct Hp as [-> | ->].
  - by destruct Hp' as [->|[->| ->]].
  - by destruct Hp' as [->|[->| ->]].
Qed.

Lemma inv_release_fast s v t r c :
  inv s v -> threads s !! t = Some Permit ->
  try_release_without_notification pw (ctr (mem s)) = Done (r, c) ->
  exists v', inv (Config (Shared c (lock (mem s)))
    (<[t := match r with Some _ => Idle | None => RelSlow end]> (threads s))) v'.
Proof.
  intros I Ht E. pose proof (inv_valid _ _ I) as Hv.
  rewrite (inv_ctr _ _ I), try_release_without_notification_view in E by done.
  destruct (Spec.release_without_notification v) as [v'| |] eqn:Er; simplify_eq.
  - pose proof (spec_release_without_notification_valid _ _ _ Hv Er) as Hv'. exists v'.
    unfold Spec.release_without_notification in Er.
    destruct (Z.eqb_spec (Spec.count v) 0); [done|].
    destruct (Z.eqb_spec (Spec.count v) 1) as [E1|E1];
      [destruct (Spec.waiting v) eqn:Ew; [done|]|]; simpl in Er; simplify_eq;
      unfold Spec.valid in Hv;
      eapply (inv_update s v t Permit); [exact I|exact Ht|reflexivity|exact Hv'|..]; simpl in *;
      try done; try (intros; congruence); try (intros; lia); try (by left).
  - exists v. rewrite <- (inv_ctr _ _ I). apply (inv_move s v t Permit); [done|done|done|by left|done..].
Qed.

Lemma inv_release_slow s v t o c :
  inv s v -> threads s !! t = Some RelLocked -> release pw (ctr (mem s)) = Done (o, c) ->
  exists v', inv (Config (Shared c (lock (mem s))) (<[t := RelOutcome o]> (threads s))) v'.
Proof.
  intros I Ht E. pose proof (inv_valid _ _ I) as Hv.
  rewrite (inv_ctr _ _ I), release_view in E by done.
  destruct (Spec.release v) as [v'| |] eqn:Er; simplify_eq.
  pose proof (spec_release_valid _ _ _ Hv Er) as Hv'. exists v'.
  unfold Spec.release in Er. destruct (Z.eqb_spec (Spec.count v) 0); simplify_eq.
  unfold Spec.valid in Hv.
  eapply (inv_update s v t RelLocked); [exact I|exact Ht|reflexivity|exact Hv'|..]; simpl in *; try done.
  - lia.
  - by left.
  - intros j q Hj Hq Ho. destruct Hj. symmetry. by eapply (lock_exclusive s v).
  - intros _ _. unfold Spec.release_outcome. destruct (Z.eqb_spec (Spec.count v) 1).
    + right. by eapply elem_insert_self.
    + left. lia.
Qed.

Lemma inv_observe s v t a c :
  inv s v -> threads s !! t = Some WaitObserve -> mark_waiting pw (ctr (mem s)) = (a, c) ->
  inv (Config (Shared c (lock (mem s))) (<[t := WaitDecide a]> (threads s)))
    (Spec.mark_waiting v).
Proof.
  intros I Ht E. pose proof (inv_valid _ _ I) as Hv.
  rewrite (inv_ctr _ _ I), mark_waiting_view in E by done. simplify_eq.
  destruct (inv_thread _ _ I _ _ Ht) as [Hs _].
  eapply (inv_update s v t WaitObserve); [exact I|exact Ht|reflexivity|exact Hv|..];
    simpl; try done.
  - lia.
  - by left.
  - intros _ [?|Hin]; [by left|right]. eapply elem_insert_other; eauto.
  - unfold Spec.valid in Hv. split; simpl; [auto|]. split_and!; [done|done|lia].
Qed.

(** Notification wakes every parked thread. *)
Lemma inv_notify s v t :
  inv s v -> threads s !! t = Some (RelOutcome BecameIdle) ->
  inv (Config (mem s) (wake <$> <[t := RelUnlock]> (threads s))) v.
Proof.
  intros I Ht. assert (Hlt : (t < length (threads s))%nat) by (by eapply lookup_lt_Some).
  assert (Hq : forall j q, (wake <$> <[t := RelUnlock]> (threads s)) !! j = Some q ->
            exists q0, threads s !! j = Some q0 /\ owns_lock q = owns_lock q0
              /\ releasing q = releasing q0 /\ closing q = closing q0
              /\ (q = q0 \/ q = WaitWoken \/ q = RelUnlock) /\ q <> WaitParked).
  { intros j q. rewrite list_lookup_fmap, fmap_Some. intros (q1 & E & ->).
    destruct (decide (j = t)) as [->|Hj].
    - rewrite list_lookup_insert_eq in E by done. simplify_eq.
      exists (RelOutcome BecameIdle). split_and!; auto; done.
    - rewrite list_lookup_insert_ne in E by done. exists q1. destruct q1; split_and!; auto; done. }
  split; simpl.
  - apply (inv_ctr _ _ I).
  - apply (inv_valid _ _ I).
  - rewrite outstanding_wake, (outstanding_update _ _ _ _ Ht), (inv_count _ _ I). simpl. lia.
  - intros j q (q0 & E & -> & _)%Hq. by apply (inv_lock _ _ I).
  - intros j Hj. rewrite length_fmap, length_insert. by apply (inv_owner _ _ I).
  - intros j q Hj. destruct (Hq j q Hj) as (q0 & E & Ho & Hr & Hc & Hcase & Hnp).
    destruct (inv_thread _ _ I _ _ E) as [Hs Hpos]. split; [by rewrite Hc|].
    destruct Hcase as [->|[->| ->]]; [|done|done].
    destruct q0; simpl in *; try done. intros q' [i Hi]%list_elem_of_lookup.
    destruct (Hq i q' Hi) as (q0' & E' & _ & -> & _).
    apply Hpos. apply list_elem_of_lookup. eauto.
Qed.

(** One step on its own: every enabled case of [thread_step]. *)
Lemma inv_take_lock s v t p p' m :
  inv s v -> threads s !! t = Some p -> owns_lock p' = true ->
  holds p' = holds p -> releasing p' = releasing p -> p <> RelOutcome BecameIdle ->
  thread_ok v (<[t := p']> (threads s)) p' ->
  take_lock t p' (mem s) = Done (Some (p', m, false)) ->
  inv (Config m (<[t := p']> (threads s))) v.
Proof.
  intros I Ht Ho Hh Hr Hne Hok E. unfold take_lock, continue in E.
  destruct (lock (mem s)) eqn:El; simplify_eq.
  apply (inv_move s v t p); try done. right; left. by rewrite El.
Qed.

Lemma inv_drop_lock s v t p p' :
  inv s v -> threads s !! t = Some p -> owns_lock p = true -> owns_lock p' = false ->
  holds p' = holds p -> (releasing p = false -> releasing p' = false) ->
  p <> RelOutcome BecameIdle ->
  thread_ok v (<[t := p']> (threads s)) p' ->
  inv (Config (Shared (ctr (mem s)) None) (<[t := p']> (threads s))) v.
Proof.
  intros I Ht Ho Ho' Hh Hr Hne Hok.
  apply (inv_update s v t p p' _ v I Ht); simpl; try done.
  - apply (inv_ctr _ _ I).
  - apply (inv_valid _ _ I).
  - lia.
  - by right; right.
  - intros _ [?|Hin]; [by left|right]. eapply elem_insert_other; eauto.
Qed.

(** A waiter that observed zero under the lock sees no thread inside the
    release protocol. *)
Lemma drained_no_releasing s v t :
  inv s v -> threads s !! t = Some WaitUnlock ->
  forall p, p ∈ <[t := Drained]> (threads s) -> releasing p = false.
Proof.
  intros I Ht p [j Hj]%list_elem_of_lookup.
  assert (Hlt : (t < length (threads s))%nat) by (by eapply lookup_lt_Some).
  destruct (decide (j = t)) as [->|Hne].
  { rewrite list_lookup_insert_eq in Hj by done. by simplify_eq. }
  rewrite list_lookup_insert_ne in Hj by done.
  destruct (inv_thread _ _ I _ _ Ht) as [_ Hz]. simpl in Hz.
  destruct (releasing p) eqn:Hr; [|done]. exfalso.
  destruct (owns_lock p) eqn:Ho.
  - destruct Hne. by eapply (lock_exclusive s v j t p WaitUnlock).
  - assert (holds p = 1%nat) as Hh by (by destruct p). pose proof (count_pos _ _ _ _ I Hj Hh). lia.
Qed.

Lemma inv_step s v t a s' :
  inv s v -> step pw t a s = Done (Some s') -> exists v', inv s' v'.
Proof.
  intros I E. unfold step in E. destruct (threads s !! t) as [p|] eqn:Ht; [|done].
  destruct (inv_thread _ _ I _ _ Ht) as [Hs Hpos].
  destruct (thread_step pw t a p (mem s)) as [[[[p' m] n]|]| |] eqn:Et; simplify_eq/=.
  destruct a, p; simpl in Et; try discriminate Et; unfold enter, begin_close, drop_lock, continue in Et.
  - (* Permit *)
    destruct (try_release_without_notification pw (ctr (mem s))) as [[r c]| |] eqn:Ec;
      simplify_eq/=. by eapply inv_release_fast.
  - (* RelSlow *)
    pose proof Et as Et'. unfold take_lock, continue in Et'.
    destruct (lock (mem s)) eqn:El; simplify_eq. exists v.
    by eapply (inv_take_lock s v t RelSlow).
  - (* RelLocked *)
    destruct (release pw (ctr (mem s))) as [[o c]| |] eqn:Ec; simplify_eq/=.
    by eapply inv_release_slow.
  - (* RelOutcome *)
    destruct o; simplify_eq; exists v.
    + destruct (mem s) as [c l] eqn:Em. simpl in *.
      pose proof (inv_move s v t (RelOutcome StillActive) RelUnlock l) as H. rewrite Em in H.
      apply H; try done. by left.
    + by apply inv_notify.
  - (* RelUnlock *) simplify_eq. exists v. by apply (inv_drop_lock s v t RelUnlock).
  - (* Closing *) simplify_eq. eexists. apply (inv_seal s v t Closing); eauto.
  - (* WaitLock *)
    pose proof Et as Et'. unfold take_lock, continue in Et'.
    destruct (lock (mem s)) eqn:El; simplify_eq. exists v.
    by eapply (inv_take_lock s v t WaitLock).
  - (* WaitObserve *)
    destruct (mark_waiting pw (ctr (mem s))) as [x c] eqn:Ec. simplify_eq. eexists.
    by apply inv_observe.
  - (* WaitDecide *)
    destruct Hpos as (Hw & Hz & Hn). destruct (Z.eqb_spec active0 0) as [->|Hne]; simplify_eq;
      exists v.
    + destruct (mem s) as [c l] eqn:Em. simpl in *.
      pose proof (inv_move s v t (WaitDecide 0) WaitUnlock l) as H. rewrite Em in H.
      apply H; try done; [by left|]. split; [done|]. simpl. auto.
    + apply (inv_drop_lock s v t (WaitDecide active0)); try done. split; [done|]. simpl. auto.
  - (* WaitWoken *)
    pose proof Et as Et'. unfold take_lock, continue in Et'.
    destruct (lock (mem s)) eqn:El; simplify_eq. exists v.
    by eapply (inv_take_lock s v t WaitWoken).
  - (* WaitUnlock *)
    simplify_eq. exists v. apply (inv_drop_lock s v t WaitUnlock); try done.
    split; [done|]. by apply (drained_no_releasing s v).
  - (* Enter *)
    destruct (try_acquire pw (ctr (mem s))) as [[r c]| |] eqn:Ec; simplify_eq/=.
    by eapply inv_enter.
  - (* BeginClose *) simplify_eq. eexists. apply (inv_seal s v t Idle); eauto.
  - (* CloseAndWait *) simplify_eq. eexists. apply (inv_seal s v t Idle); eauto.
  - (* Spurious *)
    simplify_eq. exists v. destruct (mem s) as [c l] eqn:Em. simpl in *.
    pose proof (inv_move s v t WaitParked WaitWoken l) as H. rewrite Em in H.
    apply H; try done. by left.
Qed.

Lemma inv_reachable n s : reachable pw n s -> exists v, inv s v /\ length (threads s) = n.
Proof.
  intros H. unfold reachable in H. remember (initial n) as s0 eqn:E0.
  assert (H0 : exists v, inv s0 v /\ length (threads s0) = n).
  { subst. exists (Spec.View false false 0). split; [apply inv_initial|].
    simpl. by rewrite length_replicate. }
  clear E0. induction H as [s|s s1 s2 (t & a & E) _ IH]; [done|]. apply IH.
  destruct H0 as (v & I & Hl). destruct (inv_step _ _ _ _ _ I E) as [v' I'].
  exists v'. split; [done|]. unfold step in E.
  destruct (threads s !! t); [|done].
  destruct (thread_step pw t a p (mem s)) as [[[[p' m] []]|]| |]; simplify_eq/=;
    by rewrite ?length_fmap, length_insert.
Qed.

(** ** Progress *)

(** Remaining steps of a release, and of a wait that is not parked. *)
Definition release_left (p : pc) : nat :=
  match p with
  | Permit => 5 | RelSlow => 4 | RelLocked => 3 | RelOutcome _ => 2 | RelUnlock => 1
  | _ => 0
  end.

Definition wait_left (p : pc) : nat :=
  match p with
  | Closing => 5 | WaitLock | WaitWoken => 4 | WaitObserve => 3 | WaitDecide _ => 2
  | WaitUnlock => 1 | _ => 0
  end.

Definition measure (s : config) : nat :=
  (5 * S (length (threads s)) * sum_list_with release_left (threads s)
   + sum_list_with wait_left (threads s))%nat.

Lemma wait_left_wake ts :
  (sum_list_with wait_left (wake <$> ts) <= sum_list_with wait_left ts + 4 * length ts)%nat.
Proof.
  induction ts as [|p ts IH]; [done|]. rewrite fmap_cons. cbn [sum_list_with length].
  assert (wait_left (wake p) <= wait_left p + 4)%nat by (destruct p; simpl; lia). lia.
Qed.

Lemma release_left_wake ts :
  sum_list_with release_left (wake <$> ts) = sum_list_with release_left ts.
Proof.
  induction ts as [|p ts IH]; [done|]. rewrite fmap_cons. cbn [sum_list_with].
  rewrite IH. by destruct p.
Qed.

(** A step within a release, or within a wait, moves its thread forward. *)
Lemma run_advances t p m p' m' notified :
  thread_step pw t Run p m = Done (Some (p', m', notified)) ->
  ((release_left p' < release_left p)%nat /\ wait_left p' = wait_left p)
  \/ (release_left p' = release_left p /\ (wait_left p' < wait_left p)%nat /\ notified = false).
Proof.
  intros E. destruct p; simpl in E; try discriminate E;
    unfold begin_close, take_lock, drop_lock, continue in E.
  - destruct (try_release_without_notification pw (ctr m)) as [[[] c]| |]; simplify_eq/=;
      left; lia.
  - destruct (lock m); simplify_eq. left; simpl; lia.
  - destruct (release pw (ctr m)) as [[o c]| |]; simplify_eq/=. left; lia.
  - destruct o; simplify_eq/=; left; lia.
  - simplify_eq/=. left; lia.
  - simplify_eq/=. right; split_and!; lia || done.
  - destruct (lock m); simplify_eq. right; simpl; split_and!; lia || done.
  - destruct (mark_waiting pw (ctr m)). simplify_eq/=. right; split_and!; lia || done.
  - destruct (active0 =? 0); simplify_eq/=; right; split_and!; lia || done.
  - destruct (lock m); simplify_eq. right; simpl; split_and!; lia || done.
  - simplify_eq/=. right; split_and!; lia || done.
Qed.

Lemma measure_decreases s s' : run_step pw s s' -> (measure s' < measure s)%nat.
Proof.
  intros [t E]. unfold step in E. destruct (threads s !! t) as [p|] eqn:Ht; [|done].
  destruct (thread_step pw t Run p (mem s)) as [[[[p' m] n]|]| |] eqn:Et; simplify_eq/=.
  apply run_advances in Et.
  pose proof (sum_list_with_insert release_left _ _ _ p' Ht).
  pose proof (sum_list_with_insert wait_left _ _ _ p' Ht).
  unfold measure; simpl. destruct n.
  - destruct Et as [[??]|(_ & _ & ?)]; [|done].
    rewrite length_fmap, length_insert, release_left_wake.
    pose proof (wait_left_wake (<[t := p']> (threads s))). rewrite length_insert in *. nia.
  - rewrite length_insert. destruct Et as [[??]|(? & ? & _)]; nia.
Qed.

(** The fail-stops of the counter are not reachable. *)
Lemma step_no_abort s v t a p :
  inv s v -> (Z.of_nat (length (threads s)) <= Spec.max_count pw) ->
  threads s !! t = Some p ->
  exists e, thread_step pw t a p (mem s) = Done e.
Proof.
  intros I Hn Ht. pose proof (inv_valid _ _ I) as Hv.
  destruct a, p; simpl; try (by eexists);
    unfold enter, begin_close, take_lock, drop_lock, continue; try (by eexists).
  - rewrite (inv_ctr _ _ I), try_release_without_notification_view by done.
    pose proof (count_pos _ _ _ _ I Ht eq_refl).
    unfold Spec.release_without_notification.
    destruct (Z.eqb_spec (Spec.count v) 0); [lia|].
    destruct ((Spec.count v =? 1) && Spec.waiting v); by eexists.
  - destruct (lock (mem s)); by eexists.
  - rewrite (inv_ctr _ _ I), release_view by done. pose proof (count_pos _ _ _ _ I Ht eq_refl).
    unfold Spec.release. destruct (Z.eqb_spec (Spec.count v) 0); [lia|]. by eexists.
  - destruct o; by eexists.
  - destruct (lock (mem s)); by eexists.
  - destruct (active0 =? 0); by eexists.
  - destruct (lock (mem s)); by eexists.
  - rewrite (inv_ctr _ _ I), try_acquire_view by done. unfold Spec.acquire.
    destruct (Spec.sealed v); [by eexists|].
    destruct (Z.eqb_spec (Spec.count v) (Spec.max_count pw)) as [Em|]; [|by eexists].
    exfalso. rewrite (inv_count _ _ I) in Em. unfold outstanding in Em.
    pose proof (sum_list_with_insert holds _ _ _ Permit Ht) as Hi. simpl in Hi.
    pose proof (sum_list_with_le_length holds (<[t := Permit]> (threads s)) holds_le) as Hle.
    rewrite length_insert in Hle. lia.
Qed.

(** Some unfinished thread can always run: a lock holder, or when the lock is
    free any thread that is not parked. *)
Lemma progress s v :
  inv s v -> (Z.of_nat (length (threads s)) <= Spec.max_count pw) ->
  (exists t p, threads s !! t = Some p /\ finished p = false) ->
  exists s', run_step pw s s'.
Proof.
  intros I Hn (t0 & p0 & Ht0 & Hf0).
  assert (Hgo : forall t p, threads s !! t = Some p -> finished p = false -> p <> WaitParked ->
            (owns_lock p = true \/ lock (mem s) = None) -> exists s', run_step pw s s').
  { intros t p Ht Hf Hp Hl. destruct (step_no_abort s v t Run p I Hn Ht) as [e Ee].
    assert (e <> None) as He.
    { intros ->. destruct p; simpl in *; try done;
        unfold begin_close, take_lock, drop_lock, continue in Ee;
        unfold obind in Ee; repeat (case_match; simplify_eq/=); try done; destruct Hl; congruence. }
    destruct e as [[[p' m] n]|]; [|done]. eexists. exists t. unfold step. rewrite Ht, Ee. done. }
  destruct (lock (mem s)) as [o|] eqn:El.
  - pose proof (inv_owner _ _ I _ El) as Ho.
    destruct (lookup_lt_is_Some_2 (threads s) o Ho) as [p Hp].
    pose proof (proj2 (inv_lock _ _ I _ _ Hp) El) as Hown.
    apply (Hgo o p); [done|destruct p; simpl in *; congruence|by intros ->|by left].
  - destruct (decide (p0 = WaitParked)) as [->|Hne]; [|by apply (Hgo t0 p0); auto].
    destruct (inv_thread _ _ I _ _ Ht0) as (_ & _ & [Hc|Hin]).
    + rewrite (inv_count _ _ I) in Hc. unfold outstanding in Hc.
      destruct (sum_list_with_pos holds (threads s)) as (j & q & Hj & Hq); [lia|].
      apply (Hgo j q); [done|by destruct q; simpl in *; try lia|by intros ->; simpl in *; lia|auto].
    + apply list_elem_of_lookup in Hin as [j Hj]. by apply (Hgo j (RelOutcome BecameIdle)); auto.
Qed.

Lemma run_reachable n s s' : reachable pw n s -> rtc (run_step pw) s s' -> reachable pw n s'.
Proof.
  intros H R. induction R as [s|s s1 s2 [t E] _ IH]; [done|]. apply IH.
  eapply rtc_r; [exact H|]. exists t, Run. exact E.
Qed.

End Invariant.
End OperationGate.

(** ** Properties *)
Module OperationGateTheorems.
Import OperationGate.

(** Runs evaluated by the witnesses are reachable. *)
Lemma schedule_reachable pw moves : forall n s s',
  reachable pw n s -> schedule pw moves s = Done (Some s') -> reachable pw n s'.
Proof.
  induction moves as [|[t a] moves IH]; intros n s s' Hs E; simpl in E; [by simplify_eq|].
  destruct (step pw t a s) as [[s1|]| |] eqn:Es; simplify_eq/=.
  eapply IH; [|exact E]. eapply rtc_r; [exact Hs|]. by exists t, a.
Qed.

(** C7: reclamation safety of the operation gate.  In every interleaving, once
    some caller's [wait] has returned, no thread holds an operation permit or
    is anywhere inside a release, so none accesses the gate's counter, mutex
    or condition variable through a permit again; the gate is sealed, its
    count is zero, and a further [enter] is refused.  The owner may reclaim
    the gate. *)
Theorem drained_gate_is_unreachable (pw : pointer_width) (n t : nat) (s : config) :
  reachable pw n s -> threads s !! t = Some Drained ->
  (forall t' p, threads s !! t' = Some p -> releasing p = false)
  /\ is_sealed pw (ctr (mem s)) = true /\ active pw (ctr (mem s)) = 0%Z
  /\ try_acquire pw (ctr (mem s)) = Done (Err Sealed, ctr (mem s)).
Proof.
  intros (v & I & _)%inv_reachable Ht. pose proof (inv_valid _ _ _ I) as Hv.
  destruct (inv_thread _ _ _ I _ _ Ht) as [Hs Hd]. specialize (Hs eq_refl).
  assert (Hr : forall t' p, threads s !! t' = Some p -> releasing p = false).
  { intros t' p Hp. apply Hd. apply list_elem_of_lookup. eauto. }
  rewrite (inv_ctr _ _ _ I), is_sealed_view, active_view, try_acquire_view by done.
  split_and!; [done|done| |].
  - rewrite (inv_count _ _ _ I). unfold outstanding.
    assert (sum_list_with holds (threads s) = 0) as ->; [|done].
    apply sum_list_with_zero. intros t' p Hp. specialize (Hr t' p Hp). by destruct p.
  - unfold Spec.acquire. by rewrite Hs.
Qed.

(** Thread 0 closes while thread 1 holds a permit: the waiter parks, the last
    release takes the lock, notifies and unlocks, and the waiter returns. *)
Definition close_race : list (nat * action) :=
  [(1, Enter); (0, CloseAndWait); (0, Run); (0, Run); (0, Run); (0, Run);
   (1, Run); (1, Run); (1, Run); (1, Run); (1, Run); (0, Run); (0, Run); (0, Run); (0, Run)].

Definition closed_state (pw : pointer_width) : config :=
  Config (Shared {| state := Z.lor (SEALED_BIT pw) (WAITING_BIT pw) |} None) [Drained; Idle].

Lemma close_race_runs : schedule W32 close_race (initial 2) = Done (Some (closed_state W32)).
Proof. vm_compute. reflexivity. Qed.

Lemma drained_gate_is_unreachable_witness :
  try_acquire W32 (ctr (mem (closed_state W32))) = Done (Err Sealed, ctr (mem (closed_state W32))).
Proof.
  apply (drained_gate_is_unreachable W32 2 0 (closed_state W32)); [|reflexivity].
  apply (schedule_reachable W32 close_race 2 (initial 2)); [apply rtc_refl|].
  exact close_race_runs.
Defined.

(** C27: draining terminates and loses no wakeup.  From every reachable
    configuration, running the calls already started (with guards eventually
    dropped) takes at most [measure] steps whatever the schedule, and it can
    only stop when every thread has finished: no waiter stays parked. *)
Theorem drain_terminates (pw : pointer_width) (n : nat) (s : config) :
  (Z.of_nat n <= Spec.max_count pw)%Z -> reachable pw n s ->
  (forall k s', nsteps (run_step pw) k s s' -> k <= measure s)
  /\ (forall s', rtc (run_step pw) s s' -> ~ (exists s'', run_step pw s' s'') ->
        forall t p, threads s' !! t = Some p -> p = Idle \/ p = Drained).
Proof.
  intros Hn Hr. split.
  - intros k s' H. clear Hr.
    assert (measure s' + k <= measure s); [|lia].
    induction H as [|k s s1 s2 H1 _ IH]; [lia|]. pose proof (measure_decreases _ _ _ H1). lia.
  - intros s' R Hstop t p Hp. pose proof (run_reachable _ _ _ _ Hr R) as Hr'.
    destruct (inv_reachable _ _ _ Hr') as (v & I & Hl).
    destruct (finished p) eqn:Hf; [destruct p; auto; done|]. exfalso. apply Hstop.
    apply (progress pw s' v I); [by rewrite Hl|]. eauto.
Qed.

Definition parked_state : config :=
  Config (Shared {| state := 0xC0000001 |} None) [WaitParked; Permit].

Lemma drain_terminates_witness :
  measure parked_state = 75
  /\ forall k s', nsteps (run_step W32) k parked_state s' -> k <= measure parked_state.
Proof.
  split; [reflexivity|].
  apply (drain_terminates W32 2 parked_state); [by vm_compute|].
  apply (schedule_reachable W32 (take 6 close_race) 2 (initial 2)); [apply rtc_refl|].
  vm_compute. reflexivity.
Defined.

(** No interleaving of up to the maximum number of threads makes the
    operation gate abort the process. *)
Theorem operation_gate_never_aborts (pw : pointer_width) (n t : nat) (a : action) (s : config) :
  (Z.of_nat n <= Spec.max_count pw)%Z -> reachable pw n s ->
  exists o, step pw t a s = Done o.
Proof.
  intros Hn (v & I & Hl)%inv_reachable. unfold step.
  destruct (threads s !! t) as [p|] eqn:Ht; [|by eexists].
  destruct (step_no_abort pw s v t a p I) as [e ->]; [by rewrite Hl|done|]. by eexists.
Qed.

Lemma operation_gate_never_aborts_witness :
  exists o, step W32 1 Run parked_state = Done o.
Proof.
  apply (operation_gate_never_aborts W32 2 1 Run parked_state); [by vm_compute|].
  apply (schedule_reachable W32 (take 6 close_race) 2 (initial 2)); [apply rtc_refl|].
  vm_compute. reflexivity.
Defined.

End OperationGateTheorems.
