(* ===== verification/RotatingDomain.v ===== *)
(** * The rotating read domain

    Models crates/xlfn-kernel/src/rotating_read_domain.rs with its parts
    protocol.rs, queue.rs, retirement.rs, transition.rs and
    transition/retirement.rs: two generations of striped drain gates, the
    published generation, the transition lock with the pending rotation, and
    the two retirement queues of [RotatingRetirementDomain].

    A thread is a program counter inside one call ([enter], the drop of a
    permit, [register_retired], [quiesce], [try_quiesce_if_idle],
    [poll_quiesce], [seal_and_wait], [take_queues]); a step runs one access
    to a shared atomic, mutex or lock-protected field, in any interleaving.
    Parked waiters may wake at any time, which covers every behaviour of the
    condition variable.  The control mutexes of the gates are taken only by
    the owner of the transition lock and are never contended; they have no
    state of their own here.  A ghost clock orders admissions and
    registrations. *)

From stdpp Require Import functions.
From S2P Require Import Prelude SealableCounter.
Import SealableCounter.Counter.

Module Rotating.

(** ** Data *)

(** [GenerationIndex(u8)]: one of two indices; [index ^ 1] is [flip]. *)
Inductive GenerationIndex : Type := Gen0 | Gen1.

#[export] Instance generation_eq_dec : EqDecision GenerationIndex.
Proof. solve_decision. Defined.

Definition flip (g : GenerationIndex) : GenerationIndex :=
  match g with Gen0 => Gen1 | Gen1 => Gen0 end.

(** The mutexes: [transition], the notification mutex of each generation's
    gate, and the mutex of each queue. *)
Inductive mutex : Type :=
| LTransition
| LIdle (g : GenerationIndex)
| LQueue (g : GenerationIndex).

#[export] Instance mutex_eq_dec : EqDecision mutex.
Proof. solve_decision. Defined.

(** A retired payload and the ghost time of its registration. *)
Abbreviation record := (nat * nat)%type.
Abbreviation batch := (list record).

(** [RotatingReadDomain] and [RotatingRetirementDomain]. *)
Record shared : Type := Shared {
  gates : GenerationIndex -> list SealableCounter;
  current : GenerationIndex;
  pending : option GenerationIndex;
  closed : bool;
  queues : GenerationIndex -> batch;
  locks : mutex -> option nat;
  clock : nat;
}.

Definition set_gate (g : GenerationIndex) (i : nat) (c : SealableCounter) (m : shared) : shared :=
  Shared (<[g := <[i := c]> (gates m g)]> (gates m)) (current m) (pending m) (closed m)
    (queues m) (locks m) (clock m).
Definition set_current (g : GenerationIndex) (m : shared) : shared :=
  Shared (gates m) g (pending m) (closed m) (queues m) (locks m) (clock m).
Definition set_pending (o : option GenerationIndex) (m : shared) : shared :=
  Shared (gates m) (current m) o (closed m) (queues m) (locks m) (clock m).
Definition set_closed (m : shared) : shared :=
  Shared (gates m) (current m) (pending m) true (queues m) (locks m) (clock m).
Definition set_queue (g : GenerationIndex) (q : batch) (m : shared) : shared :=
  Shared (gates m) (current m) (pending m) (closed m) (<[g := q]> (queues m)) (locks m) (clock m).
Definition set_lock (l : mutex) (o : option nat) (m : shared) : shared :=
  Shared (gates m) (current m) (pending m) (closed m) (queues m) (<[l := o]> (locks m)) (clock m).
Definition tick (m : shared) : shared :=
  Shared (gates m) (current m) (pending m) (closed m) (queues m) (locks m) (S (clock m)).

(** Positions inside the operations of one generation's striped gate. *)
Inductive gate_call : Type :=
| SealLock                               (* [seal] *)
| SealAt (i : nat)
| IdleSealLoad (i : nat)                 (* [try_seal_if_idle] *)
| IdleSealCas (i : nat) (observed : Z)
| UndoAt (rollback i : nat)
| WaitLock                               (* [wait_until_idle] *)
| WaitAt (i : nat) (idle : bool)
| WaitParked
| DrainedSealed (i : nat)                (* [try_drained] *)
| DrainedLock
| DrainedAt (i : nat) (idle : bool)
| ReopenLock                             (* [reopen] *)
| ReopenCheck (i : nat)
| ReopenAt (i : nat).

Inductive call_result : Type :=
| More (c : gate_call)
| Ret (ok : bool).

(** [quiesce], [try_quiesce_if_idle] and [poll_quiesce]. *)
Inductive mode : Type := Blocking | IdleOnly | Polling.

Definition is_blocking (md : mode) : bool := match md with Blocking => true | _ => false end.

Inductive request : Type := Quiesce (md : mode) | SealAndWait.

(** A rotation in progress: the sealed generation, the batches detached so
    far, and whether a blocking call still has to begin its own rotation. *)
Record rotation : Type := Rotation {
  rmode : mode;
  old : GenerationIndex;
  got : list batch;
  more : bool;
}.

Inductive phase : Type :=
| Barrier                        (* about to take the registration barrier *)
| Replacement (c : gate_call)    (* [try_drained] on the replacement *)
| SealOld (c : gate_call)        (* [seal] or [try_seal_if_idle] on the old *)
| FailedBarrier                  (* idle seal failed: about to drop the barrier *)
| Publish
| Reopen (c : gate_call)
| ReleaseBarrier
| Wait (c : gate_call)           (* [PendingRotation::wait] or [try_wait] *)
| LockQueue                      (* the callback: [DetachedLocked::detach] *)
| Take
| UnlockQueue (b : batch)
| Clear (b : batch).

Inductive op_result : Type :=
| Busy                           (* [None] *)
| DomainClosed                   (* [Err(DomainClosed)] *)
| Batches (bs : list batch)      (* [DisposableBatch]es *)
| ClosedRetirement
| Taken (bs : list batch).       (* batches of [ClosedRetirement::take_queues] *)

Inductive pc : Type :=
| Idle
| EnterClosed (stripe : nat)
| EnterSelect (stripe : nat)
| EnterAcquire (stripe : nat) (g : GenerationIndex)
| EnterRecheck (stripe : nat)
| Reading (g : GenerationIndex) (stripe admitted : nat)
| RelSlow (g : GenerationIndex) (stripe admitted : nat)
| RelLocked (g : GenerationIndex) (stripe admitted : nat)
| RelTail (g : GenerationIndex) (stripe admitted : nat)
| RegSelect (ps : list nat)
| RegLock (ps : list nat) (g : GenerationIndex)
| RegCheck (ps : list nat) (g : GenerationIndex)
| RegAppend (ps : list nat) (g : GenerationIndex)
| RegUnlock (g : GenerationIndex)
| TransitionLock (k : request)
| TransitionClosed (md : mode)
| Classify (md : mode)
| Rotate (r : rotation) (ph : phase)
| MarkClosed
| Close (g : GenerationIndex) (c : gate_call)
| TransitionUnlock (o : op_result)
| Returned (o : op_result)
| TakeLock0                      (* [take_queues]: both locks, then each detach *)
| TakeLock1
| Detach0
| DetachUnlock0 (b : batch)
| Detach1 (b : batch)
| DetachUnlock1 (b b' : batch).

(** [Run] continues the call a thread is in (a reader drops its permit, a
    caller drops its result); the others start a call. *)
Inductive action : Type :=
| Run
| Enter (stripe : nat)
| Register (ps : list nat)
| Request (k : request)
| TakeQueues.

Record config : Type := Config { mem : shared; threads : list pc }.

Section Steps.
Context (pw : pointer_width).

(** [RotatingRetirementDomain::new] with [stripes] stripes per generation. *)
Definition new (stripes : nat) : shared := {|
  gates := fun g => match g with
                    | Gen0 => replicate stripes new_open
                    | Gen1 => replicate stripes (new_sealed pw)
                    end;
  current := Gen0;
  pending := None;
  closed := false;
  queues := fun _ => [];
  locks := fun _ => None;
  clock := 0;
|}.

Definition initial (stripes n : nat) : config := Config (new stripes) (replicate n Idle).

(** [Done None] is a step that cannot be taken now. *)
Abbreviation blocked := (Done None).

Definition lock {A} (t : nat) (l : mutex) (next : A) (m : shared) : outcome (option (A * shared)) :=
  match locks m l with
  | None => Done (Some (next, set_lock l (Some t) m))
  | Some _ => blocked
  end.

Definition try_lock {A} (t : nat) (l : mutex) (next busy : A) (m : shared)
  : outcome (option (A * shared)) :=
  match locks m l with
  | None => Done (Some (next, set_lock l (Some t) m))
  | Some _ => Done (Some (busy, m))
  end.

Definition unlock {A} (l : mutex) (next : A) (m : shared) : outcome (option (A * shared)) :=
  Done (Some (next, set_lock l None m)).

Definition go {A} (next : A) (m : shared) : outcome (option (A * shared)) := Done (Some (next, m)).

(** ** The striped gate, one access at a time *)

Definition gate_step (t : nat) (g : GenerationIndex) (c : gate_call) (m : shared)
  : outcome (option (call_result * shared)) :=
  let stripe i := gates m g !! i in
  match c with
  | SealLock => lock t (LIdle g) (More (SealAt 0)) m
  | SealAt i =>
      match stripe i with
      | Some x => go (More (SealAt (S i))) (set_gate g i (seal pw x) m)
      | None => unlock (LIdle g) (Ret true) m
      end
  | IdleSealLoad i =>
      match stripe i with
      | Some x => go (More (IdleSealCas i (state x))) m
      | None => go (Ret true) m
      end
  | IdleSealCas i observed =>
      match stripe i with
      | Some x =>
          let '(sealed, x') := try_idle_seal pw observed x in
          go (More (if sealed then IdleSealLoad (S i) else UndoAt 0 i)) (set_gate g i x' m)
      | None => Panicked
      end
  | UndoAt rollback i =>
      if bool_decide (rollback < i) then
        match stripe rollback with
        | Some x =>
            let* (r, x') := undo_idle_seal pw x in
            match r with
            | Ok _ => go (More (UndoAt (S rollback) i)) (set_gate g rollback x' m)
            | Err _ => Aborted
            end
        | None => Panicked
        end
      else go (Ret false) m
  | WaitLock => lock t (LIdle g) (More (WaitAt 0 true)) m
  | WaitAt i idle =>
      match stripe i with
      | Some x =>
          let '(active, x') := mark_waiting pw x in
          go (More (WaitAt (S i) (if negb (active =? 0)%Z then false else idle)))
            (set_gate g i x' m)
      | None => unlock (LIdle g) (if idle then Ret true else More WaitParked) m
      end
  | WaitParked => go (More WaitLock) m
  | DrainedSealed i =>
      match stripe i with
      | Some x => go (if is_sealed pw x then More (DrainedSealed (S i)) else Ret false) m
      | None => go (More DrainedLock) m
      end
  | DrainedLock => try_lock t (LIdle g) (More (DrainedAt 0 true)) (Ret false) m
  | DrainedAt i idle =>
      match stripe i with
      | Some x =>
          let '(active, x') := mark_waiting pw x in
          go (More (DrainedAt (S i) (if negb (active =? 0)%Z then false else idle)))
            (set_gate g i x' m)
      | None => unlock (LIdle g) (Ret idle) m
      end
  | ReopenLock => lock t (LIdle g) (More (ReopenCheck 0)) m
  | ReopenCheck i =>
      match stripe i with
      | Some x =>
          if negb (is_sealed pw x) || negb (active pw x =? 0)%Z
          then unlock (LIdle g) (Ret false) m
          else go (More (ReopenCheck (S i))) m
      | None => go (More (ReopenAt 0)) m
      end
  | ReopenAt i =>
      match stripe i with
      | Some x =>
          let* (r, x') := reopen pw x in
          match r with
          | Ok _ => go (More (ReopenAt (S i))) (set_gate g i x' m)
          | Err _ => unlock (LIdle g) (Ret false) m
          end
      | None => unlock (LIdle g) (Ret true) m
      end
  end.

Definition effect : Type := outcome (option (pc * shared)).

(** Runs a gate operation inside a caller: [inside] is the caller's position
    while the operation runs, [after] its continuation. *)
Definition call (t : nat) (g : GenerationIndex) (c : gate_call) (m : shared)
  (inside : gate_call -> pc) (after : bool -> outcome pc) : effect :=
  let* o := gate_step t g c m in
  match o with
  | None => blocked
  | Some (More c', m') => go (inside c') m'
  | Some (Ret b, m') => let* p := after b in go p m'
  end.

(** ** Readers: [enter_reader!] and the permit's drop *)

Definition reader_step (t : nat) (p : pc) (m : shared) : effect :=
  match p with
  | EnterClosed i => go (if closed m then Returned DomainClosed else EnterSelect i) m
  | EnterSelect i => go (EnterAcquire i (current m)) m
  | EnterAcquire i g =>
      match gates m g !! i with
      | None => Panicked
      | Some x =>
          let* (r, x') := try_acquire pw x in
          go (match r with Ok _ => Reading g i (clock m) | Err _ => EnterRecheck i end)
            (set_gate g i x' m)
      end
  | EnterRecheck i => go (if closed m then Returned DomainClosed else EnterClosed i) m
  | Reading g i a =>
      match gates m g !! i with
      | None => Panicked
      | Some x =>
          let* (fast, x') := try_release_without_notification pw x in
          go (match fast with Some _ => Idle | None => RelSlow g i a end) (set_gate g i x' m)
      end
  | RelSlow g i a => lock t (LIdle g) (RelLocked g i a) m
  | RelLocked g i a =>
      match gates m g !! i with
      | None => Panicked
      | Some x => let* (_, x') := release pw x in go (RelTail g i a) (set_gate g i x' m)
      end
  | RelTail g i a => unlock (LIdle g) Idle m
  | _ => blocked
  end.

(** ** [register_retired!] *)

Definition register_step (t : nat) (p : pc) (m : shared) : effect :=
  match p with
  | RegSelect ps => go (RegLock ps (current m)) m
  | RegLock ps g => lock t (LQueue g) (RegCheck ps g) m
  | RegCheck ps g =>
      if bool_decide (current m = g) then go (RegAppend ps g) m
      else unlock (LQueue g) (RegSelect ps) m
  | RegAppend ps g =>
      go (RegUnlock g) (set_queue g (queues m g ++ ((fun x => (x, clock m)) <$> ps)) m)
  | RegUnlock g => unlock (LQueue g) Idle m
  | _ => blocked
  end.

(** ** Rotations: [begin], [try_begin], [wait], [try_wait] and [run] *)

(** Where the wait of a pending rotation starts: [control().seal().wait()] or
    [try_control()?.try_drained()]. *)
Definition wait_start (md : mode) : gate_call :=
  match md with Blocking => SealLock | _ => DrainedSealed 0 end.

(** [control().seal().wait()] goes on to the wait once the seal is done. *)
Definition sealing (c : gate_call) : bool := match c with SealAt _ => true | _ => false end.

Definition seal_start (md : mode) : gate_call :=
  match md with IdleOnly => IdleSealLoad 0 | _ => SealLock end.

(** [NewRotation::begin] and [try_begin]. *)
Definition begin_step (t : nat) (r : rotation) (ph : phase) (m : shared) : effect :=
  let o := old r in
  let n := flip o in
  match ph with
  | Barrier =>
      match rmode r with
      | Blocking => lock t (LQueue o) (Rotate r (Replacement (DrainedSealed 0))) m
      | _ => try_lock t (LQueue o) (Rotate r (Replacement (DrainedSealed 0)))
               (TransitionUnlock Busy) m
      end
  | Replacement c =>
      call t n c m (fun c' => Rotate r (Replacement c'))
        (fun drained => if drained then Done (Rotate r (SealOld (seal_start (rmode r)))) else Aborted)
  | SealOld c =>
      call t o c m (fun c' => Rotate r (SealOld c'))
        (fun sealed => Done (Rotate r (if sealed then Publish else FailedBarrier)))
  | FailedBarrier => unlock (LQueue o) (TransitionUnlock Busy) m
  | Publish => go (Rotate r (Reopen ReopenLock)) (set_current n (set_pending (Some o) m))
  | Reopen c =>
      call t n c m (fun c' => Rotate r (Reopen c'))
        (fun opened => if opened then Done (Rotate r ReleaseBarrier) else Aborted)
  | ReleaseBarrier => unlock (LQueue o) (Rotate r (Wait (wait_start (rmode r)))) m
  | _ => blocked
  end.

(** [PendingRotation::wait] and [try_wait]. *)
Definition pending_step (t : nat) (r : rotation) (c : gate_call) (m : shared) : effect :=
  call t (old r) c m (fun c' => Rotate r (Wait c'))
    (fun ok => Done (if sealing c then Rotate r (Wait WaitLock)
                     else if ok then Rotate r LockQueue else TransitionUnlock Busy)).

(** [DrainedRotation::run] with the callback of [RotatingRetirementDomain]:
    detach the queue, then clear the pending rotation. *)
Definition run_step (t : nat) (r : rotation) (ph : phase) (m : shared) : effect :=
  let o := old r in
  match ph with
  | LockQueue => lock t (LQueue o) (Rotate r Take) m
  | Take => go (Rotate r (UnlockQueue (queues m o))) (set_queue o [] m)
  | UnlockQueue b => unlock (LQueue o) (Rotate r (Clear b)) m
  | Clear b =>
      let got' := got r ++ [b] in
      go (if more r then Rotate (Rotation (rmode r) (current m) got' false) Barrier
          else TransitionUnlock (Batches got')) (set_pending None m)
  | _ => blocked
  end.

Definition rotate_step (t : nat) (r : rotation) (ph : phase) (m : shared) : effect :=
  match ph with
  | Wait c => pending_step t r c m
  | LockQueue | Take | UnlockQueue _ | Clear _ => run_step t r ph m
  | _ => begin_step t r ph m
  end.

(** ** [LockedDomain::lock], [try_lock], [classify] and [seal_and_wait] *)

Definition locked_step (t : nat) (p : pc) (m : shared) : effect :=
  match p with
  | TransitionLock (Quiesce Blocking) => lock t LTransition (TransitionClosed Blocking) m
  | TransitionLock (Quiesce md) => try_lock t LTransition (TransitionClosed md) (Returned Busy) m
  | TransitionLock SealAndWait => lock t LTransition MarkClosed m
  | TransitionClosed md =>
      go (if closed m then TransitionUnlock DomainClosed else Classify md) m
  | Classify md =>
      go (match pending m with
          | Some o => Rotate (Rotation md o [] (is_blocking md)) (Wait (wait_start md))
          | None => Rotate (Rotation md (current m) [] false) Barrier
          end) m
  | TransitionUnlock o => unlock LTransition (Returned o) m
  | _ => blocked
  end.

(** [seal_and_wait] under the transition lock. *)
Definition close_step (t : nat) (p : pc) (m : shared) : effect :=
  match p with
  | MarkClosed => go (Close Gen0 SealLock) (set_closed m)
  | Close g c =>
      call t g c m (Close g)
        (fun _ => Done (if sealing c then Close g WaitLock
                        else match g with
                             | Gen0 => Close Gen1 SealLock
                             | Gen1 => TransitionUnlock ClosedRetirement
                             end))
  | _ => blocked
  end.

(** [ClosedRetirement::take_queues]. *)
Definition take_queues_step (t : nat) (p : pc) (m : shared) : effect :=
  match p with
  | TakeLock0 => lock t (LQueue Gen0) TakeLock1 m
  | TakeLock1 => lock t (LQueue Gen1) Detach0 m
  | Detach0 => go (DetachUnlock0 (queues m Gen0)) (set_queue Gen0 [] m)
  | DetachUnlock0 b => unlock (LQueue Gen0) (Detach1 b) m
  | Detach1 b => go (DetachUnlock1 b (queues m Gen1)) (set_queue Gen1 [] m)
  | DetachUnlock1 b b' => unlock (LQueue Gen1) (Returned (Taken [b; b'])) m
  | _ => blocked
  end.

Definition transition_step (t : nat) (p : pc) (m : shared) : effect :=
  match p with
  | TransitionLock _ | TransitionClosed _ | Classify _ | TransitionUnlock _ => locked_step t p m
  | MarkClosed | Close _ _ => close_step t p m
  | _ => take_queues_step t p m
  end.

Definition thread_step (t : nat) (a : action) (p : pc) (m : shared) : effect :=
  match a, p with
  | Enter i, Idle => go (EnterClosed i) m
  | Register ps, Idle => go (RegSelect ps) m
  | Request k, Idle => go (TransitionLock k) m
  | TakeQueues, Returned (ClosedRetirement | Taken _) => go TakeLock0 m
  | Run, Returned _ => go Idle m
  | Run, (EnterClosed _ | EnterSelect _ | EnterAcquire _ _ | EnterRecheck _
         | Reading _ _ _ | RelSlow _ _ _ | RelLocked _ _ _ | RelTail _ _ _) => reader_step t p m
  | Run, (RegSelect _ | RegLock _ _ | RegCheck _ _ | RegAppend _ _ | RegUnlock _) =>
      register_step t p m
  | Run, Rotate r ph => rotate_step t r ph m
  | Run, (TransitionLock _ | TransitionClosed _ | Classify _ | MarkClosed | Close _ _
         | TransitionUnlock _ | TakeLock0 | TakeLock1 | Detach0 | DetachUnlock0 _ | Detach1 _
         | DetachUnlock1 _ _) =>
      transition_step t p m
  | _, _ => blocked
  end.

Definition step (t : nat) (a : action) (s : config) : outcome (option config) :=
  match threads s !! t with
  | None => blocked
  | Some p =>
      let* e := thread_step t a p (mem s) in
      Done (match e with
            | None => None
            | Some (p', m) => Some (Config (tick m) (<[t := p']> (threads s)))
            end)
  end.

Definition steps (s s' : config) : Prop := exists t a, step t a s = Done (Some s').
Definition reachable (stripes n : nat) (s : config) : Prop := rtc steps (initial stripes n) s.

Fixpoint schedule (moves : list (nat * action)) (s : config) : outcome (option config) :=
  match moves with
  | [] => Done (Some s)
  | (t, a) :: moves =>
      let* o := step t a s in
      match o with Some s' => schedule moves s' | None => blocked end
  end.

End Steps.

(** ** What a program counter holds *)

(** The stripe a thread may still touch through a permit, the stripe whose
    count it owns, and the permit itself with its admission time. *)
Definition at_stripe (p : pc) : option (GenerationIndex * nat) :=
  match p with
  | Reading g i _ | RelSlow g i _ | RelLocked g i _ | RelTail g i _ => Some (g, i)
  | _ => None
  end.

Definition permit (p : pc) : option (GenerationIndex * nat * nat) :=
  match p with
  | Reading g i a | RelSlow g i a | RelLocked g i a => Some (g, i, a)
  | _ => None
  end.

Definition counted (p : pc) : option (GenerationIndex * nat) := fst <$> permit p.

(** The gate operation a transition is inside. *)
Definition gate_of (p : pc) : option (GenerationIndex * gate_call) :=
  match p with
  | Rotate r (Replacement c | Reopen c) => Some (flip (old r), c)
  | Rotate r (SealOld c | Wait c) => Some (old r, c)
  | Close g c => Some (g, c)
  | _ => None
  end.

Definition call_locked (c : gate_call) : bool :=
  match c with
  | SealAt _ | WaitAt _ _ | DrainedAt _ _ | ReopenCheck _ | ReopenAt _ => true
  | _ => false
  end.

Definition owns_transition (p : pc) : bool :=
  match p with
  | TransitionClosed _ | Classify _ | Rotate _ _ | MarkClosed | Close _ _
  | TransitionUnlock _ => true
  | _ => false
  end.

Definition owns_idle (p : pc) : option GenerationIndex :=
  match p with
  | RelLocked g _ _ | RelTail g _ _ => Some g
  | _ => match gate_of p with
         | Some (g, c) => if call_locked c then Some g else None
         | None => None
         end
  end.

Definition owns_queue (p : pc) (g : GenerationIndex) : bool :=
  match p with
  | RegCheck _ g' | RegAppend _ g' | RegUnlock g' => bool_decide (g' = g)
  | Rotate r (Replacement _ | SealOld _ | FailedBarrier | Publish | Reopen _ | ReleaseBarrier
             | Take | UnlockQueue _) => bool_decide (old r = g)
  | TakeLock1 => bool_decide (g = Gen0)
  | Detach0 | DetachUnlock0 _ => true
  | Detach1 _ | DetachUnlock1 _ _ => bool_decide (g = Gen1)
  | _ => false
  end.

Definition owns (p : pc) (l : mutex) : bool :=
  match l with
  | LTransition => owns_transition p
  | LIdle g => bool_decide (owns_idle p = Some g)
  | LQueue g => owns_queue p g
  end.

(** Records detached from the queues and held by a thread. *)
Definition result_batches (o : op_result) : list batch :=
  match o with Batches bs | Taken bs => bs | _ => [] end.

Definition carried (p : pc) : list record :=
  match p with
  | Rotate r (UnlockQueue b | Clear b) => mjoin (got r) ++ b
  | Rotate r _ => mjoin (got r)
  | TransitionUnlock o | Returned o => mjoin (result_batches o)
  | DetachUnlock0 b | Detach1 b => b
  | DetachUnlock1 b b' => b ++ b'
  | _ => []
  end.

(** Threads that observed the permanent closure. *)
Definition saw_closure (p : pc) : bool :=
  match p with
  | TransitionUnlock (ClosedRetirement | Taken _) | Returned (ClosedRetirement | Taken _)
  | TakeLock0 | TakeLock1 | Detach0 | DetachUnlock0 _ | Detach1 _ | DetachUnlock1 _ _ => true
  | _ => false
  end.

End Rotating.
