(* ===== verification/RotatingGates.v ===== *)
(** * Steps of the rotating domain on its gates

    What one step of RotatingDomain.v does to the striped gates, the permits
    and the mutexes, whatever the program counter: the counters seen through
    their observations, the facts each position of a gate operation
    establishes, and the record [moved] every later invariant starts from. *)

From stdpp Require Import functions.
From S2P Require Import Prelude SealableCounter RotatingDomain.
Import SealableCounter.Counter Rotating.

Module RotatingGates.

(** ** Counters by their observations *)
Section Counters.
Context (pw : pointer_width).
Local Open Scope Z_scope.
Implicit Types c : SealableCounter.

Definition cnt c : Z := Spec.count (view_of pw c).

Lemma wf_cases c : wf pw c -> exists v, Spec.valid pw v /\ c = of_view pw v.
Proof. intros H. exists (view_of pw c). split; [apply view_of_valid|]. by rewrite of_view_of. Qed.

Lemma cnt_view v : Spec.valid pw v -> cnt (of_view pw v) = Spec.count v.
Proof. intros H. unfold cnt. by rewrite view_of_view. Qed.

Lemma cnt_nonneg c : 0 <= cnt c <= Spec.max_count pw.
Proof. apply view_of_valid. Qed.

(** What an operation keeps: a well-formed word, and the given seal bit and
    count. *)
Definition becomes c' (sealed : bool) (n : Z) : Prop :=
  wf pw c' /\ is_sealed pw c' = sealed /\ cnt c' = n.

Lemma becomes_view v : Spec.valid pw v -> becomes (of_view pw v) (Spec.sealed v) (Spec.count v).
Proof.
  intros H. split_and!; [by apply of_view_wf|by apply is_sealed_view|by apply cnt_view].
Qed.

Lemma becomes_id c : wf pw c -> becomes c (is_sealed pw c) (cnt c).
Proof. done. Qed.

Lemma seal_becomes c : wf pw c -> becomes (seal pw c) true (cnt c).
Proof.
  intros (v & Hv & ->)%wf_cases. rewrite seal_view, cnt_view by done.
  apply (becomes_view (Spec.seal v)). done.
Qed.

Lemma mark_waiting_becomes c n c' :
  wf pw c -> mark_waiting pw c = (n, c') -> n = cnt c /\ becomes c' (is_sealed pw c) (cnt c).
Proof.
  intros (v & Hv & ->)%wf_cases E. rewrite mark_waiting_view in E by done. simplify_eq.
  rewrite cnt_view, is_sealed_view by done. split; [done|].
  apply (becomes_view (Spec.mark_waiting v)). done.
Qed.

Lemma try_acquire_becomes c r c' :
  wf pw c -> try_acquire pw c = Done (r, c') ->
  match r with
  | Ok _ => is_sealed pw c = false /\ becomes c' false (cnt c + 1)
  | Err _ => is_sealed pw c = true /\ c' = c
  end.
Proof.
  intros (v & Hv & ->)%wf_cases E. rewrite try_acquire_view in E by done.
  rewrite is_sealed_view, cnt_view by done.
  destruct (Spec.acquire pw v) as [v'| |] eqn:Ea; simplify_eq.
  - pose proof (spec_acquire_valid _ _ _ Hv Ea) as Hv'. unfold Spec.acquire in Ea.
    destruct (Spec.sealed v); [done|]. destruct (_ =? _); simplify_eq.
    split; [done|]. apply (becomes_view _ Hv').
  - unfold Spec.acquire in Ea. destruct (Spec.sealed v); [done|]. by destruct (_ =? _).
Qed.

Lemma fast_release_becomes c o c' :
  wf pw c -> try_release_without_notification pw c = Done (o, c') ->
  match o with
  | Some _ => becomes c' (is_sealed pw c) (cnt c - 1)
  | None => c' = c
  end.
Proof.
  intros (v & Hv & ->)%wf_cases E. rewrite try_release_without_notification_view in E by done.
  rewrite is_sealed_view, cnt_view by done.
  destruct (Spec.release_without_notification v) as [v'| |] eqn:Ea; simplify_eq; [|done].
  pose proof (spec_release_without_notification_valid _ _ _ Hv Ea) as Hv'.
  unfold Spec.release_without_notification in Ea.
  destruct (Spec.count v =? 0); [done|]. destruct (_ && _); simplify_eq. apply (becomes_view _ Hv').
Qed.

Lemma release_becomes c o c' :
  wf pw c -> release pw c = Done (o, c') -> becomes c' (is_sealed pw c) (cnt c - 1).
Proof.
  intros (v & Hv & ->)%wf_cases E. rewrite release_view in E by done.
  rewrite is_sealed_view, cnt_view by done.
  destruct (Spec.release v) as [v'| |] eqn:Ea; simplify_eq.
  pose proof (spec_release_valid _ _ _ Hv Ea) as Hv'. unfold Spec.release in Ea.
  destruct (Spec.count v =? 0); simplify_eq. apply (becomes_view _ Hv').
Qed.

Lemma idle_seal_becomes observed c b c' :
  wf pw c -> try_idle_seal pw observed c = (b, c') ->
  if b then is_sealed pw c = false /\ cnt c = 0 /\ becomes c' true 0 else c' = c.
Proof.
  intros Hc E. destruct (decide (observed = state c)) as [->|Hne].
  - pose proof Hc as (v & Hv & ->)%wf_cases.
    rewrite try_idle_seal_view in E by (done || by apply of_view_wf).
    rewrite is_sealed_view, cnt_view by done. cbn [state of_view] in E. rewrite Z.eqb_refl in E.
    destruct (Spec.idle_seal v) as [v'|] eqn:Ei; simplify_eq; [|done].
    pose proof (spec_idle_seal_valid pw _ _ Ei) as Hv'. unfold Spec.idle_seal in Ei.
    destruct (Spec.sealed v), (Z.eqb_spec (Spec.count v) 0) as [Ez|]; simplify_eq/=.
    split_and!; [done|done|]. apply (becomes_view _ Hv').
  - unfold try_idle_seal, compare_exchange in E. destruct (idle_seal_logic _ _ _); [|by simplify_eq].
    rewrite (proj2 (Z.eqb_neq _ _)) in E by congruence. by simplify_eq.
Qed.

(** Undo and reopen succeed exactly on a sealed idle counter. *)
Lemma undo_becomes c :
  wf pw c ->
  if is_sealed pw c && (cnt c =? 0)
  then exists c', undo_idle_seal pw c = Done (Ok tt, c') /\ becomes c' false 0
  else undo_idle_seal pw c = Done (Err ReopenError, c).
Proof.
  intros (v & Hv & ->)%wf_cases. rewrite is_sealed_view, cnt_view, undo_idle_seal_view by done.
  unfold Spec.undo_idle_seal. destruct (_ && _); [|done].
  eexists. split; [done|]. apply (becomes_view _ (idle_valid _ _ _)).
Qed.

Lemma reopen_becomes c :
  wf pw c ->
  if is_sealed pw c && (cnt c =? 0)
  then exists c', reopen pw c = Done (Ok tt, c') /\ becomes c' false 0
  else reopen pw c = Done (Err ReopenError, c).
Proof.
  intros (v & Hv & ->)%wf_cases. rewrite is_sealed_view, cnt_view, reopen_view by done.
  unfold Spec.reopen. destruct (_ && _); [|done].
  eexists. split; [done|]. apply (becomes_view _ (idle_valid _ _ _)).
Qed.

Lemma active_cnt c : wf pw c -> active pw c = cnt c.
Proof. intros (v & Hv & ->)%wf_cases. by rewrite active_view, cnt_view. Qed.

(** The operations return, short of overflow and underflow. *)
Lemma try_acquire_done c : wf pw c -> cnt c < Spec.max_count pw -> exists r, try_acquire pw c = Done r.
Proof.
  intros (v & Hv & ->)%wf_cases. rewrite cnt_view, try_acquire_view by done. intros H.
  unfold Spec.acquire. destruct (Spec.sealed v); [by eexists|].
  rewrite (proj2 (Z.eqb_neq _ _)) by lia. by eexists.
Qed.

Lemma fast_release_done c :
  wf pw c -> 0 < cnt c -> exists r, try_release_without_notification pw c = Done r.
Proof.
  intros (v & Hv & ->)%wf_cases. rewrite cnt_view, try_release_without_notification_view by done.
  intros H. unfold Spec.release_without_notification.
  rewrite (proj2 (Z.eqb_neq _ _)) by lia. destruct (_ && _); by eexists.
Qed.

Lemma release_done c : wf pw c -> 0 < cnt c -> exists r, release pw c = Done r.
Proof.
  intros (v & Hv & ->)%wf_cases. rewrite cnt_view, release_view by done.
  intros H. unfold Spec.release. rewrite (proj2 (Z.eqb_neq _ _)) by lia. by eexists.
Qed.

End Counters.

(** ** Effects on the gates *)
Section Gates.
Context (pw : pointer_width).
Local Open Scope Z_scope.
Implicit Types m : shared.

Definition wf_mem m : Prop := forall g i c, gates m g !! i = Some c -> wf pw c.

(** Out-of-range stripes count as sealed. *)
Definition sealed_of m (g : GenerationIndex) (i : nat) : bool :=
  match gates m g !! i with Some c => is_sealed pw c | None => true end.

Definition count_of m (g : GenerationIndex) (i : nat) : Z :=
  match gates m g !! i with Some c => cnt pw c | None => 0 end.

(** [m'] differs from [m] in at most the stripe [(g, i)], which now has the
    given seal bit and count. *)
Definition gate_set m m' (g : GenerationIndex) (i : nat) (sealed : bool) (n : Z) : Prop :=
  wf_mem m' /\ (forall g', length (gates m' g') = length (gates m g'))
  /\ sealed_of m' g i = sealed /\ count_of m' g i = n
  /\ forall g' j, (g', j) <> (g, i) ->
       sealed_of m' g' j = sealed_of m g' j /\ count_of m' g' j = count_of m g' j.

Definition gate_same m m' : Prop :=
  wf_mem m' /\ (forall g', length (gates m' g') = length (gates m g'))
  /\ forall g' j, sealed_of m' g' j = sealed_of m g' j /\ count_of m' g' j = count_of m g' j.

Lemma gate_same_refl m m' : wf_mem m -> gates m' = gates m -> gate_same m m'.
Proof.
  intros Hw E. unfold gate_same, wf_mem, sealed_of, count_of. rewrite E. done.
Qed.

Lemma set_gate_lookup g i c m g' j :
  gates (set_gate g i c m) g' !! j
  = if decide (g' = g) then <[i := c]> (gates m g) !! j else gates m g' !! j.
Proof.
  simpl. destruct (decide (g' = g)) as [->|Hg]; [by rewrite fn_lookup_insert|].
  by rewrite fn_lookup_insert_ne by congruence.
Qed.

Lemma set_gate_set g i c c' m sealed n :
  wf_mem m -> gates m g !! i = Some c -> becomes pw c' sealed n ->
  gate_set m (set_gate g i c' m) g i sealed n.
Proof.
  intros Hw Hc (Hwf & Hs & Hn). pose proof (lookup_lt_Some _ _ _ Hc) as Hlt.
  assert (Hi : gates (set_gate g i c' m) g !! i = Some c').
  { rewrite set_gate_lookup, decide_True by done. by apply list_lookup_insert_eq. }
  split_and!.
  - intros g' j x. rewrite set_gate_lookup. case_decide; [|apply Hw]. subst g'.
    destruct (decide (i = j)) as [<-|Hj].
    + rewrite list_lookup_insert_eq by done. by intros [= <-].
    + rewrite list_lookup_insert_ne by done. apply Hw.
  - intros g'. simpl. destruct (decide (g' = g)) as [->|Hg].
    + by rewrite fn_lookup_insert, length_insert.
    + by rewrite fn_lookup_insert_ne by congruence.
  - unfold sealed_of. by rewrite Hi.
  - unfold count_of. by rewrite Hi.
  - intros g' j Hne. unfold sealed_of, count_of. rewrite set_gate_lookup. case_decide; [|done].
    subst g'. by rewrite list_lookup_insert_ne by congruence.
Qed.

(** A stripe written back with its seal bit and count unchanged. *)
Lemma set_gate_same g i c c' m :
  wf_mem m -> gates m g !! i = Some c -> becomes pw c' (is_sealed pw c) (cnt pw c) ->
  gate_same m (set_gate g i c' m).
Proof.
  intros Hw Hc Hb. destruct (set_gate_set _ _ _ _ _ _ _ Hw Hc Hb) as (? & ? & Hs & Hn & Ho).
  split_and!; [done..|]. intros g' j. destruct (decide ((g', j) = (g, i))) as [[= -> ->]|Hne].
  - rewrite Hs, Hn. unfold sealed_of, count_of. by rewrite Hc.
  - auto.
Qed.

Lemma sealed_of_lookup m g i c : gates m g !! i = Some c -> sealed_of m g i = is_sealed pw c.
Proof. unfold sealed_of. by intros ->. Qed.

Lemma count_of_lookup m g i c : gates m g !! i = Some c -> count_of m g i = cnt pw c.
Proof. unfold count_of. by intros ->. Qed.

End Gates.

(** ** Gate operations *)

Definition holds (x : GenerationIndex * nat) (p : pc) : nat :=
  if decide (counted p = Some x) then 1 else 0.

Definition holders (ts : list pc) (x : GenerationIndex * nat) : nat := sum_list_with (holds x) ts.

(** No thread owns a count of the stripe, or may touch it at all. *)
Definition unheld (ts : list pc) (g : GenerationIndex) (i : nat) : Prop :=
  forall t p, ts !! t = Some p -> counted p <> Some (g, i).
Definition nobody (ts : list pc) (g : GenerationIndex) (i : nat) : Prop :=
  forall t p, ts !! t = Some p -> at_stripe p <> Some (g, i).

Lemma counted_at_stripe p x : counted p = Some x -> at_stripe p = Some x.
Proof. unfold counted. by destruct p; simpl; intros [= <-]. Qed.

Lemma nobody_unheld ts g i : nobody ts g i -> unheld ts g i.
Proof. intros H t p Hp E. by eapply H, counted_at_stripe. Qed.

Lemma unheld_holders ts g i : unheld ts g i <-> holders ts (g, i) = 0.
Proof.
  unfold unheld, holders. split.
  - intros H. apply sum_list_with_zero. intros t p Hp. unfold holds.
    rewrite decide_False; [done|]. by eapply H.
  - intros H t p Hp E. pose proof (sum_list_with_ge (holds (g, i)) _ _ _ Hp) as Hge.
    unfold holds in Hge at 1. rewrite decide_True in Hge by done. lia.
Qed.

(** Splits a step equation into its branches. *)
Ltac split_step E :=
  repeat first
    [ progress simplify_eq/=
    | match type of E with
      | context [match ?x with _ => _ end] => destruct x eqn:?
      end ].

(** Reads stripe [i] of generation [g], in range or not. *)
Tactic Notation "lookup_stripe" constr(g) constr(i) "as" ident(c) ident(Hc) ident(Hi) :=
  match goal with
  | E : context [gates ?m g !! i] |- _ =>
      destruct (gates m g !! i) as [c|] eqn:Hc;
      [pose proof (lookup_lt_Some _ _ _ Hc) as Hi|pose proof (lookup_ge_None_1 _ _ Hc) as Hi];
      try (rewrite decide_True by done); try (rewrite decide_False by lia)
  end.

Section GateCalls.
Context (pw : pointer_width).
Implicit Types m : shared.

Abbreviation sealed_at m g i := (sealed_of pw m g i = true).
Definition sealed_all m g : Prop := forall i, sealed_at m g i.
(** The stripes of [g] selected by [P] admit readers. *)
Definition open_on m (g : GenerationIndex) (P : nat -> Prop) : Prop :=
  forall i, P i -> i < length (gates m g) -> sealed_of pw m g i = false.
Definition open_all m g : Prop := open_on m g (fun _ => True).
Definition quiet m ts g i : Prop := sealed_at m g i /\ nobody ts g i.
Definition quiet_all m ts g : Prop := forall i, quiet m ts g i.

Definition counts_ok m ts : Prop :=
  (forall g i, i < length (gates m g) -> count_of pw m g i = Z.of_nat (holders ts (g, i)))
  /\ (forall t p g i, ts !! t = Some p -> at_stripe p = Some (g, i) -> i < length (gates m g)).

(** What is established at each position of a gate operation. *)
Definition call_ok m ts g (c : gate_call) : Prop :=
  match c with
  | SealLock => True
  | SealAt k | DrainedSealed k => forall i, i < k -> sealed_at m g i
  | IdleSealLoad k =>
      (forall i, i < k -> sealed_at m g i /\ unheld ts g i) /\ open_on m g (fun i => k <= i)
      /\ k <= length (gates m g)
  | IdleSealCas k _ =>
      (forall i, i < k -> sealed_at m g i /\ unheld ts g i) /\ open_on m g (fun i => k <= i)
      /\ k < length (gates m g)
  | UndoAt r k =>
      (forall i, r <= i < k -> sealed_at m g i /\ unheld ts g i)
      /\ open_on m g (fun i => i < r \/ k <= i) /\ k <= length (gates m g) /\ r <= k
  | WaitLock | WaitParked | DrainedLock => sealed_all m g
  | WaitAt k idle | DrainedAt k idle =>
      sealed_all m g /\ (idle = true -> forall i, i < k -> unheld ts g i)
  | ReopenLock | ReopenCheck _ => quiet_all m ts g
  | ReopenAt k => (forall i, k <= i -> quiet m ts g i) /\ open_on m g (fun i => i < k)
  end.

Definition ret_ok m ts g (c : gate_call) (b : bool) : Prop :=
  match c with
  | SealAt _ | IdleSealLoad _ => b = true /\ sealed_all m g
  | UndoAt _ _ => b = false /\ open_all m g
  | WaitAt _ _ => b = true /\ sealed_all m g /\ forall i, unheld ts g i
  | DrainedAt _ _ => sealed_all m g /\ (b = true -> forall i, unheld ts g i)
  | DrainedSealed _ | DrainedLock => b = false
  | ReopenAt _ => b = true /\ open_all m g
  | _ => False
  end.

Definition rest_same m m' : Prop :=
  current m' = current m /\ pending m' = pending m /\ closed m' = closed m
  /\ queues m' = queues m /\ clock m' = clock m.

(** How a mutex moves when its owner, or nobody, acts on it. *)
Definition lock_move (t : nat) (b b' : bool) (l l' : option nat) : Prop :=
  (l' = l /\ b' = b) \/ (l = None /\ l' = Some t /\ b' = true)
  \/ (b = true /\ l' = None /\ b' = false).

Definition more_locked (r : call_result) : bool :=
  match r with More c => call_locked c | Ret _ => false end.

Lemma lock_inv {A} t l (next : A) m x m' :
  lock t l next m = Done (Some (x, m')) ->
  locks m l = None /\ x = next /\ m' = set_lock l (Some t) m.
Proof. unfold lock. destruct (locks m l); intros [= <- <-]. done. Qed.

Lemma try_lock_inv {A} t l (next busy : A) m x m' :
  try_lock t l next busy m = Done (Some (x, m')) ->
  (locks m l = None /\ x = next /\ m' = set_lock l (Some t) m)
  \/ (locks m l <> None /\ x = busy /\ m' = m).
Proof. unfold try_lock. destruct (locks m l); intros [= <- <-]; auto. Qed.

Lemma set_lock_same l o m l' : l' <> l -> locks (set_lock l o m) l' = locks m l'.
Proof. intros H. simpl. by rewrite fn_lookup_insert_ne. Qed.

Lemma set_lock_eq l o m : locks (set_lock l o m) l = o.
Proof. simpl. by rewrite fn_lookup_insert. Qed.

Lemma gate_step_frame t g c m r m' :
  gate_step pw t g c m = Done (Some (r, m')) ->
  rest_same m m'
  /\ (forall l, l <> LIdle g -> locks m' l = locks m l)
  /\ lock_move t (call_locked c) (more_locked r) (locks m (LIdle g)) (locks m' (LIdle g)).
Proof.
  unfold rest_same, lock_move. intros E.
  destruct c; cbn [gate_step] in E; unfold go, unlock, lock, try_lock, obind in E;
    split_step E;
    (split_and!; [done..|intros l Hl; rewrite ?fn_lookup_insert_ne by congruence; done|];
     rewrite ?fn_lookup_insert; repeat case_match; eauto 6).
Qed.

(** Gate operations never change a count, touch one generation only, and
    unseal a stripe only in [undo] and [reopen]. *)
Definition unseals (c : gate_call) : bool :=
  match c with UndoAt _ _ | ReopenAt _ => true | _ => false end.

Definition resealing (c : gate_call) : bool :=
  match c with SealAt _ | IdleSealCas _ _ | UndoAt _ _ | ReopenAt _ => true | _ => false end.

Definition gates_kept m m' : Prop :=
  wf_mem pw m' /\ (forall g', length (gates m' g') = length (gates m g'))
  /\ (forall g' j, count_of pw m' g' j = count_of pw m g' j).

Lemma gate_same_kept m m' : gate_same pw m m' -> gates_kept m m'.
Proof. intros (? & ? & H). split_and!; [done..|]. intros. apply H. Qed.

Lemma gate_set_kept m m' g i b n :
  gate_set pw m m' g i b n -> count_of pw m g i = n -> gates_kept m m'.
Proof.
  intros (? & ? & _ & Hn & Ho) Hc. split_and!; [done..|]. intros g' j.
  destruct (decide ((g', j) = (g, i))) as [[= -> ->]|Hne]; [congruence|]. by apply Ho.
Qed.

Lemma mark_same m g i c n c' :
  wf_mem pw m -> gates m g !! i = Some c -> mark_waiting pw c = (n, c') ->
  n = count_of pw m g i /\ gate_same pw m (set_gate g i c' m).
Proof.
  intros Hw Hc E. apply mark_waiting_becomes in E as [-> Hb]; [|by eapply Hw].
  rewrite (count_of_lookup _ _ _ _ _ Hc). split; [done|by eapply set_gate_same].
Qed.

(** The gate after one access of an operation. *)
Lemma gate_step_gates t g c m r m' :
  wf_mem pw m -> gate_step pw t g c m = Done (Some (r, m')) ->
  match c with
  | SealAt i =>
      if decide (i < length (gates m g))
      then r = More (SealAt (S i)) /\ gate_set pw m m' g i true (count_of pw m g i)
      else r = Ret true /\ gate_same pw m m'
  | IdleSealCas i _ =>
      (r = More (IdleSealLoad (S i)) /\ gate_set pw m m' g i true 0 /\ count_of pw m g i = 0%Z)
      \/ (r = More (UndoAt 0 i) /\ gate_same pw m m')
  | UndoAt k i =>
      if decide (k < i)
      then r = More (UndoAt (S k) i) /\ gate_set pw m m' g k false 0 /\ count_of pw m g k = 0%Z
      else r = Ret false /\ gate_same pw m m'
  | ReopenAt i =>
      (r = More (ReopenAt (S i)) /\ gate_set pw m m' g i false 0 /\ count_of pw m g i = 0%Z)
      \/ (i < length (gates m g) /\ ~ (sealed_at m g i /\ count_of pw m g i = 0%Z)
          /\ gate_same pw m m')
      \/ (r = Ret true /\ length (gates m g) <= i /\ gate_same pw m m')
  | WaitAt i idle =>
      gate_same pw m m' /\
      if decide (i < length (gates m g))
      then r = More (WaitAt (S i) (idle && (count_of pw m g i =? 0)%Z))
      else r = if idle then Ret true else More WaitParked
  | DrainedAt i idle =>
      gate_same pw m m' /\
      if decide (i < length (gates m g))
      then r = More (DrainedAt (S i) (idle && (count_of pw m g i =? 0)%Z))
      else r = Ret idle
  | _ => gate_same pw m m'
  end.
Proof.
  intros Hw E.
  destruct c; cbn [gate_step] in E; unfold go, unlock, lock, try_lock in E;
    lazymatch goal with
    | |- gate_same _ _ _ => split_step E; by apply gate_same_refl
    | _ => idtac
    end.
  - lookup_stripe g i as c Hc Hi; simplify_eq; (split; [done|]).
    + rewrite (count_of_lookup _ _ _ _ _ Hc). eapply set_gate_set; eauto using seal_becomes.
    + by apply gate_same_refl.
  - lookup_stripe g i as c Hc Hi; [|done].
    destruct (try_idle_seal pw observed c) as [b c'] eqn:Es.
    pose proof (idle_seal_becomes _ _ _ _ _ (Hw _ _ _ Hc) Es) as Hb. destruct b; simplify_eq.
    + destruct Hb as (_ & Hz & Hb). left. rewrite (count_of_lookup _ _ _ _ _ Hc).
      split_and!; [done| |done]. by eapply set_gate_set.
    + right. split; [done|]. subst. eapply set_gate_same; eauto using becomes_id.
  - case_bool_decide; [rewrite decide_True by done|rewrite decide_False by done].
    + lookup_stripe g rollback as c Hc Hi; [|done].
      pose proof (undo_becomes pw c (Hw _ _ _ Hc)) as Hu.
      destruct (is_sealed pw c && (cnt pw c =? 0)%Z) eqn:Eb.
      * destruct Hu as (c' & Eu & Hb). rewrite Eu in E. simplify_eq/=.
        apply andb_prop in Eb as [_ Ez%Z.eqb_eq].
        rewrite (count_of_lookup _ _ _ _ _ Hc). split_and!; [done| |done].
        by eapply set_gate_set.
      * rewrite Hu in E. done.
    + simplify_eq. split; [done|]. by apply gate_same_refl.
  - lookup_stripe g i as c Hc Hi; [|simplify_eq; split; [by apply gate_same_refl|done]].
    destruct (mark_waiting pw c) as [n c'] eqn:Em. simplify_eq.
    destruct (mark_same _ _ _ _ _ _ Hw Hc Em) as [-> Hb].
    split; [done|]. by destruct (_ =? _)%Z, idle.
  - lookup_stripe g i as c Hc Hi; [|simplify_eq; split; [by apply gate_same_refl|done]].
    destruct (mark_waiting pw c) as [n c'] eqn:Em. simplify_eq.
    destruct (mark_same _ _ _ _ _ _ Hw Hc Em) as [-> Hb].
    split; [done|]. by destruct (_ =? _)%Z, idle.
  - lookup_stripe g i as c Hc Hi.
    + rewrite (count_of_lookup _ _ _ _ _ Hc), (sealed_of_lookup _ _ _ _ _ Hc).
      pose proof (reopen_becomes pw c (Hw _ _ _ Hc)) as Hu.
      destruct (is_sealed pw c && (cnt pw c =? 0)%Z) eqn:Eb.
      * destruct Hu as (c' & Eu & Hb). rewrite Eu in E. simplify_eq/=. left.
        apply andb_prop in Eb as [_ Ez%Z.eqb_eq]. split_and!; [done| |done].
        by eapply set_gate_set.
      * right; left. split_and!; [done|intros [Hs Hz]; by rewrite Hs, Hz in Eb|].
        rewrite Hu in E. simplify_eq/=. by apply gate_same_refl.
    + right; right. simplify_eq. split_and!; [done|done|]. by apply gate_same_refl.
Qed.

(** Facts that only look at seal bits carry over. *)
Lemma gate_same_sealed m m' g i : gate_same pw m m' -> sealed_of pw m' g i = sealed_of pw m g i.
Proof. intros (_ & _ & H). apply H. Qed.

Lemma gate_same_length m m' g : gate_same pw m m' -> length (gates m' g) = length (gates m g).
Proof. intros (_ & H & _). apply H. Qed.

Lemma call_ok_same m m' ts g c : gate_same pw m m' -> call_ok m ts g c -> call_ok m' ts g c.
Proof.
  intros Hs. pose proof (fun g i => gate_same_sealed m m' g i Hs) as Es.
  pose proof (fun g => gate_same_length m m' g Hs) as El.
  destruct c; simpl; unfold sealed_all, open_on, quiet_all, quiet; rewrite ?El;
    try setoid_rewrite Es; done.
Qed.

Lemma out_of_range_sealed m g i : length (gates m g) <= i -> sealed_at m g i.
Proof. intros H. unfold sealed_of. by rewrite lookup_ge_None_2. Qed.

Lemma sealed_below_all m g k :
  length (gates m g) <= k -> (forall i, i < k -> sealed_at m g i) -> sealed_all m g.
Proof.
  intros Hk H i. destruct (decide (i < k)); [by apply H|]. apply out_of_range_sealed. lia.
Qed.

Lemma unheld_below_all m ts g k :
  counts_ok m ts -> length (gates m g) <= k ->
  (forall i, i < k -> unheld ts g i) -> forall i, unheld ts g i.
Proof.
  intros [_ Hr] Hk H i. destruct (decide (i < k)); [by apply H|]. intros t p Hp E.
  apply counted_at_stripe in E. specialize (Hr _ _ _ _ Hp E). lia.
Qed.

Lemma gate_set_sealed m m' g i b n j :
  gate_set pw m m' g i b n ->
  sealed_of pw m' g j = if decide (j = i) then b else sealed_of pw m g j.
Proof.
  intros (_ & _ & Hs & _ & Ho). destruct (decide (j = i)) as [->|Hj]; [done|].
  apply Ho. congruence.
Qed.

Lemma count_zero_unheld m ts g i :
  counts_ok m ts -> i < length (gates m g) -> (count_of pw m g i = 0%Z <-> unheld ts g i).
Proof. intros [Hc _] Hi. rewrite unheld_holders, Hc by done. lia. Qed.

(** One visit of [observe_stripes!]: the flag stays true only while every
    visited stripe was free, and at the end that is every stripe. *)
Lemma observe_ok m ts g i idle m' :
  counts_ok m ts -> sealed_all m g -> (idle = true -> forall j, j < i -> unheld ts g j) ->
  gate_same pw m m' ->
  sealed_all m' g
  /\ if decide (i < length (gates m g))
     then idle && (count_of pw m g i =? 0)%Z = true -> forall j, j < S i -> unheld ts g j
     else idle = true -> forall j, unheld ts g j.
Proof.
  intros Hcn Hs Hu Hg. split; [intros j; rewrite (gate_same_sealed _ _ _ _ Hg); apply Hs|].
  case_decide as Hi.
  - intros [-> Hz%Z.eqb_eq]%andb_prop j Hj. apply (count_zero_unheld m ts) in Hz; [|done..].
    destruct (decide (j = i)) as [->|]; [done|]. apply Hu; [done|lia].
  - intros ->. apply (unheld_below_all m ts g i); [done|lia|auto].
Qed.

Lemma call_ok_step m ts t g c r m' :
  wf_mem pw m -> counts_ok m ts -> call_ok m ts g c ->
  gate_step pw t g c m = Done (Some (r, m')) ->
  match r with More c' => call_ok m' ts g c' | Ret b => ret_ok m' ts g c b end.
Proof.
  intros Hw Hcn Hok E. pose proof (gate_step_gates _ _ _ _ _ _ Hw E) as Hg.
  destruct c.
  - (* SealLock *) apply lock_inv in E as (_ & -> & ->). simpl. lia.
  - (* SealAt *) case_decide as Hi; destruct Hg as [-> Hg].
    + simpl in *. intros j Hj. rewrite (gate_set_sealed _ _ _ _ _ _ j Hg).
      case_decide; [done|]. apply Hok. lia.
    + split; [done|]. apply (sealed_below_all _ _ i); [rewrite (gate_same_length _ _ _ Hg); lia|].
      intros j Hj. rewrite (gate_same_sealed _ _ _ _ Hg). by apply Hok.
  - (* IdleSealLoad *) simpl in Hok. destruct Hok as (Hs & Ho & Hk). cbn [gate_step] in E.
    unfold go in E. lookup_stripe g i as x Hx Hi; simplify_eq; [done|].
    split; [done|]. apply (sealed_below_all _ _ i); [lia|]. intros. by apply Hs.
  - (* IdleSealCas *) destruct Hok as (Hs & Ho & Hk). destruct Hg as [(-> & Hg & Hz)|[-> Hg]].
    + apply (count_zero_unheld m ts) in Hz; [|done..].
      pose proof (fun j => gate_set_sealed _ _ _ _ _ _ j Hg) as Es. destruct Hg as (_ & El & _).
      simpl. split_and!; [|unfold open_on|rewrite El; lia].
      * intros j Hj. rewrite Es. case_decide as Hji; [by subst|]. apply Hs. lia.
      * intros j Hj Hl. rewrite El in Hl. rewrite Es, decide_False by lia. apply Ho; lia.
    + apply (call_ok_same m m'); [done|]. simpl. split_and!; [|..|lia|lia].
      * intros j [_ Hj]. by apply Hs.
      * intros j [?|Hj] Hl; [lia|]. by apply Ho.
  - (* UndoAt *) destruct Hok as (Hs & Ho & Hk & Hr). case_decide as Hri.
    + destruct Hg as (-> & Hg & _).
      pose proof (fun j => gate_set_sealed _ _ _ _ _ _ j Hg) as Es. destruct Hg as (_ & El & _).
      simpl. split_and!; [|unfold open_on|rewrite El; lia|lia].
      * intros j Hj. rewrite Es, decide_False by lia. apply Hs. lia.
      * intros j Hj Hl. rewrite El in Hl. rewrite Es. case_decide; [done|]. apply Ho; lia.
    + destruct Hg as [-> Hg]. split; [done|]. intros j _ Hl.
      rewrite (gate_same_length _ _ _ Hg) in Hl. rewrite (gate_same_sealed _ _ _ _ Hg).
      apply Ho; lia.
  - (* WaitLock *) apply lock_inv in E as (_ & -> & ->). split; [done|]. intros; lia.
  - (* WaitAt *) destruct Hok as [Hs Hu]. destruct Hg as [Hg Hr].
    destruct (observe_ok m ts g i idle m' Hcn Hs Hu Hg) as [Hs' Hu'].
    case_decide; subst r; [by split; auto|]. destruct idle; [|done]. split_and!; auto.
  - (* WaitParked *) cbn [gate_step] in E. unfold go in E. by simplify_eq.
  - (* DrainedSealed *) cbn [gate_step] in E. unfold go in E.
    lookup_stripe g i as x Hx Hi; simplify_eq.
    + destruct (is_sealed pw x) eqn:Esx; [|done]. simpl in *. intros j Hj.
      destruct (decide (j = i)) as [->|]; [|apply Hok; lia].
      by rewrite (sealed_of_lookup _ _ _ _ _ Hx).
    + apply (sealed_below_all _ _ i); [lia|done].
  - (* DrainedLock *) apply try_lock_inv in E as [(_ & -> & ->)|(_ & -> & ->)]; [|done].
    split; [done|]. intros; lia.
  - (* DrainedAt *) destruct Hok as [Hs Hu]. destruct Hg as [Hg Hr].
    destruct (observe_ok m ts g i idle m' Hcn Hs Hu Hg) as [Hs' Hu'].
    case_decide; subst r; split; auto.
  - (* ReopenLock *) by apply lock_inv in E as (_ & -> & ->).
  - (* ReopenCheck *) cbn [gate_step] in E. unfold go, unlock in E.
    lookup_stripe g i as x Hx Hi; simplify_eq.
    + destruct (Hok i) as [Hs Hn%nobody_unheld]. rewrite (sealed_of_lookup _ _ _ _ _ Hx) in Hs.
      apply (count_zero_unheld m ts) in Hn; [|done..].
      rewrite (count_of_lookup _ _ _ _ _ Hx) in Hn.
      rewrite Hs, active_cnt, Hn in E by (by eapply Hw). by simplify_eq/=.
    + split; [by intros; apply Hok|]. intros j Hj. lia.
  - (* ReopenAt *) destruct Hok as [Hq Ho]. destruct Hg as [(-> & Hg & _)|[(Hi & Hn & _)|(-> & Hl & Hg)]].
    + pose proof (fun j => gate_set_sealed _ _ _ _ _ _ j Hg) as Es. destruct Hg as (_ & El & _).
      simpl. split.
      * intros j Hj. unfold quiet. rewrite Es, decide_False by lia. apply Hq. lia.
      * intros j Hj Hlj. rewrite El in Hlj. rewrite Es. case_decide; [done|]. apply Ho; [lia|done].
    + destruct Hn. destruct (Hq i) as [Hs Hu%nobody_unheld]; [lia|].
      split; [done|]. by apply (count_zero_unheld m ts).
    + split; [done|]. intros j _ Hj. rewrite (gate_same_length _ _ _ Hg) in Hj.
      rewrite (gate_same_sealed _ _ _ _ Hg). apply Ho; lia.
Qed.

End GateCalls.

(** ** What any step may do *)
Section Moves.
Context (pw : pointer_width).
Implicit Types m : shared.

(** The part of a step every invariant needs, whatever the program counter:
    counts follow the permits, permits come from open stripes, and mutexes
    move only through their owner. *)
Record moved (t : nat) (p : pc) m (p' : pc) m' : Prop := Moved {
  mv_wf : wf_mem pw m';
  mv_len : forall g, length (gates m' g) = length (gates m g);
  mv_count : forall g i, i < length (gates m g) ->
    (count_of pw m' g i
     = count_of pw m g i + Z.of_nat (holds (g, i) p') - Z.of_nat (holds (g, i) p))%Z;
  mv_stripe : forall g i, at_stripe p' = Some (g, i) ->
    at_stripe p = Some (g, i) \/ sealed_of pw m g i = false;
  mv_permit : forall g i a, permit p' = Some (g, i, a) ->
    permit p = Some (g, i, a) \/ (sealed_of pw m g i = false /\ a = clock m);
  mv_lock : forall l, lock_move t (owns p l) (owns p' l) (locks m l) (locks m' l);
  mv_clock : clock m' = clock m;
}.

Lemma flip_ne g : flip g <> g.
Proof. by destruct g. Qed.

Lemma holds_none x p : permit p = None -> holds x p = 0.
Proof. intros H. unfold holds, counted. rewrite H. by rewrite decide_False. Qed.

Lemma holds_some x p a : permit p = Some (x, a) -> holds x p = 1.
Proof. intros H. unfold holds, counted. rewrite H. by rewrite decide_True. Qed.

Lemma holds_permit x p p' : permit p = permit p' -> holds x p = holds x p'.
Proof. unfold holds, counted. by intros ->. Qed.

(** A step that leaves the counts alone and admits nobody. *)
Lemma moved_kept t p m p' m' :
  gates_kept pw m m' -> permit p' = permit p -> (at_stripe p' = None \/ at_stripe p' = at_stripe p) ->
  (forall l, lock_move t (owns p l) (owns p' l) (locks m l) (locks m' l)) ->
  clock m' = clock m -> moved t p m p' m'.
Proof.
  intros (Hw & Hl & Hc) Hp Hs Hm Hk. split; try done.
  - intros g i _. rewrite Hc, (holds_permit _ p' p) by done. lia.
  - intros g i E. destruct Hs; [congruence|left; congruence].
  - intros g i a E. left; congruence.
Qed.

(** A step that also leaves the gates as they are. *)
Lemma moved_gates t p m p' m' :
  wf_mem pw m -> gates m' = gates m -> permit p' = permit p ->
  (at_stripe p' = None \/ at_stripe p' = at_stripe p) ->
  (forall l, lock_move t (owns p l) (owns p' l) (locks m l) (locks m' l)) ->
  clock m' = clock m -> moved t p m p' m'.
Proof. intros Hw Hg. intros. apply moved_kept; auto. by apply gate_same_kept, gate_same_refl. Qed.

(** A step that changes one stripe and this thread's hold on it. *)
Lemma moved_set t p m p' m' g i sealed d :
  gate_set pw m m' g i sealed (count_of pw m g i + d) ->
  (d = Z.of_nat (holds (g, i) p') - Z.of_nat (holds (g, i) p))%Z ->
  (forall x, x <> (g, i) -> holds x p' = holds x p) ->
  (forall g i, at_stripe p' = Some (g, i) ->
    at_stripe p = Some (g, i) \/ sealed_of pw m g i = false) ->
  (forall g i a, permit p' = Some (g, i, a) ->
    permit p = Some (g, i, a) \/ (sealed_of pw m g i = false /\ a = clock m)) ->
  (forall l, lock_move t (owns p l) (owns p' l) (locks m l) (locks m' l)) ->
  clock m' = clock m -> moved t p m p' m'.
Proof.
  intros (Hw & Hl & _ & Hn & Ho) Hd Hx Hs Hp Hm Hk. split; try done. intros g' j _.
  destruct (decide ((g', j) = (g, i))) as [[= -> ->]|Hne]; [lia|].
  rewrite (Hx _ Hne). destruct (Ho _ _ Hne) as [_ ->]. lia.
Qed.

Lemma call_inv t g c m inside after p' m' :
  call pw t g c m inside after = Done (Some (p', m')) ->
  exists r, gate_step pw t g c m = Done (Some (r, m'))
    /\ match r with More c' => p' = inside c' | Ret b => after b = Done p' end.
Proof.
  unfold call. destruct (gate_step pw t g c m) as [[[[c'|b] m1]|]| |]; simpl; intros E; simplify_eq.
  - exists (More c'). by injection E as <- <-.
  - destruct (after b) eqn:Ea; simplify_eq/=. exists (Ret b). by injection E as <- <-.
Qed.

Lemma gate_step_kept t g c m r m' :
  wf_mem pw m -> gate_step pw t g c m = Done (Some (r, m')) ->
  gates_kept pw m m'.
Proof.
  intros Hw E. pose proof (gate_step_gates _ _ _ _ _ _ _ Hw E) as Hg.
  destruct c; try (by apply gate_same_kept).
  - case_decide; destruct Hg as [_ Hg]; [by eapply gate_set_kept|by apply gate_same_kept].
  - destruct Hg as [(_ & Hg & Hz)|[_ Hg]]; [by eapply gate_set_kept|by apply gate_same_kept].
  - case_decide; [destruct Hg as (_ & Hg & Hz); by eapply gate_set_kept|].
    destruct Hg as [_ Hg]. by apply gate_same_kept.
  - destruct Hg as [Hg _]. by apply gate_same_kept.
  - destruct Hg as [Hg _]. by apply gate_same_kept.
  - destruct Hg as [(_ & Hg & Hz)|[(_ & _ & Hg)|(_ & _ & Hg)]];
      [by eapply gate_set_kept|by apply gate_same_kept..].
Qed.

(** A step inside a gate operation. *)
Lemma moved_call t g c m inside after p p' m' :
  wf_mem pw m -> gate_of p = Some (g, c) ->
  (forall c', gate_of (inside c') = Some (g, c') /\ owns_transition (inside c') = true
     /\ forall g', owns_queue (inside c') g' = owns_queue p g') ->
  (forall b p', after b = Done p' -> owns_idle p' = None /\ owns_transition p' = true
     /\ permit p' = None /\ at_stripe p' = None
     /\ forall g', owns_queue p' g' = owns_queue p g') ->
  owns_transition p = true ->
  call pw t g c m inside after = Done (Some (p', m')) -> moved t p m p' m'.
Proof.
  intros Hw Hp Hin Haf Ht (r & E & Hr)%call_inv.
  destruct (gate_step_frame _ _ _ _ _ _ _ E) as ((_ & _ & _ & _ & Hk) & Hol & Hil).
  assert (Hnone : forall q g c, gate_of q = Some (g, c) ->
            permit q = None /\ at_stripe q = None
            /\ owns_idle q = if call_locked c then Some g else None).
  { intros q ? ? Hq. destruct q; try discriminate Hq; (split_and!; [done..|]);
      unfold owns_idle; by rewrite Hq. }
  destruct (Hnone _ _ _ Hp) as (Hpp & Hps & Hpi).
  assert (H' : permit p' = None /\ at_stripe p' = None /\ owns_transition p' = true
            /\ owns_idle p' = (if more_locked r then Some g else None)
            /\ forall g', owns_queue p' g' = owns_queue p g').
  { destruct r as [c'|b].
    - subst p'. destruct (Hin c') as (Hg & ? & ?). destruct (Hnone _ _ _ Hg) as (? & ? & ?). done.
    - destruct (Haf _ _ Hr) as (? & ? & ? & ? & ?). done. }
  destruct H' as (? & ? & Ht' & Hi' & Hq'). apply moved_kept; [by eapply gate_step_kept|congruence|by left| |done].
  intros l. destruct (decide (l = LIdle g)) as [->|Hl].
  - simpl. rewrite Hi', Hpi.
    assert (Hb : forall b : bool, bool_decide ((if b then Some g else None) = Some g) = b)
      by (by intros [|]; [apply bool_decide_true|apply bool_decide_false]).
    by rewrite !Hb.
  - left. split; [by apply Hol|]. destruct l as [|g'|g']; simpl; [congruence| |by apply Hq'].
    rewrite Hi', Hpi. assert (g' <> g) by congruence.
    destruct (call_locked c), (more_locked r); rewrite !bool_decide_false by congruence; done.
Qed.

Lemma lock_taken t p p' m l :
  locks m l = None -> owns p' l = true -> (forall l', l' <> l -> owns p' l' = owns p l') ->
  forall l', lock_move t (owns p l') (owns p' l') (locks m l') (locks (set_lock l (Some t) m) l').
Proof.
  intros Hl Ho Hr l'. unfold lock_move. destruct (decide (l' = l)) as [->|Hne].
  - rewrite set_lock_eq. auto.
  - rewrite set_lock_same by done. left. auto.
Qed.

Lemma lock_dropped t p p' m l :
  owns p l = true -> owns p' l = false -> (forall l', l' <> l -> owns p' l' = owns p l') ->
  forall l', lock_move t (owns p l') (owns p' l') (locks m l') (locks (set_lock l None m) l').
Proof.
  intros Ho Ho' Hr l'. unfold lock_move. destruct (decide (l' = l)) as [->|Hne].
  - rewrite set_lock_eq. auto.
  - rewrite set_lock_same by done. left. auto.
Qed.

Ltac solve_owns :=
  intros; repeat match goal with l : mutex |- _ => destruct l end; simpl;
  repeat case_bool_decide; simplify_eq; try done; try congruence;
  repeat match goal with g : GenerationIndex |- _ => destruct g end; done.

(** Moves that take, drop or leave the mutexes without touching the gates. *)
Lemma moved_take t p p' m l :
  wf_mem pw m -> locks m l = None -> owns p' l = true ->
  (forall l', l' <> l -> owns p' l' = owns p l') ->
  permit p' = permit p -> (at_stripe p' = None \/ at_stripe p' = at_stripe p) ->
  moved t p m p' (set_lock l (Some t) m).
Proof. intros. apply moved_gates; auto. by apply lock_taken. Qed.

Lemma moved_drop t p p' m l :
  wf_mem pw m -> owns p l = true -> owns p' l = false ->
  (forall l', l' <> l -> owns p' l' = owns p l') ->
  permit p' = permit p -> (at_stripe p' = None \/ at_stripe p' = at_stripe p) ->
  moved t p m p' (set_lock l None m).
Proof. intros. apply moved_gates; auto. by apply lock_dropped. Qed.

Lemma moved_keep t p p' m m' :
  wf_mem pw m -> gates m' = gates m -> locks m' = locks m -> clock m' = clock m ->
  (forall l, owns p' l = owns p l) ->
  permit p' = permit p -> (at_stripe p' = None \/ at_stripe p' = at_stripe p) ->
  moved t p m p' m'.
Proof. intros ? ? Hl. intros. apply moved_gates; auto. intros l. rewrite Hl. left. auto. Qed.

Lemma reader_step_moved t p m p' m' :
  wf_mem pw m -> reader_step pw t p m = Done (Some (p', m')) -> moved t p m p' m'.
Proof.
  intros Hw E. destruct p; simpl in E; unfold go in E; try discriminate E.
  - destruct (closed m); simplify_eq; apply moved_keep; auto; solve_owns.
  - simplify_eq; apply moved_keep; auto; solve_owns.
  - destruct (gates m g !! stripe) as [x|] eqn:Hx; [|done].
    destruct (try_acquire pw x) as [[r x']| |] eqn:Ea; simplify_eq/=.
    pose proof (try_acquire_becomes _ _ _ _ (Hw _ _ _ Hx) Ea) as Hb.
    destruct r; destruct Hb as [Hs Hb].
    + pose proof (sealed_of_lookup pw _ _ _ _ Hx) as Es. rewrite Hs in Es.
      apply (moved_set t _ m _ _ g stripe false 1); try done.
      * rewrite (count_of_lookup _ _ _ _ _ Hx). by eapply set_gate_set.
      * rewrite (holds_some _ _ (clock m)), holds_none by done. done.
      * intros y Hy. rewrite (holds_none _ (EnterAcquire _ _)) by done. unfold holds.
        rewrite decide_False; [done|]. unfold counted; simpl. congruence.
      * intros ? ? [= <- <-]. auto.
      * intros ? ? ? [= <- <- <-]. auto.
      * left. split; [done|]. solve_owns.
    + subst. apply moved_kept; auto; [|left; split; [done|solve_owns]].
      eapply gate_same_kept, set_gate_same; eauto. by eapply becomes_id, Hw.
  - destruct (closed m); simplify_eq; apply moved_keep; auto; solve_owns.
  - destruct (gates m g !! stripe) as [x|] eqn:Hx; [|done].
    destruct (try_release_without_notification pw x) as [[r x']| |] eqn:Ea; simplify_eq/=.
    pose proof (fast_release_becomes _ _ _ _ (Hw _ _ _ Hx) Ea) as Hb. destruct r.
    + apply (moved_set t _ m _ _ g stripe (is_sealed pw x) (-1)); try done.
      * rewrite (count_of_lookup _ _ _ _ _ Hx). by eapply set_gate_set.
      * by rewrite (holds_some (g, stripe) (Reading _ _ _) admitted), holds_none.
      * intros y Hy. rewrite (holds_none _ Idle) by done. unfold holds.
        rewrite decide_False; [done|]. unfold counted; simpl. congruence.
      * left. split; [done|]. solve_owns.
    + subst. apply moved_kept; auto; [|left; split; [done|solve_owns]].
      eapply gate_same_kept, set_gate_same; eauto. by eapply becomes_id, Hw.
  - apply lock_inv in E as (Hl & -> & ->). apply moved_take; auto; solve_owns.
  - destruct (gates m g !! stripe) as [x|] eqn:Hx; [|done].
    destruct (release pw x) as [[r x']| |] eqn:Ea; simplify_eq/=.
    pose proof (release_becomes _ _ _ _ (Hw _ _ _ Hx) Ea) as Hb.
    apply (moved_set t _ m _ _ g stripe (is_sealed pw x) (-1)); try done.
    + rewrite (count_of_lookup _ _ _ _ _ Hx). by eapply set_gate_set.
    + by rewrite (holds_some (g, stripe) (RelLocked _ _ _) admitted), holds_none.
    + intros y Hy. rewrite (holds_none _ (RelTail _ _ _)) by done. unfold holds.
      rewrite decide_False; [done|]. unfold counted; simpl. congruence.
    + intros ? ? [= <- <-]. auto.
    + left. split; [done|]. solve_owns.
  - unfold unlock in E. simplify_eq. apply moved_drop; auto; solve_owns.
Qed.

Lemma register_step_moved t p m p' m' :
  wf_mem pw m -> register_step t p m = Done (Some (p', m')) -> moved t p m p' m'.
Proof.
  intros Hw E. destruct p; simpl in E; unfold go, unlock in E; try discriminate E.
  - simplify_eq. apply moved_keep; auto; solve_owns.
  - apply lock_inv in E as (Hl & -> & ->). apply moved_take; auto; solve_owns.
  - case_bool_decide; simplify_eq; [apply moved_keep; auto; solve_owns|].
    apply moved_drop; auto; solve_owns.
  - simplify_eq. apply moved_keep; auto; solve_owns.
  - simplify_eq. apply moved_drop; auto; solve_owns.
Qed.

Lemma rotate_step_moved t r ph m p' m' :
  wf_mem pw m -> rotate_step pw t r ph m = Done (Some (p', m')) ->
  moved t (Rotate r ph) m p' m'.
Proof.
  intros Hw E. destruct r as [md o bs again].
  destruct ph; simpl in E; unfold go, unlock in E.
  - assert (Hc : (locks m (LQueue o) = None
              /\ p' = Rotate (Rotation md o bs again) (Replacement (DrainedSealed 0))
              /\ m' = set_lock (LQueue o) (Some t) m) \/ (p' = TransitionUnlock Busy /\ m' = m)).
    { destruct md; [apply lock_inv in E|apply try_lock_inv in E..]; destruct_and?; destruct_or?; destruct_and?; auto. }
    destruct Hc as [(Hl & -> & ->)|[-> ->]]; [apply moved_take|apply moved_keep]; auto; solve_owns.
  - eapply moved_call; [exact Hw| | | | |exact E]; [done|done| |done]. intros [] q; intros; simplify_eq. by destruct md.
  - eapply moved_call; [exact Hw| | | | |exact E]; [done|done| |done]. by intros [] q; intros; simplify_eq.
  - simplify_eq. apply moved_drop; auto; solve_owns.
  - simplify_eq. apply moved_keep; auto; solve_owns.
  - eapply moved_call; [exact Hw| | | | |exact E]; [done|done| |done]. by intros [] q; intros; simplify_eq.
  - simplify_eq. apply moved_drop; auto; try (destruct md; solve_owns).
  - eapply moved_call; [exact Hw| | | | |exact E]; [done|done| |done].
    intros b q [= <-]. by destruct (sealing c), b.
  - apply lock_inv in E as (Hl & -> & ->). apply moved_take; auto; solve_owns.
  - simplify_eq. apply moved_keep; auto; solve_owns.
  - simplify_eq. apply moved_drop; auto; solve_owns.
  - simplify_eq. destruct again; apply moved_keep; auto; solve_owns.
Qed.

Lemma transition_step_moved t p m p' m' :
  wf_mem pw m -> transition_step pw t p m = Done (Some (p', m')) -> moved t p m p' m'.
Proof.
  intros Hw E. destruct p; simpl in E; unfold go, unlock in E; try discriminate E.
  - assert (Hc : (locks m LTransition = None
              /\ (p' = MarkClosed \/ exists md, p' = TransitionClosed md)
              /\ m' = set_lock LTransition (Some t) m) \/ (p' = Returned Busy /\ m' = m)).
    { destruct k as [[]|]; [apply lock_inv in E|apply try_lock_inv in E..|apply lock_inv in E];
        destruct_or?; destruct_and?; eauto 8. }
    destruct Hc as [(Hl & Hq & ->)|[-> ->]]; [|apply moved_keep; auto; solve_owns].
    destruct Hq as [->|[md ->]]; apply moved_take; auto; solve_owns.
  - destruct (closed m); simplify_eq; apply moved_keep; auto; solve_owns.
  - destruct (pending m) as [o|]; simplify_eq; apply moved_keep; auto; destruct md; solve_owns.
  - simplify_eq. apply moved_keep; auto; solve_owns.
  - eapply moved_call; [exact Hw| | | | |exact E]; [done|done| |done].
    intros b q [= <-]. by destruct (sealing c), g.
  - simplify_eq. apply moved_drop; auto; solve_owns.
  - apply lock_inv in E as (Hl & -> & ->). apply moved_take; auto; solve_owns.
  - apply lock_inv in E as (Hl & -> & ->). apply moved_take; auto; solve_owns.
  - simplify_eq. apply moved_keep; auto; solve_owns.
  - simplify_eq. apply moved_drop; auto; solve_owns.
  - simplify_eq. apply moved_keep; auto; solve_owns.
  - simplify_eq. apply moved_drop; auto; solve_owns.
Qed.

Lemma thread_step_moved t a p m p' m' :
  wf_mem pw m -> thread_step pw t a p m = Done (Some (p', m')) -> moved t p m p' m'.
Proof.
  intros Hw E. destruct a, p; try discriminate E;
    first [ by apply reader_step_moved | by apply register_step_moved
          | by apply rotate_step_moved | by apply transition_step_moved | idtac ];
    simpl in E; unfold go in E; repeat case_match; simplify_eq; apply moved_keep; auto; solve_owns.
Qed.

End Moves.

End RotatingGates.
