(* ===== verification/RotatingInvariant.v ===== *)
(** * The invariant of the rotating domain

    The invariant over all reachable configurations and its preservation by
    every step, the absence of fail-stops, the permanence of the closure and
    the custody of retired records. *)

From stdpp Require Import functions.
From S2P Require Import Prelude SealableCounter RotatingDomain RotatingGates.
Import SealableCounter.Counter Rotating RotatingGates.

Module RotatingInvariant.

(** ** Invariant *)

Inductive family : Type := FSeal | FIdleSeal | FWait | FDrained | FReopen.

Definition family_of (c : gate_call) : family :=
  match c with
  | SealLock | SealAt _ => FSeal
  | IdleSealLoad _ | IdleSealCas _ _ | UndoAt _ _ => FIdleSeal
  | WaitLock | WaitAt _ _ | WaitParked => FWait
  | DrainedSealed _ | DrainedLock | DrainedAt _ _ => FDrained
  | ReopenLock | ReopenCheck _ | ReopenAt _ => FReopen
  end.

Lemma gate_step_family pw t g c m c' m' :
  gate_step pw t g c m = Done (Some (More c', m')) -> family_of c' = family_of c.
Proof.
  intros E. destruct c; cbn [gate_step] in E; unfold go, unlock, lock, try_lock, obind in E;
    split_step E; repeat case_match; simplify_eq; done.
Qed.

Section Invariant.
Context (pw : pointer_width).
Implicit Types m : shared.

Abbreviation quiet_all := (RotatingGates.quiet_all pw).
Abbreviation sealed_all := (RotatingGates.sealed_all pw).
Abbreviation open_all := (RotatingGates.open_all pw).
Abbreviation call_ok := (RotatingGates.call_ok pw).

(** The rotation of [r] is not yet, or already, published. *)
Definition unpublished m (r : rotation) : Prop :=
  closed m = false /\ pending m = None /\ current m = old r.
Definition published m (r : rotation) : Prop :=
  closed m = false /\ pending m = Some (old r) /\ current m = flip (old r).

Definition phase_ok m ts (r : rotation) (ph : phase) : Prop :=
  match ph with
  | Barrier | FailedBarrier => unpublished m r /\ open_all m (old r)
  | Replacement c =>
      unpublished m r /\ open_all m (old r) /\ family_of c = FDrained
      /\ match c with DrainedAt _ idle => idle = true | _ => True end
  | SealOld c =>
      unpublished m r /\ (family_of c = FSeal \/ family_of c = FIdleSeal)
      /\ call_ok m ts (old r) c
  | Publish => unpublished m r /\ sealed_all m (old r)
  | Reopen c => published m r /\ family_of c = FReopen /\ call_ok m ts (flip (old r)) c
  | ReleaseBarrier => published m r /\ open_all m (flip (old r))
  | Wait c =>
      published m r /\ open_all m (flip (old r))
      /\ (family_of c = FSeal \/ family_of c = FWait \/ family_of c = FDrained)
      /\ call_ok m ts (old r) c
  | LockQueue | Take =>
      published m r /\ open_all m (flip (old r)) /\ quiet_all m ts (old r)
  | UnlockQueue _ | Clear _ =>
      published m r /\ open_all m (flip (old r)) /\ quiet_all m ts (old r)
      /\ queues m (old r) = []
  end.

Definition closure_ok m ts : Prop :=
  closed m = true /\ quiet_all m ts Gen0 /\ quiet_all m ts Gen1.

(** What a thread's position says of the shared state. *)
Definition thread_ok m ts (p : pc) : Prop :=
  (saw_closure p = true -> closure_ok m ts) /\
  match p with
  | RegAppend _ g => current m = g
  | TransitionClosed _ => closed m = false -> open_all m (current m)
  | Classify _ => closed m = false /\ open_all m (current m)
  | Rotate r ph => phase_ok m ts r ph
  | Close g c =>
      closed m = true /\ (family_of c = FSeal \/ family_of c = FWait) /\ call_ok m ts g c
      /\ (g = Gen1 -> quiet_all m ts Gen0)
  | TransitionUnlock o => closed m = false -> open_all m (current m)
  | _ => True
  end.

Definition older (x : record) (ts : list pc) : Prop :=
  forall t p g i a, ts !! t = Some p -> permit p = Some (g, i, a) -> x.2 < a.

Record inv (s : config) : Prop := Inv {
  inv_wf : wf_mem pw (mem s);
  inv_counts : counts_ok pw (mem s) (threads s);
  inv_lock : forall t p l, threads s !! t = Some p ->
    (owns p l = true <-> locks (mem s) l = Some t);
  inv_owner : forall l t, locks (mem s) l = Some t -> t < length (threads s);
  inv_thread : forall t p, threads s !! t = Some p -> thread_ok (mem s) (threads s) p;
  inv_sealed : sealed_all (mem s) (flip (current (mem s)));
  inv_none : pending (mem s) = None ->
    quiet_all (mem s) (threads s) (flip (current (mem s)))
    /\ queues (mem s) (flip (current (mem s))) = [];
  inv_some : forall g, pending (mem s) = Some g -> g = flip (current (mem s));
  inv_open : locks (mem s) LTransition = None -> closed (mem s) = false ->
    open_all (mem s) (current (mem s));
  inv_grace : forall x t p i a, x ∈ queues (mem s) (flip (current (mem s))) ->
    threads s !! t = Some p -> permit p = Some (current (mem s), i, a) -> x.2 < a;
  inv_times : forall g x, x ∈ queues (mem s) g -> x.2 < clock (mem s);
  inv_detached : forall t p x, threads s !! t = Some p -> x ∈ carried p ->
    x.2 < clock (mem s) /\ older x (threads s);
}.

Lemma domain_inv_initial stripes n : inv (initial pw stripes n).
Proof.
  assert (Hr : forall t p, threads (initial pw stripes n) !! t = Some p -> p = Idle).
  { intros t p [Hp _]%lookup_replicate. done. }
  assert (Hg : forall g i c, gates (new pw stripes) g !! i = Some c ->
            c = match g with Gen0 => of_view pw (Spec.View false false 0)
                | Gen1 => of_view pw (Spec.View true false 0) end).
  { intros [] i c; simpl; intros [-> _]%lookup_replicate; [done|apply new_sealed_view]. }
  assert (Hs : forall i, sealed_of pw (new pw stripes) Gen1 i = true).
  { intros i. unfold sealed_of. destruct (gates _ _ !! i) as [c|] eqn:E; [|done].
    rewrite (Hg _ _ _ E). by apply is_sealed_view, idle_valid. }
  split; simpl; try done.
  - intros g i c ->%Hg. destruct g; apply of_view_wf, idle_valid.
  - split.
    + intros g i Hi. destruct (lookup_lt_is_Some_2 _ _ Hi) as [c E].
      rewrite (count_of_lookup _ _ _ _ _ E), (Hg _ _ _ E).
      replace (holders (replicate n Idle) (g, i)) with 0.
      * destruct g; by rewrite cnt_view by apply idle_valid.
      * symmetry. apply unheld_holders. by intros t p ->%Hr.
    + by intros t p g i ->%Hr.
  - intros t p l ->%Hr. split; [|done]. destruct l as [|[]|[]]; done.
  - by intros t p ->%Hr.
  - intros _. split; [|done]. intros i. split; [apply Hs|]. by intros t p ->%Hr.
  - intros _ _ i _ Hi. destruct (lookup_lt_is_Some_2 _ _ Hi) as [c E].
    rewrite (sealed_of_lookup _ _ _ _ _ E), (Hg _ _ _ E). by apply is_sealed_view, idle_valid.
  - intros x t p i a Hx. by apply elem_of_nil in Hx.
  - intros g x Hx. by apply elem_of_nil in Hx.
  - intros t p x ->%Hr Hx. by apply elem_of_nil in Hx.
Qed.

(** ** Preservation *)

Lemma nobody_insert ts t p p' g i :
  ts !! t = Some p -> nobody ts g i -> at_stripe p' <> Some (g, i) ->
  nobody (<[t := p']> ts) g i.
Proof.
  intros Ht Hn Hp j q Hj. destruct (decide (j = t)) as [->|Hne].
  - rewrite list_lookup_insert_eq in Hj by (by eapply lookup_lt_Some). by simplify_eq.
  - rewrite list_lookup_insert_ne in Hj by done. by eapply Hn.
Qed.

Lemma unheld_insert ts t p p' g i :
  ts !! t = Some p -> unheld ts g i -> counted p' <> Some (g, i) ->
  unheld (<[t := p']> ts) g i.
Proof.
  intros Ht Hn Hp j q Hj. destruct (decide (j = t)) as [->|Hne].
  - rewrite list_lookup_insert_eq in Hj by (by eapply lookup_lt_Some). by simplify_eq.
  - rewrite list_lookup_insert_ne in Hj by done. by eapply Hn.
Qed.

(** A sealed stripe gains no visitor in any step. *)
Lemma moved_nobody t p m p' m' ts g i :
  moved pw t p m p' m' -> ts !! t = Some p -> sealed_of pw m g i = true ->
  nobody ts g i -> nobody (<[t := p']> ts) g i.
Proof.
  intros M Ht Hs Hn. eapply nobody_insert; [done..|]. intros E.
  destruct (mv_stripe _ _ _ _ _ _ M _ _ E); [by eapply Hn|congruence].
Qed.

Lemma moved_unheld t p m p' m' ts g i :
  moved pw t p m p' m' -> ts !! t = Some p -> sealed_of pw m g i = true ->
  unheld ts g i -> unheld (<[t := p']> ts) g i.
Proof.
  intros M Ht Hs Hn. eapply unheld_insert; [done..|]. intros E.
  unfold counted in E. destruct (permit p') as [[[g' i'] a]|] eqn:Ep; simplify_eq/=.
  destruct (mv_permit _ _ _ _ _ _ M _ _ _ Ep) as [Hp|[? _]]; [|congruence].
  eapply Hn; [exact Ht|]. unfold counted. by rewrite Hp.
Qed.

Lemma moved_counts t p m p' m' ts :
  moved pw t p m p' m' -> ts !! t = Some p -> counts_ok pw m ts ->
  counts_ok pw m' (<[t := p']> ts).
Proof.
  intros M Ht [Hc Hr]. split.
  - intros g i Hi. rewrite (mv_len _ _ _ _ _ _ M) in Hi.
    rewrite (mv_count _ _ _ _ _ _ M _ _ Hi), (Hc _ _ Hi). unfold holders.
    pose proof (sum_list_with_insert (holds (g, i)) _ _ _ p' Ht). lia.
  - intros j q g i Hj E. rewrite (mv_len _ _ _ _ _ _ M). destruct (decide (j = t)) as [->|Hne].
    + rewrite list_lookup_insert_eq in Hj by (by eapply lookup_lt_Some). simplify_eq.
      destruct (mv_stripe _ _ _ _ _ _ M _ _ E) as [E'|Hs]; [by eapply Hr|].
      unfold sealed_of in Hs. destruct (gates m g !! i) eqn:Eg; [by eapply lookup_lt_Some|done].
    + rewrite list_lookup_insert_ne in Hj by done. by eapply Hr.
Qed.

Lemma moved_locks s t p p' m' :
  inv s -> threads s !! t = Some p -> moved pw t p (mem s) p' m' ->
  (forall j q l, <[t := p']> (threads s) !! j = Some q -> (owns q l = true <-> locks m' l = Some j))
  /\ (forall l j, locks m' l = Some j -> j < length (<[t := p']> (threads s))).
Proof.
  intros I Ht M. assert (Hlt : t < length (threads s)) by (by eapply lookup_lt_Some). split.
  - intros j q l Hj. pose proof (mv_lock _ _ _ _ _ _ M l) as Hl.
    pose proof (inv_lock _ I t p l Ht) as It. destruct (decide (j = t)) as [->|Hne].
    + rewrite list_lookup_insert_eq in Hj by done. simplify_eq.
      destruct Hl as [[-> ->]|[(_ & -> & ->)|(_ & -> & ->)]]; done.
    + rewrite list_lookup_insert_ne in Hj by done. pose proof (inv_lock _ I j q l Hj) as Ij.
      destruct Hl as [[-> _]|[(E & -> & _)|(E & -> & _)]]; [done| |].
      * rewrite Ij, E. split; congruence.
      * apply It in E. rewrite Ij, E. split; congruence.
  - intros l j Hj. rewrite length_insert.
    destruct (mv_lock _ _ _ _ _ _ M l) as [[El _]|[(_ & El & _)|(_ & El & _)]];
      rewrite El in Hj; simplify_eq; [|done]. by eapply (inv_owner _ I).
Qed.

Lemma mutex_exclusive s t t' p p' l :
  inv s -> threads s !! t = Some p -> threads s !! t' = Some p' ->
  owns p l = true -> owns p' l = true -> t = t'.
Proof.
  intros I Ht Ht' Ho Ho'. apply (inv_lock _ I _ _ _ Ht) in Ho.
  apply (inv_lock _ I _ _ _ Ht') in Ho'. congruence.
Qed.

(** Steps that leave the published state alone. *)
Record calm m ts m' ts' : Prop := Calm {
  cl_current : current m' = current m;
  cl_pending : pending m' = pending m;
  cl_closed : closed m' = closed m;
  cl_len : forall g, length (gates m' g) = length (gates m g);
  cl_sealed : forall g i, sealed_of pw m' g i = sealed_of pw m g i;
  cl_nobody : forall g i, sealed_of pw m g i = true -> nobody ts g i -> nobody ts' g i;
  cl_unheld : forall g i, sealed_of pw m g i = true -> unheld ts g i -> unheld ts' g i;
  cl_queue : queues m (flip (current m)) = [] -> queues m' (flip (current m)) = [];
}.

Lemma calm_sealed_all m ts m' ts' g : calm m ts m' ts' -> sealed_all m g -> sealed_all m' g.
Proof. intros C H i. rewrite (cl_sealed _ _ _ _ C). apply H. Qed.

Lemma calm_open_on m ts m' ts' g P : calm m ts m' ts' -> open_on pw m g P -> open_on pw m' g P.
Proof.
  intros C H i Hp Hi. rewrite (cl_sealed _ _ _ _ C). rewrite (cl_len _ _ _ _ C) in Hi. by apply H.
Qed.

Lemma calm_open_all m ts m' ts' g : calm m ts m' ts' -> open_all m g -> open_all m' g.
Proof. apply calm_open_on. Qed.

Lemma calm_quiet m ts m' ts' g i : calm m ts m' ts' -> quiet pw m ts g i -> quiet pw m' ts' g i.
Proof.
  intros C [Hs Hn]. split; [by rewrite (cl_sealed _ _ _ _ C)|by apply (cl_nobody _ _ _ _ C)].
Qed.

Lemma calm_call m ts m' ts' g c : calm m ts m' ts' -> call_ok m ts g c -> call_ok m' ts' g c.
Proof.
  intros C. pose proof (fun P => calm_open_on _ _ _ _ g P C) as Ho.
  pose proof (fun i => cl_sealed _ _ _ _ C g i) as Es. pose proof (fun i => cl_unheld _ _ _ _ C g i) as Eu.
  pose proof (fun i => calm_quiet _ _ _ _ g i C) as Eq. pose proof (cl_len _ _ _ _ C g) as El.
  destruct c; simpl; unfold RotatingGates.sealed_all, RotatingGates.quiet_all; rewrite ?El;
    try setoid_rewrite Es; intros H; destruct_and?; split_and?; eauto 6.
  - intros i' Hi. destruct (H0 i' Hi). auto.
  - intros i' Hi. destruct (H0 i' Hi). auto.
  - intros i' Hi. destruct (H0 i' Hi). auto.
Qed.

Lemma calm_phase m ts m' ts' r ph :
  calm m ts m' ts' -> phase_ok m ts r ph -> phase_ok m' ts' r ph.
Proof.
  intros C. pose proof (fun g => calm_open_all _ _ _ _ g C) as Ho.
  pose proof (fun g c => calm_call _ _ _ _ g c C) as Hc.
  pose proof (fun g => calm_sealed_all _ _ _ _ g C) as Hs.
  pose proof (fun g i => calm_quiet _ _ _ _ g i C) as Hq. pose proof (cl_queue _ _ _ _ C) as Hu.
  destruct ph; simpl; unfold unpublished, published;
    rewrite (cl_closed _ _ _ _ C), (cl_pending _ _ _ _ C), (cl_current _ _ _ _ C);
    intros H; destruct_and!; split_and!; auto; try (intros i; by auto);
    match goal with Hf : current m = flip (old r) |- _ => rewrite Hf in Hu end;
    destruct (old r); auto.
Qed.

Lemma calm_closure m ts m' ts' : calm m ts m' ts' -> closure_ok m ts -> closure_ok m' ts'.
Proof.
  intros C (? & H0 & H1). unfold closure_ok. rewrite (cl_closed _ _ _ _ C).
  split_and!; [done|..]; intros i; by apply (calm_quiet m ts).
Qed.

Lemma calm_thread m ts m' ts' p : calm m ts m' ts' -> thread_ok m ts p -> thread_ok m' ts' p.
Proof.
  intros C [Hcl Hp]. split; [by intros; eapply calm_closure; eauto|].
  pose proof (fun g => calm_open_all _ _ _ _ g C) as Ho.
  destruct p; simpl in *; rewrite ?(cl_current _ _ _ _ C), ?(cl_closed _ _ _ _ C);
    auto.
  - destruct Hp; auto.
  - by eapply calm_phase.
  - destruct Hp as (? & ? & ? & ?). split_and!; [done|done|by eapply calm_call|].
    intros Hg i. eapply calm_quiet; eauto. by apply H2.
Qed.

(** A step establishes the invariant when it satisfies these conditions. *)
Lemma domain_inv_update s t p p' m' :
  inv s -> threads s !! t = Some p -> moved pw t p (mem s) p' m' ->
  let ts' := <[t := p']> (threads s) in
  thread_ok m' ts' p' ->
  (forall j q, j <> t -> threads s !! j = Some q ->
     thread_ok (mem s) (threads s) q -> thread_ok m' ts' q) ->
  sealed_all m' (flip (current m')) ->
  (pending m' = None -> quiet_all m' ts' (flip (current m')) /\ queues m' (flip (current m')) = []) ->
  (forall g, pending m' = Some g -> g = flip (current m')) ->
  (locks m' LTransition = None -> closed m' = false -> open_all m' (current m')) ->
  (forall x j q i a, x ∈ queues m' (flip (current m')) ->
     ts' !! j = Some q -> permit q = Some (current m', i, a) -> x.2 < a) ->
  (forall g x, x ∈ queues m' g -> x ∈ queues (mem s) g \/ x.2 <= clock m') ->
  (forall x, x ∈ carried p' -> x ∈ carried p
     \/ (x.2 < clock (mem s) /\ older x (threads s))) ->
  inv (Config (tick m') ts').
Proof.
  intros I Ht M ts' Hp Hq Hs Hn Hso Ho Hg Hx Hd.
  assert (Hlt : t < length (threads s)) by (by eapply lookup_lt_Some).
  destruct (moved_locks _ _ _ _ _ I Ht M) as [Hl1 Hl2].
  pose proof (mv_clock _ _ _ _ _ _ M) as Hk.
  assert (Hold : forall x, x.2 < clock (mem s) -> older x (threads s) -> older x ts').
  { intros x Hc Hol j q g i a Hj Ep. unfold ts' in Hj. destruct (decide (j = t)) as [->|Hne].
    - rewrite list_lookup_insert_eq in Hj by done. simplify_eq.
      destruct (mv_permit _ _ _ _ _ _ M _ _ _ Ep) as [Ep'|[_ ->]]; [by eapply Hol|done].
    - rewrite list_lookup_insert_ne in Hj by done. by eapply Hol. }
  split; simpl; try done.
  - apply (mv_wf _ _ _ _ _ _ M).
  - exact (moved_counts _ _ _ _ _ _ M Ht (inv_counts _ I)).
  - intros j q Hj. destruct (decide (j = t)) as [->|Hne].
    + unfold ts' in Hj. rewrite list_lookup_insert_eq in Hj by done. by simplify_eq.
    + unfold ts' in Hj. rewrite list_lookup_insert_ne in Hj by done.
      eapply Hq; [done..|]. by eapply (inv_thread _ I).
  - intros g x [Hin|Hc]%Hx; [|lia]. apply (inv_times _ I) in Hin. lia.
  - intros j q x Hj Hin. unfold ts' in Hj. rewrite Hk.
    assert (x.2 < clock (mem s) /\ older x (threads s)) as [??]; [|split; [lia|auto]].
    destruct (decide (j = t)) as [->|Hne].
    + rewrite list_lookup_insert_eq in Hj by done. simplify_eq.
      apply Hd in Hin as [Hin|?]; [|done]. by eapply (inv_detached _ I).
    + rewrite list_lookup_insert_ne in Hj by done. by eapply (inv_detached _ I).
Qed.

(** A step that keeps the published state and may empty the retired queue or
    append to the current one. *)
Lemma inv_calm s t p p' m' :
  inv s -> threads s !! t = Some p -> moved pw t p (mem s) p' m' ->
  let ts' := <[t := p']> (threads s) in
  current m' = current (mem s) -> pending m' = pending (mem s) -> closed m' = closed (mem s) ->
  (forall g i, sealed_of pw m' g i = sealed_of pw (mem s) g i) ->
  (queues m' (flip (current (mem s))) = queues (mem s) (flip (current (mem s)))
   \/ queues m' (flip (current (mem s))) = []) ->
  (forall g x, x ∈ queues m' g -> x ∈ queues (mem s) g \/ x.2 <= clock m') ->
  (forall x, x ∈ carried p' -> x ∈ carried p \/ (x.2 < clock (mem s) /\ older x (threads s))) ->
  (owns_transition p = true -> owns_transition p' = false -> closed (mem s) = false ->
     open_all (mem s) (current (mem s))) ->
  (calm (mem s) (threads s) m' ts' -> thread_ok m' ts' p') ->
  inv (Config (tick m') ts').
Proof.
  intros I Ht M ts' Ec Ep Ecl Es Hq Hx Hd Hrel Hp.
  assert (C : calm (mem s) (threads s) m' ts').
  { split; try done.
    - apply (mv_len _ _ _ _ _ _ M).
    - intros g i. by eapply moved_nobody.
    - intros g i. by eapply moved_unheld.
    - intros Hn. destruct Hq; congruence. }
  apply (domain_inv_update s t p p' m' I Ht M); rewrite ?Ec, ?Ep, ?Ecl; try done.
  - auto.
  - intros j q _ _. by apply calm_thread.
  - eapply calm_sealed_all, (inv_sealed _ I); eauto.
  - intros [Hqu Hqe]%(inv_none _ I). split; [|by apply (cl_queue _ _ _ _ C)].
    intros i. by eapply calm_quiet.
  - apply (inv_some _ I).
  - intros Hl Hcl. eapply calm_open_all; [exact C|].
    destruct (mv_lock _ _ _ _ _ _ M LTransition) as [[El _]|[(_ & El & _)|(Ho & _ & Ho')]].
    + apply (inv_open _ I); congruence.
    + congruence.
    + auto.
  - intros x j q i a Hin Hj Epm. destruct Hq as [Hq|Hq]; rewrite Hq in Hin;
      [|by apply elem_of_nil in Hin].
    unfold ts' in Hj. destruct (decide (j = t)) as [->|Hne].
    + rewrite list_lookup_insert_eq in Hj by (by eapply lookup_lt_Some). simplify_eq.
      destruct (mv_permit _ _ _ _ _ _ M _ _ _ Epm) as [?|[_ ->]].
      * by eapply (inv_grace _ I).
      * by eapply (inv_times _ I).
    + rewrite list_lookup_insert_ne in Hj by done. by eapply (inv_grace _ I).
Qed.

(** A step of the transition's owner that moves the published state. *)
Lemma inv_active s t p p' m' :
  inv s -> threads s !! t = Some p -> moved pw t p (mem s) p' m' ->
  let ts' := <[t := p']> (threads s) in
  owns_transition p = true -> owns_transition p' = true -> permit p' = None ->
  queues m' = queues (mem s) ->
  (forall x, x ∈ carried p' -> x ∈ carried p) ->
  thread_ok m' ts' p' ->
  (forall j ps g, threads s !! j = Some (RegAppend ps g) -> current m' = g) ->
  (closure_ok (mem s) (threads s) -> closure_ok m' ts') ->
  sealed_all m' (flip (current m')) ->
  (pending m' = None ->
     quiet_all m' ts' (flip (current m')) /\ queues (mem s) (flip (current m')) = []) ->
  (forall g, pending m' = Some g -> g = flip (current m')) ->
  (forall x j q i a, x ∈ queues (mem s) (flip (current m')) ->
     threads s !! j = Some q -> permit q = Some (current m', i, a) -> x.2 < a) ->
  inv (Config (tick m') ts').
Proof.
  intros I Ht M ts' Ho Ho' Hpp Eq Hd Hp Hreg Hcl Hs Hn Hso Hg.
  assert (Hlt : t < length (threads s)) by (by eapply lookup_lt_Some).
  apply (domain_inv_update s t p p' m' I Ht M); rewrite ?Eq; try done.
  - intros j q Hne Hj [Hq1 Hq2]. split; [by auto|].
    assert (owns_transition q = false) as Hoq.
    { apply not_true_is_false. intros E. destruct Hne. by eapply (mutex_exclusive s _ _ _ _ LTransition). }
    destruct q; simpl in *; try done. by eapply Hreg.
  - intros Hl. assert (ts' !! t = Some p') as Ht' by (by apply list_lookup_insert_eq).
    pose proof (proj1 (moved_locks _ _ _ _ _ I Ht M) _ _ LTransition Ht') as Hl'. simpl in Hl'.
    rewrite Ho', Hl in Hl'. by destruct Hl' as [Hl' _]; specialize (Hl' eq_refl).
  - intros x j q i a Hin Hj Epm. unfold ts' in Hj. destruct (decide (j = t)) as [->|Hne].
    + rewrite list_lookup_insert_eq in Hj by done. by simplify_eq.
    + rewrite list_lookup_insert_ne in Hj by done. by eapply Hg.
  - auto.
  - auto.
Qed.

Lemma quiet_moved t p m p' m' ts g i :
  moved pw t p m p' m' -> ts !! t = Some p ->
  (sealed_of pw m g i = true -> sealed_of pw m' g i = true) ->
  quiet pw m ts g i -> quiet pw m' (<[t := p']> ts) g i.
Proof. intros M Ht Hs [Hsi Hn]. split; [auto|by eapply moved_nobody]. Qed.

(** A step inside a gate operation: seal bits of the current generation may
    move while the domain is open, others only get set. *)
Lemma inv_gate s t p p' m' :
  inv s -> threads s !! t = Some p -> moved pw t p (mem s) p' m' ->
  owns_transition p = true -> owns_transition p' = true -> permit p' = None ->
  rest_same (mem s) m' -> (forall x, x ∈ carried p' -> x ∈ carried p) ->
  (forall g i, sealed_of pw (mem s) g i = true ->
     sealed_of pw m' g i = true \/ (g = current (mem s) /\ closed (mem s) = false)) ->
  thread_ok m' (<[t := p']> (threads s)) p' ->
  inv (Config (tick m') (<[t := p']> (threads s))).
Proof.
  intros I Ht M Ho Ho' Hpp (Ec & Ep & Ecl & Eq & _) Hd Hs Hp.
  assert (Hf : forall i, sealed_of pw (mem s) (flip (current (mem s))) i = true ->
                sealed_of pw m' (flip (current (mem s))) i = true).
  { intros i H. destruct (Hs _ _ H) as [|[E _]]; [done|]. by apply flip_ne in E. }
  apply (inv_active s t p p' m' I Ht M); rewrite ?Ec, ?Ep; try done.
  - intros j ps g Hj. apply (inv_thread _ I _ _ Hj).
  - intros (Hcl & H0 & H1). unfold closure_ok. rewrite Ecl.
    split_and!; [done|..]; intros i; eapply quiet_moved; eauto; intros H;
      by destruct (Hs _ _ H) as [|[_ ?]]; [|congruence].
  - intros i. apply Hf, (inv_sealed _ I).
  - intros [Hq ?]%(inv_none _ I). split; [|done]. intros i. eapply quiet_moved; eauto.
  - apply (inv_some _ I).
  - intros x j q i a Hin Hj. by eapply (inv_grace _ I).
Qed.

Lemma set_gate_sealed m g i c c' n :
  wf_mem pw m -> gates m g !! i = Some c -> becomes pw c' (is_sealed pw c) n ->
  forall g' j, sealed_of pw (set_gate g i c' m) g' j = sealed_of pw m g' j.
Proof.
  intros Hw Hc Hb g' j. destruct (set_gate_set _ _ _ _ _ _ _ _ Hw Hc Hb) as (_ & _ & Hs & _ & Ho).
  destruct (decide ((g', j) = (g, i))) as [[= -> ->]|Hne]; [|by apply Ho].
  by rewrite Hs, (sealed_of_lookup _ _ _ _ _ Hc).
Qed.

(** Positions that claim nothing. *)
Definition unremarkable (p : pc) : Prop := carried p = [] /\ forall m ts, thread_ok m ts p.

Lemma reader_step_calm t p m p' m' :
  wf_mem pw m -> reader_step pw t p m = Done (Some (p', m')) ->
  rest_same m m' /\ (forall g i, sealed_of pw m' g i = sealed_of pw m g i)
  /\ unremarkable p' /\ owns_transition p = false.
Proof.
  intros Hw E. unfold unremarkable, thread_ok.
  destruct p; simpl in E; unfold go, unlock in E; try discriminate E.
  - destruct (closed m); simplify_eq; done.
  - simplify_eq; done.
  - destruct (gates m g !! stripe) as [x|] eqn:Hx; [|done].
    destruct (try_acquire pw x) as [[r x']| |] eqn:Ea; simplify_eq/=.
    pose proof (try_acquire_becomes _ _ _ _ (Hw _ _ _ Hx) Ea) as Hb.
    destruct r; destruct Hb as [Hs Hb]; split_and!; try done; eapply set_gate_sealed; eauto;
      [rewrite Hs; exact Hb|subst; by eapply becomes_id, Hw].
  - destruct (closed m); simplify_eq; done.
  - destruct (gates m g !! stripe) as [x|] eqn:Hx; [|done].
    destruct (try_release_without_notification pw x) as [[r x']| |] eqn:Ea; simplify_eq/=.
    pose proof (fast_release_becomes _ _ _ _ (Hw _ _ _ Hx) Ea) as Hb.
    destruct r; split_and!; try done; eapply set_gate_sealed; eauto;
      subst; by eapply becomes_id, Hw.
  - by apply lock_inv in E as (Hl & -> & ->).
  - destruct (gates m g !! stripe) as [x|] eqn:Hx; [|done].
    destruct (release pw x) as [[r x']| |] eqn:Ea; simplify_eq/=.
    split_and!; try done. eapply set_gate_sealed; eauto. by eapply release_becomes, Ea; eapply Hw.
  - by simplify_eq.
Qed.

(** A step that keeps everything but mutexes and counts. *)
Lemma inv_plain s t p p' m' :
  inv s -> threads s !! t = Some p -> moved pw t p (mem s) p' m' ->
  rest_same (mem s) m' -> (forall g i, sealed_of pw m' g i = sealed_of pw (mem s) g i) ->
  (forall x, x ∈ carried p' -> x ∈ carried p) ->
  (owns_transition p = true -> owns_transition p' = false -> closed (mem s) = false ->
     open_all (mem s) (current (mem s))) ->
  (calm (mem s) (threads s) m' (<[t := p']> (threads s)) ->
     thread_ok m' (<[t := p']> (threads s)) p') ->
  inv (Config (tick m') (<[t := p']> (threads s))).
Proof.
  intros I Ht M (Ec & Ep & Ecl & Eq & _) Hs Hd Hrel Hp.
  apply (inv_calm s t p p' m' I Ht M); rewrite ?Eq; auto.
Qed.

Lemma inv_reader s t p p' m' :
  inv s -> threads s !! t = Some p -> reader_step pw t p (mem s) = Done (Some (p', m')) ->
  inv (Config (tick m') (<[t := p']> (threads s))).
Proof.
  intros I Ht E. pose proof (inv_wf _ I) as Hw.
  destruct (reader_step_calm _ _ _ _ _ Hw E) as (Hr & Hs & [Hc Hp] & Ho).
  apply (inv_plain s t p); auto; [by apply reader_step_moved| |congruence].
  rewrite Hc. intros x Hx. by apply elem_of_nil in Hx.
Qed.

Lemma inv_register s t p p' m' :
  inv s -> threads s !! t = Some p -> register_step t p (mem s) = Done (Some (p', m')) ->
  inv (Config (tick m') (<[t := p']> (threads s))).
Proof.
  intros I Ht E. pose proof (inv_wf _ I) as Hw.
  pose proof (register_step_moved _ _ _ _ _ _ Hw E) as M.
  pose proof (inv_thread _ I _ _ Ht) as [_ Hok].
  destruct p; simpl in E; unfold go, unlock in E; try discriminate E.
  - simplify_eq. by apply (inv_plain s t (RegSelect ps)).
  - apply lock_inv in E as (_ & -> & ->). by apply (inv_plain s t (RegLock ps g)).
  - case_bool_decide; injection E as <- <-; by apply (inv_plain s t (RegCheck ps g)).
  - injection E as <- <-. simpl in Hok.
    assert (flip (current (mem s)) <> g) by (rewrite Hok; apply flip_ne).
    apply (inv_calm s t (RegAppend ps g)); try done; simpl.
    + left. by rewrite fn_lookup_insert_ne by congruence.
    + intros g' x. destruct (decide (g' = g)) as [->|Hg].
      * rewrite fn_lookup_insert. intros [?|Hx]%elem_of_app; [by left|right].
        apply list_elem_of_fmap in Hx as (y & -> & _). done.
      * rewrite fn_lookup_insert_ne by congruence. by left.
    + intros x Hx. by apply elem_of_nil in Hx.
  - simplify_eq. by apply (inv_plain s t (RegUnlock g)).
Qed.

(** ** Steps of the transition's owner *)

Lemma gate_step_sealed t g c m r m' :
  wf_mem pw m -> gate_step pw t g c m = Done (Some (r, m')) ->
  (forall g' i, g' <> g -> sealed_of pw m' g' i = sealed_of pw m g' i)
  /\ (unseals c = false -> forall i, sealed_of pw m g i = true -> sealed_of pw m' g i = true).
Proof.
  intros Hw E. pose proof (gate_step_gates _ _ _ _ _ _ _ Hw E) as Hg.
  assert (Hsame : gate_same pw m m' ->
            (forall g' i, g' <> g -> sealed_of pw m' g' i = sealed_of pw m g' i)
            /\ (unseals c = false -> forall i, sealed_of pw m g i = true -> sealed_of pw m' g i = true)).
  { intros H. split; intros; by rewrite (gate_same_sealed _ _ _ _ _ H). }
  assert (Hset : forall i b n, gate_set pw m m' g i b n -> (unseals c = false -> b = true) ->
            (forall g' i, g' <> g -> sealed_of pw m' g' i = sealed_of pw m g' i)
            /\ (unseals c = false -> forall i, sealed_of pw m g i = true -> sealed_of pw m' g i = true)).
  { intros i b n H Hb. split.
    - intros g' j Hne. apply H. congruence.
    - intros Hu j Hj. rewrite (gate_set_sealed _ _ _ _ _ _ _ j H). case_decide; auto. }
  destruct c; try (by apply Hsame).
  - case_decide; destruct Hg as [_ Hg]; [by eapply Hset|auto].
  - destruct Hg as [(_ & Hg & _)|[_ Hg]]; [by eapply Hset|auto].
  - case_decide; [destruct Hg as (_ & Hg & _); by eapply Hset|]. apply Hsame, Hg.
  - apply Hsame, Hg.
  - apply Hsame, Hg.
  - destruct Hg as [(_ & Hg & _)|[(_ & _ & Hg)|(_ & _ & Hg)]]; [by eapply Hset|auto..].
Qed.

Lemma nobody_insert_none ts t p p' g i :
  ts !! t = Some p -> at_stripe p' = None -> nobody ts g i -> nobody (<[t := p']> ts) g i.
Proof. intros Ht Hp Hn. eapply nobody_insert; [done..|congruence]. Qed.

Lemma unheld_insert_none ts t p p' g i :
  ts !! t = Some p -> at_stripe p' = None -> unheld ts g i -> unheld (<[t := p']> ts) g i.
Proof.
  intros Ht Hp Hn. eapply unheld_insert; [done..|]. intros E%counted_at_stripe. congruence.
Qed.

Lemma quiet_insert_none m ts t p p' g i :
  ts !! t = Some p -> at_stripe p' = None -> quiet pw m ts g i -> quiet pw m (<[t := p']> ts) g i.
Proof. intros Ht Hp [? ?]. split; [done|]. by eapply nobody_insert_none. Qed.

Lemma call_ok_insert m ts t p p' g c :
  ts !! t = Some p -> at_stripe p' = None ->
  call_ok m ts g c -> call_ok m (<[t := p']> ts) g c.
Proof.
  intros Ht Hp. pose proof (fun i => unheld_insert_none ts t p p' g i Ht Hp) as Hu.
  pose proof (fun i => quiet_insert_none m ts t p p' g i Ht Hp) as Hq.
  destruct c; simpl; unfold RotatingGates.quiet_all; intros H; destruct_and?; split_and?; eauto 6.
  - intros i' Hi. destruct (H0 i' Hi). auto.
  - intros i' Hi. destruct (H0 i' Hi). auto.
  - intros i' Hi. destruct (H0 i' Hi). auto.
Qed.

(** The owner of the notification mutex that sees no count sees nobody: the
    tail of a release runs under that mutex. *)
Lemma unheld_nobody s t p g :
  inv s -> threads s !! t = Some p -> owns p (LIdle g) = true -> at_stripe p = None ->
  (forall i, unheld (threads s) g i) -> forall i, nobody (threads s) g i.
Proof.
  intros I Ht Ho Hp Hu i j q Hj E. specialize (Hu i j q Hj).
  destruct q; simplify_eq/=; try done.
  assert (j = t) as ->; [|rewrite Ht in Hj; by simplify_eq].
  eapply (mutex_exclusive s j t _ _ (LIdle g) I Hj Ht); [|done]. simpl. by apply bool_decide_true.
Qed.

(** One access of a gate operation by the transition's owner. *)
Lemma inv_call s t g c p p' r m' :
  inv s -> threads s !! t = Some p -> moved pw t p (mem s) p' m' ->
  gate_step pw t g c (mem s) = Done (Some (r, m')) ->
  gate_of p = Some (g, c) -> owns_transition p' = true -> permit p' = None -> at_stripe p' = None ->
  (forall x, x ∈ carried p' -> x ∈ carried p) ->
  (unseals c = false \/ (g = current (mem s) /\ closed (mem s) = false)) ->
  call_ok (mem s) (threads s) g c ->
  (rest_same (mem s) m' ->
   (forall g' i, g' <> g -> sealed_of pw m' g' i = sealed_of pw (mem s) g' i) ->
   (forall g', length (gates m' g') = length (gates (mem s) g')) ->
   match r with
   | More c' => call_ok m' (<[t := p']> (threads s)) g c'
   | Ret b => ret_ok pw m' (threads s) g c b
   end ->
   thread_ok m' (<[t := p']> (threads s)) p') ->
  inv (Config (tick m') (<[t := p']> (threads s))).
Proof.
  intros I Ht M E Hp Ho' Hpp Hps Hd Hu Hok Hp'. pose proof (inv_wf _ I) as Hw.
  destruct (gate_step_frame _ _ _ _ _ _ _ E) as (Hr & _).
  destruct (gate_step_sealed _ _ _ _ _ _ Hw E) as [Hoth Hmono].
  pose proof (call_ok_step _ _ _ _ _ _ _ _ Hw (inv_counts _ I) Hok E) as Hnext.
  apply (inv_gate s t p p' m'); auto.
  - by destruct p.
  - intros g' i Hs. destruct (decide (g' = g)) as [->|Hg]; [|left; by rewrite Hoth].
    destruct Hu as [Hu|?]; [left; auto|by right].
  - apply Hp'; auto; [apply (mv_len _ _ _ _ _ _ M)|].
    destruct r; [|done]. by eapply call_ok_insert.
Qed.

Lemma unpublished_same m m' r : rest_same m m' -> unpublished m r -> unpublished m' r.
Proof. intros (Ec & Ep & Ecl & _). unfold unpublished. by rewrite Ec, Ep, Ecl. Qed.

Lemma published_same m m' r : rest_same m m' -> published m r -> published m' r.
Proof. intros (Ec & Ep & Ecl & _). unfold published. by rewrite Ec, Ep, Ecl. Qed.

Lemma open_all_same m m' g :
  (forall i, sealed_of pw m' g i = sealed_of pw m g i) ->
  length (gates m' g) = length (gates m g) -> open_all m g -> open_all m' g.
Proof. intros Hs Hl H i Hi Hlt. rewrite Hs. apply H; [done|lia]. Qed.

Lemma quiet_all_insert m ts t p p' g :
  ts !! t = Some p -> at_stripe p' = None -> quiet_all m ts g -> quiet_all m (<[t := p']> ts) g.
Proof. intros Ht Hp H i. by eapply quiet_insert_none. Qed.

Ltac no_closure := split; [done|].
Ltac carried_nil := intros ? Hnil; by apply elem_of_nil in Hnil.

Lemma inv_barrier s t r p' m' :
  inv s -> threads s !! t = Some (Rotate r Barrier) ->
  rotate_step pw t r Barrier (mem s) = Done (Some (p', m')) ->
  inv (Config (tick m') (<[t := p']> (threads s))).
Proof.
  intros I Ht E. pose proof (rotate_step_moved _ _ _ _ _ _ _ (inv_wf _ I) E) as M.
  destruct (inv_thread _ I _ _ Ht) as [_ Hok].
  assert (Hc : (p' = Rotate r (Replacement (DrainedSealed 0))
              /\ m' = set_lock (LQueue (old r)) (Some t) (mem s))
             \/ (p' = TransitionUnlock Busy /\ m' = mem s)).
  { simpl in E. destruct (rmode r); [apply lock_inv in E|apply try_lock_inv in E..];
      destruct_or?; destruct_and?; auto. }
  destruct Hc as [[-> ->]|[-> ->]]; eapply (inv_plain s t _ _ _ I Ht M); try done; try carried_nil;
    intros C; no_closure;
    apply (calm_phase _ _ _ _ _ _ C) in Hok; destruct Hok as [Hu Ho]; simpl.
  - done.
  - intros _. by destruct Hu as (_ & _ & ->).
Qed.

(** Without readers, [try_drained] keeps observing an idle gate. *)
Lemma drained_idle m ts t g c k idle m' :
  wf_mem pw m -> counts_ok pw m ts -> (forall i, unheld ts g i) ->
  match c with DrainedAt _ b => b = true | _ => True end ->
  gate_step pw t g c m = Done (Some (More (DrainedAt k idle), m')) -> idle = true.
Proof.
  intros Hw Hc Hu Hb E. pose proof (gate_step_gates _ _ _ _ _ _ _ Hw E) as Hg.
  destruct c; try (pose proof (gate_step_family _ _ _ _ _ _ _ E); done).
  - cbn [gate_step] in E. unfold go in E. by split_step E.
  - cbn [gate_step] in E. unfold try_lock in E. by split_step E.
  - destruct Hg as [_ Hg]. case_decide as Hi; [|done]. injection Hg as -> ->. subst.
    simpl. apply Z.eqb_eq. by apply (count_zero_unheld pw m ts).
Qed.

Lemma inv_replacement s t r c p' m' :
  inv s -> threads s !! t = Some (Rotate r (Replacement c)) ->
  rotate_step pw t r (Replacement c) (mem s) = Done (Some (p', m')) ->
  inv (Config (tick m') (<[t := p']> (threads s))).
Proof.
  intros I Ht E. pose proof (inv_wf _ I) as Hw.
  pose proof (rotate_step_moved _ _ _ _ _ _ _ Hw E) as M.
  destruct (inv_thread _ I _ _ Ht) as [_ (Hu & Ho & Hf & Hid)]. simpl in E.
  apply call_inv in E as (q & E & Hq). pose proof Hu as (Hcl & Hpn & Hcu).
  destruct (inv_none _ I Hpn) as [Hqt _]. rewrite Hcu in Hqt.
  assert (Hok : call_ok (mem s) (threads s) (flip (old r)) c).
  { destruct c; try discriminate Hf; simpl.
    - intros i' _. apply Hqt.
    - intros i'. apply Hqt.
    - split; [intros i'; apply Hqt|]. intros _ i' _. apply nobody_unheld, Hqt. }
  assert (Hq' : exists ph, p' = Rotate r ph /\ match q with
             | More c' => ph = Replacement c'
             | Ret b => b = true /\ ph = SealOld (seal_start (rmode r)) end).
  { destruct q as [c'|[]]; [by eauto|injection Hq as <-; by eauto|done]. }
  destruct Hq' as (ph & -> & Hph).
  apply (inv_call s t (flip (old r)) c _ _ q m' I Ht M E); auto.
  - destruct q as [c'|?]; [by subst ph|by destruct Hph as [_ ->]].
  - left. by destruct c.
  - intros Hr Hoth Hlen Hn. no_closure. pose proof (unpublished_same _ _ _ Hr Hu) as Hu'.
    assert (Ho' : open_all m' (old r)).
    { apply (open_all_same (mem s)); [|done..]. intros i. apply Hoth. apply not_eq_sym, flip_ne. }
    destruct q as [c'|?].
    + subst ph. simpl. split_and!; [done|done|by rewrite (gate_step_family _ _ _ _ _ _ _ E)|].
      destruct c'; try done. eapply drained_idle; [done|apply (inv_counts _ I)| |done|done].
      intros i'. apply nobody_unheld, Hqt.
    + destruct Hph as [-> ->]. simpl. split_and!; [done|by destruct (rmode r); auto|].
      destruct (rmode r); simpl; try done. split_and!; [lia| |lia].
      intros i _. by apply Ho'.
Qed.

Lemma inv_seal_old s t r c p' m' :
  inv s -> threads s !! t = Some (Rotate r (SealOld c)) ->
  rotate_step pw t r (SealOld c) (mem s) = Done (Some (p', m')) ->
  inv (Config (tick m') (<[t := p']> (threads s))).
Proof.
  intros I Ht E. pose proof (rotate_step_moved _ _ _ _ _ _ _ (inv_wf _ I) E) as M.
  destruct (inv_thread _ I _ _ Ht) as [_ (Hu & Hf & Hok)]. simpl in E.
  apply call_inv in E as (q & E & Hq). pose proof Hu as (Hcl & _ & Hcu).
  assert (Hq' : exists ph, p' = Rotate r ph /\ ph = match q with
             | More c' => SealOld c' | Ret b => if b then Publish else FailedBarrier end).
  { destruct q as [c'|b]; [eauto|injection Hq as <-; eauto]. }
  destruct Hq' as (ph & -> & Hph).
  apply (inv_call s t (old r) c _ _ q m' I Ht M E); auto.
  - by destruct q as [c'|[]]; subst ph.
  - intros Hr Hoth Hlen Hn. no_closure. pose proof (unpublished_same _ _ _ Hr Hu) as Hu'.
    destruct q as [c'|b]; subst ph; simpl.
    + by rewrite (gate_step_family _ _ _ _ _ _ _ E).
    + destruct c; simpl in Hn; destruct_and?; try done; subst; try done.
      all: by destruct Hf.
Qed.

Lemma inv_publish s t r p' m' :
  inv s -> threads s !! t = Some (Rotate r Publish) ->
  rotate_step pw t r Publish (mem s) = Done (Some (p', m')) ->
  inv (Config (tick m') (<[t := p']> (threads s))).
Proof.
  intros I Ht E. pose proof (rotate_step_moved _ _ _ _ _ _ _ (inv_wf _ I) E) as M.
  destruct (inv_thread _ I _ _ Ht) as [_ ((Hcl & Hpn & Hcu) & Hs)]. simpl in E.
  unfold go in E. injection E as <- <-. destruct (inv_none _ I Hpn) as [Hq He].
  rewrite Hcu in Hq, He.
  assert (Hff : flip (flip (old r)) = old r) by (by destruct (old r)).
  apply (inv_active s t _ _ _ I Ht M); simpl; rewrite ?Hff; try done.
  - no_closure. simpl. split_and!; [done|done|]. intros i.
    eapply (quiet_insert_none (set_current _ (set_pending _ _)) (threads s) t); [done|done|].
    apply Hq.
  - intros j ps g Hj. pose proof (inv_thread _ I _ _ Hj) as [_ Hg]. simpl in Hg.
    assert (j = t) as ->; [|congruence].
    eapply (mutex_exclusive s j t _ _ (LQueue (old r)) I Hj Ht); simpl; apply bool_decide_true;
      congruence.
  - intros [? _]. congruence.
  - intros g. congruence.
  - intros x j q i a _ Hj Ep. destruct (Hq i) as [_ Hn]. exfalso. eapply Hn; [exact Hj|].
    apply counted_at_stripe. unfold counted. by rewrite Ep.
Qed.

Lemma inv_reopen s t r c p' m' :
  inv s -> threads s !! t = Some (Rotate r (Reopen c)) ->
  rotate_step pw t r (Reopen c) (mem s) = Done (Some (p', m')) ->
  inv (Config (tick m') (<[t := p']> (threads s))).
Proof.
  intros I Ht E. pose proof (rotate_step_moved _ _ _ _ _ _ _ (inv_wf _ I) E) as M.
  destruct (inv_thread _ I _ _ Ht) as [_ (Hu & Hf & Hok)]. simpl in E.
  apply call_inv in E as (q & E & Hq). pose proof Hu as (Hcl & _ & Hcu).
  assert (Hq' : exists ph, p' = Rotate r ph /\ ph = match q with
             | More c' => Reopen c' | Ret b => ReleaseBarrier end).
  { destruct q as [c'|[]]; [eauto|injection Hq as <-; eauto|done]. }
  destruct Hq' as (ph & -> & Hph).
  apply (inv_call s t (flip (old r)) c _ _ q m' I Ht M E); auto.
  - by destruct q as [c'|[]]; subst ph.
  - intros Hr Hoth Hlen Hn. no_closure. pose proof (published_same _ _ _ Hr Hu) as Hu'.
    destruct q as [c'|b]; subst ph; simpl.
    + by rewrite (gate_step_family _ _ _ _ _ _ _ E).
    + destruct c; try discriminate Hf; try done. by destruct Hn.
Qed.

(** Phases that only take or drop a mutex. *)
Lemma inv_rotate_plain s t r ph p' m' :
  inv s -> threads s !! t = Some (Rotate r ph) ->
  rotate_step pw t r ph (mem s) = Done (Some (p', m')) ->
  match ph with FailedBarrier | ReleaseBarrier | LockQueue | UnlockQueue _ => True | _ => False end ->
  inv (Config (tick m') (<[t := p']> (threads s))).
Proof.
  intros I Ht E Hph. pose proof (rotate_step_moved _ _ _ _ _ _ _ (inv_wf _ I) E) as M.
  destruct (inv_thread _ I _ _ Ht) as [_ Hok].
  destruct ph; try done; simpl in E; unfold unlock in E.
  - injection E as <- <-. eapply (inv_plain s t _ _ _ I Ht M); try done; [carried_nil|].
    intros C; no_closure. apply (calm_phase _ _ _ _ _ _ C) in Hok.
    destruct Hok as [(_ & _ & Hc) Ho]. intros _. by rewrite Hc.
  - injection E as <- <-. eapply (inv_plain s t _ _ _ I Ht M); try done.
    intros C; no_closure. apply (calm_phase _ _ _ _ _ _ C) in Hok. destruct Hok as [Hp Ho].
    simpl. split_and!; [done|done|by destruct (rmode r); auto|].
    destruct (rmode r); simpl; done || lia.
  - apply lock_inv in E as (_ & -> & ->). eapply (inv_plain s t _ _ _ I Ht M); try done.
    intros C; no_closure. by apply (calm_phase _ _ _ _ _ _ C) in Hok.
  - injection E as <- <-. eapply (inv_plain s t _ _ _ I Ht M); try done.
    intros C; no_closure. by apply (calm_phase _ _ _ _ _ _ C) in Hok.
Qed.

(** A gate operation that reports the gate drained leaves it quiet. *)
Lemma drained_quiet s t p p' g c m' :
  inv s -> threads s !! t = Some p -> moved pw t p (mem s) p' m' ->
  gate_of p = Some (g, c) -> at_stripe p' = None ->
  call_locked c = true -> sealed_all m' g -> (forall i, unheld (threads s) g i) ->
  quiet_all m' (<[t := p']> (threads s)) g.
Proof.
  intros I Ht M Hp Hp' Hc Hs Hu i. split; [apply Hs|].
  eapply nobody_insert_none; [done..|]. revert i.
  apply (unheld_nobody s t p g I Ht); [|by destruct p|done].
  simpl. apply bool_decide_true. destruct p; try discriminate Hp; unfold owns_idle; by rewrite Hp, Hc.
Qed.

Lemma inv_wait s t r c p' m' :
  inv s -> threads s !! t = Some (Rotate r (Wait c)) ->
  rotate_step pw t r (Wait c) (mem s) = Done (Some (p', m')) ->
  inv (Config (tick m') (<[t := p']> (threads s))).
Proof.
  intros I Ht E. pose proof (rotate_step_moved _ _ _ _ _ _ _ (inv_wf _ I) E) as M.
  destruct (inv_thread _ I _ _ Ht) as [_ (Hu & Ho & Hf & Hok)]. simpl in E.
  apply call_inv in E as (q & E & Hq). pose proof Hu as (Hcl & _ & Hcu).
  assert (Hq' : p' = match q with
             | More c' => Rotate r (Wait c')
             | Ret b => if sealing c then Rotate r (Wait WaitLock)
                        else if b then Rotate r LockQueue else TransitionUnlock Busy end).
  { destruct q as [c'|b]; [done|by injection Hq as <-]. }
  assert (at_stripe p' = None) as Hps by (subst p'; destruct q as [|[]]; by destruct (sealing c)).
  apply (inv_call s t (old r) c _ _ q m' I Ht M E); auto.
  - subst p'. destruct q as [|[]]; by destruct (sealing c).
  - subst p'. destruct q as [|[]]; by destruct (sealing c).
  - subst p'. destruct q as [|[]]; destruct (sealing c); try done; carried_nil.
  - left. by destruct c; destruct Hf as [Hf|[Hf|Hf]].
  - intros Hr Hoth Hlen Hn. pose proof (published_same _ _ _ Hr Hu) as Hu'.
    assert (Ho' : open_all m' (flip (old r))).
    { apply (open_all_same (mem s)); [|done..]. intros i. apply Hoth, flip_ne. }
    assert (Hrel : closed m' = false -> open_all m' (current m')).
    { intros _. by destruct Hu' as (_ & _ & ->). }
    destruct q as [c'|b].
    + subst p'. no_closure. simpl. by rewrite (gate_step_family _ _ _ _ _ _ _ E).
    + destruct c; simpl in Hn, Hq', Hf; try done; try (by destruct Hf as [?|[?|?]]).
      * destruct Hn as [-> Hs]. subst p'. no_closure. simpl. split_and!; auto.
      * destruct Hn as (-> & Hs & Hun). subst p'. no_closure. simpl.
        split_and!; [done|done|]. eapply drained_quiet; eauto.
      * subst b p'. no_closure. done.
      * subst b p'. no_closure. done.
      * destruct Hn as [Hs Hun]. destruct b; subst p'; no_closure; simpl; [|done].
        split_and!; [done|done|]. eapply drained_quiet; eauto.
Qed.

Lemma inv_take s t r p' m' :
  inv s -> threads s !! t = Some (Rotate r Take) ->
  rotate_step pw t r Take (mem s) = Done (Some (p', m')) ->
  inv (Config (tick m') (<[t := p']> (threads s))).
Proof.
  intros I Ht E. pose proof (rotate_step_moved _ _ _ _ _ _ _ (inv_wf _ I) E) as M.
  destruct (inv_thread _ I _ _ Ht) as [_ Hok]. pose proof Hok as ((Hcl & Hpn & Hcu) & Ho & Hq).
  simpl in E. unfold go in E. injection E as <- <-.
  assert (Hff : flip (current (mem s)) = old r) by (rewrite Hcu; by destruct (old r)).
  apply (inv_calm s t _ _ _ I Ht M); simpl; rewrite ?Hff; try done.
  - right. apply fn_lookup_insert.
  - intros g x. destruct (decide (g = old r)) as [->|Hg].
    + rewrite fn_lookup_insert. intros Hx. by apply elem_of_nil in Hx.
    + rewrite fn_lookup_insert_ne by congruence. by left.
  - intros x [Hx|Hx]%elem_of_app; [by left|right]. split; [by eapply (inv_times _ I)|].
    intros j q g i a Hj Ep. destruct (decide (g = current (mem s))) as [->|Hg].
    + eapply (inv_grace _ I); eauto. by rewrite Hff.
    + assert (g = old r) as -> by (destruct g, (old r), (current (mem s)); done).
      destruct (Hq i) as [_ Hn]. exfalso. eapply Hn; [exact Hj|].
      apply counted_at_stripe. unfold counted. by rewrite Ep.
  - intros C. no_closure. apply (calm_phase _ _ _ _ _ _ C) in Hok.
    destruct Hok as (? & ? & ?). simpl. split_and!; [done|done|done|]. apply fn_lookup_insert.
Qed.

Lemma inv_clear s t r b p' m' :
  inv s -> threads s !! t = Some (Rotate r (Clear b)) ->
  rotate_step pw t r (Clear b) (mem s) = Done (Some (p', m')) ->
  inv (Config (tick m') (<[t := p']> (threads s))).
Proof.
  intros I Ht E. pose proof (rotate_step_moved _ _ _ _ _ _ _ (inv_wf _ I) E) as M.
  destruct (inv_thread _ I _ _ Ht) as [_ Hok].
  pose proof Hok as ((Hcl & Hpn & Hcu) & Ho & Hq & He).
  simpl in E. unfold go in E. injection E as Hp' <-.
  assert (Hff : flip (current (mem s)) = old r) by (rewrite Hcu; by destruct (old r)).
  assert (Hps : at_stripe p' = None /\ permit p' = None /\ owns_transition p' = true)
    by (subst p'; by destruct (more r)).
  destruct Hps as (Hps & Hpp & Hop).
  apply (inv_active s t _ _ _ I Ht M); simpl; rewrite ?Hff; try done.
  - intros x. subst p'. assert (Hj : mjoin (got r ++ [b]) = mjoin (got r) ++ b).
    { rewrite join_app. simpl. by rewrite app_nil_r. }
    by destruct (more r); simpl; rewrite Hj.
  - subst p'. destruct (more r); no_closure; simpl.
    + split; [done|]. rewrite Hcu. exact Ho.
    + intros _. rewrite Hcu. exact Ho.
  - intros j ps g Hj. apply (inv_thread _ I _ _ Hj).
  - intros [? _]. congruence.
  - pose proof (inv_sealed _ I) as Hs. by rewrite Hff in Hs.
  - intros _. split; [|done].
    by apply (quiet_all_insert (set_pending None (mem s)) (threads s) t _ p' (old r) Ht).
  - intros x j q i a Hx. rewrite <- Hff in Hx. by eapply (inv_grace _ I).
Qed.

Lemma inv_rotate s t r ph p' m' :
  inv s -> threads s !! t = Some (Rotate r ph) ->
  rotate_step pw t r ph (mem s) = Done (Some (p', m')) ->
  inv (Config (tick m') (<[t := p']> (threads s))).
Proof.
  intros I Ht E. destruct ph; try (by eapply inv_rotate_plain).
  - by eapply inv_barrier.
  - by eapply inv_replacement.
  - by eapply inv_seal_old.
  - by eapply inv_publish.
  - by eapply inv_reopen.
  - by eapply inv_wait.
  - by eapply inv_take.
  - by eapply inv_clear.
Qed.

Lemma inv_transition_lock s t k p' m' :
  inv s -> threads s !! t = Some (TransitionLock k) ->
  transition_step pw t (TransitionLock k) (mem s) = Done (Some (p', m')) ->
  inv (Config (tick m') (<[t := p']> (threads s))).
Proof.
  intros I Ht E. pose proof (transition_step_moved _ _ _ _ _ _ (inv_wf _ I) E) as M.
  assert (Hc : (locks (mem s) LTransition = None
              /\ (p' = MarkClosed \/ exists md, p' = TransitionClosed md)
              /\ m' = set_lock LTransition (Some t) (mem s)) \/ (p' = Returned Busy /\ m' = mem s)).
  { simpl in E. destruct k as [[]|]; [apply lock_inv in E|apply try_lock_inv in E..|apply lock_inv in E];
      destruct_or?; destruct_and?; eauto 8. }
  destruct Hc as [(Hl & Hq & ->)|[-> ->]].
  - destruct Hq as [->|[md ->]]; eapply (inv_plain s t _ _ _ I Ht M); try done.
    intros C. no_closure. intros Hcl. eapply (calm_open_all _ _ _ _ _ C), (inv_open _ I); done.
  - eapply (inv_plain s t _ _ _ I Ht M); done.
Qed.

Lemma inv_classify s t md p' m' :
  inv s -> threads s !! t = Some (Classify md) ->
  transition_step pw t (Classify md) (mem s) = Done (Some (p', m')) ->
  inv (Config (tick m') (<[t := p']> (threads s))).
Proof.
  intros I Ht E. pose proof (transition_step_moved _ _ _ _ _ _ (inv_wf _ I) E) as M.
  destruct (inv_thread _ I _ _ Ht) as [_ [Hcl Ho]]. simpl in E. unfold go in E.
  injection E as Hp' <-. destruct (pending (mem s)) as [o|] eqn:Ep; subst p'.
  - pose proof (inv_some _ I _ Ep) as Eo.
    assert (Hff : flip o = current (mem s)) by (subst o; by destruct (current (mem s))).
    eapply (inv_plain s t _ _ _ I Ht M); try done. intros C. no_closure.
    simpl. unfold published. simpl. rewrite Hff. split_and!; try done.
    + by destruct md; auto.
    + destruct md; simpl; done || lia.
  - by eapply (inv_plain s t _ _ _ I Ht M).
Qed.

Lemma inv_mark_closed s t p' m' :
  inv s -> threads s !! t = Some MarkClosed ->
  transition_step pw t MarkClosed (mem s) = Done (Some (p', m')) ->
  inv (Config (tick m') (<[t := p']> (threads s))).
Proof.
  intros I Ht E. pose proof (transition_step_moved _ _ _ _ _ _ (inv_wf _ I) E) as M.
  simpl in E. unfold go in E. injection E as <- <-.
  assert (Hqi : forall g, quiet_all (mem s) (threads s) g ->
            quiet_all (set_closed (mem s)) (<[t := Close Gen0 SealLock]> (threads s)) g).
  { intros g. by apply (quiet_all_insert (set_closed (mem s)) (threads s) t _ (Close Gen0 SealLock) g Ht). }
  apply (inv_active s t _ _ _ I Ht M); simpl; try done.
  - no_closure. simpl. split_and!; by auto.
  - intros j ps g Hj. apply (inv_thread _ I _ _ Hj).
  - intros (_ & ? & ?). split_and!; auto.
  - apply (inv_sealed _ I).
  - intros [Hq ?]%(inv_none _ I). auto.
  - apply (inv_some _ I).
  - intros x j q i a. apply (inv_grace _ I).
Qed.

Lemma inv_close s t g c p' m' :
  inv s -> threads s !! t = Some (Close g c) ->
  transition_step pw t (Close g c) (mem s) = Done (Some (p', m')) ->
  inv (Config (tick m') (<[t := p']> (threads s))).
Proof.
  intros I Ht E. pose proof (transition_step_moved _ _ _ _ _ _ (inv_wf _ I) E) as M.
  destruct (inv_thread _ I _ _ Ht) as [_ (Hcl & Hf & Hok & H0)]. simpl in E.
  apply call_inv in E as (q & E & Hq).
  assert (Hq' : p' = match q with
             | More c' => Close g c'
             | Ret b => if sealing c then Close g WaitLock
                        else match g with Gen0 => Close Gen1 SealLock
                             | Gen1 => TransitionUnlock ClosedRetirement end end).
  { destruct q as [c'|b]; [done|by injection Hq as <-]. }
  assert (at_stripe p' = None) as Hps by (subst p'; destruct q; destruct (sealing c), g; done).
  pose proof (gate_step_sealed _ _ _ _ _ _ (inv_wf _ I) E) as [_ Hmono].
  apply (inv_call s t g c _ _ q m' I Ht M E); auto.
  - subst p'. destruct q; destruct (sealing c), g; done.
  - subst p'. destruct q; destruct (sealing c), g; done.
  - subst p'. destruct q; destruct (sealing c), g; try done; carried_nil.
  - left. by destruct c; destruct Hf.
  - intros Hr Hoth Hlen Hn. assert (Hcl' : closed m' = true) by (destruct Hr as (_ & _ & -> & _); done).
    assert (H0' : g = Gen1 -> quiet_all m' (<[t := p']> (threads s)) Gen0).
    { intros -> i. eapply quiet_moved; [exact M|exact Ht| |by apply H0].
      intros Hs. by rewrite Hoth. }
    destruct q as [c'|b].
    + subst p'. no_closure. simpl. by rewrite (gate_step_family _ _ _ _ _ _ _ E).
    + destruct c; simpl in Hn, Hq', Hf; try done; try (by destruct Hf).
      * destruct Hn as [-> Hs]. subst p'. no_closure. simpl. split_and!; auto.
      * destruct Hn as (-> & Hs & Hun).
        assert (Hqt : quiet_all m' (<[t := p']> (threads s)) g) by (eapply drained_quiet; eauto).
        destruct g; subst p'.
        -- no_closure. simpl. split_and!; by auto.
        -- split; [|simpl; congruence]. intros _. split_and!; auto.
Qed.

(** Detaching a queue after permanent closure. *)
Lemma inv_detach s t p p' g :
  inv s -> threads s !! t = Some p -> moved pw t p (mem s) p' (set_queue g [] (mem s)) ->
  owns_transition p = false -> saw_closure p = true ->
  (forall x, x ∈ carried p' -> x ∈ carried p \/ x ∈ queues (mem s) g) ->
  (forall m ts, closure_ok m ts -> thread_ok m ts p') ->
  inv (Config (tick (set_queue g [] (mem s))) (<[t := p']> (threads s))).
Proof.
  intros I Ht M Ho Hs Hc Hp. destruct (inv_thread _ I _ _ Ht) as [Hcl _].
  pose proof (Hcl Hs) as (Hclo & H0 & H1).
  apply (inv_calm s t _ _ _ I Ht M); simpl; try done.
  - destruct (decide (g = flip (current (mem s)))) as [->|Hg]; [right; apply fn_lookup_insert|left].
    by rewrite fn_lookup_insert_ne.
  - intros g' x. destruct (decide (g' = g)) as [->|Hg].
    + rewrite fn_lookup_insert. intros Hx. by apply elem_of_nil in Hx.
    + rewrite fn_lookup_insert_ne by congruence. by left.
  - intros x [?|Hx]%Hc; [by left|right]. split; [by eapply (inv_times _ I)|].
    intros j q g' i a Hj Ep. exfalso.
    assert (at_stripe q = Some (g', i)) as Es.
    { apply counted_at_stripe. unfold counted. by rewrite Ep. }
    destruct g'; [eapply (proj2 (H0 i))|eapply (proj2 (H1 i))]; eauto.
  - congruence.
  - intros C. apply Hp. by eapply calm_closure; [|apply Hcl].
Qed.

Lemma inv_transition s t p p' m' :
  inv s -> threads s !! t = Some p ->
  transition_step pw t p (mem s) = Done (Some (p', m')) ->
  inv (Config (tick m') (<[t := p']> (threads s))).
Proof.
  intros I Ht E. pose proof (transition_step_moved _ _ _ _ _ _ (inv_wf _ I) E) as M.
  pose proof (inv_thread _ I _ _ Ht) as Hok.
  destruct p; try discriminate E.
  - by eapply inv_transition_lock.
  - destruct Hok as [_ Ho]. simpl in E. unfold go in E. injection E as Hp' <-.
    destruct (closed (mem s)) eqn:Ecl; subst p'; eapply (inv_plain s t _ _ _ I Ht M); try done;
      intros C; no_closure; simpl; [congruence|auto].
  - by eapply inv_classify.
  - by eapply inv_mark_closed.
  - by eapply inv_close.
  - simpl in E. unfold unlock in E. injection E as <- <-.
    eapply (inv_plain s t _ _ _ I Ht M); try done; [by intros; apply Hok|].
    intros C. split; [|done]. intros Hs. eapply calm_closure; [done|].
    apply Hok. by destruct o.
  - apply lock_inv in E as (_ & -> & ->). eapply (inv_plain s t _ _ _ I Ht M); try done.
    intros C. split; [|done]. intros _. eapply calm_closure; [done|]. by apply Hok.
  - apply lock_inv in E as (_ & -> & ->). eapply (inv_plain s t _ _ _ I Ht M); try done.
    intros C. split; [|done]. intros _. eapply calm_closure; [done|]. by apply Hok.
  - simpl in E. unfold go in E. injection E as <- <-. eapply (inv_detach s t _ _ _ I Ht M); try done.
    by right.
  - simpl in E. unfold unlock in E. injection E as <- <-. eapply (inv_plain s t _ _ _ I Ht M); try done.
    intros C. split; [|done]. intros _. eapply calm_closure; [done|]. by apply Hok.
  - simpl in E. unfold go in E. injection E as <- <-. eapply (inv_detach s t _ _ _ I Ht M); try done.
    by intros x ?%elem_of_app.
  - simpl in E. unfold unlock in E. injection E as <- <-. eapply (inv_plain s t _ _ _ I Ht M); try done.
    + intros x. simpl. by rewrite app_nil_r.
    + intros C. split; [|done]. intros _. eapply calm_closure; [done|]. by apply Hok.
Qed.

Lemma domain_inv_step s t a s' : inv s -> step pw t a s = Done (Some s') -> inv s'.
Proof.
  intros I E. unfold step in E. destruct (threads s !! t) as [p|] eqn:Ht; [|done].
  destruct (thread_step pw t a p (mem s)) as [[[p' m']|]| |] eqn:Et; simplify_eq/=.
  pose proof (thread_step_moved _ _ _ _ _ _ _ (inv_wf _ I) Et) as M.
  destruct a, p; try discriminate Et;
    first [ by eapply inv_reader | by eapply inv_register | by eapply inv_rotate
          | by eapply inv_transition | idtac ].
  all: simpl in Et; unfold go in Et; repeat case_match; simplify_eq;
    eapply (inv_plain s t _ _ _ I Ht M); try done; try carried_nil.
    all: intros C; split; [|done]; intros _; eapply calm_closure; [done|];
    by apply (inv_thread _ I _ _ Ht).
Qed.

Lemma domain_inv_reachable stripes n s : reachable pw stripes n s -> inv s /\ length (threads s) = n.
Proof.
  intros H. unfold reachable in H. remember (initial pw stripes n) as s0 eqn:E0.
  assert (H0 : inv s0 /\ length (threads s0) = n).
  { subst. split; [apply domain_inv_initial|]. simpl. by rewrite length_replicate. }
  clear E0. induction H as [s|s s1 s2 (t & a & E) _ IH]; [done|]. apply IH.
  destruct H0 as [I Hl]. split; [by eapply domain_inv_step|]. unfold step in E.
  destruct (threads s !! t); [|done].
  destruct (thread_step pw t a p (mem s)) as [[[p' m]|]| |]; simplify_eq/=. by rewrite length_insert.
Qed.

(** ** No fail-stop *)

Lemma gate_step_done m ts t g c :
  wf_mem pw m -> counts_ok pw m ts -> call_ok m ts g c -> exists o, gate_step pw t g c m = Done o.
Proof.
  intros Hw Hc Hok.
  destruct c; cbn [gate_step]; unfold go, lock, try_lock, unlock;
    try (repeat case_match; by eexists).
  - destruct Hok as (_ & _ & Hk). destruct (lookup_lt_is_Some_2 _ _ Hk) as [x ->].
    destruct (try_idle_seal pw observed x) as [[] ?]; by eexists.
  - destruct Hok as (Hs & _ & Hk & _). case_bool_decide as Hr; [|by eexists].
    destruct (lookup_lt_is_Some_2 (gates m g) rollback) as [x Hx]; [lia|]. rewrite Hx.
    destruct (Hs rollback) as [Hsx Hu]; [lia|]. rewrite (sealed_of_lookup _ _ _ _ _ Hx) in Hsx.
    apply (count_zero_unheld pw m ts) in Hu; [|done|lia].
    rewrite (count_of_lookup _ _ _ _ _ Hx) in Hu.
    pose proof (undo_becomes pw x (Hw _ _ _ Hx)) as Hun. rewrite Hsx, Hu in Hun. simpl in Hun.
    destruct Hun as (x' & -> & _). by eexists.
  - destruct (gates m g !! i) as [x|] eqn:Hx; [|by eexists].
    pose proof (reopen_becomes pw x (Hw _ _ _ Hx)) as Hu.
    destruct (_ && _); [destruct Hu as (x' & -> & _)|rewrite Hu]; by eexists.
Qed.

Lemma idle_lock_free s t r c :
  inv s -> threads s !! t = Some (Rotate r (Replacement c)) -> call_locked c = false ->
  quiet_all (mem s) (threads s) (flip (old r)) -> locks (mem s) (LIdle (flip (old r))) = None.
Proof.
  intros I Ht Hc Hq. destruct (locks _ _) as [j|] eqn:El; [|done]. exfalso.
  destruct (lookup_lt_is_Some_2 _ _ (inv_owner _ I _ _ El)) as [q Hj].
  pose proof (proj2 (inv_lock _ I _ _ _ Hj) El) as Ho. simpl in Ho.
  apply bool_decide_eq_true in Ho.
  destruct (gate_of q) as [[g' c']|] eqn:Eg.
  - assert (j = t) as ->.
    { eapply (mutex_exclusive s _ _ _ _ LTransition I Hj Ht); [|done]. by destruct q. }
    rewrite Ht in Hj. simplify_eq/=. by rewrite Hc in Ho.
  - destruct q; try (by simpl in Ho); unfold owns_idle in Ho; try (by rewrite Eg in Ho);
      simplify_eq; by eapply (proj2 (Hq stripe)).
Qed.

Lemma call_done t g c m inside after :
  (exists o, gate_step pw t g c m = Done o) ->
  (forall b m', gate_step pw t g c m = Done (Some (Ret b, m')) -> exists p, after b = Done p) ->
  exists o, call pw t g c m inside after = Done o.
Proof.
  intros [o Eo] Hb. unfold call. rewrite Eo. destruct o as [[[c'|b] m']|]; simpl; [by eexists| |by eexists].
  destruct (Hb _ _ Eo) as [p ->]. by eexists.
Qed.

Lemma rotate_step_done s t r ph :
  inv s -> threads s !! t = Some (Rotate r ph) -> exists o, rotate_step pw t r ph (mem s) = Done o.
Proof.
  intros I Ht. pose proof (inv_wf _ I) as Hw. pose proof (inv_counts _ I) as Hc.
  destruct (inv_thread _ I _ _ Ht) as [_ Hok].
  destruct ph; simpl; unfold lock, try_lock, unlock, go; try (repeat case_match; by eexists).
  - destruct Hok as ((_ & Hpn & Hcu) & Ho & Hf & Hid).
    destruct (inv_none _ I Hpn) as [Hq _]. rewrite Hcu in Hq.
    apply call_done.
    + destruct c; try discriminate Hf; cbn [gate_step]; unfold go, try_lock, unlock;
        repeat case_match; by eexists.
    + intros b m' E. exists (Rotate r (SealOld (seal_start (rmode r)))).
      assert (b = true) as ->; [|done].
      destruct c; try discriminate Hf; cbn [gate_step] in E.
      * unfold go in E. lookup_stripe (flip (old r)) i as x Hx Hi; [|done].
        destruct (Hq i) as [Hs _]. rewrite (sealed_of_lookup _ _ _ _ _ Hx) in Hs.
        by rewrite Hs in E.
      * unfold try_lock in E. rewrite (idle_lock_free s t r _ I Ht eq_refl Hq) in E. done.
      * unfold go, unlock in E. lookup_stripe (flip (old r)) i as x Hx Hi; [|by simplify_eq].
        by destruct (mark_waiting pw x).
  - destruct Hok as (_ & _ & Hok). apply call_done; [by eapply gate_step_done|]. by eexists.
  - destruct Hok as (_ & Hf & Hok). apply call_done; [by eapply gate_step_done|].
    intros b m' E. pose proof (call_ok_step _ _ _ _ _ _ _ _ Hw Hc Hok E) as Hr.
    destruct c; try discriminate Hf; try done. destruct Hr as [-> _]. by eexists.
  - destruct Hok as (_ & _ & _ & Hok). apply call_done; [by eapply gate_step_done|].
    intros b m' _. by eexists.
Qed.

Lemma holders_bound s t p x :
  inv s -> threads s !! t = Some p -> permit p = None ->
  holders (threads s) x < length (threads s).
Proof.
  intros I Ht Hp. unfold holders.
  pose proof (sum_list_with_insert (holds x) _ _ _ (Reading x.1 x.2 0) Ht) as Hi.
  pose proof (sum_list_with_le_length (holds x) (<[t := Reading x.1 x.2 0]> (threads s))) as Hle.
  rewrite length_insert in Hle.
  rewrite (holds_none x p) in Hi by done.
  rewrite (holds_some x (Reading _ _ _) 0) in Hi by (by destruct x).
  assert (forall q, holds x q <= 1) as H1 by (intros q; unfold holds; case_decide; lia).
  specialize (Hle H1). lia.
Qed.

Lemma holder_counted s t p g i a x :
  inv s -> threads s !! t = Some p -> permit p = Some (g, i, a) ->
  gates (mem s) g !! i = Some x -> (0 < cnt pw x)%Z.
Proof.
  intros I Ht Hp Hx. rewrite <- (count_of_lookup _ _ _ _ _ Hx).
  rewrite (proj1 (inv_counts _ I)) by (by eapply lookup_lt_Some).
  unfold holders. pose proof (sum_list_with_ge (holds (g, i)) _ _ _ Ht) as Hge.
  rewrite (holds_some _ p a) in Hge by done. lia.
Qed.

Lemma permit_in_range s t p g i a :
  inv s -> threads s !! t = Some p -> permit p = Some (g, i, a) ->
  exists x, gates (mem s) g !! i = Some x.
Proof.
  intros I Ht Hp. apply lookup_lt_is_Some_2. eapply (proj2 (inv_counts _ I)); [exact Ht|].
  apply counted_at_stripe. unfold counted. by rewrite Hp.
Qed.

(** Only a stripe out of range can stop a thread, and only by a panic. *)
Lemma thread_step_done s t a p :
  inv s -> (Z.of_nat (length (threads s)) <= Spec.max_count pw)%Z -> threads s !! t = Some p ->
  (forall i g, p = EnterAcquire i g -> i < length (gates (mem s) g)) ->
  exists o, thread_step pw t a p (mem s) = Done o.
Proof.
  intros I Hn Ht Hr. pose proof (inv_wf _ I) as Hw.
  destruct a, p; simpl; unfold lock, try_lock, unlock, go; try (repeat case_match; by eexists).
  - destruct (lookup_lt_is_Some_2 _ _ (Hr _ _ eq_refl)) as [x Hx]. rewrite Hx.
    destruct (try_acquire_done pw x) as [[r x'] ->]; [by eapply Hw| |by eexists].
    rewrite <- (count_of_lookup _ _ _ _ _ Hx), (proj1 (inv_counts _ I)) by auto.
    pose proof (holders_bound s t _ (g, stripe) I Ht eq_refl). lia.
  - destruct (permit_in_range s t _ _ _ _ I Ht eq_refl) as [x Hx]. rewrite Hx.
    pose proof (holder_counted s t _ _ _ _ _ I Ht eq_refl Hx).
    destruct (fast_release_done pw x) as [[r x'] ->]; [by eapply Hw|done|by eexists].
  - destruct (permit_in_range s t _ _ _ _ I Ht eq_refl) as [x Hx]. rewrite Hx.
    pose proof (holder_counted s t _ _ _ _ _ I Ht eq_refl Hx).
    destruct (release_done pw x) as [[r x'] ->]; [by eapply Hw|done|by eexists].
  - by apply rotate_step_done.
  - destruct (inv_thread _ I _ _ Ht) as [_ (_ & Hf & Hok & _)].
    apply call_done; [by eapply gate_step_done; [..|apply (inv_counts _ I)|]|]. by eexists.
Qed.

(** ** Permanence of the closure *)

Lemma closed_step s t a p p' m' :
  inv s -> threads s !! t = Some p -> closed (mem s) = true ->
  thread_step pw t a p (mem s) = Done (Some (p', m')) ->
  closed m' = true
  /\ forall g i, sealed_of pw (mem s) g i = true -> sealed_of pw m' g i = true.
Proof.
  intros I Ht Hcl E. pose proof (inv_wf _ I) as Hw. destruct (inv_thread _ I _ _ Ht) as [_ Hok].
  destruct a, p; try discriminate E;
    try (by simpl in E; unfold go, lock, unlock, try_lock in E; repeat case_match; simplify_eq);
    try (by destruct (reader_step_calm _ _ _ _ _ Hw E) as ((_ & _ & -> & _) & Hs & _);
         split; [done|]; intros g' i'; rewrite Hs).
  - exfalso. simpl in Hok. destruct ph; simpl in Hok; unfold unpublished, published in Hok;
      destruct_and!; congruence.
  - simpl in E. apply call_inv in E as (q & E & _). destruct Hok as (_ & Hf & _).
    destruct (gate_step_frame _ _ _ _ _ _ _ E) as ((_ & _ & -> & _) & _).
    destruct (gate_step_sealed _ _ _ _ _ _ Hw E) as [Hoth Hmono]. split; [done|].
    intros g' i Hs. destruct (decide (g' = g)) as [->|Hg]; [|by rewrite Hoth].
    apply Hmono; [|done]. by destruct c; destruct Hf.
Qed.

Lemma closure_step s s' :
  inv s -> closure_ok (mem s) (threads s) -> steps pw s s' -> closure_ok (mem s') (threads s').
Proof.
  intros I (Hcl & H0 & H1) (t & a & E). unfold step in E.
  destruct (threads s !! t) as [p|] eqn:Ht; [|done].
  destruct (thread_step pw t a p (mem s)) as [[[p' m']|]| |] eqn:Et; simplify_eq/=.
  destruct (closed_step _ _ _ _ _ _ I Ht Hcl Et) as [Hcl' Hs].
  pose proof (thread_step_moved _ _ _ _ _ _ _ (inv_wf _ I) Et) as M.
  split_and!; [done|..]; intros i.
  - by apply (quiet_moved t p (mem s) p' m' (threads s) Gen0 i M Ht (Hs _ _)).
  - by apply (quiet_moved t p (mem s) p' m' (threads s) Gen1 i M Ht (Hs _ _)).
Qed.

Lemma closure_rtc s s' :
  inv s -> closure_ok (mem s) (threads s) -> rtc (steps pw) s s' ->
  inv s' /\ closure_ok (mem s') (threads s').
Proof.
  intros I Hc R. induction R as [|s s1 s2 H1 _ IH]; [done|]. apply IH.
  - destruct H1 as (t & a & E). by eapply domain_inv_step.
  - by eapply closure_step.
Qed.

(** ** Custody of retired payloads *)

Definition custody (s : config) : list record :=
  queues (mem s) Gen0 ++ queues (mem s) Gen1 ++ (threads s ≫= carried).

(** Payloads a step registers, and batches it lets go of. *)
Definition registered m (p : pc) : list record :=
  match p with RegAppend ps _ => (fun x => (x, clock m)) <$> ps | _ => [] end.
Definition released (p : pc) : list record :=
  match p with Returned o => mjoin (result_batches o) | _ => [] end.

Lemma bind_insert ts t p p' :
  ts !! t = Some p ->
  (<[t := p']> ts ≫= carried) ++ carried p ≡ₚ (ts ≫= carried) ++ carried p'.
Proof.
  revert t. induction ts as [|q ts IH]; intros [|t] H; simplify_eq/=.
  - solve_Permutation.
  - rewrite <- !app_assoc, (IH _ H). done.
Qed.

(** Blocking rotations never give up, and only they carry batches over. *)
Definition shape (p : pc) : Prop :=
  match p with
  | Rotate r ph =>
      if is_blocking (rmode r) then
        match ph with
        | FailedBarrier => False
        | SealOld c => family_of c = FSeal
        | Wait c => family_of c = FSeal \/ family_of c = FWait
        | _ => True
        end
      else got r = [] /\ more r = false
  | _ => True
  end.

Lemma blocking_call_succeeds t g c m b m' :
  family_of c = FSeal \/ family_of c = FWait ->
  gate_step pw t g c m = Done (Some (Ret b, m')) -> b = true.
Proof.
  intros Hf E. destruct c; try (by destruct Hf); cbn [gate_step] in E; unfold go, lock, unlock in E;
    split_step E; by repeat case_match; simplify_eq.
Qed.

Lemma rotate_step_shape t r ph m p' m' :
  shape (Rotate r ph) -> rotate_step pw t r ph m = Done (Some (p', m')) ->
  shape p' /\ (p' = TransitionUnlock Busy -> got r = []).
Proof.
  intros Hs E. destruct r as [md o bs again]. simpl in Hs.
  assert (Hgot : is_blocking md = false -> bs = [] /\ again = false) by (by destruct md).
  destruct ph; simpl in E; unfold go, unlock in E; try (injection E as <- <-);
    try (apply call_inv in E as (q & E & Hq)).
  - destruct md; simpl in *; [apply lock_inv in E|apply try_lock_inv in E..];
      destruct_or?; destruct_and?; by subst.
  - destruct q as [c'|[]]; simplify_eq; destruct md; simpl in *; destruct_and?; by subst.
  - destruct q as [c'|b]; [subst; apply gate_step_family in E; destruct md; simpl in *; by rewrite ?E|].
    injection Hq as <-. destruct md; simpl in *; [|destruct Hs as [-> ->]; by destruct b..].
    apply blocking_call_succeeds in E; [by subst|by left].
  - destruct md; simpl in *; destruct_and?; by subst.
  - destruct md; simpl in *; destruct_and?; by subst.
  - destruct q as [c'|[]]; simplify_eq; destruct md; simpl in *; destruct_and?; by subst.
  - destruct md; simpl in *; (split; [by auto|done]).
  - destruct q as [c'|b]; [subst; apply gate_step_family in E; destruct md; simpl in *; by rewrite ?E|].
    injection Hq as <-. destruct md; simpl in *.
    + apply blocking_call_succeeds in E as ->; [|done].
      destruct (sealing c); (split; [simpl; by auto|done]).
    + destruct Hs as [-> ->]. by destruct (sealing c), b.
    + destruct Hs as [-> ->]. by destruct (sealing c), b.
  - apply lock_inv in E as (_ & -> & ->). destruct md; simpl in *; destruct_and?; by subst.
  - destruct md; simpl in *; destruct_and?; by subst.
  - destruct md; simpl in *; destruct_and?; by subst.
  - destruct again; [|done]. destruct md; [done|by destruct Hgot..].
Qed.

Lemma thread_step_shape t a p m p' m' :
  shape p -> thread_step pw t a p m = Done (Some (p', m')) -> shape p'.
Proof.
  intros Hs E. destruct a, p; try discriminate E;
    try (by simpl in E; unfold go, lock, unlock, try_lock, obind in E; repeat case_match; simplify_eq).
  - simpl in E. unfold go in E. injection E as <- <-. destruct (pending m), md; simpl; by auto.
  - by eapply rotate_step_shape.
  - simpl in E. apply call_inv in E as (q & _ & Hq).
    destruct q as [c'|b]; [by subst|injection Hq as <-]. by destruct (sealing c), g.
Qed.

Lemma shape_reachable stripes n s t p :
  reachable pw stripes n s -> threads s !! t = Some p -> shape p.
Proof.
  intros H. unfold reachable in H. remember (initial pw stripes n) as s0 eqn:E0.
  assert (H0 : forall t p, threads s0 !! t = Some p -> shape p).
  { subst. intros t' p' [-> _]%lookup_replicate. done. }
  clear E0. revert t p. induction H as [s|s s1 s2 (t & a & E) _ IH]; [done|].
  apply IH. intros t' p' Ht'. unfold step in E. destruct (threads s !! t) as [p|] eqn:Ht; [|done].
  destruct (thread_step pw t a p (mem s)) as [[[q m]|]| |] eqn:Et; simplify_eq/=.
  apply list_lookup_insert_Some in Ht' as [(-> & <- & _)|[_ ?]]; [|by eapply H0].
  eapply thread_step_shape; [by eapply H0|exact Et].
Qed.

(** A step moves records between the queues and the threads' hands, and
    neither drops nor copies any. *)
Lemma rotate_step_custody t r ph m p' m' :
  shape (Rotate r ph) -> rotate_step pw t r ph m = Done (Some (p', m')) ->
  queues m' Gen0 ++ queues m' Gen1 ++ carried p'
  ≡ₚ queues m Gen0 ++ queues m Gen1 ++ carried (Rotate r ph).
Proof.
  intros Hs E. pose proof (rotate_step_shape _ _ _ _ _ _ Hs E) as [_ Hg].
  assert (Hplain : forall q, queues m' = queues m -> p' = q -> carried q = carried (Rotate r ph) ->
            queues m' Gen0 ++ queues m' Gen1 ++ carried p'
            ≡ₚ queues m Gen0 ++ queues m Gen1 ++ carried (Rotate r ph)) by (by intros q -> -> ->).
  assert (Hbusy : queues m' = queues m -> p' = TransitionUnlock Busy ->
            (carried (Rotate r ph) = mjoin (got r)) ->
            queues m' Gen0 ++ queues m' Gen1 ++ carried p'
            ≡ₚ queues m Gen0 ++ queues m Gen1 ++ carried (Rotate r ph)).
  { intros Eq Ep Ec. apply (Hplain (TransitionUnlock Busy)); [done..|]. by rewrite Ec, Hg. }
  destruct ph; simpl in E; unfold go, unlock in E;
    try (injection E as Ep' <-); try (apply call_inv in E as (q & E & Hq);
      apply gate_step_frame in E as ((_ & _ & _ & Eq & _) & _)).
  - destruct (rmode r); [apply lock_inv in E|apply try_lock_inv in E..];
      destruct_or?; destruct_and?; subst; first [by eapply Hplain|by apply Hbusy].
  - destruct q as [c'|[]]; simplify_eq; by eapply Hplain.
  - destruct q as [c'|b]; [subst; by eapply Hplain|injection Hq as <-]. destruct b; by eapply Hplain.
  - by apply Hbusy.
  - by eapply Hplain.
  - destruct q as [c'|[]]; simplify_eq; by eapply Hplain.
  - by eapply Hplain.
  - destruct q as [c'|b]; [subst; by eapply Hplain|injection Hq as Ep'].
    destruct (sealing c), b; subst p'; first [by eapply Hplain|by apply Hbusy].
  - apply lock_inv in E as (_ & -> & ->). by eapply Hplain.
  - subst p'. simpl. destruct (old r).
    + rewrite fn_lookup_insert, fn_lookup_insert_ne by done. simpl. solve_Permutation.
    + rewrite fn_lookup_insert, fn_lookup_insert_ne by done. simpl. solve_Permutation.
  - by eapply Hplain.
  - assert (Hj : mjoin (got r ++ [b]) = mjoin (got r) ++ b).
    { rewrite join_app. simpl. by rewrite app_nil_r. }
    destruct (more r); subst p'; simpl; by rewrite Hj.
Qed.

Lemma thread_step_custody t a p m p' m' :
  shape p -> thread_step pw t a p m = Done (Some (p', m')) ->
  queues m' Gen0 ++ queues m' Gen1 ++ carried p' ++ released p
  ≡ₚ queues m Gen0 ++ queues m Gen1 ++ carried p ++ registered m p.
Proof.
  intros Hs E. destruct a, p; try discriminate E.
  all: try (simpl in E; unfold go, lock, unlock, try_lock, obind in E; repeat case_match;
            simplify_eq/=; rewrite ?app_nil_r; done).
  - simpl in E. unfold go in E. injection E as <- <-. simpl. destruct g;
      rewrite fn_lookup_insert, fn_lookup_insert_ne by done; simpl; solve_Permutation.
  - simpl released. simpl registered. rewrite !app_nil_r. by apply (rotate_step_custody t).
  - simpl in E. apply call_inv in E as (q & E & Hq).
    apply gate_step_frame in E as ((_ & _ & _ & -> & _) & _). simpl.
    destruct q as [c'|b]; [by subst|injection Hq as <-]. by destruct (sealing c), g.
  - simpl in E. unfold go in E. injection E as <- <-. cbn [set_queue queues].
    rewrite fn_lookup_insert, fn_lookup_insert_ne by done. simpl. solve_Permutation.
  - simpl in E. unfold go in E. injection E as <- <-. cbn [set_queue queues].
    rewrite fn_lookup_insert, fn_lookup_insert_ne by done. simpl. solve_Permutation.
Qed.

End Invariant.

End RotatingInvariant.
