(* ===== verification/RotatingTheorems.v ===== *)
(** * Properties of the rotating read domain

    The theorems about every interleaving of readers, registrations,
    rotations and closure, with the runs that witness them. *)

From stdpp Require Import functions.
From S2P Require Import Prelude SealableCounter RotatingDomain RotatingGates RotatingInvariant.
Import SealableCounter.Counter.

Module RotatingTheorems.
Import Rotating RotatingGates RotatingInvariant.

Lemma schedule_steps pw moves : forall s s',
  schedule pw moves s = Done (Some s') -> rtc (steps pw) s s'.
Proof.
  induction moves as [|[t a] moves IH]; intros s s' E; simpl in E; [by simplify_eq|].
  destruct (step pw t a s) as [[s1|]| |] eqn:Es; simplify_eq/=.
  eapply rtc_l; [by exists t, a|]. by apply IH.
Qed.

(** A run: thread 1 reads in generation 0 while thread 0 registers payload 7
    and polls; the reader leaves and reads again in generation 1; a second
    poll returns the payload. *)
Definition reading : list (nat * action) := (1, Enter 0) :: replicate 3 (1, Run).
Definition polled : list (nat * action) :=
  reading ++ (0, Register [7]) :: replicate 5 (0, Run)
  ++ (0, Request (Quiesce Polling)) :: replicate 33 (0, Run).
Definition collected : list (nat * action) :=
  polled ++ replicate 4 (1, Run) ++ (1, Enter 1) :: replicate 3 (1, Run)
  ++ (0, Request (Quiesce Polling)) :: replicate 15 (0, Run).
(** The same, closed for good instead of polled again. *)
Definition shut : list (nat * action) :=
  polled ++ replicate 4 (1, Run) ++ (0, Request SealAndWait) :: replicate 19 (0, Run).

Definition after (moves : list (nat * action)) : config :=
  match schedule W32 moves (initial W32 2 2) with Done (Some s) => s | _ => initial W32 2 2 end.

Definition runs (moves : list (nat * action)) : bool :=
  match schedule W32 moves (initial W32 2 2) with Done (Some _) => true | _ => false end.

Lemma after_schedule moves :
  runs moves = true -> schedule W32 moves (initial W32 2 2) = Done (Some (after moves)).
Proof. unfold runs, after. by destruct (schedule _ _ _) as [[s|]| |]. Qed.

Lemma after_reachable moves : runs moves = true -> reachable W32 2 2 (after moves).
Proof. intros H. by eapply schedule_steps, after_schedule. Qed.

Lemma schedule_app pw l k : forall s,
  schedule pw (l ++ k) s
  = let* o := schedule pw l s in match o with Some s' => schedule pw k s' | None => Done None end.
Proof.
  induction l as [|[t a] l IH]; intros s; [done|]. simpl.
  destruct (step pw t a s) as [[s1|]| |]; simpl; [apply IH|done..].
Qed.

(** Continuing a run. *)
Lemma after_extends moves more :
  runs moves = true -> runs (moves ++ more) = true ->
  schedule W32 more (after moves) = Done (Some (after (moves ++ more))).
Proof.
  intros H1%after_schedule H2%after_schedule. rewrite schedule_app, H1 in H2. exact H2.
Qed.

Lemma after_step moves t a :
  runs moves = true -> runs (moves ++ [(t, a)]) = true ->
  step W32 t a (after moves) = Done (Some (after (moves ++ [(t, a)]))).
Proof.
  intros H1 H2. pose proof (after_extends moves [(t, a)] H1 H2) as E. simpl in E.
  by destruct (step W32 t a (after moves)) as [[s|]| |].
Qed.

(** C8: reclamation safety of the retirement domain.  In every interleaving,
    whenever a thread has records detached from a queue in its hands, every
    reader permit outstanding anywhere was admitted after the record was
    registered; and once the call has returned the batch, the thread holds
    none of the domain's mutexes. *)
Theorem retired_payloads_outlive_their_readers (pw : pointer_width) (stripes n t : nat)
    (s : config) (p : pc) (x : record) :
  reachable pw stripes n s -> threads s !! t = Some p -> x ∈ carried p ->
  (forall t' p' g i a, threads s !! t' = Some p' -> permit p' = Some (g, i, a) -> x.2 < a)
  /\ (forall o, p = Returned o -> forall l, locks (mem s) l <> Some t).
Proof.
  intros [I _]%domain_inv_reachable Ht Hx. split.
  - by apply (inv_detached _ _ I _ _ _ Ht Hx).
  - intros o -> l Hl. apply (inv_lock _ _ I _ _ _ Ht) in Hl. by destruct l as [|[]|[]].
Qed.

Lemma retired_payloads_outlive_their_readers_witness :
  threads (after collected) = [Returned (Batches [[(7, 8)]]); Reading Gen1 1 51] /\ 8 < 51.
Proof.
  split; [vm_compute; reflexivity|].
  apply (proj1 (retired_payloads_outlive_their_readers W32 2 2 0 (after collected)
           (Returned (Batches [[(7, 8)]])) (7, 8)
           (after_reachable collected ltac:(vm_compute; reflexivity))
           ltac:(vm_compute; reflexivity)
           ltac:(simpl; apply elem_of_cons; left; reflexivity))
           1 (Reading Gen1 1 51) Gen1 1 51); vm_compute; reflexivity.
Defined.

(** at most one generation admits readers, and it is the published one:
    a stripe that is not sealed belongs to the current generation, whatever
    transition is running.  While no transition runs and the domain is open,
    every stripe of the current generation admits, also after an idle-only
    attempt was rolled back. *)
Theorem one_generation_admits (pw : pointer_width) (stripes n : nat) (s : config) :
  reachable pw stripes n s ->
  (forall g i c, gates (mem s) g !! i = Some c -> is_sealed pw c = false -> g = current (mem s))
  /\ (locks (mem s) LTransition = None -> closed (mem s) = false ->
      forall i c, gates (mem s) (current (mem s)) !! i = Some c -> is_sealed pw c = false).
Proof.
  intros [I _]%domain_inv_reachable. split.
  - intros g i c Hc Hs. destruct (decide (g = current (mem s))) as [|Hne]; [done|].
    assert (g = flip (current (mem s))) as -> by (destruct g, (current (mem s)); done).
    pose proof (inv_sealed _ _ I i) as Hsi. rewrite (sealed_of_lookup _ _ _ _ _ Hc) in Hsi. congruence.
  - intros Hl Hcl i c Hc.
    pose proof (inv_open _ _ I Hl Hcl i Logic.I (lookup_lt_Some _ _ _ Hc)) as Ho.
    by rewrite (sealed_of_lookup _ _ _ _ _ Hc) in Ho.
Qed.

Lemma one_generation_admits_witness :
  current (mem (after polled)) = Gen1
  /\ forall i c, gates (mem (after polled)) Gen1 !! i = Some c -> is_sealed W32 c = false.
Proof.
  split; [vm_compute; reflexivity|].
  apply (proj2 (one_generation_admits W32 2 2 (after polled)
           (after_reachable polled ltac:(vm_compute; reflexivity)))); vm_compute; reflexivity.
Defined.

(** C30: closing is final.  Once a caller's [seal_and_wait] has returned (or it
    is taking the queues), in that and every later state the domain is closed,
    every stripe of both generations is sealed with count zero, and no thread
    holds a permit or is inside a release. *)
Theorem closure_is_permanent (pw : pointer_width) (stripes n t : nat) (s s' : config) (p : pc) :
  reachable pw stripes n s -> threads s !! t = Some p -> saw_closure p = true ->
  rtc (steps pw) s s' ->
  closed (mem s') = true
  /\ (forall g i c, gates (mem s') g !! i = Some c -> is_sealed pw c = true /\ active pw c = 0%Z)
  /\ (forall t' p', threads s' !! t' = Some p' -> at_stripe p' = None).
Proof.
  intros [I _]%domain_inv_reachable Ht Hp R. pose proof (proj1 (inv_thread _ _ I _ _ Ht) Hp) as Hc.
  destruct (closure_rtc _ _ _ I Hc R) as [I' (Hcl & H0 & H1)].
  assert (Hq : forall g, quiet_all pw (mem s') (threads s') g) by (by intros []).
  split_and!; [done|..].
  - intros g i c Hx. destruct (Hq g i) as [Hs Hn%nobody_unheld].
    rewrite (sealed_of_lookup _ _ _ _ _ Hx) in Hs. split; [done|].
    rewrite active_cnt by (by eapply (inv_wf _ _ I')).
    rewrite <- (count_of_lookup _ _ _ _ _ Hx).
    apply (count_zero_unheld pw (mem s') (threads s')); [apply (inv_counts _ _ I')| |done].
    by eapply lookup_lt_Some.
  - intros t' p' Ht'. destruct (at_stripe p') as [[g i]|] eqn:E; [|done].
    by destruct (proj2 (Hq g i) _ _ Ht').
Qed.

Lemma closure_is_permanent_witness :
  threads (after shut) = [Returned ClosedRetirement; Idle]
  /\ closed (mem (after (shut ++ [(1, Enter 0); (1, Run)]))) = true.
Proof.
  split; [vm_compute; reflexivity|].
  destruct (closure_is_permanent W32 2 2 0 (after shut)
              (after (shut ++ [(1, Enter 0); (1, Run)])) (Returned ClosedRetirement)) as [H _];
    [| | | |exact H].
  - apply after_reachable. vm_compute. reflexivity.
  - vm_compute. reflexivity.
  - reflexivity.
  - eapply schedule_steps, after_extends; vm_compute; reflexivity.
Defined.

(** No interleaving makes a rotation fail-stop.  With fewer threads than a
    counter can count, no step aborts the process: the replacement generation
    is always drained when a rotation begins, its reopening is never refused,
    and the rollback of an idle seal always succeeds. *)
Theorem rotation_never_fail_stops (pw : pointer_width) (stripes n t : nat) (a : action)
    (s : config) :
  (Z.of_nat n <= Spec.max_count pw)%Z -> reachable pw stripes n s ->
  (forall i g, threads s !! t = Some (EnterAcquire i g) -> i < length (gates (mem s) g)) ->
  exists o, step pw t a s = Done o.
Proof.
  intros Hn [I Hl]%domain_inv_reachable Hr. unfold step.
  destruct (threads s !! t) as [p|] eqn:Ht; [|by eexists].
  destruct (thread_step_done pw s t a p I) as [o ->]; [by rewrite Hl|done| |by eexists].
  intros i g ->. by apply Hr.
Qed.

Lemma rotation_never_fail_stops_witness :
  exists o, step W32 0 Run (after (take 30 polled)) = Done o.
Proof.
  apply (rotation_never_fail_stops W32 2 2 0 Run (after (take 30 polled))).
  - vm_compute. discriminate.
  - apply after_reachable. vm_compute. reflexivity.
  - intros i g H. vm_compute in H. discriminate H.
Defined.

(** No retired payload is lost or duplicated.  A step only moves records
    between the two queues and the batches in the threads' hands; it adds
    exactly what a registration appends, and what leaves is the result a
    caller drops. *)
Theorem retirement_conserves_payloads (pw : pointer_width) (stripes n t : nat) (a : action)
    (s s' : config) (p : pc) :
  reachable pw stripes n s -> threads s !! t = Some p -> step pw t a s = Done (Some s') ->
  custody s' ++ released p ≡ₚ custody s ++ registered (mem s) p.
Proof.
  intros Hr Ht E. pose proof (shape_reachable _ _ _ _ _ _ Hr Ht) as Hs. unfold step in E.
  rewrite Ht in E.
  destruct (thread_step pw t a p (mem s)) as [[[p' m']|]| |] eqn:Et; simplify_eq/=.
  apply thread_step_custody in Et; [|done]. pose proof (bind_insert _ _ _ p' Ht) as Hb.
  unfold custody. simpl.
  apply (Permutation_app_inv_r (carried p)). rewrite <- !app_assoc.
  rewrite (Permutation_app_comm (released p)), (app_assoc _ (carried p)), Hb.
  transitivity ((threads s ≫= carried)
    ++ (queues m' Gen0 ++ queues m' Gen1 ++ carried p' ++ released p)); [solve_Permutation|].
  rewrite Et. solve_Permutation.
Qed.

Lemma retirement_conserves_payloads_witness :
  registered (mem (after (take 8 polled))) (RegAppend [7] Gen0) = [(7, 8)]
  /\ custody (after (take 8 polled ++ [(0, Run)])) ++ released (RegAppend [7] Gen0)
     ≡ₚ custody (after (take 8 polled))
        ++ registered (mem (after (take 8 polled))) (RegAppend [7] Gen0).
Proof.
  split; [vm_compute; reflexivity|].
  apply (retirement_conserves_payloads W32 2 2 0 Run (after (take 8 polled))
           (after (take 8 polled ++ [(0, Run)])) (RegAppend [7] Gen0)).
  - apply after_reachable. vm_compute. reflexivity.
  - vm_compute. reflexivity.
  - apply after_step; vm_compute; reflexivity.
Defined.

End RotatingTheorems.
