(* ===== verification/Names.v ===== *)
(** * Names and execution modes shared by macros, runtime and packaging

    Models crates/xlfn-common/src/lib.rs: the ABI codes, the execution modes
    and the validation of Excel strings, function names, argument names and
    Windows basenames.  A [str] is its list of Unicode scalar values; byte
    views go through the UTF-8 encoding and slicing at a byte that is not a
    character boundary panics, as in Rust. *)

From S2P Require Import Prelude SealableCounter.

Local Open Scope Z_scope.

(** ** Characters and strings of the Rust standard library *)
Module Str.

Definition char : Type := Z.
Definition str : Type := list char.

Definition lit (s : string) : str :=
  (fun a => Z.of_nat (Ascii.nat_of_ascii a)) <$> String.list_ascii_of_string s.

Definition between (a b c : Z) : bool := (a <=? c) && (c <=? b).

Definition is_scalar (c : char) : bool := between 0 0xD7FF c || between 0xE000 0x10FFFF c.

Definition is_ascii (c : char) : bool := c <? 128.
Definition is_ascii_uppercase (c : char) : bool := between 65 90 c.
Definition is_ascii_lowercase (c : char) : bool := between 97 122 c.
Definition is_ascii_alphabetic (c : char) : bool :=
  is_ascii_uppercase c || is_ascii_lowercase c.
Definition is_ascii_digit (c : char) : bool := between 48 57 c.
Definition to_ascii_uppercase (c : char) : char :=
  if is_ascii_lowercase c then c - 32 else c.

(** [char::is_whitespace]: the Unicode White_Space property. *)
Definition is_whitespace (c : char) : bool :=
  between 0x9 0xD c || (c =? 0x20) || (c =? 0x85) || (c =? 0xA0) || (c =? 0x1680)
  || between 0x2000 0x200A c || (c =? 0x2028) || (c =? 0x2029) || (c =? 0x202F)
  || (c =? 0x205F) || (c =? 0x3000).

(** [char::is_control]: the general category Cc. *)
Definition is_control (c : char) : bool := between 0 0x1F c || between 0x7F 0x9F c.

Definition len_utf8 (c : char) : nat :=
  if c <? 0x80 then 1 else if c <? 0x800 then 2 else if c <? 0x10000 then 3 else 4.

Definition encode_utf8 (c : char) : list Z :=
  if c <? 0x80 then [c]
  else if c <? 0x800 then [Z.lor 0xC0 (Z.shiftr c 6); Z.lor 0x80 (Z.land c 0x3F)]
  else if c <? 0x10000 then
    [Z.lor 0xE0 (Z.shiftr c 12); Z.lor 0x80 (Z.land (Z.shiftr c 6) 0x3F);
     Z.lor 0x80 (Z.land c 0x3F)]
  else
    [Z.lor 0xF0 (Z.shiftr c 18); Z.lor 0x80 (Z.land (Z.shiftr c 12) 0x3F);
     Z.lor 0x80 (Z.land (Z.shiftr c 6) 0x3F); Z.lor 0x80 (Z.land c 0x3F)].

Definition bytes (s : str) : list Z := s ≫= encode_utf8.

Definition len_utf16 (c : char) : Z := if c <? 0x10000 then 1 else 2.

(** [value.encode_utf16().count()]. *)
Definition utf16_count (s : str) : Z := foldr (fun c n => len_utf16 c + n) 0 s.

(** [str::split_at] at a byte offset. *)
Fixpoint split_at (s : str) (mid : nat) : outcome (str * str) :=
  match mid with
  | O => Done ([], s)
  | _ =>
      match s with
      | [] => Panicked
      | c :: s' =>
          if (len_utf8 c <=? mid)%nat
          then let* (a, b) := split_at s' (mid - len_utf8 c) in Done (c :: a, b)
          else Panicked
      end
  end.

Fixpoint take_while {A} (f : A -> bool) (l : list A) : list A :=
  match l with
  | [] => []
  | x :: l => if f x then x :: take_while f l else []
  end.

Definition contains (f : char -> bool) (s : str) : bool := existsb f s.

Definition str_eqb (a b : str) : bool := bool_decide (a = b).

Definition eq_ignore_ascii_case (a b : str) : bool :=
  str_eqb (to_ascii_uppercase <$> a) (to_ascii_uppercase <$> b).

End Str.

(** ** ABI codes and execution modes *)
Module Modes.
Import Str.

Inductive ReturnAbi : Type := RValue12 | RNumericArray12.

Definition return_registration_code (a : ReturnAbi) : str :=
  match a with RValue12 => lit "Q" | RNumericArray12 => lit "K%" end.

Inductive ArgumentAbi : Type :=
| Value12 | Reference12 | Float64 | Boolean16 | Integer32 | CountedUtf16 | NumericArray12.

Definition registration_code (a : ArgumentAbi) : str :=
  match a with
  | Value12 => lit "Q"
  | Reference12 => lit "U"
  | Float64 => lit "B"
  | Boolean16 => lit "A"
  | Integer32 => lit "J"
  | CountedUtf16 => lit "D%"
  | NumericArray12 => lit "K%"
  end.

Inductive ExecutionKind : Type := MainThread | ThreadSafe | MacroSheet | Async.

Definition is_async (e : ExecutionKind) : bool := match e with Async => true | _ => false end.
Definition allows_reference_arguments (e : ExecutionKind) : bool :=
  match e with MacroSheet => true | _ => false end.
Definition is_thread_safe (e : ExecutionKind) : bool :=
  match e with ThreadSafe | Async => true | _ => false end.

Definition MAX_EXCEL_FUNCTION_ARGUMENTS : Z := 255.
Definition EXCEL_STRING_LIMIT : Z := 32767.
Definition EXCEL_FUNCTION_NAME_LIMIT : Z := 255.

Definition max_excel_function_arguments (e : ExecutionKind) : Z :=
  if is_async e then MAX_EXCEL_FUNCTION_ARGUMENTS - 1 else MAX_EXCEL_FUNCTION_ARGUMENTS.

End Modes.

(** ** Excel counted strings *)
Module ExcelString.
Import Str Modes.

Inductive ExcelStringError : Type := TooLong | Nul.

Definition validate_excel_string (value : str) : result unit ExcelStringError :=
  if EXCEL_STRING_LIMIT <? utf16_count value then Err TooLong
  else if contains (fun c => c =? 0) value then Err Nul
  else Ok tt.

End ExcelString.

(** ** Function names *)
Module FunctionName.
Import Str Modes.

Inductive FunctionNameError : Type :=
| Empty | TooLong | InvalidStart | InvalidCharacter | ReservedName | CellReference.

Definition is_function_name_start (c : char) : bool :=
  is_ascii_alphabetic c || (c =? 95) || (c =? 92)
  || (negb (is_ascii c) && negb (is_whitespace c) && negb (is_control c)).

Definition EXCEL_GRID_ROWS : Z := 1048576.
Definition EXCEL_GRID_COLUMNS : Z := 16384.

Definition UNICODE_DECIMAL_ZEROES : list Z :=
  [0x0030; 0x0660; 0x06F0; 0x07C0; 0x0966; 0x09E6; 0x0A66; 0x0AE6; 0x0B66; 0x0BE6; 0x0C66; 0x0CE6;
   0x0D66; 0x0E50; 0x0ED0; 0x0F20; 0x1040; 0x1090; 0x17E0; 0x1810; 0x1946; 0x19D0; 0x1B50; 0x1BB0;
   0x1C40; 0x1C50; 0xA620; 0xA8D0; 0xA900; 0xAA50; 0xFF10; 0x104A0; 0x1D7CE; 0x1D7D8; 0x1D7E2;
   0x1D7EC; 0x1D7F6].

Fixpoint find_digit (zeroes : list Z) (codepoint : Z) : option Z :=
  match zeroes with
  | [] => None
  | zero :: zeroes =>
      match checked_sub codepoint zero with
      | Some difference =>
          if difference <? 10 then Some difference else find_digit zeroes codepoint
      | None => find_digit zeroes codepoint
      end
  end.

Definition unicode_decimal_digit (c : char) : option Z := find_digit UNICODE_DECIMAL_ZEROES c.

(** The loop of [is_grid_index], from the index accumulated so far. *)
Fixpoint grid_index_loop (text : str) (limit index : Z) : option Z :=
  match text with
  | [] => Some index
  | c :: text =>
      match unicode_decimal_digit c with
      | None => None
      | Some digit =>
          match checked_mul 32 index 10 ≫= (fun i => checked_add 32 i digit) with
          | Some next => if next <=? limit then grid_index_loop text limit next else None
          | None => None
          end
      end
  end.

Definition is_grid_index (text : str) (limit : Z) : bool :=
  match grid_index_loop text limit 0 with
  | Some index => negb (index =? 0)
  | None => false
  end.

(** One step of the column fold: [u8] arithmetic for the letter, [u32] for the
    column. *)
Definition column_step (column byte : Z) : Z :=
  wrapping_add 32 (wrap 32 (column * 26))
    (wrapping_add 8 (wrapping_sub 8 (to_ascii_uppercase byte) 65) 1).

Definition is_a1_reference (name : str) : outcome bool :=
  let column_end := length (take_while is_ascii_alphabetic (bytes name)) in
  if (column_end =? 0)%nat || (3 <? column_end)%nat then Done false
  else
    let* (column_text, row_text) := split_at name column_end in
    let column := foldl column_step 0 (bytes column_text) in
    Done ((column <=? EXCEL_GRID_COLUMNS) && forallb is_ascii row_text
          && is_grid_index row_text EXCEL_GRID_ROWS).

Definition is_r1c1_reference (name : str) : outcome bool :=
  match bytes name with
  | [] => Done false
  | first :: _ =>
      let upper := to_ascii_uppercase first in
      if negb ((upper =? 82) || (upper =? 67)) then Done false
      else
        let '(first_limit, second_axis, second_limit) :=
          if upper =? 82 then (EXCEL_GRID_ROWS, 67, EXCEL_GRID_COLUMNS)
          else (EXCEL_GRID_COLUMNS, 82, EXCEL_GRID_ROWS) in
        let* (_, rest) := split_at name 1 in
        let digits := take_while (fun c => bool_decide (is_Some (unicode_decimal_digit c))) rest in
        let first_end := (1 + sum_list_with len_utf8 digits)%nat in
        let* (head, tail) := split_at name first_end in
        let* (_, first_text) := split_at head 1 in
        if (first_end =? length (bytes name))%nat then Done (is_grid_index first_text first_limit)
        else
          match bytes name !! first_end with
          | None => Panicked
          | Some b =>
              if negb (to_ascii_uppercase b =? second_axis) then Done false
              else
                let* (_, second_text) := split_at name (S first_end) in
                let relative_allowed := upper =? 82 in
                Done ((is_grid_index first_text first_limit
                       || (relative_allowed && bool_decide (first_text = [])))
                      && (is_grid_index second_text second_limit
                          || (relative_allowed && bool_decide (second_text = []))))
          end
  end.

Definition reserved_names : list str := [lit "C"; lit "R"; lit "TRUE"; lit "FALSE"].

Definition validate_function_name (name : str) : outcome (result unit FunctionNameError) :=
  match name with
  | [] => Done (Err Empty)
  | first :: characters =>
      if EXCEL_FUNCTION_NAME_LIMIT <? utf16_count name then Done (Err TooLong)
      else if negb (is_function_name_start first) then Done (Err InvalidStart)
      else if negb (forallb (fun c => is_function_name_start c || is_ascii_digit c
                                      || (c =? 46) || (c =? 63)) characters)
      then Done (Err InvalidCharacter)
      else if existsb (fun reserved => eq_ignore_ascii_case name reserved) reserved_names
      then Done (Err ReservedName)
      else
        let* a1 := is_a1_reference name in
        let* reference := (if a1 : bool then Done true else is_r1c1_reference name) in
        Done (if reference : bool then Err CellReference else Ok tt)
  end.

End FunctionName.

(** ** Argument names *)
Module ArgumentName.
Import Str Modes.

Inductive ArgumentNameError : Type := Empty | ReservedCharacter | TooLong | CombinedTooLong.

Definition validate_argument_name (name : str) : result unit ArgumentNameError :=
  if bool_decide (name = []) then Err Empty
  else if contains (fun c => (c =? 44) || (c =? 0) || (c =? 13) || (c =? 10)) name
  then Err ReservedCharacter
  else if EXCEL_STRING_LIMIT <? utf16_count name then Err TooLong
  else Ok tt.

Fixpoint first_error (names : list str) : result unit ArgumentNameError :=
  match names with
  | [] => Ok tt
  | name :: names =>
      match validate_argument_name name with
      | Ok _ => first_error names
      | Err e => Err e
      end
  end.

Definition validate_argument_names (pw : pointer_width) (names : list str)
  : result unit ArgumentNameError :=
  match first_error names with
  | Err e => Err e
  | Ok _ =>
      let sum := foldl (saturating_add (bits pw)) 0 (utf16_count <$> names) in
      let joined_utf16_len :=
        saturating_add (bits pw) sum (saturating_sub (Z.of_nat (length names)) 1) in
      if EXCEL_STRING_LIMIT <? joined_utf16_len then Err CombinedTooLong else Ok tt
  end.

End ArgumentName.

(** ** Windows basenames *)
Module Basename.
Import Str.

Inductive WindowsBasenameError : Type :=
| Empty | DotPath | NonAscii | TrailingSpace | TrailingPeriod | ControlCharacter
| ReservedCharacter | ReservedDeviceName.

(** The characters less-than, greater-than, colon, quote, slash, backslash,
    bar, question mark and star. *)
Definition reserved_characters : list char := [60; 62; 58; 34; 47; 92; 92; 124; 63; 42].

Definition ends_with (c : char) (s : str) : bool :=
  match last s with Some c' => c' =? c | None => false end.

Fixpoint trim_end_matches (f : char -> bool) (s : str) : str :=
  match s with
  | [] => []
  | c :: s =>
      match trim_end_matches f s with
      | [] => if f c then [] else [c]
      | t => c :: t
      end
  end.

Fixpoint strip_prefix (p s : str) : option str :=
  match p, s with
  | [], _ => Some s
  | a :: p, b :: s => if a =? b then strip_prefix p s else None
  | _ :: _, [] => None
  end.

(** [suffix] is one of the strings 1 to 9. *)
Definition one_to_nine (suffix : str) : bool :=
  match suffix with [c] => between 49 57 c | _ => false end.

Definition device_stem (name : str) : str :=
  to_ascii_uppercase
    <$> trim_end_matches (fun c => (c =? 32) || (c =? 46)) (take_while (fun c => negb (c =? 46)) name).

Definition is_reserved_stem (stem : str) : bool :=
  existsb (str_eqb stem) [lit "CON"; lit "PRN"; lit "AUX"; lit "NUL"; lit "CONIN$"; lit "CONOUT$"]
  || match strip_prefix (lit "COM") stem with Some s => one_to_nine s | None => false end
  || match strip_prefix (lit "LPT") stem with Some s => one_to_nine s | None => false end.

Definition validate_windows_basename (name : str) : result unit WindowsBasenameError :=
  if bool_decide (name = []) then Err Empty
  else if str_eqb name (lit ".") || str_eqb name (lit "..") then Err DotPath
  else if negb (forallb is_ascii name) then Err NonAscii
  else if ends_with 32 name then Err TrailingSpace
  else if ends_with 46 name then Err TrailingPeriod
  else if existsb (fun c => c <=? 0x1f) name then Err ControlCharacter
  else if existsb (fun c => existsb (Z.eqb c) reserved_characters) name then Err ReservedCharacter
  else if is_reserved_stem (device_stem name) then Err ReservedDeviceName
  else Ok tt.

End Basename.

(** ** Lemmas on strings *)
Module StrLemmas.
Import Str.

Lemma lor_ge a b : 0 <= a -> 0 <= b -> a <= Z.lor a b.
Proof.
  intros Ha Hb.
  assert (Z.ldiff a (Z.lor a b) = 0) as E.
  { apply Z.bits_inj'. intros n _. rewrite Z.ldiff_spec, Z.lor_spec, Z.bits_0.
    by destruct (Z.testbit a n), (Z.testbit b n). }
  apply Z.sub_nocarry_ldiff in E.
  assert (0 <= Z.ldiff (Z.lor a b) a) by (apply Z.ldiff_nonneg; left; by apply Z.lor_nonneg).
  lia.
Qed.

Lemma between_spec a b c : between a b c = true <-> a <= c <= b.
Proof. unfold between. rewrite andb_true_iff, !Z.leb_le. done. Qed.

Lemma scalar_nonneg c : is_scalar c = true -> 0 <= c.
Proof. unfold is_scalar. rewrite orb_true_iff, !between_spec. lia. Qed.

(** The first byte of a character beyond ASCII is at least 0xC0. *)
Lemma encode_ascii c : c < 128 -> encode_utf8 c = [c].
Proof. intros ?. unfold encode_utf8. by rewrite (proj2 (Z.ltb_lt c 0x80)). Qed.

Lemma encode_multibyte c :
  128 <= c -> exists b bs, encode_utf8 c = b :: bs /\ 0xC0 <= b.
Proof.
  intros Hc. unfold encode_utf8. rewrite (proj2 (Z.ltb_ge c 0x80)) by lia.
  assert (forall n, 0 <= Z.shiftr c n) by (intros; apply Z.shiftr_nonneg; lia).
  repeat case_match; eexists _, _; (split; [reflexivity|]);
    (etransitivity; [|apply lor_ge; done]); done.
Qed.

Lemma encode_length c : length (encode_utf8 c) = len_utf8 c.
Proof. unfold encode_utf8, len_utf8. by repeat case_match. Qed.

Lemma len_utf8_pos c : (1 <= len_utf8 c)%nat.
Proof. unfold len_utf8. repeat case_match; lia. Qed.

Lemma bytes_cons c s : bytes (c :: s) = encode_utf8 c ++ bytes s.
Proof. done. Qed.

Lemma bytes_app a b : bytes (a ++ b) = bytes a ++ bytes b.
Proof. apply bind_app. Qed.

Lemma bytes_length s : length (bytes s) = sum_list_with len_utf8 s.
Proof.
  induction s as [|c s IH]; [done|]. rewrite bytes_cons, length_app, encode_length, IH. done.
Qed.

Lemma bytes_ascii s : Forall (fun c => c < 128) s -> bytes s = s.
Proof.
  induction 1 as [|c s Hc _ IH]; [done|]. rewrite bytes_cons, encode_ascii, IH by done. done.
Qed.

Lemma split_at_app a b : split_at (a ++ b) (sum_list_with len_utf8 a) = Done (a, b).
Proof.
  induction a as [|c a IH]; [by destruct b|]. cbn [sum_list_with app].
  pose proof (len_utf8_pos c). cbn [split_at].
  destruct (len_utf8 c + sum_list_with len_utf8 a)%nat eqn:E; [lia|].
  rewrite <- E. rewrite (proj2 (Nat.leb_le _ _)) by lia.
  replace (len_utf8 c + sum_list_with len_utf8 a - len_utf8 c)%nat
    with (sum_list_with len_utf8 a) by lia.
  by rewrite IH.
Qed.

Lemma take_while_split {A} (f : A -> bool) l :
  exists t, l = take_while f l ++ t /\ Forall (fun x => f x = true) (take_while f l)
            /\ match t with [] => True | x :: _ => f x = false end.
Proof.
  induction l as [|x l (t & E & F & H)]; [by exists []|]. simpl.
  destruct (f x) eqn:Ef; [|by exists (x :: l)].
  exists t. split; [by rewrite E at 1|]. split; [by constructor|done].
Qed.

Lemma take_while_app {A} (f : A -> bool) a t :
  Forall (fun x => f x = true) a ->
  match t with [] => True | x :: _ => f x = false end ->
  take_while f (a ++ t) = a.
Proof.
  induction 1 as [|x a Hx _ IH]; intros Ht; simpl.
  - destruct t as [|y t]; [done|]. simpl. by rewrite Ht.
  - rewrite Hx. by f_equal; apply IH.
Qed.

Lemma alphabetic_range c :
  is_ascii_alphabetic c = true <-> 65 <= c <= 90 \/ 97 <= c <= 122.
Proof.
  unfold is_ascii_alphabetic, is_ascii_uppercase, is_ascii_lowercase.
  rewrite orb_true_iff, !between_spec. done.
Qed.

Lemma upper_range c :
  to_ascii_uppercase c = (if between 97 122 c then c - 32 else c).
Proof. done. Qed.

Lemma upper_alphabetic c :
  is_ascii_alphabetic c = true -> 65 <= to_ascii_uppercase c <= 90.
Proof.
  rewrite alphabetic_range, upper_range. intros H.
  destruct (between 97 122 c) eqn:E; [apply between_spec in E; lia|].
  apply not_true_iff_false in E. rewrite between_spec in E. lia.
Qed.

(** Upper-casing to a letter happens only on that letter's two cases. *)
Lemma upper_letter_ascii c u :
  65 <= u <= 90 -> to_ascii_uppercase c = u -> is_ascii_alphabetic c = true.
Proof.
  intros Hu. rewrite alphabetic_range, upper_range.
  destruct (between 97 122 c) eqn:E; [apply between_spec in E; lia|lia].
Qed.

Lemma alphabetic_prefix_bytes s :
  take_while is_ascii_alphabetic (bytes s) = take_while is_ascii_alphabetic s.
Proof.
  induction s as [|c s IH]; [done|]. rewrite bytes_cons. cbn [take_while].
  destruct (Z.lt_ge_cases c 128) as [H|H].
  - rewrite encode_ascii by done. simpl. by rewrite IH.
  - destruct (encode_multibyte c H) as (b & bs & -> & Hb). simpl.
    assert (forall x, 123 <= x -> is_ascii_alphabetic x = false) as N.
    { intros x Hx. apply not_true_iff_false. rewrite alphabetic_range. lia. }
    by rewrite !N by lia.
Qed.

Lemma alphabetic_len s :
  Forall (fun c => is_ascii_alphabetic c = true) s -> sum_list_with len_utf8 s = length s.
Proof.
  induction 1 as [|c s Hc _ IH]; [done|]. simpl. rewrite IH.
  apply alphabetic_range in Hc. unfold len_utf8. by rewrite (proj2 (Z.ltb_lt c 0x80)) by lia.
Qed.

End StrLemmas.

(** ** What a function name must be *)
Module FunctionNameSpec.
Import Str StrLemmas Modes FunctionName.

(** The unbounded decimal value of a digit string. *)
Fixpoint decimal_from (acc : Z) (text : str) {struct text} : option Z :=
  match text with
  | [] => Some acc
  | c :: text =>
      match unicode_decimal_digit c with
      | Some d => decimal_from (10 * acc + d) text
      | None => None
      end
  end.

Definition grid_index (text : str) (limit : Z) : Prop :=
  exists v, decimal_from 0 text = Some v /\ 1 <= v <= limit.

(** The column named by a string of letters: A is 1, Z is 26, AA is 27. *)
Definition column_number (letters : str) : Z :=
  foldl (fun n c => 26 * n + (to_ascii_uppercase c - 64)) 0 letters.

(** A cell of the grid in A1 notation. *)
Definition a1_cell (name : str) : Prop :=
  exists column row,
    name = column ++ row
    /\ (1 <= length column <= 3)%nat
    /\ Forall (fun c => is_ascii_alphabetic c = true) column
    /\ column_number column <= EXCEL_GRID_COLUMNS
    /\ Forall (fun c => c < 128) row
    /\ grid_index row EXCEL_GRID_ROWS.

(** A row, a column or a cell of the grid in R1C1 notation; R...C... may leave
    out an index, the reversed C...R... may not. *)
Inductive r1c1 : str -> Prop :=
| r1c1_row a d : to_ascii_uppercase a = 82 -> grid_index d EXCEL_GRID_ROWS -> r1c1 (a :: d)
| r1c1_column a d : to_ascii_uppercase a = 67 -> grid_index d EXCEL_GRID_COLUMNS -> r1c1 (a :: d)
| r1c1_cell a d b e :
    to_ascii_uppercase a = 82 -> to_ascii_uppercase b = 67 ->
    d = [] \/ grid_index d EXCEL_GRID_ROWS ->
    e = [] \/ grid_index e EXCEL_GRID_COLUMNS ->
    r1c1 (a :: d ++ b :: e)
| r1c1_reversed a d b e :
    to_ascii_uppercase a = 67 -> to_ascii_uppercase b = 82 ->
    grid_index d EXCEL_GRID_COLUMNS -> grid_index e EXCEL_GRID_ROWS ->
    r1c1 (a :: d ++ b :: e).

Definition name_characters (name : str) : Prop :=
  match name with
  | [] => False
  | first :: rest =>
      is_function_name_start first = true
      /\ Forall (fun c => is_function_name_start c = true \/ is_ascii_digit c = true
                          \/ c = 46 \/ c = 63) rest
  end.

Definition valid_function_name (name : str) : Prop :=
  utf16_count name <= EXCEL_FUNCTION_NAME_LIMIT
  /\ name_characters name
  /\ (to_ascii_uppercase <$> name) ∉ reserved_names
  /\ ~ a1_cell name /\ ~ r1c1 name.

(** *** Digits *)
Lemma find_digit_range zs c d : find_digit zs c = Some d -> 0 <= d < 10.
Proof.
  induction zs as [|z zs IH]; simpl; [done|]. unfold checked_sub.
  repeat case_match; intros; simplify_eq; auto.
  apply Z.leb_le in H0. apply Z.ltb_lt in H1. lia.
Qed.

Lemma find_digit_none zs c :
  Forall (fun z => c < z \/ z + 10 <= c) zs -> find_digit zs c = None.
Proof.
  induction 1 as [|z zs H _ IH]; simpl; [done|]. unfold checked_sub.
  destruct (z <=? c) eqn:E; [|done]. apply Z.leb_le in E.
  by rewrite (proj2 (Z.ltb_ge _ _)) by lia.
Qed.

Lemma letter_not_digit c : is_ascii_alphabetic c = true -> unicode_decimal_digit c = None.
Proof.
  intros H%alphabetic_range. apply find_digit_none.
  unfold UNICODE_DECIMAL_ZEROES. repeat (apply Forall_cons; split; [lia|]). apply Forall_nil_2.
Qed.

Lemma digit_range c d : unicode_decimal_digit c = Some d -> 0 <= d < 10.
Proof. apply find_digit_range. Qed.

#[local] Opaque unicode_decimal_digit.

Lemma decimal_from_ge text acc v : 0 <= acc -> decimal_from acc text = Some v -> acc <= v.
Proof.
  revert acc. induction text as [|c text IH]; simpl; intros acc Ha H; [by simplify_eq|].
  destruct (unicode_decimal_digit c) as [d|] eqn:E; [|done].
  apply digit_range in E. apply IH in H; lia.
Qed.

(** The early exits of the loop lose nothing: it computes the decimal value
    whenever that is within the limit. *)
Lemma grid_index_loop_spec text limit index v :
  0 <= index <= limit -> limit < 2 ^ 32 ->
  grid_index_loop text limit index = Some v
  <-> decimal_from index text = Some v /\ v <= limit.
Proof.
  revert index. induction text as [|c text IH]; simpl; intros index Hi Hl.
  { split; [intros [= <-]; split; [done|lia]|by intros [? _]]. }
  destruct (unicode_decimal_digit c) as [d|] eqn:E; [|by split; [|intros []]].
  apply digit_range in E.
  assert ((10 * index + d <= limit /\
    (match checked_mul 32 index 10 ≫= (fun i => checked_add 32 i d) with
     | Some next => if next <=? limit then grid_index_loop text limit next else None
     | None => None end) = grid_index_loop text limit (10 * index + d))
    \/ (limit < 10 * index + d /\
    (match checked_mul 32 index 10 ≫= (fun i => checked_add 32 i d) with
     | Some next => if next <=? limit then grid_index_loop text limit next else None
     | None => None end) = None)) as [[Hle ->]|[Hgt ->]].
  { unfold checked_mul, checked_add.
    destruct (Z.ltb_spec (index * 10) (2 ^ 32)); simpl; [|right; split; [lia|done]].
    destruct (Z.ltb_spec (index * 10 + d) (2 ^ 32)); simpl; [|right; split; [lia|done]].
    replace (index * 10 + d) with (10 * index + d) by lia.
    destruct (Z.leb_spec (10 * index + d) limit); [by left|right; split; [lia|done]]. }
  - apply IH; lia.
  - split; [done|]. intros [H ?]. apply decimal_from_ge in H; lia.
Qed.

Lemma is_grid_index_spec text limit :
  0 <= limit < 2 ^ 32 -> is_grid_index text limit = true <-> grid_index text limit.
Proof.
  intros Hl. unfold is_grid_index, grid_index. split.
  - destruct (grid_index_loop text limit 0) as [v|] eqn:E; [|done].
    intros H%negb_true_iff%Z.eqb_neq.
    apply grid_index_loop_spec in E as [E ?]; [|lia..].
    exists v. split; [done|]. apply decimal_from_ge in E; lia.
  - intros (v & E & Hv).
    assert (grid_index_loop text limit 0 = Some v) as ->
      by (apply grid_index_loop_spec; [lia..|split; [done|lia]]).
    apply negb_true_iff, Z.eqb_neq. lia.
Qed.

Lemma decimal_digits acc text v :
  decimal_from acc text = Some v ->
  Forall (fun c => bool_decide (is_Some (unicode_decimal_digit c)) = true) text.
Proof.
  revert acc. induction text as [|c text IH]; simpl; intros acc H; [constructor|].
  destruct (unicode_decimal_digit c) eqn:E; [|done].
  constructor; [by rewrite bool_decide_true by eauto|eauto].
Qed.

Lemma grid_index_nonempty text limit :
  grid_index text limit -> exists c t, text = c :: t /\ is_ascii_alphabetic c = false.
Proof.
  intros (v & E & Hv). destruct text as [|c t]; simpl in E; [simplify_eq; lia|].
  exists c, t. split; [done|]. apply not_true_iff_false. intros ?.
  by rewrite letter_not_digit in E.
Qed.

(** *** A1 references *)
Lemma column_step_exact n c :
  0 <= n <= 702 -> is_ascii_alphabetic c = true ->
  column_step n c = 26 * n + (to_ascii_uppercase c - 64).
Proof.
  intros Hn Hc%upper_alphabetic. unfold column_step.
  rewrite (wrapping_sub_small 8) by (unfold in_width; lia).
  rewrite (wrapping_add_small 8) by (unfold in_width; lia).
  rewrite (wrap_small 32) by (unfold in_width; lia).
  rewrite (wrapping_add_small 32) by (unfold in_width; lia). lia.
Qed.

Lemma column_fold column :
  (length column <= 3)%nat -> Forall (fun c => is_ascii_alphabetic c = true) column ->
  foldl column_step 0 column = column_number column.
Proof.
  intros Hl Hf. unfold column_number.
  destruct column as [|a [|b [|c [|]]]]; simpl in Hl; try lia; [done|..];
    decompose_Forall; simpl;
    repeat match goal with H : is_ascii_alphabetic ?x = true |- _ =>
      lazymatch goal with
      | _ : 65 <= to_ascii_uppercase x <= 90 |- _ => fail
      | _ => pose proof (upper_alphabetic x H) end end;
    repeat match goal with |- context [column_step ?n ?c] =>
      lazymatch n with
      | context [column_step _ _] => fail
      | _ => rewrite (column_step_exact n c) by (done || lia) end end; done.
Qed.

Lemma is_a1_reference_spec name :
  exists b, is_a1_reference name = Done b /\ (b = true <-> a1_cell name).
Proof.
  unfold is_a1_reference. rewrite alphabetic_prefix_bytes.
  destruct (take_while_split is_ascii_alphabetic name) as (row & E & F & Hr).
  set (column := take_while is_ascii_alphabetic name) in *. clearbody column. subst name.
  destruct ((length column =? 0)%nat || (3 <? length column)%nat) eqn:L.
  - exists false. split; [done|]. split; [done|].
    intros (col & r & E & Hl & Fc & _ & _ & (x & t & -> & Hx)%grid_index_nonempty).
    assert (column = col) as ->; [|apply orb_true_iff in L; rewrite Nat.eqb_eq, Nat.ltb_lt in L; lia].
    rewrite <- (take_while_app is_ascii_alphabetic column row F Hr), E.
    by apply take_while_app.
  - apply orb_false_iff in L as [L1%Nat.eqb_neq L2%Nat.ltb_ge].
    rewrite <- (alphabetic_len column F). rewrite split_at_app. cbn [obind].
    rewrite bytes_ascii by (eapply Forall_impl; [done|intros ? ?%alphabetic_range; lia]).
    rewrite column_fold by done.
    eexists; split; [reflexivity|]. rewrite !andb_true_iff, Z.leb_le, forallb_Forall.
    rewrite is_grid_index_spec by (unfold EXCEL_GRID_ROWS; lia). split.
    + intros [[? Hf] ?]. exists column, row. split_and!; try done; [lia|].
      eapply Forall_impl; [done|]. intros c ?%Z.ltb_lt. done.
    + intros (col & r & E & Hl & Fc & ? & Hf & G).
      pose proof (grid_index_nonempty _ _ G) as (x & t & Er & Hx).
      assert (column = col) as ->.
      { rewrite <- (take_while_app is_ascii_alphabetic column row F Hr), E.
        apply take_while_app; [done|by rewrite Er]. }
      apply app_inv_head in E as ->. split_and!; try done.
      eapply Forall_impl; [done|]. intros c ?. by apply Z.ltb_lt.
Qed.

(** *** R1C1 references *)
Definition is_digit (c : char) : bool := bool_decide (is_Some (unicode_decimal_digit c)).

Lemma axis_not_digit b u : 65 <= u <= 90 -> to_ascii_uppercase b = u -> is_digit b = false.
Proof.
  intros Hu Hb. apply bool_decide_eq_false_2.
  rewrite letter_not_digit by (by eapply upper_letter_ascii). by intros [].
Qed.

Lemma grid_index_digits text limit :
  grid_index text limit -> Forall (fun c => is_digit c = true) text.
Proof. intros (v & E & _). by eapply decimal_digits. Qed.

Definition r1c1_parts (a : char) (ds t : str) : Prop :=
  match t with
  | [] => (to_ascii_uppercase a = 82 /\ grid_index ds EXCEL_GRID_ROWS)
          \/ (to_ascii_uppercase a = 67 /\ grid_index ds EXCEL_GRID_COLUMNS)
  | b :: e =>
      (to_ascii_uppercase a = 82 /\ to_ascii_uppercase b = 67
       /\ (ds = [] \/ grid_index ds EXCEL_GRID_ROWS)
       /\ (e = [] \/ grid_index e EXCEL_GRID_COLUMNS))
      \/ (to_ascii_uppercase a = 67 /\ to_ascii_uppercase b = 82
          /\ grid_index ds EXCEL_GRID_COLUMNS /\ grid_index e EXCEL_GRID_ROWS)
  end.

(** The leading run of digits determines how a reference is read. *)
Lemma r1c1_read a rest :
  exists t, rest = take_while is_digit rest ++ t
            /\ (r1c1 (a :: rest) <-> r1c1_parts a (take_while is_digit rest) t).
Proof.
  destruct (take_while_split is_digit rest) as (t & E & F & Ht). exists t. split; [done|].
  assert (forall d b e u, Forall (fun c => is_digit c = true) d -> 65 <= u <= 90 ->
            to_ascii_uppercase b = u -> rest = d ++ b :: e ->
            take_while is_digit rest = d /\ t = b :: e) as Cell.
  { intros d b e u Fd Hu Hb ->.
    assert (take_while is_digit (d ++ b :: e) = d) as T
      by (apply take_while_app; [done|by eapply axis_not_digit]).
    rewrite T in E. apply app_inv_head in E. by rewrite T. }
  assert (forall d, Forall (fun c => is_digit c = true) d -> rest = d ->
            take_while is_digit rest = d /\ t = []) as Row.
  { intros d Fd ->. pose proof (take_while_app is_digit d [] Fd I) as T.
    rewrite app_nil_r in T. rewrite T in E. split; [done|].
    apply (f_equal length) in E. rewrite length_app in E. destruct t; [done|simpl in E; lia]. }
  split.
  - inversion 1 as [? d ? G|? d ? G|? d b e ? ? Gd Ge|? d b e ? ? Gd Ge]; subst.
    + destruct (Row rest) as [-> ->]; [by eapply grid_index_digits|done|]. by left.
    + destruct (Row rest) as [-> ->]; [by eapply grid_index_digits|done|]. by right.
    + destruct (Cell d b e 67) as [-> ->]; [|done..|by left].
      destruct Gd as [->|Gd]; [constructor|by eapply grid_index_digits].
    + destruct (Cell d b e 82) as [-> ->]; [by eapply grid_index_digits|done..|by right].
  - rewrite E at 2. set (ds := take_while is_digit rest). clearbody ds. clear.
    destruct t as [|b e]; simpl; rewrite ?app_nil_r.
    + intros [[]|[]]; [by apply r1c1_row|by apply r1c1_column].
    + intros [(?&?&?&?)|(?&?&?&?)]; [by apply r1c1_cell|by apply r1c1_reversed].
Qed.

Lemma lead_byte c :
  exists b bs, encode_utf8 c = b :: bs
    /\ forall u, 65 <= u <= 90 -> to_ascii_uppercase b = u <-> to_ascii_uppercase c = u.
Proof.
  destruct (Z.lt_ge_cases c 128) as [H|H]; [by exists c, []; rewrite encode_ascii|].
  destruct (encode_multibyte c H) as (b & bs & E & Hb). exists b, bs. split; [done|].
  intros u Hu. split; intros E'; exfalso;
    apply upper_letter_ascii in E'; [|done| |done]; apply alphabetic_range in E'; lia.
Qed.

Lemma letter_len c u : 65 <= u <= 90 -> to_ascii_uppercase c = u -> len_utf8 c = 1%nat.
Proof.
  intros Hu E%upper_letter_ascii%alphabetic_range; [|done]. unfold len_utf8.
  by rewrite (proj2 (Z.ltb_lt c 0x80)) by lia.
Qed.

Lemma split_after_letter c u s :
  65 <= u <= 90 -> to_ascii_uppercase c = u -> split_at (c :: s) 1 = Done ([c], s).
Proof.
  intros Hu E. pose proof (split_at_app [c] s) as H. cbn [sum_list_with app] in H.
  rewrite (letter_len c u Hu E) in H. exact H.
Qed.

(** The part of [is_r1c1_reference] after the first index, on the run of
    digits [ds] and the text [t] after it. *)
Definition r1c1_tail (upper : Z) (ds t : str) : bool :=
  let '(first_limit, second_axis, second_limit) :=
    if upper =? 82 then (EXCEL_GRID_ROWS, 67, EXCEL_GRID_COLUMNS)
    else (EXCEL_GRID_COLUMNS, 82, EXCEL_GRID_ROWS) in
  match t with
  | [] => is_grid_index ds first_limit
  | b :: e =>
      if negb (to_ascii_uppercase b =? second_axis) then false
      else (is_grid_index ds first_limit || ((upper =? 82) && bool_decide (ds = [])))
           && (is_grid_index e second_limit || ((upper =? 82) && bool_decide (e = [])))
  end.

Lemma is_r1c1_reference_eq a rest ds t u :
  u = 82 \/ u = 67 -> to_ascii_uppercase a = u -> take_while is_digit rest = ds ->
  rest = ds ++ t -> is_r1c1_reference (a :: rest) = Done (r1c1_tail u ds t).
Proof.
  intros Hu Ea Hd ->. assert (65 <= u <= 90) as Hr by lia.
  assert (bytes (a :: ds ++ t) = @cons Z a (bytes ds ++ bytes t)) as Eb.
  { rewrite bytes_cons, bytes_app, encode_ascii; [done|].
    apply upper_letter_ascii, alphabetic_range in Ea; [lia|done]. }
  unfold is_r1c1_reference. rewrite Eb. cbv zeta. rewrite Ea.
  replace ((u =? 82) || (u =? 67)) with true by (destruct Hu as [-> | ->]; done).
  cbn [negb]. rewrite (split_after_letter a u) by done.
  destruct (if u =? 82 then _ else _) as [[l1 ax] l2] eqn:El.
  assert (65 <= ax <= 90) as Hax by (destruct (u =? 82); simplify_eq; done).
  cbn [obind]. change (fun c => bool_decide (is_Some (unicode_decimal_digit c))) with is_digit.
  rewrite Hd.
  assert (1 + sum_list_with len_utf8 ds = sum_list_with len_utf8 (a :: ds))%nat as En.
  { simpl. by rewrite (letter_len a u Hr Ea). }
  rewrite En, (app_comm_cons ds t a), split_at_app. cbn [obind].
  rewrite (split_after_letter a u) by done. cbn [obind].
  assert (length (@cons Z a (bytes ds ++ bytes t))
          = sum_list_with len_utf8 (a :: ds) + sum_list_with len_utf8 t)%nat as El'.
  { rewrite <- En. simpl. rewrite length_app, !bytes_length. lia. }
  unfold r1c1_tail. rewrite El. rewrite El'. destruct t as [|b e].
  - by rewrite (proj2 (Nat.eqb_eq _ _)) by (simpl; lia).
  - pose proof (len_utf8_pos b).
    rewrite (proj2 (Nat.eqb_neq _ _)) by (cbn [sum_list_with]; lia).
    destruct (lead_byte b) as (b0 & bs & Eb0 & Hb0).
    match goal with |- context [match ?x with Some _ => _ | None => _ end] =>
      assert (x = Some b0) as -> end.
    { rewrite <- En, <- bytes_length, bytes_cons, Eb0. simpl. by rewrite list_lookup_middle. }
    destruct (Z.eqb_spec (to_ascii_uppercase b0) ax) as [E|E]; rewrite (Hb0 ax Hax) in E.
    2: { rewrite (proj2 (Z.eqb_neq _ _) E). reflexivity. }
    rewrite (proj2 (Z.eqb_eq _ _) E). cbn [negb].
    replace (S (sum_list_with len_utf8 (a :: ds)))
      with (sum_list_with len_utf8 ((a :: ds) ++ [b])).
    2: { rewrite sum_list_with_app. simpl. rewrite (letter_len b ax Hax E). lia. }
    replace ((a :: ds) ++ b :: e) with (((a :: ds) ++ [b]) ++ e) by (by rewrite <- app_assoc).
    by rewrite split_at_app.
Qed.

Lemma r1c1_tail_spec a ds t u :
  u = 82 \/ u = 67 -> to_ascii_uppercase a = u ->
  r1c1_tail u ds t = true <-> r1c1_parts a ds t.
Proof.
  assert (0 <= EXCEL_GRID_ROWS < 2 ^ 32 /\ 0 <= EXCEL_GRID_COLUMNS < 2 ^ 32) as [? ?] by done.
  intros Hu Ea. unfold r1c1_tail, r1c1_parts. rewrite Ea.
  destruct Hu as [-> | ->]; cbn [Z.eqb Pos.eqb]; destruct t as [|b e];
    rewrite ?is_grid_index_spec by done.
  - intuition lia.
  - destruct (Z.eqb_spec (to_ascii_uppercase b) 67); cbn [negb];
      [|split; [done|intuition congruence]].
    rewrite andb_true_iff, !orb_true_iff, !andb_true_l, !bool_decide_eq_true,
      !is_grid_index_spec by done.
    intuition congruence.
  - intuition lia.
  - destruct (Z.eqb_spec (to_ascii_uppercase b) 82); cbn [negb];
      [|split; [done|intuition congruence]].
    rewrite andb_true_iff, !orb_true_iff, !andb_false_l, !is_grid_index_spec by done.
    intuition congruence.
Qed.

Lemma is_r1c1_reference_spec name :
  exists b, is_r1c1_reference name = Done b /\ (b = true <-> r1c1 name).
Proof.
  destruct name as [|a rest]; [exists false; split; [done|]; split; [done|by inversion 1]|].
  destruct (r1c1_read a rest) as (t & E & R).
  destruct (decide (to_ascii_uppercase a = 82 \/ to_ascii_uppercase a = 67)) as [Hu|Hu].
  - eexists. split; [by eapply (is_r1c1_reference_eq a rest _ t)|].
    rewrite R. by apply r1c1_tail_spec.
  - exists false. split.
    + unfold is_r1c1_reference. rewrite bytes_cons.
      destruct (lead_byte a) as (b & bs & -> & Hb). simpl.
      pose proof (Hb 82). pose proof (Hb 67).
      rewrite (proj2 (Z.eqb_neq _ 82)), (proj2 (Z.eqb_neq _ 67)) by (intuition lia). done.
    + split; [done|]. inversion 1; tauto.
Qed.

End FunctionNameSpec.

(** ** Lemmas on argument names and basenames *)
Module NameLemmas.
Import Str StrLemmas Modes.

Lemma utf16_count_app a b : utf16_count (a ++ b) = utf16_count a + utf16_count b.
Proof. induction a as [|c a IH]; simpl; [done|]. unfold utf16_count in *. simpl in *. lia. Qed.

Lemma utf16_count_nonneg s : 0 <= utf16_count s.
Proof.
  induction s as [|c s IH]; [done|]. change (0 <= len_utf16 c + utf16_count s).
  unfold len_utf16. case_match; lia.
Qed.

(** [names.join(",")]. *)
Fixpoint join (names : list str) : str :=
  match names with
  | [] => []
  | [n] => n
  | n :: names => n ++ 44 :: join names
  end.

(** [text.split(',')]. *)
Fixpoint split_commas (text : str) : list str :=
  match text with
  | [] => [[]]
  | c :: text =>
      match split_commas text with
      | n :: ns => if c =? 44 then [] :: n :: ns else (c :: n) :: ns
      | [] => []
      end
  end.

Lemma split_commas_nonempty text : split_commas text <> [].
Proof. induction text; simpl; [done|]. repeat case_match; done. Qed.

Lemma split_commas_plain n : 44 ∉ n -> split_commas n = [n].
Proof.
  induction n as [|c n IH]; intros H; [done|]. apply not_elem_of_cons in H as [Hc Hn].
  simpl. rewrite IH by done. by rewrite (proj2 (Z.eqb_neq _ _)) by done.
Qed.

Lemma split_commas_app n t : 44 ∉ n -> split_commas (n ++ 44 :: t) = n :: split_commas t.
Proof.
  intros H. induction n as [|c n IH]; simpl.
  - destruct (split_commas t) eqn:E; [by apply split_commas_nonempty in E|done].
  - apply not_elem_of_cons in H as [Hc Hn]. rewrite IH by done.
    by rewrite (proj2 (Z.eqb_neq _ _)) by done.
Qed.

Lemma split_join names :
  names <> [] -> Forall (fun n => 44 ∉ n) names -> split_commas (join names) = names.
Proof.
  induction names as [|n [|m names] IH]; [done|..]; intros _ F; decompose_Forall.
  - by apply split_commas_plain.
  - change (join (n :: m :: names)) with (n ++ 44 :: join (m :: names)).
    rewrite split_commas_app by done. f_equal. apply IH; [done|by constructor].
Qed.

Definition total (names : list str) : Z := foldr (fun n s => utf16_count n + s) 0 names.

Lemma names_total_nonneg names : 0 <= total names.
Proof.
  induction names as [|n names IH]; [done|].
  change (0 <= utf16_count n + total names). pose proof (utf16_count_nonneg n). lia.
Qed.

Lemma utf16_count_join names :
  utf16_count (join names) = total names + Z.max (Z.of_nat (length names) - 1) 0.
Proof.
  induction names as [|n [|m names] IH]; [done|simpl; lia|].
  change (join (n :: m :: names)) with (n ++ [44] ++ join (m :: names)).
  rewrite !utf16_count_app, IH.
  change (total (n :: m :: names)) with (utf16_count n + total (m :: names)).
  change (utf16_count [44]) with 1. cbn [length]. lia.
Qed.

(** A saturating sum is the sum, capped. *)
Lemma saturating_sum w names acc :
  1 <= 2 ^ w -> 0 <= acc <= 2 ^ w - 1 ->
  foldl (saturating_add w) acc (utf16_count <$> names) = Z.min (acc + total names) (2 ^ w - 1).
Proof.
  intros Hw. revert acc. induction names as [|n names IH]; intros acc Ha; simpl; [lia|].
  pose proof (utf16_count_nonneg n). pose proof (names_total_nonneg names).
  rewrite IH by (unfold saturating_add; lia). unfold saturating_add, total in *. simpl. lia.
Qed.

Lemma first_error_ok names :
  ArgumentName.first_error names = Ok tt
  <-> Forall (fun n => ArgumentName.validate_argument_name n = Ok tt) names.
Proof.
  induction names as [|n names IH]; simpl; [split; [constructor|done]|].
  rewrite Forall_cons, <- IH.
  destruct (ArgumentName.validate_argument_name n) as [[]|e]; intuition congruence.
Qed.

Lemma validated_no_comma n : ArgumentName.validate_argument_name n = Ok tt -> 44 ∉ n.
Proof.
  unfold ArgumentName.validate_argument_name. repeat case_match; try done. intros _ Hin.
  unfold contains in *. match goal with H : existsb _ _ = false |- _ =>
    apply not_true_iff_false in H; apply H end.
  apply existsb_Exists, Exists_exists. by exists 44.
Qed.

(** *** Basenames *)
Lemma trim_end_app f a b :
  Forall (fun c => f c = true) b -> Basename.trim_end_matches f (a ++ b)
  = Basename.trim_end_matches f a.
Proof.
  intros Hb. induction a as [|c a IH]; simpl.
  - induction Hb as [|c b Hc _ IH]; simpl; [done|]. by rewrite IH, Hc.
  - by rewrite IH.
Qed.

Lemma trim_end_last f a c :
  f c = false -> Basename.trim_end_matches f (a ++ [c]) = a ++ [c].
Proof.
  intros Hc. induction a as [|x a IH]; simpl; [by rewrite Hc|]. rewrite IH.
  by destruct (a ++ [c]) eqn:E; [destruct a|].
Qed.

Lemma trim_end_split f s :
  exists sp, s = Basename.trim_end_matches f s ++ sp /\ Forall (fun c => f c = true) sp.
Proof.
  induction s as [|c s (sp & E & F)]; simpl; [by exists []|].
  destruct (Basename.trim_end_matches f s) as [|x t] eqn:Et; simpl in E.
  - subst s. destruct (f c) eqn:Ef; [by exists (c :: sp); auto|by exists sp].
  - exists sp. split; [by rewrite E at 1|done].
Qed.

Lemma strip_prefix_spec p s t : Basename.strip_prefix p s = Some t <-> s = p ++ t.
Proof.
  revert s. induction p as [|a p IH]; intros s; simpl; [split; congruence|].
  destruct s as [|b s]; [done|]. destruct (Z.eqb_spec a b) as [->|E].
  - rewrite IH. split; congruence.
  - split; congruence.
Qed.

(** The device names Windows reserves, in upper case. *)
Definition device_names : list str :=
  [lit "CON"; lit "PRN"; lit "AUX"; lit "NUL"; lit "CONIN$"; lit "CONOUT$"]
  ++ ((fun d => lit "COM" ++ [d]) <$> seqZ 49 9) ++ ((fun d => lit "LPT" ++ [d]) <$> seqZ 49 9).

(** A device name in any case, then spaces, then nothing or an extension. *)
Definition device_path (name : str) : Prop :=
  exists s sp ext,
    name = s ++ sp ++ ext
    /\ (to_ascii_uppercase <$> s) ∈ device_names
    /\ Forall (fun c => c = 32) sp
    /\ match ext with [] => True | c :: _ => c = 46 end.

Lemma numbered_device p stem :
  match Basename.strip_prefix p stem with Some s => Basename.one_to_nine s | None => false end
    = true
  <-> stem ∈ ((fun d => p ++ [d]) <$> seqZ 49 9).
Proof.
  rewrite list_elem_of_fmap. setoid_rewrite elem_of_seqZ. split.
  - destruct (Basename.strip_prefix p stem) as [s|] eqn:E; [|done].
    apply strip_prefix_spec in E as ->. unfold Basename.one_to_nine.
    destruct s as [|c [|]]; try done. intros H%between_spec. exists c. split; [done|lia].
  - intros (d & -> & Hd).
    rewrite (proj2 (strip_prefix_spec p (p ++ [d]) [d]) eq_refl). apply between_spec. lia.
Qed.

Lemma is_reserved_stem_spec stem : Basename.is_reserved_stem stem = true <-> stem ∈ device_names.
Proof.
  unfold Basename.is_reserved_stem, device_names.
  rewrite !orb_true_iff, !numbered_device, !elem_of_app, existsb_Exists, Exists_exists.
  unfold str_eqb. setoid_rewrite bool_decide_eq_true. split.
  - intros [[(x & Hx & ->)|H]|H]; auto.
  - intros [H|[H|H]]; eauto.
Qed.

Lemma device_characters dev :
  dev ∈ device_names -> dev <> [] /\ Forall (fun c => c <> 46 /\ c <> 32) dev.
Proof.
  assert (Forall (fun dev => bool_decide (dev <> [] /\ Forall (fun c => c <> 46 /\ c <> 32) dev) = true)
            device_names) as F by (apply forallb_Forall; vm_compute; reflexivity).
  intros H. eapply bool_decide_eq_true_1. by eapply (proj1 (Forall_forall _ _) F).
Qed.

Lemma upper_id c k : k < 65 -> to_ascii_uppercase c <> k -> c <> k.
Proof. intros Hk H ->. apply H. rewrite upper_range. unfold between. case_match; lia. Qed.

Lemma device_stem_spec name :
  Basename.is_reserved_stem (Basename.device_stem name) = true <-> device_path name.
Proof.
  rewrite is_reserved_stem_spec. unfold Basename.device_stem.
  set (f := fun c => (c =? 32) || (c =? 46)). set (g := fun c => negb (c =? 46)). split.
  - intros H. destruct (take_while_split g name) as (ext & E & F & Hx).
    destruct (trim_end_split f (take_while g name)) as (sp & E' & F').
    exists (Basename.trim_end_matches f (take_while g name)), sp, ext.
    split_and!; [by rewrite app_assoc, <- E'|done| |].
    + rewrite E' in F. apply Forall_app in F as [_ F]. rewrite Forall_forall in F, F' |- *.
      intros c Hc. specialize (F _ Hc). specialize (F' _ Hc). subst f g; simpl in *.
      rewrite negb_true_iff, Z.eqb_neq in F. rewrite orb_true_iff, !Z.eqb_eq in F'. lia.
    + destruct ext as [|c ext]; [done|]. subst g; simpl in Hx.
      by rewrite negb_false_iff, Z.eqb_eq in Hx.
  - intros (s & sp & ext & -> & Hd & Hsp & Hx).
    destruct (device_characters _ Hd) as [Hne Hc].
    assert (Forall (fun c => c <> 46 /\ c <> 32) s) as Hs.
    { apply Forall_fmap in Hc. eapply Forall_impl; [exact Hc|]. intros c [? ?]; simpl in *.
      split; by apply upper_id. }
    assert (take_while g (s ++ sp ++ ext) = s ++ sp) as ->.
    { rewrite app_assoc. apply take_while_app.
      - apply Forall_app. split; eapply Forall_impl; [exact Hs| |exact Hsp|]; intros c Hc'; subst g;
          simpl in *; apply negb_true_iff, Z.eqb_neq; lia.
      - destruct ext as [|c ext]; [done|]. subst g; simpl in *. subst c. done. }
    rewrite trim_end_app by (eapply Forall_impl; [exact Hsp|]; by intros ? ->).
    destruct s as [|c s _] using rev_ind; [done|].
    rewrite trim_end_last; [done|].
    apply Forall_app in Hs as [_ [[? ?] _]%Forall_cons]. subst f; simpl.
    apply orb_false_iff. rewrite !Z.eqb_neq. done.
Qed.

End NameLemmas.

(** ** Correctness of the validators *)
Module NameTheorems.
Import Str StrLemmas Modes FunctionName FunctionNameSpec NameLemmas.

(** C37: Function-name validation never panics, whatever characters the name
    has (no slice falls inside a character), and accepts exactly the names
    that fit the length limit, use the name grammar, are not reserved and
    read neither as an A1 cell nor as an R1C1 reference of the grid. *)
Theorem function_name_validation_correct name :
  exists r, validate_function_name name = Done r /\ (r = Ok tt <-> valid_function_name name).
Proof.
  unfold valid_function_name, validate_function_name, name_characters.
  destruct name as [|first rest]; [eexists; split; [done|]; split; [done|tauto]|].
  destruct (Z.ltb_spec EXCEL_FUNCTION_NAME_LIMIT (utf16_count (first :: rest)));
    [eexists; split; [done|]; split; [done|lia]|].
  destruct (is_function_name_start first);
    [|eexists; split; [done|]; split; [done|]; intros (_ & [? _] & _); done].
  cbn [negb].
  match goal with |- context [forallb ?f rest] => destruct (forallb f rest) eqn:F end.
  2: { eexists; split; [done|]; split; [done|]. intros (_ & [_ C] & _).
       apply not_true_iff_false in F. destruct F. apply forallb_Forall.
       eapply Forall_impl; [exact C|]. intros c. rewrite !orb_true_iff, !Z.eqb_eq. tauto. }
  assert (Forall (fun c => is_function_name_start c = true \/ is_ascii_digit c = true
                           \/ c = 46 \/ c = 63) rest) as F'.
  { apply forallb_Forall in F. eapply Forall_impl; [exact F|]. intros c.
    rewrite !orb_true_iff, !Z.eqb_eq. tauto. }
  cbn [negb].
  assert (existsb (fun r => eq_ignore_ascii_case (first :: rest) r) reserved_names = true
          <-> (to_ascii_uppercase <$> first :: rest) ∈ reserved_names) as R.
  { unfold eq_ignore_ascii_case, str_eqb, reserved_names. cbn [existsb].
    rewrite !orb_true_iff, !bool_decide_eq_true, !elem_of_cons, elem_of_nil.
    change (to_ascii_uppercase <$> lit "C") with (lit "C").
    change (to_ascii_uppercase <$> lit "R") with (lit "R").
    change (to_ascii_uppercase <$> lit "TRUE") with (lit "TRUE").
    change (to_ascii_uppercase <$> lit "FALSE") with (lit "FALSE"). intuition congruence. }
  destruct (existsb _ reserved_names).
  { eexists; split; [done|]; split; [done|]. intros (_ & _ & N & _). destruct N. by apply R. }
  destruct (is_a1_reference_spec (first :: rest)) as ([] & -> & A); cbn [obind].
  { eexists; split; [done|]; split; [done|]. intros (_ & _ & _ & N & _). destruct N. by apply A. }
  destruct (is_r1c1_reference_spec (first :: rest)) as ([] & -> & B); cbn [obind].
  { eexists; split; [done|]; split; [done|]. intros (_ & _ & _ & _ & N). destruct N. by apply B. }
  eexists; split; [done|]. split; [intros _|done].
  split_and!; try done.
  - intros ?%R. done.
  - intros ?%A. done.
  - intros ?%B. done.
Qed.

(** An accepted argument list joins to a text within Excel's string
    limit that splits back, at the commas, into exactly those names; and a
    list is refused only for an invalid name or because the joined text is
    too long, saturation of the length notwithstanding. *)
Theorem argument_names_join_and_split pw names :
  (ArgumentName.validate_argument_names pw names = Ok tt
   <-> Forall (fun n => ArgumentName.validate_argument_name n = Ok tt) names
       /\ utf16_count (join names) <= EXCEL_STRING_LIMIT)
  /\ (names <> [] -> ArgumentName.validate_argument_names pw names = Ok tt ->
      split_commas (join names) = names).
Proof.
  assert (EXCEL_STRING_LIMIT < 2 ^ bits pw - 1) as Hw by (by destruct pw).
  assert (ArgumentName.validate_argument_names pw names = Ok tt
   <-> Forall (fun n => ArgumentName.validate_argument_name n = Ok tt) names
       /\ utf16_count (join names) <= EXCEL_STRING_LIMIT) as E.
  { unfold ArgumentName.validate_argument_names. rewrite <- first_error_ok, utf16_count_join.
    destruct (ArgumentName.first_error names) as [[]|e]; [|split; [done|by intros []]].
    rewrite saturating_sum by (unfold EXCEL_STRING_LIMIT in *; lia).
    pose proof (names_total_nonneg names). unfold saturating_add, saturating_sub.
    destruct (Z.ltb_spec EXCEL_STRING_LIMIT
      (Z.min (Z.min (0 + total names) (2 ^ bits pw - 1) + Z.max (Z.of_nat (length names) - 1) 0)
         (2 ^ bits pw - 1))); split; try done; [intros [_ ?]; lia|intros _; split; [done|lia]]. }
  split; [exact E|]. rewrite E. intros Hn [F _]. apply split_join; [done|].
  eapply Forall_impl; [exact F|]. apply validated_no_comma.
Qed.

Definition example_names : list str := [lit "rate"; lit "start date"; lit "n"].

Lemma argument_names_join_and_split_witness :
  ArgumentName.validate_argument_names W64 example_names = Ok tt
  /\ join example_names = lit "rate,start date,n"
  /\ split_commas (join example_names) = example_names.
Proof.
  split; [vm_compute; reflexivity|]. split; [vm_compute; reflexivity|].
  apply (proj2 (argument_names_join_and_split W64 example_names));
    [done|vm_compute; reflexivity].
Defined.

(** A basename is accepted exactly when it is nonempty ASCII without
    control or reserved characters, does not end in a space or period (so it
    is never a relative path), and is not a reserved device: a device name in
    any letter case, padded with spaces and with any extension, is refused. *)
Theorem windows_basename_correct name :
  Forall (fun c => 0 <= c) name ->
  Basename.validate_windows_basename name = Ok tt
  <-> (exists c s, name = s ++ [c] /\ c <> 32 /\ c <> 46)
      /\ Forall (fun c => 0x20 <= c < 128 /\ c ∉ Basename.reserved_characters) name
      /\ ~ device_path name.
Proof.
  intros Hpos. unfold Basename.validate_windows_basename.
  destruct name as [|x name _] using rev_ind.
  { simpl. split; [done|]. intros ((c & s & E & _) & _). by destruct s. }
  rewrite bool_decide_false by (by destruct name).
  unfold Basename.ends_with. rewrite last_snoc.
  assert (forall l, existsb (fun c => existsb (Z.eqb c) Basename.reserved_characters) l = true
            <-> Exists (fun c => c ∈ Basename.reserved_characters) l) as RC.
  { intros l. rewrite existsb_Exists. apply Exists_proper; [|done]. intros c.
    rewrite existsb_Exists, Exists_exists. setoid_rewrite Z.eqb_eq.
    split; [by intros (y & ? & ->)|intros; by exists c]. }
  pose proof (device_stem_spec (name ++ [x])) as D.
  set (n := name ++ [x]) in *.
  assert (last n = Some x) as Hl by apply last_snoc.
  split.
  - destruct (str_eqb n (lit ".") || str_eqb n (lit "..")); [done|].
    destruct (forallb is_ascii n) eqn:A; [|done]. cbn [negb].
    destruct (Z.eqb_spec x 32); [done|]. destruct (Z.eqb_spec x 46); [done|].
    destruct (existsb (fun c => c <=? 31) n) eqn:C; [done|].
    destruct (existsb _ n) eqn:R in |- *; [done|].
    destruct (Basename.is_reserved_stem _); [done|]. intros _.
    split; [by exists x, name|]. split; [|by intros ?%D].
    apply forallb_Forall in A. apply not_true_iff_false in C, R.
    rewrite RC, <- Forall_Exists_neg in R. rewrite existsb_Exists, <- Forall_Exists_neg in C.
    rewrite Forall_forall in A, C, R |- *. intros c Hc. split; [|by apply R].
    specialize (A _ Hc). specialize (C _ Hc). apply Z.ltb_lt in A.
    rewrite Z.leb_le in C. lia.
  - intros ((c & s & E & H32 & H46) & F & ND).
    assert (c = x) as -> by (rewrite E, last_snoc in Hl; congruence).
    assert (str_eqb n (lit ".") = false /\ str_eqb n (lit "..") = false) as [-> ->].
    { split; apply bool_decide_eq_false_2; intros Heq; rewrite Heq in Hl; vm_compute in Hl; congruence. }
    assert (forallb is_ascii n = true) as ->.
    { apply forallb_Forall. eapply Forall_impl; [exact F|]. intros c [? _]. apply Z.ltb_lt. lia. }
    rewrite (proj2 (Z.eqb_neq x 32)), (proj2 (Z.eqb_neq x 46)) by done. cbn [orb negb].
    destruct (existsb (fun c => c <=? 31) n) eqn:C.
    { apply existsb_Exists, Exists_exists in C as (c & Hc & Hle%Z.leb_le).
      rewrite Forall_forall in F. destruct (F _ Hc). lia. }
    destruct (existsb _ n) eqn:R in |- *.
    { apply RC, Exists_exists in R as (c & Hc & Hr). rewrite Forall_forall in F.
      by destruct (F _ Hc). }
    destruct (Basename.is_reserved_stem _); [|done]. by destruct ND; apply D.
Qed.

Definition example_basename : str := lit "model v2.xll".

Lemma windows_basename_correct_witness :
  Forall (fun c => 0 <= c) example_basename
  /\ Basename.validate_windows_basename example_basename = Ok tt
  /\ ~ device_path example_basename.
Proof.
  assert (Forall (fun c => 0 <= c) example_basename) as F by (repeat constructor; done).
  assert (Basename.validate_windows_basename example_basename = Ok tt) as V
    by (vm_compute; reflexivity).
  split; [exact F|]. split; [exact V|].
  exact (proj2 (proj2 (proj1 (windows_basename_correct example_basename F) V))).
Defined.

End NameTheorems.
