(* ===== verification/Errors.v ===== *)
(** * Worksheet errors and framework failures

    Models crates/xlfn/src/error.rs with the value types of value/raw.rs and
    the codes of crates/xlfn-sys: the errors every component of the runtime
    returns, and the worksheet value each of them becomes.  Texts are
    [string]s; paths and boxed sources keep their structure. *)

From S2P Require Import Prelude.

Local Open Scope Z_scope.

Module Errors.

(** ** Codes of the Excel C API *)
Definition XLERR_NULL : Z := 0.
Definition XLERR_DIV0 : Z := 7.
Definition XLERR_VALUE : Z := 15.
Definition XLERR_REF : Z := 23.
Definition XLERR_NAME : Z := 29.
Definition XLERR_NUM : Z := 36.
Definition XLERR_NA : Z := 42.
Definition XLERR_GETTING_DATA : Z := 43.

Definition XLRET_SUCCESS : Z := 0.
Definition XLRET_ABORT : Z := 1.
Definition XLRET_UNCALCED : Z := 64.

Inductive ExcelError : Type :=
| ENull | DivisionByZero | EValue | EReference | EName | ENumber | NotAvailable | GettingData.

#[export] Instance ExcelError_eq_dec : EqDecision ExcelError.
Proof. solve_decision. Defined.

Definition code (e : ExcelError) : Z :=
  match e with
  | ENull => XLERR_NULL
  | DivisionByZero => XLERR_DIV0
  | EValue => XLERR_VALUE
  | EReference => XLERR_REF
  | EName => XLERR_NAME
  | ENumber => XLERR_NUM
  | NotAvailable => XLERR_NA
  | GettingData => XLERR_GETTING_DATA
  end.

Definition from_code (c : Z) : option ExcelError :=
  if c =? XLERR_NULL then Some ENull
  else if c =? XLERR_DIV0 then Some DivisionByZero
  else if c =? XLERR_VALUE then Some EValue
  else if c =? XLERR_REF then Some EReference
  else if c =? XLERR_NAME then Some EName
  else if c =? XLERR_NUM then Some ENumber
  else if c =? XLERR_NA then Some NotAvailable
  else if c =? XLERR_GETTING_DATA then Some GettingData
  else None.

Definition error_text (e : ExcelError) : string :=
  match e with
  | ENull => "#NULL!"
  | DivisionByZero => "#DIV/0!"
  | EValue => "#VALUE!"
  | EReference => "#REF!"
  | EName => "#NAME?"
  | ENumber => "#NUM!"
  | NotAvailable => "#N/A"
  | GettingData => "#GETTING_DATA"
  end%string.

(** ** Diagnostic identities: eight characters read as one big-endian word *)
Definition from_ascii8 (s : string) : Z :=
  foldl (fun n c => n * 256 + Z.of_N (Ascii.N_of_ascii c)) 0 (String.list_ascii_of_string s).

(** ** Value types of an XLOPER12 *)
Inductive XlValueType : Type :=
| TNumber | TString | TBoolean | TReference | TError | TFlow | TMulti | TMissing | TNil
| TSimpleReference | TInteger | TBigData.

#[export] Instance XlValueType_eq_dec : EqDecision XlValueType.
Proof. solve_decision. Defined.

(** ** Why an argument could not be decoded *)
Inductive InputError : Type :=
| NullPointer
| WrongType (expected : string) (actual : XlValueType)
| NonFinite
| NotInteger
| NumericOverflow
| OutOfRange
| InvalidUtf16
| Malformed (why : string)
| UnknownEnum (actual expected : string)
| TooLarge (limit actual : Z).

#[export] Instance InputError_eq_dec : EqDecision InputError.
Proof. solve_decision. Defined.

Record Shape : Type := mk_Shape { rows : Z; columns : Z }.

Inductive DomainErrorCode : Type := InvalidInput | Overflow | NativeFailure.

(** ** Statuses of Excel callbacks *)
Inductive ExcelCallbackStatus : Type := Success | CAbort | Uncalced | Failed (status : Z).

Definition status_from_raw (status : Z) : ExcelCallbackStatus :=
  if status =? XLRET_SUCCESS then Success
  else if status =? XLRET_ABORT then CAbort
  else if status =? XLRET_UNCALCED then Uncalced
  else Failed status.

Definition is_terminal (s : ExcelCallbackStatus) : bool :=
  match s with CAbort | Uncalced => true | _ => false end.

Inductive ExcelApiFunction : Type :=
| Caller | SheetName | SheetId | GetDocument | GetName | FRegister | Unregister | SetName
| Evaluate | EventRegister | Rtd | Free | AsyncReturn | Coerce.

Inductive ExcelApiFailure : Type :=
| Status (s : ExcelCallbackStatus)
| Suppressed (s : ExcelCallbackStatus)
| UnexpectedResult
| InvalidRegistrationId (id : Z)
| Indeterminate (s : ExcelCallbackStatus).

(** ** Framework failures *)
Inductive XllError : Type :=
| Input (argument : string) (reason : InputError)
| ShapeMismatch (expected actual : Shape)
| ElementCountMismatch (rows columns expected actual : Z)
| Domain (c : DomainErrorCode)
| Custom (excel : ExcelError) (message : string)
| ExcelApi (f : ExcelApiFunction) (failure : ExcelApiFailure)
| WindowsApi (f : string) (c : Z)
| RegistrationConflict (name : string)
| MetadataDebtBindingChanged (name : string)
| LibraryLoad (path : string) (os_error : Z)
| MissingSymbol (symbol : string)
| AbiMismatch (expected actual : Z)
| Native (c : Z) (message : string)
| RtdSubscriptionShutdown (server_generation topic_id : Z) (key : string) (source : XllError)
| RtdProducerFailure (topic : string) (source : XllError)
| ExcelValue (e : ExcelError)
| InvalidHandle
| StaleHandle
| Closing
| Overloaded
| ReentrantCall
| PanicCaught
| Internal (diagnostic_id : Z).

Abbreviation XllResult T := (result T XllError).

(** [XllError::input] and the other constructors of the source. *)
Definition input (argument : string) (reason : InputError) : XllError := Input argument reason.
Definition custom (excel : ExcelError) (message : string) : XllError := Custom excel message.
Definition of_excel_error (e : ExcelError) : XllError := ExcelValue e.

(** The value the worksheet shows for a failure. *)
Fixpoint excel_error (e : XllError) : ExcelError :=
  match e with
  | RtdProducerFailure _ source => excel_error source
  | Domain _ => ENumber
  | Input _ NumericOverflow => ENumber
  | InvalidHandle | StaleHandle | Closing | Overloaded | ReentrantCall => NotAvailable
  | ExcelValue error | Custom error _ => error
  | Input _ _ | ShapeMismatch _ _ | ElementCountMismatch _ _ _ _ | ExcelApi _ _
  | WindowsApi _ _ | RegistrationConflict _ | MetadataDebtBindingChanged _ | LibraryLoad _ _
  | MissingSymbol _ | AbiMismatch _ _ | Native _ _ | RtdSubscriptionShutdown _ _ _ _
  | PanicCaught | Internal _ => EValue
  end.

(** ** Properties *)

Lemma from_code_code e : from_code (code e) = Some e.
Proof. by destruct e. Qed.

Lemma code_from_code c e : from_code c = Some e -> code e = c.
Proof.
  unfold from_code. repeat (case_match; [intros; simplify_eq; symmetry; by apply Z.eqb_eq|]). done.
Qed.

(** The error codes exchanged with Excel are faithful: every worksheet
    error decodes from its own code, a code decodes to at most the error that
    has it, and an error passed through the framework, even wrapped in
    producer failures, reaches the cell unchanged. *)
Theorem worksheet_errors_survive_the_boundary c e topics :
  (from_code c = Some e <-> code e = c)
  /\ excel_error (foldr RtdProducerFailure (of_excel_error e) topics) = e.
Proof.
  split.
  - split; [apply code_from_code|]. intros <-. apply from_code_code.
  - induction topics as [|t topics IH]; [done|exact IH].
Qed.

End Errors.
