(* ===== verification/Dates.v ===== *)
(** * Excel serial dates

    Models crates/xlfn/src/value/date.rs: the two Excel date systems, calendar
    to serial and back.  A binary64 number is a mantissa and an exponent, an
    infinity or a NaN; [floor] gives an integral number, and sums of integral
    numbers are rounded to 53 bits, ties to even. *)

From S2P Require Import Prelude Errors.
Import Errors.

Local Open Scope Z_scope.

(** ** Binary64 as far as dates use it *)
Module F64.

Inductive f64 : Type :=
| Finite (mantissa exponent : Z)
| Infinite (negative : bool)
| NaN.

(** The finite numbers of the format. *)
Definition wf (x : f64) : Prop :=
  match x with
  | Finite m e => Z.abs m < 2 ^ 53 /\ -1074 <= e <= 971
  | _ => True
  end.

Definition is_finite (x : f64) : bool := match x with Finite _ _ => true | _ => false end.

(** [f64::from(i32)]: exact. *)
Definition of_int (z : Z) : f64 := Finite z 0.

(** [x.floor()] of a finite number, as the integer it denotes: [Z.shiftl] by a
    negative amount divides, rounding down. *)
Definition floor (x : f64) : option Z :=
  match x with Finite m e => Some (Z.shiftl m e) | _ => None end.

(** Rounding an integer to 53 significant bits, ties to even. *)
Definition round_to_even (z : Z) : Z :=
  let a := Z.abs z in
  if a <? 2 ^ 53 then z
  else
    let s := Z.log2 a - 52 in
    let q := a / 2 ^ s in
    let r := a mod 2 ^ s in
    let half := 2 ^ (s - 1) in
    let q' := if r <? half then q
              else if half <? r then q + 1
              else if Z.even q then q else q + 1 in
    Z.sgn z * q' * 2 ^ s.

(** The sum of two integral numbers.  The largest finite number plus an [i32]
    stays finite. *)
Definition add_integral (a b : Z) : Z := round_to_even (a + b).

End F64.

(** ** Dates *)
Module Date.
Import F64.

Inductive ExcelDateSystem : Type := Workbook | Windows1900 | Mac1904.

#[export] Instance ExcelDateSystem_eq_dec : EqDecision ExcelDateSystem.
Proof. solve_decision. Defined.

Record ExcelSerialDate : Type := mk_date { serial : f64; date_system : ExcelDateSystem }.

Definition new (s : f64) (sys : ExcelDateSystem) : XllResult ExcelSerialDate :=
  if negb (is_finite s) then Err (input "date" NonFinite) else Ok (mk_date s sys).

Definition DAYS_BEFORE_MONTH : list Z := [0; 31; 59; 90; 120; 151; 181; 212; 243; 273; 304; 334].

(** [%] and [/] of the source truncate. *)
Definition is_leap_year (year : Z) : bool :=
  (Z.rem year 4 =? 0) && (negb (Z.rem year 100 =? 0) || (Z.rem year 400 =? 0)).

Definition days_before_year (year : Z) : Z :=
  let previous := year - 1 in
  365 * previous + Z.quot previous 4 - Z.quot previous 100 + Z.quot previous 400.

Definition MARCH_1900 : Z := days_before_year 1900 + 59.

Definition days_in_month (year month : Z) : Z :=
  if month =? 2 then if is_leap_year year then 29 else 28
  else if (month =? 4) || (month =? 6) || (month =? 9) || (month =? 11) then 30
  else 31.

Definition date_epoch (sys : ExcelDateSystem) : XllResult Z :=
  match sys with
  | Windows1900 => Ok (days_before_year 1900 - 1)
  | Mac1904 => Ok (days_before_year 1904)
  | Workbook => Err (input "date"
      (Malformed "resolve the workbook date system before calendar conversion"))
  end.

Definition date_out_of_range : XllError := input "date" OutOfRange.

Definition int_of_bool (b : bool) : Z := if b then 1 else 0.

(** [ExcelSerialDate::from_ymd]; indexing a 12-entry table out of range would
    panic. *)
Definition from_ymd (year month day : Z) (sys : ExcelDateSystem)
  : outcome (XllResult ExcelSerialDate) :=
  match date_epoch sys with
  | Err e => Done (Err e)
  | Ok epoch =>
      if negb ((1 <=? year) && (year <=? 9999)) || negb ((1 <=? month) && (month <=? 12))
         || (day <? 1) || (days_in_month year month <? day)
      then Done (Err date_out_of_range)
      else
        match DAYS_BEFORE_MONTH !! Z.to_nat (month - 1) with
        | None => Panicked
        | Some before =>
            let ordinal := days_before_year year + before
                           + int_of_bool ((2 <? month) && is_leap_year year) + day - 1 in
            let fictitious_day :=
              int_of_bool (bool_decide (sys = Windows1900) && (MARCH_1900 <=? ordinal)) in
            Done (new (of_int (ordinal - epoch + fictitious_day)) sys)
        end
  end.

Definition is_fictitious_1900_leap_day (d : ExcelSerialDate) : bool :=
  bool_decide (date_system d = Windows1900) && bool_decide (floor (serial d) = Some 60).

(** The bisection for the year, by fuel. *)
Fixpoint year_search (fuel : nat) (ordinal year end_ : Z) : option Z :=
  match fuel with
  | O => None
  | S fuel =>
      if year + 1 <? end_ then
        let middle := year + Z.quot (end_ - year) 2 in
        if days_before_year middle <=? ordinal
        then year_search fuel ordinal middle end_
        else year_search fuel ordinal year middle
      else Some year
  end.

(** The month walk, by fuel. *)
Fixpoint month_search (fuel : nat) (year day month : Z) : option (Z * Z) :=
  match fuel with
  | O => None
  | S fuel =>
      if days_in_month year month <=? day
      then month_search fuel year (day - days_in_month year month) (month + 1)
      else Some (month, day)
  end.

(** The bisection halves 1..10000, the walk visits at most 12 months. *)
Definition year_fuel : nat := 15.
Definition month_fuel : nat := 13.

(** [None]: a loop ran out of fuel, which never happens. *)
Definition calendar_day (d : ExcelSerialDate) : option (XllResult (Z * Z * Z)) :=
  match date_epoch (date_system d) with
  | Err e => Some (Err e)
  | Ok epoch =>
      match floor (serial d) with
      | None => Some (Err date_out_of_range)
      | Some serial_day =>
          if is_fictitious_1900_leap_day d
          then Some (Err (input "date" (Malformed "1900-02-29 is not a Gregorian date")))
          else
            let fictitious_day :=
              int_of_bool (bool_decide (date_system d = Windows1900) && (61 <=? serial_day)) in
            let ordinal := add_integral serial_day (epoch - fictitious_day) in
            if negb ((0 <=? ordinal) && (ordinal <? days_before_year 10000))
            then Some (Err date_out_of_range)
            else
              match year_search year_fuel ordinal 1 10000 with
              | None => None
              | Some year =>
                  match month_search month_fuel year (ordinal - days_before_year year) 1 with
                  | None => None
                  | Some (month, day) => Some (Ok (year, month, day + 1))
                  end
              end
      end
  end.

Definition to_ymd_with_argument (d : ExcelSerialDate) (argument : string)
  : option (XllResult (Z * Z * Z)) :=
  match calendar_day d with
  | Some (Err (Input _ reason)) => Some (Err (input argument reason))
  | r => r
  end.

Definition to_ymd (d : ExcelSerialDate) : option (XllResult (Z * Z * Z)) :=
  to_ymd_with_argument d "date".

Definition with_date_system (d : ExcelSerialDate) (sys : ExcelDateSystem) : ExcelSerialDate :=
  mk_date (serial d) sys.

End Date.

(** ** Lemmas on the calendar *)
Module DateLemmas.
Import F64 Date.

(** Division and remainder by constants are linear for [lia]. *)
Ltac Zify.zify_post_hook ::= Z.to_euclidean_division_equations.

Definition leap_day (year : Z) : Z := int_of_bool (is_leap_year year).

Lemma leap_day_range y : 0 <= leap_day y <= 1.
Proof. unfold leap_day. destruct (is_leap_year y); simpl; lia. Qed.

Lemma days_before_next_year y :
  1 <= y -> days_before_year (y + 1) = days_before_year y + 365 + leap_day y.
Proof.
  intros Hy. unfold days_before_year, leap_day, is_leap_year.
  destruct (Z.eqb_spec (Z.rem y 4) 0), (Z.eqb_spec (Z.rem y 100) 0),
    (Z.eqb_spec (Z.rem y 400) 0); cbn [negb andb orb int_of_bool]; lia.
Qed.

Lemma days_before_year_mono y y' :
  1 <= y <= y' -> days_before_year y + 365 * (y' - y) <= days_before_year y'.
Proof.
  intros [Hy Hle]. replace y' with (y + Z.of_nat (Z.to_nat (y' - y))) by lia.
  induction (Z.to_nat (y' - y)) as [|n IH]; [rewrite Z.add_0_r; lia|].
  replace (y + Z.of_nat (S n)) with (y + Z.of_nat n + 1) by lia.
  rewrite days_before_next_year by lia. pose proof (leap_day_range (y + Z.of_nat n)). lia.
Qed.

(** Every year of the [i16] range keeps the day count within [i32]. *)
Lemma days_before_year_i32 y :
  - 2 ^ 15 <= y < 2 ^ 15 -> - 2 ^ 31 <= days_before_year y < 2 ^ 31.
Proof. unfold days_before_year. intros. lia. Qed.

Lemma year_search_spec fuel ord year end_ :
  1 <= year < end_ -> end_ - year <= 2 ^ Z.of_nat fuel ->
  days_before_year year <= ord < days_before_year end_ ->
  exists y, year_search (S fuel) ord year end_ = Some y
            /\ year <= y < end_ /\ days_before_year y <= ord < days_before_year (y + 1).
Proof.
  revert year end_. induction fuel as [|fuel IH]; intros year end_ Hy Hf Ho.
  - exists year. cbn [year_search]. change (2 ^ Z.of_nat 0) with 1 in Hf.
    rewrite (proj2 (Z.ltb_ge _ _)) by lia.
    replace (year + 1) with end_ by lia. split; [done|]. split; [lia|done].
  - replace (2 ^ Z.of_nat (S fuel)) with (2 * 2 ^ Z.of_nat fuel) in Hf
      by (rewrite <- Z.pow_succ_r by lia; f_equal; lia).
    set (p := 2 ^ Z.of_nat fuel) in *.
    change (year_search (S (S fuel)) ord year end_) with
      (if year + 1 <? end_ then
         let middle := year + Z.quot (end_ - year) 2 in
         if days_before_year middle <=? ord then year_search (S fuel) ord middle end_
         else year_search (S fuel) ord year middle
       else Some year).
    destruct (Z.ltb_spec (year + 1) end_) as [Hlt|Hge].
    + cbv zeta. set (middle := year + Z.quot (end_ - year) 2).
      assert (year < middle < end_ /\ end_ - middle <= p /\ middle - year <= p)
        as (? & ? & ?) by (subst middle; lia).
      destruct (Z.leb_spec (days_before_year middle) ord).
      * destruct (IH middle end_) as (y & E & ? & ?); [lia..|]. exists y. split; [done|lia].
      * destruct (IH year middle) as (y & E & ? & ?); [lia..|]. exists y. split; [done|lia].
    + exists year. replace (year + 1) with end_ by lia. split; [done|]. split; [lia|done].
Qed.

(** Days of the year before a month. *)
Definition before_month (year month : Z) : Z :=
  default 0 (DAYS_BEFORE_MONTH !! Z.to_nat (month - 1))
  + int_of_bool ((2 <? month) && is_leap_year year).

Lemma month_cases m :
  1 <= m <= 12 ->
  m = 1 \/ m = 2 \/ m = 3 \/ m = 4 \/ m = 5 \/ m = 6 \/ m = 7 \/ m = 8 \/ m = 9
  \/ m = 10 \/ m = 11 \/ m = 12.
Proof. lia. Qed.

Lemma before_next_month y m :
  1 <= m < 12 -> before_month y (m + 1) = before_month y m + days_in_month y m.
Proof.
  intros Hm. assert (1 <= m <= 12) as Hc by lia. apply month_cases in Hc.
  repeat destruct Hc as [->|Hc]; try subst m; try lia;
    unfold before_month, days_in_month; by destruct (is_leap_year y).
Qed.

Lemma year_length y : before_month y 12 + days_in_month y 12 = 365 + leap_day y.
Proof. unfold before_month, days_in_month, leap_day. by destruct (is_leap_year y). Qed.

Lemma month_search_spec fuel y m day total :
  1 <= m <= 12 -> 12 - m < Z.of_nat fuel ->
  0 <= day -> total = before_month y m + day -> total < 365 + leap_day y ->
  exists m' d, month_search fuel y day m = Some (m', d)
    /\ m <= m' <= 12 /\ 0 <= d < days_in_month y m' /\ total = before_month y m' + d.
Proof.
  revert m day. induction fuel as [|fuel IH]; intros m day Hm Hf Hd -> Ht; [lia|].
  cbn [month_search]. destruct (Z.leb_spec (days_in_month y m) day) as [Hle|Hgt].
  - destruct (decide (m = 12)) as [->|Hne]; [pose proof (year_length y); lia|].
    pose proof (before_next_month y m).
    destruct (IH (m + 1) (day - days_in_month y m)) as (m' & d & E & ? & ? & ?); [lia..|].
    exists m', d. split; [done|]. split; [lia|]. split; [done|lia].
  - exists m, day. split; [done|]. split; [lia|done].
Qed.

Lemma before_month_mono y m m' :
  1 <= m -> m < m' <= 12 -> before_month y m + days_in_month y m <= before_month y m'.
Proof.
  intros H1 H2. replace m' with (m + 1 + Z.of_nat (Z.to_nat (m' - m - 1))) by lia.
  assert (m + 1 + Z.of_nat (Z.to_nat (m' - m - 1)) <= 12) as Hb by lia. clear H2.
  induction (Z.to_nat (m' - m - 1)) as [|n IH].
  - rewrite Z.add_0_r, before_next_month by lia. lia.
  - replace (m + 1 + Z.of_nat (S n)) with (m + 1 + Z.of_nat n + 1) by lia.
    rewrite before_next_month by lia. specialize (IH ltac:(lia)).
    assert (0 <= days_in_month y (m + 1 + Z.of_nat n))
      by (unfold days_in_month; repeat case_match; lia).
    lia.
Qed.

(** ** Ordinals of Gregorian dates *)
Definition valid_ymd (y m d : Z) : Prop :=
  1 <= y <= 9999 /\ 1 <= m <= 12 /\ 1 <= d <= days_in_month y m.

#[export] Instance valid_ymd_dec y m d : Decision (valid_ymd y m d).
Proof. unfold valid_ymd. apply _. Defined.

Definition ordinal (y m d : Z) : Z := days_before_year y + before_month y m + d - 1.

Lemma before_month_nonneg y m : 1 <= m <= 12 -> 0 <= before_month y m.
Proof.
  intros Hc%month_cases. repeat destruct Hc as [->|Hc]; try subst m;
    unfold before_month; by destruct (is_leap_year y).
Qed.

Lemma day_of_year_range y m d :
  valid_ymd y m d -> 0 <= before_month y m + d - 1 < 365 + leap_day y.
Proof.
  intros (Hy & Hm & Hd). pose proof (before_month_nonneg y m Hm).
  destruct (decide (m = 12)) as [->|]; [pose proof (year_length y); lia|].
  pose proof (before_month_mono y m 12). pose proof (year_length y).
  assert (0 <= days_in_month y 12) by (unfold days_in_month; simpl; lia). lia.
Qed.

Lemma ordinal_range y m d :
  valid_ymd y m d -> 0 <= ordinal y m d < days_before_year 10000.
Proof.
  intros H. pose proof (day_of_year_range y m d H) as R. destruct H as ((? & ?) & _).
  pose proof (days_before_next_year y). pose proof (days_before_year_mono (y + 1) 10000).
  pose proof (days_before_year_mono 1 y). change (days_before_year 1) with 0 in *.
  unfold ordinal. lia.
Qed.

Definition earlier (a b : Z * Z * Z) : Prop :=
  let '(y, m, d) := a in let '(y', m', d') := b in
  y < y' \/ (y = y' /\ (m < m' \/ (m = m' /\ d < d'))).

Lemma ordinal_mono y m d y' m' d' :
  valid_ymd y m d -> valid_ymd y' m' d' -> earlier (y, m, d) (y', m', d') ->
  ordinal y m d < ordinal y' m' d'.
Proof.
  intros V V' E. pose proof (day_of_year_range y m d V). pose proof (day_of_year_range y' m' d' V').
  destruct V as (? & ? & ?), V' as (? & ? & ?). unfold ordinal.
  destruct E as [E|[<- [E|[<- E]]]].
  - pose proof (days_before_next_year y). pose proof (days_before_year_mono (y + 1) y'). lia.
  - pose proof (before_month_mono y m m'). lia.
  - lia.
Qed.

Lemma ordinal_inj y m d y' m' d' :
  valid_ymd y m d -> valid_ymd y' m' d' -> ordinal y m d = ordinal y' m' d' ->
  (y, m, d) = (y', m', d').
Proof.
  intros V V' E.
  assert (~ earlier (y, m, d) (y', m', d')) by (intros ?%ordinal_mono; [lia|done..]).
  assert (~ earlier (y', m', d') (y, m, d)) by (intros ?%ordinal_mono; [lia|done..]).
  unfold earlier in *. repeat f_equal; lia.
Qed.

(** The two searches invert [ordinal]. *)
Lemma searches_spec ord :
  0 <= ord < days_before_year 10000 ->
  exists y m d,
    year_search year_fuel ord 1 10000 = Some y
    /\ month_search month_fuel y (ord - days_before_year y) 1 = Some (m, d)
    /\ valid_ymd y m (d + 1) /\ ordinal y m (d + 1) = ord.
Proof.
  intros Ho.
  destruct (year_search_spec 14 ord 1 10000) as (y & Ey & Hy & Hr); [lia|lia|done|].
  rewrite days_before_next_year in Hr by lia.
  destruct (month_search_spec month_fuel y 1 (ord - days_before_year y) (ord - days_before_year y))
    as (m & d & Em & Hm & Hd & Ht); [lia|done|lia| |lia|].
  { unfold before_month. simpl. lia. }
  exists y, m, d. split; [done|]. split; [done|]. unfold valid_ymd, ordinal. lia.
Qed.

Lemma from_ymd_valid y m d sys epoch :
  valid_ymd y m d -> date_epoch sys = Ok epoch ->
  from_ymd y m d sys
  = Done (Ok (mk_date (of_int (ordinal y m d - epoch
      + int_of_bool (bool_decide (sys = Windows1900) && (MARCH_1900 <=? ordinal y m d)))) sys)).
Proof.
  intros (Hy & Hm & Hd) E. unfold from_ymd. rewrite E.
  rewrite !(proj2 (Z.leb_le _ _)) by lia. rewrite !(proj2 (Z.ltb_ge _ _)) by lia.
  cbn [negb andb orb].
  assert (is_Some (DAYS_BEFORE_MONTH !! Z.to_nat (m - 1))) as [b Eb].
  { apply lookup_lt_is_Some. simpl. lia. }
  assert (ordinal y m d = days_before_year y + b
    + int_of_bool ((2 <? m) && is_leap_year y) + d - 1) as ->.
  { unfold ordinal, before_month. rewrite Eb. simpl. lia. }
  rewrite Eb. done.
Qed.

Lemma from_ymd_invalid y m d sys epoch :
  ~ valid_ymd y m d -> date_epoch sys = Ok epoch ->
  from_ymd y m d sys = Done (Err date_out_of_range).
Proof.
  intros V E. unfold from_ymd. rewrite E. 
  match goal with |- context [if ?b then _ else _] => assert (b = true) as ->; [|done] end.
  rewrite !orb_true_iff, !negb_true_iff, !andb_false_iff, !Z.leb_gt, !Z.ltb_lt.
  unfold valid_ymd in V. lia.
Qed.

(** Rounding never brings an inexact sum into the range of exact integers. *)
Lemma round_to_even_small z : Z.abs z < 2 ^ 53 -> round_to_even z = z.
Proof. intros H. unfold round_to_even. by rewrite (proj2 (Z.ltb_lt _ _) H). Qed.

Lemma round_to_even_large z : 2 ^ 53 <= Z.abs z -> 2 ^ 53 <= Z.abs (round_to_even z).
Proof.
  intros H. unfold round_to_even. rewrite (proj2 (Z.ltb_ge _ _) H). cbv zeta.
  set (a := Z.abs z) in *. set (s := Z.log2 a - 52).
  assert (53 <= Z.log2 a) by (apply Z.log2_le_pow2; lia).
  assert (0 <= s) by (subst s; lia).
  assert (2 ^ 52 <= a / 2 ^ s) as Hq.
  { apply Z.div_le_lower_bound; [apply Z.pow_pos_nonneg; lia|].
    rewrite <- Z.pow_add_r by lia. replace (s + 52) with (Z.log2 a) by (subst s; lia).
    apply Z.log2_spec. lia. }
  assert (forall q, 2 ^ 52 <= q -> 2 ^ 53 <= Z.abs (Z.sgn z * q * 2 ^ s)) as K.
  { intros q Hq'. rewrite !Z.abs_mul. replace (Z.abs (Z.sgn z)) with 1 by lia.
    assert (2 ^ 1 <= 2 ^ s) by (apply Z.pow_le_mono_r; subst s; lia).
    change (2 ^ 53) with (2 ^ 52 * 2 ^ 1). rewrite !Z.abs_eq by lia. nia. }
  apply K. repeat case_match; lia.
Qed.

Lemma add_integral_in_range a b r :
  0 <= r < 2 ^ 53 -> add_integral a b = r <-> a + b = r.
Proof.
  intros Hr. unfold add_integral. destruct (Z.lt_ge_cases (Z.abs (a + b)) (2 ^ 53)) as [H|H].
  - by rewrite round_to_even_small.
  - pose proof (round_to_even_large _ H). lia.
Qed.

Ltac Zify.zify_post_hook ::= idtac.

(** The serial day of an ordinal in a date system, and back: the 1900 system
    skips serial 60, which is its fictitious leap day. *)
Definition gap (sys : ExcelDateSystem) (b : bool) : Z :=
  int_of_bool (bool_decide (sys = Windows1900) && b).

Lemma serial_of_ordinal sys epoch ord :
  date_epoch sys = Ok epoch ->
  let n := ord - epoch + gap sys (MARCH_1900 <=? ord) in
  n + (epoch - gap sys (61 <=? n)) = ord
  /\ ~ (sys = Windows1900 /\ n = 60).
Proof.
  intros E n. subst n. unfold gap. destruct sys; simplify_eq/=; [|split; [lia|by intros []]].
  change MARCH_1900 with (days_before_year 1900 - 1 + 60).
  set (e := days_before_year 1900 - 1).
  destruct (Z.leb_spec (e + 60) ord); cbn [int_of_bool].
  - rewrite (proj2 (Z.leb_le 61 _)) by lia. cbn [int_of_bool]. lia.
  - rewrite (proj2 (Z.leb_gt 61 _)) by lia. cbn [int_of_bool]. lia.
Qed.

Lemma ordinal_of_serial sys epoch n :
  date_epoch sys = Ok epoch -> ~ (sys = Windows1900 /\ n = 60) ->
  let ord := n + (epoch - gap sys (61 <=? n)) in
  ord - epoch + gap sys (MARCH_1900 <=? ord) = n.
Proof.
  intros E N ord. subst ord. unfold gap. destruct sys; simplify_eq/=; [|lia].
  change MARCH_1900 with (days_before_year 1900 - 1 + 60).
  set (e := days_before_year 1900 - 1). assert (n <> 60) by naive_solver.
  destruct (Z.leb_spec 61 n); cbn [int_of_bool].
  - rewrite (proj2 (Z.leb_le (e + 60) _)) by lia. cbn [int_of_bool]. lia.
  - rewrite (proj2 (Z.leb_gt (e + 60) _)) by lia. cbn [int_of_bool]. lia.
Qed.

Lemma date_epoch_resolved sys : sys <> Workbook -> exists epoch, date_epoch sys = Ok epoch.
Proof. intros ?. destruct sys; [done|by eexists..]. Qed.

Lemma not_fictitious sys n :
  ~ (sys = Windows1900 /\ n = 60) ->
  bool_decide (sys = Windows1900) && bool_decide (Some n = Some 60) = false.
Proof.
  intros N. apply andb_false_iff. rewrite !bool_decide_eq_false.
  destruct (decide (sys = Windows1900)); [right; intros [=]; by destruct N|by left].
Qed.

(** [to_ymd] on a serial with a floor: the calendar day of its ordinal, or one
    of the errors. *)
Lemma to_ymd_spec sys epoch s n :
  date_epoch sys = Ok epoch -> floor s = Some n ->
  let ord := n + (epoch - gap sys (61 <=? n)) in
  (sys = Windows1900 /\ n = 60
   /\ to_ymd (mk_date s sys)
      = Some (Err (input "date" (Malformed "1900-02-29 is not a Gregorian date"))))
  \/ (~ (sys = Windows1900 /\ n = 60) /\ ~ (0 <= ord < days_before_year 10000)
      /\ to_ymd (mk_date s sys) = Some (Err date_out_of_range))
  \/ (~ (sys = Windows1900 /\ n = 60) /\
      exists y m d, to_ymd (mk_date s sys) = Some (Ok (y, m, d))
                    /\ valid_ymd y m d /\ ordinal y m d = ord).
Proof.
  intros E F ord. unfold to_ymd, to_ymd_with_argument, calendar_day,
    is_fictitious_1900_leap_day. cbn [date_system serial]. rewrite E, F.
  destruct (decide (sys = Windows1900 /\ n = 60)) as [[-> ->]|N].
  { left. by rewrite !bool_decide_true. }
  right. rewrite (not_fictitious sys n N).
  fold (gap sys (61 <=? n)). cbv zeta.
  set (o := add_integral n (epoch - gap sys (61 <=? n))).
  assert (days_before_year 10000 < 2 ^ 53) as Hb by done.
  destruct ((0 <=? o) && (o <? days_before_year 10000)) eqn:R; cbn [negb].
  - right. split; [done|]. rewrite andb_true_iff, Z.leb_le, Z.ltb_lt in R.
    assert (ord = o) as Eo by (apply add_integral_in_range; [lia|done]).
    destruct (searches_spec o R) as (y & m & d & -> & -> & V & O).
    exists y, m, (d + 1). split; [done|]. split; [done|]. by rewrite O.
  - left. split; [done|]. split; [|done]. intros R'.
    assert (o = ord) as Eo by (apply add_integral_in_range; [lia|done]).
    rewrite andb_false_iff, Z.leb_gt, Z.ltb_ge in R. lia.
Qed.

End DateLemmas.

(** ** Correctness of the date conversions *)
Module DateTheorems.
Import F64 Date DateLemmas.

(** C40: In both date systems a serial exists exactly for the Gregorian dates
    of years 1 to 9999, anything else being out of range, and every such date
    survives the trip: its serial is never the fictitious 1900-02-29 and
    converts back to exactly that date. *)
Theorem calendar_roundtrip y m d sys :
  sys <> Workbook ->
  match from_ymd y m d sys with
  | Done (Ok s) =>
      valid_ymd y m d /\ is_fictitious_1900_leap_day s = false /\ to_ymd s = Some (Ok (y, m, d))
  | Done (Err e) => ~ valid_ymd y m d /\ e = date_out_of_range
  | _ => False
  end.
Proof.
  intros Hs. destruct (date_epoch_resolved sys Hs) as [epoch E].
  destruct (decide (valid_ymd y m d)) as [V|V];
    [|by rewrite (from_ymd_invalid _ _ _ _ _ V E)].
  rewrite (from_ymd_valid _ _ _ _ _ V E). split; [exact V|].
  fold (gap sys (MARCH_1900 <=? ordinal y m d)).
  destruct (serial_of_ordinal sys epoch (ordinal y m d) E) as [O N]. cbv zeta in O, N.
  set (n := ordinal y m d - epoch + gap sys (MARCH_1900 <=? ordinal y m d)) in *.
  assert (floor (of_int n) = Some n) as F by (simpl; by rewrite Z.shiftl_0_r).
  split.
  - unfold is_fictitious_1900_leap_day. cbn [date_system serial]. rewrite F.
    by apply not_fictitious.
  - destruct (to_ymd_spec sys epoch _ n E F) as [(? & ? & _)|[(_ & R & _)|(_ & y' & m' & d' & -> & V' & O')]].
    + by destruct N.
    + rewrite O in R. by destruct R; apply ordinal_range.
    + rewrite O in O'. by rewrite (ordinal_inj _ _ _ _ _ _ V' V O').
Qed.

Definition first_of_march_1900 : ExcelSerialDate := mk_date (of_int 61) Windows1900.

Lemma calendar_roundtrip_witness :
  from_ymd 1900 3 1 Windows1900 = Done (Ok first_of_march_1900)
  /\ to_ymd first_of_march_1900 = Some (Ok (1900, 3, 1)).
Proof.
  assert (from_ymd 1900 3 1 Windows1900 = Done (Ok first_of_march_1900)) as E
    by (vm_compute; reflexivity).
  split; [exact E|].
  assert (Windows1900 <> Workbook) as N by discriminate.
  pose proof (calendar_roundtrip 1900 3 1 Windows1900 N) as H. rewrite E in H.
  exact (proj2 (proj2 H)).
Defined.

(** Converting any finite serial terminates, and does exactly this: an
    unresolved system, the fictitious leap day and days outside years 1 to
    9999 give their errors; every other serial gives a valid date whose own
    serial is the floor of the given one, however large the serial is. *)
Theorem serial_roundtrip s sys n :
  floor s = Some n ->
  match to_ymd (mk_date s sys) with
  | None => False
  | Some (Ok (y, m, d)) =>
      valid_ymd y m d /\ from_ymd y m d sys = Done (Ok (mk_date (of_int n) sys))
  | Some (Err e) =>
      sys = Workbook
      \/ (sys = Windows1900 /\ n = 60)
      \/ (e = date_out_of_range
          /\ forall y m d, valid_ymd y m d ->
                from_ymd y m d sys <> Done (Ok (mk_date (of_int n) sys)))
  end.
Proof.
  intros F. destruct (decide (sys = Workbook)) as [->|Hs]; [simpl; by left|].
  destruct (date_epoch_resolved sys Hs) as [epoch E].
  destruct (to_ymd_spec sys epoch s n E F) as [(? & ? & ->)|[(N & R & ->)|(N & y & m & d & -> & V & O)]].
  - by right; left.
  - right; right. split; [done|]. intros y m d V H.
    rewrite (from_ymd_valid _ _ _ _ _ V E) in H. injection H as H.
    destruct (serial_of_ordinal sys epoch (ordinal y m d) E) as [O _].
    fold (gap sys (MARCH_1900 <=? ordinal y m d)) in H. cbv zeta in O. rewrite H in O.
    apply R. rewrite O. by apply ordinal_range.
  - split; [done|]. rewrite (from_ymd_valid _ _ _ _ _ V E). rewrite O.
    do 4 f_equal. apply (ordinal_of_serial sys epoch n E N).
Qed.

Lemma serial_roundtrip_witness :
  floor (Finite (-1) (-2)) = Some (-1)
  /\ to_ymd (mk_date (Finite (-1) (-2)) Mac1904) = Some (Ok (1903, 12, 31))
  /\ from_ymd 1903 12 31 Mac1904 = Done (Ok (mk_date (of_int (-1)) Mac1904)).
Proof.
  split; [reflexivity|].
  assert (to_ymd (mk_date (Finite (-1) (-2)) Mac1904) = Some (Ok (1903, 12, 31))) as T
    by (vm_compute; reflexivity).
  split; [exact T|].
  pose proof (serial_roundtrip (Finite (-1) (-2)) Mac1904 (-1) eq_refl) as H.
  rewrite T in H. exact (proj2 H).
Defined.

(** Serials order as dates do: within one date system an earlier date has
    a strictly smaller serial. *)
Theorem serials_order_as_dates y m d y' m' d' sys a b :
  valid_ymd y m d -> valid_ymd y' m' d' -> earlier (y, m, d) (y', m', d') ->
  from_ymd y m d sys = Done (Ok (mk_date (of_int a) sys)) ->
  from_ymd y' m' d' sys = Done (Ok (mk_date (of_int b) sys)) ->
  a < b.
Proof.
  intros V V' L Ha Hb. pose proof (ordinal_mono _ _ _ _ _ _ V V' L) as O.
  destruct (date_epoch sys) as [epoch|] eqn:E; [|unfold from_ymd in Ha; by rewrite E in Ha].
  rewrite (from_ymd_valid _ _ _ _ _ V E) in Ha. rewrite (from_ymd_valid _ _ _ _ _ V' E) in Hb.
  simplify_eq/=. destruct (bool_decide (sys = Windows1900)); cbn [andb int_of_bool]; [|lia].
  destruct (Z.leb_spec MARCH_1900 (ordinal y m d)), (Z.leb_spec MARCH_1900 (ordinal y' m' d'));
    cbn [int_of_bool]; lia.
Qed.

Lemma serials_order_as_dates_witness :
  from_ymd 1900 2 28 Windows1900 = Done (Ok (mk_date (of_int 59) Windows1900))
  /\ from_ymd 1900 3 1 Windows1900 = Done (Ok (mk_date (of_int 61) Windows1900))
  /\ 59 < 61.
Proof.
  assert (from_ymd 1900 2 28 Windows1900 = Done (Ok (mk_date (of_int 59) Windows1900))) as A
    by (vm_compute; reflexivity).
  assert (from_ymd 1900 3 1 Windows1900 = Done (Ok (mk_date (of_int 61) Windows1900))) as B
    by (vm_compute; reflexivity).
  split; [exact A|]. split; [exact B|].
  assert (valid_ymd 1900 2 28) as V1 by (unfold valid_ymd, days_in_month; simpl; lia).
  assert (valid_ymd 1900 3 1) as V2 by (unfold valid_ymd, days_in_month; simpl; lia).
  assert (earlier (1900, 2, 28) (1900, 3, 1)) as L by (unfold earlier; lia).
  exact (serials_order_as_dates _ _ _ _ _ _ _ _ _ V1 V2 L A B).
Defined.

End DateTheorems.
