(* ===== verification/Utf16.v ===== *)
(** * UTF-16 strings at the Excel boundary

    Models crates/xlfn/src/utf16.rs: reading counted strings, planning and
    running the UTF-16 to UTF-8 conversion into uninitialised storage, counting
    and encoding.  Output storage is a list of cells, [None] while
    uninitialised; writing outside it, or exposing a cell that was never
    written, is undefined behaviour in the source and [Aborted] here. *)

From S2P Require Import Prelude SealableCounter Names Errors.
Import Errors.

Local Open Scope Z_scope.

(** ** UTF-16 of the Rust standard library *)
Module Utf16Std.
Import Str.

Definition is_surrogate (u : Z) : bool := between 0xD800 0xDFFF u.
Definition is_high (u : Z) : bool := between 0xD800 0xDBFF u.
Definition is_low (u : Z) : bool := between 0xDC00 0xDFFF u.

Definition pair_scalar (high low : Z) : char :=
  Z.lor (Z.shiftl (Z.land high 0x3FF) 10) (Z.land low 0x3FF) + 0x10000.

(** [char::decode_utf16]: an unpaired surrogate is an error item. *)
Fixpoint decode_utf16 (units : list Z) : list (option char) :=
  match units with
  | [] => []
  | u :: rest =>
      if negb (is_surrogate u) then Some u :: decode_utf16 rest
      else if is_low u then None :: decode_utf16 rest
      else
        match rest with
        | [] => [None]
        | u2 :: rest' =>
            if is_low u2 then Some (pair_scalar u u2) :: decode_utf16 rest'
            else None :: decode_utf16 rest
        end
  end.

(** [char::encode_utf16] and [str::encode_utf16]. *)
Definition encode_char (c : char) : list Z :=
  if c <? 0x10000 then [c]
  else
    let c' := c - 0x10000 in
    [Z.lor 0xD800 (Z.shiftr c' 10); Z.lor 0xDC00 (Z.land c' 0x3FF)].

Definition encode_utf16 (s : str) : list Z := s ≫= encode_char.

(** [slice::chunks(n)]. *)
Fixpoint chunks_from {A} (fuel n : nat) (l : list A) : list (list A) :=
  match fuel with
  | O => []
  | S fuel => match l with [] => [] | _ => take n l :: chunks_from fuel n (drop n l) end
  end.

Definition chunks {A} (n : nat) (l : list A) : list (list A) := chunks_from (length l) n l.

Definition flag (b : bool) : Z := if b then 1 else 0.

(** [iter.sum::<uN>()] in [w] bits. *)
Definition sum_width (w : Z) (l : list Z) : Z := foldl (wrapping_add w) 0 l.

(** [iter.sum::<usize>()] of lengths of slices in memory. *)
Definition sum_usize (l : list Z) : Z := foldr Z.add 0 l.

End Utf16Std.

(** ** The module *)
Module Utf16.
Import Str Modes Utf16Std.

Definition INLINE_UTF16_CAPACITY : Z := 64.

(** A pointer to a counted string: null, or its alignment and the units it
    points to, the count first. *)
Inductive counted_pointer : Type :=
| NullPtr
| Ptr (aligned : bool) (count : Z) (payload : list Z).

Definition borrow_counted (pointer : counted_pointer) (argument : string)
  : XllResult (list Z) :=
  match pointer with
  | NullPtr => Err (input argument NullPointer)
  | Ptr aligned count payload =>
      if negb aligned then Err (input argument (Malformed "misaligned string pointer"))
      else
        let length := count in
        if EXCEL_STRING_LIMIT <? length
        then Err (input argument (TooLarge EXCEL_STRING_LIMIT length))
        else Ok (take (Z.to_nat length) payload)
  end.

Record Utf16Decoder : Type := mk_decoder { units : list Z; utf8_len : Z }.

(** The contribution of one unit to the planned length. *)
Definition unit_len (unit : Z) : Z :=
  1 + flag (0x80 <=? unit) + flag (0x800 <=? unit) - flag (between 0xD800 0xDFFF unit).

Definition decoder_new (units : list Z) : Utf16Decoder :=
  mk_decoder units
    (sum_usize ((fun chunk => sum_width 16 (unit_len <$> chunk)) <$> chunks 64 units)).

(** Storage that may be uninitialised. *)
Definition cell : Type := option Z.

Definition write_bytes (output : list cell) (at_ : nat) (bs : list Z) : outcome (list cell) :=
  if (at_ + length bs <=? length output)%nat
  then Done (take at_ output ++ (Some <$> bs) ++ drop (at_ + length bs) output)
  else Aborted.

(** The bytes of a scalar, narrowed to [u8]. *)
Definition scalar_bytes (scalar : Z) : list Z :=
  if scalar <=? 0x7F then [wrap 8 scalar]
  else if scalar <=? 0x7FF then
    [wrap 8 (Z.lor 0xC0 (Z.shiftr scalar 6)); wrap 8 (Z.lor 0x80 (Z.land scalar 0x3F))]
  else if scalar <=? 0xFFFF then
    [wrap 8 (Z.lor 0xE0 (Z.shiftr scalar 12));
     wrap 8 (Z.lor 0x80 (Z.land (Z.shiftr scalar 6) 0x3F));
     wrap 8 (Z.lor 0x80 (Z.land scalar 0x3F))]
  else
    [wrap 8 (Z.lor 0xF0 (Z.shiftr scalar 18));
     wrap 8 (Z.lor 0x80 (Z.land (Z.shiftr scalar 12) 0x3F));
     wrap 8 (Z.lor 0x80 (Z.land (Z.shiftr scalar 6) 0x3F));
     wrap 8 (Z.lor 0x80 (Z.land scalar 0x3F))].

(** The general loop: one scalar after the other at the initialised end. *)
Fixpoint decode_scalars (characters : list (option char)) (output : list cell)
    (initialized : nat) (argument : string) : outcome (XllResult (list cell * nat)) :=
  match characters with
  | [] => Done (Ok (output, initialized))
  | None :: _ => Done (Err (input argument InvalidUtf16))
  | Some scalar :: characters =>
      let* output := write_bytes output initialized (scalar_bytes scalar) in
      decode_scalars characters output (initialized + length (scalar_bytes scalar)) argument
  end.

Fixpoint write_ascii (units : list Z) (output : list cell) : list cell :=
  match output, units with
  | _ :: output, unit :: units => Some (wrap 8 unit) :: write_ascii units output
  | _, _ => output
  end.

Fixpoint decode_three_byte_bmp (units : list Z) (output : list cell) : list cell :=
  match output, units with
  | _ :: _ :: _ :: output, unit :: units =>
      Some (wrap 8 (Z.lor 0xE0 (Z.shiftr unit 12)))
      :: Some (wrap 8 (Z.lor 0x80 (Z.land (Z.shiftr unit 6) 0x3F)))
      :: Some (wrap 8 (Z.lor 0x80 (Z.land unit 0x3F)))
      :: decode_three_byte_bmp units output
  | _, _ => output
  end.

(** [Utf16Decoder::decode_into]: the bytes of the published [str]. *)
Definition decode_into (pw : pointer_width) (d : Utf16Decoder) (output : list cell)
    (argument : string) : outcome (XllResult (list Z)) :=
  let planned := Z.to_nat (utf8_len d) in
  if (length output <? planned)%nat then Panicked
  else
    let output := take planned output in
    let* r :=
      (if utf8_len d =? Z.of_nat (length (units d))
       then Done (Ok (write_ascii (units d) output, planned))
       else if bool_decide (checked_mul (bits pw) (Z.of_nat (length (units d))) 3
                            = Some (utf8_len d))
       then Done (Ok (decode_three_byte_bmp (units d) output, planned))
       else decode_scalars (decode_utf16 (units d)) output 0 argument) in
    match r with
    | Err e => Done (Err e)
    | Ok (output, initialized) =>
        if (length output <? initialized)%nat then Panicked
        else
          match mapM (M := option) id (take initialized output) with
          | Some bs => Done (Ok bs)
          | None => Aborted
          end
    end.

(** [decode_owned]; the allocator may give [spare] cells more than asked. *)
Definition decode_owned (pw : pointer_width) (spare : nat) (units : list Z) (argument : string)
  : outcome (XllResult (list Z)) :=
  let decoder := decoder_new units in
  let bytes : list cell := replicate (Z.to_nat (utf8_len decoder) + spare) None in
  decode_into pw decoder bytes argument.

(** Contribution of one UTF-8 byte to the UTF-16 length. *)
Definition byte_units (byte : Z) : Z :=
  flag (negb (Z.land byte 0xC0 =? 0x80)) + flag (0xF0 <=? byte).

Definition non_ascii_utf16_len (text : str) : Z :=
  sum_usize ((fun chunk => sum_width 8 (byte_units <$> chunk)) <$> chunks 64 (bytes text)).

Definition str_len (text : str) : Z := Z.of_nat (length (bytes text)).

Definition checked_utf16_len (text : str) (argument : string) (limit : Z) : XllResult Z :=
  let length := if forallb is_ascii text then str_len text else non_ascii_utf16_len text in
  if limit <? length then Err (input argument (TooLarge limit length)) else Ok length.

Definition validate_utf16_limit (text : str) (argument : string) (limit : Z) : XllResult unit :=
  if str_len text <=? limit then Ok tt
  else
    match checked_utf16_len text argument limit with
    | Ok _ => Ok tt
    | Err e => Err e
    end.

Definition fold_ascii (unit : Z) : Z :=
  if between 0x41 0x5A unit then wrapping_add 16 unit (0x61 - 0x41) else unit.

Definition utf16_eq_ignore_ascii_case (left right : list Z) : bool :=
  (length left =? length right)%nat
  && forallb (fun p => fold_ascii p.1 =? fold_ascii p.2) (zip left right).

(** [encode_counted]: the payload is written one unit at a time behind the
    count, into storage of [capacity] units. *)
Definition encode_counted (text : str) (argument : string) (limit : Z)
  : outcome (XllResult (list Z)) :=
  let limit := Z.min limit 0xFFFF in
  let plan : XllResult (Z * bool) :=
    if (str_len text <? INLINE_UTF16_CAPACITY) && (str_len text <=? limit)
    then Ok (str_len text + 1, forallb is_ascii text)
    else
      match checked_utf16_len text argument limit with
      | Err e => Err e
      | Ok length => Ok (length + 1, str_len text =? length)
      end in
  match plan with
  | Err e => Done (Err e)
  | Ok (capacity, ascii) =>
      if ascii : bool then Done (Ok (wrap 16 (str_len text) :: bytes text))
      else
        let payload := encode_utf16 text in
        if capacity <? 1 + Z.of_nat (length payload) then Aborted
        else Done (Ok (wrap 16 (Z.of_nat (length payload)) :: payload))
  end.

End Utf16.

(** ** Lemmas *)
Module Utf16Lemmas.
Import Str StrLemmas Modes NameLemmas Utf16Std Utf16.

(** *** Bits of the encodings as arithmetic *)
Lemma lor_field k m a : 0 <= k -> 0 <= a < 2 ^ k -> Z.lor (m * 2 ^ k) a = m * 2 ^ k + a.
Proof.
  intros Hk Ha. rewrite Z.lor_comm. pose proof (packed_lor_high k a Hk Ha 0 m) as E.
  rewrite Z.mul_0_l, Z.add_0_r, Z.lor_0_l in E. lia.
Qed.

Lemma land_low k x : 0 <= k -> Z.land x (2 ^ k - 1) = x mod 2 ^ k.
Proof. intros Hk. by rewrite Z.sub_1_r, <- Z.ones_equiv, Z.land_ones by lia. Qed.

Lemma continuation x : Z.lor 0x80 (Z.land x 0x3F) = 128 + x mod 64.
Proof.
  change 0x3F with (2 ^ 6 - 1). rewrite land_low by lia.
  pose proof (Z.mod_pos_bound x 64). change 0x80 with (1 * 2 ^ 7).
  rewrite lor_field; change (2 ^ 7) with 128; change (2 ^ 6) with 64; lia.
Qed.

Lemma lead_field k m c s :
  0 <= k -> 0 <= s -> 0 <= c < 2 ^ (k + s) ->
  Z.lor (m * 2 ^ k) (Z.shiftr c s) = m * 2 ^ k + c / 2 ^ s.
Proof.
  intros Hk Hs Hc. rewrite Z.shiftr_div_pow2 by lia. apply lor_field; [lia|].
  split; [apply Z.div_pos; [lia|apply Z.pow_pos_nonneg; lia]|].
  apply Z.div_lt_upper_bound; [apply Z.pow_pos_nonneg; lia|].
  rewrite <- Z.pow_add_r by lia. replace (s + k) with (k + s) by lia. lia.
Qed.

Definition utf8_arith (c : Z) : list Z :=
  if c <? 0x80 then [c]
  else if c <? 0x800 then [192 + c / 64; 128 + c mod 64]
  else if c <? 0x10000 then [224 + c / 4096; 128 + (c / 64) mod 64; 128 + c mod 64]
  else [240 + c / 262144; 128 + (c / 4096) mod 64; 128 + (c / 64) mod 64; 128 + c mod 64].

Lemma encode_utf8_arith c : 0 <= c < 0x110000 -> encode_utf8 c = utf8_arith c.
Proof.
  intros Hc. unfold encode_utf8, utf8_arith.
  destruct (Z.ltb_spec c 0x80); [done|]. destruct (Z.ltb_spec c 0x800).
  { rewrite continuation. change 0xC0 with (6 * 2 ^ 5).
    rewrite lead_field by (change (2 ^ (5 + 6)) with 2048; lia). done. }
  destruct (Z.ltb_spec c 0x10000).
  { rewrite !continuation. change 0xE0 with (14 * 2 ^ 4).
    rewrite lead_field by (change (2 ^ (4 + 12)) with 65536; lia).
    rewrite !Z.shiftr_div_pow2 by lia. done. }
  rewrite !continuation. change 0xF0 with (30 * 2 ^ 3).
  rewrite lead_field by (change (2 ^ (3 + 18)) with 2097152; lia).
  rewrite !Z.shiftr_div_pow2 by lia. done.
Qed.

Lemma scalar_range c : is_scalar c = true -> 0 <= c < 0xD800 \/ 0xE000 <= c < 0x110000.
Proof. unfold is_scalar. rewrite orb_true_iff, !between_spec. lia. Qed.

(** Ranges of the pieces of a scalar. *)
Lemma div_range c d : 0 <= c -> 0 < d -> 0 <= c / d <= c.
Proof. intros. split; [apply Z.div_pos; lia|]. apply Z.div_le_upper_bound; nia. Qed.

Lemma utf8_arith_bytes c b : 0 <= c < 0x110000 -> b ∈ utf8_arith c -> 0 <= b < 256.
Proof.
  intros Hc. unfold utf8_arith.
  pose proof (Z.mod_pos_bound c 64). pose proof (Z.mod_pos_bound (c / 64) 64).
  pose proof (Z.mod_pos_bound (c / 4096) 64).
  repeat case_match; rewrite ?Z.ltb_lt, ?Z.ltb_ge in *; set_unfold; intros Hb;
    repeat destruct Hb as [-> | Hb]; try done; try lia.
  - assert (c / 64 < 64); [apply Z.div_lt_upper_bound; lia|]. pose proof (div_range c 64). lia.
  - assert (c / 4096 < 32); [apply Z.div_lt_upper_bound; lia|]. pose proof (div_range c 4096). lia.
  - assert (c / 262144 < 16); [apply Z.div_lt_upper_bound; lia|].
    pose proof (div_range c 262144). lia.
Qed.

Lemma scalar_bytes_encode c : 0 <= c < 0x110000 -> scalar_bytes c = encode_utf8 c.
Proof.
  intros Hc. assert (scalar_bytes c = wrap 8 <$> encode_utf8 c) as ->.
  { unfold scalar_bytes, encode_utf8.
    destruct (Z.leb_spec c 0x7F), (Z.ltb_spec c 0x80); try lia; [done|].
    destruct (Z.leb_spec c 0x7FF), (Z.ltb_spec c 0x800); try lia; [done|].
    destruct (Z.leb_spec c 0xFFFF), (Z.ltb_spec c 0x10000); try lia; done. }
  rewrite encode_utf8_arith by done.
  rewrite <- (list_fmap_id (utf8_arith c)) at 2. apply list_fmap_ext. intros i b Hb.
  apply wrap_small. apply (utf8_arith_bytes c b Hc). by eapply list_elem_of_lookup_2.
Qed.

(** *** Chunked sums *)
Definition total_of {A} (f : A -> Z) (l : list A) : Z := foldr (fun x n => f x + n) 0 l.

Lemma total_of_app {A} (f : A -> Z) a b : total_of f (a ++ b) = total_of f a + total_of f b.
Proof. induction a as [|x a IH]; [done|]. unfold total_of in *. simpl. lia. Qed.

Lemma total_of_bounds {A} (f : A -> Z) B l :
  (forall x, x ∈ l -> 0 <= f x <= B) -> 0 <= total_of f l <= B * Z.of_nat (length l).
Proof.
  induction l as [|x l IH]; intros H; [simpl; lia|].
  assert (0 <= f x <= B) by (apply H; left).
  assert (0 <= total_of f l <= B * Z.of_nat (length l)) by (apply IH; intros; apply H; by right).
  unfold total_of in *. simpl length. simpl foldr. lia.
Qed.

Lemma sum_width_exact {A} w (f : A -> Z) l acc :
  (forall x, x ∈ l -> 0 <= f x) -> 0 <= acc -> acc + total_of f l < 2 ^ w ->
  foldl (wrapping_add w) acc (f <$> l) = acc + total_of f l.
Proof.
  revert acc. induction l as [|x l IH]; intros acc H Ha Hb; [simpl; lia|].
  assert (0 <= f x) by (apply H; left).
  assert (0 <= total_of f l).
  { clear -H. assert (forall y, y ∈ l -> 0 <= f y) as H' by (intros; apply H; by right).
    clear H. induction l as [|y l IH]; [done|].
    assert (0 <= f y) by (apply H'; left).
    assert (0 <= total_of f l) by (apply IH; intros; apply H'; by right).
    unfold total_of in *. simpl. lia. }
  change (total_of f (x :: l)) with (f x + total_of f l) in *. cbn [fmap list_fmap foldl].
  rewrite wrapping_add_small by (unfold in_width; lia).
  rewrite IH; [lia|intros; apply H; by right|lia|lia].
Qed.

Lemma chunk_total {A} w (f : A -> Z) B n l :
  (0 < n)%nat -> B * Z.of_nat n < 2 ^ w -> (forall x, x ∈ l -> 0 <= f x <= B) ->
  sum_usize ((fun chunk => sum_width w (f <$> chunk)) <$> chunks n l) = total_of f l.
Proof.
  intros Hn HB. unfold chunks. assert (length l <= length l)%nat as Hl by done. revert Hl.
  generalize (length l) at 2 3 as fuel. intros fuel. revert l.
  induction fuel as [|fuel IH]; intros l Hl H.
  { destruct l; [done|simpl in Hl; lia]. }
  destruct l as [|x l0]; [done|]. set (l := x :: l0) in *. assert (l <> []) as Hne by done.
  assert (chunks_from (S fuel) n l = take n l :: chunks_from fuel n (drop n l)) as ->.
  { subst l. done. }
  cbn [fmap list_fmap sum_usize foldr].
  change (foldr Z.add 0 ?m) with (sum_usize m). rewrite IH.
  - unfold sum_width.
    assert (forall y, y ∈ take n l -> 0 <= f y <= B) as Ht.
    { intros y Hy. apply H. rewrite <- (take_drop n l). apply elem_of_app. by left. }
    pose proof (total_of_bounds f B (take n l) Ht) as Hb.
    assert (length (take n l) <= n)%nat by (rewrite length_take; lia).
    rewrite sum_width_exact.
    + rewrite Z.add_0_l, <- total_of_app, take_drop. done.
    + intros y Hy. apply Ht in Hy. lia.
    + lia.
    + assert (0 <= B) by (pose proof (H x ltac:(left)); lia).
      assert (B * Z.of_nat (length (take n l)) <= B * Z.of_nat n) by nia. lia.
  - rewrite length_drop. subst l. simpl in *. lia.
  - intros y Hy. apply H. rewrite <- (take_drop n l). apply elem_of_app. by right.
Qed.

(** *** Planning and decoding *)
Definition unit16 (u : Z) : Prop := 0 <= u < 0x10000.

Lemma unit_len_cases u :
  unit16 u ->
  (u < 0x80 /\ unit_len u = 1)
  \/ (0x80 <= u < 0x800 /\ unit_len u = 2)
  \/ (is_surrogate u = true /\ unit_len u = 2)
  \/ (0x800 <= u /\ is_surrogate u = false /\ unit_len u = 3).
Proof.
  unfold unit16, unit_len. intros Hu. change (between 0xD800 0xDFFF u) with (is_surrogate u).
  destruct (is_surrogate u) eqn:E;
    [apply between_spec in E|apply not_true_iff_false in E; unfold is_surrogate in E;
       rewrite between_spec in E];
    unfold flag; destruct (Z.leb_spec 0x80 u), (Z.leb_spec 0x800 u); try lia.
Qed.

Definition plan (units : list Z) : Z := total_of unit_len units.

Lemma plan_cons u us : plan (u :: us) = unit_len u + plan us.
Proof. done. Qed.

Lemma unit_len_range u : unit16 u -> 1 <= unit_len u <= 3.
Proof. intros H%unit_len_cases. lia. Qed.

Lemma plan_bounds us :
  Forall unit16 us -> Z.of_nat (length us) <= plan us <= 3 * Z.of_nat (length us).
Proof.
  induction 1 as [|u us Hu _ IH]; [done|]. apply unit_len_range in Hu.
  rewrite plan_cons. cbn [length]. lia.
Qed.

Lemma decoder_new_plan us : Forall unit16 us -> utf8_len (decoder_new us) = plan us.
Proof.
  intros H. unfold decoder_new. cbn [utf8_len]. apply (chunk_total 16 unit_len 3); [lia|done|].
  intros u Hu. rewrite Forall_forall in H. apply H, unit_len_range in Hu. lia.
Qed.

(** The text a sequence of units denotes, if it is well formed. *)
Definition decode_str (us : list Z) : option str := mapM (M := option) id (decode_utf16 us).

Lemma pair_scalar_arith h l :
  0xD800 <= h <= 0xDBFF -> 0xDC00 <= l <= 0xDFFF ->
  pair_scalar h l = (h - 0xD800) * 1024 + (l - 0xDC00) + 0x10000.
Proof.
  intros Hh Hl. unfold pair_scalar. change 0x3FF with (2 ^ 10 - 1). rewrite !land_low by lia.
  rewrite Z.shiftl_mul_pow2 by lia. change (2 ^ 10) with 1024.
  replace (h mod 1024) with (h - 0xD800)
    by (replace h with (h - 0xD800 + 54 * 1024) at 2 by lia;
        rewrite Z.mod_add by lia; symmetry; apply Z.mod_small; lia).
  replace (l mod 1024) with (l - 0xDC00)
    by (replace l with (l - 0xDC00 + 55 * 1024) at 2 by lia;
        rewrite Z.mod_add by lia; symmetry; apply Z.mod_small; lia).
  change 1024 with (2 ^ 10). rewrite lor_field; [lia|lia|change (2 ^ 10) with 1024; lia].
Qed.

Lemma surrogate_split u :
  is_surrogate u = true -> is_low u = false -> 0xD800 <= u <= 0xDBFF.
Proof.
  intros H%between_spec L%not_true_iff_false. unfold is_low in L. rewrite between_spec in L. lia.
Qed.

(** Induction following the decoder. *)
Lemma units_ind (P : list Z -> Prop) :
  P [] ->
  (forall u us, unit16 u -> is_surrogate u = false -> Forall unit16 us -> P us -> P (u :: us)) ->
  (forall u us, is_surrogate u = true ->
     (exists t, decode_utf16 (u :: us) = None :: t) ->
     Forall unit16 us -> P (u :: us)) ->
  (forall h l us, 0xD800 <= h <= 0xDBFF -> 0xDC00 <= l <= 0xDFFF -> Forall unit16 us ->
     P us -> P (h :: l :: us)) ->
  forall us, Forall unit16 us -> P us.
Proof.
  intros Hn Hs He Hp us. remember (length us) as n eqn:En.
  revert us En. induction (lt_wf n) as [n _ IH]. intros us -> F.
  destruct us as [|u us]; [done|]. apply Forall_cons in F as [Hu F].
  destruct (is_surrogate u) eqn:S.
  2: { apply Hs; try done. eapply IH; [|done|done]. simpl. lia. }
  destruct (is_low u) eqn:L; [apply He; try done; simpl; rewrite S, L; by eexists|].
  destruct us as [|u2 us]; [apply He; try done; simpl; rewrite S, L; by eexists|].
  destruct (is_low u2) eqn:L2.
  - apply Forall_cons in F as [_ F]. apply Hp; [by apply surrogate_split| |done|].
    + by apply between_spec.
    + eapply IH; [|done|done]. simpl. lia.
  - apply He; try done. cbn [decode_utf16]. rewrite S, L, L2. by eexists.
Qed.

Lemma decode_bmp u us :
  is_surrogate u = false -> decode_utf16 (u :: us) = Some u :: decode_utf16 us.
Proof. intros H. simpl. by rewrite H. Qed.

Lemma decode_pair h l us :
  0xD800 <= h <= 0xDBFF -> 0xDC00 <= l <= 0xDFFF ->
  decode_utf16 (h :: l :: us) = Some (pair_scalar h l) :: decode_utf16 us.
Proof.
  intros Hh Hl. cbn [decode_utf16].
  assert (is_surrogate h = true) as -> by (apply between_spec; lia).
  assert (is_low h = false) as ->
    by (apply not_true_iff_false; unfold is_low; rewrite between_spec; lia).
  assert (is_low l = true) as -> by (by apply between_spec). done.
Qed.

Lemma decode_str_step c us us' :
  decode_utf16 us = Some c :: decode_utf16 us' ->
  decode_str us = match decode_str us' with Some s => Some (c :: s) | None => None end.
Proof. intros E. unfold decode_str. rewrite E. simpl. by destruct (mapM id _). Qed.

Lemma decode_str_error us t : decode_utf16 us = None :: t -> decode_str us = None.
Proof. intros E. unfold decode_str. by rewrite E. Qed.

Lemma surrogate_len u : unit16 u -> is_surrogate u = true -> unit_len u = 2.
Proof.
  intros Hu S. destruct (unit_len_cases u Hu) as [[? ?]|[[? ?]|[[? ?]|(? & E & ?)]]]; try done;
    [apply between_spec in S; lia..|congruence].
Qed.

(** A scalar takes as many bytes as the plan reserves for its units. *)
Lemma bmp_len u :
  unit16 u -> is_surrogate u = false -> Z.of_nat (length (scalar_bytes u)) = unit_len u.
Proof.
  intros Hu S. rewrite scalar_bytes_encode by (unfold unit16 in Hu; lia).
  rewrite encode_length. unfold len_utf8.
  destruct (unit_len_cases u Hu) as [[? ->]|[[? ->]|[[E ?]|(? & ? & ->)]]]; [..|congruence|];
    unfold unit16 in Hu;
    destruct (Z.ltb_spec u 0x80), (Z.ltb_spec u 0x800), (Z.ltb_spec u 0x10000); try lia; done.
Qed.

Lemma pair_len h l :
  0xD800 <= h <= 0xDBFF -> 0xDC00 <= l <= 0xDFFF ->
  0x10000 <= pair_scalar h l < 0x110000
  /\ Z.of_nat (length (scalar_bytes (pair_scalar h l))) = unit_len h + unit_len l.
Proof.
  intros Hh Hl. pose proof (pair_scalar_arith h l Hh Hl) as E.
  assert (0x10000 <= pair_scalar h l < 0x110000) as R by lia. split; [done|].
  rewrite scalar_bytes_encode, encode_length by lia. unfold len_utf8.
  rewrite !(proj2 (Z.ltb_ge _ _)) by lia.
  assert (forall u, 0xD800 <= u <= 0xDFFF -> unit_len u = 2) as K
    by (intros u Hu; apply surrogate_len; [unfold unit16; lia|by apply between_spec]).
  rewrite !K by lia. done.
Qed.

Lemma write_bytes_append done_ room bs :
  (length bs <= length room)%nat ->
  write_bytes ((Some <$> done_) ++ room) (length done_) bs
  = Done ((Some <$> (done_ ++ bs)) ++ drop (length bs) room).
Proof.
  intros H. unfold write_bytes. rewrite length_app, length_fmap.
  rewrite (proj2 (Nat.leb_le _ _)) by lia. f_equal.
  rewrite take_app_length' by (by rewrite length_fmap).
  rewrite fmap_app, <- app_assoc. do 2 f_equal.
  rewrite drop_app_ge by (rewrite length_fmap; lia). f_equal. rewrite length_fmap. lia.
Qed.

Lemma bytes_snoc s c : bytes (s ++ [c]) = bytes s ++ encode_utf8 c.
Proof. rewrite bytes_app. unfold bytes. simpl. by rewrite app_nil_r. Qed.

(** The general loop writes the text of the units after what is already
    there, within the planned room, or reports the first lone surrogate. *)
Definition decoded_at (argument : string) (us : list Z) (done_ : list Z) (room : list cell)
  : outcome (XllResult (list cell * nat)) :=
  Done (match decode_str us with
        | Some s => Ok ((Some <$> (done_ ++ bytes s)) ++ drop (length (bytes s)) room,
                        length (done_ ++ bytes s))
        | None => Err (input argument InvalidUtf16)
        end).

Lemma decoded_at_step argument c us us' done_ room :
  0 <= c < 0x110000 -> decode_utf16 us = Some c :: decode_utf16 us' ->
  decoded_at argument us' (done_ ++ scalar_bytes c) (drop (length (scalar_bytes c)) room)
  = decoded_at argument us done_ room.
Proof.
  intros Hc E. unfold decoded_at. rewrite (decode_str_step c us us' E).
  destruct (decode_str us') as [s|]; [|done].
  rewrite scalar_bytes_encode, bytes_cons, drop_drop, <- !app_assoc by done.
  by rewrite (length_app (encode_utf8 c) (bytes s)).
Qed.

Lemma decode_scalars_spec argument us :
  Forall unit16 us -> forall (done_ : list Z) (room : list cell),
  plan us <= Z.of_nat (length room) ->
  decode_scalars (decode_utf16 us) ((Some <$> done_) ++ room) (length done_) argument
  = decoded_at argument us done_ room.
Proof.
  revert us. refine (units_ind _ _ _ _ _).
  - intros done_ room _. unfold decoded_at, decode_str. simpl.
    by rewrite drop_0, app_nil_r.
  - intros u us Hu S F IH done_ room Hr. rewrite plan_cons in Hr.
    pose proof (bmp_len u Hu S) as Hl. pose proof (plan_bounds us F).
    pose proof (decode_bmp u us S) as D. rewrite D. cbn [decode_scalars].
    rewrite write_bytes_append by lia. cbn [obind].
    rewrite <- length_app, IH by (rewrite length_drop; lia).
    apply decoded_at_step; [unfold unit16 in Hu; lia|done].
  - intros u us S [t E] F done_ room Hr. unfold decoded_at. by rewrite (decode_str_error _ t E), E.
  - intros h l us Hh Hl F IH done_ room Hr. rewrite !plan_cons in Hr.
    destruct (pair_len h l Hh Hl) as [Hs Hn]. pose proof (plan_bounds us F).
    pose proof (decode_pair h l us Hh Hl) as D. rewrite D. cbn [decode_scalars].
    rewrite write_bytes_append by lia. cbn [obind].
    rewrite <- length_app, IH by (rewrite length_drop; lia).
    apply decoded_at_step; [lia|done].
Qed.

(** For well-formed input the plan is exact. *)
Lemma plan_exact us :
  Forall unit16 us -> forall s, decode_str us = Some s -> Z.of_nat (length (bytes s)) = plan us.
Proof.
  revert us. refine (units_ind _ _ _ _ _).
  - intros s [= <-]. done.
  - intros u us Hu S F IH s. rewrite (decode_str_step _ _ _ (decode_bmp u us S)).
    destruct (decode_str us) as [s'|] eqn:E; [|done]. intros [= <-].
    rewrite bytes_cons, length_app, plan_cons, <- (IH s' eq_refl), <- (bmp_len u Hu S).
    rewrite scalar_bytes_encode by (unfold unit16 in Hu; lia). lia.
  - intros u us S [t E] F s. by rewrite (decode_str_error _ t E).
  - intros h l us Hh Hl F IH s. rewrite (decode_str_step _ _ _ (decode_pair h l us Hh Hl)).
    destruct (pair_len h l Hh Hl) as [Hs Hn].
    destruct (decode_str us) as [s'|] eqn:E; [|done]. intros [= <-].
    rewrite bytes_cons, length_app, !plan_cons, <- (IH s' eq_refl).
    rewrite <- scalar_bytes_encode by lia. lia.
Qed.

(** *** The fast paths *)
Lemma plan_all_ascii us :
  Forall unit16 us -> plan us = Z.of_nat (length us) -> Forall (fun u => 0 <= u < 0x80) us.
Proof.
  induction 1 as [|u us Hu F IH]; [constructor|]. rewrite plan_cons. cbn [length]. intros E.
  pose proof (plan_bounds us F). pose proof (unit_len_cases u Hu). unfold unit16 in Hu.
  constructor; [lia|]. apply IH. lia.
Qed.

Lemma plan_all_three us :
  Forall unit16 us -> plan us = 3 * Z.of_nat (length us) ->
  Forall (fun u => 0x800 <= u < 0x10000 /\ is_surrogate u = false) us.
Proof.
  induction 1 as [|u us Hu F IH]; [constructor|]. rewrite plan_cons. cbn [length]. intros E.
  pose proof (plan_bounds us F). pose proof (unit_len_range u Hu).
  pose proof (unit_len_cases u Hu) as C. unfold unit16 in Hu.
  constructor; [|apply IH; lia].
  destruct C as [[? ?]|[[? ?]|[[? ?]|(? & ? & ?)]]]; [lia..|]. split; [lia|done].
Qed.

Lemma decode_str_bmp us : Forall (fun u => is_surrogate u = false) us -> decode_str us = Some us.
Proof.
  induction 1 as [|u us S _ IH]; [done|].
  by rewrite (decode_str_step _ _ _ (decode_bmp u us S)), IH.
Qed.

Lemma ascii_not_surrogate us :
  Forall (fun u => 0 <= u < 0x80) us -> Forall (fun u => is_surrogate u = false) us.
Proof.
  intros F. eapply Forall_impl; [exact F|]. intros u [? ?]. apply not_true_iff_false.
  unfold is_surrogate.
  rewrite between_spec. lia.
Qed.

Lemma write_ascii_spec us (output : list cell) :
  Forall (fun u => 0 <= u < 0x80) us -> length output = length us ->
  write_ascii us output = Some <$> us.
Proof.
  intros F. revert output. induction F as [|u us Hu _ IH]; intros [|c output] L; try done.
  simpl in *. rewrite IH by lia. rewrite wrap_small by (unfold in_width; lia). done.
Qed.

Lemma three_byte_spec us (output : list cell) :
  Forall (fun u => 0x800 <= u < 0x10000 /\ is_surrogate u = false) us ->
  length output = (3 * length us)%nat ->
  decode_three_byte_bmp us output = Some <$> bytes us.
Proof.
  intros F. revert output. induction F as [|u us [Hu S] _ IH]; intros output L.
  { by destruct output. }
  destruct output as [|c0 [|c1 [|c2 output]]]; simpl in L; try lia.
  rewrite bytes_cons, fmap_app, <- (IH output) by lia.
  rewrite <- scalar_bytes_encode by lia. unfold scalar_bytes.
  rewrite (proj2 (Z.leb_gt u 0x7F)), (proj2 (Z.leb_gt u 0x7FF)), (proj2 (Z.leb_le u 0xFFFF)) by lia.
  done.
Qed.

Lemma mapM_published (l : list Z) : mapM (M := option) id (Some <$> l) = Some l.
Proof. apply mapM_Some_2, Forall2_fmap_l. by induction l; constructor. Qed.

Lemma publish_prefix (bs : list Z) (rest : list cell) :
  mapM (M := option) id (take (length bs) ((Some <$> bs) ++ rest)) = Some bs.
Proof. rewrite take_app_length' by (by rewrite length_fmap). apply mapM_published. Qed.

(** Every path publishes the UTF-8 text of the units. *)
Lemma decode_into_spec pw us (output : list cell) argument :
  Forall unit16 us -> plan us <= Z.of_nat (length output) ->
  decode_into pw (decoder_new us) output argument
  = Done (match decode_str us with
          | Some s => Ok (bytes s)
          | None => Err (input argument InvalidUtf16)
          end).
Proof.
  intros F Hc. unfold decode_into. cbv zeta. rewrite decoder_new_plan by done.
  change (units (decoder_new us)) with us. pose proof (plan_bounds us F).
  rewrite (proj2 (Nat.ltb_ge _ _)) by lia.
  set (room := take (Z.to_nat (plan us)) output).
  assert (length room = Z.to_nat (plan us)) as Hr by (subst room; rewrite length_take; lia).
  destruct (Z.eqb_spec (plan us) (Z.of_nat (length us))) as [Ea|_].
  { pose proof (plan_all_ascii us F Ea) as A. cbn [obind].
    rewrite (write_ascii_spec us room A) by lia.
    rewrite length_fmap, (proj2 (Nat.ltb_ge _ _)) by lia.
    rewrite (decode_str_bmp us (ascii_not_surrogate us A)).
    rewrite bytes_ascii by (eapply Forall_impl; [exact A|]; intros ? [? ?]; lia).
    replace (Z.to_nat (plan us)) with (length us) by lia.
    rewrite <- (app_nil_r (Some <$> us)), publish_prefix. done. }
  case_bool_decide as Em.
  { assert (plan us = 3 * Z.of_nat (length us)) as Et.
    { unfold checked_mul in Em. case_match; simplify_eq; lia. }
    pose proof (plan_all_three us F Et) as A. cbn [obind].
    rewrite (three_byte_spec us room A) by lia.
    assert (decode_str us = Some us) as Ed
      by (apply decode_str_bmp; eapply Forall_impl; [exact A|]; by intros ? []).
    pose proof (plan_exact us F us Ed) as El. rewrite Ed.
    rewrite length_fmap, (proj2 (Nat.ltb_ge _ _)) by lia.
    replace (Z.to_nat (plan us)) with (length (bytes us)) by lia.
    rewrite <- (app_nil_r (Some <$> bytes us)), publish_prefix. done. }
  pose proof (decode_scalars_spec argument us F [] room) as D. rewrite Hr in D.
  specialize (D ltac:(lia)). cbn [fmap list_fmap app length] in D. rewrite D.
  unfold decoded_at. cbn [obind]. destruct (decode_str us) as [s|] eqn:Es; [|done].
  cbn [app]. rewrite length_app, length_fmap, (proj2 (Nat.ltb_ge _ _)) by lia.
  by rewrite publish_prefix.
Qed.

(** *** Encoding *)
Lemma encode_char_cases c :
  is_scalar c = true ->
  (c < 0x10000 /\ is_surrogate c = false /\ encode_char c = [c])
  \/ (exists h l, encode_char c = [h; l] /\ 0x10000 <= c
        /\ 0xD800 <= h <= 0xDBFF /\ 0xDC00 <= l <= 0xDFFF /\ pair_scalar h l = c).
Proof.
  intros H%scalar_range. unfold encode_char. destruct (Z.ltb_spec c 0x10000).
  - left. split; [done|]. split; [|done]. apply not_true_iff_false. unfold is_surrogate.
    rewrite between_spec. lia.
  - right. cbv zeta. set (c' := c - 0x10000). assert (0 <= c' < 2 ^ 20) by (subst c'; lia).
    assert (Z.lor 0xD800 (Z.shiftr c' 10) = 0xD800 + c' / 1024) as ->.
    { change 0xD800 with (54 * 2 ^ 10). by rewrite lead_field by (change (2 ^ (10 + 10)) with (2 ^ 20); lia). }
    assert (Z.lor 0xDC00 (Z.land c' 0x3FF) = 0xDC00 + c' mod 1024) as ->.
    { change 0x3FF with (2 ^ 10 - 1). rewrite land_low by lia.
      change 0xDC00 with (55 * 2 ^ 10). rewrite lor_field; [done|lia|].
      apply Z.mod_pos_bound. lia. }
    assert (0 <= c' / 1024 < 1024)
      by (split; [apply Z.div_pos; lia|apply Z.div_lt_upper_bound; lia]).
    pose proof (Z.mod_pos_bound c' 1024). pose proof (Z.div_mod c' 1024).
    eexists _, _. split; [done|]. split; [lia|]. split; [lia|]. split; [lia|].
    rewrite pair_scalar_arith by lia. subst c'. lia.
Qed.

Lemma encode_utf16_cons c s : encode_utf16 (c :: s) = encode_char c ++ encode_utf16 s.
Proof. done. Qed.

Lemma encode_utf16_unit16 s :
  Forall (fun c => is_scalar c = true) s -> Forall unit16 (encode_utf16 s).
Proof.
  induction 1 as [|c s Hc _ IH]; [constructor|]. rewrite encode_utf16_cons.
  apply Forall_app. split; [|done]. pose proof (scalar_range c Hc). unfold unit16.
  destruct (encode_char_cases c Hc) as [(? & _ & ->)|(h & l & -> & _ & ? & ? & _)];
    repeat constructor; lia.
Qed.

Lemma decode_encode_utf16 s :
  Forall (fun c => is_scalar c = true) s -> decode_str (encode_utf16 s) = Some s.
Proof.
  induction 1 as [|c s Hc _ IH]; [done|]. rewrite encode_utf16_cons.
  destruct (encode_char_cases c Hc) as [(? & S & ->)|(h & l & -> & _ & Hh & Hl & <-)]; cbn [app].
  - by rewrite (decode_str_step _ _ _ (decode_bmp c (encode_utf16 s) S)), IH.
  - by rewrite (decode_str_step _ _ _ (decode_pair h l (encode_utf16 s) Hh Hl)), IH.
Qed.

Lemma encode_char_length c : Z.of_nat (length (encode_char c)) = len_utf16 c.
Proof. unfold encode_char, len_utf16. by case_match. Qed.

Lemma encode_utf16_length s : Z.of_nat (length (encode_utf16 s)) = utf16_count s.
Proof.
  induction s as [|c s IH]; [done|]. rewrite encode_utf16_cons, length_app, Nat2Z.inj_add, IH.
  by rewrite encode_char_length.
Qed.

(** *** Counting *)
Lemma byte_units_table b :
  0 <= b < 256 ->
  byte_units b = (if between 0x80 0xBF b then 0 else 1) + (if 0xF0 <=? b then 1 else 0).
Proof.
  intros Hb.
  assert (Forall (fun b => byte_units b
      =? (if between 0x80 0xBF b then 0 else 1) + (if 0xF0 <=? b then 1 else 0)) (seqZ 0 256)) as F.
  { apply Forall_forall. intros x Hx. revert x Hx. apply Forall_forall.
    eapply Forall_impl; [apply (proj1 (forallb_Forall (fun b => byte_units b
      =? (if between 0x80 0xBF b then 0 else 1) + (if 0xF0 <=? b then 1 else 0)) (seqZ 0 256)));
      vm_compute; reflexivity|]. by intros x ->. }
  rewrite Forall_forall in F. apply Z.eqb_eq, Is_true_true, F, elem_of_seqZ. lia.
Qed.

Lemma between_true a b c : a <= c <= b -> between a b c = true.
Proof. apply between_spec. Qed.

Lemma between_false a b c : c < a \/ b < c -> between a b c = false.
Proof. intros H. apply not_true_iff_false. rewrite between_spec. lia. Qed.

Lemma char_units c :
  is_scalar c = true -> total_of byte_units (encode_utf8 c) = len_utf16 c.
Proof.
  intros H%scalar_range. rewrite encode_utf8_arith by lia.
  pose proof (utf8_arith_bytes c) as B. unfold utf8_arith, len_utf16 in *.
  pose proof (Z.mod_pos_bound c 64). pose proof (Z.mod_pos_bound (c / 64) 64).
  pose proof (Z.mod_pos_bound (c / 4096) 64).
  assert (forall x, 0 <= x < 64 -> byte_units (128 + x) = 0) as K.
  { intros x Hx. rewrite byte_units_table by lia. rewrite between_true by lia.
    by rewrite (proj2 (Z.leb_gt _ _)) by lia. }
  assert (forall x, 0 <= x < 128 \/ 192 <= x < 240 -> byte_units x = 1) as K1.
  { intros x Hx. rewrite byte_units_table by lia. rewrite between_false by lia.
    by rewrite (proj2 (Z.leb_gt _ _)) by lia. }
  destruct (Z.ltb_spec c 0x80); [cbn; rewrite K1 by lia; rewrite (proj2 (Z.ltb_lt c _)) by lia; done|].
  destruct (Z.ltb_spec c 0x800).
  { rewrite (proj2 (Z.ltb_lt c _)) by lia. cbn. rewrite K by lia.
    assert (c / 64 < 32) by (apply Z.div_lt_upper_bound; lia). pose proof (div_range c 64).
    rewrite K1 by lia. done. }
  destruct (Z.ltb_spec c 0x10000); cbn; rewrite !K by lia.
  { assert (c / 4096 < 16) by (apply Z.div_lt_upper_bound; lia). pose proof (div_range c 4096).
    rewrite K1 by lia. done. }
  assert (c / 262144 < 16) by (apply Z.div_lt_upper_bound; lia). pose proof (div_range c 262144).
  rewrite byte_units_table by lia. rewrite between_false by lia.
  by rewrite (proj2 (Z.leb_le _ _)) by lia.
Qed.

Definition text (s : str) : Prop := Forall (fun c => is_scalar c = true) s.

Lemma bytes_range s b : text s -> b ∈ bytes s -> 0 <= b < 256.
Proof.
  intros T. unfold bytes. rewrite list_elem_of_bind. intros (c & Hb & Hc).
  pose proof (proj1 (Forall_forall _ _) T c Hc) as H%scalar_range.
  rewrite encode_utf8_arith in Hb by lia. apply (utf8_arith_bytes c); [lia|done].
Qed.

Lemma non_ascii_utf16_len_exact s : text s -> non_ascii_utf16_len s = utf16_count s.
Proof.
  intros T. unfold non_ascii_utf16_len. rewrite (chunk_total 8 byte_units 2); [|lia|done|].
  - induction T as [|c s Hc T IH]; [done|].
    rewrite bytes_cons, total_of_app, char_units, IH by done. done.
  - intros b Hb%bytes_range; [|done]. rewrite byte_units_table by done.
    destruct (between _ _ b), (0xF0 <=? b); lia.
Qed.

Lemma len_utf16_le_utf8 c :
  len_utf16 c <= Z.of_nat (len_utf8 c) /\ (len_utf16 c = Z.of_nat (len_utf8 c) -> c < 0x80).
Proof.
  unfold len_utf16, len_utf8.
  destruct (Z.ltb_spec c 0x80), (Z.ltb_spec c 0x800), (Z.ltb_spec c 0x10000); lia.
Qed.

Lemma str_len_cons c s : str_len (c :: s) = Z.of_nat (len_utf8 c) + str_len s.
Proof. unfold str_len. rewrite bytes_cons, length_app, encode_length. lia. Qed.

Lemma utf16_le_utf8 s :
  utf16_count s <= str_len s
  /\ (utf16_count s = str_len s <-> forallb is_ascii s = true).
Proof.
  induction s as [|c s [IH1 IH2]]; [done|]. rewrite str_len_cons.
  change (utf16_count (c :: s)) with (len_utf16 c + utf16_count s).
  pose proof (len_utf16_le_utf8 c) as [L1 L2]. split; [lia|]. cbn [forallb].
  rewrite andb_true_iff, <- IH2. unfold is_ascii. rewrite Z.ltb_lt. split.
  - intros E. assert (len_utf16 c = Z.of_nat (len_utf8 c)) as El by lia. split; [auto|lia].
  - intros [Hc E]. unfold len_utf16, len_utf8.
    rewrite (proj2 (Z.ltb_lt c 0x80)), (proj2 (Z.ltb_lt c 0x10000)) by lia. lia.
Qed.

Lemma checked_utf16_len_exact s argument limit :
  text s -> checked_utf16_len s argument limit
  = if limit <? utf16_count s then Err (input argument (TooLarge limit (utf16_count s)))
    else Ok (utf16_count s).
Proof.
  intros T. unfold checked_utf16_len. cbv zeta.
  assert ((if forallb is_ascii s then str_len s else non_ascii_utf16_len s) = utf16_count s) as ->.
  { destruct (forallb is_ascii s) eqn:E; [symmetry; by apply utf16_le_utf8|].
    by apply non_ascii_utf16_len_exact. }
  done.
Qed.

Lemma ascii_encodings s :
  text s -> forallb is_ascii s = true -> bytes s = encode_utf16 s.
Proof.
  intros T A. apply forallb_Forall in A. induction T as [|c s Hc T IH]; [done|].
  apply Forall_cons in A as [Hl%Z.ltb_lt A].
  rewrite bytes_cons, encode_utf16_cons, encode_ascii, IH by (lia || done).
  unfold encode_char. by rewrite (proj2 (Z.ltb_lt c 0x10000)) by lia.
Qed.

(** *** Case folding *)
Definition lower (c : Z) : Z := if between 0x41 0x5A c then c + 32 else c.

Lemma fold_ascii_lower u : fold_ascii u = lower u.
Proof.
  unfold fold_ascii, lower. destruct (between 0x41 0x5A u) eqn:E; [|done].
  apply between_spec in E. rewrite wrapping_add_small by (unfold in_width; lia). lia.
Qed.

Lemma upper_lower a b : to_ascii_uppercase a = to_ascii_uppercase b <-> lower a = lower b.
Proof.
  rewrite !upper_range. unfold lower.
  destruct (between 97 122 a) eqn:A1, (between 97 122 b) eqn:B1,
    (between 0x41 0x5A a) eqn:A2, (between 0x41 0x5A b) eqn:B2;
    rewrite ?between_spec in *;
    repeat match goal with H : between _ _ _ = false |- _ =>
      apply not_true_iff_false in H; rewrite between_spec in H end; lia.
Qed.

Lemma lower_scalar c : is_scalar c = true -> is_scalar (lower c) = true.
Proof.
  intros H. unfold lower. destruct (between 0x41 0x5A c) eqn:E; [|done].
  apply between_spec in E. unfold is_scalar. rewrite (between_true 0 0xD7FF) by lia. done.
Qed.

Lemma lower_encode s :
  text s -> encode_utf16 (lower <$> s) = fold_ascii <$> encode_utf16 s.
Proof.
  induction 1 as [|c s Hc _ IH]; [done|]. cbn [fmap list_fmap].
  rewrite !encode_utf16_cons, IH, fmap_app. f_equal.
  destruct (encode_char_cases c Hc) as [(Hl & _ & ->)|(h & l & E & Hge & Hh & Hlo & _)].
  - cbn [fmap list_fmap]. rewrite fold_ascii_lower. unfold encode_char.
    rewrite (proj2 (Z.ltb_lt _ _)); [done|]. unfold lower. case_match; [|lia].
    match goal with H : between _ _ _ = true |- _ => apply between_spec in H end. lia.
  - assert (lower c = c) as -> by (unfold lower; by rewrite between_false by lia).
    rewrite E. cbn [fmap list_fmap]. rewrite !fold_ascii_lower. unfold lower.
    by rewrite !between_false by lia.
Qed.

Lemma encode_utf16_inj a b : text a -> text b -> encode_utf16 a = encode_utf16 b -> a = b.
Proof.
  intros Ta Tb E. pose proof (decode_encode_utf16 a Ta) as Da. pose proof (decode_encode_utf16 b Tb) as Db.
  rewrite E in Da. congruence.
Qed.

Lemma zip_forallb_eq (f : Z -> Z) a b :
  (length a =? length b)%nat && forallb (fun p => f p.1 =? f p.2) (zip a b) = true
  <-> f <$> a = f <$> b.
Proof.
  revert b. induction a as [|x a IH]; intros [|y b]; try done.
  cbn [length zip zip_with forallb Nat.eqb fmap list_fmap fst snd].
  specialize (IH b). rewrite andb_true_iff in IH |- *. rewrite andb_true_iff, Z.eqb_eq.
  split; [intros (L & E & F); f_equal; tauto|]. intros [= E F]. tauto.
Qed.

End Utf16Lemmas.

(** ** Correctness of the conversions *)
Module Utf16Theorems.
Import Str StrLemmas Modes NameLemmas Utf16Std Utf16 Utf16Lemmas.

(** C34: Decoding any sequence of 16-bit units never writes outside the
    planned storage, never publishes an uninitialised byte and never panics,
    whichever of the three paths the plan selects and however much storage
    the allocator adds; it returns the UTF-8 text of the units, of exactly
    the planned length, or the invalid-UTF-16 error exactly when a surrogate
    is unpaired. *)
Theorem utf16_decoding_correct pw spare us argument :
  Forall unit16 us ->
  decode_owned pw spare us argument
  = Done (match decode_str us with
          | Some s => Ok (bytes s)
          | None => Err (input argument InvalidUtf16)
          end)
  /\ forall s, decode_str us = Some s ->
       Z.of_nat (length (bytes s)) = utf8_len (decoder_new us).
Proof.
  intros F. split.
  - unfold decode_owned. cbv zeta. apply decode_into_spec; [done|].
    rewrite length_replicate, decoder_new_plan by done. lia.
  - intros s E. rewrite decoder_new_plan by done. by apply plan_exact.
Qed.

(** The units of a letter, an accented letter, a kanji and an emoji. *)
Definition example_units : list Z := [0x41; 0xE9; 0x65E5; 0xD83D; 0xDCA1].

Lemma utf16_decoding_correct_witness :
  decode_str example_units = Some [0x41; 0xE9; 0x65E5; 0x1F4A1]
  /\ decode_owned W64 7 example_units "text"
     = Done (Ok (bytes [0x41; 0xE9; 0x65E5; 0x1F4A1])).
Proof.
  assert (Forall unit16 example_units) as F
    by (unfold example_units; repeat (apply Forall_cons; split; [unfold unit16; lia|]);
        apply Forall_nil_2).
  assert (decode_str example_units = Some [0x41; 0xE9; 0x65E5; 0x1F4A1]) as E
    by (vm_compute; reflexivity).
  split; [exact E|].
  pose proof (proj1 (utf16_decoding_correct W64 7 example_units "text" F)) as D.
  rewrite E in D. exact D.
Defined.

(** Encoding a text as a counted string stays within the reserved
    capacity and succeeds exactly when its UTF-16 length fits the limit and a
    16-bit count; the result is that count followed by the UTF-16 units, and
    Excel's side of the boundary reads back the same text. *)
Theorem counted_string_roundtrip pw spare s argument limit :
  text s -> 0 <= limit ->
  encode_counted s argument limit
  = Done (if utf16_count s <=? Z.min limit 0xFFFF
          then Ok (utf16_count s :: encode_utf16 s)
          else Err (input argument (TooLarge (Z.min limit 0xFFFF) (utf16_count s))))
  /\ (utf16_count s <= EXCEL_STRING_LIMIT ->
      borrow_counted (Ptr true (utf16_count s) (encode_utf16 s)) argument = Ok (encode_utf16 s)
      /\ decode_owned pw spare (encode_utf16 s) argument = Done (Ok (bytes s))).
Proof.
  intros T Hl. pose proof (utf16_le_utf8 s) as [Hle Heq].
  pose proof (utf16_count_nonneg s). pose proof (encode_utf16_length s) as Hn. split.
  - unfold encode_counted. cbv zeta. set (lim := Z.min limit 0xFFFF).
    rewrite checked_utf16_len_exact by done.
    assert (lim <= 0xFFFF) by (subst lim; lia).
    destruct ((str_len s <? INLINE_UTF16_CAPACITY) && (str_len s <=? lim)) eqn:Short.
    + rewrite andb_true_iff, Z.ltb_lt, Z.leb_le in Short. destruct Short as [_ Short].
      rewrite (proj2 (Z.leb_le _ lim)) by lia.
      destruct (forallb is_ascii s) eqn:A.
      * rewrite <- ascii_encodings by done. rewrite (proj2 Heq) by done.
        rewrite wrap_small by (unfold in_width; lia). done.
      * rewrite Hn. rewrite (proj2 (Z.ltb_ge _ _)) by lia.
        rewrite wrap_small by (unfold in_width; lia). done.
    + destruct (Z.ltb_spec lim (utf16_count s)).
      { by rewrite (proj2 (Z.leb_gt _ _)) by lia. }
      rewrite (proj2 (Z.leb_le _ lim)) by lia.
      destruct (Z.eqb_spec (str_len s) (utf16_count s)) as [E|E].
      * rewrite <- ascii_encodings by (done || by apply Heq). rewrite E.
        rewrite wrap_small by (unfold in_width; lia). done.
      * rewrite Hn. rewrite (proj2 (Z.ltb_ge _ _)) by lia.
        rewrite wrap_small by (unfold in_width; lia). done.
  - intros Hx. split.
    + unfold borrow_counted. cbn [negb]. rewrite (proj2 (Z.ltb_ge _ _)) by lia.
      rewrite <- Hn, Nat2Z.id. by rewrite take_ge by lia.
    + pose proof (encode_utf16_unit16 s T) as F. unfold decode_owned. cbv zeta.
      rewrite decode_into_spec; [by rewrite decode_encode_utf16|done|].
      rewrite length_replicate, decoder_new_plan by done. lia.
Qed.

Definition example_text : str := [0x8A08; 0x7B97; 0x1F4A1; 0x21].

Lemma counted_string_roundtrip_witness :
  encode_counted example_text "name" 255
  = Done (Ok [5; 0x8A08; 0x7B97; 0xD83D; 0xDCA1; 0x21])
  /\ decode_owned W32 0 (encode_utf16 example_text) "name" = Done (Ok (bytes example_text)).
Proof.
  assert (text example_text) as T by (repeat (apply Forall_cons; split; [reflexivity|]);
    apply Forall_nil_2).
  assert (0 <= 255) as Hl by lia.
  pose proof (counted_string_roundtrip W32 0 example_text "name" 255 T Hl) as [E R].
  split; [exact E|]. apply R. vm_compute. discriminate.
Defined.

(** The length checks are exact: the vectorised byte count is the UTF-16
    length of the text, and both the check that returns it and the check that
    takes the byte-length shortcut accept exactly the texts within the limit. *)
Theorem utf16_limit_checks_exact s argument limit :
  text s ->
  (checked_utf16_len s argument limit = Ok (utf16_count s) <-> utf16_count s <= limit)
  /\ (validate_utf16_limit s argument limit = Ok tt <-> utf16_count s <= limit)
  /\ non_ascii_utf16_len s = utf16_count s.
Proof.
  intros T. unfold validate_utf16_limit. rewrite checked_utf16_len_exact by done.
  pose proof (utf16_le_utf8 s) as [Hle _].
  destruct (Z.ltb_spec limit (utf16_count s)).
  - split; [split; [done|lia]|]. split; [|by apply non_ascii_utf16_len_exact].
    rewrite (proj2 (Z.leb_gt _ _)) by lia. split; [done|lia].
  - split; [done|]. split; [|by apply non_ascii_utf16_len_exact].
    split; [done|]. by case_match.
Qed.

Lemma utf16_limit_checks_exact_witness :
  validate_utf16_limit example_text "topic" 5 = Ok tt /\ str_len example_text = 11.
Proof.
  assert (text example_text) as T by (repeat (apply Forall_cons; split; [reflexivity|]);
    apply Forall_nil_2).
  split; [|vm_compute; reflexivity].
  apply (proj1 (proj2 (utf16_limit_checks_exact example_text "topic" 5 T))).
  vm_compute. discriminate.
Defined.

(** Comparing UTF-16 units with ASCII case folding agrees with the case
    insensitive comparison of the texts they encode. *)
Theorem utf16_case_folding_agrees a b :
  text a -> text b ->
  utf16_eq_ignore_ascii_case (encode_utf16 a) (encode_utf16 b) = eq_ignore_ascii_case a b.
Proof.
  intros Ta Tb. apply eq_bool_prop_intro.
  rewrite !Is_true_true. unfold utf16_eq_ignore_ascii_case. rewrite zip_forallb_eq.
  unfold eq_ignore_ascii_case, str_eqb. rewrite bool_decide_eq_true.
  rewrite <- !lower_encode by done.
  assert ((to_ascii_uppercase <$> a = to_ascii_uppercase <$> b) <-> lower <$> a = lower <$> b) as ->.
  { clear Ta Tb. revert b. induction a as [|x a IH]; intros [|y b]; try done.
    cbn [fmap list_fmap]. specialize (IH b). pose proof (upper_lower x y).
    split; intros [= E F]; f_equal; tauto. }
  split; [|by intros ->]. apply encode_utf16_inj; apply Forall_fmap;
    (eapply Forall_impl; [eassumption|]; intros c; apply lower_scalar).
Qed.

Lemma utf16_case_folding_agrees_witness :
  utf16_eq_ignore_ascii_case (encode_utf16 (lit "Last")) (encode_utf16 (lit "LAST")) = true.
Proof.
  assert (text (lit "Last")) as A by (repeat (apply Forall_cons; split; [reflexivity|]);
    apply Forall_nil_2).
  assert (text (lit "LAST")) as B by (repeat (apply Forall_cons; split; [reflexivity|]);
    apply Forall_nil_2).
  rewrite (utf16_case_folding_agrees (lit "Last") (lit "LAST") A B).
  vm_compute. reflexivity.
Defined.

End Utf16Theorems.
