(* ===== verification/Token.v ===== *)
(** * Handle tokens

    Models crates/xlfn/src/handle/token.rs: the wire format of a handle, its
    authentication, and the per-thread cache of verified tokens.  A [str] is
    its UTF-8 bytes.  The keyed hash and the constant-time comparison come
    from other crates and are arguments of the codec. *)

From S2P Require Import Prelude SealableCounter Names Errors Utf16.
Import Errors.

Local Open Scope Z_scope.

Module Token.
Import Str.

Definition HANDLE_TOKEN_LENGTH : nat := 82.

Definition HEX : list Z := lit "0123456789abcdef".

Definition hex_digit (d : Z) : Z := nth (Z.to_nat d) HEX 0.

(** [write_hex] fills a slice of [n] bytes from its end. *)
Fixpoint write_hex (n : nat) (value : Z) : list Z :=
  match n with
  | O => []
  | S n => write_hex n (Z.shiftr value 4) ++ [hex_digit (Z.land value 0xF)]
  end.

Definition hex_nibble (value : Z) : option Z :=
  if between 48 57 value then Some (value - 48)
  else if between 97 102 value then Some (value - 97 + 10)
  else None.

(** The fold of [decode_hex] from the value read so far. *)
Fixpoint decode_hex_from (value : Z) (encoded : list Z) {struct encoded} : option Z :=
  match encoded with
  | [] => Some value
  | byte :: encoded =>
      match hex_nibble byte with
      | None => None
      | Some digit => decode_hex_from (Z.lor (wrap 64 (Z.shiftl value 4)) digit) encoded
      end
  end.

Definition decode_hex (encoded : list Z) : option Z := decode_hex_from 0 encoded.

Fixpoint decode_pairs (encoded : list Z) : option (list Z) :=
  match encoded with
  | hi :: lo :: encoded =>
      match hex_nibble hi, hex_nibble lo with
      | Some h, Some l =>
          match decode_pairs encoded with
          | Some tag => Some (Z.lor (wrap 8 (Z.shiftl h 4)) l :: tag)
          | None => None
          end
      | _, _ => None
      end
  | _ => Some []
  end.

Definition decode_tag (encoded : list Z) : option (list Z) :=
  if (length encoded =? 32)%nat then decode_pairs encoded else None.

(** [BindingGeneration] is a non-zero [u64]. *)
Definition BindingGeneration_new (raw : Z) : option Z := if raw =? 0 then None else Some raw.

Record HandleId : Type := mk_id { slot : Z; generation : Z }.

Record ParsedHandleToken : Type := mk_parsed { p_session : Z; p_id : HandleId; p_tag : list Z }.

Record VerifiedHandleToken : Type := mk_verified { v_id : HandleId }.

Record TokenCodec : Type := mk_codec { session : Z; secret : list Z }.

#[export] Instance HandleId_eq_dec : EqDecision HandleId.
Proof. solve_decision. Defined.

(** [slice[at..].copy_from_slice(bs)] into a vector; out of range panics. *)
Definition copy_into (at_ : nat) (bs v : list Z) : outcome (list Z) :=
  if (at_ + length bs <=? length v)%nat
  then Done (take at_ v ++ bs ++ drop (at_ + length bs) v)
  else Panicked.

(** [str::from_utf8] on bytes. *)
Definition continuation_byte (b : Z) : bool := between 0x80 0xBF b.

Fixpoint utf8_valid (bs : list Z) : bool :=
  match bs with
  | [] => true
  | b0 :: r0 =>
      if between 0 0x7F b0 then utf8_valid r0
      else
        match r0 with
        | [] => false
        | b1 :: r1 =>
            if between 0xC2 0xDF b0 then continuation_byte b1 && utf8_valid r1
            else
              match r1 with
              | [] => false
              | b2 :: r2 =>
                  if between 0xE0 0xEF b0 then
                    between (if b0 =? 0xE0 then 0xA0 else 0x80)
                            (if b0 =? 0xED then 0x9F else 0xBF) b1
                    && continuation_byte b2 && utf8_valid r2
                  else
                    match r2 with
                    | [] => false
                    | b3 :: r3 =>
                        between 0xF0 0xF4 b0
                        && between (if b0 =? 0xF0 then 0x90 else 0x80)
                                   (if b0 =? 0xF4 then 0x8F else 0xBF) b1
                        && continuation_byte b2 && continuation_byte b3 && utf8_valid r3
                    end
              end
        end
  end.

(** Little-endian bytes of an [n]-byte integer. *)
Fixpoint to_le_bytes (n : nat) (value : Z) : list Z :=
  match n with
  | O => []
  | S n => Z.land value 0xFF :: to_le_bytes n (Z.shiftr value 8)
  end.

Definition token_prefix : list Z := lit "xllh:3:".
Definition message_prefix : list Z := lit "xlfn-handle-token-v1" ++ [0].

(** Two hex digits per byte of the tag. *)
Definition tag_pairs (tag : list Z) : list Z :=
  tag ≫= (fun byte => [hex_digit (Z.shiftr byte 4); hex_digit (Z.land byte 0xF)]).

Section Codec.
Context (keyed_hash : list Z -> list Z -> list Z)
        (constant_time_eq : list Z -> list Z -> bool).

Definition authentication_tag (c : TokenCodec) (id : HandleId) : outcome (list Z) :=
  let message := replicate 41 0 in
  let* message := copy_into 0 message_prefix message in
  let* message := copy_into 21 (to_le_bytes 8 (session c)) message in
  let* message := copy_into 29 (to_le_bytes 4 (slot id)) message in
  let* message := copy_into 33 (to_le_bytes 8 (generation id)) message in
  let hash := keyed_hash (secret c) message in
  if (length hash <? 16)%nat then Panicked else Done (take 16 hash).

Definition format (c : TokenCodec) (id : HandleId) : outcome (list Z) :=
  let token := replicate HANDLE_TOKEN_LENGTH 58 in
  let* token := copy_into 0 token_prefix token in
  let* token := copy_into 7 (write_hex 16 (session c)) token in
  let* token := copy_into 24 (write_hex 8 (slot id)) token in
  let* token := copy_into 33 (write_hex 16 (generation id)) token in
  let* tag := authentication_tag c id in
  let* token := copy_into 50 (take 32 (tag_pairs tag)) token in
  if utf8_valid token then Done token else Panicked.

Definition ok_or {A} (o : option A) : XllResult A :=
  match o with Some a => Ok a | None => Err InvalidHandle end.

Definition byte_at (bs : list Z) (i : nat) : Z := nth i bs 0.

Definition slice (a b : nat) (bs : list Z) : list Z := take (b - a) (drop a bs).

(** [TokenCodec::parse_uncached]; the guards make every index valid. *)
Definition parse_uncached (bs : list Z) : XllResult ParsedHandleToken :=
  if negb (length bs =? HANDLE_TOKEN_LENGTH)%nat
     || negb (bool_decide (take 7 bs = token_prefix))
     || negb (byte_at bs 23 =? 58) || negb (byte_at bs 32 =? 58) || negb (byte_at bs 49 =? 58)
  then Err InvalidHandle
  else
    match decode_hex (slice 7 23 bs) with
    | None => Err InvalidHandle
    | Some session =>
        match decode_hex (slice 24 32 bs) with
        | None => Err InvalidHandle
        | Some slot =>
            match decode_hex (slice 33 49 bs) ≫= BindingGeneration_new with
            | None => Err InvalidHandle
            | Some generation =>
                match decode_tag (drop 50 bs) with
                | None => Err InvalidHandle
                | Some tag => Ok (mk_parsed session (mk_id (wrap 32 slot) generation) tag)
                end
            end
        end
    end.

Definition verify (c : TokenCodec) (parsed : ParsedHandleToken)
  : outcome (XllResult VerifiedHandleToken) :=
  let* expected := authentication_tag c (p_id parsed) in
  Done (if negb (p_session parsed =? session c) || negb (constant_time_eq (p_tag parsed) expected)
        then Err InvalidHandle
        else Ok (mk_verified (p_id parsed))).

(** ** The verified-token cache of one thread *)
Definition VERIFIED_TOKEN_CACHE_SETS : nat := 16.
Definition VERIFIED_TOKEN_CACHE_WAYS : nat := 4.

Record VerifiedTokenCacheEntry : Type := mk_entry {
  e_registry_address : Z;
  e_session : Z;
  e_secret : list Z;
  e_token : list Z;
  e_slot : Z;
  e_generation : Z
}.

Record VerifiedTokenCache : Type := mk_cache {
  sets : list (list (option VerifiedTokenCacheEntry));
  victims : list Z
}.

Definition cache_new : VerifiedTokenCache :=
  mk_cache (replicate VERIFIED_TOKEN_CACHE_SETS (replicate VERIFIED_TOKEN_CACHE_WAYS None))
           (replicate VERIFIED_TOKEN_CACHE_SETS 0).

Definition verified_token_cache_index (bs : list Z) : option nat :=
  if (length bs =? HANDLE_TOKEN_LENGTH)%nat
  then Z.to_nat <$> hex_nibble (byte_at bs (HANDLE_TOKEN_LENGTH - 1))
  else None.

Fixpoint find_entry (registry_address sess : Z) (sec bs : list Z)
    (ways : list (option VerifiedTokenCacheEntry)) : option HandleId :=
  match ways with
  | [] => None
  | None :: ways => find_entry registry_address sess sec bs ways
  | Some e :: ways =>
      if (e_registry_address e =? registry_address) && (e_session e =? sess)
         && bool_decide (e_token e = bs) && bool_decide (e_secret e = sec)
      then Some (mk_id (e_slot e) (e_generation e))
      else find_entry registry_address sess sec bs ways
  end.

Definition verified_token_cache_lookup (cache : VerifiedTokenCache) (registry_address sess : Z)
    (sec bs : list Z) : outcome (option HandleId) :=
  match verified_token_cache_index bs with
  | None => Done None
  | Some index =>
      match sets cache !! index with
      | None => Panicked
      | Some ways => Done (find_entry registry_address sess sec bs ways)
      end
  end.

Definition verified_token_cache_store (cache : VerifiedTokenCache) (registry_address sess : Z)
    (sec bs : list Z) (id : HandleId) : outcome VerifiedTokenCache :=
  match verified_token_cache_index bs with
  | None => Done cache
  | Some index =>
      match victims cache !! index, sets cache !! index with
      | Some victim, Some ways =>
          let victim := Z.to_nat victim in
          let entry := mk_entry registry_address sess sec bs (slot id) (generation id) in
          if (victim <? length ways)%nat
          then Done (mk_cache
                 (<[index := <[victim := Some entry]> ways]> (sets cache))
                 (<[index := wrap 8 (Z.of_nat ((victim + 1) mod VERIFIED_TOKEN_CACHE_WAYS))]>
                    (victims cache)))
          else Panicked
      | _, _ => Panicked
      end
  end.

(** [TokenCodec::parse], threading the thread's cache. *)
Definition parse (c : TokenCodec) (cache : VerifiedTokenCache) (registry_address : Z) (bs : list Z)
  : outcome (XllResult VerifiedHandleToken * VerifiedTokenCache) :=
  let* hit := verified_token_cache_lookup cache registry_address (session c) (secret c) bs in
  match hit with
  | Some id => Done (Ok (mk_verified id), cache)
  | None =>
      match parse_uncached bs with
      | Err e => Done (Err e, cache)
      | Ok parsed =>
          let* v := verify c parsed in
          match v with
          | Err e => Done (Err e, cache)
          | Ok verified =>
              let* cache := verified_token_cache_store cache registry_address (session c)
                              (secret c) bs (v_id verified) in
              Done (Ok verified, cache)
          end
      end
  end.

End Codec.

(** ** Tokens received as UTF-16 *)
Section Utf16Token.
Context {R : Type} (pw : pointer_width) (spare : nat) (argument : string)
        (operation : list Z -> outcome (XllResult R)).

Definition decode_and_run (units : list Z) : outcome (XllResult R) :=
  let* decoded := Utf16.decode_owned pw spare units argument in
  match decoded with
  | Err e => Done (Err e)
  | Ok token => operation token
  end.

(** The narrowing loop: [None] when a unit is not ASCII. *)
Fixpoint narrow (units : list Z) : option (list Z) :=
  match units with
  | [] => Some []
  | unit :: units =>
      if 0x7F <? unit then None
      else match narrow units with Some bs => Some (wrap 8 unit :: bs) | None => None end
  end.

Definition with_utf16_handle_token (units : list Z) : outcome (XllResult R) :=
  if (length units =? HANDLE_TOKEN_LENGTH)%nat then
    match narrow units with
    | None => decode_and_run units
    | Some bs => if utf8_valid bs then operation bs else Done (Err InvalidHandle)
    end
  else decode_and_run units.

End Utf16Token.

End Token.

(** ** Lemmas *)
Module TokenLemmas.
Import Str StrLemmas Token Utf16Lemmas.

(** *** Hexadecimal *)
Lemma hex_digit_cases d :
  0 <= d < 16 -> hex_digit d = (if d <? 10 then 48 + d else 87 + d).
Proof.
  intros Hd.
  assert (d ∈ seqZ 0 16) as Hin by (apply elem_of_seqZ; lia).
  assert (Forall (fun d => (hex_digit d =? (if d <? 10 then 48 + d else 87 + d)) = true) (seqZ 0 16))
    as F by (apply forallb_Forall; vm_compute; reflexivity).
  by apply Z.eqb_eq, (proj1 (Forall_forall _ _) F).
Qed.

Lemma hex_nibble_digit d : 0 <= d < 16 -> hex_nibble (hex_digit d) = Some d.
Proof.
  intros Hd. rewrite hex_digit_cases by done. unfold hex_nibble.
  destruct (Z.ltb_spec d 10).
  - rewrite between_true by lia. f_equal. lia.
  - rewrite between_false, between_true by lia. f_equal. lia.
Qed.

Lemma hex_nibble_inv b d : hex_nibble b = Some d -> 0 <= d < 16 /\ b = hex_digit d.
Proof.
  unfold hex_nibble. destruct (between 48 57 b) eqn:E1; [|destruct (between 97 102 b) eqn:E2; [|done]].
  - apply between_spec in E1. intros [= <-]. split; [lia|].
    rewrite hex_digit_cases by lia. rewrite (proj2 (Z.ltb_lt _ _)) by lia. lia.
  - apply between_spec in E2. intros [= <-]. split; [lia|].
    rewrite hex_digit_cases by lia. rewrite (proj2 (Z.ltb_ge _ _)) by lia. lia.
Qed.

Lemma hex_digit_ascii d : 0 <= d < 16 -> 48 <= hex_digit d <= 102.
Proof. intros Hd. rewrite hex_digit_cases by done. case_match; lia. Qed.

Lemma shift_in v d : 0 <= v < 2 ^ 60 -> 0 <= d < 16 ->
  Z.lor (wrap 64 (Z.shiftl v 4)) d = 16 * v + d.
Proof.
  intros Hv Hd. rewrite Z.shiftl_mul_pow2 by lia.
  rewrite wrap_small by (unfold in_width; lia). rewrite lor_field; lia.
Qed.

Lemma nibble_split v : 0 <= v ->
  Z.shiftr v 4 = v / 16 /\ Z.land v 0xF = v mod 16 /\ 0 <= v mod 16 < 16.
Proof.
  intros Hv. rewrite Z.shiftr_div_pow2 by lia. change 0xF with (2 ^ 4 - 1).
  rewrite land_low by lia. split; [done|]. split; [done|]. apply Z.mod_pos_bound. lia.
Qed.

Lemma write_hex_length n v : length (write_hex n v) = n.
Proof. revert v. induction n as [|n IH]; intros v; [done|]. simpl. rewrite length_app, IH. simpl. lia. Qed.

Lemma decode_hex_from_app value a b :
  decode_hex_from value (a ++ b)
  = match decode_hex_from value a with Some v => decode_hex_from v b | None => None end.
Proof. revert value. induction a as [|x a IH]; intros value; [done|]. simpl. by case_match. Qed.

Lemma decode_write_hex n v :
  (n <= 16)%nat -> 0 <= v < 16 ^ Z.of_nat n -> decode_hex (write_hex n v) = Some v.
Proof.
  revert v. induction n as [|n IH]; intros v Hn Hv.
  { change (16 ^ Z.of_nat 0) with 1 in Hv. assert (v = 0) as -> by lia. done. }
  replace (16 ^ Z.of_nat (S n)) with (16 * 16 ^ Z.of_nat n) in Hv
    by (rewrite Nat2Z.inj_succ, Z.pow_succ_r by lia; done).
  destruct (nibble_split v) as (E1 & E2 & Hm); [lia|].
  cbn [write_hex]. rewrite E1, E2. unfold decode_hex. rewrite decode_hex_from_app.
  assert (0 <= v / 16 < 16 ^ Z.of_nat n) as Hq
    by (split; [apply Z.div_pos; lia|apply Z.div_lt_upper_bound; lia]).
  fold (decode_hex (write_hex n (v / 16))). rewrite IH by (lia || done).
  cbn [decode_hex_from]. rewrite hex_nibble_digit by done. f_equal.
  assert (16 ^ Z.of_nat n <= 16 ^ 15) by (apply Z.pow_le_mono_r; lia).
  change (16 ^ 15) with (2 ^ 60) in *.
  rewrite shift_in by lia. pose proof (Z.div_mod v 16). lia.
Qed.

Lemma decode_hex_inv bs v :
  (length bs <= 16)%nat -> decode_hex bs = Some v ->
  0 <= v < 16 ^ Z.of_nat (length bs) /\ bs = write_hex (length bs) v.
Proof.
  revert v. induction bs as [|b bs IH] using rev_ind; intros v Hl H.
  { unfold decode_hex in H. simpl in H. simplify_eq. done. }
  rewrite length_app in Hl |- *. simpl length in *. unfold decode_hex in H.
  rewrite decode_hex_from_app in H. fold (decode_hex bs) in H.
  destruct (decode_hex bs) as [v0|] eqn:E0; [|done].
  destruct (IH v0) as [Hv0 Eb]; [lia|done|]. cbn [decode_hex_from] in H.
  destruct (hex_nibble b) as [d|] eqn:Ed; [|done]. apply hex_nibble_inv in Ed as [Hd ->].
  assert (16 ^ Z.of_nat (length bs) <= 16 ^ 15) by (apply Z.pow_le_mono_r; lia).
  change (16 ^ 15) with (2 ^ 60) in *. rewrite shift_in in H by lia. injection H as <-.
  replace (length bs + 1)%nat with (S (length bs)) by lia.
  rewrite Nat2Z.inj_succ, Z.pow_succ_r by lia. split; [lia|]. cbn [write_hex].
  destruct (nibble_split (16 * v0 + d)) as (-> & -> & _); [lia|].
  replace ((16 * v0 + d) / 16) with v0
    by (replace (16 * v0 + d) with (d + v0 * 16) by lia; rewrite Z.div_add, Z.div_small by lia; lia).
  replace ((16 * v0 + d) mod 16) with d
    by (replace (16 * v0 + d) with (d + v0 * 16) by lia; rewrite Z.mod_add, Z.mod_small by lia; lia).
  by rewrite Eb at 1.
Qed.

Definition byte (b : Z) : Prop := 0 <= b < 256.

Lemma byte_split b : byte b ->
  Z.shiftr b 4 = b / 16 /\ Z.land b 0xF = b mod 16 /\ 0 <= b / 16 < 16 /\ 0 <= b mod 16 < 16.
Proof.
  intros Hb. unfold byte in Hb. destruct (nibble_split b) as (-> & -> & ?); [lia|].
  split_and!; try done; try lia; [apply Z.div_pos; lia|apply Z.div_lt_upper_bound; lia].
Qed.

Lemma join_nibbles h l : 0 <= h < 16 -> 0 <= l < 16 ->
  Z.lor (wrap 8 (Z.shiftl h 4)) l = 16 * h + l.
Proof.
  intros Hh Hl. rewrite Z.shiftl_mul_pow2 by lia.
  rewrite wrap_small by (unfold in_width; lia). rewrite lor_field; lia.
Qed.

Lemma tag_pairs_cons b tag :
  tag_pairs (b :: tag)
  = hex_digit (Z.shiftr b 4) :: hex_digit (Z.land b 0xF) :: tag_pairs tag.
Proof. done. Qed.

Lemma decode_pairs_tag tag : Forall byte tag -> decode_pairs (tag_pairs tag) = Some tag.
Proof.
  induction 1 as [|b tag Hb _ IH]; [done|].
  rewrite tag_pairs_cons.
  cbn [decode_pairs]. rewrite IH. destruct (byte_split b Hb) as (-> & -> & ? & ?).
  rewrite !hex_nibble_digit by done. do 2 f_equal. rewrite join_nibbles by done.
  pose proof (Z.div_mod b 16). lia.
Qed.

Lemma decode_pairs_inv bs tag :
  Nat.even (length bs) = true -> decode_pairs bs = Some tag ->
  Forall byte tag /\ bs = tag_pairs tag.
Proof.
  remember (length bs) as n eqn:En. revert bs tag En.
  induction (lt_wf n) as [n _ IH]. intros bs tag -> He H.
  destruct bs as [|h [|l bs]]; [simpl in H; simplify_eq; by split|done|].
  simpl in He. cbn [decode_pairs] in H.
  destruct (hex_nibble h) as [x|] eqn:Ex; [|done].
  destruct (hex_nibble l) as [y|] eqn:Ey; [|done].
  destruct (decode_pairs bs) as [t|] eqn:Et; [|done]. injection H as <-.
  apply hex_nibble_inv in Ex as [Hx ->]. apply hex_nibble_inv in Ey as [Hy ->].
  destruct (IH (length bs) ltac:(simpl; lia) bs t eq_refl He Et) as [Ft ->].
  rewrite join_nibbles by done.
  assert (byte (16 * x + y)) as Hb by (unfold byte; lia).
  split; [by constructor|].
  rewrite tag_pairs_cons.
  destruct (byte_split _ Hb) as (-> & -> & _).
  replace ((16 * x + y) / 16) with x
    by (replace (16 * x + y) with (y + x * 16) by lia; rewrite Z.div_add, Z.div_small by lia; lia).
  replace ((16 * x + y) mod 16) with y
    by (replace (16 * x + y) with (y + x * 16) by lia; rewrite Z.mod_add, Z.mod_small by lia; lia).
  done.
Qed.

Lemma tag_pairs_length tag : length (tag_pairs tag) = (2 * length tag)%nat.
Proof. induction tag as [|b tag IH]; [done|]. rewrite tag_pairs_cons. simpl. lia. Qed.

(** *** Tokens are ASCII *)
Lemma utf8_valid_ascii bs : Forall (fun b => 0 <= b < 128) bs -> utf8_valid bs = true.
Proof.
  induction 1 as [|b bs Hb _ IH]; [done|]. simpl. by rewrite between_true by lia.
Qed.

Lemma write_hex_ascii n v : 0 <= v -> Forall (fun b => 0 <= b < 128) (write_hex n v).
Proof.
  revert v. induction n as [|n IH]; intros v Hv; [constructor|]. cbn [write_hex].
  destruct (nibble_split v Hv) as (-> & -> & Hm). apply Forall_app.
  split; [apply IH, Z.div_pos; lia|]. pose proof (hex_digit_ascii _ Hm).
  constructor; [lia|constructor].
Qed.

Lemma tag_pairs_ascii tag : Forall byte tag -> Forall (fun b => 0 <= b < 128) (tag_pairs tag).
Proof.
  induction 1 as [|b tag Hb _ IH]; [constructor|].
  rewrite tag_pairs_cons.
  destruct (byte_split b Hb) as (-> & -> & H1 & H2).
  apply hex_digit_ascii in H1, H2. constructor; [lia|]. constructor; [lia|done].
Qed.

(** *** Slices of a laid-out token *)

(** Lengths of laid-out lists. *)
Ltac lens := repeat first [rewrite length_app | rewrite length_cons | progress cbn [length]].

Lemma copy_into_gap known g k x bs at_ :
  at_ = (length known + g)%nat -> (g + length bs <= k)%nat ->
  copy_into at_ bs (known ++ replicate k x)
  = Done ((known ++ replicate g x ++ bs) ++ replicate (k - g - length bs) x).
Proof.
  intros -> Hk. unfold copy_into. rewrite length_app, length_replicate.
  rewrite (proj2 (Nat.leb_le _ _)) by lia. f_equal.
  rewrite take_app_ge, drop_app_ge by lia.
  replace (length known + g - length known)%nat with g by lia.
  replace (length known + g + length bs - length known)%nat with (g + length bs)%nat by lia.
  rewrite take_replicate, drop_replicate, Nat.min_l by lia.
  replace (k - (g + length bs))%nat with (k - g - length bs)%nat by lia.
  by rewrite <- !app_assoc.
Qed.

Lemma slice_app a b p x q :
  length p = a -> length x = (b - a)%nat -> slice a b (p ++ x ++ q) = x.
Proof.
  intros <- Hx. unfold slice. by rewrite drop_app_length, take_app_length' by lia.
Qed.

Lemma byte_at_app p x q i : length p = i -> byte_at (p ++ x :: q) i = x.
Proof. intros <-. unfold byte_at. by rewrite app_nth2, Nat.sub_diag by lia. Qed.

Lemma drop_slice a b bs : (a <= b)%nat -> drop a bs = slice a b bs ++ drop b bs.
Proof.
  intros H. unfold slice. rewrite <- (take_drop (b - a) (drop a bs)) at 1.
  by rewrite drop_drop, Nat.add_comm, Nat.sub_add by lia.
Qed.

Lemma drop_byte i bs : (i < length bs)%nat -> drop i bs = byte_at bs i :: drop (S i) bs.
Proof.
  intros H. unfold byte_at.
  destruct (lookup_lt_is_Some_2 bs i H) as [x Hx]. rewrite (drop_S bs x i Hx). f_equal.
  symmetry. apply nth_lookup_Some with (d := 0) in Hx. done.
Qed.

Lemma slice_length a b bs : (a <= b <= length bs)%nat -> length (slice a b bs) = (b - a)%nat.
Proof. intros H. unfold slice. rewrite length_take, length_drop. lia. Qed.

(** *** The wire format *)
Definition render (sess slt gen : Z) (tag : list Z) : list Z :=
  token_prefix ++ write_hex 16 sess ++ 58 :: write_hex 8 slt ++ 58 :: write_hex 16 gen
  ++ 58 :: tag_pairs tag.

Lemma render_length sess slt gen tag :
  length tag = 16%nat -> length (render sess slt gen tag) = HANDLE_TOKEN_LENGTH.
Proof.
  intros H. unfold render. lens. rewrite !write_hex_length, tag_pairs_length, H. done.
Qed.

Lemma render_ascii sess slt gen tag :
  0 <= sess -> 0 <= slt -> 0 <= gen -> Forall byte tag ->
  Forall (fun b => 0 <= b < 128) (render sess slt gen tag).
Proof.
  intros. unfold render. apply Forall_app. split.
  { apply Forall_forall. intros b Hb. vm_compute in Hb. set_unfold in Hb. lia. }
  apply Forall_app. split; [by apply write_hex_ascii|]. constructor; [lia|].
  apply Forall_app. split; [by apply write_hex_ascii|]. constructor; [lia|].
  apply Forall_app. split; [by apply write_hex_ascii|]. constructor; [lia|].
  by apply tag_pairs_ascii.
Qed.

Definition id_in_range (id : HandleId) : Prop :=
  0 <= slot id < 2 ^ 32 /\ 1 <= generation id < 2 ^ 64.

Definition codec_in_range (c : TokenCodec) : Prop := 0 <= session c < 2 ^ 64.

Lemma parse_render sess id tag :
  0 <= sess < 2 ^ 64 -> id_in_range id -> Forall byte tag -> length tag = 16%nat ->
  parse_uncached (render sess (slot id) (generation id) tag) = Ok (mk_parsed sess id tag).
Proof.
  intros Hs [Hslot Hgen] Ht Hl. destruct id as [slt gen]. cbn [slot generation] in *.
  set (S16 := write_hex 16 sess). set (L8 := write_hex 8 slt). set (G16 := write_hex 16 gen).
  assert (length S16 = 16%nat /\ length L8 = 8%nat /\ length G16 = 16%nat) as (LS & LL & LG)
    by (subst S16 L8 G16; by rewrite !write_hex_length).
  set (T := tag_pairs tag).
  assert (length T = 32%nat) as LT by (subst T; rewrite tag_pairs_length; lia).
  set (tok := render sess slt gen tag).
  assert (length tok = HANDLE_TOKEN_LENGTH) as Hlen by (by apply render_length).
  assert (tok = token_prefix ++ S16 ++ 58 :: L8 ++ 58 :: G16 ++ 58 :: T) as E0 by done.
  assert (tok = (token_prefix ++ S16) ++ 58 :: (L8 ++ 58 :: G16 ++ 58 :: T)) as E1
    by (by rewrite E0, <- app_assoc).
  assert (tok = (token_prefix ++ S16 ++ [58]) ++ L8 ++ 58 :: G16 ++ 58 :: T) as E2
    by (by rewrite E0, <- !app_assoc).
  assert (tok = (token_prefix ++ S16 ++ 58 :: L8) ++ 58 :: G16 ++ 58 :: T) as E3
    by (by rewrite E0, <- !app_assoc).
  assert (tok = (token_prefix ++ S16 ++ 58 :: L8 ++ [58]) ++ G16 ++ 58 :: T) as E4
    by (rewrite E0; repeat (rewrite <- app_assoc; cbn [app]); done).
  assert (tok = (token_prefix ++ S16 ++ 58 :: L8 ++ 58 :: G16) ++ 58 :: T) as E5
    by (rewrite E0; repeat (rewrite <- app_assoc; cbn [app]); done).
  assert (tok = (token_prefix ++ S16 ++ 58 :: L8 ++ 58 :: G16 ++ [58]) ++ T) as E6
    by (rewrite E0; repeat (rewrite <- app_assoc; cbn [app]); done).
  assert (length token_prefix = 7%nat) as LP by done.
  unfold parse_uncached. rewrite Hlen.
  assert (take 7 tok = token_prefix) as -> by (rewrite E0; by apply take_app_length').
  assert (byte_at tok 23 = 58) as -> by (rewrite E1; apply byte_at_app; lens; lia).
  assert (byte_at tok 32 = 58) as ->
    by (rewrite E3; apply byte_at_app; lens; lia).
  assert (byte_at tok 49 = 58) as ->
    by (rewrite E5; apply byte_at_app; lens; lia).
  assert (slice 7 23 tok = S16) as -> by (rewrite E0; apply slice_app; [done|lia]).
  assert (slice 24 32 tok = L8) as ->
    by (rewrite E2; apply slice_app; [lens; lia|lia]).
  assert (slice 33 49 tok = G16) as ->
    by (rewrite E4; apply slice_app; [lens; lia|lia]).
  assert (drop 50 tok = T) as ->
    by (rewrite E6; apply drop_app_length'; lens; lia).
  rewrite bool_decide_true by done. cbn [Nat.eqb HANDLE_TOKEN_LENGTH negb orb Z.eqb Pos.eqb].
  subst S16 L8 G16 T.
  assert (16 ^ Z.of_nat 16 = 2 ^ 64) as P16 by done.
  assert (16 ^ Z.of_nat 8 = 2 ^ 32) as P8 by done.
  rewrite !decode_write_hex by (rewrite ?P16, ?P8; lia).
  cbn [mbind option_bind]. unfold BindingGeneration_new, decode_tag.
  rewrite (proj2 (Z.eqb_neq gen 0)) by lia. rewrite LT. cbn [Nat.eqb].
  rewrite decode_pairs_tag by done. by rewrite wrap_small by (unfold in_width; lia).
Qed.

(** The grammar is canonical: only the rendering of its fields parses. *)
Lemma parse_uncached_inv bs p :
  parse_uncached bs = Ok p ->
  bs = render (p_session p) (slot (p_id p)) (generation (p_id p)) (p_tag p)
  /\ 0 <= p_session p < 2 ^ 64 /\ id_in_range (p_id p)
  /\ Forall byte (p_tag p) /\ length (p_tag p) = 16%nat.
Proof.
  unfold parse_uncached.
  destruct (Nat.eqb_spec (length bs) HANDLE_TOKEN_LENGTH) as [Hl|]; [|done].
  unfold HANDLE_TOKEN_LENGTH in Hl. case_bool_decide as Hp; [|done].
  destruct (Z.eqb_spec (byte_at bs 23) 58) as [B23|]; [|done].
  destruct (Z.eqb_spec (byte_at bs 32) 58) as [B32|]; [|done].
  destruct (Z.eqb_spec (byte_at bs 49) 58) as [B49|]; [|done].
  cbn [negb orb].
  destruct (decode_hex (slice 7 23 bs)) as [sess|] eqn:Es; [|done].
  destruct (decode_hex (slice 24 32 bs)) as [slt|] eqn:El; [|done].
  destruct (decode_hex (slice 33 49 bs)) as [gen|] eqn:Eg; [|done].
  cbn [mbind option_bind]. unfold BindingGeneration_new, decode_tag.
  destruct (Z.eqb_spec gen 0) as [|Hg]; [done|].
  destruct (Nat.eqb_spec (length (drop 50 bs)) 32) as [Ht|]; [|done].
  destruct (decode_pairs (drop 50 bs)) as [tag|] eqn:Et; [|done]. intros [= <-].
  cbn [p_session p_id p_tag slot generation].
  pose proof (slice_length 7 23 bs ltac:(lia)) as L1.
  pose proof (slice_length 24 32 bs ltac:(lia)) as L2.
  pose proof (slice_length 33 49 bs ltac:(lia)) as L3.
  apply decode_hex_inv in Es as [Rs Es]; [|lia]. apply decode_hex_inv in El as [Rl El]; [|lia].
  apply decode_hex_inv in Eg as [Rg Eg]; [|lia]. rewrite L1 in Rs, Es. rewrite L2 in Rl, El.
  rewrite L3 in Rg, Eg. simpl in Rs, Rl, Rg, Es, El, Eg.
  apply decode_pairs_inv in Et as [Fb Et]; [|by rewrite Ht].
  rewrite wrap_small by (unfold in_width; lia). split; [|split_and!; try done; try lia].
  - unfold render. rewrite <- (take_drop 7 bs) at 1. rewrite Hp.
    rewrite (drop_slice 7 23), (drop_byte 23), B23 by lia.
    rewrite (drop_slice 24 32), (drop_byte 32), B32 by lia.
    rewrite (drop_slice 33 49), (drop_byte 49), B49 by lia.
    by rewrite Es, El, Eg, Et.
  - unfold id_in_range. cbn [slot generation]. lia.
  - rewrite Et, tag_pairs_length in Ht. lia.
Qed.

End TokenLemmas.

(** ** The codec against the contracts of the two external functions *)
Module CodecLemmas.
Import Str StrLemmas Token TokenLemmas.

(** What the codec relies on: BLAKE3 produces 32 bytes and the comparison
    decides equality. *)
Class TokenCrypto (keyed_hash : list Z -> list Z -> list Z)
    (constant_time_eq : list Z -> list Z -> bool) : Prop := {
  hash_length : forall k m, length (keyed_hash k m) = 32%nat;
  hash_bytes : forall k m, Forall byte (keyed_hash k m);
  ct_eq_spec : forall a b, constant_time_eq a b = true <-> a = b
}.

Section Codec.
Context (keyed_hash : list Z -> list Z -> list Z)
        (constant_time_eq : list Z -> list Z -> bool)
        `{!TokenCrypto keyed_hash constant_time_eq}.

Abbreviation authentication_tag := (authentication_tag keyed_hash).
Abbreviation format := (format keyed_hash).
Abbreviation verify := (verify keyed_hash constant_time_eq).
Abbreviation parse := (parse keyed_hash constant_time_eq).

Definition message (c : TokenCodec) (id : HandleId) : list Z :=
  message_prefix ++ to_le_bytes 8 (session c) ++ to_le_bytes 4 (slot id)
  ++ to_le_bytes 8 (generation id).

Definition tag_of (c : TokenCodec) (id : HandleId) : list Z :=
  take 16 (keyed_hash (secret c) (message c id)).

Lemma to_le_bytes_length n v : length (to_le_bytes n v) = n.
Proof. revert v. induction n as [|n IH]; intros v; [done|]. simpl. by rewrite IH. Qed.

Lemma tag_of_length c id : length (tag_of c id) = 16%nat.
Proof. unfold tag_of. by rewrite length_take, hash_length. Qed.

Lemma tag_of_bytes c id : Forall byte (tag_of c id).
Proof. apply Forall_take, hash_bytes. Qed.

(** A copy right behind what is already laid out. *)
Lemma copy_next known k x bs at_ :
  at_ = length known -> (length bs <= k)%nat ->
  copy_into at_ bs (known ++ replicate k x)
  = Done ((known ++ bs) ++ replicate (k - length bs) x).
Proof.
  intros -> Hk. rewrite (copy_into_gap known 0 k x bs) by lia.
  cbn [replicate app]. by rewrite Nat.sub_0_r.
Qed.

Ltac copy_side :=
  lens; rewrite ?to_le_bytes_length, ?write_hex_length, ?length_replicate;
  change (length message_prefix) with 21%nat; change (length token_prefix) with 7%nat; lia.

Lemma authentication_tag_eq c id : authentication_tag c id = Done (tag_of c id).
Proof.
  unfold Token.authentication_tag. cbv zeta.
  change (replicate 41 0) with ([] ++ replicate 41 0).
  rewrite (copy_next [] 41 0 message_prefix) by copy_side. cbn [obind].
  rewrite copy_next by copy_side. cbn [obind].
  rewrite copy_next by copy_side. cbn [obind].
  rewrite copy_next by copy_side. cbn [obind].
  rewrite !to_le_bytes_length.
  change (41 - length message_prefix - 8 - 4 - 8)%nat with 0%nat. cbn [replicate].
  rewrite app_nil_r, app_nil_l, <- !app_assoc. fold (message c id).
  rewrite hash_length. done.
Qed.

Lemma format_eq c id :
  0 <= session c -> 0 <= slot id -> 0 <= generation id ->
  format c id = Done (render (session c) (slot id) (generation id) (tag_of c id)).
Proof.
  intros Hs Hl Hg. unfold Token.format. cbv zeta.
  change (replicate HANDLE_TOKEN_LENGTH 58) with ([] ++ replicate 82 58).
  rewrite copy_next by copy_side. cbn [obind].
  rewrite copy_next by copy_side. cbn [obind].
  rewrite (copy_into_gap _ 1) by copy_side. cbn [obind].
  rewrite (copy_into_gap _ 1) by copy_side. cbn [obind].
  rewrite authentication_tag_eq. cbn [obind].
  assert (length (tag_pairs (tag_of c id)) = 32%nat) as LT
    by (by rewrite tag_pairs_length, tag_of_length).
  rewrite (take_ge (tag_pairs _)) by lia.
  rewrite (copy_into_gap _ 1) by (rewrite ?LT; copy_side).
  cbn [obind]. rewrite !write_hex_length, LT.
  change (82 - length token_prefix - 16 - 1 - 8 - 1 - 16 - 1 - 32)%nat with 0%nat.
  cbn [replicate]. rewrite app_nil_r.
  match goal with |- (if utf8_valid ?t then _ else _) = _ =>
    assert (t = render (session c) (slot id) (generation id) (tag_of c id)) as -> end.
  { unfold render. rewrite app_nil_l. repeat (rewrite <- app_assoc; cbn [app]). done. }
  by rewrite utf8_valid_ascii by (apply render_ascii; try done; apply tag_of_bytes).
Qed.

(** Parsing and verification without the cache. *)
Definition uncached (c : TokenCodec) (bs : list Z) : outcome (XllResult VerifiedHandleToken) :=
  match parse_uncached bs with
  | Err e => Done (Err e)
  | Ok parsed => verify c parsed
  end.

Lemma verify_eq c p :
  verify c p = Done (if bool_decide (p_session p = session c /\ p_tag p = tag_of c (p_id p))
                     then Ok (mk_verified (p_id p)) else Err InvalidHandle).
Proof.
  unfold Token.verify. rewrite authentication_tag_eq. cbn [obind]. f_equal.
  destruct (Z.eqb_spec (p_session p) (session c)) as [Es|Es]; cbn [negb orb].
  2: by rewrite bool_decide_false by (by intros []).
  destruct (constant_time_eq (p_tag p) (tag_of c (p_id p))) eqn:E; cbn [negb].
  - apply ct_eq_spec in E. by rewrite bool_decide_true.
  - rewrite bool_decide_false; [done|]. intros [_ E']. apply ct_eq_spec in E'. congruence.
Qed.

Lemma uncached_format c id :
  codec_in_range c -> id_in_range id ->
  uncached c (render (session c) (slot id) (generation id) (tag_of c id))
  = Done (Ok (mk_verified id)).
Proof.
  intros Hc Hi. unfold uncached.
  rewrite parse_render by (done || apply tag_of_bytes || apply tag_of_length).
  rewrite verify_eq. by rewrite bool_decide_true.
Qed.

Lemma uncached_inv c bs v :
  uncached c bs = Done (Ok v) ->
  bs = render (session c) (slot (v_id v)) (generation (v_id v)) (tag_of c (v_id v))
  /\ codec_in_range c /\ id_in_range (v_id v).
Proof.
  unfold uncached. destruct (parse_uncached bs) as [p|] eqn:E; [|done].
  apply parse_uncached_inv in E as (E & Hs & Hi & _). rewrite verify_eq.
  case_bool_decide as H; [|done]. destruct H as [Es Et]. intros [= <-]. cbn [v_id].
  unfold codec_in_range. rewrite <- Es, <- Et. done.
Qed.

(** *** The cache *)
Definition entry_ok (e : VerifiedTokenCacheEntry) : Prop :=
  uncached (mk_codec (e_session e) (e_secret e)) (e_token e)
  = Done (Ok (mk_verified (mk_id (e_slot e) (e_generation e)))).

Definition ways_ok (ways : list (option VerifiedTokenCacheEntry)) : Prop :=
  length ways = VERIFIED_TOKEN_CACHE_WAYS
  /\ forall e, Some e ∈ ways -> entry_ok e.

Definition cache_ok (cache : VerifiedTokenCache) : Prop :=
  length (sets cache) = VERIFIED_TOKEN_CACHE_SETS
  /\ length (victims cache) = VERIFIED_TOKEN_CACHE_SETS
  /\ Forall ways_ok (sets cache)
  /\ Forall (fun v => 0 <= v < 4) (victims cache).

Lemma cache_new_ok : cache_ok cache_new.
Proof.
  split; [done|]. split; [done|]. split; apply Forall_replicate; [|lia].
  split; [done|]. intros e He. apply elem_of_replicate in He as [He _]. done.
Qed.

Lemma index_in_range bs i : verified_token_cache_index bs = Some i -> (i < 16)%nat.
Proof.
  unfold verified_token_cache_index. case_match; [|done].
  destruct (hex_nibble _) as [d|] eqn:E; [|done]. intros [= <-].
  apply hex_nibble_inv in E. lia.
Qed.

Lemma find_entry_ok addr c bs ways id :
  (forall e, Some e ∈ ways -> entry_ok e) ->
  find_entry addr (session c) (secret c) bs ways = Some id ->
  uncached c bs = Done (Ok (mk_verified id)).
Proof.
  induction ways as [|[e|] ways IH]; intros H; simpl; [done| |].
  - case_match eqn:E; [|intros; apply IH; [intros; apply H; by right|done]].
    intros [= <-]. assert (entry_ok e) as Ok_ by (apply H; left).
    rewrite !andb_true_iff, !Z.eqb_eq, !bool_decide_eq_true in E.
    destruct E as [[[_ Es] Et] Ec]. unfold entry_ok in Ok_.
    rewrite Es, Et, Ec in Ok_. by destruct c.
  - intros E. apply IH; [intros; apply H; by right|done].
Qed.

Lemma store_ok cache addr c bs id :
  cache_ok cache -> uncached c bs = Done (Ok (mk_verified id)) ->
  exists cache', verified_token_cache_store cache addr (session c) (secret c) bs id = Done cache'
                 /\ cache_ok cache'.
Proof.
  intros (Ls & Lv & Fs & Fv) U. unfold verified_token_cache_store.
  destruct (verified_token_cache_index bs) as [i|] eqn:Ei; [|eexists; split; [done|]; by split].
  apply index_in_range in Ei.
  unfold VERIFIED_TOKEN_CACHE_SETS in *.
  destruct (lookup_lt_is_Some_2 (victims cache) i ltac:(lia)) as [v Ev].
  destruct (lookup_lt_is_Some_2 (sets cache) i ltac:(lia)) as [ways Ew]. rewrite Ev, Ew.
  assert (ways_ok ways) as [Lw Ow] by (by apply (proj1 (Forall_lookup _ _) Fs i)).
  assert (0 <= v < 4) by (by apply (proj1 (Forall_lookup _ _) Fv i)).
  unfold VERIFIED_TOKEN_CACHE_WAYS in *. cbv zeta. rewrite (proj2 (Nat.ltb_lt _ _)) by lia.
  eexists. split; [done|]. repeat split; cbn [sets victims]; rewrite ?length_insert; try done.
  - apply Forall_insert; [done|]. split; [by rewrite length_insert|].
    intros e [j Hj]%list_elem_of_lookup.
    apply list_lookup_insert_Some in Hj as [(_ & [= <-] & _)|[_ Hj]].
    + unfold entry_ok. cbn. by destruct c, id.
    + apply Ow. by eapply list_elem_of_lookup_2.
  - apply Forall_insert; [done|].
    pose proof (Nat.mod_upper_bound (Z.to_nat v + 1) 4 ltac:(lia)).
    rewrite wrap_small; unfold in_width; lia.
Qed.

Lemma parse_ok cache addr c bs :
  cache_ok cache ->
  exists r cache', parse c cache addr bs = Done (r, cache') /\ cache_ok cache'
                   /\ uncached c bs = Done r.
Proof.
  intros Hc. unfold Token.parse.
  assert (exists h, verified_token_cache_lookup cache addr (session c) (secret c) bs = Done h
    /\ (forall id, h = Some id -> uncached c bs = Done (Ok (mk_verified id)))) as (h & -> & Hh).
  { unfold verified_token_cache_lookup.
    destruct (verified_token_cache_index bs) as [i|] eqn:Ei; [|by exists None].
    apply index_in_range in Ei. destruct Hc as (Ls & _ & Fs & _).
    unfold VERIFIED_TOKEN_CACHE_SETS in *.
    destruct (lookup_lt_is_Some_2 (sets cache) i ltac:(lia)) as [ways Ew]. rewrite Ew.
    eexists. split; [done|]. intros id. apply find_entry_ok.
    by apply (proj1 (Forall_lookup _ _) Fs i). }
  cbn [obind]. destruct h as [id|]; [eexists _, _; split; [done|]; split; [done|]; by apply Hh|].
  destruct (parse_uncached bs) as [p|e] eqn:Ep.
  2: { eexists _, _. split; [done|]. split; [done|]. unfold uncached. by rewrite Ep. }
  assert (uncached c bs = verify c p) as Eu by (unfold uncached; by rewrite Ep).
  destruct (verify c p) as [[v|e]| |] eqn:Ev; try (by rewrite verify_eq in Ev); cbn [obind].
  2: { eexists _, _. done. }
  destruct (store_ok cache addr c bs (v_id v) Hc) as (cache' & -> & Hc').
  { rewrite Eu. by destruct v. }
  cbn [obind]. eexists _, _. done.
Qed.

End Codec.

(** Requests served by one thread: each names a codec, a registry and a token. *)
Fixpoint parses (keyed_hash : list Z -> list Z -> list Z)
    (constant_time_eq : list Z -> list Z -> bool) (cache : VerifiedTokenCache)
    (requests : list (TokenCodec * Z * list Z)) : outcome (list (XllResult VerifiedHandleToken)) :=
  match requests with
  | [] => Done []
  | (c, addr, bs) :: requests =>
      let* (r, cache) := parse keyed_hash constant_time_eq c cache addr bs in
      let* rs := parses keyed_hash constant_time_eq cache requests in
      Done (r :: rs)
  end.

End CodecLemmas.

(** ** Correctness of the token codec *)
Module TokenTheorems.
Import Str StrLemmas Token TokenLemmas CodecLemmas Utf16Std Utf16Lemmas.

(** A hash with the contract of BLAKE3, for the witnesses. *)
Definition sum_hash (key message : list Z) : list Z :=
  replicate 32 (foldr Z.add 0 (key ++ message) mod 256).

Definition slice_eq (a b : list Z) : bool := bool_decide (a = b).

#[export] Instance sum_crypto : TokenCrypto sum_hash slice_eq.
Proof.
  split.
  - intros k m. apply length_replicate.
  - intros k m. apply Forall_replicate, Z.mod_pos_bound. lia.
  - intros a b. apply bool_decide_eq_true.
Qed.

Definition example_codec : TokenCodec := mk_codec 0x1122334455667788 (replicate 32 7).
Definition example_id : HandleId := mk_id 42 3.

(** Every handle identity has a token, of the fixed length, and parsing
    that token gives the identity back, whatever the thread's cache of
    verified tokens has accumulated. *)
Theorem token_roundtrip keyed_hash constant_time_eq c id cache addr :
  TokenCrypto keyed_hash constant_time_eq ->
  codec_in_range c -> id_in_range id -> cache_ok keyed_hash constant_time_eq cache ->
  exists token cache',
    format keyed_hash c id = Done token /\ length token = HANDLE_TOKEN_LENGTH
    /\ parse keyed_hash constant_time_eq c cache addr token = Done (Ok (mk_verified id), cache').
Proof.
  intros K Hc Hi Ho. unfold codec_in_range, id_in_range in *.
  rewrite (format_eq keyed_hash constant_time_eq) by lia.
  set (token := render (session c) (slot id) (generation id) (tag_of keyed_hash c id)).
  destruct (parse_ok keyed_hash constant_time_eq cache addr c token Ho) as (r & cache' & E & _ & U).
  subst token.
  rewrite uncached_format in U by done. injection U as <-.
  set (token := render (session c) (slot id) (generation id) (tag_of keyed_hash c id)) in *.
  exists token, cache'. split; [done|]. split; [|done]. apply render_length.
  exact (tag_of_length keyed_hash constant_time_eq c id).
Qed.

Lemma token_roundtrip_witness :
  exists token cache',
    format sum_hash example_codec example_id = Done token /\ length token = HANDLE_TOKEN_LENGTH
    /\ parse sum_hash slice_eq example_codec cache_new 16 token
       = Done (Ok (mk_verified example_id), cache').
Proof.
  apply (token_roundtrip sum_hash slice_eq example_codec example_id cache_new 16).
  - exact sum_crypto.
  - unfold codec_in_range, example_codec. simpl. lia.
  - unfold id_in_range, example_id. simpl. lia.
  - exact (cache_new_ok sum_hash slice_eq).
Defined.

(** C29: A token that is accepted is letter for letter the one the codec would
    format for the identity it is accepted as: fields are in range, the
    spelling is canonical and the tag is this session's tag for exactly that
    slot and generation.  So no two texts stand for one identity and no field
    can be exchanged between tokens. *)
Theorem accepted_tokens_are_canonical keyed_hash constant_time_eq c cache addr bs v cache' :
  TokenCrypto keyed_hash constant_time_eq ->
  cache_ok keyed_hash constant_time_eq cache ->
  parse keyed_hash constant_time_eq c cache addr bs = Done (Ok v, cache') ->
  id_in_range (v_id v) /\ format keyed_hash c (v_id v) = Done bs.
Proof.
  intros K Ho E.
  destruct (parse_ok keyed_hash constant_time_eq cache addr c bs Ho) as (r & cache'' & E' & _ & U).
  rewrite E in E'. injection E' as <- <-. apply uncached_inv in U as (-> & Hc & Hi); [|done].
  split; [done|]. unfold codec_in_range, id_in_range in *. apply (format_eq keyed_hash constant_time_eq); lia.
Qed.

Definition example_token : list Z :=
  match format sum_hash example_codec example_id with Done t => t | _ => [] end.

Definition warm_cache : VerifiedTokenCache :=
  match parse sum_hash slice_eq example_codec cache_new 16 example_token with
  | Done (_, cache) => cache
  | _ => cache_new
  end.

Lemma accepted_tokens_are_canonical_witness :
  parse sum_hash slice_eq example_codec cache_new 16 example_token
  = Done (Ok (mk_verified example_id), warm_cache)
  /\ format sum_hash example_codec example_id = Done example_token.
Proof.
  assert (parse sum_hash slice_eq example_codec cache_new 16 example_token
    = Done (Ok (mk_verified example_id), warm_cache)) as E by (vm_compute; reflexivity).
  split; [exact E|].
  exact (proj2 (accepted_tokens_are_canonical sum_hash slice_eq example_codec cache_new 16
    example_token (mk_verified example_id) warm_cache sum_crypto
    (cache_new_ok sum_hash slice_eq) E)).
Defined.

(** C35: The cache of verified tokens is invisible: however requests of
    different sessions, secrets and registries interleave on a thread and
    evict one another, no request panics and each gets the answer of full
    parsing and authentication. *)
Theorem token_cache_is_transparent keyed_hash constant_time_eq requests :
  TokenCrypto keyed_hash constant_time_eq ->
  exists results,
    parses keyed_hash constant_time_eq cache_new requests = Done results
    /\ Forall2 (fun '(c, _, bs) r => uncached keyed_hash constant_time_eq c bs = Done r)
         requests results.
Proof.
  intros K. assert (cache_ok keyed_hash constant_time_eq cache_new) as Ho by apply cache_new_ok.
  revert Ho. generalize cache_new. induction requests as [|[[c addr] bs] requests IH]; intros cache Ho.
  { exists []. split; [done|constructor]. }
  destruct (parse_ok keyed_hash constant_time_eq cache addr c bs Ho) as (r & cache' & E & Ho' & U).
  destruct (IH cache' Ho') as (rs & Er & F). exists (r :: rs). split; [|by constructor].
  cbn [parses]. rewrite E. cbn [obind]. by rewrite Er.
Qed.

Definition two_requests : list (TokenCodec * Z * list Z) :=
  [(example_codec, 16, example_token); (example_codec, 16, example_token)].

Lemma token_cache_is_transparent_witness :
  exists results,
    parses sum_hash slice_eq cache_new two_requests = Done results
    /\ Forall2 (fun '(c, _, bs) r => uncached sum_hash slice_eq c bs = Done r)
         two_requests results.
Proof. apply (token_cache_is_transparent sum_hash slice_eq two_requests sum_crypto). Defined.

Lemma narrow_ascii units :
  Forall (fun u => 0 <= u < 128) units -> narrow units = Some units.
Proof.
  induction 1 as [|u us Hu _ IH]; [done|]. cbn [narrow].
  rewrite (proj2 (Z.ltb_ge _ _)), IH, wrap_small by (unfold in_width; lia). done.
Qed.

Lemma narrow_some units bs :
  Forall unit16 units -> narrow units = Some bs -> Forall (fun u => 0 <= u < 128) units.
Proof.
  intros F. revert bs. induction F as [|u us Hu _ IH]; intros bs; [constructor|]. cbn [narrow].
  destruct (Z.ltb_spec 0x7F u); [done|]. destruct (narrow us); [|done]. intros _.
  unfold unit16 in Hu. constructor; [lia|by eapply IH].
Qed.

(** Resolving a token received as UTF-16 is decoding it and running the
    operation on the text; the allocation-free narrowing of canonical tokens
    changes neither the text nor the errors. *)
Theorem utf16_token_shortcut_is_sound R pw spare argument
    (operation : list Z -> outcome (XllResult R)) units :
  Forall unit16 units ->
  with_utf16_handle_token pw spare argument operation units
  = match decode_str units with
    | Some s => operation (bytes s)
    | None => Done (Err (input argument InvalidUtf16))
    end.
Proof.
  intros F.
  assert (decode_and_run pw spare argument operation units
    = match decode_str units with
      | Some s => operation (bytes s)
      | None => Done (Err (input argument InvalidUtf16))
      end) as D.
  { unfold decode_and_run, Utf16.decode_owned. cbv zeta. rewrite decode_into_spec; [|done|].
    - by destruct (decode_str units).
    - rewrite length_replicate, decoder_new_plan by done. lia. }
  unfold with_utf16_handle_token.
  destruct (length units =? HANDLE_TOKEN_LENGTH)%nat; [|exact D].
  destruct (narrow units) as [bs|] eqn:N; [|exact D].
  pose proof (narrow_some units bs F N) as A. rewrite narrow_ascii in N by done.
  injection N as <-. rewrite utf8_valid_ascii by done.
  rewrite (decode_str_bmp units (ascii_not_surrogate units A)).
  by rewrite bytes_ascii by (eapply Forall_impl; [exact A|]; intros ? [? ?]; lia).
Qed.

Definition echo (bs : list Z) : outcome (XllResult (list Z)) := Done (Ok bs).

Lemma utf16_token_shortcut_is_sound_witness :
  with_utf16_handle_token W64 0 "handle" echo example_token = Done (Ok example_token).
Proof.
  assert (Forall unit16 example_token) as F.
  { apply Forall_forall. intros u Hu. vm_compute in Hu. set_unfold in Hu. unfold unit16. lia. }
  rewrite (utf16_token_shortcut_is_sound (list Z) W64 0 "handle" echo example_token F).
  vm_compute. reflexivity.
Defined.

End TokenTheorems.
