(* ===== verification/Budget.v ===== *)
(** * Admission budgets of RTD channels

    Models crates/xlfn/src/subscription/budget.rs and the capacities of
    subscription/topic.rs: the counts a source and a runtime generation keep
    of subscriptions, workers, buffered values and buffered bytes, the pair of
    budgets every channel is charged against, and the ledger of one channel.

    A budget's mutex protects each access to its counters, so one critical
    section is one function on the counters.  An operation on a pair takes
    the two mutexes one after the other; [budget_call] is the position of a
    thread inside such an operation, and [budget_step] runs one critical
    section.  Counters are [usize]: additions are checked against the pointer
    width, and a subtraction below zero is a panic. *)

From stdpp Require Import functions.
From S2P Require Import Prelude SealableCounter.
Import SealableCounter.Transitions.

Local Open Scope Z_scope.

Module Budget.

(** ** Limits *)

(** [RtdCapacity]; the payload of [Bounded] is positive in the source. *)
Inductive RtdCapacity : Type := Disabled | Bounded (value : Z).

Definition disabled_if_zero (value : Z) : RtdCapacity :=
  if value =? 0 then Disabled else Bounded value.

Definition capacity_get (c : RtdCapacity) : Z :=
  match c with Disabled => 0 | Bounded value => value end.

Record RtdSourceLimits : Type := SourceLimits {
  max_subscriptions : RtdCapacity;
  max_values : RtdCapacity;
  max_bytes : RtdCapacity;
}.

Definition standard_source_limits : RtdSourceLimits :=
  SourceLimits (disabled_if_zero 4096) (disabled_if_zero 4096)
    (disabled_if_zero (64 * 1024 * 1024)).

(** The adapter limits among [RtdLimits]. *)
Record RtdLimits : Type := RuntimeLimits {
  max_buffered_values : RtdCapacity;
  max_buffered_bytes : RtdCapacity;
  max_workers : RtdCapacity;
}.

Definition standard_runtime_limits : RtdLimits :=
  RuntimeLimits (disabled_if_zero 4096) (disabled_if_zero (64 * 1024 * 1024))
    (disabled_if_zero 64).

(** ** Counters *)
Record Usage : Type := MkUsage {
  subscriptions : Z;
  values : Z;
  bytes : Z;
  workers : Z;
}.

Definition no_usage : Usage := MkUsage 0 0 0 0.
Definition one_subscription : Usage := MkUsage 1 0 0 0.
Definition one_worker : Usage := MkUsage 0 0 0 1.
Definition buffered_usage (v b : Z) : Usage := MkUsage 0 v b 0.

Record BudgetState : Type := Budget {
  limit : Usage;
  used : Usage;
}.

Definition budget_new (l : Usage) : BudgetState := Budget l no_usage.

Section Operations.
Context (pw : pointer_width).

Definition usize_max : Z := 2 ^ bits pw - 1.

Definition source (l : RtdSourceLimits) : BudgetState :=
  budget_new (MkUsage (capacity_get (max_subscriptions l)) (capacity_get (max_values l))
                (capacity_get (max_bytes l)) usize_max).

Definition runtime (l : RtdLimits) : BudgetState :=
  budget_new (MkUsage usize_max (capacity_get (max_buffered_values l))
                (capacity_get (max_buffered_bytes l)) (capacity_get (max_workers l))).

Definition configure_source (l : RtdSourceLimits) (s : BudgetState) : BudgetState :=
  Budget (MkUsage (capacity_get (max_subscriptions l)) (capacity_get (max_values l))
            (capacity_get (max_bytes l)) (workers (limit s))) (used s).

Definition configure_worker_limit (l : Z) (s : BudgetState) : BudgetState :=
  Budget (MkUsage (subscriptions (limit s)) (values (limit s)) (bytes (limit s)) l) (used s).

(** The closure [add] of [acquire]: a resource that is not asked for is not
    checked against its limit. *)
Definition admit_amount (used amount limit : Z) : option Z :=
  if amount =? 0 then Some used
  else match checked_add (bits pw) used amount with
       | Some next => if next <=? limit then Some next else None
       | None => None
       end.

Definition acquire (a : Usage) (s : BudgetState) : bool * BudgetState :=
  match admit_amount (subscriptions (used s)) (subscriptions a) (subscriptions (limit s)) with
  | None => (false, s)
  | Some n_subscriptions =>
      match admit_amount (values (used s)) (values a) (values (limit s)) with
      | None => (false, s)
      | Some n_values =>
          match admit_amount (bytes (used s)) (bytes a) (bytes (limit s)) with
          | None => (false, s)
          | Some n_bytes =>
              match admit_amount (workers (used s)) (workers a) (workers (limit s)) with
              | None => (false, s)
              | Some n_workers =>
                  (true, Budget (limit s) (MkUsage n_subscriptions n_values n_bytes n_workers))
              end
          end
      end
  end.

Definition acquire_buffered (v b : Z) (s : BudgetState) : bool * BudgetState :=
  match checked_add (bits pw) (values (used s)) v with
  | None => (false, s)
  | Some next_values =>
      match checked_add (bits pw) (bytes (used s)) b with
      | None => (false, s)
      | Some next_bytes =>
          if (negb (v =? 0) && (values (limit s) <? next_values))
             || (negb (b =? 0) && (bytes (limit s) <? next_bytes))
          then (false, s)
          else (true, Budget (limit s) (MkUsage (subscriptions (used s)) next_values next_bytes
                                          (workers (used s))))
      end
  end.

(** [-=] on a [usize]. *)
Definition minus (a b : Z) : outcome Z :=
  match checked_sub a b with Some d => Done d | None => Panicked end.

Definition release (a : Usage) (s : BudgetState) : outcome BudgetState :=
  let* n_subscriptions := minus (subscriptions (used s)) (subscriptions a) in
  let* n_values := minus (values (used s)) (values a) in
  let* n_bytes := minus (bytes (used s)) (bytes a) in
  let* n_workers := minus (workers (used s)) (workers a) in
  Done (Budget (limit s) (MkUsage n_subscriptions n_values n_bytes n_workers)).

Definition release_buffered (v b : Z) (s : BudgetState) : outcome BudgetState :=
  let* n_values := minus (values (used s)) v in
  let* n_bytes := minus (bytes (used s)) b in
  Done (Budget (limit s)
          (MkUsage (subscriptions (used s)) n_values n_bytes (workers (used s)))).

(** [try_subscription] and [try_worker]; [true] is the permit. *)
Definition try_subscription (s : BudgetState) : bool * BudgetState := acquire one_subscription s.
Definition try_worker (s : BudgetState) : bool * BudgetState := acquire one_worker s.

(** ** Pairs of budgets

    Budgets are shared by reference: they live in a store and are named by
    their index. *)
Abbreviation budgets := (nat -> BudgetState).

Record BudgetPair : Type := Pair {
  pair_source : nat;
  pair_runtime : nat;
}.

(** [SubscriptionPermit] and [WorkerPermit] with the budget they return to. *)
Inductive permit : Type := SubscriptionPermit (b : nat) | WorkerPermit (b : nat).

Definition permit_budget (p : permit) : nat :=
  match p with SubscriptionPermit b | WorkerPermit b => b end.
Definition permit_usage (p : permit) : Usage :=
  match p with SubscriptionPermit _ => one_subscription | WorkerPermit _ => one_worker end.

Definition drop_permit (p : permit) (B : budgets) : outcome budgets :=
  let* s := release (permit_usage p) (B (permit_budget p)) in
  Done (<[permit_budget p := s]> B).

(** Positions inside [BudgetPair::acquire] and [BudgetPair::release]. *)
Inductive budget_call : Type :=
| AcquireSource (p : BudgetPair) (v b : Z)
| AcquireRuntime (p : BudgetPair) (v b : Z)
| Rollback (p : BudgetPair) (v b : Z)
| ReleaseSource (p : BudgetPair) (v b : Z)
| ReleaseRuntime (p : BudgetPair) (v b : Z).

Definition call_pair (bc : budget_call) : BudgetPair :=
  match bc with
  | AcquireSource p _ _ | AcquireRuntime p _ _ | Rollback p _ _
  | ReleaseSource p _ _ | ReleaseRuntime p _ _ => p
  end.

Inductive budget_result : Type :=
| Pending (bc : budget_call)
| Answer (ok : bool).

Definition budget_step (bc : budget_call) (B : budgets) : outcome (budget_result * budgets) :=
  match bc with
  | AcquireSource p v b =>
      let '(ok, s) := acquire_buffered v b (B (pair_source p)) in
      Done (if ok then Pending (AcquireRuntime p v b) else Answer false,
            <[pair_source p := s]> B)
  | AcquireRuntime p v b =>
      let '(ok, s) := acquire_buffered v b (B (pair_runtime p)) in
      Done (if ok then Answer true else Pending (Rollback p v b),
            <[pair_runtime p := s]> B)
  | Rollback p v b =>
      let* s := release_buffered v b (B (pair_source p)) in
      Done (Answer false, <[pair_source p := s]> B)
  | ReleaseSource p v b =>
      let* s := release_buffered v b (B (pair_source p)) in
      Done (Pending (ReleaseRuntime p v b), <[pair_source p := s]> B)
  | ReleaseRuntime p v b =>
      let* s := release_buffered v b (B (pair_runtime p)) in
      Done (Answer true, <[pair_runtime p := s]> B)
  end.

(** ** The ledger of a channel *)
Record BufferLedger : Type := Ledger {
  l_values : Z;
  l_bytes : Z;
}.

Definition ledger_default : BufferLedger := Ledger 0 0.

(** A batch taken out of a ledger, with the budgets it returns to. *)
Record BufferPermit : Type := Buffered {
  b_budgets : BudgetPair;
  b_values : Z;
  b_bytes : Z;
}.

(** [try_push_batch] up to its call on the pair: [Err ok] is an answer given
    without reserving.  Once the pair has answered [true] the ledger is
    [pushed]. *)
Definition try_push_batch (p : BudgetPair) (v b : Z) (l : BufferLedger)
  : result budget_call bool :=
  if v =? 0 then Err true
  else match checked_add (bits pw) (l_values l) v with
       | None => Err false
       | Some _ =>
           match checked_add (bits pw) (l_bytes l) b with
           | None => Err false
           | Some _ => Ok (AcquireSource p v b)
           end
       end.

Definition try_push (p : BudgetPair) (b : Z) (l : BufferLedger) : result budget_call bool :=
  try_push_batch p 1 b l.

Definition pushed (v b : Z) (l : BufferLedger) : BufferLedger :=
  Ledger (l_values l + v) (l_bytes l + b).

Definition split (p : BudgetPair) (v b : Z) (l : BufferLedger)
  : outcome (option BufferPermit * BufferLedger) :=
  if v =? 0 then (if b =? 0 then Done (None, l) else Panicked)
  else if (v <=? l_values l) && (b <=? l_bytes l)
  then Done (Some (Buffered p v b), Ledger (l_values l - v) (l_bytes l - b))
  else Panicked.

Definition take_all (p : BudgetPair) (l : BufferLedger)
  : outcome (option BufferPermit * BufferLedger) :=
  split p (l_values l) (l_bytes l) l.

(** [Drop for BufferPermit]: the release to run, if any. *)
Definition drop_buffered (p : option BufferPermit) : option budget_call :=
  match p with
  | Some (Buffered bp v b) =>
      if negb (v =? 0) || negb (b =? 0) then Some (ReleaseSource bp v b) else None
  | None => None
  end.

(** [resize_charge]: the call to run on the pair, if any. *)
Definition resize_charge (p : BudgetPair) (current requested : Z) : option budget_call :=
  if current <? requested then Some (AcquireSource p 0 (requested - current))
  else if requested <? current then Some (ReleaseSource p 0 (current - requested))
  else None.

End Operations.

End Budget.

(** * Accounts

    What is charged to a budget is a list of charges, each against one budget.
    [owed r b] totals the charges of one resource against one budget. *)
Module Accounts.
Import Budget.

Inductive resource : Type := RSubscriptions | RValues | RBytes | RWorkers.

Definition amount (r : resource) (u : Usage) : Z :=
  match r with
  | RSubscriptions => subscriptions u
  | RValues => values u
  | RBytes => bytes u
  | RWorkers => workers u
  end.

Abbreviation charge := (nat * Usage)%type.

Fixpoint owed (r : resource) (b : nat) (l : list charge) : Z :=
  match l with
  | [] => 0
  | (b', u) :: l => (if decide (b' = b) then amount r u else 0) + owed r b l
  end.

Definition fair (l : list charge) : Prop := Forall (fun x => forall r, 0 <= amount r x.2) l.

Lemma owed_app r b l k : owed r b (l ++ k) = owed r b l + owed r b k.
Proof. induction l as [|[b' u] l IH]; simpl; lia. Qed.

Lemma owed_nonneg r b l : fair l -> 0 <= owed r b l.
Proof.
  induction 1 as [|[b' u] l Hu _ IH]; simpl; [done|]. specialize (Hu r). simpl in Hu.
  case_decide; lia.
Qed.

(** The charges of a buffered amount, of permits and of a call in progress. *)
Definition pair_charges (p : BudgetPair) (v b : Z) : list charge :=
  [(pair_source p, buffered_usage v b); (pair_runtime p, buffered_usage v b)].

Definition permit_charges (ps : list permit) : list charge :=
  (fun p => (permit_budget p, permit_usage p)) <$> ps.

Definition buffered_charges (p : option BufferPermit) : list charge :=
  match p with Some (Buffered bp v b) => pair_charges bp v b | None => [] end.

Definition call_charges (bc : budget_call) : list charge :=
  match bc with
  | AcquireSource _ _ _ => []
  | AcquireRuntime p v b | Rollback p v b => [(pair_source p, buffered_usage v b)]
  | ReleaseSource p v b => pair_charges p v b
  | ReleaseRuntime p v b => [(pair_runtime p, buffered_usage v b)]
  end.

Definition is_acquire (bc : budget_call) : bool :=
  match bc with ReleaseSource _ _ _ | ReleaseRuntime _ _ _ => false | _ => true end.

Definition call_amount (bc : budget_call) : Z * Z :=
  match bc with
  | AcquireSource _ v b | AcquireRuntime _ v b | Rollback _ v b
  | ReleaseSource _ v b | ReleaseRuntime _ v b => (v, b)
  end.

(** A call for the amount [v], [b] on the pair [p]. *)
Definition call_for (acquiring : bool) (p : BudgetPair) (v b : Z) (bc : budget_call) : Prop :=
  is_acquire bc = acquiring /\ call_pair bc = p /\ call_amount bc = (v, b) /\ 0 <= v /\ 0 <= b.

(** What a call leaves in the hands of its caller. *)
Definition granted (bc : budget_call) (r : budget_result) : list charge :=
  match r with
  | Pending bc' => call_charges bc'
  | Answer ok =>
      if is_acquire bc && ok
      then pair_charges (call_pair bc) (call_amount bc).1 (call_amount bc).2 else []
  end.

Lemma call_fair acquiring p v b bc : call_for acquiring p v b bc -> fair (call_charges bc).
Proof.
  intros (_ & _ & E & Hv & Hb).
  destruct bc; simplify_eq/=; repeat constructor; intros []; simpl; lia.
Qed.

Lemma pair_fair p v b : 0 <= v -> 0 <= b -> fair (pair_charges p v b).
Proof. intros. repeat constructor; intros []; simpl; lia. Qed.

Lemma permits_fair ps : fair (permit_charges ps).
Proof.
  apply Forall_fmap, Forall_forall. intros p _ r. by destruct p, r.
Qed.

#[export] Hint Resolve pair_fair permits_fair : xlfn.

Section Lemmas.
Context (pw : pointer_width).

(** Every counter of every budget is within its limit. *)
Definition within (B : nat -> BudgetState) : Prop :=
  forall r b, amount r (used (B b)) <= amount r (limit (B b)).

Lemma minus_done x y z : minus x y = Done z -> z = x - y /\ y <= x.
Proof.
  unfold minus, checked_sub. destruct (Z.leb_spec y x); [|done]. intros [= <-]. done.
Qed.

Lemma minus_ok x y : y <= x -> minus x y = Done (x - y).
Proof. intros H. unfold minus, checked_sub. by rewrite (proj2 (Z.leb_le y x)). Qed.

Lemma acquire_spec a s ok s' :
  acquire pw a s = (ok, s') ->
  limit s' = limit s
  /\ (forall r, amount r (used s') = amount r (used s) + if ok then amount r a else 0)
  /\ (forall r, amount r (used s) <= amount r (limit s) ->
      amount r (used s') <= amount r (limit s')).
Proof.
  intros E. assert (forall u x l n, admit_amount pw u x l = Some n ->
    n = u + x /\ (u <= l -> n <= l)) as H.
  { intros u x l n. unfold admit_amount, checked_add.
    destruct (Z.eqb_spec x 0) as [->|]; [intros [= <-]; lia|].
    destruct (_ <? _); [|done]. destruct (Z.leb_spec (u + x) l); [|done].
    intros [= <-]. lia. }
  unfold acquire in E.
  repeat (case_match; [|simplify_eq; split_and!; [done|intros []; simpl; lia|done]]).
  simplify_eq. split_and!; [done|..]; intros [];
    repeat match goal with
           | K : admit_amount _ _ _ _ = Some _ |- _ => apply H in K as [-> ?]
           end; simpl; lia.
Qed.

Lemma acquire_buffered_spec v b s ok s' :
  acquire_buffered pw v b s = (ok, s') ->
  limit s' = limit s
  /\ (forall r, amount r (used s') = amount r (used s)
                 + if ok then amount r (buffered_usage v b) else 0)
  /\ (forall r, amount r (used s) <= amount r (limit s) ->
      amount r (used s') <= amount r (limit s')).
Proof.
  unfold acquire_buffered, checked_add. intros E.
  assert (forall u, (0 = u -> limit s = limit s
    /\ (forall r, amount r (used s) = amount r (used s) + u)
    /\ (forall r, amount r (used s) <= amount r (limit s) ->
        amount r (used s) <= amount r (limit s)))) as Hno by (intros u <-; split_and!; done || lia).
  destruct (_ <? _); [|injection E as <- <-; by apply Hno].
  destruct (_ <? _); [|injection E as <- <-; by apply Hno].
  destruct (_ || _) eqn:Ec; injection E as <- <-; [by apply Hno|].
  apply orb_false_iff in Ec as [E1 E2].
  apply andb_false_iff in E1. apply andb_false_iff in E2.
  rewrite negb_false_iff, Z.eqb_eq, Z.ltb_ge in E1, E2.
  split_and!; [done|..]; intros []; simpl; lia.
Qed.

Lemma release_buffered_spec v b s :
  v <= values (used s) -> b <= bytes (used s) ->
  exists s', release_buffered v b s = Done s' /\ limit s' = limit s
    /\ forall r, amount r (used s') = amount r (used s) - amount r (buffered_usage v b).
Proof.
  intros Hv Hb. unfold release_buffered. rewrite !minus_ok by done. simpl.
  eexists. split; [done|]. split; [done|]. intros []; simpl; lia.
Qed.

Lemma release_spec a s :
  (forall r, amount r a <= amount r (used s)) ->
  exists s', release a s = Done s' /\ limit s' = limit s
    /\ forall r, amount r (used s') = amount r (used s) - amount r a.
Proof.
  intros H. unfold release.
  rewrite (minus_ok (subscriptions (used s)) (subscriptions a) (H RSubscriptions)).
  rewrite (minus_ok (values (used s)) (values a) (H RValues)).
  rewrite (minus_ok (bytes (used s)) (bytes a) (H RBytes)).
  rewrite (minus_ok (workers (used s)) (workers a) (H RWorkers)). simpl.
  eexists. split; [done|]. split; [done|]. by intros [].
Qed.

(** The effect of one access on the account of its caller: the counters of
    every budget move by what the caller's charges move by, limits stay, and
    no counter passes its limit. *)
Definition moves (before after : list charge) (B B' : nat -> BudgetState) : Prop :=
  (forall b, limit (B' b) = limit (B b))
  /\ (forall r b, amount r (used (B' b)) + owed r b before
                 = amount r (used (B b)) + owed r b after)
  /\ (within B -> within B').

Lemma moves_insert b s before after B :
  limit s = limit (B b) ->
  (forall r, amount r (used s) + owed r b before = amount r (used (B b)) + owed r b after) ->
  (forall r b', b' <> b -> owed r b' before = owed r b' after) ->
  (forall r, amount r (used (B b)) <= amount r (limit (B b)) ->
   amount r (used s) <= amount r (limit s)) ->
  moves before after B (<[b := s]> B).
Proof.
  intros Hl Hu Hne Hw. unfold moves, within. split; [|split].
  - intros b'. destruct (decide (b' = b)) as [->|]; [by rewrite fn_lookup_insert|].
    by rewrite fn_lookup_insert_ne.
  - intros r b'. destruct (decide (b' = b)) as [->|]; [by rewrite fn_lookup_insert|].
    rewrite fn_lookup_insert_ne by done. rewrite Hne by done. done.
  - intros W r b'. destruct (decide (b' = b)) as [->|]; [rewrite fn_lookup_insert; by apply Hw|].
    rewrite fn_lookup_insert_ne by done. apply W.
Qed.

Lemma moves_refl l B : moves l l B B.
Proof. by split_and!. Qed.

Ltac owed_cases := simpl; intros; repeat case_decide; simpl; try done; try congruence; try lia.

Lemma budget_step_moves bc acquiring p v b B :
  call_for acquiring p v b bc ->
  (forall r b', owed r b' (call_charges bc) <= amount r (used (B b'))) ->
  exists res B', budget_step pw bc B = Done (res, B')
    /\ moves (call_charges bc) (granted bc res) B B'
    /\ (forall bc', res = Pending bc' -> call_for acquiring p v b bc').
Proof.
  intros (Ha & Hp & Hc & Hv & Hb) Hle. destruct bc as [q x y|q x y|q x y|q x y|q x y];
    simpl in *; injection Hc as -> ->; subst acquiring p.
  - destruct (acquire_buffered pw v b (B (pair_source q))) as [ok s] eqn:E.
    apply acquire_buffered_spec in E as (El & Eu & Ew).
    eexists _, _. split; [done|]. split; [|by destruct ok; intros ? [= <-]].
    apply moves_insert; [done|..|done]; destruct ok; owed_cases; rewrite Eu; simpl; lia.
  - destruct (acquire_buffered pw v b (B (pair_runtime q))) as [ok s] eqn:E.
    apply acquire_buffered_spec in E as (El & Eu & Ew).
    eexists _, _. split; [done|]. split; [|by destruct ok; intros ? [= <-]].
    apply moves_insert; [done|..|done]; destruct ok; owed_cases; rewrite Eu; simpl; lia.
  - pose proof (Hle RValues (pair_source q)) as H1. pose proof (Hle RBytes (pair_source q)) as H2.
    simpl in H1, H2. rewrite decide_True in H1, H2 by done. simpl in H1, H2.
    destruct (release_buffered_spec v b (B (pair_source q))) as (s & -> & El & Eu); [lia..|].
    eexists _, _. split; [done|]. split; [|done].
    apply moves_insert; [done|..]; [owed_cases; rewrite Eu; lia|owed_cases|].
    intros r W. rewrite Eu, El. destruct r; simpl in *; lia.
  - pose proof (Hle RValues (pair_source q)) as H1. pose proof (Hle RBytes (pair_source q)) as H2.
    simpl in H1, H2. rewrite decide_True in H1, H2 by done. simpl in H1, H2.
    destruct (release_buffered_spec v b (B (pair_source q))) as (s & -> & El & Eu);
      [repeat case_decide; lia..|].
    eexists _, _. split; [done|]. split; [|by intros ? [= <-]].
    apply moves_insert; [done|..]; [owed_cases; rewrite Eu; simpl; lia|owed_cases|].
    intros r W. rewrite Eu, El. destruct r; simpl in *; lia.
  - pose proof (Hle RValues (pair_runtime q)) as H1. pose proof (Hle RBytes (pair_runtime q)) as H2.
    simpl in H1, H2. rewrite decide_True in H1, H2 by done. simpl in H1, H2.
    destruct (release_buffered_spec v b (B (pair_runtime q))) as (s & -> & El & Eu); [lia..|].
    eexists _, _. split; [done|]. split; [|done].
    apply moves_insert; [done|..]; [owed_cases; rewrite Eu; lia|owed_cases|].
    intros r W. rewrite Eu, El. destruct r; simpl in *; lia.
Qed.

(** Acquiring a permit, refused or granted. *)
Lemma acquire_moves pm B ok s :
  acquire pw (permit_usage pm) (B (permit_budget pm)) = (ok, s) ->
  moves [] (if ok then permit_charges [pm] else []) B (<[permit_budget pm := s]> B).
Proof.
  intros (El & Eu & Ew)%acquire_spec.
  apply moves_insert; [done|..|done]; destruct ok; owed_cases; rewrite Eu; simpl; lia.
Qed.

Lemma drop_permit_moves pm B :
  (forall r b, owed r b (permit_charges [pm]) <= amount r (used (B b))) ->
  exists B', drop_permit pm B = Done B' /\ moves (permit_charges [pm]) [] B B'.
Proof.
  intros Hle. unfold drop_permit.
  destruct (release_spec (permit_usage pm) (B (permit_budget pm))) as (s & -> & El & Eu).
  { intros r. specialize (Hle r (permit_budget pm)). simpl in Hle.
    rewrite decide_True in Hle by done. lia. }
  eexists. split; [done|]. apply moves_insert; [done|..]; [owed_cases; rewrite Eu; simpl; lia
    |owed_cases|].
  intros r W. rewrite Eu, El. destruct pm, r; simpl in *; lia.
Qed.

End Lemmas.

End Accounts.
