(* ===== verification/Channel.v ===== *)
(** * RTD channels, their publisher and their subscriptions

    Models crates/xlfn/src/subscription/channel.rs with the stored values of
    subscription/value.rs: the bounded queue between a producer and the shared
    publisher of one runtime generation, admission against the budgets of
    Budget.v, publication turns, closure, the disconnection barrier, and the
    setup of a subscription with every exit that abandons it.

    Threads share a store of budgets, the channels, the publisher's ready
    queue and the publisher pool.  A thread is a program counter inside one
    call.  A step runs one critical section or one atomic access; the channel
    state mutex, the publication mutex and the pool mutex are held across
    steps where the code takes another mutex or calls out while holding them,
    and a critical section that does neither is one step.  An admitted charge
    is carried with the pair of budgets that granted it.  Fields protected by
    a held mutex may be written in the same step as the access that follows.
    What the model leaves to the environment (allocation, the RTD storage
    behind the sink, the application's factory, thread creation) is the answer
    carried by the action. *)

From stdpp Require Import functions.
From S2P Require Import Prelude SealableCounter Names Errors Utf16 Budget.
Import SealableCounter.Transitions Errors Budget.

Local Open Scope Z_scope.

Module Channel.
Import Str.

(** ** Values *)

(** [RtdValue]; a number is its IEEE 754 bit pattern. *)
Inductive RtdValue : Type :=
| Number (bits : Z)
| Boolean (b : bool)
| Integer (i : Z)
| Text (s : str)
| ErrorValue (e : ExcelError)
| EmptyValue.

(** [StoredRtdValue] has the same variants; it is what validation returns. *)
Inductive StoredRtdValue : Type := Stored (v : RtdValue).

#[export] Instance RtdValue_eq_dec : EqDecision RtdValue.
Proof. solve_decision. Defined.
#[export] Instance StoredRtdValue_eq_dec : EqDecision StoredRtdValue.
Proof. solve_decision. Defined.

Definition is_finite (bits : Z) : bool := negb (Z.land (Z.shiftr bits 52) 0x7FF =? 0x7FF).

Definition validate (v : RtdValue) : XllResult unit :=
  match v with
  | Number n => if is_finite n then Ok tt else Err (Domain InvalidInput)
  | Text s => Utf16.validate_utf16_limit s "RTD value" Modes.EXCEL_STRING_LIMIT
  | _ => Ok tt
  end.

Definition into_stored (v : RtdValue) : XllResult StoredRtdValue :=
  match validate v with Ok _ => Ok (Stored v) | Err e => Err e end.

(** A Rust [String] holds Unicode scalar values. *)
Definition well_formed (v : RtdValue) : bool :=
  match v with Text s => forallb is_scalar s | _ => true end.

(** The values a pending batch can hold: [into_stored] made them. *)
Definition validated (v : StoredRtdValue) : bool :=
  match v with Stored w => well_formed w && is_ok (validate w) end.

(** ** Data *)

(** [RtdFifo] and [RtdLatest]. *)
Inductive RtdDelivery : Type := Fifo (capacity : Z) | Latest.

Definition is_latest (d : RtdDelivery) : bool := match d with Latest => true | _ => false end.
Definition capacity (d : RtdDelivery) : Z := match d with Fifo n => n | Latest => 1 end.

Inductive RtdProducerErrorPolicy : Type :=
| RetainLastValue
| PublishError (e : ExcelError).

(** [FifoBuffer] is a deque and [LatestBuffer] an optional value; both are a
    list with its front first. *)
Record ChannelState : Type := State {
  queued : list StoredRtdValue;
  buffered : BufferLedger;
  terminal_error : option ExcelError;
  accepting : bool;
  stopping : bool;
  scheduled : bool;
}.

(** [RtdChannelSubscription]: the channel, the producer thread to join and the
    permits, in the order they are dropped. *)
Record Subscription : Type := Subscribed {
  s_channel : nat;
  s_producer : option nat;
  s_permits : list permit;
}.

(** [Channel] with its two mutexes; [subscription] is the barrier handed to
    the caller of [subscribe] until [finish] consumes it. *)
Record Chan : Type := MkChan {
  delivery : RtdDelivery;
  chan_budgets : BudgetPair;
  sink : bool;
  result_of : XllResult unit;
  publication_lock : option nat;
  scheduler : bool;
  state : ChannelState;
  state_lock : option nat;
  accepting_flag : bool;
  stopping_flag : bool;
  subscription : option Subscription;
}.

Definition set_state (st : ChannelState) (ch : Chan) : Chan :=
  MkChan (delivery ch) (chan_budgets ch) (sink ch) (result_of ch) (publication_lock ch)
    (scheduler ch) st (state_lock ch) (accepting_flag ch) (stopping_flag ch) (subscription ch).
Definition set_state_lock (o : option nat) (ch : Chan) : Chan :=
  MkChan (delivery ch) (chan_budgets ch) (sink ch) (result_of ch) (publication_lock ch)
    (scheduler ch) (state ch) o (accepting_flag ch) (stopping_flag ch) (subscription ch).
Definition set_publication (s : bool) (r : XllResult unit) (ch : Chan) : Chan :=
  MkChan (delivery ch) (chan_budgets ch) s r (publication_lock ch)
    (scheduler ch) (state ch) (state_lock ch) (accepting_flag ch) (stopping_flag ch)
    (subscription ch).
Definition set_publication_lock (o : option nat) (ch : Chan) : Chan :=
  MkChan (delivery ch) (chan_budgets ch) (sink ch) (result_of ch) o
    (scheduler ch) (state ch) (state_lock ch) (accepting_flag ch) (stopping_flag ch)
    (subscription ch).
Definition set_flags (a s : bool) (ch : Chan) : Chan :=
  MkChan (delivery ch) (chan_budgets ch) (sink ch) (result_of ch) (publication_lock ch)
    (scheduler ch) (state ch) (state_lock ch) a s (subscription ch).
Definition set_subscription (o : option Subscription) (ch : Chan) : Chan :=
  MkChan (delivery ch) (chan_budgets ch) (sink ch) (result_of ch) (publication_lock ch)
    (scheduler ch) (state ch) (state_lock ch) (accepting_flag ch) (stopping_flag ch) o.

Definition set_queue (q : list StoredRtdValue) (l : BufferLedger) (st : ChannelState)
  : ChannelState :=
  State q l (terminal_error st) (accepting st) (stopping st) (scheduled st).
Definition set_terminal (o : option ExcelError) (st : ChannelState) : ChannelState :=
  State (queued st) (buffered st) o (accepting st) (stopping st) (scheduled st).
Definition set_accepting (a : bool) (st : ChannelState) : ChannelState :=
  State (queued st) (buffered st) (terminal_error st) a (stopping st) (scheduled st).
Definition set_stopping (b : bool) (st : ChannelState) : ChannelState :=
  State (queued st) (buffered st) (terminal_error st) (accepting st) b (scheduled st).
Definition set_scheduled (b : bool) (st : ChannelState) : ChannelState :=
  State (queued st) (buffered st) (terminal_error st) (accepting st) (stopping st) b.

(** [PublisherQueue]: the ready channels and whether the queue has stopped. *)
Record Ready : Type := MkReady {
  ready_channels : list nat;
  ready_stopping : bool;
}.

(** [PublisherPool]. *)
Inductive PublisherWorker : Type := Dormant | Running (worker : nat) | Stopped.

Record Pool : Type := MkPool {
  worker : PublisherWorker;
  pool_lock : option nat;
  queue_cell : bool;
  pool_stopped : bool;
}.

(** [exited] holds the threads whose join returns. *)
Record shared : Type := Shared {
  budgets : nat -> BudgetState;
  channels : list Chan;
  ready : Ready;
  pool : Pool;
  exited : list nat;
}.

Definition set_budgets (B : nat -> BudgetState) (m : shared) : shared :=
  Shared B (channels m) (ready m) (pool m) (exited m).
Definition set_chan (c : nat) (ch : Chan) (m : shared) : shared :=
  Shared (budgets m) (<[c := ch]> (channels m)) (ready m) (pool m) (exited m).
Definition add_chan (ch : Chan) (m : shared) : shared :=
  Shared (budgets m) (channels m ++ [ch]) (ready m) (pool m) (exited m).
Definition set_ready (r : Ready) (m : shared) : shared :=
  Shared (budgets m) (channels m) r (pool m) (exited m).
Definition set_pool (p : Pool) (m : shared) : shared :=
  Shared (budgets m) (channels m) (ready m) p (exited m).
Definition set_exited (t : nat) (m : shared) : shared :=
  Shared (budgets m) (channels m) (ready m) (pool m) (t :: exited m).

(** ** Program counters *)

(** [try_send_pending] and [try_send_pending_batch]. *)
Inductive send_kind : Type := Single | Batch.

(** What a call returned. *)
Inductive ret : Type :=
| SendOk
| SendInvalid (e : XllError)
| SendFull (vs : list StoredRtdValue)
| SendClosed (vs : list StoredRtdValue)
| Cancelled
| Disconnected (c : nat) (r : XllResult unit)
| SubscribeOk (c : nat)
| SubscribeFailed (e : XllError)
| PoolStopped.

(** How a send continues after it released the state mutex. *)
Inductive wakeup : Type := NoWake | WakeSchedule | WakeEnqueue.

(** What follows [schedule] and [enqueue_reserved]. *)
Inductive after_schedule : Type :=
| AfterSend (r : ret)
| AfterComplete
| AfterPublish.

(** What follows [finish]: an explicit disconnection, or the exit of a setup
    that failed with an error. *)
Inductive after_finish : Type := Explicit | Abandoned (e : XllError).

(** What follows [close]. *)
Inductive after_close : Type :=
| CloseReturn
| CloseFinish (s : Subscription) (k : after_finish)
| ClosePublish.

Record request : Type := Request {
  rq_source : nat;
  rq_runtime : nat;
  rq_delivery : RtdDelivery;
  rq_policy : RtdProducerErrorPolicy;
}.

Inductive pc : Type :=
| Idle
| Exited
| Returned (r : ret)
| SendLoad (k : send_kind) (c : nat) (vs : list StoredRtdValue)
| SendLock (k : send_kind) (c : nat) (vs : list StoredRtdValue)
| SendBody (k : send_kind) (c : nat) (vs : list StoredRtdValue)
| SendGrow (c : nat) (vs : list StoredRtdValue) (v : StoredRtdValue) (growth : Z)
    (bc : budget_call)
| SendReplace (c : nat) (vs : list StoredRtdValue) (v : StoredRtdValue) (growth : Z)
    (bp : BudgetPair)
| SendShrink (c : nat) (bc : budget_call)
| SendPush (k : send_kind) (c : nat) (vs new : list StoredRtdValue) (b : Z) (bc : budget_call)
| SendInstall (k : send_kind) (c : nat) (vs new : list StoredRtdValue) (b : Z)
    (bp : BudgetPair)
| SendUnlock (c : nat) (r : ret) (w : wakeup)
| Schedule (c : nat) (k : after_schedule)
| Enqueue (c : nat) (k : after_schedule)
| Close (c : nat) (k : after_close)
| CloseDrop (c : nat) (bc : budget_call) (k : after_close)
| FinishRevoke (s : Subscription) (k : after_finish)
| FinishJoin (s : Subscription) (r : XllResult unit) (k : after_finish)
| DropPermits (ps : list permit) (r : ret)
| SubWorker (q : request)
| SubRuntimeWorker (q : request)
| SubPermit (q : request)
| SubLoad (q : request)
| SubGet (q : request)
| SubStart (q : request)
| SubAttach (q : request)
| SubFactory (s : Subscription) (p : RtdProducerErrorPolicy)
| SubSpawn (s : Subscription) (p : RtdProducerErrorPolicy)
| Complete (c : nat) (r : XllResult unit) (p : RtdProducerErrorPolicy)
| PubWait
| PubLock (c : nat)
| PubTake (c : nat)
| PubPublish (c : nat) (vs : list StoredRtdValue) (p : option BufferPermit)
| PubDrop (c : nat) (bc : budget_call) (r : XllResult unit)
| PubResult (c : nat) (r : XllResult unit)
| PubUnlock (c : nat)
| PubFinal (c : nat)
| StopLock
| StopStore
| StopQueue (w : nat)
| StopJoin (w : nat)
| StopUnlock.

(** A producer thread owns the job of one channel. *)
Record thread : Type := Thread {
  job : option (nat * RtdProducerErrorPolicy);
  at_pc : pc;
}.

(** Calls a thread can start. *)
Inductive call : Type :=
| CallSend (c : nat) (v : RtdValue)
| CallSendBatch (c : nat) (vs : list RtdValue)
| CallRetry (k : send_kind) (c : nat) (vs : list StoredRtdValue)
| CallCancel (c : nat)
| CallFinish (c : nat)
| CallSubscribe (q : request)
| CallComplete (r : XllResult unit)
| CallStop.

(** [Run] continues a call; the environment's answer is [None] for success. *)
Inductive action : Type :=
| Start (o : call)
| Run (failure : option XllError).

(** The history of a run: admissions, the reserved final error of a failed
    producer, and values handed to the RTD storage. *)
Inductive event : Type :=
| Accepted (c : nat) (vs : list StoredRtdValue)
| Terminal (c : nat) (e : ExcelError)
| Delivered (c : nat) (v : StoredRtdValue).

Record step_result : Type := Next {
  next_pc : pc;
  next_mem : shared;
  next_spawn : option thread;
  next_events : list event;
}.

Definition effect : Type := outcome (option step_result).
Definition blocked : effect := Done None.
Definition go (p : pc) (m : shared) : effect := Done (Some (Next p m None [])).
Definition emit (p : pc) (m : shared) (e : event) : effect := Done (Some (Next p m None [e])).

(** ** Operations on one channel *)
Section Steps.
Context (pw : pointer_width) (stored_size : Z).

Definition value_bytes (v : StoredRtdValue) : Z :=
  stored_size + match v with Stored (Text s) => Utf16.str_len s | _ => 0 end.

Definition bytes_of (vs : list StoredRtdValue) : Z := foldr (fun v n => value_bytes v + n) 0 vs.

(** [Iterator::sum] over [usize]. *)
Definition sum_bytes (vs : list StoredRtdValue) : outcome Z :=
  if bytes_of vs <? 2 ^ bits pw then Done (bytes_of vs) else Panicked.

Definition with_chan (c : nat) (m : shared) (f : Chan -> effect) : effect :=
  match channels m !! c with Some ch => f ch | None => blocked end.

(** A critical section on the channel state that takes no other mutex. *)
Definition with_state (c : nat) (m : shared) (f : Chan -> effect) : effect :=
  with_chan c m (fun ch => match state_lock ch with None => f ch | Some _ => blocked end).

(** [LatestBuffer::push_back] asserts that the slot is empty. *)
Definition push_back (d : RtdDelivery) (new q : list StoredRtdValue)
  : outcome (list StoredRtdValue) :=
  match d, q with
  | Latest, _ :: _ => Panicked
  | _, _ => Done (q ++ new)
  end.

(** [*back_mut().expect(..) = value]. *)
Definition set_back (v : StoredRtdValue) (q : list StoredRtdValue)
  : outcome (list StoredRtdValue) :=
  match q with [] => Panicked | _ :: _ => Done (removelast q ++ [v]) end.

Definition reserve_schedule (ch : Chan) (st : ChannelState) : bool * ChannelState :=
  if negb (scheduler ch) || stopping st || scheduled st
     || (bool_decide (queued st = []) && bool_decide (terminal_error st = None))
  then (false, st)
  else (true, set_scheduled true st).

(** ** Admission *)

(** The critical section of both sends up to the first call on the budgets. *)
Definition replace_latest (c : nat) (vs : list StoredRtdValue) (v : StoredRtdValue) (ch : Chan)
    (m : shared) : effect :=
  let previous := l_bytes (buffered (state ch)) in
  if previous <? value_bytes v
  then match resize_charge (chan_budgets ch) previous (value_bytes v) with
       | Some bc => go (SendGrow c vs v (value_bytes v - previous) bc) m
       | None => blocked
       end
  else go (SendReplace c vs v 0 (chan_budgets ch)) m.

Definition push_values (k : send_kind) (c : nat) (vs new : list StoredRtdValue) (ch : Chan)
    (m : shared) : effect :=
  let* b := sum_bytes new in
  match try_push_batch pw (chan_budgets ch) (Z.of_nat (length new)) b (buffered (state ch)) with
  | Ok bc => go (SendPush k c vs new b bc) m
  | Err true => go (SendInstall k c vs new b (chan_budgets ch)) m
  | Err false => go (SendUnlock c (SendFull vs) NoWake) m
  end.

Definition single_body (c : nat) (vs : list StoredRtdValue) (ch : Chan) (m : shared) : effect :=
  match vs with
  | [v] =>
      let st := state ch in
      if negb (accepting st) then go (SendUnlock c (SendClosed vs) NoWake) m
      else if is_latest (delivery ch) && negb (bool_decide (queued st = []))
      then replace_latest c vs v ch m
      else if negb (is_latest (delivery ch))
              && (capacity (delivery ch) <=? Z.of_nat (length (queued st)))
      then go (SendUnlock c (SendFull vs) NoWake) m
      else push_values Single c vs [v] ch m
  | _ => blocked
  end.

(** [try_reserve] fails when allocation does; the slot of [LatestBuffer] is
    part of the channel. *)
Definition batch_body (c : nat) (vs : list StoredRtdValue) (ch : Chan)
    (failure : option XllError) (m : shared) : effect :=
  let st := state ch in
  if negb (accepting st) then go (SendUnlock c (SendClosed vs) NoWake) m
  else
    match delivery ch, last vs with
    | _, None => Panicked
    | Latest, Some v =>
        if negb (bool_decide (queued st = [])) then replace_latest c vs v ch m
        else push_values Batch c vs [v] ch m
    | Fifo n, Some _ =>
        if (n <? saturating_add (bits pw) (Z.of_nat (length (queued st))) (Z.of_nat (length vs)))
           || bool_decide (failure <> None)
        then go (SendUnlock c (SendFull vs) NoWake) m
        else push_values Batch c vs vs ch m
    end.

(** [resize] and the replacement of the waiting value; a shrinking charge is
    returned after the old value is gone. *)
Definition replace_value (c : nat) (vs : list StoredRtdValue) (v : StoredRtdValue) (growth : Z)
    (ch : Chan) (m : shared) : effect :=
  let st := state ch in
  let previous := l_bytes (buffered st) + growth in
  let* q := set_back v (queued st) in
  let l := Ledger (l_values (buffered st)) (value_bytes v) in
  let m' := set_chan c (set_state (set_queue q l st) ch) m in
  emit (if value_bytes v <? previous
        then match resize_charge (chan_budgets ch) previous (value_bytes v) with
             | Some bc => SendShrink c bc
             | None => SendUnlock c SendOk NoWake
             end
        else SendUnlock c SendOk NoWake) m' (Accepted c vs).

(** The commit of an admission. *)
Definition install_values (k : send_kind) (c : nat) (vs new : list StoredRtdValue) (b : Z)
    (ch : Chan) (m : shared) : effect :=
  let st := state ch in
  let was_empty := bool_decide (queued st = []) in
  let* q := push_back (delivery ch) new (queued st) in
  let st' := set_queue q (pushed (Z.of_nat (length new)) b (buffered st)) st in
  match k with
  | Single =>
      emit (SendUnlock c SendOk (if was_empty then WakeSchedule else NoWake))
        (set_chan c (set_state st' ch) m) (Accepted c vs)
  | Batch =>
      let '(reserved, st'') := if was_empty then reserve_schedule ch st' else (false, st') in
      emit (SendUnlock c SendOk (if reserved then WakeEnqueue else NoWake))
        (set_chan c (set_state st'' ch) m) (Accepted c vs)
  end.

(** One critical section of a call on the channel's budgets. *)
Definition on_budgets (bc : budget_call) (m : shared) (more : budget_call -> pc)
    (answer : bool -> pc) : effect :=
  let* (r, B) := budget_step pw bc (budgets m) in
  go (match r with Pending bc' => more bc' | Answer ok => answer ok end) (set_budgets B m).

Definition send_step (t : nat) (failure : option XllError) (p : pc) (m : shared) : effect :=
  match p with
  | SendLoad k c vs =>
      with_chan c m (fun ch =>
        if accepting_flag ch then go (SendLock k c vs) m else go (Returned (SendClosed vs)) m)
  | SendLock k c vs =>
      with_state c m (fun ch =>
        go (SendBody k c vs) (set_chan c (set_state_lock (Some t) ch) m))
  | SendBody Single c vs => with_chan c m (fun ch => single_body c vs ch m)
  | SendBody Batch c vs => with_chan c m (fun ch => batch_body c vs ch failure m)
  | SendGrow c vs v growth bc =>
      on_budgets bc m (SendGrow c vs v growth)
        (fun ok => if ok then SendReplace c vs v growth (call_pair bc) else SendUnlock c (SendFull vs) NoWake)
  | SendReplace c vs v growth _ => with_chan c m (fun ch => replace_value c vs v growth ch m)
  | SendShrink c bc =>
      on_budgets bc m (SendShrink c) (fun _ => SendUnlock c SendOk NoWake)
  | SendPush k c vs new b bc =>
      on_budgets bc m (SendPush k c vs new b)
        (fun ok => if ok then SendInstall k c vs new b (call_pair bc) else SendUnlock c (SendFull vs) NoWake)
  | SendInstall k c vs new b _ => with_chan c m (fun ch => install_values k c vs new b ch m)
  | SendUnlock c r w =>
      with_chan c m (fun ch =>
        go (match w with
            | NoWake => Returned r
            | WakeSchedule => Schedule c (AfterSend r)
            | WakeEnqueue => Enqueue c (AfterSend r)
            end) (set_chan c (set_state_lock None ch) m))
  | _ => blocked
  end.

(** ** Scheduling *)

Definition resume (t : nat) (k : after_schedule) (m : shared) : effect :=
  match k with
  | AfterSend r => go (Returned r) m
  | AfterComplete => go Exited (set_exited t m)
  | AfterPublish => go PubWait m
  end.

(** [PublisherQueue::push]. *)
Definition push (c : nat) (r : Ready) : Ready :=
  if ready_stopping r then r else MkReady (ready_channels r ++ [c]) false.

Definition schedule_step (t : nat) (p : pc) (m : shared) : effect :=
  match p with
  | Schedule c k =>
      with_state c m (fun ch =>
        let '(reserved, st) := reserve_schedule ch (state ch) in
        if reserved then go (Enqueue c k) (set_chan c (set_state st ch) m) else resume t k m)
  | Enqueue c k =>
      with_chan c m (fun ch =>
        match k, scheduler ch with
        | (AfterSend _ | AfterComplete), false => Panicked
        | _, _ => resume t k (set_ready (push c (ready m)) m)
        end)
  | _ => blocked
  end.

(** ** Closure and disconnection *)

Definition close_next (c : nat) (k : after_close) : pc :=
  match k with
  | CloseReturn => Returned Cancelled
  | CloseFinish s kf => FinishRevoke s kf
  | ClosePublish => PubUnlock c
  end.

Definition close_step (p : pc) (m : shared) : effect :=
  match p with
  | Close c k =>
      with_state c m (fun ch =>
        let* (permit, l) := take_all (chan_budgets ch) (buffered (state ch)) in
        let st := State [] l None false true (scheduled (state ch)) in
        let m' := set_chan c (set_flags false true (set_state st ch)) m in
        go (match drop_buffered permit with
            | Some bc => CloseDrop c bc k
            | None => close_next c k
            end) m')
  | CloseDrop c bc k => on_budgets bc m (fun bc' => CloseDrop c bc' k) (fun _ => close_next c k)
  | _ => blocked
  end.

(** The errors [finish] reports. *)
Definition finish_result (r : XllResult unit) : XllResult unit :=
  match r with Ok _ | Err Closing => Ok tt | Err e => Err e end.

Definition finish_return (c : nat) (r : XllResult unit) (k : after_finish) : ret :=
  match k with
  | Explicit => Disconnected c (finish_result r)
  | Abandoned e => SubscribeFailed e
  end.

Definition finish_step (p : pc) (m : shared) : effect :=
  match p with
  | FinishRevoke s k =>
      with_chan (s_channel s) m (fun ch =>
        match publication_lock ch with
        | Some _ => blocked
        | None => go (FinishJoin s (result_of ch) k)
                     (set_chan (s_channel s) (set_publication false (Ok tt) ch) m)
        end)
  | FinishJoin s r k =>
      if match s_producer s with Some j => bool_decide (j ∈ exited m) | None => true end
      then go (DropPermits (s_permits s) (finish_return (s_channel s) r k)) m
      else blocked
  | DropPermits ps r =>
      match ps with
      | [] => go (Returned r) m
      | p :: ps =>
          let* B := drop_permit p (budgets m) in
          go (DropPermits ps r) (set_budgets B m)
      end
  | _ => blocked
  end.

(** ** Setup of a subscription *)

Definition new_chan (q : request) : Chan :=
  MkChan (rq_delivery q) (Pair (rq_source q) (rq_runtime q)) true (Ok tt) None true
    (State [] ledger_default None true false false) None true false None.

Definition subscribe_permit (b : nat) (pm : permit) (m : shared) (yes no : pc) : effect :=
  let '(ok, s) := acquire pw (permit_usage pm) (budgets m b) in
  go (if ok : bool then yes else no) (set_budgets (<[b := s]> (budgets m)) m).

(** The permits of an abandoned setup, latest first. *)
Definition request_permits (q : request) : list permit :=
  [WorkerPermit (rq_runtime q); WorkerPermit (rq_source q)].

Definition abandon (q : request) (e : XllError) : pc :=
  DropPermits (SubscriptionPermit (rq_source q) :: request_permits q) (SubscribeFailed e).

(** [PublisherPool::queue] with [PublisherStartup::start]. *)
Definition queue_step (n : nat) (failure : option XllError) (p : pc) (m : shared) : effect :=
  match p with
  | SubLoad q => go (if pool_stopped (pool m) then abandon q Closing else SubGet q) m
  | SubGet q => go (if queue_cell (pool m) then SubAttach q else SubStart q) m
  | SubStart q =>
      match pool_lock (pool m), worker (pool m), failure with
      | Some _, _, _ => blocked
      | None, Running _, _ => go (SubAttach q) m
      | None, Stopped, _ => go (abandon q Closing) m
      | None, Dormant, Some e => go (abandon q e) m
      | None, Dormant, None =>
          Done (Some (Next (SubAttach q)
            (set_pool (MkPool (Running n) None true (pool_stopped (pool m))) m)
            (Some (Thread None PubWait)) []))
      end
  | _ => blocked
  end.

(** [start_publisher] runs on a channel no other thread has: its call of
    [schedule] finds an empty queue. *)
Definition subscribe_step (t n : nat) (failure : option XllError) (p : pc) (m : shared) : effect :=
  match p with
  | SubWorker q =>
      subscribe_permit (rq_source q) (WorkerPermit (rq_source q)) m
        (SubRuntimeWorker q) (Returned (SubscribeFailed Overloaded))
  | SubRuntimeWorker q =>
      subscribe_permit (rq_runtime q) (WorkerPermit (rq_runtime q)) m
        (SubPermit q) (DropPermits [WorkerPermit (rq_source q)] (SubscribeFailed Overloaded))
  | SubPermit q =>
      subscribe_permit (rq_source q) (SubscriptionPermit (rq_source q)) m
        (SubLoad q) (DropPermits (request_permits q) (SubscribeFailed Overloaded))
  | SubLoad _ | SubGet _ | SubStart _ => queue_step n failure p m
  | SubAttach q =>
      go (SubFactory (Subscribed (length (channels m)) None
                        [WorkerPermit (rq_source q); WorkerPermit (rq_runtime q);
                         SubscriptionPermit (rq_source q)]) (rq_policy q))
         (add_chan (new_chan q) m)
  | SubFactory s pol =>
      match failure with
      | Some e => go (Close (s_channel s) (CloseFinish s (Abandoned e))) m
      | None => go (SubSpawn s pol) m
      end
  | SubSpawn s pol =>
      match failure with
      | Some e => go (Close (s_channel s) (CloseFinish s (Abandoned e))) m
      | None =>
          with_chan (s_channel s) m (fun ch =>
            let s' := Subscribed (s_channel s) (Some n) (s_permits s) in
            Done (Some (Next (Returned (SubscribeOk (s_channel s)))
              (set_chan (s_channel s) (set_subscription (Some s') ch) m)
              (Some (Thread (Some (s_channel s, pol)) Idle)) [])))
      end
  | _ => blocked
  end.

(** [producer_completed]; the diagnostic report changes no shared state. *)
Definition complete_step (p : pc) (m : shared) : effect :=
  match p with
  | Complete c r pol =>
      with_state c m (fun ch =>
        let st := state ch in
        let failed := match r with
                      | Ok _ => false
                      | Err Closing => negb (stopping st)
                      | Err _ => true
                      end in
        let st' := set_accepting false st in
        let finish st := set_chan c (set_flags false (stopping_flag ch) (set_state st ch)) m in
        match failed && negb (stopping st), pol with
        | true, PublishError e =>
            emit (Schedule c AfterComplete) (finish (set_terminal (Some e) st')) (Terminal c e)
        | _, _ => go (Schedule c AfterComplete) (finish st')
        end)
  | _ => blocked
  end.

(** ** The publisher *)

(** The loop of [publish_batch]: up to [todo] values, then the terminal error. *)
Fixpoint take_batch (todo : nat) (q : list StoredRtdValue) (terminal : option ExcelError)
  : list StoredRtdValue * list StoredRtdValue * option ExcelError :=
  match todo with
  | O => ([], q, terminal)
  | S todo =>
      match q with
      | v :: q =>
          let '(batch, rest, terminal) := take_batch todo q terminal in
          (v :: batch, rest, terminal)
      | [] =>
          match terminal with
          | Some e => ([Stored (ErrorValue e)], [], None)
          | None => ([], [], None)
          end
      end
  end.

Definition publish_take (c : nat) (ch : Chan) (m : shared) : effect :=
  let st := state ch in
  let '(batch, rest, terminal) :=
    if stopping st then ([], queued st, terminal_error st)
    else take_batch 32 (queued st) (terminal_error st) in
  let popped := take (length (queued st) - length rest) (queued st) in
  let* (permit, l) :=
    split (chan_budgets ch) (Z.of_nat (length popped)) (bytes_of popped) (buffered st) in
  go (PubPublish c batch permit)
     (set_chan c (set_state (set_terminal terminal (set_queue rest l st)) ch) m).

(** The permit outlives the batch. *)
Definition publish_return (c : nat) (p : option BufferPermit) (r : XllResult unit) : pc :=
  match drop_buffered p with Some bc => PubDrop c bc r | None => PubResult c r end.

(** The wait of [PublisherQueue::run]. *)
Definition queue_run (t : nat) (m : shared) : effect :=
  if ready_stopping (ready m) then go Exited (set_exited t m)
  else match ready_channels (ready m) with
       | [] => blocked
       | c :: cs => go (PubLock c) (set_ready (MkReady cs false) m)
       end.

Definition publish_step (t : nat) (failure : option XllError) (p : pc) (m : shared) : effect :=
  match p with
  | PubWait => queue_run t m
  | PubLock c =>
      with_chan c m (fun ch =>
        match publication_lock ch with
        | Some _ => blocked
        | None => go (if sink ch then PubTake c else PubUnlock c)
                     (set_chan c (set_publication_lock (Some t) ch) m)
        end)
  | PubTake c => with_state c m (fun ch => publish_take c ch m)
  | PubPublish c vs permit =>
      with_chan c m (fun ch =>
        match vs, failure with
        | [], _ => go (publish_return c permit (Ok tt)) m
        | _, Some e => go (publish_return c permit (Err e)) m
        | v :: vs, None =>
            if stopping_flag ch then go (publish_return c permit (Ok tt)) m
            else emit (PubPublish c vs permit) m (Delivered c v)
        end)
  | PubDrop c bc r => on_budgets bc m (fun bc' => PubDrop c bc' r) (fun _ => PubResult c r)
  | PubResult c r =>
      with_chan c m (fun ch =>
        match r with
        | Ok _ => go (PubUnlock c) m
        | Err _ => go (Close c ClosePublish) (set_chan c (set_publication false r ch) m)
        end)
  | PubUnlock c =>
      with_chan c m (fun ch => go (PubFinal c) (set_chan c (set_publication_lock None ch) m))
  | PubFinal c =>
      with_state c m (fun ch =>
        let '(requeue, st) := reserve_schedule ch (set_scheduled false (state ch)) in
        go (if requeue then Enqueue c AfterPublish else PubWait)
           (set_chan c (set_state st ch) m))
  | _ => blocked
  end.

(** [PublisherPool::stop] with [PublisherQueue::stop]. *)
Definition stop_step (t : nat) (p : pc) (m : shared) : effect :=
  let pl := pool m in
  match p with
  | StopLock =>
      match pool_lock pl with
      | Some _ => blocked
      | None => go StopStore (set_pool (MkPool (worker pl) (Some t) (queue_cell pl)
                                          (pool_stopped pl)) m)
      end
  | StopStore =>
      go (match worker pl with Running w => StopQueue w | _ => StopUnlock end)
         (set_pool (MkPool Stopped (pool_lock pl) (queue_cell pl) true) m)
  | StopQueue w => go (StopJoin w) (set_ready (MkReady [] true) m)
  | StopJoin w => if bool_decide (w ∈ exited m) then go StopUnlock m else blocked
  | StopUnlock =>
      go (Returned PoolStopped)
         (set_pool (MkPool (worker pl) None (queue_cell pl) (pool_stopped pl)) m)
  | _ => blocked
  end.

(** ** Calls *)

(** The conversion loop of [try_send_batch]. *)
Fixpoint convert_batch (room : nat) (vs : list RtdValue)
  : XllResult (list StoredRtdValue) :=
  match vs with
  | [] => Ok []
  | v :: vs =>
      match room with
      | O => Err (input "RTD batch" (TooLarge 32 33))
      | S room =>
          match into_stored v with
          | Err e => Err e
          | Ok sv =>
              match convert_batch room vs with Ok svs => Ok (sv :: svs) | Err e => Err e end
          end
      end
  end.

Definition send_batch (c : nat) (vs : list StoredRtdValue) : pc :=
  match vs with [] => Returned SendOk | _ => SendLoad Batch c vs end.

(** The values a caller can hold have been validated, and a batch holds at
    most 32 of them. *)
Definition pending_ok (k : send_kind) (vs : list StoredRtdValue) : bool :=
  forallb validated vs
  && match k with Single => (length vs =? 1)%nat | Batch => (length vs <=? 32)%nat end.

Definition start (j : option (nat * RtdProducerErrorPolicy)) (o : call) (m : shared) : effect :=
  let known c (e : effect) : effect := with_chan c m (fun _ => e) in
  match o with
  | CallSend c v =>
      if well_formed v then
        known c (match into_stored v with
                 | Ok sv => go (SendLoad Single c [sv]) m
                 | Err e => go (Returned (SendInvalid e)) m
                 end)
      else blocked
  | CallSendBatch c vs =>
      if forallb well_formed vs then
        known c (match convert_batch 32 vs with
                 | Ok svs => go (send_batch c svs) m
                 | Err e => go (Returned (SendInvalid e)) m
                 end)
      else blocked
  | CallRetry Single c vs =>
      if pending_ok Single vs then known c (go (SendLoad Single c vs) m) else blocked
  | CallRetry Batch c vs =>
      if pending_ok Batch vs then known c (go (send_batch c vs) m) else blocked
  | CallCancel c => known c (go (Close c CloseReturn) m)
  | CallFinish c =>
      with_chan c m (fun ch =>
        match subscription ch with
        | Some s => go (Close c (CloseFinish s Explicit))
                       (set_chan c (set_subscription None ch) m)
        | None => blocked
        end)
  | CallSubscribe q => go (SubWorker q) m
  | CallComplete r =>
      match j with Some (c, pol) => known c (go (Complete c r pol) m) | None => blocked end
  | CallStop => go StopLock m
  end.

(** [n] names the thread a step spawns. *)
Definition thread_step (t n : nat) (a : action) (th : thread) (m : shared) : effect :=
  match a, at_pc th with
  | Start o, Idle => start (job th) o m
  | Run f, p =>
      match p with
      | Idle | Exited => blocked
      | Returned _ => go Idle m
      | SendLoad _ _ _ | SendLock _ _ _ | SendBody _ _ _ | SendGrow _ _ _ _ _
      | SendReplace _ _ _ _ _ | SendShrink _ _ | SendPush _ _ _ _ _ _ | SendInstall _ _ _ _ _ _
      | SendUnlock _ _ _ => send_step t f p m
      | Schedule _ _ | Enqueue _ _ => schedule_step t p m
      | Close _ _ | CloseDrop _ _ _ => close_step p m
      | FinishRevoke _ _ | FinishJoin _ _ _ | DropPermits _ _ => finish_step p m
      | SubWorker _ | SubRuntimeWorker _ | SubPermit _ | SubLoad _ | SubGet _ | SubStart _
      | SubAttach _ | SubFactory _ _ | SubSpawn _ _ => subscribe_step t n f p m
      | Complete _ _ _ => complete_step p m
      | PubWait | PubLock _ | PubTake _ | PubPublish _ _ _ | PubDrop _ _ _ | PubResult _ _
      | PubUnlock _ | PubFinal _ => publish_step t f p m
      | StopLock | StopStore | StopQueue _ | StopJoin _ | StopUnlock => stop_step t p m
      end
  | _, _ => blocked
  end.

Record config : Type := Config {
  mem : shared;
  threads : list thread;
}.

Definition step (t : nat) (a : action) (s : config) : outcome (option (config * list event)) :=
  match threads s !! t with
  | None => Done None
  | Some th =>
      let* e := thread_step t (length (threads s)) a th (mem s) in
      Done (match e with
            | None => None
            | Some r =>
                Some (Config (next_mem r)
                        (<[t := Thread (job th) (next_pc r)]> (threads s)
                         ++ option_list (next_spawn r)), next_events r)
            end)
  end.

(** Runs with their histories. *)
Inductive run : config -> list event -> config -> Prop :=
| run_nil s : run s [] s
| run_step s t a s' es tr s'' :
    step t a s = Done (Some (s', es)) -> run s' tr s'' -> run s (es ++ tr) s''.

Fixpoint schedule (moves : list (nat * action)) (s : config)
  : outcome (option (config * list event)) :=
  match moves with
  | [] => Done (Some (s, []))
  | (t, a) :: moves =>
      let* o := step t a s in
      match o with
      | None => Done None
      | Some (s', es) =>
          let* o' := schedule moves s' in
          Done (match o' with Some (s'', tr) => Some (s'', es ++ tr) | None => None end)
      end
  end.

End Steps.

#[global] Arguments value_bytes : simpl never.
#[global] Arguments bytes_of : simpl never.

(** Application threads around unused budgets, before any subscription. *)
Definition initial (limits : nat -> Usage) (n : nat) : config :=
  Config (Shared (fun b => budget_new (limits b)) [] (MkReady [] false)
            (MkPool Dormant None false false) [])
    (replicate n (Thread None Idle)).

End Channel.
