(* ===== verification/ChannelInvariant.v ===== *)
(** * The invariant of RTD channels

    What every reachable state of Channel.v satisfies: each mutex is owned by
    the thread whose program counter says so, a channel's ledger counts its
    queue, and every counter of every budget is the total of the charges of
    channels and threads and stays within its limit. *)

From stdpp Require Import functions.
From S2P Require Import Prelude SealableCounter Names Errors Utf16 Budget Channel.
Import SealableCounter.Transitions Errors Budget Accounts.

Local Open Scope Z_scope.

Module ChannelInvariant.
Import Str Channel.

(** ** What a program counter holds *)

Definition owns_state (p : pc) : option nat :=
  match p with
  | SendBody _ c _ | SendGrow c _ _ _ _ | SendReplace c _ _ _ _ | SendShrink c _
  | SendPush _ c _ _ _ _ | SendInstall _ c _ _ _ _ | SendUnlock c _ _ => Some c
  | _ => None
  end.

Definition owns_publication (p : pc) : option nat :=
  match p with
  | PubTake c | PubPublish c _ _ | PubDrop c _ _ | PubResult c _ | PubUnlock c
  | Close c ClosePublish | CloseDrop c _ ClosePublish => Some c
  | _ => None
  end.

Definition owns_pool (p : pc) : option nat :=
  match p with StopStore | StopQueue _ | StopJoin _ | StopUnlock => Some 0%nat | _ => None end.

(** The channel whose setup a thread is completing. *)
Definition creates (p : pc) : option nat :=
  match p with SubFactory s _ | SubSpawn s _ => Some (s_channel s) | _ => None end.

Definition close_charges (k : after_close) : list charge :=
  match k with CloseFinish s _ => permit_charges (s_permits s) | _ => [] end.

(** The charges a thread has to return or to hand to a channel. *)
Definition held (p : pc) : list charge :=
  match p with
  | SendGrow _ _ _ _ bc | SendShrink _ bc | SendPush _ _ _ _ _ bc | PubDrop _ bc _ =>
      call_charges bc
  | SendReplace _ _ _ growth bp => pair_charges bp 0 growth
  | SendInstall _ _ _ new b bp => pair_charges bp (Z.of_nat (length new)) b
  | Close _ k => close_charges k
  | CloseDrop _ bc k => call_charges bc ++ close_charges k
  | FinishRevoke s _ | FinishJoin s _ _ | SubFactory s _ | SubSpawn s _ =>
      permit_charges (s_permits s)
  | DropPermits ps _ => permit_charges ps
  | SubRuntimeWorker q => permit_charges [WorkerPermit (rq_source q)]
  | SubPermit q => permit_charges (request_permits q)
  | SubLoad q | SubGet q | SubStart q | SubAttach q =>
      permit_charges (SubscriptionPermit (rq_source q) :: request_permits q)
  | PubPublish _ _ p => buffered_charges p
  | _ => []
  end.

Definition subscription_charges (o : option Subscription) : list charge :=
  match o with Some s => permit_charges (s_permits s) | None => [] end.

(** What a channel is charged for. *)
Definition chan_charges (ch : Chan) : list charge :=
  pair_charges (chan_budgets ch) (l_values (buffered (state ch))) (l_bytes (buffered (state ch)))
  ++ subscription_charges (subscription ch).

(** The channel a program counter is about. *)
Definition mentions (p : pc) : option nat :=
  match p with
  | SendLoad _ c _ | SendLock _ c _ | SendBody _ c _ | SendGrow c _ _ _ _ | SendReplace c _ _ _ _
  | SendShrink c _ | SendPush _ c _ _ _ _ | SendInstall _ c _ _ _ _ | SendUnlock c _ _
  | Schedule c _ | Enqueue c _ | Close c _ | CloseDrop c _ _ | Complete c _ _
  | PubLock c | PubTake c | PubPublish c _ _ | PubDrop c _ _ | PubResult c _ | PubUnlock c
  | PubFinal c | Returned (Disconnected c _) | DropPermits _ (Disconnected c _) => Some c
  | FinishRevoke s _ | FinishJoin s _ _ | SubFactory s _ | SubSpawn s _ => Some (s_channel s)
  | _ => None
  end.

Section Invariant.
Context (pw : pointer_width) (stored_size : Z).
Context (Hsize : 0 <= stored_size <= 65536).

Abbreviation value_bytes := (value_bytes stored_size).
Abbreviation bytes_of := (bytes_of stored_size).
Abbreviation thread_step := (thread_step pw stored_size).
Abbreviation step := (step pw stored_size).
Abbreviation run := (run pw stored_size).

(** ** Local assertions *)

(** A thread about to replace the waiting value of a [Latest] channel. *)
Definition replacing (ch : Chan) (vs : list StoredRtdValue) (v : StoredRtdValue) : Prop :=
  delivery ch = Latest /\ queued (state ch) <> [] /\ accepting (state ch) = true
  /\ last vs = Some v /\ validated v = true.

(** A thread about to append [new]. *)
Definition pushing (ch : Chan) (vs new : list StoredRtdValue) (b : Z) : Prop :=
  accepting (state ch) = true /\ new <> [] /\ Forall (fun v => validated v = true) new
  /\ b = bytes_of new
  /\ match delivery ch with
     | Latest => queued (state ch) = [] /\ exists v, new = [v] /\ last vs = Some v
     | Fifo n => new = vs /\ Z.of_nat (length (queued (state ch)) + length new) <= n
     end.

Definition is_send_ret (r : ret) : bool :=
  match r with SendOk | SendFull _ | SendClosed _ | SendInvalid _ => true | _ => false end.

Definition send_after (k : after_schedule) : Prop :=
  match k with AfterSend r => is_send_ret r = true | _ => True end.

Definition releasing (ch : Chan) (bc : budget_call) : Prop :=
  exists v b, call_for false (chan_budgets ch) v b bc.

Definition close_ok (c : nat) (k : after_close) : Prop :=
  match k with CloseFinish s _ => s_channel s = c | _ => True end.

Definition revoked (ch : Chan) : Prop := stopping (state ch) = true /\ sink ch = false.

Definition local_ok (ch : Chan) (p : pc) : Prop :=
  match p with
  | SendLoad k _ vs | SendLock k _ vs | SendBody k _ vs => pending_ok k vs = true /\ vs <> []
  | SendGrow _ vs v growth bc =>
      replacing ch vs v /\ growth = value_bytes v - l_bytes (buffered (state ch))
      /\ call_for true (chan_budgets ch) 0 growth bc
  | SendReplace _ vs v growth bp =>
      replacing ch vs v /\ growth = Z.max 0 (value_bytes v - l_bytes (buffered (state ch)))
      /\ bp = chan_budgets ch
  | SendShrink _ bc => releasing ch bc
  | SendPush _ _ vs new b bc =>
      pushing ch vs new b /\ call_for true (chan_budgets ch) (Z.of_nat (length new)) b bc
  | SendInstall _ _ vs new b bp => pushing ch vs new b /\ bp = chan_budgets ch
  | SendUnlock _ r _ => is_send_ret r = true
  | Schedule _ k | Enqueue _ k => send_after k
  | Close c k => close_ok c k /\ (k = ClosePublish -> sink ch = false)
  | CloseDrop c bc k => close_ok c k /\ releasing ch bc /\ stopping (state ch) = true
  | FinishRevoke s _ => stopping (state ch) = true
  | FinishJoin s _ _ => revoked ch
  | Returned (Disconnected _ _) | DropPermits _ (Disconnected _ _) => revoked ch
  | SubFactory s _ | SubSpawn s _ => subscription ch = None
  | PubTake _ | PubResult _ _ => sink ch = true
  | PubPublish _ _ p =>
      sink ch = true
      /\ match p with
         | Some (Buffered bp v b) => bp = chan_budgets ch /\ 0 <= v /\ 0 <= b
         | None => True
         end
  | PubDrop _ bc _ => releasing ch bc /\ sink ch = true
  | PubUnlock _ => sink ch = false -> stopping (state ch) = true
  | _ => True
  end.

Definition thread_ok (chs : list Chan) (p : pc) : Prop :=
  forall c, mentions p = Some c -> exists ch, chs !! c = Some ch /\ local_ok ch p.

(** ** Channels *)
Record chan_ok (c : nat) (ch : Chan) : Prop := ChanOk {
  ok_values : l_values (buffered (state ch)) = Z.of_nat (length (queued (state ch)));
  ok_bytes : l_bytes (buffered (state ch)) = bytes_of (queued (state ch));
  ok_valid : Forall (fun v => validated v = true) (queued (state ch));
  ok_accepting : accepting_flag ch = accepting (state ch);
  ok_stopping : stopping_flag ch = stopping (state ch);
  ok_stopped : stopping (state ch) = true ->
    accepting (state ch) = false /\ queued (state ch) = [] /\ terminal_error (state ch) = None;
  ok_terminal : terminal_error (state ch) <> None -> accepting (state ch) = false;
  ok_capacity : queued (state ch) <> [] ->
    Z.of_nat (length (queued (state ch))) <= capacity (delivery ch);
  ok_scheduler : scheduler ch = true;
  ok_sink : sink ch = false -> publication_lock ch = None -> stopping (state ch) = true;
  ok_subscription : forall s, subscription ch = Some s -> s_channel s = c;
}.

(** ** Accounts *)
Definition account (r : resource) (b : nat) (chs : list Chan) (ts : list thread) : Z :=
  ztotal (fun ch => owed r b (chan_charges ch)) chs
  + ztotal (fun th => owed r b (held (at_pc th))) ts.

(** The owner of a mutex is the thread whose program counter says so. *)
Definition lock_ok (own : pc -> option nat) (c : nat) (ts : list thread) (l : option nat) : Prop :=
  (forall t th, ts !! t = Some th -> (l = Some t <-> own (at_pc th) = Some c))
  /\ (forall t, l = Some t -> is_Some (ts !! t)).

Record inv (s : config) : Prop := Inv {
  inv_chan : forall c ch, channels (mem s) !! c = Some ch -> chan_ok c ch;
  inv_thread : forall t th, threads s !! t = Some th -> thread_ok (channels (mem s)) (at_pc th);
  inv_state_lock : forall c ch, channels (mem s) !! c = Some ch ->
    lock_ok owns_state c (threads s) (state_lock ch);
  inv_publication_lock : forall c ch, channels (mem s) !! c = Some ch ->
    lock_ok owns_publication c (threads s) (publication_lock ch);
  inv_creates : forall t t' th th' c, threads s !! t = Some th -> threads s !! t' = Some th' ->
    creates (at_pc th) = Some c -> creates (at_pc th') = Some c -> t = t';
  inv_ready : forall c, c ∈ ready_channels (ready (mem s)) -> (c < length (channels (mem s)))%nat;
  inv_pool_lock : lock_ok owns_pool 0 (threads s) (pool_lock (pool (mem s)));
  inv_used : forall r b,
    amount r (used (budgets (mem s) b)) = account r b (channels (mem s)) (threads s);
  inv_within : within (budgets (mem s));
}.

(** ** Frame lemmas *)

(** What a step of thread [t] may do to a channel, seen by other threads. *)
Record evolves (t : nat) (ch ch' : Chan) : Prop := Evolves {
  ev_delivery : delivery ch' = delivery ch;
  ev_budgets : chan_budgets ch' = chan_budgets ch;
  ev_stopping : stopping (state ch) = true -> stopping (state ch') = true;
  ev_sink : sink ch = false -> sink ch' = false;
  ev_state : state ch' = state ch \/ forall t', state_lock ch = Some t' -> t' = t;
  ev_publication : sink ch' = sink ch \/ forall t', publication_lock ch = Some t' -> t' = t;
}.

Lemma evolves_refl t ch : evolves t ch ch.
Proof. split; auto. Qed.

Lemma owns_state_mentions p c : owns_state p = Some c -> mentions p = Some c.
Proof. by destruct p. Qed.

Lemma owns_publication_mentions p c : owns_publication p = Some c -> mentions p = Some c.
Proof. destruct p; simpl; try done; by destruct k. Qed.

Lemma replacing_same ch ch' vs v :
  delivery ch' = delivery ch -> state ch' = state ch -> replacing ch vs v -> replacing ch' vs v.
Proof. unfold replacing. by intros -> ->. Qed.

Lemma pushing_same ch ch' vs new b :
  delivery ch' = delivery ch -> state ch' = state ch -> pushing ch vs new b -> pushing ch' vs new b.
Proof. unfold pushing. by intros -> ->. Qed.

Lemma local_stable t t' c ch ch' q :
  evolves t ch ch' -> t' <> t ->
  (owns_state q = Some c -> state_lock ch = Some t') ->
  (owns_publication q = Some c -> publication_lock ch = Some t') ->
  (creates q = Some c -> subscription ch = None -> subscription ch' = None) ->
  mentions q = Some c -> local_ok ch q -> local_ok ch' q.
Proof.
  intros [Ed Eb Es Ek Est Ep] Ht Hs Hp Hcr Hm H.
  assert (owns_state q = Some c -> state ch' = state ch) as Hst.
  { intros O. destruct Est as [E|E]; [done|]. by apply Hs, E in O. }
  assert (owns_publication q = Some c -> sink ch' = sink ch) as Hpb.
  { intros O. destruct Ep as [E|E]; [done|]. by apply Hp, E in O. }
  assert (revoked ch -> revoked ch') as Hr by (intros []; split; auto).
  assert (forall bc, releasing ch bc -> releasing ch' bc) as Hb
    by (unfold releasing; by rewrite Eb).
  clear Est Ep Hs Hp. destruct q; simpl in *; try done; simplify_eq/=; rewrite ?Eb;
    rewrite ?Hst, ?Hpb by done; try done.
  - destruct r; auto.
  - destruct H as [K H]. split; [by eapply replacing_same; eauto|done].
  - destruct H as [K H]. split; [by eapply replacing_same; eauto|done].
  - auto.
  - destruct H as [K H]. split; [by eapply pushing_same; eauto|done].
  - destruct H as [K H]. split; [by eapply pushing_same; eauto|done].
  - destruct H. auto.
  - destruct H as (? & ? & ?). auto.
  - auto.
  - auto.
  - destruct r; auto.
  - auto.
  - auto.
  - destruct H. auto.
  - auto.
Qed.

(** A mutex named [c] kept, taken or dropped by the step of [t]. *)
Definition lock_moves (t c : nat) (o o' l l' : option nat) : Prop :=
  (l' = l /\ (o = Some c <-> o' = Some c))
  \/ (l = None /\ l' = Some t /\ o' = Some c)
  \/ (l' = None /\ o = Some c /\ o' <> Some c).

(** The budgets move by what the thread and the channels hand over. *)
Definition balanced (p p' : pc) (m m' : shared) : Prop :=
  forall r b,
    amount r (used (budgets m' b)) + owed r b (held p)
      + ztotal (fun ch => owed r b (chan_charges ch)) (channels m)
    = amount r (used (budgets m b)) + owed r b (held p')
      + ztotal (fun ch => owed r b (chan_charges ch)) (channels m').

Definition fresh_thread (th : thread) : Prop := at_pc th = Idle \/ at_pc th = PubWait.

Record trans (t : nat) (p : pc) (m : shared) (p' : pc) (m' : shared) : Prop := Trans {
  tr_old : forall c ch, channels m !! c = Some ch ->
    exists ch', channels m' !! c = Some ch' /\ evolves t ch ch'
      /\ lock_moves t c (owns_state p) (owns_state p') (state_lock ch) (state_lock ch')
      /\ lock_moves t c (owns_publication p) (owns_publication p')
           (publication_lock ch) (publication_lock ch')
      /\ (subscription ch = None -> subscription ch' = None \/ creates p = Some c);
  tr_new : forall c ch', channels m' !! c = Some ch' -> chan_ok c ch'
    /\ (channels m !! c = None -> state_lock ch' = None /\ publication_lock ch' = None
        /\ owns_state p' <> Some c /\ owns_publication p' <> Some c);
  tr_creates : forall c, creates p' = Some c -> creates p = Some c \/ channels m !! c = None;
  tr_ready : forall c, c ∈ ready_channels (ready m') ->
    c ∈ ready_channels (ready m) \/ mentions p = Some c;
  tr_pc : thread_ok (channels m') p';
  tr_pool : lock_moves t 0 (owns_pool p) (owns_pool p') (pool_lock (pool m)) (pool_lock (pool m'));
  tr_balanced : balanced p p' m m';
  tr_within : within (budgets m) -> within (budgets m');
}.

Lemma threads_lookup (ts : list thread) t th x spawn t' :
  ts !! t = Some th ->
  (<[t := x]> ts ++ option_list spawn) !! t'
  = if decide (t' = t) then Some x
    else if decide (t' = length ts) then spawn else ts !! t'.
Proof.
  intros Ht. pose proof (lookup_lt_Some _ _ _ Ht). case_decide as E.
  - subst. rewrite lookup_app_l by (rewrite length_insert; lia).
    by rewrite list_lookup_insert_eq.
  - case_decide as E'.
    + subst. rewrite lookup_app_r by (rewrite length_insert; lia).
      rewrite length_insert, Nat.sub_diag. by destruct spawn.
    + destruct (decide (t' < length ts)%nat).
      * rewrite lookup_app_l by (rewrite length_insert; lia). by rewrite list_lookup_insert_ne.
      * rewrite lookup_app_r by (rewrite length_insert; lia). rewrite length_insert.
        rewrite (lookup_ge_None_2 ts) by lia. destruct spawn; simpl; [|done].
        destruct (t' - length ts)%nat eqn:?; [lia|done].
Qed.

Lemma fresh_quiet th : fresh_thread th ->
  owns_state (at_pc th) = None /\ owns_publication (at_pc th) = None
  /\ owns_pool (at_pc th) = None /\ mentions (at_pc th) = None /\ held (at_pc th) = []
  /\ creates (at_pc th) = None.
Proof. by intros [->| ->]. Qed.

Lemma lock_update own c ts t th p' spawn l l' :
  ts !! t = Some th -> (forall x, spawn = Some x -> own (at_pc x) = None) ->
  lock_moves t c (own (at_pc th)) (own p') l l' -> lock_ok own c ts l ->
  lock_ok own c (<[t := Thread (job th) p']> ts ++ option_list spawn) l'.
Proof.
  intros Ht Hsp M [Hiff Hsome].
  pose proof (fun t' => threads_lookup _ _ _ (Thread (job th) p') spawn t' Ht) as Hl.
  pose proof (Hiff _ _ Ht) as Hself.
  assert (forall t', l' = Some t' -> l = Some t' \/ t' = t) as Hback.
  { intros t' E. destruct M as [[E' _]|[(_ & E' & _)|(E' & _)]]; rewrite E' in E;
      [by left|by injection E as <-; right|done]. }
  split.
  - intros t' th' Ht'. rewrite Hl in Ht'. case_decide as Et; [simplify_eq; simpl|case_decide].
    + destruct M as [[E H]|[(_ & E & E')|(E & _ & E')]]; rewrite E.
      * by rewrite Hself.
      * by rewrite E'.
      * by split.
    + rewrite (Hsp _ Ht'). split; [|done]. intros [E|]%Hback; [|done].
      destruct (Hsome _ E) as [x Hx%lookup_lt_Some]. lia.
    + rewrite <- (Hiff _ _ Ht'). split; [by intros [?|?]%Hback|]. intros ->.
      destruct M as [[-> _]|[(? & _)|(_ & O & _)]]; [done..|]. apply Hself in O. congruence.
  - intros t' E. rewrite Hl. case_decide; [done|].
    destruct (Hback _ E) as [E'|]; [|done]. destruct (Hsome _ E') as [x Hx]. case_decide; [|done].
    apply lookup_lt_Some in Hx. lia.
Qed.

Lemma in_range s t th c :
  inv s -> threads s !! t = Some th -> mentions (at_pc th) = Some c ->
  exists ch, channels (mem s) !! c = Some ch.
Proof. intros I Ht Hm. destruct (inv_thread _ I _ _ Ht c Hm) as (ch & ? & _). eauto. Qed.

(** A channel that does not exist yet has no owner. *)
Lemma no_owner s c own :
  inv s -> (forall p, own p = Some c -> mentions p = Some c) ->
  channels (mem s) !! c = None -> lock_ok own c (threads s) None.
Proof.
  intros I Hm Hc. split; [|done]. intros t th Ht. split; [done|]. intros O%Hm.
  destruct (in_range _ _ _ _ I Ht O). congruence.
Qed.

(** Both mutexes of every channel after a step. *)
Lemma channel_locks_update s t th p' m' spawn c ch' :
  inv s -> threads s !! t = Some th -> trans t (at_pc th) (mem s) p' m' ->
  (forall x, spawn = Some x -> fresh_thread x) -> channels m' !! c = Some ch' ->
  lock_ok owns_state c (<[t := Thread (job th) p']> (threads s) ++ option_list spawn)
    (state_lock ch')
  /\ lock_ok owns_publication c (<[t := Thread (job th) p']> (threads s) ++ option_list spawn)
       (publication_lock ch').
Proof.
  intros I Ht T Hsp Hc'.
  destruct (channels (mem s) !! c) as [ch|] eqn:Hc.
  - destruct (tr_old _ _ _ _ _ T _ _ Hc) as (ch2 & Hc2 & _ & Ls & Lp & _). simplify_eq. split.
    + eapply lock_update; [done| |done|by eapply inv_state_lock].
      by intros x (? & _)%Hsp%fresh_quiet.
    + eapply lock_update; [done| |done|by eapply inv_publication_lock].
      by intros x (_ & ? & _)%Hsp%fresh_quiet.
  - destruct (proj2 (tr_new _ _ _ _ _ T _ _ Hc') Hc) as (-> & -> & N1 & N2).
    pose proof (no_owner s c owns_state I (fun p => owns_state_mentions p c) Hc) as L1.
    pose proof (no_owner s c owns_publication I (fun p => owns_publication_mentions p c) Hc) as L2.
    split.
    + eapply lock_update; [done|by intros x (? & _)%Hsp%fresh_quiet| |done].
      left. split; [done|]. destruct L1 as [L _]. rewrite <- (L _ _ Ht). by split.
    + eapply lock_update; [done|by intros x (_ & ? & _)%Hsp%fresh_quiet| |done].
      left. split; [done|]. destruct L2 as [L _]. rewrite <- (L _ _ Ht). by split.
Qed.

Lemma account_update ts t th p' spawn r b chs :
  ts !! t = Some th -> (forall x, spawn = Some x -> fresh_thread x) ->
  account r b chs (<[t := Thread (job th) p']> ts ++ option_list spawn) + owed r b (held (at_pc th))
  = account r b chs ts + owed r b (held p').
Proof.
  intros Ht Hsp. unfold account. rewrite ztotal_app.
  pose proof (ztotal_insert (fun th => owed r b (held (at_pc th))) ts t th
    (Thread (job th) p') Ht) as Z. simpl in Z.
  assert (ztotal (fun th => owed r b (held (at_pc th))) (option_list spawn) = 0) as ->; [|lia].
  destruct spawn as [x|]; [|done]. simpl.
  destruct (fresh_quiet x (Hsp _ eq_refl)) as (_ & _ & _ & _ & -> & _). done.
Qed.

Lemma creates_update s t th p' m' spawn :
  inv s -> threads s !! t = Some th -> trans t (at_pc th) (mem s) p' m' ->
  (forall x, spawn = Some x -> creates (at_pc x) = None) ->
  forall t1 t2 th1 th2 c,
    (<[t := Thread (job th) p']> (threads s) ++ option_list spawn) !! t1 = Some th1 ->
    (<[t := Thread (job th) p']> (threads s) ++ option_list spawn) !! t2 = Some th2 ->
    creates (at_pc th1) = Some c -> creates (at_pc th2) = Some c -> t1 = t2.
Proof.
  intros I Ht T Hsp.
  assert (forall t1 th1 c, t1 <> t ->
    (<[t := Thread (job th) p']> (threads s) ++ option_list spawn) !! t1 = Some th1 ->
    creates (at_pc th1) = Some c -> threads s !! t1 = Some th1) as Hold.
  { intros t1 th1 c Hne. rewrite (threads_lookup _ _ _ _ _ _ Ht), decide_False by done.
    case_decide; [|done]. intros ?%Hsp. congruence. }
  assert (forall t1 th1 c, t1 <> t -> threads s !! t1 = Some th1 ->
    creates (at_pc th1) = Some c -> creates p' = Some c -> False) as Hself.
  { intros t1 th1 c Hne H1 C1 C2. destruct (tr_creates _ _ _ _ _ T _ C2) as [C|C].
    - apply Hne. by eapply (inv_creates _ I).
    - destruct (in_range _ _ _ c I H1) as [? ?]; [|congruence].
      destruct (at_pc th1); try done; by simplify_eq/=. }
  assert (forall th1, (<[t := Thread (job th) p']> (threads s) ++ option_list spawn) !! t
    = Some th1 -> at_pc th1 = p') as Hnew.
  { intros th1. rewrite (threads_lookup _ _ _ _ _ _ Ht), decide_True by done. by intros [= <-]. }
  intros t1 t2 th1 th2 c H1 H2 C1 C2.
  destruct (decide (t1 = t)) as [->|N1], (decide (t2 = t)) as [->|N2]; [done|..].
  - rewrite (Hnew _ H1) in C1. exfalso. eauto using Hold.
  - rewrite (Hnew _ H2) in C2. exfalso. eauto using Hold.
  - eapply (inv_creates _ I); eauto using Hold.
Qed.

Lemma channel_inv_update s t th p' m' spawn :
  inv s -> threads s !! t = Some th -> trans t (at_pc th) (mem s) p' m' ->
  (forall x, spawn = Some x -> fresh_thread x) ->
  inv (Config m' (<[t := Thread (job th) p']> (threads s) ++ option_list spawn)).
Proof.
  intros I Ht T Hsp. split; simpl.
  - intros c ch' Hc. by apply (tr_new _ _ _ _ _ T).
  - intros t' th' Ht'. rewrite (threads_lookup _ _ _ _ _ _ Ht) in Ht'.
    case_decide; [simplify_eq; apply T|]. case_decide.
    + apply Hsp, fresh_quiet in Ht' as (_ & _ & _ & E & _). intros c. by rewrite E.
    + intros c Hm. destruct (inv_thread _ I _ _ Ht' c Hm) as (ch & Hc & Hok).
      destruct (tr_old _ _ _ _ _ T _ _ Hc) as (ch' & Hc' & Ev & _ & _ & Hcr). exists ch'.
      split; [done|]. eapply local_stable; eauto; intros O.
      * by apply (proj1 (inv_state_lock _ I _ _ Hc) _ _ Ht').
      * by apply (proj1 (inv_publication_lock _ I _ _ Hc) _ _ Ht').
      * intros Hnone. destruct (Hcr Hnone) as [|Hp]; [done|].
        by pose proof (inv_creates _ I _ _ _ _ _ Ht Ht' Hp O).
  - intros c ch' Hc. by eapply channel_locks_update.
  - intros c ch' Hc. by eapply channel_locks_update.
  - eapply creates_update; [done..|by intros x (_ & _ & _ & _ & _ & ?)%Hsp%fresh_quiet].
  - intros c Hc. assert (exists ch, channels (mem s) !! c = Some ch) as [ch Hch].
    { destruct (tr_ready _ _ _ _ _ T c Hc) as [K|K]; [|by eapply in_range].
      apply lookup_lt_is_Some. by apply (inv_ready _ I). }
    destruct (tr_old _ _ _ _ _ T _ _ Hch) as (ch' & Hch' & _). by eapply lookup_lt_Some.
  - eapply lock_update; [done|by intros x (_ & _ & ? & _)%Hsp%fresh_quiet|by apply T|apply I].
  - intros r b. pose proof (tr_balanced _ _ _ _ _ T r b) as B. pose proof (inv_used _ I r b) as U.
    pose proof (account_update _ _ _ p' spawn r b (channels m') Ht Hsp) as A.
    unfold account in *. lia.
  - eapply tr_within; [done|apply I].
Qed.

(** ** Shapes of steps *)

Definition creates_ok (p p' : pc) : Prop :=
  match creates p' with Some c => creates p = Some c | None => True end.

Definition about (c : nat) (p : pc) : Prop := mentions p = Some c \/ mentions p = None.

Lemma about_owns c c' p : about c p -> c' <> c ->
  owns_state p <> Some c' /\ owns_publication p <> Some c'.
Proof.
  intros H Hc. split.
  - intros E%owns_state_mentions. destruct H; congruence.
  - intros E%owns_publication_mentions. destruct H; congruence.
Qed.

Lemma lock_kept t c o o' l : (o = Some c <-> o' = Some c) -> lock_moves t c o o' l l.
Proof. by left. Qed.

(** A step that leaves every channel alone. *)
Lemma trans_plain s t p p' m' :
  inv s -> channels m' = channels (mem s) ->
  owns_state p' = owns_state p -> owns_publication p' = owns_publication p ->
  lock_moves t 0 (owns_pool p) (owns_pool p') (pool_lock (pool (mem s))) (pool_lock (pool m')) ->
  creates_ok p p' ->
  (forall c, c ∈ ready_channels (ready m') ->
     c ∈ ready_channels (ready (mem s)) \/ mentions p = Some c) ->
  thread_ok (channels (mem s)) p' ->
  moves (held p) (held p') (budgets (mem s)) (budgets m') ->
  trans t p (mem s) p' m'.
Proof.
  intros I Ec Es Ep Hl Hcr Hrd Hp (_ & Hm & Hw). split; rewrite ?Ec, ?Es, ?Ep; try done.
  - intros c ch Hc. exists ch.
    split_and!; [done|apply evolves_refl|by apply lock_kept..|by left].
  - intros c ch Hc. split; [by apply I|]. congruence.
  - intros c E. left. unfold creates_ok in Hcr. by rewrite E in Hcr.
  - intros r b. rewrite Ec. specialize (Hm r b). lia.
Qed.

(** A step on the channel [c]. *)
Lemma trans_chan s t p p' m' c ch ch' :
  inv s -> channels (mem s) !! c = Some ch ->
  channels m' = <[c := ch']> (channels (mem s)) -> budgets m' = budgets (mem s) ->
  pool m' = pool (mem s) -> ready m' = ready (mem s) ->
  owns_pool p' = owns_pool p -> about c p -> about c p' ->
  evolves t ch ch' ->
  lock_moves t c (owns_state p) (owns_state p') (state_lock ch) (state_lock ch') ->
  lock_moves t c (owns_publication p) (owns_publication p')
    (publication_lock ch) (publication_lock ch') ->
  (subscription ch = None -> subscription ch' = None \/ creates p = Some c) ->
  creates_ok p p' ->
  chan_ok c ch' -> local_ok ch' p' ->
  (forall r b, owed r b (held p) + owed r b (chan_charges ch)
               = owed r b (held p') + owed r b (chan_charges ch')) ->
  trans t p (mem s) p' m'.
Proof.
  intros I Hc Em Eb Epl Erd Ep Ap Ap' Ev Ls Lp Hsub Hcr Hok Hloc Hbal.
  pose proof (lookup_lt_Some _ _ _ Hc) as Hlt. split; rewrite ?Em, ?Eb, ?Epl, ?Ep; try done.
  - intros c' x Hx. destruct (decide (c' = c)) as [->|Hne].
    + simplify_eq. exists ch'. rewrite list_lookup_insert_eq by done. done.
    + exists x. rewrite list_lookup_insert_ne by done.
      destruct (about_owns _ _ _ Ap Hne), (about_owns _ _ _ Ap' Hne).
      split_and!; [done|apply evolves_refl|by apply lock_kept..|by left].
  - intros c' x Hx. destruct (decide (c' = c)) as [->|Hne].
    + rewrite list_lookup_insert_eq in Hx by done. simplify_eq. split; [done|congruence].
    + rewrite list_lookup_insert_ne in Hx by done. split; [by apply I|congruence].
  - intros c' E. left. unfold creates_ok in Hcr. by rewrite E in Hcr.
  - intros c' E. left. by rewrite <- Erd.
  - intros c' Hm. destruct Ap' as [E|E]; [|congruence].
    assert (c' = c) as -> by congruence. exists ch'. by rewrite list_lookup_insert_eq.
  - by apply lock_kept.
  - intros r b. rewrite Em, Eb. specialize (Hbal r b).
    pose proof (ztotal_insert (fun ch => owed r b (chan_charges ch)) _ _ _ ch' Hc) as Z.
    cbv beta in Z. lia.
Qed.

(** ** Charges are never negative *)

Lemma value_bytes_nonneg v : 0 <= value_bytes v.
Proof.
  unfold Channel.value_bytes, Utf16.str_len. destruct v as [[]]; lia.
Qed.

Lemma bytes_of_cons v vs : bytes_of (v :: vs) = value_bytes v + bytes_of vs.
Proof. done. Qed.

Lemma bytes_of_nonneg vs : 0 <= bytes_of vs.
Proof.
  induction vs as [|v vs IH]; [done|]. rewrite bytes_of_cons.
  pose proof (value_bytes_nonneg v). lia.
Qed.

Lemma bytes_of_app vs ws : bytes_of (vs ++ ws) = bytes_of vs + bytes_of ws.
Proof. induction vs as [|v vs IH]; [done|]. rewrite <- app_comm_cons, !bytes_of_cons. lia. Qed.

Lemma chan_charges_fair c ch : chan_ok c ch -> fair (chan_charges ch).
Proof.
  intros [Hv Hb _ _ _ _ _ _ _ _]. apply Forall_app. split.
  - rewrite Hv, Hb. apply pair_fair; [lia|apply bytes_of_nonneg].
  - unfold subscription_charges. case_match; [apply permits_fair|apply Forall_nil_2].
Qed.

Lemma close_charges_fair k : fair (close_charges k).
Proof. destruct k; try apply Forall_nil_2. apply permits_fair. Qed.

Lemma held_fair chs p : thread_ok chs p -> fair (held p).
Proof.
  intros H. unfold thread_ok in H.
  destruct p; cbn [held]; try (apply Forall_nil_2); try (apply permits_fair);
    try (apply close_charges_fair); destruct (H _ eq_refl) as (ch & _ & L); simpl in L;
    try (destruct L as (_ & _ & L); by eapply call_fair);
    try (destruct L as (_ & L); by eapply call_fair);
    try (destruct L as (v' & b' & L); by eapply call_fair).
  - destruct L as (_ & -> & _). apply pair_fair; lia.
  - destruct L as ((_ & _ & _ & -> & _) & _). apply pair_fair; [lia|apply bytes_of_nonneg].
  - destruct L as (_ & (v' & b' & L) & _). apply Forall_app. split; [by eapply call_fair|].
    apply close_charges_fair.
  - destruct L as (_ & L). destruct p as [[bp v b]|]; [|apply Forall_nil_2].
    apply pair_fair; apply L.
  - destruct L as ((v' & b' & L) & _). by eapply call_fair.
Qed.

(** A budget counts at least what each thread holds of it. *)
Lemma available s t th r b :
  inv s -> threads s !! t = Some th ->
  owed r b (held (at_pc th)) <= amount r (used (budgets (mem s) b)).
Proof.
  intros I Ht. rewrite (inv_used _ I). unfold account.
  pose proof (ztotal_nonneg (fun ch => owed r b (chan_charges ch)) (channels (mem s))) as H1.
  pose proof (ztotal_ge (fun th => owed r b (held (at_pc th))) (threads s) t th) as H2.
  simpl in H2. lapply H1.
  - lapply H2; [intros K1 K2; specialize (K1 Ht); lia|].
    intros t' th' Ht'. eapply owed_nonneg, held_fair, I; done.
  - intros c ch Hc. eapply owed_nonneg, chan_charges_fair, I; done.
Qed.

(** What a step must satisfy: it does not panic, and whatever it does next
    preserves the invariant. *)
Definition sound (s : config) (t : nat) (p : pc) (e : effect) : Prop :=
  exists o, e = Done o
    /\ forall r, o = Some r ->
       trans t p (mem s) (next_pc r) (next_mem r)
       /\ forall x, next_spawn r = Some x -> fresh_thread x.

Lemma sound_go s t p p' m' es :
  trans t p (mem s) p' m' -> sound s t p (Done (Some (Next p' m' None es))).
Proof. intros T. eexists. split; [done|]. intros r [= <-]. by split. Qed.

Lemma sound_blocked s t p : sound s t p blocked.
Proof. by eexists. Qed.

Lemma sound_with_chan s t p c f :
  (forall ch, channels (mem s) !! c = Some ch -> sound s t p (f ch)) ->
  sound s t p (with_chan c (mem s) f).
Proof. intros H. unfold with_chan. case_match; [auto|apply sound_blocked]. Qed.

Lemma sound_with_state s t p c f :
  (forall ch, channels (mem s) !! c = Some ch -> state_lock ch = None -> sound s t p (f ch)) ->
  sound s t p (with_state c (mem s) f).
Proof.
  intros H. apply sound_with_chan. intros ch Hc. case_match; [apply sound_blocked|auto].
Qed.

End Invariant.

End ChannelInvariant.
