(* ===== verification/ChannelSteps.v ===== *)
(** * Every step of an RTD channel keeps the invariant

    One soundness lemma per operation of Channel.v: from a state satisfying
    the invariant the operation does not panic, and what it does next is one
    of the shapes of ChannelInvariant.v. *)

From stdpp Require Import functions.
From S2P Require Import Prelude SealableCounter Names Errors Utf16 Budget Channel ChannelInvariant.
Import SealableCounter.Transitions Errors Budget Accounts.

Local Open Scope Z_scope.

Module ChannelSteps.
Import Str Channel ChannelInvariant.

Section Steps.
Context (pw : pointer_width) (stored_size : Z).
Context (Hsize : 0 <= stored_size <= 65536).

Abbreviation value_bytes := (value_bytes stored_size).
Abbreviation bytes_of := (bytes_of stored_size).
Abbreviation inv := (inv stored_size).
Abbreviation local_ok := (local_ok stored_size).
Abbreviation thread_ok := (thread_ok stored_size).
Abbreviation chan_ok := (chan_ok stored_size).
Abbreviation trans := (trans stored_size).
Abbreviation sound := (sound stored_size).

(** ** Sizes of validated values *)

Lemma str_len_bound s : Utf16.str_len s <= 4 * utf16_count s.
Proof.
  induction s as [|c s IH]; [done|]. rewrite Utf16Lemmas.str_len_cons.
  change (utf16_count (c :: s)) with (len_utf16 c + utf16_count s).
  assert (Z.of_nat (len_utf8 c) <= 4 * len_utf16 c); [|lia].
  unfold len_utf8, len_utf16. repeat case_match; lia.
Qed.

Lemma validated_bytes v : validated v = true -> value_bytes v <= 65536 + 4 * 32767.
Proof.
  destruct v as [w]. unfold Channel.value_bytes, validated. intros [Hw Hv]%andb_true_iff.
  destruct w as [| | |s| |]; cbv beta iota in *; try lia.
  cbn [well_formed validate] in Hw, Hv.
  assert (utf16_count s <= 32767); [|pose proof (str_len_bound s); lia].
  unfold Utf16.validate_utf16_limit in Hv.
  pose proof (Utf16Lemmas.utf16_le_utf8 s) as [Hle _].
  destruct (Z.leb_spec (Utf16.str_len s) Modes.EXCEL_STRING_LIMIT) as [H|H];
    [unfold Modes.EXCEL_STRING_LIMIT in *; lia|].
  rewrite Utf16Lemmas.checked_utf16_len_exact in Hv by by apply forallb_Forall.
  destruct (Z.ltb_spec Modes.EXCEL_STRING_LIMIT (utf16_count s)); [done|].
  unfold Modes.EXCEL_STRING_LIMIT in *. lia.
Qed.

Lemma sum_bytes_ok vs :
  Forall (fun v => validated v = true) vs -> (length vs <= 32)%nat ->
  sum_bytes pw stored_size vs = Done (bytes_of vs).
Proof.
  intros F L. assert (bytes_of vs <= (65536 + 4 * 32767) * Z.of_nat (length vs)) as H.
  { clear L. induction F as [|v vs Hv _ IH]; [done|]. rewrite bytes_of_cons.
    apply validated_bytes in Hv. rewrite length_cons. lia. }
  unfold sum_bytes. rewrite (proj2 (Z.ltb_lt _ _)); [done|].
  assert (2 ^ 32 <= 2 ^ bits pw) by (by destruct pw). lia.
Qed.

(** ** Steps that only move the thread *)

Definition keeps (p p' : pc) : Prop :=
  owns_state p' = owns_state p /\ owns_publication p' = owns_publication p
  /\ owns_pool p' = owns_pool p /\ creates_ok p p'.

Lemma thread_ok_about (chs : list Chan) c ch p :
  chs !! c = Some ch -> about c p -> local_ok ch p -> thread_ok chs p.
Proof.
  intros Hc Ha Hl c' Hm. destruct Ha as [E|E]; [|congruence].
  assert (c' = c) as -> by congruence. eauto.
Qed.

Lemma moves_app l k r B B' : moves l k B B' -> moves (l ++ r) (k ++ r) B B'.
Proof.
  intros (H1 & H2 & H3). split_and!; [done| |done]. intros x b. specialize (H2 x b).
  rewrite !owed_app. lia.
Qed.

Lemma sound_plain s t p p' m' es :
  inv s -> channels m' = channels (mem s) -> pool_lock (pool m') = pool_lock (pool (mem s)) ->
  (forall c, c ∈ ready_channels (ready m') ->
     c ∈ ready_channels (ready (mem s)) \/ mentions p = Some c) ->
  keeps p p' -> thread_ok (channels (mem s)) p' ->
  moves (held p) (held p') (budgets (mem s)) (budgets m') ->
  sound s t p (Done (Some (Next p' m' None es))).
Proof.
  intros I Ec Ep Hrd (K1 & K2 & K3 & K4) Hok Hm. apply sound_go, trans_plain; try done.
  rewrite Ep, K3. by apply lock_kept.
Qed.

(** A move on one channel that changes no shared state. *)
Lemma sound_stay s t p p' c ch es :
  inv s -> channels (mem s) !! c = Some ch -> keeps p p' -> about c p' -> local_ok ch p' ->
  (forall r b, owed r b (held p') = owed r b (held p)) ->
  sound s t p (Done (Some (Next p' (mem s) None es))).
Proof.
  intros I Hc K Ha Hl Hh. apply sound_plain; try done; try (by left).
  - by eapply thread_ok_about.
  - split_and!; [done| |done]. intros r b. rewrite Hh. done.
Qed.

(** One critical section of a call on the budgets of a channel. *)
Lemma sound_on_budgets s t th c ch bc acq v b rest more answer :
  inv s -> threads s !! t = Some th -> channels (mem s) !! c = Some ch ->
  held (at_pc th) = call_charges bc ++ rest -> call_for acq (chan_budgets ch) v b bc ->
  (forall bc', call_for acq (chan_budgets ch) v b bc' ->
     keeps (at_pc th) (more bc') /\ about c (more bc') /\ local_ok ch (more bc')
     /\ held (more bc') = call_charges bc' ++ rest) ->
  (forall ok : bool, keeps (at_pc th) (answer ok) /\ about c (answer ok) /\ local_ok ch (answer ok)
     /\ held (answer ok)
        = (if acq && ok then pair_charges (chan_budgets ch) v b else []) ++ rest) ->
  sound s t (at_pc th) (on_budgets pw bc (mem s) more answer).
Proof.
  intros I Ht Hc Hh Hbc Hmore Hans.
  destruct (budget_step_moves pw bc acq (chan_budgets ch) v b (budgets (mem s)) Hbc)
    as (res & B & E & M & P).
  { intros r b'. pose proof (available stored_size Hsize _ _ _ r b' I Ht) as H.
    pose proof (held_fair stored_size Hsize _ _ (inv_thread _ _ I _ _ Ht)) as F.
    rewrite Hh in H, F. rewrite owed_app in H. apply Forall_app in F as [_ F].
    pose proof (owed_nonneg r b' rest F). lia. }
  unfold on_budgets. rewrite E. simpl.
  apply (moves_app _ _ rest) in M. rewrite <- Hh in M.
  destruct res as [bc'|ok]; simpl in M.
  - destruct (Hmore bc' (P _ eq_refl)) as (K & Ha & Hl & Hh').
    apply sound_plain; try done; [by left|by eapply thread_ok_about|]. by rewrite Hh'.
  - destruct (Hans ok) as (K & Ha & Hl & Hh').
    apply sound_plain; try done; [by left|by eapply thread_ok_about|]. rewrite Hh'.
    destruct Hbc as (Ea & Ep & Ev & _). rewrite Ea, Ep, Ev in M. done.
Qed.

Lemma local_at s t th c ch :
  inv s -> threads s !! t = Some th -> mentions (at_pc th) = Some c ->
  channels (mem s) !! c = Some ch -> local_ok ch (at_pc th).
Proof.
  intros I Ht Hm Hc. destruct (inv_thread _ _ I _ _ Ht c Hm) as (ch' & Hc' & H). by simplify_eq.
Qed.

(** ** Admission *)

Lemma chan_ok_lock c ch o : chan_ok c ch -> chan_ok c (set_state_lock o ch).
Proof. by intros []. Qed.

Lemma owns_lock s t th c ch :
  inv s -> threads s !! t = Some th -> channels (mem s) !! c = Some ch ->
  owns_state (at_pc th) = Some c -> forall t', state_lock ch = Some t' -> t' = t.
Proof.
  intros I Ht Hc O t' E. apply (proj1 (inv_state_lock _ _ I _ _ Hc) _ _ Ht) in O. congruence.
Qed.

Lemma owns_publication_lock s t th c ch :
  inv s -> threads s !! t = Some th -> channels (mem s) !! c = Some ch ->
  owns_publication (at_pc th) = Some c -> forall t', publication_lock ch = Some t' -> t' = t.
Proof.
  intros I Ht Hc O t' E. apply (proj1 (inv_publication_lock _ _ I _ _ Hc) _ _ Ht) in O.
  congruence.
Qed.

(** Moves from a program counter [E : at_pc th = p]. *)
Ltac stay E := eapply sound_stay; [eassumption..|rewrite E; done|by left|simpl|rewrite E; done].

Lemma send_load_sound s t th f k c vs :
  inv s -> threads s !! t = Some th -> at_pc th = SendLoad k c vs ->
  sound s t (at_pc th) (send_step pw stored_size t f (at_pc th) (mem s)).
Proof.
  intros I Ht E. rewrite E at 2. apply sound_with_chan. intros ch Hc.
  pose proof (local_at _ _ _ c ch I Ht ltac:(by rewrite E) Hc) as L. rewrite E in L.
  case_match; eapply sound_stay; try done; try (rewrite E; done).
  - by left.
  - by right.
Qed.

Lemma send_lock_sound s t th f k c vs :
  inv s -> threads s !! t = Some th -> at_pc th = SendLock k c vs ->
  sound s t (at_pc th) (send_step pw stored_size t f (at_pc th) (mem s)).
Proof.
  intros I Ht E. rewrite E at 2. apply sound_with_state. intros ch Hc Hl.
  pose proof (local_at _ _ _ c ch I Ht ltac:(by rewrite E) Hc) as L. rewrite E in L.
  apply sound_go. rewrite E.
  eapply (trans_chan stored_size s t _ _ _ c ch); try done.
  - by left.
  - by left.
  - split; auto.
  - right; left. done.
  - by apply lock_kept.
  - by left.
  - by apply chan_ok_lock, I.
Qed.

(** The replacement of a waiting value begins. *)
Lemma replace_latest_sound s t th k c vs v ch :
  inv s -> threads s !! t = Some th -> at_pc th = SendBody k c vs ->
  channels (mem s) !! c = Some ch -> replacing ch vs v ->
  sound s t (at_pc th) (replace_latest stored_size c vs v ch (mem s)).
Proof.
  intros I Ht E Hc R. unfold replace_latest, resize_charge.
  destruct (Z.ltb_spec (l_bytes (buffered (state ch))) (value_bytes v)).
  - eapply sound_stay; [done..|by rewrite E|by left| |by rewrite E]. simpl.
    split_and!; [done..|]. repeat split; lia.
  - eapply sound_stay; [done..|by rewrite E|by left| |].
    + simpl. split_and!; [done| |done]. lia.
    + intros []; rewrite E; simpl; intros; repeat case_decide; done.
Qed.

(** The reservation of appended values begins. *)
Lemma push_values_sound s t th k c vs new ch :
  inv s -> threads s !! t = Some th -> at_pc th = SendBody k c vs ->
  channels (mem s) !! c = Some ch -> (length new <= 32)%nat -> new <> [] ->
  Forall (fun v => validated v = true) new ->
  (l_values (buffered (state ch)) + Z.of_nat (length new) < 2 ^ bits pw ->
   pushing stored_size ch vs new (bytes_of new)) ->
  sound s t (at_pc th) (push_values pw stored_size k c vs new ch (mem s)).
Proof.
  intros I Ht E Hc Hlen Hne Hval Hp.
  unfold push_values. rewrite sum_bytes_ok by done. simpl. unfold try_push_batch, checked_add.
  destruct (Z.eqb_spec (Z.of_nat (length new)) 0) as [E0|_]; [by destruct new|].
  destruct (Z.ltb_spec (l_values (buffered (state ch)) + Z.of_nat (length new)) (2 ^ bits pw));
    [destruct (Z.ltb (l_bytes (buffered (state ch)) + bytes_of new) (2 ^ bits pw))|];
    (eapply sound_stay; [done..|by rewrite E|by left| |by rewrite E]); try done.
  simpl. split; [auto|]. pose proof (bytes_of_nonneg stored_size Hsize new). repeat split; lia.
Qed.

Lemma last_validated vs v :
  forallb validated vs = true -> last vs = Some v -> validated v = true.
Proof.
  intros F%forallb_Forall L. apply last_Some in L as [l ->].
  apply Forall_app in F as [_ F]. by inversion F.
Qed.

Lemma send_body_sound s t th f k c vs :
  inv s -> threads s !! t = Some th -> at_pc th = SendBody k c vs ->
  sound s t (at_pc th) (send_step pw stored_size t f (at_pc th) (mem s)).
Proof.
  intros I Ht E. rewrite E at 2.
  assert (forall ch, channels (mem s) !! c = Some ch -> pending_ok k vs = true /\ vs <> []) as HL.
  { intros ch Hc. pose proof (local_at _ _ _ c ch I Ht ltac:(by rewrite E) Hc) as L.
    by rewrite E in L. }
  assert (forall ch r, channels (mem s) !! c = Some ch -> is_send_ret r = true ->
    sound s t (at_pc th) (go (SendUnlock c r NoWake) (mem s))) as Hunlock.
  { intros ch r Hc Hr. eapply sound_stay; [done..|by rewrite E|by left|done|by rewrite E]. }
  destruct k; apply sound_with_chan; intros ch Hc; destruct (HL _ Hc) as [[Hv Hk]%andb_true_iff Hne].
  - unfold single_body. destruct vs as [|v [|? ?]]; try apply sound_blocked.
    assert (validated v = true) as Hval by by apply (last_validated [v]).
    destruct (accepting (state ch)) eqn:Ea; [simpl|by apply (Hunlock ch)].
    destruct (is_latest (delivery ch)) eqn:Ed; simpl.
    + destruct (delivery ch) as [|] eqn:Ed'; [done|]. case_bool_decide as Eq; simpl.
      * eapply push_values_sound; [done..|simpl; lia|done|by apply Forall_singleton|].
        intros _. split_and!; try done; [by apply Forall_singleton|]. rewrite Ed'. eauto.
      * by eapply replace_latest_sound.
    + destruct (delivery ch) as [n|] eqn:Ed'; [|done].
      simpl. destruct (Z.leb_spec n (Z.of_nat (length (queued (state ch)))));
        [by apply (Hunlock ch)|].
      eapply push_values_sound; [done..|simpl; lia|done|by apply Forall_singleton|].
      intros _. split_and!; try done; [by apply Forall_singleton|]. rewrite Ed'.
      split; [done|]. simpl. lia.
  - unfold batch_body. apply Nat.leb_le in Hk.
    destruct (accepting (state ch)) eqn:Ea; [simpl|by apply (Hunlock ch)].
    destruct (last vs) as [v|] eqn:El; [|by apply last_None in El].
    pose proof (last_validated _ _ Hv El) as Hval.
    destruct (delivery ch) as [n|] eqn:Ed.
    + destruct (_ || _) eqn:Ef; [by apply (Hunlock ch)|].
      apply orb_false_iff in Ef as [Ef _]. apply Z.ltb_ge in Ef.
      apply forallb_Forall in Hv. eapply push_values_sound; [done..|].
      rewrite (ok_values _ _ _ (inv_chan _ _ I _ _ Hc)). intros Hfit.
      split_and!; try done. rewrite Ed. split; [done|]. unfold saturating_add in Ef. lia.
    + case_bool_decide as Eq; simpl; [|by eapply replace_latest_sound].
      eapply push_values_sound; [done..|simpl; lia|done|by apply Forall_singleton|].
      intros _. split_and!; try done; [by apply Forall_singleton|]. rewrite Ed. eauto.
Qed.

(** Calls on the budgets during a send. *)
Lemma send_budget_sound s t th f :
  inv s -> threads s !! t = Some th ->
  match at_pc th with SendGrow _ _ _ _ _ | SendShrink _ _ | SendPush _ _ _ _ _ _ => True
  | _ => False end ->
  sound s t (at_pc th) (send_step pw stored_size t f (at_pc th) (mem s)).
Proof.
  intros I Ht Hp. destruct (at_pc th) as [] eqn:E; try done; clear Hp;
    destruct (in_range _ _ _ _ c I Ht ltac:(by rewrite E)) as [ch Hc];
    pose proof (local_at _ _ _ c ch I Ht ltac:(by rewrite E) Hc) as L; rewrite E in L; simpl in L.
  - destruct L as (R & Hg & Hcall). rewrite <- E at 1.
    eapply (sound_on_budgets _ _ _ c ch bc true 0 growth []); try done; rewrite E; simpl.
    + by rewrite app_nil_r.
    + intros bc' Hbc'. rewrite app_nil_r. split_and!; try done. by left.
    + assert (0 <= growth) as Hg0 by apply Hcall. assert (call_pair bc = chan_budgets ch) as Hpr by apply Hcall.
      intros []; rewrite ?app_nil_r; split_and!; try done; try by left; simpl.
      * split_and!; try done. lia.
      * by rewrite Hpr.
  - destruct L as (v & b & Hcall). rewrite <- E at 1.
    eapply (sound_on_budgets _ _ _ c ch bc false v b []); try done; rewrite E; simpl.
    + by rewrite app_nil_r.
    + intros bc' Hbc'. rewrite app_nil_r. split_and!; try done; [by left|]. by exists v, b.
    + intros ok. split_and!; try done. by left.
  - destruct L as (Hpush & Hcall). rewrite <- E at 1.
    eapply (sound_on_budgets _ _ _ c ch bc true (Z.of_nat (length new)) b []); try done;
      rewrite E; simpl.
    + by rewrite app_nil_r.
    + intros bc' Hbc'. rewrite app_nil_r. split_and!; try done. by left.
    + assert (call_pair bc = chan_budgets ch) as Hpr by apply Hcall.
      intros []; rewrite ?app_nil_r; split_and!; try done; try by left; simpl.
      by rewrite Hpr.
Qed.

(** Balance of charges on one channel, resource by resource. *)
Ltac balance :=
  let r := fresh "r" in let b := fresh "b" in
  intros r b; unfold chan_charges; rewrite ?owed_app; simpl;
  destruct r; simpl; repeat case_decide; lia.

Lemma send_replace_sound s t th f c vs v growth bp :
  inv s -> threads s !! t = Some th -> at_pc th = SendReplace c vs v growth bp ->
  sound s t (at_pc th) (send_step pw stored_size t f (at_pc th) (mem s)).
Proof.
  intros I Ht E. rewrite E at 2. apply sound_with_chan. intros ch Hc.
  pose proof (local_at _ _ _ c ch I Ht ltac:(by rewrite E) Hc) as L. rewrite E in L.
  destruct L as ((Hd & Hq & Ha & Hlast & Hval) & Hg & ->).
  pose proof (inv_chan _ _ I _ _ Hc) as [Hv Hb Hf Hfa Hfs Hst Htm Hcap Hsch Hsk Hsub].
  pose proof (Hcap Hq) as Hcap1. rewrite Hd in Hcap1. simpl in Hcap1.
  pose proof (owns_lock _ _ _ _ _ I Ht Hc ltac:(by rewrite E)) as Hown.
  destruct (queued (state ch)) as [|x [|y l]] eqn:Eq; [done| |simpl in Hcap1; lia].
  unfold replace_value. rewrite Eq. cbn [set_back obind removelast app].
  assert (chan_ok c (set_state (set_queue [v] (Ledger (l_values (buffered (state ch)))
    (value_bytes v)) (state ch)) ch)) as Hok.
  { split; simpl; try done.
    - by rewrite bytes_of_cons, Z.add_0_r.
    - by apply Forall_singleton.
    - intros K. destruct (Hst K) as (? & ? & ?). congruence.
    - by rewrite Hd. }
  simpl. unfold resize_charge.
  apply sound_go. rewrite E.
  destruct (Z.ltb_spec (value_bytes v) (l_bytes (buffered (state ch)) + growth)) as [Hlt|Hge].
  - destruct (Z.ltb_spec (l_bytes (buffered (state ch)) + growth) (value_bytes v)); [lia|].
    eapply (trans_chan stored_size s t _ _ _ c ch); try done; try (by left); try (by apply lock_kept).
    + split; auto.
    + simpl. exists 0, (l_bytes (buffered (state ch)) + growth - value_bytes v). repeat split; lia.
    + balance.
  - eapply (trans_chan stored_size s t _ _ _ c ch); try done; try (by left); try (by apply lock_kept).
    + split; auto.
    + balance.
Qed.

Lemma reserve_schedule_spec ch st reserved st' :
  reserve_schedule ch st = (reserved, st') ->
  st' = (if reserved then set_scheduled true st else st)
  /\ (reserved = true -> stopping st = false /\ scheduled st = false /\ scheduler ch = true
      /\ (queued st <> [] \/ terminal_error st <> None)).
Proof.
  unfold reserve_schedule. destruct (scheduler ch), (stopping st), (scheduled st); simpl;
    try (intros [= <- <-]; done).
  repeat case_bool_decide; simpl; intros [= <- <-]; naive_solver.
Qed.

(** The queue after an admission. *)
Lemma install_chan_ok c ch vs new :
  chan_ok c ch -> pushing stored_size ch vs new (bytes_of new) ->
  push_back (delivery ch) new (queued (state ch)) = Done (queued (state ch) ++ new)
  /\ chan_ok c (set_state (set_queue (queued (state ch) ++ new)
       (pushed (Z.of_nat (length new)) (bytes_of new) (buffered (state ch))) (state ch)) ch).
Proof.
  intros [Hv Hb Hf Hfa Hfs Hst Htm Hcap Hsch Hsk Hsub] (Ha & Hne & Hval & _ & Hd).
  split.
  - unfold push_back. destruct (delivery ch); [done|]. by destruct Hd as [-> _].
  - split; simpl; try done.
    + rewrite length_app. lia.
    + rewrite bytes_of_app. lia.
    + by apply Forall_app.
    + intros K. destruct (Hst K) as (? & ? & ?). congruence.
    + intros _. destruct (delivery ch) as [n|]; simpl.
      * destruct Hd as [_ Hd]. rewrite length_app. lia.
      * destruct Hd as (-> & v & -> & _). done.
Qed.

Lemma chan_ok_scheduled c ch b : chan_ok c ch -> chan_ok c (set_state (set_scheduled b (state ch)) ch).
Proof. by intros []. Qed.

Lemma send_install_sound s t th f k c vs new b bp :
  inv s -> threads s !! t = Some th -> at_pc th = SendInstall k c vs new b bp ->
  sound s t (at_pc th) (send_step pw stored_size t f (at_pc th) (mem s)).
Proof.
  intros I Ht E. rewrite E at 2. apply sound_with_chan. intros ch Hc.
  pose proof (local_at _ _ _ c ch I Ht ltac:(by rewrite E) Hc) as L. rewrite E in L.
  destruct L as (Hpush & ->). pose proof Hpush as (Ha & _ & _ & -> & _).
  destruct (install_chan_ok c ch vs new (inv_chan _ _ I _ _ Hc) Hpush) as [Eq Hok].
  pose proof (owns_lock _ _ _ _ _ I Ht Hc ltac:(by rewrite E)) as Hown.
  unfold install_values. rewrite Eq. simpl. set (st' := set_queue _ _ _) in *. destruct k.
  - apply sound_go. rewrite E.
    eapply (trans_chan stored_size s t _ _ _ c ch); try done; try (by left); try (by apply lock_kept).
    + split; auto.
    + balance.
  - destruct (if bool_decide _ then _ else _) as [reserved st''] eqn:Er.
    assert (st'' = (if reserved then set_scheduled true st' else st')) as ->.
    { case_bool_decide; [by apply reserve_schedule_spec in Er as [-> _]|].
      injection Er as <- <-. done. }
    apply sound_go. rewrite E.
    eapply (trans_chan stored_size s t _ _ _ c ch); try done; try (by left); try (by apply lock_kept).
    + split; auto; by destruct reserved.
    + destruct reserved; [by apply (chan_ok_scheduled c _ true) in Hok|done].
    + destruct reserved; balance.
Qed.

Lemma send_unlock_sound s t th f c r w :
  inv s -> threads s !! t = Some th -> at_pc th = SendUnlock c r w ->
  sound s t (at_pc th) (send_step pw stored_size t f (at_pc th) (mem s)).
Proof.
  intros I Ht E. rewrite E at 2. apply sound_with_chan. intros ch Hc.
  pose proof (local_at _ _ _ c ch I Ht ltac:(by rewrite E) Hc) as L. rewrite E in L. simpl in L.
  apply sound_go. rewrite E.
  eapply (trans_chan stored_size s t _ _ _ c ch); try done; try (by left).
  - by destruct w.
  - destruct w; [right|left|left]; try done. by destruct r.
  - split; auto.
  - right; right. by destruct w.
  - apply lock_kept. by destruct w.
  - by destruct w.
  - by apply chan_ok_lock, I.
  - destruct w; simpl; try done. by destruct r.
  - by destruct w.
Qed.

Lemma send_sound s t th f :
  inv s -> threads s !! t = Some th ->
  match at_pc th with
  | SendLoad _ _ _ | SendLock _ _ _ | SendBody _ _ _ | SendGrow _ _ _ _ _ | SendReplace _ _ _ _ _
  | SendShrink _ _ | SendPush _ _ _ _ _ _ | SendInstall _ _ _ _ _ _ | SendUnlock _ _ _ => True
  | _ => False
  end ->
  sound s t (at_pc th) (send_step pw stored_size t f (at_pc th) (mem s)).
Proof.
  intros I Ht Hp. destruct (at_pc th) eqn:E; try done; rewrite <- E.
  - by eapply send_load_sound.
  - by eapply send_lock_sound.
  - by eapply send_body_sound.
  - apply send_budget_sound; [done..|by rewrite E].
  - by eapply send_replace_sound.
  - apply send_budget_sound; [done..|by rewrite E].
  - apply send_budget_sound; [done..|by rewrite E].
  - by eapply send_install_sound.
  - by eapply send_unlock_sound.
Qed.

(** ** Scheduling *)

Lemma resume_sound s t th c k m' :
  inv s -> threads s !! t = Some th -> at_pc th = Schedule c k \/ at_pc th = Enqueue c k ->
  channels m' = channels (mem s) -> budgets m' = budgets (mem s) -> pool m' = pool (mem s) ->
  (forall c', c' ∈ ready_channels (ready m') ->
     c' ∈ ready_channels (ready (mem s)) \/ mentions (at_pc th) = Some c') ->
  sound s t (at_pc th) (resume t k m').
Proof.
  intros I Ht E E1 E2 E3 Erd.
  destruct (in_range _ _ _ _ c I Ht ltac:(destruct E as [->| ->]; done)) as [ch Hc].
  pose proof (local_at _ _ _ c ch I Ht ltac:(destruct E as [->| ->]; done) Hc) as L.
  assert (send_after k) as Hk by (destruct E as [E|E]; by rewrite E in L). clear L.
  assert (keeps (at_pc th) Idle /\ held (at_pc th) = []) as [(K1 & K2 & K3 & K4) Hh]
    by (destruct E as [->| ->]; done).
  destruct k as [r| |]; apply sound_plain; simpl; try done; try (by rewrite E3);
    try (rewrite Hh, E2; apply moves_refl).
  intros c' Hm. by destruct r.
Qed.

Lemma schedule_sound s t th :
  inv s -> threads s !! t = Some th ->
  match at_pc th with Schedule _ _ | Enqueue _ _ => True | _ => False end ->
  sound s t (at_pc th) (schedule_step t (at_pc th) (mem s)).
Proof.
  intros I Ht Hp. destruct (at_pc th) eqn:E; try done; rewrite <- E at 1.
  - apply sound_with_state. intros ch Hc Hl.
    pose proof (local_at _ _ _ c ch I Ht ltac:(by rewrite E) Hc) as L. rewrite E in L.
    destruct (reserve_schedule ch (state ch)) as [reserved st] eqn:Er.
    apply reserve_schedule_spec in Er as [-> _].
    destruct reserved; [|by eapply resume_sound; eauto].
    apply sound_go. rewrite E.
    eapply (trans_chan stored_size s t _ _ _ c ch); try done; try (by left); try (by apply lock_kept).
    + split; auto. right. congruence.
    + by apply chan_ok_scheduled, I.
  - apply sound_with_chan. intros ch Hc.
    rewrite (ok_scheduler _ _ _ (inv_chan _ _ I _ _ Hc)).
    assert (forall c', c' ∈ ready_channels (push c (ready (mem s))) ->
      c' ∈ ready_channels (ready (mem s)) \/ mentions (at_pc th) = Some c') as Hrd.
    { intros c'. unfold push. case_match; [by left|]. simpl. rewrite elem_of_app, list_elem_of_singleton.
      intros [?| ->]; [by left|]. right. by rewrite E. }
    destruct k; by eapply (resume_sound s t th c); eauto.
Qed.

(** ** Closure and disconnection *)

Lemma take_all_ok c ch :
  chan_ok c ch ->
  exists l, take_all (chan_budgets ch) (buffered (state ch))
    = Done (if decide (queued (state ch) = []) then None
            else Some (Buffered (chan_budgets ch) (l_values (buffered (state ch)))
                         (l_bytes (buffered (state ch)))), l)
  /\ l_values l = 0 /\ l_bytes l = 0.
Proof.
  intros [Hv Hb _ _ _ _ _ _ _ _ _]. unfold take_all, split.
  pose proof (bytes_of_nonneg stored_size Hsize (queued (state ch))).
  case_decide as Eq.
  - rewrite Eq in Hv, Hb. simpl in Hv. change (bytes_of []) with 0 in Hb.
    rewrite Hv, Hb. simpl. eexists. split; [done|]. done.
  - destruct (Z.eqb_spec (l_values (buffered (state ch))) 0) as [E0|_].
    { destruct (queued (state ch)); [done|]. simpl in Hv. lia. }
    rewrite !Z.leb_refl. simpl. eexists. split; [done|]. simpl. lia.
Qed.

Lemma close_next_facts c k :
  owns_state (close_next c k) = None /\ held (close_next c k) = close_charges k
  /\ owns_publication (close_next c k) = owns_publication (Close c k)
  /\ owns_pool (close_next c k) = None /\ creates (close_next c k) = None
  /\ (close_ok c k -> about c (close_next c k)).
Proof. destruct k; split_and!; try done; [by right|intros <-; by left|by left]. Qed.

Lemma close_next_local c k ch :
  stopping (state ch) = true -> local_ok ch (close_next c k).
Proof. intros. by destruct k; simpl. Qed.

Lemma close_sound s t th c k :
  inv s -> threads s !! t = Some th -> at_pc th = Close c k ->
  sound s t (at_pc th) (close_step pw (at_pc th) (mem s)).
Proof.
  intros I Ht E. rewrite E at 2. apply sound_with_state. intros ch Hc Hl.
  pose proof (local_at _ _ _ c ch I Ht ltac:(by rewrite E) Hc) as L. rewrite E in L.
  destruct L as [Hk Hsink].
  pose proof (inv_chan _ _ I _ _ Hc) as Hch.
  destruct (take_all_ok c ch Hch) as (l & -> & Hl1 & Hl2). simpl.
  set (ch' := set_flags _ _ _).
  assert (chan_ok c ch') as Hok.
  { destruct Hch. split; simpl; try done; lia. }
  assert (evolves t ch ch') as Hev by (split; auto; right; congruence).
  destruct (close_next_facts c k) as (N1 & N2 & N3 & N4 & Ncr & N5).
  pose proof (ok_values _ _ _ Hch) as Hv. pose proof (ok_bytes _ _ _ Hch) as Hb.
  pose proof (bytes_of_nonneg stored_size Hsize (queued (state ch))).
  apply sound_go. rewrite E. case_decide as Eq; simpl.
  - assert (l_values (buffered (state ch)) = 0) as Z1 by (rewrite Hv, Eq; done).
    assert (l_bytes (buffered (state ch)) = 0) as Z2 by (rewrite Hb, Eq; done).
    eapply (trans_chan stored_size s t _ _ _ c ch); try done; try (by left); try (by auto).
    + apply lock_kept. rewrite N1. done.
    + apply lock_kept. by rewrite N3.
    + unfold creates_ok. by rewrite Ncr.
    + by apply close_next_local.
    + intros r b. rewrite N2. unfold chan_charges. rewrite !owed_app. simpl. rewrite Z1, Z2, Hl1, Hl2.
      done.
  - destruct (Z.eqb_spec (l_values (buffered (state ch))) 0) as [E0|_].
    { destruct (queued (state ch)); [done|]. simpl in Hv. lia. }
    simpl. eapply (trans_chan stored_size s t _ _ _ c ch); try done; try (by left).
    + simpl. split_and!; try done.
      exists (l_values (buffered (state ch))), (l_bytes (buffered (state ch))).
      repeat split; lia.
    + balance.
Qed.

Lemma close_drop_sound s t th c bc k :
  inv s -> threads s !! t = Some th -> at_pc th = CloseDrop c bc k ->
  sound s t (at_pc th) (close_step pw (at_pc th) (mem s)).
Proof.
  intros I Ht E.
  destruct (in_range _ _ _ _ c I Ht ltac:(by rewrite E)) as [ch Hc].
  pose proof (local_at _ _ _ c ch I Ht ltac:(by rewrite E) Hc) as L. rewrite E in L.
  destruct L as (Hk & (v & b & Hcall) & Hs).
  destruct (close_next_facts c k) as (N1 & N2 & N3 & N4 & Ncr & N5).
  rewrite E at 2. simpl.
  eapply (sound_on_budgets _ _ _ c ch bc false v b (close_charges k)); try done; rewrite E.
  - done.
  - intros bc' Hbc'. split_and!; try done; [by left|]. split_and!; [done| |done]. by exists v, b.
  - intros ok. unfold keeps, creates_ok. rewrite N1, N2, N3, N4, Ncr. split_and!; try done.
    + auto.
    + by apply close_next_local.
Qed.

(** The drop of one permit, by any thread. *)
Lemma drop_permits_sound s t th ps r :
  inv s -> threads s !! t = Some th -> at_pc th = DropPermits ps r ->
  sound s t (at_pc th) (finish_step (at_pc th) (mem s)).
Proof.
  intros I Ht E. pose proof (inv_thread _ _ I _ _ Ht) as L. rewrite E in L. rewrite E at 2. simpl.
  destruct ps as [|pm ps].
  - apply sound_plain; simpl; try done; [by left|by rewrite E..].
  - destruct (drop_permit_moves pm (budgets (mem s))) as (B & -> & M).
    { intros x b. pose proof (available stored_size Hsize _ _ _ x b I Ht) as H. rewrite E in H.
      change (held _) with (permit_charges [pm] ++ permit_charges ps) in H.
      rewrite owed_app in H. pose proof (owed_nonneg x b _ (permits_fair ps)). lia. }
    apply sound_plain; simpl; try done; try (by left); try (by rewrite E). rewrite E.
    by apply (moves_app _ _ (permit_charges ps)) in M.
Qed.

Lemma finish_sound s t th :
  inv s -> threads s !! t = Some th ->
  match at_pc th with FinishRevoke _ _ | FinishJoin _ _ _ | DropPermits _ _ => True
  | _ => False end ->
  sound s t (at_pc th) (finish_step (at_pc th) (mem s)).
Proof.
  intros I Ht Hp. destruct (at_pc th) eqn:E; try done; rewrite <- E.
  - rewrite E at 2. apply sound_with_chan. intros ch Hc.
    pose proof (local_at _ _ _ _ ch I Ht ltac:(by rewrite E) Hc) as L. rewrite E in L.
    destruct (publication_lock ch) eqn:El; [apply sound_blocked|]. apply sound_go. rewrite E.
    eapply (trans_chan stored_size s t _ _ _ (s_channel s0) ch); try done; try (by left);
      try (by apply lock_kept).
    + split; auto. right. congruence.
    + pose proof (inv_chan _ _ I _ _ Hc) as []. done.
  - destruct (in_range _ _ _ _ (s_channel s0) I Ht ltac:(by rewrite E)) as [ch Hc].
    pose proof (local_at _ _ _ _ ch I Ht ltac:(by rewrite E) Hc) as L. rewrite E in L.
    rewrite E at 2. simpl. destruct (match s_producer s0 with Some _ => _ | None => _ end);
      [|apply sound_blocked].
    eapply sound_stay; [done..|by rewrite E| | |by rewrite E].
    + destruct k; [by left|by right].
    + by destruct k.
  - by eapply drop_permits_sound.
Qed.

(** ** Setup *)

Lemma unmentioned_ok (chs : list Chan) p : mentions p = None -> thread_ok chs p.
Proof. intros E c. by rewrite E. Qed.

(** A setup step that acquires one permit. *)
Lemma permit_sound s t th b pm yes no :
  inv s -> threads s !! t = Some th -> permit_budget pm = b ->
  keeps (at_pc th) yes -> keeps (at_pc th) no -> mentions yes = None -> mentions no = None ->
  held yes = permit_charges [pm] ++ held (at_pc th) -> held no = held (at_pc th) ->
  sound s t (at_pc th) (subscribe_permit pw b pm (mem s) yes no).
Proof.
  intros I Ht Hb Ky Kn My Mn Hy Hn. unfold subscribe_permit. subst b.
  destruct (acquire pw (permit_usage pm) (budgets (mem s) (permit_budget pm))) as [ok st] eqn:E.
  apply acquire_moves, (moves_app _ _ (held (at_pc th))) in E.
  destruct ok; apply sound_plain; try done; try (by left); try (by apply unmentioned_ok);
    by rewrite ?Hy, ?Hn.
Qed.

Lemma attach_sound s t th n f q :
  inv s -> threads s !! t = Some th -> at_pc th = SubAttach q ->
  sound s t (at_pc th) (subscribe_step pw t n f (at_pc th) (mem s)).
Proof.
  intros I Ht E. rewrite E at 2. apply sound_go. rewrite E. split; simpl.
  - intros c ch Hc. exists ch. rewrite lookup_app_l by by eapply lookup_lt_Some.
    split_and!; [done|apply evolves_refl|by apply lock_kept..|by left].
  - intros c ch Hc. apply lookup_app_Some in Hc as [Hc|[Hlen Hc]].
    + split; [by apply I|congruence].
    + apply list_lookup_singleton_Some in Hc as [Hz <-]. split; [|done].
      by split.
  - intros c [= <-]. right. by apply lookup_ge_None_2.
  - by left.
  - intros c [= <-]. exists (new_chan q). split; [|done]. by apply list_lookup_middle.
  - by apply lock_kept.
  - intros r b. cbn [channels add_chan budgets]. rewrite ztotal_app. destruct r; simpl; repeat case_decide; lia.
  - done.
Qed.

Lemma subscribe_sound s t th n f :
  inv s -> threads s !! t = Some th ->
  match at_pc th with
  | SubWorker _ | SubRuntimeWorker _ | SubPermit _ | SubLoad _ | SubGet _ | SubStart _
  | SubAttach _ | SubFactory _ _ | SubSpawn _ _ => True
  | _ => False
  end ->
  sound s t (at_pc th) (subscribe_step pw t n f (at_pc th) (mem s)).
Proof.
  intros I Ht Hp.
  assert (forall p', keeps (at_pc th) p' -> mentions p' = None -> held p' = held (at_pc th) ->
    sound s t (at_pc th) (go p' (mem s))) as Hgo.
  { intros p' K M H. apply sound_plain; try done; [by left|by apply unmentioned_ok|].
    rewrite H. apply moves_refl. }
  destruct (at_pc th) eqn:E; try done; rewrite <- E at 1; rewrite <- E in Hgo.
  - apply permit_sound; try done; by rewrite E.
  - apply permit_sound; try done; by rewrite E.
  - apply permit_sound; try done; by rewrite E.
  - simpl. case_match; apply Hgo; try done; by rewrite E.
  - simpl. case_match; apply Hgo; try done; by rewrite E.
  - simpl. unfold queue_step. destruct (pool_lock _) eqn:El; [apply sound_blocked|].
    destruct (worker _); [|apply Hgo; try done; by rewrite E..].
    destruct f; [apply Hgo; try done; by rewrite E|].
    eexists. split; [done|]. intros r [= <-]. split; [|intros x [= <-]; by right].
    apply trans_plain; simpl; try done; try (by left); try (by rewrite E).
    rewrite E, El. by apply lock_kept.
  - rewrite <- E. by eapply attach_sound.
  - destruct (in_range _ _ _ _ (s_channel s0) I Ht ltac:(by rewrite E)) as [ch Hc].
    pose proof (local_at _ _ _ _ ch I Ht ltac:(by rewrite E) Hc) as L. rewrite E in L.
    simpl. destruct f; (eapply sound_stay; [done..|by rewrite E|by left| |by rewrite E]); done.
  - destruct (in_range _ _ _ _ (s_channel s0) I Ht ltac:(by rewrite E)) as [ch Hc].
    pose proof (local_at _ _ _ _ ch I Ht ltac:(by rewrite E) Hc) as L. rewrite E in L. simpl in L.
    simpl. destruct f; [eapply sound_stay; [done..|by rewrite E|by left|done|by rewrite E]|].
    unfold with_chan. rewrite Hc. eexists. split; [done|].
    intros r [= <-]. split; [|intros x [= <-]; by left]. rewrite E.
    eapply (trans_chan stored_size s t _ _ _ (s_channel s0) ch); try done; try (by left);
      try (by right); try (by apply lock_kept).
    + by split; auto.
    + pose proof (inv_chan _ _ I _ _ Hc) as []. split; try done. by intros ? [= <-].
    + intros r b. cbn [held next_pc next_mem]. unfold chan_charges. simpl. rewrite L. simpl.
      lia.
Qed.

(** ** Completion of a producer *)

Lemma complete_sound s t th c r pol :
  inv s -> threads s !! t = Some th -> at_pc th = Complete c r pol ->
  sound s t (at_pc th) (complete_step (at_pc th) (mem s)).
Proof.
  intros I Ht E. rewrite E at 2. apply sound_with_state. intros ch Hc Hl.
  pose proof (inv_chan _ _ I _ _ Hc) as [Hv Hb Hf Hfa Hfs Hst Htm Hcap Hsch Hsk Hsub].
  cbv zeta.
  assert (forall st', (terminal_error st' = terminal_error (state ch) \/ stopping (state ch) = false) ->
    queued st' = queued (state ch) -> buffered st' = buffered (state ch) ->
    accepting st' = false -> stopping st' = stopping (state ch) -> forall es,
    sound s t (at_pc th) (Done (Some (Next (Schedule c AfterComplete)
      (set_chan c (set_flags false (stopping_flag ch) (set_state st' ch)) (mem s)) None es)))) as Hgo.
  { intros st' H1 H2 H3 H4 H5 es. apply sound_go. rewrite E.
    eapply (trans_chan stored_size s t _ _ _ c ch); try done; try (by left);
      try (by apply lock_kept).
    - split; simpl; auto; [by rewrite H5|]. right. congruence.
    - split; simpl; rewrite ?H2, ?H3, ?H4, ?H5; try done.
      intros K. destruct (Hst K) as (_ & ? & ?). split_and!; try done.
      destruct H1; congruence.
    - intros x b. simpl. unfold chan_charges. simpl. rewrite H3. done. }
  destruct (_ && negb (stopping (state ch))) eqn:Ef; [destruct pol as [|e]|].
  - apply Hgo; simpl; auto.
  - apply andb_true_iff in Ef as [_ Ef%negb_true_iff]. apply Hgo; simpl; auto.
  - apply Hgo; simpl; auto.
Qed.

(** ** Publication *)

Definition error_values (o : option ExcelError) : list StoredRtdValue :=
  match o with Some e => [Stored (ErrorValue e)] | None => [] end.

Lemma take_batch_spec n q term batch rest term' :
  take_batch n q term = (batch, rest, term') ->
  exists popped, q = popped ++ rest
    /\ batch ++ rest ++ error_values term' = q ++ error_values term
    /\ (batch = [] -> (0 < n)%nat -> q = [] /\ term = None)
    /\ (term' <> None -> term <> None).
Proof.
  revert q batch rest. induction n as [|n IH]; intros q batch rest; simpl.
  - intros [= <- <- <-]. exists []. split_and!; try done. lia.
  - destruct q as [|v q].
    + destruct term as [e|]; intros [= <- <- <-]; exists []; done.
    + destruct (take_batch n q term) as [[batch' rest'] t'] eqn:E. intros [= <- <- <-].
      destruct (IH _ _ _ E) as (popped & -> & Hb & _ & Ht). exists (v :: popped).
      split_and!; try done. simpl. by f_equal.
Qed.

Lemma split_ok c ch popped rest :
  chan_ok c ch -> queued (state ch) = popped ++ rest ->
  exists l, split (chan_budgets ch) (Z.of_nat (length popped)) (bytes_of popped)
              (buffered (state ch))
    = Done (match popped with
            | [] => None
            | _ => Some (Buffered (chan_budgets ch) (Z.of_nat (length popped)) (bytes_of popped))
            end, l)
    /\ l_values l = Z.of_nat (length rest) /\ l_bytes l = bytes_of rest.
Proof.
  intros Hok Eq. pose proof (ok_values _ _ _ Hok) as Hv. pose proof (ok_bytes _ _ _ Hok) as Hb.
  rewrite Eq in Hv, Hb. rewrite length_app in Hv. rewrite bytes_of_app in Hb.
  pose proof (bytes_of_nonneg stored_size Hsize rest). unfold split.
  destruct popped as [|x popped]; simpl.
  - eexists. split; [done|]. change (bytes_of []) with 0 in Hb. simpl in Hv. lia.
  - rewrite !(proj2 (Z.leb_le _ _)) by (simpl in Hv; lia). eexists. split; [done|].
    simpl in *. lia.
Qed.

Lemma publish_take_sound s t th f c :
  inv s -> threads s !! t = Some th -> at_pc th = PubTake c ->
  sound s t (at_pc th) (publish_step pw stored_size t f (at_pc th) (mem s)).
Proof.
  intros I Ht E. rewrite E at 2. apply sound_with_state. intros ch Hc Hl.
  pose proof (local_at _ _ _ c ch I Ht ltac:(by rewrite E) Hc) as L. rewrite E in L. simpl in L.
  pose proof (inv_chan _ _ I _ _ Hc) as Hok.
  unfold publish_take.
  destruct (if stopping (state ch) then _ else _) as [[batch rest] term] eqn:Eb.
  assert (exists popped, queued (state ch) = popped ++ rest
    /\ (term <> None -> terminal_error (state ch) <> None)) as (popped & Eq & Hterm).
  { destruct (stopping (state ch)).
    - injection Eb as <- <- <-. by exists [].
    - apply take_batch_spec in Eb as (popped & ? & _ & _ & ?). by exists popped. }
  assert (take (length (queued (state ch)) - length rest) (queued (state ch)) = popped) as ->.
  { rewrite Eq, length_app, Nat.add_sub. apply take_app_length. }
  destruct (split_ok c ch popped rest Hok Eq) as (l & -> & Hl1 & Hl2).
  simpl. apply sound_go. rewrite E.
  pose proof (bytes_of_nonneg stored_size Hsize popped).
  eapply (trans_chan stored_size s t _ _ _ c ch); try done; try (by left); try (by apply lock_kept).
  - split; auto. right. congruence.
  - destruct Hok as [Hv Hb Hf Hfa Hfs Hst Htm Hcap Hsch Hsk Hsub].
    split; simpl; try done.
    + rewrite Eq in Hf. by apply Forall_app in Hf as [_ Hf].
    + intros K. destruct (Hst K) as (? & E1 & E2). split; [done|]. rewrite E1 in Eq.
      symmetry in Eq. apply app_nil in Eq as [_ Eq]. split; [done|].
      destruct term; [|done]. by destruct Hterm.
    + auto.
    + intros Hne. assert (queued (state ch) <> []) as K.
      { rewrite Eq. intros [_ ?]%app_nil. done. }
      specialize (Hcap K). rewrite Eq, length_app in Hcap. lia.
  - split; [done|]. destruct popped; [done|]. split_and!; [done|lia|done].
  - pose proof (ok_values _ _ _ Hok) as Hv. pose proof (ok_bytes _ _ _ Hok) as Hb.
    rewrite Eq in Hv, Hb. rewrite length_app in Hv. rewrite bytes_of_app in Hb.
    destruct popped; [change (bytes_of []) with 0 in Hb; simpl in Hv|];
      intros r b; unfold chan_charges; rewrite ?owed_app; cbn [held buffered_charges];
      destruct r; simpl in *; repeat case_decide; lia.
Qed.

(** The permit of a batch goes back once the batch is gone. *)
Lemma publish_return_sound s t th c vs pm r :
  inv s -> threads s !! t = Some th -> at_pc th = PubPublish c vs pm ->
  sound s t (at_pc th) (go (publish_return c pm r) (mem s)).
Proof.
  intros I Ht E. destruct (in_range _ _ _ _ c I Ht ltac:(by rewrite E)) as [ch Hc].
  pose proof (local_at _ _ _ c ch I Ht ltac:(by rewrite E) Hc) as L. rewrite E in L.
  destruct L as [Hs Hpm]. unfold publish_return, drop_buffered.
  destruct pm as [[bp v b]|]; [|eapply sound_stay; [done..|by rewrite E|by left|done|by rewrite E]].
  destruct Hpm as (-> & Hv & Hb). destruct (_ || _) eqn:Ez.
  - eapply sound_stay; [done..|by rewrite E|by left| |by rewrite E].
    split; [|done]. by exists v, b.
  - apply orb_false_iff in Ez as [Z1%negb_false_iff%Z.eqb_eq Z2%negb_false_iff%Z.eqb_eq]. subst v b.
    eapply sound_stay; [done..|by rewrite E|by left|done|].
    intros []; rewrite E; simpl; intros; repeat case_decide; done.
Qed.

Lemma publish_sound s t th f :
  inv s -> threads s !! t = Some th ->
  match at_pc th with
  | PubWait | PubLock _ | PubTake _ | PubPublish _ _ _ | PubDrop _ _ _ | PubResult _ _
  | PubUnlock _ | PubFinal _ => True
  | _ => False
  end ->
  sound s t (at_pc th) (publish_step pw stored_size t f (at_pc th) (mem s)).
Proof.
  intros I Ht Hp. destruct (at_pc th) eqn:E; try done; rewrite <- E.
  - rewrite E at 2. simpl. unfold queue_run. case_match.
    + apply sound_plain; try done; try (by left); try (by rewrite E).
    + case_match eqn:Er; [apply sound_blocked|].
      assert (n < length (channels (mem s)))%nat as [ch Hc]%lookup_lt_is_Some.
      { apply (inv_ready _ _ I). rewrite Er. by left. }
      apply sound_plain; simpl; try done; try (by rewrite E).
      * intros c' Hc'. left. rewrite Er. by right.
      * by eapply thread_ok_about; [done|left|].
  - rewrite E at 2. apply sound_with_chan. intros ch Hc.
    destruct (publication_lock ch) eqn:El; [apply sound_blocked|]. apply sound_go. rewrite E.
    pose proof (inv_chan _ _ I _ _ Hc) as Hok.
    pose proof (fun K => ok_sink _ _ _ Hok K El) as Hsk.
    destruct (sink ch) eqn:Es;
      eapply (trans_chan stored_size s t _ _ _ c ch); try done; try (by left); try (by split; auto);
      try (by right; left); try (by destruct Hok; split).
    simpl. auto.
  - by eapply publish_take_sound.
  - rewrite E at 2. apply sound_with_chan. intros ch Hc.
    pose proof (local_at _ _ _ c ch I Ht ltac:(by rewrite E) Hc) as L. rewrite E in L.
    destruct vs as [|v vs]; [by eapply publish_return_sound|].
    destruct f; [by eapply publish_return_sound|].
    destruct (stopping_flag ch); [by eapply publish_return_sound|].
    eapply sound_stay; [done..|by rewrite E|by left|done|by rewrite E].
  - destruct (in_range _ _ _ _ c I Ht ltac:(by rewrite E)) as [ch Hc].
    pose proof (local_at _ _ _ c ch I Ht ltac:(by rewrite E) Hc) as L. rewrite E in L.
    destruct L as ((v & b & Hcall) & Hs). rewrite E at 2. simpl.
    eapply (sound_on_budgets _ _ _ c ch bc false v b []); try done; rewrite E; simpl.
    + by rewrite app_nil_r.
    + intros bc' Hbc'. rewrite app_nil_r. split_and!; try done; [by left|].
      by exists v, b.
    + intros ok. split_and!; try done. by left.
  - rewrite E at 2. apply sound_with_chan. intros ch Hc.
    pose proof (local_at _ _ _ c ch I Ht ltac:(by rewrite E) Hc) as L. rewrite E in L.
    simpl in L.
    destruct r; [eapply sound_stay; [done..|by rewrite E|by left|simpl; congruence|by rewrite E]|].
    pose proof (proj2 (proj1 (inv_publication_lock _ _ I _ _ Hc) _ _ Ht) ltac:(by rewrite E)) as Hown.
    apply sound_go. rewrite E.
    eapply (trans_chan stored_size s t _ _ _ c ch); try done; try (by left).
    + split; auto. right. congruence.
    + pose proof (inv_chan _ _ I _ _ Hc) as []. split; try done. simpl. congruence.
  - rewrite E at 2. apply sound_with_chan. intros ch Hc. apply sound_go.
    pose proof (local_at _ _ _ c ch I Ht ltac:(by rewrite E) Hc) as L. rewrite E in L |- *.
    pose proof (inv_chan _ _ I _ _ Hc) as Hok.
    eapply (trans_chan stored_size s t _ _ _ c ch); try done; try (by left); try (by split; auto);
      [by right; right|by destruct Hok; split; auto].
  - rewrite E at 2. apply sound_with_state. intros ch Hc Hl.
    destruct (reserve_schedule ch _) as [requeue st] eqn:Er.
    apply reserve_schedule_spec in Er as [-> _]. apply sound_go. rewrite E.
    pose proof (inv_chan _ _ I _ _ Hc) as Hok.
    destruct requeue;
      eapply (trans_chan stored_size s t _ _ _ c ch); try done; try (by left); try (by right);
      try (by split; auto; right; congruence); by destruct Hok.
Qed.

(** ** The pool *)

Lemma stop_sound s t th :
  inv s -> threads s !! t = Some th ->
  match at_pc th with
  | StopLock | StopStore | StopQueue _ | StopJoin _ | StopUnlock => True
  | _ => False
  end ->
  sound s t (at_pc th) (stop_step t (at_pc th) (mem s)).
Proof.
  intros I Ht Hp. destruct (at_pc th) eqn:E; try done; rewrite <- E at 1; simpl.
  - case_match eqn:El; [apply sound_blocked|]. apply sound_go. rewrite E.
    apply trans_plain; simpl; try done; try (by left). by right; left.
  - apply sound_go. rewrite E. apply trans_plain; simpl; try done; try (by left);
      try by case_match.
    apply lock_kept. by case_match.
  - apply sound_plain; simpl; try done; try (by rewrite E). by intros c' ?%elem_of_nil.
  - case_match; [|apply sound_blocked].
    apply sound_plain; simpl; try done; try (by left); by rewrite E.
  - apply sound_go. rewrite E. apply trans_plain; simpl; try done; try (by left).
    by right; right.
Qed.

(** ** Calls *)

Lemma into_stored_validated v sv :
  well_formed v = true -> into_stored v = Ok sv -> validated sv = true.
Proof.
  unfold into_stored. intros Hw. destruct (validate v) eqn:E; [|done]. intros [= <-].
  simpl. rewrite Hw, E. done.
Qed.

Lemma convert_batch_validated n vs svs :
  forallb well_formed vs = true -> convert_batch n vs = Ok svs ->
  forallb validated svs = true /\ (length svs <= n)%nat.
Proof.
  revert n svs. induction vs as [|v vs IH]; intros n svs.
  - intros _. destruct n; intros [= <-]; simpl; split; done || lia.
  - simpl. intros [Hw Hws]%andb_true_iff. destruct n as [|n]; [done|]. simpl.
    destruct (into_stored v) as [sv|] eqn:Ev; [|done].
    destruct (convert_batch n vs) as [svs'|] eqn:Es; [|done]. intros [= <-].
    destruct (IH _ _ Hws Es). simpl. rewrite (into_stored_validated v) by done.
    split; [done|lia].
Qed.

Lemma start_sound s t th o :
  inv s -> threads s !! t = Some th -> at_pc th = Idle ->
  sound s t (at_pc th) (start (job th) o (mem s)).
Proof.
  intros I Ht E.
  assert (forall c ch p', channels (mem s) !! c = Some ch -> about c p' -> local_ok ch p' ->
    keeps Idle p' -> held p' = [] -> sound s t (at_pc th) (go p' (mem s))) as Hgo.
  { intros c ch p' Hc Ha Hl K Hh. rewrite <- E in K.
    eapply sound_stay; [done..|]. intros r b. by rewrite Hh, E. }
  assert (forall c ch vs, channels (mem s) !! c = Some ch -> pending_ok Batch vs = true ->
    sound s t (at_pc th) (go (send_batch c vs) (mem s))) as Hbatch.
  { intros c ch vs Hc Hv. destruct vs; eapply (Hgo c ch); try done; [by right|by left]. }
  destruct o as [c v|c vs|k c vs|c|c|q|r|]; cbn [start].
  - destruct (well_formed v) eqn:Hw; [|apply sound_blocked].
    apply sound_with_chan. intros ch Hc. destruct (into_stored v) as [sv|] eqn:Ev.
    + eapply (Hgo c); try done; [by left|]. split; [|done]. unfold pending_ok. simpl.
      by rewrite (into_stored_validated v).
    + eapply (Hgo c); try done; by right.
  - destruct (forallb well_formed vs) eqn:Hw; [|apply sound_blocked].
    apply sound_with_chan. intros ch Hc. destruct (convert_batch 32 vs) as [svs|] eqn:Ev.
    + destruct (convert_batch_validated _ _ _ Hw Ev). eapply Hbatch; [done|].
      unfold pending_ok. apply andb_true_iff. split; [done|]. by apply Nat.leb_le.
    + eapply (Hgo c); try done; by right.
  - destruct k; (destruct (pending_ok _ vs) eqn:Hv; [|apply sound_blocked]);
      apply sound_with_chan; intros ch Hc; [|by eapply Hbatch].
    eapply (Hgo c); try done; [by left|]. split; [done|]. by destruct vs.
  - apply sound_with_chan. intros ch Hc. eapply (Hgo c); try done; by left.
  - apply sound_with_chan. intros ch Hc. destruct (subscription ch) as [sub|] eqn:Es;
      [|apply sound_blocked]. apply sound_go. rewrite E.
    pose proof (inv_chan _ _ I _ _ Hc) as Hok.
    eapply (trans_chan stored_size s t _ _ _ c ch); try done; try (by left); try (by right).
    + by split; auto.
    + by destruct Hok.
    + split; [|done]. by apply (ok_subscription _ _ _ Hok).
    + intros r b. unfold chan_charges. rewrite Es. simpl. lia.
  - apply sound_plain; simpl; try done; try (by left); by rewrite E.
  - destruct (job th) as [[c pol]|]; [|apply sound_blocked].
    apply sound_with_chan. intros ch Hc. eapply (Hgo c); try done; by left.
  - apply sound_plain; simpl; try done; try (by left); by rewrite E.
Qed.

(** ** Every step *)

Lemma thread_step_sound s t th a :
  inv s -> threads s !! t = Some th ->
  sound s t (at_pc th) (thread_step pw stored_size t (length (threads s)) a th (mem s)).
Proof.
  intros I Ht. unfold thread_step. destruct a as [o|f].
  { destruct (at_pc th) eqn:E; try apply sound_blocked. rewrite <- E. by apply start_sound. }
  destruct (at_pc th) eqn:E; rewrite <- E; try apply sound_blocked;
    try (apply send_sound; [done..|by rewrite E]);
    try (apply schedule_sound; [done..|by rewrite E]);
    try (apply finish_sound; [done..|by rewrite E]);
    try (apply subscribe_sound; [done..|by rewrite E]);
    try (apply publish_sound; [done..|by rewrite E]);
    try (apply stop_sound; [done..|by rewrite E]).
  - apply sound_plain; simpl; try done; try (by left); by rewrite E.
  - by eapply close_sound.
  - by eapply close_drop_sound.
  - by eapply complete_sound.
Qed.

Lemma channel_inv_step s t a s' es :
  inv s -> step pw stored_size t a s = Done (Some (s', es)) -> inv s'.
Proof.
  intros I. unfold step. destruct (threads s !! t) as [th|] eqn:Ht; [|done].
  destruct (thread_step_sound s t th a I Ht) as (o & -> & Ho). simpl.
  destruct o as [r|]; [|done]. intros [= <- <-]. destruct (Ho r eq_refl) as [T Hsp].
  by eapply channel_inv_update.
Qed.

Lemma channel_step_done s t a : inv s -> exists o, step pw stored_size t a s = Done o.
Proof.
  intros I. unfold step. destruct (threads s !! t) as [th|] eqn:Ht; [|by eexists].
  destruct (thread_step_sound s t th a I Ht) as (o & -> & _). by eexists.
Qed.

Lemma channel_inv_initial limits n :
  (forall r b, 0 <= amount r (limits b)) -> inv (initial limits n).
Proof.
  intros Hl. assert (forall t th, replicate n (Thread None Idle) !! t = Some th ->
    at_pc th = Idle) as Hidle by by intros t th [-> _]%lookup_replicate.
  split; simpl; try done.
  - intros t th Ht. rewrite (Hidle _ _ Ht). by apply unmentioned_ok.
  - intros t t' th th' c Ht. by rewrite (Hidle _ _ Ht).
  - by intros c ?%elem_of_nil.
  - split; [|done]. intros t th Ht. by rewrite (Hidle _ _ Ht).
  - intros r b. unfold account. simpl.
    assert (ztotal (fun th => owed r b (held (at_pc th))) (replicate n (Thread None Idle)) = 0) as ->.
    { clear Hidle. induction n; simpl; [done|lia]. }
    by destruct r.
  - intros r b. simpl. specialize (Hl r b). destruct r; simpl in *; lia.
Qed.

Lemma channel_inv_run limits n tr s :
  (forall r b, 0 <= amount r (limits b)) ->
  run pw stored_size (initial limits n) tr s -> inv s.
Proof.
  intros Hl%(channel_inv_initial _ n) R. induction R as [|s t a s' es tr s'' Hs _ IH]; [done|].
  apply IH. by eapply channel_inv_step.
Qed.

End Steps.

End ChannelSteps.
