(* ===== verification/ChannelShapes.v ===== *)
(** * The steps of an RTD channel that move values or turns

    Most steps of Channel.v move neither a value nor a publication turn.  This
    file classifies the steps: [shape] has one constructor per step that
    admits, takes, delivers or discards a value, or that reserves, hands over
    or ends a turn of the publisher, and one for all others.  The proofs about
    histories and about progress are by cases on it. *)

From stdpp Require Import functions.
From S2P Require Import Prelude SealableCounter Names Errors Utf16 Budget Channel.
From S2P Require Import ChannelInvariant ChannelSteps.
Import SealableCounter.Transitions Errors Budget Accounts.

Local Open Scope Z_scope.

Module ChannelShapes.
Import Str Channel ChannelInvariant ChannelSteps.

(** ** What a thread carries *)

(** The publication turn of a channel: a reserved turn on its way to the ready
    queue, or one the publisher is running. *)
Definition token (p : pc) : option nat :=
  match p with
  | SendUnlock c _ WakeEnqueue | Enqueue c _ | PubLock c | PubTake c | PubPublish c _ _
  | PubDrop c _ _ | PubResult c _ | PubUnlock c | PubFinal c
  | Close c ClosePublish | CloseDrop c _ ClosePublish => Some c
  | _ => None
  end.

(** A thread that is going to reserve a turn. *)
Definition waking (p : pc) : option nat :=
  match p with SendUnlock c _ WakeSchedule | Schedule c _ => Some c | _ => None end.

(** Values taken from the queue and not yet handed over. *)
Definition inflight (c : nat) (p : pc) : list StoredRtdValue :=
  match p with PubPublish c' vs _ => if decide (c' = c) then vs else [] | _ => [] end.

(** A publisher whose batch failed and that has not closed the channel yet. *)
Definition failing (p : pc) : option nat :=
  match p with
  | PubDrop c _ (Err _) | PubResult c (Err _) | Close c ClosePublish => Some c
  | _ => None
  end.

(** A producer thread past the end of its job. *)
Definition completed (p : pc) : bool :=
  match p with Schedule _ AfterComplete | Enqueue _ AfterComplete | Exited => true | _ => false end.

(** A producer about to report its result. *)
Definition completing (p : pc) : option nat :=
  match p with Complete c _ _ => Some c | _ => None end.

Record same_profile (p p' : pc) : Prop := SameProfile {
  same_token : token p' = token p;
  same_waking : waking p' = waking p;
  same_inflight : forall c, inflight c p' = inflight c p;
  same_failing : failing p' = failing p;
  same_completed : completed p' = completed p;
  same_completing : completing p' = completing p;
  same_creates : creates_ok p p';
}.

Definition silent (p : pc) : Prop :=
  token p = None /\ waking p = None /\ (forall c, inflight c p = []) /\ failing p = None
  /\ creates p = None.

(** Channels that agree on their queue and flags. *)
Definition same_view (ch ch' : Chan) : Prop := state ch' = state ch /\ delivery ch' = delivery ch.

Definition same_views (m m' : shared) : Prop := Forall2 same_view (channels m) (channels m').

(** An update of the channel [c] that keeps its policy. *)
Definition moved (m m' : shared) (c : nat) (ch ch' : Chan) : Prop :=
  channels m !! c = Some ch /\ channels m' = <[c := ch']> (channels m)
  /\ delivery ch' = delivery ch.

Definition reservable (st : ChannelState) : Prop :=
  stopping st = false /\ scheduled st = false
  /\ (queued st <> [] \/ terminal_error st <> None).

Inductive shape (j : option (nat * RtdProducerErrorPolicy)) (t n : nat) (p : pc) (m : shared) :
  pc -> shared -> option thread -> list event -> Prop :=
| ShQuiet p' m' :
    same_views m m' -> ready m' = ready m -> same_profile p p' ->
    shape j t n p m p' m' None []
| ShBegin c r pol :
    p = Idle -> fst <$> j = Some c -> shape j t n p m (Complete c r pol) m None []
| ShReplace c ch ch' vs v growth bp q p' m' :
    p = SendReplace c vs v growth bp -> moved m m' c ch ch' -> ready m' = ready m ->
    set_back v (queued (state ch)) = Done q -> queued (state ch') = q ->
    terminal_error (state ch') = terminal_error (state ch) ->
    stopping (state ch') = stopping (state ch) -> scheduled (state ch') = scheduled (state ch) ->
    silent p' -> completed p' = false -> completing p' = None ->
    shape j t n p m p' m' None [Accepted c vs]
| ShInstall k c ch ch' vs new b bp w m' :
    p = SendInstall k c vs new b bp -> moved m m' c ch ch' -> ready m' = ready m ->
    queued (state ch') = queued (state ch) ++ new ->
    terminal_error (state ch') = terminal_error (state ch) ->
    stopping (state ch') = stopping (state ch) ->
    match w with
    | NoWake => scheduled (state ch') = scheduled (state ch)
        /\ (queued (state ch) <> [] \/ ~ reservable (state ch'))
    | WakeSchedule => scheduled (state ch') = scheduled (state ch)
    | WakeEnqueue => scheduled (state ch) = false /\ scheduled (state ch') = true
    end ->
    shape j t n p m (SendUnlock c SendOk w) m' None [Accepted c vs]
| ShReserve c ch ch' k m' :
    p = Schedule c k -> moved m m' c ch ch' -> ready m' = ready m ->
    reservable (state ch) -> state ch' = set_scheduled true (state ch) ->
    shape j t n p m (Enqueue c k) m' None []
| ShSkip c ch k p' m' :
    p = Schedule c k -> channels m !! c = Some ch -> channels m' = channels m ->
    ready m' = ready m -> ~ reservable (state ch) -> resume t k m = go p' m' ->
    shape j t n p m p' m' None []
| ShEnqueue c k p' m' :
    p = Enqueue c k -> channels m' = channels m -> ready m' = push c (ready m) ->
    silent p' -> completed p' = completed p -> completing p' = None ->
    shape j t n p m p' m' None []
| ShClose c ch ch' k p' m' :
    p = Close c k -> moved m m' c ch ch' -> ready m' = ready m ->
    queued (state ch') = [] -> terminal_error (state ch') = None ->
    stopping (state ch') = true -> scheduled (state ch') = scheduled (state ch) ->
    token p' = token p -> waking p' = None -> (forall c', inflight c' p' = []) ->
    failing p' = None -> completed p' = false -> creates p' = None -> completing p' = None ->
    shape j t n p m p' m' None []
| ShComplete c ch ch' r pol m' es :
    p = Complete c r pol -> moved m m' c ch ch' -> ready m' = ready m ->
    queued (state ch') = queued (state ch) -> stopping (state ch') = stopping (state ch) ->
    scheduled (state ch') = scheduled (state ch) ->
    (es = [] /\ terminal_error (state ch') = terminal_error (state ch)
     \/ exists e, es = [Terminal c e] /\ terminal_error (state ch') = Some e
                  /\ stopping (state ch) = false) ->
    shape j t n p m (Schedule c AfterComplete) m' None es
| ShPop c cs m' :
    p = PubWait -> channels m' = channels m -> ready m = MkReady (c :: cs) false ->
    ready m' = MkReady cs false -> shape j t n p m (PubLock c) m' None []
| ShExit m' :
    p = PubWait -> channels m' = channels m -> ready m' = ready m -> ready_stopping (ready m) = true ->
    shape j t n p m Exited m' None []
| ShTake c ch ch' batch permit m' :
    p = PubTake c -> moved m m' c ch ch' -> ready m' = ready m ->
    batch ++ queued (state ch') ++ error_values (terminal_error (state ch'))
      = queued (state ch) ++ error_values (terminal_error (state ch)) ->
    (batch = [] -> stopping (state ch) = true
       \/ queued (state ch) = [] /\ terminal_error (state ch) = None) ->
    stopping (state ch') = stopping (state ch) -> scheduled (state ch') = scheduled (state ch) ->
    (terminal_error (state ch') <> None -> terminal_error (state ch) <> None) ->
    shape j t n p m (PubPublish c batch permit) m' None []
| ShDeliver c ch v vs permit :
    p = PubPublish c (v :: vs) permit -> channels m !! c = Some ch -> stopping_flag ch = false ->
    shape j t n p m (PubPublish c vs permit) m None [Delivered c v]
| ShReturn c ch vs permit r :
    p = PubPublish c vs permit -> channels m !! c = Some ch ->
    (vs = [] /\ r = Ok tt \/ is_err r = true \/ stopping_flag ch = true /\ r = Ok tt) ->
    shape j t n p m (publish_return c permit r) m None []
| ShFinal c ch ch' requeue m' :
    p = PubFinal c -> moved m m' c ch ch' -> ready m' = ready m ->
    state ch' = set_scheduled requeue (state ch) ->
    (requeue = true <-> reservable (set_scheduled false (state ch))) ->
    shape j t n p m (if requeue then Enqueue c AfterPublish else PubWait) m' None []
| ShWorker q m' :
    p = SubStart q -> channels m' = channels m -> ready m' = ready m ->
    shape j t n p m (SubAttach q) m' (Some (Thread None PubWait)) []
| ShAttach q m' :
    p = SubAttach q -> channels m' = channels m ++ [new_chan q] -> ready m' = ready m ->
    shape j t n p m (SubFactory (Subscribed (length (channels m)) None
      [WorkerPermit (rq_source q); WorkerPermit (rq_runtime q);
       SubscriptionPermit (rq_source q)]) (rq_policy q)) m' None []
| ShSpawn s pol p' m' :
    p = SubSpawn s pol -> same_views m m' -> ready m' = ready m ->
    p' = Returned (SubscribeOk (s_channel s)) ->
    shape j t n p m p' m' (Some (Thread (Some (s_channel s, pol)) Idle)) []
| ShStop w m' :
    p = StopQueue w -> channels m' = channels m -> ready m' = MkReady [] true ->
    shape j t n p m (StopJoin w) m' None [].

Lemma same_views_refl (m m' : shared) : channels m' = channels m -> same_views m m'.
Proof. unfold same_views. intros ->. by apply Forall2_same_length_lookup_2; [|intros; simplify_eq]. Qed.

Lemma same_views_set (m m' : shared) c ch ch' :
  channels m !! c = Some ch -> channels m' = <[c := ch']> (channels m) -> same_view ch ch' ->
  same_views m m'.
Proof.
  unfold same_views. intros Hc -> V.
  rewrite <- (list_insert_id (channels m) c ch) at 1 by done.
  apply Forall2_insert; [|done]. by apply (same_views_refl m m).
Qed.

Lemma reserve_reservable ch st reserved st' :
  scheduler ch = true -> reserve_schedule ch st = (reserved, st') ->
  (reserved = true <-> reservable st) /\ st' = (if reserved then set_scheduled true st else st).
Proof.
  unfold reserve_schedule, reservable. intros ->.
  destruct (stopping st), (scheduled st); simpl; try (intros [= <- <-]; split; [naive_solver|done]).
  repeat case_bool_decide; simpl; intros [= <- <-]; split; try done; naive_solver.
Qed.

Section Shapes.
Context (pw : pointer_width) (stored_size : Z).
Abbreviation inv := (inv stored_size).

Definition has_shape (s : config) (t : nat) (th : thread) (r : step_result) : Prop :=
  shape (job th) t (length (threads s)) (at_pc th) (mem s) (next_pc r) (next_mem r) (next_spawn r) (next_events r).

(** A step that keeps the profile and every view. *)
Ltac quiet :=
  apply ShQuiet; simpl;
  [first [by apply same_views_refl | by eapply same_views_set]|done|by split].

Lemma with_chan_inv c m f r :
  with_chan c m f = Done (Some r) -> exists ch, channels m !! c = Some ch /\ f ch = Done (Some r).
Proof. unfold with_chan. case_match; [|done]. eauto. Qed.

Lemma with_state_inv c m f r :
  with_state c m f = Done (Some r) ->
  exists ch, channels m !! c = Some ch /\ state_lock ch = None /\ f ch = Done (Some r).
Proof. intros (ch & Hc & H)%with_chan_inv. case_match; [done|]. eauto. Qed.

Lemma on_budgets_inv bc m more answer r :
  on_budgets pw bc m more answer = Done (Some r) ->
  exists p' B, r = Next p' (set_budgets B m) None []
    /\ ((exists bc', p' = more bc') \/ exists ok, p' = answer ok).
Proof.
  unfold on_budgets. destruct (budget_step pw bc (budgets m)) as [[[bc'|ok] B]| |]; simpl; try done;
    intros [= <-]; eexists _, B; (split; [done|]); eauto.
Qed.

Lemma send_body_shape s t th k c vs f r :
  at_pc th = SendBody k c vs ->
  send_step pw stored_size t f (at_pc th) (mem s) = Done (Some r) -> has_shape s t th r.
Proof.
  intros E. unfold has_shape. rewrite E.
  assert (forall new ch r', push_values pw stored_size k c vs new ch (mem s) = Done (Some r') ->
    shape (job th) t (length (threads s)) (SendBody k c vs) (mem s) (next_pc r') (next_mem r')
      (next_spawn r') (next_events r')) as Hpush.
  { intros new ch r'. unfold push_values. destruct (sum_bytes _ _ _); try done. simpl.
    repeat case_match; intros [= <-]; quiet. }
  assert (forall v ch r', replace_latest stored_size c vs v ch (mem s) = Done (Some r') ->
    shape (job th) t (length (threads s)) (SendBody k c vs) (mem s) (next_pc r') (next_mem r')
      (next_spawn r') (next_events r')) as Hrep.
  { intros v ch r'. unfold replace_latest. repeat case_match; try done; intros [= <-]; quiet. }
  destruct k; intros (ch & Hc & H)%with_chan_inv; revert H.
  - unfold single_body. repeat case_match; try done; try (by intros [= <-]; quiet); eauto.
  - unfold batch_body. repeat case_match; try done; try (by intros [= <-]; quiet); eauto.
Qed.

Lemma send_commit_shape s t th f r :
  inv s -> threads s !! t = Some th ->
  match at_pc th with SendReplace _ _ _ _ _ | SendInstall _ _ _ _ _ _ => True | _ => False end ->
  send_step pw stored_size t f (at_pc th) (mem s) = Done (Some r) -> has_shape s t th r.
Proof.
  intros I Ht Hp. unfold has_shape; destruct (at_pc th) eqn:E; try done; simpl;
    intros (ch & Hc & H)%with_chan_inv; revert H.
  - unfold replace_value. destruct (set_back v (queued (state ch))) as [q| |] eqn:Eq; try done.
    simpl. intros [= <-]. eapply ShReplace; simpl; try done.
    all: repeat case_match; done.
  - unfold install_values.
    pose proof (ok_scheduler _ _ _ (inv_chan _ _ I _ _ Hc)) as Hsch.
    pose proof (local_at _ _ _ _ c ch I Ht ltac:(by rewrite E) Hc) as L. rewrite E in L.
    destruct (push_back _ _ _) as [q| |] eqn:Eq; try done.
    assert (q = queued (state ch) ++ new) as ->.
    { unfold push_back in Eq. repeat case_match; congruence. }
    cbn [obind]. destruct k.
    + intros [= <-]. eapply ShInstall; simpl; try done. case_bool_decide; [done|]. auto.
    + destruct (if bool_decide _ then _ else _) as [reserved st'] eqn:Er.
      intros [= <-]. simpl.
      set (st1 := set_queue _ _ _) in Er.
      assert (st' = (if reserved then set_scheduled true st1 else st1)
        /\ (reserved = true -> reservable st1)
        /\ (reserved = false -> queued (state ch) <> [] \/ ~ reservable st1)) as (-> & Hr & Hn).
      { case_bool_decide.
        - apply reserve_reservable in Er as [Hr ->]; [|done]. split; [done|]. split; [by apply Hr|].
          intros ->. right. by intros ?%Hr.
        - injection Er as <- <-. split_and!; [done..|by left]. }
      eapply ShInstall; simpl; try done; destruct reserved; try done.
      * by destruct (Hr eq_refl) as (_ & ? & _).
      * simpl. auto.
Qed.

Lemma send_shape s t th f r :
  inv s -> threads s !! t = Some th ->
  match at_pc th with
  | SendLoad _ _ _ | SendLock _ _ _ | SendBody _ _ _ | SendGrow _ _ _ _ _ | SendReplace _ _ _ _ _
  | SendShrink _ _ | SendPush _ _ _ _ _ _ | SendInstall _ _ _ _ _ _ | SendUnlock _ _ _ => True
  | _ => False
  end ->
  send_step pw stored_size t f (at_pc th) (mem s) = Done (Some r) -> has_shape s t th r.
Proof.
  intros I Ht Hp. unfold has_shape; destruct (at_pc th) eqn:E; try done.
  3: rewrite <- E; by eapply send_body_shape.
  4, 7: rewrite <- E; eapply send_commit_shape; [done..|by rewrite E].
  - intros (ch & Hc & H)%with_chan_inv. case_match; injection H as <-; quiet.
  - intros (ch & Hc & _ & H)%with_state_inv. injection H as <-. quiet.
  - intros (p' & B & -> & [[? ->]|[[] ->]])%on_budgets_inv; quiet.
  - intros (p' & B & -> & [[? ->]|[[] ->]])%on_budgets_inv; quiet.
  - intros (p' & B & -> & [[? ->]|[[] ->]])%on_budgets_inv; quiet.
  - intros (ch & Hc & H)%with_chan_inv. injection H as <-. destruct w; quiet.
Qed.

Lemma schedule_shape s t th r :
  inv s ->
  match at_pc th with Schedule _ _ | Enqueue _ _ => True | _ => False end ->
  schedule_step t (at_pc th) (mem s) = Done (Some r) -> has_shape s t th r.
Proof.
  intros I Hp. unfold has_shape; destruct (at_pc th) eqn:E; try done.
  - intros (ch & Hc & _ & H)%with_state_inv.
    destruct (reserve_schedule ch (state ch)) as [reserved st] eqn:Er.
    apply reserve_reservable in Er as [Hr ->]; [|by apply (ok_scheduler _ _ _ (inv_chan _ _ I _ _ Hc))].
    destruct reserved; simpl in H.
    + injection H as <-. eapply ShReserve; simpl; try done. by apply Hr.
    + assert (exists p' m', resume t k (mem s) = go p' m' /\ r = Next p' m' None []
        /\ channels m' = channels (mem s) /\ ready m' = ready (mem s))
        as (p' & m' & Eg & -> & ? & ?) by (destruct k; injection H as <-; eauto 10).
      eapply ShSkip; simpl; try done. by intros ?%Hr.
  - intros (ch & Hc & H)%with_chan_inv.
    rewrite (ok_scheduler _ _ _ (inv_chan _ _ I _ _ Hc)) in H.
    destruct k; injection H as <-; by eapply ShEnqueue.
Qed.

Lemma close_shape s t th r :
  match at_pc th with Close _ _ | CloseDrop _ _ _ => True | _ => False end ->
  close_step pw (at_pc th) (mem s) = Done (Some r) -> has_shape s t th r.
Proof.
  intros Hp. unfold has_shape; destruct (at_pc th) eqn:E; try done.
  - intros (ch & Hc & _ & H)%with_state_inv.
    destruct (take_all (chan_budgets ch) (buffered (state ch))) as [[permit l]| |]; try done.
    injection H as <-. eapply (ShClose _ _ _ _ _ c ch); simpl; try done.
    all: destruct (drop_buffered permit); by destruct k.
  - intros (p' & B & -> & [[? ->]|[ok ->]])%on_budgets_inv; destruct k; quiet.
Qed.

Lemma finish_shape s t th r :
  match at_pc th with FinishRevoke _ _ | FinishJoin _ _ _ | DropPermits _ _ => True
  | _ => False end ->
  finish_step (at_pc th) (mem s) = Done (Some r) -> has_shape s t th r.
Proof.
  intros Hp. unfold has_shape; destruct (at_pc th) eqn:E; try done.
  - intros (ch & Hc & H)%with_chan_inv. case_match; [done|]. injection H as <-. quiet.
  - simpl. case_match; try done; try case_match; try done; intros [= <-]; quiet.
  - simpl. destruct ps as [|pm ps]; [intros [= <-]; quiet|].
    destruct (drop_permit pm (budgets (mem s))); try done. intros [= <-]. quiet.
Qed.

Lemma subscribe_shape s t th f r :
  match at_pc th with
  | SubWorker _ | SubRuntimeWorker _ | SubPermit _ | SubLoad _ | SubGet _ | SubStart _
  | SubAttach _ | SubFactory _ _ | SubSpawn _ _ => True
  | _ => False
  end ->
  subscribe_step pw t (length (threads s)) f (at_pc th) (mem s) = Done (Some r) ->
  has_shape s t th r.
Proof.
  intros Hp. unfold has_shape; destruct (at_pc th) eqn:E; try done; simpl; unfold subscribe_permit.
  1-3: destruct (acquire _ _ _) as [[] ?]; intros [= <-]; quiet.
  - case_match; intros [= <-]; quiet.
  - case_match; intros [= <-]; quiet.
  - destruct (pool_lock (pool (mem s))), (worker (pool (mem s))), f; try done; intros [= <-]; try quiet.
    by eapply ShWorker.
  - intros [= <-]. by eapply ShAttach.
  - case_match; intros [= <-]; quiet.
  - destruct f; [intros [= <-]; quiet|]. intros (ch & Hc & H)%with_chan_inv.
    injection H as <-. eapply ShSpawn; simpl; try done. by eapply same_views_set.
Qed.

Lemma complete_shape s t th r :
  match at_pc th with Complete _ _ _ => True | _ => False end ->
  complete_step (at_pc th) (mem s) = Done (Some r) -> has_shape s t th r.
Proof.
  intros Hp. unfold has_shape; destruct (at_pc th) eqn:E; try done.
  intros (ch & Hc & _ & H)%with_state_inv. revert H. cbv zeta.
  destruct (_ && negb (stopping (state ch))) eqn:Ef; [destruct p as [|e]|]; intros [= <-];
    (eapply (ShComplete _ _ _ _ _ c ch); simpl; try done).
  - by left.
  - right. exists e. apply andb_true_iff in Ef as [_ Ef%negb_true_iff]. done.
  - by left.
Qed.

Lemma publish_take_shape s j t c ch r :
  inv s -> channels (mem s) !! c = Some ch ->
  publish_take stored_size c ch (mem s) = Done (Some r) ->
  shape j t (length (threads s)) (PubTake c) (mem s) (next_pc r) (next_mem r) (next_spawn r)
    (next_events r).
Proof.
  intros I Hc. unfold publish_take.
  destruct (if stopping (state ch) then _ else _) as [[batch rest] term] eqn:Eb.
  destruct (split _ _ _ _) as [[permit l]| |]; try done. intros [= <-].
  assert (batch ++ rest ++ error_values term
    = queued (state ch) ++ error_values (terminal_error (state ch))
    /\ (batch = [] -> stopping (state ch) = true
         \/ queued (state ch) = [] /\ terminal_error (state ch) = None)
    /\ (term <> None -> terminal_error (state ch) <> None)) as (H1 & H2 & H3).
  { destruct (stopping (state ch)).
    - injection Eb as <- <- <-. auto.
    - apply take_batch_spec in Eb as (popped & _ & H & Hne & Ht). split_and!; [done| |done].
      intros Eb. right. apply Hne; [done|lia]. }
  eapply (ShTake _ _ _ _ _ c ch); simpl; done.
Qed.

Lemma publish_shape s t th f r :
  inv s ->
  match at_pc th with
  | PubWait | PubLock _ | PubTake _ | PubPublish _ _ _ | PubDrop _ _ _ | PubResult _ _
  | PubUnlock _ | PubFinal _ => True
  | _ => False
  end ->
  publish_step pw stored_size t f (at_pc th) (mem s) = Done (Some r) -> has_shape s t th r.
Proof.
  intros I Hp. unfold has_shape; destruct (at_pc th) eqn:E; try done.
  - simpl. unfold queue_run. destruct (ready (mem s)) as [rs []] eqn:Er; simpl.
    + intros [= <-]. eapply ShExit; simpl; by rewrite ?Er.
    + destruct rs as [|c cs]; [done|]. intros [= <-]. by eapply ShPop.
  - intros (ch & Hc & H)%with_chan_inv. case_match; [done|]. injection H as <-.
    destruct (sink ch); quiet.
  - intros (ch & Hc & _ & H)%with_state_inv. by eapply publish_take_shape.
  - intros (ch & Hc & H)%with_chan_inv. destruct vs as [|v vs].
    + injection H as <-. eapply ShReturn; simpl; try done. by left.
    + destruct f as [e|].
      * injection H as <-. eapply ShReturn; simpl; try done. by right; left.
      * destruct (stopping_flag ch) eqn:Es; injection H as <-.
        -- eapply ShReturn; simpl; try done. by right; right.
        -- by eapply ShDeliver.
  - intros (p' & B & -> & [[? ->]|[ok ->]])%on_budgets_inv; quiet.
  - intros (ch & Hc & H)%with_chan_inv. destruct r0; injection H as <-; quiet.
  - intros (ch & Hc & H)%with_chan_inv. injection H as <-. quiet.
  - intros (ch & Hc & _ & H)%with_state_inv.
    destruct (reserve_schedule ch _) as [requeue st] eqn:Er.
    apply reserve_reservable in Er as [Hr ->]; [|by apply (ok_scheduler _ _ _ (inv_chan _ _ I _ _ Hc))].
    injection H as <-. eapply (ShFinal _ _ _ _ _ c ch); simpl; try done. by destruct requeue.
Qed.

Lemma channel_step_shape s t th a r :
  inv s -> threads s !! t = Some th ->
  thread_step pw stored_size t (length (threads s)) a th (mem s) = Done (Some r) ->
  has_shape s t th r.
Proof.
  intros I Ht. unfold thread_step. destruct a as [o|f].
  { unfold has_shape; destruct (at_pc th) eqn:E; try done. destruct o as [c v|c vs|k c vs|c|c|q|x|]; cbn [start].
    - destruct (well_formed v); [|done]. intros (ch & Hc & H)%with_chan_inv.
      case_match; injection H as <-; quiet.
    - destruct (forallb well_formed vs); [|done]. intros (ch & Hc & H)%with_chan_inv.
      destruct (convert_batch 32 vs); injection H as <-; [|quiet]. unfold send_batch. case_match; quiet.
    - destruct k; (destruct (pending_ok _ vs); [|done]);
        intros (ch & Hc & H)%with_chan_inv; injection H as <-;
        [quiet|]. unfold send_batch. case_match; quiet.
    - intros (ch & Hc & H)%with_chan_inv; injection H as <-; quiet.
    - intros (ch & Hc & H)%with_chan_inv. case_match; [|done]. injection H as <-; quiet.
    - intros [= <-]. quiet.
    - destruct (job th) as [[c pol]|]; [|done]. intros (ch & Hc & H)%with_chan_inv.
      injection H as <-. by eapply ShBegin.
    - intros [= <-]. quiet. }
  unfold has_shape; destruct (at_pc th) eqn:E; try done; rewrite <- E;
    try (apply send_shape; [done..|by rewrite E]);
    try (apply schedule_shape; [done..|by rewrite E]);
    try (apply close_shape; by rewrite E);
    try (apply finish_shape; by rewrite E);
    try (apply subscribe_shape; by rewrite E);
    try (apply complete_shape; by rewrite E);
    try (apply publish_shape; [done..|by rewrite E]).
  - rewrite E. intros [= <-]. quiet.
  - rewrite E. simpl. case_match; [done|]. intros [= <-]. quiet.
  - rewrite E. simpl. intros [= <-]. case_match; quiet.
  - rewrite E. simpl. intros [= <-]. by eapply ShStop.
  - rewrite E. simpl. case_match; [|done]. intros [= <-]. quiet.
  - rewrite E. simpl. intros [= <-]. quiet.
Qed.

End Shapes.

End ChannelShapes.
