(* ===== verification/ChannelThreads.v ===== *)
(** * The threads around RTD channels

    Who joins whom: a producer thread is known to the subscription of its
    channel and to nobody else, the publisher thread to the pool, and a thread
    counts as exited exactly when its body has returned.  Disconnection joins
    the producer, so that a disconnected channel has no producer left; a
    channel never exists without a publisher thread. *)

From stdpp Require Import functions.
From S2P Require Import Prelude SealableCounter Names Errors Utf16 Budget Channel.
From S2P Require Import ChannelInvariant ChannelSteps ChannelShapes.
Import SealableCounter.Transitions Errors Budget Accounts.

Local Open Scope nat_scope.

Module ChannelThreads.
Import Str Channel ChannelInvariant ChannelSteps ChannelShapes.

(** ** Custody of a subscription *)

(** The subscription a thread is setting up or finishing. *)
Definition holds (p : pc) : option Subscription :=
  match p with
  | Close _ (CloseFinish s _) | CloseDrop _ _ (CloseFinish s _) | FinishRevoke s _
  | FinishJoin s _ _ | SubFactory s _ | SubSpawn s _ => Some s
  | _ => None
  end.

(** The channel a thread has disconnected. *)
Definition gone (p : pc) : option nat :=
  match p with
  | DropPermits _ (Disconnected c _) | Returned (Disconnected c _) => Some c
  | _ => None
  end.

Definition handles (p : pc) : option nat :=
  match holds p with Some s => Some (s_channel s) | None => gone p end.

Definition producer_of (c : nat) (th : thread) : Prop := fst <$> job th = Some c.

(** The body of the publisher thread. *)
Definition is_publisher (p : pc) : bool :=
  match p with
  | PubWait | PubLock _ | PubTake _ | PubPublish _ _ _ | PubDrop _ _ _ | PubResult _ _
  | PubUnlock _ | PubFinal _ | Close _ ClosePublish | CloseDrop _ _ ClosePublish
  | Enqueue _ AfterPublish => true
  | _ => false
  end.

Definition subscriptions_of (m : shared) : list (option Subscription) := subscription <$> channels m.

(** What a step does to subscriptions and to the list of exited threads. *)
Inductive custody (t n : nat) (p : pc) (m : shared) : pc -> shared -> option thread -> Prop :=
| CuKeep p' m' sp :
    subscriptions_of m' = subscriptions_of m -> exited m' = exited m -> p' <> Exited ->
    holds p' = holds p -> gone p' = gone p \/ gone p' = None -> creates_ok p p' ->
    (forall th, sp = Some th -> th = Thread None PubWait) ->
    custody t n p m p' m' sp
| CuExit m' :
    subscriptions_of m' = subscriptions_of m -> exited m' = t :: exited m ->
    custody t n p m Exited m' None
| CuFinish c ch s m' :
    channels m !! c = Some ch -> subscription ch = Some s ->
    subscriptions_of m' = <[c := None]> (subscriptions_of m) -> exited m' = exited m ->
    custody t n p m (Close c (CloseFinish s Explicit)) m' None
| CuAttach q pol m' :
    subscriptions_of m' = subscriptions_of m ++ [None] -> exited m' = exited m ->
    custody t n p m (SubFactory (Subscribed (length (channels m)) None q) pol) m' None
| CuSpawn s pol ch m' :
    p = SubSpawn s pol -> channels m !! s_channel s = Some ch ->
    subscriptions_of m'
      = <[s_channel s := Some (Subscribed (s_channel s) (Some n) (s_permits s))]> (subscriptions_of m) ->
    exited m' = exited m ->
    custody t n p m (Returned (SubscribeOk (s_channel s))) m'
      (Some (Thread (Some (s_channel s, pol)) Idle))
| CuJoin s r k m' :
    p = FinishJoin s r k -> m' = m ->
    (forall j, s_producer s = Some j -> j ∈ exited m) ->
    custody t n p m (DropPermits (s_permits s) (finish_return (s_channel s) r k)) m' None.

(** What a step does to the publisher thread and to the pool. *)
Record staffing (t n : nat) (p : pc) (m : shared) (p' : pc) (m' : shared) (sp : option thread)
  : Prop := Staffing {
  st_publisher : is_publisher p = true ->
    is_publisher p' = true \/ (p' = Exited /\ ready_stopping (ready m') = true);
  st_body : p <> Exited;
  st_stopping : ready_stopping (ready m) = true -> ready_stopping (ready m') = true;
  st_running : forall w, worker (pool m') = Running w ->
    worker (pool m) = Running w \/ (w = n /\ sp = Some (Thread None PubWait));
  st_queue : forall w, p' = StopQueue w -> worker (pool m) = Running w;
  st_join : forall w, p' = StopJoin w -> p = StopQueue w /\ ready_stopping (ready m') = true;
  st_cell : queue_cell (pool m') = true ->
    queue_cell (pool m) = true \/ sp = Some (Thread None PubWait);
  st_attach : forall q, p' = SubAttach q ->
    queue_cell (pool m) = true \/ (exists w, worker (pool m) = Running w)
    \/ sp = Some (Thread None PubWait);
  st_channels : (length (channels m) < length (channels m'))%nat -> exists q, p = SubAttach q;
}.

(** A publisher thread that can still be joined. *)
Definition joinable (w : nat) (s : config) : Prop :=
  exists th, threads s !! w = Some th
    /\ (is_publisher (at_pc th) = true
        \/ (at_pc th = Exited /\ ready_stopping (ready (mem s)) = true)).

Record threads_ok (s : config) : Prop := ThreadsOk {
  th_exited : forall t, t ∈ exited (mem s) <->
    exists th, threads s !! t = Some th /\ at_pc th = Exited;
  th_job : forall t th c, threads s !! t = Some th -> producer_of c th ->
    c < length (channels (mem s));
  th_custody : forall t th sub t' th', threads s !! t = Some th -> holds (at_pc th) = Some sub ->
    threads s !! t' = Some th' -> producer_of (s_channel sub) th' -> s_producer sub = Some t';
  th_subscription : forall c sub t th, subscriptions_of (mem s) !! c = Some (Some sub) ->
    threads s !! t = Some th -> producer_of c th -> s_producer sub = Some t;
  th_gone : forall t th c t' th', threads s !! t = Some th -> gone (at_pc th) = Some c ->
    threads s !! t' = Some th' -> producer_of c th' -> at_pc th' = Exited;
  th_alone : forall t th c t' th', threads s !! t = Some th -> creates (at_pc th) = Some c ->
    threads s !! t' = Some th' -> handles (at_pc th') = Some c -> t' = t;
  th_unmade : forall t th c t' th', threads s !! t = Some th -> creates (at_pc th) = Some c ->
    threads s !! t' = Some th' -> ~ producer_of c th';
  th_running : forall w, worker (pool (mem s)) = Running w -> joinable w s;
  th_queue : forall t th w, threads s !! t = Some th -> at_pc th = StopQueue w -> joinable w s;
  th_join : forall t th w, threads s !! t = Some th -> at_pc th = StopJoin w ->
    joinable w s /\ ready_stopping (ready (mem s)) = true;
  th_staffed : channels (mem s) <> [] \/ queue_cell (pool (mem s)) = true
    \/ (exists t th q, threads s !! t = Some th /\ at_pc th = SubAttach q) ->
    exists w, joinable w s;
}.

(** Every result of a step, by cases on what it tests. *)
Ltac results H :=
  revert H; unfold send_step, single_body, batch_body, replace_latest, push_values, replace_value,
    install_values, schedule_step, resume, close_step, finish_step, subscribe_step, queue_step, subscribe_permit,
    complete_step, publish_step, queue_run, publish_take, stop_step, start, on_budgets, with_state, with_chan,
    emit, go, blocked, obind, abandon, send_batch, close_next, publish_return, push;
  repeat case_match; try done; intros [= <-]; cbn [next_pc next_mem next_spawn next_events].

Section Threads.
Context (pw : pointer_width) (stored_size : Z).
Context (Hsize : (0 <= stored_size <= 65536)%Z).
Abbreviation inv := (inv stored_size).

Lemma subs_set c ch ch' m :
  channels m !! c = Some ch -> subscription ch' = subscription ch ->
  subscriptions_of (set_chan c ch' m) = subscriptions_of m.
Proof.
  intros Hc E. unfold subscriptions_of. simpl. rewrite list_fmap_insert, E.
  apply list_insert_id. by rewrite list_lookup_fmap, Hc.
Qed.

Lemma thread_step_staffing t n a th m r :
  thread_step pw stored_size t n a th m = Done (Some r) ->
  staffing t n (at_pc th) m (next_pc r) (next_mem r) (next_spawn r).
Proof.
  unfold thread_step. destruct a as [o|f], (at_pc th) eqn:E; intros H; try done.
  all: results H.
  all: split; simpl; try done; try (rewrite ?length_insert; intros; lia);
    intros; simplify_eq; eauto.
Qed.

Lemma send_ret_gone r : is_send_ret r = true -> gone (Returned r) = None.
Proof. by destruct r. Qed.

Lemma channel_step_custody s t th a r :
  inv s -> threads s !! t = Some th ->
  thread_step pw stored_size t (length (threads s)) a th (mem s) = Done (Some r) ->
  custody t (length (threads s)) (at_pc th) (mem s) (next_pc r) (next_mem r) (next_spawn r).
Proof.
  intros I Ht.
  pose proof (fun c ch E Hc => local_at _ _ _ _ c ch I Ht E Hc) as L.
  set (n := length _). clearbody n. set (m := mem s) in *. clearbody m. clear I Ht.
  unfold thread_step. destruct a as [o|f], (at_pc th) eqn:E; intros H; try done.
  all: results H.
  all: try (apply CuKeep; simpl; try done;
    first [by eapply subs_set | by left | by right | by intros ? [= <-]]).
  all: try (apply CuKeep; simpl; try done;
    [by eapply subs_set|right; apply send_ret_gone; by eapply (L c)]).
  all: try (apply CuKeep; simpl; try done; right; apply send_ret_gone; by eapply (L c)).
  all: try (by apply CuExit).
  - eapply CuFinish; try done. unfold subscriptions_of. simpl. by rewrite list_fmap_insert.
  - apply (CuJoin _ _ _ _ s0); [done|done|]. intros j Hj. simplify_eq.
    by eapply bool_decide_eq_true_1.
  - apply (CuJoin _ _ _ _ s0); [done|done|]. intros j Hj. congruence.
  - apply CuAttach; [|done]. unfold subscriptions_of. simpl. by rewrite fmap_app.
  - eapply CuSpawn; try done. unfold subscriptions_of. simpl. by rewrite list_fmap_insert.
Qed.

(** ** Preservation *)
Section Step.
Context (s : config) (t : nat) (th : thread) (r : step_result).
Context (I : inv s) (K : threads_ok s) (Ht : threads s !! t = Some th).
Context (Hst : staffing t (length (threads s)) (at_pc th) (mem s) (next_pc r) (next_mem r) (next_spawn r)).
Context (Hcu : custody t (length (threads s)) (at_pc th) (mem s) (next_pc r) (next_mem r) (next_spawn r)).

Let s' : config :=
  Config (next_mem r) (<[t := Thread (job th) (next_pc r)]> (threads s) ++ option_list (next_spawn r)).

(** A thread after the step is the stepping one, an unchanged one or the new one. *)
Lemma thread_after t' x :
  threads s' !! t' = Some x ->
  (t' = t /\ x = Thread (job th) (next_pc r)) \/ (t' <> t /\ threads s !! t' = Some x)
  \/ (t' = length (threads s) /\ t' <> t /\ next_spawn r = Some x).
Proof.
  unfold s'. simpl. rewrite (threads_lookup _ _ _ _ _ _ Ht).
  repeat case_decide; intros Hx; simplify_eq; auto.
Qed.

Lemma thread_before t' x :
  t' <> t -> threads s !! t' = Some x -> threads s' !! t' = Some x.
Proof.
  intros Hne Hx. unfold s'. simpl. rewrite (threads_lookup _ _ _ _ _ _ Ht).
  rewrite decide_False by done. apply lookup_lt_Some in Hx as Hl. rewrite decide_False by lia. done.
Qed.

Lemma thread_self : threads s' !! t = Some (Thread (job th) (next_pc r)).
Proof. unfold s'. simpl. rewrite (threads_lookup _ _ _ _ _ _ Ht). by rewrite decide_True. Qed.

Lemma joinable_step w : joinable w s -> joinable w s'.
Proof.
  intros (x & Hx & Hp). destruct (decide (w = t)) as [->|Hne].
  - rewrite Ht in Hx. injection Hx as <-. exists (Thread (job th) (next_pc r)).
    split; [apply thread_self|]. simpl. destruct Hp as [Hp|[Hp _]].
    + by apply (st_publisher _ _ _ _ _ _ _ Hst).
    + by destruct (st_body _ _ _ _ _ _ _ Hst).
  - exists x. split; [by apply thread_before|]. destruct Hp as [Hp|[Hp E]]; [by left|].
    right. split; [done|]. by apply (st_stopping _ _ _ _ _ _ _ Hst).
Qed.

Lemma joinable_spawn : next_spawn r = Some (Thread None PubWait) -> joinable (length (threads s)) s'.
Proof.
  intros E. exists (Thread None PubWait). split; [|by left]. unfold s'. simpl.
  rewrite (threads_lookup _ _ _ _ _ _ Ht). apply lookup_lt_Some in Ht.
  rewrite decide_False by lia. by rewrite decide_True.
Qed.

Lemma running_step w : worker (pool (next_mem r)) = Running w -> joinable w s'.
Proof.
  intros [E|[-> E]]%(st_running _ _ _ _ _ _ _ Hst); [|by apply joinable_spawn].
  by apply joinable_step, (th_running _ K).
Qed.

Lemma staffed_step :
  channels (next_mem r) <> [] \/ queue_cell (pool (next_mem r)) = true
    \/ (exists t' x q, threads s' !! t' = Some x /\ at_pc x = SubAttach q) ->
  exists w, joinable w s'.
Proof.
  assert ((exists w, joinable w s) -> exists w, joinable w s') as Hw
    by (intros [w ?]; exists w; by apply joinable_step).
  intros [H|[H|(t' & x & q & Hx & E)]].
  - apply Hw, (th_staffed _ K). destruct (decide (channels (mem s) = [])) as [E|]; [|by left].
    right; right. destruct (st_channels _ _ _ _ _ _ _ Hst) as [q E'].
    + rewrite E. destruct (channels (next_mem r)); [done|]. simpl. lia.
    + by exists t, th, q.
  - apply (st_cell _ _ _ _ _ _ _ Hst) in H as [H|H]; [|eauto using joinable_spawn].
    apply Hw, (th_staffed _ K). auto.
  - apply thread_after in Hx as [[-> ->]|[[Hne Hx]|(-> & Hne & Hx)]]; simpl in *.
    + apply (st_attach _ _ _ _ _ _ _ Hst) in E as [E|[[w E]|E]]; [|..|eauto using joinable_spawn].
      * apply Hw, (th_staffed _ K). auto.
      * apply Hw. exists w. by apply (th_running _ K).
    + apply Hw, (th_staffed _ K). eauto 10.
    + destruct Hcu; simplify_eq/=. by match goal with H : forall th, _ -> _ = _ |- _ => rewrite (H x) in E by done end.
Qed.

Lemma exited_step t' :
  t' ∈ exited (next_mem r) <-> exists x, threads s' !! t' = Some x /\ at_pc x = Exited.
Proof.
  assert (at_pc th <> Exited) as Hne by apply (st_body _ _ _ _ _ _ _ Hst).
  assert (forall x, next_spawn r = Some x -> at_pc x <> Exited) as Hsp.
  { intros x Hx. destruct Hcu as [p' m' sp _ _ _ _ _ _ Hpw| | | | |]; simplify_eq/=; try done.
    by rewrite (Hpw x). }
  assert (t ∉ exited (mem s)) as Hnt.
  { intros (x & Hx & E)%(th_exited _ K). congruence. }
  assert (exited (next_mem r) = exited (mem s) /\ next_pc r <> Exited
    \/ exited (next_mem r) = t :: exited (mem s) /\ next_pc r = Exited) as [[-> Hp]|[-> Hp]].
  { destruct Hcu; simplify_eq/=; auto. }
  - rewrite (th_exited _ K). split; intros (x & Hx & E).
    + exists x. split; [|done]. apply thread_before; congruence.
    + exists x. apply thread_after in Hx as [[-> ->]|[[? Hx]|(-> & ? & Hx)]]; simpl in *; try done.
      by apply Hsp in Hx.
  - rewrite elem_of_cons, (th_exited _ K). split.
    + intros [->|(x & Hx & E)]; [eexists; split; [apply thread_self|done]|].
      exists x. split; [|done]. apply thread_before; congruence.
    + intros (x & Hx & E). apply thread_after in Hx as [[-> ->]|[[? Hx]|(-> & ? & Hx)]]; simpl in *.
      * by left.
      * right. eauto.
      * by apply Hsp in Hx.
Qed.

(** A producer after the step was one before, or is the new thread. *)
Lemma producer_after t' x c :
  threads s' !! t' = Some x -> producer_of c x ->
  (exists y, threads s !! t' = Some y /\ producer_of c y /\ (t' <> t -> x = y))
  \/ (t' = length (threads s) /\ creates (at_pc th) = Some c
      /\ next_pc r = Returned (SubscribeOk c)
      /\ exists ps, subscriptions_of (next_mem r)
           = <[c := Some (Subscribed c (Some t') ps)]> (subscriptions_of (mem s))).
Proof.
  intros [[-> ->]|[[Hne Hx]|(-> & Hne & Hx)]]%thread_after Hp.
  - left. by exists th.
  - left. by exists x.
  - right. destruct Hcu as [p' m' sp _ _ _ _ _ _ Hpw| | | |sub pol ch m' E Hch Hs _|]; simplify_eq/=.
    + by rewrite (Hpw x) in Hp.
    + injection Hp as <-. rewrite E. split_and!; [done..|]. by exists (s_permits sub).
Qed.

Lemma channels_grow : length (channels (mem s)) <= length (channels (next_mem r)).
Proof.
  rewrite <- !(length_fmap subscription). fold (subscriptions_of (next_mem r)).
  fold (subscriptions_of (mem s)).
  destruct Hcu as [p' m' sp E|m' E|c ch sub m' _ _ E|q pol m' E|sub pol ch m' _ _ E|sub x k m' _ E];
    simpl; rewrite E; rewrite ?length_app, ?length_insert; lia.
Qed.

Lemma creates_mentions p c : creates p = Some c -> mentions p = Some c.
Proof. by destruct p. Qed.

Lemma handles_mentions t' x c :
  threads s !! t' = Some x -> handles (at_pc x) = Some c -> mentions (at_pc x) = Some c.
Proof.
  intros Hx Hh. destruct (at_pc x) eqn:E; try done; simpl in *.
  all: destruct k; try done; injection Hh as <-.
  all: destruct (inv_thread _ _ I _ _ Hx c0) as (ch & _ & L); [by rewrite E|].
  all: rewrite E in L; destruct L as [L _]; simpl in L; congruence.
Qed.

Lemma job_step t' x c :
  threads s' !! t' = Some x -> producer_of c x -> c < length (channels (next_mem r)).
Proof.
  intros Hx Hp. eapply Nat.lt_le_trans; [|apply channels_grow].
  destruct (producer_after _ _ _ Hx Hp) as [(y & Hy & Hp' & _)|(_ & Hc & _)].
  - by eapply th_job.
  - apply lookup_lt_is_Some. eapply (in_range _ _ t th c I Ht). by apply creates_mentions.
Qed.

Lemma spawn_quiet x :
  next_spawn r = Some x ->
  holds (at_pc x) = None /\ gone (at_pc x) = None /\ creates (at_pc x) = None.
Proof.
  intros Hx. destruct Hcu as [p' m' sp _ _ _ _ _ _ Hpw| | | | |]; simplify_eq/=; [|done].
  by rewrite (Hpw x).
Qed.

Lemma custody_step t1 x1 sub t2 x2 :
  threads s' !! t1 = Some x1 -> holds (at_pc x1) = Some sub ->
  threads s' !! t2 = Some x2 -> producer_of (s_channel sub) x2 -> s_producer sub = Some t2.
Proof.
  intros H1 Hh H2 Hp. destruct (producer_after _ _ _ H2 Hp) as [(y & Hy & Hp' & _)|(-> & Hc & Er & _)];
    apply thread_after in H1 as [[-> ->]|[[Hne H1]|(-> & Hne & H1)]]; simpl in *;
    try (apply spawn_quiet in H1; destruct H1 as [H1 _]; congruence).
  - destruct Hcu as [p' m' sp _ _ _ E|m' E|c ch sub' m' Hch Es _ _|q pol m' E|sub' pol ch m' _ _ E|sub' x k m' _ E];
      simplify_eq/=.
    + rewrite E in Hh. by eapply (th_custody _ K t th).
    + eapply (th_subscription _ K c); [|done|].
      * unfold subscriptions_of. by rewrite list_lookup_fmap, Hch, <- Es.
      * by rewrite <- (ok_subscription _ _ _ (inv_chan _ _ I _ _ Hch) _ Es).
    + apply (th_job _ K _ _ _ Hy) in Hp'. lia.
  - by eapply (th_custody _ K t1 x1).
  - by rewrite Er in Hh.
  - exfalso. apply Hne. eapply (th_alone _ K t th); [done..|]. unfold handles. by rewrite Hh.
Qed.

Lemma subscription_step c sub t' x :
  subscriptions_of (next_mem r) !! c = Some (Some sub) ->
  threads s' !! t' = Some x -> producer_of c x -> s_producer sub = Some t'.
Proof.
  intros Hs Hx Hp. destruct (producer_after _ _ _ Hx Hp) as [(y & Hy & Hp' & _)|(-> & Hc & _ & ps & E)].
  - pose proof (th_subscription _ K c sub t' y) as Hold.
    destruct Hcu as [p' m' sp E|m' E|c' ch sub' m' Hch Es E _|q pol m' E|sub' pol ch m' Ep Hch E|sub' z k m' _ E];
      simpl in Hs; rewrite E in Hs; auto.
    + apply list_lookup_insert_Some in Hs as [(_ & ? & _)|[_ Hs]]; [done|auto].
    + apply lookup_app_Some in Hs as [Hs|[_ Hs]]; [auto|].
      apply list_lookup_singleton_Some in Hs as [_ ?]. done.
    + apply list_lookup_insert_Some in Hs as [(<- & ? & _)|[_ Hs]]; [|auto].
      exfalso. eapply (th_unmade _ K t th); [done|by rewrite Ep|done|done].
  - rewrite E in Hs. apply list_lookup_insert_Some in Hs as [(_ & ? & _)|[? _]]; [|done].
    by simplify_eq/=.
Qed.

Lemma gone_step t1 x1 c t2 x2 :
  threads s' !! t1 = Some x1 -> gone (at_pc x1) = Some c ->
  threads s' !! t2 = Some x2 -> producer_of c x2 -> at_pc x2 = Exited.
Proof.
  intros H1 Hg H2 Hp.
  assert (forall y, threads s !! t2 = Some y -> at_pc y = Exited -> t2 <> t) as Ht2.
  { intros y Hy E ->. apply (st_body _ _ _ _ _ _ _ Hst). congruence. }
  destruct (producer_after _ _ _ H2 Hp) as [(y & Hy & Hp' & Hyx)|(-> & Hc & Er & _)];
    apply thread_after in H1 as [[-> ->]|[[Hne H1]|(-> & Hne & H1)]]; simpl in *;
    try (apply spawn_quiet in H1; destruct H1 as (_ & H1 & _); congruence).
  - assert (at_pc y = Exited) as E; [|by rewrite (Hyx (Ht2 _ Hy E))].
    destruct Hcu as [p' m' sp _ _ _ _ [E|E]|m' E|c' ch sub' m' Hch Es _ _|q pol m' E|sub' pol ch m' _ _ E|sub' z k m' Ep E Hj];
      simpl in Hg; try done; try congruence.
    + by apply (th_gone _ K t th c t2 y); [|congruence|..].
    + assert (s_producer sub' = Some t2) as He%Hj.
      { eapply (th_custody _ K t th); [done|by rewrite Ep|done|]. by destruct k; simplify_eq/=. }
      apply (th_exited _ K) in He as (z' & Hz & ?). congruence.
  - assert (at_pc y = Exited) as E by by eapply (th_gone _ K t1 x1).
    by rewrite (Hyx (Ht2 _ Hy E)).
  - by rewrite Er in Hg.
  - exfalso. apply Hne. eapply (th_alone _ K t th); [done..|]. unfold handles.
    by destruct (at_pc x1).
Qed.

Lemma alone_step t1 x1 c t2 x2 :
  threads s' !! t1 = Some x1 -> creates (at_pc x1) = Some c ->
  threads s' !! t2 = Some x2 -> handles (at_pc x2) = Some c -> t2 = t1.
Proof.
  intros H1 Hc H2 Hh. destruct (decide (t2 = t1)) as [|Hne']; [done|exfalso].
  assert (forall t' x, threads s !! t' = Some x -> mentions (at_pc x) = Some c ->
    c < length (channels (mem s))) as Hm.
  { intros t' x Hx E. apply lookup_lt_is_Some. by eapply (in_range _ _ t' x c I). }
  apply thread_after in H1 as [[-> ->]|[[Hne H1]|(-> & Hne & H1)]]; simpl in *;
    [|..|apply spawn_quiet in H1 as (_ & _ & ?); congruence];
    (apply thread_after in H2 as [[-> ->]|[[Hne2 H2]|(-> & Hne2 & H2)]]; simpl in *;
    [..|apply spawn_quiet in H2 as (E1 & E2 & _); unfold handles in Hh; rewrite E1 in Hh; congruence]);
    try done.
  - destruct Hcu as [p' m' sp _ _ _ _ _ Hk|m' E|c' ch sub' m' Hch Es _ _|q pol m' E|sub' pol ch m' _ _ E|sub' z k m' Ep E Hj];
      simpl in Hc; try done.
    + apply Hne2. eapply (th_alone _ K t th); [done| |done|done].
      unfold creates_ok in Hk. by rewrite Hc in Hk.
    + injection Hc as <-. apply (handles_mentions t2), (Hm t2 x2 H2) in Hh; [lia|done].
  - assert (handles (at_pc th) <> Some c) as Hth
      by (intros E; apply Hne; symmetry; by eapply (th_alone _ K t1 x1 c t th)).
    destruct Hcu as [p' m' sp _ _ _ E E'|m' E|c' ch sub' m' Hch Es _ _|q pol m' E|sub' pol ch m' _ _ E|sub' z k m' Ep E Hj];
      unfold handles in *; simpl in Hh; try done.
    + rewrite E in Hh. destruct (holds (at_pc th)); [done|]. destruct E' as [E'|E']; congruence.
    + injection Hh as <-. rewrite (ok_subscription _ _ _ (inv_chan _ _ I _ _ Hch) _ Es) in Hc.
      assert (mentions (at_pc x1) = Some c') as Hmn by by apply creates_mentions.
      pose proof (local_at _ _ _ _ c' ch I H1 Hmn Hch) as L.
      destruct (at_pc x1); try done; simpl in L; congruence.
    + injection Hh as <-. apply creates_mentions, (Hm t1 x1 H1) in Hc. lia.
    + rewrite Ep in Hth. by destruct k.
  - apply Hne'. by eapply (th_alone _ K t1 x1 c t2 x2).
Qed.

Lemma unmade_step t1 x1 c t2 x2 :
  threads s' !! t1 = Some x1 -> creates (at_pc x1) = Some c ->
  threads s' !! t2 = Some x2 -> ~ producer_of c x2.
Proof.
  intros H1 Hc H2 Hp. destruct (producer_after _ _ _ H2 Hp) as [(y & Hy & Hp' & _)|(-> & Hc' & Er & _)];
    apply thread_after in H1 as [[-> ->]|[[Hne H1]|(-> & Hne & H1)]]; simpl in *;
    try (apply spawn_quiet in H1; destruct H1 as (_ & _ & H1); congruence).
  - destruct Hcu as [p' m' sp _ _ _ _ _ Hk|m' E|c' ch sub' m' Hch Es _ _|q pol m' E|sub' pol ch m' _ _ E|sub' z k m' Ep E Hj];
      simpl in Hc; try done.
    + eapply (th_unmade _ K t th c); [done| |done|done].
      unfold creates_ok in Hk. by rewrite Hc in Hk.
    + injection Hc as <-. apply (th_job _ K _ _ _ Hy) in Hp'. lia.
  - by eapply (th_unmade _ K t1 x1).
  - by rewrite Er in Hc.
  - apply Hne. by eapply (inv_creates _ _ I t1 t).
Qed.

Lemma threads_ok_update : threads_ok s'.
Proof.
  split.
  - apply exited_step.
  - apply job_step.
  - apply custody_step.
  - apply subscription_step.
  - apply gone_step.
  - apply alone_step.
  - apply unmade_step.
  - apply running_step.
  - intros t' x w Hx E. apply thread_after in Hx as [[-> ->]|[[Hne Hx]|(-> & Hne & Hx)]]; simpl in *.
    + by apply joinable_step, (th_running _ K), (st_queue _ _ _ _ _ _ _ Hst).
    + by eapply joinable_step, (th_queue _ K).
    + destruct Hcu as [p' m' sp _ _ _ _ _ _ Hpw| | | | |]; simplify_eq/=.
      by rewrite (Hpw x) in E.
  - intros t' x w Hx E. apply thread_after in Hx as [[-> ->]|[[Hne Hx]|(-> & Hne & Hx)]]; simpl in *.
    + apply (st_join _ _ _ _ _ _ _ Hst) in E as [E Hr].
      split; [|done]. by eapply joinable_step, (th_queue _ K).
    + destruct (th_join _ K _ _ _ Hx E) as [? Hr]. split; [by apply joinable_step|].
      by apply (st_stopping _ _ _ _ _ _ _ Hst).
    + destruct Hcu as [p' m' sp _ _ _ _ _ _ Hpw| | | | |]; simplify_eq/=.
      by rewrite (Hpw x) in E.
  - apply staffed_step.
Qed.

End Step.

Lemma threads_ok_step s t a s' es :
  inv s -> threads_ok s -> step pw stored_size t a s = Done (Some (s', es)) -> threads_ok s'.
Proof.
  intros I K. unfold step. destruct (threads s !! t) as [th|] eqn:Ht; [|done].
  destruct (thread_step _ _ _ _ _ _ _) as [[r|]| |] eqn:Er; simpl; try done. intros [= <- <-].
  apply threads_ok_update; try done; [by eapply thread_step_staffing|by eapply channel_step_custody].
Qed.

Lemma threads_ok_initial limits n : threads_ok (initial limits n).
Proof.
  assert (forall t th, replicate n (Thread None Idle) !! t = Some th -> th = Thread None Idle)
    as Hidle by by intros t th [-> _]%lookup_replicate.
  split; simpl; try done.
  - intros t. split; [by intros ?%elem_of_nil|]. intros (th & Hth & E). by rewrite (Hidle _ _ Hth) in E.
  - intros t th c Hth. by rewrite (Hidle _ _ Hth).
  - intros t th sub t' th' Hth. by rewrite (Hidle _ _ Hth).
  - intros t th c t' th' Hth. by rewrite (Hidle _ _ Hth).
  - intros t th c t' th' Hth. by rewrite (Hidle _ _ Hth).
  - intros t th c t' th' Hth. by rewrite (Hidle _ _ Hth).
  - intros t th w Hth. by rewrite (Hidle _ _ Hth).
  - intros t th w Hth. by rewrite (Hidle _ _ Hth).
  - intros [?|[?|(t & th & q & Hth & E)]]; [done..|]. by rewrite (Hidle _ _ Hth) in E.
Qed.

End Threads.

End ChannelThreads.
