(* ===== verification/ChannelHistory.v ===== *)
(** * What an RTD channel delivers

    Histories of runs of Channel.v: the values admitted to a channel and the
    values handed to the RTD storage.  While a channel is open nothing is lost
    or reordered between the two, up to the coalescing a [Latest] channel
    promises; a closed channel has delivered a part of what it admitted. *)

From stdpp Require Import functions.
From S2P Require Import Prelude SealableCounter Names Errors Utf16 Budget Channel.
From S2P Require Import ChannelInvariant ChannelSteps ChannelShapes.
Import SealableCounter.Transitions Errors Budget Accounts.

Local Open Scope Z_scope.

Module ChannelHistory.
Import Str Channel ChannelInvariant ChannelSteps ChannelShapes.

(** ** Histories *)

Definition entry (c : nat) (e : event) : list StoredRtdValue :=
  match e with
  | Accepted c' vs => if decide (c' = c) then vs else []
  | Terminal c' x => if decide (c' = c) then [Stored (ErrorValue x)] else []
  | Delivered _ _ => []
  end.

Definition handed (c : nat) (e : event) : list StoredRtdValue :=
  match e with Delivered c' v => if decide (c' = c) then [v] else [] | _ => [] end.

(** The values admitted to a channel, a producer's final error included, and
    the values delivered from it. *)
Definition entries (c : nat) (tr : list event) : list StoredRtdValue := tr ≫= entry c.
Definition delivered (c : nat) (tr : list event) : list StoredRtdValue := tr ≫= handed c.

Definition inflights (c : nat) (ts : list thread) : list StoredRtdValue :=
  ts ≫= (fun th => inflight c (at_pc th)).

(** What has left the queue or still waits, in order. *)
Definition line (c : nat) (tr : list event) (ts : list thread) (ch : Chan)
  : list StoredRtdValue :=
  delivered c tr ++ inflights c ts ++ queued (state ch) ++ error_values (terminal_error (state ch)).

(** A channel that has discarded values, or is about to. *)
Definition lossy (c : nat) (ts : list thread) (ch : Chan) : Prop :=
  stopping (state ch) = true
  \/ exists t th, ts !! t = Some th /\ failing (at_pc th) = Some c.

(** A FIFO channel keeps everything in order; a [Latest] channel may drop
    values that a later one replaced. *)
Definition preserves (d : RtdDelivery) (admitted kept : list StoredRtdValue) : Prop :=
  match d with
  | Fifo _ => kept = admitted
  | Latest => kept `sublist_of` admitted /\ last kept = last admitted
  end.

Definition part_of (d : RtdDelivery) (admitted kept : list StoredRtdValue) : Prop :=
  match d with
  | Fifo _ => kept `prefix_of` admitted
  | Latest => kept `sublist_of` admitted
  end.

Record chan_history (tr : list event) (ts : list thread) (c : nat) (ch : Chan) : Prop := ChanHistory {
  history_part : part_of (delivery ch) (entries c tr) (delivered c tr);
  history_line : ~ lossy c ts ch -> preserves (delivery ch) (entries c tr) (line c tr ts ch);
}.

(** ** Producers complete once *)
Definition unfinished (c : nat) (th : thread) : nat :=
  (if decide (creates (at_pc th) = Some c) then 1 else 0)
  + (if decide (fst <$> job th = Some c) then if completed (at_pc th) then 0 else 1 else 0).

Definition makers (c : nat) (ts : list thread) : nat := sum_list_with (unfinished c) ts.

Record history (tr : list event) (s : config) : Prop := History {
  history_chan : forall c ch, channels (mem s) !! c = Some ch -> chan_history tr (threads s) c ch;
  history_fresh : forall c, (length (channels (mem s)) <= c)%nat ->
    entries c tr = [] /\ delivered c tr = [] /\ makers c (threads s) = 0%nat;
  history_makers : forall c, (makers c (threads s) <= 1)%nat;
  history_job : forall t th c, threads s !! t = Some th -> completing (at_pc th) = Some c ->
    fst <$> job th = Some c;
  history_terminal : forall c ch, channels (mem s) !! c = Some ch ->
    terminal_error (state ch) <> None -> makers c (threads s) = 0%nat;
}.

(** ** Lemmas on lists *)

Lemma preserves_part d admitted kept rest :
  preserves d admitted (kept ++ rest) -> part_of d admitted kept.
Proof.
  destruct d; simpl.
  - intros <-. by apply prefix_app_r.
  - intros [H _]. etrans; [|exact H]. by apply sublist_inserts_r.
Qed.

Lemma part_of_app d admitted kept more :
  part_of d admitted kept -> part_of d (admitted ++ more) kept.
Proof.
  destruct d; simpl; [intros; by apply prefix_app_r|]. intros H. etrans; [exact H|].
  by apply sublist_inserts_r.
Qed.

Lemma preserves_app d admitted kept more :
  preserves d admitted kept -> preserves d (admitted ++ more) (kept ++ more).
Proof.
  destruct d; simpl; [by intros ->|]. intros [H1 H2]. split.
  - by apply sublist_app.
  - destruct more as [|x more] using rev_ind; [by rewrite !app_nil_r|].
    by rewrite !app_assoc, !last_snoc.
Qed.

(** Coalescing: the waiting value gives way to the last of the new ones. *)
Lemma preserves_replace admitted kept old new v :
  preserves Latest admitted (kept ++ old) -> last new = Some v ->
  preserves Latest (admitted ++ new) (kept ++ [v]).
Proof.
  intros [H _] [l ->]%last_Some. split.
  - apply sublist_app; [etrans; [|exact H]; by apply sublist_inserts_r|].
    by apply sublist_inserts_l.
  - by rewrite app_assoc, !last_snoc.
Qed.

Lemma entries_app c tr es : entries c (tr ++ es) = entries c tr ++ entries c es.
Proof. apply bind_app. Qed.

Lemma delivered_app c tr es : delivered c (tr ++ es) = delivered c tr ++ delivered c es.
Proof. apply bind_app. Qed.

(** ** Values in flight *)

Lemma inflights_update c ts t th x spawn :
  ts !! t = Some th -> inflight c (at_pc x) = inflight c (at_pc th) ->
  (forall y, spawn = Some y -> inflight c (at_pc y) = []) ->
  inflights c (<[t := x]> ts ++ option_list spawn) = inflights c ts.
Proof.
  intros Ht Hx Hs. unfold inflights. rewrite bind_app.
  assert (option_list spawn ≫= (fun th => inflight c (at_pc th)) = []) as ->.
  { destruct spawn as [y|]; [|done]. simpl. by rewrite Hs. }
  rewrite app_nil_r. revert t Ht. induction ts as [|y ts IH]; intros [|t] Ht; simplify_eq/=.
  - by rewrite Hx.
  - by rewrite (IH t).
Qed.

Lemma inflights_only c ts t th :
  ts !! t = Some th ->
  (forall t' th', t' <> t -> ts !! t' = Some th' -> inflight c (at_pc th') = []) ->
  inflights c ts = inflight c (at_pc th).
Proof.
  unfold inflights. revert t. induction ts as [|y ts IH]; intros [|t] Ht Ho; simplify_eq/=.
  - assert (ts ≫= (fun th => inflight c (at_pc th)) = []) as ->; [|by rewrite app_nil_r].
    apply elem_of_nil_inv. intros v (th' & Hv & [i Hi]%list_elem_of_lookup)%list_elem_of_bind.
    rewrite (Ho (S i) th') in Hv by done. by apply elem_of_nil in Hv.
  - rewrite (Ho 0%nat y) by done. simpl. apply (IH t); [done|]. intros t' th' Hne. apply (Ho (S t')).
    congruence.
Qed.

Section History.
Context (pw : pointer_width) (stored_size : Z).
Context (Hsize : 0 <= stored_size <= 65536).
Abbreviation inv := (inv stored_size).

(** ** Producers *)

Lemma makers_update c ts t th p' spawn :
  ts !! t = Some th ->
  (makers c (<[t := Thread (job th) p']> ts ++ option_list spawn) + unfinished c th
   = makers c ts + unfinished c (Thread (job th) p')
     + sum_list_with (unfinished c) (option_list spawn))%nat.
Proof.
  intros Ht. unfold makers. rewrite sum_list_with_app.
  pose proof (sum_list_with_insert (unfinished c) ts t th (Thread (job th) p') Ht). lia.
Qed.

Lemma unfinished_le c j p p' :
  creates_ok p p' -> (completed p = true -> completed p' = true) ->
  (unfinished c (Thread j p') <= unfinished c (Thread j p))%nat.
Proof.
  unfold unfinished, creates_ok. simpl. intros Hc Hd.
  assert ((if decide (creates p' = Some c) then 1 else 0)
    <= (if decide (creates p = Some c) then 1 else 0))%nat as H1.
  { destruct (decide (creates p' = Some c)) as [E|]; [|lia]. rewrite E in Hc.
    by rewrite decide_True. }
  destruct (decide (fst <$> j = Some c)); [|lia].
  destruct (completed p); [rewrite Hd by done; lia|].
  destruct (completed p'); lia.
Qed.

(** Who may still complete a channel after a step. *)
Lemma makers_shape s t th p' m' spawn es c :
  threads s !! t = Some th -> shape (job th) t (length (threads s)) (at_pc th) (mem s) p' m' spawn es ->
  let ts' := <[t := Thread (job th) p']> (threads s) ++ option_list spawn in
  (makers c ts' <= makers c (threads s))%nat
  \/ (c = length (channels (mem s)) /\ length (channels m') = S c
      /\ makers c ts' <= S (makers c (threads s)))%nat.
Proof.
  intros Ht Hsh ts'. pose proof (makers_update c _ _ _ p' spawn Ht) as U. fold ts' in U.
  assert (th = Thread (job th) (at_pc th)) as Eth by by destruct th.
  assert (spawn = None -> creates_ok (at_pc th) p' ->
    (completed (at_pc th) = true -> completed p' = true) ->
    (makers c ts' <= makers c (threads s))%nat) as Hle.
  { intros -> H1 H2. pose proof (unfinished_le c (job th) _ _ H1 H2) as L.
    rewrite <- Eth in L. simpl in U. lia. }
  assert (forall p, creates p = None -> creates_ok (at_pc th) p) as Hnone
    by (unfold creates_ok; by intros p ->).
  destruct Hsh as [p' m' _ _ P|c' r pol E _|c' ch ch' vs v g bp q p' m' E _ _ _ _ _ _ _ Q D
    |k c' ch ch' vs new b bp w m' E|c' ch ch' k m' E|c' ch k p' m' E _ _ _ _ R
    |c' k p' m' E _ _ Q D|c' ch ch' k p' m' E _ _ _ _ _ _ _ _ _ _ D K _
    |c' ch ch' r pol m' es E|c' cs m' E|m' E|c' ch ch' batch permit m' E
    |c' ch v vs permit E|c' ch vs permit r E|c' ch ch' requeue m' E|q m' E _|q m' E C|sub pol p' m' E _ _ E'|w m' E];
    try (left; apply Hle; [done|by apply Hnone|by rewrite E]).
  - left. apply Hle; [done|apply P|]. by rewrite (same_completed _ _ P).
  - left. apply Hle; [done|apply Hnone, Q|by rewrite E].
  - left. destruct k; injection R as <- <-; (apply Hle; [done|by apply Hnone|by rewrite E]).
  - left. apply Hle; [done|apply Hnone, Q|by rewrite D].
  - left. apply Hle; [done| |by rewrite E].
    unfold publish_return. case_match; by apply Hnone.
  - left. apply Hle; [done| |by rewrite E]. destruct requeue; by apply Hnone.
  - left. enough (unfinished c (Thread (job th) (SubAttach q))
      + sum_list_with (unfinished c) [Thread None PubWait] <= unfinished c th)%nat
      by (unfold ts' in *; simpl in *; lia).
    rewrite Eth, E. unfold unfinished. simpl. lia.
  - set (sub := Subscribed _ _ _) in *.
    assert (unfinished c (Thread (job th) (SubFactory sub (rq_policy q)))
      = unfinished c th + if decide (c = length (channels (mem s))) then 1 else 0)%nat as L.
    { rewrite Eth, E. unfold unfinished. simpl.
      destruct (decide (Some (length (channels (mem s))) = Some c)), (decide (c = length (channels (mem s))));
        try congruence; lia. }
    rewrite C, length_app. simpl.
    case_decide; [right|left]; unfold ts' in *; simpl in *; lia.
  - left. enough (unfinished c (Thread (job th) (Returned (SubscribeOk (s_channel sub))))
      + sum_list_with (unfinished c) [Thread (Some (s_channel sub, pol)) Idle]
      <= unfinished c th)%nat by (subst p'; unfold ts' in *; simpl in *; lia).
    rewrite Eth, E. unfold unfinished. simpl. repeat case_decide; try done; lia.
Qed.

(** ** One channel *)

Lemma lossy_update ts t th p' spawn c ch ch' :
  ts !! t = Some th -> (stopping (state ch) = true -> stopping (state ch') = true) ->
  (failing (at_pc th) = Some c -> failing p' = Some c \/ stopping (state ch') = true) ->
  lossy c ts ch -> lossy c (<[t := Thread (job th) p']> ts ++ option_list spawn) ch'.
Proof.
  intros Ht Hs Hf [H|(t' & th' & Ht' & H)]; [left; auto|].
  destruct (decide (t' = t)) as [->|Hne].
  - simplify_eq. destruct (Hf H) as [H'|H']; [right|by left]. exists t, (Thread (job th) p').
    rewrite (threads_lookup _ _ _ _ _ _ Ht), decide_True by done. done.
  - right. exists t', th'. rewrite (threads_lookup _ _ _ _ _ _ Ht), decide_False by done.
    rewrite decide_False; [done|]. apply lookup_lt_Some in Ht'. lia.
Qed.

(** A channel a step does not concern. *)
Lemma history_frame tr es ts ts' c ch ch' :
  chan_history tr ts c ch -> delivery ch' = delivery ch ->
  queued (state ch') = queued (state ch) ->
  terminal_error (state ch') = terminal_error (state ch) ->
  inflights c ts' = inflights c ts -> entries c es = [] -> delivered c es = [] ->
  (lossy c ts ch -> lossy c ts' ch') -> chan_history (tr ++ es) ts' c ch'.
Proof.
  intros [Hp Hl] Ed Eq Et Ei Ee Edl Hlossy. split; rewrite Ed, entries_app, Ee, app_nil_r.
  - by rewrite delivered_app, Edl, app_nil_r.
  - unfold line. rewrite delivered_app, Edl, app_nil_r, Eq, Et, Ei. auto.
Qed.

(** A channel that discards what it holds keeps what it delivered. *)
Lemma history_lossy tr ts ts' c ch ch' :
  chan_history tr ts c ch -> delivery ch' = delivery ch -> lossy c ts' ch' ->
  chan_history tr ts' c ch'.
Proof. intros [Hp Hl] Ed Hlossy. split; rewrite Ed; [done|]. by intros []. Qed.

(** Only one thread has values of a channel in flight. *)
Lemma inflights_owner s t th c ch :
  inv s -> threads s !! t = Some th -> channels (mem s) !! c = Some ch ->
  owns_publication (at_pc th) = Some c -> inflights c (threads s) = inflight c (at_pc th).
Proof.
  intros I Ht Hc O. apply (inflights_only _ _ t); [done|]. intros t' th' Hne Ht'.
  apply (proj1 (inv_publication_lock _ _ I _ _ Hc) _ _ Ht) in O.
  destruct (at_pc th') eqn:E; try done. simpl. case_decide; [|done]. subst.
  assert (owns_publication (at_pc th') = Some c) as O' by by rewrite E.
  apply (proj1 (inv_publication_lock _ _ I _ _ Hc) _ _ Ht') in O'. congruence.
Qed.

Lemma owner_not_failing s t th c ch :
  inv s -> threads s !! t = Some th -> channels (mem s) !! c = Some ch ->
  owns_publication (at_pc th) = Some c -> failing (at_pc th) = None ->
  forall t' th', threads s !! t' = Some th' -> failing (at_pc th') <> Some c.
Proof.
  intros I Ht Hc O Hf t' th' Ht' F.
  assert (owns_publication (at_pc th') = Some c) as O'.
  { destruct (at_pc th'); try done; try destruct r; try destruct k; simpl in *; try done; by simplify_eq. }
  apply (proj1 (inv_publication_lock _ _ I _ _ Hc) _ _ Ht) in O.
  apply (proj1 (inv_publication_lock _ _ I _ _ Hc) _ _ Ht') in O'. congruence.
Qed.

(** The line of a channel after the step of its publisher. *)
Lemma inflights_owner_update s t th c ch p' :
  inv s -> threads s !! t = Some th -> channels (mem s) !! c = Some ch ->
  owns_publication (at_pc th) = Some c ->
  inflights c (<[t := Thread (job th) p']> (threads s) ++ option_list None) = inflight c p'.
Proof.
  intros I Ht Hc O. rewrite app_nil_r.
  apply (inflights_only c _ t (Thread (job th) p')).
  { apply list_lookup_insert_eq. by eapply lookup_lt_Some. }
  intros t' th' Hne. rewrite list_lookup_insert_ne by done. intros Ht'.
  apply (proj1 (inv_publication_lock _ _ I _ _ Hc) _ _ Ht) in O.
  destruct (at_pc th') eqn:E; try done. simpl. case_decide; [|done]. subst.
  assert (owns_publication (at_pc th') = Some c) as O' by by rewrite E.
  apply (proj1 (inv_publication_lock _ _ I _ _ Hc) _ _ Ht') in O'. congruence.
Qed.

(** ** Steps on the channel itself *)
Section Step.
Context (s : config) (tr : list event) (t : nat) (th : thread) (c : nat) (ch ch' : Chan) (p' : pc).
Context (I : inv s) (Ht : threads s !! t = Some th) (Hc : channels (mem s) !! c = Some ch).
Context (H : chan_history tr (threads s) c ch) (Ed : delivery ch' = delivery ch).
Let ts' : list thread := <[t := Thread (job th) p']> (threads s) ++ option_list None.

Lemma accepted_entries vs : entries c [Accepted c vs] = vs /\ delivered c [Accepted c vs] = [].
Proof. unfold entries, delivered. simpl. by rewrite decide_True, app_nil_r. Qed.

Lemma accepting_no_terminal :
  accepting (state ch) = true -> terminal_error (state ch) = None /\ stopping (state ch) = false.
Proof.
  intros Ha. pose proof (inv_chan _ _ I _ _ Hc) as [_ _ _ _ _ Hs Htm _ _ _ _]. split.
  - destruct (terminal_error (state ch)); [|done]. rewrite Htm in Ha; done.
  - destruct (stopping (state ch)); [|done]. by destruct Hs as [? _]; [|congruence].
Qed.

Lemma history_advance es :
  part_of (delivery ch) (entries c tr ++ entries c es) (delivered c tr ++ delivered c es) ->
  (stopping (state ch) = true -> stopping (state ch') = true) ->
  (failing (at_pc th) = Some c -> failing p' = Some c \/ stopping (state ch') = true) ->
  (~ lossy c (threads s) ch -> preserves (delivery ch) (entries c tr) (line c tr (threads s) ch) ->
   preserves (delivery ch) (entries c tr ++ entries c es)
     ((delivered c tr ++ delivered c es) ++ inflights c ts' ++ queued (state ch')
        ++ error_values (terminal_error (state ch')))) ->
  chan_history (tr ++ es) ts' c ch'.
Proof using H Ht Ed.
  intros Hp Hs Hf Hl. split; rewrite Ed, entries_app, ?delivered_app; [done|].
  unfold line. rewrite delivered_app. intros Hnl. apply Hl; [|apply H]; intros HL;
    apply Hnl; by apply (lossy_update _ _ _ _ _ _ ch).
Qed.

Lemma history_replace vs v growth bp q :
  at_pc th = SendReplace c vs v growth bp -> set_back v (queued (state ch)) = Done q ->
  queued (state ch') = q -> terminal_error (state ch') = terminal_error (state ch) ->
  stopping (state ch') = stopping (state ch) -> silent p' ->
  chan_history (tr ++ [Accepted c vs]) ts' c ch'.
Proof using H Hc Ht I Ed.
  intros E Eq Eq' Et Es Hsil. destruct (accepted_entries vs) as [Ee Edl].
  pose proof (local_at _ _ _ _ c ch I Ht ltac:(by rewrite E) Hc) as L. rewrite E in L.
  destruct L as ((Hd & Hne & Ha & Hlast & _) & _ & _).
  destruct (accepting_no_terminal Ha) as [Etm Est].
  pose proof (ok_capacity _ _ _ (inv_chan _ _ I _ _ Hc) Hne) as Hcap. rewrite Hd in Hcap.
  simpl in Hcap. destruct (queued (state ch)) as [|x [|y l]] eqn:Eqd; [done| |simpl in Hcap; lia].
  injection Eq as <-. apply history_advance; rewrite ?Ee, ?Edl, ?app_nil_r;
    [apply part_of_app, H|by rewrite Es|by rewrite E|].
  intros _ Hl. unfold line, ts' in *. rewrite Eq', Et, Etm, Eqd in *.
  rewrite (inflights_update _ _ _ th) by (try done; rewrite E; apply Hsil).
  rewrite Hd in *. simpl error_values in *. rewrite app_nil_r in *. simpl in *.
  rewrite app_assoc in *. by eapply preserves_replace.
Qed.

Lemma history_install k vs new b bp w :
  at_pc th = SendInstall k c vs new b bp -> p' = SendUnlock c SendOk w ->
  queued (state ch') = queued (state ch) ++ new ->
  terminal_error (state ch') = terminal_error (state ch) ->
  stopping (state ch') = stopping (state ch) ->
  chan_history (tr ++ [Accepted c vs]) ts' c ch'.
Proof using H Hc Ht I Ed.
  intros E Ep Eq Et Es. destruct (accepted_entries vs) as [Ee Edl].
  pose proof (local_at _ _ _ _ c ch I Ht ltac:(by rewrite E) Hc) as L. rewrite E in L.
  destruct L as ((Ha & _ & _ & _ & Hd) & _).
  destruct (accepting_no_terminal Ha) as [Etm Est].
  apply history_advance; rewrite ?Ee, ?Edl, ?app_nil_r;
    [apply part_of_app, H|by rewrite Es|by rewrite E|].
  intros _ Hl. unfold line, ts' in *. rewrite Eq, Et, Etm in *.
  rewrite (inflights_update _ _ _ th) by (try done; rewrite E; by subst p').
  simpl error_values in *. rewrite app_nil_r in *.
  rewrite !app_assoc in *. destruct (delivery ch).
  - destruct Hd as [-> _]. by apply (preserves_app (Fifo capacity0)).
  - destruct Hd as (Eqd & v & -> & Hlast). rewrite Eqd in *. rewrite app_nil_r in *.
    apply (preserves_replace _ _ []); [by rewrite app_nil_r|done].
Qed.

Lemma history_complete r pol e :
  at_pc th = Complete c r pol -> p' = Schedule c AfterComplete ->
  queued (state ch') = queued (state ch) -> terminal_error (state ch) = None ->
  terminal_error (state ch') = Some e -> stopping (state ch') = stopping (state ch) ->
  chan_history (tr ++ [Terminal c e]) ts' c ch'.
Proof using H Ht Ed.
  intros E Ep Eq Et Et' Es.
  assert (entries c [Terminal c e] = [Stored (ErrorValue e)] /\ delivered c [Terminal c e] = [])
    as [Ee Edl] by (unfold entries, delivered; simpl; by rewrite decide_True).
  apply history_advance; rewrite ?Ee, ?Edl, ?app_nil_r;
    [apply part_of_app, H|by rewrite Es|by rewrite E|].
  intros _ Hl. unfold line, ts' in *. rewrite Eq, Et, Et' in *.
  rewrite (inflights_update _ _ _ th) by (try done; rewrite E; by subst p').
  simpl error_values in *. rewrite app_nil_r in Hl. rewrite !app_assoc in *.
  by apply preserves_app.
Qed.

Lemma history_take batch permit :
  at_pc th = PubTake c -> p' = PubPublish c batch permit ->
  batch ++ queued (state ch') ++ error_values (terminal_error (state ch'))
    = queued (state ch) ++ error_values (terminal_error (state ch)) ->
  stopping (state ch') = stopping (state ch) -> chan_history (tr ++ []) ts' c ch'.
Proof using H Hc Ht I Ed.
  intros E Ep Eq Es.
  apply history_advance; rewrite ?app_nil_r; [apply H|by rewrite Es|by rewrite E|].
  intros _ Hl. unfold line, ts' in *.
  rewrite (inflights_owner_update s t th c ch) by (try done; by rewrite E).
  rewrite (inflights_owner s t th c ch) in Hl by (try done; by rewrite E).
  rewrite E in Hl. simpl in Hl. subst p'. simpl. rewrite decide_True by done. by rewrite Eq.
Qed.

Lemma history_deliver v vs permit :
  at_pc th = PubPublish c (v :: vs) permit -> p' = PubPublish c vs permit -> ch' = ch ->
  stopping_flag ch = false -> chan_history (tr ++ [Delivered c v]) ts' c ch'.
Proof using H Hc Ht I Ed.
  intros E Ep Ech Es.
  assert (entries c [Delivered c v] = [] /\ delivered c [Delivered c v] = [v])
    as [Ee Edl] by (unfold entries, delivered; simpl; by rewrite decide_True).
  assert (~ lossy c (threads s) ch) as Hnl.
  { rewrite (ok_stopping _ _ _ (inv_chan _ _ I _ _ Hc)) in Es. intros [K|(t' & th' & Ht' & K)];
      [congruence|].
    by apply (owner_not_failing s t th c ch I Ht Hc ltac:(by rewrite E) ltac:(by rewrite E) t' th'). }
  assert (preserves (delivery ch) (entries c tr)
    ((delivered c tr ++ [v]) ++ inflights c ts' ++ queued (state ch)
     ++ error_values (terminal_error (state ch)))) as Hl.
  { pose proof (history_line _ _ _ _ H Hnl) as Hl. unfold line, ts' in *.
    rewrite (inflights_owner_update s t th c ch) by (try done; by rewrite E).
    rewrite (inflights_owner s t th c ch) in Hl by (try done; by rewrite E).
    rewrite E in Hl. subst p'. simpl in *. rewrite decide_True in * by done.
    by rewrite <- app_assoc. }
  apply history_advance; rewrite ?Ech, ?Ee, ?Edl, ?app_nil_r; [|done|by rewrite E|done].
  by eapply preserves_part.
Qed.

Lemma history_return vs permit r :
  at_pc th = PubPublish c vs permit -> p' = publish_return c permit r -> ch' = ch ->
  (vs = [] /\ r = Ok tt \/ is_err r = true \/ stopping_flag ch = true /\ r = Ok tt) ->
  chan_history (tr ++ []) ts' c ch'.
Proof using H Hc Ht I.
  intros E Ep Ech Hr. rewrite Ech, app_nil_r.
  assert (inflight c p' = []) as Hin by (subst p'; unfold publish_return; by case_match).
  destruct Hr as [[-> ->]|[Hr|[Hr _]]].
  - rewrite <- (app_nil_r tr). eapply history_frame; try done.
    + unfold ts'. apply (inflights_update _ _ _ th); try done. simpl. rewrite E, Hin. simpl.
      by case_decide.
    + apply (lossy_update _ _ _ _ _ _ ch); [done|done|by rewrite E].
  - eapply history_lossy; [done..|]. right. exists t, (Thread (job th) p').
    unfold ts'. rewrite (threads_lookup _ _ _ _ _ _ Ht), decide_True by done. split; [done|].
    subst p'. simpl. unfold publish_return. destruct r; [done|]. by case_match.
  - eapply history_lossy; [done..|]. left.
    by rewrite (ok_stopping _ _ _ (inv_chan _ _ I _ _ Hc)) in Hr.
Qed.

End Step.

(** A channel whose queue a step leaves alone. *)
Lemma history_same s tr es t th p' spawn c ch ch' :
  threads s !! t = Some th -> chan_history tr (threads s) c ch ->
  delivery ch' = delivery ch -> queued (state ch') = queued (state ch) ->
  terminal_error (state ch') = terminal_error (state ch) ->
  stopping (state ch') = stopping (state ch) ->
  inflight c p' = inflight c (at_pc th) ->
  (forall y, spawn = Some y -> inflight c (at_pc y) = []) ->
  (failing (at_pc th) = Some c -> failing p' = Some c) ->
  entries c es = [] -> delivered c es = [] ->
  chan_history (tr ++ es) (<[t := Thread (job th) p']> (threads s) ++ option_list spawn) c ch'.
Proof.
  intros Ht H Ed Eq Et Es Ei Hs Hf Ee Edl. eapply history_frame; try done.
  - by apply (inflights_update _ _ _ th).
  - apply (lossy_update _ _ _ _ _ _ ch); [done|by rewrite Es|auto].
Qed.

Lemma other_events c c' e :
  c' <> c -> (exists vs, e = Accepted c' vs) \/ (exists x, e = Terminal c' x)
             \/ (exists v, e = Delivered c' v) ->
  entries c [e] = [] /\ delivered c [e] = [].
Proof.
  unfold entries, delivered. intros Hne [[vs ->]|[[x ->]|[v ->]]]; simpl;
    by rewrite decide_False.
Qed.

Lemma inflight_other c c' p : c' <> c -> mentions p = Some c' -> inflight c p = [].
Proof. intros Hne. destruct p; try done. simpl. intros [= ->]. by rewrite decide_False. Qed.

Lemma failing_other c c' p : c' <> c -> mentions p = Some c' -> failing p <> Some c.
Proof.
  intros Hne Hm F. apply Hne. destruct p; try done; try destruct r; try destruct k; simpl in *; try done; congruence.
Qed.

(** A step about one channel leaves the histories of the others alone. *)
Lemma history_moved s tr es t th p' m' c0 ch0 ch0' :
  threads s !! t = Some th ->
  (forall c ch, channels (mem s) !! c = Some ch -> chan_history tr (threads s) c ch) ->
  channels (mem s) !! c0 = Some ch0 -> channels m' = <[c0 := ch0']> (channels (mem s)) ->
  mentions (at_pc th) = Some c0 ->
  (forall c, c <> c0 -> inflight c p' = [] /\ entries c es = [] /\ delivered c es = []) ->
  let ts' := <[t := Thread (job th) p']> (threads s) ++ option_list None in
  chan_history (tr ++ es) ts' c0 ch0' ->
  forall c ch', channels m' !! c = Some ch' -> chan_history (tr ++ es) ts' c ch'.
Proof.
  intros Ht H Hc Em Hm Ho ts' H0 c ch'. rewrite Em. destruct (decide (c = c0)) as [->|Hne].
  - rewrite list_lookup_insert_eq by by eapply lookup_lt_Some. by intros [= <-].
  - rewrite list_lookup_insert_ne by done. intros Hch. destruct (Ho c Hne) as (Hi & He & Hd).
    eapply history_same; try done; [by apply H| |].
    + by rewrite Hi, (inflight_other c c0).
    + intros F. by apply (failing_other c c0) in F.
Qed.

Lemma quiet_events c : entries c [] = [] /\ delivered c [] = [].
Proof. done. Qed.

(** Steps that touch no queue. *)
Lemma history_unmoved s tr t th p' m' spawn :
  threads s !! t = Some th ->
  (forall c ch, channels (mem s) !! c = Some ch -> chan_history tr (threads s) c ch) ->
  (forall c ch', channels m' !! c = Some ch' -> exists ch, channels (mem s) !! c = Some ch
     /\ delivery ch' = delivery ch /\ queued (state ch') = queued (state ch)
     /\ terminal_error (state ch') = terminal_error (state ch)
     /\ stopping (state ch') = stopping (state ch)) ->
  (forall c, inflight c p' = inflight c (at_pc th)) ->
  (forall c, failing (at_pc th) = Some c -> failing p' = Some c) ->
  (forall y, spawn = Some y -> fresh_thread y) ->
  forall c ch', channels m' !! c = Some ch' ->
    chan_history (tr ++ []) (<[t := Thread (job th) p']> (threads s) ++ option_list spawn) c ch'.
Proof.
  intros Ht H Hm Hi Hf Hs c ch' Hc. destruct (Hm _ _ Hc) as (ch & Hch & ? & ? & ? & ?).
  eapply history_same; try done; [by apply H| |by apply Hf].
  intros y Hy. by destruct (Hs y Hy) as [->| ->].
Qed.

Lemma same_views_lookup (m m' : shared) c ch' :
  same_views m m' -> channels m' !! c = Some ch' -> exists ch, channels m !! c = Some ch
    /\ delivery ch' = delivery ch /\ queued (state ch') = queued (state ch)
    /\ terminal_error (state ch') = terminal_error (state ch)
    /\ stopping (state ch') = stopping (state ch).
Proof.
  intros V Hc. destruct (Forall2_lookup_r _ _ _ _ _ V Hc) as (ch & Hch & E1 & E2).
  exists ch. rewrite E1, E2. done.
Qed.

Lemma moved_lookup (m m' : shared) c0 ch0 ch0' c ch' :
  channels m !! c0 = Some ch0 -> channels m' = <[c0 := ch0']> (channels m) ->
  delivery ch0' = delivery ch0 -> queued (state ch0') = queued (state ch0) ->
  terminal_error (state ch0') = terminal_error (state ch0) ->
  stopping (state ch0') = stopping (state ch0) ->
  channels m' !! c = Some ch' -> exists ch, channels m !! c = Some ch
    /\ delivery ch' = delivery ch /\ queued (state ch') = queued (state ch)
    /\ terminal_error (state ch') = terminal_error (state ch)
    /\ stopping (state ch') = stopping (state ch).
Proof.
  intros Hc -> E1 E2 E3 E4. destruct (decide (c = c0)) as [->|Hne].
  - rewrite list_lookup_insert_eq by by eapply lookup_lt_Some. intros [= <-]. eauto 10.
  - rewrite list_lookup_insert_ne by done. eauto 10.
Qed.

Lemma unchanged_lookup (m m' : shared) c ch' :
  channels m' = channels m -> channels m' !! c = Some ch' -> exists ch, channels m !! c = Some ch
    /\ delivery ch' = delivery ch /\ queued (state ch') = queued (state ch)
    /\ terminal_error (state ch') = terminal_error (state ch)
    /\ stopping (state ch') = stopping (state ch).
Proof. intros ->. eauto 10. Qed.

(** A channel just attached has no history. *)
Lemma history_attach s tr t th p' m' q :
  inv s -> history tr s -> threads s !! t = Some th -> at_pc th = SubAttach q ->
  (forall c, inflight c p' = []) -> channels m' = channels (mem s) ++ [new_chan q] ->
  forall c ch', channels m' !! c = Some ch' ->
    chan_history (tr ++ []) (<[t := Thread (job th) p']> (threads s) ++ option_list None) c ch'.
Proof.
  intros I H Ht E Hi Em c ch'. rewrite Em. intros [Hc|[Hlen Hc]]%lookup_app_Some.
  - eapply history_same; try done; [by apply (history_chan _ _ H)| |by rewrite E].
    by rewrite Hi, E.
  - apply list_lookup_singleton_Some in Hc as [_ <-].
    destruct (history_fresh _ _ H c Hlen) as (Ee & Ed & _). rewrite app_nil_r.
    assert (inflights c (<[t:=Thread (job th) p']> (threads s) ++ option_list None) = []) as Hin.
    { rewrite (inflights_update _ _ _ th) by (try done; simpl; by rewrite Hi, E).
      unfold inflights. apply elem_of_nil_inv.
      intros v (th' & Hv & [i Hth]%list_elem_of_lookup)%list_elem_of_bind.
      destruct (at_pc th') eqn:E'; try (by apply elem_of_nil in Hv).
      simpl in Hv. case_decide; [|by apply elem_of_nil in Hv]. subst.
      destruct (in_range _ _ _ _ c I Hth) as [x Hx]; [by rewrite E'|].
      apply lookup_lt_Some in Hx. lia. }
    split; unfold line; rewrite Ee, Ed, ?Hin; simpl; destruct (rq_delivery q); simpl; done.
Qed.

Lemma history_chan_step s tr t th p' m' spawn es :
  inv s -> history tr s -> threads s !! t = Some th ->
  shape (job th) t (length (threads s)) (at_pc th) (mem s) p' m' spawn es ->
  forall c ch', channels m' !! c = Some ch' ->
    chan_history (tr ++ es) (<[t := Thread (job th) p']> (threads s) ++ option_list spawn) c ch'.
Proof.
  intros I H Ht Hsh. pose proof (history_chan _ _ H) as Hch.
  assert (forall c : nat, inflight c PubWait = []) as _ by done.
  destruct Hsh as [p' m' V _ P|c r pol E Hj|c ch ch' vs v g bp q p' m' E (Hc & Em & Ed) _ Eb Eq Et Es _ Q D
    |k c ch ch' vs new b bp w m' E (Hc & Em & Ed) _ Eq Et Es _
    |c ch ch' k m' E (Hc & Em & Ed) _ _ Est
    |c ch k p' m' E Hc Em _ _ R
    |c k p' m' E Em _ Q D
    |c ch ch' k p' m' E (Hc & Em & Ed) _ Eq Et Es _ _ _ Hi Hf
    |c ch ch' r pol m' es E (Hc & Em & Ed) _ Eq Es _ Het
    |c cs m' E Em _ _|m' E Em _ _
    |c ch ch' batch permit m' E (Hc & Em & Ed) _ Eq _ Es _
    |c ch v vs permit E Hc Hfl|c ch vs permit r E Hc Hr
    |c ch ch' requeue m' E (Hc & Em & Ed) _ Est _
    |q m' E Em _|q m' E Em _|sub pol p' m' E V _ E'|w m' E Em _].
  - eapply history_unmoved; try done; [intros c ch'; by apply same_views_lookup|apply P|].
    intros c. by rewrite (same_failing _ _ P).
  - eapply history_unmoved; try done; [|by rewrite E|by rewrite E]. intros c' x. by apply unchanged_lookup.
  - eapply history_moved; try done; [by rewrite E| |].
    + intros c' Hne. split; [apply Q|]. apply (other_events c' c); [done|]. left. by exists vs.
    + eapply history_replace; try done. by apply Hch.
  - eapply history_moved; try done; [by rewrite E| |].
    + intros c' Hne. split; [done|]. apply (other_events c' c); [done|]. left. by exists vs.
    + eapply history_install; try done. by apply Hch.
  - eapply history_unmoved; try done; [|by rewrite E|by rewrite E].
    intros c' x. eapply moved_lookup; try done; by rewrite Est.
  - destruct k; injection R as <- <-; (eapply history_unmoved; try done;
      [intros c' x; by apply unchanged_lookup|by rewrite E|by rewrite E]).
  - eapply history_unmoved; try done; [intros c' x; by apply unchanged_lookup| |by rewrite E].
    intros c'. rewrite E. apply Q.
  - eapply history_moved; try done; [by rewrite E|]. rewrite app_nil_r.
    eapply history_lossy; [by apply Hch|done|]. by left.
  - eapply history_moved; try done; [by rewrite E| |].
    + intros c' Hne. split; [done|]. destruct Het as [[-> _]|(e & -> & _)]; [done|].
      apply (other_events c' c); [done|]. right; left. by exists e.
    + destruct Het as [[-> Et]|(e & -> & Et & Hs)].
      * eapply history_same; try done; [by apply Hch|by rewrite E|by rewrite E].
      * eapply history_complete; try done; [by apply Hch|].
        destruct (terminal_error (state ch)) eqn:Et0; [|done].
        assert (makers c (threads s) = 0%nat) as Hm
          by (eapply history_terminal; [done..|by rewrite Et0]).
        pose proof (proj1 (sum_list_with_zero _ _) Hm _ _ Ht) as Hu. unfold unfinished in Hu.
        rewrite (decide_True (P := fst <$> job th = Some c)) in Hu
          by (eapply history_job; [done..|by rewrite E]).
        by rewrite E in Hu.
  - eapply history_unmoved; try done; [intros c' x; by apply unchanged_lookup|by rewrite E|by rewrite E].
  - eapply history_unmoved; try done; [intros c' x; by apply unchanged_lookup|by rewrite E|by rewrite E].
  - eapply history_moved; try done; [by rewrite E| |].
    + intros c' Hne. simpl. by rewrite decide_False.
    + eapply history_take; try done. by apply Hch.
  - eapply (history_moved _ _ _ _ _ _ _ c ch ch); try done; [by rewrite list_insert_id|by rewrite E| |].
    + intros c' Hne. split; [simpl; by rewrite decide_False|].
      apply (other_events c' c); [done|]. right; right. by exists v.
    + eapply history_deliver; try done. by apply Hch.
  - eapply (history_moved _ _ _ _ _ _ _ c ch ch); try done; [by rewrite list_insert_id|by rewrite E| |].
    + intros c' Hne. split; [|done]. unfold publish_return. by case_match.
    + eapply history_return; try done. by apply Hch.
  - eapply history_unmoved; try done.
    + intros c' x. eapply moved_lookup; try done; by rewrite Est.
    + intros c'. rewrite E. by destruct requeue.
    + by rewrite E.
  - eapply history_unmoved; try done; [intros c' x; by apply unchanged_lookup|by rewrite E|by rewrite E|].
    intros y [= <-]. by right.
  - by eapply history_attach.
  - eapply history_unmoved; try done; [intros c' x; by apply same_views_lookup| |by rewrite E|].
    + intros c'. by rewrite E, E'.
    + intros y [= <-]. by left.
  - eapply history_unmoved; try done; [intros c' x; by apply unchanged_lookup|by rewrite E|by rewrite E].
Qed.

(** ** Facts about one step *)

Lemma moved_terminal (m m' : shared) c0 ch0 ch0' c ch' :
  moved m m' c0 ch0 ch0' -> channels m' !! c = Some ch' -> terminal_error (state ch') <> None ->
  (c = c0 /\ terminal_error (state ch0') <> None)
  \/ exists ch, channels m !! c = Some ch /\ terminal_error (state ch) <> None.
Proof.
  intros (Hc & -> & _). destruct (decide (c = c0)) as [->|Hne].
  - rewrite list_lookup_insert_eq by by eapply lookup_lt_Some. intros [= <-]. by left.
  - rewrite list_lookup_insert_ne by done. eauto.
Qed.

(** A final error appears only when its producer completes. *)
Lemma terminal_shape j t n p m p' m' spawn es c ch' :
  shape j t n p m p' m' spawn es -> channels m' !! c = Some ch' ->
  terminal_error (state ch') <> None ->
  (exists ch, channels m !! c = Some ch /\ terminal_error (state ch) <> None)
  \/ (completing p = Some c /\ p' = Schedule c AfterComplete /\ spawn = None).
Proof.
  intros Hsh Hc Hne.
  destruct Hsh as [p' m' V _ P|c0 r pol E Hj|c0 ch ch0 vs v g bp q p' m' E M _ Eb Eq Et Es _ Q D
    |k c0 ch ch0 vs new b bp w m' E M _ Eq Et Es _
    |c0 ch ch0 k m' E M _ _ Est
    |c0 ch k p' m' E Hc0 Em _ _ R
    |c0 k p' m' E Em _ Q D
    |c0 ch ch0 k p' m' E M _ Eq Et Es _ _ _ Hi Hf
    |c0 ch ch0 r pol m' es E M _ Eq Es _ Het
    |c0 cs m' E Em _ _|m' E Em _ _
    |c0 ch ch0 batch permit m' E M _ Eq _ Es _ Htm
    |c0 ch v vs permit E Hc0 Hfl|c0 ch vs permit r E Hc0 Hr
    |c0 ch ch0 requeue m' E M _ Est _
    |q m' E Em _|q m' E Em _|sub pol p' m' E V _ E'|w m' E Em _];
    try (left; rewrite ?Em in Hc; by eauto).
  - left. destruct (same_views_lookup _ _ _ _ V Hc) as (ch & ? & _ & _ & E0 & _).
    rewrite E0 in Hne. eauto.
  - left. destruct (moved_terminal _ _ _ _ _ _ _ M Hc Hne) as [[-> K]|?]; [|done].
    destruct M as (? & _). rewrite Et in K. eauto.
  - left. destruct (moved_terminal _ _ _ _ _ _ _ M Hc Hne) as [[-> K]|?]; [|done].
    destruct M as (? & _). rewrite Et in K. eauto.
  - left. destruct (moved_terminal _ _ _ _ _ _ _ M Hc Hne) as [[-> K]|?]; [|done].
    destruct M as (? & _). rewrite Est in K. eauto.
  - left. destruct (moved_terminal _ _ _ _ _ _ _ M Hc Hne) as [[-> K]|?]; [|done]. congruence.
  - destruct (moved_terminal _ _ _ _ _ _ _ M Hc Hne) as [[-> K]|?]; [|by left].
    right. by rewrite E.
  - left. destruct (moved_terminal _ _ _ _ _ _ _ M Hc Hne) as [[-> K]|?]; [|done].
    destruct M as (Hch & _). eauto.
  - left. destruct (moved_terminal _ _ _ _ _ _ _ M Hc Hne) as [[-> K]|?]; [|done].
    destruct M as (? & _). rewrite Est in K. eauto.
  - left. rewrite Em in Hc. apply lookup_app_Some in Hc as [Hc|[_ Hc]]; [eauto|].
    apply list_lookup_singleton_Some in Hc as [_ <-]. done.
  - left. destruct (same_views_lookup _ _ _ _ V Hc) as (ch & ? & _ & _ & E0 & _).
    rewrite E0 in Hne. eauto.
Qed.

Lemma shape_length j t n p m p' m' spawn es :
  shape j t n p m p' m' spawn es -> (length (channels m) <= length (channels m'))%nat.
Proof.
  destruct 1; try done;
    repeat match goal with
           | V : same_views _ _ |- _ => apply Forall2_length in V; lia
           | M : moved _ _ _ _ _ |- _ => destruct M as (_ & -> & _); by rewrite length_insert
           | E : channels _ = channels _ |- _ => by rewrite E
           end.
  rewrite H0, length_app. lia.
Qed.

Lemma shape_events j t n p m p' m' spawn es c :
  shape j t n p m p' m' spawn es -> (length (channels m) <= c)%nat ->
  entries c es = [] /\ delivered c es = [].
Proof.
  intros Hsh Hlen.
  assert (forall c0 ch, channels m !! c0 = Some ch -> c0 <> c) as Hne
    by (intros c0 ch ?%lookup_lt_Some; lia).
  destruct Hsh as [| |c0 ch ch0 vs v g bp q p' m' E (Hc & _) _ Eb Eq Et Es _ Q D
    |k c0 ch ch0 vs new b bp w m' E (Hc & _)| | | | |c0 ch ch0 r pol m' es E (Hc & _) _ Eq Es _ Het
    | | | |c0 ch v vs permit E Hc Hfl| | | | | |]; try done.
  - apply (other_events c c0); [by eapply Hne|]. left. by exists vs.
  - apply (other_events c c0); [by eapply Hne|]. left. by exists vs.
  - destruct Het as [[-> _]|(e & -> & _)]; [done|].
    apply (other_events c c0); [by eapply Hne|]. right; left. by exists e.
  - apply (other_events c c0); [by eapply Hne|]. right; right. by exists v.
Qed.

Lemma shape_completing j t n p m p' m' spawn es c :
  shape j t n p m p' m' spawn es -> completing p' = Some c ->
  completing p = Some c \/ fst <$> j = Some c.
Proof.
  destruct 1; intros K; try done; try congruence.
  - left. by rewrite (same_completing _ _ H1) in K.
  - right. simpl in K. congruence.
  - match goal with R : resume _ _ _ = _ |- _ => destruct k; injection R as <- <-; done end.
  - unfold publish_return in K. by case_match.
  - by destruct requeue.
  - by subst.
Qed.

Lemma shape_spawn j t n p m p' m' spawn es x :
  shape j t n p m p' m' spawn es -> spawn = Some x -> fresh_thread x.
Proof. destruct 1; intros; simplify_eq; [by right|by left]. Qed.

(** ** Every run *)

Lemma history_step s tr t a s' es :
  inv s -> history tr s -> step pw stored_size t a s = Done (Some (s', es)) ->
  history (tr ++ es) s'.
Proof.
  intros I H. unfold step. destruct (threads s !! t) as [th|] eqn:Ht; [|done].
  destruct (thread_step _ _ _ _ _ _ _) as [[r|]| |] eqn:Er; simpl; try done. intros [= <- <-].
  pose proof (channel_step_shape pw stored_size s t th a r I Ht Er) as Hsh. unfold has_shape in Hsh.
  pose proof (fun c => makers_shape s t th _ _ _ _ c Ht Hsh) as Hmk. simpl in Hmk.
  pose proof (shape_length _ _ _ _ _ _ _ _ _ Hsh) as Hlen.
  split; simpl.
  - by eapply history_chan_step.
  - intros c Hc. destruct (history_fresh _ _ H c) as (Ee & Ed & Em); [lia|].
    destruct (shape_events _ _ _ _ _ _ _ _ _ c Hsh) as [Ee' Ed']; [lia|].
    rewrite entries_app, delivered_app, Ee, Ee', Ed, Ed'. split_and!; [done..|].
    destruct (Hmk c) as [K|(-> & K & _)]; lia.
  - intros c. pose proof (history_makers _ _ H c). destruct (Hmk c) as [K|(-> & _ & K)]; [lia|].
    destruct (history_fresh _ _ H (length (channels (mem s)))) as (_ & _ & Em); lia.
  - intros t' th' c. rewrite (threads_lookup _ _ _ _ _ _ Ht). case_decide.
    + intros [= <-] Hp. simpl in *.
      destruct (shape_completing _ _ _ _ _ _ _ _ _ c Hsh Hp); [|done].
      by eapply history_job.
    + case_decide; [|by apply (history_job _ _ H)].
      intros Hx. by destruct (shape_spawn _ _ _ _ _ _ _ _ _ _ Hsh Hx) as [->| ->].
  - intros c ch' Hc Hne.
    destruct (terminal_shape _ _ _ _ _ _ _ _ _ c ch' Hsh Hc Hne) as [(ch & Hch & Hn)|(Hp & Ep & Es)].
    + pose proof (history_terminal _ _ H c ch Hch Hn). destruct (Hmk c) as [K|(-> & _ & _)]; [lia|].
      apply lookup_lt_Some in Hch. lia.
    + pose proof (makers_update c _ _ _ (next_pc r) (next_spawn r) Ht) as U.
      pose proof (history_makers _ _ H c). pose proof (history_job _ _ H _ _ _ Ht Hp) as Hj.
      rewrite Es, Ep in *. simpl in U |- *.
      assert (unfinished c (Thread (job th) (Schedule c AfterComplete)) = 0%nat) as U0
        by (unfold unfinished; simpl; by case_decide).
      assert (1 <= unfinished c th)%nat as U1.
      { unfold unfinished. rewrite (decide_True (P := fst <$> job th = Some c)) by done.
        by destruct (at_pc th). }
      lia.
Qed.

Lemma history_initial limits n : history [] (initial limits n).
Proof.
  assert (forall c, makers c (replicate n (Thread None Idle)) = 0%nat) as Hm.
  { intros c. apply sum_list_with_zero. by intros i x [-> _]%lookup_replicate. }
  split; simpl; try done.
  - intros c. rewrite Hm. lia.
  - by intros t th c [-> _]%lookup_replicate.
Qed.

Lemma history_run limits n tr s :
  (forall r b, 0 <= amount r (limits b)) ->
  run pw stored_size (initial limits n) tr s -> inv s /\ history tr s.
Proof.
  intros Hl R. assert (forall s0 tr0 tr s, run pw stored_size s0 tr s -> inv s0 -> history tr0 s0 ->
    inv s /\ history (tr0 ++ tr) s) as K.
  { clear -Hsize. intros s0 tr0 tr s R. revert tr0.
    induction R as [|s0 t a s1 es tr s2 Hs _ IH]; intros tr0 I H; [by rewrite app_nil_r|].
    rewrite app_assoc. apply IH; [by eapply channel_inv_step|by eapply history_step]. }
  apply (K _ [] _ _ R); [by apply channel_inv_initial|apply history_initial].
Qed.


End History.

End ChannelHistory.
