(* ===== verification/ChannelTheorems.v ===== *)
(** * Theorems about RTD channels

    What the runs of Channel.v guarantee, from the invariants of
    ChannelInvariant.v, ChannelThreads.v and ChannelHistory.v: exact accounts,
    absence of panics, order of delivery, and the barrier of disconnection. *)

From stdpp Require Import functions.
From S2P Require Import Prelude SealableCounter Names Errors Utf16 Budget Channel.
From S2P Require Import ChannelInvariant ChannelSteps ChannelShapes ChannelThreads ChannelHistory.
Import SealableCounter.Transitions Errors Budget Accounts.

Local Open Scope Z_scope.

Module ChannelTheorems.
Import Str Channel ChannelInvariant ChannelSteps ChannelShapes ChannelThreads ChannelHistory.

(** ** Concrete runs *)

Lemma schedule_run pw stored_size moves s s' tr :
  schedule pw stored_size moves s = Done (Some (s', tr)) -> run pw stored_size s tr s'.
Proof.
  revert s tr. induction moves as [|[t a] moves IH]; intros s tr; simpl.
  - intros [= <- <-]. constructor.
  - destruct (step pw stored_size t a s) as [[[s1 es]|]| |] eqn:Es; try done. simpl.
    destruct (schedule _ _ moves s1) as [[[s2 tr2]|]| |] eqn:E2; try done. simpl.
    intros [= <- <-]. econstructor; eauto.
Qed.

Lemma run_trans pw stored_size s tr s' tr' s'' :
  run pw stored_size s tr s' -> run pw stored_size s' tr' s'' ->
  run pw stored_size s (tr ++ tr') s''.
Proof.
  induction 1 as [|s0 t a s1 es tr s2 Hs _ IH]; [done|]. intros R. rewrite <- app_assoc.
  econstructor; eauto.
Qed.

Definition limits_64 : nat -> Usage := fun _ => MkUsage 64 64 65536 64.

Definition a_request : request := Request 0 1 (Fifo 4) RetainLastValue.

(** Thread 0 subscribes: thread 2 is the publisher, thread 3 the producer. *)
Definition subscribe_moves : list (nat * action) :=
  (0%nat, Start (CallSubscribe a_request)) :: replicate 10 (0%nat, Run None).

(** The producer sends two values, one in an empty queue. *)
Definition send_moves : list (nat * action) :=
  (3%nat, Start (CallSend 0 (Integer 7))) :: replicate 10 (3%nat, Run None)
  ++ (3%nat, Start (CallSend 0 (Integer 8))) :: replicate 8 (3%nat, Run None).

Definition publish_moves : list (nat * action) := replicate 11 (2%nat, Run None).

(** The producer returns and thread 0 disconnects. *)
Definition finish_moves : list (nat * action) :=
  (3%nat, Start (CallComplete (Ok tt))) :: replicate 2 (3%nat, Run None)
  ++ (0%nat, Start (CallFinish 0)) :: replicate 7 (0%nat, Run None).

Definition play (moves : list (nat * action)) : outcome (option (config * list event)) :=
  schedule W64 24 moves (initial limits_64 2).

(** The state and the history a concrete run ends with. *)
Definition played (moves : list (nat * action)) : config * list event :=
  match play moves with Done (Some x) => x | _ => (initial limits_64 2, []) end.

Lemma play_run moves :
  match play moves with Done (Some _) => true | _ => false end = true ->
  run W64 24 (initial limits_64 2) (played moves).2 (played moves).1.
Proof.
  unfold played. destruct (play moves) as [[[s tr]|]| |] eqn:E; try done. intros _.
  by apply schedule_run in E.
Qed.

Lemma limits_64_nonneg r b : 0 <= amount r (limits_64 b).
Proof. by destruct r. Qed.

(** ** Limits never move *)

Lemma acquire_limit pw a s : limit (acquire pw a s).2 = limit s.
Proof. destruct (acquire pw a s) as [ok s'] eqn:E. by apply acquire_spec in E as (? & _). Qed.

Lemma release_buffered_limit v b s s' : release_buffered v b s = Done s' -> limit s' = limit s.
Proof.
  unfold release_buffered, obind. repeat case_match; try done. by intros [= <-].
Qed.

Lemma insert_limit (B : nat -> BudgetState) b s :
  limit s = limit (B b) -> forall b', limit (<[b := s]> B b') = limit (B b').
Proof.
  intros E b'. destruct (decide (b' = b)) as [->|]; [by rewrite fn_lookup_insert|].
  by rewrite fn_lookup_insert_ne.
Qed.

Lemma budget_step_limit pw bc B r B' :
  budget_step pw bc B = Done (r, B') -> forall b, limit (B' b) = limit (B b).
Proof.
  destruct bc; simpl; unfold obind;
    repeat match goal with
           | |- context [acquire_buffered pw ?v ?b ?s] =>
               destruct (acquire_buffered pw v b s) as [ok s'] eqn:E;
               apply acquire_buffered_spec in E as (El & _ & _)
           | |- context [release_buffered ?v ?b ?s] =>
               destruct (release_buffered v b s) as [s'| |] eqn:E; try done;
               apply release_buffered_limit in E as El
           end; intros [= <- <-]; by apply insert_limit.
Qed.

Lemma drop_permit_limit p B B' :
  drop_permit p B = Done B' -> forall b, limit (B' b) = limit (B b).
Proof.
  unfold drop_permit, obind, release. repeat case_match; try done. intros [= <-].
  apply insert_limit. unfold obind in *. repeat case_match; simplify_eq. done.
Qed.

Section Theorems.
Context (pw : pointer_width) (stored_size : Z).
Context (Hsize : 0 <= stored_size <= 65536).
Context (limits : nat -> Usage) (n : nat).
Context (Hlimits : forall r b, 0 <= amount r (limits b)).
Abbreviation run := (run pw stored_size).

Lemma thread_step_limit t k a th m r b :
  thread_step pw stored_size t k a th m = Done (Some r) ->
  limit (budgets (next_mem r) b) = limit (budgets m b).
Proof.
  unfold thread_step. destruct a as [o|f], (at_pc th) eqn:E; intros H; try done.
  all: results H; simpl; try done.
  all: try (by eapply budget_step_limit).
  all: try (by eapply drop_permit_limit).
  all: match goal with
       | K : acquire ?pw ?a ?s = (_, ?s') |- _ =>
           apply insert_limit; pose proof (acquire_limit pw a s) as K'; by rewrite K in K'
       end.
Qed.

Lemma run_limit s tr s' b : run s tr s' -> limit (budgets (mem s') b) = limit (budgets (mem s) b).
Proof.
  induction 1 as [|s t a s1 es tr s2 Hs _ IH]; [done|]. rewrite IH. revert Hs. unfold step.
  destruct (threads s !! t) as [th|]; [|done].
  destruct (thread_step _ _ _ _ _ _ _) as [[r|]| |] eqn:Er; simpl; try done. intros [= <- _].
  by eapply thread_step_limit.
Qed.

(** C21: in every reachable state, under every interleaving, each counter of
    each budget is exactly the sum of the charges of the values queued in
    channels, of the batches in flight, of reservations and roll-backs under
    way and of the permits held by subscriptions and by setups and
    disconnections in progress; no counter passes its configured limit; a
    channel's ledger counts its queue, and its queue respects its capacity. *)
Theorem budgets_account_exactly tr s :
  run (initial limits n) tr s ->
  (forall r b,
     amount r (used (budgets (mem s) b)) = account r b (channels (mem s)) (threads s)
     /\ 0 <= amount r (used (budgets (mem s) b)) <= amount r (limits b))
  /\ (forall c ch, channels (mem s) !! c = Some ch ->
       l_values (buffered (state ch)) = Z.of_nat (length (queued (state ch)))
       /\ l_bytes (buffered (state ch)) = bytes_of stored_size (queued (state ch))
       /\ (queued (state ch) <> [] ->
           Z.of_nat (length (queued (state ch))) <= capacity (delivery ch))).
Proof.
  intros R. pose proof (channel_inv_run _ _ Hsize _ _ _ _ Hlimits R) as I. split.
  - intros r b. pose proof (inv_used _ _ I r b) as E. split; [done|]. split.
    + rewrite E. unfold account. apply Z.add_nonneg_nonneg; apply ztotal_nonneg.
      * intros c ch Hc. eapply owed_nonneg, chan_charges_fair; [done|]. by apply (inv_chan _ _ I).
      * intros t th Ht. eapply owed_nonneg, held_fair; [done|]. by apply (inv_thread _ _ I _ _ Ht).
    + pose proof (inv_within _ _ I r b) as W. by rewrite (run_limit _ _ _ _ R) in W.
  - intros c ch Hc. destruct (inv_chan _ _ I _ _ Hc). auto.
Qed.

(** A thread outside every call. *)
Definition at_rest (th : thread) : Prop :=
  at_pc th = Idle \/ at_pc th = Exited \/ at_pc th = PubWait.

(** Nothing leaks.  Once no call is in progress and every channel has been
    closed and its subscription handed back, every counter of every budget is
    back to zero, whatever sends, failures, cancellations, abandoned setups
    and disconnections happened before. *)
Theorem closed_channels_owe_nothing tr s :
  run (initial limits n) tr s ->
  (forall t th, threads s !! t = Some th -> at_rest th) ->
  (forall c ch, channels (mem s) !! c = Some ch ->
     stopping (state ch) = true /\ subscription ch = None) ->
  forall r b, amount r (used (budgets (mem s) b)) = 0.
Proof.
  intros R Hrest Hclosed r b. pose proof (channel_inv_run _ _ Hsize _ _ _ _ Hlimits R) as I.
  rewrite (inv_used _ _ I r b). unfold account.
  rewrite (ztotal_ext _ (fun _ => 0) (channels (mem s))).
  2: { intros c ch Hc. destruct (Hclosed _ _ Hc) as [Hs Hsub].
       destruct (inv_chan _ _ I _ _ Hc) as [Ev Eb _ _ _ Est].
       destruct (Est Hs) as (_ & Eq & _). rewrite Eq in Ev, Eb.
       unfold chan_charges. rewrite Ev, Eb, Hsub, app_nil_r. simpl.
       repeat case_decide; by destruct r. }
  rewrite (ztotal_ext _ (fun _ => 0) (threads s)).
  2: { intros t th Ht. by destruct (Hrest _ _ Ht) as [->|[->| ->]]. }
  assert (forall A (l : list A), ztotal (fun _ => 0) l = 0) as Hz
    by (intros A l; induction l as [|x l IH]; simpl; lia).
  by rewrite !Hz.
Qed.

(** No interleaving panics.  In every reachable state every action of
    every thread completes or waits: the budgets never underflow, the ledger
    always covers the batch split from it, byte sums fit the word, a [Latest]
    slot is never pushed while occupied, the waiting value is there when it is
    replaced, and a reserved turn finds its scheduler. *)
Theorem no_interleaving_panics tr s t a :
  run (initial limits n) tr s -> exists o, step pw stored_size t a s = Done o.
Proof.
  intros R. eapply channel_step_done; [done|]. by eapply channel_inv_run.
Qed.

(** C20: order of delivery.  What a FIFO channel has delivered is a prefix of
    what it admitted, and what a [Latest] channel has delivered a subsequence
    of it; and unless the channel was closed or its storage failed, the
    delivered values, the batch being delivered, the queue and the final error
    are together all that was admitted, in order (FIFO), or a subsequence of it
    that ends with its last value (Latest). *)
Theorem deliveries_follow_admissions tr s c ch :
  run (initial limits n) tr s -> channels (mem s) !! c = Some ch ->
  part_of (delivery ch) (entries c tr) (delivered c tr)
  /\ (~ lossy c (threads s) ch ->
      preserves (delivery ch) (entries c tr) (line c tr (threads s) ch)).
Proof.
  intros R Hc. destruct (history_run _ _ Hsize _ _ _ _ Hlimits R) as [_ H].
  by destruct (history_chan _ _ H _ _ Hc).
Qed.

(** ** Disconnection *)

Lemma threads_ok_run tr s : run (initial limits n) tr s -> threads_ok s.
Proof.
  intros R. assert (forall s0 tr s, run s0 tr s -> inv stored_size s0 -> threads_ok s0 ->
    threads_ok s) as H.
  { clear -Hsize. induction 1 as [|s0 t a s1 es tr s2 Hs _ IH]; intros I K; [done|].
    apply IH; [by eapply channel_inv_step|by eapply threads_ok_step]. }
  eapply H; [done|by apply channel_inv_initial|apply threads_ok_initial].
Qed.

Lemma step_channel s t a s' es c ch :
  inv stored_size s -> step pw stored_size t a s = Done (Some (s', es)) ->
  channels (mem s) !! c = Some ch ->
  exists ch', channels (mem s') !! c = Some ch' /\ evolves t ch ch'.
Proof.
  intros I. unfold step. destruct (threads s !! t) as [th|] eqn:Ht; [|done].
  destruct (thread_step_sound pw _ Hsize s t th a I Ht) as (o & -> & Ho). simpl.
  destruct o as [r|]; [|done]. intros [= <- <-] Hc. destruct (Ho r eq_refl) as [T _].
  destruct (tr_old _ _ _ _ _ _ T _ _ Hc) as (ch' & Hc' & Hev & _). by exists ch'.
Qed.

(** A revoked channel neither admits nor delivers. *)
Lemma revoked_step s t a s' es c ch :
  inv stored_size s -> step pw stored_size t a s = Done (Some (s', es)) ->
  channels (mem s) !! c = Some ch -> revoked ch -> entries c es = [] /\ delivered c es = [].
Proof.
  intros I. unfold step. destruct (threads s !! t) as [th|] eqn:Ht; [|done].
  destruct (thread_step _ _ _ _ _ _ _) as [[r|]| |] eqn:Er; simpl; try done. intros [= <- <-] Hc [Hs Hk].
  pose proof (channel_step_shape pw stored_size s t th a r I Ht Er) as Hsh. unfold has_shape in Hsh.
  pose proof (fun E => local_at _ _ _ _ c ch I Ht E Hc) as L.
  destruct (ok_stopped _ _ _ (inv_chan _ _ I _ _ Hc) Hs) as (Ha & _).
  assert (forall c0 ch0 e, channels (mem s) !! c0 = Some ch0 ->
    (exists vs, e = Accepted c0 vs) \/ (exists x, e = Terminal c0 x)
    \/ (exists v, e = Delivered c0 v) -> c0 <> c -> entries c [e] = [] /\ delivered c [e] = []) as Ho.
  { intros c0 ch0 e _ He Hne. by apply (other_events c c0). }
  destruct Hsh as [| |c0 ch0 ch0' vs v g bp q p' m' E (Hc0 & _)
    |k c0 ch0 ch0' vs new b bp w m' E (Hc0 & _)| | | | |c0 ch0 ch0' r0 pol m' es E (Hc0 & _) _ Eq Es _ Het
    | | | |c0 ch0 v vs permit E Hc0 Hfl| | | | | |]; try done; rewrite E in L; simpl in L;
    (destruct (decide (c0 = c)) as [->|Hne]; [|]).
  - destruct (L eq_refl) as ((_ & _ & ? & _) & _). congruence.
  - eapply Ho; eauto.
  - destruct (L eq_refl) as ((? & _) & _). congruence.
  - eapply Ho; eauto.
  - destruct Het as [[-> _]|(e & -> & _ & ?)]; [done|congruence].
  - destruct Het as [[-> _]|(e & -> & _ & ?)]; [done|]. eapply Ho; eauto.
  - destruct (L eq_refl) as (? & _). congruence.
  - eapply Ho; eauto.
Qed.

Lemma revoked_run s tr s' c ch :
  inv stored_size s -> run s tr s' -> channels (mem s) !! c = Some ch -> revoked ch ->
  entries c tr = [] /\ delivered c tr = []
  /\ exists ch', channels (mem s') !! c = Some ch' /\ revoked ch'.
Proof.
  intros I R. revert ch I. induction R as [|s t a s1 es tr s2 Hs _ IH]; intros ch I Hc Hr; [eauto|].
  destruct (revoked_step _ _ _ _ _ _ _ I Hs Hc Hr) as [Ee Ed].
  destruct (step_channel _ _ _ _ _ _ _ I Hs Hc) as (ch1 & Hc1 & Hev).
  destruct (IH ch1) as (Ee' & Ed' & Hex); [by eapply channel_inv_step|done| |].
  - destruct Hr. split; [by apply (ev_stopping _ _ _ Hev)|by apply (ev_sink _ _ _ Hev)].
  - by rewrite entries_app, delivered_app, Ee, Ed, Ee', Ed'.
Qed.

(** C19: the barrier of disconnection.  When [finish] returns for a channel,
    its producer thread has exited, its sink is revoked and its queue empty;
    in every continuation of the run, under every interleaving, nothing is
    delivered from the channel and nothing is admitted to it any more. *)
Theorem disconnection_is_a_barrier tr s t th c r tr' s' :
  run (initial limits n) tr s -> threads s !! t = Some th ->
  at_pc th = Returned (Disconnected c r) -> run s tr' s' ->
  entries c tr' = [] /\ delivered c tr' = []
  /\ (exists ch, channels (mem s') !! c = Some ch /\ sink ch = false
       /\ stopping (state ch) = true /\ queued (state ch) = [])
  /\ (forall t' x, threads s !! t' = Some x -> producer_of c x ->
       at_pc x = Exited /\ t' ∈ exited (mem s)).
Proof.
  intros R Ht E R'. pose proof (channel_inv_run _ _ Hsize _ _ _ _ Hlimits R) as I.
  pose proof (threads_ok_run _ _ R) as K.
  destruct (inv_thread _ _ I _ _ Ht c) as (ch & Hc & L); [by rewrite E|]. rewrite E in L.
  destruct (revoked_run _ _ _ _ _ I R' Hc L) as (Ee & Ed & ch' & Hc' & Hs' & Hk').
  split_and!; [done..| |].
  - exists ch'. split_and!; [done..|].
    assert (inv stored_size s') as I'.
    { eapply (channel_inv_run _ _ Hsize limits n); [done|]. by eapply run_trans. }
    by apply (ok_stopped _ _ _ (inv_chan _ _ I' _ _ Hc')).
  - intros t' x Hx Hp. assert (at_pc x = Exited) as Ex
      by (eapply (th_gone _ K t th c); [done|by rewrite E|done|done]).
    split; [done|]. apply (th_exited _ K). by exists x.
Qed.

End Theorems.

(** ** The theorems at concrete runs *)

Lemma budgets_account_exactly_witness :
  let s := (played (subscribe_moves ++ send_moves)).1 in
  amount RValues (used (budgets (mem s) 0)) = 2
  /\ account RValues 0 (channels (mem s)) (threads s) = 2.
Proof.
  intros s. split; [vm_compute; reflexivity|].
  assert (run W64 24 (initial limits_64 2) (played (subscribe_moves ++ send_moves)).2 s) as R
    by (apply play_run; vm_compute; reflexivity).
  destruct (budgets_account_exactly W64 24 ltac:(lia) limits_64 2 limits_64_nonneg _ _ R) as [H _].
  destruct (H RValues 0%nat) as [E _]. rewrite <- E. vm_compute. reflexivity.
Defined.

Definition whole_moves : list (nat * action) :=
  subscribe_moves ++ send_moves ++ publish_moves ++ finish_moves.

Lemma closed_channels_owe_nothing_witness :
  let s := (played (whole_moves ++ [(0%nat, Run None)])).1 in
  amount RWorkers (used (budgets (mem s) 1)) = 0.
Proof.
  intros s.
  apply (closed_channels_owe_nothing W64 24 ltac:(lia) limits_64 2 limits_64_nonneg
           (played (whole_moves ++ [(0%nat, Run None)])).2).
  - apply play_run. vm_compute. reflexivity.
  - assert (threads s = [Thread None Idle; Thread None Idle; Thread None PubWait;
      Thread (Some (0%nat, RetainLastValue)) Exited]) as -> by (vm_compute; reflexivity).
    intros t th [<-|[<-|[<-|[<-|[]]]]]%list_elem_of_lookup_2%list_elem_of_In; cbv; auto.
  - intros c ch Hc. assert ((fun x => stopping (state x) && bool_decide (subscription x = None))
      <$> channels (mem s) = [true]) as E by (vm_compute; reflexivity).
    apply (f_equal (fun l => l !! c)) in E. rewrite list_lookup_fmap, Hc in E. simpl in E.
    symmetry in E. apply list_lookup_singleton_Some in E as [_ E].
    symmetry in E. apply andb_true_iff in E as [E1 E2%bool_decide_eq_true]. by split.
Defined.

Lemma no_interleaving_panics_witness :
  exists o, step W64 24 2 (Run None) (played (subscribe_moves ++ send_moves)).1 = Done o.
Proof.
  apply (no_interleaving_panics W64 24 ltac:(lia) limits_64 2 limits_64_nonneg
           (played (subscribe_moves ++ send_moves)).2).
  apply play_run. vm_compute. reflexivity.
Defined.

Lemma deliveries_follow_admissions_witness :
  let tr := (played (subscribe_moves ++ send_moves ++ publish_moves)).2 in
  delivered 0 tr = [Stored (Integer 7); Stored (Integer 8)]
  /\ part_of (Fifo 4) (entries 0 tr) (delivered 0 tr).
Proof.
  intros tr. split; [vm_compute; reflexivity|].
  set (s := (played (subscribe_moves ++ send_moves ++ publish_moves)).1).
  assert (match channels (mem s) !! 0%nat with Some ch => delivery ch = Fifo 4 | None => False end)
    as Hd by (vm_compute; reflexivity).
  destruct (channels (mem s) !! 0%nat) as [ch|] eqn:Hc; [|destruct Hd].
  rewrite <- Hd.
  apply (deliveries_follow_admissions W64 24 ltac:(lia) limits_64 2 limits_64_nonneg tr s 0 ch);
    [|exact Hc].
  apply play_run. vm_compute. reflexivity.
Defined.

(** After the disconnection a send on the kept sender is refused. *)
Lemma disconnection_is_a_barrier_witness :
  let late := [(1%nat, Start (CallSend 0 (Integer 9))); (1%nat, Run None)] in
  delivered 0 (played whole_moves).2 = [Stored (Integer 7); Stored (Integer 8)]
  /\ match schedule W64 24 late (played whole_moves).1 with
     | Done (Some (_, tr')) => entries 0 tr' = [] /\ delivered 0 tr' = []
     | _ => False
     end.
Proof.
  intros late. split; [vm_compute; reflexivity|].
  destruct (schedule W64 24 late (played whole_moves).1) as [[[s' tr']|]| |] eqn:E;
    [|vm_compute in E; discriminate..].
  assert (match threads (played whole_moves).1 !! 0%nat with
          | Some th => at_pc th = Returned (Disconnected 0 (Ok tt)) | None => False end) as Hp
    by (vm_compute; reflexivity).
  destruct (threads (played whole_moves).1 !! 0%nat) as [th|] eqn:Ht; [|destruct Hp].
  destruct (disconnection_is_a_barrier W64 24 ltac:(lia) limits_64 2 limits_64_nonneg
    (played whole_moves).2 (played whole_moves).1 0 th 0 (Ok tt) tr' s') as (E1 & E2 & _);
    [|exact Ht|exact Hp| |split; assumption].
  - apply play_run. vm_compute. reflexivity.
  - apply schedule_run in E. exact E.
Defined.

End ChannelTheorems.
