(* ===== verification/ChannelProgress.v ===== *)
(** * Progress of RTD channels

    A channel with something to publish has a turn reserved, or a thread on
    its way to reserve one; a reserved turn is in the ready queue or in the
    hands of one thread.  Hence, as long as started calls continue, every
    admitted value is delivered or its channel is closed. *)

From stdpp Require Import functions.
From S2P Require Import Prelude SealableCounter Names Errors Utf16 Budget Channel.
From S2P Require Import ChannelInvariant ChannelSteps ChannelShapes ChannelThreads ChannelHistory.
Import SealableCounter.Transitions Errors Budget Accounts.

Local Open Scope nat_scope.

Module ChannelProgress.
Import Str Channel ChannelInvariant ChannelSteps ChannelShapes ChannelThreads ChannelHistory.

(** ** Turns *)

Definition is_turn (c : nat) (o : option nat) : nat := if decide (o = Some c) then 1 else 0.

Definition ready_turns (c : nat) (r : Ready) : nat :=
  sum_list_with (fun x => is_turn c (Some x)) (ready_channels r).

Definition turns (c : nat) (s : config) : nat :=
  ready_turns c (ready (mem s))
  + sum_list_with (fun th => is_turn c (token (at_pc th))) (threads s).

Definition pending (st : ChannelState) : Prop := queued st <> [] \/ terminal_error st <> None.

Definition wakes (c : nat) (ts : list thread) : Prop :=
  exists t th, ts !! t = Some th /\ waking (at_pc th) = Some c.

Record turns_ok (s : config) : Prop := TurnsOk {
  turns_unscheduled : forall c ch, channels (mem s) !! c = Some ch ->
    scheduled (state ch) = false -> turns c s = 0;
  turns_scheduled : forall c ch, channels (mem s) !! c = Some ch ->
    turns c s <= 1 /\ (scheduled (state ch) = true -> ready_stopping (ready (mem s)) = false ->
                       turns c s = 1);
  turns_wake : forall c ch, channels (mem s) !! c = Some ch -> pending (state ch) ->
    stopping (state ch) = false -> scheduled (state ch) = true \/ wakes c (threads s);
}.

Section Progress.
Context (pw : pointer_width) (stored_size : Z).
Context (Hsize : (0 <= stored_size <= 65536)%Z).
Abbreviation inv := (inv stored_size).

Lemma turns_update s t th p' m' spawn c :
  threads s !! t = Some th -> (forall x, spawn = Some x -> fresh_thread x) ->
  turns c (Config m' (<[t := Thread (job th) p']> (threads s) ++ option_list spawn))
    + is_turn c (token (at_pc th)) + ready_turns c (ready (mem s))
  = turns c s + is_turn c (token p') + ready_turns c (ready m').
Proof.
  intros Ht Hs. unfold turns. simpl. rewrite sum_list_with_app.
  pose proof (sum_list_with_insert (fun th => is_turn c (token (at_pc th))) _ _ _
    (Thread (job th) p') Ht) as U. simpl in U.
  assert (sum_list_with (fun th => is_turn c (token (at_pc th))) (option_list spawn) = 0) as ->.
  { destruct spawn as [x|]; [|done]. simpl. destruct (Hs x eq_refl) as [->| ->]; done. }
  lia.
Qed.

Lemma no_turns s c : inv s -> channels (mem s) !! c = None -> turns c s = 0.
Proof.
  intros I Hc. unfold turns, ready_turns.
  assert (forall l, (forall x, x ∈ l -> x <> c) ->
    sum_list_with (fun x => is_turn c (Some x)) l = 0) as Hl.
  { induction l as [|x l IH]; intros H; [done|]. simpl. unfold is_turn at 1.
    rewrite decide_False by (intros [= ->]; apply (H c); [by left|done]).
    rewrite IH; [done|]. intros y Hy. apply H. by right. }
  rewrite Hl.
  - simpl. apply sum_list_with_zero. intros t th Ht. unfold is_turn. rewrite decide_False; [done|].
    intros E. destruct (in_range _ _ _ _ c I Ht) as [ch Hch]; [|congruence].
    destruct (at_pc th); try done; try destruct w; try destruct k; simpl in *; try done; congruence.
  - intros x Hx ->. apply (inv_ready _ _ I) in Hx. apply lookup_lt_is_Some in Hx as [? ?]. congruence.
Qed.

Lemma push_turns c c0 r :
  ready_turns c (push c0 r)
  = if ready_stopping r then ready_turns c r else ready_turns c r + is_turn c (Some c0).
Proof.
  unfold push, ready_turns. case_match; [done|]. simpl. rewrite sum_list_with_app. simpl. lia.
Qed.

(** How a step moves the turns of a channel. *)
Inductive turn_move (s : config) (t : nat) (th : thread) (s' : config) (c : nat) (ch' : Chan) : Prop :=
| TurnFresh : channels (mem s) !! c = None -> scheduled (state ch') = false ->
    turns c s' = turns c s -> ~ pending (state ch') -> turn_move s t th s' c ch'
| TurnKept ch : channels (mem s) !! c = Some ch -> scheduled (state ch') = scheduled (state ch) ->
    turns c s' = turns c s -> ready_stopping (ready (mem s')) = ready_stopping (ready (mem s)) ->
    turn_move s t th s' c ch'
| TurnTaken ch : channels (mem s) !! c = Some ch -> scheduled (state ch) = false ->
    scheduled (state ch') = true -> turns c s' = S (turns c s) -> turn_move s t th s' c ch'
| TurnEnded ch : channels (mem s) !! c = Some ch -> scheduled (state ch') = false ->
    1 <= turns c s -> S (turns c s') = turns c s -> turn_move s t th s' c ch'
| TurnAgain ch : channels (mem s) !! c = Some ch -> scheduled (state ch') = true ->
    1 <= turns c s -> turns c s' = turns c s ->
    ready_stopping (ready (mem s')) = ready_stopping (ready (mem s)) ->
    turn_move s t th s' c ch'
| TurnDropped ch : channels (mem s) !! c = Some ch ->
    scheduled (state ch') = scheduled (state ch) -> turns c s' <= turns c s ->
    ready_stopping (ready (mem s')) = true -> turn_move s t th s' c ch'.

Lemma is_turn_other c c0 : c <> c0 -> is_turn c (Some c0) = 0.
Proof. intros H. unfold is_turn. rewrite decide_False; congruence. Qed.

Lemma is_turn_self c : is_turn c (Some c) = 1.
Proof. unfold is_turn. by rewrite decide_True. Qed.

Lemma is_turn_none c : is_turn c None = 0.
Proof. done. Qed.

Lemma turns_ge s t th c :
  threads s !! t = Some th -> token (at_pc th) = Some c -> 1 <= turns c s.
Proof.
  intros Ht E. unfold turns.
  pose proof (sum_list_with_ge (fun th => is_turn c (token (at_pc th))) _ _ _ Ht) as H.
  simpl in H. rewrite E, is_turn_self in H. lia.
Qed.

(** The channel a lookup after an update of [c0] finds. *)
Lemma moved_cases (m m' : shared) c0 ch0 ch0' c ch' :
  moved m m' c0 ch0 ch0' -> channels m' !! c = Some ch' ->
  (c = c0 /\ ch' = ch0' /\ channels m !! c = Some ch0)
  \/ (c <> c0 /\ channels m !! c = Some ch').
Proof.
  intros (Hc & -> & _). destruct (decide (c = c0)) as [->|Hne].
  - rewrite list_lookup_insert_eq by by eapply lookup_lt_Some. intros [= <-]. by left.
  - rewrite list_lookup_insert_ne by done. by right.
Qed.

Lemma turn_shape s t th p' m' spawn es c ch' :
  inv s -> threads s !! t = Some th ->
  shape (job th) t (length (threads s)) (at_pc th) (mem s) p' m' spawn es ->
  channels m' !! c = Some ch' ->
  turn_move s t th
    (Config m' (<[t := Thread (job th) p']> (threads s) ++ option_list spawn)) c ch'.
Proof.
  intros I Ht Hsh Hc.
  pose proof (turns_update s t th p' m' spawn c Ht
    (fun x => shape_spawn _ _ _ _ _ _ _ _ _ x Hsh)) as U.
  pose proof (fun E => turns_ge s t th c Ht E) as Hge.
  set (s' := Config m' _) in *. assert (mem s' = m') as Hm by done. clearbody s'.
  destruct Hsh as [p' m' V Er P|c0 r pol E Hj|c0 ch ch0 vs v g bp q p' m' E M Er Eb Eq Et Es Esc Q D
    |k c0 ch ch0 vs new b bp w m' E M Er Eq Et Es Ew
    |c0 ch ch0 k m' E M Er (R1 & R2 & R3) Est
    |c0 ch k p' m' E Hc0 Em Er NR R
    |c0 k p' m' E Em Er Q D
    |c0 ch ch0 k p' m' E M Er Eq Et Es Esc Etk Hw Hi Hf
    |c0 ch ch0 r pol m' es E M Er Eq Es Esc Het
    |c0 cs m' E Em Er0 Er|m' E Em Er Hst
    |c0 ch ch0 batch permit m' E M Er Eq Hb Es Esc Htm
    |c0 ch v vs permit E Hc0 Hfl|c0 ch vs permit r E Hc0 Hr
    |c0 ch ch0 requeue m' E M Er Est Hr
    |q m' E Em Er|q m' E Em Er|sub pol p' m' E V Er E'|w m' E Em Er].
  - destruct (Forall2_lookup_r _ _ _ _ _ V Hc) as (ch & Hch & E1 & E2).
    eapply (TurnKept _ _ _ _ _ _ ch); rewrite ?Hm, ?E1, ?Er; try done.
    rewrite (same_token _ _ P), Er in U. lia.
  - eapply TurnKept; rewrite ?Hm; try done. rewrite E in U. simpl in U. lia.
  - destruct (moved_cases _ _ _ _ _ _ _ M Hc) as [(-> & -> & Hch)|(Hne & Hch)];
      (eapply TurnKept; rewrite ?Hm, ?Er; try done);
      rewrite E, Er, (proj1 Q) in U; simpl in U; lia.
  - destruct (moved_cases _ _ _ _ _ _ _ M Hc) as [(-> & -> & Hch)|(Hne & Hch)].
    + destruct w; rewrite E, Er in U; simpl in U; rewrite ?is_turn_none, ?is_turn_self in U.
      * eapply TurnKept; rewrite ?Hm, ?Er; try done; [apply Ew|lia].
      * eapply TurnKept; rewrite ?Hm, ?Er; try done. lia.
      * eapply TurnTaken; try done; [apply Ew|apply Ew|lia].
    + eapply TurnKept; rewrite ?Hm, ?Er; try done. rewrite E, Er in U.
      destruct w; simpl in U; rewrite ?is_turn_none, ?(is_turn_other c c0) in U by done; lia.
  - rewrite E, Er in U. simpl in U. rewrite is_turn_none in U.
    destruct (moved_cases _ _ _ _ _ _ _ M Hc) as [(-> & -> & Hch)|(Hne & Hch)].
    + rewrite is_turn_self in U. eapply TurnTaken; try done; [by rewrite Est|lia].
    + rewrite is_turn_other in U by done. eapply TurnKept; rewrite ?Hm, ?Er; try done. lia.
  - rewrite Em in Hc. eapply TurnKept; rewrite ?Hm, ?Er; try done. rewrite E, Er in U. simpl in U.
    destruct k; injection R as <- <-; simpl in U; rewrite is_turn_none in U; lia.
  - rewrite Em in Hc. rewrite E, Er, (proj1 Q), push_turns, is_turn_none in U. simpl in U.
    destruct (ready_stopping (ready (mem s))) eqn:Est.
    + eapply TurnDropped; rewrite ?Hm, ?Er; try done; [lia|]. unfold push. by rewrite Est.
    + eapply TurnKept; rewrite ?Hm, ?Er; try done; [lia|]. unfold push. by rewrite Est.
  - destruct (moved_cases _ _ _ _ _ _ _ M Hc) as [(-> & -> & Hch)|(Hne & Hch)];
      (eapply TurnKept; rewrite ?Hm, ?Er; try done); rewrite Er, Etk in U; lia.
  - destruct (moved_cases _ _ _ _ _ _ _ M Hc) as [(-> & -> & Hch)|(Hne & Hch)];
      (eapply TurnKept; rewrite ?Hm, ?Er; try done); rewrite Er, E in U; simpl in U; lia.
  - rewrite Em in Hc. eapply TurnKept; rewrite ?Hm, ?Er, ?Er0; try done.
    rewrite E, Er, Er0 in U. unfold ready_turns in U. simpl in U. rewrite is_turn_none in U. lia.
  - rewrite Em in Hc. eapply TurnKept; rewrite ?Hm, ?Er; try done. rewrite E, Er in U. simpl in U. lia.
  - destruct (moved_cases _ _ _ _ _ _ _ M Hc) as [(-> & -> & Hch)|(Hne & Hch)];
      (eapply TurnKept; rewrite ?Hm, ?Er; try done); rewrite Er, E in U; simpl in U; lia.
  - eapply TurnKept; rewrite ?Hm; try done. rewrite E in U. simpl in U. lia.
  - eapply TurnKept; rewrite ?Hm; try done.
    assert (token (publish_return c0 permit r) = Some c0) as Etk
      by (unfold publish_return; by case_match).
    rewrite E, Etk in U. simpl in U. lia.
  - rewrite E in Hge. simpl in Hge. rewrite E, Er in U. simpl in U.
    destruct (moved_cases _ _ _ _ _ _ _ M Hc) as [(-> & -> & Hch)|(Hne & Hch)].
    + specialize (Hge eq_refl). rewrite is_turn_self in U. destruct requeue; simpl in U.
      * rewrite is_turn_self in U. eapply TurnAgain; rewrite ?Hm, ?Est, ?Er; try done. lia.
      * rewrite is_turn_none in U. eapply TurnEnded; rewrite ?Est; try done. lia.
    + rewrite is_turn_other in U by done. eapply TurnKept; rewrite ?Hm, ?Er; try done.
      destruct requeue; simpl in U; rewrite ?is_turn_none, ?(is_turn_other c c0) in U by done; lia.
  - rewrite Em in Hc. eapply TurnKept; rewrite ?Hm, ?Er; try done. rewrite E, Er in U. simpl in U. lia.
  - rewrite E, Er in U. simpl in U. rewrite is_turn_none in U. rewrite Em in Hc.
    apply lookup_app_Some in Hc as [Hc|[Hlen Hc]].
    + eapply TurnKept; rewrite ?Hm, ?Er; try done. lia.
    + apply list_lookup_singleton_Some in Hc as [_ <-].
      eapply TurnFresh; try done; [by apply lookup_ge_None_2|lia|]. by intros [].
  - destruct (Forall2_lookup_r _ _ _ _ _ V Hc) as (ch & Hch & E1 & E2).
    eapply (TurnKept _ _ _ _ _ _ ch); rewrite ?Hm, ?E1, ?Er; try done.
    rewrite E, E', Er in U. simpl in U. lia.
  - rewrite Em in Hc. eapply TurnDropped; rewrite ?Hm, ?Er; try done.
    rewrite E, Er in U. unfold ready_turns in U. simpl in U. lia.
Qed.

(** ** A channel with something to publish is scheduled or about to be *)

Definition wakeful (c : nat) (ch : Chan) (ts : list thread) : Prop :=
  pending (state ch) -> stopping (state ch) = false ->
  scheduled (state ch) = true \/ wakes c ts.

Lemma wakes_self ts t th p' spawn c :
  ts !! t = Some th -> waking p' = Some c ->
  wakes c (<[t := Thread (job th) p']> ts ++ option_list spawn).
Proof.
  intros Ht E. exists t, (Thread (job th) p'). split; [|done].
  by rewrite (threads_lookup _ _ _ _ _ _ Ht), decide_True.
Qed.

Lemma wakes_step ts t th p' spawn c :
  ts !! t = Some th -> (waking (at_pc th) = Some c -> waking p' = Some c) ->
  wakes c ts -> wakes c (<[t := Thread (job th) p']> ts ++ option_list spawn).
Proof.
  intros Ht Hp (t' & x & Hx & E). destruct (decide (t' = t)) as [->|Hne].
  - eapply wakes_self; [done|]. apply Hp. congruence.
  - exists t', x. split; [|done]. rewrite (threads_lookup _ _ _ _ _ _ Ht), decide_False by done.
    apply lookup_lt_Some in Hx as Hl. rewrite decide_False by lia. done.
Qed.

Lemma wakeful_kept s t th p' spawn c ch ch' :
  threads s !! t = Some th -> wakeful c ch (threads s) ->
  (pending (state ch') -> pending (state ch)) -> stopping (state ch') = stopping (state ch) ->
  scheduled (state ch') = scheduled (state ch) ->
  (waking (at_pc th) = Some c -> waking p' = Some c) ->
  wakeful c ch' (<[t := Thread (job th) p']> (threads s) ++ option_list spawn).
Proof.
  intros Ht H Hp Es Esc Hw P S. rewrite Es in S. destruct (H (Hp P) S) as [K|K].
  - left. congruence.
  - right. by eapply wakes_step.
Qed.

Lemma wakeful_shape s t th p' m' spawn es c ch' :
  (forall c ch, channels (mem s) !! c = Some ch -> wakeful c ch (threads s)) ->
  threads s !! t = Some th ->
  shape (job th) t (length (threads s)) (at_pc th) (mem s) p' m' spawn es ->
  channels m' !! c = Some ch' ->
  wakeful c ch' (<[t := Thread (job th) p']> (threads s) ++ option_list spawn).
Proof.
  intros W Ht Hsh Hc.
  destruct Hsh as [p' m' V Er P|c0 r pol E Hj|c0 ch ch0 vs v g bp q p' m' E M Er Eb Eq Et Es Esc Q D
    |k c0 ch ch0 vs new b bp w m' E M Er Eq Et Es Ew
    |c0 ch ch0 k m' E M Er (R1 & R2 & R3) Est
    |c0 ch k p' m' E Hc0 Em Er NR R
    |c0 k p' m' E Em Er Q D
    |c0 ch ch0 k p' m' E M Er Eq Et Es Esc Etk Hw Hi Hf
    |c0 ch ch0 r pol m' es E M Er Eq Es Esc Het
    |c0 cs m' E Em Er0 Er|m' E Em Er Hst
    |c0 ch ch0 batch permit m' E M Er Eq Hb Es Esc Htm
    |c0 ch v vs permit E Hc0 Hfl|c0 ch vs permit r E Hc0 Hr
    |c0 ch ch0 requeue m' E M Er Est Hr
    |q m' E Em Er|q m' E Em Er|sub pol p' m' E V Er E'|w m' E Em Er];
    try (rewrite Em in Hc);
    try (by eapply wakeful_kept; [done|by apply W|done..|rewrite E]);
    try (destruct (moved_cases _ _ _ _ _ _ _ M Hc) as [(-> & -> & Hch)|(Hne & Hch)];
      [|by eapply wakeful_kept; [done|by apply W|done..|rewrite E; simpl; congruence]]).
  - destruct (Forall2_lookup_r _ _ _ _ _ V Hc) as (ch & Hch & E1 & E2).
    eapply wakeful_kept; [done|by apply (W c ch)|rewrite ?E1; done..|].
    by rewrite (same_waking _ _ P).
  - eapply wakeful_kept; [done|by apply W| |done..|by rewrite E].
    intros _. left. by destruct (queued (state ch)).
  - intros P S. destruct w.
    + destruct Ew as [Esc Hq]. destruct (scheduled (state ch0)) eqn:Ec; [by left|]. right.
      destruct Hq as [Hq|Hq]; [|by destruct Hq].
      rewrite Es in S. destruct (W _ _ Hch) as [K|K]; [by left|done|congruence|].
      eapply wakes_step; [done| |done]. by rewrite E.
    + right. by eapply wakes_self.
    + left. apply Ew.
  - intros _ _. left. by rewrite Est.
  - destruct (decide (c = c0)) as [->|Hne].
    + intros P S. left. rewrite Hc0 in Hc. injection Hc as <-.
      destruct (scheduled (state ch)) eqn:Ec; [done|]. by destruct NR.
    + eapply wakeful_kept; [done|by apply W|done..|]. rewrite E. simpl. congruence.
  - intros _ S. congruence.
  - intros _ _. right. by eapply wakes_self.
  - eapply wakeful_kept; [done|by apply W| |done..|by rewrite E].
    unfold pending. intros P. destruct (queued (state ch)), (terminal_error (state ch)); auto.
    exfalso. simpl in Eq. apply app_eq_nil in Eq as [_ Eq]. apply app_eq_nil in Eq as [Eq1 Eq2].
    destruct P as [P|P]; [done|]. by destruct (terminal_error (state ch0)).
  - intros P S. rewrite Est in P, S |- *. left. destruct requeue; [done|].
    assert (false = true); [|done]. apply Hr. by split.
  - apply lookup_app_Some in Hc as [Hc|[Hlen Hc]].
    + by eapply wakeful_kept; [done|by apply W|done..|rewrite E].
    + apply list_lookup_singleton_Some in Hc as [_ <-]. intros []; done.
  - destruct (Forall2_lookup_r _ _ _ _ _ V Hc) as (ch & Hch & E1 & E2).
    eapply wakeful_kept; [done|by apply (W c ch)|rewrite ?E1; done..|]. by rewrite E.
Qed.

Lemma turns_ok_update s t th p' m' spawn es :
  inv s -> turns_ok s -> threads s !! t = Some th ->
  shape (job th) t (length (threads s)) (at_pc th) (mem s) p' m' spawn es ->
  turns_ok (Config m' (<[t := Thread (job th) p']> (threads s) ++ option_list spawn)).
Proof.
  intros I [H1 H2 H3] Ht Hsh. pose proof (fun c ch' => turn_shape s t th p' m' spawn es c ch' I Ht Hsh) as Hm.
  set (s' := Config m' _) in *. assert (mem s' = m') as Em by done.
  split; rewrite ?Em.
  - intros c ch' Hc Hs. destruct (Hm c ch' Hc) as [Hn _ ->| ch Hch E -> _|ch Hch _ E|ch Hch _ Hge E
      |ch Hch E|ch Hch E Hle _]; try congruence.
    + by apply no_turns.
    + apply (H1 c ch); congruence.
    + destruct (H2 c ch Hch). lia.
    + rewrite (H1 c ch) in Hle; [lia|done|congruence].
  - intros c ch' Hc. destruct (Hm c ch' Hc) as [Hn E ->| ch Hch E -> Er|ch Hch E0 E ->|ch Hch E Hge Et
      |ch Hch E Hge -> Er|ch Hch E Hle Er]; try (destruct (H2 c ch Hch) as [Hle1 H2']).
    + rewrite no_turns by done. split; [lia|congruence].
    + split; [done|]. intros. apply H2'; congruence.
    + rewrite (H1 c ch) by done. lia.
    + split; [lia|congruence].
    + split; [done|]. lia.
    + split; [lia|]. rewrite Em in Er. congruence.
  - intros c ch' Hc. by eapply wakeful_shape.
Qed.

Lemma turns_ok_step s t a s' es :
  inv s -> turns_ok s -> step pw stored_size t a s = Done (Some (s', es)) -> turns_ok s'.
Proof.
  intros I K. unfold step. destruct (threads s !! t) as [th|] eqn:Ht; [|done].
  destruct (thread_step _ _ _ _ _ _ _) as [[r|]| |] eqn:Er; simpl; try done. intros [= <- <-].
  eapply turns_ok_update; [done..|]. by eapply channel_step_shape.
Qed.

Lemma turns_ok_initial limits n : turns_ok (initial limits n).
Proof. by split. Qed.

End Progress.

End ChannelProgress.
