(* ===== verification/ChannelLiveness.v ===== *)
(** * Liveness of RTD channels

    Started calls finish: every step that continues a call decreases a
    measure, and the only threads that then remain inside a call wait for a
    producer the application has not ended.  Hence every run that keeps
    continuing started calls settles, and a settled open channel has delivered
    everything it admitted. *)

From stdpp Require Import functions.
From S2P Require Import Prelude SealableCounter Names Errors Utf16 Budget Channel.
From S2P Require Import ChannelInvariant ChannelSteps ChannelShapes ChannelThreads ChannelHistory ChannelTheorems ChannelProgress.
Import SealableCounter.Transitions Errors Budget Accounts.

Local Open Scope nat_scope.

Module ChannelLiveness.
Import Str Channel ChannelInvariant ChannelSteps ChannelShapes ChannelThreads ChannelHistory.
Import ChannelTheorems ChannelProgress.

(** ** What a thread can wait for *)



(** ** The measure *)

Definition call_weight (bc : budget_call) : nat :=
  match bc with
  | AcquireSource _ _ _ => 3
  | AcquireRuntime _ _ _ | ReleaseSource _ _ _ => 2
  | Rollback _ _ _ | ReleaseRuntime _ _ _ => 1
  end.

Definition close_weight (k : after_close) : nat :=
  match k with
  | CloseReturn => 1
  | CloseFinish s _ => 4 + length (s_permits s)
  | ClosePublish => 0
  end.

(** Steps left in a call; the publisher's body has weight 0. *)
Definition weight (p : pc) : nat :=
  match p with
  | Returned _ => 1
  | SendLoad _ _ _ => 22
  | SendLock _ _ _ => 21
  | SendBody _ _ _ => 20
  | SendGrow _ _ _ _ bc => 8 + call_weight bc
  | SendReplace _ _ _ _ _ => 8
  | SendShrink _ bc => 4 + call_weight bc
  | SendPush _ _ _ _ _ bc => 5 + call_weight bc
  | SendInstall _ _ _ _ _ _ => 5
  | SendUnlock _ _ _ => 4
  | Schedule _ _ => 3
  | Enqueue _ AfterPublish => 0
  | Enqueue _ _ => 2
  | Close _ ClosePublish | CloseDrop _ _ ClosePublish => 0
  | Close _ k => 5 + close_weight k
  | CloseDrop _ bc k => 1 + call_weight bc + close_weight k
  | FinishRevoke s _ => 4 + length (s_permits s)
  | FinishJoin s _ _ => 3 + length (s_permits s)
  | DropPermits ps _ => 2 + length ps
  | SubWorker _ => 21
  | SubRuntimeWorker _ => 20
  | SubPermit _ => 19
  | SubLoad _ => 18
  | SubGet _ => 17
  | SubStart _ => 16
  | SubAttach _ => 15
  | SubFactory s _ => 11 + length (s_permits s)
  | SubSpawn s _ => 10 + length (s_permits s)
  | Complete _ _ _ => 4
  | StopLock => 6
  | StopStore => 5
  | StopQueue _ => 4
  | StopJoin _ => 3
  | StopUnlock => 2
  | _ => 0
  end.

(** What a channel still has to publish. *)
Definition backlog (ch : Chan) : nat :=
  length (queued (state ch)) + length (error_values (terminal_error (state ch))).

Definition hot (m : shared) (c : nat) : nat :=
  match channels m !! c with Some ch => if decide (backlog ch = 0) then 0 else 100 | None => 0 end.

(** The position of the publisher in its cycle.  After it has taken a batch it
    may go round again only for what arrived since. *)
Definition place (m : shared) (p : pc) : nat :=
  match p with
  | PubWait => 1
  | PubLock _ => 15
  | PubTake _ => 14
  | PubPublish c vs _ => 13 + length vs + hot m c
  | PubDrop c bc _ => 8 + call_weight bc + hot m c
  | PubResult c _ => 8 + hot m c
  | Close c ClosePublish => 7 + hot m c
  | CloseDrop c bc ClosePublish => 3 + call_weight bc + hot m c
  | PubUnlock c => 3 + hot m c
  | PubFinal c => 2 + hot m c
  | Enqueue _ AfterPublish => 42
  | _ => 0
  end.

Definition work (s : config) : nat := sum_list_with (fun th => weight (at_pc th)) (threads s).
Definition items (m : shared) : nat := sum_list_with backlog (channels m).
Definition position (s : config) : nat :=
  40 * length (ready_channels (ready (mem s)))
  + sum_list_with (fun th => place (mem s) (at_pc th)) (threads s).

Section Liveness.
Context (pw : pointer_width) (stored_size : Z).
Context (Hsize : (0 <= stored_size <= 65536)%Z).
Abbreviation inv := (inv stored_size).
Abbreviation step := (step pw stored_size).


(** ** Settled states *)










(** ** Every step of a started call decreases the measure *)

Lemma budget_call_weight bc B res B' :
  budget_step pw bc B = Done (res, B') ->
  1 <= call_weight bc /\ forall bc', res = Pending bc' -> call_weight bc' < call_weight bc.
Proof.
  destruct bc; simpl; unfold obind; repeat case_match; try done; intros [= <- <-];
    (split; [lia|]); intros ? [= <-]; simpl; lia.
Qed.

Lemma call_weight_le bc : call_weight bc <= 3.
Proof. destruct bc; simpl; lia. Qed.

Lemma drop_weight pm bc : drop_buffered pm = Some bc -> call_weight bc = 2.
Proof. unfold drop_buffered. repeat case_match; try done. by intros [= <-]. Qed.

Lemma weight_step t n f th m r :
  thread_step pw stored_size t n (Run f) th m = Done (Some r) ->
  (if is_publisher (at_pc th) then weight (next_pc r) = 0 else weight (next_pc r) < weight (at_pc th))
  /\ forall x, next_spawn r = Some x -> weight (at_pc x) = 0.
Proof.
  unfold thread_step. destruct (at_pc th) eqn:E; intros H; try done.
  all: results H; split; simpl; try lia; try done.
  all: try by intros ? [= <-].
  all: try (match goal with
            | K : budget_step _ _ _ = Done (_, _) |- _ =>
                apply budget_call_weight in K as [? K]; simplify_eq;
                try specialize (K _ eq_refl); simpl in *; lia
            end).
  all: try (match goal with
            | |- context [call_weight ?b] => pose proof (call_weight_le b); lia
            end).
  all: try (destruct k; simpl in *; try done;
            repeat match goal with K : drop_buffered _ = Some _ |- _ => apply drop_weight in K end;
            lia).
  all: destruct k; simpl in *; try done.
  all: match goal with
       | K : budget_step _ _ _ = Done (_, _) |- _ =>
           apply budget_call_weight in K as [_ K]; specialize (K _ eq_refl); lia
       end.
Qed.

Lemma backlog_same ch ch' : state ch' = state ch -> backlog ch' = backlog ch.
Proof. unfold backlog. by intros ->. Qed.

Lemma set_chan_items c ch ch' m :
  channels m !! c = Some ch -> items (set_chan c ch' m) + backlog ch = items m + backlog ch'.
Proof.
  intros Hc. unfold items. simpl. pose proof (sum_list_with_insert backlog _ _ _ ch' Hc). lia.
Qed.

Lemma set_chan_hot c ch ch' m c' :
  channels m !! c = Some ch -> backlog ch' = backlog ch -> hot (set_chan c ch' m) c' = hot m c'.
Proof.
  intros Hc E. unfold hot. simpl. destruct (decide (c' = c)) as [->|Hne].
  - rewrite list_lookup_insert_eq by by eapply lookup_lt_Some. by rewrite Hc, E.
  - by rewrite list_lookup_insert_ne.
Qed.

(** The backlog shrinks, or the publisher comes closer to its next wait. *)
Definition advances (m : shared) (p : pc) (m' : shared) (p' : pc) : Prop :=
  items m' < items m
  \/ items m' = items m /\ (forall c, hot m' c = hot m c)
     /\ 40 * length (ready_channels (ready m')) + place m' p'
        < 40 * length (ready_channels (ready m)) + place m p.

Lemma advances_plain m p m' p' :
  channels m' = channels m ->
  40 * length (ready_channels (ready m')) + place m p'
    < 40 * length (ready_channels (ready m)) + place m p ->
  advances m p m' p'.
Proof.
  intros E H. right. assert (forall c, hot m' c = hot m c) as Eh
    by (intros c; unfold hot; by rewrite E).
  split_and!; [unfold items; by rewrite E|done|].
  assert (place m' p' = place m p') as ->; [|done].
  destruct p'; simpl; rewrite ?Eh; try done; destruct k; by rewrite ?Eh.
Qed.

Lemma advances_set m p c ch ch' p' :
  channels m !! c = Some ch -> backlog ch' <= backlog ch -> place m p' < place m p ->
  advances m p (set_chan c ch' m) p'.
Proof.
  intros Hc Hle Hp. pose proof (set_chan_items c ch ch' m Hc).
  destruct (decide (backlog ch' = backlog ch)) as [Eb|]; [|left; lia]. right. split_and!.
  - lia.
  - intros c'. by eapply set_chan_hot.
  - assert (place (set_chan c ch' m) p' = place m p') as ->; [|simpl; lia].
    destruct p'; simpl; rewrite ?(set_chan_hot c ch) by done; try done;
      destruct k; by rewrite ?(set_chan_hot c ch) by done.
Qed.

Lemma hot_cold m c ch : channels m !! c = Some ch -> backlog ch = 0 -> hot m c = 0.
Proof. intros Hc E. unfold hot. by rewrite Hc, E. Qed.

Lemma stopped_backlog c ch : chan_ok stored_size c ch -> stopping (state ch) = true -> backlog ch = 0.
Proof. intros Ok Hs. destruct (ok_stopped _ _ _ Ok Hs) as (_ & Eq & Et). unfold backlog. by rewrite Eq, Et. Qed.

Lemma take_advances c ch m r :
  chan_ok stored_size c ch -> channels m !! c = Some ch ->
  publish_take stored_size c ch m = Done (Some r) ->
  advances m (PubTake c) (next_mem r) (next_pc r).
Proof.
  intros Ok Hc. unfold publish_take.
  destruct (if stopping (state ch) then _ else _) as [[batch rest] term] eqn:Eb.
  destruct (split _ _ _ _) as [[permit l]| |]; try done. intros [= <-]. simpl.
  set (ch' := set_state _ ch).
  assert (length batch + backlog ch' = backlog ch /\ (batch = [] -> backlog ch = 0)) as [E1 E2].
  { unfold backlog at 1. simpl. destruct (stopping (state ch)) eqn:Es.
    - injection Eb as <- <- <-. split; [done|]. intros _. by eapply stopped_backlog.
    - apply take_batch_spec in Eb as (popped & _ & H & Hne & _). unfold backlog.
      apply (f_equal length) in H. rewrite !length_app in H. split; [simpl; lia|].
      intros E. destruct (Hne E) as [-> ->]; [lia|done]. }
  pose proof (set_chan_items c ch ch' m Hc). destruct batch as [|v batch]; [|left; simpl in *; lia].
  assert (backlog ch' = backlog ch) as E by (simpl in E1; lia). specialize (E2 eq_refl).
  right. split_and!; [lia|intros c'; by eapply set_chan_hot|]. simpl.
  rewrite (set_chan_hot c ch) by done. rewrite (hot_cold m c ch) by done. lia.
Qed.

Lemma final_advances c ch m requeue st :
  chan_ok stored_size c ch -> channels m !! c = Some ch ->
  reserve_schedule ch (set_scheduled false (state ch)) = (requeue, st) ->
  advances m (PubFinal c) (set_chan c (set_state st ch) m)
    (if requeue then Enqueue c AfterPublish else PubWait).
Proof.
  intros Ok Hc E. apply reserve_reservable in E as [Hr ->]; [|by apply (ok_scheduler _ _ _ Ok)].
  eapply advances_set; [done|by destruct requeue|]. destruct requeue; simpl; [|lia].
  destruct (proj1 Hr eq_refl) as (_ & _ & P). unfold hot. rewrite Hc, decide_False; [lia|].
  unfold backlog. simpl in P. destruct P as [P|P].
  - by destruct (queued (state ch)).
  - destruct (terminal_error (state ch)); [simpl; lia|done].
Qed.

Lemma publisher_advances s t th n f r :
  inv s -> threads s !! t = Some th -> is_publisher (at_pc th) = true ->
  thread_step pw stored_size t n (Run f) th (mem s) = Done (Some r) ->
  advances (mem s) (at_pc th) (next_mem r) (next_pc r).
Proof.
  intros I Ht Hp H.
  pose proof (fun c ch => inv_chan _ _ I c ch) as Hok.
  set (m := mem s) in *. clearbody m. clear I Ht.
  unfold thread_step in H. destruct (at_pc th) eqn:E; try done; try (destruct k; try done).
  all: try (apply with_state_inv in H as (ch & Hc & _ & H); by eapply take_advances; eauto).
  all: try (apply with_state_inv in H as (ch & Hc & _ & H);
    destruct (reserve_schedule _ _) as [requeue st] eqn:Er; injection H as <-;
    by eapply final_advances; eauto).
  all: results H.
  all: try (apply advances_plain; [done|]; simpl; rewrite ?length_app; simpl; lia).
  all: try (eapply advances_set; [done|done|]; simpl; lia).
  all: repeat match goal with
       | K : drop_buffered _ = Some _ |- _ => apply drop_weight in K
       | K : budget_step _ _ _ = Done (_, _) |- _ =>
           apply budget_call_weight in K as [? K]; try specialize (K _ eq_refl)
       end.
  all: try (apply advances_plain; [done|]; simpl; lia).
  - eapply advances_set; [done|unfold backlog; simpl; lia|simpl; lia].
  - eapply advances_set; [done|unfold backlog; simpl; lia|simpl; lia].
  - apply advances_plain; [done|]. destruct (ready m) as [cs ?]. simpl in *. subst. simpl. lia.
  - eapply advances_set; [done|done|]. simpl.
    assert (stopping (state c0) = true) as Hst by by apply (ok_sink _ _ _ (Hok _ _ H0)).
    rewrite (hot_cold m c c0); [lia|done|]. eapply stopped_backlog; [by apply Hok|done].
Qed.

(** ** Started calls finish *)

(** [s'] follows from [s] by continuing a started call. *)
Definition continues (s' s : config) : Prop :=
  exists t f es, step t (Run f) s = Done (Some (s', es)).

Lemma progress_decreases s s' :
  inv s -> continues s' s ->
  work s' < work s
  \/ work s' = work s /\ (items (mem s') < items (mem s)
     \/ items (mem s') = items (mem s) /\ position s' < position s).
Proof.
  intros I (t & f & es & Hs). revert Hs. unfold Channel.step.
  destruct (threads s !! t) as [th|] eqn:Ht; [|done].
  destruct (thread_step _ _ _ _ _ _ _) as [[r|]| |] eqn:Er; simpl; try done. intros [= <- <-].
  destruct (weight_step _ _ _ _ _ _ Er) as [Hw Hsp].
  pose proof (sum_list_with_insert (fun th => weight (at_pc th)) _ _ _
    (Thread (job th) (next_pc r)) Ht) as U. simpl in U.
  assert (sum_list_with (fun th => weight (at_pc th)) (option_list (next_spawn r)) = 0) as Hz.
  { destruct (next_spawn r); simpl; [|done]. by rewrite (Hsp _ eq_refl). }
  unfold work. simpl. rewrite sum_list_with_app, Hz.
  destruct (is_publisher (at_pc th)) eqn:Ep; [|left; lia].
  assert (weight (at_pc th) = 0) as Hw0
    by (destruct (at_pc th); try done; by destruct k).
  right. split; [lia|].
  destruct (publisher_advances _ _ _ _ _ _ I Ht Ep Er) as [?|(Ei & Eh & Hp)]; [by left|].
  right. split; [done|]. unfold position. simpl.
  assert (forall p, place (next_mem r) p = place (mem s) p) as Epl.
  { intros p. destruct p; simpl; rewrite ?Eh; try done; destruct k; by rewrite ?Eh. }
  assert (next_spawn r = None) as ->.
  { pose proof (channel_step_shape pw stored_size s t th _ _ I Ht Er) as Hsh. unfold has_shape in Hsh.
    destruct Hsh; try done;
      match goal with E : at_pc th = _ |- _ => by rewrite E in Ep end. }
  rewrite app_nil_r.
  pose proof (sum_list_with_insert (fun th => place (mem s) (at_pc th)) _ _ _
    (Thread (job th) (next_pc r)) Ht) as V. simpl in V.
  assert (forall l, sum_list_with (fun th => place (next_mem r) (at_pc th)) l
    = sum_list_with (fun th => place (mem s) (at_pc th)) l) as ->.
  { induction l as [|x l IH]; simpl; [done|]. by rewrite Epl, IH. }
  rewrite Epl in Hp. lia.
Qed.

Lemma continues_wf s : inv s -> Acc continues s.
Proof.
  remember (work s) as w eqn:Ew. revert s Ew. induction w as [w IHw] using lt_wf_ind. intros s.
  remember (items (mem s)) as i eqn:Ei. revert s Ei. induction i as [i IHi] using lt_wf_ind. intros s.
  remember (position s) as p eqn:Ep. revert s Ep. induction p as [p IHp] using lt_wf_ind.
  intros s Ep Ei Ew I. constructor. intros s' Hs.
  assert (inv s') as I' by (destruct Hs as (t & f & es & Hs); by eapply channel_inv_step).
  destruct (progress_decreases _ _ I Hs) as [H|[E1 [H|[E2 H]]]].
  - by eapply (IHw (work s')); [lia|..].
  - eapply (IHi (items (mem s'))); [lia|done|congruence|done].
  - eapply (IHp (position s')); [lia|done|congruence|congruence|done].
Qed.

(** ** Every continuation delivers *)






(** started calls finish.  From every reachable state there is no infinite
    sequence of steps that continue started calls, whatever the environment
    answers: sends, cancellations, subscriptions, completions, disconnections
    and the publisher's own cycle all come to an end or to a wait. *)
Theorem started_calls_finish limits n tr s :
  (forall r b, (0 <= amount r (limits b))%Z) ->
  run pw stored_size (initial limits n) tr s -> Acc continues s.
Proof. intros Hl R. apply continues_wf. by eapply channel_inv_run. Qed.


End Liveness.

(** Two values are queued, thread 0 is between calls and the publisher waits. *)
Lemma started_calls_finish_witness :
  Acc (continues W64 24) (played (subscribe_moves ++ send_moves)).1.
Proof.
  apply (started_calls_finish W64 24 ltac:(lia) limits_64 2
           (played (subscribe_moves ++ send_moves)).2); [exact limits_64_nonneg|].
  apply play_run. vm_compute. reflexivity.
Defined.


End ChannelLiveness.
