(* ===== verification/DataShard.v ===== *)
(** * Shards of the RTD data plane

    Models the data of crates/xlfn/src/subscription/delivery.rs and the
    critical sections of subscription/data_plane.rs and data_plane/refresh.rs
    that run under one shard mutex: reservation, installation, commit,
    rollback and disconnection of a connection, the commit of a value,
    collection, and the retirement of a collected update.  A section is a
    function of the shard; it returns the new shard and the updates of the
    atomic counters it performs, in their order, which DataPlane.v interleaves
    with the other threads.  [IndexMap] is the dense map of the pending
    updates, with the order its entries have. *)

From S2P Require Import Prelude SealableCounter Errors Channel.
Import SealableCounter.Transitions Errors Channel.

Local Open Scope Z_scope.

(** ** indexmap::IndexMap

    The entries in their dense order: insertion appends, [swap_remove] moves
    the last entry into the place of the removed one, [pop] removes the last. *)
Module IndexMap.
Section Map.
Context {A : Type}.

Fixpoint get (t : Z) (m : list (Z * A)) : option A :=
  match m with
  | [] => None
  | (k, a) :: m => if k =? t then Some a else get t m
  end.

Fixpoint set (t : Z) (a : A) (m : list (Z * A)) : list (Z * A) :=
  match m with
  | [] => []
  | (k, b) :: m => if k =? t then (k, a) :: m else (k, b) :: set t a m
  end.

Definition push (t : Z) (a : A) (m : list (Z * A)) : list (Z * A) := m ++ [(t, a)].

(** The entry of [t] is not the last one. *)
Fixpoint replace (t : Z) (e : Z * A) (m : list (Z * A)) : list (Z * A) :=
  match m with
  | [] => []
  | (k, b) :: m => if k =? t then e :: m else (k, b) :: replace t e m
  end.

Definition swap_remove (t : Z) (m : list (Z * A)) : list (Z * A) :=
  match last m with
  | None => m
  | Some e => replace t e (removelast m)
  end.

End Map.
End IndexMap.

Module Shard.

(** ** Values *)

(** [f64] equality on bit patterns. *)
Definition is_nan (n : Z) : bool :=
  (Z.land (Z.shiftr n 52) 0x7FF =? 0x7FF) && negb (Z.land n (2 ^ 52 - 1) =? 0).

Definition is_zero (n : Z) : bool := Z.land n (2 ^ 63 - 1) =? 0.

Definition f64_eq (a b : Z) : bool :=
  negb (is_nan a) && negb (is_nan b) && ((a =? b) || (is_zero a && is_zero b)).

(** The derived [PartialEq] of [StoredRtdValue]. *)
Definition value_eq (a b : StoredRtdValue) : bool :=
  match a, b with
  | Stored (Number x), Stored (Number y) => f64_eq x y
  | _, _ => bool_decide (a = b)
  end.

(** ** Data *)
Inductive BufferIndex : Type := First | Second.

#[export] Instance BufferIndex_eq_dec : EqDecision BufferIndex.
Proof. solve_decision. Defined.

Definition from_epoch (epoch : Z) : BufferIndex := if Z.land epoch 1 =? 0 then First else Second.

(** Arrays of two, indexed by a buffer. *)
Record both (A : Type) : Type := Both { first : A; second : A }.
Arguments Both {A} _ _.
Arguments first {A} _.
Arguments second {A} _.

Definition at_buffer {A} (b : BufferIndex) (x : both A) : A :=
  match b with First => first x | Second => second x end.

Definition put_buffer {A} (b : BufferIndex) (a : A) (x : both A) : both A :=
  match b with First => Both a (second x) | Second => Both (first x) a end.

Definition other (b : BufferIndex) : BufferIndex :=
  match b with First => Second | Second => First end.

Inductive ValueSlot : Type :=
| Empty
| Resident (generation sequence : Z) (value : StoredRtdValue)
| InFlight (generation sequence : Z).

Record ActiveSubscription : Type := Active {
  id : Z;
  generation : Z;
  committed : bool;
  values : both ValueSlot;
  latest_slot : option BufferIndex;
  next_sequence : Z;
}.

Record QueuedUpdate : Type := Queued {
  connection_generation : Z;
  q_sequence : Z;
}.

Record RtdUpdate : Type := Update {
  u_sequence : Z;
  u_topic : Z;
  u_generation : Z;
  u_buffer : BufferIndex;
  u_value : StoredRtdValue;
}.

Inductive RefreshOutcome : Type := Delivered | Failed.

#[export] Instance RefreshOutcome_eq_dec : EqDecision RefreshOutcome.
Proof. solve_decision. Defined.

Definition pending_map : Type := list (Z * QueuedUpdate).

Record TopicShard : Type := MkShard {
  active_by_topic : gmap Z ActiveSubscription;
  topic_by_id : gmap Z Z;
  pending : both pending_map;
  deliverable_count : Z;
}.

Definition shard_new : TopicShard := MkShard ∅ ∅ (Both [] []) 0.

Definition set_active (t : Z) (a : ActiveSubscription) (sh : TopicShard) : TopicShard :=
  MkShard (<[t := a]> (active_by_topic sh)) (topic_by_id sh) (pending sh) (deliverable_count sh).
Definition set_pending (b : BufferIndex) (m : pending_map) (sh : TopicShard) : TopicShard :=
  MkShard (active_by_topic sh) (topic_by_id sh) (put_buffer b m (pending sh))
    (deliverable_count sh).
Definition set_count (n : Z) (sh : TopicShard) : TopicShard :=
  MkShard (active_by_topic sh) (topic_by_id sh) (pending sh) n.
Definition set_slot (b : BufferIndex) (v : ValueSlot) (a : ActiveSubscription)
  : ActiveSubscription :=
  Active (id a) (generation a) (committed a) (put_buffer b v (values a)) (latest_slot a)
    (next_sequence a).
Definition set_committed (a : ActiveSubscription) : ActiveSubscription :=
  Active (id a) (generation a) true (values a) (latest_slot a) (next_sequence a).

Definition TOPIC_SHARDS : Z := 32.

(** ** Diagnostic codes *)
Definition TOPIC_ID_DUPLICATE : Z := from_ascii8 "TOPICIDD".
Definition TOPIC_KEY_DUPLICATE : Z := from_ascii8 "TOPICKEY".
Definition REFERENCE_OVERFLOW : Z := from_ascii8 "REFOVFLW".
Definition TICKET_OVERFLOW : Z := from_ascii8 "TICKOVFL".
Definition NO_REFERENCE : Z := from_ascii8 "NOREFRAC".
Definition OVERLAPPED_REFERENCE : Z := from_ascii8 "OVLPREFR".
Definition REFERENCE_ID_MISMATCH : Z := from_ascii8 "REFRIDMI".
Definition RTD_SUBSCRIPTION_OVERFLOW : Z := from_ascii8 "RTDSUBOV".
Definition PANIC_NOTIFY : Z := from_ascii8 "PANICNOT".

(** ** Counter updates

    What a section does to the atomic counters: [pending_updates],
    [deliverable_pending], the bit of its shard in [ready_shards], and the
    permits of the two quotas that it drops. *)
Inductive counter_op : Type :=
| PendingAdd
| PendingSub
| DeliverableAdd (n : Z)
| DeliverableSub
| ReadyOr
| ReadyClear
| QueuedRelease
| ActiveRelease.

Section Ops.
Context (pw : pointer_width).

Definition shard_index (topic_id : Z) : Z :=
  Z.land (wrap (bits pw) topic_id) (TOPIC_SHARDS - 1).

Definition record_deliverable_increase (n : Z) (sh : TopicShard)
  : outcome (TopicShard * list counter_op) :=
  if n =? 0 then Done (sh, [])
  else
    match checked_add (bits pw) (deliverable_count sh) n with
    | None => Aborted
    | Some c =>
        Done (set_count c sh,
              DeliverableAdd n :: if deliverable_count sh =? 0 then [ReadyOr] else [])
    end.

Definition record_deliverable_decrease (sh : TopicShard)
  : outcome (TopicShard * list counter_op) :=
  match checked_sub (deliverable_count sh) 1 with
  | None => Aborted
  | Some c => Done (set_count c sh, DeliverableSub :: if c =? 0 then [ReadyClear] else [])
  end.

Definition record_pending_insert (deliverable : bool) (sh : TopicShard)
  : outcome (TopicShard * list counter_op) :=
  if deliverable then
    let* (sh, ops) := record_deliverable_increase 1 sh in Done (sh, PendingAdd :: ops)
  else Done (sh, [PendingAdd]).

Definition record_pending_removal (deliverable : bool) (sh : TopicShard)
  : outcome (TopicShard * list counter_op) :=
  if deliverable then
    let* (sh, ops) := record_deliverable_decrease sh in Done (sh, PendingSub :: ops)
  else Done (sh, [PendingSub]).

(** [remove_queued_if]: the map without the entry, when it was removed. *)
Definition remove_queued_if (m : pending_map) (t : Z) (p : QueuedUpdate -> bool)
  : option pending_map :=
  match last m with
  | None => None
  | Some (k, q) =>
      if k =? t then if p q then Some (removelast m) else None
      else
        match IndexMap.get t m with
        | None => None
        | Some q => if p q then Some (IndexMap.swap_remove t m) else None
        end
  end.

(** Removes an entry, dropping its permit, and accounts for it. *)
Definition remove_entry (b : BufferIndex) (t : Z) (p : QueuedUpdate -> bool) (deliverable : bool)
    (sh : TopicShard) : outcome (TopicShard * list counter_op) :=
  match remove_queued_if (at_buffer b (pending sh)) t p with
  | None => Done (sh, [])
  | Some m =>
      let* (sh, ops) := record_pending_removal deliverable (set_pending b m sh) in
      Done (sh, QueuedRelease :: ops)
  end.

Definition committed_topic (sh : TopicShard) (t : Z) : bool :=
  match active_by_topic sh !! t with Some a => committed a | None => false end.

Definition remove_pending_if (b : BufferIndex) (t : Z) (p : QueuedUpdate -> bool)
    (sh : TopicShard) : outcome (TopicShard * list counter_op) :=
  remove_entry b t p (committed_topic sh t) sh.

(** The same removal from both buffers, the first one first. *)
Definition remove_both (t : Z) (p : QueuedUpdate -> bool) (deliverable : bool)
    (sh : TopicShard) : outcome (TopicShard * list counter_op) :=
  let* (sh, ops) := remove_entry First t p deliverable sh in
  let* (sh, ops') := remove_entry Second t p deliverable sh in
  Done (sh, ops ++ ops').

Definition has_pending (b : BufferIndex) (t : Z) (sh : TopicShard) : bool :=
  bool_decide (is_Some (IndexMap.get t (at_buffer b (pending sh)))).

(** ** Connections *)

Definition latest_slot_state (a : ActiveSubscription) : option ValueSlot :=
  match latest_slot a with Some b => Some (at_buffer b (values a)) | None => None end.

Definition latest_value (a : ActiveSubscription) : option StoredRtdValue :=
  match latest_slot_state a with Some (Resident _ _ v) => Some v | _ => None end.

(** [quota_ok] is the answer of the active quota; the quota is asked only when
    the answer matters ([Some] in the second component). *)
Definition reserve_connection (t id' g : Z) (quota_ok : bool) (sh : TopicShard)
  : TopicShard * bool * XllResult unit :=
  match active_by_topic sh !! t with
  | Some _ => (sh, false, Err (Internal TOPIC_ID_DUPLICATE))
  | None =>
      match topic_by_id sh !! id' with
      | Some _ => (sh, false, Err (Internal TOPIC_KEY_DUPLICATE))
      | None =>
          if quota_ok then
            (MkShard (<[t := Active id' g false (Both Empty Empty) None 0]> (active_by_topic sh))
               (<[id' := t]> (topic_by_id sh)) (pending sh) (deliverable_count sh),
             true, Ok tt)
          else (sh, false, Err Overloaded)
      end
  end.

Definition sequence_of (b : BufferIndex) (t g : Z) (sh : TopicShard) : option Z :=
  match IndexMap.get t (at_buffer b (pending sh)) with
  | Some q => if connection_generation q =? g then Some (q_sequence q) else None
  | None => None
  end.

Definition option_max (a b : option Z) : option Z :=
  match a, b with
  | Some x, Some y => Some (Z.max x y)
  | Some x, None => Some x
  | None, o => o
  end.

(** The order in which the two buffers are read depends on the epoch, their
    maximum does not. *)
Definition install_connection (t g : Z) (sh : TopicShard)
  : XllResult (StoredRtdValue * option Z) :=
  match active_by_topic sh !! t with
  | None => Err Closing
  | Some a =>
      if negb (generation a =? g) then Err Closing
      else Ok (default (Stored EmptyValue) (latest_value a),
               option_max (sequence_of First t g sh) (sequence_of Second t g sh))
  end.

(** [commit_connection] up to the load of the epoch. *)
Definition commit_removals (t g : Z) (observed : option Z) (sh : TopicShard)
  : outcome (XllResult (TopicShard * list counter_op)) :=
  match active_by_topic sh !! t with
  | None => Done (Err Closing)
  | Some a =>
      if negb (generation a =? g) then Done (Err Closing)
      else
        match observed with
        | None => Done (Ok (sh, []))
        | Some obs =>
            let* r := remove_both t (fun q => q_sequence q <=? obs) (committed a) sh in
            Done (Ok r)
        end
  end.

Definition pending_counted (b : BufferIndex) (t g : Z) (observed : option Z) (sh : TopicShard)
  : bool :=
  match sequence_of b t g sh, observed with
  | Some s, Some obs => obs <? s
  | Some _, None => true
  | None, _ => false
  end.

(** The rest of [commit_connection] under the lock, with [has_pending]. *)
Definition commit_install (t g : Z) (observed : option Z) (sh : TopicShard)
  : outcome (TopicShard * list counter_op * bool) :=
  match active_by_topic sh !! t with
  | None => Done (sh, [], false)
  | Some a =>
      let n := Z.b2z (pending_counted First t g observed sh)
               + Z.b2z (pending_counted Second t g observed sh) in
      let sh' := set_active t (set_committed a) sh in
      let* (sh', ops) :=
        if negb (committed a) && negb (n =? 0) then record_deliverable_increase n sh'
        else Done (sh', []) in
      Done (sh', ops, negb (n =? 0))
  end.

Definition generation_is (g : Z) (o : option ActiveSubscription) : bool :=
  match o with Some a => generation a =? g | None => false end.

Definition rollback_connection (t g id' : Z) (sh : TopicShard)
  : outcome (TopicShard * list counter_op * bool) :=
  let p q := connection_generation q =? g in
  let* (sh, ops) := remove_pending_if First t p sh in
  let* (sh, ops') := remove_pending_if Second t p sh in
  let removed := generation_is g (active_by_topic sh !! t) in
  let active := if removed then delete t (active_by_topic sh) else active_by_topic sh in
  let forget :=
    match topic_by_id sh !! id' with
    | Some tid => match active !! tid with Some a => generation a =? g | None => true end
    | None => false
    end in
  Done (MkShard active (if forget then delete id' (topic_by_id sh) else topic_by_id sh)
          (pending sh) (deliverable_count sh),
        ops ++ ops' ++ (if removed then [ActiveRelease] else []), removed).

Definition disconnect_connection (t : Z) (sh : TopicShard)
  : outcome (TopicShard * list counter_op * option (Z * Z)) :=
  match active_by_topic sh !! t with
  | None => Done (sh, [], None)
  | Some a =>
      let* (sh, ops) := remove_both t (fun _ => true) (committed a) sh in
      Done (MkShard (delete t (active_by_topic sh)) (delete (id a) (topic_by_id sh))
              (pending sh) (deliverable_count sh),
            ops ++ [ActiveRelease], Some (id a, generation a))
  end.

(** ** Publication *)

(** What [commit_value] did: whether the connection is committed and the value
    new, and whether a queued-update permit was taken. *)
Record commit_result : Type := Committed {
  c_shard : TopicShard;
  c_ops : list counter_op;
  c_permit : bool;
  c_stored : option Z;
  c_result : XllResult bool;
}.

Definition refused (sh : TopicShard) (e : XllError) : commit_result :=
  Committed sh [] false None (Err e).

(** [quota_ok] is the answer of the queued-update quota. *)
Definition commit_value (b : BufferIndex) (t g : Z) (v : StoredRtdValue) (quota_ok : bool)
    (sh : TopicShard) : outcome commit_result :=
  match active_by_topic sh !! t with
  | None => Done (refused sh Closing)
  | Some a =>
      if negb (generation a =? g) then Done (refused sh Closing)
      else if match latest_slot_state a with
              | Some (Resident _ _ w) => value_eq w v
              | _ => false
              end
      then Done (Committed sh [] false None (Ok false))
      else
        let s := next_sequence a in
        match checked_add 64 s 1 with
        | None => Done (refused sh (Internal REFERENCE_OVERFLOW))
        | Some s' =>
            let a' := Active (id a) (generation a) (committed a) (values a) (latest_slot a) s' in
            let m := at_buffer b (pending sh) in
            let q := Queued (generation a) s in
            let store m' :=
              let a'' := Active (id a) (generation a) (committed a)
                           (put_buffer b (Resident (generation a) s v) (values a)) (Some b) s' in
              set_pending b m' (set_active t a'' sh) in
            match IndexMap.get t m with
            | Some _ =>
                Done (Committed (store (IndexMap.set t q m)) [] false (Some s)
                        (Ok (committed a)))
            | None =>
                if quota_ok then
                  let* (sh', ops) :=
                    record_pending_insert (committed a) (store (IndexMap.push t q m)) in
                  Done (Committed sh' ops true (Some s) (Ok (committed a)))
                else Done (refused (set_active t a' sh) Overloaded)
            end
        end
  end.

(** ** Collection *)
Definition push_deliverable (b : BufferIndex) (t : Z) (q : QueuedUpdate)
    (st : TopicShard * list RtdUpdate) : TopicShard * list RtdUpdate :=
  let '(sh, ups) := st in
  match active_by_topic sh !! t with
  | None => st
  | Some a =>
      if negb (committed a) || negb (generation a =? connection_generation q) then st
      else
        match at_buffer b (values a) with
        | Resident g s v =>
            if negb (g =? connection_generation q) || negb (s =? q_sequence q) then st
            else (set_active t (set_slot b (InFlight g s) a) sh, ups ++ [Update s t g b v])
        | _ => st
        end
  end.

(** The choice between the two entries of one topic. *)
Definition select_newest (sh : TopicShard) (t : Z) (q0 : QueuedUpdate) (q1 : option QueuedUpdate)
  : option (BufferIndex * QueuedUpdate) :=
  match active_by_topic sh !! t with
  | None => None
  | Some a =>
      if negb (committed a) then None
      else
        let d1 := match q1 with
                  | Some q => if connection_generation q =? generation a then Some q else None
                  | None => None
                  end in
        match connection_generation q0 =? generation a, d1 with
        | true, Some q1 =>
            if q_sequence q0 <? q_sequence q1 then Some (Second, q1) else Some (First, q0)
        | true, None => Some (First, q0)
        | false, Some q1 => Some (Second, q1)
        | false, None => None
        end
  end.

Definition push_selected (p1 : pending_map) (st : TopicShard * list RtdUpdate)
    (e : Z * QueuedUpdate) : TopicShard * list RtdUpdate :=
  match select_newest (fst st) (fst e) (snd e) (IndexMap.get (fst e) p1) with
  | Some (b, q) => push_deliverable b (fst e) q st
  | None => st
  end.

Definition push_second (p0 : pending_map) (st : TopicShard * list RtdUpdate)
    (e : Z * QueuedUpdate) : TopicShard * list RtdUpdate :=
  match IndexMap.get (fst e) p0 with
  | None => push_deliverable Second (fst e) (snd e) st
  | Some _ => st
  end.

Definition collect_shard_into (sh : TopicShard) (ups : list RtdUpdate)
  : TopicShard * list RtdUpdate :=
  if deliverable_count sh =? 0 then (sh, ups)
  else
    let p0 := first (pending sh) in
    let p1 := second (pending sh) in
    match p0, p1 with
    | _, [] => foldl (fun st e => push_deliverable First (fst e) (snd e) st) (sh, ups) p0
    | [], _ => foldl (fun st e => push_deliverable Second (fst e) (snd e) st) (sh, ups) p1
    | _, _ => foldl (push_second p0) (foldl (push_selected p1) (sh, ups) p0) p1
    end.

(** ** Retirement *)

(** A slot that holds neither the latest value nor a pending one is emptied. *)
Definition sweep_slot (b : BufferIndex) (t g s : Z) (sh : TopicShard) (a : ActiveSubscription)
  : ActiveSubscription :=
  match at_buffer b (values a) with
  | Resident g' s' _ =>
      if (g' =? g) && (s' <=? s) && negb (bool_decide (latest_slot a = Some b))
         && negb (has_pending b t sh)
      then set_slot b Empty a
      else a
  | _ => a
  end.

Definition retire_pending_through (t g s : Z) (sh : TopicShard)
  : outcome (TopicShard * list counter_op) :=
  let p q := (connection_generation q =? g) && (q_sequence q <=? s) in
  let* (sh, ops) := remove_pending_if First t p sh in
  let* (sh, ops') := remove_pending_if Second t p sh in
  Done (match active_by_topic sh !! t with
        | Some a => set_active t (sweep_slot Second t g s sh (sweep_slot First t g s sh a)) sh
        | None => sh
        end, ops ++ ops').

(** The update is still the one in flight. *)
Definition in_flight (u : RtdUpdate) (a : ActiveSubscription) : bool :=
  (generation a =? u_generation u)
  && match at_buffer (u_buffer u) (values a) with
     | InFlight g s => (g =? u_generation u) && (s =? u_sequence u)
     | _ => false
     end.

Definition land_update (u : RtdUpdate) (outcome : RefreshOutcome) (sh : TopicShard) : TopicShard :=
  match active_by_topic sh !! u_topic u with
  | None => sh
  | Some a =>
      if in_flight u a then
        let back := Resident (u_generation u) (u_sequence u) (u_value u) in
        let v :=
          match outcome with
          | Delivered =>
              if bool_decide (latest_slot a = Some (u_buffer u)) then back else Empty
          | Failed => back
          end in
        set_active (u_topic u) (set_slot (u_buffer u) v a) sh
      else sh
  end.

(** One iteration of the loop of [complete_refresh_inner]. *)
Definition retire_update (u : RtdUpdate) (outcome : RefreshOutcome) (sh : TopicShard)
  : Prelude.outcome (TopicShard * list counter_op) :=
  let sh := land_update u outcome sh in
  match outcome with
  | Delivered => retire_pending_through (u_topic u) (u_generation u) (u_sequence u) sh
  | Failed => Done (sh, [])
  end.

(** ** Termination *)

(** Dropping a map of pending updates drops their permits. *)
Definition drop_pending (m : pending_map) : list counter_op := map (fun _ => QueuedRelease) m.

Definition clear_shard (sh : TopicShard) : TopicShard * list counter_op :=
  (MkShard (active_by_topic sh) (topic_by_id sh) (Both [] []) 0,
   drop_pending (first (pending sh)) ++ drop_pending (second (pending sh))).

(** [mem::take] of the shard: its connections, and the permits dropped. *)
Definition take_shard (sh : TopicShard) : list (Z * Z) * list counter_op :=
  (map (fun e => (id (snd e), generation (snd e))) (map_to_list (active_by_topic sh)),
   drop_pending (first (pending sh)) ++ drop_pending (second (pending sh))
   ++ map (fun _ => ActiveRelease) (map_to_list (active_by_topic sh))).

End Ops.
End Shard.
