(* ===== verification/ShardInvariant.v ===== *)
(** * The invariant of a shard and what its sections keep

    [IndexMapFacts] gives the dense map of pending updates the laws of a map;
    [ShardInvariant] says when a shard is well formed and how every section of
    DataShard.v changes it. *)

From stdpp Require Import sorting.
From S2P Require Import Prelude SealableCounter Errors Channel DataShard.
Import SealableCounter.Transitions Errors Channel DataShard.Shard.

Local Open Scope Z_scope.

Module IndexMapFacts.
Import IndexMap.
Section Facts.
Context {A : Type}.
Implicit Types m : list (Z * A).

Definition keys m : list Z := m.*1.

Lemma get_entry t a m : NoDup (keys m) -> get t m = Some a <-> (t, a) ∈ m.
Proof.
  induction m as [|[k b] m IH]; simpl; intros Hn; [by split; [|rewrite elem_of_nil]|].
  apply NoDup_cons in Hn as [Hk Hn]. rewrite elem_of_cons. case_match eqn:E.
  - apply Z.eqb_eq in E as ->. split; [intros [= ->]; by left|]. intros [[= ->]|Hin]; [done|].
    destruct Hk. by apply (list_elem_of_fmap_2 fst m (t, a)).
  - apply Z.eqb_neq in E. rewrite IH by done. split; [by right|]. intros [?|?]; [by simplify_eq|done].
Qed.

Lemma get_None t m : get t m = None <-> t ∉ keys m.
Proof.
  induction m as [|[k b] m IH]; simpl; [split; [intros _; apply not_elem_of_nil|done]|].
  rewrite not_elem_of_cons, <- IH. destruct (Z.eqb_spec k t) as [->|Hk].
  - split; [done|]. intros []. done.
  - split; [intros; split; [congruence|done]|]. intros []. done.
Qed.

Lemma get_perm t m m' : NoDup (keys m) -> m ≡ₚ m' -> get t m = get t m'.
Proof.
  intros Hn Hp. assert (NoDup (keys m')) as Hn' by (unfold keys; by rewrite <- Hp).
  destruct (get t m) as [a|] eqn:E.
  - apply get_entry in E; [|done]. symmetry. apply get_entry; [done|]. by rewrite <- Hp.
  - symmetry. apply get_None. apply get_None in E. unfold keys. by rewrite <- Hp.
Qed.

Lemma set_perm t a b m :
  get t m = Some b -> exists m', m ≡ₚ (t, b) :: m' /\ set t a m ≡ₚ (t, a) :: m'.
Proof.
  induction m as [|[k c] m IH]; simpl; [done|].
  destruct (Z.eqb_spec k t) as [->|Hk].
  - intros [= ->]. by exists m.
  - intros H. destruct (IH H) as (m' & H1 & H2). exists ((k, c) :: m').
    split; [rewrite H1|rewrite H2]; apply perm_swap.
Qed.

Lemma get_set t a b u m :
  get t m = Some b -> get u (set t a m) = if u =? t then Some a else get u m.
Proof.
  induction m as [|[k c] m IH]; simpl; [done|].
  destruct (Z.eqb_spec k t) as [->|Hk]; simpl.
  - intros _. rewrite (Z.eqb_sym t u). by destruct (u =? t).
  - intros H. rewrite (IH H). destruct (Z.eqb_spec k u), (Z.eqb_spec u t); congruence.
Qed.

Lemma keys_set t a b m : get t m = Some b -> keys (set t a m) = keys m.
Proof.
  induction m as [|[k c] m IH]; simpl; [done|].
  destruct (k =? t); simpl; [done|]. intros H. f_equal. by apply IH.
Qed.

Lemma get_push t a u m :
  get t m = None -> get u (push t a m) = if u =? t then Some a else get u m.
Proof.
  unfold push. induction m as [|[k c] m IH]; simpl.
  - intros _. rewrite (Z.eqb_sym t u). by destruct (u =? t).
  - destruct (Z.eqb_spec k t) as [->|Hk]; [done|]. intros H. rewrite (IH H).
    destruct (Z.eqb_spec k u), (Z.eqb_spec u t); congruence.
Qed.

Lemma replace_perm t q e m :
  get t m = Some q -> exists m', m ≡ₚ (t, q) :: m' /\ replace t e m ≡ₚ e :: m'.
Proof.
  induction m as [|[k c] m IH]; simpl; [done|].
  destruct (Z.eqb_spec k t) as [->|Hk].
  - intros [= ->]. by exists m.
  - intros H. destruct (IH H) as (m' & H1 & H2). exists ((k, c) :: m').
    split; [rewrite H1|rewrite H2]; apply perm_swap.
Qed.

Lemma removelast_snoc (l : list (Z * A)) x : removelast (l ++ [x]) = l.
Proof. apply removelast_last. Qed.

Lemma get_app_None t m m' : get t m = None -> get t (m ++ m') = get t m'.
Proof. induction m as [|[k c] m IH]; simpl; [done|]. by destruct (k =? t). Qed.

Lemma get_app_Some t m m' a : get t m = Some a -> get t (m ++ m') = Some a.
Proof. induction m as [|[k c] m IH]; simpl; [done|]. by destruct (k =? t). Qed.

Lemma last_snoc_inv m e : last m = Some e -> exists l, m = l ++ [e].
Proof. apply last_Some. Qed.

End Facts.

Lemma remove_queued_Some m t p m' :
  NoDup (keys m) -> remove_queued_if m t p = Some m' ->
  exists q, get t m = Some q /\ p q = true /\ m ≡ₚ (t, q) :: m'.
Proof.
  intros Hn. unfold remove_queued_if. destruct (last m) as [[k q]|] eqn:E; [|done].
  apply last_Some in E as [l ->]. destruct (Z.eqb_spec k t) as [->|Hk].
  - destruct (p q) eqn:Hp; [|done]. intros [= <-]. rewrite removelast_snoc.
    exists q. split_and!; [|done|by rewrite Permutation_app_comm].
    apply get_entry; [done|]. apply elem_of_app. right. by apply list_elem_of_singleton.
  - destruct (get t (l ++ [(k, q)])) as [q'|] eqn:G; [|done].
    destruct (p q') eqn:Hp; [|done]. intros [= <-]. exists q'. split_and!; [done..|].
    unfold swap_remove. rewrite last_snoc, removelast_snoc.
    assert (get t l = Some q') as Gl.
    { destruct (get t l) eqn:Gl; [by rewrite (get_app_Some _ _ _ _ Gl) in G|].
      rewrite (get_app_None _ _ _ Gl) in G. simpl in G.
      by rewrite (proj2 (Z.eqb_neq k t) Hk) in G. }
    destruct (replace_perm t q' (k, q) l Gl) as (l' & H1 & H2).
    rewrite H2, H1. rewrite Permutation_app_comm. simpl. apply perm_swap.
Qed.

Lemma remove_queued_None m t p q :
  NoDup (keys m) -> remove_queued_if m t p = None -> get t m = Some q -> p q = false.
Proof.
  intros Hn. unfold remove_queued_if. destruct (last m) as [[k q']|] eqn:E.
  - apply last_Some in E as [l ->]. destruct (Z.eqb_spec k t) as [->|Hk].
    + destruct (p q') eqn:Hp; [done|]. intros _ G.
      assert (get t (l ++ [(t, q')]) = Some q') as G'; [|congruence].
      apply get_entry; [done|]. apply elem_of_app. right. by apply list_elem_of_singleton.
    + intros H G. rewrite G in H. by destruct (p q).
  - apply last_None in E as ->. done.
Qed.

Lemma remove_queued_get m t p m' u :
  NoDup (keys m) -> remove_queued_if m t p = Some m' ->
  NoDup (keys m') /\ get u m' = if u =? t then None else get u m.
Proof.
  intros Hn H. destruct (remove_queued_Some _ _ _ _ Hn H) as (q & _ & _ & Hp).
  rewrite (get_perm u m _ Hn Hp). unfold keys in Hn. rewrite Hp in Hn.
  apply NoDup_cons in Hn as [Ht Hn]. split; [done|]. simpl. rewrite (Z.eqb_sym t u).
  destruct (Z.eqb_spec u t) as [->|]; [by apply get_None|done].
Qed.

End IndexMapFacts.

(** ** Counting pending entries *)
Module PendingCount.
Import IndexMap IndexMapFacts.

Definition count_in (f : Z -> bool) (m : pending_map) : Z :=
  ztotal (fun e => Z.b2z (f (fst e))) m.

Lemma ztotal_perm {A} (f : A -> Z) l k : l ≡ₚ k -> ztotal f l = ztotal f k.
Proof. induction 1; simpl; lia. Qed.

Lemma count_nonneg f m : 0 <= count_in f m.
Proof. apply ztotal_nonneg. intros i [k q] _. simpl. destruct (f k); simpl; lia. Qed.

Lemma count_mono f g m : (forall t, f t = true -> g t = true) -> count_in f m <= count_in g m.
Proof.
  intros Hfg. unfold count_in. induction m as [|[k q] m IH]; simpl; [lia|].
  specialize (Hfg k). destruct (f k); [rewrite Hfg by done|destruct (g k)]; simpl; lia.
Qed.

Lemma count_ext f g m :
  (forall t, is_Some (get t m) -> f t = g t) -> NoDup (keys m) -> count_in f m = count_in g m.
Proof.
  intros Hfg Hn. apply ztotal_ext. intros i [k q] Hi. simpl. f_equal. apply Hfg.
  exists q. apply get_entry; [done|]. by eapply list_elem_of_lookup_2.
Qed.

Lemma count_remove f m t p m' :
  NoDup (keys m) -> remove_queued_if m t p = Some m' ->
  count_in f m = Z.b2z (f t) + count_in f m'.
Proof.
  intros Hn H. destruct (remove_queued_Some _ _ _ _ Hn H) as (q & _ & _ & Hp).
  unfold count_in. rewrite (ztotal_perm _ _ _ Hp). done.
Qed.

Lemma count_push f m t q : count_in f (push t q m) = count_in f m + Z.b2z (f t).
Proof. unfold count_in, push. rewrite ztotal_app. simpl. lia. Qed.

Lemma count_set f m t q q' : get t m = Some q' -> count_in f (set t q m) = count_in f m.
Proof.
  intros H. destruct (set_perm t q q' m H) as (m' & H1 & H2). unfold count_in.
  rewrite (ztotal_perm _ _ _ H1), (ztotal_perm _ _ _ H2). done.
Qed.

Lemma count_switch f g m t :
  NoDup (keys m) -> f t = false -> g t = true -> (forall u, u <> t -> f u = g u) ->
  count_in g m = count_in f m + match get t m with Some _ => 1 | None => 0 end.
Proof.
  intros Hn Hf Hg Hu. unfold count_in. induction m as [|[k q] m IH]; simpl.
  - done.
  - apply NoDup_cons in Hn as [Hk Hn]. specialize (IH Hn).
    destruct (Z.eqb_spec k t) as [->|Hkt].
    + rewrite Hf, Hg. rewrite (proj2 (get_None t m) Hk) in IH. simpl. lia.
    + rewrite (Hu k) by done. lia.
Qed.

Lemma count_in_pos f m t q : get t m = Some q -> f t = true -> 1 <= count_in f m.
Proof.
  intros G Hf. destruct (set_perm t q q m G) as (m' & Hp & _). unfold count_in.
  rewrite (ztotal_perm _ _ _ Hp). simpl. rewrite Hf. pose proof (count_nonneg f m').
  unfold count_in in *. simpl. lia.
Qed.

End PendingCount.

Module ShardInvariant.
Import IndexMap IndexMapFacts PendingCount.

(** ** Well-formed shards *)
Definition pend (b : BufferIndex) (t : Z) (sh : TopicShard) : option QueuedUpdate :=
  get t (at_buffer b (pending sh)).

Definition version (v : ValueSlot) : option (Z * Z) :=
  match v with Empty => None | Resident g s _ | InFlight g s => Some (g, s) end.

Definition slot_version (b : BufferIndex) (a : ActiveSubscription) : option (Z * Z) :=
  version (at_buffer b (values a)).

Record active_ok (a : ActiveSubscription) : Prop := {
  slot_own : forall b g s, slot_version b a = Some (g, s) ->
    g = generation a /\ 0 <= s < next_sequence a;
  latest_newest : forall b, latest_slot a = Some b ->
    exists g s, slot_version b a = Some (g, s)
                /\ forall g' s', slot_version (other b) a = Some (g', s') -> s' < s;
  latest_none : latest_slot a = None -> forall b, at_buffer b (values a) = Empty;
  uncommitted_resident : committed a = false ->
    forall b g s, at_buffer b (values a) <> InFlight g s;
  sequence_range : 0 <= next_sequence a < 2 ^ 64;
}.

Definition deliverables (sh : TopicShard) : Z :=
  count_in (committed_topic sh) (first (pending sh))
  + count_in (committed_topic sh) (second (pending sh)).

Definition queued_total (sh : TopicShard) : Z :=
  count_in (fun _ => true) (first (pending sh)) + count_in (fun _ => true) (second (pending sh)).

Section Invariant.
Context (pw : pointer_width).

Record shard_ok (i : Z) (sh : TopicShard) : Prop := {
  pending_nodup : forall b, NoDup (keys (at_buffer b (pending sh)));
  pending_slot : forall b t q, pend b t sh = Some q ->
    exists a, active_by_topic sh !! t = Some a
              /\ slot_version b a = Some (connection_generation q, q_sequence q);
  actives_ok : forall t a, active_by_topic sh !! t = Some a ->
    active_ok a /\ shard_index pw t = i;
  ids_ok : forall d t, topic_by_id sh !! d = Some t <->
    exists a, active_by_topic sh !! t = Some a /\ id a = d;
  count_exact : deliverable_count sh = deliverables sh;
}.

(** ** Tallies: what a shard contributes to the four counters *)
Record tally : Type := Tally { t_pending : Z; t_deliverable : Z; t_queued : Z; t_active : Z }.

Definition tally_add (x y : tally) : tally :=
  Tally (t_pending x + t_pending y) (t_deliverable x + t_deliverable y)
    (t_queued x + t_queued y) (t_active x + t_active y).

Definition op_tally (o : counter_op) : tally :=
  match o with
  | PendingAdd => Tally 1 0 0 0
  | PendingSub => Tally (-1) 0 0 0
  | DeliverableAdd n => Tally 0 n 0 0
  | DeliverableSub => Tally 0 (-1) 0 0
  | ReadyOr | ReadyClear => Tally 0 0 0 0
  | QueuedRelease => Tally 0 0 (-1) 0
  | ActiveRelease => Tally 0 0 0 (-1)
  end.

Definition apply_ops (ops : list counter_op) (x : tally) : tally :=
  foldl (fun x o => tally_add x (op_tally o)) x ops.

Definition measure (sh : TopicShard) : tally :=
  Tally (queued_total sh) (deliverable_count sh) (queued_total sh)
    (Z.of_nat (size (active_by_topic sh))).

(** No counter is taken below zero, and neither [pending_updates] nor
    [deliverable_pending] runs ahead of the permits by more than the entry
    that is being removed. *)
Definition tally_ok (x : tally) : Prop :=
  0 <= t_pending x <= t_queued x + 1 /\ 0 <= t_deliverable x <= t_pending x + 1
  /\ 0 <= t_queued x /\ 0 <= t_active x.

Fixpoint path_ok (ops : list counter_op) (x : tally) : Prop :=
  tally_ok x /\ match ops with [] => True | o :: ops => path_ok ops (tally_add x (op_tally o)) end.

Definition ready_op (bit : bool) (o : counter_op) : bool :=
  match o with ReadyOr => true | ReadyClear => false | _ => bit end.

Definition ready_after (ops : list counter_op) (bit : bool) : bool := foldl ready_op bit ops.

Definition ready (sh : TopicShard) : bool := negb (deliverable_count sh =? 0).

(** The counter updates of a section from [x] lead to what the new shard
    contributes. *)
Record settles (x : tally) (bit : bool) (ops : list counter_op) (sh : TopicShard) : Prop := {
  settles_tally : apply_ops ops x = measure sh;
  settles_path : path_ok ops x;
  settles_ready : ready_after ops bit = ready sh;
}.

Lemma path_ok_app ops ops' x :
  path_ok ops x -> path_ok ops' (apply_ops ops x) -> path_ok (ops ++ ops') x.
Proof.
  revert x. induction ops as [|o ops IH]; simpl; intros x [H1 H2] H3; [done|].
  split; [done|]. by apply IH.
Qed.

Lemma settles_app x bit ops ops' sh sh' :
  settles x bit ops sh -> settles (measure sh) (ready sh) ops' sh' ->
  settles x bit (ops ++ ops') sh'.
Proof.
  intros [H1 H2 H3] [K1 K2 K3]. unfold apply_ops, ready_after in *. split.
  - unfold apply_ops. rewrite foldl_app. by rewrite H1.
  - apply path_ok_app; [done|]. unfold apply_ops. by rewrite H1.
  - unfold ready_after. rewrite foldl_app. by rewrite H3.
Qed.

Lemma queued_total_nonneg sh : 0 <= queued_total sh.
Proof.
  unfold queued_total. pose proof (count_nonneg (fun _ => true) (first (pending sh))).
  pose proof (count_nonneg (fun _ => true) (second (pending sh))). lia.
Qed.

Lemma deliverables_le sh : 0 <= deliverables sh <= queued_total sh.
Proof.
  unfold deliverables, queued_total.
  pose proof (count_nonneg (committed_topic sh) (first (pending sh))).
  pose proof (count_nonneg (committed_topic sh) (second (pending sh))).
  pose proof (count_mono (committed_topic sh) (fun _ => true) (first (pending sh))
                ltac:(done)).
  pose proof (count_mono (committed_topic sh) (fun _ => true) (second (pending sh))
                ltac:(done)). lia.
Qed.

Lemma measure_ok i sh : shard_ok i sh -> tally_ok (measure sh).
Proof.
  intros H. pose proof (deliverables_le sh). rewrite <- (count_exact _ _ H) in *.
  unfold tally_ok, measure. simpl. lia.
Qed.

Lemma settles_nil i sh : shard_ok i sh -> settles (measure sh) (ready sh) [] sh.
Proof. intros H. split; [done| |done]. split; [by eapply measure_ok|done]. Qed.

(** ** Removals *)

(** Exactly the pending entries that satisfy [P] are gone. *)
Record removes (P : BufferIndex -> Z -> QueuedUpdate -> bool) (sh sh' : TopicShard) : Prop := {
  removes_active : active_by_topic sh' = active_by_topic sh;
  removes_ids : topic_by_id sh' = topic_by_id sh;
  removes_pend : forall b t,
    pend b t sh' = match pend b t sh with
                   | Some q => if P b t q then None else Some q
                   | None => None
                   end;
}.

Lemma removes_trans P Q sh sh' sh'' :
  removes P sh sh' -> removes Q sh' sh'' ->
  removes (fun b t q => P b t q || Q b t q) sh sh''.
Proof.
  intros [H1 H2 H3] [K1 K2 K3]. split; [by rewrite K1|by rewrite K2|].
  intros b t. rewrite K3, H3. destruct (pend b t sh) as [q|]; [|done].
  by destruct (P b t q).
Qed.

Lemma removes_ext P Q sh sh' :
  removes P sh sh' -> (forall b t q, pend b t sh = Some q -> P b t q = Q b t q) ->
  removes Q sh sh'.
Proof.
  intros [H1 H2 H3] HPQ. split; [done..|]. intros b t. rewrite H3.
  destruct (pend b t sh) as [q|] eqn:E; [|done]. by rewrite (HPQ _ _ _ E).
Qed.

Lemma pend_put b m b' t sh :
  pend b' t (set_pending b m sh) = if decide (b' = b) then get t m else pend b' t sh.
Proof. destruct b, b'; done. Qed.

Lemma nodup_put b m sh b' :
  NoDup (keys m) -> NoDup (keys (at_buffer b' (pending sh))) ->
  NoDup (keys (at_buffer b' (pending (set_pending b m sh)))).
Proof. by destruct b, b'. Qed.

Lemma count_put f b m sh :
  count_in f (first (pending (set_pending b m sh))) + count_in f (second (pending (set_pending b m sh)))
  = count_in f (first (pending sh)) + count_in f (second (pending sh))
    + count_in f m - count_in f (at_buffer b (pending sh)).
Proof. destruct b; simpl; lia. Qed.

Lemma queued_total_set_count n sh : queued_total (set_count n sh) = queued_total sh.
Proof. done. Qed.

Definition only (b : BufferIndex) (t : Z) (p : QueuedUpdate -> bool)
  (b' : BufferIndex) (u : Z) (q : QueuedUpdate) : bool := bool_decide (b' = b) && (u =? t) && p q.

Section Remove.
Context (i : Z) (b : BufferIndex) (t : Z) (p : QueuedUpdate -> bool) (sh : TopicShard).
Context (m : pending_map) (H : shard_ok i sh).
Context (E : remove_queued_if (at_buffer b (pending sh)) t p = Some m).

Let sh1 := set_pending b m sh.

Lemma remove_counts f :
  count_in f (first (pending sh1)) + count_in f (second (pending sh1))
  = count_in f (first (pending sh)) + count_in f (second (pending sh)) - Z.b2z (f t).
Proof using H E.
  unfold sh1. rewrite count_put, (count_remove f _ _ _ _ (pending_nodup _ _ H b) E). lia.
Qed.

Lemma remove_view n : removes (only b t p) sh (set_count n sh1).
Proof using H E.
  pose proof (pending_nodup _ _ H b) as Hn. split; [done..|]. intros b' u.
  change (pend b' u (set_count n sh1)) with (pend b' u sh1). unfold sh1. rewrite pend_put.
  unfold only. destruct (decide (b' = b)) as [->|Hb].
  - rewrite bool_decide_eq_true_2 by done.
    destruct (remove_queued_get _ _ _ _ u Hn E) as [_ ->]. unfold pend.
    destruct (remove_queued_Some _ _ _ _ Hn E) as (q & G & Hp & _).
    destruct (Z.eqb_spec u t) as [->|]; simpl; [by rewrite G, Hp|by case_match].
  - rewrite bool_decide_eq_false_2 by done. by destruct (pend b' u sh).
Qed.

Lemma remove_shard_ok : shard_ok i (set_count (deliverables sh1) sh1).
Proof using H E.
  pose proof (remove_view (deliverables sh1)) as Hr. split.
  - intros b'. apply nodup_put; [|apply (pending_nodup _ _ H)].
    apply (remove_queued_get _ _ _ _ t (pending_nodup _ _ H b) E).
  - intros b' u q' Hq'. apply (pending_slot _ _ H). rewrite (removes_pend _ _ _ Hr) in Hq'.
    destruct (pend b' u sh); [|done]. by case_match; simplify_eq.
  - apply (actives_ok _ _ H).
  - apply (ids_ok _ _ H).
  - done.
Qed.

Lemma remove_settles : exists sh' ops,
  record_pending_removal (committed_topic sh t) sh1 = Done (sh', ops)
  /\ sh' = set_count (deliverables sh1) sh1
  /\ settles (measure sh) (ready sh) (QueuedRelease :: ops) sh'.
Proof using H E.
  pose proof (remove_counts (committed_topic sh)) as Hd. change
    (deliverables sh1 = deliverables sh - Z.b2z (committed_topic sh t)) in Hd.
  pose proof (remove_counts (fun _ => true)) as Hq.
  change (queued_total sh1 = queued_total sh - 1) in Hq.
  pose proof (count_exact _ _ H) as Hce. pose proof (deliverables_le sh1) as Hle.
  unfold record_pending_removal. destruct (committed_topic sh t); simpl in Hd.
  - unfold record_deliverable_decrease, checked_sub.
    change (deliverable_count sh1) with (deliverable_count sh).
    rewrite (proj2 (Z.leb_le 1 (deliverable_count sh))) by lia. simpl.
    replace (deliverable_count sh - 1) with (deliverables sh1) by lia.
    eexists _, _. split_and!; [done..|]. split.
    + unfold measure, apply_ops. rewrite queued_total_set_count.
      case_match; unfold tally_add; simpl; f_equal; lia.
    + unfold path_ok, tally_ok, tally_add, measure. case_match; simpl; lia.
    + unfold ready_after, ready. simpl. case_match eqn:Ez; simpl; [done|].
      destruct (Z.eqb_spec (deliverable_count sh) 0); [lia|done].
  - eexists _, _. split_and!; [done| |].
    { unfold set_count, sh1, set_pending. simpl. f_equal. fold sh1.
      unfold sh1, set_pending in Hd. simpl in *. lia. }
    split.
    + unfold apply_ops, measure, tally_add; simpl. f_equal; lia.
    + unfold path_ok, tally_ok, tally_add, measure. simpl. lia.
    + done.
Qed.
End Remove.

Lemma remove_entry_ok i b t p sh :
  shard_ok i sh ->
  exists sh' ops,
    remove_entry b t p (committed_topic sh t) sh = Done (sh', ops)
    /\ shard_ok i sh' /\ settles (measure sh) (ready sh) ops sh' /\ removes (only b t p) sh sh'.
Proof.
  intros H. unfold remove_entry. destruct (remove_queued_if _ t p) as [m|] eqn:E.
  - destruct (remove_settles i b t p sh m H E) as (sh' & ops & -> & -> & Hs). simpl.
    eexists _, _. split_and!; [done|by apply (remove_shard_ok i b t p)|done|].
    by apply (remove_view i).
  - exists sh, []. split_and!; [done..|by eapply settles_nil|]. split; [done..|].
    intros b' u. unfold only. destruct (pend b' u sh) as [q|] eqn:G; [|done].
    destruct (decide (b' = b)) as [->|]; [|by rewrite bool_decide_eq_false_2].
    rewrite bool_decide_eq_true_2 by done. destruct (Z.eqb_spec u t) as [->|]; [|done].
    simpl. by rewrite (remove_queued_None _ _ _ _ (pending_nodup _ _ H b) E G).
Qed.

Lemma removes_committed P sh sh' t :
  removes P sh sh' -> committed_topic sh' t = committed_topic sh t.
Proof. intros [H _ _]. unfold committed_topic. by rewrite H. Qed.

(** Both buffers in turn. *)
Lemma remove_both_ok i t p sh :
  shard_ok i sh ->
  exists sh' ops,
    remove_both t p (committed_topic sh t) sh = Done (sh', ops)
    /\ shard_ok i sh' /\ settles (measure sh) (ready sh) ops sh'
    /\ removes (fun _ u q => (u =? t) && p q) sh sh'.
Proof.
  intros H. destruct (remove_entry_ok i First t p sh H) as (sh1 & o1 & E1 & H1 & S1 & R1).
  destruct (remove_entry_ok i Second t p sh1 H1) as (sh2 & o2 & E2 & H2 & S2 & R2).
  unfold remove_both. rewrite E1. simpl.
  rewrite (removes_committed _ _ _ t R1) in E2. rewrite E2. simpl.
  exists sh2, (o1 ++ o2). split_and!; [done..|by eapply settles_app|].
  eapply removes_ext; [by eapply removes_trans|]. intros b u q _. unfold only. by destruct b, (u =? t), (p q).
Qed.

Lemma remove_pending_both i t p sh :
  shard_ok i sh ->
  exists sh1 o1 sh2 o2,
    remove_pending_if First t p sh = Done (sh1, o1)
    /\ remove_pending_if Second t p sh1 = Done (sh2, o2)
    /\ shard_ok i sh2 /\ settles (measure sh) (ready sh) (o1 ++ o2) sh2
    /\ removes (fun _ u q => (u =? t) && p q) sh sh2.
Proof.
  intros H. destruct (remove_entry_ok i First t p sh H) as (sh1 & o1 & E1 & H1 & S1 & R1).
  destruct (remove_entry_ok i Second t p sh1 H1) as (sh2 & o2 & E2 & H2 & S2 & R2).
  exists sh1, o1, sh2, o2. split_and!; [done..|by eapply settles_app|].
  eapply removes_ext; [by eapply removes_trans|]. intros b u q _. unfold only. by destruct b, (u =? t), (p q).
Qed.

(** ** Connections *)

Lemma committed_insert t a u sh :
  committed_topic (set_active t a sh) u = if u =? t then committed a else committed_topic sh u.
Proof.
  unfold committed_topic. simpl. destruct (Z.eqb_spec u t) as [->|].
  - by rewrite lookup_insert_eq.
  - by rewrite lookup_insert_ne.
Qed.

Lemma pend_active i b t q sh : shard_ok i sh -> pend b t sh = Some q ->
  exists a, active_by_topic sh !! t = Some a /\ active_ok a
            /\ slot_version b a = Some (connection_generation q, q_sequence q)
            /\ connection_generation q = generation a
            /\ 0 <= q_sequence q < next_sequence a.
Proof.
  intros H Hq. destruct (pending_slot _ _ H _ _ _ Hq) as (a & Ha & Hv).
  destruct (actives_ok _ _ H _ _ Ha) as [Hok _]. exists a.
  do 3 (split; [done|]). apply (slot_own _ Hok _ _ _ Hv).
Qed.

Lemma deliverables_ext sh sh' :
  (forall b, NoDup (keys (at_buffer b (pending sh)))) -> pending sh' = pending sh ->
  (forall b t, is_Some (pend b t sh) -> committed_topic sh' t = committed_topic sh t) ->
  deliverables sh' = deliverables sh.
Proof.
  intros Hn Hp Hc. unfold deliverables. rewrite Hp. f_equal; apply count_ext.
  - apply (Hc First).
  - apply (Hn First).
  - apply (Hc Second).
  - apply (Hn Second).
Qed.

(** A connection changes without changing what is pending. *)
Lemma set_active_ok i t a a' sh :
  shard_ok i sh -> active_by_topic sh !! t = Some a -> active_ok a' ->
  id a' = id a -> committed a' = committed a ->
  (forall b q, pend b t sh = Some q ->
     slot_version b a' = Some (connection_generation q, q_sequence q)) ->
  shard_ok i (set_active t a' sh) /\ measure (set_active t a' sh) = measure sh
  /\ ready (set_active t a' sh) = ready sh.
Proof.
  intros H Ha Hok Hid Hc Hp. split; [|split; [|done]].
  2:{ unfold measure. f_equal. simpl. rewrite map_size_insert_Some; [done|by rewrite Ha]. }
  split.
  - apply (pending_nodup _ _ H).
  - intros b u q Hq. change (pend b u sh = Some q) in Hq. simpl.
    destruct (decide (u = t)) as [->|Hu].
    + exists a'. rewrite lookup_insert_eq. by rewrite (Hp b q).
    + rewrite lookup_insert_ne by done. by apply (pending_slot _ _ H).
  - intros u x Hx. simpl in Hx. destruct (decide (u = t)) as [->|Hu].
    + rewrite lookup_insert_eq in Hx. simplify_eq. split; [done|].
      by apply (actives_ok _ _ H t a).
    + rewrite lookup_insert_ne in Hx by done. by apply (actives_ok _ _ H).
  - intros d u. simpl. rewrite (ids_ok _ _ H). destruct (decide (u = t)) as [->|Hu].
    + rewrite lookup_insert_eq, Ha. split; intros (x & ? & ?); simplify_eq; eauto.
    + by rewrite lookup_insert_ne.
  - simpl. rewrite (count_exact _ _ H). symmetry. apply deliverables_ext; [|done|].
    + apply (pending_nodup _ _ H).
    + intros b u _. rewrite committed_insert. unfold committed_topic.
      destruct (Z.eqb_spec u t) as [->|]; [by rewrite Ha|done].
Qed.

Lemma no_active_no_pend i b t sh :
  shard_ok i sh -> active_by_topic sh !! t = None -> pend b t sh = None.
Proof.
  intros H Ha. destruct (pend b t sh) eqn:E; [|done].
  destruct (pending_slot _ _ H _ _ _ E) as (a & ? & _). congruence.
Qed.

Definition fresh_active (d g : Z) : ActiveSubscription :=
  Active d g false (Both Empty Empty) None 0.

Lemma fresh_active_ok d g : active_ok (fresh_active d g).
Proof. split; simpl; [by intros []|done|by intros _ []|by intros _ []|lia]. Qed.

Definition acquired_active (x : tally) : tally := tally_add x (Tally 0 0 0 1).
Definition acquired_queued (x : tally) : tally := tally_add x (Tally 0 0 1 0).

Lemma reserve_ok i t d g quota_ok sh sh' ok r :
  shard_ok i sh -> shard_index pw t = i ->
  reserve_connection t d g quota_ok sh = (sh', ok, r) ->
  (ok = false /\ sh' = sh /\ is_ok r = false)
  \/ (ok = true /\ quota_ok = true /\ r = Ok tt /\ active_by_topic sh !! t = None
      /\ sh' = MkShard (<[t := fresh_active d g]> (active_by_topic sh))
                 (<[d := t]> (topic_by_id sh)) (pending sh) (deliverable_count sh)
      /\ shard_ok i sh' /\ settles (acquired_active (measure sh)) (ready sh) [] sh').
Proof.
  intros H Hi. unfold reserve_connection.
  destruct (active_by_topic sh !! t) eqn:Ha; [intros [= <- <- <-]; by left|].
  destruct (topic_by_id sh !! d) as [u|] eqn:Hd; [intros [= <- <- <-]; by left|].
  destruct quota_ok; [|intros [= <- <- <-]; by left]. intros [= <- <- <-]. right.
  split_and!; [done..| |].
  - split; simpl.
    + apply (pending_nodup _ _ H).
    + intros b u q Hq. change (pend b u sh = Some q) in Hq.
      destruct (decide (u = t)) as [->|]; [by rewrite (no_active_no_pend _ _ _ _ H Ha) in Hq|].
      rewrite lookup_insert_ne by done. by apply (pending_slot _ _ H).
    + intros u x. destruct (decide (u = t)) as [->|].
      * rewrite lookup_insert_eq. intros [= <-]. split; [apply fresh_active_ok|done].
      * rewrite lookup_insert_ne by done. apply (actives_ok _ _ H).
    + intros d' u. destruct (decide (d' = d)) as [->|]; [rewrite lookup_insert_eq|
        rewrite lookup_insert_ne, (ids_ok _ _ H) by done].
      * split; [intros [= ->]; eexists; by rewrite lookup_insert_eq|]. intros (x & Hx & Hid).
        destruct (decide (u = t)) as [->|]; [done|]. rewrite lookup_insert_ne in Hx by done.
        assert (topic_by_id sh !! d = Some u) as Hu by (apply (ids_ok _ _ H); eauto).
        congruence.
      * destruct (decide (u = t)) as [->|]; [|by rewrite lookup_insert_ne].
        rewrite lookup_insert_eq, Ha. split; intros (x & ? & ?); simplify_eq; done.
    + rewrite (count_exact _ _ H). symmetry. apply deliverables_ext; [|done|].
      * apply (pending_nodup _ _ H).
      * intros b u [q Hq]. unfold committed_topic. simpl. rewrite lookup_insert_ne; [done|].
        intros <-. by rewrite (no_active_no_pend _ _ _ _ H Ha) in Hq.
  - pose proof (measure_ok _ _ H) as Hm. split; [|split; [|done]|done].
    + unfold apply_ops, acquired_active, tally_add, measure. simpl.
      rewrite map_size_insert_None by done. f_equal; unfold queued_total; simpl; lia.
    + unfold tally_ok, acquired_active, tally_add in *. simpl in *. lia.
Qed.

Definition through (obs : option Z) (q : QueuedUpdate) : bool :=
  match obs with Some s => q_sequence q <=? s | None => false end.

Lemma commit_removals_ok i t g obs sh a :
  shard_ok i sh -> active_by_topic sh !! t = Some a -> generation a = g ->
  exists sh' ops,
    commit_removals t g obs sh = Done (Ok (sh', ops))
    /\ shard_ok i sh' /\ settles (measure sh) (ready sh) ops sh'
    /\ removes (fun _ u q => (u =? t) && through obs q) sh sh'.
Proof.
  intros H Ha Hg. unfold commit_removals. rewrite Ha, (proj2 (Z.eqb_eq _ _) Hg). simpl.
  destruct obs as [obs|].
  - destruct (remove_both_ok i t (fun q => q_sequence q <=? obs) sh H)
      as (sh' & ops & E & H' & S & R).
    unfold committed_topic in E. rewrite Ha in E. rewrite E. by exists sh', ops.
  - exists sh, []. split_and!; [done..|by eapply settles_nil|]. split; [done..|].
    intros b u. destruct (pend b u sh); [|done]. simpl. by rewrite andb_false_r.
Qed.

(** Committing a connection whose remaining entries are all new. *)
Section CommitInstall.
Context (i t : Z) (obs : option Z) (sh : TopicShard) (a : ActiveSubscription).
Context (H : shard_ok i sh) (Ha : active_by_topic sh !! t = Some a).
Context (Hc : committed a = false).
Context (Hnew : forall b q, pend b t sh = Some q -> through obs q = false).

Let n := Z.b2z (pending_counted First t (generation a) obs sh)
         + Z.b2z (pending_counted Second t (generation a) obs sh).
Let sh' := set_active t (set_committed a) sh.

Lemma pending_counted_iff b :
  pending_counted b t (generation a) obs sh
  = match pend b t sh with Some _ => true | None => false end.
Proof using All.
  unfold pending_counted, sequence_of. fold (pend b t sh).
  destruct (pend b t sh) as [q|] eqn:E; [|done].
  destruct (pend_active _ _ _ _ _ H E) as (x & Hx & _ & _ & Hg & _). simplify_eq.
  rewrite Hg, Z.eqb_refl. specialize (Hnew _ _ E). unfold through in Hnew.
  destruct obs; [|done]. apply Z.leb_gt in Hnew. by apply Z.ltb_lt.
Qed.

Lemma commit_deliverables : deliverables sh' = deliverables sh + n.
Proof using All.
  unfold n. rewrite !pending_counted_iff. unfold deliverables, sh'. simpl.
  change (pending (set_active t (set_committed a) sh)) with (pending sh).
  assert (committed_topic sh t = false) as Hf by (unfold committed_topic; by rewrite Ha).
  assert (forall u, u <> t ->
    committed_topic sh u = committed_topic (set_active t (set_committed a) sh) u) as Hu.
  { intros u Hu. by rewrite committed_insert, (proj2 (Z.eqb_neq _ _) Hu). }
  assert (committed_topic (set_active t (set_committed a) sh) t = true) as Ht
    by (by rewrite committed_insert, Z.eqb_refl).
  rewrite (count_switch _ _ (first (pending sh)) t (pending_nodup _ _ H First) Hf Ht Hu).
  rewrite (count_switch _ _ (second (pending sh)) t (pending_nodup _ _ H Second) Hf Ht Hu).
  unfold pend. simpl. destruct (get t _), (get t _); simpl; lia.
Qed.

Lemma set_committed_ok : active_ok a -> active_ok (set_committed a).
Proof using. intros [H1 H2 H3 H4 H5]. by split. Qed.

Lemma commit_shard_ok : shard_ok i (set_count (deliverables sh') sh').
Proof using All.
  destruct (actives_ok _ _ H _ _ Ha) as [Hok Hi]. split.
  - apply (pending_nodup _ _ H).
  - intros b u q Hq. change (pend b u sh = Some q) in Hq. simpl.
    destruct (pending_slot _ _ H _ _ _ Hq) as (x & Hx & Hv).
    destruct (decide (u = t)) as [->|]; [rewrite lookup_insert_eq|by rewrite lookup_insert_ne; eauto].
    simplify_eq. eauto.
  - intros u x. simpl. destruct (decide (u = t)) as [->|].
    + rewrite lookup_insert_eq. intros [= <-]. by split; [apply set_committed_ok|].
    + rewrite lookup_insert_ne by done. apply (actives_ok _ _ H).
  - intros d u. simpl. rewrite (ids_ok _ _ H). destruct (decide (u = t)) as [->|].
    + rewrite lookup_insert_eq, Ha. split; intros (x & ? & ?); simplify_eq; eauto.
    + by rewrite lookup_insert_ne.
  - done.
Qed.

Definition any_pending : bool :=
  match pend First t sh, pend Second t sh with None, None => false | _, _ => true end.

Lemma commit_any : (n =? 0) = negb any_pending /\ 0 <= n.
Proof using All.
  unfold n, any_pending. rewrite !pending_counted_iff.
  by destruct (pend First t sh), (pend Second t sh).
Qed.

Lemma commit_measure : measure (set_count (deliverables sh') sh')
  = Tally (queued_total sh) (deliverables sh') (queued_total sh)
      (Z.of_nat (size (active_by_topic sh))).
Proof using All.
  unfold measure. f_equal. simpl. by rewrite map_size_insert_Some by (by rewrite Ha).
Qed.

Lemma commit_install_ok :
  queued_total sh < 2 ^ bits pw ->
  exists ops,
    commit_install pw t (generation a) obs sh
    = Done (set_count (deliverables sh') sh', ops, any_pending)
    /\ shard_ok i (set_count (deliverables sh') sh')
    /\ settles (measure sh) (ready sh) ops (set_count (deliverables sh') sh').
Proof using All.
  intros Hw. pose proof commit_deliverables as Hd. pose proof (deliverables_le sh') as Hle'.
  change (queued_total sh') with (queued_total sh) in Hle'. pose proof commit_shard_ok as Hok.
  pose proof (count_exact _ _ H) as Hce. pose proof (deliverables_le sh) as Hle.
  destruct commit_any as [Hn Hn0]. pose proof commit_measure as Hm.
  unfold commit_install. rewrite Ha. fold n sh'. rewrite Hc, Hn. simpl.
  destruct any_pending; simpl in *.
  - apply Z.eqb_neq in Hn. unfold record_deliverable_increase, checked_add.
    rewrite (proj2 (Z.eqb_neq _ _)) by done.
    change (deliverable_count sh') with (deliverable_count sh).
    rewrite (proj2 (Z.ltb_lt _ _)) by lia. simpl.
    replace (deliverable_count sh + n) with (deliverables sh') by lia.
    eexists. split; [done|]. split; [done|]. split.
    + rewrite Hm. unfold apply_ops, measure, tally_add. case_match; simpl; f_equal; lia.
    + unfold path_ok, tally_ok, tally_add, measure. case_match; simpl; lia.
    + unfold ready_after, ready. simpl. case_match; simpl;
        destruct (Z.eqb_spec (deliverable_count sh) 0);
        by destruct (Z.eqb_spec (deliverables sh') 0); [lia|].
  - apply Z.eqb_eq in Hn. rewrite Hn, Z.add_0_r in Hd.
    assert (set_count (deliverables sh') sh' = sh') as Hsc.
    { unfold set_count. rewrite Hd, <- Hce. by destruct sh. }
    rewrite Hsc in *. eexists. split; [done|]. split; [done|]. split.
    + unfold apply_ops, measure. simpl. f_equal.
      by rewrite map_size_insert_Some by (by rewrite Ha).
    + split; [by eapply measure_ok|done].
    + done.
Qed.
End CommitInstall.

(** ** Withdrawal *)
Definition withdraw (t : Z) (a : ActiveSubscription) (sh : TopicShard) : TopicShard :=
  MkShard (delete t (active_by_topic sh)) (delete (id a) (topic_by_id sh)) (pending sh)
    (deliverable_count sh).

Lemma withdraw_ok i t a sh :
  shard_ok i sh -> active_by_topic sh !! t = Some a -> (forall b, pend b t sh = None) ->
  shard_ok i (withdraw t a sh) /\ settles (measure sh) (ready sh) [ActiveRelease] (withdraw t a sh).
Proof.
  intros H Ha Hp. split; [split; simpl|split].
  - apply (pending_nodup _ _ H).
  - intros b u q Hq. change (pend b u sh = Some q) in Hq.
    destruct (decide (u = t)) as [->|]; [by rewrite Hp in Hq|].
    rewrite lookup_delete_ne by done. by apply (pending_slot _ _ H).
  - intros u x [_ Hx]%lookup_delete_Some. by apply (actives_ok _ _ H).
  - intros d u. destruct (decide (d = id a)) as [->|Hd].
    + rewrite lookup_delete_eq. split; [done|]. intros (x & [Hu Hx]%lookup_delete_Some & Hid).
      assert (topic_by_id sh !! id a = Some u) by (apply (ids_ok _ _ H); eauto).
      assert (topic_by_id sh !! id a = Some t) by (apply (ids_ok _ _ H); eauto). congruence.
    + rewrite lookup_delete_ne, (ids_ok _ _ H) by done.
      split; intros (x & Hx & Hid); exists x; (split; [|done]).
      * apply lookup_delete_Some. split; [|done]. intros <-. congruence.
      * by apply lookup_delete_Some in Hx as [_ ?].
  - rewrite (count_exact _ _ H). symmetry. apply deliverables_ext; [|done|].
    + apply (pending_nodup _ _ H).
    + intros b u [q Hq]. unfold committed_topic. simpl. rewrite lookup_delete_ne; [done|].
      intros <-. by rewrite Hp in Hq.
  - unfold apply_ops, measure, tally_add. simpl.
    rewrite (map_size_delete_Some _ _ (ex_intro _ a Ha)).
    pose proof (map_size_ne_0_lookup_2 _ t (ex_intro _ a Ha)).
    f_equal; unfold queued_total; simpl; lia.
  - pose proof (measure_ok _ _ H) as Hm. unfold path_ok, tally_ok, tally_add in *. simpl in *.
    pose proof (map_size_ne_0_lookup_2 _ t (ex_intro _ a Ha)). lia.
  - done.
Qed.

Lemma disconnect_ok i t sh :
  shard_ok i sh ->
  (active_by_topic sh !! t = None /\ disconnect_connection t sh = Done (sh, [], None))
  \/ exists a sh1 ops,
       active_by_topic sh !! t = Some a
       /\ disconnect_connection t sh
          = Done (withdraw t a sh1, ops, Some (id a, generation a))
       /\ removes (fun _ u _ => u =? t) sh sh1
       /\ shard_ok i (withdraw t a sh1) /\ settles (measure sh) (ready sh) ops (withdraw t a sh1).
Proof.
  intros H. unfold disconnect_connection. destruct (active_by_topic sh !! t) as [a|] eqn:Ha.
  2:{ by left. }
  right. destruct (remove_both_ok i t (fun _ => true) sh H) as (sh1 & ops & E & H1 & S & R).
  unfold committed_topic in E. rewrite Ha in E. rewrite E. simpl.
  assert (removes (fun _ u _ => u =? t) sh sh1) as R'.
  { eapply removes_ext; [done|]. intros b u q _. simpl. apply andb_true_r. }
  destruct (withdraw_ok i t a sh1 H1) as [H2 S2].
  { by rewrite (removes_active _ _ _ R). }
  { intros b. rewrite (removes_pend _ _ _ R'), Z.eqb_refl. by destruct (pend b t sh). }
  exists a, sh1, (ops ++ [ActiveRelease]). split_and!; [done..|by eapply settles_app].
Qed.

(** A generation is used by at most one connection, the one a transaction
    holds. *)
Definition owns (t d g : Z) (sh : TopicShard) : Prop :=
  forall u a, active_by_topic sh !! u = Some a -> generation a = g -> u = t /\ id a = d.

Lemma remove_entry_none i b t p d sh :
  shard_ok i sh -> (forall q, pend b t sh = Some q -> p q = false) ->
  remove_entry b t p d sh = Done (sh, []).
Proof.
  intros H Hp. unfold remove_entry. destruct (remove_queued_if _ t p) as [m|] eqn:E; [|done].
  destruct (remove_queued_Some _ _ _ _ (pending_nodup _ _ H b) E) as (q & G & Hq & _).
  rewrite (Hp q G) in Hq. done.
Qed.

Lemma other_generation i t g b sh q :
  shard_ok i sh -> generation_is g (active_by_topic sh !! t) = false ->
  pend b t sh = Some q -> (connection_generation q =? g) = false.
Proof.
  intros H Hg Hq. destruct (pend_active _ _ _ _ _ H Hq) as (x & Hx & _ & _ & -> & _).
  by rewrite Hx in Hg.
Qed.

Lemma rollback_ok i t g d sh :
  shard_ok i sh -> owns t d g sh ->
  (generation_is g (active_by_topic sh !! t) = false
   /\ rollback_connection t g d sh = Done (sh, [], false))
  \/ exists a sh1 ops,
       active_by_topic sh !! t = Some a /\ generation a = g
       /\ rollback_connection t g d sh = Done (withdraw t a sh1, ops, true)
       /\ removes (fun _ u _ => u =? t) sh sh1
       /\ shard_ok i (withdraw t a sh1) /\ settles (measure sh) (ready sh) ops (withdraw t a sh1).
Proof.
  intros H Ho. unfold rollback_connection.
  set (p := fun q => connection_generation q =? g).
  destruct (generation_is g (active_by_topic sh !! t)) eqn:Hg.
  - right. destruct (remove_pending_both i t p sh H) as (sh1 & o1 & sh2 & o2 & E1 & E2 & H2 & S & R).
    rewrite E1. simpl. rewrite E2. simpl. pose proof (removes_active _ _ _ R) as Ra.
    destruct (active_by_topic sh !! t) as [a|] eqn:Ha; [|done]. simpl in Hg.
    apply Z.eqb_eq in Hg. destruct (Ho t a Ha Hg) as [_ Hid].
    assert (removes (fun _ u _ => u =? t) sh sh2) as R'.
    { eapply removes_ext; [done|]. intros b u q Hq. simpl.
      destruct (Z.eqb_spec u t) as [->|]; [|done]. simpl. unfold p.
      destruct (pend_active _ _ _ _ _ H Hq) as (x & Hx & _ & _ & Hgx & _). simplify_eq.
      by apply Z.eqb_eq. }
    destruct (withdraw_ok i t a sh2 H2) as [H3 S3]; [by rewrite Ra| |].
    { intros b. rewrite (removes_pend _ _ _ R'), Z.eqb_refl. by destruct (pend b t sh). }
    assert (topic_by_id sh !! d = Some t) as Hd by (apply (ids_ok _ _ H); eauto).
    assert (withdraw t a sh2 = MkShard (delete t (active_by_topic sh2))
      (delete d (topic_by_id sh2)) (pending sh2) (deliverable_count sh2)) as Hw
      by (unfold withdraw; by rewrite Hid).
    rewrite (removes_ids _ _ _ R), Ra, Ha. simpl.
    rewrite (proj2 (Z.eqb_eq _ _) Hg), Hd, lookup_delete_eq. rewrite (removes_ids _ _ _ R), Ra in Hw. rewrite <- Hw.
    exists a, sh2, (o1 ++ o2 ++ [ActiveRelease]). split_and!; [done..|].
    rewrite app_assoc. by eapply settles_app.
  - left. split; [done|]. unfold remove_pending_if.
    assert (forall b, remove_entry b t p (committed_topic sh t) sh = Done (sh, [])) as Hr.
    { intros b. apply (remove_entry_none i); [done|]. intros q.
      by apply (other_generation i t g). }
    rewrite (Hr First). cbn -[generation_is]. rewrite (Hr Second). cbn -[generation_is].
    rewrite Hg. destruct (topic_by_id sh !! d) as [u|] eqn:Hd; [|by destruct sh].
    apply (ids_ok _ _ H) in Hd as (x & Hx & Hid). rewrite Hx.
    destruct (Z.eqb_spec (generation x) g) as [Hgx|]; [|by destruct sh].
    destruct (Ho u x Hx Hgx) as [-> _]. rewrite Hx in Hg. simpl in Hg.
    by rewrite Hgx, Z.eqb_refl in Hg.
Qed.

(** ** Publication *)
Definition stored_active (b : BufferIndex) (v : StoredRtdValue) (a : ActiveSubscription)
  : ActiveSubscription :=
  Active (id a) (generation a) (committed a)
    (put_buffer b (Resident (generation a) (next_sequence a) v) (values a)) (Some b)
    (next_sequence a + 1).

Definition stored_pend (b : BufferIndex) (t : Z) (q : QueuedUpdate) (sh sh' : TopicShard) : Prop :=
  forall b' u, pend b' u sh' = if decide (b' = b /\ u = t) then Some q else pend b' u sh.

Lemma at_put {A} b b' (x : A) y :
  at_buffer b' (put_buffer b x y) = if decide (b' = b) then x else at_buffer b' y.
Proof. by destruct b, b'. Qed.

Lemma stored_active_ok b v a :
  active_ok a -> next_sequence a + 1 < 2 ^ 64 -> active_ok (stored_active b v a).
Proof.
  intros [H1 H2 H3 H4 H5] Hs. split; unfold slot_version; simpl.
  - intros b' g s. rewrite at_put. destruct (decide (b' = b)); simpl; [intros [= <- <-]; lia|].
    intros Hv. specialize (H1 b' g s Hv). lia.
  - intros b' [= <-]. exists (generation a), (next_sequence a). rewrite !at_put.
    rewrite decide_True by done. split; [done|]. intros g' s'.
    rewrite decide_False by (by destruct b). intros Hv. apply (H1 _ _ _ Hv).
  - done.
  - intros Hc b' g s. rewrite at_put. destruct (decide (b' = b)); [done|]. by apply H4.
  - lia.
Qed.

Section Store.
Context (i : Z) (b : BufferIndex) (t : Z) (v : StoredRtdValue) (sh : TopicShard).
Context (a : ActiveSubscription) (m : pending_map).
Context (H : shard_ok i sh) (Ha : active_by_topic sh !! t = Some a).
Context (Hseq : next_sequence a + 1 < 2 ^ 64).
Let q := Queued (generation a) (next_sequence a).
Context (Hm : NoDup (keys m)).
Context (Hget : forall u, get u m = if u =? t then Some q else get u (at_buffer b (pending sh))).

Let sh1 := set_pending b m (set_active t (stored_active b v a) sh).

Lemma store_pend n : stored_pend b t q sh (set_count n sh1).
Proof using All.
  intros b' u. change (pend b' u (set_count n sh1)) with (pend b' u sh1). unfold sh1.
  rewrite pend_put. destruct (decide (b' = b)) as [->|]; [|by rewrite decide_False by tauto].
  rewrite Hget. destruct (Z.eqb_spec u t) as [->|].
  - by rewrite decide_True.
  - by rewrite decide_False by tauto.
Qed.

Lemma store_committed u : committed_topic sh1 u = committed_topic sh u.
Proof using All.
  change (committed_topic sh1 u) with (committed_topic (set_active t (stored_active b v a) sh) u).
  rewrite committed_insert. unfold committed_topic.
  destruct (Z.eqb_spec u t) as [->|]; [by rewrite Ha|done].
Qed.

Lemma store_shard_ok : shard_ok i (set_count (deliverables sh1) sh1).
Proof using All.
  destruct (actives_ok _ _ H _ _ Ha) as [Hok Hi]. split.
  - intros b'. apply nodup_put; [done|apply (pending_nodup _ _ H)].
  - intros b' u q'. rewrite (store_pend (deliverables sh1)). simpl.
    destruct (decide (b' = b /\ u = t)) as [[-> ->]|Hn].
    + intros [= <-]. eexists. rewrite lookup_insert_eq. split; [done|].
      unfold slot_version. simpl. by rewrite at_put, decide_True.
    + intros Hq. destruct (pending_slot _ _ H _ _ _ Hq) as (x & Hx & Hv).
      destruct (decide (u = t)) as [->|]; [|by rewrite lookup_insert_ne; eauto].
      rewrite lookup_insert_eq. eexists. split; [done|]. simplify_eq.
      unfold slot_version in *. simpl. by rewrite at_put, decide_False by tauto.
  - intros u x. simpl. destruct (decide (u = t)) as [->|].
    + rewrite lookup_insert_eq. intros [= <-]. by split; [apply stored_active_ok|].
    + rewrite lookup_insert_ne by done. apply (actives_ok _ _ H).
  - intros d u. simpl. rewrite (ids_ok _ _ H). destruct (decide (u = t)) as [->|].
    + rewrite lookup_insert_eq, Ha. split; intros (x & ? & ?); simplify_eq; eauto.
    + by rewrite lookup_insert_ne.
  - done.
Qed.

Lemma store_counts f :
  count_in f (first (pending sh1)) + count_in f (second (pending sh1))
  = count_in f (first (pending sh)) + count_in f (second (pending sh))
    + count_in f m - count_in f (at_buffer b (pending sh)).
Proof using All. unfold sh1. by rewrite count_put. Qed.

Lemma store_deliverables : deliverables sh1 = deliverables sh
  + count_in (committed_topic sh) m - count_in (committed_topic sh) (at_buffer b (pending sh)).
Proof using All.
  unfold deliverables at 2. rewrite <- store_counts. unfold deliverables.
  f_equal; apply ztotal_ext; intros ? [] _; f_equal; apply store_committed.
Qed.

Lemma store_measure : measure (set_count (deliverables sh1) sh1)
  = Tally (queued_total sh1) (deliverables sh1) (queued_total sh1)
      (Z.of_nat (size (active_by_topic sh))).
Proof using All.
  unfold measure. f_equal. simpl. by rewrite map_size_insert_Some by (by rewrite Ha).
Qed.

(** The entry of the topic is overwritten. *)
Lemma store_set : is_Some (pend b t sh) -> m = IndexMap.set t q (at_buffer b (pending sh)) ->
  set_count (deliverables sh1) sh1 = sh1
  /\ settles (measure sh) (ready sh) [] (set_count (deliverables sh1) sh1).
Proof using All.
  intros [q' Hq'] Em.
  assert (forall f, count_in f m = count_in f (at_buffer b (pending sh))) as Hc.
  { intros f. rewrite Em. by eapply count_set. }
  pose proof store_deliverables as Hd. rewrite Hc in Hd.
  pose proof (store_counts (fun _ => true)) as Hq. rewrite Hc in Hq.
  change (queued_total sh1 = queued_total sh + count_in (fun _ => true) (at_buffer b (pending sh))
    - count_in (fun _ => true) (at_buffer b (pending sh))) in Hq.
  pose proof (count_exact _ _ H) as Hce. split; [|split].
  - unfold set_count, sh1, set_pending, set_active. simpl. f_equal. fold sh1.
    unfold sh1, set_pending, set_active in Hd. simpl in Hd. lia.
  - rewrite store_measure. unfold apply_ops, measure. simpl. f_equal; lia.
  - split; [by eapply measure_ok|done].
  - unfold ready_after, ready. simpl. do 2 f_equal. lia.
Qed.

(** An entry is added, with a permit. *)
Lemma store_push : pend b t sh = None -> m = IndexMap.push t q (at_buffer b (pending sh)) ->
  queued_total sh + 1 < 2 ^ bits pw ->
  exists ops,
    record_pending_insert pw (committed a) sh1 = Done (set_count (deliverables sh1) sh1, ops)
    /\ settles (acquired_queued (measure sh)) (ready sh) ops (set_count (deliverables sh1) sh1).
Proof using All.
  intros Hq' Em Hw. pose proof store_deliverables as Hd. pose proof (store_counts (fun _ => true)) as Hq.
  rewrite Em, count_push in Hd, Hq.
  change (queued_total sh1 = queued_total sh
    + (count_in (fun _ => true) (at_buffer b (pending sh)) + 1)
    - count_in (fun _ => true) (at_buffer b (pending sh))) in Hq.
  assert (committed_topic sh t = committed a) as Hct by (unfold committed_topic; by rewrite Ha).
  rewrite Hct in Hd. pose proof (deliverables_le sh) as Hle.
  pose proof (count_exact _ _ H) as Hce. pose proof store_measure as Hms.
  unfold record_pending_insert. destruct (committed a); simpl in Hd.
  - unfold record_deliverable_increase, checked_add. simpl.
    rewrite (proj2 (Z.ltb_lt _ _)) by lia. simpl.
    replace (deliverable_count sh + 1) with (deliverables sh1) by lia.
    eexists. split; [done|]. split.
    + rewrite Hms. unfold apply_ops, acquired_queued, measure, tally_add.
      case_match; simpl; f_equal; lia.
    + unfold path_ok, tally_ok, acquired_queued, tally_add, measure. case_match; simpl; lia.
    + unfold ready_after, ready. simpl. case_match; simpl;
        destruct (Z.eqb_spec (deliverable_count sh) 0);
        by destruct (Z.eqb_spec (deliverables sh1) 0); [lia|].
  - eexists. assert (set_count (deliverables sh1) sh1 = sh1) as Hsc.
    { unfold set_count. replace (deliverables sh1) with (deliverable_count sh1); [done|].
      change (deliverable_count sh1) with (deliverable_count sh). lia. }
    split; [by rewrite Hsc|]. split.
    + rewrite Hms. unfold apply_ops, acquired_queued, measure, tally_add. simpl. f_equal; lia.
    + unfold path_ok, tally_ok, acquired_queued, tally_add, measure. simpl. lia.
    + unfold ready_after, ready. simpl. do 2 f_equal. lia.
Qed.
End Store.

(** A refused value can leave a gap in the sequence numbers. *)
Definition skipped (a : ActiveSubscription) : ActiveSubscription :=
  Active (id a) (generation a) (committed a) (values a) (latest_slot a) (next_sequence a + 1).

Lemma skipped_ok a : active_ok a -> next_sequence a + 1 < 2 ^ 64 -> active_ok (skipped a).
Proof.
  intros [H1 H2 H3 H4 H5] Hs. split; try done.
  - intros b g s Hv. specialize (H1 b g s Hv). simpl. lia.
  - simpl. lia.
Qed.

(** What [commit_value] does, by case. *)
Inductive commit_case (b : BufferIndex) (t g : Z) (v : StoredRtdValue) (quota_ok : bool)
    (sh : TopicShard) : commit_result -> Prop :=
| commit_refused e :
    commit_case b t g v quota_ok sh (Committed sh [] false None (Err e))
| commit_duplicate a g' s w :
    active_by_topic sh !! t = Some a -> generation a = g ->
    latest_slot_state a = Some (Resident g' s w) -> value_eq w v = true ->
    commit_case b t g v quota_ok sh (Committed sh [] false None (Ok false))
| commit_overloaded a :
    active_by_topic sh !! t = Some a -> generation a = g -> next_sequence a + 1 < 2 ^ 64 ->
    pend b t sh = None -> quota_ok = false ->
    commit_case b t g v quota_ok sh
      (Committed (set_active t (skipped a) sh) [] false None (Err Overloaded))
| commit_stored a sh' ops permit :
    active_by_topic sh !! t = Some a -> generation a = g -> next_sequence a + 1 < 2 ^ 64 ->
    (permit = true -> quota_ok = true) ->
    active_by_topic sh' = <[t := stored_active b v a]> (active_by_topic sh) ->
    topic_by_id sh' = topic_by_id sh ->
    stored_pend b t (Queued g (next_sequence a)) sh sh' ->
    settles (if permit then acquired_queued (measure sh) else measure sh) (ready sh) ops sh' ->
    commit_case b t g v quota_ok sh
      (Committed sh' ops permit (Some (next_sequence a)) (Ok (committed a))).

Lemma commit_value_ok i b t g v quota_ok sh :
  shard_ok i sh -> queued_total sh + 1 < 2 ^ bits pw ->
  exists r, commit_value pw b t g v quota_ok sh = Done r
            /\ commit_case b t g v quota_ok sh r /\ shard_ok i (c_shard r).
Proof.
  intros H Hw. pose proof (pending_nodup _ _ H b) as Hn. unfold commit_value, refused.
  destruct (active_by_topic sh !! t) as [a|] eqn:Ha.
  2:{ eexists. split_and!; [done|constructor|done]. }
  destruct (Z.eqb_spec (generation a) g) as [Hg|]; simpl.
  2:{ eexists. split_and!; [done|constructor|done]. }
  destruct (match latest_slot_state a with
            | Some (Resident _ _ w) => value_eq w v | _ => false end) eqn:Hd.
  { eexists. split_and!; [done| |done].
    destruct (latest_slot_state a) as [[| | ]|] eqn:Hl; try done. by eapply commit_duplicate. }
  destruct (checked_add 64 (next_sequence a) 1) as [s'|] eqn:Hs.
  2:{ eexists. split_and!; [done|constructor|done]. }
  unfold checked_add in Hs. destruct (Z.ltb_spec (next_sequence a + 1) (2 ^ 64)); [|done].
  injection Hs as <-. destruct (actives_ok _ _ H _ _ Ha) as [Hok _].
  change (Active (id a) (generation a) (committed a) _ (Some b) _) with (stored_active b v a).
  destruct (IndexMap.get t _) as [q'|] eqn:E.
  - set (m := IndexMap.set t _ _).
    assert (NoDup (keys m)) as Hm by (unfold m; by erewrite keys_set).
    assert (forall u, get u m = if u =? t then Some (Queued (generation a) (next_sequence a))
                                else get u (at_buffer b (pending sh))) as Hget.
    { intros u. unfold m. by erewrite get_set. }
    destruct (store_set i b t v sh a m H Ha ltac:(done) Hm Hget ltac:(by exists q') eq_refl)
      as [Esc S].
    pose proof (store_shard_ok i b t v sh a m H Ha ltac:(done) Hm Hget) as Hok'.
    pose proof (store_pend i b t v sh a m H Ha ltac:(done) Hm Hget) as Hp.
    rewrite <- Esc. eexists. split_and!; [done| |done]. rewrite <- Hg in *.
    by eapply commit_stored with (permit := false).
  - destruct quota_ok.
    + set (m := IndexMap.push t _ _).
      assert (forall u, get u m = if u =? t then Some (Queued (generation a) (next_sequence a))
                                  else get u (at_buffer b (pending sh))) as Hget.
      { intros u. unfold m. by apply get_push. }
      assert (NoDup (keys m)) as Hm.
      { unfold m, push, keys. rewrite fmap_app. apply NoDup_app. split_and!; [done| |apply NoDup_singleton].
        intros x Hx ->%list_elem_of_singleton. by apply get_None in E. }
      destruct (store_push i b t v sh a m H Ha ltac:(done) Hm Hget E eq_refl Hw)
        as (ops & -> & S).
      pose proof (store_shard_ok i b t v sh a m H Ha ltac:(done) Hm Hget) as Hok'.
      pose proof (store_pend i b t v sh a m H Ha ltac:(done) Hm Hget) as Hp.
      simpl. eexists. split_and!; [done| |done]. rewrite <- Hg in *.
      by eapply commit_stored with (permit := true).
    + eexists. split_and!; [done|by eapply commit_overloaded|].
      change (shard_ok i (set_active t (skipped a) sh)).
      eapply (set_active_ok i t a); try done; [by apply skipped_ok|].
      intros b' q Hq. destruct (pending_slot _ _ H _ _ _ Hq) as (x & Hx & Hv).
      by simplify_eq.
Qed.

(** ** Slots that keep their version or are emptied *)
Record settled_slots (a a' : ActiveSubscription) : Prop := {
  settled_id : id a' = id a;
  settled_generation : generation a' = generation a;
  settled_committed : committed a' = committed a;
  settled_latest : latest_slot a' = latest_slot a;
  settled_next : next_sequence a' = next_sequence a;
  settled_version : forall b, slot_version b a' = slot_version b a
    \/ (at_buffer b (values a') = Empty /\ latest_slot a <> Some b);
  settled_flight : committed a = false -> forall b g s, at_buffer b (values a') <> InFlight g s;
}.

Lemma settled_refl a : active_ok a -> settled_slots a a.
Proof. intros Hok. split; auto. apply (uncommitted_resident _ Hok). Qed.

Lemma settled_ok a a' : active_ok a -> settled_slots a a' -> active_ok a'.
Proof.
  intros [H1 H2 H3 H4 H5] [K1 K2 K3 K4 K5 K6 K7].
  assert (forall b v, slot_version b a' = Some v -> slot_version b a = Some v) as Hv.
  { intros b v Hv. destruct (K6 b) as [Hb|[He _]]; [congruence|].
    unfold slot_version in Hv. by rewrite He in Hv. }
  split.
  - intros b g s Hb. rewrite K2, K5. by apply (H1 b), Hv.
  - intros b Hl. rewrite K4 in Hl. destruct (H2 b Hl) as (g & s & Hb & Ho). exists g, s.
    destruct (K6 b) as [Hb'|[_ Hn]]; [|done]. split; [congruence|].
    intros g' s' Hs. by apply (Ho g' s'), Hv.
  - intros Hl b. rewrite K4 in Hl. specialize (H3 Hl b).
    destruct (K6 b) as [Hb|[He _]]; [|done]. unfold slot_version in Hb. rewrite H3 in Hb.
    by destruct (at_buffer b (values a')).
  - intros Hc. rewrite K3 in Hc. by apply K7.
  - by rewrite K5.
Qed.

(** ** Collection *)

(** The newest pending entry of a topic. *)
Definition newest (sh : TopicShard) (t : Z) : option (BufferIndex * QueuedUpdate) :=
  match pend First t sh, pend Second t sh with
  | Some q0, Some q1 =>
      if q_sequence q0 <? q_sequence q1 then Some (Second, q1) else Some (First, q0)
  | Some q0, None => Some (First, q0)
  | None, Some q1 => Some (Second, q1)
  | None, None => None
  end.

(** What collection takes from a topic: its newest entry, when it is committed
    and its value is there. *)
Definition collected_update (sh : TopicShard) (t : Z) : option RtdUpdate :=
  match active_by_topic sh !! t, newest sh t with
  | Some a, Some (b, _) =>
      match committed a, at_buffer b (values a) with
      | true, Resident g s v => Some (Update s t g b v)
      | _, _ => None
      end
  | _, _ => None
  end.

Definition collected_active (sh : TopicShard) (t : Z) (a : ActiveSubscription)
  : ActiveSubscription :=
  match newest sh t with
  | Some (b, _) =>
      match committed a, at_buffer b (values a) with
      | true, Resident g s _ => set_slot b (InFlight g s) a
      | _, _ => a
      end
  | None => a
  end.

Definition collect_topic (sh : TopicShard) (t : Z) (st : TopicShard * list RtdUpdate)
  : TopicShard * list RtdUpdate :=
  match newest sh t with
  | Some (b, q) => push_deliverable b t q st
  | None => st
  end.

Lemma newest_pend sh t b q : newest sh t = Some (b, q) -> pend b t sh = Some q.
Proof.
  unfold newest. destruct (pend First t sh) eqn:E0, (pend Second t sh) eqn:E1;
    try case_match; by intros [= <- <-].
Qed.

Lemma newest_newer i sh t b q :
  shard_ok i sh -> newest sh t = Some (b, q) ->
  forall b' q', pend b' t sh = Some q' -> q_sequence q' <= q_sequence q.
Proof.
  intros H. unfold newest.
  destruct (pend First t sh) eqn:E0, (pend Second t sh) eqn:E1; try case_match eqn:Hlt;
    intros [= <- <-] [] q' Hq; simplify_eq; lia.
Qed.

(** The collection of a shard, one topic after the other. *)
Definition same_connections (sh sh' : TopicShard) : Prop :=
  pending sh' = pending sh /\
  forall t, (fun a => (generation a, committed a)) <$> active_by_topic sh' !! t
            = (fun a => (generation a, committed a)) <$> active_by_topic sh !! t.

Lemma push_same b t q st sh :
  same_connections sh (fst st) -> same_connections sh (fst (push_deliverable b t q st)).
Proof.
  destruct st as [sh' ups]. intros [Hp Ha]. unfold push_deliverable.
  destruct (active_by_topic sh' !! t) as [a|] eqn:E; [|done].
  destruct (negb _ || _); [done|]. destruct (at_buffer b (values a)); try done.
  destruct (negb _ || _); [done|]. split; [done|]. intros u. simpl.
  destruct (decide (u = t)) as [->|]; [|by rewrite lookup_insert_ne].
  rewrite lookup_insert_eq. specialize (Ha t). simpl in Ha. by rewrite E in Ha.
Qed.

#[local] Arguments push_deliverable : simpl never.

Section Collect.
Context (i : Z) (sh : TopicShard) (H : shard_ok i sh).

Lemma push_selected_newest t q st :
  pend First t sh = Some q -> same_connections sh (fst st) ->
  push_selected (second (pending sh)) st (t, q) = collect_topic sh t st.
Proof using H.
  intros Hq [_ Ha]. unfold push_selected, select_newest, collect_topic, newest. simpl.
  change (get t (second (pending sh))) with (pend Second t sh). rewrite Hq.
  destruct (pend_active _ _ _ _ _ H Hq) as (a & Hat & _ & _ & Hg & _).
  specialize (Ha t). rewrite Hat in Ha. destruct st as [sh' ups]. simpl in *.
  destruct (active_by_topic sh' !! t) as [a'|] eqn:Ea; [|done]. simpl in Ha.
  injection Ha as Hga Hca. rewrite <- Hga in Hg.
  destruct (committed a') eqn:Ec; simpl.
  - rewrite Hg, Z.eqb_refl. destruct (pend Second t sh) as [q1|] eqn:Hq1; [|done].
    destruct (pend_active _ _ _ _ _ H Hq1) as (x & Hx & _ & _ & Hgx & _). simplify_eq.
    rewrite Hgx, <- Hga, Z.eqb_refl. by case_match.
  - assert (forall b q, push_deliverable b t q (sh', ups) = (sh', ups)) as Hp.
    { intros b q'. unfold push_deliverable. by rewrite Ea, Ec. }
    destruct (pend Second t sh) as [q1|]; [destruct (_ <? _)|]; by rewrite Hp.
Qed.

Lemma push_second_newest t q st :
  pend Second t sh = Some q -> pend First t sh = None ->
  push_second (first (pending sh)) st (t, q) = collect_topic sh t st.
Proof using.
  intros Hq Hn. unfold push_second, collect_topic, newest. simpl.
  change (get t (first (pending sh))) with (pend First t sh). by rewrite Hn, Hq.
Qed.

Lemma fold_entries (f : TopicShard * list RtdUpdate -> Z * QueuedUpdate -> _) m st :
  (forall t q st', (t, q) ∈ m -> same_connections sh (fst st') ->
     f st' (t, q) = collect_topic sh t st') ->
  same_connections sh (fst st) ->
  foldl f st m = foldl (fun st t => collect_topic sh t st) st (keys m)
  /\ same_connections sh (fst (foldl f st m)).
Proof using.
  revert st. induction m as [|[t q] m IH]; simpl; intros st Hf Hs; [done|].
  rewrite (Hf t q st) by (done || left). apply IH; [intros; apply Hf; [by right|done]|].
  unfold collect_topic. destruct (newest sh t) as [[b q']|]; [|done]. by apply push_same.
Qed.

(** The topics in the order of their entries. *)
Definition collect_order : list Z :=
  match first (pending sh), second (pending sh) with
  | p0, [] => keys p0
  | [], p1 => keys p1
  | p0, p1 => keys p0 ++ filter (fun t => pend First t sh = None) (keys p1)
  end.

Lemma elem_keys b t : t ∈ keys (at_buffer b (pending sh)) <-> is_Some (pend b t sh).
Proof using.
  unfold pend. pose proof (get_None t (at_buffer b (pending sh))) as Hn.
  destruct (get t _); split; [eauto| |by intros; destruct Hn; tauto|by intros []].
  intros _. destruct (decide (t ∈ keys (at_buffer b (pending sh)))) as [|Hk]; [done|].
  by apply Hn in Hk.
Qed.

Lemma collect_order_spec :
  NoDup collect_order /\ forall t, t ∈ collect_order <-> exists b, is_Some (pend b t sh).
Proof using H.
  pose proof (pending_nodup _ _ H First) as H0. pose proof (pending_nodup _ _ H Second) as H1.
  pose proof (elem_keys First) as K0. pose proof (elem_keys Second) as K1. simpl in *.
  assert (forall t, (exists b, is_Some (pend b t sh))
                    <-> t ∈ keys (first (pending sh)) \/ t ∈ keys (second (pending sh))) as Ke.
  { intros t. rewrite K0, K1. split; [intros [[] ?]; eauto|intros []; eauto]. }
  setoid_rewrite Ke. unfold collect_order.
  destruct (first (pending sh)) as [|e0 m0], (second (pending sh)) as [|e1 m1].
  - split; [done|]. intros t. simpl. tauto.
  - split; [done|]. intros t. simpl. rewrite (elem_of_nil t). tauto.
  - split; [done|]. intros t. simpl. rewrite (elem_of_nil t). tauto.
  - split.
    + apply NoDup_app. split_and!; [done| |by apply NoDup_filter].
      intros t Ht%K0 [Hn _]%list_elem_of_filter. destruct Ht. congruence.
    + intros t. rewrite elem_of_app, list_elem_of_filter. split; [tauto|].
      intros [?|Ht]; [by left|]. destruct (pend First t sh) eqn:E; [left|by right].
      apply K0. by exists q.
Qed.

Lemma fold_second m st :
  (forall t q, (t, q) ∈ m -> pend Second t sh = Some q) ->
  foldl (push_second (first (pending sh))) st m
  = foldl (fun st t => collect_topic sh t st) st (filter (fun t => pend First t sh = None) (keys m)).
Proof using.
  revert st. induction m as [|[t q] m IH]; intros st Hm; [done|]. simpl.
  assert (pend Second t sh = Some q) as Hq by (apply Hm; left).
  assert (forall st, foldl (push_second (first (pending sh))) st m = foldl
    (fun st t => collect_topic sh t st) st (filter (fun t => pend First t sh = None) (keys m))) as IH'.
  { intros st'. apply IH. intros u q' Hu. apply Hm. by right. }
  rewrite filter_cons. destruct (decide (pend First t sh = None)) as [Hn|Hn].
  - by rewrite (push_second_newest t q st Hq Hn), IH'.
  - unfold push_second at 2. simpl. change (get t (first (pending sh))) with (pend First t sh).
    destruct (pend First t sh); [|done]. apply IH'.
Qed.

Lemma pend_elem b t q : (t, q) ∈ at_buffer b (pending sh) -> pend b t sh = Some q.
Proof using H. intros Hin. by apply get_entry; [apply (pending_nodup _ _ H)|]. Qed.

(** Collection goes through the topics once. *)
Lemma collect_fold ups :
  deliverable_count sh <> 0 ->
  collect_shard_into sh ups = foldl (fun st t => collect_topic sh t st) (sh, ups) collect_order.
Proof using H.
  intros Hc. unfold collect_shard_into, collect_order.
  rewrite (proj2 (Z.eqb_neq _ _) Hc).
  pose proof (pend_elem First) as P0. pose proof (pend_elem Second) as P1. simpl in P0, P1.
  assert (same_connections sh sh) as Hs by done.
  assert (forall m b, (forall t q, (t, q) ∈ m -> pend b t sh = Some q) ->
    (forall t, pend (other b) t sh = None) ->
    foldl (fun st e => push_deliverable b (fst e) (snd e) st) (sh, ups) m
    = foldl (fun st t => collect_topic sh t st) (sh, ups) (keys m)) as Hone.
  { intros m b Hm Ho. apply fold_entries; [|done]. intros t q st Hin _. simpl.
    unfold collect_topic, newest. specialize (Hm t q Hin). specialize (Ho t).
    destruct b; simpl in Ho; by rewrite Hm, Ho. }
  destruct (second (pending sh)) as [|e1 m1] eqn:E1.
  - assert (forall t, pend Second t sh = None) as Hn by (intros t; unfold pend; simpl; by rewrite E1).
    destruct (first (pending sh)) as [|e0 m0] eqn:E0; [done|]. by apply (Hone _ First).
  - destruct (first (pending sh)) as [|e0 m0] eqn:E0.
    + apply (Hone _ Second); [done|]. intros t. unfold pend. simpl. by rewrite E0.
    + rewrite foldl_app. rewrite <- E0 at 1. rewrite fold_second by done. f_equal.
      rewrite <- E1. apply fold_entries; [|done]. intros t q st Hin Hst.
      apply push_selected_newest; [by apply P0|done].
Qed.
End Collect.

(** The effect of collection, topic by topic. *)
Record collected (sh : TopicShard) (ts : list Z) (sh' : TopicShard) : Prop := {
  collected_pending : pending sh' = pending sh;
  collected_ids : topic_by_id sh' = topic_by_id sh;
  collected_count : deliverable_count sh' = deliverable_count sh;
  collected_actives : forall t, active_by_topic sh' !! t =
    if decide (t ∈ ts) then collected_active sh t <$> active_by_topic sh !! t
    else active_by_topic sh !! t;
}.

Section CollectEffect.
Context (i : Z) (sh : TopicShard) (H : shard_ok i sh).

Lemma collect_topic_step t sh0 ups :
  active_by_topic sh0 !! t = active_by_topic sh !! t ->
  exists sh1, collect_topic sh t (sh0, ups) = (sh1, ups ++ option_list (collected_update sh t))
    /\ pending sh1 = pending sh0 /\ topic_by_id sh1 = topic_by_id sh0
    /\ deliverable_count sh1 = deliverable_count sh0
    /\ forall u, active_by_topic sh1 !! u =
         if decide (u = t) then collected_active sh t <$> active_by_topic sh !! t
         else active_by_topic sh0 !! u.
Proof using H.
  intros Ha0. unfold collect_topic, collected_update, collected_active.
  assert (forall u, active_by_topic sh0 !! u =
    if decide (u = t) then active_by_topic sh !! t else active_by_topic sh0 !! u) as Hid.
  { intros u. destruct (decide (u = t)) as [->|]; done. }
  destruct (newest sh t) as [[b q]|] eqn:Hnew.
  2:{ exists sh0. rewrite option_fmap_id. split_and!; try done. destruct (active_by_topic sh !! t);
      by rewrite app_nil_r. }
  apply newest_pend in Hnew as Hq.
  destruct (pend_active _ _ _ _ _ H Hq) as (a & Ha & Hok & Hv & Hg & _).
  unfold push_deliverable. rewrite Ha0, Ha, Hg, Z.eqb_refl. simpl.
  rewrite Ha in Hid. destruct (committed a) eqn:Hc; simpl.
  2:{ exists sh0. by rewrite app_nil_r. }
  unfold slot_version in Hv. destruct (at_buffer b (values a)) as [|g s v|g s] eqn:Hs;
    [done| |exists sh0; by rewrite app_nil_r].
  injection Hv as -> ->. rewrite Hg, !Z.eqb_refl. simpl.
  eexists. split_and!; [done..|]. intros u. simpl.
  destruct (decide (u = t)) as [->|]; [by rewrite lookup_insert_eq|by rewrite lookup_insert_ne].
Qed.

Lemma collect_topics ts sh0 ups :
  NoDup ts -> (forall t, t ∈ ts -> active_by_topic sh0 !! t = active_by_topic sh !! t) ->
  exists sh1, foldl (fun st t => collect_topic sh t st) (sh0, ups) ts
              = (sh1, ups ++ omap (collected_update sh) ts)
    /\ pending sh1 = pending sh0 /\ topic_by_id sh1 = topic_by_id sh0
    /\ deliverable_count sh1 = deliverable_count sh0
    /\ forall u, active_by_topic sh1 !! u =
         if decide (u ∈ ts) then collected_active sh u <$> active_by_topic sh !! u
         else active_by_topic sh0 !! u.
Proof using H.
  revert sh0 ups. induction ts as [|t ts IH]; intros sh0 ups Hn Ha.
  { exists sh0. rewrite app_nil_r. by split_and!. }
  apply NoDup_cons in Hn as [Ht Hn].
  destruct (collect_topic_step t sh0 ups (Ha t ltac:(left))) as (sh1 & E & E1 & E2 & E3 & E4).
  destruct (IH sh1 (ups ++ option_list (collected_update sh t)) Hn)
    as (sh2 & F & F1 & F2 & F3 & F4).
  { intros u Hu. rewrite E4, decide_False by (intros ->; done). apply Ha. by right. }
  exists sh2. simpl. rewrite E, F. split; [|split_and!; [congruence..|]].
  - f_equal. rewrite <- app_assoc. f_equal. by destruct (collected_update sh t).
  - intros u. rewrite F4, E4. destruct (decide (u = t)) as [->|Hu].
    + by rewrite (decide_False (P := t ∈ ts)), (decide_True (P := t ∈ t :: ts)) by (done || left).
    + destruct (decide (u ∈ ts)) as [Hi|Hi]; [by rewrite decide_True by (by right)|].
      by rewrite decide_False by (intros [?|?]%elem_of_cons; done).
Qed.

Lemma collected_settled t a : active_by_topic sh !! t = Some a ->
  settled_slots a (collected_active sh t a).
Proof using H.
  intros Ha. destruct (actives_ok _ _ H _ _ Ha) as [Hok _]. pose proof (settled_refl a Hok) as Hr.
  unfold collected_active. destruct (newest sh t) as [[b q]|]; [|done].
  destruct (committed a) eqn:Hc; [|done].
  destruct (at_buffer b (values a)) as [|g s v|g s] eqn:Hs; try done.
  split; try done; [|by rewrite Hc]. intros b'. left. unfold slot_version. simpl. rewrite at_put.
  destruct (decide (b' = b)) as [->|]; [by rewrite Hs|done].
Qed.

Lemma collected_ok ts sh' : collected sh ts sh' ->
  shard_ok i sh' /\ measure sh' = measure sh /\ ready sh' = ready sh.
Proof using H.
  intros [C1 C2 C3 C4].
  assert (forall b t, pend b t sh' = pend b t sh) as Hp by (intros; unfold pend; by rewrite C1).
  assert (forall t a', active_by_topic sh' !! t = Some a' ->
    exists a, active_by_topic sh !! t = Some a /\ settled_slots a a') as Hback.
  { intros t a'. rewrite C4. case_decide.
    - intros (a & Ha & ->)%fmap_Some_1. exists a. split; [done|by apply collected_settled].
    - intros Ha. exists a'. split; [done|].
      apply settled_refl. by destruct (actives_ok _ _ H _ _ Ha). }
  assert (forall t a, active_by_topic sh !! t = Some a ->
    exists a', active_by_topic sh' !! t = Some a' /\ settled_slots a a') as Hforth.
  { intros t a Ha. destruct (active_by_topic sh' !! t) as [a'|] eqn:Ha'.
    - destruct (Hback t a' Ha') as (x & Hx & Hs). simplify_eq. eauto.
    - rewrite C4, Ha in Ha'. by case_decide. }
  assert (forall t, committed_topic sh' t = committed_topic sh t) as Hct.
  { intros t. unfold committed_topic. destruct (active_by_topic sh !! t) as [a|] eqn:Ha.
    - destruct (Hforth t a Ha) as (a' & -> & Hs). apply Hs.
    - rewrite C4, Ha. by case_decide. }
  split; [split|split].
  - rewrite C1. apply (pending_nodup _ _ H).
  - intros b t q. rewrite Hp. intros Hq. destruct (pending_slot _ _ H _ _ _ Hq) as (a & Ha & Hv).
    rewrite C4, Ha. case_decide; [|eauto]. eexists. split; [done|]. rewrite <- Hv.
    destruct (settled_version _ _ (collected_settled t a Ha) b) as [|[He _]]; [done|].
    unfold collected_active, slot_version in *. destruct (newest sh t) as [[b' q']|]; [|by rewrite He in Hv].
    destruct (committed a); [|by rewrite He in Hv].
    destruct (at_buffer b' (values a)); try (by rewrite He in Hv).
    simpl in He. rewrite at_put in He. case_decide; [done|]. by rewrite He in Hv.
  - intros t a' Ha'. destruct (Hback t a' Ha') as (a & Ha & Hs).
    destruct (actives_ok _ _ H _ _ Ha) as [Hok Hi]. split; [by eapply settled_ok|done].
  - intros d t. rewrite C2, (ids_ok _ _ H). split.
    + intros (a & Ha & <-). destruct (Hforth t a Ha) as (a' & ? & Hs). exists a'. split; [done|apply Hs].
    + intros (a' & Ha' & <-). destruct (Hback t a' Ha') as (a & ? & Hs). exists a. split; [done|].
      symmetry. apply Hs.
  - rewrite C3, (count_exact _ _ H). symmetry. apply deliverables_ext; auto.
    apply (pending_nodup _ _ H).
  - unfold measure, queued_total. rewrite C1, C3. f_equal. f_equal. rewrite <- !size_dom. f_equal.
    apply set_eq. intros t. rewrite !elem_of_dom. split; intros [a Ha].
    + destruct (Hback t a Ha) as (? & ? & _). eauto.
    + destruct (Hforth t a Ha) as (? & ? & _). eauto.
  - unfold ready. by rewrite C3.
Qed.

(** Collection takes the newest value of every committed topic with a pending
    one, in the order of the entries. *)
Lemma collect_ok ups :
  exists sh', collect_shard_into sh ups = (sh', ups ++ omap (collected_update sh) (collect_order sh))
              /\ collected sh (collect_order sh) sh'.
Proof using H.
  destruct (collect_order_spec i sh H) as [Hn Hin].
  destruct (decide (deliverable_count sh = 0)) as [Hz|Hz].
  - exists sh. unfold collect_shard_into. rewrite Hz. simpl.
    assert (forall t, t ∈ collect_order sh -> committed_topic sh t = false) as Hc.
    { intros t [b [q Hq]]%Hin. destruct (committed_topic sh t) eqn:Hct; [|done]. exfalso.
      pose proof (count_exact _ _ H). unfold deliverables in *.
      pose proof (count_nonneg (committed_topic sh) (first (pending sh))).
      pose proof (count_nonneg (committed_topic sh) (second (pending sh))).
      pose proof (count_in_pos _ _ _ _ Hq Hct). destruct b; simpl in *; lia. }
    assert (forall l, (forall t, t ∈ l -> committed_topic sh t = false) ->
                      omap (collected_update sh) l = []) as Homap.
    { induction l as [|t l IH]; intros Hl; [done|]. simpl. specialize (Hl t ltac:(left)) as Ht.
      assert (collected_update sh t = None) as ->.
      { unfold collected_update, committed_topic in *. destruct (active_by_topic sh !! t); [|done].
        by destruct (newest sh t) as [[]|]; [rewrite Ht|]. }
      apply IH. intros; apply Hl; by right. }
    rewrite Homap, app_nil_r by done. split; [done|]. split; try done.
    intros t. case_decide as Ht; [|done]. specialize (Hc t Ht). unfold committed_topic in Hc.
    destruct (active_by_topic sh !! t) as [a|]; [|done]. simpl. unfold collected_active.
    by destruct (newest sh t) as [[]|]; [rewrite Hc|].
  - rewrite (collect_fold i sh H ups Hz).
    destruct (collect_topics (collect_order sh) sh ups Hn ltac:(done)) as (sh' & -> & F).
    exists sh'. split; [done|]. destruct F as (? & ? & ? & ?). by split.
Qed.
End CollectEffect.

(** ** Retirement *)
Definition landed_active (u : RtdUpdate) (o : RefreshOutcome) (a : ActiveSubscription)
  : ActiveSubscription :=
  if in_flight u a then
    set_slot (u_buffer u)
      (match o with
       | Delivered =>
           if bool_decide (latest_slot a = Some (u_buffer u))
           then Resident (u_generation u) (u_sequence u) (u_value u) else Empty
       | Failed => Resident (u_generation u) (u_sequence u) (u_value u)
       end) a
  else a.

(** What retiring [u] does to a connection: a slot keeps its contents, or the
    value of [u] is back in it, or it is emptied because it holds neither the
    latest value nor a pending one. *)
Record retired (u : RtdUpdate) (a a' : ActiveSubscription) : Prop := {
  retired_settled : settled_slots a a';
  retired_slot : forall b,
    (at_buffer b (values a') = at_buffer b (values a) /\ ~ (b = u_buffer u /\ in_flight u a = true))
    \/ (at_buffer b (values a') = Empty /\ latest_slot a <> Some b)
    \/ (b = u_buffer u /\ in_flight u a = true
        /\ at_buffer b (values a') = Resident (u_generation u) (u_sequence u) (u_value u));
}.

Lemma land_active u o sh :
  land_update u o sh = match active_by_topic sh !! u_topic u with
                       | Some a => if in_flight u a
                                   then set_active (u_topic u) (landed_active u o a) sh else sh
                       | None => sh
                       end.
Proof.
  unfold land_update, landed_active. destruct (active_by_topic sh !! u_topic u); [|done].
  by destruct (in_flight u a).
Qed.

Lemma in_flight_slot u a : in_flight u a = true ->
  generation a = u_generation u
  /\ at_buffer (u_buffer u) (values a) = InFlight (u_generation u) (u_sequence u).
Proof.
  unfold in_flight. intros [Hg%Z.eqb_eq Hs]%andb_prop. split; [done|].
  destruct (at_buffer _ _) as [| |g s]; try done.
  by apply andb_prop in Hs as [->%Z.eqb_eq ->%Z.eqb_eq].
Qed.

Lemma landed_retired u o a : active_ok a -> retired u a (landed_active u o a).
Proof.
  intros Hok. unfold landed_active. destruct (in_flight u a) eqn:Hf.
  2:{ split; [by apply settled_refl|]. intros b. left. split; [done|]. intros [_ ?]; congruence. }
  destruct (in_flight_slot u a Hf) as [Hg Hs].
  assert (committed a = true) as Hc.
  { destruct (committed a) eqn:Hc; [done|]. by destruct (uncommitted_resident _ Hok Hc (u_buffer u) _ _ Hs). }
  set (w := match o with Delivered => _ | Failed => _ end).
  assert (w = Resident (u_generation u) (u_sequence u) (u_value u)
          \/ (w = Empty /\ latest_slot a <> Some (u_buffer u))) as Hw.
  { unfold w. destruct o; [|by left]. case_bool_decide; [by left|by right]. }
  split; [split; try done|].
  - intros b. unfold slot_version. simpl. rewrite at_put. case_decide as Hb; [|by left].
    rewrite Hb, Hs. destruct Hw as [->|[-> ?]]; [by left|by right].
  - congruence.
  - intros b. simpl. rewrite at_put. case_decide as Hb; [|left; split; [done|by intros []]].
    rewrite Hb. destruct Hw as [->|[-> ?]]; [by do 2 right|by right; left].
Qed.

Lemma sweep_slots b t g s sh a b' :
  at_buffer b' (values (sweep_slot b t g s sh a)) = at_buffer b' (values a)
  \/ (b' = b /\ at_buffer b' (values (sweep_slot b t g s sh a)) = Empty
      /\ latest_slot a <> Some b /\ pend b t sh = None
      /\ exists s' v, at_buffer b (values a) = Resident g s' v /\ s' <= s).
Proof.
  unfold sweep_slot. destruct (at_buffer b (values a)) as [|g' s' v|] eqn:E; try by left.
  destruct (_ && _) eqn:Hc; [|by left].
  apply andb_prop in Hc as [[[Hg%Z.eqb_eq Hs%Z.leb_le]%andb_prop Hl]%andb_prop Hp].
  simpl. rewrite at_put. destruct (decide (b' = b)) as [->|]; [|by left].
  right. split_and!; [done|done| | |].
  - apply negb_true_iff in Hl. by apply bool_decide_eq_false in Hl.
  - unfold has_pending in Hp. apply negb_true_iff, bool_decide_eq_false in Hp.
    unfold pend. by destruct (get t _); [destruct Hp|].
  - exists s', v. by subst.
Qed.

Lemma sweep_fields b t g s sh a : let a' := sweep_slot b t g s sh a in
  id a' = id a /\ generation a' = generation a /\ committed a' = committed a
  /\ latest_slot a' = latest_slot a /\ next_sequence a' = next_sequence a.
Proof. unfold sweep_slot. destruct (at_buffer _ _); [done| |done]. by destruct (_ && _). Qed.

Lemma sweep_settled b t g s sh a : active_ok a -> settled_slots a (sweep_slot b t g s sh a).
Proof.
  intros Hok. destruct (sweep_fields b t g s sh a) as (?&?&?&?&?). split; try done.
  - intros b'. destruct (sweep_slots b t g s sh a b') as [E|(-> & E & Hl & _)]; [left|by right].
    unfold slot_version. by rewrite E.
  - intros Hc b' g' s'. destruct (sweep_slots b t g s sh a b') as [->|(-> & -> & _)]; [|done].
    by apply (uncommitted_resident _ Hok).
Qed.

Lemma settled_trans a a' a'' : settled_slots a a' -> settled_slots a' a'' -> settled_slots a a''.
Proof.
  intros [H1 H2 H3 H4 H5 H6 H7] [K1 K2 K3 K4 K5 K6 K7]. split; try congruence.
  - intros b. destruct (K6 b) as [Hb|[He Hl]]; [|right; split; [done|congruence]].
    destruct (H6 b) as [Hb'|[He' Hl']]; [left; congruence|right; split; [|done]].
    unfold slot_version in Hb. rewrite He' in Hb. by destruct (at_buffer b (values a'')).
  - intros Hc. apply K7. congruence.
Qed.

Lemma sweep_retired u a a' b t g s sh :
  active_ok a -> retired u a a' -> retired u a (sweep_slot b t g s sh a').
Proof.
  intros Hok [Hs Hr]. pose proof (settled_ok _ _ Hok Hs) as Hok'. split.
  - eapply settled_trans; [done|by apply sweep_settled].
  - intros b'. destruct (sweep_slots b t g s sh a' b') as [->|(-> & -> & Hl & _)]; [apply Hr|].
    right. left. split; [done|]. by rewrite (settled_latest _ _ Hs) in Hl.
Qed.

(** Removal does not look at the slots, so that it can be taken first. *)
Lemma remove_entry_set_active b t p d u a sh sh' ops :
  remove_entry b t p d sh = Done (sh', ops) ->
  remove_entry b t p d (set_active u a sh) = Done (set_active u a sh', ops).
Proof.
  unfold remove_entry. simpl. destruct (remove_queued_if _ t p) as [m|]; [|by intros [= <- <-]].
  unfold record_pending_removal. destruct d; simpl; [|by intros [= <- <-]].
  unfold record_deliverable_decrease. simpl.
  destruct (checked_sub (deliverable_count sh) 1) as [c|]; simpl; [|done]. by intros [= <- <-].
Qed.

Lemma retire_through_set_active t g s a a' sh sh1 o1 sh2 o2 :
  let p q := (connection_generation q =? g) && (q_sequence q <=? s) in
  active_by_topic sh !! t = Some a -> committed a' = committed a ->
  remove_pending_if First t p sh = Done (sh1, o1) ->
  remove_pending_if Second t p sh1 = Done (sh2, o2) ->
  active_by_topic sh1 = active_by_topic sh -> active_by_topic sh2 = active_by_topic sh ->
  retire_pending_through t g s (set_active t a' sh)
  = Done (set_active t (sweep_slot Second t g s sh2 (sweep_slot First t g s sh2 a')) sh2, o1 ++ o2).
Proof.
  intros p Ha Hc E1 E2 A1 A2. unfold retire_pending_through, remove_pending_if in *. fold p.
  assert (forall sh0, active_by_topic sh0 = active_by_topic sh ->
    committed_topic (set_active t a' sh0) t = committed_topic sh0 t) as Hct.
  { intros sh0 E. rewrite committed_insert, Z.eqb_refl. unfold committed_topic.
    by rewrite E, Ha. }
  rewrite (Hct sh eq_refl), (remove_entry_set_active _ _ _ _ _ _ _ _ _ E1). simpl.
  rewrite (Hct sh1 A1), (remove_entry_set_active _ _ _ _ _ _ _ _ _ E2). simpl.
  rewrite lookup_insert_eq. do 2 f_equal. unfold set_active. simpl. f_equal.
  apply insert_insert_eq.
Qed.

Definition retire_through (u : RtdUpdate) (o : RefreshOutcome)
    (b : BufferIndex) (t : Z) (q : QueuedUpdate) : bool :=
  bool_decide (o = Delivered) && (t =? u_topic u)
  && ((connection_generation q =? u_generation u) && (q_sequence q <=? u_sequence u)).

(** Putting the slots of one connection back keeps the shard well formed when
    no entry that is left refers to a slot that was emptied. *)
Lemma settle_active_ok i t a a' sh :
  shard_ok i sh -> active_by_topic sh !! t = Some a -> settled_slots a a' ->
  (forall b q, pend b t sh = Some q -> slot_version b a' = slot_version b a) ->
  shard_ok i (set_active t a' sh) /\ measure (set_active t a' sh) = measure sh
  /\ ready (set_active t a' sh) = ready sh.
Proof.
  intros H Ha Hs Hp. destruct (actives_ok _ _ H _ _ Ha) as [Hok _].
  apply (set_active_ok i t a); [done|done|by eapply settled_ok|apply Hs|apply Hs|].
  intros b q Hq. rewrite (Hp b q Hq).
  destruct (pending_slot _ _ H _ _ _ Hq) as (x & Hx & Hv). by simplify_eq.
Qed.

Lemma retired_version u a a' b :
  retired u a a' -> at_buffer b (values a') <> Empty -> slot_version b a' = slot_version b a.
Proof.
  intros [_ Hr] Hne. unfold slot_version. destruct (Hr b) as [[-> _]|[[? _]|(-> & Hf & ->)]]; [done..|].
  by rewrite (proj2 (in_flight_slot _ _ Hf)).
Qed.

Lemma sweep_keeps b t g s sh a : is_Some (pend b t sh) ->
  at_buffer b (values (sweep_slot b t g s sh a)) = at_buffer b (values a).
Proof.
  intros [q Hq]. by destruct (sweep_slots b t g s sh a b) as [->|(_ & _ & _ & Hn & _)]; [|congruence].
Qed.

Lemma sweep_other b b' t g s sh a : b' <> b ->
  at_buffer b' (values (sweep_slot b t g s sh a)) = at_buffer b' (values a).
Proof. intros Hb. by destruct (sweep_slots b t g s sh a b') as [->|(-> & _)]. Qed.

Definition retire_effect (i : Z) (u : RtdUpdate) (o : RefreshOutcome) (sh sh1 sh' : TopicShard)
    (ops : list counter_op) : Prop :=
  removes (retire_through u o) sh sh1
  /\ shard_ok i sh' /\ settles (measure sh) (ready sh) ops sh'
  /\ pending sh' = pending sh1 /\ topic_by_id sh' = topic_by_id sh
  /\ match active_by_topic sh !! u_topic u with
     | None => active_by_topic sh' = active_by_topic sh
     | Some a => exists a', retired u a a'
                 /\ active_by_topic sh' = <[u_topic u := a']> (active_by_topic sh)
     end.

Lemma land_set_active u o sh a : active_by_topic sh !! u_topic u = Some a ->
  land_update u o sh = set_active (u_topic u) (landed_active u o a) sh.
Proof.
  intros Ha. rewrite land_active, Ha. destruct (in_flight u a) eqn:Hf; [done|].
  unfold landed_active. rewrite Hf. unfold set_active. rewrite insert_id by done. by destruct sh.
Qed.

Lemma landed_nonempty i u sh sh2 a b q :
  shard_ok i sh -> removes (retire_through u Delivered) sh sh2 ->
  active_by_topic sh !! u_topic u = Some a -> pend b (u_topic u) sh2 = Some q ->
  at_buffer b (values (landed_active u Delivered a)) <> Empty.
Proof.
  intros H R Ha Hq. rewrite (removes_pend _ _ _ R) in Hq.
  destruct (pend b (u_topic u) sh) as [q'|] eqn:Hq'; [|done].
  destruct (retire_through u Delivered b (u_topic u) q') eqn:Hr; [done|].
  injection Hq as ->. unfold retire_through in Hr. rewrite Z.eqb_refl in Hr. simpl in Hr.
  destruct (pending_slot _ _ H _ _ _ Hq') as (x & Hx & Hv). simplify_eq.
  assert (at_buffer b (values a) <> Empty) as Hne.
  { intros He. unfold slot_version in Hv. by rewrite He in Hv. }
  unfold landed_active. destruct (in_flight u a) eqn:Hf; [|done].
  destruct (in_flight_slot _ _ Hf) as [_ Hs]. simpl. rewrite at_put. case_decide as Hb; [|done].
  subst b. unfold slot_version in Hv. rewrite Hs in Hv. injection Hv as Hv1 Hv2.
  by rewrite <- Hv1, <- Hv2, Z.eqb_refl, Z.leb_refl in Hr.
Qed.

Lemma retire_delivered i u sh :
  shard_ok i sh ->
  exists sh1 sh' ops, retire_update u Delivered sh = Done (sh', ops)
                      /\ retire_effect i u Delivered sh sh1 sh' ops.
Proof.
  intros H. set (p := fun q => (connection_generation q =? u_generation u)
                               && (q_sequence q <=? u_sequence u)).
  destruct (remove_entry_ok i First (u_topic u) p sh H) as (sh1 & o1 & E1 & H1 & S1 & R1).
  destruct (remove_entry_ok i Second (u_topic u) p sh1 H1) as (sh2 & o2 & E2 & H2 & S2 & R2).
  pose proof (removes_active _ _ _ R1) as A1. pose proof (removes_active _ _ _ R2) as A2.
  rewrite A1 in A2.
  assert (removes (retire_through u Delivered) sh sh2) as R.
  { eapply removes_ext; [by eapply removes_trans|]. intros b t q _. unfold only, retire_through.
    fold (p q). by destruct b, (t =? u_topic u), (p q). }
  assert (settles (measure sh) (ready sh) (o1 ++ o2) sh2) as S by (by eapply settles_app).
  unfold retire_update. destruct (active_by_topic sh !! u_topic u) as [a|] eqn:Ha.
  - destruct (actives_ok _ _ H _ _ Ha) as [Hok _]. rewrite (land_set_active _ _ _ a Ha).
    set (a1 := landed_active u Delivered a).
    pose proof (landed_retired u Delivered a Hok) as Hr1. fold a1 in Hr1.
    set (a2 := sweep_slot Second (u_topic u) (u_generation u) (u_sequence u) sh2
                 (sweep_slot First (u_topic u) (u_generation u) (u_sequence u) sh2 a1)).
    assert (retired u a a2) as Hr2 by (by apply sweep_retired, sweep_retired).
    destruct (settle_active_ok i (u_topic u) a a2 sh2) as (H3 & M3 & D3);
      [done|by rewrite A2|apply Hr2| |].
    { intros b q Hq. apply (retired_version u); [done|].
      assert (at_buffer b (values a2) = at_buffer b (values a1)) as ->.
      { unfold a2. destruct b; [rewrite sweep_other by done|rewrite sweep_keeps by eauto].
        - apply sweep_keeps. eauto.
        - by apply sweep_other. }
      by apply (landed_nonempty i u sh sh2 a b q). }
    exists sh2, (set_active (u_topic u) a2 sh2), (o1 ++ o2). split.
    + eapply retire_through_set_active; try done. apply (retired_settled _ _ _ Hr1).
    + unfold retire_effect. rewrite Ha. split_and!; try done.
      * destruct S as [Q1 Q2 Q3]. split; congruence.
      * apply R.
      * exists a2. simpl. by rewrite A2.
  - rewrite land_active, Ha. unfold retire_pending_through, remove_pending_if. fold p.
    rewrite E1. simpl. rewrite E2. simpl. rewrite A2, Ha.
    exists sh2, sh2, (o1 ++ o2). split; [done|]. unfold retire_effect. rewrite Ha.
    split_and!; try done. apply R.
Qed.

Lemma retire_ok i u o sh :
  shard_ok i sh ->
  exists sh1 sh' ops, retire_update u o sh = Done (sh', ops)
                      /\ retire_effect i u o sh sh1 sh' ops.
Proof.
  intros H. destruct o; [by apply retire_delivered|]. unfold retire_update.
  exists sh, (land_update u Failed sh), []. split; [done|].
  assert (removes (retire_through u Failed) sh sh) as R.
  { split; [done..|]. intros b t. by destruct (pend b t sh). }
  unfold retire_effect. destruct (active_by_topic sh !! u_topic u) as [a|] eqn:Ha.
  - rewrite (land_set_active _ _ _ a Ha). destruct (actives_ok _ _ H _ _ Ha) as [Hok _].
    pose proof (landed_retired u Failed a Hok) as Hr.
    destruct (settle_active_ok i (u_topic u) a (landed_active u Failed a) sh) as (H3 & M3 & D3);
      [done|done|apply Hr| |].
    { intros b q Hq. apply (retired_version u); [done|].
      destruct (pending_slot _ _ H _ _ _ Hq) as (x & Hx & Hv). simplify_eq.
      unfold landed_active. destruct (in_flight u a); simpl; rewrite ?at_put; [case_decide; [done|]|];
        intros He; unfold slot_version in Hv; by rewrite He in Hv. }
    split_and!; try done; [|by exists (landed_active u Failed a)].
    rewrite <- M3, <- D3. by eapply settles_nil.
  - rewrite land_active, Ha. split_and!; try done. by eapply settles_nil.
Qed.

End Invariant.
End ShardInvariant.
