(* ===== verification/DataPlane.v ===== *)
(** * The RTD data plane

    Models crates/xlfn/src/subscription/data_plane.rs with
    data_plane/refresh.rs, data_plane/notification.rs, the refresh state of
    subscription/delivery.rs, the quotas of crates/xlfn-kernel/src/quota.rs and
    the connection transaction of subscription/runtime.rs as far as it drives
    the data plane: publication (single values and batches), connection with
    commit and rollback, disconnection, refresh (plan, collection,
    retirement), notification and termination.

    A thread is a program counter; a step is one atomic access, or one critical
    section with at most one access to a variable its mutex does not protect.
    The shard mutexes and the refresh mutex are held across steps.  The
    sections on a shard are those of DataShard.v; the counter updates of a
    section are then performed one per step, and those that the holder of a
    shard still owes are kept with the lock.  What the model leaves to the
    environment (host admission, the catalog, the source, the stop flag of a
    channel, the host call of a notification, marshalling) is the answer
    carried by the action.  The gates are the ones of TerminalGate.v; here they
    are the flag and the count of admitted operations. *)

From S2P Require Import Prelude SealableCounter Errors Channel DataShard.
Import SealableCounter.Transitions Errors Channel DataShard.Shard.

Local Open Scope Z_scope.

Module DataPlane.

(** ** Refresh and notification state *)
Inductive SignalState : Type :=
| Dormant
| Calling (ticket attempt : Z)
| Signaled (ticket : Z)
| Suppressed (ticket : Z).

Inductive DeliveryPhase : Type :=
| BetweenRefreshes (signal : SignalState)
| Refreshing (refresh_id : Z).

(** A notifier is identified by a number; [recycled_updates] is storage. *)
Record RefreshState : Type := MkRefresh {
  next_refresh_id : Z;
  next_notification_ticket : Z;
  notifier : option Z;
  phase : DeliveryPhase;
}.

Record NotificationAttempt : Type := Attempt { ticket : Z; a_notifier : Z }.

Definition set_phase (p : DeliveryPhase) (r : RefreshState) : RefreshState :=
  MkRefresh (next_refresh_id r) (next_notification_ticket r) (notifier r) p.

(** The signal becomes dormant between refreshes and is absent during one. *)
Definition rearm (p : DeliveryPhase) : DeliveryPhase :=
  match p with BetweenRefreshes _ => BetweenRefreshes Dormant | p => p end.

Definition attach_notifier (n : Z) (r : RefreshState) : RefreshState :=
  MkRefresh (next_refresh_id r) (next_notification_ticket r) (Some n) (rearm (phase r)).

Definition detach_notifier (r : RefreshState) : RefreshState :=
  MkRefresh (next_refresh_id r) (next_notification_ticket r) None (rearm (phase r)).

Definition ensure_notification_ticket (r : RefreshState) : XllResult unit :=
  match checked_add 64 (next_notification_ticket r) 1 with
  | Some _ => Ok tt
  | None => Err (Internal TICKET_OVERFLOW)
  end.

Definition prepare_notification (r : RefreshState) (has_updates : bool)
  : XllResult (option NotificationAttempt) :=
  if negb has_updates then Ok None
  else
    match phase r, notifier r with
    | BetweenRefreshes Dormant, Some n =>
        match ensure_notification_ticket r with
        | Ok _ => Ok (Some (Attempt (next_notification_ticket r) n))
        | Err e => Err e
        end
    | _, _ => Ok None
    end.

Definition commit_notification (a : NotificationAttempt) (r : RefreshState) : RefreshState :=
  MkRefresh (next_refresh_id r) (ticket a + 1) (notifier r)
    (match phase r with
     | BetweenRefreshes _ => BetweenRefreshes (Calling (ticket a) 0)
     | p => p
     end).

Inductive NotificationCompletion : Type :=
| Finished
| Retry (a : NotificationAttempt)
| NotifyFailed (e : XllError).

(** [finish_notification_attempt]: only the ticket that is being called is
    finished or retried, and at most three calls are made for it. *)
Definition finish_notification_attempt (a : NotificationAttempt) (outcome : XllResult unit)
    (r : RefreshState) : RefreshState * NotificationCompletion :=
  match phase r with
  | BetweenRefreshes (Calling t n) =>
      if negb (t =? ticket a) then (r, Finished)
      else
        match outcome with
        | Ok _ => (set_phase (BetweenRefreshes (Signaled t)) r, Finished)
        | Err e =>
            if n <? 2 then
              (set_phase (BetweenRefreshes (Calling t (n + 1))) r,
               match notifier r with
               | Some m => Retry (Attempt (ticket a) m)
               | None => NotifyFailed e
               end)
            else (set_phase (BetweenRefreshes (Suppressed t)) r, NotifyFailed e)
        end
  | _ => (r, Finished)
  end.

(** ** The store *)

(** The counters that no mutex protects.  The quotas are shared with the other
    servers of the runtime, whose permits [foreign_*] counts. *)
Record Counters : Type := MkCounters {
  pending_updates : Z;
  deliverable_pending : Z;
  ready_shards : Z;
  queued_used : Z;
  active_used : Z;
}.

(** A shard with its mutex, and the counter updates its holder still owes. *)
Record Cell : Type := MkCell {
  shard : TopicShard;
  holder : option nat;
  owed : list counter_op;
}.

Definition SERVER_LIFECYCLE_OPEN : Z := 0.
Definition SERVER_LIFECYCLE_CLOSING : Z := 1.
Definition SERVER_LIFECYCLE_TERMINATED : Z := 2.

Record core : Type := Core {
  sealed : bool;
  admitted : nat;
  terminating : bool;
  lifecycle : Z;
  publish_epoch : Z;
  notified_epoch : Z;
  counters : Counters;
  cells : list Cell;
  refresh : RefreshState;
  refresh_lock : option nat;
  next_connection_generation : Z;
  foreign_queued : Z;
  foreign_active : Z;
  cleanup_failure : option XllError;
}.

Definition set_gate (s : bool) (n : nat) (m : core) : core :=
  Core s n (terminating m) (lifecycle m) (publish_epoch m) (notified_epoch m) (counters m)
    (cells m) (refresh m) (refresh_lock m) (next_connection_generation m) (foreign_queued m)
    (foreign_active m) (cleanup_failure m).
Definition set_terminating (m : core) : core :=
  Core (sealed m) (admitted m) true (lifecycle m) (publish_epoch m) (notified_epoch m) (counters m)
    (cells m) (refresh m) (refresh_lock m) (next_connection_generation m) (foreign_queued m)
    (foreign_active m) (cleanup_failure m).
Definition set_lifecycle (l : Z) (m : core) : core :=
  Core (sealed m) (admitted m) (terminating m) l (publish_epoch m) (notified_epoch m) (counters m)
    (cells m) (refresh m) (refresh_lock m) (next_connection_generation m) (foreign_queued m)
    (foreign_active m) (cleanup_failure m).
Definition set_epoch (e : Z) (m : core) : core :=
  Core (sealed m) (admitted m) (terminating m) (lifecycle m) e (notified_epoch m) (counters m)
    (cells m) (refresh m) (refresh_lock m) (next_connection_generation m) (foreign_queued m)
    (foreign_active m) (cleanup_failure m).
Definition set_notified (e : Z) (m : core) : core :=
  Core (sealed m) (admitted m) (terminating m) (lifecycle m) (publish_epoch m) e (counters m)
    (cells m) (refresh m) (refresh_lock m) (next_connection_generation m) (foreign_queued m)
    (foreign_active m) (cleanup_failure m).
Definition set_counters (c : Counters) (m : core) : core :=
  Core (sealed m) (admitted m) (terminating m) (lifecycle m) (publish_epoch m) (notified_epoch m) c
    (cells m) (refresh m) (refresh_lock m) (next_connection_generation m) (foreign_queued m)
    (foreign_active m) (cleanup_failure m).
Definition set_cell (i : Z) (c : Cell) (m : core) : core :=
  Core (sealed m) (admitted m) (terminating m) (lifecycle m) (publish_epoch m) (notified_epoch m)
    (counters m) (<[Z.to_nat i := c]> (cells m)) (refresh m) (refresh_lock m)
    (next_connection_generation m) (foreign_queued m) (foreign_active m) (cleanup_failure m).
Definition set_refresh (r : RefreshState) (o : option nat) (m : core) : core :=
  Core (sealed m) (admitted m) (terminating m) (lifecycle m) (publish_epoch m) (notified_epoch m)
    (counters m) (cells m) r o (next_connection_generation m) (foreign_queued m)
    (foreign_active m) (cleanup_failure m).
Definition set_generation (g : Z) (m : core) : core :=
  Core (sealed m) (admitted m) (terminating m) (lifecycle m) (publish_epoch m) (notified_epoch m)
    (counters m) (cells m) (refresh m) (refresh_lock m) g (foreign_queued m) (foreign_active m)
    (cleanup_failure m).
Definition set_foreign (q a : Z) (m : core) : core :=
  Core (sealed m) (admitted m) (terminating m) (lifecycle m) (publish_epoch m) (notified_epoch m)
    (counters m) (cells m) (refresh m) (refresh_lock m) (next_connection_generation m) q a
    (cleanup_failure m).
Definition set_cleanup (o : option XllError) (m : core) : core :=
  Core (sealed m) (admitted m) (terminating m) (lifecycle m) (publish_epoch m) (notified_epoch m)
    (counters m) (cells m) (refresh m) (refresh_lock m) (next_connection_generation m)
    (foreign_queued m) (foreign_active m) o.

(** ** Program counters *)

(** A publication: the sink, and the values of a batch still to come. *)
Record publication : Type := Publication {
  p_topic : Z;
  p_generation : Z;
  p_rest : list StoredRtdValue;
  p_batch : bool;
}.

Definition with_rest (vs : list StoredRtdValue) (p : publication) : publication :=
  Publication (p_topic p) (p_generation p) vs (p_batch p).

(** A connection transaction: topic, subscription, generation. *)
Record connection : Type := Connection { k_topic : Z; k_id : Z; k_generation : Z }.

(** What a call returns. *)
Inductive ret : Type :=
| Unit (r : XllResult unit)
| RetiredNotifier (o : option Z)
| RetiredConnection (o : option (Z * Z))
| Terminated (connections : list (Z * Z))
| Unwound.

(** What follows a notification. *)
Inductive next : Type :=
| NextValue (p : publication)
| NextLeave (r : ret)
| NextConnected (k : connection)
| NextRollback (k : connection)
| NextUnwind.

(** A refresh being completed, by its owner or while a panic unwinds. *)
Record completion : Type := Completion {
  r_id : Z;
  r_outcome : RefreshOutcome;
  r_error : option XllError;
  r_unwinding : bool;
}.

Definition r_next (c : completion) : next :=
  if r_unwinding c then NextUnwind else NextLeave (Unit (Ok tt)).

(** Sections that run while a shard is held, up to their next access. *)
Inductive section : Type :=
| Recheck (p : publication) (v : StoredRtdValue) (e : Z)
| StopCheck (p : publication) (v : StoredRtdValue) (e : Z)
| OpenCheck (p : publication) (v : StoredRtdValue) (e : Z)
| Commit (p : publication) (v : StoredRtdValue) (e : Z)
| NotifiedCheck (p : publication) (e : Z) (committed : bool)
| EpochCheck (p : publication) (e : Z)
| ReserveOpen (k : connection)
| Reserve (k : connection)
| InstallOpen (k : connection)
| Install (k : connection)
| CommitOpen (k : connection) (v : StoredRtdValue) (obs : option Z)
| CommitRemove (k : connection) (v : StoredRtdValue) (obs : option Z)
| CommitInstall (k : connection) (obs : option Z)
| Rollback (k : connection) (r : ret)
| DisconnectOpen (t : Z)
| Disconnect (t : Z)
| RetireUpdate (u : RtdUpdate) (ups : list RtdUpdate) (c : completion).

(** What follows the counter updates of a section. *)
Inductive counted : Type :=
| CountedValue (p : publication) (e : Z) (committed : bool)
| CountedRemove (k : connection) (obs : option Z)
| CountedInstall (k : connection) (e : Z) (has_pending : bool)
| CountedRollback (k : connection) (r : ret)
| CountedDisconnect (t : Z) (o : option (Z * Z))
| CountedRetire (t : Z) (ups : list RtdUpdate) (c : completion)
| CountedClear (i : nat)
| CountedTake (i : nat) (connections : list (Z * Z)).

(** Operations that start with an admission. *)
Inductive entry : Type :=
| EnterPublish (p : publication) (v : StoredRtdValue)
| EnterConnect (t d : Z)
| EnterDisconnect (t : Z)
| EnterAttach (n : Z)
| EnterPulse
| EnterRefresh.

Inductive pc : Type :=
| Idle
| Returned (r : ret)
| BatchStart (p : publication) (v : StoredRtdValue)
| Enter (k : entry)
| Leave (r : ret)
| Locking (s : section)
| Held (s : section)
| Counting (c : counted)
| PubOpen (p : publication) (v : StoredRtdValue)
| PubEpoch (p : publication) (v : StoredRtdValue)
| PubPrepare (p : publication) (e : Z)
| PubReserve (p : publication)
| Signal (has_updates : bool) (k : next)
| Notify (a : NotificationAttempt) (k : next)
| NotifyDone (a : NotificationAttempt) (r : XllResult unit) (k : next)
| RecordCleanup (e : XllError) (k : next)
| AttachOpen (n : Z)
| AttachSwap (n : Z)
| DetachSwap
| PulseOpen
| PulseLoad
| PlanOpen
| PlanLock
| PlanMask (id : Z)
| PlanEstimate (id mask : Z)
| Collect (id mask : Z) (ups : list RtdUpdate)
| AbortEmpty (id : Z)
| HoldBatch (id : Z) (ups : list RtdUpdate)
| TicketCheck (ups : list RtdUpdate) (c : completion)
| Retiring (ups : list RtdUpdate) (c : completion)
| CompleteLoad (c : completion)
| ConnGeneration (t d : Z)
| ConnCatalog (k : connection)
| ConnSubscribe (k : connection)
| Installed (k : connection) (v : StoredRtdValue) (obs : option Z)
| ConnPrepare (k : connection) (e : Z)
| ConnTicket (k : connection)
| ConnFinish (k : connection) (a : option NotificationAttempt)
| TermSeal
| TermClose
| TermDetach
| TermClear (i : nat)
| TermZeroPending (connections : option (list (Z * Z)))
| TermZeroDeliverable (connections : option (list (Z * Z)))
| TermZeroReady (connections : option (list (Z * Z)))
| TermWait
| TermRetire
| TermTake (i : nat) (connections : list (Z * Z))
| TermEnd (connections : list (Z * Z)).

(** Calls a thread can start; a permit of another server is taken or dropped
    in one step. *)
Inductive call : Type :=
| CallPublish (t g : Z) (v : StoredRtdValue)
| CallPublishBatch (t g : Z) (vs : list StoredRtdValue)
| CallConnect (t d : Z)
| CallCommit
| CallRollback
| CallDisconnect (t : Z)
| CallAttach (n : Z)
| CallDetach
| CallPulse
| CallRefresh
| CallComplete (o : RefreshOutcome)
| CallTerminate
| CallForeignQueued (acquire : bool)
| CallForeignActive (acquire : bool).

(** [Run] continues a call: the environment's answer is [None] for success.
    [Unwind] is a panic of the host call or of collection. *)
Inductive action : Type :=
| Start (o : call)
| Run (failure : option XllError)
| Unwind.

(** The history of a run: values accepted from a sink, values the host has
    been given, and host calls. *)
Inductive event : Type :=
| Stored (t g s : Z) (v : StoredRtdValue)
| Shown (t g s : Z) (v : StoredRtdValue)
| Called (ticket : Z).

Record step_result : Type := Next {
  next_pc : pc;
  next_mem : core;
  next_events : list event;
}.

Definition effect : Type := outcome (option step_result).
Definition blocked : effect := Done None.
Definition go (p : pc) (m : core) : effect := Done (Some (Next p m [])).
Definition emit (p : pc) (m : core) (e : event) : effect := Done (Some (Next p m [e])).

(** ** Counters *)
Section Steps.
Context (pw : pointer_width) (queued_limit active_limit : Z).

(** [fetch_add] wraps; [checked_atomic_dec] stops the process at zero. *)
Definition apply_op (i : Z) (o : counter_op) (c : Counters) : outcome Counters :=
  let w := bits pw in
  match o with
  | PendingAdd =>
      Done (MkCounters (wrapping_add w (pending_updates c) 1) (deliverable_pending c)
              (ready_shards c) (queued_used c) (active_used c))
  | PendingSub =>
      match checked_sub (pending_updates c) 1 with
      | Some n => Done (MkCounters n (deliverable_pending c) (ready_shards c) (queued_used c)
                          (active_used c))
      | None => Aborted
      end
  | DeliverableAdd n =>
      Done (MkCounters (pending_updates c) (wrapping_add w (deliverable_pending c) n)
              (ready_shards c) (queued_used c) (active_used c))
  | DeliverableSub =>
      match checked_sub (deliverable_pending c) 1 with
      | Some n => Done (MkCounters (pending_updates c) n (ready_shards c) (queued_used c)
                          (active_used c))
      | None => Aborted
      end
  | ReadyOr =>
      Done (MkCounters (pending_updates c) (deliverable_pending c)
              (Z.lor (ready_shards c) (Z.shiftl 1 i)) (queued_used c) (active_used c))
  | ReadyClear =>
      Done (MkCounters (pending_updates c) (deliverable_pending c)
              (Z.ldiff (ready_shards c) (Z.shiftl 1 i)) (queued_used c) (active_used c))
  | QueuedRelease =>
      match checked_sub (queued_used c) 1 with
      | Some n => Done (MkCounters (pending_updates c) (deliverable_pending c) (ready_shards c) n
                          (active_used c))
      | None => Aborted
      end
  | ActiveRelease =>
      match checked_sub (active_used c) 1 with
      | Some n => Done (MkCounters (pending_updates c) (deliverable_pending c) (ready_shards c)
                          (queued_used c) n)
      | None => Aborted
      end
  end.

(** [Quota::try_acquire_detached]. *)
Definition admits_queued (m : core) : bool := queued_used (counters m) <? queued_limit.
Definition admits_active (m : core) : bool := active_used (counters m) <? active_limit.

Definition take_queued (n : Z) (m : core) : core :=
  let c := counters m in
  set_counters (MkCounters (pending_updates c) (deliverable_pending c) (ready_shards c)
                  (queued_used c + n) (active_used c)) m.

Definition take_active (n : Z) (m : core) : core :=
  let c := counters m in
  set_counters (MkCounters (pending_updates c) (deliverable_pending c) (ready_shards c)
                  (queued_used c) (active_used c + n)) m.

Definition zero_pending (m : core) : core :=
  let c := counters m in
  set_counters (MkCounters 0 (deliverable_pending c) (ready_shards c) (queued_used c)
                  (active_used c)) m.
Definition zero_deliverable (m : core) : core :=
  let c := counters m in
  set_counters (MkCounters (pending_updates c) 0 (ready_shards c) (queued_used c)
                  (active_used c)) m.
Definition zero_ready (m : core) : core :=
  let c := counters m in
  set_counters (MkCounters (pending_updates c) (deliverable_pending c) 0 (queued_used c)
                  (active_used c)) m.

(** ** Locks *)
Definition section_shard (s : section) : Z :=
  match s with
  | Recheck p _ _ | StopCheck p _ _ | OpenCheck p _ _ | Commit p _ _ | NotifiedCheck p _ _
  | EpochCheck p _ => shard_index pw (p_topic p)
  | ReserveOpen k | Reserve k | InstallOpen k | Install k | CommitOpen k _ _ | CommitRemove k _ _
  | CommitInstall k _ | Rollback k _ => shard_index pw (k_topic k)
  | DisconnectOpen t | Disconnect t => shard_index pw t
  | RetireUpdate u _ _ => shard_index pw (u_topic u)
  end.

Definition counted_shard (c : counted) : Z :=
  match c with
  | CountedValue p _ _ => shard_index pw (p_topic p)
  | CountedRemove k _ | CountedInstall k _ _ | CountedRollback k _ => shard_index pw (k_topic k)
  | CountedDisconnect t _ | CountedRetire t _ _ => shard_index pw t
  | CountedClear i | CountedTake i _ => Z.of_nat i
  end.

Definition with_cell (i : Z) (m : core) (f : Cell -> effect) : effect :=
  match cells m !! Z.to_nat i with Some c => f c | None => blocked end.

Definition lock_cell (t : nat) (i : Z) (m : core) (k : Cell -> core -> effect) : effect :=
  with_cell i m (fun c =>
    match holder c with
    | None => k c (set_cell i (MkCell (shard c) (Some t) (owed c)) m)
    | Some _ => blocked
    end).

(** The shard is released, as the section left it. *)
Definition unlock_with (i : Z) (sh : TopicShard) (m : core) : core :=
  set_cell i (MkCell sh None []) m.

Definition unlock (i : Z) (m : core) : core :=
  match cells m !! Z.to_nat i with
  | Some c => unlock_with i (shard c) m
  | None => m
  end.

(** The shard is kept while its holder performs the updates of a section. *)
Definition keep_with (t : nat) (i : Z) (sh : TopicShard) (ops : list counter_op) (m : core) : core :=
  set_cell i (MkCell sh (Some t) ops) m.

Definition is_open (m : core) : bool := lifecycle m =? SERVER_LIFECYCLE_OPEN.

(** ** Publication *)

Definition leave_error (e : XllError) : pc := Leave (Unit (Err e)).

Definition continue (k : next) : pc :=
  match k with
  | NextValue p =>
      match p_rest p with
      | [] => Leave (Unit (Ok tt))
      | v :: vs => PubOpen (with_rest vs p) v
      end
  | NextLeave r => Leave r
  | NextConnected _ => Leave (Unit (Ok tt))
  | NextRollback k => Locking (Rollback k Unwound)
  | NextUnwind => Leave Unwound
  end.

(** An error of the notification ends the call, except while unwinding. *)
Definition fail_with (e : XllError) (k : next) : pc :=
  match k with NextUnwind => Leave Unwound | _ => leave_error e end.

(** [publish] and [publish_batch] outside the shard.  The stop flag of the
    channel is read before admission and before every value of a batch. *)
Definition publish_step (t : nat) (f : option XllError) (p : pc) (m : core) : effect :=
  match p with
  | BatchStart b v =>
      if bool_decide (f <> None) then go (Returned (Unit (Ok tt))) m
      else go (Enter (EnterPublish b v)) m
  | PubOpen b v => if is_open m then go (PubEpoch b v) m else go (leave_error Closing) m
  | PubEpoch b v => go (Locking (Recheck b v (publish_epoch m))) m
  | PubPrepare b e =>
      if notified_epoch m =? e then go (continue (NextValue b)) m else go (PubReserve b) m
  | PubReserve b =>
      match refresh_lock m with
      | None => go (Signal true (NextValue b)) (set_refresh (refresh m) (Some t) m)
      | Some _ => blocked
      end
  | _ => blocked
  end.

(** The sections of a publication under the lock. *)
Definition publish_section (t : nat) (f : option XllError) (s : section) (m : core) : effect :=
  match s with
  | Recheck p v e =>
      let i := shard_index pw (p_topic p) in
      if publish_epoch m =? e
      then go (Held (if p_batch p then StopCheck p v e else Commit p v e)) m
      else go (PubOpen p v) (unlock i m)
  | StopCheck p v e =>
      if bool_decide (f <> None)
      then go (Leave (Unit (Ok tt))) (unlock (shard_index pw (p_topic p)) m)
      else go (Held (OpenCheck p v e)) m
  | OpenCheck p v e =>
      if is_open m then go (Held (Commit p v e)) m
      else go (leave_error Closing) (unlock (shard_index pw (p_topic p)) m)
  | Commit p v e =>
      let i := shard_index pw (p_topic p) in
      with_cell i m (fun c =>
        let* r := commit_value pw (from_epoch e) (p_topic p) (p_generation p) v
                    (admits_queued m) (shard c) in
        let m' := if c_permit r then take_queued 1 m else m in
        match c_result r with
        | Err x => go (leave_error x) (unlock_with i (c_shard r) m')
        | Ok committed =>
            Done (Some (Next (Counting (CountedValue p e committed))
                          (keep_with t i (c_shard r) (c_ops r) m')
                          match c_stored r with
                          | Some s => [Stored (p_topic p) (p_generation p) s v]
                          | None => []
                          end))
        end)
  | NotifiedCheck p e committed =>
      if committed && negb (notified_epoch m =? e)
      then go (PubPrepare p e) (unlock (shard_index pw (p_topic p)) m)
      else go (Held (EpochCheck p e)) m
  | EpochCheck p e =>
      let i := shard_index pw (p_topic p) in
      if negb (publish_epoch m =? e) then go (continue (NextValue p)) (unlock i m)
      else
        match p_rest p with
        | [] => go (Leave (Unit (Ok tt))) (unlock i m)
        | v :: vs => go (Held (StopCheck (with_rest vs p) v e)) m
        end
  | _ => blocked
  end.

(** ** Notification *)

(** [prepare_notification] under the refresh mutex, which it releases; a
    notification that is due is committed with the epoch it was made for. *)
Definition signal_step (p : pc) (m : core) : effect :=
  match p with
  | Signal has k =>
      match prepare_notification (refresh m) has with
      | Err e => go (fail_with e k) (set_refresh (refresh m) None m)
      | Ok None => go (continue k) (set_refresh (refresh m) None m)
      | Ok (Some a) =>
          go (Notify a k)
             (set_refresh (commit_notification a (refresh m)) None
                (set_notified (publish_epoch m) m))
      end
  | _ => blocked
  end.

(** [drive]: the host call and what it means for the signal. *)
Definition drive_step (f : option XllError) (p : pc) (m : core) : effect :=
  match p with
  | Notify a k =>
      emit (NotifyDone a (match f with None => Ok tt | Some e => Err e end) k) m (Called (ticket a))
  | NotifyDone a r k =>
      match refresh_lock m with
      | Some _ => blocked
      | None =>
          let (s, c) := finish_notification_attempt a r (refresh m) in
          go (match c with
              | Finished => continue k
              | Retry a => Notify a k
              | NotifyFailed e => RecordCleanup e k
              end) (set_refresh s None m)
      end
  | RecordCleanup e k =>
      go (continue k)
         (set_cleanup (match cleanup_failure m with None => Some e | o => o end) m)
  | _ => blocked
  end.

(** The operations that change or pulse the notifier, up to the notification. *)
Definition notifier_step (t : nat) (p : pc) (m : core) : effect :=
  match p with
  | AttachOpen n => if is_open m then go (AttachSwap n) m else go (leave_error Closing) m
  | AttachSwap n =>
      match refresh_lock m with
      | Some _ => blocked
      | None =>
          go (Signal (negb (deliverable_pending (counters m) =? 0))
                (NextLeave (RetiredNotifier (notifier (refresh m)))))
             (set_refresh (attach_notifier n (refresh m)) (Some t) m)
      end
  | DetachSwap =>
      match refresh_lock m with
      | Some _ => blocked
      | None =>
          go (Returned (RetiredNotifier (notifier (refresh m))))
             (set_refresh (detach_notifier (refresh m)) None m)
      end
  | PulseOpen => if is_open m then go PulseLoad m else go (leave_error Closing) m
  | PulseLoad =>
      match refresh_lock m with
      | Some _ => blocked
      | None =>
          let has := negb (deliverable_pending (counters m) =? 0) in
          let r := refresh m in
          go (Signal has (NextLeave (Unit (Ok tt))))
             (set_refresh
                (match has, phase r with
                 | true, BetweenRefreshes (Suppressed _) | true, BetweenRefreshes (Signaled _) =>
                     set_phase (BetweenRefreshes Dormant) r
                 | _, _ => r
                 end) (Some t) m)
      end
  | _ => blocked
  end.

(** A panic of the host call unwinds through the caller; a connection that is
    being committed is rolled back. *)
Definition unwind_notify (k : next) (m : core) : effect :=
  go (RecordCleanup (Internal PANIC_NOTIFY)
        (match k with NextConnected k => NextRollback k | _ => NextUnwind end)) m.

(** ** Refresh *)
Definition internal (d : Z) : pc := leave_error (Internal d).

(** The loop of [complete_refresh_inner] between two shards; the updates are in
    the order in which they are retired. *)
Definition retire_next (ups : list RtdUpdate) (c : completion) : pc :=
  match ups with
  | [] => CompleteLoad c
  | u :: ups => Locking (RetireUpdate u ups c)
  end.

(** [plan_refresh] and [collect_refresh]. *)
Definition plan_step (t : nat) (p : pc) (m : core) : effect :=
  match p with
  | PlanOpen => if is_open m then go PlanLock m else go (leave_error Closing) m
  | PlanLock =>
      match refresh_lock m with
      | Some _ => blocked
      | None =>
          let r := refresh m in
          match phase r with
          | Refreshing _ => go (internal OVERLAPPED_REFERENCE) m
          | BetweenRefreshes s =>
              let id := next_refresh_id r in
              match checked_add 64 id 1 with
              | None => go (internal REFERENCE_OVERFLOW) m
              | Some id' =>
                  let r' p := MkRefresh id' (next_notification_ticket r) (notifier r) p in
                  match checked_add 64 (publish_epoch m) 1 with
                  | None =>
                      go (internal REFERENCE_OVERFLOW)
                         (set_refresh (r' (BetweenRefreshes s)) None m)
                  | Some e =>
                      go (PlanMask id)
                         (set_refresh (r' (Refreshing id)) (Some t) (set_epoch e m))
                  end
              end
          end
      end
  | PlanMask id => go (PlanEstimate id (ready_shards (counters m))) m
  | PlanEstimate id mask => go (Collect id mask []) (set_refresh (refresh m) None m)
  | Collect id mask ups =>
      if mask =? 0 then go (HoldBatch id ups) m
      else
        let i := Z.log2 (Z.land mask (- mask)) in
        with_cell i m (fun c =>
          match holder c with
          | Some _ => blocked
          | None =>
              let (sh, ups') := collect_shard_into (shard c) ups in
              go (Collect id (Z.land mask (mask - 1)) ups') (unlock_with i sh m)
          end)
  | _ => blocked
  end.

(** [complete_refresh_inner] outside the shards. *)
Definition complete_step (t : nat) (p : pc) (m : core) : effect :=
  match p with
  | TicketCheck ups c =>
      match refresh_lock m with
      | Some _ => blocked
      | None =>
          match phase (refresh m) with
          | BetweenRefreshes _ => go (fail_with (Internal NO_REFERENCE) (r_next c)) m
          | Refreshing active =>
              if negb (active =? r_id c)
              then go (fail_with (Internal REFERENCE_ID_MISMATCH) (r_next c)) m
              else
                go (Retiring (rev ups)
                      (match ensure_notification_ticket (refresh m) with
                       | Ok _ => c
                       | Err e => Completion (r_id c) Failed (Some e) (r_unwinding c)
                       end)) m
          end
      end
  | Retiring ups c => go (retire_next ups c) m
  | CompleteLoad c =>
      match refresh_lock m with
      | Some _ => blocked
      | None =>
          match phase (refresh m) with
          | BetweenRefreshes _ => go (fail_with (Internal NO_REFERENCE) (r_next c)) m
          | Refreshing active =>
              if negb (active =? r_id c)
              then go (fail_with (Internal REFERENCE_ID_MISMATCH) (r_next c)) m
              else
                let r := set_phase (BetweenRefreshes Dormant) (refresh m) in
                match r_error c with
                | Some e => go (fail_with e (r_next c)) (set_refresh r None m)
                | None =>
                    go (Signal (negb (deliverable_pending (counters m) =? 0)) (r_next c))
                       (set_refresh r (Some t) m)
                end
          end
      end
  | _ => blocked
  end.

(** [abort_refresh_no_unwind] of a plan that has taken nothing. *)
Definition abort_step (t : nat) (p : pc) (m : core) : effect :=
  match p with
  | AbortEmpty id =>
      match refresh_lock m with
      | Some _ => blocked
      | None =>
          match phase (refresh m) with
          | Refreshing active =>
              if active =? id
              then go (Signal (negb (deliverable_pending (counters m) =? 0)) NextUnwind)
                      (set_refresh (set_phase (BetweenRefreshes Dormant) (refresh m)) (Some t) m)
              else go (Leave Unwound) m
          | BetweenRefreshes _ => go (Leave Unwound) m
          end
      end
  | _ => blocked
  end.

(** A panic during collection drops the plan, which puts the values taken so
    far back. *)
Definition unwind_collect (id : Z) (ups : list RtdUpdate) (m : core) : effect :=
  match ups with
  | [] => go (AbortEmpty id) m
  | _ => go (TicketCheck ups (Completion id Failed None true)) m
  end.

(** ** Connections *)
Definition connect_step (t : nat) (f : option XllError) (p : pc) (m : core) : effect :=
  match p with
  | ConnGeneration topic d =>
      let g := next_connection_generation m in
      match checked_add 64 g 1 with
      | Some g' =>
          if g =? 0 then go (internal RTD_SUBSCRIPTION_OVERFLOW) (set_generation g' m)
          else go (ConnCatalog (Connection topic d g)) (set_generation g' m)
      | None => go (internal RTD_SUBSCRIPTION_OVERFLOW) m
      end
  | ConnCatalog k =>
      match f with
      | Some e => go (leave_error e) m
      | None => go (Locking (ReserveOpen k)) m
      end
  | ConnSubscribe k =>
      match f with
      | Some e => go (Locking (Rollback k (Unit (Err e)))) m
      | None => go (Locking (InstallOpen k)) m
      end
  | ConnPrepare k e =>
      if notified_epoch m =? e then go (ConnFinish k None) m else go (ConnTicket k) m
  | ConnTicket k =>
      match refresh_lock m with
      | Some _ => blocked
      | None =>
          match prepare_notification (refresh m) true with
          | Err e => go (Locking (Rollback k (Unit (Err e)))) m
          | Ok None => go (ConnFinish k None) m
          | Ok (Some a) =>
              go (ConnFinish k (Some a))
                 (set_refresh (commit_notification a (refresh m)) None
                    (set_notified (publish_epoch m) m))
          end
      end
  | ConnFinish k o =>
      match f, o with
      | Some e, _ => go (Locking (Rollback k (Unit (Err e)))) m
      | None, None => go (Leave (Unit (Ok tt))) m
      | None, Some a => go (Notify a (NextConnected k)) m
      end
  | _ => blocked
  end.

Definition connect_section (t : nat) (s : section) (m : core) : effect :=
  match s with
  | ReserveOpen k =>
      if is_open m then go (Held (Reserve k)) m
      else go (leave_error Closing) (unlock (shard_index pw (k_topic k)) m)
  | Reserve k =>
      let i := shard_index pw (k_topic k) in
      with_cell i m (fun c =>
        let '(sh, permit, r) :=
          reserve_connection (k_topic k) (k_id k) (k_generation k) (admits_active m) (shard c) in
        let m' := if permit then take_active 1 m else m in
        go (match r with Ok _ => ConnSubscribe k | Err e => leave_error e end)
           (unlock_with i sh m'))
  | InstallOpen k =>
      if is_open m then go (Held (Install k)) m
      else go (Locking (Rollback k (Unit (Err Closing)))) (unlock (shard_index pw (k_topic k)) m)
  | Install k =>
      let i := shard_index pw (k_topic k) in
      with_cell i m (fun c =>
        go (match install_connection (k_topic k) (k_generation k) (shard c) with
            | Ok (v, obs) => Installed k v obs
            | Err e => Locking (Rollback k (Unit (Err e)))
            end) (unlock_with i (shard c) m))
  | CommitOpen k v obs =>
      if is_open m then go (Held (CommitRemove k v obs)) m
      else go (Locking (Rollback k (Unit (Err Closing)))) (unlock (shard_index pw (k_topic k)) m)
  | CommitRemove k v obs =>
      let i := shard_index pw (k_topic k) in
      with_cell i m (fun c =>
        let* r := commit_removals (k_topic k) (k_generation k) obs (shard c) in
        match r with
        | Err e => go (Locking (Rollback k (Unit (Err e)))) (unlock_with i (shard c) m)
        | Ok (sh, ops) =>
            Done (Some (Next (Counting (CountedRemove k obs)) (keep_with t i sh ops m)
                          match obs with
                          | Some s => [Shown (k_topic k) (k_generation k) s v]
                          | None => []
                          end))
        end)
  | CommitInstall k obs =>
      let i := shard_index pw (k_topic k) in
      with_cell i m (fun c =>
        let* (sh, ops, has) := commit_install pw (k_topic k) (k_generation k) obs (shard c) in
        go (Counting (CountedInstall k (publish_epoch m) has)) (keep_with t i sh ops m))
  | Rollback k r =>
      let i := shard_index pw (k_topic k) in
      with_cell i m (fun c =>
        let* (sh, ops, _) := rollback_connection (k_topic k) (k_generation k) (k_id k) (shard c) in
        go (Counting (CountedRollback k r)) (keep_with t i sh ops m))
  | DisconnectOpen topic =>
      if is_open m then go (Held (Disconnect topic)) m
      else go (leave_error Closing) (unlock (shard_index pw topic) m)
  | Disconnect topic =>
      let i := shard_index pw topic in
      with_cell i m (fun c =>
        let* (sh, ops, o) := disconnect_connection topic (shard c) in
        go (Counting (CountedDisconnect topic o)) (keep_with t i sh ops m))
  | RetireUpdate u ups c =>
      let i := shard_index pw (u_topic u) in
      with_cell i m (fun x =>
        let* (sh, ops) := retire_update u (r_outcome c) (shard x) in
        Done (Some (Next (Counting (CountedRetire (u_topic u) ups c)) (keep_with t i sh ops m)
                      match r_outcome c with
                      | Delivered => [Shown (u_topic u) (u_generation u) (u_sequence u) (u_value u)]
                      | Failed => []
                      end)))
  | _ => blocked
  end.

(** The counter updates a section owes, and what follows the last one. *)
Definition count_step (t : nat) (c : counted) (m : core) : effect :=
  let i := counted_shard c in
  with_cell i m (fun x =>
    match owed x with
    | o :: ops =>
        let* k := apply_op i o (counters m) in
        go (Counting c) (keep_with t i (shard x) ops (set_counters k m))
    | [] =>
        match c with
        | CountedValue p e committed =>
            if p_batch p then go (Held (NotifiedCheck p e committed)) m
            else go (if committed then PubPrepare p e else Leave (Unit (Ok tt))) (unlock i m)
        | CountedRemove k obs => go (Held (CommitInstall k obs)) m
        | CountedInstall k e has =>
            go (if has : bool then ConnPrepare k e else ConnFinish k None) (unlock i m)
        | CountedRollback _ r => go (Leave r) (unlock i m)
        | CountedDisconnect _ o => go (Leave (RetiredConnection o)) (unlock i m)
        | CountedRetire topic ups c =>
            match ups with
            | u :: ups' =>
                if shard_index pw (u_topic u) =? shard_index pw topic
                then go (Held (RetireUpdate u ups' c)) m
                else go (retire_next ups c) (unlock i m)
            | [] => go (retire_next [] c) (unlock i m)
            end
        | CountedClear n =>
            go (if (S n <? 32)%nat then TermClear (S n) else TermZeroPending None) (unlock i m)
        | CountedTake n l =>
            go (if (S n <? 32)%nat then TermTake (S n) l else TermZeroPending (Some l)) (unlock i m)
        end
    end).

(** ** Termination

    The first clearing passes [None] from store to store, the final one the
    connections it withdrew. *)
Definition terminate_step (t : nat) (p : pc) (m : core) : effect :=
  match p with
  | TermSeal => go TermClose (set_gate true (admitted m) m)
  | TermClose => go TermDetach (set_lifecycle SERVER_LIFECYCLE_CLOSING m)
  | TermDetach =>
      match refresh_lock m with
      | Some _ => blocked
      | None => go (TermClear 0) (set_refresh (detach_notifier (refresh m)) None m)
      end
  | TermClear n =>
      lock_cell t (Z.of_nat n) m (fun c m' =>
        let (sh, ops) := clear_shard (shard c) in
        go (Counting (CountedClear n)) (keep_with t (Z.of_nat n) sh ops m'))
  | TermZeroPending l => go (TermZeroDeliverable l) (zero_pending m)
  | TermZeroDeliverable l => go (TermZeroReady l) (zero_deliverable m)
  | TermZeroReady l =>
      go (match l with None => TermWait | Some l => TermEnd l end) (zero_ready m)
  | TermWait => match admitted m with O => go TermRetire m | S _ => blocked end
  | TermRetire =>
      match refresh_lock m with
      | Some _ => blocked
      | None => go (TermTake 0 []) (set_refresh (detach_notifier (refresh m)) None m)
      end
  | TermTake n l =>
      lock_cell t (Z.of_nat n) m (fun c m' =>
        let (l', ops) := take_shard (shard c) in
        go (Counting (CountedTake n (l ++ l'))) (keep_with t (Z.of_nat n) shard_new ops m'))
  | TermEnd l => go (Returned (Terminated l)) (set_lifecycle SERVER_LIFECYCLE_TERMINATED m)
  | _ => blocked
  end.

(** ** Calls *)
Definition enter (k : entry) : pc :=
  match k with
  | EnterPublish p v => PubOpen p v
  | EnterConnect t d => ConnGeneration t d
  | EnterDisconnect t => Locking (DisconnectOpen t)
  | EnterAttach n => AttachOpen n
  | EnterPulse => PulseOpen
  | EnterRefresh => PlanOpen
  end.

Definition start (o : call) (p : pc) (m : core) : effect :=
  match o, p with
  | CallPublish t g v, Idle => go (Enter (EnterPublish (Publication t g [] false) v)) m
  | CallPublishBatch t g [], Idle => go (Returned (Unit (Ok tt))) m
  | CallPublishBatch t g (v :: vs), Idle => go (BatchStart (Publication t g vs true) v) m
  | CallConnect t d, Idle => go (Enter (EnterConnect t d)) m
  | CallDisconnect t, Idle => go (Enter (EnterDisconnect t)) m
  | CallAttach n, Idle => go (Enter (EnterAttach n)) m
  | CallDetach, Idle => go DetachSwap m
  | CallPulse, Idle => go (Enter EnterPulse) m
  | CallRefresh, Idle => go (Enter EnterRefresh) m
  | CallCommit, Installed k v obs => go (Locking (CommitOpen k v obs)) m
  | CallRollback, Installed k _ _ => go (Locking (Rollback k (Unit (Err Closing)))) m
  | CallComplete o, HoldBatch id ups =>
      go (TicketCheck ups (Completion id o None false)) m
  | CallTerminate, Idle => if terminating m then blocked else go TermSeal (set_terminating m)
  | CallForeignQueued true, Idle =>
      if admits_queued m
      then go Idle (set_foreign (foreign_queued m + 1) (foreign_active m) (take_queued 1 m))
      else blocked
  | CallForeignQueued false, Idle =>
      if 0 <? foreign_queued m
      then go Idle (set_foreign (foreign_queued m - 1) (foreign_active m) (take_queued (-1) m))
      else blocked
  | CallForeignActive true, Idle =>
      if admits_active m
      then go Idle (set_foreign (foreign_queued m) (foreign_active m + 1) (take_active 1 m))
      else blocked
  | CallForeignActive false, Idle =>
      if 0 <? foreign_active m
      then go Idle (set_foreign (foreign_queued m) (foreign_active m - 1) (take_active (-1) m))
      else blocked
  | _, _ => blocked
  end.

Definition run_step (t : nat) (f : option XllError) (p : pc) (m : core) : effect :=
  match p with
  | Idle | Installed _ _ _ | HoldBatch _ _ => blocked
  | Returned _ => go Idle m
  | Enter k =>
      match f with
      | Some e => go (Returned (Unit (Err e))) m
      | None =>
          if sealed m then go (Returned (Unit (Err Closing))) m
          else go (enter k) (set_gate (sealed m) (S (admitted m)) m)
      end
  | Leave r => go (Returned r) (set_gate (sealed m) (pred (admitted m)) m)
  | Locking s => lock_cell t (section_shard s) m (fun _ m' => go (Held s) m')
  | Held s =>
      match s with
      | Recheck _ _ _ | StopCheck _ _ _ | OpenCheck _ _ _ | Commit _ _ _ | NotifiedCheck _ _ _
      | EpochCheck _ _ => publish_section t f s m
      | _ => connect_section t s m
      end
  | Counting c => count_step t c m
  | BatchStart _ _ | PubOpen _ _ | PubEpoch _ _ | PubPrepare _ _ | PubReserve _ =>
      publish_step t f p m
  | Signal _ _ => signal_step p m
  | Notify _ _ | NotifyDone _ _ _ | RecordCleanup _ _ => drive_step f p m
  | AttachOpen _ | AttachSwap _ | DetachSwap | PulseOpen | PulseLoad => notifier_step t p m
  | PlanOpen | PlanLock | PlanMask _ | PlanEstimate _ _ | Collect _ _ _ => plan_step t p m
  | TicketCheck _ _ | Retiring _ _ | CompleteLoad _ => complete_step t p m
  | AbortEmpty _ => abort_step t p m
  | ConnGeneration _ _ | ConnCatalog _ | ConnSubscribe _ | ConnPrepare _ _ | ConnTicket _
  | ConnFinish _ _ => connect_step t f p m
  | TermSeal | TermClose | TermDetach | TermClear _ | TermZeroPending _ | TermZeroDeliverable _
  | TermZeroReady _ | TermWait | TermRetire | TermTake _ _ | TermEnd _ => terminate_step t p m
  end.

Definition thread_step (t : nat) (a : action) (p : pc) (m : core) : effect :=
  match a with
  | Start o => start o p m
  | Run f => run_step t f p m
  | Unwind =>
      match p with
      | Notify _ k => unwind_notify k m
      | Collect id _ ups => unwind_collect id ups m
      | _ => blocked
      end
  end.

Record config : Type := Config { mem : core; threads : list pc }.

Definition step (t : nat) (a : action) (s : config) : outcome (option (config * list event)) :=
  match threads s !! t with
  | None => Done None
  | Some p =>
      let* e := thread_step t a p (mem s) in
      Done (match e with
            | None => None
            | Some r => Some (Config (next_mem r) (<[t := next_pc r]> (threads s)), next_events r)
            end)
  end.

Inductive run : config -> list event -> config -> Prop :=
| run_nil s : run s [] s
| run_step' s tr s' t a es s'' :
    run s tr s' -> step t a s' = Done (Some (s'', es)) -> run s (tr ++ es) s''.

Fixpoint schedule (moves : list (nat * action)) (s : config)
  : outcome (option (config * list event)) :=
  match moves with
  | [] => Done (Some (s, []))
  | (t, a) :: moves =>
      let* o := step t a s in
      match o with
      | None => Done None
      | Some (s', es) =>
          let* o' := schedule moves s' in
          Done (match o' with Some (s'', tr) => Some (s'', es ++ tr) | None => None end)
      end
  end.

End Steps.

(** [PublishCore::new]: an open server with 32 empty shards; generations start
    at one, and no epoch has been notified. *)
Definition core_new : core :=
  Core false 0 false SERVER_LIFECYCLE_OPEN 0 (2 ^ 64 - 1) (MkCounters 0 0 0 0 0)
    (replicate 32 (MkCell shard_new None []))
    (MkRefresh 0 0 None (BetweenRefreshes Dormant)) None 1 0 0 None.

Definition initial (n : nat) : config := Config core_new (replicate n Idle).

End DataPlane.
