(* ===== verification/DataPlaneSteps.v ===== *)
(** * Steps of the data plane

    What a program counter of DataPlane.v holds (a shard, the refresh mutex, a
    connection transaction, a refresh with its updates), a classification of
    the steps of an open server by what they touch, and the discipline of the
    mutexes. *)

From S2P Require Import Prelude SealableCounter Errors Channel DataShard ShardInvariant DataPlane.
Import SealableCounter.Transitions Errors Channel DataShard.Shard DataPlane.

Local Open Scope Z_scope.

Module DataPlaneSteps.

(** ** What a thread holds *)

(** How far a connection transaction has come: [Fresh] before the topic is
    reserved, [Reserved] before the commit, [Pruned] while the commit removes
    what the initial value covers, [Settled] afterwards and in a rollback. *)
Inductive stage : Type := Fresh | Reserved | Pruned (observed : option Z) | Settled.

Definition conn_next (k : next) : option (connection * stage) :=
  match k with NextConnected k | NextRollback k => Some (k, Settled) | _ => None end.

Definition conn_section (s : section) : option (connection * stage) :=
  match s with
  | ReserveOpen k | Reserve k => Some (k, Fresh)
  | InstallOpen k | Install k | CommitOpen k _ _ | CommitRemove k _ _ => Some (k, Reserved)
  | CommitInstall k obs => Some (k, Pruned obs)
  | Rollback k _ => Some (k, Settled)
  | _ => None
  end.

Definition conn_at (p : pc) : option (connection * stage) :=
  match p with
  | ConnCatalog k => Some (k, Fresh)
  | ConnSubscribe k | Installed k _ _ => Some (k, Reserved)
  | ConnPrepare k _ | ConnTicket k | ConnFinish k _ => Some (k, Settled)
  | Notify _ k | NotifyDone _ _ k | RecordCleanup _ k | Signal _ k => conn_next k
  | Locking s | Held s => conn_section s
  | Counting (CountedRemove k obs) => Some (k, Pruned obs)
  | Counting (CountedInstall k _ _) | Counting (CountedRollback k _) => Some (k, Settled)
  | _ => None
  end.

(** The refresh in progress and the updates it has taken and not retired. *)
Definition batch_at (p : pc) : option (Z * list RtdUpdate) :=
  match p with
  | PlanMask id | PlanEstimate id _ | AbortEmpty id => Some (id, [])
  | Collect id _ ups | HoldBatch id ups => Some (id, ups)
  | TicketCheck ups c | Retiring ups c => Some (r_id c, ups)
  | Locking (RetireUpdate u ups c) | Held (RetireUpdate u ups c) => Some (r_id c, u :: ups)
  | Counting (CountedRetire _ ups c) => Some (r_id c, ups)
  | CompleteLoad c => Some (r_id c, [])
  | _ => None
  end.

Definition refresh_held (p : pc) : bool :=
  match p with Signal _ _ | PlanMask _ | PlanEstimate _ _ => true | _ => false end.

(** Program counters of a termination after it sealed the gate. *)
Definition term_pc (p : pc) : bool :=
  match p with
  | TermClose | TermDetach | TermClear _ | TermZeroPending _ | TermZeroDeliverable _
  | TermZeroReady _ | TermWait | TermRetire | TermTake _ _ | TermEnd _
  | Counting (CountedClear _) | Counting (CountedTake _ _) => true
  | _ => false
  end.

Definition refreshing (m : core) : option Z :=
  match phase (refresh m) with Refreshing id => Some id | BetweenRefreshes _ => None end.

(** Sections that read or change the contents of a shard. *)
Definition working (s : section) : bool :=
  match s with
  | Commit _ _ _ | Reserve _ | Install _ | CommitRemove _ _ _ | CommitInstall _ _ | Rollback _ _
  | Disconnect _ | RetireUpdate _ _ _ => true
  | _ => false
  end.

(** ** Steps by what they touch *)
Record same_data (m m' : core) : Prop := {
  same_cells : cells m' = cells m;
  same_counters : counters m' = counters m;
  same_queued : foreign_queued m' = foreign_queued m;
  same_active : foreign_active m' = foreign_active m;
  same_generation : next_connection_generation m' = next_connection_generation m;
}.

Definition conn_keeps (p p' : pc) : Prop :=
  match conn_at p' with
  | Some (k, Settled) => exists s, conn_at p = Some (k, s)
  | o => o = None \/ conn_at p = o
  end.

Definition batch_keeps (p p' : pc) : Prop :=
  match batch_at p, batch_at p' with
  | Some (id, ups), Some (id', ups') => id = id' /\ ups ≡ₚ ups'
  | None, None => True
  | _, _ => False
  end.

Definition plain (es : list event) : Prop :=
  match es with [] => True | [Called _] => True | _ => False end.

(** The cases of a step, with its result. *)
Ltac steps H :=
  revert H; unfold DataPlane.thread_step, run_step, start, publish_step, publish_section, signal_step,
    drive_step, notifier_step,
    unwind_notify, plan_step, complete_step, abort_step, unwind_collect, connect_step, connect_section, count_step,
    terminate_step, lock_cell, with_cell, internal, emit, go, blocked, obind;
  repeat case_match; try done; intros [= <-]; cbn [next_pc next_mem next_events].

Section Shapes.
Context (pw : pointer_width) (queued_limit active_limit : Z).
Abbreviation thread_step := (thread_step pw queued_limit active_limit).
Abbreviation step := (step pw queued_limit active_limit).

Definition shard_held (p : pc) : option Z :=
  match p with
  | Held s => Some (section_shard pw s)
  | Counting c => Some (counted_shard pw c)
  | _ => None
  end.

(** The updates of a section have been performed. *)
Definition all_counted (p : pc) (m : core) : Prop :=
  match p with
  | Counting c => exists x, cells m !! Z.to_nat (counted_shard pw c) = Some x /\ owed x = []
  | _ => True
  end.

Inductive shape (t : nat) (p : pc) (m : core) : pc -> core -> list event -> Prop :=
| shape_quiet p' m' es :
    same_data m m' -> refreshing m' = refreshing m ->
    shard_held p = None -> shard_held p' = None ->
    conn_keeps p p' -> batch_keeps p p' -> plain es -> shape t p m p' m' es
| shape_lock s c :
    p = Locking s -> cells m !! Z.to_nat (section_shard pw s) = Some c -> holder c = None ->
    shape t p m (Held s)
      (set_cell (section_shard pw s) (MkCell (shard c) (Some t) (owed c)) m) []
| shape_held s i :
    shard_held p = Some i -> section_shard pw s = i -> all_counted p m ->
    conn_keeps p (Held s) -> batch_keeps p (Held s) -> shape t p m (Held s) m []
| shape_unlock i p' :
    shard_held p = Some i -> shard_held p' = None -> all_counted p m ->
    conn_keeps p p' -> batch_keeps p p' -> shape t p m p' (unlock i m) []
| shape_section s p' m' es :
    p = Held s -> working s = true -> shape t p m p' m' es
| shape_count c x o ops k :
    p = Counting c -> cells m !! Z.to_nat (counted_shard pw c) = Some x -> owed x = o :: ops ->
    apply_op pw (counted_shard pw c) o (counters m) = Done k ->
    shape t p m p (keep_with t (counted_shard pw c) (shard x) ops (set_counters k m)) []
| shape_collect id mask ups c :
    p = Collect id mask ups -> mask <> 0 ->
    let i := Z.log2 (Z.land mask (- mask)) in
    cells m !! Z.to_nat i = Some c -> holder c = None ->
    shape t p m (Collect id (Z.land mask (mask - 1)) (snd (collect_shard_into (shard c) ups)))
      (unlock_with i (fst (collect_shard_into (shard c) ups)) m) []
| shape_begin id m' :
    p = PlanLock -> same_data m m' -> refreshing m = None -> refreshing m' = Some id ->
    shape t p m (PlanMask id) m' []
| shape_finish id p' m' :
    batch_at p = Some (id, []) -> conn_at p = None -> shard_held p = None ->
    same_data m m' -> refreshing m = Some id -> refreshing m' = None ->
    shard_held p' = None -> conn_at p' = None -> batch_at p' = None ->
    shape t p m p' m' []
| shape_lost id ups p' :
    batch_at p = Some (id, ups) -> refreshing m <> Some id ->
    shard_held p = None -> shard_held p' = None -> conn_at p' = None -> batch_at p' = None ->
    shape t p m p' m []
| shape_generation topic d p' :
    p = ConnGeneration topic d ->
    conn_at p' = None \/ p' = ConnCatalog (Connection topic d (next_connection_generation m)) ->
    shard_held p' = None -> batch_at p' = None ->
    shape t p m p' (set_generation (next_connection_generation m + 1) m) []
| shape_foreign m' dq da :
    p = Idle -> cells m' = cells m -> refreshing m' = refreshing m ->
    next_connection_generation m' = next_connection_generation m ->
    counters m' = MkCounters (pending_updates (counters m)) (deliverable_pending (counters m))
                    (ready_shards (counters m)) (queued_used (counters m) + dq)
                    (active_used (counters m) + da) ->
    foreign_queued m' = foreign_queued m + dq -> foreign_active m' = foreign_active m + da ->
    (0 <= foreign_queued m -> 0 <= foreign_queued m + dq) ->
    (0 <= foreign_active m -> 0 <= foreign_active m + da) ->
    dq <= 0 \/ queued_used (counters m) + dq <= queued_limit ->
    da <= 0 \/ active_used (counters m) + da <= active_limit ->
    shape t p m Idle m' [].

Lemma continue_held k : shard_held (continue k) = None.
Proof. destruct k as [q| | | |]; try done. simpl. by destruct (p_rest q). Qed.

Lemma continue_batch k : batch_at (continue k) = None.
Proof. destruct k as [q| | | |]; try done. simpl. by destruct (p_rest q). Qed.

Lemma continue_conn k p : conn_at p = conn_next k -> conn_keeps p (continue k).
Proof.
  unfold conn_keeps. destruct k as [q| | | |]; simpl; intros E; try by left.
  - destruct (p_rest q); by left.
  - eauto.
Qed.

Lemma fail_held e k : shard_held (fail_with e k) = None.
Proof. by destruct k. Qed.

Lemma fail_batch e k : batch_at (fail_with e k) = None.
Proof. by destruct k. Qed.

Lemma fail_conn e k : conn_at (fail_with e k) = None.
Proof. by destruct k. Qed.

Lemma retire_next_held ups c : shard_held (retire_next ups c) = None.
Proof. by destruct ups. Qed.

Lemma retire_next_batch ups c : batch_at (retire_next ups c) = Some (r_id c, ups).
Proof. by destruct ups. Qed.

Lemma retire_next_conn ups c : conn_at (retire_next ups c) = None.
Proof. by destruct ups. Qed.

Lemma keeps_none p p' : conn_at p' = None -> conn_keeps p p'.
Proof. unfold conn_keeps. intros ->. by left. Qed.

Lemma batch_none p p' : batch_at p = None -> batch_at p' = None -> batch_keeps p p'.
Proof. unfold batch_keeps. by intros -> ->. Qed.

Create Rewrite HintDb data_plane.
#[local] Hint Rewrite continue_held continue_batch fail_held fail_batch fail_conn retire_next_held
  retire_next_batch retire_next_conn : data_plane.

Lemma next_conn p p' k : conn_at p = conn_next k -> conn_at p' = conn_next k -> conn_keeps p p'.
Proof. unfold conn_keeps. intros -> ->. destruct k; simpl; eauto. Qed.

Lemma next_rest q : match p_rest q with
                    | [] => Leave (Unit (Ok tt))
                    | v :: vs => PubOpen (with_rest vs q) v
                    end = continue (NextValue q).
Proof. done. Qed.

Lemma refreshing_commit a m n o :
  refreshing (set_refresh (commit_notification a (refresh m)) o (set_notified n m)) = refreshing m.
Proof. unfold refreshing. simpl. by destruct (phase (refresh m)). Qed.

Lemma refreshing_finish a r m s c o :
  finish_notification_attempt a r (refresh m) = (s, c) ->
  refreshing (set_refresh s o m) = refreshing m.
Proof.
  unfold finish_notification_attempt, refreshing. simpl.
  destruct (phase (refresh m)) as [[]|] eqn:E; repeat case_match; intros [= <- <-]; simpl in *;
    congruence.
Qed.

Lemma refreshing_attach m n o :
  refreshing (set_refresh (attach_notifier n (refresh m)) o m) = refreshing m.
Proof. unfold refreshing, attach_notifier. simpl. by destruct (phase (refresh m)). Qed.

Lemma refreshing_detach m o :
  refreshing (set_refresh (detach_notifier (refresh m)) o m) = refreshing m.
Proof. unfold refreshing, detach_notifier. simpl. by destruct (phase (refresh m)). Qed.

Lemma r_next_conn c : conn_next (r_next c) = None.
Proof. unfold r_next. by destruct (r_unwinding c). Qed.

Lemma enter_held k : shard_held (enter k) = None.
Proof. by destruct k. Qed.
Lemma enter_conn k : conn_at (enter k) = None.
Proof. by destruct k. Qed.
Lemma enter_batch k : batch_at (enter k) = None.
Proof. by destruct k. Qed.

#[local] Hint Rewrite r_next_conn enter_held enter_conn enter_batch : data_plane.

Ltac keep :=
  rewrite ?next_rest; autorewrite with data_plane; try done;
  first [ apply batch_none; autorewrite with data_plane; done
        | apply keeps_none; autorewrite with data_plane; done
        | apply continue_conn; done
        | eapply next_conn; reflexivity
        | unfold conn_keeps; simpl; eauto; done
        | unfold conn_keeps; simpl; by left
        | unfold conn_keeps; simpl; by right
        | unfold batch_keeps; simpl; autorewrite with data_plane; (done || by split)
        | idtac ].

Ltac same_refresh :=
  first [ done | apply refreshing_commit | by eapply refreshing_finish
        | apply refreshing_attach | apply refreshing_detach | unfold refreshing; simpl; by case_match
        | unfold refreshing; simpl; congruence ].

Ltac shapes :=
  rewrite ?next_rest;
  first
    [ match goal with |- shape _ (Held ?s) _ _ _ _ => by apply (shape_section _ _ _ s) end
    | match goal with |- shape _ ?p _ (Held ?s) _ _ =>
        apply (shape_held _ p _ s (section_shard pw s));
          [simpl; f_equal; lia|done|simpl; eauto|keep|keep] end; fail
    | eapply shape_unlock; [done|keep|simpl; eauto|keep|keep]; fail
    | eapply shape_lock; done
    | eapply shape_count; done
    | apply shape_quiet; [done|same_refresh|done|keep|keep|keep|done]; fail
    | idtac ].

Lemma step_shape t a p m r :
  thread_step t a p m = Done (Some r) -> term_pc p = false -> sealed (next_mem r) = false ->
  shape t p m (next_pc r) (next_mem r) (next_events r).
Proof.
  intros H Hp Hs. destruct a as [o|f|].
  - destruct o, p; try done; steps H.
    all: shapes.
    + eapply (shape_foreign _ _ _ _ 1 0); try done; simpl; rewrite ?Z.add_0_r; try done;
        lia || (unfold admits_queued in *; lia).
    + eapply (shape_foreign _ _ _ _ (-1) 0); try done; simpl; rewrite ?Z.add_0_r; try done;
        lia.
    + eapply (shape_foreign _ _ _ _ 0 1); try done; simpl; rewrite ?Z.add_0_r; try done;
        lia || (unfold admits_active in *; lia).
    + eapply (shape_foreign _ _ _ _ 0 (-1)); try done; simpl; rewrite ?Z.add_0_r; try done; lia.
  - destruct p; try done; steps H.
    all: shapes.
    all: try (match goal with P : phase _ = _ |- _ => eapply shape_lost;
      [done|unfold refreshing; rewrite P; intros [= ?]; lia|done|keep..] end; fail).
    all: try (match goal with P : phase _ = Refreshing _ |- _ => eapply shape_finish;
      [done|done|done|done|unfold refreshing; rewrite P; f_equal; lia|done|keep..] end; fail).
    all: try (match goal with P : phase _ = Refreshing _ |- _ => apply shape_quiet;
      [done|done|done|done|keep|by split; [|apply Permutation_rev]|done] end; fail).
    all: try (match goal with E : checked_add 64 (next_connection_generation _) 1 = Some _ |- _ =>
      unfold checked_add in E; case_match; [|done]; injection E as <-;
      eapply shape_generation; [done|by left + by right|done|done] end; fail).
    + eapply shape_begin; try done. unfold refreshing. by rewrite H0.
    + pose proof (shape_collect t _ m id0 mask0 ups c eq_refl (proj1 (Z.eqb_neq _ _) H) H0 H1) as Hc.
      by rewrite H2 in Hc.
  - destruct p; try done; steps H.
    all: shapes.
Qed.

(** The gate stays sealed, and only a sealed gate lets a termination run. *)
Lemma sealed_step t a p m r :
  thread_step t a p m = Done (Some r) -> sealed m = true -> sealed (next_mem r) = true.
Proof.
  intros H Hs. destruct a as [o|f|], p; try done; try (destruct o; try done); steps H; try done.
  all: unfold unlock; repeat case_match; done.
Qed.

Lemma term_step t a p m r :
  thread_step t a p m = Done (Some r) -> term_pc p = false -> sealed (next_mem r) = false ->
  term_pc (next_pc r) = false.
Proof.
  intros H Hp Hs. destruct a as [o|f|], p; try done; try (destruct o; try done); steps H; try done.
  all: unfold continue, fail_with, retire_next, enter; repeat case_match; done.
Qed.

(** What a section does to its cell. *)
Definition cell_after (t : nat) (i : Z) (sh : TopicShard) (ops : list counter_op) (p' : pc)
    (m m' : core) : Prop :=
  (shard_held p' = Some i /\ (exists c, p' = Counting c)
   /\ cells m' = <[Z.to_nat i := MkCell sh (Some t) ops]> (cells m))
  \/ (shard_held p' = None /\ ops = []
      /\ cells m' = <[Z.to_nat i := MkCell sh None []]> (cells m)).

Lemma section_cell t f s m r :
  run_step pw queued_limit active_limit t f (Held s) m = Done (Some r) -> working s = true ->
  exists sh ops, cell_after t (section_shard pw s) sh ops (next_pc r) m (next_mem r).
Proof.
  intros H Hw. destruct s; try done; steps H.
  all: first [by eexists _, _; right | eexists _, _; left; split; [done|split; [by eexists|done]]].
Qed.

(** ** The discipline of the mutexes *)
Record locks (s : config) : Prop := {
  lock_cells : forall i c t, cells (mem s) !! i = Some c -> holder c = Some t ->
    exists p, threads s !! t = Some p /\ shard_held p = Some (Z.of_nat i);
  lock_held : forall t p i, threads s !! t = Some p -> shard_held p = Some i ->
    exists c, cells (mem s) !! Z.to_nat i = Some c /\ holder c = Some t
              /\ ((exists x, p = Counting x) \/ owed c = []);
  lock_free : forall i c, cells (mem s) !! i = Some c -> holder c = None -> owed c = [];
  lock_open : forall t p, threads s !! t = Some p -> term_pc p = false;
}.

Lemma shard_index_range t : 0 <= shard_index pw t < 32.
Proof.
  unfold shard_index. change (TOPIC_SHARDS - 1) with (Z.ones 5). rewrite Z.land_ones by lia.
  by apply Z.mod_pos_bound.
Qed.

Lemma held_range p i : term_pc p = false -> shard_held p = Some i -> 0 <= i < 32.
Proof.
  destruct p; try done; simpl; intros Hp [= <-].
  - destruct s; apply shard_index_range.
  - destruct c; try done; apply shard_index_range.
Qed.

(** Only the holder's cell changes, and no other thread holds it. *)
Lemma holder_unique s t t' p p' i :
  locks s -> threads s !! t = Some p -> threads s !! t' = Some p' ->
  shard_held p = Some i -> shard_held p' = Some i -> t = t'.
Proof.
  intros L Ht Ht' Hp Hp'. destruct (lock_held _ L _ _ _ Ht Hp) as (c & Hc & Hh & _).
  destruct (lock_held _ L _ _ _ Ht' Hp') as (c' & Hc' & Hh' & _). congruence.
Qed.

(** A step that replaces one cell the thread holds, or that is free. *)
Lemma locks_update s t p p' m' i c c' :
  locks s -> threads s !! t = Some p -> term_pc p' = false ->
  cells (mem s) !! i = Some c -> cells m' = <[i := c']> (cells (mem s)) ->
  (holder c = Some t \/ (holder c = None /\ shard_held p = None)) ->
  (holder c = None -> shard_held p = None) ->
  (match holder c' with
   | Some t' => t' = t /\ shard_held p' = Some (Z.of_nat i) /\ ((exists x, p' = Counting x) \/ owed c' = [])
   | None => shard_held p' = None /\ owed c' = []
   end) ->
  locks (Config m' (<[t := p']> (threads s))).
Proof.
  intros L Ht Hp' Hc Ec Hh Hn Hc'.
  assert (t < length (threads s))%nat as Hlt by (by eapply lookup_lt_Some).
  assert (i < length (cells (mem s)))%nat as Hli by (by eapply lookup_lt_Some).
  assert (forall j, shard_held p = Some j -> j = Z.of_nat i) as Hj.
  { intros j Hpj. destruct Hh as [Hh|[_ ?]]; [|congruence].
    destruct (lock_cells _ L _ _ _ Hc Hh) as (x & Hx & E). congruence. }
  split; simpl; rewrite ?Ec.
  - intros j d t' Hd Hdt. destruct (decide (j = i)) as [->|Hji].
    + rewrite list_lookup_insert_eq in Hd by done. simplify_eq. rewrite Hdt in Hc'.
      destruct Hc' as (-> & ? & _). exists p'. by rewrite list_lookup_insert_eq.
    + rewrite list_lookup_insert_ne in Hd by done.
      destruct (lock_cells _ L _ _ _ Hd Hdt) as (x & Hx & E).
      exists x. rewrite list_lookup_insert_ne; [done|]. intros <-. simplify_eq.
      apply Hj in E. lia.
  - intros t' x j Hx Ej. destruct (decide (t' = t)) as [->|Htt].
    + rewrite list_lookup_insert_eq in Hx by done. simplify_eq.
      destruct (holder c') as [t'|] eqn:Ehc; [|by destruct Hc'; congruence].
      destruct Hc' as (-> & E & Ho). rewrite E in Ej. injection Ej as <-. rewrite Nat2Z.id.
      exists c'. by rewrite list_lookup_insert_eq.
    + rewrite list_lookup_insert_ne in Hx by done.
      destruct (lock_held _ L _ _ _ Hx Ej) as (d & Hd & Hdt & Ho). exists d. split; [|done].
      rewrite list_lookup_insert_ne; [done|]. intros Eij. rewrite Eij in Hc. simplify_eq.
      destruct Hh as [Hh|[Hh _]]; congruence.
  - intros j d Hd Hdn. destruct (decide (j = i)) as [->|Hji].
    + rewrite list_lookup_insert_eq in Hd by done. simplify_eq. rewrite Hdn in Hc'. apply Hc'.
    + rewrite list_lookup_insert_ne in Hd by done. by apply (lock_free _ L j).
  - intros t' x. destruct (decide (t' = t)) as [->|Htt].
    + rewrite list_lookup_insert_eq by done. by intros [= <-].
    + rewrite list_lookup_insert_ne by done. apply (lock_open _ L).
Qed.

Lemma locks_same s t p p' m' :
  locks s -> threads s !! t = Some p -> term_pc p' = false -> cells m' = cells (mem s) ->
  shard_held p' = shard_held p -> all_counted p (mem s) ->
  locks (Config m' (<[t := p']> (threads s))).
Proof.
  intros L Ht Hp' Ec Eh Ha.
  assert (t < length (threads s))%nat as Hlt by (by eapply lookup_lt_Some).
  split; simpl; rewrite ?Ec.
  - intros j d t' Hd Hdt. destruct (lock_cells _ L _ _ _ Hd Hdt) as (x & Hx & E).
    destruct (decide (t' = t)) as [->|].
    + exists p'. rewrite list_lookup_insert_eq by done. simplify_eq. by rewrite Eh.
    + exists x. by rewrite list_lookup_insert_ne.
  - intros t' x j Hx Ej. destruct (decide (t' = t)) as [->|].
    + rewrite list_lookup_insert_eq in Hx by done. simplify_eq. rewrite Eh in Ej.
      destruct (lock_held _ L _ _ _ Ht Ej) as (d & Hd & Hdt & Ho). exists d.
      split; [done|]. split; [done|]. right. destruct Ho as [[c ->]|Ho]; [|done].
      destruct Ha as (y & Hy & Hyo). simpl in Ej. injection Ej as <-. congruence.
    + rewrite list_lookup_insert_ne in Hx by done. by apply (lock_held _ L).
  - apply (lock_free _ L).
  - intros t' x. destruct (decide (t' = t)) as [->|].
    + rewrite list_lookup_insert_eq by done. by intros [= <-].
    + rewrite list_lookup_insert_ne by done. apply (lock_open _ L).
Qed.

Lemma step_inv t a s s' es :
  step t a s = Done (Some (s', es)) ->
  exists p r, threads s !! t = Some p /\ thread_step t a p (mem s) = Done (Some r)
    /\ s' = Config (next_mem r) (<[t := next_pc r]> (threads s)) /\ es = next_events r.
Proof.
  unfold DataPlane.step. destruct (threads s !! t) as [p|] eqn:Ht; [|done].
  destruct (thread_step t a p (mem s)) as [[r|]| |] eqn:E; try done. simpl.
  intros [= <- <-]. by exists p, r.
Qed.

Lemma quiet_counted p m : shard_held p = None -> all_counted p m.
Proof. by destruct p. Qed.

Lemma counting_held p m i : shard_held p = Some i -> all_counted p m ->
  (exists s, p = Held s) \/ exists x, cells m !! Z.to_nat i = Some x /\ owed x = [].
Proof. destruct p; try done; simpl; intros [= <-]; eauto. Qed.

(** The cell a thread holds, when its section has been counted. *)
Lemma held_cell s t p i :
  locks s -> threads s !! t = Some p -> shard_held p = Some i -> all_counted p (mem s) ->
  exists c, cells (mem s) !! Z.to_nat i = Some c /\ holder c = Some t /\ owed c = [].
Proof.
  intros L Ht Hi Ha. destruct (lock_held _ L _ _ _ Ht Hi) as (c & Hc & Hh & Ho).
  exists c. split_and!; [done..|]. destruct Ho as [[x ->]|]; [|done].
  destruct Ha as (y & Hy & Hyo). simpl in Hi. injection Hi as <-. congruence.
Qed.

Lemma locks_step s t a s' es :
  locks s -> step t a s = Done (Some (s', es)) -> sealed (mem s') = false -> locks s'.
Proof.
  intros L H Hs. destruct (step_inv _ _ _ _ _ H) as (p & r & Ht & E & -> & ->). simpl in Hs.
  pose proof (lock_open _ L _ _ Ht) as Hp. pose proof (term_step _ _ _ _ _ E Hp Hs) as Hp'.
  pose proof (step_shape _ _ _ _ _ E Hp Hs) as S. destruct r as [p' m' es']. simpl in *.
  inversion S; subst; clear S.
  - eapply locks_same; try done; [by destruct H0|congruence|by apply quiet_counted].
  - assert (0 <= section_shard pw s0 < 32) by (eapply (held_range (Held s0)); done).
    eapply locks_update; try done; simpl; [by right|].
    split_and!; [done|f_equal; lia|right; by apply (lock_free _ L _ _ H1)].
  - eapply locks_same; try done; congruence.
  - destruct (held_cell _ _ _ _ L Ht H0 H2) as (c & Hc & Hh & Ho).
    eapply (locks_update s t p p' _ (Z.to_nat i) c (MkCell (shard c) None [])); try done.
    + unfold unlock. by rewrite Hc.
    + by left.
    + congruence.
  - destruct a as [o|f|]; [by destruct o; simpl in E; repeat case_match| |done].
    destruct (section_cell _ _ _ _ _ E H1) as (sh & ops & Hcell). simpl in Hcell.
    destruct (lock_held _ L _ _ _ Ht eq_refl) as (c & Hc & Hh & Ho).
    pose proof (held_range (Held s0) _ eq_refl eq_refl) as Hr.
    destruct Hcell as [(Eh & Hx & Ec)|(Eh & -> & Ec)].
    + eapply locks_update; try done; [by left|congruence|]. simpl.
      split_and!; [done|rewrite Eh; f_equal; lia|by left].
    + eapply locks_update; try done; [by left|congruence].
  - pose proof (held_range (Counting c) _ Hp eq_refl) as Hr.
    destruct (lock_held _ L _ _ _ Ht eq_refl) as (y & Hy & Hh & _). simpl in Hy. simplify_eq.
    eapply locks_update; try done; [by left|congruence|]. simpl.
    split_and!; [done|f_equal; lia|eauto].
  - eapply locks_update; try done; by right.
  - eapply locks_same; try done. by destruct H1.
  - eapply locks_same; try done; [by destruct H3|congruence|by apply quiet_counted].
  - eapply locks_same; try done; [congruence|by apply quiet_counted].
  - eapply locks_same; try done.
  - eapply locks_same; try done.
Qed.

End Shapes.
End DataPlaneSteps.
