(* ===== verification/DataPlaneInvariant.v ===== *)
(** * The invariant of the data plane

    Until the gate is sealed, every shard is well formed, the counters are the
    sums of what the shards and the updates still owed contribute, and every
    connection transaction owns its generation.  [change] describes a step by
    what it does to the connections and the pending updates; it is what the
    later files reason about. *)

From S2P Require Import Prelude SealableCounter Errors Channel DataShard ShardInvariant DataPlane DataPlaneSteps.
Import SealableCounter.Transitions Errors Channel DataShard.Shard ShardInvariant.ShardInvariant DataPlane DataPlaneSteps.

Local Open Scope Z_scope.

Module DataPlaneInvariant.

Section Invariant.
Context (pw : pointer_width) (queued_limit active_limit : Z).
Abbreviation thread_step := (thread_step pw queued_limit active_limit).
Abbreviation step := (step pw queued_limit active_limit).
Abbreviation shard_ok := (shard_ok pw).

(** ** What a cell contributes to the counters *)
Definition tally_neg (x : tally) : tally :=
  Tally (- t_pending x) (- t_deliverable x) (- t_queued x) (- t_active x).

Fixpoint uncount (ops : list counter_op) (x : tally) : tally :=
  match ops with [] => x | o :: ops => tally_add (uncount ops x) (tally_neg (op_tally o)) end.

(** What the counters have seen of a cell: its contents without the updates
    that are still owed. *)
Definition base (c : Cell) : tally := uncount (owed c) (measure (shard c)).

Lemma tally_add_0 x : tally_add x (Tally 0 0 0 0) = x.
Proof. destruct x. unfold tally_add. simpl. f_equal; lia. Qed.

Lemma uncount_add ops x y : uncount ops (tally_add x y) = tally_add (uncount ops x) y.
Proof.
  induction ops as [|o ops IH]; simpl; [done|]. rewrite IH. unfold tally_add. simpl. f_equal; lia.
Qed.

Lemma apply_ops_add ops x y :
  ShardInvariant.apply_ops ops (tally_add x y) = tally_add (ShardInvariant.apply_ops ops x) y.
Proof.
  revert x. induction ops as [|o ops IH]; intros x; [done|]. unfold ShardInvariant.apply_ops in *. simpl.
  rewrite <- IH. f_equal. unfold tally_add. simpl. f_equal; lia.
Qed.

Lemma uncount_apply ops x : uncount ops (ShardInvariant.apply_ops ops x) = x.
Proof.
  revert x. induction ops as [|o ops IH]; intros x; [done|].
  change (ShardInvariant.apply_ops (o :: ops) x)
    with (ShardInvariant.apply_ops ops (tally_add x (op_tally o))).
  simpl. rewrite IH. unfold tally_add, tally_neg. simpl. destruct x. f_equal; simpl; lia.
Qed.

Lemma settles_base x bit ops sh h : settles x bit ops sh -> base (MkCell sh h ops) = x.
Proof. intros [H _ _]. unfold base. simpl. rewrite <- H. apply uncount_apply. Qed.

(** ** Well-formed cells and exact counters *)
Definition cell_ok (i : nat) (ready : Z) (c : Cell) : Prop :=
  shard_ok (Z.of_nat i) (shard c)
  /\ settles (base c) (Z.testbit ready (Z.of_nat i)) (owed c) (shard c).

Record good (m : core) : Prop := {
  good_length : length (cells m) = 32%nat;
  good_cells : forall i c, cells m !! i = Some c -> cell_ok i (ready_shards (counters m)) c;
  good_pending : pending_updates (counters m) = ztotal (fun c => t_pending (base c)) (cells m);
  good_deliverable :
    deliverable_pending (counters m) = ztotal (fun c => t_deliverable (base c)) (cells m);
  good_queued :
    queued_used (counters m) = foreign_queued m + ztotal (fun c => t_queued (base c)) (cells m);
  good_active :
    active_used (counters m) = foreign_active m + ztotal (fun c => t_active (base c)) (cells m);
  good_foreign : 0 <= foreign_queued m /\ 0 <= foreign_active m;
  good_limits : queued_used (counters m) <= queued_limit /\ active_used (counters m) <= active_limit;
  good_generation : 0 <= next_connection_generation m;
}.

Lemma good_tally m i c : good m -> cells m !! i = Some c -> tally_ok (base c).
Proof.
  intros G Hc. destruct (good_cells _ G _ _ Hc) as [_ [_ Hp _]]. by destruct (owed c), Hp.
Qed.

Context (Hlimit : 0 <= queued_limit /\ queued_limit + 64 < 2 ^ bits pw).

(** The contribution of a cell is bounded by the permits. *)
Lemma good_bounds m : good m ->
  0 <= ztotal (fun c => t_queued (base c)) (cells m) <= queued_limit
  /\ 0 <= pending_updates (counters m) <= queued_limit + 32
  /\ 0 <= deliverable_pending (counters m) <= queued_limit + 64.
Proof using Hlimit.
  intros G. rewrite (good_pending _ G), (good_deliverable _ G).
  destruct (good_limits _ G) as [Hq _]. rewrite (good_queued _ G) in Hq.
  destruct (good_foreign _ G) as [Hf _].
  assert (forall l, (forall i c, l !! i = Some c -> tally_ok (base c)) ->
    0 <= ztotal (fun c => t_queued (base c)) l
    /\ 0 <= ztotal (fun c => t_pending (base c)) l
       <= ztotal (fun c => t_queued (base c)) l + Z.of_nat (length l)
    /\ 0 <= ztotal (fun c => t_deliverable (base c)) l
       <= ztotal (fun c => t_pending (base c)) l + Z.of_nat (length l)) as Hl.
  { induction l as [|c l IH]; intros Hc; simpl; [lia|].
    pose proof (Hc 0%nat c eq_refl) as (?&?&?&?). specialize (IH (fun i => Hc (S i))). lia. }
  specialize (Hl (cells m) (fun i c => good_tally m i c G)). rewrite (good_length _ G) in Hl. lia.
Qed.

Lemma good_queued_total m i c : good m -> cells m !! i = Some c -> owed c = [] ->
  queued_total (shard c) <= queued_limit.
Proof using Hlimit.
  intros G Hc Ho. destruct (good_bounds m G) as [Hb _].
  pose proof (ztotal_ge (fun c => t_queued (base c)) (cells m) i c) as Hge.
  assert (t_queued (base c) = queued_total (shard c)) as <- by (unfold base; by rewrite Ho).
  assert (t_queued (base c) <= ztotal (fun c => t_queued (base c)) (cells m)); [|lia].
  apply Hge; [|done]. intros j y Hy. apply (good_tally m j y G Hy).
Qed.

Lemma good_settled m i c : good m -> cells m !! i = Some c -> owed c = [] ->
  base c = measure (shard c) /\ Z.testbit (ready_shards (counters m)) (Z.of_nat i) = ready (shard c).
Proof.
  intros G Hc Ho. destruct (good_cells _ G _ _ Hc) as [_ [_ _ Hr]]. unfold base. rewrite Ho in *.
  by split.
Qed.

(** Replacing a cell, with the counters following its contribution. *)
Lemma good_update m m' i c c' d :
  good m -> cells m !! i = Some c -> cells m' = <[i := c']> (cells m) ->
  base c' = tally_add (base c) d ->
  pending_updates (counters m') = pending_updates (counters m) + t_pending d ->
  deliverable_pending (counters m') = deliverable_pending (counters m) + t_deliverable d ->
  queued_used (counters m') = queued_used (counters m) + t_queued d ->
  active_used (counters m') = active_used (counters m) + t_active d ->
  cell_ok i (ready_shards (counters m')) c' ->
  (forall j, j <> i -> Z.testbit (ready_shards (counters m')) (Z.of_nat j)
                       = Z.testbit (ready_shards (counters m)) (Z.of_nat j)) ->
  foreign_queued m' = foreign_queued m -> foreign_active m' = foreign_active m ->
  next_connection_generation m' = next_connection_generation m ->
  (t_queued d <= 0 \/ queued_used (counters m') <= queued_limit) ->
  (t_active d <= 0 \/ active_used (counters m') <= active_limit) ->
  good m'.
Proof.
  intros G Hc Ec Hb Hp Hd Hq Ha Hok Hr Hfq Hfa Hg Hlq Hla.
  pose proof (fun f => ztotal_insert f (cells m) i c c' Hc) as Hs.
  split; rewrite ?Ec, ?Hfq, ?Hfa, ?Hg; simpl.
  - rewrite length_insert. apply (good_length _ G).
  - intros j x Hx. list_upd j i.
    + by simplify_eq.
    + unfold cell_ok. rewrite Hr by done. by apply (good_cells _ G).
  - pose proof (Hs (fun c => t_pending (base c))) as E. cbv beta in E. rewrite Hb in E. simpl in E.
    pose proof (good_pending _ G). lia.
  - pose proof (Hs (fun c => t_deliverable (base c))) as E. cbv beta in E. rewrite Hb in E. simpl in E.
    pose proof (good_deliverable _ G). lia.
  - pose proof (Hs (fun c => t_queued (base c))) as E. cbv beta in E. rewrite Hb in E. simpl in E.
    pose proof (good_queued _ G). lia.
  - pose proof (Hs (fun c => t_active (base c))) as E. cbv beta in E. rewrite Hb in E. simpl in E.
    pose proof (good_active _ G). lia.
  - apply (good_foreign _ G).
  - pose proof (good_limits _ G). lia.
  - apply (good_generation _ G).
Qed.

(** A section: the shard and the updates it owes replace a settled cell; the
    permits it took are counted at once. *)
Lemma good_section m m' i c sh h ops dq da :
  good m -> cells m !! i = Some c -> owed c = [] -> cells m' = <[i := MkCell sh h ops]> (cells m) ->
  shard_ok (Z.of_nat i) sh ->
  settles (tally_add (measure (shard c)) (Tally 0 0 dq da)) (ready (shard c)) ops sh ->
  counters m' = MkCounters (pending_updates (counters m)) (deliverable_pending (counters m))
                  (ready_shards (counters m)) (queued_used (counters m) + dq)
                  (active_used (counters m) + da) ->
  foreign_queued m' = foreign_queued m -> foreign_active m' = foreign_active m ->
  next_connection_generation m' = next_connection_generation m ->
  (dq <= 0 \/ queued_used (counters m) + dq <= queued_limit) ->
  (da <= 0 \/ active_used (counters m) + da <= active_limit) ->
  good m'.
Proof.
  intros G Hc Ho Ec Hok S Hk Hfq Hfa Hg Hlq Hla.
  destruct (good_settled m i c G Hc Ho) as [Hb Hr].
  assert (base (MkCell sh h ops) = tally_add (base c) (Tally 0 0 dq da)) as E.
  { rewrite Hb. by apply (settles_base _ (ready (shard c))). }
  eapply (good_update m m' i c (MkCell sh h ops) (Tally 0 0 dq da)); rewrite ?Hk; simpl; try done; try lia.
  split; [done|]. simpl. by rewrite Hr, E, Hb.
Qed.

(** A section that takes no permit. *)
Lemma good_section_plain m m' i c sh h ops :
  good m -> cells m !! i = Some c -> owed c = [] -> cells m' = <[i := MkCell sh h ops]> (cells m) ->
  shard_ok (Z.of_nat i) sh -> settles (measure (shard c)) (ready (shard c)) ops sh ->
  counters m' = counters m ->
  foreign_queued m' = foreign_queued m -> foreign_active m' = foreign_active m ->
  next_connection_generation m' = next_connection_generation m ->
  good m'.
Proof.
  intros G Hc Ho Ec Hok S Hk Hfq Hfa Hg.
  eapply (good_section m m' i c sh h ops 0 0); try done; try lia.
  - by rewrite tally_add_0.
  - rewrite Hk, !Z.add_0_r. by destruct (counters m).
Qed.

(** A cell that only changes hands. *)
Lemma good_holder m m' i c h :
  good m -> cells m !! i = Some c -> cells m' = <[i := MkCell (shard c) h (owed c)]> (cells m) ->
  counters m' = counters m ->
  foreign_queued m' = foreign_queued m -> foreign_active m' = foreign_active m ->
  next_connection_generation m' = next_connection_generation m ->
  good m'.
Proof.
  intros G Hc Ec Hk Hfq Hfa Hg.
  eapply (good_update m m' i c (MkCell (shard c) h (owed c)) (Tally 0 0 0 0)); rewrite ?Hk; simpl;
    try done; try lia.
  - by rewrite tally_add_0.
  - destruct (good_cells _ G _ _ Hc) as [Hok S]. by split.
Qed.

(** ** The counter updates *)

(** The effect of an update when nothing wraps and nothing is below zero. *)
Definition plain_op (i : Z) (o : counter_op) (k : Counters) : Counters :=
  let d := op_tally o in
  MkCounters (pending_updates k + t_pending d) (deliverable_pending k + t_deliverable d)
    (match o with
     | ReadyOr => Z.lor (ready_shards k) (Z.shiftl 1 i)
     | ReadyClear => Z.ldiff (ready_shards k) (Z.shiftl 1 i)
     | _ => ready_shards k
     end) (queued_used k + t_queued d) (active_used k + t_active d).

Lemma plain_ready i o k (j : nat) : 0 <= i ->
  Z.testbit (ready_shards (plain_op i o k)) (Z.of_nat j)
  = if Z.of_nat j =? i then ready_op (Z.testbit (ready_shards k) (Z.of_nat j)) o
    else Z.testbit (ready_shards k) (Z.of_nat j).
Proof.
  intros Hi. assert (Z.testbit (Z.shiftl 1 i) (Z.of_nat j) = (Z.of_nat j =? i)) as Hb.
  { rewrite Z.shiftl_1_l. by rewrite Z.pow2_bits_eqb, Z.eqb_sym by lia. }
  destruct o; simpl; rewrite ?Z.lor_spec, ?Z.ldiff_spec, ?Hb; destruct (Z.of_nat j =? i); simpl;
    rewrite ?orb_true_r, ?orb_false_r, ?andb_true_r, ?andb_false_r; done.
Qed.

Lemma op_grows o x : tally_ok x -> tally_ok (tally_add x (op_tally o)) ->
  t_queued (op_tally o) <= 0 /\ t_active (op_tally o) <= 0.
Proof. destruct o; simpl; lia. Qed.

Lemma good_count t m i x o ops :
  good m -> cells m !! i = Some x -> owed x = o :: ops ->
  good (keep_with t (Z.of_nat i) (shard x) ops
          (set_counters (plain_op (Z.of_nat i) o (counters m)) m)).
Proof.
  intros G Hx Ho. destruct (good_cells _ G _ _ Hx) as [Hok [Ht Hp Hr]].
  rewrite Ho in Ht, Hp, Hr. destruct Hp as [Hp0 Hp].
  assert (base (MkCell (shard x) (Some t) ops) = tally_add (base x) (op_tally o)) as E.
  { unfold base. rewrite Ho. simpl. generalize (uncount ops (measure (shard x))). intros y.
    unfold tally_add, tally_neg. simpl. destruct y. simpl. f_equal; lia. }
  pose proof (op_grows o _ Hp0) as Hneg.
  eapply (good_update m _ i x (MkCell (shard x) (Some t) ops) (op_tally o)); try done.
  - unfold keep_with. simpl. by rewrite Nat2Z.id.
  - split; [done|]. rewrite E. cbn [keep_with set_counters set_cell counters owed shard].
    split; [done..|]. by rewrite plain_ready, Z.eqb_refl by lia.
  - intros j Hj. cbn [keep_with set_counters set_cell counters].
    by rewrite plain_ready, (proj2 (Z.eqb_neq _ _)) by lia.
  - left. apply Hneg. by destruct ops, Hp.
  - left. apply Hneg. by destruct ops, Hp.
Qed.

Lemma count_exact_op (t : nat) m i x o ops :
  good m -> cells m !! i = Some x -> owed x = o :: ops ->
  apply_op pw (Z.of_nat i) o (counters m) = Done (plain_op (Z.of_nat i) o (counters m)).
Proof using Hlimit.
  intros G Hx Ho. pose proof (good_count t m i x o ops G Hx Ho) as G'.
  destruct (good_bounds _ G') as (_ & Hp & Hd). simpl in Hp, Hd.
  pose proof (good_queued _ G') as Hq. pose proof (good_active _ G') as Ha.
  destruct (good_foreign _ G') as [Hf1 Hf2]. simpl in Hq, Ha, Hf1, Hf2.
  assert (forall j y, cells (keep_with t (Z.of_nat i) (shard x) ops
      (set_counters (plain_op (Z.of_nat i) o (counters m)) m)) !! j = Some y -> tally_ok (base y)) as Hy.
  { intros j y. by apply good_tally. }
  pose proof (ztotal_nonneg (fun c => t_queued (base c)) _ (fun j y E => proj1 (proj2 (proj2 (Hy j y E))))) as Nq.
  pose proof (ztotal_nonneg (fun c => t_active (base c)) _ (fun j y E => proj2 (proj2 (proj2 (Hy j y E))))) as Na.
  simpl in Nq, Na. unfold apply_op, checked_sub, wrapping_add, wrap, plain_op.
  destruct (counters m) as [p d r q a]. simpl in *.
  destruct o; simpl in *; rewrite ?Z.add_0_r; try done.
  - rewrite Z.mod_small by lia. done.
  - rewrite (proj2 (Z.leb_le _ _)) by lia. done.
  - rewrite Z.mod_small by lia. done.
  - rewrite (proj2 (Z.leb_le _ _)) by lia. done.
  - rewrite (proj2 (Z.leb_le _ _)) by lia. done.
  - rewrite (proj2 (Z.leb_le _ _)) by lia. done.
Qed.

End Invariant.
End DataPlaneInvariant.
