(* ===== verification/DataPlaneChange.v ===== *)
(** * What a step of the data plane changes

    The connections and the pending updates seen by topic instead of by shard,
    a relation [change] that describes every step of an open server by what it
    does to them, the invariant of the connection transactions, and the proof
    that a step keeps the invariants and is described by [change]. *)

From S2P Require Import Prelude SealableCounter Errors Channel DataShard ShardInvariant DataPlane DataPlaneSteps DataPlaneInvariant.
Import SealableCounter.Transitions Errors Channel DataShard.Shard ShardInvariant.ShardInvariant DataPlane DataPlaneSteps DataPlaneInvariant.

Local Open Scope Z_scope.

Module DataPlaneChange.

Section Change.
Context (pw : pointer_width) (queued_limit active_limit : Z).
Context (Hlimit : 0 <= queued_limit /\ queued_limit + 64 < 2 ^ bits pw).
Abbreviation thread_step := (thread_step pw queued_limit active_limit).
Abbreviation step := (step pw queued_limit active_limit).
Abbreviation shard_ok := (shard_ok pw).
Abbreviation good := (good pw queued_limit active_limit).
Abbreviation locks := (locks pw).
Abbreviation shard_index := (shard_index pw).

(** ** Views by topic *)
Definition act (m : core) (t : Z) : option ActiveSubscription :=
  match cells m !! Z.to_nat (shard_index t) with
  | Some c => active_by_topic (shard c) !! t
  | None => None
  end.

Definition pnd (m : core) (b : BufferIndex) (t : Z) : option QueuedUpdate :=
  match cells m !! Z.to_nat (shard_index t) with
  | Some c => pend b t (shard c)
  | None => None
  end.

Record same_views (m m' : core) : Prop := {
  same_act : forall u, act m' u = act m u;
  same_pnd : forall b u, pnd m' b u = pnd m b u;
}.

Lemma same_views_cells m m' : cells m' = cells m -> same_views m m'.
Proof. intros E. split; intros; unfold act, pnd; by rewrite E. Qed.

Lemma act_cell m u c : cells m !! Z.to_nat (shard_index u) = Some c ->
  act m u = active_by_topic (shard c) !! u.
Proof. unfold act. by intros ->. Qed.

Lemma pnd_cell m b u c : cells m !! Z.to_nat (shard_index u) = Some c ->
  pnd m b u = pend b u (shard c).
Proof. unfold pnd. by intros ->. Qed.

(** Replacing the cell of shard [i] changes the views as the shard changes. *)
Section Update.
Context (m m' : core) (i : Z) (c c' : Cell).
Context (Hi : 0 <= i) (Hc : cells m !! Z.to_nat i = Some c).
Context (Ec : cells m' = <[Z.to_nat i := c']> (cells m)).

Lemma update_cell u :
  cells m' !! Z.to_nat (shard_index u)
  = if decide (shard_index u = i) then Some c' else cells m !! Z.to_nat (shard_index u).
Proof using All.
  pose proof (shard_index_range pw u). rewrite Ec. destruct (decide (shard_index u = i)) as [->|].
  - apply list_lookup_insert_eq. by eapply lookup_lt_Some.
  - apply list_lookup_insert_ne. lia.
Qed.

Lemma act_update F :
  (forall u, active_by_topic (shard c') !! u = F u (active_by_topic (shard c) !! u)) ->
  (forall u o, shard_index u <> i -> F u o = o) ->
  forall u, act m' u = F u (act m u).
Proof using All.
  intros HF Hn u. unfold act. rewrite update_cell.
  destruct (decide (shard_index u = i)) as [Hu|Hu].
  - rewrite HF, Hu. by rewrite Hc.
  - by rewrite Hn.
Qed.

Lemma pnd_update F :
  (forall b u, pend b u (shard c') = F b u (pend b u (shard c))) ->
  (forall b u o, shard_index u <> i -> F b u o = o) ->
  forall b u, pnd m' b u = F b u (pnd m b u).
Proof using All.
  intros HF Hn b u. unfold pnd. rewrite update_cell.
  destruct (decide (shard_index u = i)) as [Hu|Hu].
  - rewrite HF, Hu. by rewrite Hc.
  - by rewrite Hn.
Qed.

Lemma views_update :
  active_by_topic (shard c') = active_by_topic (shard c) ->
  (forall b u, pend b u (shard c') = pend b u (shard c)) -> same_views m m'.
Proof using All.
  intros Ha Hp. split.
  - apply (act_update (fun _ o => o)); [|done]. by rewrite Ha.
  - by apply (pnd_update (fun _ _ o => o)).
Qed.
End Update.

(** ** Changes *)
Definition updated (m m' : core) (t : Z) (o : option ActiveSubscription) : Prop :=
  forall u, act m' u = if u =? t then o else act m u.

Definition kept_pnd (m m' : core) : Prop := forall b u, pnd m' b u = pnd m b u.

Definition dropped (P : BufferIndex -> Z -> QueuedUpdate -> bool) (m m' : core) : Prop :=
  forall b u, pnd m' b u = match pnd m b u with
                           | Some q => if P b u q then None else Some q
                           | None => None
                           end.

Definition observed_by (m : core) (k : connection) : option Z :=
  let s b := match pnd m b (k_topic k) with
             | Some q => if connection_generation q =? k_generation k then Some (q_sequence q) else None
             | None => None
             end in
  option_max (s First) (s Second).

(** The initial value a connection transaction has read, and the newest
    pending sequence it covers. *)
Definition value_section (s : section) : option (connection * StoredRtdValue * option Z) :=
  match s with CommitOpen k v obs | CommitRemove k v obs => Some (k, v, obs) | _ => None end.

Definition conn_value (p : pc) : option (connection * StoredRtdValue * option Z) :=
  match p with
  | Installed k v obs => Some (k, v, obs)
  | Locking s | Held s => value_section s
  | _ => None
  end.

Inductive change (p : pc) (m : core) : pc -> core -> list event -> Prop :=
| ch_same p' m' es :
    same_views m m' -> refreshing m' = refreshing m ->
    next_connection_generation m' = next_connection_generation m ->
    conn_keeps p p' -> batch_keeps p p' -> plain es ->
    conn_value p' = None \/ conn_value p' = conn_value p ->
    (forall u ups c, p <> Held (RetireUpdate u ups c)) ->
    change p m p' m' es
| ch_begin id m' :
    p = PlanLock -> same_views m m' -> refreshing m = None -> refreshing m' = Some id ->
    next_connection_generation m' = next_connection_generation m ->
    change p m (PlanMask id) m' []
| ch_finish id p' m' :
    batch_at p = Some (id, []) -> conn_at p' = None -> batch_at p' = None ->
    same_views m m' -> refreshing m = Some id -> refreshing m' = None ->
    next_connection_generation m' = next_connection_generation m ->
    change p m p' m' []
| ch_lost id ups p' :
    batch_at p = Some (id, ups) -> refreshing m <> Some id ->
    conn_at p' = None -> batch_at p' = None ->
    (forall u ups c, p <> Held (RetireUpdate u ups c)) -> change p m p' m []
| ch_generation topic d p' m' :
    p = ConnGeneration topic d ->
    conn_at p' = None \/ p' = ConnCatalog (Connection topic d (next_connection_generation m)) ->
    batch_at p' = None -> same_views m m' -> refreshing m' = refreshing m ->
    next_connection_generation m' = next_connection_generation m + 1 ->
    change p m p' m' []
| ch_reserved k m' :
    p = Held (Reserve k) -> act m (k_topic k) = None ->
    updated m m' (k_topic k) (Some (fresh_active (k_id k) (k_generation k))) ->
    kept_pnd m m' -> refreshing m' = refreshing m ->
    next_connection_generation m' = next_connection_generation m ->
    change p m (ConnSubscribe k) m' []
| ch_installed k v m' a :
    p = Held (Install k) -> act m (k_topic k) = Some a -> generation a = k_generation k ->
    v = default (Channel.Stored EmptyValue) (latest_value a) ->
    same_views m m' -> refreshing m' = refreshing m ->
    next_connection_generation m' = next_connection_generation m ->
    change p m (Installed k v (observed_by m k)) m' []
| ch_skipped b v e a m' :
    p = Held (Commit b v e) -> act m (p_topic b) = Some a -> generation a = p_generation b ->
    next_sequence a + 1 < 2 ^ 64 -> updated m m' (p_topic b) (Some (skipped a)) ->
    kept_pnd m m' -> refreshing m' = refreshing m ->
    next_connection_generation m' = next_connection_generation m ->
    change p m (leave_error Overloaded) m' []
| ch_stored b v e a m' :
    p = Held (Commit b v e) -> act m (p_topic b) = Some a -> generation a = p_generation b ->
    next_sequence a + 1 < 2 ^ 64 ->
    updated m m' (p_topic b) (Some (stored_active (from_epoch e) v a)) ->
    (forall b' u, pnd m' b' u = if decide (b' = from_epoch e /\ u = p_topic b)
                                then Some (Queued (generation a) (next_sequence a))
                                else pnd m b' u) ->
    refreshing m' = refreshing m ->
    next_connection_generation m' = next_connection_generation m ->
    change p m (Counting (CountedValue b e (committed a))) m'
      [Stored (p_topic b) (p_generation b) (next_sequence a) v]
| ch_pruned k v obs a m' :
    p = Held (CommitRemove k v obs) -> act m (k_topic k) = Some a ->
    generation a = k_generation k ->
    (forall u, act m' u = act m u) ->
    dropped (fun _ u q => (u =? k_topic k) && through obs q) m m' ->
    refreshing m' = refreshing m ->
    next_connection_generation m' = next_connection_generation m ->
    change p m (Counting (CountedRemove k obs)) m'
      match obs with Some s => [Shown (k_topic k) (k_generation k) s v] | None => [] end
| ch_committed k obs a p' m' :
    p = Held (CommitInstall k obs) -> act m (k_topic k) = Some a ->
    generation a = k_generation k -> committed a = false ->
    (forall b q, pnd m b (k_topic k) = Some q -> through obs q = false) ->
    updated m m' (k_topic k) (Some (set_committed a)) -> kept_pnd m m' ->
    conn_at p' = Some (k, Settled) -> batch_at p' = None ->
    refreshing m' = refreshing m ->
    next_connection_generation m' = next_connection_generation m ->
    change p m p' m' []
| ch_withdrawn t a p' m' :
    act m t = Some a -> updated m m' t None -> dropped (fun _ u _ => u =? t) m m' ->
    conn_at p' = None \/ (exists k s, conn_at p = Some (k, s) /\ conn_at p' = Some (k, Settled)) ->
    batch_at p = None -> batch_at p' = None -> conn_value p' = None ->
    refreshing m' = refreshing m ->
    next_connection_generation m' = next_connection_generation m ->
    change p m p' m' []
| ch_retired u ups c m' :
    p = Held (RetireUpdate u ups c) ->
    (match act m (u_topic u) with
     | None => forall t, act m' t = act m t
     | Some a => exists a', retired u a a' /\ updated m m' (u_topic u) (Some a')
     end) ->
    dropped (retire_through u (r_outcome c)) m m' ->
    refreshing m' = refreshing m ->
    next_connection_generation m' = next_connection_generation m ->
    change p m (Counting (CountedRetire (u_topic u) ups c)) m'
      match r_outcome c with
      | Delivered => [Shown (u_topic u) (u_generation u) (u_sequence u) (u_value u)]
      | Failed => []
      end
| ch_collected id mask ups c i m' :
    p = Collect id mask ups -> mask <> 0 -> i = Z.log2 (Z.land mask (- mask)) ->
    cells m !! Z.to_nat i = Some c -> shard_ok i (shard c) ->
    (forall u, act m' u =
       if decide (u ∈ collect_order (shard c)) then collected_active (shard c) u <$> act m u
       else act m u) ->
    kept_pnd m m' -> refreshing m' = refreshing m ->
    next_connection_generation m' = next_connection_generation m ->
    change p m
      (Collect id (Z.land mask (mask - 1))
         (ups ++ omap (collected_update (shard c)) (collect_order (shard c)))) m' [].

(** ** The sections *)

(** A thread that holds a shard whose updates have all been performed. *)
Section Sections.
Context (m : core) (i : Z) (c : Cell).
Context (G : good m) (Hi : 0 <= i) (Hc : cells m !! Z.to_nat i = Some c) (Ho : owed c = []).
Let sh := shard c.

Lemma section_shard_ok : shard_ok i sh.
Proof using G Hi Hc.
  destruct (good_cells _ _ _ _ G _ _ Hc) as [H _]. by rewrite Z2Nat.id in H.
Qed.

Lemma section_queued : queued_total sh <= queued_limit.
Proof using All. eapply good_queued_total; try done. Qed.

Lemma section_act u : shard_index u = i -> act m u = active_by_topic sh !! u.
Proof using Hc. intros E. apply act_cell. by rewrite E. Qed.

Lemma section_pnd b u : shard_index u = i -> pnd m b u = pend b u sh.
Proof using Hc. intros E. apply pnd_cell. by rewrite E. Qed.

(** What remains of the store: a section changes its cell and the permits. *)
Record rest (m' : core) : Prop := {
  rest_foreign : foreign_queued m' = foreign_queued m /\ foreign_active m' = foreign_active m;
  rest_generation : next_connection_generation m' = next_connection_generation m;
  rest_refreshing : refreshing m' = refreshing m;
}.

Lemma good_plain m' sh' h ops :
  cells m' = <[Z.to_nat i := MkCell sh' h ops]> (cells m) -> rest m' ->
  counters m' = counters m -> shard_ok i sh' -> settles (measure sh) (ready sh) ops sh' -> good m'.
Proof using All.
  intros Ec [[F1 F2] Hg _] Hk Hok S. eapply good_section_plain; try done. by rewrite Z2Nat.id.
Qed.

Lemma views_removed m' sh' h ops P :
  cells m' = <[Z.to_nat i := MkCell sh' h ops]> (cells m) -> removes P sh sh' ->
  (forall b u q, shard_index u <> i -> P b u q = false) ->
  (forall u, act m' u = act m u) /\ dropped P m m'.
Proof using All.
  intros Ec R HP. split.
  - eapply (act_update m m' i c _ Hi Hc Ec (fun _ o => o)); [|done]. intros u. simpl.
    by rewrite (removes_active _ _ _ R).
  - intros b u. eapply (pnd_update m m' i c _ Hi Hc Ec
      (fun b u o => match o with Some q => if P b u q then None else Some q | None => None end)).
    + apply (removes_pend _ _ _ R).
    + intros b' u' [q|] Hu; [|done]. by rewrite HP.
Qed.

Lemma updated_section m' sh' h ops t o :
  cells m' = <[Z.to_nat i := MkCell sh' h ops]> (cells m) -> shard_index t = i ->
  (forall u, active_by_topic sh' !! u = if u =? t then o else active_by_topic sh !! u) ->
  updated m m' t o.
Proof using All.
  intros Ec Ht E. unfold updated. eapply (act_update m m' i c _ Hi Hc Ec (fun u x => if u =? t then o else x)).
  - done.
  - intros u x Hu. destruct (Z.eqb_spec u t) as [->|]; [done|done].
Qed.

Lemma lookup_update t a (A : gmap Z ActiveSubscription) u :
  <[t := a]> A !! u = if u =? t then Some a else A !! u.
Proof.
  destruct (Z.eqb_spec u t) as [->|]; [by rewrite lookup_insert_eq|by rewrite lookup_insert_ne].
Qed.

Lemma lookup_remove t (A : gmap Z ActiveSubscription) u :
  delete t A !! u = if u =? t then None else A !! u.
Proof.
  destruct (Z.eqb_spec u t) as [->|]; [by rewrite lookup_delete_eq|by rewrite lookup_delete_ne].
Qed.

Lemma same_section m' h ops :
  cells m' = <[Z.to_nat i := MkCell sh h ops]> (cells m) -> same_views m m'.
Proof using All. intros Ec. by eapply (views_update m m' i c _ Hi Hc Ec). Qed.

Lemma kept_section m' sh' h ops :
  cells m' = <[Z.to_nat i := MkCell sh' h ops]> (cells m) -> pending sh' = pending sh ->
  kept_pnd m m'.
Proof using All.
  intros Ec E. unfold kept_pnd. eapply (pnd_update m m' i c _ Hi Hc Ec (fun _ _ o => o)); [|done].
  intros b u. unfold pend. simpl. by rewrite E.
Qed.

End Sections.

(** A step that succeeds, keeps the counters exact and is a [change]. *)
Definition does (p : pc) (m : core) (e : effect) : Prop :=
  exists r, e = Done (Some r) /\ good (next_mem r)
            /\ change p m (next_pc r) (next_mem r) (next_events r).

Section Work.
Context (t : nat) (f : option XllError) (m : core) (i : Z) (c : Cell).
Context (G : good m) (Hi : 0 <= i) (Hc : cells m !! Z.to_nat i = Some c) (Ho : owed c = []).
Let sh := shard c.
Abbreviation run_step := (run_step pw queued_limit active_limit).

Lemma work_reserve k : shard_index (k_topic k) = i ->
  does (Held (Reserve k)) m (run_step t f (Held (Reserve k)) m).
Proof using All.
  intros Ek. pose proof (section_shard_ok m i c G Hi Hc) as Hok. fold sh in Hok.
  unfold does. simpl. unfold with_cell. rewrite Ek, Hc. fold sh.
  destruct (reserve_connection _ _ _ _ _) as [[sh' ok] r] eqn:E.
  pose proof (reserve_ok pw i _ _ _ _ _ _ _ _ Hok Ek E) as [(-> & -> & Er)|(-> & Ha & -> & En & Es & Hok' & S)].
  - destruct r as [[]|e]; [done|]. eexists. split; [done|]. cbn [next_mem next_pc next_events].
    split.
    + eapply (good_plain m i c); try done. by eapply settles_nil.
    + eapply ch_same; try done; [by eapply same_section|by left..].
  - eexists. split; [done|]. cbn [next_mem next_pc next_events]. split.
    + eapply (good_section _ _ _ m _ _ c sh' None [] 0 1); try done; rewrite ?Z2Nat.id by done; try done.
      * by rewrite Z.add_0_r.
      * lia.
      * right. unfold admits_active in Ha. lia.
    + eapply ch_reserved; try done.
      * rewrite (section_act m i c); done.
      * eapply updated_section; try done. intros u. subst sh'. simpl. apply lookup_update.
      * eapply kept_section; try done. by subst sh'.
Qed.

Lemma observed_section k : shard_index (k_topic k) = i ->
  option_max (sequence_of First (k_topic k) (k_generation k) sh)
             (sequence_of Second (k_topic k) (k_generation k) sh) = observed_by m k.
Proof using Hc.
  intros Ek. unfold observed_by, sequence_of. by rewrite !(section_pnd m i c) by done.
Qed.

Lemma work_install k : shard_index (k_topic k) = i ->
  does (Held (Install k)) m (run_step t f (Held (Install k)) m).
Proof using All.
  intros Ek. pose proof (section_shard_ok m i c G Hi Hc) as Hok. fold sh in Hok.
  unfold does. simpl. unfold with_cell. rewrite Ek, Hc. fold sh.
  assert (good (unlock_with i sh m)) as G'.
  { eapply (good_plain m i c); try done. by eapply settles_nil. }
  assert (same_views m (unlock_with i sh m)) as V by (by eapply same_section).
  unfold install_connection. destruct (active_by_topic sh !! k_topic k) as [a|] eqn:Ha.
  - destruct (Z.eqb_spec (generation a) (k_generation k)) as [Eg|Eg]; simpl.
    + eexists. split; [done|]. split; [done|]. rewrite observed_section by done.
      eapply ch_installed; try done. rewrite (section_act m i c); done.
    + eexists. split; [done|]. split; [done|]. eapply ch_same; try done; [simpl; by eexists|by left].
  - eexists. split; [done|]. split; [done|]. eapply ch_same; try done; [simpl; by eexists|by left].
Qed.

Lemma work_prune k v obs : shard_index (k_topic k) = i ->
  does (Held (CommitRemove k v obs)) m (run_step t f (Held (CommitRemove k v obs)) m).
Proof using All.
  intros Ek. pose proof (section_shard_ok m i c G Hi Hc) as Hok. fold sh in Hok.
  unfold does. simpl. unfold with_cell. rewrite Ek, Hc. fold sh.
  destruct (active_by_topic sh !! k_topic k) as [a|] eqn:Ha.
  - destruct (Z.eqb_spec (generation a) (k_generation k)) as [Eg|Eg].
    + destruct (commit_removals_ok pw i _ _ obs sh a Hok Ha Eg) as (sh' & ops & E & Hok' & S & R).
      rewrite E. simpl. eexists. split; [done|]. cbn [next_mem next_pc next_events]. split.
      * by eapply (good_plain m i c).
      * eapply (ch_pruned _ _ k v obs a); try done; [by rewrite (section_act m i c)| |].
        all: eapply views_removed; try done; intros b u q Hu; simpl;
          by rewrite (proj2 (Z.eqb_neq _ _)) by congruence.
    + unfold commit_removals. rewrite Ha, (proj2 (Z.eqb_neq _ _) Eg). simpl.
      eexists. split; [done|]. cbn [next_mem next_pc next_events]. split.
      * eapply (good_plain m i c); try done. by eapply settles_nil.
      * eapply ch_same; try done; [by eapply same_section|simpl; by eexists|by left].
  - unfold commit_removals. rewrite Ha. simpl.
    eexists. split; [done|]. cbn [next_mem next_pc next_events]. split.
    + eapply (good_plain m i c); try done. by eapply settles_nil.
    + eapply ch_same; try done; [by eapply same_section|simpl; by eexists|by left].
Qed.

Lemma work_commit_install k obs a : shard_index (k_topic k) = i ->
  act m (k_topic k) = Some a -> generation a = k_generation k -> committed a = false ->
  (forall b q, pnd m b (k_topic k) = Some q -> through obs q = false) ->
  does (Held (CommitInstall k obs)) m (run_step t f (Held (CommitInstall k obs)) m).
Proof using All.
  intros Ek Ha Eg Hcm Hnew. pose proof (section_shard_ok m i c G Hi Hc) as Hok. fold sh in Hok.
  unfold does. simpl. unfold with_cell. rewrite Ek, Hc. fold sh.
  assert (active_by_topic sh !! k_topic k = Some a) as Ha' by (by rewrite <- (section_act m i c)).
  pose proof (section_queued m i c G Hi Hc Ho) as Hq. fold sh in Hq.
  destruct (commit_install_ok pw i (k_topic k) obs sh a Hok Ha' Hcm) as (ops & E & Hok' & S).
  { intros b q. rewrite <- (section_pnd m i c) by done. apply Hnew. }
  { lia. }
  rewrite <- Eg, E. simpl. eexists. split; [done|]. cbn [next_mem next_pc next_events]. split.
  - by eapply (good_plain m i c).
  - eapply ch_committed; try done.
    + eapply updated_section; try done. intros u. simpl. apply lookup_update.
    + by eapply kept_section.
Qed.


Lemma withdraw_views t' a sh1 h ops m' :
  shard_index t' = i -> cells m' = <[Z.to_nat i := MkCell (withdraw t' a sh1) h ops]> (cells m) ->
  removes (fun _ u _ => u =? t') sh sh1 ->
  updated m m' t' None /\ dropped (fun _ u _ => u =? t') m m'.
Proof using All.
  intros Et Ec R. split.
  - eapply updated_section; try done. intros u. simpl. rewrite (removes_active _ _ _ R).
    apply lookup_remove.
  - unfold dropped. eapply (pnd_update m m' i c _ Hi Hc Ec
      (fun b u o => match o with Some q => if u =? t' then None else Some q | None => None end)).
    + apply (removes_pend _ _ _ R).
    + intros b u [q|] Hu; [|done]. by rewrite (proj2 (Z.eqb_neq _ _)) by congruence.
Qed.

Lemma work_rollback k r : shard_index (k_topic k) = i ->
  (forall u a, act m u = Some a -> generation a = k_generation k ->
     u = k_topic k /\ id a = k_id k) ->
  does (Held (Rollback k r)) m (run_step t f (Held (Rollback k r)) m).
Proof using All.
  intros Ek Hown. pose proof (section_shard_ok m i c G Hi Hc) as Hok. fold sh in Hok.
  unfold does. simpl. unfold with_cell. rewrite Ek, Hc. fold sh.
  assert (owns (k_topic k) (k_id k) (k_generation k) sh) as Ho'.
  { intros u a Ha. apply Hown. rewrite (section_act m i c); [done..|].
    apply (actives_ok _ _ _ Hok u a Ha). }
  destruct (rollback_ok pw i _ _ _ sh Hok Ho') as [[_ E]|(a & sh1 & ops & Ha & Eg & E & R & Hok' & S)].
  - rewrite E. simpl. eexists. split; [done|]. cbn [next_mem next_pc next_events]. split.
    + eapply (good_plain m i c); try done. by eapply settles_nil.
    + eapply ch_same; try done; [by eapply same_section|simpl; by eexists|by left].
  - rewrite E. simpl. eexists. split; [done|]. cbn [next_mem next_pc next_events]. split.
    + by eapply (good_plain m i c).
    + eapply ch_withdrawn; try done; [rewrite (section_act m i c); done|..].
      1,2: eapply withdraw_views; done.
      right. by exists k, Settled.
Qed.

Lemma work_disconnect t' : shard_index t' = i ->
  does (Held (Disconnect t')) m (run_step t f (Held (Disconnect t')) m).
Proof using All.
  intros Et. pose proof (section_shard_ok m i c G Hi Hc) as Hok. fold sh in Hok.
  unfold does. simpl. unfold with_cell. rewrite Et, Hc. fold sh.
  destruct (disconnect_ok pw i t' sh Hok) as [[_ E]|(a & sh1 & ops & Ha & E & R & Hok' & S)].
  - rewrite E. simpl. eexists. split; [done|]. cbn [next_mem next_pc next_events]. split.
    + eapply (good_plain m i c); try done. by eapply settles_nil.
    + eapply ch_same; try done; [by eapply same_section|by left..].
  - rewrite E. simpl. eexists. split; [done|]. cbn [next_mem next_pc next_events]. split.
    + by eapply (good_plain m i c).
    + eapply ch_withdrawn; try done; [rewrite (section_act m i c); done|..].
      1,2: eapply withdraw_views; done.
      by left.
Qed.

Lemma work_retire u ups o : shard_index (u_topic u) = i ->
  does (Held (RetireUpdate u ups o)) m (run_step t f (Held (RetireUpdate u ups o)) m).
Proof using All.
  intros Et. pose proof (section_shard_ok m i c G Hi Hc) as Hok. fold sh in Hok.
  unfold does. simpl. unfold with_cell. rewrite Et, Hc. fold sh.
  destruct (retire_ok pw i u (r_outcome o) sh Hok) as (sh1 & sh' & ops & E & R & Hok' & S & Ep & _ & Ha).
  rewrite E. simpl. eexists. split; [done|]. cbn [next_mem next_pc next_events]. split.
  - by eapply (good_plain m i c).
  - eapply ch_retired; try done.
    + rewrite (section_act m i c) by done. fold sh. destruct (active_by_topic sh !! u_topic u) as [a|].
      * destruct Ha as (a' & Hr & Ea). exists a'. split; [done|].
        eapply updated_section; try done. intros x. rewrite Ea. apply lookup_update.
      * eapply (act_update m (keep_with t i sh' ops m) i c (MkCell sh' (Some t) ops) Hi Hc eq_refl (fun _ x => x)); [|done].
        intros x. simpl. by rewrite Ha.
    + unfold dropped. eapply (pnd_update m (keep_with t i sh' ops m) i c (MkCell sh' (Some t) ops) Hi Hc eq_refl
        (fun b x q => match q with Some q => if retire_through u (r_outcome o) b x q then None else Some q
                      | None => None end)).
      * intros b x. simpl. rewrite <- (removes_pend _ _ _ R). unfold pend. by rewrite Ep.
      * intros b x [q|] Hx; [|done]. unfold retire_through.
        rewrite (proj2 (Z.eqb_neq x (u_topic u))) by congruence. by rewrite andb_false_r.
Qed.

Lemma good_taken m' sh' h ops (permit : bool) :
  cells m' = <[Z.to_nat i := MkCell sh' h ops]> (cells m) ->
  counters m' = counters (if permit then take_queued 1 m else m) ->
  rest m m' -> (permit = true -> admits_queued queued_limit m = true) -> shard_ok i sh' ->
  settles (if permit then acquired_queued (measure sh) else measure sh) (ready sh) ops sh' ->
  good m'.
Proof using All.
  intros Ec Hk R Hp Hok S. destruct permit.
  - destruct R as [[F1 F2] Hg _]. specialize (Hp eq_refl). unfold admits_queued in Hp.
    eapply (good_section _ _ _ m m' (Z.to_nat i) c sh' h ops 1 0); try done;
      rewrite ?Z2Nat.id by done; try done; try lia.
    rewrite Hk. simpl. by rewrite Z.add_0_r.
  - by eapply (good_plain m i c).
Qed.

Lemma work_commit b v e : shard_index (p_topic b) = i ->
  does (Held (Commit b v e)) m (run_step t f (Held (Commit b v e)) m).
Proof using All.
  intros Et. pose proof (section_shard_ok m i c G Hi Hc) as Hok. fold sh in Hok.
  unfold does. simpl. unfold with_cell. rewrite Et, Hc. fold sh.
  pose proof (section_queued m i c G Hi Hc Ho) as Hq. fold sh in Hq.
  destruct (commit_value_ok pw i (from_epoch e) (p_topic b) (p_generation b) v
    (admits_queued queued_limit m) sh Hok) as (r & E & K & Hok'); [lia|].
  rewrite E. simpl. destruct K; simpl.
  - eexists. split; [done|]. cbn [next_mem next_pc next_events]. split.
    + eapply (good_plain m i c); try done. by eapply settles_nil.
    + eapply ch_same; try done; [by eapply same_section|by left..].
  - eexists. split; [done|]. cbn [next_mem next_pc next_events]. split.
    + eapply (good_plain m i c); try done. by eapply settles_nil.
    + eapply ch_same; try done; [by eapply same_section|by left..].
  - eexists. split; [done|]. cbn [next_mem next_pc next_events]. split.
    + eapply (good_plain m i c); try done.
      destruct (actives_ok _ _ _ Hok _ _ H) as [Hao _].
      destruct (set_active_ok pw i (p_topic b) a (skipped a) sh) as (_ & Em & Er); try done.
      { by apply skipped_ok. }
      { intros b' q Hq'. destruct (pend_active _ _ _ _ _ _ Hok Hq') as (x & Hx & _ & Hs & _).
        by simplify_eq. }
      fold sh. rewrite <- Em, <- Er. by eapply settles_nil.
    + eapply ch_skipped; try done; [by rewrite (section_act m i c)| |].
      * eapply updated_section; try done. intros u. simpl. apply lookup_update.
      * by eapply kept_section.
  - eexists. split; [done|]. cbn [next_mem next_pc next_events]. split.
    + eapply (good_taken _ sh' (Some t) ops permit); try done; destruct permit; done.
    + eapply (ch_stored _ _ b v e a); try done; [by rewrite (section_act m i c)|..].
      * eapply updated_section; try done; [by destruct permit|]. intros u. rewrite H3. apply lookup_update.
      * eapply (pnd_update m (keep_with t i sh' ops (if permit then take_queued 1 m else m))
          i c (MkCell sh' (Some t) ops) Hi Hc ltac:(by destruct permit)
          (fun b' u x => if decide (b' = from_epoch e /\ u = p_topic b)
          then Some (Queued (generation a) (next_sequence a)) else x)).
        -- intros b' u. simpl. rewrite H5, H0. done.
        -- intros b' u x Hu. rewrite decide_False; [done|]. intros [_ ->]. done.
      * by destruct permit.
      * by destruct permit.
Qed.

End Work.


(** ** The connection transactions

    A generation is drawn once, so a transaction owns the connection that
    carries it; what it has not committed stays uncommitted. *)
Record conns (s : config) : Prop := {
  c_active : forall u a, act (mem s) u = Some a ->
    generation a < next_connection_generation (mem s);
  c_bound : forall t p k st, threads s !! t = Some p -> conn_at p = Some (k, st) ->
    k_generation k < next_connection_generation (mem s);
  c_distinct : forall t t' p p' k k' st st', t <> t' ->
    threads s !! t = Some p -> threads s !! t' = Some p' ->
    conn_at p = Some (k, st) -> conn_at p' = Some (k', st') -> k_generation k <> k_generation k';
  c_fresh : forall t p k, threads s !! t = Some p -> conn_at p = Some (k, Fresh) ->
    forall u a, act (mem s) u = Some a -> generation a <> k_generation k;
  c_owns : forall t p k st, threads s !! t = Some p -> conn_at p = Some (k, st) ->
    forall u a, act (mem s) u = Some a -> generation a = k_generation k ->
    u = k_topic k /\ id a = k_id k;
  c_open : forall t p k st, threads s !! t = Some p -> conn_at p = Some (k, st) -> st <> Settled ->
    forall u a, act (mem s) u = Some a -> generation a = k_generation k -> committed a = false;
  c_pruned : forall t p k obs, threads s !! t = Some p -> conn_at p = Some (k, Pruned obs) ->
    exists a, act (mem s) (k_topic k) = Some a /\ generation a = k_generation k
              /\ forall b q, pnd (mem s) b (k_topic k) = Some q -> through obs q = false;
  c_kept : forall t k obs, threads s !! t <> Some (Locking (CommitInstall k obs));
}.

(** ** Steps *)
Lemma value_step t a p m r :
  thread_step t a p m = Done (Some r) ->
  conn_value (next_pc r) = None \/ conn_value (next_pc r) = conn_value p
  \/ exists k, p = Held (Install k).
Proof.
  intros H. destruct a as [o|f|], p; try done; try (destruct o; try done); steps H.
  all: try (left; done); try (right; left; done); try (right; right; by eexists).
  all: unfold continue, fail_with, retire_next, enter; repeat case_match; left; done.
Qed.

Lemma same_data_good m m' : good m -> same_data m m' -> good m'.
Proof.
  intros [G1 G2 G3 G4 G5 G6 G7 G8 G9] [E1 E2 E3 E4 E5].
  split; rewrite ?E1, ?E2, ?E3, ?E4, ?E5; done.
Qed.

Lemma good_foreign_step m m' dq da :
  good m -> cells m' = cells m ->
  next_connection_generation m' = next_connection_generation m ->
  counters m' = MkCounters (pending_updates (counters m)) (deliverable_pending (counters m))
                  (ready_shards (counters m)) (queued_used (counters m) + dq)
                  (active_used (counters m) + da) ->
  foreign_queued m' = foreign_queued m + dq -> foreign_active m' = foreign_active m + da ->
  (0 <= foreign_queued m -> 0 <= foreign_queued m + dq) ->
  (0 <= foreign_active m -> 0 <= foreign_active m + da) ->
  dq <= 0 \/ queued_used (counters m) + dq <= queued_limit ->
  da <= 0 \/ active_used (counters m) + da <= active_limit ->
  good m'.
Proof.
  intros [G1 G2 G3 G4 G5 G6 G7 G8 G9] E1 E2 E3 E4 E5 Hq Ha Lq La.
  split; rewrite ?E1, ?E2, ?E3, ?E4, ?E5; simpl; try done; lia.
Qed.

Lemma good_generation_step m : good m ->
  good (set_generation (next_connection_generation m + 1) m).
Proof. intros [G1 G2 G3 G4 G5 G6 G7 G8 G9]. split; simpl; try done; lia. Qed.

(** The sections, in a reachable state. *)
Lemma work_does s t f x :
  good (mem s) -> locks s -> conns s -> threads s !! t = Some (Held x) -> working x = true ->
  does (Held x) (mem s) (run_step pw queued_limit active_limit t f (Held x) (mem s)).
Proof using Hlimit.
  intros G L C Ht Hw. destruct (held_cell pw s t _ _ L Ht eq_refl I) as (c & Hc & _ & Ho).
  pose proof (held_range pw (Held x) _ eq_refl eq_refl) as [Hi _].
  destruct x; try done.
  - eapply work_commit; done.
  - eapply work_reserve; done.
  - eapply work_install; done.
  - eapply work_prune; done.
  - destruct (c_pruned _ C _ _ _ _ Ht eq_refl) as (a & Ha & Eg & Hn).
    eapply (work_commit_install t f (mem s) _ c G Hi Hc Ho k obs a); try done.
    by eapply (c_open _ C _ _ _ _ Ht eq_refl).
  - eapply work_rollback; try done. intros u a. by eapply (c_owns _ C _ _ _ _ Ht eq_refl).
  - eapply work_disconnect; done.
  - eapply work_retire; done.
Qed.


Lemma cell_index s t p i c :
  locks s -> threads s !! t = Some p -> shard_held pw p = Some i -> cells (mem s) !! Z.to_nat i = Some c ->
  0 <= i.
Proof. intros L Ht Hi _. eapply held_range; [|done]. by apply (lock_open _ _ L t). Qed.

(** A cell that changes hands keeps the views. *)
Lemma holder_views m m' i c h o :
  0 <= i -> cells m !! Z.to_nat i = Some c ->
  cells m' = <[Z.to_nat i := MkCell (shard c) h o]> (cells m) -> same_views m m'.
Proof. intros Hi Hc Ec. by eapply (views_update m m' i c _ Hi Hc Ec). Qed.

Lemma unlock_cells i m c : cells m !! Z.to_nat i = Some c ->
  cells (unlock i m) = <[Z.to_nat i := MkCell (shard c) None []]> (cells m).
Proof. unfold unlock. by intros ->. Qed.

Lemma unlock_other i m : counters (unlock i m) = counters m /\ rest m (unlock i m).
Proof. unfold unlock. by destruct (cells m !! Z.to_nat i). Qed.

Lemma collect_good m i c sh' ups ups' :
  good m -> 0 <= i -> cells m !! Z.to_nat i = Some c -> owed c = [] ->
  collect_shard_into (shard c) ups = (sh', ups') ->
  good (unlock_with i sh' m)
  /\ (forall u, act (unlock_with i sh' m) u =
        if decide (u ∈ collect_order (shard c)) then collected_active (shard c) u <$> act m u
        else act m u)
  /\ kept_pnd m (unlock_with i sh' m)
  /\ ups' = ups ++ omap (collected_update (shard c)) (collect_order (shard c)).
Proof.
  intros G Hi Hc Ho E. pose proof (section_shard_ok m i c G Hi Hc) as Hok.
  destruct (collect_ok pw i (shard c) Hok ups) as (x & E' & K). rewrite E in E'. injection E' as -> ->.
  destruct (collected_ok pw i (shard c) Hok _ _ K) as (Hok' & Em & Er).
  split_and!; [|..|done].
  - eapply (good_plain m i c); try done. rewrite <- Em, <- Er. by eapply settles_nil.
  - apply (act_update m (unlock_with i x m) i c (MkCell x None []) Hi Hc eq_refl
      (fun u o => if decide (u ∈ collect_order (shard c)) then collected_active (shard c) u <$> o else o)).
    + intros u. simpl. rewrite (collected_actives _ _ _ K). by case_decide.
    + intros u o Hu. rewrite decide_False; [done|]. intros Hin.
      apply (collect_order_spec pw i (shard c) Hok) in Hin as (b & q & Hq).
      destruct (pend_active _ _ _ _ _ _ Hok Hq) as (a & Ha & _).
      destruct (actives_ok _ _ _ Hok _ _ Ha) as [_ ?]. done.
  - eapply (kept_section m i c); try done. apply (collected_pending _ _ _ K).
Qed.

Lemma step_change s t a s' es :
  good (mem s) -> locks s -> conns s -> step t a s = Done (Some (s', es)) ->
  sealed (mem s') = false ->
  good (mem s') /\ exists p p', threads s !! t = Some p /\ s' = Config (mem s') (<[t := p']> (threads s))
                   /\ change p (mem s) p' (mem s') es.
Proof using Hlimit.
  intros G L C H Hs. destruct (step_inv _ _ _ _ _ _ _ _ H) as (p & r & Ht & E & -> & ->). simpl in Hs.
  pose proof (lock_open _ _ L _ _ Ht) as Hp. pose proof (value_step _ _ _ _ _ E) as Hv.
  pose proof (step_shape _ _ _ _ _ _ _ _ E Hp Hs) as S. destruct r as [p' m' es'].
  cbn [mem next_pc next_mem next_events] in *.
  cut (good m' /\ change p (mem s) p' m' es'); [intros [? ?]; split; [done|by exists p, p']|].
  assert ((exists x, p = Held x /\ working x = true) \/ forall x, p = Held x -> working x = false)
    as [(x & -> & Hw)|Hn].
  { destruct p; try (right; done). destruct (working s0) eqn:?; [left; eauto|right; by intros y [= <-]]. }
  { destruct a as [o|f|]; [by destruct o; simpl in E; repeat case_match| |done].
    destruct (work_does s t f x G L C Ht Hw) as (r & Er & G' & K).
    change (thread_step t (Run f) (Held x) (mem s)) with (run_step pw queued_limit active_limit t f (Held x) (mem s)) in E.
    rewrite E in Er. injection Er as <-. by split. }
  assert (conn_value p' = None \/ conn_value p' = conn_value p) as Hv'.
  { destruct Hv as [?|[?|[k ->]]]; [by left|by right|]. by specialize (Hn _ eq_refl). }
  assert (forall u ups c, p <> Held (RetireUpdate u ups c)) as Hnr
    by (intros u ups c ->; by specialize (Hn _ eq_refl)).
  inversion S; subst; clear S.
  - split; [by eapply same_data_good|]. destruct H0. eapply ch_same; try done.
    by apply same_views_cells.
  - pose proof (held_range pw (Held s0) _ eq_refl eq_refl) as [Hi _].
    split; [eapply (good_holder _ _ _ _ _ _ c); done|].
    eapply ch_same; try done; [by eapply holder_views|unfold conn_keeps; simpl; destruct s0; simpl; eauto
      |unfold batch_keeps; simpl; destruct s0; eauto].
  - split; [done|]. by eapply ch_same.
  - destruct (held_cell pw s t p i L Ht H0 H2) as (c & Hc & Hh & Ho).
    pose proof (cell_index _ _ _ _ _ L Ht H0 Hc) as Hi. destruct (unlock_other i (mem s)) as [Ek R].
    split.
    + eapply (good_holder _ _ _ _ (unlock i (mem s)) _ c None); try done; try apply R.
      rewrite Ho. by apply unlock_cells.
    + eapply ch_same; try done; try apply R.
      eapply holder_views; try done. by apply unlock_cells.
  - by rewrite (Hn _ eq_refl) in H1.
  - assert (0 <= counted_shard pw c) as Hi
      by apply (held_range pw (Counting c) _ Hp eq_refl).
    replace (counted_shard pw c) with (Z.of_nat (Z.to_nat (counted_shard pw c))) in H3 |- * by lia.
    pose proof (count_exact_op _ _ _ Hlimit t (mem s) _ x o ops G H1 H2) as Ex.
    rewrite Ex in H3. injection H3 as <-. split; [by apply good_count|].
    eapply ch_same; try done.
    + eapply (holder_views _ _ (counted_shard pw c) x (Some t) ops); try done.
      unfold keep_with, set_cell, set_counters. simpl. by rewrite Nat2Z.id.
    + unfold conn_keeps. destruct (conn_at (Counting c)) as [[? []]|]; eauto.
    + unfold batch_keeps. destruct (batch_at (Counting c)) as [[? ?]|]; eauto.
  - assert (0 <= i) as Hi by apply Z.log2_nonneg.
    destruct (collect_shard_into (shard c) ups) as [sh' ups'] eqn:Ec. simpl.
    pose proof (lock_free _ _ L _ _ H2 H3) as Ho.
    destruct (collect_good _ i c sh' ups ups' G Hi H2 Ho Ec) as (G' & Ha & Hk & ->).
    split; [done|]. eapply ch_collected; try done. by apply (section_shard_ok (mem s)).
  - split; [by eapply same_data_good|]. destruct H1. eapply ch_begin; try done. by apply same_views_cells.
  - split; [by eapply same_data_good|]. destruct H3. eapply ch_finish; try done. by apply same_views_cells.
  - split; [done|]. by eapply ch_lost.
  - split; [by apply good_generation_step|]. by eapply ch_generation.
  - split; [by eapply good_foreign_step|]. eapply ch_same; try done; [by apply same_views_cells|by left..].
Qed.


(** ** What the connections see of a change *)

(** Where a connection of the new state comes from. *)
Inductive origin (p : pc) (m : core) (p' : pc) (u : Z) (a' : ActiveSubscription) : Prop :=
| origin_old a :
    act m u = Some a -> generation a' = generation a -> id a' = id a ->
    committed a' = committed a
    \/ (exists k obs, p = Held (CommitInstall k obs) /\ generation a = k_generation k
                      /\ conn_at p' = Some (k, Settled)) ->
    origin p m p' u a'
| origin_new k :
    p = Held (Reserve k) -> p' = ConnSubscribe k -> u = k_topic k ->
    a' = fresh_active (k_id k) (k_generation k) -> origin p m p' u a'.

Lemma origin_same p m p' u a : act m u = Some a -> origin p m p' u a.
Proof. intros H. eapply origin_old; try done. by left. Qed.

Lemma origin_updated p m p' m' t a a' u x :
  updated m m' t (Some a') -> act m t = Some a -> act m' u = Some x ->
  generation a' = generation a -> id a' = id a -> committed a' = committed a ->
  origin p m p' u x.
Proof.
  intros U Ha E Hg Hi Hcm. rewrite U in E. destruct (Z.eqb_spec u t) as [->|].
  - injection E as <-. eapply origin_old; try done. by left.
  - by apply origin_same.
Qed.

Lemma collect_order_act m i c u :
  cells m !! Z.to_nat i = Some c -> shard_ok i (shard c) -> u ∈ collect_order (shard c) ->
  shard_index u = i /\ act m u = active_by_topic (shard c) !! u
  /\ exists b q, pend b u (shard c) = Some q.
Proof.
  intros Hc Hok Hu. destruct (collect_order_spec pw i (shard c) Hok) as [_ Hs].
  destruct (proj1 (Hs u) Hu) as (b & q & Hq).
  destruct (pend_active _ _ _ _ _ _ Hok Hq) as (x & Hx & _).
  destruct (actives_ok _ _ _ Hok _ _ Hx) as [_ Hi]. split_and!; [done| |eauto].
  apply act_cell. by rewrite Hi.
Qed.

Lemma change_origin p m p' m' es u a' :
  change p m p' m' es -> act m' u = Some a' -> origin p m p' u a'.
Proof.
  intros C E. inversion C; subst; clear C.
  - apply origin_same. by rewrite <- (same_act _ _ H).
  - apply origin_same. by rewrite <- (same_act _ _ H0).
  - apply origin_same. by rewrite <- (same_act _ _ H2).
  - by apply origin_same.
  - apply origin_same. by rewrite <- (same_act _ _ H2).
  - rewrite H1 in E. destruct (Z.eqb_spec u (k_topic k)) as [->|]; [|by apply origin_same].
    injection E as <-. by eapply origin_new.
  - apply origin_same. by rewrite <- (same_act _ _ H3).
  - by eapply origin_updated.
  - by eapply origin_updated.
  - apply origin_same. by rewrite <- H2.
  - rewrite H4 in E. destruct (Z.eqb_spec u (k_topic k)) as [->|]; [|by apply origin_same].
    injection E as <-. eapply origin_old; try done. right. by exists k, obs.
  - rewrite H0 in E. destruct (u =? t); [done|by apply origin_same].
  - destruct (act m (u_topic u0)) as [a|] eqn:Ha.
    + destruct H0 as (x & R & U). destruct R as [[? ? ? ? ? ? ?] _]. by eapply origin_updated.
    + apply origin_same. by rewrite <- H0.
  - rewrite H4 in E. case_decide; [|by apply origin_same].
    destruct (act m u) as [a|] eqn:Ha; [|done]. injection E as <-.
    assert (settled_slots a (collected_active (shard c) u a)) as [? ? ? ? ? ? ?].
    { apply (collected_settled pw _ _ H3).
      destruct (collect_order_act m _ c u H2 H3 H) as (_ & <- & _). done. }
    eapply origin_old; try done. by left.
Qed.

Lemma change_generation p m p' m' es : change p m p' m' es ->
  next_connection_generation m <= next_connection_generation m'.
Proof. destruct 1; lia. Qed.

(** Where the transaction of a thread comes from. *)
Inductive stage_step (p : pc) (m : core) (p' : pc) (m' : core) (k : connection) : stage -> Prop :=
| stage_same st : conn_at p = Some (k, st) -> same_views m m' -> stage_step p m p' m' k st
| stage_settled st : conn_at p = Some (k, st) -> stage_step p m p' m' k Settled
| stage_drawn :
    k_generation k = next_connection_generation m ->
    next_connection_generation m' = next_connection_generation m + 1 -> same_views m m' ->
    stage_step p m p' m' k Fresh
| stage_reserved : p = Held (Reserve k) -> stage_step p m p' m' k Reserved
| stage_pruned v obs a :
    p = Held (CommitRemove k v obs) -> act m (k_topic k) = Some a ->
    generation a = k_generation k -> (forall u, act m' u = act m u) ->
    dropped (fun _ u q => (u =? k_topic k) && through obs q) m m' ->
    stage_step p m p' m' k (Pruned obs).

Lemma keeps_stage p m p' m' k st : conn_keeps p p' -> conn_at p' = Some (k, st) ->
  same_views m m' \/ st = Settled -> stage_step p m p' m' k st.
Proof.
  unfold conn_keeps. intros Hk E V. rewrite E in Hk.
  destruct st; [destruct Hk as [?|Hk]; [done|]; destruct V; [by apply stage_same|done]..|].
  destruct Hk as [st Hk]. by eapply stage_settled.
Qed.

Lemma change_stage p m p' m' es k st :
  change p m p' m' es -> conn_at p' = Some (k, st) -> stage_step p m p' m' k st.
Proof.
  intros C E. inversion C; subst; clear C; try done; try congruence.
  - eapply keeps_stage; eauto.
  - destruct H0 as [?| ->]; [congruence|]. injection E as <- <-. by apply stage_drawn.
  - injection E as <- <-. by apply stage_reserved.
  - injection E as <- <-. by eapply stage_same.
  - injection E as <- <-. by eapply stage_pruned.
  - rewrite H6 in E. injection E as <- <-. by eapply stage_settled.
  - destruct H2 as [?|(k' & s & E1 & E2)]; [congruence|]. rewrite E2 in E. injection E as <- <-.
    by eapply stage_settled.
Qed.


(** A shard held by one thread is not changed by another. *)
Lemma frame_step s t a s' es t' p' j :
  locks s -> step t a s = Done (Some (s', es)) -> sealed (mem s') = false -> t' <> t ->
  threads s !! t' = Some p' -> shard_held pw p' = Some j ->
  cells (mem s') !! Z.to_nat j = cells (mem s) !! Z.to_nat j.
Proof.
  intros L H Hs Hne Ht' Hj. destruct (step_inv _ _ _ _ _ _ _ _ H) as (p & r & Ht & E & -> & ->). simpl in Hs.
  pose proof (lock_open _ _ L _ _ Ht) as Hp. pose proof (step_shape _ _ _ _ _ _ _ _ E Hp Hs) as S.
  destruct (lock_held _ _ L _ _ _ Ht' Hj) as (c & Hc & Hh & _).
  assert (forall i d, cells (mem s) !! Z.to_nat i = Some d -> holder d = None -> Z.to_nat i <> Z.to_nat j)
    as Hfree by (intros i d Hd Hn E'; rewrite E' in Hd; congruence).
  assert (forall i, shard_held pw p = Some i -> Z.to_nat i <> Z.to_nat j) as Hheld.
  { intros i Hpi E'. destruct (lock_held _ _ L _ _ _ Ht Hpi) as (d & Hd & Hdh & _).
    rewrite E' in Hd. congruence. }
  destruct r as [q m' es']. cbn [mem next_pc next_mem next_events] in *. inversion S; subst; clear S.
  - by destruct H0 as [-> _ _ _ _].
  - simpl. apply list_lookup_insert_ne. by eapply Hfree.
  - done.
  - unfold unlock. destruct (cells (mem s) !! Z.to_nat i); [|done]. simpl.
    apply list_lookup_insert_ne. by apply Hheld.
  - destruct a as [o|f|]; [by destruct o; simpl in E; repeat case_match| |done].
    destruct (section_cell _ _ _ _ _ _ _ _ E H1) as (sh & ops & [(_ & _ & Ec)|(_ & _ & Ec)]); simpl in Ec; rewrite Ec.
    all: apply list_lookup_insert_ne; by apply Hheld.
  - simpl. apply list_lookup_insert_ne. by apply (Hheld (counted_shard pw c0)).
  - simpl. apply list_lookup_insert_ne. by eapply Hfree.
  - by destruct H1 as [-> _ _ _ _].
  - by destruct H3 as [-> _ _ _ _].
  - done.
  - done.
  - by rewrite H1.
Qed.

Lemma pruned_step t a p m r k obs :
  thread_step t a p m = Done (Some r) -> next_pc r <> Locking (CommitInstall k obs).
Proof.
  intros H. destruct a as [o|f|], p; try done; try (destruct o; try done); steps H; try done.
  all: unfold continue, fail_with, retire_next, enter; repeat case_match; done.
Qed.

Lemma pruned_held p k obs : conn_at p = Some (k, Pruned obs) ->
  (forall k obs, p <> Locking (CommitInstall k obs)) ->
  shard_held pw p = Some (shard_index (k_topic k)).
Proof.
  destruct p; try done; simpl; try (destruct k0; done).
  - destruct s; try done. intros _ H. by edestruct H.
  - destruct s; try done. by intros [= <- <-].
  - destruct c; try done. by intros [= <- <-].
Qed.


(** ** The connection invariant is kept *)
Section ConnStep.
Context (s s' : config) (t : nat) (p p' : pc) (es : list event).
Context (C : conns s) (Ht : threads s !! t = Some p) (Et : threads s' = <[t := p']> (threads s)).
Context (K : change p (mem s) p' (mem s') es).

Lemma thread_cases t' q : threads s' !! t' = Some q ->
  (t' = t /\ q = p') \/ (t' <> t /\ threads s !! t' = Some q).
Proof using Ht Et.
  rewrite Et. destruct (decide (t' = t)) as [->|].
  - rewrite list_lookup_insert_eq by (by eapply lookup_lt_Some). intros [= <-]. by left.
  - rewrite list_lookup_insert_ne by done. by right.
Qed.

(** The transaction of the stepping thread is an old one, or draws its
    generation. *)
Lemma stage_old k st : conn_at p' = Some (k, st) ->
  (exists st0, conn_at p = Some (k, st0) /\ (st = Settled \/ st <> Fresh /\ p = Held (Reserve k)
                \/ (st <> Settled -> st0 <> Settled /\ (forall u, act (mem s') u = act (mem s) u))
                   /\ (st = Fresh -> st0 = Fresh)))
  \/ (k_generation k = next_connection_generation (mem s) /\ st = Fresh
      /\ next_connection_generation (mem s') = next_connection_generation (mem s) + 1
      /\ same_views (mem s) (mem s')).
Proof using K.
  intros Hk. destruct (change_stage _ _ _ _ _ _ _ K Hk) as [st E V|st E|Eg En V|E|v obs a E Ha Eg U D].
  - left. exists st. split; [done|]. right. right. split; [|done]. intros Hs. split; [done|]. apply V.
  - left. exists st. eauto.
  - by right.
  - left. exists Fresh. rewrite E. split; [done|]. right. by left.
  - left. exists Reserved. rewrite E. split; [done|]. right. right. done.
Qed.

Lemma keep_active u a : act (mem s') u = Some a ->
  generation a < next_connection_generation (mem s').
Proof using All.
  intros Ha. pose proof (change_generation _ _ _ _ _ K).
  destruct (change_origin _ _ _ _ _ _ _ K Ha) as [a0 Ha0 -> _ _|k E _ _ ->].
  - pose proof (c_active _ C _ _ Ha0). lia.
  - rewrite E in Ht. pose proof (c_bound _ C _ _ _ _ Ht eq_refl). simpl. lia.
Qed.

Lemma keep_bound t' q k st : threads s' !! t' = Some q -> conn_at q = Some (k, st) ->
  k_generation k < next_connection_generation (mem s').
Proof using All.
  intros Hq Hk. pose proof (change_generation _ _ _ _ _ K).
  destruct (thread_cases _ _ Hq) as [[-> ->]|[_ Hq']].
  - destruct (stage_old _ _ Hk) as [(st0 & E & _)|(-> & _ & -> & _)]; [|lia].
    pose proof (c_bound _ C _ _ _ _ Ht E). lia.
  - pose proof (c_bound _ C _ _ _ _ Hq' Hk). lia.
Qed.

Lemma other_generation_kept t' q k k' st st' : t' <> t -> threads s !! t' = Some q ->
  conn_at q = Some (k', st') -> conn_at p' = Some (k, st) -> k_generation k <> k_generation k'.
Proof using All.
  intros Hne Hq Hk' Hk. destruct (stage_old _ _ Hk) as [(st0 & E & _)|(-> & _)].
  - by eapply (c_distinct _ C t t').
  - pose proof (c_bound _ C _ _ _ _ Hq Hk'). lia.
Qed.

Lemma keep_distinct t1 t2 q1 q2 k1 k2 st1 st2 : t1 <> t2 ->
  threads s' !! t1 = Some q1 -> threads s' !! t2 = Some q2 ->
  conn_at q1 = Some (k1, st1) -> conn_at q2 = Some (k2, st2) -> k_generation k1 <> k_generation k2.
Proof using All.
  intros Hne H1 H2 Hk1 Hk2.
  destruct (thread_cases _ _ H1) as [[-> ->]|[Hn1 Hq1]], (thread_cases _ _ H2) as [[-> ->]|[Hn2 Hq2]];
    [done|..].
  - by eapply other_generation_kept.
  - apply not_eq_sym. by eapply other_generation_kept.
  - by eapply (c_distinct _ C t1 t2).
Qed.

Lemma keep_fresh t' q k : threads s' !! t' = Some q -> conn_at q = Some (k, Fresh) ->
  forall u a, act (mem s') u = Some a -> generation a <> k_generation k.
Proof using All.
  intros Hq Hk u a Ha. destruct (thread_cases _ _ Hq) as [[-> ->]|[Hne Hq']].
  - destruct (stage_old _ _ Hk) as [(st0 & E & [?|[[? _]|[Hv Hf]]])|(-> & _ & _ & V)]; try done.
    + destruct (Hv ltac:(done)) as [_ Hu]. rewrite Hu in Ha. rewrite (Hf eq_refl) in E.
      by eapply (c_fresh _ C _ _ _ Ht E).
    + rewrite (same_act _ _ V) in Ha. pose proof (c_active _ C _ _ Ha). lia.
  - destruct (change_origin _ _ _ _ _ _ _ K Ha) as [a0 Ha0 -> _ _|k' E E' _ ->].
    + by eapply (c_fresh _ C _ _ _ Hq' Hk).
    + simpl. eapply (other_generation_kept t' q k' k); try done. by rewrite E'.
Qed.

Lemma keep_owns t' q k st : threads s' !! t' = Some q -> conn_at q = Some (k, st) ->
  forall u a, act (mem s') u = Some a -> generation a = k_generation k ->
  u = k_topic k /\ id a = k_id k.
Proof using All.
  intros Hq Hk u a Ha Eg. destruct (thread_cases _ _ Hq) as [[-> ->]|[Hne Hq']].
  - destruct (stage_old _ _ Hk) as [(st0 & E & _)|(En & _ & _ & V)].
    + destruct (change_origin _ _ _ _ _ _ _ K Ha) as [a0 Ha0 Eg0 -> _|k' E1 E2 -> ->].
      * eapply (c_owns _ C _ _ _ _ Ht E); [done|congruence].
      * rewrite E2 in Hk. injection Hk as <- <-. done.
    + rewrite (same_act _ _ V) in Ha. pose proof (c_active _ C _ _ Ha). lia.
  - destruct (change_origin _ _ _ _ _ _ _ K Ha) as [a0 Ha0 Eg0 -> _|k' E1 E2 -> ->].
    + eapply (c_owns _ C _ _ _ _ Hq' Hk); [done|congruence].
    + exfalso. eapply (other_generation_kept t' q k' k); try done. by rewrite E2.
Qed.

Lemma keep_open t' q k st : threads s' !! t' = Some q -> conn_at q = Some (k, st) -> st <> Settled ->
  forall u a, act (mem s') u = Some a -> generation a = k_generation k -> committed a = false.
Proof using All.
  intros Hq Hk Hst u a Ha Eg.
  destruct (change_origin _ _ _ _ _ _ _ K Ha) as [a0 Ha0 Eg0 _ Hc|k' E1 E2 -> ->]; [|done].
  destruct (thread_cases _ _ Hq) as [[-> ->]|[Hne Hq']].
  - destruct (stage_old _ _ Hk) as [(st0 & E & [?|[[_ ->]|[Hv _]]])|(En & _ & _ & V)]; [done|..].
    + simpl in E. injection E as <-. exfalso.
      eapply (c_fresh _ C _ _ _ Ht eq_refl); [done|congruence].
    + destruct (Hv Hst) as [Hst0 Hu]. rewrite Hu in Ha. by eapply (c_open _ C _ _ _ _ Ht E).
    + rewrite (same_act _ _ V) in Ha. pose proof (c_active _ C _ _ Ha). lia.
  - destruct Hc as [->|(k' & obs & E1 & E2 & E3)].
    + eapply (c_open _ C _ _ _ _ Hq' Hk); [done..|congruence].
    + exfalso. eapply (other_generation_kept t' q k'); try done. congruence.
Qed.


Lemma keep_pruned t' q k obs :
  (forall j, t' <> t -> threads s !! t' = Some q -> shard_held pw q = Some j ->
     cells (mem s') !! Z.to_nat j = cells (mem s) !! Z.to_nat j) ->
  threads s' !! t' = Some q -> conn_at q = Some (k, Pruned obs) ->
  exists a, act (mem s') (k_topic k) = Some a /\ generation a = k_generation k
            /\ forall b x, pnd (mem s') b (k_topic k) = Some x -> through obs x = false.
Proof using All.
  intros Frame Hq Hk. destruct (thread_cases _ _ Hq) as [[-> ->]|[Hne Hq']].
  - assert (stage_step p (mem s) p' (mem s') k (Pruned obs)) as S by (by eapply change_stage).
    inversion S as [st E V| | | |v0 obs0 a E Ha Eg U D]; subst; clear S.
    + destruct (c_pruned _ C _ _ _ _ Ht E) as (a & Ha & Eg & Hn). exists a.
      split_and!; [by rewrite (same_act _ _ V)|done|]. intros b x. rewrite (same_pnd _ _ V). apply Hn.
    + exists a. split_and!; [by rewrite U|done|]. intros b x. rewrite D, Z.eqb_refl. simpl.
      destruct (pnd (mem s) b (k_topic k)) as [y|]; [|done].
      destruct (through obs y) eqn:E; [done|]. by intros [= <-].
  - pose proof (pruned_held q k obs Hk) as Hj.
    specialize (Frame (shard_index (k_topic k)) Hne Hq').
    assert (forall k obs, q <> Locking (CommitInstall k obs)) as Hnl.
    { intros k' obs' ->. by eapply (c_kept _ C). }
    specialize (Frame (Hj Hnl)).
    destruct (c_pruned _ C _ _ _ _ Hq' Hk) as (a & Ha & Eg & Hn).
    exists a. unfold act, pnd. rewrite Frame. done.
Qed.

Lemma keep_kept t' k obs : (forall k obs, p' <> Locking (CommitInstall k obs)) ->
  threads s' !! t' <> Some (Locking (CommitInstall k obs)).
Proof using All.
  intros Hn Hq. destruct (thread_cases _ _ Hq) as [[-> E]|[Hne Hq']].
  - by eapply Hn.
  - by eapply (c_kept _ C).
Qed.

End ConnStep.


Lemma conns_step s t a s' es :
  good (mem s) -> locks s -> conns s -> step t a s = Done (Some (s', es)) ->
  sealed (mem s') = false -> conns s'.
Proof using Hlimit.
  intros G L C H Hs. destruct (step_change s t a s' es G L C H Hs) as [_ (p & p' & Ht & Es & K)].
  assert (threads s' = <[t := p']> (threads s)) as Et by (by rewrite Es).
  assert (forall k obs, p' <> Locking (CommitInstall k obs)) as Hp'.
  { intros k obs. destruct (step_inv _ _ _ _ _ _ _ _ H) as (x & r & Hx & E & Er & _).
    pose proof (pruned_step _ _ _ _ _ k obs E) as Hn. rewrite Er in Et. simpl in Et.
    apply (f_equal (fun l => l !! t)) in Et.
    rewrite !list_lookup_insert_eq in Et by (by eapply lookup_lt_Some). by injection Et as <-. }
  split.
  - by eapply keep_active.
  - by eapply keep_bound.
  - by eapply keep_distinct.
  - by eapply keep_fresh.
  - by eapply keep_owns.
  - by eapply keep_open.
  - intros t' q k obs. eapply keep_pruned; try done. intros j. by eapply frame_step.
  - intros t' k obs. by eapply keep_kept.
Qed.

(** ** Reachable states *)
Record invariant (s : config) : Prop := {
  inv_good : good (mem s);
  inv_locks : locks s;
  inv_conns : conns s;
}.

Lemma invariant_step s t a s' es :
  invariant s -> step t a s = Done (Some (s', es)) -> sealed (mem s') = false -> invariant s'.
Proof using Hlimit.
  intros [G L C] H Hs. split.
  - by destruct (step_change s t a s' es G L C H Hs).
  - by eapply locks_step.
  - by eapply conns_step.
Qed.

Lemma initial_idle n t p : threads (initial n) !! t = Some p -> p = Idle.
Proof. by intros [-> _]%lookup_replicate. Qed.

Lemma initial_cell n i c : cells (mem (initial n)) !! i = Some c ->
  (i < 32)%nat /\ c = MkCell shard_new None [].
Proof. by intros [-> ?]%lookup_replicate. Qed.

Lemma initial_act n u : act (mem (initial n)) u = None.
Proof.
  unfold act. destruct (cells _ !! _) as [c|] eqn:E; [|done].
  destruct (initial_cell _ _ _ E) as [_ ->]. apply lookup_empty.
Qed.

Lemma shard_new_ok i : shard_ok i shard_new.
Proof.
  split; try done.
  - intros []; constructor.
  - intros [] t q; done.
  - intros d t. simpl. rewrite lookup_empty. split; [done|]. intros (a & Ha & _).
    by rewrite lookup_empty in Ha.
Qed.

Hypothesis Hactive : 0 <= active_limit.

Lemma invariant_initial n : invariant (initial n).
Proof using Hlimit Hactive.
  split.
  - split; try done; simpl; try lia.
    intros i c Hc. destruct (initial_cell n _ _ Hc) as [Hi ->]. split; [apply shard_new_ok|].
    rewrite Z.bits_0. apply (settles_nil pw (Z.of_nat i)), shard_new_ok.
  - split.
    + intros i c t Hc. by destruct (initial_cell n _ _ Hc) as [_ ->].
    + intros t p i Hp. by rewrite (initial_idle _ _ _ Hp).
    + intros i c Hc. by destruct (initial_cell n _ _ Hc) as [_ ->].
    + intros t p Hp. by rewrite (initial_idle _ _ _ Hp).
  - split; try (intros t p; intros; exfalso;
      match goal with H : threads _ !! _ = Some _ |- _ => rewrite (initial_idle _ _ _ H) in *; done end).
    + intros u a. by rewrite initial_act.
    + intros t k obs Hp. by pose proof (initial_idle _ _ _ Hp).
Qed.

(** Until the gate is sealed, every state of a run satisfies the invariant. *)
Lemma run_invariant n tr s : run pw queued_limit active_limit (initial n) tr s ->
  sealed (mem s) = false -> invariant s.
Proof using Hlimit Hactive.
  remember (initial n) as s0 eqn:E0. induction 1 as [|s0 tr s t a es s' R IH E]; intros Hs; subst.
  - apply invariant_initial.
  - eapply invariant_step; try done. apply IH; [done|].
    destruct (sealed (mem s)) eqn:Es; [|done].
    destruct (step_inv _ _ _ _ _ _ _ _ E) as (p & r & _ & E' & -> & _).
    pose proof (sealed_step _ _ _ _ _ _ _ _ E' Es). simpl in Hs. congruence.
Qed.

(** ** No step stops the process while the gate is open *)
Ltac returns E :=
  revert E; unfold DataPlane.thread_step, run_step, start, publish_step, publish_section, signal_step,
    drive_step, notifier_step,
    unwind_notify, plan_step, complete_step, abort_step, unwind_collect, connect_step, connect_section,
    terminate_step, lock_cell, with_cell, internal, emit, go, blocked, obind;
  repeat case_match; done.

Lemma count_done t c m : good m -> 0 <= counted_shard pw c -> exists o, count_step pw t c m = Done o.
Proof using Hlimit.
  intros G Hi. unfold count_step, with_cell.
  destruct (cells m !! Z.to_nat (counted_shard pw c)) as [x|] eqn:Hx; [|by eexists].
  destruct (owed x) as [|o ops] eqn:Ho.
  - unfold go. repeat case_match; by eexists.
  - pose proof (count_exact_op _ _ _ Hlimit t m _ x o ops G Hx Ho) as E.
    rewrite Z2Nat.id in E by done. rewrite E. by eexists.
Qed.

(** Every step returns: the checked decrements find what they take away, and
    no shard count overflows. *)
Lemma step_done s t a : invariant s -> exists o, step t a s = Done o.
Proof using Hlimit.
  intros [G L C]. unfold DataPlane.step. destruct (threads s !! t) as [p|] eqn:Ht; [|by eexists].
  cut (exists o, thread_step t a p (mem s) = Done o).
  { intros [o E]. rewrite E. simpl. eauto. }
  pose proof (lock_open _ _ L _ _ Ht) as Hp.
  destruct (thread_step t a p (mem s)) as [o| |] eqn:E; [eauto|exfalso..].
  all: destruct a as [o|f|]; [destruct o, p; returns E| |destruct p; returns E].
  all: destruct p; try done; try (returns E).
  1,3: destruct (working s0) eqn:Hw;
    [destruct (work_does s t f s0 G L C Ht Hw) as (r & Er & _);
     unfold DataPlane.thread_step in E; rewrite Er in E; done
    |destruct s0; try done; returns E].
  all: destruct (count_done t c (mem s) G) as [o Eo];
    [apply (held_range pw (Counting c) _ Hp eq_refl)|unfold DataPlane.thread_step, run_step in E; rewrite Eo in E; done].
Qed.

End Change.
End DataPlaneChange.
