(* ===== verification/DataPlaneRefresh.v ===== *)
(** * Refreshes of the data plane

    Between the begin and the end of a refresh exactly one thread owns it; the
    updates it has taken and not retired have distinct topics, come from shards
    it has already collected, and are exactly the values in flight.  A
    collection therefore finds every value resident, and takes the newest one
    of every committed topic of its shard. *)

From S2P Require Import Prelude SealableCounter Errors Channel DataShard ShardInvariant DataPlane DataPlaneSteps DataPlaneInvariant DataPlaneChange.
Import SealableCounter.Transitions Errors Channel DataShard.Shard ShardInvariant.ShardInvariant DataPlane DataPlaneSteps DataPlaneInvariant DataPlaneChange.

Local Open Scope Z_scope.

Module DataPlaneRefresh.

(** ** The lowest set bit of a mask *)
Lemma odd_part n : n <> 0 -> exists k h, 0 <= k /\ n = 2 ^ k * (2 * h + 1).
Proof.
  intros Hn. assert (0 <= Z.abs n) as H0 by lia. revert n Hn H0.
  enough (forall m, 0 <= m -> forall n, n <> 0 -> Z.abs n = m ->
    exists k h, 0 <= k /\ n = 2 ^ k * (2 * h + 1)) by eauto.
  intros m Hm. pattern m. apply Z_lt_induction; [|done]. clear m Hm. intros m IH n Hn Em.
  destruct (Z.Even_or_Odd n) as [[h E]|[h E]].
  - destruct (IH (Z.abs h) ltac:(lia) h ltac:(lia) eq_refl) as (k & h' & Hk & E').
    exists (k + 1), h'. split; [lia|]. rewrite Z.pow_add_r by lia. lia.
  - exists 0, h. split; [lia|]. rewrite Z.pow_0_r. lia.
Qed.

Lemma testbit_shifted k h j : 0 <= k -> 0 <= j ->
  Z.testbit (2 ^ k * h) j = if j <? k then false else Z.testbit h (j - k).
Proof.
  intros Hk Hj. rewrite Z.mul_comm, Z.mul_pow2_bits by lia.
  destruct (Z.ltb_spec j k); [by apply Z.testbit_neg_r; lia|done].
Qed.

Lemma lowest_bit mask : mask <> 0 ->
  let i := Z.log2 (Z.land mask (- mask)) in
  0 <= i /\ Z.testbit mask i = true
  /\ forall j, 0 <= j -> Z.testbit (Z.land mask (mask - 1)) j = Z.testbit mask j && negb (j =? i).
Proof.
  intros Hm. destruct (odd_part mask Hm) as (k & h & Hk & ->).
  assert (Z.land (2 ^ k * (2 * h + 1)) (- (2 ^ k * (2 * h + 1))) = 2 ^ k) as ->.
  { replace (- (2 ^ k * (2 * h + 1))) with (2 ^ k * (2 * Z.lnot h + 1)) by (unfold Z.lnot; nia).
    apply Z.bits_inj'. intros j Hj. rewrite Z.land_spec, !testbit_shifted, Z.pow2_bits_eqb by lia.
    destruct (Z.ltb_spec j k); simpl; [symmetry; apply Z.eqb_neq; lia|].
    destruct (Z.eqb_spec k j) as [->|].
    - by rewrite Z.sub_diag, !Z.testbit_odd_0.
    - replace (j - k) with (Z.succ (j - k - 1)) by lia. rewrite !Z.testbit_odd_succ by lia.
      rewrite Z.lnot_spec by lia. by destruct (Z.testbit h _). }
  rewrite Z.log2_pow2 by done. intros i. subst i. split; [done|]. split.
  - rewrite testbit_shifted, Z.ltb_irrefl, Z.sub_diag by done. apply Z.testbit_odd_0.
  - intros j Hj. rewrite Z.land_spec.
    replace (2 ^ k * (2 * h + 1) - 1) with (2 ^ k * (2 * h) + Z.ones k)
      by (rewrite Z.ones_equiv; lia).
    rewrite (Z.add_nocarry_lxor (2 ^ k * (2 * h)) (Z.ones k)).
    2:{ apply Z.bits_inj'. intros x Hx. rewrite Z.land_spec, testbit_shifted, Z.bits_0 by done.
        destruct (Z.ltb_spec x k); [done|]. rewrite Z.ones_spec_high by lia. apply andb_false_r. }
    rewrite Z.lxor_spec, !testbit_shifted by done.
    destruct (Z.ltb_spec j k); simpl; [done|]. rewrite Z.ones_spec_high, xorb_false_r by lia.
    destruct (Z.eqb_spec j k) as [->|]; simpl.
    + rewrite Z.sub_diag. rewrite Z.testbit_even_0. by rewrite !andb_false_r.
    + replace (j - k) with (Z.succ (j - k - 1)) by lia.
      rewrite Z.testbit_odd_succ, Z.testbit_even_succ by lia.
      by destruct (Z.testbit h _).
Qed.


Section Refresh.
Context (pw : pointer_width) (queued_limit active_limit : Z).
Context (Hlimit : 0 <= queued_limit /\ queued_limit + 64 < 2 ^ bits pw).
Abbreviation thread_step := (thread_step pw queued_limit active_limit).
Abbreviation step := (step pw queued_limit active_limit).
Abbreviation invariant := (invariant pw queued_limit active_limit).
Abbreviation change := (change pw).
Abbreviation act := (act pw).
Abbreviation pnd := (pnd pw).
Abbreviation shard_index := (shard_index pw).

(** The batch of a thread, as the updates it holds. *)
Definition holds (s : config) (t : nat) (id : Z) (ups : list RtdUpdate) : Prop :=
  exists p, threads s !! t = Some p /\ batch_at p = Some (id, ups).

Definition flying (s : config) (u : RtdUpdate) : Prop :=
  exists t id ups, holds s t id ups /\ u ∈ ups.

Record batches (s : config) : Prop := {
  b_id : forall t id ups, holds s t id ups -> refreshing (mem s) = Some id;
  b_one : forall t t' id id' ups ups', holds s t id ups -> holds s t' id' ups' -> t = t';
  b_has : forall id, refreshing (mem s) = Some id -> exists t ups, holds s t id ups;
  b_nodup : forall t id ups, holds s t id ups -> NoDup (u_topic <$> ups);
  b_mask : forall t id mask ups, threads s !! t = Some (Collect id mask ups) ->
    forall u, u ∈ ups -> Z.testbit mask (shard_index (u_topic u)) = false;
  b_flight : forall x a b g n, act (mem s) x = Some a -> at_buffer b (values a) = InFlight g n ->
    exists u, flying s u /\ u_topic u = x /\ u_buffer u = b /\ u_generation u = g /\ u_sequence u = n;
}.

(** ** What a change does to the batch of its thread *)
Inductive batch_change (p : pc) (m : core) (p' : pc) (m' : core) : Prop :=
| bc_keep id ups ups' :
    batch_at p = Some (id, ups) -> batch_at p' = Some (id, ups') -> ups ≡ₚ ups' ->
    refreshing m' = refreshing m -> batch_change p m p' m'
| bc_none :
    batch_at p = None -> batch_at p' = None -> refreshing m' = refreshing m -> batch_change p m p' m'
| bc_begin id :
    batch_at p = None -> batch_at p' = Some (id, []) ->
    refreshing m = None -> refreshing m' = Some id -> batch_change p m p' m'
| bc_finish id :
    batch_at p = Some (id, []) -> batch_at p' = None ->
    refreshing m = Some id -> refreshing m' = None -> batch_change p m p' m'
| bc_retired id u ups :
    batch_at p = Some (id, u :: ups) -> batch_at p' = Some (id, ups) ->
    (exists c, p = Held (RetireUpdate u ups c)) -> refreshing m' = refreshing m -> batch_change p m p' m'
| bc_collected id mask ups c i :
    p = Collect id mask ups -> mask <> 0 -> i = Z.log2 (Z.land mask (- mask)) ->
    p' = Collect id (Z.land mask (mask - 1))
           (ups ++ omap (collected_update (shard c)) (collect_order (shard c))) ->
    cells m !! Z.to_nat i = Some c -> ShardInvariant.shard_ok pw i (shard c) ->
    refreshing m' = refreshing m -> batch_change p m p' m'
| bc_lost id ups :
    batch_at p = Some (id, ups) -> refreshing m <> Some id -> batch_change p m p' m'.

Lemma change_batch p m p' m' es : change p m p' m' es -> batch_change p m p' m'.
Proof.
  intros K. inversion K; subst; clear K;
    try (apply bc_none; try done; simpl; congruence).
  - unfold batch_keeps in *. destruct (batch_at p) as [[id ups]|] eqn:E, (batch_at p') as [[id' ups']|] eqn:E';
      try done.
    + destruct H3 as [-> Hp]. by eapply bc_keep.
    + by apply bc_none.
  - by eapply bc_begin.
  - by eapply bc_finish.
  - by eapply bc_lost.
  - eapply bc_retired; eauto.
  - by eapply bc_collected.
Qed.

Lemma collect_step t a p m r id mask ups :
  thread_step t a p m = Done (Some r) -> next_pc r = Collect id mask ups ->
  p = PlanEstimate id mask /\ ups = []
  \/ exists mask' ups' c, p = Collect id mask' ups' /\ mask' <> 0
       /\ mask = Z.land mask' (mask' - 1)
       /\ cells m !! Z.to_nat (Z.log2 (Z.land mask' (- mask'))) = Some c
       /\ ups = snd (collect_shard_into (shard c) ups').
Proof.
  intros H. destruct a as [o|f|], p; try done; try (destruct o; try done); steps H; try done.
  all: try (unfold continue, fail_with, retire_next, enter; repeat case_match; done).
  - intros [= <- <- <-]. by left.
  - intros [= <- <- <-]. right. eexists _, _, _. split_and!; [done|lia|done|eassumption|].
    by match goal with E : collect_shard_into _ _ = _ |- _ => rewrite E end.
Qed.

(** The update taken for a topic carries what its slot holds. *)
Lemma collected_update_inv sh x u :
  collected_update sh x = Some u ->
  exists a b q, active_by_topic sh !! x = Some a /\ newest sh x = Some (b, q)
    /\ committed a = true /\ u_topic u = x /\ u_buffer u = b
    /\ at_buffer b (values a) = Resident (u_generation u) (u_sequence u) (u_value u).
Proof.
  unfold collected_update. destruct (active_by_topic sh !! x) as [a|]; [|done].
  destruct (newest sh x) as [[b q]|]; [|done].
  destruct (committed a) eqn:Hc; [|done]. destruct (at_buffer b (values a)) eqn:Hv; try done.
  intros [= <-]. by eexists _, _, _.
Qed.

Lemma collected_topics sh l : NoDup l ->
  NoDup (u_topic <$> omap (collected_update sh) l)
  /\ forall u, u ∈ omap (collected_update sh) l -> u_topic u ∈ l /\ collected_update sh (u_topic u) = Some u.
Proof.
  induction 1 as [|x l Hx Hl [IH1 IH2]]; simpl; [split; [constructor|by intros u ?%elem_of_nil]|].
  destruct (collected_update sh x) as [u|] eqn:E.
  - destruct (collected_update_inv _ _ _ E) as (_ & _ & _ & _ & _ & _ & Et & _). split; simpl.
    + constructor; [|done]. rewrite Et. intros (v & Ev & Hv)%list_elem_of_fmap.
      destruct (IH2 v Hv) as [? _]. congruence.
    + intros v [->|Hv]%elem_of_cons.
      * rewrite Et. split; [by left|done].
      * destruct (IH2 v Hv). split; [by right|done].
  - split; [done|]. intros v Hv. destruct (IH2 v Hv). split; [by right|done].
Qed.


Lemma act_ok m x a : DataPlaneInvariant.good pw queued_limit active_limit m ->
  act m x = Some a -> active_ok a.
Proof.
  intros G. unfold DataPlaneChange.act. destruct (cells m !! _) as [c|] eqn:Hc; [|done].
  destruct (good_cells _ _ _ _ G _ _ Hc) as [Hok _]. intros Ha.
  by destruct (actives_ok _ _ _ Hok _ _ Ha).
Qed.

Definition matches (u : RtdUpdate) (x : Z) (b : BufferIndex) (g n : Z) : Prop :=
  u_topic u = x /\ u_buffer u = b /\ u_generation u = g /\ u_sequence u = n.

Lemma collected_flight sh x a b g n :
  active_by_topic sh !! x = Some a -> at_buffer b (values (collected_active sh x a)) = InFlight g n ->
  at_buffer b (values a) = InFlight g n
  \/ exists u, collected_update sh x = Some u /\ matches u x b g n.
Proof.
  intros Ha. unfold collected_active, collected_update. rewrite Ha.
  destruct (newest sh x) as [[b' q]|]; [|by left]. destruct (committed a); [|by left].
  destruct (at_buffer b' (values a)) eqn:Hv; try by left. simpl. rewrite at_put.
  case_decide as Hb; [|by left]. intros [= <- <-]. right. eexists. split; [done|]. by subst.
Qed.

Lemma retire_flight p m m' u ups c x a' b g n :
  DataPlaneInvariant.good pw queued_limit active_limit m -> p = Held (RetireUpdate u ups c) ->
  match act m (u_topic u) with
  | Some a => exists a', retired u a a' /\ updated pw m m' (u_topic u) (Some a')
  | None => forall t, act m' t = act m t
  end ->
  act m' x = Some a' -> at_buffer b (values a') = InFlight g n ->
  exists a, act m x = Some a /\ at_buffer b (values a) = InFlight g n
    /\ forall u ups c, p = Held (RetireUpdate u ups c) -> ~ matches u x b g n.
Proof.
  intros G -> Hr Ha Hf. destruct (act m (u_topic u)) as [a|] eqn:Hu.
  - destruct Hr as (z & [_ R] & U). rewrite U in Ha. destruct (Z.eqb_spec x (u_topic u)) as [->|Hx].
    + injection Ha as ->. exists a. split; [done|].
      destruct (R b) as [[E Hn]|[[? _]|(_ & _ & ?)]]; [|congruence..]. rewrite E in Hf. split; [done|].
      intros u' ups' c' [= <- _ _] (_ & Eb & Eg & En). apply Hn. split; [done|].
      destruct (slot_own _ (act_ok _ _ _ G Hu) b g n) as [Hg _]; [unfold slot_version; by rewrite Hf|].
      unfold in_flight. rewrite Eb, Hf, Eg, En, Hg, !Z.eqb_refl. done.
    + exists a'. split_and!; [done..|]. intros u' ups' c' [= <- _ _] [? _]. done.
  - rewrite Hr in Ha. exists a'. split_and!; [done..|]. intros u' ups' c' [= <- _ _] [E _]. congruence.
Qed.

(** A value in flight was in flight and is not the one retired, or has been
    taken by this step. *)
Lemma change_flight p m p' m' es x a' b g n :
  DataPlaneInvariant.good pw queued_limit active_limit m ->
  change p m p' m' es -> act m' x = Some a' -> at_buffer b (values a') = InFlight g n ->
  (exists a, act m x = Some a /\ at_buffer b (values a) = InFlight g n
     /\ forall u ups c, p = Held (RetireUpdate u ups c) -> ~ matches u x b g n)
  \/ exists id ups u, batch_at p' = Some (id, ups) /\ u ∈ ups /\ matches u x b g n.
Proof.
  intros G K Ha Hf.
  assert (forall a, act m x = Some a -> at_buffer b (values a) = InFlight g n ->
    (forall u ups c, p <> Held (RetireUpdate u ups c)) ->
    exists a, act m x = Some a /\ at_buffer b (values a) = InFlight g n
     /\ forall u ups c, p = Held (RetireUpdate u ups c) -> ~ matches u x b g n) as Hold.
  { intros a Hx Hv Hp. exists a. split_and!; [done|done|]. intros u ups c ->. by edestruct Hp. }
  assert (forall t o, updated pw m m' t o -> (forall u ups c, p <> Held (RetireUpdate u ups c)) ->
    (o = Some a' -> x = t -> exists a, act m t = Some a /\ at_buffer b (values a) = InFlight g n) ->
    exists a, act m x = Some a /\ at_buffer b (values a) = InFlight g n
     /\ forall u ups c, p = Held (RetireUpdate u ups c) -> ~ matches u x b g n) as Hupd.
  { intros t o U Hp Ho. rewrite U in Ha. destruct (Z.eqb_spec x t) as [->|]; [|by eapply Hold].
    destruct (Ho Ha eq_refl) as (a & ? & ?). by eapply Hold. }
  inversion K; subst.
  - left. eapply Hold; [by rewrite <- (same_act _ _ _ H)|done..].
  - left. eapply Hold; [by rewrite <- (same_act _ _ _ H0)|done..].
  - left. eapply Hold; [by rewrite <- (same_act _ _ _ H2)|done|]. by intros u ups c ->.
  - left. by eapply Hold.
  - left. eapply Hold; [by rewrite <- (same_act _ _ _ H2)|done..].
  - left. eapply Hupd; [done|done|]. intros [= <-]. by destruct b.
  - left. eapply Hold; [by rewrite <- (same_act _ _ _ H3)|done..].
  - left. eapply Hupd; [done|done|]. intros [= <-]. eauto.
  - left. eapply Hupd; [done|done|]. intros [= <-] _. simpl in Hf. rewrite at_put in Hf.
    case_decide; [done|eauto].
  - left. eapply Hold; [by rewrite <- H2|done..].
  - left. eapply Hupd; [done|done|]. intros [= <-]. eauto.
  - left. eapply Hupd; [done| |done]. by intros u ups c ->.
  - left. by eapply retire_flight.
  - rewrite H4 in Ha. case_decide; [|left; by eapply Hold].
    destruct (collect_order_act pw m _ c x H2 H3 H) as (_ & Ex & _).
    destruct (act m x) as [a|] eqn:Hx; [|done]. injection Ha as <-.
    destruct (collected_flight (shard c) x a b g n (eq_sym Ex) Hf) as [?|(u & Hu & Hm)]; [left; by eapply Hold|].
    right. eexists _, _, u. split; [done|]. split; [|done]. apply elem_of_app. right.
    apply list_elem_of_omap. by exists x.
Qed.


(** ** The refresh invariant is kept *)
Section BatchStep.
Context (s s' : config) (t : nat) (p p' : pc) (es : list event).
Context (G : DataPlaneInvariant.good pw queued_limit active_limit (mem s)).
Context (B : batches s) (Ht : threads s !! t = Some p) (Et : threads s' = <[t := p']> (threads s)).
Context (K : change p (mem s) p' (mem s') es).

Lemma holds_cases t' id ups : holds s' t' id ups ->
  (t' = t /\ batch_at p' = Some (id, ups)) \/ (t' <> t /\ holds s t' id ups).
Proof using Ht Et.
  intros (q & Hq & Hb). destruct (thread_cases s s' t p p' Ht Et _ _ Hq) as [[-> ->]|[Hne Hq']].
  - by left.
  - right. split; [done|by exists q].
Qed.

Lemma holds_self id ups : batch_at p = Some (id, ups) -> holds s t id ups.
Proof using Ht. by exists p. Qed.

Lemma holds_next id ups : batch_at p' = Some (id, ups) -> holds s' t id ups.
Proof using Ht Et.
  intros E. exists p'. rewrite Et, list_lookup_insert_eq; [done|by eapply lookup_lt_Some].
Qed.

Lemma holds_other t' id ups : t' <> t -> holds s t' id ups -> holds s' t' id ups.
Proof using Et. intros Hne (q & Hq & Hb). exists q. by rewrite Et, list_lookup_insert_ne. Qed.

(** The batch of the stepping thread has a predecessor, or the refresh begins. *)
Lemma batch_old id ups : batch_at p' = Some (id, ups) ->
  refreshing (mem s') = Some id
  /\ ((exists ups0, batch_at p = Some (id, ups0)) \/ (refreshing (mem s) = None /\ ups = [])).
Proof using All.
  intros E. destruct (change_batch _ _ _ _ _ K)
    as [i u1 u2 E1 E2 _ Er|E1 E2 _|i E1 E2 E3 E4|i E1 E2 _ _|i u ups' E1 E2 _ Er|i m ups' c j Ep _ _ Ep' _ _ Er|i ups' E1 E2].
  - rewrite E2 in E. injection E as -> ->. rewrite Er. split; [by apply (b_id _ B t _ u1), holds_self|eauto].
  - congruence.
  - rewrite E2 in E. injection E as -> <-. eauto.
  - congruence.
  - rewrite E2 in E. injection E as -> ->. rewrite Er. split; [by eapply (b_id _ B t), holds_self|eauto].
  - rewrite Ep' in E. injection E as -> <-. pose proof (f_equal batch_at Ep) as E1. rewrite Er.
    split; [by apply (b_id _ B t _ ups'), holds_self|left; by eexists].
  - exfalso. by eapply E2, (b_id _ B t), holds_self.
Qed.

(** Another thread's refresh is not affected. *)
Lemma batch_other t' id ups : t' <> t -> holds s t' id ups -> refreshing (mem s') = Some id.
Proof using All.
  intros Hne Hh. pose proof (b_id _ B _ _ _ Hh) as Hr.
  destruct (change_batch _ _ _ _ _ K)
    as [i u1 u2 E1 E2 _ Er|E1 E2 Er|i E1 E2 E3 E4|i E1 E2 _ _|i u ups' E1 E2 _ Er|i m ups' c j Ep _ _ Ep' _ _ Er|i ups' E1 E2].
  1,2,5,6: congruence.
  - congruence.
  - destruct (Hne (b_one _ B _ _ _ _ _ _ Hh (holds_self _ _ E1))).
  - exfalso. by eapply E2, (b_id _ B t), holds_self.
Qed.

Lemma keep_id t' id ups : holds s' t' id ups -> refreshing (mem s') = Some id.
Proof using All.
  intros Hh. destruct (holds_cases _ _ _ Hh) as [[-> E]|[Hne Hh']].
  - by apply (batch_old _ _ E).
  - by eapply batch_other.
Qed.

Lemma keep_one t1 t2 id1 id2 ups1 ups2 : holds s' t1 id1 ups1 -> holds s' t2 id2 ups2 -> t1 = t2.
Proof using All.
  assert (forall t' i1 u1 i2 u2, t' <> t -> holds s t' i1 u1 -> batch_at p' = Some (i2, u2) -> False) as Hx.
  { intros t' i1 u1 i2 u2 Hne Hh E. destruct (batch_old _ _ E) as [_ [[ups0 E0]|[E0 _]]].
    - by apply Hne, (b_one _ B _ _ _ _ _ _ Hh (holds_self _ _ E0)).
    - pose proof (b_id _ B _ _ _ Hh). congruence. }
  intros H1 H2. destruct (holds_cases _ _ _ H1) as [[-> E1]|[N1 G1]], (holds_cases _ _ _ H2) as [[-> E2]|[N2 G2]].
  - done.
  - by destruct (Hx _ _ _ _ _ N2 G2 E1).
  - by destruct (Hx _ _ _ _ _ N1 G1 E2).
  - by eapply (b_one _ B).
Qed.

Lemma keep_has id : refreshing (mem s') = Some id -> exists t ups, holds s' t id ups.
Proof using All.
  intros E.
  assert (refreshing (mem s') = refreshing (mem s) -> batch_at p = None ->
    exists t ups, holds s' t id ups) as Hn.
  { intros Er E0. rewrite Er in E. destruct (b_has _ B _ E) as (t0 & ups & Hh).
    destruct (decide (t0 = t)) as [->|]; [|exists t0, ups; by apply holds_other].
    destruct Hh as (q & Hq & Hb). congruence. }
  assert (forall i u1 u2, refreshing (mem s') = refreshing (mem s) -> batch_at p = Some (i, u1) ->
    batch_at p' = Some (i, u2) -> exists t ups, holds s' t id ups) as Hs.
  { intros i u1 u2 Er E1 E2. pose proof (b_id _ B t _ _ (holds_self _ _ E1)).
    assert (id = i) as -> by congruence. exists t, u2. by apply holds_next. }
  destruct (change_batch _ _ _ _ _ K)
    as [i u1 u2 E1 E2 _ Er|E1 E2 Er|i E1 E2 E3 E4|i E1 E2 _ E4|i u ups' E1 E2 _ Er|i m ups' c j Ep _ _ Ep' _ _ Er|i ups' E1 E2].
  - by eapply Hs.
  - by apply Hn.
  - exists t, []. apply holds_next. congruence.
  - congruence.
  - by eapply Hs.
  - eapply Hs; [done|by rewrite Ep|by rewrite Ep'].
  - exfalso. by eapply E2, (b_id _ B t), holds_self.
Qed.

Lemma keep_nodup t' id ups : holds s' t' id ups -> NoDup (u_topic <$> ups).
Proof using All.
  intros Hh. destruct (holds_cases _ _ _ Hh) as [[-> E]|[Hne Hh']]; [|by eapply (b_nodup _ B)].
  destruct (change_batch _ _ _ _ _ K)
    as [i u1 u2 E1 E2 Ep Er|E1 E2 Er|i E1 E2 E3 E4|i E1 E2 _ E4|i u ups' E1 E2 _ Er|i m ups' c j Ep Hm Hj Ep' Hc Hok Er|i ups' E1 E2].
  - rewrite E2 in E. injection E as -> ->. rewrite <- Ep. by eapply (b_nodup _ B), holds_self.
  - congruence.
  - rewrite E2 in E. injection E as -> <-. constructor.
  - congruence.
  - rewrite E2 in E. injection E as -> ->.
    pose proof (b_nodup _ B _ _ _ (holds_self _ _ E1)) as Hn. rewrite fmap_cons in Hn. by apply NoDup_cons in Hn as [_ ?].
  - rewrite Ep' in E. injection E as -> <-. destruct (lowest_bit m Hm) as (_ & Hbit & _).
    rewrite <- Hj in Hbit.
    pose proof Ht as Ht'. rewrite Ep in Ht'.
    destruct (collected_topics (shard c) (collect_order (shard c))) as [Hn Hin].
    { by eapply (collect_order_spec pw j). }
    rewrite fmap_app. apply NoDup_app. split_and!; [|intros x Hx1 Hx2|done].
    + apply (b_nodup _ B t id), holds_self. by rewrite Ep.
    + apply list_elem_of_fmap in Hx1 as (u & -> & Hu). apply list_elem_of_fmap in Hx2 as (v & Ev & Hv).
      destruct (Hin v Hv) as [Ho _]. destruct (collect_order_act pw _ _ _ _ Hc Hok Ho) as [Hi _].
      pose proof (b_mask _ B _ _ _ _ Ht' u Hu) as Hb. rewrite Ev, Hi in Hb. congruence.
  - exfalso. by eapply E2, (b_id _ B t), holds_self.
Qed.

Lemma keep_flight x a b g n : act (mem s') x = Some a -> at_buffer b (values a) = InFlight g n ->
  exists u, flying s' u /\ u_topic u = x /\ u_buffer u = b /\ u_generation u = g /\ u_sequence u = n.
Proof using All.
  intros Ha Hf. destruct (change_flight _ _ _ _ _ _ _ _ _ _ G K Ha Hf)
    as [(a0 & Ha0 & Hf0 & Hr)|(id & ups & u & E & Hu & Hm)].
  - destruct (b_flight _ B _ _ _ _ _ Ha0 Hf0) as (u & (t0 & id & ups & Hh & Hu) & Hm).
    exists u. split; [|done]. destruct (decide (t0 = t)) as [->|]; [|exists t0, id, ups; split; [by apply holds_other|done]].
    destruct Hh as (q & Hq & Hb). assert (q = p) as -> by congruence.
    assert (exists ups', batch_at p' = Some (id, ups') /\ u ∈ ups') as (ups' & E' & Hu').
    { destruct (change_batch _ _ _ _ _ K)
        as [i u1 u2 E1 E2 Ep Er|E1 E2 Er|i E1 E2 E3 E4|i E1 E2 _ E4|i v ups' E1 E2 [c Ev] Er|i m ups' c j Ep Hm' Hj Ep' Hc Hok Er|i ups' E1 E2].
      - rewrite E1 in Hb. injection Hb as -> ->. exists u2. split; [done|]. by rewrite <- Ep.
      - congruence.
      - congruence.
      - rewrite E1 in Hb. injection Hb as -> <-. by apply elem_of_nil in Hu.
      - rewrite E1 in Hb. injection Hb as -> <-. exists ups'. split; [done|].
        apply elem_of_cons in Hu as [->|]; [|done]. exfalso. by eapply Hr.
      - rewrite Ep in Hb. injection Hb as -> ->. exists (ups ++ omap (collected_update (shard c)) (collect_order (shard c))). rewrite Ep'. split; [done|].
        apply elem_of_app. by left.
      - exfalso. by eapply E2, (b_id _ B t), holds_self. }
    exists t, id, ups'. split; [by apply holds_next|done].
  - exists u. split; [|done]. exists t, id, ups. split; [by apply holds_next|done].
Qed.


Lemma keep_mask :
  (forall id mask ups, p' = Collect id mask ups ->
     p = PlanEstimate id mask /\ ups = []
     \/ exists mask' ups' c, p = Collect id mask' ups' /\ mask' <> 0
          /\ mask = Z.land mask' (mask' - 1)
          /\ cells (mem s) !! Z.to_nat (Z.log2 (Z.land mask' (- mask'))) = Some c
          /\ ups = snd (collect_shard_into (shard c) ups')) ->
  forall t' id mask ups, threads s' !! t' = Some (Collect id mask ups) ->
  forall u, u ∈ ups -> Z.testbit mask (shard_index (u_topic u)) = false.
Proof using All.
  intros Hc t' id mask ups Hq u Hu.
  destruct (thread_cases s s' t p p' Ht Et _ _ Hq) as [[-> E]|[Hne Hq']]; [|by eapply (b_mask _ B)].
  destruct (Hc id mask ups (eq_sym E)) as [[_ ->]|(mask' & ups' & c & Ep & Hm & -> & Hcell & ->)].
  - by apply elem_of_nil in Hu.
  - pose proof (shard_index_range pw (u_topic u)) as Hr.
    destruct (lowest_bit mask' Hm) as (Hi & _ & Hbit). rewrite Hbit by lia.
    pose proof (section_shard_ok pw _ _ (mem s) _ c G Hi Hcell) as Hok.
    destruct (collect_ok pw _ (shard c) Hok ups') as (sh' & Ec & _). rewrite Ec in Hu. simpl in Hu.
    apply elem_of_app in Hu as [Hu|Hu].
    + pose proof Ht as Ht'. rewrite Ep in Ht'. by rewrite (b_mask _ B _ _ _ _ Ht' u Hu).
    + apply list_elem_of_omap in Hu as (x & Hx & Hu).
      destruct (collected_update_inv _ _ _ Hu) as (_ & _ & _ & _ & _ & _ & -> & _).
      destruct (collect_order_act pw _ _ c x Hcell Hok Hx) as [-> _].
      by rewrite Z.eqb_refl, andb_false_r.
Qed.

End BatchStep.


Lemma batches_step s t a s' es :
  invariant s -> batches s -> step t a s = Done (Some (s', es)) -> sealed (mem s') = false ->
  batches s'.
Proof using Hlimit.
  intros [G L C] B H Hs.
  destruct (step_change _ _ _ Hlimit s t a s' es G L C H Hs) as [_ (p & p' & Ht & Es & K)].
  assert (threads s' = <[t := p']> (threads s)) as Et by (by rewrite Es).
  split.
  - intros t' id ups. by eapply (keep_id s s' t p p' es).
  - intros t1 t2 id1 id2 u1 u2. by eapply (keep_one s s' t p p' es).
  - intros id. by eapply (keep_has s s' t p p' es).
  - intros t' id ups. by eapply (keep_nodup s s' t p p' es).
  - eapply (keep_mask s s' t p p' es G B Ht Et K).
    destruct (step_inv _ _ _ _ _ _ _ _ H) as (x & r & Hx & E & Er & _).
    assert (x = p) as -> by congruence. intros id mask ups Ep. eapply collect_step; [done|].
    rewrite Er in Et. simpl in Et. apply (f_equal (fun l => l !! t)) in Et.
    rewrite !list_lookup_insert_eq in Et by (by eapply lookup_lt_Some). congruence.
  - intros x a0 b g n. by eapply (keep_flight s s' t p p' es).
Qed.

Lemma batches_initial n : batches (initial n).
Proof.
  assert (forall t id ups, ~ holds (initial n) t id ups) as Hn.
  { intros t id ups (p & Hp & Hb). by rewrite (initial_idle _ _ _ Hp) in Hb. }
  split.
  - intros t id ups Hh. by destruct (Hn t id ups).
  - intros t t' id id' ups ups' Hh. by destruct (Hn t id ups).
  - done.
  - intros t id ups Hh. by destruct (Hn t id ups).
  - intros t id mask ups Hp. by pose proof (initial_idle _ _ _ Hp).
  - intros x a b g m. by rewrite initial_act.
Qed.

(** A shard that the refresh has still to collect has no value in flight, so
    the newest pending value of a committed topic is taken. *)
Lemma collect_takes s t id mask ups c x a b q :
  invariant s -> batches s -> threads s !! t = Some (Collect id mask ups) -> mask <> 0 ->
  cells (mem s) !! Z.to_nat (Z.log2 (Z.land mask (- mask))) = Some c ->
  active_by_topic (shard c) !! x = Some a -> committed a = true -> newest (shard c) x = Some (b, q) ->
  exists v, collected_update (shard c) x = Some (Update (q_sequence q) x (generation a) b v)
            /\ at_buffer b (values a) = Resident (generation a) (q_sequence q) v.
Proof.
  intros [G L C] B Ht Hm Hc Ha Hcm Hn. destruct (lowest_bit mask Hm) as (Hi & Hbit & _).
  pose proof (section_shard_ok pw _ _ (mem s) _ c G Hi Hc) as Hok.
  pose proof (newest_pend _ _ _ _ Hn) as Hq.
  destruct (pend_active _ _ _ _ _ _ Hok Hq) as (y & Hy & _ & Hv & Eg & _).
  assert (y = a) as -> by congruence. rewrite Eg in Hv. unfold slot_version in Hv.
  destruct (actives_ok _ _ _ Hok _ _ Ha) as [_ Hx].
  unfold collected_update. rewrite Ha, Hn, Hcm.
  destruct (at_buffer b (values a)) as [|g n v|g n] eqn:Hs; [done|..]; simpl in Hv; injection Hv as -> ->.
  - by exists v.
  - exfalso.
    assert (act (mem s) x = Some a) as Hax.
    { rewrite (act_cell pw (mem s) x c); [done|]. by rewrite Hx. }
    destruct (b_flight _ B _ _ _ _ _ Hax Hs) as (u & (t' & id' & ups' & Hh & Hu) & Et & _).
    assert (holds s t id ups) as Hself by (by eexists).
    assert (t' = t) as -> by (by eapply (b_one _ B)).
    destruct Hh as (p & Hp & Hb). rewrite Ht in Hp. injection Hp as <-. injection Hb as <- <-.
    pose proof (b_mask _ B _ _ _ _ Ht u Hu) as Hf. rewrite Et, Hx in Hf. congruence.
Qed.

End Refresh.

End DataPlaneRefresh.
