(* ===== verification/DataPlaneHistory.v ===== *)
(** * The history of the data plane

    What has been accepted from the sinks and what the host has been given,
    against the connections, the pending updates and the batch of the refresh:
    everything shown was accepted, in the order of acceptance, and the newest
    accepted value of a connection is pending until it is shown. *)

From S2P Require Import Prelude SealableCounter Errors Channel DataShard ShardInvariant DataPlane DataPlaneSteps DataPlaneInvariant DataPlaneChange DataPlaneRefresh.
Import SealableCounter.Transitions Errors Channel DataShard.Shard ShardInvariant.ShardInvariant DataPlane DataPlaneSteps DataPlaneInvariant DataPlaneChange DataPlaneRefresh.

Local Open Scope Z_scope.

Module DataPlaneHistory.

Section History.
Context (pw : pointer_width) (queued_limit active_limit : Z).
Context (Hlimit : 0 <= queued_limit /\ queued_limit + 64 < 2 ^ bits pw).
Abbreviation thread_step := (thread_step pw queued_limit active_limit).
Abbreviation step := (step pw queued_limit active_limit).
Abbreviation invariant := (invariant pw queued_limit active_limit).
Abbreviation good := (DataPlaneInvariant.good pw queued_limit active_limit).
Abbreviation change := (change pw).
Abbreviation act := (act pw).
Abbreviation pnd := (pnd pw).
Abbreviation shard_index := (shard_index pw).
Abbreviation batches := (batches pw).

(** ** The life of one connection in one step *)
Inductive evolves (p : pc) (m : core) (p' : pc) (m' : core) (es : list event) (x : Z)
    (a a' : ActiveSubscription) : Prop :=
| ev_same : a' = a -> evolves p m p' m' es x a a'
| ev_skipped : a' = skipped a -> next_sequence a + 1 < 2 ^ 64 -> evolves p m p' m' es x a a'
| ev_stored b v e :
    p = Held (Commit b v e) -> x = p_topic b -> generation a = p_generation b ->
    next_sequence a + 1 < 2 ^ 64 -> a' = stored_active (from_epoch e) v a ->
    es = [Stored x (generation a) (next_sequence a) v] ->
    pnd m' (from_epoch e) x = Some (Queued (generation a) (next_sequence a)) ->
    pnd m' (other (from_epoch e)) x = pnd m (other (from_epoch e)) x ->
    evolves p m p' m' es x a a'
| ev_committed k obs :
    p = Held (CommitInstall k obs) -> x = k_topic k -> generation a = k_generation k ->
    a' = set_committed a -> evolves p m p' m' es x a a'
| ev_retired u ups c :
    p = Held (RetireUpdate u ups c) -> x = u_topic u -> retired u a a' ->
    evolves p m p' m' es x a a'
| ev_collected c id ups :
    batch_at p' = Some (id, ups ++ omap (collected_update (shard c)) (collect_order (shard c))) ->
    batch_at p = Some (id, ups) ->
    active_by_topic (shard c) !! x = Some a -> a' = collected_active (shard c) x a ->
    settled_slots a a' -> evolves p m p' m' es x a a'.

Lemma change_evolves p m p' m' es x a a' :
  change p m p' m' es -> act m x = Some a -> act m' x = Some a' -> evolves p m p' m' es x a a'.
Proof.
  intros K Ha Ha'.
  assert (act m' x = act m x -> evolves p m p' m' es x a a') as Hs.
  { intros E. apply ev_same. congruence. }
  assert (forall t o, updated pw m m' t o -> x <> t -> evolves p m p' m' es x a a') as Hne.
  { intros t o U Hx. apply Hs. by rewrite U, (proj2 (Z.eqb_neq _ _) Hx). }
  inversion K; subst.
  - apply Hs, (same_act _ _ _ H).
  - apply Hs, (same_act _ _ _ H0).
  - apply Hs, (same_act _ _ _ H2).
  - by apply Hs.
  - apply Hs, (same_act _ _ _ H2).
  - destruct (decide (x = k_topic k)) as [->|]; [congruence|by eapply Hne].
  - apply Hs, (same_act _ _ _ H3).
  - destruct (decide (x = p_topic b)) as [->|]; [|by eapply Hne].
    rewrite H3, Z.eqb_refl in Ha'. injection Ha' as <-. apply ev_skipped; congruence.
  - destruct (decide (x = p_topic b)) as [->|]; [|by eapply Hne].
    rewrite H3, Z.eqb_refl in Ha'. injection Ha' as <-. assert (a0 = a) as -> by congruence.
    eapply ev_stored; try done; [by rewrite H1| |]; rewrite H4; [by rewrite decide_True|].
    rewrite decide_False; [done|]. intros [E _]. by destruct (from_epoch e).
  - by apply Hs.
  - destruct (decide (x = k_topic k)) as [->|]; [|by eapply Hne].
    rewrite H4, Z.eqb_refl in Ha'. injection Ha' as <-. assert (a0 = a) as -> by congruence.
    by eapply ev_committed.
  - destruct (decide (x = t)) as [->|]; [|by eapply Hne]. rewrite H0, Z.eqb_refl in Ha'. done.
  - destruct (act m (u_topic u)) as [a0|] eqn:Hu; [|by apply Hs, H0].
    destruct H0 as (a1 & R & U). destruct (decide (x = u_topic u)) as [->|]; [|by eapply Hne].
    rewrite U, Z.eqb_refl in Ha'. injection Ha' as <-. assert (a0 = a) as -> by congruence.
    by eapply ev_retired.
  - pose proof (H4 x) as E. rewrite Ha in E. case_decide; [|apply ev_same; congruence].
    rewrite Ha' in E. injection E as ->.
    destruct (collect_order_act pw m _ c x H2 H3 H) as (_ & Ex & _).
    eapply ev_collected; try done; [congruence|].
    eapply collected_settled; [done|congruence].
Qed.

(** A topic without a connection gets one from a reservation. *)
Lemma change_appears p m p' m' es x a' :
  change p m p' m' es -> act m x = None -> act m' x = Some a' ->
  exists k, p = Held (Reserve k) /\ x = k_topic k /\ a' = fresh_active (k_id k) (k_generation k).
Proof.
  intros K Ha Ha'. destruct (change_origin _ _ _ _ _ _ _ _ K Ha') as [a0 E|k E1 _ E2 E3]; [congruence|].
  by exists k.
Qed.

(** ** The pending updates of one topic in one step *)
Inductive moves (p : pc) (m : core) (m' : core) (es : list event) (b : BufferIndex) (x : Z) : Prop :=
| mv_same : pnd m' b x = pnd m b x -> moves p m m' es b x
| mv_stored c v e a :
    p = Held (Commit c v e) -> x = p_topic c -> b = from_epoch e ->
    act m x = Some a -> act m' x = Some (stored_active b v a) ->
    pnd m' b x = Some (Queued (generation a) (next_sequence a)) ->
    es = [Stored x (generation a) (next_sequence a) v] -> moves p m m' es b x
| mv_withdrawn : act m' x = None -> pnd m' b x = None -> moves p m m' es b x
| mv_pruned k v obs a :
    p = Held (CommitRemove k v obs) -> x = k_topic k -> act m x = Some a ->
    generation a = k_generation k ->
    pnd m' b x = match pnd m b x with
                 | Some q => if through obs q then None else Some q
                 | None => None
                 end ->
    (forall n, obs = Some n -> es = [Shown x (k_generation k) n v]) -> moves p m m' es b x
| mv_retired u ups c :
    p = Held (RetireUpdate u ups c) -> x = u_topic u -> r_outcome c = Delivered ->
    pnd m' b x = match pnd m b x with
                 | Some q => if (connection_generation q =? u_generation u) && (q_sequence q <=? u_sequence u)
                             then None else Some q
                 | None => None
                 end ->
    es = [Shown x (u_generation u) (u_sequence u) (u_value u)] -> moves p m m' es b x.

Lemma change_moves p m p' m' es b x : change p m p' m' es -> moves p m m' es b x.
Proof.
  intros K. inversion K; subst; try (apply mv_same; done).
  - apply mv_same, (same_pnd _ _ _ H).
  - apply mv_same, (same_pnd _ _ _ H0).
  - apply mv_same, (same_pnd _ _ _ H2).
  - apply mv_same, (same_pnd _ _ _ H2).
  - apply mv_same, (same_pnd _ _ _ H3).
  - pose proof (H4 b x) as E. case_decide as D; [|by apply mv_same]. destruct D as [-> ->].
    eapply mv_stored; try done; [by rewrite H3, Z.eqb_refl|by rewrite H1].
  - pose proof (H3 b x) as E. cbv beta in E. destruct (decide (x = k_topic k)) as [->|Hx].
    + rewrite Z.eqb_refl in E. eapply mv_pruned; try done. by intros n ->.
    + rewrite (proj2 (Z.eqb_neq _ _) Hx) in E. apply mv_same. rewrite E. by destruct (pnd m b x).
  - pose proof (H1 b x) as E. cbv beta in E. destruct (decide (x = t)) as [->|Hx].
    + rewrite Z.eqb_refl in E. apply mv_withdrawn; [by rewrite H0, Z.eqb_refl|].
      rewrite E. by destruct (pnd m b t).
    + rewrite (proj2 (Z.eqb_neq _ _) Hx) in E. apply mv_same. rewrite E. by destruct (pnd m b x).
  - pose proof (H1 b x) as E. unfold retire_through in E.
    destruct (decide (r_outcome c = Delivered)) as [Eo|No].
    + rewrite (bool_decide_eq_true_2 _ Eo) in E. destruct (decide (x = u_topic u)) as [->|Hx].
      * rewrite Z.eqb_refl in E. eapply mv_retired; try done. by rewrite Eo.
      * rewrite (proj2 (Z.eqb_neq _ _) Hx) in E. apply mv_same. rewrite E. by destruct (pnd m b x).
    + rewrite (bool_decide_eq_false_2 _ No) in E. apply mv_same. rewrite E. by destruct (pnd m b x).
Qed.

(** ** The events of one step *)
Lemma change_stored p m p' m' es x g n v :
  change p m p' m' es -> Stored x g n v ∈ es ->
  exists b e a, p = Held (Commit b v e) /\ act m x = Some a /\ generation a = g /\ next_sequence a = n
    /\ act m' x = Some (stored_active (from_epoch e) v a).
Proof.
  intros K Hin. inversion K; subst; try (by apply elem_of_nil in Hin).
  - destruct es as [|[] [|]]; try done; [by apply elem_of_nil in Hin|by apply list_elem_of_singleton in Hin].
  - apply list_elem_of_singleton in Hin. injection Hin as -> -> -> ->.
    exists b, e, a. split_and!; [done..|by rewrite H3, Z.eqb_refl].
  - destruct obs; [|by apply elem_of_nil in Hin]. by apply list_elem_of_singleton in Hin.
  - destruct (r_outcome c); [|by apply elem_of_nil in Hin]. by apply list_elem_of_singleton in Hin.
Qed.

Lemma change_shown p m p' m' es x g n v :
  change p m p' m' es -> Shown x g n v ∈ es ->
  es = [Shown x g n v]
  /\ ((exists k a, p = Held (CommitRemove k v (Some n)) /\ x = k_topic k /\ g = k_generation k
         /\ act m x = Some a /\ generation a = g
         /\ dropped pw (fun _ u q => (u =? x) && (q_sequence q <=? n)) m m')
      \/ (exists u ups c, p = Held (RetireUpdate u ups c) /\ r_outcome c = Delivered
            /\ x = u_topic u /\ g = u_generation u /\ n = u_sequence u /\ v = u_value u
            /\ dropped pw (retire_through u Delivered) m m')).
Proof.
  intros K Hin. inversion K; subst; try (by apply elem_of_nil in Hin).
  - destruct es as [|[] [|]]; try done; [by apply elem_of_nil in Hin|by apply list_elem_of_singleton in Hin].
  - apply list_elem_of_singleton in Hin. done.
  - destruct obs as [s|]; [|by apply elem_of_nil in Hin]. apply list_elem_of_singleton in Hin.
    injection Hin as -> -> -> ->. split; [done|]. left. exists k, a. done.
  - destruct (r_outcome c) eqn:E; [|by apply elem_of_nil in Hin]. apply list_elem_of_singleton in Hin.
    injection Hin as -> -> -> ->. split; [done|]. right. exists u, ups, c. done.
Qed.


(** The initial value read by the transaction of a thread. *)
Lemma change_value p m p' m' es y :
  change p m p' m' es -> conn_value p' = Some y ->
  conn_value p = Some y
  \/ exists k a, p = Held (Install k) /\ act m (k_topic k) = Some a /\ generation a = k_generation k
       /\ y = (k, default (Channel.Stored EmptyValue) (latest_value a), observed_by pw m k).
Proof.
  intros K Hy.
  assert (conn_at p' = None -> conn_value p' = None) as Hn.
  { destruct p'; try done; destruct s; done. }
  assert (forall k, conn_at p' = Some (k, Settled) -> conn_value p' = None) as Hset.
  { intros k. destruct p'; try done; destruct s; done. }
  inversion K; subst; try done.
  - destruct H5 as [?|E]; [congruence|left; congruence].
  - rewrite Hn in Hy by done. done.
  - rewrite Hn in Hy by done. done.
  - destruct H0 as [?| ->]; [rewrite Hn in Hy by done; done|done].
  - injection Hy as <-. right. by exists k, a.
  - by rewrite (Hset _ H6) in Hy.
  - congruence.
Qed.

(** ** The invariant *)
Record history (tr : list event) (s : config) : Prop := {
  h_bound : forall x g n v, Stored x g n v ∈ tr -> g < next_connection_generation (mem s);
  h_fresh : forall t p k x g n v, threads s !! t = Some p -> conn_at p = Some (k, Fresh) ->
    Stored x g n v ∈ tr -> g <> k_generation k;
  h_latest : forall x g n v a, Stored x g n v ∈ tr -> act (mem s) x = Some a -> generation a = g ->
    exists b n', latest_slot a = Some b /\ slot_version b a = Some (g, n') /\ n <= n';
  h_slot : forall x a b g n v, act (mem s) x = Some a -> at_buffer b (values a) = Resident g n v ->
    Stored x g n v ∈ tr;
  h_batch : forall u, flying s u ->
    Stored (u_topic u) (u_generation u) (u_sequence u) (u_value u) ∈ tr;
  h_value : forall t p k v n, threads s !! t = Some p -> conn_value p = Some (k, v, Some n) ->
    Stored (k_topic k) (k_generation k) n v ∈ tr;
  h_full : forall t p k a, threads s !! t = Some p -> conn_at p = Some (k, Reserved) ->
    act (mem s) (k_topic k) = Some a -> generation a = k_generation k ->
    forall b g n, slot_version b a = Some (g, n) -> is_Some (pnd (mem s) b (k_topic k));
  h_committed : forall u a, flying s u -> act (mem s) (u_topic u) = Some a ->
    generation a = u_generation u -> committed a = true;
  h_unique : forall x g n v v', Stored x g n v ∈ tr -> Stored x g n v' ∈ tr -> v = v';
  h_unflown : forall t p k u, threads s !! t = Some p -> conn_at p = Some (k, Reserved) ->
    flying s u -> u_generation u <> k_generation k;
  h_unshown : forall t p k x g n v, threads s !! t = Some p -> conn_at p = Some (k, Reserved) ->
    Shown x g n v ∈ tr -> g <> k_generation k;
  h_shown : forall x g n v, Shown x g n v ∈ tr -> Stored x g n v ∈ tr;
  h_pending : forall x b q n v, pnd (mem s) b x = Some q ->
    Shown x (connection_generation q) n v ∈ tr -> n < q_sequence q;
  h_flying : forall u n v, flying s u -> Shown (u_topic u) (u_generation u) n v ∈ tr ->
    n < u_sequence u;
  h_kept : forall x a b g n, act (mem s) x = Some a -> latest_slot a = Some b ->
    slot_version b a = Some (g, n) ->
    pnd (mem s) b x = Some (Queued g n) \/ exists v, Shown x g n v ∈ tr;
}.

Section HistoryStep.
Context (s s' : config) (t : nat) (p p' : pc) (tr es : list event).
Context (I : invariant s) (B : batches s) (H : history tr s).
Context (Ht : threads s !! t = Some p) (Et : threads s' = <[t := p']> (threads s)).
Context (K : change p (mem s) p' (mem s') es).

Let C := inv_conns _ _ _ _ I.
Let G := inv_good _ _ _ _ I.

Lemma pending_slot_of x a b q : act (mem s) x = Some a -> pnd (mem s) b x = Some q ->
  slot_version b a = Some (connection_generation q, q_sequence q)
  /\ connection_generation q = generation a /\ 0 <= q_sequence q < next_sequence a.
Proof using I.
  unfold DataPlaneChange.act, DataPlaneChange.pnd.
  destruct (cells (mem s) !! _) as [c|] eqn:Hc; [|done]. intros Ha Hq.
  destruct (good_cells _ _ _ _ (inv_good _ _ _ _ I) _ _ Hc) as [Hok _].
  destruct (pend_active _ _ _ _ _ _ Hok Hq) as (y & Hy & _ & ? & ? & ?).
  assert (y = a) as -> by congruence. done.
Qed.

Lemma pending_active x b q : pnd (mem s) b x = Some q -> exists a, act (mem s) x = Some a.
Proof using I.
  unfold DataPlaneChange.act, DataPlaneChange.pnd.
  destruct (cells (mem s) !! _) as [c|] eqn:Hc; [|done]. intros Hq.
  destruct (good_cells _ _ _ _ (inv_good _ _ _ _ I) _ _ Hc) as [Hok _].
  destruct (pend_active _ _ _ _ _ _ Hok Hq) as (y & Hy & _). by exists y.
Qed.

Lemma latest_version x a b g n : act (mem s) x = Some a -> latest_slot a = Some b ->
  slot_version b a = Some (g, n) -> g = generation a /\ 0 <= n < next_sequence a.
Proof using I.
  intros Ha Hl Hv. exact (slot_own _ (act_ok _ _ _ _ _ _ (inv_good _ _ _ _ I) Ha) b g n Hv).
Qed.

(** Where an update in flight after the step comes from. *)
Lemma flying_old u : flying s' u ->
  flying s u
  \/ exists c id ups a b q,
       (exists mask, p = Collect id mask ups) /\ act (mem s) (u_topic u) = Some a
       /\ collected_update (shard c) (u_topic u) = Some u /\ committed a = true
       /\ pnd (mem s) b (u_topic u) = Some q /\ u_buffer u = b
       /\ at_buffer b (values a) = Resident (u_generation u) (u_sequence u) (u_value u)
       /\ q_sequence q = u_sequence u /\ connection_generation q = u_generation u.
Proof using I B Ht Et K.
  intros (t0 & id & ups & Hh & Hu).
  destruct (holds_cases s s' t p p' Ht Et _ _ _ Hh) as [[-> E]|[Hne Hh']]; [|left; by exists t0, id, ups].
  assert (forall ups0, batch_at p = Some (id, ups0) -> u ∈ ups0 -> flying s u) as Hold.
  { intros ups0 E0 Hu0. exists t, id, ups0. split; [by exists p|done]. }
  destruct (change_batch _ _ _ _ _ _ K)
    as [i u1 u2 E1 E2 Ep Er|E1 E2 Er|i E1 E2 E3 E4|i E1 E2 _ E4|i w ups' E1 E2 _ Er|i m ups' c j Ep Hm Hj Ep' Hc Hok Er|i ups' E1 E2].
  - rewrite E2 in E. injection E as -> ->. left. eapply Hold; [done|]. by rewrite Ep.
  - congruence.
  - rewrite E2 in E. injection E as -> <-. by apply elem_of_nil in Hu.
  - congruence.
  - rewrite E2 in E. injection E as -> ->. left. eapply Hold; [done|]. by right.
  - rewrite Ep' in E. injection E as -> <-. pose proof (f_equal batch_at Ep) as E1. simpl in E1.
    apply elem_of_app in Hu as [Hu|Hu]; [left; by eapply Hold|].
    apply list_elem_of_omap in Hu as (x & Hx & Hu).
    destruct (collected_update_inv _ _ _ Hu) as (a & b & q & Ha & Hn & Hcm & Ex & Eb & Hv).
    destruct (collect_order_act pw (mem s) j c x Hc Hok Hx) as (Ej & Eact & _).
    pose proof (newest_pend _ _ _ _ Hn) as Hq.
    destruct (pend_active _ _ _ _ _ _ Hok Hq) as (y & Hy & _ & Hver & _).
    assert (y = a) as -> by congruence. unfold slot_version in Hver. rewrite Hv in Hver. simpl in Hver.
    injection Hver as Eg Es. right. exists c, id, ups', a, b, q. rewrite Ex.
    split_and!; try done; [by eexists|by rewrite Eact|]. rewrite (pnd_cell pw (mem s) b x c); [done|by rewrite Ej].
  - left. exfalso. eapply E2. destruct B. eapply (b_id0 t i ups'). by exists p.
Qed.


(** Splitting the events of the new history. *)
Lemma stored_cases x g n v : Stored x g n v ∈ tr ++ es ->
  Stored x g n v ∈ tr
  \/ exists b e a, p = Held (Commit b v e) /\ act (mem s) x = Some a /\ generation a = g
       /\ next_sequence a = n /\ act (mem s') x = Some (stored_active (from_epoch e) v a).
Proof using K.
  intros [?|Hin]%elem_of_app; [by left|]. right. by eapply change_stored.
Qed.

Lemma old_event e : e ∈ tr -> e ∈ tr ++ es.
Proof. intros ?. apply elem_of_app. by left. Qed.

Lemma new_event e : e ∈ es -> e ∈ tr ++ es.
Proof. intros ?. apply elem_of_app. by right. Qed.

Lemma next_bound x g n v : Stored x g n v ∈ tr ++ es -> g < next_connection_generation (mem s').
Proof using All.
  pose proof (change_generation _ _ _ _ _ _ K) as Hg.
  intros [Hin|(b & e & a & _ & Ha & <- & _)]%stored_cases.
  - pose proof (h_bound _ _ H _ _ _ _ Hin). lia.
  - pose proof (c_active _ _ C _ _ Ha). lia.
Qed.

Lemma next_fresh t' q k x g n v : threads s' !! t' = Some q -> conn_at q = Some (k, Fresh) ->
  Stored x g n v ∈ tr ++ es -> g <> k_generation k.
Proof using All.
  intros Hq Hk. destruct (thread_cases s s' t p p' Ht Et _ _ Hq) as [[-> ->]|[Hne Hq']].
  - destruct (stage_old _ _ _ _ _ _ K _ _ Hk) as [(st0 & E & [?|[[? _]|[_ Hf]]])|(-> & _ & _ & V)]; try done.
    + rewrite (Hf eq_refl) in E. intros [Hin|(b & e & a & Ep & Ha & <- & _)]%stored_cases.
      * by eapply (h_fresh _ _ H).
      * by rewrite Ep in E.
    + intros [Hin|(b & e & a & Ep & Ha & <- & _)]%stored_cases.
      * pose proof (h_bound _ _ H _ _ _ _ Hin). lia.
      * pose proof (c_active _ _ C _ _ Ha). lia.
  - intros [Hin|(b & e & a & _ & Ha & <- & _)]%stored_cases.
    + by eapply (h_fresh _ _ H).
    + by eapply (c_fresh _ _ C _ _ _ Hq' Hk).
Qed.

(** A connection after the step, with what it was before. *)
Lemma act_cases x a' : act (mem s') x = Some a' ->
  (exists a, act (mem s) x = Some a /\ evolves p (mem s) p' (mem s') es x a a')
  \/ act (mem s) x = None
     /\ exists k, p = Held (Reserve k) /\ x = k_topic k /\ a' = fresh_active (k_id k) (k_generation k).
Proof using K.
  intros Ha'. destruct (act (mem s) x) as [a|] eqn:Ha.
  - left. exists a. split; [done|]. by eapply change_evolves.
  - right. split; [done|]. by eapply change_appears.
Qed.

(** The newest value of a connection stays, or a newer one replaces it. *)
Lemma evolves_latest x a a' b g n :
  act (mem s) x = Some a -> evolves p (mem s) p' (mem s') es x a a' ->
  latest_slot a = Some b -> slot_version b a = Some (g, n) ->
  (latest_slot a' = Some b /\ slot_version b a' = Some (g, n))
  \/ exists b' v, a' = stored_active b' v a.
Proof using All.
  intros Ha E Hl Hv. destruct E as [->| -> _|c v e _ _ _ _ -> _ _ _|k obs _ _ _ ->|u ups c _ _ [Rs _]|c id ups _ _ _ _ Rs].
  - by left.
  - by left.
  - right. by exists (from_epoch e), v.
  - by left.
  - left. destruct Rs as [_ _ _ El _ Ev _]. split; [congruence|].
    destruct (Ev b) as [->|[_ Hn]]; [done|]. congruence.
  - left. destruct Rs as [_ _ _ El _ Ev _]. split; [congruence|].
    destruct (Ev b) as [->|[_ Hn]]; [done|]. congruence.
Qed.

Lemma evolves_generation x a a' : evolves p (mem s) p' (mem s') es x a a' ->
  generation a' = generation a /\ (committed a = true -> committed a' = true)
  /\ (committed a' = true -> committed a = true \/ exists k obs, p = Held (CommitInstall k obs)
        /\ x = k_topic k /\ generation a = k_generation k).
Proof.
  intros [->| -> _|c v e _ _ _ _ -> _ _ _|k obs -> -> Eg ->|u ups c _ _ [[_ Rg Rc _ _ _ _] _]|c id ups _ _ _ _ [_ Rg Rc _ _ _ _]];
    try rewrite Rg, Rc; split_and!; try done; simpl; eauto.
  intros _. right. by exists k, obs.
Qed.

Lemma stored_version b v a : slot_version b (stored_active b v a) = Some (generation a, next_sequence a).
Proof. unfold slot_version. simpl. rewrite at_put. by rewrite decide_True. Qed.

Lemma next_latest x g n v a' : Stored x g n v ∈ tr ++ es -> act (mem s') x = Some a' ->
  generation a' = g ->
  exists b n', latest_slot a' = Some b /\ slot_version b a' = Some (g, n') /\ n <= n'.
Proof using All.
  intros Hin Ha' Eg. destruct (stored_cases _ _ _ _ Hin) as [Hold|(b & e & a & _ & _ & <- & <- & E)].
  - destruct (act_cases _ _ Ha') as [(a & Ha & Ev)|(_ & k & Ep & -> & ->)].
    + destruct (evolves_generation _ _ _ Ev) as (Eg' & _).
      destruct (h_latest _ _ H _ _ _ _ a Hold Ha) as (b & n' & Hl & Hv & Hle); [congruence|].
      destruct (evolves_latest _ _ _ _ _ _ Ha Ev Hl Hv) as [[Hl' Hv']|(b' & w & ->)].
      * by exists b, n'.
      * exists b', (next_sequence a). split_and!; [done|rewrite stored_version; by subst g|].
        destruct (latest_version _ _ _ _ _ Ha Hl Hv). lia.
    + exfalso. simpl in Eg. rewrite Ep in Ht. by eapply (h_fresh _ _ H _ _ k).
  - rewrite E in Ha'. injection Ha' as <-. exists (from_epoch e), (next_sequence a).
    split_and!; [done|by rewrite stored_version|done].
Qed.


Lemma collected_resident sh x a b g n v :
  at_buffer b (values (collected_active sh x a)) = Resident g n v ->
  at_buffer b (values a) = Resident g n v.
Proof.
  unfold collected_active. destruct (newest sh x) as [[b' q]|]; [|done]. destruct (committed a); [|done].
  destruct (at_buffer b' (values a)) eqn:Hv; try done. simpl. rewrite at_put. by case_decide.
Qed.

Lemma batch_stored id ups u : batch_at p = Some (id, ups) -> u ∈ ups ->
  Stored (u_topic u) (u_generation u) (u_sequence u) (u_value u) ∈ tr.
Proof using H Ht. intros E Hu. apply (h_batch _ _ H). exists t, id, ups. split; [by exists p|done]. Qed.

Lemma next_slot x a' b g n v : act (mem s') x = Some a' -> at_buffer b (values a') = Resident g n v ->
  Stored x g n v ∈ tr ++ es.
Proof using All.
  intros Ha' Hv. destruct (act_cases _ _ Ha') as [(a & Ha & Ev)|(_ & k & _ & _ & ->)]; [|by destruct b].
  assert (at_buffer b (values a) = Resident g n v -> Stored x g n v ∈ tr ++ es) as Hold.
  { intros Hr. by eapply old_event, (h_slot _ _ H). }
  destruct Ev as [->| -> _|c w e _ _ _ _ -> Ee _ _|k obs _ _ _ ->|u ups c Ep -> [_ R]|c id ups _ _ _ -> _].
  - by apply Hold.
  - by apply Hold.
  - simpl in Hv. rewrite at_put in Hv. case_decide; [|by apply Hold].
    injection Hv as <- <- <-. apply new_event. rewrite Ee. apply list_elem_of_singleton. done.
  - by apply Hold.
  - destruct (R b) as [[E _]|[[E _]|(_ & _ & E)]]; rewrite Hv in E; [by apply Hold|done|].
    injection E as -> -> ->. apply old_event. eapply (batch_stored (r_id c) (u :: ups)); [by rewrite Ep|by left].
  - by eapply Hold, collected_resident.
Qed.

Lemma next_batch u : flying s' u ->
  Stored (u_topic u) (u_generation u) (u_sequence u) (u_value u) ∈ tr ++ es.
Proof using All.
  intros Hu. apply old_event.
  destruct (flying_old u Hu) as [Hold|(c & id & ups & a & b & q & _ & Ha & _ & _ & _ & _ & Hv & _)].
  - by apply (h_batch _ _ H).
  - by eapply (h_slot _ _ H).
Qed.

Lemma next_committed u a' : flying s' u -> act (mem s') (u_topic u) = Some a' ->
  generation a' = u_generation u -> committed a' = true.
Proof using All.
  intros Hu Ha' Eg. destruct (act_cases _ _ Ha') as [(a & Ha & Ev)|(Hnone & k & Ep & _ & ->)].
  - destruct (evolves_generation _ _ _ Ev) as (Eg' & Hc & _). apply Hc.
    destruct (flying_old u Hu) as [Hold|(c & id & ups & a0 & b & q & _ & Ha0 & _ & Hcm & _)].
    + eapply (h_committed _ _ H); [done|done|congruence].
    + congruence.
  - exfalso. simpl in Eg. destruct (flying_old u Hu) as [Hold|(c & id & ups & a0 & b & q & _ & Ha0 & _)].
    + rewrite Ep in Ht. by eapply (h_fresh _ _ H _ _ k _ _ _ _ Ht eq_refl (h_batch _ _ H _ Hold)).
    + congruence.
Qed.

(** ** What a transaction reads *)
Lemma observed_latest k a n : act (mem s) (k_topic k) = Some a -> generation a = k_generation k ->
  threads s !! t = Some (Held (Install k)) -> observed_by pw (mem s) k = Some n ->
  Stored (k_topic k) (k_generation k) n (default (Channel.Stored EmptyValue) (latest_value a)) ∈ tr.
Proof using I H.
  intros Ha Eg Hp Ho.
  assert (committed a = false) as Hcm by (by eapply (c_open _ _ C _ _ k Reserved Hp)).
  pose proof (act_ok _ _ _ _ _ _ G Ha) as Hok.
  assert (forall b q, pnd (mem s) b (k_topic k) = Some q ->
    slot_version b a = Some (k_generation k, q_sequence q) /\ connection_generation q = k_generation k) as Hq.
  { intros b q E. destruct (pending_slot_of _ _ _ _ Ha E) as (Hv & Hg & _). rewrite Hv, Hg, Eg. done. }
  destruct (latest_slot a) as [b|] eqn:Hl.
  2:{ exfalso. pose proof (latest_none _ Hok Hl) as He. unfold observed_by in Ho.
      assert (forall b, pnd (mem s) b (k_topic k) = None) as Hn.
      { intros b. destruct (pnd (mem s) b (k_topic k)) as [q|] eqn:E; [|done].
        destruct (Hq b q E) as [Hv _]. unfold slot_version in Hv. by rewrite He in Hv. }
      by rewrite !Hn in Ho. }
  destruct (latest_newest _ Hok b Hl) as (g & n0 & Hv & Hnew).
  destruct (h_full _ _ H _ _ k a Hp eq_refl Ha Eg b g n0 Hv) as [q0 Hq0].
  destruct (Hq _ _ Hq0) as [Hv0 Hg0]. rewrite Hv in Hv0. injection Hv0 as -> ->.
  assert (n = q_sequence q0) as ->.
  { unfold observed_by in Ho.
    assert (forall q, pnd (mem s) (other b) (k_topic k) = Some q -> q_sequence q < q_sequence q0) as Hlt.
    { intros q E. destruct (Hq _ _ E) as [Hvq _]. by eapply Hnew. }
    destruct b; simpl in Hlt; rewrite Hq0, Hg0, Z.eqb_refl in Ho;
      [destruct (pnd (mem s) Second (k_topic k)) as [q|] eqn:E
      |destruct (pnd (mem s) First (k_topic k)) as [q|] eqn:E]; simpl in Ho;
      try (destruct (Hq _ _ E) as [_ Hgq]; rewrite Hgq, Z.eqb_refl in Ho; simpl in Ho;
           specialize (Hlt q eq_refl); injection Ho as <-; lia);
      by injection Ho as <-. }
  unfold latest_value, latest_slot_state. rewrite Hl. unfold slot_version in Hv.
  destruct (at_buffer b (values a)) as [|g n v|g n] eqn:Hs; [done| |].
  - simpl in Hv. injection Hv as -> ->. simpl. by eapply (h_slot _ _ H).
  - exfalso. by eapply (uncommitted_resident _ Hok Hcm).
Qed.

Lemma next_value t' q k v n : threads s' !! t' = Some q -> conn_value q = Some (k, v, Some n) ->
  Stored (k_topic k) (k_generation k) n v ∈ tr ++ es.
Proof using All.
  intros Hq Hv. apply old_event.
  destruct (thread_cases s s' t p p' Ht Et _ _ Hq) as [[-> ->]|[Hne Hq']]; [|by eapply (h_value _ _ H)].
  destruct (change_value _ _ _ _ _ _ K Hv) as [Hold|(k' & a & Ep & Ha & Eg & E)].
  - by eapply (h_value _ _ H).
  - injection E as -> -> E. eapply observed_latest; try done. congruence.
Qed.

Lemma next_shown x g n v : Shown x g n v ∈ tr ++ es -> Stored x g n v ∈ tr ++ es.
Proof using All.
  intros [Hin|Hin]%elem_of_app; apply old_event; [by apply (h_shown _ _ H)|].
  destruct (change_shown _ _ _ _ _ _ _ _ _ K Hin)
    as [_ [(k & a & Ep & -> & -> & _)|(u & ups & c & Ep & _ & -> & -> & -> & -> & _)]].
  - rewrite Ep in Ht. by eapply (h_value _ _ H).
  - eapply (batch_stored (r_id c) (u :: ups)); [by rewrite Ep|by left].
Qed.


(** ** Pending updates against what was shown *)

Lemma self_flying u ups c : p = Held (RetireUpdate u ups c) -> flying s u.
Proof using Ht.
  intros Ep. exists t, (r_id c), (u :: ups). split; [exists p; split; [done|by rewrite Ep]|by left].
Qed.

(** A transaction that has reserved its topic. *)
Lemma reserved_cases k t' q : threads s' !! t' = Some q -> conn_at q = Some (k, Reserved) ->
  (exists q0, threads s !! t' = Some q0 /\ conn_at q0 = Some (k, Reserved) /\ (t' = t -> same_views pw (mem s) (mem s')))
  \/ threads s !! t' = Some (Held (Reserve k)).
Proof using Ht Et K.
  intros Hq Hk. destruct (thread_cases s s' t p p' Ht Et _ _ Hq) as [[-> ->]|[Hne Hq']].
  - assert (stage_step pw p (mem s) p' (mem s') k Reserved) as S by (by eapply change_stage).
    inversion S as [st E V| | |Ep|]; subst st || idtac.
    + left. by exists p.
    + right. by rewrite Ht, Ep.
  - left. by exists q.
Qed.

Lemma next_unique x g n v v' : Stored x g n v ∈ tr ++ es -> Stored x g n v' ∈ tr ++ es -> v = v'.
Proof using All.
  assert (forall a, act (mem s) x = Some a -> generation a = g -> next_sequence a = n ->
    forall w, Stored x g n w ∉ tr) as Hx.
  { intros a Ha Eg En w Hw. destruct (h_latest _ _ H _ _ _ _ _ Hw Ha Eg) as (b & n' & Hl & Hv & Hle).
    destruct (latest_version _ _ _ _ _ Ha Hl Hv). lia. }
  intros [H1|(b & e & a & Ep & Ha & Eg & En & _)]%stored_cases [H2|(b' & e' & a' & Ep' & Ha' & Eg' & En' & _)]%stored_cases.
  - by eapply (h_unique _ _ H).
  - by destruct (Hx _ Ha' Eg' En' v).
  - by destruct (Hx _ Ha Eg En v').
  - rewrite Ep in Ep'. by injection Ep'.
Qed.

Lemma next_unflown t' q k u : threads s' !! t' = Some q -> conn_at q = Some (k, Reserved) ->
  flying s' u -> u_generation u <> k_generation k.
Proof using All.
  intros Hq Hk Hu. destruct (reserved_cases _ _ _ Hq Hk) as [(q0 & Hq0 & Hk0 & _)|Hq0];
    destruct (flying_old u Hu) as [Hold|(c & id & ups & a & b & y & _ & Ha & _ & Hcm & _ & _ & Hv & _)].
  - by eapply (h_unflown _ _ H).
  - intros E. destruct (slot_own _ (act_ok _ _ _ _ _ _ G Ha) b (u_generation u) (u_sequence u)) as [Eg _];
      [unfold slot_version; by rewrite Hv|].
    rewrite (c_open _ _ C _ _ _ _ Hq0 Hk0 ltac:(done) _ _ Ha) in Hcm; [done|congruence].
  - eapply (h_fresh _ _ H _ _ k _ _ _ _ Hq0 eq_refl). by apply (h_batch _ _ H).
  - eapply (h_fresh _ _ H _ _ k _ _ _ _ Hq0 eq_refl). by eapply (h_slot _ _ H).
Qed.

Lemma next_unshown t' q k x g n v : threads s' !! t' = Some q -> conn_at q = Some (k, Reserved) ->
  Shown x g n v ∈ tr ++ es -> g <> k_generation k.
Proof using All.
  intros Hq Hk [Hin|Hin]%elem_of_app.
  - destruct (reserved_cases _ _ _ Hq Hk) as [(q0 & Hq0 & Hk0 & _)|Hq0].
    + by eapply (h_unshown _ _ H).
    + eapply (h_fresh _ _ H _ _ k _ _ _ _ Hq0 eq_refl). by apply (h_shown _ _ H).
  - destruct (change_shown _ _ _ _ _ _ _ _ _ K Hin)
      as [_ [(k' & a & Ep & -> & -> & _)|(u & ups & c & Ep & _ & -> & -> & _)]].
    + pose proof Ht as Ht'. rewrite Ep in Ht'.
      destruct (thread_cases s s' t p p' Ht Et _ _ Hq) as [[-> E]|[Hne Hq']].
      * exfalso. clear -K Ep E Hin Hk. rewrite Ep in K. subst. inversion K; subst; try done; try congruence.
        all: try (by apply elem_of_nil in Hin). destruct es as [|[] [|]]; try done;
          [by apply elem_of_nil in Hin|by apply list_elem_of_singleton in Hin].
      * by eapply (c_distinct _ _ C t t').
    + destruct (reserved_cases _ _ _ Hq Hk) as [(q0 & Hq0 & Hk0 & _)|Hq0].
      * eapply (h_unflown _ _ H); [done..|by eapply self_flying].
      * eapply (h_fresh _ _ H _ _ k _ _ _ _ Hq0 eq_refl), (h_batch _ _ H). by eapply self_flying.
Qed.

Lemma next_pending x b q n v : pnd (mem s') b x = Some q ->
  Shown x (connection_generation q) n v ∈ tr ++ es -> n < q_sequence q.
Proof using All.
  intros Hq [Hin|Hin]%elem_of_app.
  - assert (pnd (mem s) b x = Some q -> n < q_sequence q) as Hold.
    { intros E. by eapply (h_pending _ _ H). }
    destruct (change_moves _ _ _ _ _ b x K) as [E|c w e a Ep -> -> Ha Ha' E _|Ha E|k w obs a Ep -> Ha Eg E|u ups c Ep -> Eo E];
      rewrite Hq in E.
    + by apply Hold.
    + injection E as ->. simpl in *. apply (h_shown _ _ H) in Hin.
      destruct (h_latest _ _ H _ _ _ _ _ Hin Ha eq_refl) as (b & n' & Hl & Hv & Hle).
      destruct (latest_version _ _ _ _ _ Ha Hl Hv). lia.
    + done.
    + apply Hold. destruct (pnd (mem s) b (k_topic k)) as [q0|]; [|done]. destruct (through obs q0); congruence.
    + apply Hold. destruct (pnd (mem s) b (u_topic u)) as [q0|]; [|done].
      destruct (_ && _); congruence.
  - destruct (change_shown _ _ _ _ _ _ _ _ _ K Hin)
      as [_ [(k & a & Ep & -> & Eg & Ha & _ & D)|(u & ups & c & Ep & _ & -> & Eg & -> & -> & D)]];
      rewrite D in Hq.
    + destruct (pnd (mem s) b (k_topic k)) as [q0|]; [|done]. rewrite Z.eqb_refl in Hq. simpl in Hq.
      destruct (Z.leb_spec (q_sequence q0) n); [done|]. injection Hq as <-. lia.
    + destruct (pnd (mem s) b (u_topic u)) as [q0|]; [|done]. unfold retire_through in Hq.
      rewrite Z.eqb_refl in Hq. simpl in Hq.
      destruct (Z.eqb_spec (connection_generation q0) (u_generation u)); simpl in Hq; [|congruence].
      destruct (Z.leb_spec (q_sequence q0) (u_sequence u)); [done|]. injection Hq as <-. lia.
Qed.

Lemma next_flying u n v : flying s' u -> Shown (u_topic u) (u_generation u) n v ∈ tr ++ es ->
  n < u_sequence u.
Proof using All.
  intros Hu [Hin|Hin]%elem_of_app.
  - destruct (flying_old u Hu) as [Hold|(c & id & ups & a & b & q & _ & Ha & _ & _ & Hq & _ & _ & <- & Eg)].
    + by eapply (h_flying _ _ H).
    + eapply (h_pending _ _ H); [done|by rewrite Eg].
  - destruct (change_shown _ _ _ _ _ _ _ _ _ K Hin)
      as [_ [(k & a & Ep & Ex & Eg & Ha & Ega & D)|(w & ups & c & Ep & _ & Ex & Eg & -> & -> & D)]].
    + exfalso. pose proof Ht as Ht'. rewrite Ep in Ht'. rewrite Ex in Ha.
      destruct (flying_old u Hu) as [Hold|(c & id & ups & _ & _ & _ & [mask Eb] & _)]; [|by rewrite Ep in Eb].
      eapply (h_unflown _ _ H _ _ k u Ht'); done.
    + exfalso. destruct (flying_old u Hu) as [Hold|(c' & id & ups' & a & b & q & [mask Eb] & _)].
      * destruct Hu as (t0 & id & ups0 & Hh & Hu).
        destruct (holds_cases s s' t p p' Ht Et _ _ _ Hh) as [[-> E]|[Hne Hh']].
        -- assert (p' = Counting (CountedRetire (u_topic w) ups c)) as E'.
           { clear -K Ep Hin. rewrite Ep in K. inversion K; subst; try done; try congruence.
             all: try (by apply elem_of_nil in Hin).
             - by specialize (H6 w ups c). }
           rewrite E' in E. injection E as <- <-.
           pose proof (b_nodup _ _ B t (r_id c) (w :: ups)) as Hn. rewrite fmap_cons in Hn.
           assert (holds s t (r_id c) (w :: ups)) as Hself by (exists p; split; [done|by rewrite Ep]).
           apply NoDup_cons in Hn as [Hn _]; [|done]. apply Hn. rewrite <- Ex.
           by apply list_elem_of_fmap_2.
        -- apply Hne. eapply (b_one _ _ B); [done|]. exists p. split; [done|]. by rewrite Ep.
      * by rewrite Ep in Eb.
Qed.


(** An evolution keeps the version of a slot, empties it, or stores into it. *)
Lemma evolves_version x a a' b g n : evolves p (mem s) p' (mem s') es x a a' ->
  slot_version b a' = Some (g, n) ->
  slot_version b a = Some (g, n) \/ is_Some (pnd (mem s') b x).
Proof.
  assert (forall a', settled_slots a a' -> slot_version b a' = Some (g, n) -> slot_version b a = Some (g, n)) as Hs.
  { intros y R Hv. destruct (settled_version _ _ R b) as [E|[E _]]; [congruence|].
    unfold slot_version in Hv. by rewrite E in Hv. }
  intros [->| -> _|c v e _ _ _ _ -> _ E _|k obs _ _ _ ->|u ups c _ _ [Rs _]|c id ups _ _ _ _ Rs] Hv;
    try (by left); [|left; by eapply Hs..].
  destruct (decide (b = from_epoch e)) as [->|Hb]; [right; by rewrite E|].
  left. unfold slot_version in *. simpl in Hv. by rewrite at_put, decide_False in Hv.
Qed.

(** A pending update of an open connection stays pending. *)
Lemma open_pending k t' q a a' b : t' <> t -> threads s !! t' = Some q -> conn_at q = Some (k, Reserved) ->
  act (mem s) (k_topic k) = Some a -> generation a = k_generation k ->
  act (mem s') (k_topic k) = Some a' ->
  is_Some (pnd (mem s) b (k_topic k)) -> is_Some (pnd (mem s') b (k_topic k)).
Proof using All.
  intros Hne Hq Hk Ha Eg Ha' [y Hy].
  destruct (change_moves _ _ _ _ _ b (k_topic k) K) as [E|c w e a0 _ _ _ _ _ E _|E _|k' w obs a0 Ep Ex Ha0 Eg' _|u ups c Ep Ex _ E].
  - by rewrite E, Hy.
  - by rewrite E.
  - congruence.
  - exfalso. pose proof Ht as Ht'. rewrite Ep in Ht'.
    eapply (c_distinct _ _ C t t'); [congruence|exact Ht'|exact Hq|reflexivity|exact Hk|congruence].
  - rewrite E, Hy. destruct (_ && _) eqn:Hd; [|done]. exfalso.
    destruct (pending_slot_of _ _ _ _ Ha Hy) as (_ & Hg & _).
    eapply (h_unflown _ _ H _ _ k u Hq Hk); [by eapply self_flying|]. lia.
Qed.

Lemma next_full t' q k a' : threads s' !! t' = Some q -> conn_at q = Some (k, Reserved) ->
  act (mem s') (k_topic k) = Some a' -> generation a' = k_generation k ->
  forall b g n, slot_version b a' = Some (g, n) -> is_Some (pnd (mem s') b (k_topic k)).
Proof using All.
  intros Hq Hk Ha' Eg b g n Hv. destruct (reserved_cases _ _ _ Hq Hk) as [(q0 & Hq0 & Hk0 & V)|Hq0].
  - destruct (decide (t' = t)) as [->|Hne].
    { rewrite (same_act _ _ _ (V eq_refl)) in Ha'. rewrite (same_pnd _ _ _ (V eq_refl)).
      by eapply (h_full _ _ H). }
    destruct (act_cases _ _ Ha') as [(a & Ha & Ev)|(_ & k' & _ & _ & ->)]; [|by destruct b].
    destruct (evolves_generation _ _ _ Ev) as (Eg' & _).
    destruct (evolves_version _ _ _ _ _ _ Ev Hv) as [Hv'|?]; [|done].
    eapply (open_pending k t'); try done; [congruence|].
    eapply (h_full _ _ H); try done. congruence.
  - destruct (act_cases _ _ Ha') as [(a & Ha & Ev)|(_ & k' & _ & _ & ->)]; [|by destruct b].
    destruct (evolves_generation _ _ _ Ev) as (Eg' & _). exfalso.
    eapply (c_fresh _ _ C _ _ k Hq0 eq_refl _ a); [done|congruence].
Qed.

(** The newest accepted value of a connection is pending until it is shown. *)
Lemma kept_old x a a' b g n : act (mem s) x = Some a -> latest_slot a = Some b ->
  slot_version b a = Some (g, n) -> act (mem s') x = Some a' -> slot_version b a' = Some (g, n) ->
  pnd (mem s') b x = Some (Queued g n) \/ exists v, Shown x g n v ∈ tr ++ es.
Proof using All.
  intros Ha Hl Hv Ha' Hv2. destruct (h_kept _ _ H _ _ _ _ _ Ha Hl Hv) as [Hp|[v Hs]];
    [|right; exists v; by apply old_event].
  destruct (latest_version _ _ _ _ _ Ha Hl Hv) as [Eg _].
  destruct (change_moves _ _ _ _ _ b x K) as [E|c w e a0 Ep Ex Eb Ha0 E _ _|E _|k w obs a0 Ep -> Ha0 Eg' E Ee|u ups c Ep -> Eo E Ee].
  - left. congruence.
  - exfalso. assert (a0 = a) as -> by congruence. rewrite Ha' in E. injection E as ->.
    rewrite stored_version in Hv2. injection Hv2 as _ En.
    destruct (latest_version _ _ _ _ _ Ha Hl Hv). lia.
  - congruence.
  - rewrite Hp in E. destruct obs as [o|]; [|by left]. simpl in E.
    destruct (Z.leb_spec n o) as [Hle|]; [|by left]. right. exists w.
    assert (a0 = a) as -> by congruence.
    pose proof Ht as Ht'. rewrite Ep in Ht'. pose proof (h_value _ _ H _ _ k w o Ht' eq_refl) as Hin.
    destruct (h_latest _ _ H _ _ _ _ _ Hin Ha Eg') as (b' & n' & Hl' & Hv' & Hle').
    assert (b' = b) as -> by congruence. assert (n' = n) as -> by congruence.
    assert (o = n) as -> by lia. apply new_event. rewrite Eg, Eg'.
    rewrite (Ee n eq_refl). by apply list_elem_of_singleton.
  - rewrite Hp in E. simpl in E. destruct (_ && _) eqn:Hd; [|by left]. right. exists (u_value u).
    apply andb_prop in Hd as [Hd1 Hd2]. apply Z.eqb_eq in Hd1. apply Z.leb_le in Hd2.
    pose proof (h_batch _ _ H u (self_flying _ _ _ Ep)) as Hin.
    destruct (h_latest _ _ H _ _ _ _ _ Hin Ha) as (b' & n' & Hl' & Hv' & Hle'); [congruence|].
    assert (b' = b) as -> by congruence. assert (n' = n) as -> by congruence.
    assert (u_sequence u = n) as En by lia. apply new_event. rewrite Ee, Hd1, <- En.
    by apply list_elem_of_singleton.
Qed.

Lemma evolves_back x a a' b g n : evolves p (mem s) p' (mem s') es x a a' ->
  latest_slot a' = Some b -> slot_version b a' = Some (g, n) ->
  (latest_slot a = Some b /\ slot_version b a = Some (g, n)) \/ pnd (mem s') b x = Some (Queued g n).
Proof.
  assert (forall a', settled_slots a a' -> latest_slot a' = Some b -> slot_version b a' = Some (g, n) ->
    latest_slot a = Some b /\ slot_version b a = Some (g, n)) as Hs.
  { intros y R Hl Hv. rewrite (settled_latest _ _ R) in Hl. split; [done|].
    destruct (settled_version _ _ R b) as [E|[_ E]]; congruence. }
  intros [->| -> _|c v e _ _ _ _ -> _ E _|k obs _ _ _ ->|u ups c _ _ [Rs _]|c id ups _ _ _ _ Rs] Hl Hv;
    try (by left); [|left; by eapply Hs..].
  right. simpl in Hl. injection Hl as <-. rewrite stored_version in Hv. injection Hv as <- <-. done.
Qed.

Lemma next_kept x a' b g n : act (mem s') x = Some a' -> latest_slot a' = Some b ->
  slot_version b a' = Some (g, n) ->
  pnd (mem s') b x = Some (Queued g n) \/ exists v, Shown x g n v ∈ tr ++ es.
Proof using All.
  intros Ha' Hl Hv. destruct (act_cases _ _ Ha') as [(a & Ha & Ev)|(_ & k & _ & _ & ->)]; [|done].
  destruct (evolves_back _ _ _ _ _ _ Ev Hl Hv) as [[Hl0 Hv0]|?]; [|by left].
  by eapply kept_old.
Qed.

Lemma plane_history_step : history (tr ++ es) s'.
Proof using All.
  split.
  - by apply next_bound.
  - by apply next_fresh.
  - by apply next_latest.
  - by apply next_slot.
  - by apply next_batch.
  - by apply next_value.
  - by apply next_full.
  - by apply next_committed.
  - by apply next_unique.
  - by apply next_unflown.
  - by apply next_unshown.
  - by apply next_shown.
  - by apply next_pending.
  - by apply next_flying.
  - by apply next_kept.
Qed.

End HistoryStep.

Lemma plane_history_initial n : history [] (initial n).
Proof.
  assert (forall u, ~ flying (initial n) u) as Hf.
  { intros u (t & id & ups & (p & Hp & Hb) & _). by rewrite (initial_idle _ _ _ Hp) in Hb. }
  split; try (intros; exfalso; by eapply not_elem_of_nil).
  - intros x a b g k v. by rewrite initial_act.
  - intros u Hu. by destruct (Hf u).
  - intros t p k v m Hp. by rewrite (initial_idle _ _ _ Hp).
  - intros t p k a Hp. by rewrite (initial_idle _ _ _ Hp).
  - intros u a Hu. by destruct (Hf u).
  - intros t p k u Hp. by rewrite (initial_idle _ _ _ Hp).
  - intros x a b g k. by rewrite initial_act.
Qed.

(** ** Runs *)
Context (Hactive : 0 <= active_limit).

Record recorded (tr : list event) (s : config) : Prop := {
  r_invariant : invariant s;
  r_batches : batches s;
  r_history : history tr s;
}.

Lemma run_recorded n tr s : run pw queued_limit active_limit (initial n) tr s ->
  sealed (mem s) = false -> recorded tr s.
Proof using Hlimit Hactive.
  remember (initial n) as s0 eqn:E0. induction 1 as [|s0 tr s t a es s' R IH E]; intros Hs; subst.
  - split; [by apply invariant_initial|apply batches_initial|apply plane_history_initial].
  - assert (sealed (mem s) = false) as Hs0.
    { destruct (sealed (mem s)) eqn:Es; [|done].
      destruct (step_inv _ _ _ _ _ _ _ _ E) as (p & r & _ & E' & -> & _).
      pose proof (sealed_step _ _ _ _ _ _ _ _ E' Es). simpl in Hs. congruence. }
    destruct (IH eq_refl Hs0) as [I B H]. split.
    + by eapply invariant_step.
    + by eapply batches_step.
    + destruct I as [G L C]. destruct (step_change _ _ _ Hlimit s t a s' es G L C E Hs) as [_ (p & p' & Ht & Es & K)].
      eapply (plane_history_step s s' t p p'); try done. by rewrite Es.
Qed.

End History.
End DataPlaneHistory.
