(* ===== verification/DataPlaneTheorems.v ===== *)
(** * What the RTD data plane guarantees

    The theorems hold in every interleaving until the server is sealed for
    termination.  The last section has two schedules of the machine on which
    the code does something else than it means to: a decrement that stops the
    process after a termination, and a notification that is not sent. *)

From S2P Require Import Prelude SealableCounter Errors Channel DataShard ShardInvariant DataPlane DataPlaneSteps DataPlaneInvariant DataPlaneChange DataPlaneRefresh DataPlaneHistory.
Import SealableCounter.Transitions Errors Channel DataShard.Shard ShardInvariant.ShardInvariant DataPlane DataPlaneSteps DataPlaneInvariant DataPlaneChange DataPlaneRefresh DataPlaneHistory.

Local Open Scope Z_scope.

Module DataPlaneTheorems.

Section Theorems.
Context (pw : pointer_width) (queued_limit active_limit : Z).
Abbreviation step := (step pw queued_limit active_limit).
Abbreviation run := (run pw queued_limit active_limit).
Abbreviation act := (act pw).
Abbreviation pnd := (pnd pw).
Abbreviation recorded := (recorded pw queued_limit active_limit).

(** The limits of the two quotas leave room in the counters of the server. *)
Definition limits_fit : Prop := 0 <= queued_limit /\ queued_limit + 64 < 2 ^ bits pw /\ 0 <= active_limit.

(** States reached while the server is open. *)
Definition open_run (n : nat) (tr : list event) (s : config) : Prop :=
  limits_fit /\ run (initial n) tr s /\ sealed (mem s) = false.

Lemma open_recorded n tr s : open_run n tr s -> recorded tr s.
Proof. intros ((H1 & H2 & H3) & R & Hs). by eapply run_recorded. Qed.

(** ** Counters *)

(** No thread is inside a shard. *)
Definition shards_free (m : core) : Prop := forall i c, cells m !! i = Some c -> holder c = None.

Definition sum_shards (f : TopicShard -> Z) (m : core) : Z := ztotal (fun c => f (shard c)) (cells m).

Lemma free_sum s tr f g : recorded tr s -> shards_free (mem s) ->
  (forall x, f (measure x) = g x) -> ztotal (fun c => f (base c)) (cells (mem s)) = sum_shards g (mem s).
Proof.
  intros [[G L _] _ _] Hf Hg. unfold sum_shards. apply ztotal_ext. intros i c Hc.
  destruct (good_settled _ _ _ (mem s) i c G Hc) as [-> _]; [|apply Hg].
  by apply (lock_free _ _ L i), (Hf i).
Qed.

(** ** Order of what is shown *)
Definition in_order (tr : list event) : Prop :=
  forall tr1 tr2 x g n v, tr = tr1 ++ Shown x g n v :: tr2 ->
  Stored x g n v ∈ tr1 /\ forall n' v', Shown x g n' v' ∈ tr1 -> n' < n.

Lemma in_order_app tr es :
  in_order tr ->
  (forall x g n v, Shown x g n v ∈ es -> es = [Shown x g n v] /\ Stored x g n v ∈ tr
     /\ forall n' v', Shown x g n' v' ∈ tr -> n' < n) ->
  in_order (tr ++ es).
Proof.
  intros Ht He tr1 tr2 x g n v E.
  assert (forall tr2, es = Shown x g n v :: tr2 -> tr1 = tr ->
    Stored x g n v ∈ tr1 /\ forall n' v', Shown x g n' v' ∈ tr1 -> n' < n) as Hnew.
  { intros tr3 -> ->. by destruct (He x g n v ltac:(by left)) as (_ & ? & ?). }
  apply app_eq_inv in E as [(k & E1 & E2)|(k & E1 & E2)].
  - destruct k as [|e k].
    + rewrite app_nil_r in E1. by eapply Hnew.
    + injection E2 as <- _. by eapply Ht.
  - destruct (He x g n v) as (Es & _); [rewrite E2; apply elem_of_app; right; by left|].
    rewrite Es in E2. destruct k as [|e [|]]; try done.
    rewrite app_nil_r in E1. by eapply Hnew.
Qed.

(** One step adds a value to what was shown only in order. *)
Lemma shown_step tr s t a s' es : recorded tr s -> limits_fit ->
  step t a s = Done (Some (s', es)) -> sealed (mem s') = false ->
  forall x g n v, Shown x g n v ∈ es -> es = [Shown x g n v] /\ Stored x g n v ∈ tr
     /\ forall n' v', Shown x g n' v' ∈ tr -> n' < n.
Proof.
  intros [[G L C] B H] (L1 & L2 & L3) E Hs x g n v Hin.
  destruct (step_change _ _ _ (conj L1 L2) s t a s' es G L C E Hs) as [_ (p & p' & Ht & Es & K)].
  destruct (change_shown _ _ _ _ _ _ _ _ _ _ K Hin)
    as [-> [(k & y & Ep & -> & -> & _)|(u & ups & c & Ep & _ & -> & -> & -> & -> & _)]]; split; try done.
  - rewrite Ep in Ht. split; [by eapply (h_value _ _ _ H)|].
    intros n' v' Hold. by destruct (h_unshown _ _ _ H _ _ k _ _ _ _ Ht eq_refl Hold).
  - assert (flying s u) as Hu.
    { exists t, (r_id c), (u :: ups). split; [exists p; split; [done|by rewrite Ep]|by left]. }
    split; [by apply (h_batch _ _ _ H)|]. intros n' v' Hold. by eapply (h_flying _ _ _ H).
Qed.

Lemma run_open n tr s t a s' es : open_run n tr s \/ sealed (mem s) = true ->
  step t a s = Done (Some (s', es)) -> sealed (mem s') = false -> open_run n tr s.
Proof.
  intros [?|Hs] E Hs'; [done|]. destruct (step_inv _ _ _ _ _ _ _ _ E) as (p & r & _ & E' & -> & _).
  pose proof (sealed_step _ _ _ _ _ _ _ _ E' Hs). simpl in Hs'. congruence.
Qed.

Lemma run_in_order n tr s : open_run n tr s -> in_order tr.
Proof.
  intros (L & R & Hs). remember (initial n) as s0 eqn:E0. revert Hs.
  induction R as [|s0 tr s t a es s' R IH E]; intros Hs; subst.
  - intros [|] ? ? ? ? ?; done.
  - assert (open_run n tr s) as O.
    { eapply run_open; [|done..]. destruct (sealed (mem s)) eqn:Es; [by right|left]. done. }
    apply in_order_app; [apply IH; [done|apply O]|].
    eapply shown_step; try done. by eapply open_recorded.
Qed.


(** C23: The process is never stopped while the server is open: in every
    interleaving of publications, connections, disconnections, refreshes,
    notifications and permits of other servers, every step of every thread
    returns, so no checked decrement of a counter or quota finds zero and no
    shard count overflows. *)
Theorem open_server_never_stops n tr s t a : open_run n tr s -> exists o, step t a s = Done o.
Proof.
  intros R. destruct (open_recorded _ _ _ R) as [I _ _]. destruct R as ((L1 & L2 & _) & _).
  by eapply step_done.
Qed.

(** C15: Whenever no thread is inside a shard, the counters no mutex protects
    are exact: the pending and the deliverable count are the numbers of queued
    and of queued and committed updates of all shards, a bit of the ready mask
    is set exactly for the shards that have something deliverable, and each
    quota has been charged for exactly what is queued or connected and the
    permits of the other servers, within its limit. *)
Theorem counters_are_exact n tr s : open_run n tr s -> shards_free (mem s) ->
  let k := counters (mem s) in
  pending_updates k = sum_shards queued_total (mem s)
  /\ deliverable_pending k = sum_shards deliverables (mem s)
  /\ queued_used k = foreign_queued (mem s) + sum_shards queued_total (mem s)
  /\ active_used k = foreign_active (mem s)
       + sum_shards (fun sh => Z.of_nat (size (active_by_topic sh))) (mem s)
  /\ queued_used k <= queued_limit /\ active_used k <= active_limit
  /\ forall i c, cells (mem s) !! i = Some c ->
       Z.testbit (ready_shards k) (Z.of_nat i) = true <-> 0 < deliverables (shard c).
Proof.
  intros R Hf k. pose proof (open_recorded _ _ _ R) as Rec. pose proof Rec as [[G L _] _ _].
  assert (forall i c, cells (mem s) !! i = Some c ->
    deliverable_count (shard c) = deliverables (shard c)) as Hd.
  { intros i c Hc. destruct (good_cells _ _ _ _ G _ _ Hc) as [Hok _]. apply (count_exact _ _ _ Hok). }
  split_and!.
  - unfold k. rewrite (good_pending _ _ _ _ G). by eapply free_sum.
  - unfold k. rewrite (good_deliverable _ _ _ _ G), (free_sum s tr t_deliverable deliverable_count); try done.
    apply ztotal_ext. intros i c. apply Hd.
  - unfold k. rewrite (good_queued _ _ _ _ G). f_equal. by eapply free_sum.
  - unfold k. rewrite (good_active _ _ _ _ G). f_equal. by eapply free_sum.
  - apply (good_limits _ _ _ _ G).
  - apply (good_limits _ _ _ _ G).
  - intros i c Hc. destruct (good_settled _ _ _ _ i c G Hc) as [_ Hr]; [by apply (lock_free _ _ L i), (Hf i)|].
    unfold k. rewrite Hr. unfold ready. rewrite (Hd _ _ Hc). pose proof (deliverables_le (shard c)).
    rewrite negb_true_iff, Z.eqb_neq. lia.
Qed.

(** C10: The host is shown only values that were accepted from the sink of that
    connection before, and the values of one connection in the order of their
    acceptance, none twice. *)
Theorem values_are_shown_in_order n tr s : open_run n tr s -> in_order tr.
Proof.
  intros R. by eapply run_in_order.
Qed.

(** Every value a slot holds or has in flight was accepted. *)
Lemma version_stored tr s x a b g m : recorded tr s -> act (mem s) x = Some a ->
  slot_version b a = Some (g, m) -> exists w, Stored x g m w ∈ tr.
Proof.
  intros [_ B H] Ha Hv. unfold slot_version in Hv.
  destruct (at_buffer b (values a)) as [|g' m' w|g' m'] eqn:Hs; [done|..]; injection Hv as -> ->.
  - exists w. by eapply (h_slot _ _ _ H).
  - destruct (b_flight _ _ B _ _ _ _ _ Ha Hs) as (u & Hu & <- & _ & <- & <-).
    exists (u_value u). by apply (h_batch _ _ _ H).
Qed.

(** C1: The newest value accepted for a connection that is still connected is
    pending in one of the buffers until the host is shown it: failed refreshes,
    overload and concurrent refreshes of other topics lose nothing. *)
Theorem newest_value_is_kept n tr s x a v k :
  open_run n tr s -> act (mem s) x = Some a -> Stored x (generation a) k v ∈ tr ->
  (forall k' v', Stored x (generation a) k' v' ∈ tr -> k' <= k) ->
  (exists b, pnd (mem s) b x = Some (Queued (generation a) k)) \/ Shown x (generation a) k v ∈ tr.
Proof.
  intros R Ha Hin Hmax. pose proof (open_recorded _ _ _ R) as Rec. pose proof Rec as [_ _ H].
  destruct (h_latest _ _ _ H _ _ _ _ a Hin Ha eq_refl) as (b & m & Hl & Hv & Hle).
  destruct (version_stored _ _ _ _ _ _ _ Rec Ha Hv) as [w Hw].
  assert (m = k) as -> by (pose proof (Hmax _ _ Hw); lia).
  destruct (h_kept _ _ _ H _ _ _ _ _ Ha Hl Hv) as [Hp|[u Hs]]; [left; by exists b|right].
  by rewrite (h_unique _ _ _ H _ _ _ _ _ Hin (h_shown _ _ _ H _ _ _ _ Hs)).
Qed.

(** C24: Refreshes exclude each other: a refresh is recorded as active exactly
    while one thread owns it, nobody else holds collected updates, those it
    holds have distinct topics, and no value is in flight outside of them, so
    none is while no refresh is active. *)
Theorem refreshes_exclude_each_other n tr s : open_run n tr s ->
  (forall id, refreshing (mem s) = Some id <-> exists t ups, holds s t id ups)
  /\ (forall t t' id id' ups ups', holds s t id ups -> holds s t' id' ups' ->
        t = t' /\ id = id' /\ NoDup (u_topic <$> ups))
  /\ (forall x a b g k, act (mem s) x = Some a -> at_buffer b (values a) = InFlight g k ->
        exists t id ups u, refreshing (mem s) = Some id /\ holds s t id ups /\ u ∈ ups
          /\ u_topic u = x /\ u_buffer u = b /\ u_generation u = g /\ u_sequence u = k).
Proof.
  intros R. destruct (open_recorded _ _ _ R) as [_ B _]. split_and!.
  - intros id. split; [apply (b_has _ _ B)|]. intros (t & ups & Hh). by eapply (b_id _ _ B).
  - intros t t' id id' ups ups' Hh Hh'. split_and!.
    + by eapply (b_one _ _ B).
    + pose proof (b_id _ _ B _ _ _ Hh). pose proof (b_id _ _ B _ _ _ Hh'). congruence.
    + by eapply (b_nodup _ _ B).
  - intros x a b g k Ha Hs. destruct (b_flight _ _ B _ _ _ _ _ Ha Hs) as (u & (t & id & ups & Hh & Hu) & E).
    exists t, id, ups, u. split; [by eapply (b_id _ _ B)|done].
Qed.

(** The pending entry that has no newer one beside it. *)
Lemma newest_unique i sh x a b q : ShardInvariant.shard_ok pw i sh ->
  active_by_topic sh !! x = Some a -> pend b x sh = Some q ->
  (forall b' q', pend b' x sh = Some q' -> q_sequence q' <= q_sequence q) ->
  newest sh x = Some (b, q).
Proof.
  intros Hok Ha Hq Hmax. destruct (newest sh x) as [[b0 q0]|] eqn:Hn.
  2:{ exfalso. unfold newest in Hn. destruct b; simpl in *; rewrite Hq in Hn; repeat case_match; done. }
  pose proof (newest_pend _ _ _ _ Hn) as Hq0.
  pose proof (newest_newer pw i sh x b0 q0 Hok Hn b q Hq). pose proof (Hmax _ _ Hq0).
  destruct (decide (b0 = b)) as [->|Hb]; [congruence|]. exfalso.
  destruct (pend_active _ _ _ _ _ _ Hok Hq) as (y & Hy & Hao & Hv & _).
  destruct (pend_active _ _ _ _ _ _ Hok Hq0) as (y0 & Hy0 & _ & Hv0 & _).
  assert (y0 = y) as -> by congruence. destruct (latest_slot y) as [l|] eqn:Hl.
  - destruct (latest_newest _ Hao l Hl) as (g & k & Hvl & Hlt).
    destruct (decide (l = b)) as [->|].
    + assert (b0 = other b) as -> by (by destruct b, b0). apply Hlt in Hv0.
      rewrite Hv in Hvl. injection Hvl as _ <-. lia.
    + assert (l = b0) as -> by (by destruct b, b0, l). assert (b = other b0) as -> by (by destruct b, b0).
      apply Hlt in Hv. rewrite Hv0 in Hvl. injection Hvl as _ <-. lia.
  - pose proof (latest_none _ Hao Hl b) as He. unfold slot_version in Hv. by rewrite He in Hv.
Qed.

(** C11: Collecting a shard takes, for every committed connection of the shard
    that has something pending, exactly one update: the newest pending one,
    with the value that was accepted under its sequence; and nothing else. *)
Theorem collection_takes_the_newest n tr s t id mask ups f s' es :
  open_run n tr s -> threads s !! t = Some (Collect id mask ups) -> mask <> 0 ->
  step t (Run f) s = Done (Some (s', es)) ->
  exists l, threads s' !! t = Some (Collect id (Z.land mask (mask - 1)) (ups ++ l))
  /\ NoDup (u_topic <$> l)
  /\ forall u, u ∈ l <->
       shard_index pw (u_topic u) = Z.log2 (Z.land mask (- mask))
       /\ exists a, act (mem s) (u_topic u) = Some a /\ committed a = true
          /\ generation a = u_generation u
          /\ pnd (mem s) (u_buffer u) (u_topic u) = Some (Queued (u_generation u) (u_sequence u))
          /\ (forall b q, pnd (mem s) b (u_topic u) = Some q -> q_sequence q <= u_sequence u)
          /\ Stored (u_topic u) (u_generation u) (u_sequence u) (u_value u) ∈ tr.
Proof.
  intros R Ht Hm E. pose proof (open_recorded _ _ _ R) as [I B H]. pose proof I as [G L C].
  set (i := Z.log2 (Z.land mask (- mask))).
  destruct (step_inv _ _ _ _ _ _ _ _ E) as (p & r & Hp & E' & -> & _).
  rewrite Ht in Hp. injection Hp as <-. simpl in E'. rewrite (proj2 (Z.eqb_neq _ _) Hm) in E'.
  unfold with_cell in E'. fold i in E'. destruct (cells (mem s) !! Z.to_nat i) as [c|] eqn:Hc; [|done].
  destruct (holder c); [done|]. destruct (lowest_bit mask Hm) as (Hi & _). fold i in Hi.
  pose proof (section_shard_ok pw _ _ (mem s) i c G Hi Hc) as Hok.
  destruct (collect_ok pw i (shard c) Hok ups) as (sh' & Ec & _). rewrite Ec in E'. injection E' as <-.
  exists (omap (collected_update (shard c)) (collect_order (shard c))). split.
  { simpl. by rewrite list_lookup_insert_eq by (by eapply lookup_lt_Some). }
  destruct (collect_order_spec pw i (shard c) Hok) as [Hnd Ho].
  destruct (collected_topics (shard c) _ Hnd) as [Hn Hl]. split; [done|].
  assert (forall u, shard_index pw (u_topic u) = i ->
    act (mem s) (u_topic u) = active_by_topic (shard c) !! u_topic u
    /\ forall b, pnd (mem s) b (u_topic u) = pend b (u_topic u) (shard c)) as Hview.
  { intros u Hu. split; [apply act_cell|intros b; apply pnd_cell]; by rewrite Hu. }
  intros u. split.
  - intros Hu. destruct (Hl u Hu) as [Hx Hcu].
    destruct (collect_order_act pw (mem s) i c _ Hc Hok Hx) as (Ei & _).
    destruct (Hview u Ei) as [Hact Hpnd]. split; [done|].
    destruct (collected_update_inv _ _ _ Hcu) as (a & b & q & Ha & Hnw & Hcm & _ & Eb & Hv).
    pose proof (newest_pend _ _ _ _ Hnw) as Hq.
    destruct (pend_active _ _ _ _ _ _ Hok Hq) as (y & Hy & _ & Hver & Eg & _).
    assert (y = a) as -> by congruence. unfold slot_version in Hver. rewrite Hv in Hver.
    injection Hver as Eq Es. exists a. rewrite Hact, Hpnd, Eb. split_and!; [done|done|congruence| | |].
    + rewrite Hq. destruct q. simpl in *. congruence.
    + intros b' q' Hq'. rewrite Hpnd in Hq'. rewrite Es. by eapply newest_newer.
    + eapply (h_slot _ _ _ H); [by rewrite Hact|done].
  - intros (Hu & a & Ha & Hcm & Eg & Hq & Hmax & Hin). destruct (Hview u Hu) as [Hact Hpnd].
    rewrite Hact in Ha. rewrite Hpnd in Hq.
    pose proof (newest_unique _ _ _ _ _ _ Hok Ha Hq (fun b q E => Hmax b q (eq_trans (Hpnd b) E))) as Hnw.
    destruct (collect_takes _ _ _ s t id mask ups c _ a _ _ I B Ht Hm Hc Ha Hcm Hnw) as (v & Hcu & Hv).
    apply list_elem_of_omap. exists (u_topic u). split; [apply Ho; by exists (u_buffer u)|].
    rewrite Hcu. simpl in Hv |- *. assert (v = u_value u) as ->.
    { eapply (h_unique _ _ _ H); [|exact Hin]. rewrite <- Eg. eapply (h_slot _ _ _ H); [by rewrite Hact|done]. }
    rewrite Eg. by destruct u.
Qed.

End Theorems.

(** ** Schedules

    Concrete runs on 64-bit targets with quotas of ten: a connection, a
    notifier, publications and a refresh. *)
Lemma moves_run pw ql al moves s0 tr0 s tr s' :
  run pw ql al s0 tr0 s -> schedule pw ql al moves s = Done (Some (s', tr)) ->
  run pw ql al s0 (tr0 ++ tr) s'.
Proof.
  revert tr0 s tr. induction moves as [|[t a] moves IH]; intros tr0 s tr R; simpl.
  - intros [= <- <-]. by rewrite app_nil_r.
  - destruct (step pw ql al t a s) as [[[s1 es]|]| |] eqn:E; try done. simpl.
    destruct (schedule pw ql al moves s1) as [[[s2 tr2]|]| |] eqn:E2; try done. simpl.
    intros [= <- <-]. rewrite app_assoc. eapply IH; [|done]. by eapply run_step'.
Qed.

Definition reached (moves : list (nat * action)) : option (config * list event) :=
  match schedule W64 10 10 moves (initial 5) with Done o => o | _ => None end.

Definition state_of (moves : list (nat * action)) : config :=
  match reached moves with Some (s, _) => s | None => initial 5 end.

Definition trace_of (moves : list (nat * action)) : list event :=
  match reached moves with Some (_, tr) => tr | None => [] end.

Definition is_open_run (moves : list (nat * action)) : bool :=
  match reached moves with Some (s, _) => negb (sealed (mem s)) | None => false end.

Lemma reached_open moves : is_open_run moves = true ->
  open_run W64 10 10 5 (trace_of moves) (state_of moves).
Proof.
  unfold is_open_run, trace_of, state_of, reached.
  destruct (schedule W64 10 10 moves (initial 5)) as [[[s tr]|]| |] eqn:E; try done. intros Hs.
  split; [by repeat split|]. split; [|by apply negb_true_iff].
  change tr with ([] ++ tr). eapply moves_run; [constructor|done].
Qed.

Definition free_now (m : core) : bool :=
  forallb (fun c => match holder c with None => true | Some _ => false end) (cells m).

Lemma free_now_free m : free_now m = true -> shards_free m.
Proof.
  unfold free_now. rewrite forallb_forall. intros H i c Hc.
  specialize (H c). destruct (holder c); [|done].
  by specialize (H (proj1 (list_elem_of_In _ _) (list_elem_of_lookup_2 _ _ _ Hc))).
Qed.

Definition continues (t n : nat) : list (nat * action) := replicate n (t, Run None).
Definition calls (t : nat) (o : call) (n : nat) : list (nat * action) := (t, Start o) :: continues t n.

Definition seven : StoredRtdValue := Channel.Stored (Integer 7).
Definition eight : StoredRtdValue := Channel.Stored (Integer 8).

(** Thread 0 connects topic 1, thread 1 attaches a notifier, thread 2 publishes
    a value, thread 3 begins a refresh and has its mask. *)
Definition prologue : list (nat * action) :=
  calls 0 (CallConnect 1 7) 10 ++ calls 0 CallCommit 9 ++ calls 1 (CallAttach 5) 6
  ++ calls 2 (CallPublish 1 1 seven) 17 ++ calls 3 CallRefresh 5.

(** The refresh takes the value, a newer one is published, and the refresh is
    completed. *)
Definition one_refresh : list (nat * action) :=
  prologue ++ continues 3 2 ++ calls 2 (CallPublish 1 1 eight) 14 ++ calls 3 (CallComplete Delivered) 14.

Lemma one_refresh_trace : trace_of one_refresh
  = [Stored 1 1 0 seven; Called 0; Stored 1 1 1 eight; Shown 1 1 0 seven; Called 1].
Proof. vm_compute. reflexivity. Qed.

Lemma open_server_never_stops_witness :
  is_open_run one_refresh = true
  /\ exists o, step W64 10 10 4 (Start CallRefresh) (state_of one_refresh) = Done o.
Proof.
  split; [vm_compute; reflexivity|].
  apply (open_server_never_stops W64 10 10 5 (trace_of one_refresh)).
  apply reached_open. vm_compute. reflexivity.
Defined.

Lemma counters_are_exact_witness :
  sum_shards queued_total (mem (state_of one_refresh)) = 1
  /\ pending_updates (counters (mem (state_of one_refresh)))
     = sum_shards queued_total (mem (state_of one_refresh)).
Proof.
  split; [vm_compute; reflexivity|].
  refine (proj1 (counters_are_exact W64 10 10 5 (trace_of one_refresh) _ _ _)).
  - apply reached_open. vm_compute. reflexivity.
  - apply free_now_free. vm_compute. reflexivity.
Defined.

Lemma values_are_shown_in_order_witness :
  Shown 1 1 0 seven ∈ trace_of one_refresh /\ in_order (trace_of one_refresh).
Proof.
  split; [rewrite one_refresh_trace; repeat first [by left|right]|].
  apply (values_are_shown_in_order W64 10 10 5 _ (state_of one_refresh)).
  apply reached_open. vm_compute. reflexivity.
Defined.

Lemma newest_value_is_kept_witness :
  exists a, act W64 (mem (state_of one_refresh)) 1 = Some a /\ generation a = 1
  /\ ((exists b, pnd W64 (mem (state_of one_refresh)) b 1 = Some (Queued (generation a) 1))
      \/ Shown 1 (generation a) 1 eight ∈ trace_of one_refresh).
Proof.
  eexists. split; [vm_compute; reflexivity|]. split; [reflexivity|].
  apply (newest_value_is_kept W64 10 10 5).
  - apply reached_open. vm_compute. reflexivity.
  - vm_compute. reflexivity.
  - rewrite one_refresh_trace. do 2 right. by left.
  - intros k' v' Hin. rewrite one_refresh_trace in Hin.
    repeat (apply elem_of_cons in Hin as [E|Hin]; [by inversion E|]). by apply elem_of_nil in Hin.
Defined.

Lemma refreshes_exclude_each_other_witness :
  exists ups, holds (state_of prologue) 3 0 ups
  /\ (forall id, refreshing (mem (state_of prologue)) = Some id
      <-> exists t ups, holds (state_of prologue) t id ups).
Proof.
  exists []. split; [eexists; split; [vm_compute; reflexivity|reflexivity]|].
  refine (proj1 (refreshes_exclude_each_other W64 10 10 5 (trace_of prologue) _ _)).
  apply reached_open. vm_compute. reflexivity.
Defined.

Lemma collection_takes_the_newest_witness :
  threads (state_of prologue) !! 3%nat = Some (Collect 0 2 [])
  /\ exists s' es l, step W64 10 10 3 (Run None) (state_of prologue) = Done (Some (s', es))
     /\ threads s' !! 3%nat = Some (Collect 0 0 ([] ++ l)) /\ NoDup (u_topic <$> l).
Proof.
  split; [vm_compute; reflexivity|]. eexists _, _.
  edestruct (collection_takes_the_newest W64 10 10 5 (trace_of prologue) (state_of prologue) 3 0 2 [] None)
    as (l & H1 & H2 & _).
  - apply reached_open. vm_compute. reflexivity.
  - vm_compute. reflexivity.
  - done.
  - vm_compute. reflexivity.
  - exists l. split; [vm_compute; reflexivity|]. split; [exact H1|exact H2].
Defined.


(** ** Three schedules the code does not mean to allow *)

(** Thread 0 is connecting, thread 2 has passed the check of the lifecycle in
    [publish] and loaded the epoch; thread 3 terminates the server and clears
    the shards; thread 2 then commits its value; thread 3 stores zero into the
    counters; the roll-back of the connection finds the pending update. *)
Definition termination_race : list (nat * action) :=
  calls 0 (CallConnect 1 7) 10 ++ calls 2 (CallPublish 1 1 seven) 3
  ++ calls 3 CallTerminate 67 ++ continues 2 7 ++ continues 3 3
  ++ calls 0 CallRollback 3.

(** The clearing of a termination and a publication that has already passed
    its check make the roll-back of a connection stop the process: it takes
    one from a counter that termination has set to zero. *)
Theorem termination_race_stops_the_process :
  exists s tr, schedule W64 10 10 termination_race (initial 5) = Done (Some (s, tr))
    /\ sealed (mem s) = true /\ pending_updates (counters (mem s)) = 0
    /\ step W64 10 10 0 (Run None) s = Aborted.
Proof. eexists _, _. split; [vm_compute; reflexivity|]. repeat split. Qed.

(** Threads 0 and 2 publish to two topics.  The first has checked the epoch
    under its shard when the second value is notified and a whole refresh
    runs; it then commits, and finds its epoch already notified. *)
Definition lost_notification : list (nat * action) :=
  calls 0 (CallConnect 1 7) 10 ++ calls 0 CallCommit 9
  ++ calls 0 (CallConnect 2 8) 10 ++ calls 0 CallCommit 9
  ++ calls 1 (CallAttach 5) 6 ++ calls 2 (CallPublish 1 1 seven) 17
  ++ calls 0 (CallPublish 2 2 eight) 5
  ++ calls 3 CallRefresh 7 ++ calls 3 (CallComplete Delivered) 13
  ++ continues 0 8.

(** A value can stay deliverable with a notifier attached, every call returned
    and no notification outstanding: nothing tells the host until the next
    publication or heartbeat. *)
Theorem notification_can_be_lost :
  exists s tr, schedule W64 10 10 lost_notification (initial 5) = Done (Some (s, tr))
    /\ sealed (mem s) = false /\ threads s = replicate 5 Idle
    /\ deliverable_pending (counters (mem s)) = 1
    /\ notifier (refresh (mem s)) = Some 5
    /\ phase (refresh (mem s)) = BetweenRefreshes Dormant
    /\ tr = [Stored 1 1 0 seven; Called 0; Shown 1 1 0 seven; Stored 2 2 0 eight].
Proof. eexists _, _. split; [vm_compute; reflexivity|]. by repeat split. Qed.


(** The host panics while it is notified; a second value is published and the
    heartbeat pulses. *)
Definition panicked_notification : list (nat * action) :=
  calls 0 (CallConnect 1 7) 10 ++ calls 0 CallCommit 9 ++ calls 1 (CallAttach 5) 6
  ++ calls 2 (CallPublish 1 1 seven) 13 ++ (2%nat, Unwind) :: continues 2 3
  ++ calls 0 (CallPublish 1 1 eight) 10 ++ calls 1 CallPulse 6.

(** After a panic of the host call the signal keeps saying that a call is in
    progress, so neither a publication nor the heartbeat notifies again. *)
Theorem panicked_notification_silences_the_server :
  exists s tr, schedule W64 10 10 panicked_notification (initial 5) = Done (Some (s, tr))
    /\ sealed (mem s) = false /\ threads s = replicate 5 Idle
    /\ deliverable_pending (counters (mem s)) = 1
    /\ notifier (refresh (mem s)) = Some 5
    /\ phase (refresh (mem s)) = BetweenRefreshes (Calling 0 0)
    /\ tr = [Stored 1 1 0 seven; Stored 1 1 1 eight].
Proof. eexists _, _. split; [vm_compute; reflexivity|]. by repeat split. Qed.

End DataPlaneTheorems.
