(* ===== verification/ModuleRuntime.v ===== *)
(** * The module epoch and its authorities

    Models crates/xlfn/src/module_runtime.rs, the phases and the epoch of
    crates/xlfn/src/ingress.rs with the export calls it counts, the callback
    admission of callback_gate.rs, and the identities of generation.rs.  One
    epoch of the module runs from [begin_open] to the certificate of its
    quiescence; the right to move it on is a token that Rust moves and cannot
    copy: opening, lease, closing, drained, retained.  An operation takes the
    token it consumes and returns the next one.

    Each operation is one whole call.  The gates that count export calls and
    callbacks are those of DrainGate.v, over the counters of SealableCounter.v:
    here a gate is the list of what it admitted, without a bound, and a wait
    for it to drain returns only once the list is empty. *)

From S2P Require Import Prelude Errors.
Import Errors.

Local Open Scope Z_scope.

(** ** Identities: generation.rs

    [NonZeroU64] counters; zero is no identity, and the last one has no
    successor. *)
Module Identity.

Definition checked_next (n : Z) : option Z := checked_add 64 n 1.

(** [OpenAttemptId::new] and the promotion to [RuntimeGeneration]. *)
Definition OpenAttemptId_new (raw : Z) : option Z := if raw =? 0 then None else Some raw.
Definition into_runtime_generation (attempt : Z) : Z := attempt.

(** [RemovalAttemptId::ONE]. *)
Definition ONE : Z := 1.

Lemma checked_next_spec n m : checked_next n = Some m -> m = n + 1 /\ m < 2 ^ 64.
Proof. unfold checked_next, checked_add. case_match; intros [= <-]. lia. Qed.

Lemma checked_next_some n : n + 1 < 2 ^ 64 -> checked_next n = Some (n + 1).
Proof. unfold checked_next, checked_add. intros H. by rewrite (proj2 (Z.ltb_lt _ _) H). Qed.

End Identity.

Module Epoch.

(** ** Export ingress: its phase and epoch *)
Inductive ingress_phase : Type := PHASE_OPENING | PHASE_OPEN | PHASE_CLOSING | PHASE_CLOSED.

#[export] Instance ingress_phase_eq_dec : EqDecision ingress_phase.
Proof. solve_decision. Defined.

Record ExportIngress : Type := Ingress { phase : ingress_phase; epoch : Z }.

Definition ingress_new : ExportIngress := Ingress PHASE_CLOSED 0.

(** [begin_opening]: both assertions, then the next epoch. *)
Definition begin_opening (active_calls : Z) (i : ExportIngress) : outcome ExportIngress :=
  if negb (bool_decide (phase i = PHASE_CLOSED)) || negb (active_calls =? 0) then Panicked
  else match Identity.checked_next (epoch i) with
       | Some e => Done (Ingress PHASE_OPENING e)
       | None => Aborted
       end.

(** The two phase checks of [complete_open], around the publication it runs.
    An entry that read the phase before the opening is counted even after
    [complete_open] has waited, so nothing is assumed of the calls in progress. *)
Definition still_opening (i : ExportIngress) : bool := bool_decide (phase i = PHASE_OPENING).
Definition publish_open (i : ExportIngress) : option ExportIngress :=
  if still_opening i then Some (Ingress PHASE_OPEN (epoch i)) else None.

(** [begin_close_with]: only an open or opening ingress starts to close. *)
Definition begin_close_with (i : ExportIngress) : ExportIngress :=
  match phase i with
  | PHASE_OPEN | PHASE_OPENING => Ingress PHASE_CLOSING (epoch i)
  | _ => i
  end.

(** [seal_and_drain] at its return: [fault] is the answer of the message pump
    that waits under COM; [waits_for_exports] says when it has not returned. *)
Definition ingress_seal_and_drain (fault : option XllError) (i : ExportIngress)
  : outcome (XllResult Z * ExportIngress) :=
  match phase i with
  | PHASE_OPEN | PHASE_OPENING => Panicked
  | PHASE_CLOSING | PHASE_CLOSED =>
      match fault with
      | Some error => Done (Err error, i)
      | None => Done (Ok (epoch i), Ingress PHASE_CLOSED (epoch i))
      end
  end.

(** ** The module: ingress, callback admission and the RTD certificate

    [export_calls] holds the epoch of every counted [ExportCallGuard];
    [active_callbacks] counts the permits of the callback gate, and
    [callbacks_open] is its phase. *)
Record ModuleRuntime : Type := Runtime {
  ingress : ExportIngress;
  export_calls : list Z;
  callbacks_open : bool;
  active_callbacks : Z;
  logical_quiescence_certified : bool;
}.

Definition set_ingress (i : ExportIngress) (m : ModuleRuntime) : ModuleRuntime :=
  Runtime i (export_calls m) (callbacks_open m) (active_callbacks m)
    (logical_quiescence_certified m).
Definition set_export_calls (l : list Z) (m : ModuleRuntime) : ModuleRuntime :=
  Runtime (ingress m) l (callbacks_open m) (active_callbacks m) (logical_quiescence_certified m).
Definition set_callbacks (opened : bool) (active : Z) (m : ModuleRuntime) : ModuleRuntime :=
  Runtime (ingress m) (export_calls m) opened active (logical_quiescence_certified m).
Definition set_certified (b : bool) (m : ModuleRuntime) : ModuleRuntime :=
  Runtime (ingress m) (export_calls m) (callbacks_open m) (active_callbacks m) b.

Definition new : ModuleRuntime := Runtime ingress_new [] false 0 false.

(** ** Export calls: [enter_with], [enter_udf_with] and the guard's drop

    Before the ingress is closed an entry is counted, rejected ones too. *)
Inductive ExportEntry : Type := AdmittedEntry | RejectedEntry.

Definition enter_with (m : ModuleRuntime) : ExportEntry * ModuleRuntime :=
  let counted := set_export_calls (epoch (ingress m) :: export_calls m) m in
  match phase (ingress m) with
  | PHASE_CLOSED => (RejectedEntry, m)
  | PHASE_OPEN => (AdmittedEntry, counted)
  | PHASE_OPENING | PHASE_CLOSING => (RejectedEntry, counted)
  end.

(** Guard [k] is dropped: it panics when the epoch has moved on. *)
Definition drop_guard (k : nat) (m : ModuleRuntime) : outcome (option ModuleRuntime) :=
  match export_calls m !! k with
  | None => Done None
  | Some e =>
      if negb (epoch (ingress m) =? e) then Panicked
      else Done (Some (set_export_calls (delete k (export_calls m)) m))
  end.

Definition active_calls (m : ModuleRuntime) : Z := Z.of_nat (length (export_calls m)).

(** [seal_and_drain] has not returned yet: it waits for the export calls,
    unless the message pump refuses the wait ([fault]). *)
Definition waits_for_exports (fault : option XllError) (m : ModuleRuntime) : bool :=
  match phase (ingress m), fault with
  | PHASE_CLOSING, None | PHASE_CLOSED, None => negb (active_calls m =? 0)
  | _, _ => false
  end.

(** ** The callback gate: [enter], [reset], [close] and the permit's drop *)
Definition callback_enter (m : ModuleRuntime) : option ModuleRuntime :=
  if callbacks_open m then Some (set_callbacks true (active_callbacks m + 1) m) else None.

Definition callback_leave (m : ModuleRuntime) : option ModuleRuntime :=
  if active_callbacks m =? 0 then None
  else Some (set_callbacks (callbacks_open m) (active_callbacks m - 1) m).

(** A gate reopened over a permit that is still held stops the process. *)
Definition callback_reset (m : ModuleRuntime) : outcome ModuleRuntime :=
  if negb (active_callbacks m =? 0) then Aborted
  else Done (set_callbacks true (active_callbacks m) m).

(** [close] rejects new callbacks; it does not wait for the admitted ones. *)
Definition callback_close (m : ModuleRuntime) : ModuleRuntime :=
  set_callbacks false (active_callbacks m) m.

Definition is_current (id : Z) (m : ModuleRuntime) : bool := epoch (ingress m) =? id.

(** ** Tokens *)
Record ModuleOpening : Type := Opening { opening_id : Z }.
Record ModuleEpochLease : Type := Lease { lease_id : Z }.
Record ModuleClosing : Type := Closing { closing_id : Z }.
Record ModuleRetainedUndrained : Type := Retained { retained : ModuleClosing }.
Record ModuleExportsDrained : Type := Drained { drained_id : Z; exports : Z }.
Record ModuleQuiescent : Type := Quiescent { quiescent_id : Z }.

Definition retained_id (r : ModuleRetainedUndrained) : Z := closing_id (retained r).

Inductive ModuleAuthority : Type :=
| AClosing (c : ModuleClosing)
| ADrained (d : ModuleExportsDrained)
| ARetained (r : ModuleRetainedUndrained).

Inductive ClaimableModuleAuthority : Type :=
| ClaimOpen (l : ModuleEpochLease)
| ClaimClosing (c : ModuleClosing).

Inductive UnavailableModuleAuthority : Type :=
| UDrained (d : ModuleExportsDrained)
| URetained (r : ModuleRetainedUndrained).

Inductive ModuleCleanupReady : Type :=
| RClosing (c : ModuleClosing)
| RDrained (d : ModuleExportsDrained).

Inductive ModuleCleanupClaim : Type :=
| CReady (r : ModuleCleanupReady)
| CDeferredOwner
| CRetainedUndrained (id : Z)
| CNoModuleAuthority
| CUnavailable.

Definition authority_id (a : ModuleAuthority) : Z :=
  match a with
  | AClosing c => closing_id c
  | ADrained d => drained_id d
  | ARetained r => retained_id r
  end.

Definition claimable_id (a : ClaimableModuleAuthority) : Z :=
  match a with ClaimOpen l => lease_id l | ClaimClosing c => closing_id c end.

Definition unavailable_id (a : UnavailableModuleAuthority) : Z :=
  match a with UDrained d => drained_id d | URetained r => retained_id r end.

Definition classify (a : ModuleAuthority)
  : result ClaimableModuleAuthority UnavailableModuleAuthority :=
  match a with
  | AClosing c => Ok (ClaimClosing c)
  | ADrained d => Err (UDrained d)
  | ARetained r => Err (URetained r)
  end.

Definition into_cleanup (a : ModuleAuthority)
  : result ModuleCleanupReady ModuleRetainedUndrained :=
  match a with
  | AClosing c => Ok (RClosing c)
  | ADrained d => Ok (RDrained d)
  | ARetained r => Err r
  end.

(** ** Operations *)

(** [begin_open_internal]: the RTD state, the callback gate and the ingress. *)
Definition begin_open (m : ModuleRuntime) : outcome (ModuleOpening * ModuleRuntime) :=
  let* m := callback_reset (set_certified false m) in
  let* i := begin_opening (active_calls m) (ingress m) in
  Done (Opening (epoch i), set_ingress i m).

(** [ModuleEpochId::begin_close_effects]. *)
Definition begin_close_effects (id : Z) (m : ModuleRuntime) : outcome ModuleRuntime :=
  if negb (epoch (ingress m) =? id) then Aborted
  else Done (set_certified false (set_ingress (begin_close_with (ingress m)) m)).

Definition commit (o : ModuleOpening) : ModuleEpochLease := Lease (opening_id o).

Definition rollback (o : ModuleOpening) (m : ModuleRuntime)
  : outcome (ModuleClosing * ModuleRuntime) :=
  let* m' := begin_close_effects (opening_id o) m in Done (Closing (opening_id o), m').

Definition begin_close (l : ModuleEpochLease) (m : ModuleRuntime)
  : outcome (ModuleClosing * ModuleRuntime) :=
  let* m' := begin_close_effects (lease_id l) m in Done (Closing (lease_id l), m').

Definition into_closing (a : ClaimableModuleAuthority) (m : ModuleRuntime)
  : outcome (ModuleClosing * ModuleRuntime) :=
  match a with
  | ClaimOpen l => begin_close l m
  | ClaimClosing c => Done (c, m)
  end.

Definition seal_and_drain (fault : option XllError) (c : ModuleClosing) (m : ModuleRuntime)
  : outcome (result ModuleExportsDrained (XllError * ModuleRetainedUndrained) * ModuleRuntime) :=
  let* (r, i) := ingress_seal_and_drain fault (ingress m) in
  Done (match r with
        | Ok e => Ok (Drained (closing_id c) e)
        | Err error => Err (error, Retained c)
        end, set_ingress i m).

Definition close_callbacks (m : ModuleRuntime) : ModuleRuntime := callback_close m.

(** [ModuleExportsDrained::certify] with [LogicalQuiescencePublication]. *)
Definition certify (d : ModuleExportsDrained) (m : ModuleRuntime)
  : outcome (ModuleQuiescent * ModuleRuntime) :=
  if negb (is_current (drained_id d) m) then Aborted
  else Done (Quiescent (drained_id d), set_certified true (close_callbacks m)).

(** [ModuleCleanupReady::finish]: nothing is left of a cleaned-up epoch; a
    failed drain leaves the retained token. *)
Definition cleanup_waits (fault : option XllError) (r : ModuleCleanupReady) (m : ModuleRuntime)
  : bool :=
  match r with RClosing _ => waits_for_exports fault m | RDrained _ => false end.

Definition cleanup_finish (fault : option XllError) (r : ModuleCleanupReady) (m : ModuleRuntime)
  : outcome (result unit (XllError * ModuleAuthority) * ModuleRuntime) :=
  match r with
  | RClosing c =>
      let* (d, m') := seal_and_drain fault c m in
      match d with
      | Ok _ => Done (Ok tt, close_callbacks m')
      | Err (error, kept) => Done (Err (error, ARetained kept), m')
      end
  | RDrained _ => Done (Ok tt, close_callbacks m)
  end.

End Epoch.
