(* ===== verification/Lifecycle.v ===== *)
(** * The lifecycle of the add-in

    Models crates/xlfn/src/lifecycle/state.rs with its parts
    state/authority_slot.rs, state/removal.rs and state/opening.rs, phase.rs
    and authority.rs: the canonical state, which owns the generation in every
    phase, and the transitions of the coordinator on it.  A transition is the
    closure the source passes to [LifecycleAccess::transition]: it runs under
    the core lock, and returns its result and the effect that
    [commit_transition] then has on the read-side projections, which
    LifecycleMachine.v interleaves with the readers.

    Values of the add-in's own types are numbers.  A [Box] or [PublishedOwner]
    is its address and, where the lifecycle looks inside, its content. *)

From S2P Require Import Prelude Errors ModuleRuntime.
Import Errors ModuleRuntime.Epoch.

Local Open Scope Z_scope.

Module Lifecycle.

(** ** Phases and intents: phase.rs *)
Inductive LifecyclePhase : Type :=
| PClosed | POpening | POpen | PClosing | POpenRollbackPending | PQuarantined.

#[export] Instance LifecyclePhase_eq_dec : EqDecision LifecyclePhase.
Proof. solve_decision. Defined.

Definition phase_code (p : LifecyclePhase) : Z :=
  match p with
  | PClosed => 0 | POpening => 1 | POpen => 2 | PClosing => 3
  | POpenRollbackPending => 4 | PQuarantined => 5
  end.

Definition from_raw (value : Z) : outcome LifecyclePhase :=
  match value with
  | 0 => Done PClosed
  | 1 => Done POpening
  | 2 => Done POpen
  | 3 => Done PClosing
  | 4 => Done POpenRollbackPending
  | 5 => Done PQuarantined
  | _ => Aborted
  end.

Inductive HostLifecycleIntent : Type :=
| NoIntent | ExplicitRemovalRequested | ExplicitRemovalComplete.

#[export] Instance HostLifecycleIntent_eq_dec : EqDecision HostLifecycleIntent.
Proof. solve_decision. Defined.

(** ** Diagnostics *)
Definition OPEN_STATE : Z := from_ascii8 "OPENSTAT".
Definition OPEN_PHASE : Z := from_ascii8 "OPENPHAS".
Definition ATTEMPT_OVERFLOW : Z := from_ascii8 "ATTMOVFL".
Definition ATTEMPT_ZERO : Z := from_ascii8 "ATTMZERO".
Definition CLOSE_RUNTIME : Z := from_ascii8 "CLOSERUN".
Definition OPEN_ROLLBACK_PHASE : Z := from_ascii8 "OPRBPHAS".

(** ** Owned values *)

(** [OpeningGeneration] and [ExecutionGeneration] of generation.rs. *)
Record OpeningGeneration : Type := OpeningGen {
  shared_state : nat;
  layers : nat;
  init_config : nat;
}.

Record ExecutionGeneration : Type := ExecutionGen {
  generation_id : Z;
  generation_state : nat;
  generation_layers : nat;
}.

(** A uniquely owned allocation. *)
Record Owner (A : Type) : Type := Own { address : nat; content : A }.
Arguments Own {A} _ _.
Arguments address {A} _.
Arguments content {A} _.

(** [PublishedGeneration]: the pointers readers follow. *)
Record PublishedGeneration : Type := Publication { root : nat; root_services : nat }.

(** [GenerationServices] are known by their address. *)
Abbreviation Services := nat.

Record OpenGeneration : Type := OpenBundle {
  generation : Owner ExecutionGeneration;
  services : Services;
  publication : Owner PublishedGeneration;
  module_epoch : ModuleEpochLease;
}.

Record ClosingGeneration : Type := ClosingBundle {
  closing_generation : Owner ExecutionGeneration;
  closing_services : Services;
  closing_publication : Owner PublishedGeneration;
}.

Record OpenRetirement : Type := Retirement {
  retired_generation : Z;
  retired_services : Services;
  retired_publication : Owner PublishedGeneration;
}.

Definition into_closing_bundle (b : OpenGeneration)
  : ClosingGeneration * ClaimableModuleAuthority :=
  (ClosingBundle (generation b) (services b) (publication b), ClaimOpen (module_epoch b)).

Definition into_retirement_with_generation (c : ClosingGeneration)
  : Owner ExecutionGeneration * OpenRetirement :=
  (closing_generation c,
   Retirement (generation_id (content (closing_generation c))) (closing_services c)
     (closing_publication c)).

(** ** Payloads *)

Module OpenAbortPayload.
Inductive t : Type := Empty | Staged (opening : OpeningGeneration).

Definition opening (p : t) : option OpeningGeneration :=
  match p with Staged o => Some o | Empty => None end.

Definition take_staged (p : t) : option OpeningGeneration * t :=
  match p with Staged o => (Some o, Empty) | Empty => (None, Empty) end.
End OpenAbortPayload.

Module ClosePayload.
Inductive t : Type :=
| Empty
| Staged (opening : OpeningGeneration)
| Published (closing : ClosingGeneration)
| Retiring (retirement : OpenRetirement).

Definition is_published (p : t) : bool := match p with Published _ => true | _ => false end.

Definition opening (p : t) : option OpeningGeneration :=
  match p with Staged o => Some o | _ => None end.

Definition retiring_services (p : t) : option Services :=
  match p with
  | Retiring r => Some (retired_services r)
  | Published c => Some (closing_services c)
  | Empty | Staged _ => None
  end.

Definition take_staged (p : t) : option OpeningGeneration * t :=
  match p with Staged o => (Some o, Empty) | _ => (None, p) end.

Definition take_retirement (p : t) : option OpenRetirement * t :=
  match p with Retiring r => (Some r, Empty) | _ => (None, p) end.

(** The closure [retire] of [CloseResources::into_retiring]. *)
Definition retire (p : t) : option (Owner ExecutionGeneration) * t :=
  match p with
  | Published c => let '(g, r) := into_retirement_with_generation c in (Some g, Retiring r)
  | _ => (None, p)
  end.

Definition of_abort (p : OpenAbortPayload.t) : t :=
  match p with
  | OpenAbortPayload.Empty => Empty
  | OpenAbortPayload.Staged o => Staged o
  end.
End ClosePayload.

Module PublishedClosePayload.
Inductive t : Type :=
| Published (closing : ClosingGeneration)
| Retiring (retirement : OpenRetirement).

Definition into_close_payload (p : t) : ClosePayload.t :=
  match p with
  | Published c => ClosePayload.Published c
  | Retiring r => ClosePayload.Retiring r
  end.

Definition retiring_services (p : t) : Services :=
  match p with
  | Published c => closing_services c
  | Retiring r => retired_services r
  end.
End PublishedClosePayload.

(** ** Removal claims *)

Record OutstandingModuleClaim : Type := OutstandingClaim {
  outstanding_attempt : Z;
  outstanding_epoch : Z;
}.

Record ReturnedModuleClaim : Type := ReturnedClaim {
  returned_attempt : Z;
  returned_authority : ModuleAuthority;
}.

Inductive RemovalClaimState : Type :=
| Outstanding (c : OutstandingModuleClaim)
| Returned (c : ReturnedModuleClaim).

Definition claim_attempt (c : RemovalClaimState) : Z :=
  match c with Outstanding c => outstanding_attempt c | Returned c => returned_attempt c end.

Definition claim_epoch (c : RemovalClaimState) : Z :=
  match c with
  | Outstanding c => outstanding_epoch c
  | Returned c => authority_id (returned_authority c)
  end.

(** [OutstandingModuleClaim::return_authority]. *)
Definition return_authority (c : OutstandingModuleClaim) (a : ModuleAuthority)
  : outcome ReturnedModuleClaim :=
  if authority_id a =? outstanding_epoch c then Done (ReturnedClaim (outstanding_attempt c) a)
  else Aborted.

(** [validate_removal_owner]. *)
Definition validate_removal_owner (expected actual : Z) : outcome Z :=
  if expected =? actual then Done expected else Aborted.

(** ** Close resources *)

Record AvailableClose : Type := AvailClose {
  available_payload : ClosePayload.t;
  available_authority : ClaimableModuleAuthority;
}.

Record ClaimedClose : Type := ClaimClose {
  claimed_payload : ClosePayload.t;
  claim : RemovalClaimState;
}.

Record UnavailableClose : Type := UnavailClose {
  unavailable_payload : ClosePayload.t;
  unavailable_authority : UnavailableModuleAuthority;
}.

Inductive CleanupSelection : Type :=
| SReady (r : ModuleCleanupReady)
| SRetainedUndrained (id : Z)
| SNone
| SDeferredOwner
| SAwaitingOpenAbort.

Inductive FinalRemovalReady : Type :=
| Committed (generation module_epoch : Z)
| Uncommitted.

(** [AvailableClose::claim]. *)
Definition claim_available (attempt : Z) (a : AvailableClose) (m : ModuleRuntime)
  : outcome (ClaimedClose * ModuleClosing * ModuleRuntime) :=
  let* (closing, m') := into_closing (available_authority a) m in
  Done (ClaimClose (available_payload a)
          (Outstanding (OutstandingClaim attempt (claimable_id (available_authority a)))),
        closing, m').

Module CloseResources.
Inductive t : Type :=
| AwaitingOpenAbort (attempt : Z) (payload : OpenAbortPayload.t)
| Unowned (payload : ClosePayload.t)
| Available (a : AvailableClose)
| Claimed (c : ClaimedClose)
| Unavailable (u : UnavailableClose).

Definition with_authority (payload : ClosePayload.t) (authority : ModuleAuthority) : t :=
  match classify authority with
  | Ok a => Available (AvailClose payload a)
  | Err a => Unavailable (UnavailClose payload a)
  end.

(** [ClaimedClose::release]. *)
Definition release_claimed (expected_attempt : Z) (c : ClaimedClose) : outcome t :=
  let* _ := validate_removal_owner (claim_attempt (claim c)) expected_attempt in
  Done match claim c with
       | Returned r => with_authority (claimed_payload c) (returned_authority r)
       | Outstanding _ => Unowned (claimed_payload c)
       end.

Definition payload (r : t) : option ClosePayload.t :=
  match r with
  | AwaitingOpenAbort _ _ => None
  | Unowned p => Some p
  | Available a => Some (available_payload a)
  | Claimed c => Some (claimed_payload c)
  | Unavailable u => Some (unavailable_payload u)
  end.

Definition is_published (r : t) : bool :=
  match payload r with Some p => ClosePayload.is_published p | None => false end.

Definition opening (r : t) : option OpeningGeneration :=
  match r with
  | AwaitingOpenAbort _ p => OpenAbortPayload.opening p
  | _ => p ← payload r; ClosePayload.opening p
  end.

Definition retiring_services (r : t) : option Services :=
  p ← payload r; ClosePayload.retiring_services p.

Definition module_epoch_id (r : t) : option Z :=
  match r with
  | Available a => Some (claimable_id (available_authority a))
  | Claimed c => Some (claim_epoch (claim c))
  | Unavailable u => Some (unavailable_id (unavailable_authority u))
  | AwaitingOpenAbort _ _ | Unowned _ => None
  end.

Definition removal_attempt (r : t) : option Z :=
  match r with Claimed c => Some (claim_attempt (claim c)) | _ => None end.

Definition take_cleanup (r : t) (m : ModuleRuntime)
  : outcome (CleanupSelection * t * ModuleRuntime) :=
  match r with
  | AwaitingOpenAbort _ _ => Done (SAwaitingOpenAbort, r, m)
  | Claimed (ClaimClose _ (Outstanding _)) => Done (SDeferredOwner, r, m)
  | Available (AvailClose payload authority) =>
      let* (closing, m') := into_closing authority m in
      Done (SReady (RClosing closing), Unowned payload, m')
  | Unavailable (UnavailClose payload (UDrained d)) =>
      Done (SReady (RDrained d), Unowned payload, m)
  | Unavailable (UnavailClose payload (URetained kept)) =>
      Done (SRetainedUndrained (retained_id kept), r, m)
  | Claimed (ClaimClose payload (Returned (ReturnedClaim attempt authority))) =>
      match into_cleanup authority with
      | Ok ready =>
          Done (SReady ready,
                Claimed (ClaimClose payload
                  (Outstanding (OutstandingClaim attempt (authority_id authority)))), m)
      | Err kept =>
          Done (SRetainedUndrained (retained_id kept),
                Claimed (ClaimClose payload (Returned (ReturnedClaim attempt (ARetained kept)))),
                m)
      end
  | Unowned _ => Done (SNone, r, m)
  end.

Definition release (expected_attempt : Z) (r : t) : outcome t :=
  match r with
  | Claimed c => release_claimed expected_attempt c
  | _ => Aborted
  end.

(** [is_none] says which service slots are empty. *)
Definition final_removal_ready (is_none : Services -> bool) (m : ModuleRuntime)
  (expected_attempt : Z) (r : t) : option FinalRemovalReady :=
  match r with
  | Claimed (ClaimClose (ClosePayload.Retiring retirement) (Outstanding c)) =>
      if (outstanding_attempt c =? expected_attempt) && is_none (retired_services retirement)
         && is_current (outstanding_epoch c) m
      then Some (Committed (retired_generation retirement) (outstanding_epoch c))
      else None
  | Claimed (ClaimClose ClosePayload.Empty (Outstanding c)) =>
      if outstanding_attempt c =? expected_attempt then Some Uncommitted else None
  | _ => None
  end.

Definition open_rollback_ready (expected_attempt : Z) (r : t) : bool :=
  match r with
  | Claimed (ClaimClose ClosePayload.Empty (Outstanding c)) =>
      outstanding_attempt c =? expected_attempt
  | _ => false
  end.

(** A payload replaced in place, whatever holds it. *)
Definition map_payload {A} (f : ClosePayload.t -> option A * ClosePayload.t) (r : t)
  : option A * t :=
  match r with
  | AwaitingOpenAbort _ _ => (None, r)
  | Unowned p => let '(a, p') := f p in (a, Unowned p')
  | Available (AvailClose p x) => let '(a, p') := f p in (a, Available (AvailClose p' x))
  | Claimed (ClaimClose p x) => let '(a, p') := f p in (a, Claimed (ClaimClose p' x))
  | Unavailable (UnavailClose p x) =>
      let '(a, p') := f p in (a, Unavailable (UnavailClose p' x))
  end.

Definition take_staged (r : t) : option OpeningGeneration * t :=
  match r with
  | AwaitingOpenAbort attempt p =>
      let '(o, p') := OpenAbortPayload.take_staged p in (o, AwaitingOpenAbort attempt p')
  | _ => map_payload ClosePayload.take_staged r
  end.

Definition take_retirement (r : t) : option OpenRetirement * t :=
  map_payload ClosePayload.take_retirement r.

Definition into_retiring (r : t) : option (Owner ExecutionGeneration) * t :=
  map_payload ClosePayload.retire r.
End CloseResources.

(** ** The opening payload *)

Module ActiveOpeningClose.
Inductive t : Type :=
| AwaitingAbort (payload : OpenAbortPayload.t)
| Published (payload : PublishedClosePayload.t) (authority : ClaimableModuleAuthority).

Definition resolve (attempt : Z) (r : t) : CloseResources.t :=
  match r with
  | AwaitingAbort payload => CloseResources.AwaitingOpenAbort attempt payload
  | Published payload authority =>
      CloseResources.Available
        (AvailClose (PublishedClosePayload.into_close_payload payload) authority)
  end.
End ActiveOpeningClose.

Module ClosingState.
Inductive t : Type :=
| OpeningActive (attempt : Z) (quarantine_requested : bool) (resources : ActiveOpeningClose.t)
| Ready (resources : CloseResources.t).

Definition open_attempt (c : t) : option Z :=
  match c with OpeningActive attempt _ _ => Some attempt | Ready _ => None end.

Definition module_epoch_id (c : t) : option Z :=
  match c with
  | OpeningActive _ _ (ActiveOpeningClose.Published _ authority) => Some (claimable_id authority)
  | OpeningActive _ _ (ActiveOpeningClose.AwaitingAbort _) => None
  | Ready r => CloseResources.module_epoch_id r
  end.

Definition removal_attempt (c : t) : option Z :=
  match c with OpeningActive _ _ _ => None | Ready r => CloseResources.removal_attempt r end.

Definition opening (c : t) : option OpeningGeneration :=
  match c with
  | OpeningActive _ _ (ActiveOpeningClose.AwaitingAbort p) => OpenAbortPayload.opening p
  | OpeningActive _ _ (ActiveOpeningClose.Published _ _) => None
  | Ready r => CloseResources.opening r
  end.

Definition has_current_generation (c : t) : bool :=
  match c with
  | OpeningActive _ _ (ActiveOpeningClose.Published (PublishedClosePayload.Published _) _) => true
  | OpeningActive _ _ _ => false
  | Ready r => CloseResources.is_published r
  end.

Definition retiring_services (c : t) : option Services :=
  match c with
  | OpeningActive _ _ (ActiveOpeningClose.Published p _) =>
      Some (PublishedClosePayload.retiring_services p)
  | OpeningActive _ _ _ => None
  | Ready r => CloseResources.retiring_services r
  end.

Definition take_cleanup (c : t) (m : ModuleRuntime)
  : outcome (CleanupSelection * t * ModuleRuntime) :=
  match c with
  | OpeningActive _ _ _ => Done (SNone, c, m)
  | Ready r => let* (a, r', m') := CloseResources.take_cleanup r m in Done (a, Ready r', m')
  end.

Definition into_retiring (c : t) : option (Owner ExecutionGeneration) * t :=
  match c with
  | OpeningActive attempt requested
      (ActiveOpeningClose.Published (PublishedClosePayload.Published closing) authority) =>
      let '(g, r) := into_retirement_with_generation closing in
      (Some g, OpeningActive attempt requested
                 (ActiveOpeningClose.Published (PublishedClosePayload.Retiring r) authority))
  | OpeningActive _ _ _ => (None, c)
  | Ready r => let '(g, r') := CloseResources.into_retiring r in (g, Ready r')
  end.

Definition take_staged (c : t) : option OpeningGeneration * t :=
  match c with
  | OpeningActive attempt requested (ActiveOpeningClose.AwaitingAbort p) =>
      let '(o, p') := OpenAbortPayload.take_staged p in
      (o, OpeningActive attempt requested (ActiveOpeningClose.AwaitingAbort p'))
  | OpeningActive _ _ _ => (None, c)
  | Ready r => let '(o, r') := CloseResources.take_staged r in (o, Ready r')
  end.

Definition take_retirement (c : t) : option OpenRetirement * t :=
  match c with
  | OpeningActive _ _ _ => (None, c)
  | Ready r => let '(o, r') := CloseResources.take_retirement r in (o, Ready r')
  end.
End ClosingState.

Module OpeningPayload.
Inductive t : Type :=
| Empty
| Staged (opening : OpeningGeneration)
| Published (bundle : OpenGeneration).

Definition into_close_resources (attempt : Z) (p : t) : CloseResources.t :=
  match p with
  | Empty => CloseResources.AwaitingOpenAbort attempt OpenAbortPayload.Empty
  | Staged o => CloseResources.AwaitingOpenAbort attempt (OpenAbortPayload.Staged o)
  | Published b =>
      let '(closing, authority) := into_closing_bundle b in
      CloseResources.Available (AvailClose (ClosePayload.Published closing) authority)
  end.

Definition into_closing_state (attempt : Z) (p : t) : ClosingState.t :=
  ClosingState.OpeningActive attempt false
    match p with
    | Empty => ActiveOpeningClose.AwaitingAbort OpenAbortPayload.Empty
    | Staged o => ActiveOpeningClose.AwaitingAbort (OpenAbortPayload.Staged o)
    | Published b =>
        let '(closing, authority) := into_closing_bundle b in
        ActiveOpeningClose.Published (PublishedClosePayload.Published closing) authority
    end.

Definition take_staged (p : t) : option OpeningGeneration * t :=
  match p with Staged o => (Some o, Empty) | _ => (None, p) end.

Definition module_epoch_id (p : t) : option Z :=
  match p with Published b => Some (lease_id (module_epoch b)) | _ => None end.
End OpeningPayload.

(** ** The canonical state *)

Inductive ClosedState : Type :=
| ClosedIdle
| Finalizing (attempt : Z) (quarantine_requested : bool).

Inductive LifecycleState : Type :=
| Closed (c : ClosedState)
| Opening (attempt : Z) (payload : OpeningPayload.t)
| Open (bundle : OpenGeneration)
| Closing (c : ClosingState.t)
| OpenRollbackPending (r : CloseResources.t)
| Quarantined (r : CloseResources.t).

Definition phase (s : LifecycleState) : LifecyclePhase :=
  match s with
  | Closed _ => PClosed
  | Opening _ _ => POpening
  | Open _ => POpen
  | Closing _ => PClosing
  | OpenRollbackPending _ => POpenRollbackPending
  | Quarantined _ => PQuarantined
  end.

Definition open_attempt (s : LifecycleState) : option Z :=
  match s with
  | Opening attempt _ => Some attempt
  | Closing c => ClosingState.open_attempt c
  | _ => None
  end.

Definition state_protocol_generation (last_committed : option Z) (s : LifecycleState) : option Z :=
  match s with
  | Opening attempt _ => Some (Identity.into_runtime_generation attempt)
  | Open b => Some (generation_id (content (generation b)))
  | Closing c =>
      match ClosingState.open_attempt c with
      | Some attempt => Some (Identity.into_runtime_generation attempt)
      | None => last_committed
      end
  | OpenRollbackPending _ => last_committed
  | Closed _ | Quarantined _ => None
  end.

Definition state_opening (s : LifecycleState) : option OpeningGeneration :=
  match s with
  | Opening _ (OpeningPayload.Staged o) => Some o
  | Opening _ _ => None
  | Closing c => ClosingState.opening c
  | OpenRollbackPending r | Quarantined r => CloseResources.opening r
  | Closed _ | Open _ => None
  end.

Definition state_has_current_generation (s : LifecycleState) : bool :=
  match s with
  | Open _ => true
  | Opening _ (OpeningPayload.Published _) => true
  | Opening _ _ => false
  | Closing c => ClosingState.has_current_generation c
  | OpenRollbackPending r | Quarantined r => CloseResources.is_published r
  | Closed _ => false
  end.

Definition state_generation_services (s : LifecycleState) : option Services :=
  match s with
  | Opening _ (OpeningPayload.Published b) | Open b => Some (services b)
  | Closing c => ClosingState.retiring_services c
  | OpenRollbackPending r | Quarantined r => CloseResources.retiring_services r
  | Closed _ | Opening _ _ => None
  end.

Definition state_module_epoch_id (s : LifecycleState) : option Z :=
  match s with
  | Opening _ p => OpeningPayload.module_epoch_id p
  | Open b => Some (lease_id (module_epoch b))
  | Closing c => ClosingState.module_epoch_id c
  | OpenRollbackPending r | Quarantined r => CloseResources.module_epoch_id r
  | Closed _ => None
  end.

Definition state_removal_attempt (s : LifecycleState) : option Z :=
  match s with
  | Closed (Finalizing attempt _) => Some attempt
  | Closing c => ClosingState.removal_attempt c
  | OpenRollbackPending r | Quarantined r => CloseResources.removal_attempt r
  | Closed ClosedIdle | Opening _ _ | Open _ => None
  end.

Definition take_opening (s : LifecycleState) : option OpeningGeneration * LifecycleState :=
  match s with
  | Opening attempt p =>
      let '(o, p') := OpeningPayload.take_staged p in (o, Opening attempt p')
  | Closing c => let '(o, c') := ClosingState.take_staged c in (o, Closing c')
  | OpenRollbackPending r =>
      let '(o, r') := CloseResources.take_staged r in (o, OpenRollbackPending r')
  | Quarantined r => let '(o, r') := CloseResources.take_staged r in (o, Quarantined r')
  | Closed _ | Open _ => (None, s)
  end.

Definition take_retirement (s : LifecycleState) : option OpenRetirement * LifecycleState :=
  match s with
  | Closing c => let '(o, c') := ClosingState.take_retirement c in (o, Closing c')
  | OpenRollbackPending r =>
      let '(o, r') := CloseResources.take_retirement r in (o, OpenRollbackPending r')
  | Quarantined r => let '(o, r') := CloseResources.take_retirement r in (o, Quarantined r')
  | Closed _ | Open _ | Opening _ _ => (None, s)
  end.

(** [ClosingState::resolve_open_failure] and [request_quarantine]. *)
Definition resolve_open_failure (c : ClosingState.t) : LifecycleState :=
  match c with
  | ClosingState.OpeningActive attempt quarantine_requested resources =>
      let resources := ActiveOpeningClose.resolve attempt resources in
      if quarantine_requested then Quarantined resources
      else Closing (ClosingState.Ready resources)
  | ClosingState.Ready resources => Closing (ClosingState.Ready resources)
  end.

Definition request_quarantine (c : ClosingState.t) : LifecycleState :=
  match c with
  | ClosingState.OpeningActive attempt _ resources =>
      Closing (ClosingState.OpeningActive attempt true resources)
  | ClosingState.Ready resources => Quarantined resources
  end.

(** ** The core and its transitions *)

Record LifecycleCore : Type := Core {
  state : LifecycleState;
  host_intent : HostLifecycleIntent;
  next_lifecycle_attempt : Z;
  next_removal_attempt : Z;
  last_committed_generation : option Z;
  removal_epoch : Z;
}.

Definition core_new : LifecycleCore := Core (Closed ClosedIdle) NoIntent 1 Identity.ONE None 0.

Definition set_state (s : LifecycleState) (c : LifecycleCore) : LifecycleCore :=
  Core s (host_intent c) (next_lifecycle_attempt c) (next_removal_attempt c)
    (last_committed_generation c) (removal_epoch c).
Definition set_intent (i : HostLifecycleIntent) (c : LifecycleCore) : LifecycleCore :=
  Core (state c) i (next_lifecycle_attempt c) (next_removal_attempt c)
    (last_committed_generation c) (removal_epoch c).
Definition set_next_removal (n : Z) (c : LifecycleCore) : LifecycleCore :=
  Core (state c) (host_intent c) (next_lifecycle_attempt c) n
    (last_committed_generation c) (removal_epoch c).

Definition protocol_generation (c : LifecycleCore) : option Z :=
  state_protocol_generation (last_committed_generation c) (state c).

(** [LifecycleAccess::matches_latest_open_attempt]. *)
Definition matches_latest_open_attempt (generation : Z) (c : LifecycleCore) : bool :=
  bool_decide (checked_add 64 generation 1 = Some (next_lifecycle_attempt c)).

Definition final_removal_ready (is_none : Services -> bool) (m : ModuleRuntime) (attempt : Z)
  (c : LifecycleCore) : option FinalRemovalReady :=
  match state c with
  | Closing (ClosingState.Ready r) => CloseResources.final_removal_ready is_none m attempt r
  | _ => None
  end.

Definition open_rollback_ready (attempt : Z) (c : LifecycleCore) : bool :=
  match state c with
  | OpenRollbackPending r | Closing (ClosingState.Ready r) =>
      CloseResources.open_rollback_ready attempt r
  | _ => false
  end.

Inductive OpenFailureDisposition : Type := RollbackRequired | ClosingOwnsCleanup.

Inductive CloseRequestDisposition : Type := DClosedIdle | DFinalizing | DClosing | DQuarantined.

Inductive TransitionEffect : Type :=
| Keep
| ClearPublication
| Publish (p : Owner PublishedGeneration).

Definition publish_effect (b : OpenGeneration) : TransitionEffect := Publish (publication b).

(** [set_host_intent] and [advance_removal_epoch]. *)
Definition set_host_intent (i : HostLifecycleIntent) (c : LifecycleCore)
  : LifecycleCore * TransitionEffect := (set_intent i c, Keep).

Definition advance_removal_epoch (c : LifecycleCore) : outcome (LifecycleCore * TransitionEffect) :=
  match checked_add 64 (removal_epoch c) 1 with
  | Some e =>
      Done (Core (state c) (host_intent c) (next_lifecycle_attempt c) (next_removal_attempt c)
              (last_committed_generation c) e, Keep)
  | None => Aborted
  end.

(** [begin_opening_if_closed]. *)
Definition begin_opening_if_closed (expected_removal_epoch : Z) (c : LifecycleCore)
  : XllResult Z * LifecycleCore * TransitionEffect :=
  match state c with
  | Closed ClosedIdle =>
      if negb (removal_epoch c =? expected_removal_epoch) then (Err (Internal OPEN_PHASE), c, Keep)
      else
        let attempt_id := next_lifecycle_attempt c in
        match checked_add 64 attempt_id 1 with
        | None => (Err (Internal ATTEMPT_OVERFLOW), c, Keep)
        | Some next =>
            match Identity.OpenAttemptId_new attempt_id with
            | None => (Err (Internal ATTEMPT_ZERO), c, Keep)
            | Some attempt =>
                (Ok attempt,
                 Core (Opening attempt OpeningPayload.Empty) NoIntent next
                   (next_removal_attempt c) (last_committed_generation c) (removal_epoch c), Keep)
            end
        end
  | _ => (Err (Internal OPEN_PHASE), c, Keep)
  end.

(** [stage_opening_generation] of the control, with the transition it locks. *)
Definition stage_opening_generation (attempt_id : Z) (opening : OpeningGeneration)
  (c : LifecycleCore)
  : result unit (XllError * OpeningGeneration) * LifecycleCore * TransitionEffect :=
  if negb (bool_decide (open_attempt (state c) = Some attempt_id))
     || negb (bool_decide (phase (state c) = POpening))
  then (Err (Errors.Closing, opening), c, Keep)
  else
    match state c with
    | Opening attempt OpeningPayload.Empty =>
        (Ok tt, set_state (Opening attempt (OpeningPayload.Staged opening)) c, Keep)
    | _ => (Err (Internal OPEN_STATE, opening), c, Keep)
    end.

(** [publish_opening_generation_locked]; [root_at] and [publication_at] are
    the addresses of the two allocations it makes. *)
Record PublishOpeningError : Type := PublishError {
  error : XllError;
  error_opening : option OpeningGeneration;
  error_services : Services;
  error_module_epoch : ModuleEpochLease;
}.

Definition publish_opening_generation (root_at publication_at : nat) (generation : Z)
  (services : Services) (epoch : ModuleEpochLease) (c : LifecycleCore)
  : result unit PublishOpeningError * LifecycleCore * TransitionEffect :=
  let '(opening, s) := take_opening (state c) in
  let refused := (Err (PublishError (Internal OPEN_STATE) opening services epoch),
                  set_state s c, Keep) in
  if state_has_current_generation (state c) then refused
  else
    match state c, opening with
    | Opening attempt _, Some o =>
        let root := Own root_at (ExecutionGen generation (shared_state o) (layers o)) in
        let publication := Own publication_at (Publication root_at services) in
        (Ok tt,
         set_state (Opening attempt
           (OpeningPayload.Published (OpenBundle root services publication epoch))) c, Keep)
    | _, _ => refused
    end.

(** [commit_open]. *)
Definition commit_open (generation : Z) (c : LifecycleCore)
  : XllResult Z * LifecycleCore * TransitionEffect :=
  match state c with
  | Opening attempt (OpeningPayload.Published b) =>
      if negb (Identity.into_runtime_generation attempt =? generation)
         || negb (generation_id (content (Lifecycle.generation b)) =? generation)
      then (Err (Internal OPEN_STATE), c, Keep)
      else (Ok attempt,
            Core (Open b) (host_intent c) (next_lifecycle_attempt c) (next_removal_attempt c)
              (Some generation) (removal_epoch c), publish_effect b)
  | _ => (Err (Internal OPEN_STATE), c, Keep)
  end.

Definition record_open_failure (c : LifecycleCore)
  : OpenFailureDisposition * LifecycleCore * TransitionEffect :=
  match state c with
  | Opening attempt payload =>
      (RollbackRequired,
       set_state (OpenRollbackPending (OpeningPayload.into_close_resources attempt payload)) c, Keep)
  | OpenRollbackPending _ => (RollbackRequired, c, Keep)
  | Closing closing => (ClosingOwnsCleanup, set_state (resolve_open_failure closing) c, Keep)
  | _ => (ClosingOwnsCleanup, c, Keep)
  end.

(** ** Closing *)

(** An open bundle handed over to the closing phase. *)
Definition available_of (b : OpenGeneration) : CloseResources.t :=
  let '(closing, authority) := into_closing_bundle b in
  CloseResources.Available (AvailClose (ClosePayload.Published closing) authority).

Definition request_closing (c : LifecycleCore)
  : CloseRequestDisposition * LifecycleCore * TransitionEffect :=
  match state c with
  | Closed ClosedIdle => (DClosedIdle, c, Keep)
  | Opening attempt payload =>
      (DClosing, set_state (Closing (OpeningPayload.into_closing_state attempt payload)) c,
       ClearPublication)
  | Open b =>
      (DClosing, set_state (Closing (ClosingState.Ready (available_of b))) c, ClearPublication)
  | Closing _ => (DClosing, c, Keep)
  | OpenRollbackPending r =>
      (DClosing, set_state (Closing (ClosingState.Ready r)) c, ClearPublication)
  | Quarantined _ => (DQuarantined, c, Keep)
  | Closed (Finalizing _ _) => (DFinalizing, c, Keep)
  end.

(** [claim_removal]: a fresh attempt, and the module's closing token. *)
Definition claim_removal (m : ModuleRuntime) (c : LifecycleCore)
  : outcome (option (Z * ModuleClosing) * LifecycleCore * ModuleRuntime * TransitionEffect) :=
  let claim (a : AvailableClose) (wrap : CloseResources.t -> LifecycleState) :=
    let attempt := next_removal_attempt c in
    match Identity.checked_next attempt with
    | None => Aborted
    | Some next =>
        let* (resources, closing, m') := claim_available attempt a m in
        Done (Some (attempt, closing),
              set_state (wrap (CloseResources.Claimed resources)) (set_next_removal next c),
              m', Keep)
    end in
  match state c with
  | Closing (ClosingState.Ready (CloseResources.Available a)) =>
      claim a (fun r => Closing (ClosingState.Ready r))
  | OpenRollbackPending (CloseResources.Available a) => claim a OpenRollbackPending
  | _ => Done (None, c, m, Keep)
  end.

(** [final_close_decision] with [try_claim], and [rollback_decision]. *)
Inductive FinalCloseDecision : Type := FClosedIdle | FQuarantined | FWait | FClosing.

Definition final_close_decision (c : LifecycleCore)
  : FinalCloseDecision * LifecycleCore * TransitionEffect :=
  let '(d, c', e) := request_closing c in
  (match d with
   | DClosedIdle => FClosedIdle
   | DFinalizing => FWait
   | DClosing => FClosing
   | DQuarantined => FQuarantined
   end, c', e).

Inductive RollbackDecision : Type :=
| BClosedIdle | BClosingOwnsCleanup | BUnavailable | BWait | BClaim (attempt : Z) (m : ModuleClosing).

Definition rollback_decision (m : ModuleRuntime) (c : LifecycleCore)
  : outcome (RollbackDecision * LifecycleCore * ModuleRuntime * TransitionEffect) :=
  match state c with
  | Closed ClosedIdle => Done (BClosedIdle, c, m, Keep)
  | Closed (Finalizing _ _) | Closing _ => Done (BClosingOwnsCleanup, c, m, Keep)
  | Opening _ _ | Open _ | Quarantined _ => Done (BUnavailable, c, m, Keep)
  | OpenRollbackPending _ =>
      let* (claim, c', m', e) := claim_removal m c in
      Done (match claim with Some (attempt, closing) => BClaim attempt closing | None => BWait end,
            c', m', e)
  end.

(** [return_removal_authority]. *)
Definition return_to (expected_attempt : Z) (authority : ModuleAuthority) (r : CloseResources.t)
  : outcome CloseResources.t :=
  match r with
  | CloseResources.Claimed (ClaimClose payload (Outstanding claim)) =>
      let* _ := validate_removal_owner (outstanding_attempt claim) expected_attempt in
      let* returned := return_authority claim authority in
      Done (CloseResources.Claimed (ClaimClose payload (Returned returned)))
  | _ => Aborted
  end.

Definition return_removal_authority (expected_attempt : Z) (authority : ModuleAuthority)
  (c : LifecycleCore) : outcome (LifecycleCore * TransitionEffect) :=
  match state c with
  | Closing (ClosingState.Ready r) =>
      let* r' := return_to expected_attempt authority r in
      Done (set_state (Closing (ClosingState.Ready r')) c, Keep)
  | OpenRollbackPending r =>
      let* r' := return_to expected_attempt authority r in
      Done (set_state (OpenRollbackPending r') c, Keep)
  | Quarantined r =>
      let* r' := return_to expected_attempt authority r in
      Done (set_state (Quarantined r') c, Keep)
  | _ => Aborted
  end.

(** [release_removal_claim]. *)
Definition release_removal_claim (attempt : Z) (finalization_failed : bool) (c : LifecycleCore)
  : outcome (LifecycleCore * TransitionEffect) :=
  let* s :=
    match state c with
    | Closed (Finalizing expected quarantine_requested) =>
        if negb (expected =? attempt) then Aborted
        else if finalization_failed || quarantine_requested
             then Done (Quarantined (CloseResources.Unowned ClosePayload.Empty))
             else Done (Closed ClosedIdle)
    | Closing (ClosingState.Ready r) =>
        let* r' := CloseResources.release attempt r in
        Done (if finalization_failed then Quarantined r' else Closing (ClosingState.Ready r'))
    | OpenRollbackPending r =>
        let* r' := CloseResources.release attempt r in
        Done (if finalization_failed then Quarantined r' else OpenRollbackPending r')
    | Quarantined r =>
        let* r' := CloseResources.release attempt r in Done (Quarantined r')
    | _ => Aborted
    end in
  Done (set_state s c, Keep).

(** [complete_boundary_finalization]. *)
Definition complete_boundary_finalization (attempt : Z) (c : LifecycleCore) : XllResult unit :=
  match state c with
  | Closed (Finalizing expected false) => if expected =? attempt then Ok tt else Err Errors.Closing
  | _ => Err Errors.Closing
  end.

(** [CanonicalCompletion]: the proof of a finished teardown, with what it was
    issued for; [returns_match] is the answer of the return protocol. *)
Record CanonicalCompletion : Type := Completion {
  completion_attempt : Z;
  completion_proof : ModuleQuiescent;
  completion_last_committed : option Z;
  returns_match : bool;
}.

Definition completion_matches (m : ModuleRuntime) (attempt epoch : Z)
  (last_committed : option Z) (a : CanonicalCompletion) : bool :=
  returns_match a
  && (attempt =? completion_attempt a)
  && (epoch =? quiescent_id (completion_proof a))
  && is_current (quiescent_id (completion_proof a)) m
  && bool_decide (last_committed = completion_last_committed a).

(** The completion of an outstanding claim in [finish_closed]. *)
Definition finish_claim (diagnostic : Z) (m : ModuleRuntime) (a : CanonicalCompletion)
  (c : LifecycleCore) (claim : OutstandingModuleClaim)
  : XllResult unit * LifecycleCore * TransitionEffect :=
  if negb (completion_matches m (outstanding_attempt claim) (outstanding_epoch claim)
             (last_committed_generation c) a)
  then (Err (Internal diagnostic), c, Keep)
  else (Ok tt, set_state (Closed (Finalizing (outstanding_attempt claim) false)) c,
        ClearPublication).

(** [finish_closed], for [finish_final_removal] and [finish_open_rollback]. *)
Definition finish_closed (allow_open_rollback : bool) (diagnostic : Z) (m : ModuleRuntime)
  (a : CanonicalCompletion) (c : LifecycleCore)
  : XllResult unit * LifecycleCore * TransitionEffect :=
  match state c with
  | Closing (ClosingState.Ready
      (CloseResources.Claimed (ClaimClose ClosePayload.Empty (Outstanding claim)))) =>
      finish_claim diagnostic m a c claim
  | OpenRollbackPending
      (CloseResources.Claimed (ClaimClose ClosePayload.Empty (Outstanding claim))) =>
      if allow_open_rollback then finish_claim diagnostic m a c claim
      else (Err (Internal diagnostic), c, Keep)
  | _ => (Err (Internal diagnostic), c, Keep)
  end.

Definition finish_final_removal := finish_closed false CLOSE_RUNTIME.
Definition finish_open_rollback := finish_closed true OPEN_ROLLBACK_PHASE.

(** [clear_certified_retirement]: what the retirement owned is dropped. *)
Record CertifiedRetirement : Type := CertRetirement {
  certified_attempt : Z;
  certified_generation : Z;
  certified_epoch : Z;
}.

Definition clear_certified_retirement (is_none : Services -> bool) (m : ModuleRuntime)
  (a : CertifiedRetirement) (c : LifecycleCore)
  : option OpenRetirement * LifecycleCore * TransitionEffect :=
  match final_removal_ready is_none m (certified_attempt a) c with
  | Some (Committed generation epoch) =>
      if negb ((certified_generation a =? generation) && (certified_epoch a =? epoch)
               && is_current epoch m)
      then (None, c, Keep)
      else match take_retirement (state c) with
           | (Some retirement, s) => (Some retirement, set_state s c, ClearPublication)
           | (None, s) => (None, set_state s c, Keep)
           end
  | _ => (None, c, Keep)
  end.

Definition quarantine_core (c : LifecycleCore) : LifecycleCore * TransitionEffect :=
  let '(s, effect) :=
    match state c with
    | Closed ClosedIdle =>
        (Quarantined (CloseResources.Unowned ClosePayload.Empty), ClearPublication)
    | Closed (Finalizing attempt _) => (Closed (Finalizing attempt true), Keep)
    | Opening attempt payload =>
        (request_quarantine (OpeningPayload.into_closing_state attempt payload), ClearPublication)
    | Open b => (Quarantined (available_of b), ClearPublication)
    | Closing closing => (request_quarantine closing, ClearPublication)
    | OpenRollbackPending r | Quarantined r => (Quarantined r, ClearPublication)
    end in
  (set_state s c, effect).

(** [take_module_cleanup_for_quarantine]. *)
Definition take_module_cleanup (m : ModuleRuntime) (c : LifecycleCore)
  : outcome (ModuleCleanupClaim * LifecycleCore * ModuleRuntime * TransitionEffect) :=
  let* (selection, s, m') :=
    match state c with
    | Closing (ClosingState.OpeningActive _ true _) | Closed (Finalizing _ true) =>
        Done (SDeferredOwner, state c, m)
    | Closing closing =>
        let* (a, closing', m') := ClosingState.take_cleanup closing m in Done (a, Closing closing', m')
    | OpenRollbackPending r =>
        let* (a, r', m') := CloseResources.take_cleanup r m in
        Done (a, OpenRollbackPending r', m')
    | Quarantined r =>
        let* (a, r', m') := CloseResources.take_cleanup r m in Done (a, Quarantined r', m')
    | s => Done (SNone, s, m)
    end in
  let ingress_closed := bool_decide (Epoch.phase (ingress m') = PHASE_CLOSED) in
  let claim :=
    match selection with
    | SReady r => CReady r
    | SRetainedUndrained epoch => CRetainedUndrained epoch
    | SDeferredOwner => CDeferredOwner
    | SAwaitingOpenAbort => if negb ingress_closed then CDeferredOwner else CNoModuleAuthority
    | SNone =>
        if negb (bool_decide (is_Some (state_module_epoch_id s))) && ingress_closed
        then CNoModuleAuthority
        else CUnavailable
    end in
  Done (claim, set_state s c, m', Keep).

(** ** Installing a returned authority: authority_slot.rs *)

Inductive VacantClose : Type :=
| VUnclaimed (payload : ClosePayload.t)
| VClaimed (payload : ClosePayload.t) (claim : OutstandingModuleClaim).

Definition vacant_acquire (epoch : Z) (r : CloseResources.t)
  : result VacantClose CloseResources.t :=
  match r with
  | CloseResources.AwaitingOpenAbort _ payload => Ok (VUnclaimed (ClosePayload.of_abort payload))
  | CloseResources.Unowned payload => Ok (VUnclaimed payload)
  | CloseResources.Claimed (ClaimClose payload (Outstanding claim)) =>
      if outstanding_epoch claim =? epoch then Ok (VClaimed payload claim) else Err r
  | _ => Err r
  end.

Definition vacant_install (authority : ModuleAuthority) (v : VacantClose) : CloseResources.t :=
  match v with
  | VUnclaimed payload => CloseResources.with_authority payload authority
  | VClaimed payload claim =>
      CloseResources.Claimed
        (ClaimClose payload (Returned (ReturnedClaim (outstanding_attempt claim) authority)))
  end.

Inductive Destination : Type := ToClosing | ToRollback | ToQuarantine.

Definition destination_restore (d : Destination) (r : CloseResources.t) : LifecycleState :=
  match d with
  | ToClosing => Closing (ClosingState.Ready r)
  | ToRollback => OpenRollbackPending r
  | ToQuarantine => Quarantined r
  end.

(** [PreparedAuthorityInstall::acquire] up to the receiver: the resources that
    take the authority, and where they go. *)
Definition install_target (s : LifecycleState) : option (CloseResources.t * Destination) :=
  match s with
  | Closed ClosedIdle => Some (CloseResources.Unowned ClosePayload.Empty, ToClosing)
  | Opening _ OpeningPayload.Empty => Some (CloseResources.Unowned ClosePayload.Empty, ToRollback)
  | Opening _ (OpeningPayload.Staged o) =>
      Some (CloseResources.Unowned (ClosePayload.Staged o), ToRollback)
  | Closing (ClosingState.OpeningActive _ requested (ActiveOpeningClose.AwaitingAbort payload)) =>
      Some (CloseResources.Unowned (ClosePayload.of_abort payload),
            if requested then ToQuarantine else ToClosing)
  | Closing (ClosingState.Ready r) => Some (r, ToClosing)
  | OpenRollbackPending r => Some (r, ToRollback)
  | Quarantined r => Some (r, ToQuarantine)
  | _ => None
  end.

(** [install_returned_authority]; a refusal returns the authority and leaves
    the resources in the phase they were taken from. *)
Definition install_returned_authority (authority : ModuleAuthority) (c : LifecycleCore)
  : result unit ModuleAuthority * LifecycleCore * TransitionEffect :=
  match install_target (state c) with
  | None => (Err authority, c, Keep)
  | Some (r, destination) =>
      match vacant_acquire (authority_id authority) r with
      | Ok v =>
          (Ok tt, set_state (destination_restore destination (vacant_install authority v)) c, Keep)
      | Err r' => (Err authority, set_state (destination_restore destination r') c, Keep)
      end
  end.

(** ** Taking the generation *)

Definition take_opening_for_rollback (c : LifecycleCore)
  : option OpeningGeneration * LifecycleCore * TransitionEffect :=
  let '(o, s) := take_opening (state c) in (o, set_state s c, Keep).

(** The transition of [take_current_bundle]; the wait for the readers and the
    recovery of the [Box] follow it in LifecycleMachine.v. *)
Definition take_current_bundle (c : LifecycleCore)
  : option (Owner ExecutionGeneration) * LifecycleCore * TransitionEffect :=
  let after (g : option (Owner ExecutionGeneration)) (s : LifecycleState) :=
    (g, set_state s c, match g with Some _ => ClearPublication | None => Keep end) in
  match state c with
  | Open b =>
      let '(closing, authority) := into_closing_bundle b in
      let '(g, retirement) := into_retirement_with_generation closing in
      (Some g,
       set_state (Closing (ClosingState.Ready (CloseResources.Available
         (AvailClose (ClosePayload.Retiring retirement) authority)))) c, ClearPublication)
  | Closing closing =>
      let '(g, closing') := ClosingState.into_retiring closing in after g (Closing closing')
  | OpenRollbackPending r =>
      let '(g, r') := CloseResources.into_retiring r in after g (OpenRollbackPending r')
  | Quarantined r =>
      let '(g, r') := CloseResources.into_retiring r in after g (Quarantined r')
  | _ => (None, c, Keep)
  end.

(** [into_completed_removal_intent] with [CompletedRemovalIntent::clear]. *)
Definition clear_completed_removal (c : LifecycleCore) : option (LifecycleCore * TransitionEffect) :=
  match state c, host_intent c with
  | Closed ClosedIdle, ExplicitRemovalComplete => Some (set_host_intent NoIntent c)
  | _, _ => None
  end.

End Lifecycle.
