(* ===== verification/LifecycleMachine.v ===== *)
(** * The lifecycle with its callers and readers

    The coordinator of crates/xlfn/src/lifecycle/state.rs as a machine.  The
    core lock makes one transition at a time; [commit_transition] then updates
    the read-side projections one atomic access at a time, interleaved with
    readers that enter the publication gate without the lock.

    What the transitions hand out stays in [held]: the pool of values and
    tokens the runtime's transactions own (runtime/open_txn.rs,
    runtime/shutdown/owner.rs, runtime/shutdown/certificate.rs,
    runtime/recovery.rs).  Any caller may use any of them at any time, in any
    order, which covers every pipeline of the runtime; what each call consumes
    is gone from the pool, as the moves of the source make it.

    The exports that Excel calls and the callbacks into Excel arrive at the
    module whenever they like, and leave whenever they like ([OExportEnter],
    [OExportLeave], [OCallbackEnter], [OCallbackLeave]).

    The management locks of the publication gate are only taken under the core
    lock, and the parking of its waiter is that of TerminalGate.v: here a
    scan that finds a reader starts again. *)

From S2P Require Import Prelude Errors SealableCounter ModuleRuntime Lifecycle.
Import Errors SealableCounter.Counter ModuleRuntime.Epoch Lifecycle.

Module LifecycleMachine.

(** ** What callers own *)

(** [RemovalClaimGuard] with the module authority of the pipeline that owns
    it: still there, consumed by the certificate of quiescence, or returned. *)
Inductive guard_stage : Type :=
| Owns (a : ModuleAuthority)
| Certified (q : ModuleQuiescent)
| Spent.

Record guard : Type := Guard {
  guard_attempt : Z;
  finalization_failed : bool;
  stage : guard_stage;
}.

Inductive resource : Type :=
| HOpening (o : OpeningGeneration)
| HServices (s : Services)
| HRoot (g : Owner ExecutionGeneration)
| HModule (o : ModuleOpening)
| HLease (l : ModuleEpochLease)
| HAuthority (a : ModuleAuthority)
| HReady (r : ModuleCleanupReady)
| HGuard (g : guard).

(** ** Readers: [try_admit] and [try_execution_lease] *)
Inductive reader : Type :=
| RIdle
| RLoad (stripe : nat)
| RNull (stripe : nat)
| RAdmitted (stripe : nat) (p : Owner PublishedGeneration)
| RExecuting (stripe : nat) (root : nat)
| RSlow (stripe : nat).

(** ** [commit_transition], one access at a time *)
Inductive commit : Type :=
| JSeal (i : nat)
| JClear
| JActive (i : nat) (p : Owner PublishedGeneration)
| JNull (p : Owner PublishedGeneration)
| JSealed (i : nat) (p : Owner PublishedGeneration)
| JQuiet (i : nat) (idle : bool) (p : Owner PublishedGeneration)
| JStore (p : Owner PublishedGeneration)
| JReopenCheck (i : nat)
| JReopen (i : nat)
| JPhase
| JWait (i : nat) (idle : bool).

(** The commit in progress, and the generation [take_current_bundle] recovers
    once its readers are gone. *)
Record job : Type := Job { at_ : commit; pending_root : option (Owner ExecutionGeneration) }.

(** Who holds the core lock between two transitions: nobody, an [OpenStart],
    or an [OpenStart] that is being dropped. *)
Inductive session : Type := Free | Starting (attempt : Z) | Abandoning.

Record world : Type := World {
  core : LifecycleCore;
  module_ : ModuleRuntime;
  held : list resource;
  lock : session;
  committing : option job;
  phase_word : LifecyclePhase;
  published : option (Owner PublishedGeneration);
  stripes : list SealableCounter;
  readers : list reader;
}.

Definition set_core (c : LifecycleCore) (w : world) : world :=
  World c (module_ w) (held w) (lock w) (committing w) (phase_word w) (published w) (stripes w)
    (readers w).
Definition set_module (m : ModuleRuntime) (w : world) : world :=
  World (core w) m (held w) (lock w) (committing w) (phase_word w) (published w) (stripes w)
    (readers w).
Definition set_held (h : list resource) (w : world) : world :=
  World (core w) (module_ w) h (lock w) (committing w) (phase_word w) (published w) (stripes w)
    (readers w).
Definition set_lock (l : session) (w : world) : world :=
  World (core w) (module_ w) (held w) l (committing w) (phase_word w) (published w) (stripes w)
    (readers w).
Definition set_committing (j : option job) (w : world) : world :=
  World (core w) (module_ w) (held w) (lock w) j (phase_word w) (published w) (stripes w)
    (readers w).
Definition set_phase_word (p : LifecyclePhase) (w : world) : world :=
  World (core w) (module_ w) (held w) (lock w) (committing w) p (published w) (stripes w)
    (readers w).
Definition set_published (p : option (Owner PublishedGeneration)) (w : world) : world :=
  World (core w) (module_ w) (held w) (lock w) (committing w) (phase_word w) p (stripes w)
    (readers w).
Definition set_stripe (i : nat) (c : SealableCounter) (w : world) : world :=
  World (core w) (module_ w) (held w) (lock w) (committing w) (phase_word w) (published w)
    (<[i := c]> (stripes w)) (readers w).
Definition set_reader (k : nat) (r : reader) (w : world) : world :=
  World (core w) (module_ w) (held w) (lock w) (committing w) (phase_word w) (published w)
    (stripes w) (<[k := r]> (readers w)).

(** The calls.  An index selects what the call consumes from [held]. *)
Inductive op : Type :=
| ONewOpening (o : OpeningGeneration)
| ONewServices (s : Services)
| ODrop (i : nat)
| OIntent (x : HostLifecycleIntent)
| OClearIntent
| OBegin (expected_removal_epoch : Z)
| OStartModule
| OStartFail
| OStartQuarantine
| OIngressOpen
| OModuleCommit (i : nat)
| OModuleRollback (i : nat)
| OLeaseClose (i : nat)
| OStage (attempt : Z) (i : nat)
| OPublish (root_at publication_at : nat) (generation : Z) (i j : nat)
| OCommitOpen (generation : Z)
| OFail
| OInstall (i : nat)
| ORequestRemoval
| OClose
| OClaim
| ORollback
| OGuardDrain (i : nat) (fault : option XllError)
| OGuardCertify (i : nat)
| OGuardMark (i : nat)
| OGuardComplete (i : nat)
| OGuardReturn (i : nat)
| OGuardRelease (i : nat)
| OTakeGeneration
| OTakeOpening
| OClear (i : nat) (generation : Z) (is_none : Services -> bool)
| OFinish (i : nat) (final : bool) (last_committed : option Z) (returns_match : bool)
| OQuarantine
| OTakeCleanup
| OCleanupFinish (i : nat) (fault : option XllError)
| OExportEnter
| OExportLeave (k : nat)
| OCallbackEnter
| OCallbackLeave.

Inductive reader_action : Type := Enter (stripe : nat) | Continue | Execute (by_reader stripe : nat).

Inductive action : Type :=
| Call (o : op)
| Commit
| Read (k : nat) (a : reader_action).

Section Steps.
Context (pw : pointer_width).

Abbreviation blocked := (Done None).
Abbreviation effect := (outcome (option world)).

Definition initial (stripe_count reader_count : nat) : world :=
  World core_new Epoch.new [] Free None PClosed None
    (replicate stripe_count (new_sealed pw)) (replicate reader_count RIdle).

(** ** Transitions of the core *)

Definition start_commit (e : TransitionEffect) : commit :=
  match e with
  | Keep => JPhase
  | ClearPublication => JSeal 0
  | Publish p => JActive 0 p
  end.

(** Ends a transition: the new core, its effect, and the values it returned. *)
Definition finish (c : LifecycleCore) (e : TransitionEffect) (out : list resource) (w : world)
  : effect :=
  Done (Some (set_committing (Some (Job (start_commit e) None))
               (set_core c (set_held (out ++ held w) w)))).

(** Takes entry [i] out of the pool. *)
Definition take (i : nat) (w : world) : option (resource * world) :=
  match held w !! i with
  | Some r => Some (r, set_held (delete i (held w)) w)
  | None => None
  end.

Definition give (out : list resource) (w : world) : effect :=
  Done (Some (set_held (out ++ held w) w)).

(** [OpenStart::acquire], the module's opening under the same lock, and the
    drop of a start that failed in between. *)
Definition start_op (o : op) (w : world) : effect :=
  match o, lock w with
  | OBegin expected, Free =>
      let '(r, c, e) := begin_opening_if_closed expected (core w) in
      match r with
      | Ok attempt => finish c e [] (set_lock (Starting attempt) w)
      | Err _ => finish c e [] w
      end
  | OStartModule, Starting _ =>
      let* (opening, m) := begin_open (module_ w) in
      give [HModule opening] (set_lock Free (set_module m w))
  | OStartFail, Starting _ =>
      let '(_, c, e) := record_open_failure (core w) in finish c e [] (set_lock Abandoning w)
  | OStartQuarantine, Abandoning =>
      let '(c, e) := quarantine_core (core w) in finish c e [] (set_lock Free w)
  | _, _ => blocked
  end.

(** Tokens outside the core: what needs no lock. *)
Definition token_op (o : op) (w : world) : effect :=
  match o with
  | ONewOpening v => give [HOpening v] w
  | ONewServices s => give [HServices s] w
  | ODrop i =>
      match take i w with
      | Some (HGuard _, _) | None => blocked
      | Some (_, w') => Done (Some w')
      end
  | OIngressOpen =>
      match publish_open (ingress (module_ w)) with
      | Some i => Done (Some (set_module (set_ingress i (module_ w)) w))
      | None => blocked
      end
  | OModuleCommit i =>
      match take i w with
      | Some (HModule t, w') => give [HLease (Epoch.commit t)] w'
      | _ => blocked
      end
  | OModuleRollback i =>
      match take i w with
      | Some (HModule t, w') =>
          let* (closing, m) := rollback t (module_ w') in
          give [HAuthority (AClosing closing)] (set_module m w')
      | _ => blocked
      end
  | OLeaseClose i =>
      match take i w with
      | Some (HLease l, w') =>
          let* (closing, m) := begin_close l (module_ w') in
          give [HAuthority (AClosing closing)] (set_module m w')
      | _ => blocked
      end
  | OCleanupFinish i fault =>
      match take i w with
      | Some (HReady r, w') =>
          if cleanup_waits fault r (module_ w') then blocked else
          let* (x, m) := cleanup_finish fault r (module_ w') in
          give match x with Ok _ => [] | Err (_, a) => [HAuthority a] end (set_module m w')
      | _ => blocked
      end
  | OGuardDrain i fault =>
      match take i w with
      | Some (HGuard (Guard attempt failed (Owns (AClosing closing))), w') =>
          if waits_for_exports fault (module_ w') then blocked else
          let* (x, m) := seal_and_drain fault closing (module_ w') in
          give [HGuard (Guard attempt failed
                  (Owns match x with Ok d => ADrained d | Err (_, kept) => ARetained kept end))]
            (set_module m w')
      | _ => blocked
      end
  | OGuardCertify i =>
      match take i w with
      | Some (HGuard (Guard attempt failed (Owns (ADrained d))), w') =>
          let* (q, m) := certify d (module_ w') in
          give [HGuard (Guard attempt failed (Certified q))] (set_module m w')
      | _ => blocked
      end
  | OGuardMark i =>
      match take i w with
      | Some (HGuard (Guard attempt _ s), w') => give [HGuard (Guard attempt true s)] w'
      | _ => blocked
      end
  | _ => blocked
  end.

(** Calls from Excel and callbacks into it, which need no token. *)
Definition entry_op (o : op) (w : world) : effect :=
  match o with
  | OExportEnter => Done (Some (set_module (enter_with (module_ w)).2 w))
  | OExportLeave k =>
      let* m := drop_guard k (module_ w) in Done ((fun m => set_module m w) <$> m)
  | OCallbackEnter => Done ((fun m => set_module m w) <$> callback_enter (module_ w))
  | OCallbackLeave => Done ((fun m => set_module m w) <$> callback_leave (module_ w))
  | _ => blocked
  end.

(** An opening attempt on its way to the open phase, or to its failure. *)
Definition open_op (o : op) (w : world) : effect :=
  match o with
  | OStage attempt i =>
      match take i w with
      | Some (HOpening v, w') =>
          let '(r, c, e) := stage_opening_generation attempt v (core w') in
          finish c e match r with Ok _ => [] | Err (_, v) => [HOpening v] end w'
      | _ => blocked
      end
  | OPublish root_at publication_at generation i j =>
      match take i w with
      | Some (HServices s, w') =>
          match take j w' with
          | Some (HLease l, w'') =>
              let '(r, c, e) :=
                publish_opening_generation root_at publication_at generation s l (core w'') in
              finish c e
                match r with
                | Ok _ => []
                | Err x =>
                    option_list (HOpening <$> error_opening x)
                    ++ [HServices (error_services x); HLease (error_module_epoch x)]
                end w''
          | _ => blocked
          end
      | _ => blocked
      end
  | OCommitOpen generation =>
      let '(_, c, e) := commit_open generation (core w) in finish c e [] w
  | OFail => let '(_, c, e) := record_open_failure (core w) in finish c e [] w
  | OInstall i =>
      match take i w with
      | Some (HAuthority a, w') =>
          let '(r, c, e) := install_returned_authority a (core w') in
          finish c e match r with Ok _ => [] | Err a => [HAuthority a] end w'
      | _ => blocked
      end
  | _ => blocked
  end.

(** Removal: requests, claims, the guard's transitions and the terminal ones. *)
Definition claim_resources (r : option (Z * ModuleClosing)) : list resource :=
  match r with
  | Some (attempt, closing) => [HGuard (Guard attempt false (Owns (AClosing closing)))]
  | None => []
  end.

Definition removal_op (o : op) (w : world) : effect :=
  match o with
  | ORequestRemoval =>
      let* (c, e) := advance_removal_epoch (core w) in finish c e [] w
  | OClose => let '(_, c, e) := final_close_decision (core w) in finish c e [] w
  | OClaim =>
      match state (core w) with
      | Lifecycle.Closing _ =>
          let* (r, c, m, e) := claim_removal (module_ w) (core w) in
          finish c e (claim_resources r) (set_module m w)
      | _ => blocked
      end
  | ORollback =>
      let* (d, c, m, e) := rollback_decision (module_ w) (core w) in
      finish c e
        match d with
        | BClaim attempt closing => claim_resources (Some (attempt, closing))
        | _ => []
        end (set_module m w)
  | OGuardComplete i =>
      match take i w with
      | Some (HGuard (Guard attempt failed s), w') =>
          finish (core w') Keep
            [HGuard (Guard attempt
               match complete_boundary_finalization attempt (core w') with
               | Ok _ => false
               | Err _ => failed
               end s)] w'
      | _ => blocked
      end
  | OGuardReturn i =>
      match take i w with
      | Some (HGuard (Guard attempt failed (Owns a)), w') =>
          let* (c, e) := return_removal_authority attempt a (core w') in
          finish c e [HGuard (Guard attempt failed Spent)] w'
      | _ => blocked
      end
  | OGuardRelease i =>
      match take i w with
      | Some (HGuard (Guard attempt failed (Certified _ | Spent)), w') =>
          let* (c, e) := release_removal_claim attempt failed (core w') in finish c e [] w'
      | _ => blocked
      end
  | OClear i generation is_none =>
      match held w !! i with
      | Some (HGuard (Guard attempt _ (Certified q))) =>
          let '(_, c, e) :=
            clear_certified_retirement is_none (module_ w)
              (CertRetirement attempt generation (quiescent_id q)) (core w) in
          finish c e [] w
      | _ => blocked
      end
  | OFinish i final last_committed returns_match =>
      match held w !! i with
      | Some (HGuard (Guard attempt _ (Certified q))) =>
          let a := Completion attempt q last_committed returns_match in
          let '(_, c, e) := (if final then finish_final_removal else finish_open_rollback)
                              (module_ w) a (core w) in
          finish c e [] w
      | _ => blocked
      end
  | _ => blocked
  end.

(** Quarantine, cleanup and the recovery of generations. *)
Definition take_generation (w : world) : effect :=
  match take_current_bundle (core w) with
  | (Some g, c, e) =>
      Done (Some (set_committing (Some (Job (start_commit e) (Some g))) (set_core c w)))
  | (None, c, e) =>
      let '(o, c', e') := take_opening_for_rollback c in
      finish c' e' (option_list (HOpening <$> o)) w
  end.

Definition recovery_op (o : op) (w : world) : effect :=
  match o with
  | OIntent x => let '(c, e) := set_host_intent x (core w) in finish c e [] w
  | OClearIntent =>
      match clear_completed_removal (core w) with
      | Some (c, e) => finish c e [] w
      | None => blocked
      end
  | OTakeGeneration => take_generation w
  | OTakeOpening =>
      let '(v, c, e) := take_opening_for_rollback (core w) in
      finish c e (option_list (HOpening <$> v)) w
  | OQuarantine => let '(c, e) := quarantine_core (core w) in finish c e [] w
  | OTakeCleanup =>
      let* (claim, c, m, e) := take_module_cleanup (module_ w) (core w) in
      finish c e match claim with CReady r => [HReady r] | _ => [] end (set_module m w)
  | _ => blocked
  end.

Definition locked_op (o : op) (w : world) : effect :=
  match o with
  | OBegin _ | OStartModule | OStartFail | OStartQuarantine => start_op o w
  | _ =>
      match lock w with
      | Free =>
          match o with
          | OStage _ _ | OPublish _ _ _ _ _ | OCommitOpen _ | OFail | OInstall _ => open_op o w
          | OIntent _ | OClearIntent | OTakeGeneration | OTakeOpening | OQuarantine
          | OTakeCleanup => recovery_op o w
          | _ => removal_op o w
          end
      | _ => blocked
      end
  end.

(** A transition needs the core lock; the tokens outside the core do not. *)
Definition call_step (o : op) (w : world) : effect :=
  match o with
  | ONewOpening _ | ONewServices _ | ODrop _ | OIngressOpen | OModuleCommit _
  | OModuleRollback _ | OLeaseClose _ | OCleanupFinish _ _ | OGuardDrain _ _
  | OGuardCertify _ | OGuardMark _ => token_op o w
  | OExportEnter | OExportLeave _ | OCallbackEnter | OCallbackLeave => entry_op o w
  | _ => match committing w with None => locked_op o w | Some _ => blocked end
  end.

(** ** [commit_transition] and the wait of [take_current_bundle] *)

Definition next (x : commit) (j : job) (w : world) : effect :=
  Done (Some (set_committing (Some (Job x (pending_root j))) w)).

(** One stripe of a scan for active readers. *)
Definition scan (i : nat) (idle : bool) (x : SealableCounter) (inside : nat -> bool -> commit)
  (j : job) (w : world) : effect :=
  let '(n, x') := mark_waiting pw x in
  next (inside (S i) (if negb (n =? 0)%Z then false else idle)) j (set_stripe i x' w).

Definition clear_step (j : job) (w : world) : effect :=
  match at_ j with
  | JSeal i =>
      match stripes w !! i with
      | Some x => next (JSeal (S i)) j (set_stripe i (seal pw x) w)
      | None => next JClear j w
      end
  | JClear => next JPhase j (set_published None w)
  | JPhase =>
      let w' := set_phase_word (phase (state (core w))) w in
      match pending_root j with
      | Some _ => next (JWait 0 true) j w'
      | None => Done (Some (set_committing None w'))
      end
  | JWait i idle =>
      match stripes w !! i with
      | Some x => scan i idle x JWait j w
      | None =>
          if idle then
            Done (Some (set_held (option_list (HRoot <$> pending_root j) ++ held w)
                         (set_committing None w)))
          else next (JWait 0 true) j w
      end
  | _ => blocked
  end.

Definition publish_step (j : job) (w : world) : effect :=
  match at_ j with
  | JActive i p =>
      match stripes w !! i with
      | Some x => if (active pw x =? 0)%Z then next (JActive (S i) p) j w else Aborted
      | None => next (JNull p) j w
      end
  | JNull p => match published w with None => next (JSealed 0 p) j w | Some _ => Aborted end
  | JSealed i p =>
      match stripes w !! i with
      | Some x => if is_sealed pw x then next (JSealed (S i) p) j w else Aborted
      | None => next (JQuiet 0 true p) j w
      end
  | JQuiet i idle p =>
      match stripes w !! i with
      | Some x => scan i idle x (fun i b => JQuiet i b p) j w
      | None => next (if idle then JStore p else JQuiet 0 true p) j w
      end
  | JStore p => next (JReopenCheck 0) j (set_published (Some p) w)
  | JReopenCheck i =>
      match stripes w !! i with
      | Some x =>
          if negb (is_sealed pw x) || negb (active pw x =? 0)%Z then Aborted
          else next (JReopenCheck (S i)) j w
      | None => next (JReopen 0) j w
      end
  | JReopen i =>
      match stripes w !! i with
      | Some x =>
          let* (r, x') := reopen pw x in
          match r with
          | Ok _ => next (JReopen (S i)) j (set_stripe i x' w)
          | Err _ => Aborted
          end
      | None => next JPhase j w
      end
  | _ => blocked
  end.

Definition commit_step (w : world) : effect :=
  match committing w with
  | None => blocked
  | Some j =>
      match at_ j with
      | JSeal _ | JClear | JPhase | JWait _ _ => clear_step j w
      | _ => publish_step j w
      end
  end.

(** ** Readers *)

(** The permit a reader holds. *)
Definition permit (r : reader) : option nat :=
  match r with
  | RIdle => None
  | RLoad i | RNull i | RAdmitted i _ | RExecuting i _ | RSlow i => Some i
  end.

Definition enter_stripe (k i : nat) (entered : reader) (w : world) : effect :=
  match stripes w !! i with
  | None => Panicked
  | Some x =>
      let* (r, x') := try_acquire pw x in
      Done (Some (set_reader k match r with Ok _ => entered | Err _ => RIdle end
                   (set_stripe i x' w)))
  end.

(** The drop of a permit; its notification is that of the gate. *)
Definition release_stripe (k i : nat) (w : world) : effect :=
  match stripes w !! i with
  | None => Panicked
  | Some x =>
      let* (fast, x') := try_release_without_notification pw x in
      Done (Some (set_reader k match fast with Some _ => RIdle | None => RSlow i end
                   (set_stripe i x' w)))
  end.

Definition reader_step (k : nat) (a : reader_action) (w : world) : effect :=
  match readers w !! k, a with
  | Some RIdle, Enter i => enter_stripe k i (RLoad i) w
  | Some RIdle, Execute by_reader i =>
      match readers w !! by_reader with
      | Some (RAdmitted _ p) => enter_stripe k i (RExecuting i (root (content p))) w
      | _ => blocked
      end
  | Some (RLoad i), Continue =>
      Done (Some (set_reader k match published w with
                               | Some p => RAdmitted i p
                               | None => RNull i
                               end w))
  | Some (RNull i | RAdmitted i _ | RExecuting i _), Continue => release_stripe k i w
  | Some (RSlow i), Continue =>
      match stripes w !! i with
      | None => Panicked
      | Some x =>
          let* (_, x') := release pw x in Done (Some (set_reader k RIdle (set_stripe i x' w)))
      end
  | _, _ => blocked
  end.

Definition step (a : action) (w : world) : effect :=
  match a with
  | Call o => call_step o w
  | Commit => commit_step w
  | Read k a => reader_step k a w
  end.

Definition steps (w w' : world) : Prop := exists a, step a w = Done (Some w').

(** Every stripe a reader names exists: [current_thread_stripe] masks its
    number to the stripe count. *)
Definition in_range (a : action) (w : world) : Prop :=
  match a with
  | Read _ (Enter i) | Read _ (Execute _ i) => i < length (stripes w)
  | _ => True
  end.

Definition reachable (stripe_count reader_count : nat) (w : world) : Prop :=
  rtc steps (initial stripe_count reader_count) w.

Fixpoint schedule (moves : list action) (w : world) : outcome (option world) :=
  match moves with
  | [] => Done (Some w)
  | a :: moves =>
      let* o := step a w in
      match o with Some w' => schedule moves w' | None => Done None end
  end.

End Steps.
End LifecycleMachine.
