(* ===== verification/LifecycleTokens.v ===== *)
(** * Ownership in the lifecycle

    What the canonical state and the callers own, as a list of tokens: the
    values of the add-in, the service bundles and the module authorities.  One
    lemma per transition says that it only moves them; [change] sums up what a
    step of LifecycleMachine.v does to all of them and to the module's ingress,
    and [module_ok] is the invariant that follows. *)

From S2P Require Import Prelude Errors ModuleRuntime Lifecycle LifecycleMachine.
Import Errors ModuleRuntime.Epoch Lifecycle LifecycleMachine.

Module LifecycleTokens.

(** ** Tokens *)
Inductive kind : Type := KOpen | KClosing | KDrained.

Inductive token : Type :=
| TState (s l : nat)
| TServices (s : Services)
| TModule (k : kind) (e : Z).

#[export] Instance kind_eq_dec : EqDecision kind.
Proof. solve_decision. Defined.
#[export] Instance token_eq_dec : EqDecision token.
Proof. solve_decision. Defined.

Definition opening_token (o : OpeningGeneration) : token := TState (shared_state o) (layers o).
Definition root_token (g : Owner ExecutionGeneration) : token :=
  TState (generation_state (content g)) (generation_layers (content g)).

Definition authority_token (a : ModuleAuthority) : token :=
  match a with
  | AClosing c => TModule KClosing (closing_id c)
  | ARetained r => TModule KClosing (retained_id r)
  | ADrained d => TModule KDrained (drained_id d)
  end.
Definition claimable_token (a : ClaimableModuleAuthority) : token :=
  match a with
  | ClaimOpen l => TModule KOpen (lease_id l)
  | ClaimClosing c => TModule KClosing (closing_id c)
  end.
Definition unavailable_token (a : UnavailableModuleAuthority) : token :=
  match a with
  | UDrained d => TModule KDrained (drained_id d)
  | URetained r => TModule KClosing (retained_id r)
  end.
Definition ready_token (r : ModuleCleanupReady) : token :=
  match r with
  | RClosing c => TModule KClosing (closing_id c)
  | RDrained d => TModule KDrained (drained_id d)
  end.

Definition abort_tokens (p : OpenAbortPayload.t) : list token :=
  match p with OpenAbortPayload.Staged o => [opening_token o] | OpenAbortPayload.Empty => [] end.
Definition close_tokens (p : ClosePayload.t) : list token :=
  match p with
  | ClosePayload.Empty => []
  | ClosePayload.Staged o => [opening_token o]
  | ClosePayload.Published c => [root_token (closing_generation c); TServices (closing_services c)]
  | ClosePayload.Retiring r => [TServices (retired_services r)]
  end.
Definition claim_tokens (c : RemovalClaimState) : list token :=
  match c with Outstanding _ => [] | Returned c => [authority_token (returned_authority c)] end.
Definition resource_tokens (r : CloseResources.t) : list token :=
  match r with
  | CloseResources.AwaitingOpenAbort _ p => abort_tokens p
  | CloseResources.Unowned p => close_tokens p
  | CloseResources.Available a =>
      claimable_token (available_authority a) :: close_tokens (available_payload a)
  | CloseResources.Claimed c => claim_tokens (claim c) ++ close_tokens (claimed_payload c)
  | CloseResources.Unavailable u =>
      unavailable_token (unavailable_authority u) :: close_tokens (unavailable_payload u)
  end.
Definition bundle_tokens (b : OpenGeneration) : list token :=
  [root_token (generation b); TServices (services b); TModule KOpen (lease_id (module_epoch b))].
Definition opening_tokens (p : OpeningPayload.t) : list token :=
  match p with
  | OpeningPayload.Empty => []
  | OpeningPayload.Staged o => [opening_token o]
  | OpeningPayload.Published b => bundle_tokens b
  end.
Definition closing_tokens (c : ClosingState.t) : list token :=
  match c with
  | ClosingState.OpeningActive _ _ (ActiveOpeningClose.AwaitingAbort p) => abort_tokens p
  | ClosingState.OpeningActive _ _ (ActiveOpeningClose.Published p a) =>
      claimable_token a :: close_tokens (PublishedClosePayload.into_close_payload p)
  | ClosingState.Ready r => resource_tokens r
  end.
Definition state_tokens (s : LifecycleState) : list token :=
  match s with
  | Closed _ => []
  | Lifecycle.Opening _ p => opening_tokens p
  | Open b => bundle_tokens b
  | Lifecycle.Closing c => closing_tokens c
  | OpenRollbackPending r | Quarantined r => resource_tokens r
  end.

(** What callers own. *)
Definition stage_tokens (s : guard_stage) : list token :=
  match s with
  | Owns a => [authority_token a]
  | Certified q => [TModule KDrained (quiescent_id q)]
  | Spent => []
  end.
Definition held_tokens (r : resource) : list token :=
  match r with
  | HOpening o => [opening_token o]
  | HServices s => [TServices s]
  | HRoot g => [root_token g]
  | HModule o => [TModule KOpen (opening_id o)]
  | HLease l => [TModule KOpen (lease_id l)]
  | HAuthority a => [authority_token a]
  | HReady r => [ready_token r]
  | HGuard g => stage_tokens (stage g)
  end.
Definition pool (h : list resource) : list token := h ≫= held_tokens.
Definition job_tokens (j : option job) : list token :=
  match j with
  | Some j => match pending_root j with Some g => [root_token g] | None => [] end
  | None => []
  end.

Definition tokens (w : world) : list token :=
  state_tokens (state (core w)) ++ pool (held w) ++ job_tokens (committing w).

(** ** Counting: permutations by arithmetic *)
Definition ind (t x : token) : nat := if decide (x = t) then 1 else 0.
Definition occ (t : token) (l : list token) : nat := sum_list_with (ind t) l.

Lemma occ_cons t x l : occ t (x :: l) = ind t x + occ t l.
Proof. done. Qed.
Lemma occ_nil t : occ t [] = 0.
Proof. done. Qed.
Lemma occ_app t l k : occ t (l ++ k) = occ t l + occ t k.
Proof. unfold occ. apply sum_list_with_app. Qed.

Lemma occ_count t l : occ t l = count_occ token_eq_dec l t.
Proof.
  induction l as [|x l IH]; [done|]. rewrite occ_cons, IH. unfold ind. simpl.
  destruct (decide (x = t)) as [|]; destruct (token_eq_dec x t); congruence || lia.
Qed.

Lemma perm_occ l k : l ≡ₚ k <-> forall t, occ t l = occ t k.
Proof. rewrite (Permutation_count_occ token_eq_dec). by setoid_rewrite occ_count. Qed.

Lemma pool_cons r h : pool (r :: h) = held_tokens r ++ pool h.
Proof. done. Qed.
Lemma pool_app h k : pool (h ++ k) = pool h ++ pool k.
Proof. apply bind_app. Qed.

Create Rewrite HintDb occ.
#[export] Hint Rewrite occ_app occ_cons occ_nil : occ.

(** Permutation goals about concatenations, and hypotheses of that kind. *)
Ltac perm :=
  repeat match goal with H : _ ≡ₚ _ |- _ => rewrite perm_occ in H end;
  apply perm_occ; let t := fresh "t" in intros t;
  repeat match goal with H : forall t, occ t _ = occ t _ |- _ => specialize (H t) end;
  cbn [app] in *; autorewrite with occ in *; lia.

(** Splits a transition into its branches, the innermost decision first. *)
Ltac decide_in x :=
  match x with
  | context [match ?y with _ => _ end] => decide_in y
  | _ => destruct x eqn:?
  end.
Ltac branches E :=
  repeat first
    [ progress simplify_eq/=
    | match type of E with context [match ?x with _ => _ end] => decide_in x end ].

Lemma take_spec i w r w' :
  take i w = Some (r, w') ->
  w' = set_held (held w') w /\ pool (held w) ≡ₚ held_tokens r ++ pool (held w').
Proof.
  unfold take. destruct (held w !! i) as [x|] eqn:Hi; [|done]. intros [= <- <-].
  split; [done|]. cbn [set_held held]. rewrite <- pool_cons.
  unfold pool. by rewrite (delete_Permutation _ _ _ Hi) at 1.
Qed.


(** ** Transitions move tokens *)

Abbreviation owned c := (state_tokens (state c)).

(** The functions transitions are made of. *)
Create HintDb lifecycle.
#[export] Hint Unfold
  into_closing_bundle into_retirement_with_generation OpenAbortPayload.take_staged
  ClosePayload.take_staged ClosePayload.take_retirement ClosePayload.retire ClosePayload.of_abort
  PublishedClosePayload.into_close_payload return_authority validate_removal_owner
  CloseResources.with_authority CloseResources.release_claimed CloseResources.release
  CloseResources.map_payload CloseResources.take_staged CloseResources.take_retirement
  CloseResources.into_retiring ActiveOpeningClose.resolve ClosingState.into_retiring
  ClosingState.take_staged ClosingState.take_retirement OpeningPayload.into_close_resources
  OpeningPayload.into_closing_state OpeningPayload.take_staged take_opening take_retirement
  resolve_open_failure request_quarantine available_of return_to vacant_acquire vacant_install
  destination_restore install_target classify into_cleanup set_state set_intent set_next_removal
  bundle_tokens obind : lifecycle.

(** Case analysis on every part of the state a transition looks at. *)
Ltac cases c E :=
  destruct c; autounfold with lifecycle in *; cbn in E; branches E;
  cbn in *; unfold bundle_tokens in *; try done; repeat (case_match; simplify_eq/=);
  unfold bundle_tokens; try done; try perm.

Lemma begin_tokens x c r c' e :
  begin_opening_if_closed x c = (r, c', e) -> owned c' = owned c.
Proof. unfold begin_opening_if_closed. intros E. cases c E. Qed.

Lemma stage_tokens_moved n v c r c' e :
  stage_opening_generation n v c = (r, c', e) ->
  owned c' ++ match r with Ok _ => [] | Err (_, v) => [opening_token v] end
  ≡ₚ opening_token v :: owned c.
Proof. unfold stage_opening_generation. intros E. cases c E. Qed.

Lemma take_opening_tokens s o s' :
  take_opening s = (o, s') ->
  state_tokens s' ++ option_list (opening_token <$> o) ≡ₚ state_tokens s.
Proof. intros E. cases s E. Qed.

Definition publish_error_tokens (r : result unit PublishOpeningError) : list token :=
  match r with
  | Ok _ => []
  | Err x => option_list (opening_token <$> error_opening x)
             ++ [TServices (error_services x); TModule KOpen (lease_id (error_module_epoch x))]
  end.

Lemma publish_tokens a b n s l c r c' e :
  publish_opening_generation a b n s l c = (r, c', e) ->
  owned c' ++ publish_error_tokens r
  ≡ₚ TServices s :: TModule KOpen (lease_id l) :: owned c.
Proof.
  unfold publish_opening_generation. destruct (take_opening (state c)) as [o s'] eqn:Ht.
  pose proof (take_opening_tokens _ _ _ Ht) as Hp. destruct c as [st ? ? ? ? ?].
  cbn [state] in *. intros E. unfold publish_error_tokens.
  destruct (state_has_current_generation st); [simplify_eq/=; perm|].
  destruct st; [simplify_eq/=; perm| |simplify_eq/=; perm..].
  destruct o as [o|]; simplify_eq/=; [|perm]. destruct payload; simplify_eq/=.
  unfold bundle_tokens, opening_token, root_token. cbn. perm.
Qed.

Lemma commit_tokens n c r c' e : commit_open n c = (r, c', e) -> owned c' = owned c.
Proof. unfold commit_open. intros E. cases c E. Qed.

Lemma failure_tokens c r c' e : record_open_failure c = (r, c', e) -> owned c' ≡ₚ owned c.
Proof. unfold record_open_failure. intros E. cases c E. Qed.

Lemma close_tokens_moved c r c' e : request_closing c = (r, c', e) -> owned c' ≡ₚ owned c.
Proof. unfold request_closing. intros E. cases c E. Qed.

Lemma quarantine_tokens c c' e : quarantine_core c = (c', e) -> owned c' ≡ₚ owned c.
Proof. unfold quarantine_core. intros E. cases c E. Qed.

Lemma install_tokens a c r c' e :
  install_returned_authority a c = (r, c', e) ->
  owned c' ++ match r with Ok _ => [] | Err a => [authority_token a] end
  ≡ₚ authority_token a :: owned c.
Proof. unfold install_returned_authority. intros E. cases c E. Qed.

Lemma return_tokens n a c c' e :
  return_removal_authority n a c = Done (c', e) -> owned c' ≡ₚ authority_token a :: owned c.
Proof.
  unfold return_removal_authority, return_to, validate_removal_owner, return_authority.
  intros E. cases c E.
Qed.

Lemma release_tokens n b c c' e :
  release_removal_claim n b c = Done (c', e) -> owned c' ≡ₚ owned c.
Proof. unfold release_removal_claim. intros E. cases c E. Qed.

Lemma finish_tokens b d m a c r c' e :
  finish_closed b d m a c = (r, c', e) -> owned c' = owned c.
Proof. unfold finish_closed, finish_claim. intros E. cases c E. Qed.

Lemma take_opening_rollback_tokens c o c' e :
  take_opening_for_rollback c = (o, c', e) ->
  owned c' ++ option_list (opening_token <$> o) ≡ₚ owned c.
Proof.
  unfold take_opening_for_rollback. destruct (take_opening (state c)) as [x s] eqn:Ht.
  intros [= <- <- <-]. cbn [set_state state]. by apply take_opening_tokens.
Qed.

Lemma take_bundle_tokens c g c' e :
  take_current_bundle c = (g, c', e) ->
  owned c' ++ option_list (root_token <$> g) ≡ₚ owned c.
Proof. unfold take_current_bundle. intros E. cases c E. Qed.

Definition retirement_tokens (r : option OpenRetirement) : list token :=
  match r with Some r => [TServices (retired_services r)] | None => [] end.

Lemma clear_tokens f m a c r c' e :
  clear_certified_retirement f m a c = (r, c', e) ->
  owned c' ++ retirement_tokens r ≡ₚ owned c.
Proof. unfold clear_certified_retirement. intros E. cases c E. Qed.


(** ** Transitions that close the module's epoch *)

(** A token as it leaves the state: unchanged, or the epoch's lease turned
    into its closing token. *)
Inductive closes (i i' : ExportIngress) (t t' : token) : Prop :=
| closes_same : t = t' -> i' = i -> closes i i' t t'
| closes_lease :
    t = TModule KOpen (Epoch.epoch i) -> t' = TModule KClosing (Epoch.epoch i) ->
    i' = begin_close_with i -> closes i i' t t'.

Lemma close_effects_spec id m m' :
  begin_close_effects id m = Done m' ->
  id = Epoch.epoch (ingress m) /\ ingress m' = begin_close_with (ingress m).
Proof.
  unfold begin_close_effects. destruct (Z.eqb_spec (Epoch.epoch (ingress m)) id); [|done].
  by intros [= <-].
Qed.

Lemma into_closing_spec a m c m' :
  into_closing a m = Done (c, m') ->
  closes (ingress m) (ingress m') (claimable_token a) (TModule KClosing (closing_id c))
  /\ closing_id c = claimable_id a.
Proof.
  destruct a as [l|x]; cbn.
  - unfold begin_close. destruct (begin_close_effects _ _) as [m1| |] eqn:E; [|done..].
    intros [= <- <-]. apply close_effects_spec in E as [He Hi]. cbn. rewrite He.
    split; [by apply closes_lease|done].
  - intros [= <- <-]. split; [by apply closes_same|done].
Qed.

Lemma claim_available_spec n a m r c m' :
  claim_available n a m = Done (r, c, m') ->
  r = ClaimClose (available_payload a)
        (Outstanding (OutstandingClaim n (claimable_id (available_authority a))))
  /\ closes (ingress m) (ingress m') (claimable_token (available_authority a))
       (TModule KClosing (closing_id c))
  /\ closing_id c = claimable_id (available_authority a).
Proof.
  unfold claim_available. destruct (into_closing _ m) as [[x m1]| |] eqn:E; [|done..].
  intros [= <- <- <-]. split; [done|]. by apply into_closing_spec in E.
Qed.

Definition claimed_token (r : option (Z * ModuleClosing)) (t : token) : Prop :=
  match r with Some (_, c) => t = TModule KClosing (closing_id c) | None => False end.

Lemma claim_tokens_moved m c r c' m' e :
  claim_removal m c = Done (r, c', m', e) ->
  (r = None /\ c' = c /\ m' = m)
  \/ exists t t', owned c ≡ₚ t :: owned c' /\ claimed_token r t'
       /\ closes (ingress m) (ingress m') t t'.
Proof.
  destruct c as [s ? ? n ? ?]. unfold claim_removal. cbn. intros E.
  destruct s as [| | |[|[| |a| |]]|[| |a| |]|]; simplify_eq/=; try (by left).
  all: destruct (Identity.checked_next n) as [n'|]; [|done];
    destruct (claim_available n a m) as [[[x y] m1]| |] eqn:Ec; simplify_eq/=;
    apply claim_available_spec in Ec as (-> & Hc & _); right; cbn; eauto.
Qed.

Definition cleanup_token (r : ModuleCleanupClaim) (t : token) : Prop :=
  match r with CReady r => t = ready_token r | _ => False end.

Lemma take_cleanup_tokens r m sel r' m' :
  CloseResources.take_cleanup r m = Done (sel, r', m') ->
  match sel with
  | SReady x => exists t, resource_tokens r ≡ₚ t :: resource_tokens r'
                          /\ closes (ingress m) (ingress m') t (ready_token x)
  | _ => r' = r /\ m' = m
  end.
Proof.
  unfold CloseResources.take_cleanup. intros E.
  destruct r as [| |[p a]|[p [c|[n a]]]|[p [d|k]]]; simplify_eq/=; try done.
  - destruct (into_closing a m) as [[x m1]| |] eqn:Ec; simplify_eq/=.
    apply into_closing_spec in Ec as [Hc _]. eauto.
  - destruct a as [x|x|x]; simplify_eq/=; try done; eexists; (split; [|by apply closes_same]); cbn;
      done.
  - eexists. split; [|by apply closes_same]. done.
Qed.

Lemma cleanup_tokens_moved m c r c' m' e :
  take_module_cleanup m c = Done (r, c', m', e) ->
  (owned c' = owned c /\ m' = m /\ forall x, r <> CReady x)
  \/ exists t t', owned c ≡ₚ t :: owned c' /\ cleanup_token r t'
       /\ closes (ingress m) (ingress m') t t'.
Proof.
  destruct c as [s ? ? ? ? ?]. unfold take_module_cleanup. cbn.
  set (o := match s with Closed (Finalizing _ true) => _ | _ => _ end).
  destruct o as [[[sel s'] m1]| |] eqn:Eo; [|done..]. cbn. intros [= <- <- <- <-]. cbn.
  assert (H : match sel with
          | SReady x => exists t, state_tokens s ≡ₚ t :: state_tokens s'
                                  /\ closes (ingress m) (ingress m1) t (ready_token x)
          | _ => state_tokens s' = state_tokens s /\ m1 = m
          end).
  { subst o. destruct s as [[|n []]| | |[n [] x|x]|x|x]; simplify_eq/=; try done;
      destruct (CloseResources.take_cleanup x m) as [[[sel1 r1] m2]| |] eqn:E; simplify_eq/=;
      apply take_cleanup_tokens in E; destruct sel; try done;
      destruct E as [-> ->]; done. }
  destruct sel; [destruct H as (t & Ht & Hc); right; cbn; by eauto|left..];
    destruct H as [-> ->]; (split_and!; [done|done|]); intros x; by repeat case_match.
Qed.

End LifecycleTokens.
