(* ===== verification/LifecycleShape.v ===== *)
(** * The transitions of the lifecycle as one relation

    Every call either leaves the canonical state and the projections alone or
    is one [transition] of the core ([call_core]), so that a property of the
    canonical state is proved once per transition and not once per caller.
    [transition_move] says what each effect means for what readers see: the
    open generation, the generation they may still use, and its bundle. *)

From S2P Require Import Prelude Errors SealableCounter ModuleRuntime Lifecycle LifecycleMachine LifecycleTokens.
Import Errors ModuleRuntime.Epoch Lifecycle LifecycleMachine LifecycleTokens.

Module LifecycleShape.

Inductive transition (c c' : LifecycleCore) (e : TransitionEffect) : Prop :=
| t_keep : c' = c -> e = Keep -> transition c c' e
| t_intent i : (c', e) = set_host_intent i c -> transition c c' e
| t_epoch : advance_removal_epoch c = Done (c', e) -> transition c c' e
| t_begin x r : begin_opening_if_closed x c = (r, c', e) -> transition c c' e
| t_stage n v r : stage_opening_generation n v c = (r, c', e) -> transition c c' e
| t_publish a b n s l r : publish_opening_generation a b n s l c = (r, c', e) -> transition c c' e
| t_commit n r : commit_open n c = (r, c', e) -> transition c c' e
| t_failure r : record_open_failure c = (r, c', e) -> transition c c' e
| t_install a r : install_returned_authority a c = (r, c', e) -> transition c c' e
| t_close r : request_closing c = (r, c', e) -> transition c c' e
| t_claim m r m' : claim_removal m c = Done (r, c', m', e) -> transition c c' e
| t_return n a : return_removal_authority n a c = Done (c', e) -> transition c c' e
| t_release n b : release_removal_claim n b c = Done (c', e) -> transition c c' e
| t_clear f m a r : clear_certified_retirement f m a c = (r, c', e) -> transition c c' e
| t_finish b d m a r : finish_closed b d m a c = (r, c', e) -> transition c c' e
| t_opening o : take_opening_for_rollback c = (o, c', e) -> transition c c' e
| t_quarantine : quarantine_core c = (c', e) -> transition c c' e
| t_cleanup m r m' : take_module_cleanup m c = Done (r, c', m', e) -> transition c c' e.

(** [take_current_bundle] without a bundle changes nothing. *)
Lemma take_bundle_none c c' e : take_current_bundle c = (None, c', e) -> c' = c /\ e = Keep.
Proof. unfold take_current_bundle. intros E. cases c E. Qed.

(** ** What a call does *)
Definition same_view (w w' : world) : Prop :=
  phase_word w' = phase_word w /\ published w' = published w /\ stripes w' = stripes w
  /\ readers w' = readers w.

Definition lock_after (w w' : world) : Prop :=
  lock w' = Free \/ lock w' = Abandoning
  \/ exists n, lock w' = Starting n /\ state (core w') = Lifecycle.Opening n OpeningPayload.Empty
               /\ state (core w) = Closed ClosedIdle.

Inductive call_effect (w w' : world) : Prop :=
| call_tokens :
    core w' = core w -> committing w' = committing w -> lock w' = lock w \/ lock w' = Free ->
    call_effect w w'
| call_transition e :
    committing w = None -> transition (core w) (core w') e ->
    committing w' = Some (Job (start_commit e) None) -> lock_after w w' -> call_effect w w'
| call_bundle g e :
    committing w = None -> take_current_bundle (core w) = (Some g, core w', e) ->
    committing w' = Some (Job (start_commit e) (Some g)) -> lock w' = Free ->
    held w' = held w -> call_effect w w'.

Lemma take_same i w r w1 :
  take i w = Some (r, w1) -> core w1 = core w /\ committing w1 = committing w /\ lock w1 = lock w
                             /\ module_ w1 = module_ w /\ same_view w w1.
Proof. unfold take. destruct (held w !! i); [|done]. by intros [= <- <-]. Qed.

Lemma give_same_core out w w' :
  give out w = Done (Some w') -> core w' = core w /\ committing w' = committing w
                                 /\ lock w' = lock w /\ same_view w w'.
Proof. by intros [= <-]. Qed.

(** An entry or a callback changes what the module counts, nothing else. *)
Lemma entry_op_module o w w' :
  entry_op o w = Done (Some w') ->
  exists m, w' = set_module m w /\ ingress m = ingress (module_ w).
Proof.
  intros E. destruct o; cbn [entry_op] in E; try done.
  - injection E as <-. eexists. split; [done|]. unfold enter_with. by destruct (Epoch.phase _).
  - unfold drop_guard in E. repeat (case_match; simplify_eq/=); try done. by eexists.
  - unfold callback_enter in E. case_match; simplify_eq/=. by eexists.
  - unfold callback_leave in E. case_match; simplify_eq/=. by eexists.
Qed.

Lemma token_op_core o w w' :
  token_op o w = Done (Some w') ->
  core w' = core w /\ committing w' = committing w /\ lock w' = lock w /\ same_view w w'.
Proof.
  intros E. unfold token_op, obind in E.
  repeat (case_match; simplify_eq; try done;
    try (match goal with H : take _ _ = Some _ |- _ => apply take_same in H as (? & ? & ? & ? & Hv) end;
         unfold same_view in *));
    first [apply give_same_core in E as (? & ? & ? & ?)|simplify_eq]; unfold same_view in *;
    destruct_and?; cbn in *; split_and!; congruence.
Qed.


(** The end of a transition, from a world [w1] that differs only in the pool,
    the module and the lock. *)
Lemma finish_effect c e out w w1 w' :
  committing w = None -> finish c e out w1 = Done (Some w') -> transition (core w) c e ->
  same_view w w1 ->
  (lock w1 = Free \/ lock w1 = Abandoning
   \/ exists n, lock w1 = Starting n /\ state c = Lifecycle.Opening n OpeningPayload.Empty
                /\ state (core w) = Closed ClosedIdle) ->
  call_effect w w' /\ same_view w w'.
Proof.
  intros Hn [= <-] Ht Hv Hl. split; [|exact Hv].
  by apply call_transition with e.
Qed.

Lemma begin_starts x c n c' e :
  begin_opening_if_closed x c = (Ok n, c', e) ->
  state c = Closed ClosedIdle /\ state c' = Lifecycle.Opening n OpeningPayload.Empty.
Proof. unfold begin_opening_if_closed. intros E. cases c E. Qed.

Lemma start_op_core o w w' :
  committing w = None -> start_op o w = Done (Some w') -> call_effect w w' /\ same_view w w'.
Proof.
  intros Hn E. unfold start_op in E. destruct o; try done; destruct (lock w) eqn:Hl; try done.
  - destruct (begin_opening_if_closed _ _) as [[r c] e] eqn:Eb. pose proof (t_begin _ _ _ _ _ Eb) as Ht.
    destruct r as [n|].
    + apply begin_starts in Eb. eapply (finish_effect _ _ _ w) in E; [exact E|done|exact Ht|done|].
      right. right. exists n. tauto.
    + eapply (finish_effect _ _ _ w) in E; [exact E|done|exact Ht|done|by left].
  - destruct (begin_open (module_ w)) as [[x m]| |]; [|done..]. injection E as <-.
    split; [|done]. apply call_tokens; cbn; auto.
  - destruct (record_open_failure _) as [[r c] e] eqn:Ef.
    eapply (finish_effect _ _ _ w) in E; [exact E|done|by eapply t_failure|done|by right; left].
  - destruct (quarantine_core _) as [c e] eqn:Ef.
    eapply (finish_effect _ _ _ w) in E; [exact E|done|by apply t_quarantine|done|by left].
Qed.

Section Unlocked.
Context (w w' : world) (Hn : committing w = None) (Hl : lock w = Free).

Lemma unlocked_effect c e out :
  finish c e out w = Done (Some w') -> transition (core w) c e -> call_effect w w' /\ same_view w w'.
Proof using Hn Hl. intros E Ht. eapply finish_effect; eauto. done. Qed.

Lemma unlocked_module c e out m :
  finish c e out (set_module m w) = Done (Some w') -> transition (core w) c e ->
  call_effect w w' /\ same_view w w'.
Proof using Hn Hl. intros E Ht. eapply finish_effect; [done|exact E|done|done|]. by left. Qed.

Lemma taken_effect i r w1 c e out :
  take i w = Some (r, w1) -> finish c e out w1 = Done (Some w') -> transition (core w) c e ->
  call_effect w w' /\ same_view w w'.
Proof using Hn Hl.
  intros (Hc & _ & Hl1 & _ & Hv)%take_same E Ht. eapply finish_effect; eauto. left. congruence.
Qed.

Lemma open_op_core o : open_op o w = Done (Some w') -> call_effect w w' /\ same_view w w'.
Proof using Hn Hl.
  intros E. destruct o; cbn [open_op] in E; try done.
  - destruct (take i w) as [[r w1]|] eqn:Ht; [|done]. cbn in E. destruct r; try done.
    rewrite (proj1 (take_same _ _ _ _ Ht)) in E.
    destruct (stage_opening_generation _ _ _) as [[r c] e] eqn:Ef.
    eapply taken_effect; [exact Ht|exact E|by eapply t_stage].
  - destruct (take i w) as [[r w1]|] eqn:Ht; [|done]. cbn in E. destruct r; try done.
    destruct (take j w1) as [[r w2]|] eqn:Ht2; [|done]. cbn in E. destruct r; try done.
    apply take_same in Ht as (Hc & Hj & Hk & _ & Hv). apply take_same in Ht2 as (Hc2 & Hj2 & Hk2 & _ & Hv2).
    rewrite Hc2, Hc in E. destruct (publish_opening_generation _ _ _ _ _ _) as [[r c] e] eqn:Ef.
    eapply (finish_effect _ _ _ w); [done|exact E|by eapply t_publish| |left; congruence].
    unfold same_view in *. destruct_and!. split_and!; congruence.
  - destruct (commit_open _ _) as [[r c] e] eqn:Ef. eapply unlocked_effect; [exact E|by eapply t_commit].
  - destruct (record_open_failure _) as [[r c] e] eqn:Ef.
    eapply unlocked_effect; [exact E|by eapply t_failure].
  - destruct (take i w) as [[r w1]|] eqn:Ht; [|done]. cbn in E. destruct r; try done.
    rewrite (proj1 (take_same _ _ _ _ Ht)) in E.
    destruct (install_returned_authority _ _) as [[r c] e] eqn:Ef.
    eapply taken_effect; [exact Ht|exact E|by eapply t_install].
Qed.

Lemma removal_op_core o : removal_op o w = Done (Some w') -> call_effect w w' /\ same_view w w'.
Proof using Hn Hl.
  intros E. destruct o; cbn [removal_op] in E; try done.
  - destruct (advance_removal_epoch _) as [[c e]| |] eqn:Ef; [|done..].
    eapply unlocked_effect; [exact E|by apply t_epoch].
  - unfold final_close_decision in E. destruct (request_closing _) as [[r c] e] eqn:Ef.
    eapply unlocked_effect; [exact E|by eapply t_close].
  - destruct (state (core w)); try done.
    destruct (claim_removal _ _) as [[[[cl c'] m] e]| |] eqn:Ec; [|done..].
    eapply unlocked_module; [exact E|by eapply t_claim].
  - unfold rollback_decision in E. destruct (state (core w)) as [[]| | | | |] eqn:Es; cbn in E;
      try (eapply unlocked_module; [exact E|by apply t_keep]).
    destruct (claim_removal _ _) as [[[[cl c'] m] e]| |] eqn:Ec; [|done..]. cbn in E.
    eapply unlocked_module; [exact E|by eapply t_claim].
  - destruct (take i w) as [[r w1]|] eqn:Ht; [|done]. cbn in E.
    destruct r as [| | | | | | |[n b s]]; try done.
    eapply taken_effect; [exact Ht|exact E|]. apply t_keep; [|done]. by apply take_same in Ht as [-> _].
  - destruct (take i w) as [[r w1]|] eqn:Ht; [|done]. cbn in E.
    destruct r as [| | | | | | |[n b [a| |]]]; try done.
    rewrite (proj1 (take_same _ _ _ _ Ht)) in E.
    destruct (return_removal_authority _ _ _) as [[c e]| |] eqn:Ef; [|done..].
    eapply taken_effect; [exact Ht|exact E|by eapply t_return].
  - destruct (take i w) as [[r w1]|] eqn:Ht; [|done]. cbn in E.
    destruct r as [| | | | | | |[n b [a|q|]]]; try done;
      rewrite (proj1 (take_same _ _ _ _ Ht)) in E;
      (destruct (release_removal_claim _ _ _) as [[c e]| |] eqn:Ef; [|done..]);
      (eapply taken_effect; [exact Ht|exact E|by eapply t_release]).
  - destruct (held w !! i) as [[| | | | | | |[n b [a|q|]]]|]; try done.
    destruct (clear_certified_retirement _ _ _ _) as [[r c] e] eqn:Ef.
    eapply unlocked_effect; [exact E|by eapply t_clear].
  - destruct (held w !! i) as [[| | | | | | |[n b [a|q|]]]|]; try done.
    destruct ((if final then finish_final_removal else finish_open_rollback) _ _ _)
      as [[r c] e] eqn:Ef.
    eapply unlocked_effect; [exact E|]. destruct final; by eapply t_finish.
Qed.

Lemma recovery_op_core o : recovery_op o w = Done (Some w') -> call_effect w w' /\ same_view w w'.
Proof using Hn Hl.
  intros E. destruct o; cbn [recovery_op] in E; try done.
  - eapply unlocked_effect; [exact E|by apply (t_intent _ _ _ x)].
  - unfold clear_completed_removal in E. destruct (state (core w)) as [[]| | | | |]; try done.
    destruct (host_intent (core w)); try done. eapply unlocked_effect; [exact E|by eapply t_intent].
  - unfold take_generation in E. destruct (take_current_bundle _) as [[[g|] c] e] eqn:Ef.
    + injection E as <-. split; [|done]. by apply call_bundle with g e.
    + apply take_bundle_none in Ef as [-> ->].
      destruct (take_opening_for_rollback _) as [[v c'] e'] eqn:Eo.
      eapply unlocked_effect; [exact E|by eapply t_opening].
  - destruct (take_opening_for_rollback _) as [[v c] e] eqn:Ef.
    eapply unlocked_effect; [exact E|by eapply t_opening].
  - destruct (quarantine_core _) as [c e] eqn:Ef. eapply unlocked_effect; [exact E|by apply t_quarantine].
  - destruct (take_module_cleanup _ _) as [[[[r c] m] e]| |] eqn:Ec; [|done..].
    eapply unlocked_module; [exact E|by eapply t_cleanup].
Qed.
End Unlocked.

Lemma call_core o w w' : call_step o w = Done (Some w') -> call_effect w w' /\ same_view w w'.
Proof.
  intros E. unfold call_step in E.
  destruct o; try (apply token_op_core in E as (Hc & Hj & Hl & Hv); split; [|done];
                   by apply call_tokens; [..|left]);
    try (apply entry_op_module in E as (m & -> & _); split; [|done]; by apply call_tokens; [..|left]);
    (destruct (committing w) eqn:Hn; [done|]); unfold locked_op in E;
    try (by apply start_op_core in E);
    (destruct (lock w) eqn:Hl; [|done..]);
    first [by apply open_op_core in E|by apply removal_op_core in E|by apply recovery_op_core in E].
Qed.


(** ** What readers may still use *)

(** A published generation: the root, its services, its publication. *)
Definition bundle : Type := Owner ExecutionGeneration * Services * Owner PublishedGeneration.

Definition bundle_root (b : bundle) : Owner ExecutionGeneration := b.1.1.
Definition bundle_services (b : bundle) : Services := b.1.2.
Definition bundle_publication (b : bundle) : Owner PublishedGeneration := b.2.

Definition closing_bundle (c : ClosingGeneration) : bundle :=
  (closing_generation c, closing_services c, closing_publication c).
Definition open_bundle (b : OpenGeneration) : bundle :=
  (Lifecycle.generation b, services b, publication b).

Definition payload_bundle (p : ClosePayload.t) : option bundle :=
  match p with ClosePayload.Published c => Some (closing_bundle c) | _ => None end.
Definition resource_bundle (r : CloseResources.t) : option bundle :=
  p ← CloseResources.payload r; payload_bundle p.
Definition closing_state_bundle (c : ClosingState.t) : option bundle :=
  match c with
  | ClosingState.OpeningActive _ _
      (ActiveOpeningClose.Published (PublishedClosePayload.Published c) _) => Some (closing_bundle c)
  | ClosingState.OpeningActive _ _ _ => None
  | ClosingState.Ready r => resource_bundle r
  end.

Definition current (s : LifecycleState) : option bundle :=
  match s with
  | Lifecycle.Opening _ (OpeningPayload.Published b) | Open b => Some (open_bundle b)
  | Lifecycle.Closing c => closing_state_bundle c
  | OpenRollbackPending r | Quarantined r => resource_bundle r
  | _ => None
  end.

(** The bundle that readers may have reached: one of an opening attempt was
    never visible. *)
Definition shown (s : LifecycleState) : option bundle :=
  match s with Lifecycle.Opening _ _ => None | _ => current s end.

Definition opened (s : LifecycleState) : option (Owner PublishedGeneration) :=
  match s with Open b => Some (publication b) | _ => None end.

(** The publication points at the root and the services it was made for. *)
Definition bundle_ok (b : bundle) : Prop :=
  root (content (bundle_publication b)) = address (bundle_root b)
  /\ root_services (content (bundle_publication b)) = bundle_services b.

Record move (e : TransitionEffect) (s s' : LifecycleState) : Prop := {
  move_opened :
    match e with
    | Keep => opened s' = opened s
    | ClearPublication => opened s' = None
    | Publish p => opened s = None /\ shown s = None /\ opened s' = Some p
    end;
  move_shown b : shown s = Some b -> shown s' = Some b;
  move_current b : current s' = Some b -> current s = Some b \/ bundle_ok b;
}.

Lemma move_same s : move Keep s s.
Proof. split; auto. Qed.

#[export] Hint Unfold shown current resource_bundle payload_bundle closing_state_bundle opened : lifecycle.

Ltac moves c E := cases c E; split; cbn; auto; try done; intros ? [= <-]; auto.

Lemma begin_move x c r c' e : begin_opening_if_closed x c = (r, c', e) -> move e (state c) (state c').
Proof. unfold begin_opening_if_closed. intros E. moves c E. Qed.

Lemma stage_move n v c r c' e :
  stage_opening_generation n v c = (r, c', e) -> move e (state c) (state c').
Proof. unfold stage_opening_generation. intros E. moves c E. Qed.

Lemma publish_move a b n s l c r c' e :
  publish_opening_generation a b n s l c = (r, c', e) -> move e (state c) (state c').
Proof. unfold publish_opening_generation. intros E. moves c E. right. by split. Qed.

Lemma commit_move n c r c' e : commit_open n c = (r, c', e) -> move e (state c) (state c').
Proof. unfold commit_open, publish_effect. intros E. moves c E. Qed.

Lemma failure_move c r c' e : record_open_failure c = (r, c', e) -> move e (state c) (state c').
Proof. unfold record_open_failure. intros E. moves c E. Qed.

Lemma close_move c r c' e : request_closing c = (r, c', e) -> move e (state c) (state c').
Proof. unfold request_closing. intros E. moves c E. Qed.

Lemma opening_move c o c' e :
  take_opening_for_rollback c = (o, c', e) -> move e (state c) (state c').
Proof. unfold take_opening_for_rollback. intros E. moves c E. Qed.

Lemma quarantine_move c c' e : quarantine_core c = (c', e) -> move e (state c) (state c').
Proof. unfold quarantine_core. intros E. moves c E. Qed.

Lemma release_move n b c c' e :
  release_removal_claim n b c = Done (c', e) -> move e (state c) (state c').
Proof. unfold release_removal_claim. intros E. moves c E. Qed.

Lemma return_move n a c c' e :
  return_removal_authority n a c = Done (c', e) -> move e (state c) (state c').
Proof.
  unfold return_removal_authority, return_to, validate_removal_owner, return_authority.
  intros E. moves c E.
Qed.

Lemma clear_move f m a c r c' e :
  clear_certified_retirement f m a c = (r, c', e) -> move e (state c) (state c').
Proof. unfold clear_certified_retirement. intros E. moves c E. Qed.

Lemma finish_move b d m a c r c' e :
  finish_closed b d m a c = (r, c', e) -> move e (state c) (state c').
Proof. unfold finish_closed, finish_claim. intros E. moves c E. Qed.


Lemma claim_move m c r c' m' e :
  claim_removal m c = Done (r, c', m', e) -> move e (state c) (state c').
Proof.
  destruct c as [s ? ? n ? ?]. unfold claim_removal. cbn. intros E.
  destruct s as [| | |[|[| |a| |]]|[| |a| |]|]; simplify_eq/=; try apply move_same.
  all: destruct (Identity.checked_next n) as [n'|]; [|done];
    destruct (claim_available n a m) as [[[x y] m1]| |] eqn:Ec; simplify_eq/=;
    apply claim_available_spec in Ec as (-> & _ & _); by split; cbn; auto.
Qed.

Lemma restore_bundle d r : current (destination_restore d r) = resource_bundle r
                           /\ shown (destination_restore d r) = resource_bundle r
                           /\ opened (destination_restore d r) = None.
Proof. by destruct d. Qed.

Lemma vacant_bundle n a r :
  match vacant_acquire n r with
  | Ok v => resource_bundle (vacant_install a v) = resource_bundle r
  | Err r' => r' = r
  end.
Proof.
  destruct r as [k p|p|x|[p [[k q]|x]]|x]; cbn; try done; try (by destruct a).
  - destruct p; by destruct a.
  - by destruct (q =? n)%Z.
Qed.

Lemma install_target_bundle s r d :
  install_target s = Some (r, d) ->
  opened s = None /\ current s = resource_bundle r /\ (shown s = resource_bundle r).
Proof.
  destruct s as [[]|? []| |[? ? [[]|]|]| |]; cbn; try done; intros [= <- <-]; done.
Qed.

Lemma install_move a c r c' e :
  install_returned_authority a c = (r, c', e) -> move e (state c) (state c').
Proof.
  unfold install_returned_authority. destruct (install_target _) as [[x d]|] eqn:Ht;
    [|intros [= <- <- <-]; apply move_same].
  apply install_target_bundle in Ht as (Ho & Hc & Hs).
  pose proof (vacant_bundle (authority_id a) a x) as H.
  destruct (vacant_acquire _ _) as [v|y]; intros [= <- <- <-]; cbn.
  - destruct (restore_bundle d (vacant_install a v)) as (Hc' & Hs' & Ho'). rewrite H in *.
    split; [congruence|congruence|]. rewrite Hc', Hc. auto.
  - subst y. destruct (restore_bundle d x) as (Hc' & Hs' & Ho').
    split; [congruence|congruence|]. rewrite Hc', Hc. auto.
Qed.

Lemma take_cleanup_bundle r m sel r' m' :
  CloseResources.take_cleanup r m = Done (sel, r', m') -> resource_bundle r' = resource_bundle r.
Proof.
  unfold CloseResources.take_cleanup. intros E.
  destruct r as [| |[p a]|[p [c|[n a]]]|[p [d|k]]]; simplify_eq/=; try done.
  - destruct (into_closing a m) as [[x m1]| |] eqn:Ec; by simplify_eq/=.
  - by destruct a; simplify_eq/=.
Qed.

Lemma cleanup_move m c r c' m' e :
  take_module_cleanup m c = Done (r, c', m', e) -> move e (state c) (state c').
Proof.
  destruct c as [s ? ? ? ? ?]. unfold take_module_cleanup. cbn.
  set (o := match s with Closed (Finalizing _ true) => _ | _ => _ end).
  destruct o as [[[sel s'] m1]| |] eqn:Eo; [|done..]. cbn. intros [= <- <- <- <-]. cbn.
  subst o. destruct s as [[|n []]| | |[n [] x|x]|x|x]; simplify_eq/=; try apply move_same;
    destruct (CloseResources.take_cleanup x m) as [[[sel1 r1] m2]| |] eqn:E; simplify_eq/=;
    apply take_cleanup_bundle in E; split; cbn; try done; rewrite E; auto.
Qed.

Lemma transition_move c c' e : transition c c' e -> move e (state c) (state c').
Proof.
  intros [-> ->|i [= -> ->]|E|x r E|n v r E|a b n s l r E|n r E|r E|a r E|r E|m r m' E|n a E|n b E
         |f m a r E|b d m a r E|o E|E|m r m' E].
  - apply move_same.
  - apply move_same.
  - unfold advance_removal_epoch in E. destruct (checked_add _ _ _); [|done]. injection E as <- <-.
    apply move_same.
  - by eapply begin_move.
  - by eapply stage_move.
  - by eapply publish_move.
  - by eapply commit_move.
  - by eapply failure_move.
  - by eapply install_move.
  - by eapply close_move.
  - by eapply claim_move.
  - by eapply return_move.
  - by eapply release_move.
  - by eapply clear_move.
  - by eapply finish_move.
  - by eapply opening_move.
  - by eapply quarantine_move.
  - by eapply cleanup_move.
Qed.

(** ** [take_current_bundle] *)

(** What is left of a bundle whose root is taken out. *)
Definition payload_retiring (p : ClosePayload.t) : option (Services * Owner PublishedGeneration) :=
  match p with
  | ClosePayload.Retiring r => Some (retired_services r, retired_publication r)
  | _ => None
  end.
Definition resource_retiring (r : CloseResources.t) : option (Services * Owner PublishedGeneration) :=
  p ← CloseResources.payload r; payload_retiring p.
Definition retiring (s : LifecycleState) : option (Services * Owner PublishedGeneration) :=
  match s with
  | Lifecycle.Closing (ClosingState.OpeningActive _ _
      (ActiveOpeningClose.Published (PublishedClosePayload.Retiring r) _)) =>
      Some (retired_services r, retired_publication r)
  | Lifecycle.Closing (ClosingState.Ready r) | OpenRollbackPending r | Quarantined r =>
      resource_retiring r
  | _ => None
  end.

#[export] Hint Unfold retiring resource_retiring payload_retiring : lifecycle.

Lemma take_bundle_move c g c' e :
  take_current_bundle c = (Some g, c', e) ->
  e = ClearPublication /\ opened (state c') = None /\ current (state c') = None
  /\ exists s p, shown (state c) = Some (g, s, p) /\ retiring (state c') = Some (s, p)
                 /\ current (state c) = Some (g, s, p).
Proof.
  unfold take_current_bundle. intros E. cases c E; cbn; split_and!; try done; eexists _, _; done.
Qed.

End LifecycleShape.
