(* ===== verification/LifecycleInvariant.v ===== *)
(** * The module's epochs and the removal claim

    What each step does to all the tokens of the program ([change]); the
    invariant of the module's epochs, [epochs_ok]: every epoch has at most one
    authority, and its kind agrees with the ingress; and the invariant of the
    removal claim, [claims_ok]: the canonical claim and the one guard that
    owns it agree. *)

From S2P Require Import Prelude Errors SealableCounter ModuleRuntime Lifecycle LifecycleMachine LifecycleTokens LifecycleShape.
Import Errors ModuleRuntime.Epoch Lifecycle LifecycleMachine LifecycleTokens LifecycleShape.

Module LifecycleInvariant.

(** ** What a step does to the tokens and the ingress *)
Inductive change (may_begin : Prop) (i i' : ExportIngress) (ts ts' : list token) : Prop :=
| ch_same : i' = i -> ts' ≡ₚ ts -> change may_begin i i' ts ts'
| ch_loss l : i' = i -> ts ≡ₚ l ++ ts' -> change may_begin i i' ts ts'
| ch_value t :
    i' = i -> (forall k e, t <> TModule k e) -> ts' ≡ₚ t :: ts -> change may_begin i i' ts ts'
| ch_begin :
    may_begin -> Epoch.phase i = PHASE_CLOSED -> i' = Ingress PHASE_OPENING (Epoch.epoch i + 1) ->
    ts' ≡ₚ TModule KOpen (Epoch.epoch i + 1) :: ts -> change may_begin i i' ts ts'
| ch_open :
    Epoch.phase i = PHASE_OPENING -> i' = Ingress PHASE_OPEN (Epoch.epoch i) -> ts' ≡ₚ ts ->
    change may_begin i i' ts ts'
| ch_close r :
    i' = begin_close_with i -> ts ≡ₚ TModule KOpen (Epoch.epoch i) :: r ->
    ts' ≡ₚ TModule KClosing (Epoch.epoch i) :: r -> change may_begin i i' ts ts'
| ch_drain e l r :
    Epoch.phase i = PHASE_CLOSING \/ Epoch.phase i = PHASE_CLOSED ->
    i' = Ingress PHASE_CLOSED (Epoch.epoch i) -> ts ≡ₚ TModule KClosing e :: r ->
    ts' ≡ₚ l ++ r -> l = [TModule KDrained e] \/ l = [] -> change may_begin i i' ts ts'.

(** A token consumed somewhere and produced somewhere else. *)
Lemma closes_change p i i' t t' ts ts' r :
  closes i i' t t' -> ts ≡ₚ t :: r -> ts' ≡ₚ t' :: r -> change p i i' ts ts'.
Proof.
  intros [-> ->| -> -> ->] H H'.
  - apply ch_same; [done|]. by rewrite H, H'.
  - by apply ch_close with r.
Qed.

(** ** Worlds *)
Abbreviation gate w := (ingress (module_ w)).

(** An [OpenStart] holds the core lock. *)
Definition starting (w : world) : Prop := exists attempt, lock w = Starting attempt.
Definition begins (w w' : world) : Prop := starting w /\ lock w' = Free.

Lemma tokens_free w :
  committing w = None -> tokens w = state_tokens (state (core w)) ++ pool (held w).
Proof. unfold tokens. intros ->. cbn. by rewrite app_nil_r. Qed.

Lemma tokens_finish c e out w w' :
  finish c e out w = Done (Some w') ->
  tokens w' = state_tokens (state c) ++ pool out ++ pool (held w) /\ module_ w' = module_ w.
Proof.
  intros [= <-]. unfold tokens. cbn. rewrite app_nil_r, pool_app. done.
Qed.

Lemma tokens_held h w :
  tokens (set_held h w) ++ pool (held w) ≡ₚ tokens w ++ pool h.
Proof. unfold tokens. cbn [set_held core held committing]. perm. Qed.

Lemma tokens_give out w w' :
  give out w = Done (Some w') -> tokens w' ≡ₚ pool out ++ tokens w /\ module_ w' = module_ w.
Proof.
  intros [= <-]. split; [|done]. pose proof (tokens_held (out ++ held w) w) as H.
  rewrite pool_app in H. perm.
Qed.

Lemma tokens_take i w r w1 :
  take i w = Some (r, w1) ->
  tokens w ≡ₚ held_tokens r ++ tokens w1 /\ module_ w1 = module_ w /\ core w1 = core w
  /\ committing w1 = committing w /\ lock w1 = lock w.
Proof.
  intros [-> Hp]%take_spec. split; [|done].
  pose proof (tokens_held (held w1) w) as H. cbn [set_held held] in *. perm.
Qed.

Lemma tokens_module m w : tokens (set_module m w) = tokens w.
Proof. done. Qed.

Ltac taken :=
  match goal with
  | E : context [take ?i ?w] |- _ =>
      let r := fresh "r" in let w1 := fresh "w1" in let H := fresh "Htake" in
      destruct (take i w) as [[r w1]|] eqn:H; [apply tokens_take in H as (?Ht & ?Hm & ?Hc & ?Hj & ?Hl)|];
      cbn in E
  end.

Lemma drain_spec fault c m r m' :
  seal_and_drain fault c m = Done (r, m') ->
  (exists e, r = Err (e, Retained c) /\ ingress m' = ingress m)
  \/ (Epoch.phase (ingress m) = PHASE_CLOSING \/ Epoch.phase (ingress m) = PHASE_CLOSED)
     /\ ingress m' = Ingress PHASE_CLOSED (Epoch.epoch (ingress m))
     /\ exists d, r = Ok d /\ drained_id d = closing_id c.
Proof.
  unfold seal_and_drain, ingress_seal_and_drain. intros E.
  destruct (Epoch.phase (ingress m)) eqn:Hp; simplify_eq/=; destruct fault; simplify_eq/=; eauto 10.
Qed.

Lemma cleanup_finish_spec fault r m x m' :
  cleanup_finish fault r m = Done (x, m') ->
  (exists e a, x = Err (e, a) /\ authority_token a = ready_token r /\ ingress m' = ingress m)
  \/ x = Ok tt /\ match r with
       | RClosing c =>
           (Epoch.phase (ingress m) = PHASE_CLOSING \/ Epoch.phase (ingress m) = PHASE_CLOSED)
           /\ ingress m' = Ingress PHASE_CLOSED (Epoch.epoch (ingress m))
       | RDrained _ => ingress m' = ingress m
       end.
Proof.
  destruct r as [c|d]; cbn.
  - destruct (seal_and_drain fault c m) as [[d m1]| |] eqn:E; [|done..].
    apply drain_spec in E as [(e & -> & Hi)|(Hp & Hi & d' & -> & _)]; intros [= <- <-].
    + left. by exists e, (ARetained (Retained c)).
    + by right.
  - intros [= <- <-]. by right.
Qed.

(** The module's part of a token's way, as a [change] on any list. *)
Lemma rollback_change p o m c m' ts ts' r :
  rollback o m = Done (c, m') -> ts ≡ₚ TModule KOpen (opening_id o) :: r ->
  ts' ≡ₚ TModule KClosing (closing_id c) :: r -> change p (ingress m) (ingress m') ts ts'.
Proof.
  unfold rollback. destruct (begin_close_effects _ _) as [m1| |] eqn:E; [|done..].
  intros [= <- <-] H H'. apply close_effects_spec in E as [He Hi]. cbn in *. rewrite He in *.
  by apply ch_close with r.
Qed.

Lemma lease_close_change p l m c m' ts ts' r :
  begin_close l m = Done (c, m') -> ts ≡ₚ TModule KOpen (lease_id l) :: r ->
  ts' ≡ₚ TModule KClosing (closing_id c) :: r -> change p (ingress m) (ingress m') ts ts'.
Proof. intros E. apply (rollback_change p (Epoch.Opening (lease_id l))). exact E. Qed.

Lemma token_op_change o w w' :
  token_op o w = Done (Some w') -> change (begins w w') (gate w) (gate w') (tokens w) (tokens w').
Proof.
  intros E. destruct o; cbn [token_op] in E; try done; try taken; try done.
  - apply tokens_give in E as [Ht ->]. by eapply ch_value; [done| |exact Ht].
  - apply tokens_give in E as [Ht ->]. by eapply ch_value; [done| |exact Ht].
  - eapply ch_loss with (held_tokens r); destruct r; simplify_eq; by rewrite ?Hm.
  - unfold publish_open, still_opening in E. case_bool_decide; [|done]. simplify_eq.
    by apply ch_open.
  - destruct r; try done. apply tokens_give in E as [Ht' ->]. cbn in *. rewrite Hm.
    apply ch_same; [done|]. perm.
  - destruct r as [| | |t| | | |]; try done.
    destruct (rollback t (module_ w1)) as [[c m1]| |] eqn:Er; [|done..].
    apply tokens_give in E as [Ht' ->]. rewrite tokens_module in Ht'. rewrite Hm in Er.
    exact (rollback_change _ _ _ _ _ _ _ _ Er Ht Ht').
  - destruct r as [| | | |l| | |]; try done.
    destruct (begin_close l (module_ w1)) as [[c m1]| |] eqn:Er; [|done..].
    apply tokens_give in E as [Ht' ->]. rewrite tokens_module in Ht'. rewrite Hm in Er.
    exact (lease_close_change _ _ _ _ _ _ _ _ Er Ht Ht').
  - destruct r as [| | | | | | |[n b [[c|d|k]| |]]]; try done.
    destruct (waits_for_exports _ _); [done|].
    destruct (seal_and_drain fault c (module_ w1)) as [[x m1]| |] eqn:Er; [|done..].
    apply tokens_give in E as [Ht' ->]. rewrite tokens_module in Ht'. rewrite Hm in Er.
    cbn [set_module module_] in *.
    apply drain_spec in Er as [(e & -> & Hi)|(Hp & Hi & d & -> & Hd)]; cbn in *.
    + apply ch_same; [done|]. unfold retained_id in *. cbn in *. perm.
    + eapply (ch_drain _ _ _ _ _ _ [_]); [done|done|exact Ht| |by left]. rewrite <- Hd. exact Ht'.
  - destruct r as [| | | | | | |[n b [[c|d|k]| |]]]; try done. unfold certify in E.
    destruct (is_current _ _); [|done]. apply tokens_give in E as [Ht' ->].
    cbn [set_module module_] in *. rewrite tokens_module in Ht'. apply ch_same; [by rewrite <- Hm|].
    cbn in *. perm.
  - destruct r as [| | | | | | |[n b x]]; try done. apply tokens_give in E as [Ht' ->].
    apply ch_same; [by rewrite Hm|]. cbn in *. perm.
  - destruct r as [| | | | | |x|]; try done.
    destruct (cleanup_waits _ _ _); [done|].
    destruct (cleanup_finish fault x (module_ w1)) as [[y m1]| |] eqn:Er; [|done..].
    apply tokens_give in E as [Ht' ->]. rewrite tokens_module in Ht'. rewrite Hm in Er.
    cbn [set_module module_] in *.
    apply cleanup_finish_spec in Er as [(e & a & -> & Ha & Hi)|[-> Hx]]; cbn in *.
    + apply ch_same; [done|]. rewrite Ha in Ht'. perm.
    + destruct x as [c|d]; cbn in *.
      * destruct Hx as [Hp Hi]. exact (ch_drain _ _ _ _ _ _ [] _ Hp Hi Ht Ht' (or_intror eq_refl)).
      * apply ch_loss with [TModule KDrained (drained_id d)]; [done|]. cbn. perm.
Qed.


(** ** Calls under the core lock *)

(** A finished transition that only moved tokens. *)
Lemma finish_change w c e out w1 w' ins :
  committing w = None -> core w1 = core w -> committing w1 = committing w ->
  module_ w1 = module_ w -> tokens w ≡ₚ ins ++ tokens w1 ->
  finish c e out w1 = Done (Some w') ->
  state_tokens (state c) ++ pool out ≡ₚ ins ++ state_tokens (state (core w)) ->
  change (begins w w') (gate w) (gate w') (tokens w) (tokens w').
Proof.
  intros Hn Hc Hj Hm Ht E Hp. apply tokens_finish in E as [E Em]. rewrite Em, Hm.
  apply ch_same; [done|]. rewrite E. rewrite (tokens_free w1) in Ht by congruence.
  rewrite Hc in Ht. perm.
Qed.

(** The same for a transition that takes nothing from the pool. *)
Lemma finish_change0 w c e out w' :
  committing w = None -> finish c e out w = Done (Some w') ->
  state_tokens (state c) ++ pool out ≡ₚ state_tokens (state (core w)) ->
  change (begins w w') (gate w) (gate w') (tokens w) (tokens w').
Proof. intros Hn E Hp. by apply (finish_change w c e out w w' []) in E. Qed.

(** A transition that hands out a token of the module, closed on the way. *)
Lemma finish_closes w c e out m1 w' t t' :
  committing w = None -> finish c e out (set_module m1 w) = Done (Some w') ->
  state_tokens (state (core w)) ≡ₚ t :: state_tokens (state c) -> pool out ≡ₚ [t'] ->
  closes (gate w) (ingress m1) t t' -> change (begins w w') (gate w) (gate w') (tokens w) (tokens w').
Proof.
  intros Hn E Hs Ho Hx. apply tokens_finish in E as [E Em]. rewrite Em. cbn [set_module module_ held] in *.
  eapply closes_change; [exact Hx| |]; [rewrite tokens_free by done|rewrite E].
  - rewrite Hs. cbn. reflexivity.
  - rewrite Ho. cbn. perm.
Qed.

Lemma begin_spec m o m' :
  begin_open m = Done (o, m') ->
  Epoch.phase (ingress m) = PHASE_CLOSED /\ opening_id o = (Epoch.epoch (ingress m) + 1)%Z
  /\ ingress m' = Ingress PHASE_OPENING (Epoch.epoch (ingress m) + 1).
Proof.
  unfold begin_open, callback_reset. case_match; [done|]. cbn. unfold begin_opening. cbn.
  case_bool_decide as Hp; [|done]. cbn. case_match; [done|].
  destruct (Identity.checked_next _) as [n|] eqn:E; [|done]. intros [= <- <-].
  apply Identity.checked_next_spec in E as [-> _]. done.
Qed.

Lemma start_op_change o w w' :
  committing w = None -> start_op o w = Done (Some w') ->
  change (begins w w') (gate w) (gate w') (tokens w) (tokens w').
Proof.
  intros Hn E. unfold start_op in E.
  destruct o; try done; destruct (lock w) eqn:Hl; try done.
  - destruct (begin_opening_if_closed _ _) as [[r c] e] eqn:Eb. apply begin_tokens in Eb.
    destruct r; (apply (finish_change w) with (ins := []) in E; [exact E|done..|]);
      cbn; by rewrite Eb, app_nil_r.
  - destruct (begin_open (module_ w)) as [[x m]| |] eqn:Eb; [|done..].
    apply begin_spec in Eb as (Hp & Hx & Hi). pose proof E as Hg.
    apply tokens_give in E as [Ht ->]. cbn in *.
    rewrite Hx in Ht.
    apply ch_begin; try done. split; [by eexists|]. by injection Hg as <-.
  - destruct (record_open_failure _) as [[r c] e] eqn:Ef. apply failure_tokens in Ef.
    apply (finish_change w) with (ins := []) in E; [exact E|done..|]. cbn. by rewrite Ef, app_nil_r.
  - destruct (quarantine_core _) as [c e] eqn:Ef. apply quarantine_tokens in Ef.
    apply (finish_change w) with (ins := []) in E; [exact E|done..|]. cbn. by rewrite Ef, app_nil_r.
Qed.

Lemma open_op_change o w w' :
  committing w = None -> open_op o w = Done (Some w') ->
  change (begins w w') (gate w) (gate w') (tokens w) (tokens w').
Proof.
  intros Hn E. destruct o; cbn [open_op] in E; try done.
  - taken; [|done]. destruct r; try done. rewrite Hc in E.
    destruct (stage_opening_generation _ _ _) as [[r c] e] eqn:Ef. apply stage_tokens_moved in Ef.
    eapply (finish_change w); [done|done|done|done|exact Ht|exact E|]. cbn.
    rewrite <- Ef. destruct r as [|[]]; cbn; by rewrite ?app_nil_r.
  - taken; [|done]. destruct r; try done.
    destruct (take j w1) as [[r w2]|] eqn:Ej; [|done].
    apply tokens_take in Ej as (Ht2 & Hm2 & Hc2 & Hj2 & _). destruct r; try done.
    rewrite Hc2, Hc in E. destruct (publish_opening_generation _ _ _ _ _ _) as [[r c] e] eqn:Ef.
    apply publish_tokens in Ef.
    eapply (finish_change w _ _ _ w2 _ [TServices s; TModule KOpen (lease_id l)]);
      [done|congruence|congruence|congruence|cbn in *; perm|exact E|].
    rewrite <- app_comm_cons. cbn [app]. rewrite <- Ef. apply Permutation_app_head.
    destruct r as [|[? [] ? ?]]; cbn; done.
  - destruct (commit_open _ _) as [[r c] e] eqn:Ef. apply commit_tokens in Ef.
    apply (finish_change0 w) in E; [exact E|done|]. cbn. by rewrite Ef, app_nil_r.
  - destruct (record_open_failure _) as [[r c] e] eqn:Ef. apply failure_tokens in Ef.
    apply (finish_change0 w) in E; [exact E|done|]. cbn. by rewrite Ef, app_nil_r.
  - taken; [|done]. destruct r; try done. rewrite Hc in E.
    destruct (install_returned_authority _ _) as [[r c] e] eqn:Ef. apply install_tokens in Ef.
    eapply (finish_change w); [done|done|done|done|exact Ht|exact E|]. cbn.
    rewrite <- Ef. by destruct r; cbn; rewrite ?app_nil_r.
Qed.


Lemma claim_finish_change w r c m e w' :
  committing w = None -> claim_removal (module_ w) (core w) = Done (r, c, m, e) ->
  finish c e (claim_resources r) (set_module m w) = Done (Some w') ->
  change (begins w w') (gate w) (gate w') (tokens w) (tokens w').
Proof.
  intros Hn Ec E. apply claim_tokens_moved in Ec as [(-> & -> & ->)|(t & t' & Hs & Hr & Hx)].
  - apply (finish_change w) with (ins := []) in E; [exact E|done..|]. cbn. by rewrite app_nil_r.
  - destruct r as [[n closing]|]; [|done]. cbn in Hr. subst t'.
    eapply finish_closes; [done|exact E|exact Hs| |exact Hx]. done.
Qed.

Lemma removal_op_change o w w' :
  committing w = None -> removal_op o w = Done (Some w') ->
  change (begins w w') (gate w) (gate w') (tokens w) (tokens w').
Proof.
  intros Hn E. destruct o; cbn [removal_op] in E; try done.
  - unfold advance_removal_epoch in E. destruct (checked_add _ _ _); [|done]. cbn in E.
    apply (finish_change0 w) in E; [exact E|done|]. cbn. by rewrite app_nil_r.
  - unfold final_close_decision in E. destruct (request_closing _) as [[r c] e] eqn:Ef.
    apply close_tokens_moved in Ef.
    apply (finish_change0 w) in E; [exact E|done|]. cbn. by rewrite app_nil_r, Ef.
  - destruct (state (core w)); try done.
    destruct (claim_removal _ _) as [[[[r x] m] e]| |] eqn:Ec; [|done..].
    by eapply claim_finish_change.
  - unfold rollback_decision in E. destruct (state (core w)) as [[]| | | | |] eqn:Es; cbn in E;
      try (apply (finish_change w) with (ins := []) in E; [exact E|done..|]; cbn;
           by rewrite app_nil_r).
    destruct (claim_removal _ _) as [[[[cl x] m] e]| |] eqn:Ec; [|done..]. cbn in E.
    destruct cl as [[n closing]|]; cbn in E; by eapply claim_finish_change.
  - taken; [|done]. destruct r as [| | | | | | |[n b s]]; try done.
    eapply (finish_change w); [done|done|done|done|exact Ht|exact E|]. cbn. rewrite Hc. perm.
  - taken; [|done]. destruct r as [| | | | | | |[n b [a| |]]]; try done.
    rewrite Hc in E. destruct (return_removal_authority _ _ _) as [[c e]| |] eqn:Ef; [|done..].
    apply return_tokens in Ef.
    eapply (finish_change w); [done|done|done|done|exact Ht|exact E|]. cbn. rewrite Ef. perm.
  - taken; [|done]. destruct r as [| | | | | | |[n b [a|q|]]]; try done; rewrite Hc in E;
      destruct (release_removal_claim _ _ _) as [[c e]| |] eqn:Ef; try done;
      apply release_tokens in Ef; apply tokens_finish in E as [E Em].
    + apply ch_loss with [TModule KDrained (quiescent_id q)]; [by rewrite Em, Hm|].
      rewrite E. rewrite (tokens_free w1), Hc in Ht by congruence. cbn in *. perm.
    + apply ch_same; [by rewrite Em, Hm|].
      rewrite E. rewrite (tokens_free w1), Hc in Ht by congruence. cbn in *. perm.
  - destruct (held w !! i) as [[| | | | | | |[n b [a|q|]]]|]; try done.
    destruct (clear_certified_retirement _ _ _ _) as [[r c] e] eqn:Ef. apply clear_tokens in Ef.
    apply tokens_finish in E as [E Em]. apply ch_loss with (retirement_tokens r); [by rewrite Em|].
    rewrite E. rewrite (tokens_free w) by done. cbn. perm.
  - destruct (held w !! i) as [[| | | | | | |[n b [a|q|]]]|]; try done.
    destruct ((if final then finish_final_removal else finish_open_rollback) _ _ _)
      as [[r c] e] eqn:Ef.
    assert (Hs : state_tokens (state c) = state_tokens (state (core w))).
    { destruct final; by apply finish_tokens in Ef. }
    apply (finish_change0 w) in E; [exact E|done|]. cbn. by rewrite app_nil_r, Hs.
Qed.

Lemma recovery_op_change o w w' :
  committing w = None -> recovery_op o w = Done (Some w') ->
  change (begins w w') (gate w) (gate w') (tokens w) (tokens w').
Proof.
  intros Hn E. destruct o; cbn [recovery_op] in E; try done.
  - apply (finish_change0 w) in E; [exact E|done|]. cbn. by rewrite app_nil_r.
  - unfold clear_completed_removal in E. destruct (state (core w)) as [[]| | | | |] eqn:Es; try done.
    destruct (host_intent (core w)); try done. apply (finish_change0 w) in E; [exact E|done|].
    cbn. by rewrite app_nil_r.
  - unfold take_generation in E. destruct (take_current_bundle _) as [[g c] e] eqn:Ef.
    apply take_bundle_tokens in Ef. destruct g as [g|].
    + simplify_eq. apply ch_same; [done|]. rewrite (tokens_free w) by done. unfold tokens. cbn in *.
      fold (pool (held w)). perm.
    + destruct (take_opening_for_rollback c) as [[o c'] e'] eqn:Eo.
      apply take_opening_rollback_tokens in Eo. apply (finish_change0 w) in E; [exact E|done|].
      cbn in Ef. rewrite app_nil_r in Ef. rewrite <- Ef, <- Eo. by destruct o.
  - destruct (take_opening_for_rollback _) as [[r c] e] eqn:Ef.
    apply take_opening_rollback_tokens in Ef. apply (finish_change0 w) in E; [exact E|done|].
    rewrite <- Ef. by destruct r.
  - destruct (quarantine_core _) as [c e] eqn:Ef. apply quarantine_tokens in Ef.
    apply (finish_change0 w) in E; [exact E|done|]. cbn. by rewrite app_nil_r, Ef.
  - destruct (take_module_cleanup _ _) as [[[[r c] m] e]| |] eqn:Ec; [|done..].
    apply cleanup_tokens_moved in Ec as [(Hs & -> & Hr)|(t & t' & Hs & Hr & Hx)].
    + apply (finish_change w) with (ins := []) in E; [exact E|done..|]. cbn. rewrite Hs.
      destruct r; cbn; try by rewrite app_nil_r. by edestruct Hr.
    + destruct r as [x| | | |]; try done. cbn in Hr. subst t'.
      eapply finish_closes; [done|exact E|exact Hs| |exact Hx]. done.
Qed.

(** ** Every step *)

Lemma scan_frame pw i idle x f j w w' :
  scan pw i idle x f j w = Done (Some w') ->
  module_ w' = module_ w /\ core w' = core w /\ held w' = held w /\ lock w' = lock w
  /\ exists c, committing w' = Some (Job c (pending_root j)).
Proof. unfold scan. destruct (SealableCounter.Counter.mark_waiting _ _). intros [= <-]. cbn. eauto 10. Qed.

(** A commit touches neither the core nor the module; only its last step,
    which hands over the recovered generation, changes the pool. *)
Lemma commit_frame pw w w' :
  commit_step pw w = Done (Some w') ->
  module_ w' = module_ w /\ core w' = core w /\ lock w' = lock w
  /\ exists j, committing w = Some j
     /\ ((held w' = held w /\ (committing w' = None /\ pending_root j = None
                               \/ exists c, committing w' = Some (Job c (pending_root j))))
         \/ committing w' = None /\ (exists i, at_ j = JWait i true)
            /\ held w' = option_list (HRoot <$> pending_root j) ++ held w).
Proof.
  unfold commit_step. destruct (committing w) as [j|]; [|done].
  destruct j as [c g]. destruct c; cbn [at_]; unfold clear_step, publish_step; cbn [at_ pending_root];
    unfold next; intros E;
    repeat (case_match; try done; simplify_eq);
    try (match goal with H : scan _ _ _ _ _ _ _ = _ |- _ => apply scan_frame in H end;
         destruct_and!);
    try (unfold obind in E; repeat case_match; simplify_eq);
    cbn in *; simplify_eq; split_and!; try done; eexists; (split; [done|]); cbn; try (left; by eauto);
    right; eauto.
Qed.

Lemma reader_frame pw k a w w' :
  reader_step pw k a w = Done (Some w') ->
  module_ w' = module_ w /\ core w' = core w /\ lock w' = lock w /\ held w' = held w
  /\ committing w' = committing w /\ published w' = published w.
Proof.
  unfold reader_step, enter_stripe, release_stripe, obind. intros E.
  repeat (case_match; try done; simplify_eq). all: done.
Qed.

Lemma locked_op_change o w w' :
  committing w = None -> locked_op o w = Done (Some w') ->
  change (begins w w') (gate w) (gate w') (tokens w) (tokens w').
Proof.
  intros Hn E. unfold locked_op in E.
  destruct o; try (by apply start_op_change in E); destruct (lock w); try done;
    first [by apply open_op_change in E|by apply recovery_op_change in E
          |by apply removal_op_change in E].
Qed.

Lemma step_tokens_change pw a w w' :
  step pw a w = Done (Some w') -> change (begins w w') (gate w) (gate w') (tokens w) (tokens w').
Proof.
  destruct a as [o| |k a]; cbn [step]; intros E.
  - unfold call_step in E.
    destruct o; try (by apply token_op_change in E);
      try (apply entry_op_module in E as (m & -> & Hi); by apply ch_same; [cbn; rewrite Hi|]);
      destruct (committing w) eqn:Hn; try done; by apply locked_op_change in E.
  - apply commit_frame in E as (Hm & Hc & _ & j & Hj & H). rewrite Hm. apply ch_same; [done|].
    unfold tokens. rewrite Hc, Hj. destruct H as [[Hh [[-> Hp]|[c ->]]]|[-> [_ Hh]]]; cbn;
      rewrite Hh, ?Hp; try done.
    destruct (pending_root j) as [g|]; cbn; fold (pool (held w)); [perm|by rewrite app_nil_r].
  - apply reader_frame in E as (Hm & Hc & _ & Hh & Hj & _). rewrite Hm. apply ch_same; [done|].
    unfold tokens. by rewrite Hc, Hh, Hj.
Qed.


(** ** The epochs of the module *)
Definition module_epoch_of (t : token) : option Z :=
  match t with TModule _ e => Some e | _ => None end.
Abbreviation module_epochs ts := (omap module_epoch_of ts).

Definition kind_ok (i : ExportIngress) (k : kind) (e : Z) : Prop :=
  match k with
  | KOpen => e = Epoch.epoch i /\ (Epoch.phase i = PHASE_OPENING \/ Epoch.phase i = PHASE_OPEN)
  | KClosing => e = Epoch.epoch i /\ Epoch.phase i = PHASE_CLOSING
  | KDrained => (e <= Epoch.epoch i)%Z /\ (e = Epoch.epoch i -> Epoch.phase i = PHASE_CLOSED)
  end.

Record epochs_ok (i : ExportIngress) (ts : list token) : Prop := {
  epochs_nodup : NoDup (module_epochs ts);
  epochs_kind k e : TModule k e ∈ ts -> kind_ok i k e;
}.

Lemma module_epochs_perm ts ts' : ts ≡ₚ ts' -> module_epochs ts ≡ₚ module_epochs ts'.
Proof. by intros ->. Qed.

Lemma epochs_ok_perm i ts ts' : ts' ≡ₚ ts -> epochs_ok i ts -> epochs_ok i ts'.
Proof.
  intros Hp [Hn Hk]. split.
  - by rewrite Hp.
  - intros k e. rewrite Hp. apply Hk.
Qed.

Lemma epochs_ok_loss i l ts : epochs_ok i (l ++ ts) -> epochs_ok i ts.
Proof.
  intros [Hn Hk]. rewrite omap_app, NoDup_app in Hn. split; [tauto|].
  intros k e H. apply Hk, elem_of_app. by right.
Qed.

(** The other authorities of a module whose first one is known. *)
Lemma epochs_ok_tail i k e ts :
  epochs_ok i (TModule k e :: ts) ->
  kind_ok i k e /\ epochs_ok i ts /\ e ∉ module_epochs ts
  /\ forall k' e', TModule k' e' ∈ ts -> e' <> e.
Proof.
  intros [Hn Hk]. cbn in Hn. apply NoDup_cons in Hn as [Hi Hn].
  split_and!; [apply Hk, list_elem_of_here| |done|].
  - split; [done|]. intros k' e' H. by apply Hk, list_elem_of_further.
  - intros k' e' H ->. apply Hi. apply list_elem_of_omap. by exists (TModule k' e).
Qed.

Lemma epochs_ok_cons i k e ts :
  kind_ok i k e -> epochs_ok i ts -> e ∉ module_epochs ts -> epochs_ok i (TModule k e :: ts).
Proof.
  intros Hk [Hn Ht] He. split; [by cbn; apply NoDup_cons|].
  intros k' e' [[= -> ->]|H]%elem_of_cons; [done|by apply Ht].
Qed.

Lemma epochs_ok_move i i' ts :
  epochs_ok i ts -> (forall k e, TModule k e ∈ ts -> kind_ok i k e -> kind_ok i' k e) ->
  epochs_ok i' ts.
Proof. intros [Hn Hk] H. split; [done|]. eauto. Qed.

Lemma change_epochs p i i' ts ts' : change p i i' ts ts' -> epochs_ok i ts -> epochs_ok i' ts'.
Proof.
  intros [-> Hp|l -> Hp|t -> Ht Hp|_ Hc -> Hp|Hc -> Hp|r -> Hp Hp'|e l r Hc -> Hp Hp' Hl] H.
  - by eapply epochs_ok_perm.
  - apply (epochs_ok_loss _ l). by eapply epochs_ok_perm.
  - eapply epochs_ok_perm; [exact Hp|]. destruct H as [Hn Hk]. split.
    + destruct t; cbn; try done. by edestruct Ht.
    + intros k e [<-|H]%elem_of_cons; [by edestruct Ht|by apply Hk].
  - eapply epochs_ok_perm; [exact Hp|].
    assert (Hd : forall k e, TModule k e ∈ ts -> k = KDrained /\ (e <= Epoch.epoch i)%Z).
    { intros k e Hin. apply (epochs_kind _ _ H) in Hin. destruct k; cbn in Hin; [..|tauto];
        destruct Hin as [_ Hin]; rewrite Hc in Hin; try done. by destruct Hin. }
    apply epochs_ok_cons; cbn; [tauto| |].
    + apply (epochs_ok_move i); [done|]. intros k e [-> He]%Hd _. cbn. lia.
    + intros (t & Hin & He)%list_elem_of_omap. destruct t; simplify_eq/=. apply Hd in Hin. lia.
  - eapply epochs_ok_perm; [exact Hp|]. apply (epochs_ok_move i); [done|].
    intros [] e _; cbn; rewrite Hc; intuition congruence.
  - apply (epochs_ok_perm _ _ _ (Permutation_sym Hp)) in H.
    apply epochs_ok_tail in H as ([_ Hph] & Hr & Hi & Hne).
    eapply epochs_ok_perm; [exact Hp'|].
    assert (begin_close_with i = Ingress PHASE_CLOSING (Epoch.epoch i)) as ->.
    { unfold begin_close_with. by destruct Hph as [->| ->]. }
    apply epochs_ok_cons; [done| |done]. apply (epochs_ok_move i); [done|].
    intros [] e Hin; apply Hne in Hin; cbn; intuition congruence.
  - apply (epochs_ok_perm _ _ _ (Permutation_sym Hp)) in H.
    apply epochs_ok_tail in H as ([He Hph] & Hr & Hi & Hne).
    assert (Hm : epochs_ok (Ingress PHASE_CLOSED (Epoch.epoch i)) r).
    { apply (epochs_ok_move i); [done|]. intros [] e' Hin; apply Hne in Hin; cbn;
        intuition congruence. }
    eapply epochs_ok_perm; [exact Hp'|]. destruct Hl as [->| ->]; [|done].
    apply epochs_ok_cons; [|done..]. cbn. subst e. split; [lia|done].
Qed.

Definition module_ok (w : world) : Prop := epochs_ok (gate w) (tokens w).

Lemma module_ok_initial pw n k : module_ok (initial pw n k).
Proof. split; [constructor|]. intros x e H. by apply elem_of_nil in H. Qed.

Lemma module_ok_steps pw w w' : steps pw w w' -> module_ok w -> module_ok w'.
Proof. intros [a E]. eapply change_epochs, step_tokens_change, E. Qed.

End LifecycleInvariant.
