(* ===== verification/LifecycleClaims.v ===== *)
(** * The removal claim and its guard

    The claim recorded in the canonical state ([claim_of]) and the guard a
    caller owns agree in every reachable world ([claims_ok]): at most one
    guard exists, it has the attempt of the claim, and the module authority it
    owns is the one the claim waits for.  So no transition of a guard meets
    the claim of another one, and the aborts of the source's ownership checks
    are not reached. *)

From S2P Require Import Prelude Errors SealableCounter ModuleRuntime Lifecycle LifecycleMachine LifecycleTokens LifecycleInvariant.
Import Errors ModuleRuntime.Epoch Lifecycle LifecycleMachine LifecycleTokens LifecycleInvariant.

Module LifecycleClaims.

(** ** The claim of a state *)
Inductive claim_view : Type :=
| Unclaimed
| ClaimOf (c : RemovalClaimState)
| Final (attempt : Z).

Definition resource_claim (r : CloseResources.t) : claim_view :=
  match r with CloseResources.Claimed c => ClaimOf (claim c) | _ => Unclaimed end.

Definition claim_of (s : LifecycleState) : claim_view :=
  match s with
  | Closed (Finalizing n _) => Final n
  | Lifecycle.Closing (ClosingState.Ready r) | OpenRollbackPending r | Quarantined r =>
      resource_claim r
  | _ => Unclaimed
  end.

Definition view_attempt (v : claim_view) : option Z :=
  match v with Unclaimed => None | ClaimOf c => Some (claim_attempt c) | Final n => Some n end.

Lemma claim_of_attempt s : state_removal_attempt s = view_attempt (claim_of s).
Proof. by destruct s as [[]| | |[|[]]|[]|[]]. Qed.

Abbreviation cview c := (claim_of (state c)).

#[export] Hint Unfold claim_of resource_claim : lifecycle.

(** ** What the transitions do to it *)
Lemma begin_view x c r c' e : begin_opening_if_closed x c = (r, c', e) -> cview c' = cview c.
Proof. unfold begin_opening_if_closed. intros E. cases c E. Qed.

Lemma stage_view n v c r c' e : stage_opening_generation n v c = (r, c', e) -> cview c' = cview c.
Proof. unfold stage_opening_generation. intros E. cases c E. Qed.

Lemma take_opening_view s o s' : take_opening s = (o, s') -> claim_of s' = claim_of s.
Proof. intros E. cases s E. Qed.

Lemma publish_view a b n s l c r c' e :
  publish_opening_generation a b n s l c = (r, c', e) -> cview c' = cview c.
Proof.
  unfold publish_opening_generation. destruct (take_opening (state c)) as [o s'] eqn:Ht.
  apply take_opening_view in Ht. destruct c as [st ? ? ? ? ?]. cbn [state] in *. intros E.
  destruct (state_has_current_generation st); [by simplify_eq/=|].
  destruct st; destruct o; by simplify_eq/=.
Qed.

Lemma commit_view n c r c' e : commit_open n c = (r, c', e) -> cview c' = cview c.
Proof. unfold commit_open. intros E. cases c E. Qed.

Lemma failure_view c r c' e : record_open_failure c = (r, c', e) -> cview c' = cview c.
Proof. unfold record_open_failure. intros E. cases c E. Qed.

Lemma close_view c r c' e : request_closing c = (r, c', e) -> cview c' = cview c.
Proof. unfold request_closing. intros E. cases c E. Qed.

Lemma quarantine_view c c' e : quarantine_core c = (c', e) -> cview c' = cview c.
Proof. unfold quarantine_core. intros E. cases c E. Qed.

Lemma take_opening_rollback_view c o c' e :
  take_opening_for_rollback c = (o, c', e) -> cview c' = cview c.
Proof.
  unfold take_opening_for_rollback. destruct (take_opening (state c)) as [x s] eqn:Ht.
  intros [= <- <- <-]. by apply take_opening_view in Ht.
Qed.

Lemma take_bundle_view c g c' e : take_current_bundle c = (g, c', e) -> cview c' = cview c.
Proof. unfold take_current_bundle. intros E. cases c E. Qed.

Lemma clear_view f m a c r c' e :
  clear_certified_retirement f m a c = (r, c', e) -> cview c' = cview c.
Proof. unfold clear_certified_retirement. intros E. cases c E. Qed.

(** Filling a vacant place leaves the claim, or answers it. *)
Definition answers (a : ModuleAuthority) (v v' : claim_view) : Prop :=
  v' = v
  \/ exists n, v = ClaimOf (Outstanding (OutstandingClaim n (authority_id a)))
               /\ v' = ClaimOf (Returned (ReturnedClaim n a)).

Lemma restore_view d r : claim_of (destination_restore d r) = resource_claim r.
Proof. by destruct d. Qed.

Lemma with_authority_view p a : resource_claim (CloseResources.with_authority p a) = Unclaimed.
Proof. by destruct a. Qed.

Lemma vacant_view a r :
  match vacant_acquire (authority_id a) r with
  | Ok v => answers a (resource_claim r) (resource_claim (vacant_install a v))
  | Err r' => r' = r
  end.
Proof.
  destruct r as [n p|p|x|[p [[n e]|x]]|x]; cbn; try done;
    try (left; by rewrite with_authority_view).
  destruct (Z.eqb_spec e (authority_id a)) as [->|]; [|done]. right. by exists n.
Qed.

Lemma install_view a c r c' e :
  install_returned_authority a c = (r, c', e) -> answers a (cview c) (cview c').
Proof.
  unfold install_returned_authority. destruct (install_target _) as [[x d]|] eqn:Ht.
  - assert (cview c = resource_claim x) as ->.
    { destruct c as [s ? ? ? ? ?]. cbn in *. by destruct s as [[]|? []| |[? ? []|]| |]; simplify_eq/=. }
    pose proof (vacant_view a x) as H.
    destruct (vacant_acquire _ _); intros [= <- <- <-]; cbn; rewrite restore_view; [done|].
    subst. by left.
  - intros [= <- <- <-]. by left.
Qed.

Lemma return_view n a c c' e :
  return_removal_authority n a c = Done (c', e) ->
  cview c = ClaimOf (Outstanding (OutstandingClaim n (authority_id a)))
  /\ cview c' = ClaimOf (Returned (ReturnedClaim n a)).
Proof.
  unfold return_removal_authority, return_to, validate_removal_owner, return_authority.
  intros E. cases c E;
    match goal with c : OutstandingModuleClaim |- _ => destruct c as [m k] end; cbn in *;
    repeat match goal with H : (_ =? _)%Z = true |- _ => apply Z.eqb_eq in H end; by subst.
Qed.

Lemma release_claim_view n b c c' e :
  release_removal_claim n b c = Done (c', e) ->
  view_attempt (cview c) = Some n /\ cview c' = Unclaimed.
Proof.
  unfold release_removal_claim. intros E. cases c E;
    repeat match goal with H : _ = true |- _ => apply Z.eqb_eq in H
           | H : negb _ = false |- _ => apply negb_false_iff, Z.eqb_eq in H end; by subst.
Qed.


Lemma claim_removal_view m c r c' m' e :
  claim_removal m c = Done (r, c', m', e) ->
  match r with
  | Some (n, closing) =>
      cview c = Unclaimed
      /\ cview c' = ClaimOf (Outstanding (OutstandingClaim n (closing_id closing)))
  | None => c' = c
  end.
Proof.
  destruct c as [s ? ? n ? ?]. unfold claim_removal. cbn. intros E.
  destruct s as [| | |[|[| |a| |]]|[| |a| |]|]; simplify_eq/=; try done.
  all: destruct (Identity.checked_next n) as [n'|]; [|done];
    destruct (claim_available n a m) as [[[x y] m1]| |] eqn:Ec; simplify_eq/=;
    apply claim_available_spec in Ec as (-> & _ & Hid); cbn; by rewrite Hid.
Qed.

Lemma finish_claim_spec d m a c n q r c' e :
  finish_claim d m a c (OutstandingClaim n q) = (r, c', e) ->
  c' = c \/ state c' = Closed (Finalizing n false) /\ completion_attempt a = n
            /\ quiescent_id (completion_proof a) = q /\ is_current q m = true.
Proof.
  unfold finish_claim, completion_matches. cbn.
  destruct (returns_match a && _ && _ && _ && _) eqn:Hm; cbn; intros [= <- <- <-]; [right|by left].
  rewrite !andb_true_iff, !Z.eqb_eq in Hm. by destruct Hm as [[[[_ ->] ->] Hi] _].
Qed.

Lemma finish_view b d m a c r c' e :
  finish_closed b d m a c = (r, c', e) ->
  c' = c \/ exists n q, cview c = ClaimOf (Outstanding (OutstandingClaim n q))
                        /\ state c' = Closed (Finalizing n false) /\ completion_attempt a = n
                        /\ quiescent_id (completion_proof a) = q /\ is_current q m = true.
Proof.
  destruct c as [s ? ? ? ? ?]. unfold finish_closed. cbn. intros E.
  destruct s as [| | |[|[| | |[[] [[n q]|]]|]]|[| | |[[] [[n q]|]]|]|]; try destruct b;
    simplify_eq/=; try (by left);
    (apply finish_claim_spec in E as [->|(? & ? & ? & ?)]; [by left|right; by exists n, q]).
Qed.

Lemma take_cleanup_view r m sel r' m' :
  CloseResources.take_cleanup r m = Done (sel, r', m') ->
  resource_claim r' = resource_claim r
  \/ exists n a, resource_claim r = ClaimOf (Returned (ReturnedClaim n a))
                 /\ resource_claim r' = ClaimOf (Outstanding (OutstandingClaim n (authority_id a))).
Proof.
  unfold CloseResources.take_cleanup. intros E.
  destruct r as [| |[p a]|[p [c|[n a]]]|[p [d|k]]]; simplify_eq/=; try (by left).
  - destruct (into_closing a m) as [[x m1]| |] eqn:Ec; simplify_eq/=. by left.
  - destruct a; simplify_eq/=; try (by left); right; eauto.
Qed.

Lemma cleanup_view m c r c' m' e :
  take_module_cleanup m c = Done (r, c', m', e) ->
  cview c' = cview c
  \/ exists n a, cview c = ClaimOf (Returned (ReturnedClaim n a))
                 /\ cview c' = ClaimOf (Outstanding (OutstandingClaim n (authority_id a))).
Proof.
  destruct c as [s ? ? ? ? ?]. unfold take_module_cleanup. cbn.
  set (o := match s with Closed (Finalizing _ true) => _ | _ => _ end).
  destruct o as [[[sel s'] m1]| |] eqn:Eo; [|done..]. cbn. intros [= <- <- <- <-]. cbn.
  subst o. destruct s as [[|n []]| | |[n [] x|x]|x|x]; simplify_eq/=; try (by left);
    destruct (CloseResources.take_cleanup x m) as [[[sel1 r1] m2]| |] eqn:E; simplify_eq/=;
    by apply take_cleanup_view in E.
Qed.


(** ** Guards *)
Definition guard_of (r : resource) : option guard :=
  match r with HGuard g => Some g | _ => None end.
Abbreviation guards h := (omap guard_of h).

(** The epoch of the authority a guard still owns. *)
Definition guard_epoch (g : guard) : option Z :=
  match stage g with
  | Owns a => Some (authority_id a)
  | Certified q => Some (quiescent_id q)
  | Spent => None
  end.

(** A guard and the claim of the state; [e] is the current epoch. *)
Definition guard_ok (e : Z) (v : claim_view) (g : guard) : Prop :=
  match stage g with
  | Owns a =>
      authority_id a = e /\ v = ClaimOf (Outstanding (OutstandingClaim (guard_attempt g) e))
  | Certified q =>
      quiescent_id q = e
      /\ (v = ClaimOf (Outstanding (OutstandingClaim (guard_attempt g) e))
          \/ v = Final (guard_attempt g))
  | Spent => exists c, v = ClaimOf c /\ claim_attempt c = guard_attempt g
  end.

Definition claim_inv (e : Z) (v : claim_view) (gs : list guard) : Prop :=
  match gs with
  | [] => v = Unclaimed
  | [g] => guard_ok e v g
  | _ => False
  end.

Definition claims_ok (w : world) : Prop :=
  claim_inv (Epoch.epoch (gate w)) (cview (core w)) (guards (held w)).

(** What a step may do to the claim and the guards. *)
Inductive claim_change (e : Z) (v v' : claim_view) (gs gs' : list guard) : Prop :=
| cc_same : v' = v -> gs' ≡ₚ gs -> claim_change e v v' gs gs'
| cc_claim n c :
    v = Unclaimed -> v' = ClaimOf (Outstanding (OutstandingClaim n (closing_id c))) ->
    closing_id c = e -> gs' ≡ₚ Guard n false (Owns (AClosing c)) :: gs ->
    claim_change e v v' gs gs'
| cc_stage g g' r :
    v' = v -> gs ≡ₚ g :: r -> gs' ≡ₚ g' :: r ->
    (forall x, guard_ok e x g -> guard_ok e x g') -> claim_change e v v' gs gs'
| cc_return g a b r :
    stage g = Owns a -> gs ≡ₚ g :: r -> gs' ≡ₚ Guard (guard_attempt g) b Spent :: r ->
    v' = ClaimOf (Returned (ReturnedClaim (guard_attempt g) a)) -> claim_change e v v' gs gs'
| cc_release g r : gs ≡ₚ g :: r -> gs' ≡ₚ r -> v' = Unclaimed -> claim_change e v v' gs gs'
| cc_finish g q :
    stage g = Certified q -> g ∈ gs -> gs' ≡ₚ gs -> v' = Final (guard_attempt g) ->
    claim_change e v v' gs gs'
| cc_retake n a :
    v = ClaimOf (Returned (ReturnedClaim n a)) ->
    v' = ClaimOf (Outstanding (OutstandingClaim n (authority_id a))) -> gs' ≡ₚ gs ->
    claim_change e v v' gs gs'
| cc_answer n a :
    v = ClaimOf (Outstanding (OutstandingClaim n (authority_id a))) ->
    v' = ClaimOf (Returned (ReturnedClaim n a)) -> gs' ≡ₚ gs ->
    (forall g, g ∈ gs -> guard_epoch g <> Some (authority_id a)) -> claim_change e v v' gs gs'.

Lemma claim_inv_perm e v gs gs' : gs' ≡ₚ gs -> claim_inv e v gs -> claim_inv e v gs'.
Proof.
  intros Hp. destruct gs as [|g [|g' gs]]; cbn; [..|done].
  - by apply Permutation_nil_r in Hp as ->.
  - by apply Permutation_singleton_r in Hp as ->.
Qed.

Lemma claim_inv_cons e v g gs : claim_inv e v (g :: gs) -> gs = [] /\ guard_ok e v g.
Proof. by destruct gs. Qed.

Lemma claim_change_inv e v v' gs gs' :
  claim_change e v v' gs gs' -> claim_inv e v gs -> claim_inv e v' gs'.
Proof.
  intros [-> Hp|n c -> -> He Hp|g g' r -> Hg Hp Hk|g a b r Hs Hg Hp ->|g r Hg Hp ->|g q Hs Hin Hp ->
         |n a -> -> Hp|n a -> -> Hp Ha] H; apply (claim_inv_perm _ _ _ _ Hp);
    try (apply (claim_inv_perm _ _ _ _ (Permutation_sym Hg)), claim_inv_cons in H as [-> H]); cbn.
  - done.
  - destruct gs as [|g [|]]; cbn in *; [by rewrite He|..|done].
    unfold guard_ok in H. destruct (stage g); destruct_and?; destruct_or?; try done. by destruct H as (? & ? & _).
  - by apply Hk.
  - unfold guard_ok. cbn. eauto.
  - done.
  - destruct gs as [|x [|]]; cbn in *; [by apply elem_of_nil in Hin| |done].
    apply list_elem_of_singleton in Hin as ->. unfold guard_ok in *. rewrite Hs in *. tauto.
  - destruct gs as [|x [|]]; cbn in *; [done| |done]. unfold guard_ok in *.
    destruct (stage x); [destruct_and?; destruct_or?; simplify_eq..|].
    destruct H as (c & [= <-] & Hc). eauto.
  - destruct gs as [|x [|]]; cbn in *; [done| |done]. specialize (Ha x (list_elem_of_here _ _)).
    unfold guard_ok, guard_epoch in *.
    destruct (stage x); [destruct_and?; destruct_or?; simplify_eq; congruence..|].
    destruct H as (c & [= <-] & Hc). eauto.
Qed.


(** ** What each call does to them *)
Lemma guards_take i w r w1 :
  take i w = Some (r, w1) -> guards (held w) ≡ₚ option_list (guard_of r) ++ guards (held w1).
Proof.
  unfold take. destruct (held w !! i) as [x|] eqn:Hi; [|done]. intros [= <- <-].
  cbn [set_held held]. rewrite (delete_Permutation _ _ _ Hi) at 1. cbn.
  by destruct (guard_of x).
Qed.

Lemma guards_finish c e out w w' :
  finish c e out w = Done (Some w') ->
  core w' = c /\ guards (held w') = guards out ++ guards (held w) /\ gate w' = gate w.
Proof. intros [= <-]. cbn. by rewrite omap_app. Qed.

Lemma guards_give out w w' :
  give out w = Done (Some w') ->
  core w' = core w /\ guards (held w') = guards out ++ guards (held w) /\ gate w' = gate w.
Proof. intros [= <-]. cbn. by rewrite omap_app. Qed.

Lemma take_core i w r w1 : take i w = Some (r, w1) -> core w1 = core w /\ module_ w1 = module_ w.
Proof. unfold take. destruct (held w !! i); [|done]. by intros [= <- <-]. Qed.

Ltac take_guard :=
  match goal with
  | E : context [take ?i ?w] |- _ =>
      let r := fresh "r" in let w1 := fresh "w1" in let H := fresh "Htake" in
      destruct (take i w) as [[r w1]|] eqn:H;
      [pose proof (guards_take _ _ _ _ H) as ?Hg; apply take_core in H as [?Hc ?Hm]|]; cbn in E
  end.

(** A call that returns values and no guard, and leaves the claim. *)
Lemma give_same e out w w1 w' :
  give out w1 = Done (Some w') -> core w1 = core w -> guards (held w) ≡ₚ guards (held w1) ->
  guards out = [] -> claim_change e (cview (core w)) (cview (core w')) (guards (held w)) (guards (held w')).
Proof.
  intros (Hc & Hg & _)%guards_give Hc1 Hg1 Ho. apply cc_same; [by rewrite Hc, Hc1|].
  by rewrite Hg, Ho, Hg1.
Qed.

Lemma finish_same e c x out w w1 w' :
  finish c x out w1 = Done (Some w') -> cview c = cview (core w) ->
  guards (held w) ≡ₚ guards (held w1) -> guards out = [] ->
  claim_change e (cview (core w)) (cview (core w')) (guards (held w)) (guards (held w')).
Proof.
  intros (Hc & Hg & _)%guards_finish Hc1 Hg1 Ho. apply cc_same; [by rewrite Hc, Hc1|].
  by rewrite Hg, Ho, Hg1.
Qed.

(** A call that moves one guard on. *)
Lemma give_stage e g g' w w1 w' :
  give [HGuard g'] w1 = Done (Some w') -> core w1 = core w ->
  guards (held w) ≡ₚ g :: guards (held w1) ->
  (forall x, guard_ok e x g -> guard_ok e x g') ->
  claim_change e (cview (core w)) (cview (core w')) (guards (held w)) (guards (held w')).
Proof.
  intros (Hc & Hg & _)%guards_give Hc1 Hg1 Hk. eapply cc_stage; [by rewrite Hc, Hc1|done| |exact Hk].
  by rewrite Hg.
Qed.

Lemma token_op_claims e o w w' :
  token_op o w = Done (Some w') ->
  claim_change e (cview (core w)) (cview (core w')) (guards (held w)) (guards (held w')).
Proof.
  intros E. destruct o; cbn [token_op] in E; try done; try take_guard; try done.
  - by eapply give_same.
  - by eapply give_same.
  - destruct r; simplify_eq; by apply cc_same; rewrite ?Hc, ?Hg.
  - destruct (publish_open _); [|done]. simplify_eq. by apply cc_same.
  - destruct r; try done. by eapply give_same.
  - destruct r as [| | |t| | | |]; try done.
    destruct (rollback t (module_ w1)) as [[c m1]| |] eqn:Er; [|done..]. by eapply give_same.
  - destruct r as [| | | |l| | |]; try done.
    destruct (begin_close l (module_ w1)) as [[c m1]| |] eqn:Er; [|done..]. by eapply give_same.
  - destruct r as [| | | | | | |[n b [[c|d|k]| |]]]; try done.
    destruct (waits_for_exports _ _); [done|].
    destruct (seal_and_drain fault c (module_ w1)) as [[x m1]| |] eqn:Er; [|done..].
    apply drain_spec in Er. eapply give_stage; [exact E|done|exact Hg|]. intros v.
    destruct Er as [(y & -> & _)|(_ & _ & d & -> & Hd)]; [done|]. unfold guard_ok. cbn. by rewrite Hd.
  - destruct r as [| | | | | | |[n b [[c|d|k]| |]]]; try done. unfold certify in E.
    destruct (is_current _ _); [|done]. eapply give_stage; [exact E|done|exact Hg|]. intros v.
    unfold guard_ok. cbn. tauto.
  - destruct r as [| | | | | | |[n b x]]; try done.
    eapply give_stage; [exact E|done|exact Hg|]. done.
  - destruct r as [| | | | | |x|]; try done.
    destruct (cleanup_waits _ _ _); [done|].
    destruct (cleanup_finish fault x (module_ w1)) as [[y m1]| |] eqn:Er; [|done..].
    eapply give_same; [exact E|done|done|]. by destruct y as [|[]].
Qed.

Lemma start_op_claims e o w w' :
  start_op o w = Done (Some w') ->
  claim_change e (cview (core w)) (cview (core w')) (guards (held w)) (guards (held w')).
Proof.
  intros E. unfold start_op in E. destruct o; try done; destruct (lock w); try done.
  - destruct (begin_opening_if_closed _ _) as [[r c] x] eqn:Eb. apply begin_view in Eb.
    destruct r; by eapply finish_same.
  - destruct (begin_open (module_ w)) as [[x m]| |] eqn:Eb; [|done..]. by eapply give_same.
  - destruct (record_open_failure _) as [[r c] x] eqn:Ef. apply failure_view in Ef.
    by eapply finish_same.
  - destruct (quarantine_core _) as [c x] eqn:Ef. apply quarantine_view in Ef.
    by eapply finish_same.
Qed.


(** The authority of a guard is one of the tokens. *)
Lemma guard_token g q h : g ∈ guards h -> guard_epoch g = Some q -> exists k, TModule k q ∈ pool h.
Proof.
  intros (r & Hr & Hg)%list_elem_of_omap Hq. destruct r as [| | | | | | |g0]; simplify_eq/=.
  assert (exists k, TModule k q ∈ stage_tokens (stage g)) as [k Hk].
  { unfold guard_epoch in Hq. destruct (stage g) as [[]| |]; simplify_eq/=; eexists; left. }
  exists k. unfold pool. apply list_elem_of_bind. by exists (HGuard g).
Qed.

Lemma pool_in_tokens t w : t ∈ pool (held w) -> t ∈ tokens w.
Proof. unfold tokens. rewrite !elem_of_app. tauto. Qed.

(** A token taken out of the pool is nobody's guard. *)
Lemma taken_not_guarded w i k q r w1 g :
  module_ok w -> take i w = Some (r, w1) -> held_tokens r = [TModule k q] ->
  g ∈ guards (held w1) -> guard_epoch g <> Some q.
Proof.
  intros Hok Ht Hr Hg Hq. apply tokens_take in Ht as (Hp & _). rewrite Hr in Hp.
  eapply epochs_ok_perm in Hok; [|symmetry; exact Hp]. cbn in Hok.
  apply epochs_ok_tail in Hok as (_ & _ & _ & Hne).
  destruct (guard_token _ _ _ Hg Hq) as [k' Hk']. by apply (Hne k' q); [apply pool_in_tokens|].
Qed.

Lemma authority_token_id a : exists k, authority_token a = TModule k (authority_id a).
Proof. destruct a; eexists; done. Qed.

Lemma open_op_claims e o w w' :
  module_ok w -> open_op o w = Done (Some w') ->
  claim_change e (cview (core w)) (cview (core w')) (guards (held w)) (guards (held w')).
Proof.
  intros Hok E. destruct o; cbn [open_op] in E; try done.
  - take_guard; [|done]. destruct r; try done. rewrite Hc in E.
    destruct (stage_opening_generation _ _ _) as [[r c] x] eqn:Ef. apply stage_view in Ef.
    eapply finish_same; [exact E|done|exact Hg|]. by destruct r as [|[]].
  - take_guard; [|done]. destruct r; try done.
    destruct (take j w1) as [[r w2]|] eqn:Ej; [|done].
    pose proof (guards_take _ _ _ _ Ej) as Hg2. apply take_core in Ej as [Hc2 _].
    destruct r; try done. rewrite Hc2, Hc in E.
    destruct (publish_opening_generation _ _ _ _ _ _) as [[r c] x] eqn:Ef.
    apply publish_view in Ef. eapply finish_same; [exact E|done|by rewrite Hg, Hg2|].
    by destruct r as [|[? [] ? ?]].
  - destruct (commit_open _ _) as [[r c] x] eqn:Ef. apply commit_view in Ef. by eapply finish_same.
  - destruct (record_open_failure _) as [[r c] x] eqn:Ef. apply failure_view in Ef.
    by eapply finish_same.
  - destruct (take i w) as [[r w1]|] eqn:Ht; [|done].
    pose proof (guards_take _ _ _ _ Ht) as Hg. pose proof (take_core _ _ _ _ Ht) as [Hc _].
    cbn in E. destruct r as [| | | | |a| |]; try done. rewrite Hc in E.
    destruct (install_returned_authority _ _) as [[r c] x] eqn:Ef.
    apply install_view in Ef as [Hv|(n & Hv & Hv')].
    + eapply finish_same; [exact E|done|exact Hg|]. by destruct r.
    + apply guards_finish in E as (-> & Hg' & _).
      assert (Hgs : guards (held w') ≡ₚ guards (held w)) by (rewrite Hg', Hg; by destruct r).
      eapply cc_answer; [exact Hv|exact Hv'|exact Hgs|]. intros g Hin.
      destruct (authority_token_id a) as [k Hk]. eapply taken_not_guarded; [exact Hok|exact Ht| |].
      * cbn. by rewrite Hk.
      * by rewrite Hg in Hin.
Qed.

Lemma claim_finish_claims w r c m x w' :
  module_ok w' -> claim_removal (module_ w) (core w) = Done (r, c, m, x) ->
  finish c x (claim_resources r) (set_module m w) = Done (Some w') ->
  claim_change (Epoch.epoch (gate w')) (cview (core w)) (cview (core w'))
    (guards (held w)) (guards (held w')).
Proof.
  intros Hok Ec E. apply claim_removal_view in Ec. pose proof E as Hh.
  apply guards_finish in E as (-> & Hg & Hi). destruct r as [[n closing]|].
  - destruct Ec as [Hv Hv']. cbn [claim_resources omap list_omap guard_of app] in Hg.
    eapply cc_claim; [exact Hv|exact Hv'| |by rewrite Hg].
    assert (Ht : TModule KClosing (closing_id closing) ∈ tokens w').
    { injection Hh as <-. unfold tokens. rewrite !elem_of_app. right. left. left. }
    by apply (epochs_kind _ _ Hok) in Ht as [Ht _].
  - subst. by apply cc_same; rewrite ?Hg.
Qed.


Lemma guard_at i w g : held w !! i = Some (HGuard g) -> g ∈ guards (held w).
Proof. intros H. apply list_elem_of_omap. exists (HGuard g). split; [by eapply list_elem_of_lookup_2|done]. Qed.

Lemma removal_op_claims o w w' :
  module_ok w' -> removal_op o w = Done (Some w') ->
  claim_change (Epoch.epoch (gate w')) (cview (core w)) (cview (core w'))
    (guards (held w)) (guards (held w')).
Proof.
  intros Hok E. destruct o; cbn [removal_op] in E; try done.
  - unfold advance_removal_epoch in E. destruct (checked_add _ _ _); [|done]. by eapply finish_same.
  - unfold final_close_decision in E. destruct (request_closing _) as [[r c] x] eqn:Ef.
    apply close_view in Ef. by eapply finish_same.
  - destruct (state (core w)) eqn:Es; try done. rewrite <- Es.
    destruct (claim_removal _ _) as [[[[cl c'] m] x]| |] eqn:Ec; [|done..].
    by eapply claim_finish_claims.
  - unfold rollback_decision in E. destruct (state (core w)) as [[]| | | | |] eqn:Es; rewrite <- Es;
      cbn in E; try by eapply finish_same.
    destruct (claim_removal _ _) as [[[[cl c'] m] x]| |] eqn:Ec; [|done..]. cbn in E.
    destruct cl as [[n closing]|]; cbn in E; by eapply claim_finish_claims.
  - take_guard; [|done]. destruct r as [| | | | | | |[n b s]]; try done.
    apply guards_finish in E as (Hc' & Hg' & _). eapply cc_stage; [by rewrite Hc', Hc|exact Hg|rewrite Hg'; cbn; reflexivity|].
    done.
  - take_guard; [|done]. destruct r as [| | | | | | |[n b [a| |]]]; try done.
    rewrite Hc in E. destruct (return_removal_authority _ _ _) as [[c x]| |] eqn:Ef; [|done..].
    apply return_view in Ef as [_ Hv]. apply guards_finish in E as (Hc' & Hg' & _).
    rewrite Hc'. eapply (cc_return _ _ _ _ _ (Guard n b (Owns a)) a b); [done|exact Hg|by rewrite Hg'|done].
  - take_guard; [|done]. destruct r as [| | | | | | |[n b [a|q|]]]; try done; rewrite Hc in E;
      destruct (release_removal_claim _ _ _) as [[c x]| |] eqn:Ef; try done;
      apply release_claim_view in Ef as [_ Hv]; apply guards_finish in E as (Hc' & Hg' & _);
      rewrite Hc'; (eapply cc_release; [exact Hg|by rewrite Hg'|done]).
  - destruct (held w !! i) as [[| | | | | | |[n b [a|q|]]]|]; try done.
    destruct (clear_certified_retirement _ _ _ _) as [[r c] x] eqn:Ef. apply clear_view in Ef.
    by eapply finish_same.
  - destruct (held w !! i) as [[| | | | | | |[n b [a|q|]]]|] eqn:Hi; try done.
    apply guard_at in Hi.
    destruct ((if final then finish_final_removal else finish_open_rollback) _ _ _)
      as [[r c] x] eqn:Ef.
    apply guards_finish in E as (Hc' & Hg' & _).
    assert (Hf : c = core w \/ exists k q', cview (core w) = ClaimOf (Outstanding (OutstandingClaim k q'))
      /\ state c = Closed (Finalizing k false) /\ n = k).
    { destruct final; apply finish_view in Ef as [?|(k & q' & ? & ? & ? & _)]; eauto 10. }
    destruct Hf as [->|(k & q' & Hv & Hs & Hk)]; [by apply cc_same; rewrite ?Hc', ?Hg'|].
    eapply cc_finish; [|exact Hi|by rewrite Hg'|]; [done|]. rewrite Hc', Hs. cbn. congruence.
Qed.

Lemma recovery_op_claims e o w w' :
  recovery_op o w = Done (Some w') ->
  claim_change e (cview (core w)) (cview (core w')) (guards (held w)) (guards (held w')).
Proof.
  intros E. destruct o; cbn [recovery_op] in E; try done.
  - cbn in E. by eapply finish_same.
  - unfold clear_completed_removal in E. destruct (state (core w)) as [[]| | | | |] eqn:Es; try done.
    destruct (host_intent (core w)); try done. rewrite <- Es. cbn in E. by eapply finish_same.
  - unfold take_generation in E. destruct (take_current_bundle _) as [[g c] x] eqn:Ef.
    apply take_bundle_view in Ef. destruct g as [g|]; [by simplify_eq; apply cc_same|].
    destruct (take_opening_for_rollback c) as [[v c'] x'] eqn:Eo.
    apply take_opening_rollback_view in Eo. eapply finish_same; [exact E|congruence|done|].
    by destruct v.
  - destruct (take_opening_for_rollback _) as [[v c] x] eqn:Ef.
    apply take_opening_rollback_view in Ef. eapply finish_same; [exact E|done|done|]. by destruct v.
  - destruct (quarantine_core _) as [c x] eqn:Ef. apply quarantine_view in Ef. by eapply finish_same.
  - destruct (take_module_cleanup _ _) as [[[[r c] m] x]| |] eqn:Ec; [|done..].
    apply cleanup_view in Ec as [Hv|(n & a & Hv & Hv')].
    + eapply finish_same; [exact E|done|done|]. by destruct r.
    + apply guards_finish in E as (Hc' & Hg' & _). eapply cc_retake; [exact Hv|by rewrite Hc'|].
      rewrite Hg'. by destruct r.
Qed.

End LifecycleClaims.
