(* ===== verification/LifecycleSafety.v ===== *)
(** * The lifecycle's invariant without its readers

    [lifecycle_ok] joins the epochs of the module, the removal claim and the
    core lock's sessions; every step keeps it. *)

From S2P Require Import Prelude Errors SealableCounter ModuleRuntime Lifecycle LifecycleMachine LifecycleTokens LifecycleShape LifecycleInvariant LifecycleClaims.
Import Errors ModuleRuntime.Epoch Lifecycle LifecycleMachine LifecycleTokens LifecycleShape LifecycleInvariant LifecycleClaims.

Module LifecycleSafety.

(** ** Sessions and the closed phase *)

(** An idle state is only reached from the closed phase. *)
Lemma take_opening_idle s o s' : take_opening s = (o, s') -> s' = Closed ClosedIdle -> s = s'.
Proof. intros E. cases s E. Qed.

Lemma restore_not_idle d r : destination_restore d r <> Closed ClosedIdle.
Proof. by destruct d. Qed.

Lemma transition_idle c c' e :
  transition c c' e -> state c' = Closed ClosedIdle -> exists x, state c = Closed x.
Proof.
  intros [-> ->|i [= -> ->]|E|x r E|n v r E|a b n s l r E|n r E|r E|a r E|r E|m r m' E|n a E|n b E
         |f m a r E|b d m a r E|o E|E|m r m' E] Hs.
  - eauto.
  - eauto.
  - unfold advance_removal_epoch in E. destruct (checked_add _ _ _); [|done]. simplify_eq/=. eauto.
  - unfold begin_opening_if_closed in E. cases c E; eauto.
  - unfold stage_opening_generation in E. cases c E; eauto.
  - unfold publish_opening_generation in E. cases c E; eauto.
  - unfold commit_open in E. cases c E; eauto.
  - unfold record_open_failure in E. cases c E; eauto.
  - unfold install_returned_authority in E. destruct (install_target _) as [[x d]|]; [|simplify_eq; eauto].
    destruct (vacant_acquire _ _); simplify_eq/=; by apply restore_not_idle in Hs.
  - unfold request_closing in E. cases c E; eauto.
  - destruct c as [s ? ? ? ? ?]. unfold claim_removal in E. cases s E; eauto.
  - unfold return_removal_authority in E. destruct c as [s ? ? ? ? ?].
    destruct s as [| | |[]| |]; try done; cbn in *; destruct (return_to _ _ _); simplify_eq/=.
  - unfold release_removal_claim in E. destruct c as [s ? ? ? ? ?].
    destruct s as [| | |[]| |]; try done; cbn in *; eauto;
      destruct (CloseResources.release _ _); simplify_eq/=; by repeat case_match.
  - unfold clear_certified_retirement in E. cases c E; eauto.
  - unfold finish_closed, finish_claim in E. cases c E; eauto.
  - unfold take_opening_for_rollback in E. destruct (take_opening _) as [x s] eqn:Ht. simplify_eq/=.
    apply take_opening_idle in Ht; [|done]. rewrite Ht. eauto.
  - unfold quarantine_core in E. cases c E; eauto.
  - destruct c as [s ? ? ? ? ?]. unfold take_module_cleanup in E.
    cbn in *. destruct s as [[|k []]| | |[k [] x|x]|x|x]; simplify_eq/=; eauto;
      destruct (CloseResources.take_cleanup x m) as [[[sel1 r1] m2]| |]; simplify_eq/=.
Qed.

Lemma bundle_not_idle c g c' e :
  take_current_bundle c = (Some g, c', e) -> forall x, state c' <> Closed x.
Proof. unfold take_current_bundle. intros E x Hs. cases c E. Qed.

Definition session_ok (w : world) : Prop :=
  forall n, lock w = Starting n -> state (core w) = Lifecycle.Opening n OpeningPayload.Empty.

Definition closed_ok (w : world) : Prop :=
  state (core w) = Closed ClosedIdle \/ starting w -> Epoch.phase (gate w) = PHASE_CLOSED.

(** The phase of a closed ingress changes in [begin_open] only. *)
Lemma change_closed p i i' ts ts' :
  change p i i' ts ts' -> epochs_ok i ts -> Epoch.phase i = PHASE_CLOSED -> ~ p ->
  Epoch.phase i' = PHASE_CLOSED.
Proof.
  intros [-> _|l -> _|t -> _ _|Hb _ _ _|Hc _ _|r -> Hp _|e l r _ -> _ _ _] Hok Hc' Hn; try done.
  - congruence.
  - assert (H : TModule KOpen (Epoch.epoch i) ∈ ts) by (rewrite Hp; left).
    apply (epochs_kind _ _ Hok) in H as [_ [H|H]]; congruence.
Qed.

Lemma change_epoch p i i' ts ts' :
  change p i i' ts ts' -> ~ p -> Epoch.epoch i' = Epoch.epoch i.
Proof.
  intros [-> _|l -> _|t -> _ _|Hb _ _ _|_ -> _|r -> _ _|e l r _ -> _ _ _] Hn; try done.
  unfold begin_close_with. by destruct (Epoch.phase i).
Qed.

(** What a step does to the core and the session. *)
Lemma step_core pw a w w' :
  step pw a w = Done (Some w') ->
  (core w' = core w /\ (lock w' = lock w \/ lock w' = Free))
  \/ committing w = None
     /\ ((exists e, transition (core w) (core w') e) /\ lock_after w w'
         \/ (exists g e, take_current_bundle (core w) = (Some g, core w', e)) /\ lock w' = Free).
Proof.
  destruct a as [o| |k a]; cbn [step]; intros E.
  - apply call_core in E as [[Hc _ Hl|e Hn Ht _ Hl|g e Hn Ht _ Hl _] _]; eauto 10.
  - apply commit_frame in E as (_ & Hc & Hl & _). auto.
  - apply reader_frame in E as (_ & Hc & Hl & _). auto.
Qed.

Lemma session_steps pw w w' : steps pw w w' -> session_ok w -> session_ok w'.
Proof.
  intros [a E] Hs n Hl. apply step_core in E as [[Hc Hl']|(_ & [[_ Hl']|[_ Hl']])].
  - rewrite Hc. apply Hs. destruct Hl'; congruence.
  - destruct Hl' as [?|[?|(k & ? & ? & _)]]; congruence.
  - congruence.
Qed.

(** A claim under finalization is held by a guard with a certificate of the
    current epoch, whose ingress is closed. *)
Lemma finalizing_closed w n b :
  module_ok w -> claims_ok w -> state (core w) = Closed (Finalizing n b) ->
  Epoch.phase (gate w) = PHASE_CLOSED.
Proof.
  unfold claims_ok. intros Hm Hc Hs. rewrite Hs in Hc. cbn in Hc.
  destruct (guards (held w)) as [|g [|]] eqn:Hg; try done. cbn in Hc. unfold guard_ok in Hc.
  assert (Hin : g ∈ guards (held w)) by (rewrite Hg; left).
  assert (exists q, stage g = Certified q /\ quiescent_id q = Epoch.epoch (gate w)) as (q & Hq & He).
  { destruct (stage g) as [|q|]; [by destruct Hc|exists q; tauto|by destruct Hc as (? & ? & _)]. }
  destruct (guard_token g (quiescent_id q) (held w) Hin) as [k Hk].
  { unfold guard_epoch. by rewrite Hq. }
  apply list_elem_of_omap in Hin as (r & Hr & Hg'). destruct r; simplify_eq/=.
  assert (Ht : TModule KDrained (quiescent_id q) ∈ tokens w).
  { apply pool_in_tokens, list_elem_of_bind. exists (HGuard g). split; [|done]. cbn. rewrite Hq. left. }
  apply (epochs_kind _ _ Hm) in Ht as [_ Ht]. by apply Ht.
Qed.

Lemma closed_steps pw w w' :
  steps pw w w' -> module_ok w -> claims_ok w -> session_ok w -> closed_ok w -> closed_ok w'.
Proof.
  intros [a E] Hm Hcl Hs Hc Hw'. pose proof (step_tokens_change _ _ _ _ E) as Hch.
  assert (Hx : forall x, state (core w) = Closed x -> Epoch.phase (gate w) = PHASE_CLOSED).
  { intros [|n b] Hx; [apply Hc; by left|by eapply finalizing_closed]. }
  assert (Hn : ~ begins w w').
  { intros [[n Hl] Hl']. apply Hs in Hl as Hst.
    destruct Hw' as [Hw'|[k Hk]]; [|congruence].
    apply step_core in E as [[Hc' _]|(_ & [[[e Ht] _]|[(g & e & Ht) _]])].
    - congruence.
    - apply transition_idle in Ht as [x ?]; congruence.
    - by apply (bundle_not_idle _ _ _ _ Ht ClosedIdle). }
  apply (change_closed _ _ _ _ _ Hch Hm); [|done].
  apply step_core in E as [[Hc' Hl]|(_ & [[[e Ht] Hl]|[(g & e & Ht) Hl]])].
  - apply Hc. rewrite <- Hc'. destruct Hw' as [|[k Hk]]; [by left|]. right. exists k.
    destruct Hl; congruence.
  - destruct Hw' as [Hw'|[k Hk]].
    + apply transition_idle in Ht as [x Hst]; [by apply Hx in Hst|done].
    + destruct Hl as [?|[?|(j & _ & _ & Hst)]]; [congruence..|]. by apply Hx in Hst.
  - destruct Hw' as [Hw'|[k Hk]]; [by apply (bundle_not_idle _ _ _ _ Ht ClosedIdle) in Hw'|congruence].
Qed.

(** The claims of a step, in terms of the epoch before it. *)
Lemma call_claims o w w' :
  module_ok w -> module_ok w' -> call_step o w = Done (Some w') ->
  claim_change (Epoch.epoch (gate w')) (cview (core w)) (cview (core w'))
    (guards (held w)) (guards (held w')).
Proof.
  intros Hm Hm' E. unfold call_step in E.
  destruct o; try (by apply (token_op_claims (Epoch.epoch (gate w'))) in E);
    try (apply entry_op_module in E as (m & -> & _); by apply cc_same);
    (destruct (committing w) eqn:Hn; [done|]); unfold locked_op in E;
    try (by apply (start_op_claims (Epoch.epoch (gate w'))) in E);
    (destruct (lock w) eqn:Hl; [|done..]);
    first [by apply (open_op_claims (Epoch.epoch (gate w'))) in E|by apply removal_op_claims in E
          |by apply (recovery_op_claims (Epoch.epoch (gate w'))) in E].
Qed.

Lemma claims_steps pw w w' :
  steps pw w w' -> module_ok w -> module_ok w' -> session_ok w -> claims_ok w -> claims_ok w'.
Proof.
  intros [a E] Hm Hm' Hs Hc. pose proof (step_tokens_change _ _ _ _ E) as Hch. unfold claims_ok in *.
  assert (Hx : claim_inv (Epoch.epoch (gate w')) (cview (core w)) (guards (held w))).
  { destruct (decide (Epoch.epoch (gate w') = Epoch.epoch (gate w))) as [->|Hne]; [done|].
    destruct (lock w) as [|n|] eqn:Hl;
      [exfalso; apply Hne, (change_epoch _ _ _ _ _ Hch); intros [[? ?] _]; congruence| |
       exfalso; apply Hne, (change_epoch _ _ _ _ _ Hch); intros [[? ?] _]; congruence].
    apply Hs in Hl. rewrite Hl in *. cbn in *. destruct (guards (held w)) as [|g [|]]; try done.
    exfalso. cbn in Hc. unfold guard_ok in Hc. destruct (stage g); destruct_and?; destruct_or?; try done.
    by destruct Hc as (? & ? & _). }
  destruct a as [o| |k a]; cbn [step] in E.
  - eapply claim_change_inv; [exact (call_claims o w w' Hm Hm' E)|exact Hx].
  - apply commit_frame in E as (Hm1 & Hc1 & _ & j & _ & Hh). rewrite Hc1.
    assert (guards (held w') ≡ₚ guards (held w)) as Hg.
    { destruct Hh as [[-> _]|(_ & _ & ->)]; [done|]. rewrite omap_app. by destruct (pending_root j). }
    by eapply claim_inv_perm; [exact Hg|].
  - apply reader_frame in E as (Hm1 & Hc1 & _ & Hh & _). by rewrite Hc1, Hh.
Qed.

(** ** The invariant *)
Record lifecycle_ok (w : world) : Prop := {
  ok_module : module_ok w;
  ok_claims : claims_ok w;
  ok_session : session_ok w;
  ok_closed : closed_ok w;
}.

Lemma lifecycle_ok_initial pw n k : lifecycle_ok (initial pw n k).
Proof. split; [apply module_ok_initial|done|done|done]. Qed.

Lemma lifecycle_ok_steps pw w w' : steps pw w w' -> lifecycle_ok w -> lifecycle_ok w'.
Proof.
  intros E [Hm Hc Hs Hx]. assert (module_ok w') by (by eapply module_ok_steps).
  split; [done|by eapply claims_steps|by eapply session_steps|by eapply closed_steps].
Qed.

Lemma lifecycle_ok_rtc pw w w' : rtc (steps pw) w w' -> lifecycle_ok w -> lifecycle_ok w'.
Proof. induction 1; eauto using lifecycle_ok_steps. Qed.

Lemma reachable_ok pw n k w : reachable pw n k w -> lifecycle_ok w.
Proof. intros H. eapply lifecycle_ok_rtc; [exact H|apply lifecycle_ok_initial]. Qed.

End LifecycleSafety.
