(* ===== verification/LifecycleReaders.v ===== *)
(** * Readers of the published generation

    The invariant of the read side, [readers_ok]: the stripes count the
    permits; the published pointer, the seals and the phase word follow the
    canonical state, exactly while no commit runs and in the order of
    [commit_transition] while one does; and a reader that holds a permit
    holds a generation the state, or the commit that recovers it, still owns. *)

From S2P Require Import Prelude Errors SealableCounter RotatingGates ModuleRuntime Lifecycle LifecycleMachine LifecycleTokens LifecycleShape LifecycleInvariant.
Import Errors SealableCounter.Counter RotatingGates ModuleRuntime.Epoch Lifecycle LifecycleMachine LifecycleTokens LifecycleShape LifecycleInvariant.

Module LifecycleReaders.

Section Readers.
Context (pw : pointer_width).

(** ** Stripes *)
Definition wf_stripes (w : world) : Prop := forall i c, stripes w !! i = Some c -> wf pw c.

(** Out-of-range stripes count as sealed and empty. *)
Definition sealed_at (w : world) (i : nat) : bool :=
  match stripes w !! i with Some c => is_sealed pw c | None => true end.
Definition count_at (w : world) (i : nat) : Z :=
  match stripes w !! i with Some c => cnt pw c | None => 0 end.

(** [w'] differs from [w] in at most the stripe [i]. *)
Record stripe_set (w w' : world) (i : nat) (s : bool) (n : Z) : Prop := {
  set_wf : wf_stripes w';
  set_length : length (stripes w') = length (stripes w);
  set_sealed j : sealed_at w' j = if decide (j = i) then s else sealed_at w j;
  set_count j : count_at w' j = if decide (j = i) then n else count_at w j;
}.

Lemma stripe_set_spec w i c c' s n :
  wf_stripes w -> stripes w !! i = Some c -> becomes pw c' s n ->
  stripe_set w (set_stripe i c' w) i s n.
Proof.
  intros Hw Hc (Hwf & Hs & Hn). pose proof (lookup_lt_Some _ _ _ Hc) as Hlt.
  assert (Hl : forall j, <[i := c']> (stripes w) !! j = if decide (j = i) then Some c' else stripes w !! j).
  { intros j. case_decide as Hj; [subst; by apply list_lookup_insert_eq|].
    by apply list_lookup_insert_ne. }
  split.
  - intros j x. cbn. rewrite Hl. case_decide; [by intros [= <-]|apply Hw].
  - cbn. apply length_insert.
  - intros j. unfold sealed_at. cbn. rewrite Hl. by case_decide.
  - intros j. unfold count_at. cbn. rewrite Hl. by case_decide.
Qed.

Lemma sealed_lookup w i c : stripes w !! i = Some c -> sealed_at w i = is_sealed pw c.
Proof. unfold sealed_at. by intros ->. Qed.
Lemma count_lookup w i c : stripes w !! i = Some c -> count_at w i = cnt pw c.
Proof. unfold count_at. by intros ->. Qed.

(** ** Permits *)
Definition has_permit (i : nat) (r : reader) : nat := if decide (permit r = Some i) then 1 else 0.
Lemma has_permit_one i r : permit r = Some i -> has_permit i r = 1.
Proof. intros H. unfold has_permit. by rewrite decide_True. Qed.
Lemma has_permit_idle i : has_permit i RIdle = 0.
Proof. done. Qed.
Definition permits (rs : list reader) (i : nat) : nat := sum_list_with (has_permit i) rs.

Record counts_ok (w : world) : Prop := {
  counts_wf : wf_stripes w;
  counts_range k r i : readers w !! k = Some r -> permit r = Some i -> i < length (stripes w);
  counts_eq i : i < length (stripes w) -> count_at w i = Z.of_nat (permits (readers w) i);
}.

Lemma permits_zero rs i k r : permits rs i = 0 -> rs !! k = Some r -> permit r <> Some i.
Proof.
  intros H Hk Hr. pose proof (sum_list_with_ge (has_permit i) _ _ _ Hk) as Hge.
  unfold has_permit in Hge at 1. rewrite decide_True in Hge by done. unfold permits in H. lia.
Qed.

(** No count, no permit. *)
Lemma count_zero_no_permit w i k r :
  counts_ok w -> count_at w i = 0%Z -> readers w !! k = Some r -> permit r <> Some i.
Proof.
  intros H Hz Hk Hr. pose proof (counts_range _ H _ _ _ Hk Hr) as Hi.
  rewrite (counts_eq _ H _ Hi) in Hz. eapply permits_zero; [|exact Hk|exact Hr]. lia.
Qed.

Lemma no_permit_count_zero w i :
  counts_ok w -> (forall k r, readers w !! k = Some r -> permit r <> Some i) -> count_at w i = 0%Z.
Proof.
  intros H Hn. destruct (decide (i < length (stripes w))) as [Hi|Hi].
  - rewrite (counts_eq _ H _ Hi). unfold permits. rewrite (proj2 (sum_list_with_zero _ _)); [done|].
    intros k r Hk. unfold has_permit. rewrite decide_False; [done|]. by eapply Hn.
  - unfold count_at. by rewrite lookup_ge_None_2 by lia.
Qed.

Lemma counts_ok_set w i c c' s :
  counts_ok w -> stripes w !! i = Some c -> becomes pw c' s (cnt pw c) ->
  counts_ok (set_stripe i c' w) /\ stripe_set w (set_stripe i c' w) i s (cnt pw c).
Proof.
  intros H Hc Hb. pose proof (stripe_set_spec _ _ _ _ _ _ (counts_wf _ H) Hc Hb) as Hs.
  split; [|done]. split.
  - apply Hs.
  - intros k r j. cbn. rewrite length_insert. apply (counts_range _ H).
  - intros j. cbn. rewrite length_insert. intros Hj. rewrite (set_count _ _ _ _ _ Hs).
    pose proof (counts_eq _ H j Hj) as He. unfold permits in He. rewrite <- He.
    case_decide; [subst; by rewrite (count_lookup _ _ _ Hc)|done].
Qed.

(** A reader that changes its permits, with its stripe. *)
Lemma counts_ok_reader w k i c c' s n r r' :
  counts_ok w -> stripes w !! i = Some c -> readers w !! k = Some r -> becomes pw c' s n ->
  (forall j, permit r' = Some j -> j < length (stripes w)) ->
  (forall j, count_at w j + Z.of_nat (has_permit j r') - Z.of_nat (has_permit j r)
             = if decide (j = i) then n else count_at w j)%Z ->
  counts_ok (set_reader k r' (set_stripe i c' w))
  /\ stripe_set w (set_reader k r' (set_stripe i c' w)) i s n.
Proof.
  intros H Hc Hk Hb Hr Hn. pose proof (stripe_set_spec _ _ _ _ _ _ (counts_wf _ H) Hc Hb) as Hs.
  split; [split|].
  - apply Hs.
  - intros k0 r0 j. cbn. rewrite length_insert. intros [[-> [<- _]]|[_ H0]]%list_lookup_insert_Some.
    + apply Hr.
    + by apply (counts_range _ H _ _ _ H0).
  - intros j. cbn. rewrite length_insert. intros Hj.
    replace (count_at (set_reader k r' (set_stripe i c' w)) j) with (count_at (set_stripe i c' w) j) by done.
    rewrite (set_count _ _ _ _ _ Hs), <- Hn, (counts_eq _ H) by done.
    unfold permits. pose proof (sum_list_with_insert (has_permit j) (readers w) k r r' Hk). lia.
  - destruct Hs as [Hw Hl Hse Hco]. by split.
Qed.

(** ** What readers may use, and where they may be *)

(** The generation readers may use: the one of the state, or the one
    [take_current_bundle] has taken out of it and waits for. *)
Definition used (w : world) : option bundle :=
  match committing w with
  | Some (Job _ (Some g)) => '(s, p) ← retiring (state (core w)); Some (g, s, p)
  | _ => shown (state (core w))
  end.

(** The stripes that may hold permits: none while a publication is prepared,
    the reopened ones while it is finished. *)
Definition allowed (w : world) (j : nat) : Prop :=
  match committing w with
  | Some (Job (JActive _ _ | JNull _ | JSealed _ _ | JQuiet _ _ _ | JStore _ | JReopenCheck _) _) =>
      False
  | Some (Job (JReopen i) _) => j < i
  | _ => True
  end.

Definition uses (b : bundle) (r : reader) : Prop :=
  match r with
  | RAdmitted _ p => p = bundle_publication b
  | RExecuting _ a => a = address (bundle_root b)
  | _ => True
  end.

Definition reader_ok (w : world) (r : reader) : Prop :=
  forall j, permit r = Some j -> allowed w j /\ exists b, used w = Some b /\ uses b r.

Abbreviation open_publication w := (opened (state (core w))).
Definition all_sealed (w : world) : Prop := forall i, sealed_at w i = true.

(** The projections agree with the canonical state. *)
Definition settled (w : world) : Prop :=
  published w = open_publication w
  /\ forall i, i < length (stripes w) ->
       sealed_at w i = negb (bool_decide (is_Some (open_publication w))).

Definition published_ok (w : world) : Prop :=
  forall p, published w = Some p -> exists b, used w = Some b /\ bundle_publication b = p.

(** The read side at each point of a commit. *)
Definition view_ok (w : world) : Prop :=
  match committing w with
  | None => phase_word w = phase (state (core w)) /\ settled w
  | Some (Job c g) =>
      match c with
      | JSeal i =>
          open_publication w = None /\ (forall j, j < i -> sealed_at w j = true) /\ published_ok w
          /\ (forall j, sealed_at w j = false -> is_Some (used w))
      | JClear => open_publication w = None /\ all_sealed w /\ published_ok w
      | JPhase => settled w
      | JWait i idle =>
          phase_word w = phase (state (core w)) /\ settled w /\ open_publication w = None
          /\ current (state (core w)) = None /\ is_Some g
          /\ (idle = true -> forall j, j < i -> count_at w j = 0%Z)
      | JActive _ p | JNull p | JSealed _ p | JQuiet _ _ p | JStore p =>
          open_publication w = Some p /\ published w = None /\ all_sealed w /\ g = None
      | JReopenCheck _ =>
          published w = open_publication w /\ is_Some (open_publication w) /\ all_sealed w /\ g = None
      | JReopen i =>
          published w = open_publication w /\ is_Some (open_publication w) /\ g = None
          /\ (forall j, j < length (stripes w) -> sealed_at w j = negb (bool_decide (j < i)))
      end
  end.

(** The owned generations are consistent, and the one being recovered has
    left its services and publication behind. *)
Definition bundles_ok (w : world) : Prop :=
  (forall b, current (state (core w)) = Some b -> bundle_ok b)
  /\ forall c g, committing w = Some (Job c (Some g)) ->
       current (state (core w)) = None
       /\ exists s p, retiring (state (core w)) = Some (s, p) /\ bundle_ok (g, s, p).

Record readers_ok (w : world) : Prop := {
  ok_counts : counts_ok w;
  ok_view : view_ok w;
  ok_bundles : bundles_ok w;
  ok_readers k r : readers w !! k = Some r -> reader_ok w r;
}.

(** ** Consequences *)
Lemma opened_shown s p : opened s = Some p -> exists b, shown s = Some b /\ bundle_publication b = p.
Proof. destruct s; try done. cbn. intros [= <-]. by eexists. Qed.

Lemma retiring_not_open s x : retiring s = Some x -> opened s = None.
Proof. by destruct s. Qed.

Lemma sealed_out_of_range w i : length (stripes w) <= i -> sealed_at w i = true.
Proof. intros H. unfold sealed_at. by rewrite lookup_ge_None_2. Qed.

Lemma count_out_of_range w i : length (stripes w) <= i -> count_at w i = 0%Z.
Proof. intros H. unfold count_at. by rewrite lookup_ge_None_2. Qed.

Lemma settled_open w i : settled w -> sealed_at w i = false -> is_Some (open_publication w).
Proof.
  intros [_ H] Hs. destruct (decide (i < length (stripes w))) as [Hi|Hi].
  - rewrite (H i Hi) in Hs. by apply negb_false_iff, bool_decide_eq_true in Hs.
  - rewrite sealed_out_of_range in Hs by lia. done.
Qed.

Lemma settled_sealed w : settled w -> open_publication w = None -> all_sealed w.
Proof.
  intros H Ho i. destruct (sealed_at w i) eqn:E; [done|].
  apply settled_open in E as [? ?]; [congruence|done].
Qed.

(** The used generation while a generation is open. *)
Lemma used_open w p :
  bundles_ok w -> open_publication w = Some p -> exists b, used w = Some b /\ bundle_publication b = p.
Proof.
  intros [_ Hb] Hp. unfold used. destruct (committing w) as [[c [g|]]|] eqn:Hj.
  - destruct (Hb c g eq_refl) as (_ & s & q & Hr & _). apply retiring_not_open in Hr. congruence.
  - by apply opened_shown.
  - by apply opened_shown.
Qed.

(** A stripe that admits readers leads to a used generation. *)
Lemma open_stripe w i :
  view_ok w -> bundles_ok w -> sealed_at w i = false -> allowed w i /\ is_Some (used w).
Proof.
  intros Hv Hb Hs. unfold view_ok, allowed in *.
  assert (Hu : is_Some (open_publication w) -> is_Some (used w)).
  { intros [p Hp]. apply used_open in Hp as (b & ? & _); [by exists b|done]. }
  destruct (committing w) as [[[j| |j p|p|j p|j idle p|p|j|j| |j idle] g]|] eqn:Hj;
    try (destruct Hv as (_ & _ & Hv & _); by rewrite Hv in Hs).
  - destruct Hv as (_ & _ & _ & Hv). eauto.
  - destruct Hv as (_ & Hv & _). by rewrite Hv in Hs.
  - destruct Hv as (_ & Ho & _ & Hv). split; [|by apply Hu].
    destruct (decide (i < length (stripes w))) as [Hi|Hi]; [|by rewrite sealed_out_of_range in Hs by lia].
    rewrite Hv in Hs by done. by apply negb_false_iff, bool_decide_eq_true in Hs.
  - split; [done|]. by eapply Hu, settled_open.
  - destruct Hv as (_ & Hv & _). split; [done|]. by eapply Hu, settled_open.
  - destruct Hv as (_ & Hv). split; [done|]. by eapply Hu, settled_open.
Qed.

(** The published pointer leads to the used generation. *)
Lemma published_used w : view_ok w -> bundles_ok w -> published_ok w.
Proof.
  intros Hv Hb p Hp. unfold view_ok in Hv.
  destruct (committing w) as [[[j| |j q|q|j q|j idle q|q|j|j| |j idle] g]|] eqn:Hj;
    try (destruct Hv as (_ & Hv & _); congruence).
  - by apply Hv.
  - by apply Hv.
  - apply used_open; [done|]. destruct Hv as (Hv & _). congruence.
  - apply used_open; [done|]. destruct Hv as (Hv & _). congruence.
  - apply used_open; [done|]. destruct Hv as (Hv & _). congruence.
  - apply used_open; [done|]. destruct Hv as (_ & (Hv & _) & _). congruence.
  - apply used_open; [done|]. destruct Hv as (_ & Hv & _). congruence.
Qed.

(** ** Calls *)
Lemma same_view_counts w w' : same_view w w' -> counts_ok w -> counts_ok w'.
Proof.
  intros (_ & _ & Hs & Hr) [Hw Hg He]. split.
  - intros i c. rewrite Hs. apply Hw.
  - intros k r i. rewrite Hs, Hr. apply Hg.
  - intros i. unfold count_at. rewrite Hs, Hr. apply He.
Qed.

Lemma same_view_sealed w w' i : same_view w w' -> sealed_at w' i = sealed_at w i.
Proof. intros (_ & _ & Hs & _). unfold sealed_at. by rewrite Hs. Qed.

Lemma same_view_settled w w' :
  same_view w w' -> open_publication w' = open_publication w -> settled w -> settled w'.
Proof.
  intros Hv Ho [Hp Hs]. destruct Hv as (Hw & Hp' & Hst & Hr). split; [congruence|].
  intros i. rewrite Hst, Ho. unfold sealed_at. rewrite Hst. apply Hs.
Qed.

Lemma same_core_view w w' :
  same_view w w' -> core w' = core w -> committing w' = committing w -> view_ok w -> view_ok w'.
Proof.
  intros (Hw & Hp & Hs & Hr) Hc Hj. unfold view_ok, settled, published_ok, all_sealed, used, sealed_at, count_at.
  by rewrite Hc, Hj, Hw, Hp, Hs.
Qed.

(** A reader keeps what it uses when the used generation stays. *)
Lemma reader_ok_mono w w' r :
  (forall j, permit r = Some j -> allowed w j -> allowed w' j) ->
  (forall b, used w = Some b -> used w' = Some b) -> reader_ok w r -> reader_ok w' r.
Proof. intros Ha Hu H j Hj. destruct (H j Hj) as (? & b & ? & ?). split; [by apply Ha|]. eauto. Qed.

(** The permits of a quiet state. *)
Lemma unused_no_permit w k r :
  readers_ok w -> used w = None -> readers w !! k = Some r -> permit r = None.
Proof.
  intros H Hu Hk. destruct (permit r) as [j|] eqn:Hj; [|done].
  destruct (ok_readers _ H _ _ Hk j Hj) as (_ & b & Hb & _). congruence.
Qed.

Lemma used_settled w : committing w = None -> used w = shown (state (core w)).
Proof. unfold used. by intros ->. Qed.

Lemma used_effect w e :
  committing w = Some (Job (start_commit e) None) -> used w = shown (state (core w)).
Proof. unfold used. by intros ->. Qed.

Lemma start_allowed w e g j :
  committing w = Some (Job (start_commit e) g) -> (forall p, e <> Publish p) -> allowed w j.
Proof. unfold allowed. intros -> He. destruct e; cbn; try done. by destruct (He p). Qed.

Lemma transition_readers w w' e :
  readers_ok w -> committing w = None -> same_view w w' ->
  move e (state (core w)) (state (core w')) -> committing w' = Some (Job (start_commit e) None) ->
  readers_ok w'.
Proof.
  intros H Hn Hv [Ho Hs Hc] Hj. pose proof Hv as (Hw & Hp & Hst & Hr).
  pose proof (ok_view _ H) as Hview. unfold view_ok in Hview. rewrite Hn in Hview.
  destruct Hview as [_ Hset].
  assert (Hused : forall b, used w = Some b -> used w' = Some b).
  { rewrite (used_settled _ Hn), (used_effect _ _ Hj). exact Hs. }
  split.
  - eapply same_view_counts; [exact Hv|apply H].
  - unfold view_ok. rewrite Hj. destruct e as [| |p]; cbn in *.
    + by eapply same_view_settled.
    + split_and!; [done|intros; lia| |].
      * intros p Hpp. rewrite Hp, (proj1 Hset) in Hpp.
        apply used_open in Hpp as (b & Hb & ?); [|apply H]. exists b. auto.
      * intros i Hi. rewrite (same_view_sealed _ _ _ Hv) in Hi.
        apply open_stripe in Hi as [_ [b Hb]]; [|apply H..]. exists b. auto.
    + destruct Ho as (Ho & _ & Ho'). split_and!; [done|by rewrite Hp, (proj1 Hset)| |done].
      intros i. rewrite (same_view_sealed _ _ _ Hv). by apply settled_sealed.
  - split; [|intros c g; rewrite Hj; by intros [= ]].
    intros b Hb. destruct (Hc b Hb); [by apply (ok_bundles _ H)|done].
  - intros k r. rewrite Hr. intros Hk. pose proof (ok_readers _ H _ _ Hk) as Hok.
    destruct e as [| |p].
    + eapply (reader_ok_mono w); [|exact Hused|exact Hok]. intros j _ _. by eapply start_allowed.
    + eapply (reader_ok_mono w); [|exact Hused|exact Hok]. intros j _ _. by eapply start_allowed.
    + destruct Ho as (_ & Hno & _). intros j Hpj.
      rewrite (unused_no_permit _ _ _ H ltac:(by rewrite (used_settled _ Hn)) Hk) in Hpj. done.
Qed.

Lemma bundle_readers w w' g e :
  readers_ok w -> committing w = None -> same_view w w' ->
  take_current_bundle (core w) = (Some g, core w', e) ->
  committing w' = Some (Job (start_commit e) (Some g)) -> readers_ok w'.
Proof.
  intros H Hn Hv Ht Hj. pose proof Hv as (Hw & Hp & Hst & Hr).
  apply take_bundle_move in Ht as (-> & Ho & Hcur & s & p & Hsh & Hre & Hcu). cbn in Hj.
  pose proof (ok_view _ H) as Hview. unfold view_ok in Hview. rewrite Hn in Hview.
  destruct Hview as [_ Hset].
  assert (Hused : forall b, used w = Some b -> used w' = Some b).
  { rewrite (used_settled _ Hn). unfold used. rewrite Hj, Hre. cbn. congruence. }
  split.
  - eapply same_view_counts; [exact Hv|apply H].
  - unfold view_ok. rewrite Hj. split_and!; [done|intros; lia| |].
    + intros q Hpp. rewrite Hp, (proj1 Hset) in Hpp.
      apply used_open in Hpp as (b & Hb & ?); [|apply H]. exists b. auto.
    + intros i Hi. rewrite (same_view_sealed _ _ _ Hv) in Hi.
      apply open_stripe in Hi as [_ [b Hb]]; [|apply H..]. exists b. auto.
  - split; [rewrite Hcur; done|]. intros c g'. rewrite Hj. intros [= <- <-]. split; [done|].
    exists s, p. split; [done|]. by apply (ok_bundles _ H).
  - intros k r. rewrite Hr. intros Hk. eapply (reader_ok_mono w); [|exact Hused|by apply (ok_readers _ H _ _ Hk)].
    intros j _ _. unfold allowed. by rewrite Hj.
Qed.

Lemma call_readers o w w' : call_step o w = Done (Some w') -> readers_ok w -> readers_ok w'.
Proof.
  intros E H. apply call_core in E as [[Hc Hj _|e Hn Ht Hj _|g e Hn Ht Hj _ _] Hv].
  - split.
    + eapply same_view_counts; [exact Hv|apply H].
    + eapply same_core_view; [exact Hv|done|done|apply H].
    + unfold bundles_ok. rewrite Hc, Hj. apply H.
    + intros k r. rewrite (proj2 (proj2 (proj2 Hv))). intros Hk j Hpj.
      destruct (ok_readers _ H _ _ Hk j Hpj) as [Ha Hu]. unfold allowed, used in *. by rewrite Hc, Hj.
  - eapply transition_readers; eauto. by apply transition_move.
  - by eapply bundle_readers.
Qed.

(** ** The commit *)

(** One access of a commit: the core, the readers and the pending root stay. *)
Lemma commit_next w w' c x g :
  readers_ok w -> committing w = Some (Job c g) -> committing w' = Some (Job x g) ->
  core w' = core w -> readers w' = readers w -> counts_ok w' -> view_ok w' ->
  (forall j, allowed w j -> allowed w' j) -> readers_ok w'.
Proof.
  intros H Hj Hj' Hc Hr Hco Hv Ha.
  assert (Hu : used w' = used w) by (unfold used; rewrite Hj, Hj', Hc; by destruct g).
  split; [done|done| |].
  - destruct (ok_bundles _ H) as [Hb Hg]. unfold bundles_ok. rewrite Hc. split; [done|].
    intros c' g' E. rewrite Hj' in E. injection E as <- ->. by apply (Hg c).
  - intros k r. rewrite Hr. intros Hk. eapply (reader_ok_mono w); [|by rewrite Hu|exact (ok_readers _ H _ _ Hk)].
    intros j _. apply Ha.
Qed.

Lemma same_stripes_counts w w' :
  stripes w' = stripes w -> readers w' = readers w -> counts_ok w -> counts_ok w'.
Proof.
  intros Hs Hr [Hw Hg He]. split.
  - intros i c. rewrite Hs. apply Hw.
  - intros k r i. rewrite Hs, Hr. apply Hg.
  - intros i. unfold count_at. rewrite Hs, Hr. apply He.
Qed.

Lemma counts_committing w j : counts_ok w -> counts_ok (set_committing j w).
Proof. by apply same_stripes_counts. Qed.

(** The last stripe has been passed. *)
Lemma passed w i : stripes w !! i = None -> forall j, i <= j -> length (stripes w) <= j.
Proof. intros H j Hj. apply lookup_ge_None_1 in H. lia. Qed.

Lemma all_below w i (P : nat -> Prop) :
  stripes w !! i = None -> (forall j, j < i -> P j) -> (forall j, length (stripes w) <= j -> P j) ->
  forall j, P j.
Proof.
  intros Hi Hb Ho j. destruct (decide (j < i)); [by apply Hb|]. apply Ho. eapply passed; [done|lia].
Qed.

(** A scan: the seals and counts stay; an active stripe clears the flag. *)
Lemma scan_readers w i idle x f c g w' :
  readers_ok w -> committing w = Some (Job c g) -> stripes w !! i = Some x ->
  scan pw i idle x f (Job c g) w = Done (Some w') ->
  exists idle', committing w' = Some (Job (f (S i) idle') g) /\ core w' = core w
    /\ readers w' = readers w /\ phase_word w' = phase_word w /\ published w' = published w
    /\ length (stripes w') = length (stripes w) /\ counts_ok w'
    /\ (forall j, sealed_at w' j = sealed_at w j) /\ (forall j, count_at w' j = count_at w j)
    /\ (idle' = true -> idle = true /\ count_at w i = 0%Z).
Proof.
  intros H Hj Hx E. unfold scan in E. destruct (mark_waiting pw x) as [n x'] eqn:Em.
  apply mark_waiting_becomes in Em as [Hn Hb]; [|by eapply (counts_wf _ (ok_counts _ H))].
  injection E as <-. destruct (counts_ok_set _ _ _ _ _ (ok_counts _ H) Hx Hb) as [Hco Hset].
  eexists. split; [reflexivity|]. split_and!; try done.
  - cbn. apply length_insert.
  - by apply counts_committing.
  - intros j. pose proof (set_sealed _ _ _ _ _ Hset j) as Hs.
    unfold sealed_at in *. cbn in *. rewrite Hs. case_decide; [subst; by rewrite Hx|done].
  - intros j. pose proof (set_count _ _ _ _ _ Hset j) as Hs.
    unfold count_at in *. cbn in *. rewrite Hs. case_decide; [subst; by rewrite Hx|done].
  - rewrite (count_lookup _ _ _ Hx), <- Hn. destruct (Z.eqb_spec n 0); cbn; [done|done].
Qed.

Lemma settled_eq w w' :
  core w' = core w -> published w' = published w -> length (stripes w') = length (stripes w) ->
  (forall j, sealed_at w' j = sealed_at w j) -> settled w -> settled w'.
Proof.
  intros Hc Hp Hl Hs [Hq Hr]. split; [congruence|]. intros i. rewrite Hl, Hs, Hc. apply Hr.
Qed.

Lemma job_retiring w c g :
  readers_ok w -> committing w = Some (Job c (Some g)) -> open_publication w = None.
Proof.
  intros H Hj. destruct (proj2 (ok_bundles _ H) c g Hj) as (_ & s & p & Hr & _).
  by eapply retiring_not_open.
Qed.

Lemma clear_readers c g w w' :
  committing w = Some (Job c g) -> clear_step pw (Job c g) w = Done (Some w') -> readers_ok w ->
  readers_ok w'.
Proof.
  intros Hj E H. pose proof (ok_view _ H) as Hv. unfold view_ok in Hv. rewrite Hj in Hv.
  destruct c as [i| |i p|p|i p|i idle p|p|i|i| |i idle]; cbn [clear_step at_ pending_root] in E; try done.
  - destruct Hv as (Ho & Hse & Hp & Hu). destruct (stripes w !! i) as [x|] eqn:Hx; injection E as <-.
    + pose proof (counts_wf _ (ok_counts _ H) _ _ Hx) as Hwf.
      destruct (counts_ok_set _ _ _ _ _ (ok_counts _ H) Hx (seal_becomes pw x Hwf)) as [Hco Hset].
      eapply commit_next; [exact H|exact Hj|reflexivity|done|done| | |].
      * by apply counts_committing.
      * unfold view_ok. cbn. split_and!; [done| | |].
        -- intros j Hlt. pose proof (set_sealed _ _ _ _ _ Hset j) as Hs. unfold sealed_at in *. cbn in *.
           rewrite Hs. case_decide; [done|]. apply Hse. lia.
        -- intros q Hq. destruct (Hp q Hq) as (b & Hb & Hbp). exists b. split; [|done].
           unfold used in *. rewrite Hj in Hb. by destruct g.
        -- intros j Hsj. assert (is_Some (used w)) as [b Hb].
           { apply (Hu j). pose proof (set_sealed _ _ _ _ _ Hset j) as Hs. unfold sealed_at in *.
             cbn in *. rewrite Hs in Hsj. by case_decide. }
           exists b. unfold used in *. rewrite Hj in Hb. by destruct g.
      * unfold allowed. by rewrite Hj.
    + eapply commit_next; [exact H|exact Hj|reflexivity|done|done| | |].
      * by apply counts_committing, (ok_counts _ H).
      * unfold view_ok. cbn. split_and!; [done| |].
        -- intros j. exact (all_below w i (fun j => sealed_at w j = true) Hx Hse (sealed_out_of_range w) j).
        -- intros q Hq. destruct (Hp q Hq) as (b & Hb & Hbp). exists b. split; [|done].
           unfold used in *. rewrite Hj in Hb. by destruct g.
      * unfold allowed. by rewrite Hj.
  - destruct Hv as (Ho & Hse & Hp). injection E as <-.
    eapply commit_next; [exact H|exact Hj|reflexivity|done|done| | |].
    + eapply same_stripes_counts; [..|apply (ok_counts _ H)]; done.
    + unfold view_ok. cbn. split; [cbn; congruence|]. intros k _. cbn. rewrite Ho. apply Hse.
    + unfold allowed. by rewrite Hj.
  - destruct g as [g|]; injection E as <-.
    + eapply commit_next; [exact H|exact Hj|reflexivity|done|done| | |].
      * eapply same_stripes_counts; [..|apply (ok_counts _ H)]; done.
      * unfold view_ok. cbn. split_and!; [done|done|by eapply job_retiring| |done|intros; lia].
        by destruct (proj2 (ok_bundles _ H) _ _ Hj).
      * unfold allowed. by rewrite Hj.
    + split.
      * eapply same_stripes_counts; [..|apply (ok_counts _ H)]; done.
      * unfold view_ok. by cbn.
      * split; [apply (ok_bundles _ H)|done].
      * intros k r Hk. eapply (reader_ok_mono w); [| |exact (ok_readers _ H _ _ Hk)]; [done|].
        unfold used. cbn. by rewrite Hj.
  - destruct Hv as (Hw & Hset & Ho & Hcur & Hg & Hz). destruct (stripes w !! i) as [x|] eqn:Hx.
    + eapply scan_readers in E as (idle' & Hj' & Hc & Hr & Hp & Hpu & Hl & Hco & Hs & Hcnt & Hi);
        [|done..].
      eapply commit_next; [exact H|exact Hj|exact Hj'|done|done|done| |].
      * unfold view_ok. rewrite Hj'. split_and!; [congruence|by eapply settled_eq|congruence|congruence|done|].
        intros Hid j Hlt. rewrite Hcnt. destruct (Hi Hid) as [Hid' Hz0].
        destruct (decide (j = i)) as [->|]; [done|]. apply Hz; [done|lia].
      * unfold allowed. by rewrite Hj, Hj'.
    + destruct idle; injection E as <-.
      * assert (Hnone : forall k r, readers w !! k = Some r -> permit r = None).
        { intros k r Hk. destruct (permit r) as [j|] eqn:Hpj; [exfalso|done].
          eapply (count_zero_no_permit w j); [apply (ok_counts _ H)| |exact Hk|exact Hpj].
          exact (all_below w i (fun j => count_at w j = 0%Z) Hx (Hz eq_refl) (count_out_of_range w) j). }
        split.
        -- eapply same_stripes_counts; [..|apply (ok_counts _ H)]; done.
        -- unfold view_ok. by cbn.
        -- split; [apply (ok_bundles _ H)|done].
        -- intros k r Hk j Hpj. cbn in Hk. rewrite (Hnone _ _ Hk) in Hpj. done.
      * eapply commit_next; [exact H|exact Hj|reflexivity|done|done| | |].
        -- by apply counts_committing, (ok_counts _ H).
        -- unfold view_ok. cbn. split_and!; try done. intros; lia.
        -- unfold allowed. by rewrite Hj.
Qed.

Lemma publish_readers c g w w' :
  committing w = Some (Job c g) -> publish_step pw (Job c g) w = Done (Some w') -> readers_ok w ->
  readers_ok w'.
Proof.
  intros Hj E H. pose proof (ok_view _ H) as Hv. unfold view_ok in Hv. rewrite Hj in Hv.
  destruct c as [i| |i p|p|i p|i idle p|p|i|i| |i idle]; cbn [publish_step at_ pending_root] in E; try done.
  - destruct (stripes w !! i) as [x|] eqn:Hx; [destruct (_ =? _)%Z; [|done]|]; injection E as <-;
      (eapply commit_next; [exact H|exact Hj|reflexivity|done|done| |exact Hv|];
       [by apply counts_committing, (ok_counts _ H)|unfold allowed; by rewrite Hj]).
  - destruct (published w) eqn:Hp; [done|]. injection E as <-.
    eapply commit_next; [exact H|exact Hj|reflexivity|done|done| | |].
    + by apply counts_committing, (ok_counts _ H).
    + unfold view_ok. cbn. by rewrite Hp.
    + unfold allowed. by rewrite Hj.
  - destruct (stripes w !! i) as [x|] eqn:Hx; [destruct (is_sealed pw x); [|done]|]; injection E as <-;
      (eapply commit_next; [exact H|exact Hj|reflexivity|done|done| |exact Hv|];
       [by apply counts_committing, (ok_counts _ H)|unfold allowed; by rewrite Hj]).
  - destruct Hv as (Ho & Hpu & Hse & Hg). destruct (stripes w !! i) as [x|] eqn:Hx.
    + eapply (scan_readers _ _ _ _ (fun i b => JQuiet i b p)) in E
        as (idle' & Hj' & Hc & Hr & Hp & Hpu' & Hl & Hco & Hs & _ & _); [|done..].
      eapply commit_next; [exact H|exact Hj|exact Hj'|done|done|done| |].
      * unfold view_ok. rewrite Hj'. split_and!; [congruence|congruence| |done].
        intros j. rewrite Hs. apply Hse.
      * unfold allowed. by rewrite Hj.
    + injection E as <-. eapply commit_next; [exact H|exact Hj|reflexivity|done|done| | |].
      * by apply counts_committing, (ok_counts _ H).
      * unfold view_ok. cbn. by destruct idle.
      * unfold allowed. by rewrite Hj.
  - destruct Hv as (Ho & Hpu & Hse & Hg). injection E as <-.
    eapply commit_next; [exact H|exact Hj|reflexivity|done|done| | |].
    + eapply same_stripes_counts; [..|apply (ok_counts _ H)]; done.
    + unfold view_ok. cbn. rewrite Ho. split_and!; [done|by eexists|exact Hse|done].
    + unfold allowed. by rewrite Hj.
  - destruct Hv as (Hpu & Ho & Hse & Hg). destruct (stripes w !! i) as [x|] eqn:Hx.
    + destruct (_ || _); [done|]. injection E as <-.
      eapply commit_next; [exact H|exact Hj|reflexivity|done|done| | |].
      * by apply counts_committing, (ok_counts _ H).
      * by unfold view_ok.
      * unfold allowed. by rewrite Hj.
    + injection E as <-. eapply commit_next; [exact H|exact Hj|reflexivity|done|done| | |].
      * by apply counts_committing, (ok_counts _ H).
      * unfold view_ok. cbn. split_and!; [done..|]. intros j _. apply Hse.
      * unfold allowed. by rewrite Hj.
  - destruct Hv as (Hpu & Ho & Hg & Hse). destruct (stripes w !! i) as [x|] eqn:Hx.
    + pose proof (counts_wf _ (ok_counts _ H) _ _ Hx) as Hwf. pose proof (reopen_becomes pw x Hwf) as Hb.
      destruct (is_sealed pw x && (cnt pw x =? 0)%Z) eqn:Hcond; cycle 1.
      { rewrite Hb in E. cbn in E. done. }
      destruct Hb as (x' & Hre & Hb). rewrite Hre in E. cbn in E. injection E as <-.
      apply andb_true_iff in Hcond as [_ Hz]. apply Z.eqb_eq in Hz. rewrite <- Hz in Hb.
      destruct (counts_ok_set _ _ _ _ _ (ok_counts _ H) Hx Hb) as [Hco Hset].
      eapply commit_next; [exact H|exact Hj|reflexivity|done|done| | |].
      * by apply counts_committing.
      * unfold view_ok. cbn. split_and!; [done..|]. intros j. rewrite length_insert. intros Hlt.
        pose proof (set_sealed _ _ _ _ _ Hset j) as Hs. unfold sealed_at in *. cbn in *. rewrite Hs.
        case_decide as Hji; [subst; by rewrite bool_decide_true by lia|].
        rewrite Hse by done. f_equal. apply bool_decide_ext. lia.
      * intros j. unfold allowed. rewrite Hj. cbn. lia.
    + injection E as <-. eapply commit_next; [exact H|exact Hj|reflexivity|done|done| | |].
      * by apply counts_committing, (ok_counts _ H).
      * unfold view_ok. cbn. split; [done|]. intros j Hlt.
        pose proof (lookup_ge_None_1 _ _ Hx) as Hle. cbn in Hlt. pose proof (Hse j Hlt) as Hs.
        rewrite bool_decide_true in Hs by lia. unfold sealed_at in *. cbn in *. rewrite Hs.
        by rewrite bool_decide_true.
      * unfold allowed. by rewrite Hj.
Qed.

Lemma commit_readers w w' : commit_step pw w = Done (Some w') -> readers_ok w -> readers_ok w'.
Proof.
  unfold commit_step. destruct (committing w) as [[c g]|] eqn:Hj; [|done]. intros E H.
  destruct c; cbn in E; first [by eapply clear_readers|by eapply publish_readers].
Qed.

(** ** Readers *)
Lemma used_bundle w b : bundles_ok w -> used w = Some b -> bundle_ok b.
Proof.
  intros [Hb Hg]. unfold used. destruct (committing w) as [[c [g|]]|] eqn:Hj.
  - destruct (Hg c g eq_refl) as (_ & s & p & -> & Hok). cbn. by intros [= <-].
  - intros H. apply Hb. by destruct (state (core w)).
  - intros H. apply Hb. by destruct (state (core w)).
Qed.

Lemma reader_view w w' :
  core w' = core w -> committing w' = committing w -> phase_word w' = phase_word w ->
  published w' = published w -> length (stripes w') = length (stripes w) ->
  (forall j, sealed_at w' j = sealed_at w j) ->
  (forall j, sealed_at w j = true -> count_at w j = 0%Z -> count_at w' j = 0%Z) ->
  view_ok w -> view_ok w'.
Proof.
  intros Hc Hj Hw Hp Hl Hs Hz Hv.
  assert (Hu : used w' = used w) by (unfold used; by rewrite Hj, Hc).
  assert (Hset : settled w -> settled w') by (by apply settled_eq).
  assert (Hall : all_sealed w -> all_sealed w') by (intros Ha j; rewrite Hs; apply Ha).
  assert (Hpo : published_ok w -> published_ok w') by (unfold published_ok; by rewrite Hp, Hu).
  unfold view_ok in *. rewrite Hj.
  destruct (committing w) as [[[i| |i p|p|i p|i idle p|p|i|i| |i idle] g]|];
    rewrite ?Hc, ?Hw, ?Hp, ?Hu, ?Hl; try tauto.
  - destruct Hv as (? & Hv & ? & Hv').
    split_and!; [done|intros j; rewrite Hs; apply Hv|auto|intros j; rewrite Hs; apply Hv'].
  - destruct Hv as (? & ? & ? & Hv). split_and!; [done..|]. intros j. rewrite Hs. apply Hv.
  - destruct Hv as (? & Hset' & ? & ? & ? & Hv). split_and!; auto. intros Hid j Hlt.
    apply Hz; [by apply settled_sealed|auto].
Qed.

(** One access of reader [k], whose permits and stripe move together. *)
Lemma reader_moves w k i c c' n r r' :
  readers_ok w -> stripes w !! i = Some c -> readers w !! k = Some r ->
  becomes pw c' (is_sealed pw c) n -> (is_sealed pw c = true -> n <= cnt pw c)%Z -> (0 <= n)%Z ->
  (forall j, permit r' = Some j -> j = i) ->
  (Z.of_nat (has_permit i r') - Z.of_nat (has_permit i r) = n - cnt pw c)%Z ->
  (forall j, j <> i -> permit r <> Some j) -> reader_ok w r' ->
  readers_ok (set_reader k r' (set_stripe i c' w)).
Proof.
  intros H Hc Hk Hb Hle Hn Hp' Hd Hp Hr'.
  destruct (counts_ok_reader w k i c c' (is_sealed pw c) n r r' (ok_counts _ H) Hc Hk Hb) as [Hco Hset].
  { intros j Hj. rewrite (Hp' _ Hj). by eapply lookup_lt_Some. }
  { intros j. case_decide as Hj.
    - subst j. rewrite (count_lookup _ _ _ Hc). lia.
    - unfold has_permit. rewrite !decide_False; [lia| |]; [by apply Hp|].
      intros Hj'. by apply Hj, Hp'. }
  split; [done| |apply H|].
  - eapply (reader_view w); [done..| | | |apply H].
    + apply Hset.
    + intros j. rewrite (set_sealed _ _ _ _ _ Hset). case_decide; [subst; by rewrite (sealed_lookup _ _ _ Hc)|done].
    + intros j Hs Hz. rewrite (set_count _ _ _ _ _ Hset). case_decide as Hj; [|done]. subst.
      rewrite (sealed_lookup _ _ _ Hc) in Hs. rewrite (count_lookup _ _ _ Hc) in Hz.
      specialize (Hle Hs). lia.
  - intros k0 r0. cbn. intros [[-> [<- _]]|[_ H0]]%list_lookup_insert_Some; [exact Hr'|].
    exact (ok_readers _ H _ _ H0).
Qed.

(** A reader that only loads. *)
Lemma reader_loads w k r r' :
  readers_ok w -> readers w !! k = Some r -> permit r' = permit r -> reader_ok w r' ->
  readers_ok (set_reader k r' w).
Proof.
  intros H Hk Hp Hr'. pose proof (ok_counts _ H) as Hco. split; [split|apply H|apply H|].
  - apply Hco.
  - intros k0 r0 j. cbn. intros [[-> [<- _]]|[_ H0]]%list_lookup_insert_Some.
    + rewrite Hp. by apply (counts_range _ Hco _ _ _ Hk).
    + by apply (counts_range _ Hco _ _ _ H0).
  - intros j Hj. cbn in Hj. change (count_at (set_reader k r' w) j) with (count_at w j).
    rewrite (counts_eq _ Hco j Hj). unfold permits. cbn [readers set_reader].
    pose proof (sum_list_with_insert (has_permit j) (readers w) k r r' Hk) as Hsum.
    assert (has_permit j r' = has_permit j r) by (unfold has_permit; by rewrite Hp). lia.
  - intros k0 r0. cbn. intros [[-> [<- _]]|[_ H0]]%list_lookup_insert_Some; [exact Hr'|].
    exact (ok_readers _ H _ _ H0).
Qed.

Lemma enter_readers k i entered w w' :
  readers_ok w -> readers w !! k = Some RIdle -> permit entered = Some i ->
  (forall b, used w = Some b -> uses b entered) ->
  enter_stripe pw k i entered w = Done (Some w') -> readers_ok w'.
Proof.
  intros H Hk Hp Hu E. unfold enter_stripe in E. destruct (stripes w !! i) as [c|] eqn:Hc; [|done].
  pose proof (counts_wf _ (ok_counts _ H) _ _ Hc) as Hwf. pose proof (cnt_nonneg pw c) as Hnn.
  destruct (try_acquire pw c) as [[r c']| |] eqn:Ea; [|done..]. cbn in E. injection E as <-.
  apply try_acquire_becomes in Ea; [|done]. destruct r as [[]|[]].
  - destruct Ea as [Hs Hb]. eapply (reader_moves _ _ _ c c' (cnt pw c + 1)%Z RIdle); try done.
    + by rewrite Hs.
    + by rewrite Hs.
    + lia.
    + intros j. rewrite Hp. by intros [= <-].
    + rewrite has_permit_idle, has_permit_one by done. lia.
    + intros j. rewrite Hp. intros [= <-].
      destruct (open_stripe w i (ok_view _ H) (ok_bundles _ H)) as [Ha [b Hb']];
        [by rewrite (sealed_lookup _ _ _ Hc)|]. eauto.
  - destruct Ea as [Hs ->]. eapply (reader_moves _ _ _ c c (cnt pw c) RIdle RIdle); try done.
    + lia.
    + lia.
Qed.

Lemma release_readers k i r w w' :
  readers_ok w -> readers w !! k = Some r -> permit r = Some i ->
  release_stripe pw k i w = Done (Some w') -> readers_ok w'.
Proof.
  intros H Hk Hp E. unfold release_stripe in E. destruct (stripes w !! i) as [c|] eqn:Hc; [|done].
  pose proof (counts_wf _ (ok_counts _ H) _ _ Hc) as Hwf. pose proof (cnt_nonneg pw c) as Hnn.
  destruct (try_release_without_notification pw c) as [[o c']| |] eqn:Ea; [|done..]. cbn in E.
  injection E as <-. apply fast_release_becomes in Ea; [|done].
  destruct o as [o|].
  - eapply (reader_moves _ _ _ c c' (cnt pw c - 1)%Z r RIdle); try done.
    + lia.
    + pose proof (cnt_nonneg pw c'). destruct Ea as (_ & _ & <-). lia.
    + rewrite has_permit_idle, has_permit_one by done. lia.
    + intros j Hj. congruence.
  - subst c'. eapply (reader_moves _ _ _ c c (cnt pw c) r (RSlow i)); try done.
    + lia.
    + intros j. cbn. by intros [= <-].
    + rewrite !has_permit_one by done. lia.
    + intros j Hj. congruence.
    + intros j. cbn. intros [= <-]. destruct (ok_readers _ H _ _ Hk _ Hp) as (Ha & b & Hb & _).
      eauto 10.
Qed.

Lemma reader_step_readers k a w w' : reader_step pw k a w = Done (Some w') -> readers_ok w -> readers_ok w'.
Proof.
  unfold reader_step. intros E H. destruct (readers w !! k) as [r|] eqn:Hk; [|done].
  destruct r as [|i|i|i p|i rt|i]; destruct a as [j| |by_reader j]; try done.
  - by eapply (enter_readers _ _ (RLoad j)) in E.
  - destruct (readers w !! by_reader) as [[| | |i p| |]|] eqn:Hb; try done.
    eapply (enter_readers _ _ (RExecuting j _)) in E; try done.
    intros b Hu. cbn. destruct (ok_readers _ H _ _ Hb i eq_refl) as (_ & b' & Hu' & Hp).
    cbn in Hp. assert (b' = b) as -> by congruence. rewrite Hp.
    by apply (used_bundle _ _ (ok_bundles _ H)).
  - injection E as <-. destruct (ok_readers _ H _ _ Hk i eq_refl) as (Ha & b & Hb & _).
    eapply reader_loads; [done|exact Hk|by destruct (published w)|].
    destruct (published w) as [p|] eqn:Hp.
    + intros j. cbn. intros [= <-]. split; [done|].
      destruct (published_used w (ok_view _ H) (ok_bundles _ H) p Hp) as (b' & Hb' & <-). by exists b'.
    + intros j. cbn. intros [= <-]. split; [done|]. by exists b.
  - by eapply release_readers.
  - by eapply release_readers.
  - by eapply release_readers.
  - destruct (stripes w !! i) as [c|] eqn:Hc; [|done].
    pose proof (counts_wf _ (ok_counts _ H) _ _ Hc) as Hwf.
    destruct (release pw c) as [[o c']| |] eqn:Ea; [|done..]. cbn in E. injection E as <-.
    apply release_becomes in Ea; [|done]. pose proof (cnt_nonneg pw c').
    eapply (reader_moves _ _ _ c c' (cnt pw c - 1)%Z (RSlow i) RIdle); try done.
    + lia.
    + destruct Ea as (_ & _ & <-). lia.
    + rewrite has_permit_idle, has_permit_one by done. lia.
    + intros j Hj. cbn. congruence.
Qed.

(** ** Every step *)
Lemma readers_ok_initial n k : readers_ok (initial pw n k).
Proof.
  assert (Hs : forall i c, stripes (initial pw n k) !! i = Some c -> c = new_sealed pw).
  { cbn. intros i c. by intros [-> _]%lookup_replicate. }
  assert (Hr : forall i r, readers (initial pw n k) !! i = Some r -> r = RIdle).
  { cbn. intros i r. by intros [-> _]%lookup_replicate. }
  assert (Hb : becomes pw (new_sealed pw) true 0%Z).
  { rewrite new_sealed_view. apply (becomes_view pw (Spec.View true false 0)), idle_valid. }
  split; [split| | |].
  - intros i c ->%Hs. apply Hb.
  - by intros i r j ->%Hr.
  - intros i Hi. unfold permits. rewrite (proj2 (sum_list_with_zero _ _)); [|by intros j r ->%Hr].
    unfold count_at. destruct (_ !! i) as [c|] eqn:Hc; [|done]. apply Hs in Hc as ->. apply Hb.
  - unfold view_ok. cbn. split; [done|]. split; [done|]. intros i Hi. unfold sealed_at. cbn.
    destruct (_ !! i) as [c|] eqn:Hc; [|done]. apply (Hs i) in Hc as ->. by rewrite (proj1 (proj2 Hb)).
  - by split.
  - by intros i r ->%Hr.
Qed.

Lemma readers_ok_steps w w' : steps pw w w' -> readers_ok w -> readers_ok w'.
Proof.
  intros [[o| |k a] E]; cbn [step] in E; [by eapply call_readers|by apply commit_readers|].
  by eapply reader_step_readers.
Qed.

Lemma readers_ok_rtc w w' : rtc (steps pw) w w' -> readers_ok w -> readers_ok w'.
Proof. induction 1; eauto using readers_ok_steps. Qed.

Lemma reachable_readers n k w : reachable pw n k w -> readers_ok w.
Proof. intros H. eapply readers_ok_rtc; [exact H|apply readers_ok_initial]. Qed.

End Readers.
End LifecycleReaders.
