(* ===== verification/LifecycleEntries.v ===== *)
(** * Export calls and module epochs

    The export calls counted by the ingress belong to its current epoch, and a
    closed ingress counts none: [entries_ok].  Every step of the lifecycle
    keeps it, whenever calls enter and leave; so the module is never reopened
    over a live export guard, and no guard crosses an epoch. *)

From S2P Require Import Prelude Errors SealableCounter ModuleRuntime Lifecycle LifecycleMachine LifecycleTokens LifecycleShape LifecycleInvariant.
Import Errors ModuleRuntime.Epoch Lifecycle LifecycleMachine LifecycleTokens LifecycleShape LifecycleInvariant.

Local Open Scope Z_scope.

Module LifecycleEntries.

Definition entries_ok (m : ModuleRuntime) : Prop :=
  Forall (fun e => e = Epoch.epoch (ingress m)) (export_calls m)
  /\ (Epoch.phase (ingress m) = PHASE_CLOSED -> export_calls m = []).

(** Neither an entry nor a drain: the calls stay, and so does the epoch. *)
Definition kept (m m' : ModuleRuntime) : Prop :=
  export_calls m' = export_calls m /\ Epoch.epoch (ingress m') = Epoch.epoch (ingress m)
  /\ (Epoch.phase (ingress m') = PHASE_CLOSED -> Epoch.phase (ingress m) = PHASE_CLOSED).

Lemma kept_entries m m' : kept m m' -> entries_ok m -> entries_ok m'.
Proof. intros (Hc & He & Hp) [H1 H2]. split; [by rewrite Hc, He|]. rewrite Hc. auto. Qed.

(** Without calls there is nothing to keep. *)
Lemma idle_entries m : export_calls m = [] -> entries_ok m.
Proof. intros Hm. split; rewrite Hm; [constructor|done]. Qed.

Lemma kept_refl m : kept m m.
Proof. done. Qed.

#[local] Hint Resolve kept_refl : core.

(** ** Operations of the module *)
Lemma close_effects_kept id m m' : begin_close_effects id m = Done m' -> kept m m'.
Proof.
  unfold begin_close_effects. case_match; [done|]. intros [= <-]. unfold kept, begin_close_with. cbn.
  destruct (Epoch.phase (ingress m)) eqn:Hp; cbn; by rewrite ?Hp.
Qed.

Lemma rollback_kept o m c m' : rollback o m = Done (c, m') -> kept m m'.
Proof.
  unfold rollback. destruct (begin_close_effects _ _) eqn:E; [|done..].
  intros [= _ <-]. by eapply close_effects_kept.
Qed.

Lemma begin_close_kept l m c m' : begin_close l m = Done (c, m') -> kept m m'.
Proof.
  unfold begin_close. destruct (begin_close_effects _ _) eqn:E; [|done..].
  intros [= _ <-]. by eapply close_effects_kept.
Qed.

Lemma into_closing_kept a m c m' : into_closing a m = Done (c, m') -> kept m m'.
Proof. destruct a; cbn; [apply begin_close_kept|by intros [= _ <-]]. Qed.

Lemma publish_open_kept m i : publish_open (ingress m) = Some i -> kept m (set_ingress i m).
Proof. unfold publish_open. case_match; [|done]. by intros [= <-]. Qed.

Lemma begin_open_calls m o m' :
  begin_open m = Done (o, m') -> export_calls m' = [].
Proof.
  unfold begin_open, callback_reset, begin_opening, active_calls. case_match; [done|]. cbn.
  destruct (negb (Z.of_nat _ =? 0)) eqn:El; [by rewrite orb_true_r|].
  destruct (negb (bool_decide _)); [done|]. cbn. case_match; [|done]. intros [= _ <-]. cbn.
  by destruct (export_calls m).
Qed.

(** A drain that returns has waited for the calls, or the pump has failed. *)
Lemma drain_entries fault c m r m' :
  waits_for_exports fault m = false -> seal_and_drain fault c m = Done (r, m') ->
  entries_ok m -> entries_ok m'.
Proof.
  unfold seal_and_drain, ingress_seal_and_drain, waits_for_exports, active_calls. intros Hw E.
  destruct (Epoch.phase (ingress m)) eqn:Hp; try done; destruct fault; cbn in E; injection E as _ <-;
    try (apply kept_entries; by split_and!); intros _; apply idle_entries; cbn;
    by destruct (export_calls m).
Qed.

Lemma close_callbacks_kept m : kept m (close_callbacks m).
Proof. done. Qed.

Lemma cleanup_finish_entries fault r m x m' :
  cleanup_waits fault r m = false -> cleanup_finish fault r m = Done (x, m') ->
  entries_ok m -> entries_ok m'.
Proof.
  destruct r as [c|d]; cbn; intros Hw E H.
  - destruct (seal_and_drain _ _ _) as [[[d|[e k]] m1]| |] eqn:Ed; try done; cbn in E;
      injection E as _ <-; pose proof (drain_entries _ _ _ _ _ Hw Ed H); done.
  - injection E as _ <-. by apply (kept_entries m).
Qed.

Lemma certify_kept d m q m' : certify d m = Done (q, m') -> kept m m'.
Proof. unfold certify. case_match; [done|]. by intros [= _ <-]. Qed.

(** ** Entering and leaving *)
Lemma enter_entries m : entries_ok m -> entries_ok (enter_with m).2.
Proof.
  intros H. pose proof H as [H1 _]. unfold enter_with.
  destruct (Epoch.phase (ingress m)) eqn:Hp; cbn; [| | |done];
    (split; cbn; [by constructor|congruence]).
Qed.

Lemma drop_guard_entries k m m' :
  drop_guard k m = Done (Some m') -> entries_ok m -> entries_ok m'.
Proof.
  unfold drop_guard. intros E [H1 H2]. destruct (export_calls m !! k) as [e|] eqn:Hk; [|done].
  destruct (negb _); [done|]. injection E as <-. split; cbn.
  - apply Forall_delete, H1.
  - intros Hp. rewrite (H2 Hp) in Hk. done.
Qed.

(** A guard that is dropped is of the current epoch. *)
Lemma drop_guard_returns k m : entries_ok m -> exists x, drop_guard k m = Done x.
Proof.
  intros [H1 _]. unfold drop_guard. destruct (export_calls m !! k) as [e|] eqn:Hk; [|by eexists].
  rewrite (Forall_lookup_1 _ _ _ _ H1 Hk), Z.eqb_refl. by eexists.
Qed.

Lemma entry_op_entries o w w' :
  entry_op o w = Done (Some w') -> entries_ok (module_ w) -> entries_ok (module_ w').
Proof.
  intros E H. destruct o; cbn [entry_op] in E; try done.
  - injection E as <-. by apply enter_entries.
  - destruct (drop_guard k _) as [[m|]| |] eqn:Ed; simplify_eq/=. by eapply drop_guard_entries.
  - unfold callback_enter in E. case_match; simplify_eq/=. by apply (kept_entries (module_ w)).
  - unfold callback_leave in E. case_match; simplify_eq/=. by apply (kept_entries (module_ w)).
Qed.

(** ** Transitions of the core *)
Lemma claim_kept m c r c' m' e : claim_removal m c = Done (r, c', m', e) -> kept m m'.
Proof.
  unfold claim_removal, claim_available. intros E.
  destruct (state c) as [| | |[|[| |a| |]]|[| |a| |]|]; simplify_eq/=; try done;
    (destruct (Identity.checked_next _); [|done]);
    destruct (into_closing _ m) as [[x m1]| |] eqn:Ei; simplify_eq/=; by eapply into_closing_kept.
Qed.

Lemma rollback_decision_kept m c d c' m' e :
  rollback_decision m c = Done (d, c', m', e) -> kept m m'.
Proof.
  unfold rollback_decision. intros E. destruct (state c) as [[]| | | | |]; simplify_eq/=; try done.
  destruct (claim_removal m c) as [[[[r1 c1] m1] e1]| |] eqn:Ec; simplify_eq/=. by eapply claim_kept.
Qed.

Lemma take_cleanup_kept r m a r' m' : CloseResources.take_cleanup r m = Done (a, r', m') -> kept m m'.
Proof.
  unfold CloseResources.take_cleanup. intros E.
  destruct r as [| |[p x]|[p [c|[n x]]]|[p [d|k]]]; simplify_eq/=; try done.
  - destruct (into_closing _ m) as [[y m1]| |] eqn:Ei; simplify_eq/=. by eapply into_closing_kept.
  - destruct (into_cleanup x); by simplify_eq/=.
Qed.

Lemma take_module_cleanup_kept m c a c' m' e :
  take_module_cleanup m c = Done (a, c', m', e) -> kept m m'.
Proof.
  unfold take_module_cleanup, ClosingState.take_cleanup. intros E.
  destruct (state c) as [[|n []]| | |[n [] x|x]|x|x]; simplify_eq/=; try done;
    destruct (CloseResources.take_cleanup x m) as [[[y r1] m1]| |] eqn:Et; simplify_eq/=;
    by eapply take_cleanup_kept.
Qed.

(** ** Every step *)
Lemma finish_module c e out w w' : finish c e out w = Done (Some w') -> module_ w' = module_ w.
Proof. by intros [= <-]. Qed.

Lemma give_module out w w' : give out w = Done (Some w') -> module_ w' = module_ w.
Proof. by intros [= <-]. Qed.

Lemma take_module i w r w1 : take i w = Some (r, w1) -> module_ w1 = module_ w.
Proof. by intros (_ & _ & _ & ? & _)%take_same. Qed.

Ltac taken_module :=
  match goal with
  | E : context [take ?i ?w] |- _ =>
      let r := fresh "r" in let w1 := fresh "w1" in let H := fresh "Htake" in
      destruct (take i w) as [[r w1]|] eqn:H; [apply take_module in H|]; cbn in E
  end.

Lemma token_op_entries o w w' :
  token_op o w = Done (Some w') -> entries_ok (module_ w) -> entries_ok (module_ w').
Proof.
  intros E H. destruct o; cbn [token_op] in E; try done; try taken_module; try done.
  - by rewrite (give_module _ _ _ E).
  - by rewrite (give_module _ _ _ E).
  - destruct r; simplify_eq; by rewrite Htake.
  - destruct (publish_open _) as [x|] eqn:Ep; [|done]. injection E as <-.
    by eapply kept_entries, H; apply publish_open_kept.
  - destruct r; try done. by rewrite (give_module _ _ _ E), Htake.
  - destruct r as [| | |t| | | |]; try done. rewrite Htake in E.
    destruct (rollback t _) as [[c m]| |] eqn:Er; [|done..]. rewrite (give_module _ _ _ E).
    eapply kept_entries, H. by eapply rollback_kept.
  - destruct r as [| | | |l| | |]; try done. rewrite Htake in E.
    destruct (begin_close l _) as [[c m]| |] eqn:Er; [|done..]. rewrite (give_module _ _ _ E).
    eapply kept_entries, H. by eapply begin_close_kept.
  - destruct r as [| | | | | | |[n b [[c|d|k]| |]]]; try done. rewrite Htake in E.
    destruct (waits_for_exports _ _) eqn:Ew; [done|].
    destruct (seal_and_drain _ c _) as [[x m]| |] eqn:Er; [|done..]. rewrite (give_module _ _ _ E).
    by eapply drain_entries.
  - destruct r as [| | | | | | |[n b [[c|d|k]| |]]]; try done. rewrite Htake in E.
    destruct (certify d _) as [[x m]| |] eqn:Er; [|done..]. rewrite (give_module _ _ _ E).
    eapply kept_entries, H. by eapply certify_kept.
  - destruct r as [| | | | | | |[n b x]]; try done. by rewrite (give_module _ _ _ E), Htake.
  - destruct r as [| | | | | |x|]; try done. rewrite Htake in E.
    destruct (cleanup_waits _ _ _) eqn:Ew; [done|].
    destruct (cleanup_finish _ x _) as [[y m]| |] eqn:Er; [|done..]. rewrite (give_module _ _ _ E).
    by eapply cleanup_finish_entries.
Qed.

Lemma start_op_entries o w w' :
  start_op o w = Done (Some w') -> entries_ok (module_ w) -> entries_ok (module_ w').
Proof.
  intros E H. unfold start_op in E. destruct o; try done; destruct (lock w); try done.
  - destruct (begin_opening_if_closed _ _) as [[[] ?] ?]; by rewrite (finish_module _ _ _ _ _ E).
  - destruct (begin_open _) as [[x m]| |] eqn:Eb; [|done..]. rewrite (give_module _ _ _ E).
    eapply idle_entries, begin_open_calls, Eb.
  - destruct (record_open_failure _) as [[? ?] ?]. by rewrite (finish_module _ _ _ _ _ E).
  - destruct (quarantine_core _) as [? ?]. by rewrite (finish_module _ _ _ _ _ E).
Qed.

Lemma open_op_module o w w' : open_op o w = Done (Some w') -> module_ w' = module_ w.
Proof.
  intros E. destruct o; cbn [open_op] in E; try done; try taken_module; try done;
    repeat (case_match; simplify_eq; try done);
    rewrite (finish_module _ _ _ _ _ E);
    repeat match goal with H : take _ _ = Some _ |- _ => apply take_module in H end; congruence.
Qed.

Lemma removal_op_entries o w w' :
  removal_op o w = Done (Some w') -> entries_ok (module_ w) -> entries_ok (module_ w').
Proof.
  intros E H. destruct o; cbn [removal_op] in E; try done; try taken_module; try done.
  - destruct (advance_removal_epoch _) as [[? ?]| |]; [|done..]. by rewrite (finish_module _ _ _ _ _ E).
  - destruct (final_close_decision _) as [[? ?] ?]. by rewrite (finish_module _ _ _ _ _ E).
  - destruct (state (core w)); try done.
    destruct (claim_removal _ _) as [[[[r1 c1] m1] e1]| |] eqn:Ec; [|done..].
    rewrite (finish_module _ _ _ _ _ E). eapply kept_entries, H. by eapply claim_kept.
  - destruct (rollback_decision _ _) as [[[[r c] m] e]| |] eqn:Ec; [|done..].
    rewrite (finish_module _ _ _ _ _ E). eapply kept_entries, H. by eapply rollback_decision_kept.
  - destruct r as [| | | | | | |[n b s]]; try done. by rewrite (finish_module _ _ _ _ _ E), Htake.
  - destruct r as [| | | | | | |[n b [a| |]]]; try done.
    destruct (return_removal_authority _ _ _) as [[c e]| |]; [|done..].
    by rewrite (finish_module _ _ _ _ _ E), Htake.
  - destruct r as [| | | | | | |[n b [a|q|]]]; try done;
      (destruct (release_removal_claim _ _ _) as [[c e]| |]; [|done..]);
      by rewrite (finish_module _ _ _ _ _ E), Htake.
  - destruct (held w !! i) as [[| | | | | | |[n b [a|q|]]]|]; try done.
    destruct (clear_certified_retirement _ _ _ _) as [[r c] e]. by rewrite (finish_module _ _ _ _ _ E).
  - destruct (held w !! i) as [[| | | | | | |[n b [a|q|]]]|]; try done.
    destruct ((if final then _ else _) _ _ _) as [[r c] e]. by rewrite (finish_module _ _ _ _ _ E).
Qed.

Lemma recovery_op_entries o w w' :
  recovery_op o w = Done (Some w') -> entries_ok (module_ w) -> entries_ok (module_ w').
Proof.
  intros E H. destruct o; cbn [recovery_op] in E; try done.
  - destruct (set_host_intent _ _) as [? ?]. by rewrite (finish_module _ _ _ _ _ E).
  - destruct (clear_completed_removal _) as [[? ?]|]; [|done]. by rewrite (finish_module _ _ _ _ _ E).
  - unfold take_generation in E. destruct (take_current_bundle _) as [[[g|] c] e].
    + by simplify_eq.
    + destruct (take_opening_for_rollback _) as [[? ?] ?]. by rewrite (finish_module _ _ _ _ _ E).
  - destruct (take_opening_for_rollback _) as [[? ?] ?]. by rewrite (finish_module _ _ _ _ _ E).
  - destruct (quarantine_core _) as [? ?]. by rewrite (finish_module _ _ _ _ _ E).
  - destruct (take_module_cleanup _ _) as [[[[r c] m] e]| |] eqn:Ec; [|done..].
    rewrite (finish_module _ _ _ _ _ E). eapply kept_entries, H. by eapply take_module_cleanup_kept.
Qed.

Lemma call_entries o w w' :
  call_step o w = Done (Some w') -> entries_ok (module_ w) -> entries_ok (module_ w').
Proof.
  intros E H. unfold call_step in E.
  destruct o; try (by eapply token_op_entries); try (by eapply entry_op_entries);
    (destruct (committing w); [done|]); unfold locked_op in E;
    try (by eapply start_op_entries); (destruct (lock w); [|done..]);
    first [by eapply removal_op_entries|by eapply recovery_op_entries
          |by rewrite (open_op_module _ _ _ E)].
Qed.

Lemma entries_steps pw w w' : steps pw w w' -> entries_ok (module_ w) -> entries_ok (module_ w').
Proof.
  intros [[o| |k a] E] H; cbn [step] in E.
  - by eapply call_entries.
  - by apply commit_frame in E as (-> & _).
  - by apply reader_frame in E as (-> & _).
Qed.

Lemma reachable_entries pw n k w : reachable pw n k w -> entries_ok (module_ w).
Proof.
  intros Hr. assert (entries_ok (module_ (initial pw n k))) as H by by apply idle_entries.
  unfold reachable in Hr. revert H. induction Hr; eauto using entries_steps.
Qed.

End LifecycleEntries.
