(* ===== verification/LifecycleProgress.v ===== *)
(** * The lifecycle does not abort

    The source stops the process on a module token of another epoch, a claim
    that is not the guard's, a publication over active readers and an
    exhausted counter.  From the invariants of LifecycleSafety.v and
    LifecycleReaders.v every call of every reachable world returns, short of
    the counters ([within_limits]), except the one that reopens the callback
    gate over a permit that is still held. *)

From S2P Require Import Prelude Errors SealableCounter RotatingGates ModuleRuntime Lifecycle LifecycleMachine LifecycleTokens LifecycleShape LifecycleInvariant LifecycleClaims LifecycleSafety LifecycleReaders LifecycleEntries.
Import Errors SealableCounter.Counter RotatingGates ModuleRuntime.Epoch Lifecycle LifecycleMachine LifecycleTokens LifecycleShape LifecycleInvariant LifecycleClaims LifecycleSafety LifecycleReaders LifecycleEntries.

Module LifecycleProgress.

Definition returns {A} (o : outcome A) : Prop := exists x, o = Done x.

Lemma returns_done {A} (x : A) : returns (Done x).
Proof. by exists x. Qed.

Lemma returns_bind {A B} (o : outcome A) (f : A -> outcome B) :
  returns o -> (forall x, o = Done x -> returns (f x)) -> returns (obind o f).
Proof. intros [x ->] H. by apply H. Qed.

#[local] Hint Resolve returns_done : core.

(** The identities and counters that a step advances are not exhausted. *)
Record within_limits (pw : pointer_width) (w : world) : Prop := {
  limit_removal_attempt : (next_removal_attempt (core w) + 1 < 2 ^ 64)%Z;
  limit_removal_epoch : (removal_epoch (core w) + 1 < 2 ^ 64)%Z;
  limit_epoch : (Epoch.epoch (gate w) + 1 < 2 ^ 64)%Z;
  limit_readers : (Z.of_nat (length (readers w)) <= Spec.max_count pw)%Z;
}.

(** ** Tokens of the module *)
Lemma taken_kind w i r w1 k e :
  module_ok w -> take i w = Some (r, w1) -> TModule k e ∈ held_tokens r ->
  kind_ok (gate w) k e /\ module_ w1 = module_ w.
Proof.
  intros Hm Ht Hin. apply tokens_take in Ht as (Hp & Hm1 & _). split; [|done].
  apply (epochs_kind _ _ Hm). rewrite Hp. apply elem_of_app. by left.
Qed.

Lemma taken_guard w i g w1 :
  claims_ok w -> take i w = Some (HGuard g, w1) ->
  guard_ok (Epoch.epoch (gate w)) (cview (core w)) g /\ core w1 = core w /\ module_ w1 = module_ w.
Proof.
  intros Hc Ht. pose proof (take_core _ _ _ _ Ht) as [Hc1 Hm1]. split; [|done].
  apply guards_take in Ht. cbn in Ht. unfold claims_ok in Hc.
  eapply claim_inv_perm in Hc; [|symmetry; exact Ht]. by apply claim_inv_cons in Hc as [_ Hc].
Qed.

Lemma close_effects_returns id m :
  id = Epoch.epoch (ingress m) -> returns (begin_close_effects id m).
Proof. intros ->. unfold begin_close_effects. rewrite Z.eqb_refl. by eexists. Qed.

Lemma into_closing_returns a m k e :
  claimable_token a = TModule k e -> kind_ok (ingress m) k e -> returns (into_closing a m).
Proof.
  destruct a as [l|c]; cbn; intros [= <- <-]; [|by eauto]. intros [He _].
  unfold begin_close. apply returns_bind; [by apply close_effects_returns|eauto].
Qed.

Lemma drain_returns fault c m :
  Epoch.phase (ingress m) = PHASE_CLOSING -> returns (seal_and_drain fault c m).
Proof.
  intros Hp. unfold seal_and_drain, ingress_seal_and_drain. rewrite Hp. destruct fault; cbn; eauto.
Qed.

Lemma cleanup_finish_returns fault r m :
  (forall c, r = RClosing c -> Epoch.phase (ingress m) = PHASE_CLOSING) ->
  returns (cleanup_finish fault r m).
Proof.
  destruct r as [c|d]; cbn; [|eauto]. intros H. apply returns_bind; [by apply drain_returns, (H c)|].
  intros [[d|[x k]] m'] _; eauto.
Qed.

Lemma token_op_returns o w : module_ok w -> claims_ok w -> returns (token_op o w).
Proof.
  intros Hm Hc. destruct o; cbn [token_op]; unfold give; eauto;
    try (destruct (take i w) as [[r w1]|] eqn:Ht; [|by eauto]).
  - destruct r; eauto.
  - destruct (publish_open _); eauto.
  - destruct r; eauto.
  - destruct r as [| | |t| | | |]; eauto.
    destruct (taken_kind _ _ _ _ KOpen (opening_id t) Hm Ht ltac:(left)) as [[He _] Hm1].
    apply returns_bind; [|intros [? ?]; eauto]. unfold rollback. rewrite Hm1.
    apply returns_bind; [by apply close_effects_returns|eauto].
  - destruct r as [| | | |l| | |]; eauto.
    destruct (taken_kind _ _ _ _ KOpen (lease_id l) Hm Ht ltac:(left)) as [[He _] Hm1].
    apply returns_bind; [|intros [? ?]; eauto]. unfold begin_close. rewrite Hm1.
    apply returns_bind; [by apply close_effects_returns|eauto].
  - destruct r as [| | | | | | |[n b [[c|d|k]| |]]]; eauto.
    destruct (taken_kind _ _ _ _ KClosing (closing_id c) Hm Ht ltac:(left)) as [[_ He] Hm1].
    case_match; [eauto|]. apply returns_bind; [rewrite Hm1; by apply drain_returns|intros [? ?]; eauto].
  - destruct r as [| | | | | | |[n b [[c|d|k]| |]]]; eauto.
    destruct (taken_guard _ _ _ _ Hc Ht) as [[He _] [_ Hm1]].
    apply returns_bind; [|intros [? ?]; eauto]. unfold certify, is_current. rewrite Hm1. cbn in He.
    rewrite He, Z.eqb_refl. cbn. eauto.
  - destruct r as [| | | | | | |[n b s]]; eauto.
  - destruct r as [| | | | | |x|]; eauto. case_match; [eauto|].
    apply returns_bind; [|intros [? ?]; eauto].
    apply cleanup_finish_returns. intros c ->.
    destruct (taken_kind _ _ _ _ KClosing (closing_id c) Hm Ht ltac:(left)) as [[_ He] Hm1].
    by rewrite Hm1.
Qed.

(** ** Transitions *)
Lemma begin_open_returns m :
  entries_ok m -> Epoch.phase (ingress m) = PHASE_CLOSED ->
  (Epoch.epoch (ingress m) + 1 < 2 ^ 64)%Z -> active_callbacks m = 0%Z -> returns (begin_open m).
Proof.
  intros [_ Hc] Hp He Ha. unfold begin_open, callback_reset. cbn. rewrite Ha. cbn.
  unfold begin_opening, active_calls. cbn. rewrite (Hc Hp), Hp, bool_decide_true by done. cbn.
  rewrite Identity.checked_next_some by done. by eexists.
Qed.

Lemma entry_op_returns o w : entries_ok (module_ w) -> returns (entry_op o w).
Proof.
  intros H. destruct o; cbn [entry_op]; eauto.
  apply returns_bind; [by apply drop_guard_returns|eauto].
Qed.

Lemma start_op_returns pw o w :
  lifecycle_ok w -> entries_ok (module_ w) -> within_limits pw w ->
  (o = OStartModule -> starting w -> active_callbacks (module_ w) = 0%Z) -> returns (start_op o w).
Proof.
  intros H He Hl Ha. unfold start_op, finish.
  destruct o; eauto; destruct (lock w) eqn:Hlock; eauto.
  - destruct (begin_opening_if_closed _ _) as [[[] ?] ?]; eauto.
  - apply returns_bind; [|unfold give; intros [? ?]; eauto].
    assert (starting w) as Hs by by eexists.
    apply begin_open_returns; [done| |apply Hl|by apply Ha]. apply (ok_closed _ H). by right.
  - destruct (record_open_failure _) as [[? ?] ?]; eauto.
  - destruct (quarantine_core _) as [? ?]; eauto.
Qed.

Lemma open_op_returns o w : returns (open_op o w).
Proof.
  unfold open_op, finish. destruct o; eauto; repeat case_match; eauto.
Qed.

(** The authority an available state would close. *)
Lemma available_kind w a :
  module_ok w -> claimable_token (available_authority a) ∈ state_tokens (state (core w)) ->
  returns (into_closing (available_authority a) (module_ w)).
Proof.
  intros Hm Hin. destruct (claimable_token _) as [| |k e] eqn:Ht; [by destruct (available_authority a)..|].
  eapply into_closing_returns; [exact Ht|]. apply (epochs_kind _ _ Hm).
  unfold tokens. apply elem_of_app. by left.
Qed.

Lemma claim_returns pw w :
  module_ok w -> within_limits pw w -> returns (claim_removal (module_ w) (core w)).
Proof.
  intros Hm Hl. unfold claim_removal. rewrite Identity.checked_next_some by apply Hl.
  destruct (state (core w)) as [| | |[|[| |a| |]]|[| |a| |]|] eqn:Hs; eauto.
  all: apply returns_bind; [|intros [[? ?] ?]; eauto]; apply returns_bind; [|intros [? ?]; eauto];
    apply available_kind; [done|]; rewrite Hs; left.
Qed.

Lemma return_returns n a c :
  cview c = ClaimOf (Outstanding (OutstandingClaim n (authority_id a))) ->
  returns (return_removal_authority n a c).
Proof.
  destruct c as [s ? ? ? ? ?]. unfold return_removal_authority, return_to. cbn.
  destruct s as [[]| | |[|[| | |[p x]|]]|[| | |[p x]|]|[| | |[p x]|]]; cbn; try done; intros [= ->]; cbn;
    unfold validate_removal_owner, return_authority; cbn; rewrite !Z.eqb_refl; cbn; eauto.
Qed.

Lemma release_returns n b c : view_attempt (cview c) = Some n -> returns (release_removal_claim n b c).
Proof.
  destruct c as [s ? ? ? ? ?]. unfold release_removal_claim. cbn.
  destruct s as [[|m q]| | |[|[| | |[p x]|]]|[| | |[p x]|]|[| | |[p x]|]]; cbn; try done; intros [= Hx];
    unfold CloseResources.release_claimed, validate_removal_owner; cbn; rewrite Hx, Z.eqb_refl; cbn; eauto.
  destruct (b || q); cbn; eauto.
Qed.

Lemma removal_op_returns pw o w : lifecycle_ok w -> within_limits pw w -> returns (removal_op o w).
Proof.
  intros H Hl. pose proof (ok_module _ H) as Hm. pose proof (ok_claims _ H) as Hc.
  destruct o; cbn [removal_op]; unfold finish; eauto;
    try (destruct (take i w) as [[r w1]|] eqn:Ht; [|by eauto]).
  - unfold advance_removal_epoch, checked_add. rewrite (proj2 (Z.ltb_lt _ _) (limit_removal_epoch _ _ Hl)).
    cbn. eauto.
  - destruct (final_close_decision _) as [[? ?] ?]; eauto.
  - destruct (state (core w)) eqn:Hs; eauto.
    apply returns_bind; [by eapply claim_returns|intros [[[? ?] ?] ?]; eauto].
  - apply returns_bind; [|intros [[[? ?] ?] ?]; eauto]. unfold rollback_decision.
    destruct (state (core w)) as [[]| | | | |] eqn:Hs; eauto.
    apply returns_bind; [by eapply claim_returns|intros [[[? ?] ?] ?]; eauto].
  - destruct r as [| | | | | | |[n b s]]; eauto.
  - destruct r as [| | | | | | |[n b [a| |]]]; eauto.
    destruct (taken_guard _ _ _ _ Hc Ht) as [[He Hv] [Hc1 _]]. cbn in *.
    apply returns_bind; [|intros [? ?]; eauto]. apply return_returns. by rewrite Hc1, He.
  - destruct r as [| | | | | | |[n b [a|q|]]]; eauto;
      destruct (taken_guard _ _ _ _ Hc Ht) as [Hg [Hc1 _]]; unfold guard_ok in Hg; cbn in Hg;
      (apply returns_bind; [|intros [? ?]; eauto]); apply release_returns; rewrite Hc1.
    + by destruct Hg as [_ [-> | ->]].
    + destruct Hg as (x & -> & Hx). cbn. by rewrite Hx.
  - destruct (held w !! i) as [[| | | | | | |[n b [a|q|]]]|]; eauto.
    destruct (clear_certified_retirement _ _ _ _) as [[? ?] ?]; eauto.
  - destruct (held w !! i) as [[| | | | | | |[n b [a|q|]]]|]; eauto.
    destruct ((if final then _ else _) _ _ _) as [[? ?] ?]; eauto.
Qed.

Lemma take_cleanup_returns r w :
  module_ok w -> resource_tokens r = state_tokens (state (core w)) ->
  returns (CloseResources.take_cleanup r (module_ w)).
Proof.
  intros Hm Hr. unfold CloseResources.take_cleanup.
  destruct r as [| |[p a]|[p [c|[n a]]]|[p [d|k]]]; eauto.
  - apply returns_bind; [|intros [? ?]; eauto].
    apply (available_kind w (AvailClose p a)); [done|]. rewrite <- Hr. left.
  - destruct (into_cleanup a); eauto.
Qed.

Lemma recovery_op_returns o w : module_ok w -> returns (recovery_op o w).
Proof.
  intros Hm. destruct o; cbn [recovery_op]; unfold finish; eauto.
  - destruct (set_host_intent _ _) as [? ?]; eauto.
  - destruct (clear_completed_removal _) as [[? ?]|]; eauto.
  - unfold take_generation, finish. destruct (take_current_bundle _) as [[[] ?] ?]; eauto.
    destruct (take_opening_for_rollback _) as [[? ?] ?]; eauto.
  - destruct (take_opening_for_rollback _) as [[? ?] ?]; eauto.
  - destruct (quarantine_core _) as [? ?]; eauto.
  - apply returns_bind; [|intros [[[? ?] ?] ?]; eauto]. unfold take_module_cleanup.
    apply returns_bind; [|intros [[? ?] ?] _; eauto].
    destruct (state (core w)) as [[|n []]| | |[n [] x|x]|x|x] eqn:Hs; eauto;
      (apply returns_bind; [|intros [[? ?] ?] _; eauto]); cbn [ClosingState.take_cleanup];
      try (apply returns_bind; [|intros [[? ?] ?] _; eauto]);
      first [by eauto|apply take_cleanup_returns; [done|by rewrite Hs]].
Qed.

Lemma call_returns pw o w :
  lifecycle_ok w -> entries_ok (module_ w) -> within_limits pw w ->
  (o = OStartModule -> starting w -> active_callbacks (module_ w) = 0%Z) -> returns (call_step o w).
Proof.
  intros H He Hl Ha. unfold call_step.
  assert (Ho : returns (locked_op o w)).
  { unfold locked_op.
    destruct o; try (by eapply start_op_returns); destruct (lock w); eauto using open_op_returns;
      first [by eapply removal_op_returns|by apply recovery_op_returns, H]. }
  destruct o; try (by apply token_op_returns; apply H); try (by apply entry_op_returns);
    destruct (committing w); eauto.
Qed.


(** ** The commit and the readers *)
Section Reading.
Context (pw : pointer_width) (w : world) (H : readers_ok pw w).

Lemma forbidden_count i : ~ allowed w i -> count_at pw w i = 0%Z.
Proof using H.
  intros Ha. apply no_permit_count_zero; [apply H|]. intros k r Hk Hp.
  by destruct (ok_readers _ _ H _ _ Hk _ Hp).
Qed.

Lemma stripe_wf i c : stripes w !! i = Some c -> wf pw c.
Proof using H. apply (counts_wf _ _ (ok_counts _ _ H)). Qed.

Lemma scan_returns i idle x f j : returns (scan pw i idle x f j w).
Proof using. unfold scan, next. destruct (mark_waiting pw x). eauto. Qed.

Lemma clear_returns j : returns (clear_step pw j w).
Proof using.
  unfold clear_step, next. destruct (at_ j); eauto; repeat case_match; eauto using scan_returns.
Qed.

Lemma publish_returns c g : committing w = Some (Job c g) -> returns (publish_step pw (Job c g) w).
Proof using H.
  intros Hj. pose proof (ok_view _ _ H) as Hv. unfold view_ok in Hv. rewrite Hj in Hv.
  pose proof forbidden_count as Hz. unfold allowed in Hz. rewrite Hj in Hz.
  destruct c as [i| |i p|p|i p|i idle p|p|i|i| |i idle]; cbn [publish_step at_ pending_root]; unfold next;
    eauto; try (destruct (stripes w !! i) as [x|] eqn:Hx; [|by eauto]; pose proof (stripe_wf _ _ Hx) as Hwf).
  - rewrite active_cnt by done. rewrite <- (count_lookup _ _ _ _ Hx), Hz by tauto. cbn. eauto.
  - destruct Hv as (_ & -> & _). eauto.
  - destruct Hv as (_ & _ & Hs & _). rewrite <- (sealed_lookup _ _ _ _ Hx), Hs. eauto.
  - apply scan_returns.
  - destruct Hv as (_ & _ & Hs & _). rewrite <- (sealed_lookup _ _ _ _ Hx), Hs.
    rewrite active_cnt by done. rewrite <- (count_lookup _ _ _ _ Hx), Hz by tauto. cbn. eauto.
  - destruct Hv as (_ & _ & _ & Hs). pose proof (lookup_lt_Some _ _ _ Hx) as Hlt.
    pose proof (reopen_becomes pw x Hwf) as Hr.
    rewrite <- (sealed_lookup _ _ _ _ Hx), <- (count_lookup _ _ _ _ Hx), (Hs i Hlt) in Hr.
    rewrite bool_decide_false in Hr by lia. rewrite Hz in Hr by lia. cbn in Hr.
    destruct Hr as (x' & -> & _). cbn. eauto.
Qed.

Lemma commit_returns : returns (commit_step pw w).
Proof using H.
  unfold commit_step. destruct (committing w) as [[c g]|] eqn:Hj; [|by eauto].
  destruct c; cbn [at_]; first [apply clear_returns|by apply publish_returns].
Qed.

(** A reader's stripe is there, and counts its permit. *)
Lemma held_stripe k r i :
  readers w !! k = Some r -> permit r = Some i ->
  exists c, stripes w !! i = Some c /\ wf pw c /\ (0 < cnt pw c)%Z.
Proof using H.
  intros Hk Hp. pose proof (counts_range _ _ (ok_counts _ _ H) _ _ _ Hk Hp) as Hi.
  destruct (lookup_lt_is_Some_2 _ _ Hi) as [c Hc]. exists c. split; [done|]. split; [by eapply stripe_wf|].
  rewrite <- (count_lookup _ _ _ _ Hc), (counts_eq _ _ (ok_counts _ _ H) _ Hi).
  pose proof (sum_list_with_ge (has_permit i) _ _ _ Hk) as Hge. rewrite has_permit_one in Hge by done.
  unfold permits. lia.
Qed.

(** An idle reader leaves room for one more permit. *)
Lemma room k i c :
  readers w !! k = Some RIdle -> stripes w !! i = Some c ->
  (Z.of_nat (length (readers w)) <= Spec.max_count pw)%Z -> (cnt pw c < Spec.max_count pw)%Z.
Proof using H.
  intros Hk Hc Hl. pose proof (lookup_lt_Some _ _ _ Hc) as Hi.
  rewrite <- (count_lookup _ _ _ _ Hc), (counts_eq _ _ (ok_counts _ _ H) _ Hi). unfold permits.
  pose proof (sum_list_with_insert (has_permit i) (readers w) k RIdle (RLoad i) Hk) as Hs.
  rewrite has_permit_idle, has_permit_one in Hs by done.
  pose proof (sum_list_with_le_length (has_permit i) (<[k := RLoad i]> (readers w))) as Hle.
  rewrite length_insert in Hle. lapply Hle; [lia|]. intros r. unfold has_permit. case_decide; lia.
Qed.

Lemma release_stripe_returns k r i :
  readers w !! k = Some r -> permit r = Some i -> returns (release_stripe pw k i w).
Proof using H.
  intros Hk Hp. destruct (held_stripe _ _ _ Hk Hp) as (c & Hc & Hwf & Hpos).
  unfold release_stripe. rewrite Hc. apply returns_bind; [|intros [? ?]; eauto].
  destruct (fast_release_done pw c Hwf Hpos) as [x ->]. eauto.
Qed.

Lemma enter_stripe_returns k i r :
  readers w !! k = Some RIdle -> i < length (stripes w) ->
  (Z.of_nat (length (readers w)) <= Spec.max_count pw)%Z -> returns (enter_stripe pw k i r w).
Proof using H.
  intros Hk Hi Hl. destruct (lookup_lt_is_Some_2 _ _ Hi) as [c Hc].
  unfold enter_stripe. rewrite Hc. apply returns_bind; [|intros [? ?]; eauto].
  destruct (try_acquire_done pw c) as [x ->]; [by eapply stripe_wf|by eapply room|eauto].
Qed.

Lemma reader_returns k a :
  in_range (Read k a) w -> (Z.of_nat (length (readers w)) <= Spec.max_count pw)%Z ->
  returns (reader_step pw k a w).
Proof using H.
  intros Hr Hl. unfold reader_step. destruct (readers w !! k) as [r|] eqn:Hk; [|by eauto].
  destruct r as [|i|i|i p|i rt|i]; destruct a as [j| |by_reader j]; eauto.
  - by apply enter_stripe_returns.
  - destruct (readers w !! by_reader) as [[]|]; eauto. by apply enter_stripe_returns.
  - by eapply release_stripe_returns.
  - by eapply release_stripe_returns.
  - by eapply release_stripe_returns.
  - destruct (held_stripe _ _ i Hk eq_refl) as (c & -> & Hwf & Hpos).
    apply returns_bind; [|intros [? ?]; eauto].
    destruct (release_done pw c Hwf Hpos) as [x ->]. eauto.
Qed.
End Reading.

End LifecycleProgress.
