(* ===== verification/LifecycleTheorems.v ===== *)
(** * Theorems about the lifecycle

    What the invariants of the lifecycle promise to the runtime: readers are
    safe, the projections follow the state, authorities and claims are unique,
    quarantine is final, attempts are never reused, nothing aborts. *)

From S2P Require Import Prelude Errors SealableCounter RotatingGates ModuleRuntime Lifecycle LifecycleMachine LifecycleTokens LifecycleShape LifecycleInvariant LifecycleClaims LifecycleSafety LifecycleReaders LifecycleEntries LifecycleProgress.
Import Errors SealableCounter.Counter ModuleRuntime.Epoch Lifecycle LifecycleMachine LifecycleTokens LifecycleShape LifecycleInvariant LifecycleClaims LifecycleSafety LifecycleReaders LifecycleEntries LifecycleProgress.

Module LifecycleTheorems.

(** ** Quarantine *)

(** Quarantined, or due to be when the open attempt or the finalization ends. *)
Definition doomed (s : LifecycleState) : Prop :=
  match s with
  | Quarantined _ | Lifecycle.Closing (ClosingState.OpeningActive _ true _)
  | Closed (Finalizing _ true) => True
  | _ => False
  end.

Lemma restore_doomed s r r' d : install_target s = Some (r, d) -> doomed s -> doomed (destination_restore d r').
Proof. destruct s as [[]|? []| |[? [] []|]| |]; cbn; try done; by intros [= <- <-]. Qed.

Lemma take_opening_doomed s o s' : take_opening s = (o, s') -> doomed s -> doomed s'.
Proof. intros E Hd. cases s E. Qed.

Lemma transition_doomed c c' e : transition c c' e -> doomed (state c) -> doomed (state c').
Proof.
  intros [-> ->|i [= -> ->]|E|x r E|n v r E|a b n s l r E|n r E|r E|a r E|r E|m r m' E|n a E|n b E
         |f m a r E|b d m a r E|o E|E|m r m' E] Hd; try done.
  - unfold advance_removal_epoch in E. destruct (checked_add _ _ _); [|done]. by simplify_eq/=.
  - unfold begin_opening_if_closed in E. cases c E.
  - unfold stage_opening_generation in E. cases c E.
  - unfold publish_opening_generation in E. destruct (take_opening (state c)) as [o s'] eqn:Ht.
    apply take_opening_doomed in Ht; [|done].
    destruct (state_has_current_generation _); [by simplify_eq/=|].
    destruct (state c); try done; by simplify_eq/=.
  - unfold commit_open in E. cases c E.
  - unfold record_open_failure in E. cases c E.
  - unfold install_returned_authority in E. destruct (install_target _) as [[x d]|] eqn:Ht; [|by simplify_eq].
    destruct (vacant_acquire _ _); simplify_eq/=; by eapply restore_doomed.
  - unfold request_closing in E. cases c E.
  - destruct c as [s ? ? ? ? ?]. unfold claim_removal in E. cases s E.
  - unfold return_removal_authority in E. destruct c as [s ? ? ? ? ?].
    destruct s as [| | |[]| |]; try done; cbn in *; destruct (return_to _ _ _); by simplify_eq/=.
  - unfold release_removal_claim in E. destruct c as [s ? ? ? ? ?].
    destruct s as [[|k []]| | |[]| |]; try done; cbn in *.
    + destruct (negb _); [done|]. rewrite orb_true_r in E. by simplify_eq/=.
    + destruct (CloseResources.release _ _); by simplify_eq/=.
  - unfold clear_certified_retirement in E. cases c E.
  - unfold finish_closed, finish_claim in E. cases c E.
  - unfold take_opening_for_rollback in E. destruct (take_opening _) as [x s] eqn:Ht. simplify_eq/=.
    by apply take_opening_doomed in Ht.
  - unfold quarantine_core in E. cases c E.
  - destruct c as [s ? ? ? ? ?]. unfold take_module_cleanup in E.
    cbn in *. destruct s as [[|k []]| | |[k [] x|x]|x|x]; simplify_eq/=; try done;
      destruct (CloseResources.take_cleanup x m) as [[[sel1 r1] m2]| |]; by simplify_eq/=.
Qed.

Lemma bundle_doomed c g c' e :
  take_current_bundle c = (g, c', e) -> doomed (state c) -> doomed (state c').
Proof. unfold take_current_bundle. intros E Hd. cases c E. Qed.

Lemma doomed_rtc pw w w' :
  rtc (steps pw) w w' -> doomed (state (core w)) -> doomed (state (core w')).
Proof.
  induction 1 as [|w w1 w2 [a E] _ IH]; [done|]. intros Hd. apply IH.
  apply step_core in E as [[-> _]|(_ & [[[e Ht] _]|[(g & e & Ht) _]])]; [done| |].
  - by eapply transition_doomed.
  - by eapply bundle_doomed.
Qed.

Lemma quarantine_dooms c : doomed (state (quarantine_core c).1).
Proof. unfold quarantine_core. destruct c as [[[|? ?]|? []| |[]| |] ? ? ? ? ?]; done. Qed.

(** ** Attempts *)

(** Attempt [n] is opening or open. *)
Definition live (n : Z) (s : LifecycleState) : Prop :=
  match s with
  | Lifecycle.Opening k _ => k = n
  | Open b => generation_id (content (Lifecycle.generation b)) = n
  | _ => False
  end.

Lemma restore_not_live n d r : ~ live n (destination_restore d r).
Proof. destruct d; cbn; tauto. Qed.

Lemma take_opening_live n s o s' : take_opening s = (o, s') -> live n s' -> live n s.
Proof. intros E Hd. cases s E. Qed.

Ltac stays := split; [done|by auto].

(** A transition makes only the next attempt live. *)
Lemma transition_live n c c' e :
  transition c c' e -> (next_lifecycle_attempt c <= next_lifecycle_attempt c')%Z
  /\ (live n (state c') -> live n (state c) \/ n = next_lifecycle_attempt c).
Proof.
  intros [-> ->|i [= -> ->]|E|x r E|k v r E|a b k s l r E|k r E|r E|a r E|r E|m r m' E|k a E|k b E
         |f m a r E|b d m a r E|o E|E|m r m' E]; try stays.
  - unfold advance_removal_epoch in E. destruct (checked_add _ _ _); [|done]. simplify_eq/=. stays.
  - unfold begin_opening_if_closed in E. destruct c as [s ? next ? ? ?]. cbn in *.
    destruct s as [[]| | | | |]; simplify_eq/=; try stays.
    destruct (negb _); [simplify_eq/=; stays|]. unfold checked_add in E.
    destruct (Z.ltb_spec (next + 1) (2 ^ 64)); [|simplify_eq/=; stays].
    unfold Identity.OpenAttemptId_new in E. destruct (_ =? 0)%Z; simplify_eq/=; try stays.
    split; [lia|auto].
  - unfold stage_opening_generation in E. cases c E; try stays.
  - unfold publish_opening_generation in E. destruct c as [st ? ? ? ? ?]. cbn [state] in *.
    destruct (take_opening st) as [o s'] eqn:Ht. pose proof (take_opening_live n _ _ _ Ht) as Hl.
    destruct (state_has_current_generation _); [simplify_eq/=; stays|].
    destruct st; destruct o; simplify_eq/=; stays.
  - unfold commit_open, Identity.into_runtime_generation in E. destruct c as [s ? ? ? ? ?].
    cbn [state] in *. destruct s as [|k' [| |bu]| | | |]; simplify_eq/=; try stays.
    destruct (Z.eqb_spec k' k), (Z.eqb_spec (generation_id (content (Lifecycle.generation bu))) k);
      cbn [negb orb] in E; simplify_eq/=; stays.
  - unfold record_open_failure in E. cases c E; try stays.
  - unfold install_returned_authority in E. destruct (install_target _) as [[x d]|] eqn:Ht; [|by simplify_eq; try stays].
    destruct (vacant_acquire _ _); simplify_eq/=; (split; [done|]); by intros ?%restore_not_live.
  - unfold request_closing in E. cases c E; try stays.
  - destruct c as [s ? ? ? ? ?]. unfold claim_removal in E. cases s E; try stays.
  - unfold return_removal_authority in E. destruct c as [s ? ? ? ? ?].
    destruct s as [| | |[]| |]; try done; cbn in *; destruct (return_to _ _ _); by simplify_eq/=.
  - unfold release_removal_claim in E. destruct c as [s ? ? ? ? ?].
    destruct s as [[|k' q]| | |[]| |]; try done; cbn in *; try destruct (negb _);
      try destruct (_ || _); try destruct (CloseResources.release _ _); simplify_eq/=; try stays;
      destruct b; stays.
  - unfold clear_certified_retirement in E. cases c E; try stays.
  - unfold finish_closed, finish_claim in E. cases c E; try stays.
  - unfold take_opening_for_rollback in E. destruct (take_opening _) as [x s] eqn:Ht. simplify_eq/=.
    split; [done|]. left. by eapply take_opening_live.
  - unfold quarantine_core in E. cases c E; try stays.
  - destruct c as [s ? ? ? ? ?]. unfold take_module_cleanup in E.
    cbn in *. destruct s as [[|k' []]| | |[k' [] x|x]|x|x]; simplify_eq/=; try stays;
      destruct (CloseResources.take_cleanup x m) as [[[sel1 r1] m2]| |]; by simplify_eq/=.
Qed.

Lemma bundle_live n c g c' e :
  take_current_bundle c = (Some g, c', e) ->
  next_lifecycle_attempt c' = next_lifecycle_attempt c /\ ~ live n (state c').
Proof. unfold take_current_bundle. intros E. cases c E; tauto. Qed.


(** ** Schedules *)
Lemma schedule_rtc pw moves w w' :
  schedule pw moves w = Done (Some w') -> rtc (steps pw) w w'.
Proof.
  revert w. induction moves as [|a moves IH]; cbn; intros w E; [by simplify_eq|].
  destruct (step pw a w) as [[w1|]| |] eqn:Hs; simplify_eq/=.
  eapply rtc_l; [by exists a|by apply IH].
Qed.

(** The world a schedule from the start leads to. *)
Definition after (stripe_count reader_count : nat) (moves : list action) : world :=
  match schedule W64 moves (initial W64 stripe_count reader_count) with
  | Done (Some w) => w
  | _ => initial W64 stripe_count reader_count
  end.

Lemma after_moves_reachable n k moves : reachable W64 n k (after n k moves).
Proof.
  unfold after. destruct (schedule _ _ _) as [[w|]| |] eqn:E; [|apply rtc_refl..].
  by eapply schedule_rtc.
Qed.

(** Opens generation 1 over one stripe, without its last accesses. *)
Definition open_moves : list action :=
  [Call (OBegin 0); Commit; Call OStartModule; Call (ONewOpening (OpeningGen 1 2 3));
   Call (OStage 1 0); Commit; Call OIngressOpen; Call (OModuleCommit 0); Call (ONewServices 7);
   Call (OPublish 100 200 1 0 0); Commit; Call (OCommitOpen 1)].

(** Publishes it, admits a reader, and takes the generation back. *)
Definition closing_moves : list action :=
  open_moves ++ replicate 13 Commit ++ [Read 0 (Enter 0); Read 0 Continue; Call OTakeGeneration].

(** ** The theorems *)

(** C2: while a reader is admitted, or executes under its lease, the
    generation it reached is still owned by the canonical state or by the
    take that waits for the readers, and so are the services and the
    publication: no lease outlives the generation it points at. *)
Theorem admitted_generation_outlives_its_leases pw n k w i r :
  reachable pw n k w -> readers w !! i = Some r ->
  match r with
  | RAdmitted _ p =>
      exists g s, (current (state (core w)) = Some (g, s, p)
                   \/ retiring (state (core w)) = Some (s, p)
                      /\ exists c, committing w = Some (Job c (Some g)))
        /\ root (content p) = address g /\ root_services (content p) = s
  | RExecuting _ a =>
      exists g s p, (current (state (core w)) = Some (g, s, p)
                     \/ retiring (state (core w)) = Some (s, p)
                        /\ exists c, committing w = Some (Job c (Some g)))
        /\ a = address g
  | _ => True
  end.
Proof.
  intros Hr Hi. pose proof (reachable_readers _ _ _ _ Hr) as H.
  assert (Hu : forall b, used w = Some b ->
    current (state (core w)) = Some b
    \/ retiring (state (core w)) = Some (bundle_services b, bundle_publication b)
       /\ exists c, committing w = Some (Job c (Some (bundle_root b)))).
  { intros b Hb. unfold used in Hb. destruct (committing w) as [[c [g|]]|] eqn:Hj.
    - right. destruct (retiring _) as [[s p]|]; [|done]. injection Hb as <-. by split; [|exists c].
    - left. by destruct (state (core w)).
    - left. by destruct (state (core w)). }
  destruct r as [|j|j|j p|j a|j]; try done;
    destruct (ok_readers _ _ H _ _ Hi j eq_refl) as (_ & [[g s] q] & Hb & Hx); cbn in Hx; subst.
  - exists g, s. pose proof (used_bundle _ _ (ok_bundles _ _ H) Hb) as [? ?]. split; [by apply (Hu (g, s, q))|done].
  - exists g, s, q. split; [by apply (Hu (g, s, q))|done].
Qed.

Lemma admitted_generation_outlives_its_leases_witness :
  let w := after 1 1 closing_moves in
  readers w !! 0 = Some (RAdmitted 0 (Own 200 (Publication 100 7)))
  /\ exists g s, (current (state (core w)) = Some (g, s, Own 200 (Publication 100 7))
                  \/ retiring (state (core w)) = Some (s, Own 200 (Publication 100 7))
                     /\ exists c, committing w = Some (Job c (Some g)))
       /\ 100 = address g /\ 7 = s.
Proof.
  intros w. assert (H : readers w !! 0 = Some (RAdmitted 0 (Own 200 (Publication 100 7)))).
  { vm_compute. reflexivity. }
  split; [exact H|].
  exact (admitted_generation_outlives_its_leases W64 1 1 w 0 _ (after_moves_reachable _ _ _) H).
Defined.


(** C17: whenever no transition is being committed, the read side is a
    function of the canonical state: the phase word is its phase, the
    published pointer is the publication of the open generation and nothing
    otherwise, and every stripe of the publication gate admits readers
    exactly while a generation is open. *)
Theorem projections_follow_the_state pw n k w :
  reachable pw n k w -> committing w = None ->
  from_raw (phase_code (phase_word w)) = Done (phase (state (core w)))
  /\ published w = match state (core w) with Open b => Some (publication b) | _ => None end
  /\ forall i c, stripes w !! i = Some c ->
       is_sealed pw c = negb (bool_decide (phase (state (core w)) = POpen)).
Proof.
  intros Hr Hn. pose proof (ok_view _ _ (reachable_readers _ _ _ _ Hr)) as Hv.
  unfold view_ok in Hv. rewrite Hn in Hv. destruct Hv as (-> & Hp & Hs). split_and!.
  - by destruct (state (core w)).
  - rewrite Hp. by destruct (state (core w)).
  - intros i c Hi. rewrite <- (sealed_lookup _ _ _ _ Hi), (Hs i); [|by eapply lookup_lt_Some].
    by destruct (state (core w)).
Qed.

Lemma projections_follow_the_state_witness :
  let w := after 1 1 (open_moves ++ replicate 13 Commit) in
  committing w = None
  /\ (from_raw (phase_code (phase_word w)) = Done (phase (state (core w)))
      /\ published w = match state (core w) with Open b => Some (publication b) | _ => None end
      /\ forall i c, stripes w !! i = Some c ->
           is_sealed W64 c = negb (bool_decide (phase (state (core w)) = POpen))).
Proof.
  intros w. assert (H : committing w = None) by (vm_compute; reflexivity).
  split; [exact H|]. exact (projections_follow_the_state W64 1 1 w (after_moves_reachable _ _ _) H).
Defined.

(** C3: in every reachable world each epoch of the module has at most one
    authority, wherever it is: in the canonical state, in a guard or with a
    caller; an authority to open or to lease belongs to the current epoch of
    an open ingress, one to close to the current epoch of a closing ingress,
    and one of a drained epoch to a closed ingress or to an older epoch. *)
Theorem module_epoch_has_one_authority pw n k w :
  reachable pw n k w ->
  NoDup (module_epochs (tokens w))
  /\ forall x e, TModule x e ∈ tokens w ->
       let i := ingress (module_ w) in
       match x with
       | KOpen => e = Epoch.epoch i /\ (Epoch.phase i = PHASE_OPENING \/ Epoch.phase i = PHASE_OPEN)
       | KClosing => e = Epoch.epoch i /\ Epoch.phase i = PHASE_CLOSING
       | KDrained => (e <= Epoch.epoch i)%Z /\ (e = Epoch.epoch i -> Epoch.phase i = PHASE_CLOSED)
       end.
Proof.
  intros Hr. destruct (ok_module _ (reachable_ok _ _ _ _ Hr)) as [Hn Hk].
  split; [exact Hn|]. intros x e Hin. exact (Hk x e Hin).
Qed.

Lemma module_epoch_has_one_authority_witness :
  let w := after 1 1 closing_moves in
  tokens w = [TModule KOpen 1; TServices 7; TState 1 2] /\ NoDup (module_epochs (tokens w)).
Proof.
  intros w. split; [vm_compute; reflexivity|].
  refine (proj1 (module_epoch_has_one_authority W64 1 1 w (after_moves_reachable _ _ _))).
Defined.

(** C25: at most one removal guard exists; it has the attempt of the claim in
    the canonical state, and while it owns the module's authority, or the
    certificate made from it, that authority is of the current epoch, which
    is the epoch the claim waits for. *)
Theorem removal_claim_has_one_guard pw n k w :
  reachable pw n k w ->
  match guards (held w) with
  | [] => state_removal_attempt (state (core w)) = None
  | [g] =>
      state_removal_attempt (state (core w)) = Some (guard_attempt g)
      /\ match stage g with
         | Owns a =>
             authority_id a = Epoch.epoch (ingress (module_ w))
             /\ state_module_epoch_id (state (core w)) = Some (authority_id a)
         | Certified q => quiescent_id q = Epoch.epoch (ingress (module_ w))
         | Spent => True
         end
  | _ => False
  end.
Proof.
  intros Hr. pose proof (ok_claims _ (reachable_ok _ _ _ _ Hr)) as H. unfold claims_ok in H.
  rewrite claim_of_attempt. destruct (guards (held w)) as [|g [|]]; cbn in *; [by rewrite H| |done].
  unfold guard_ok in H. destruct (stage g) as [a|q|].
  - destruct H as [He Hv]. rewrite Hv. split; [done|]. split; [done|]. rewrite He.
    destruct (state (core w)) as [[]| | |[|[| | |[]|]]|[| | |[]|]|[| | |[]|]]; simplify_eq/=; congruence.
  - destruct H as [He [-> | ->]]; done.
  - destruct H as (c & -> & Hc). by rewrite <- Hc.
Qed.

(** Closes generation 1 and claims its removal. *)
Definition claim_moves : list action :=
  open_moves ++ replicate 13 Commit ++ [Call OClose; Commit; Commit; Commit; Commit; Call OClaim; Commit].

Lemma removal_claim_has_one_guard_witness :
  let w := after 1 1 claim_moves in
  guards (held w) = [Guard 1 false (Owns (AClosing (Epoch.Closing 1)))]
  /\ match guards (held w) with
     | [] => state_removal_attempt (state (core w)) = None
     | [g] =>
         state_removal_attempt (state (core w)) = Some (guard_attempt g)
         /\ match stage g with
            | Owns a =>
                authority_id a = Epoch.epoch (ingress (module_ w))
                /\ state_module_epoch_id (state (core w)) = Some (authority_id a)
            | Certified q => quiescent_id q = Epoch.epoch (ingress (module_ w))
            | Spent => True
            end
     | _ => False
     end.
Proof.
  intros w. split; [vm_compute; reflexivity|].
  exact (removal_claim_has_one_guard W64 1 1 w (after_moves_reachable _ _ _)).
Defined.

(** C26: no step of the lifecycle aborts or panics, with one exception.  In
    every reachable world, whatever export calls and callbacks are in progress,
    each call, each access of a commit and each access of a reader that names
    an existing stripe returns, as long as the 64-bit identities it advances
    are not exhausted and there are no more readers than a stripe can count.
    In particular the ingress is never opened over a live export guard, and no
    guard is dropped in another epoch than its own.  The exception is a start
    of the module while a callback of an earlier epoch still holds its permit:
    closing the callback gate does not wait for permits, and the gate stops
    the process rather than reopen over one. *)
Theorem lifecycle_never_aborts pw n k w a :
  reachable pw n k w -> in_range a w ->
  (next_removal_attempt (core w) + 1 < 2 ^ 64)%Z -> (removal_epoch (core w) + 1 < 2 ^ 64)%Z ->
  (Epoch.epoch (ingress (module_ w)) + 1 < 2 ^ 64)%Z ->
  (Z.of_nat (length (readers w)) <= Spec.max_count pw)%Z ->
  (exists o, step pw a w = Done o)
  \/ a = Call OStartModule /\ starting w /\ active_callbacks (module_ w) <> 0%Z
     /\ step pw a w = Aborted.
Proof.
  intros Hr Ha H1 H2 H3 H4. pose proof (reachable_ok _ _ _ _ Hr) as H.
  pose proof (reachable_readers _ _ _ _ Hr) as Hrd. pose proof (reachable_entries _ _ _ _ Hr) as He.
  destruct a as [o| |i a]; cbn [step].
  - destruct (decide (active_callbacks (module_ w) = 0%Z)) as [Hz|Hz].
    { left. by apply (call_returns pw). }
    assert (o = OStartModule \/ o <> OStartModule) as [->|Ho] by (destruct o; auto).
    + unfold call_step, locked_op, start_op.
      destruct (committing w); [left; by eexists|]. destruct (lock w) as [|m|] eqn:Hl;
        [left; by eexists| |left; by eexists].
      right. split_and!; [done|by exists m|done|]. unfold begin_open, callback_reset. cbn.
      by rewrite (proj2 (Z.eqb_neq _ _) Hz).
    + left. by apply (call_returns pw).
  - left. by apply commit_returns.
  - left. by apply reader_returns.
Qed.

(** An export call that entered while the module was open leaves while its
    removal waits for it. *)
Definition entered_moves : list action :=
  open_moves ++ replicate 13 Commit
  ++ [Call OExportEnter; Call OCallbackEnter; Call OClose; Commit; Commit; Commit; Commit; Call OClaim;
      Commit].

Lemma lifecycle_never_aborts_witness :
  let w := after 1 1 entered_moves in
  export_calls (module_ w) = [1%Z]
  /\ step W64 (Call (OGuardDrain 0 None)) w = Done None
  /\ in_range (Call (OExportLeave 0)) w /\ exists o, step W64 (Call (OExportLeave 0)) w = Done o.
Proof.
  intros w. split; [vm_compute; reflexivity|]. split; [vm_compute; reflexivity|]. split; [exact I|].
  destruct (lifecycle_never_aborts W64 1 1 w (Call (OExportLeave 0)) (after_moves_reachable _ _ _) I)
    as [H|[H _]]; [vm_compute; done..|exact H|discriminate H].
Defined.

(** The exception does happen: a callback of a failed opening keeps its permit
    past the module's quiescence, and the next start stops the process. *)
Definition retained_moves : list action :=
  [Call (OBegin 0); Commit; Call OStartModule; Call OCallbackEnter; Call OFail; Commit;
   Call (OModuleRollback 0); Call (OInstall 0); Commit; Call ORollback; Commit;
   Call (OGuardDrain 0 None); Call (OGuardCertify 0); Call (OFinish 0 false None true)]
  ++ replicate 4 Commit ++ [Call (OGuardRelease 0); Commit; Call (OBegin 0); Commit].

Lemma retained_callback_stops_the_next_start :
  state (core (after 1 1 retained_moves)) = Lifecycle.Opening 2 OpeningPayload.Empty
  /\ step W64 (Call OStartModule) (after 1 1 retained_moves) = Aborted
  /\ step W64 (Call OStartModule) (after 1 1 (retained_moves ++ [Call OCallbackLeave])) <> Aborted.
Proof. vm_compute. done. Qed.

(** C16: quarantine is final. The quarantine transition leads every state to
    one that is quarantined, or that will be once the opening attempt or the
    finalization it interrupts ends; from there no sequence of steps opens a
    generation or makes the add-in idle again. *)
Theorem quarantine_is_permanent pw w w' :
  state (core w) = state (quarantine_core (core w)).1 -> rtc (steps pw) w w' ->
  (forall b, state (core w') <> Open b)
  /\ (forall m p, state (core w') <> Lifecycle.Opening m p)
  /\ state (core w') <> Closed ClosedIdle
  /\ state (core w') = state (quarantine_core (core w')).1.
Proof.
  intros Hq H. assert (Hd : doomed (state (core w'))).
  { eapply doomed_rtc; [exact H|]. rewrite Hq. apply quarantine_dooms. }
  destruct (core w') as [s ? ? ? ? ?]. unfold quarantine_core. cbn in *.
  destruct s as [[|? []]| | |[? [] ?|]| |]; done.
Qed.

Lemma quarantine_is_permanent_witness :
  let w := after 1 1 (open_moves ++ replicate 13 Commit ++ [Call OQuarantine]) in
  state (core w) = state (quarantine_core (core w)).1
  /\ let w' := after 1 1 (open_moves ++ replicate 13 Commit
                          ++ [Call OQuarantine; Commit; Commit; Commit; Commit; Call (OBegin 0)]) in
     forall b, state (core w') <> Open b.
Proof.
  set (w := after 1 1 (open_moves ++ replicate 13 Commit ++ [Call OQuarantine])).
  assert (H : state (core w) = state (quarantine_core (core w)).1) by (vm_compute; reflexivity).
  split; [exact H|]. intros w'. refine (proj1 (quarantine_is_permanent W64 w w' H _)).
  apply schedule_rtc with [Commit; Commit; Commit; Commit; Call (OBegin 0)]. vm_compute. reflexivity.
Defined.

(** Opening attempts are never reused.  An identity that has been handed
    out and is neither opening nor open any more never opens again, so what
    a late caller presents for an interrupted attempt cannot be mistaken for
    the current one. *)
Theorem attempts_are_never_reused pw w w' a :
  rtc (steps pw) w w' -> (a < next_lifecycle_attempt (core w))%Z ->
  match state (core w) with
  | Lifecycle.Opening b _ => b <> a
  | Open b => generation_id (content (Lifecycle.generation b)) <> a
  | _ => True
  end ->
  match state (core w') with
  | Lifecycle.Opening b _ => b <> a
  | Open b => generation_id (content (Lifecycle.generation b)) <> a
  | _ => True
  end.
Proof.
  intros H Hn Hs.
  assert (Hl : ~ live a (state (core w))) by (destruct (state (core w)); cbn in *; tauto).
  clear Hs. cut (~ live a (state (core w'))); [destruct (state (core w')); cbn; tauto|].
  induction H as [w|w w1 w2 [x E] _ IH]; [done|].
  assert ((a < next_lifecycle_attempt (core w1))%Z /\ ~ live a (state (core w1))) as [? ?]; [|by apply IH].
  apply step_core in E as [[-> _]|(_ & [[[e Ht] _]|[(g & e & Ht) _]])]; [done| |].
  - apply (transition_live a) in Ht as [Hle Hl']. split; [lia|]. intros Hla.
    destruct (Hl' Hla); [done|lia].
  - apply (bundle_live a) in Ht as [-> ?]. done.
Qed.

(** Quarantined and interrupted attempts, for the witness. *)
Definition interrupted_moves : list action :=
  [Call (OBegin 0); Commit; Call OStartModule; Call OFail; Commit].

Lemma attempts_are_never_reused_witness :
  let w := after 1 1 interrupted_moves in
  let w' := after 1 1 (interrupted_moves ++ [Call OClose]) in
  (1 < next_lifecycle_attempt (core w))%Z
  /\ match state (core w') with
     | Lifecycle.Opening b _ => b <> 1%Z
     | Open b => generation_id (content (Lifecycle.generation b)) <> 1%Z
     | _ => True
     end.
Proof.
  intros w w'. assert (H : (1 < next_lifecycle_attempt (core w))%Z) by (vm_compute; reflexivity).
  split; [exact H|]. apply (attempts_are_never_reused W64 w w'); [|exact H|vm_compute; exact I].
  apply schedule_rtc with [Call OClose]. vm_compute. reflexivity.
Defined.

(** a closed lifecycle has no live module: while the canonical state is
    closed, idle or with a removal being finalized, the export ingress is
    closed, nobody owns an authority to open, to lease or to close the module,
    and readers are out, so a new opening can only start from a drained epoch. *)
Theorem closed_lifecycle_has_no_live_module pw n k w x :
  reachable pw n k w -> state (core w) = Closed x ->
  Epoch.phase (ingress (module_ w)) = PHASE_CLOSED
  /\ (forall e, (TModule KOpen e ∉ tokens w) /\ (TModule KClosing e ∉ tokens w))
  /\ forall i r, readers w !! i = Some r -> permit r = None.
Proof.
  intros Hr Hs. pose proof (reachable_ok _ _ _ _ Hr) as H.
  assert (Hc : Epoch.phase (gate w) = PHASE_CLOSED).
  { destruct x as [|m b]; [apply (ok_closed _ H); by left|by eapply finalizing_closed; [apply H..|]]. }
  split_and!; [done| |].
  - intros e. split; intros Hin; apply (epochs_kind _ _ (ok_module _ H)) in Hin as [_ Hp];
      [destruct Hp|]; congruence.
  - intros i r Hi. pose proof (reachable_readers _ _ _ _ Hr) as Hrd.
    apply (unused_no_permit pw w i); [done| |done]. unfold used. rewrite Hs.
    by destruct (committing w) as [[c [g|]]|].
Qed.

Lemma closed_lifecycle_has_no_live_module_witness :
  state (core (initial W64 1 1)) = Closed ClosedIdle
  /\ Epoch.phase (ingress (module_ (initial W64 1 1))) = PHASE_CLOSED.
Proof.
  split; [reflexivity|].
  refine (proj1 (closed_lifecycle_has_no_live_module W64 1 1 (initial W64 1 1) ClosedIdle _ eq_refl)).
  apply rtc_refl.
Defined.

(** an opening attempt goes through or fails as a whole. From an idle
    core, begin, stage, publish and commit with the attempt's own identity
    lead to an open state that owns exactly what was staged and published,
    under the next identity; after a close request or a quarantine anywhere
    in between, the commit is refused and changes nothing. *)
Theorem opening_commits_unless_interrupted c o root_at publication_at s l :
  state c = Closed ClosedIdle ->
  (0 < next_lifecycle_attempt c)%Z -> (next_lifecycle_attempt c + 1 < 2 ^ 64)%Z ->
  let n := next_lifecycle_attempt c in
  let '(r1, c1, _) := begin_opening_if_closed (removal_epoch c) c in
  let '(r2, c2, _) := stage_opening_generation n o c1 in
  let '(r3, c3, _) := publish_opening_generation root_at publication_at n s l c2 in
  let '(r4, c4, e) := commit_open n c3 in
  let g := Own root_at (ExecutionGen n (shared_state o) (layers o)) in
  let p := Own publication_at (Publication root_at s) in
  r1 = Ok n /\ r2 = Ok tt /\ r3 = Ok tt /\ r4 = Ok n
  /\ state c4 = Open (OpenBundle g s p l) /\ e = Publish p
  /\ last_committed_generation c4 = Some n /\ next_lifecycle_attempt c4 = (n + 1)%Z
  /\ forall c', In c' [c1; c2; c3] -> forall m,
       commit_open m (request_closing c').1.2
       = (Err (Internal OPEN_STATE), (request_closing c').1.2, Keep)
       /\ commit_open m (quarantine_core c').1
          = (Err (Internal OPEN_STATE), (quarantine_core c').1, Keep).
Proof.
  destruct c as [st hi next nr lc re]. cbn. intros -> Hpos Hlt.
  unfold begin_opening_if_closed, checked_add, Identity.OpenAttemptId_new. cbn.
  rewrite Z.eqb_refl, (proj2 (Z.ltb_lt _ _) Hlt), (proj2 (Z.eqb_neq next 0)) by lia. cbn.
  unfold stage_opening_generation. cbn. rewrite !bool_decide_true by done. cbn.
  unfold commit_open, Identity.into_runtime_generation. cbn.
  rewrite Z.eqb_refl. cbn.
  split_and!; try done. intros c' [<-|[<-|[<-|[]]]] m; done.
Qed.

Lemma opening_commits_unless_interrupted_witness :
  state core_new = Closed ClosedIdle
  /\ let '(r1, c1, _) := begin_opening_if_closed 0 core_new in
     let '(r2, c2, _) := stage_opening_generation 1 (OpeningGen 1 2 3) c1 in
     let '(r3, c3, _) := publish_opening_generation 10 20 1 7 (Lease 1) c2 in
     let '(r4, c4, e) := commit_open 1 c3 in
     let g := Own 10 (ExecutionGen 1 1 2) in
     let p := Own 20 (Publication 10 7) in
     r1 = Ok 1%Z /\ r2 = Ok tt /\ r3 = Ok tt /\ r4 = Ok 1%Z
     /\ state c4 = Open (OpenBundle g 7 p (Lease 1)) /\ e = Publish p
     /\ last_committed_generation c4 = Some 1%Z /\ next_lifecycle_attempt c4 = 2%Z
     /\ forall c', In c' [c1; c2; c3] -> forall m,
          commit_open m (request_closing c').1.2
          = (Err (Internal OPEN_STATE), (request_closing c').1.2, Keep)
          /\ commit_open m (quarantine_core c').1
             = (Err (Internal OPEN_STATE), (quarantine_core c').1, Keep).
Proof.
  split; [reflexivity|].
  apply (opening_commits_unless_interrupted core_new (OpeningGen 1 2 3) 10 20 7 (Lease 1)); done.
Defined.

End LifecycleTheorems.
