(* ===== verification/Cancellation.v ===== *)
(** * Cancellation scopes

    Models crates/xlfn/src/cancellation.rs: the registry of generation-stamped
    slots, the sources that own scopes, the tokens that observe them without a
    lock, the delivery state, the [Cancelled] futures, the registration of a
    framework task, and the wakers all of them exchange.

    A world is the heap of slots, the shards of the registry and the list of
    agents: the calls in progress and the owned values (sources, futures,
    registrations) with the call that currently borrows them.  One step is one
    atomic access that other threads can see, one mutex operation with the
    protected work up to the next such access, or one call of a waker's code;
    any agent may step at any time.  A critical section with a single access is
    one step.  Code a waker's clone or drop runs is the steps of other agents,
    since no lock is held there. *)

From S2P Require Import Prelude.

Local Open Scope Z_scope.

Module Cancellation.

Definition STATE_RUNNING : Z := 0.
Definition STATE_CANCELED : Z := 1.
Definition STATE_DELIVERING : Z := 2.
Definition STATE_DONE : Z := 3.

Inductive CancellationGuarantee : Type := BestEffort | CalculationScoped | SubscriptionScoped.

#[export] Instance CancellationGuarantee_eq_dec : EqDecision CancellationGuarantee.
Proof. solve_decision. Defined.

(** ** Wakers

    A [Waker] is its data pointer and vtable, by which two wakers are compared,
    and the task its code schedules.  Pointers are reused once their waker is
    dropped; two wakers alive at once that compare equal schedule the same
    task, which is what [Waker::will_wake] promises. *)
Record Waker : Type := RawWaker { data : Z; vtable : nat; task : nat }.

#[export] Instance Waker_eq_dec : EqDecision Waker.
Proof. solve_decision. Defined.

Record WakerIdentity : Type := Identity { identity_data : Z; identity_vtable : nat }.

#[export] Instance WakerIdentity_eq_dec : EqDecision WakerIdentity.
Proof. solve_decision. Defined.

Definition identity_of (w : Waker) : WakerIdentity := Identity (data w) (vtable w).

Definition matches (i : WakerIdentity) (w : Waker) : bool :=
  (identity_data i =? data w) && Nat.eqb (identity_vtable i) (vtable w).

Definition will_wake (a b : Waker) : bool := (data a =? data b) && Nat.eqb (vtable a) (vtable b).

(** ** Slots *)
Record SlotWaiters : Type := Waiters {
  waiters_generation : Z;
  next_id : Z;
  entries : gmap Z Waker;
  task_waker : option Waker;
}.

(** [holder] is the agent inside the mutex of [waiters]. *)
Record CancellationSlot : Type := Slot {
  generation : Z;
  cancelled : bool;
  delivery_state : Z;
  waiters : SlotWaiters;
  holder : option nat;
}.

Definition set_generation (g : Z) (s : CancellationSlot) : CancellationSlot :=
  Slot g (cancelled s) (delivery_state s) (waiters s) (holder s).
Definition set_cancelled (b : bool) (s : CancellationSlot) : CancellationSlot :=
  Slot (generation s) b (delivery_state s) (waiters s) (holder s).
Definition set_delivery (d : Z) (s : CancellationSlot) : CancellationSlot :=
  Slot (generation s) (cancelled s) d (waiters s) (holder s).
Definition set_waiters (x : SlotWaiters) (s : CancellationSlot) : CancellationSlot :=
  Slot (generation s) (cancelled s) (delivery_state s) x (holder s).
Definition set_holder (h : option nat) (s : CancellationSlot) : CancellationSlot :=
  Slot (generation s) (cancelled s) (delivery_state s) (waiters s) h.

Definition set_entries (e : gmap Z Waker) (x : SlotWaiters) : SlotWaiters :=
  Waiters (waiters_generation x) (next_id x) e (task_waker x).
Definition set_next_id (n : Z) (x : SlotWaiters) : SlotWaiters :=
  Waiters (waiters_generation x) n (entries x) (task_waker x).
Definition set_task_waker (t : option Waker) (x : SlotWaiters) : SlotWaiters :=
  Waiters (waiters_generation x) (next_id x) (entries x) t.

Record DetachedWaiters : Type := Detached {
  detached_entries : gmap Z Waker;
  detached_task : option Waker;
}.

Definition compare_exchange (expected new : Z) (s : CancellationSlot) : bool * CancellationSlot :=
  if delivery_state s =? expected then (true, set_delivery new s) else (false, s).

(** [cancel_locked] up to its compare-and-swap, and from the store on. *)
Definition cancel_claim (s : CancellationSlot) : CancellationSlot :=
  snd (compare_exchange STATE_RUNNING STATE_CANCELED s).

Definition cancel_publish (s : CancellationSlot) : DetachedWaiters * CancellationSlot :=
  (Detached (entries (waiters s)) (task_waker (waiters s)),
   set_cancelled true (set_waiters (set_task_waker None (set_entries ∅ (waiters s))) s)).

(** [DetachedWaiters::wake], one waker at a time: the entries in the order of
    the hash map, which [id] chooses, then the task. *)
Inductive wake_result : Type :=
| Woken (w : Waker) (rest : DetachedWaiters)
| AllWoken
| NoEntry.

Definition wake (id : Z) (d : DetachedWaiters) : wake_result :=
  if bool_decide (detached_entries d = ∅) then
    match detached_task d with
    | Some w => Woken w (Detached ∅ None)
    | None => AllWoken
    end
  else
    match detached_entries d !! id with
    | Some w => Woken w (Detached (delete id (detached_entries d)) (detached_task d))
    | None => NoEntry
    end.

(** ** The registry

    The vector [slots] of a shard holds the addresses of its slots; [free] is
    the vector of reusable indices, its last element first. *)
Record CancellationRegistryState : Type := Shard {
  slots : list nat;
  free : list nat;
  shard_holder : option nat;
}.

Definition U32_MAX : Z := 2 ^ 32 - 1.
Definition U64_MAX : Z := 2 ^ 64 - 1.

Definition CANCELLATION_SHARDS : Z := 32.
Definition CANCELLATION_SHARD_BITS : Z := 5.

Definition registry_new : list CancellationRegistryState :=
  replicate (Z.to_nat CANCELLATION_SHARDS) (Shard [] [] None).

Definition slot_id (shard index : nat) : outcome Z :=
  if Z.of_nat index <=? Z.shiftr U32_MAX CANCELLATION_SHARD_BITS
  then Done (Z.lor (wrap 32 (Z.shiftl (Z.of_nat index) CANCELLATION_SHARD_BITS)) (Z.of_nat shard))
  else Panicked.

Definition shard_of (slot_index : Z) : nat :=
  Z.to_nat (Z.land slot_index (CANCELLATION_SHARDS - 1)).
Definition index_of (slot_index : Z) : nat :=
  Z.to_nat (Z.shiftr slot_index CANCELLATION_SHARD_BITS).

(** What [allocate_in_shard] pushes, and what it makes of a reused slot. *)
Definition new_slot : CancellationSlot :=
  Slot 1 false STATE_RUNNING (Waiters 1 1 ∅ None) None.

(** ** Values of the callers *)
Record CancellationToken : Type := Token {
  token_slot : nat;
  token_generation : Z;
  guarantee : CancellationGuarantee;
}.

#[export] Instance CancellationToken_eq_dec : EqDecision CancellationToken.
Proof. solve_decision. Defined.

Record CancellationSource : Type := Source {
  source_slot : nat;
  source_generation : Z;
  slot_index : Z;
}.

(** [Cancelled], the future of [CancellationToken::cancelled]. *)
Record Cancelled : Type := Future {
  token : CancellationToken;
  waiter_id : option Z;
  registered_waker : option WakerIdentity;
}.

Definition token_cancelled (t : CancellationToken) : Cancelled := Future t None None.

Record TaskCancellationRegistration : Type := Registration {
  registration_slot : nat;
  registration_generation : Z;
  registered_task_waker : option WakerIdentity;
}.

Definition set_registered (i : option WakerIdentity) (r : TaskCancellationRegistration)
  : TaskCancellationRegistration :=
  Registration (registration_slot r) (registration_generation r) i.

(** [TaskCancellationOwner::into_parts] *)
Definition into_parts (src : CancellationSource) : TaskCancellationRegistration :=
  Registration (source_slot src) (source_generation src) None.

Definition token_of (src : CancellationSource) (g : CancellationGuarantee) : CancellationToken :=
  Token (source_slot src) (source_generation src) g.

(** ** Optimistic checks

    [is_cancelled] of a token and of a registration; only the token's reads the
    delivery state.  [observe] makes the next load. *)
Inductive check : Type := LoadGeneration | LoadCancelled | LoadDelivery | ReloadGeneration.

Definition observe (with_delivery : bool) (g : Z) (s : CancellationSlot) (c : check)
  : check + bool :=
  match c with
  | LoadGeneration => if generation s =? g then inl LoadCancelled else inr true
  | LoadCancelled =>
      if cancelled s then inr true
      else inl (if with_delivery then LoadDelivery else ReloadGeneration)
  | LoadDelivery =>
      if delivery_state s =? STATE_CANCELED then inr true else inl ReloadGeneration
  | ReloadGeneration => inr (negb (generation s =? g))
  end.

(** The same with nobody writing meanwhile: under the slot's lock. *)
Definition token_is_cancelled (g : Z) (s : CancellationSlot) : bool :=
  negb (generation s =? g) || (cancelled s || (delivery_state s =? STATE_CANCELED)
                               || negb (generation s =? g)).

Definition registration_is_cancelled (g : Z) (s : CancellationSlot) : bool :=
  negb (generation s =? g) || cancelled s || negb (generation s =? g).

(** ** Delivery: [try_start_delivery], [finish_delivery] *)
Definition try_start_delivery (g : Z) (s : CancellationSlot) : bool * CancellationSlot :=
  if negb (waiters_generation (waiters s) =? g) then (false, s)
  else compare_exchange STATE_RUNNING STATE_DELIVERING s.

Definition finish_delivery (g : Z) (s : CancellationSlot) : CancellationSlot :=
  if waiters_generation (waiters s) =? g
  then snd (compare_exchange STATE_DELIVERING STATE_DONE s) else s.

(** ** Critical sections of the futures *)
Inductive poll : Type := Pending | Ready.

#[export] Instance poll_eq_dec : EqDecision poll.
Proof. solve_decision. Defined.

(** The locked part of [Cancelled::poll_before_lock]: the future, the slot, the
    wakers to drop after the lock ([detached], then what is left of
    [replacement]) and the result. *)
Definition poll_locked (f : Cancelled) (ctx replacement : Waker) (s : CancellationSlot)
  : outcome (Cancelled * CancellationSlot * option Waker * option Waker * poll) :=
  let g := token_generation (token f) in
  let x := waiters s in
  if negb (waiters_generation x =? g) then
    Done (Future (token f) None None, s, None, Some replacement, Ready)
  else if token_is_cancelled g s then
    match waiter_id f with
    | Some id =>
        Done (Future (token f) None None, set_waiters (set_entries (delete id (entries x)) x) s,
              entries x !! id, Some replacement, Ready)
    | None => Done (Future (token f) None None, s, None, Some replacement, Ready)
    end
  else
    let* (id, x) :=
      match waiter_id f with
      | Some id => Done (id, x)
      | None =>
          match checked_add 64 (next_id x) 1 with
          | Some n => Done (next_id x, set_next_id n x)
          | None => Panicked
          end
      end in
    match entries x !! id with
    | Some w =>
        if will_wake w ctx then
          Done (Future (token f) (Some id) (Some (identity_of w)), set_waiters x s, None,
                Some replacement, Pending)
        else
          Done (Future (token f) (Some id) (Some (identity_of replacement)),
                set_waiters (set_entries (<[id := replacement]> (entries x)) x) s,
                Some w, None, Pending)
    | None =>
        Done (Future (token f) (Some id) (Some (identity_of replacement)),
              set_waiters (set_entries (<[id := replacement]> (entries x)) x) s,
              None, None, Pending)
    end.

(** The locked part of [Cancelled::unregister]. *)
Definition unregister_locked (g id : Z) (s : CancellationSlot)
  : option Waker * CancellationSlot :=
  let x := waiters s in
  if waiters_generation x =? g
  then (entries x !! id, set_waiters (set_entries (delete id (entries x)) x) s)
  else (None, s).

(** The first and second locked parts of [TaskCancellationRegistration]'s
    [poll_before_register], and that of its [Drop].  The first one answers
    [None] when the registration has to be replaced. *)
Definition first_locked (r : TaskCancellationRegistration) (ctx : Waker) (s : CancellationSlot)
  : TaskCancellationRegistration * option poll :=
  let g := registration_generation r in
  if negb (waiters_generation (waiters s) =? g) || registration_is_cancelled g s
  then (set_registered None r, Some Ready)
  else
    match task_waker (waiters s) with
    | Some w =>
        if will_wake w ctx then (set_registered (Some (identity_of w)) r, Some Pending)
        else (r, None)
    | None => (r, None)
    end.

Definition second_locked (r : TaskCancellationRegistration) (replacement : Waker)
    (s : CancellationSlot)
  : TaskCancellationRegistration * CancellationSlot * option Waker * option Waker :=
  let g := registration_generation r in
  if negb (waiters_generation (waiters s) =? g) || registration_is_cancelled g s
  then (set_registered None r, s, None, Some replacement)
  else
    (set_registered (Some (identity_of replacement)) r,
     set_waiters (set_task_waker (Some replacement) (waiters s)) s,
     task_waker (waiters s), None).

Definition drop_locked (g : Z) (s : CancellationSlot) : option Waker * CancellationSlot :=
  if waiters_generation (waiters s) =? g
  then (task_waker (waiters s), set_waiters (set_task_waker None (waiters s)) s)
  else (None, s).

(** ** Agents *)

(** [allocate_in_shard]: waiting for the shard; waiting for the popped slot's
    lock; about to store [cancelled]; about to store [delivery_state]. *)
Inductive allocation : Type :=
| AShard (shard : nat)
| AWaiters (shard index : nat)
| ACancelled (shard index address : nat) (g : Z)
| ADelivery (shard index address : nat) (g : Z).

(** A source, and [release] in its [Drop]: waiting for the shard, for the slot;
    about to store [cancelled]; about to push the index; waking. *)
Inductive source_stage : Type :=
| SLive (claimed : bool)
| SShard
| SWaiters
| SStore (address : nat)
| SPush (d : DetachedWaiters)
| SWake (d : DetachedWaiters)
| SGone.

(** [CancellationSource::cancel] *)
Inductive cancel_stage : Type := CLock | CStore | CWake (d : DetachedWaiters) | CReturned.

(** [Cancelled]: between polls; in the check, in [unregister], about to clone,
    waiting for the lock, and dropping wakers in [poll]; the same in [Drop]. *)
Inductive future_stage : Type :=
| FIdle (last : option poll)
| FCheck (ctx : Waker) (c : check)
| FUnregister (ctx : Waker) (id : Z)
| FClone (ctx : Waker)
| FLock (ctx replacement : Waker)
| FRelease (ctx : Waker) (detached replacement : option Waker) (result : poll)
| FDrop (id : Z)
| FDropped (detached : option Waker)
| FGone.

Inductive task_stage : Type :=
| TIdle (last : option poll)
| TCheck (ctx : Waker) (c : check)
| TFirst (ctx : Waker)
| TClone (ctx : Waker)
| TSecond (ctx replacement : Waker)
| TRelease (ctx : Waker) (detached replacement : option Waker)
| TFinal (ctx : Waker) (c : check)
| TDrop
| TDropped (detached : option Waker)
| TGone.

(** The executor's side of a future: the task that polled it last, and whether
    that task was woken since that poll began. *)
Record watch : Type := Watch { polled_by : nat; notified : bool }.

Inductive agent : Type :=
| Allocating (g : CancellationGuarantee) (st : allocation)
| Owning (src : CancellationSource) (g : CancellationGuarantee) (st : source_stage)
| Cancelling (owner : nat) (src : CancellationSource) (st : cancel_stage)
| Checking (t : CancellationToken) (st : check + bool)
| Starting (t : CancellationToken) (won : option bool)
| Finishing (t : CancellationToken) (returned : bool)
| Waiting (f : Cancelled) (x : watch) (st : future_stage)
| Tasking (r : TaskCancellationRegistration) (x : watch) (st : task_stage).

Record world : Type := World {
  heap : list CancellationSlot;
  shards : list CancellationRegistryState;
  agents : list agent;
}.

Definition set_slot (p : nat) (s : CancellationSlot) (w : world) : world :=
  World (<[p := s]> (heap w)) (shards w) (agents w).
Definition set_shard (i : nat) (x : CancellationRegistryState) (w : world) : world :=
  World (heap w) (<[i := x]> (shards w)) (agents w).
Definition set_agent (k : nat) (a : agent) (w : world) : world :=
  World (heap w) (shards w) (<[k := a]> (agents w)).
Definition spawn (a : agent) (w : world) : world :=
  World (heap w) (shards w) (agents w ++ [a]).

Definition initial : world := World [] registry_new [].

(** ** Live wakers *)
Definition option_wakers (o : option Waker) : list Waker :=
  match o with Some w => [w] | None => [] end.

Definition slot_wakers (s : CancellationSlot) : list Waker :=
  (map_to_list (entries (waiters s))).*2 ++ option_wakers (task_waker (waiters s)).

Definition detached_wakers (d : DetachedWaiters) : list Waker :=
  (map_to_list (detached_entries d)).*2 ++ option_wakers (detached_task d).

Definition agent_wakers (a : agent) : list Waker :=
  match a with
  | Owning _ _ (SPush d | SWake d) | Cancelling _ _ (CWake d) => detached_wakers d
  | Waiting _ _ (FCheck ctx _ | FUnregister ctx _ | FClone ctx) => [ctx]
  | Waiting _ _ (FLock ctx replacement) => [ctx; replacement]
  | Waiting _ _ (FRelease ctx detached replacement _) =>
      ctx :: option_wakers detached ++ option_wakers replacement
  | Waiting _ _ (FDropped detached) => option_wakers detached
  | Tasking _ _ (TCheck ctx _ | TFirst ctx | TClone ctx | TFinal ctx _) => [ctx]
  | Tasking _ _ (TSecond ctx replacement) => [ctx; replacement]
  | Tasking _ _ (TRelease ctx detached replacement) =>
      ctx :: option_wakers detached ++ option_wakers replacement
  | Tasking _ _ (TDropped detached) => option_wakers detached
  | _ => []
  end.

Definition wakers (w : world) : list Waker :=
  (heap w ≫= slot_wakers) ++ (agents w ≫= agent_wakers).

(** A waker the environment may bring in: it is equal to a live one only if it
    schedules the same task. *)
Definition compatible (w : world) (a : Waker) : bool :=
  forallb (fun b => implb (will_wake a b) (Nat.eqb (task a) (task b))) (wakers w).

(** [waker.wake()] schedules its task: whoever is polled by it is notified. *)
Definition notify_agent (t : nat) (a : agent) : agent :=
  match a with
  | Waiting f x st => if Nat.eqb (polled_by x) t then Waiting f (Watch t true) st else a
  | Tasking r x st => if Nat.eqb (polled_by x) t then Tasking r (Watch t true) st else a
  | _ => a
  end.

Definition notify (wk : Waker) (w : world) : world :=
  World (heap w) (shards w) (map (notify_agent (task wk)) (agents w)).

(** ** Steps *)

(** What the environment chooses in a step: the identity of a cloned waker, or
    the entry woken next. *)
Inductive pick : Type := Go | CloneAs (d : Z) (v : nat) | Entry (id : Z).

Inductive action : Type :=
| New (shard : nat) (g : CancellationGuarantee)
| Cancel (k : nat)
| DropSource (k : nat)
| IntoTask (k : nat)
| IsCancelled (t : CancellationToken)
| TryStartDelivery (t : CancellationToken)
| FinishDelivery (t : CancellationToken)
| NewCancelled (t : CancellationToken)
| Poll (k : nat) (ctx : Waker)
| DropValue (k : nat)
| Run (k : nat) (c : pick).

Abbreviation effect := (outcome (option world)).
Abbreviation blocked := (Done None : effect).
Abbreviation moves w := (Done (Some w) : effect).

(** The slot at [p] while nobody is inside its mutex. *)
Definition unlocked (p : nat) (w : world) : option CancellationSlot :=
  match heap w !! p with
  | Some s => match holder s with None => Some s | Some _ => None end
  | None => None
  end.

(** [CancellationRegistry::allocate_in_shard] *)
Definition run_allocation (k : nat) (g : CancellationGuarantee) (st : allocation) (w : world)
  : effect :=
  match st with
  | AShard shard =>
      match shards w !! shard with
      | None => Panicked
      | Some (Shard _ _ (Some _)) => blocked
      | Some (Shard sl (index :: rest) None) =>
          moves (set_agent k (Allocating g (AWaiters shard index))
                   (set_shard shard (Shard sl rest (Some k)) w))
      | Some (Shard sl [] None) =>
          if U32_MAX <? Z.of_nat (length sl) then Panicked
          else
            let* id := slot_id shard (length sl) in
            let p := length (heap w) in
            moves (World (heap w ++ [new_slot])
                     (<[shard := Shard (sl ++ [p]) [] None]> (shards w))
                     (<[k := Owning (Source p 1 id) g (SLive false)]> (agents w)))
      end
  | AWaiters shard index =>
      match shards w !! shard ≫= (fun x => slots x !! index) with
      | None => Panicked
      | Some p =>
          match unlocked p w with
          | None => blocked
          | Some s =>
              match checked_add 64 (waiters_generation (waiters s)) 1 with
              | None => Panicked
              | Some g' =>
                  if bool_decide (entries (waiters s) = ∅ /\ task_waker (waiters s) = None) then
                    moves (set_agent k (Allocating g (ACancelled shard index p g'))
                             (set_slot p
                                (set_holder (Some k)
                                   (set_generation g' (set_waiters (Waiters g' 1 ∅ None) s))) w))
                  else Panicked
              end
          end
      end
  | ACancelled shard index p g' =>
      match heap w !! p with
      | None => blocked
      | Some s =>
          moves (set_agent k (Allocating g (ADelivery shard index p g'))
                   (set_slot p (set_cancelled false s) w))
      end
  | ADelivery shard index p g' =>
      match heap w !! p, shards w !! shard with
      | Some s, Some x =>
          let* id := slot_id shard index in
          moves (set_agent k (Owning (Source p g' id) g (SLive false))
                   (set_shard shard (Shard (slots x) (free x) None)
                      (set_slot p (set_holder None (set_delivery STATE_RUNNING s)) w)))
      | _, _ => blocked
      end
  end.

(** One call of a detached waker; [done] is what follows the last one. *)
Definition run_wake (k : nat) (c : pick) (d : DetachedWaiters) (more : DetachedWaiters -> agent)
    (done : agent) (w : world) : effect :=
  match wake match c with Entry id => id | _ => 0 end d with
  | Woken wk rest => moves (notify wk (set_agent k (more rest) w))
  | AllWoken => moves (set_agent k done w)
  | NoEntry => blocked
  end.

(** [CancellationRegistry::release], called by the drop of the source. *)
Definition run_source (k : nat) (c : pick) (src : CancellationSource) (g : CancellationGuarantee)
    (st : source_stage) (w : world) : effect :=
  let shard := shard_of (slot_index src) in
  let index := index_of (slot_index src) in
  match st with
  | SLive _ | SGone => blocked
  | SShard =>
      match shards w !! shard with
      | None => Panicked
      | Some (Shard _ _ (Some _)) => blocked
      | Some (Shard sl fr None) =>
          moves (set_agent k (Owning src g SWaiters) (set_shard shard (Shard sl fr (Some k)) w))
      end
  | SWaiters =>
      match shards w !! shard with
      | None => Panicked
      | Some x =>
          match slots x !! index with
          | None => Panicked
          | Some p =>
              match unlocked p w with
              | None => blocked
              | Some s =>
                  if negb (waiters_generation (waiters s) =? source_generation src) then
                    moves (set_agent k (Owning src g SGone)
                             (set_shard shard (Shard (slots x) (free x) None) w))
                  else
                    moves (set_agent k (Owning src g (SStore p))
                             (set_slot p (set_holder (Some k) (cancel_claim s)) w))
              end
          end
      end
  | SStore p =>
      match heap w !! p with
      | None => blocked
      | Some s =>
          let '(d, s') := cancel_publish s in
          moves (set_agent k (Owning src g (SPush d)) (set_slot p (set_holder None s') w))
      end
  | SPush d =>
      match shards w !! shard with
      | None => blocked
      | Some x =>
          let fr := if source_generation src =? U64_MAX then free x else index :: free x in
          moves (set_agent k (Owning src g (SWake d)) (set_shard shard (Shard (slots x) fr None) w))
      end
  | SWake d => run_wake k c d (fun d => Owning src g (SWake d)) (Owning src g SGone) w
  end.

(** [CancellationSource::cancel] *)
Definition run_cancel (k : nat) (c : pick) (owner : nat) (src : CancellationSource)
    (st : cancel_stage) (w : world) : effect :=
  let p := source_slot src in
  match st with
  | CLock =>
      match unlocked p w with
      | None => blocked
      | Some s =>
          if negb (waiters_generation (waiters s) =? source_generation src)
          then moves (set_agent k (Cancelling owner src CReturned) w)
          else moves (set_agent k (Cancelling owner src CStore)
                        (set_slot p (set_holder (Some k) (cancel_claim s)) w))
      end
  | CStore =>
      match heap w !! p with
      | None => blocked
      | Some s =>
          let '(d, s') := cancel_publish s in
          moves (set_agent k (Cancelling owner src (CWake d)) (set_slot p (set_holder None s') w))
      end
  | CWake d =>
      run_wake k c d (fun d => Cancelling owner src (CWake d)) (Cancelling owner src CReturned) w
  | CReturned => blocked
  end.

(** A clone of the context's waker. *)
Definition run_clone (k : nat) (c : pick) (ctx : Waker) (next : Waker -> agent) (w : world)
  : effect :=
  match c with
  | CloneAs d v =>
      let new := RawWaker d v (task ctx) in
      if compatible w new then moves (set_agent k (next new) w) else blocked
  | _ => blocked
  end.

(** [Cancelled::poll_before_lock], [unregister] and [Drop] *)
Definition run_future (k : nat) (c : pick) (f : Cancelled) (x : watch) (st : future_stage)
    (w : world) : effect :=
  let p := token_slot (token f) in
  let g := token_generation (token f) in
  match st with
  | FIdle _ | FGone => blocked
  | FCheck ctx load =>
      match heap w !! p with
      | None => blocked
      | Some s =>
          match observe true g s load with
          | inl load' => moves (set_agent k (Waiting f x (FCheck ctx load')) w)
          | inr true =>
              let f' := Future (token f) None None in
              moves (set_agent k
                       match waiter_id f with
                       | Some id => Waiting f' x (FUnregister ctx id)
                       | None => Waiting f' x (FIdle (Some Ready))
                       end w)
          | inr false =>
              if match registered_waker f with Some i => matches i ctx | None => false end
              then moves (set_agent k (Waiting f x (FIdle (Some Pending))) w)
              else moves (set_agent k (Waiting f x (FClone ctx)) w)
          end
      end
  | FUnregister ctx id =>
      match unlocked p w with
      | None => blocked
      | Some s =>
          let '(detached, s') := unregister_locked g id s in
          moves (set_agent k (Waiting f x (FRelease ctx detached None Ready)) (set_slot p s' w))
      end
  | FClone ctx => run_clone k c ctx (fun new => Waiting f x (FLock ctx new)) w
  | FLock ctx replacement =>
      match unlocked p w with
      | None => blocked
      | Some s =>
          let* (f', s', detached, left_over, result) := poll_locked f ctx replacement s in
          moves (set_agent k (Waiting f' x (FRelease ctx detached left_over result))
                   (set_slot p s' w))
      end
  | FRelease _ _ _ result => moves (set_agent k (Waiting f x (FIdle (Some result))) w)
  | FDrop id =>
      match unlocked p w with
      | None => blocked
      | Some s =>
          let '(detached, s') := unregister_locked g id s in
          moves (set_agent k (Waiting f x (FDropped detached)) (set_slot p s' w))
      end
  | FDropped _ => moves (set_agent k (Waiting f x FGone) w)
  end.

(** [TaskCancellationRegistration::poll_before_register] and [Drop] *)
Definition run_task (k : nat) (c : pick) (r : TaskCancellationRegistration) (x : watch)
    (st : task_stage) (w : world) : effect :=
  let p := registration_slot r in
  let g := registration_generation r in
  match st with
  | TIdle _ | TGone => blocked
  | TCheck ctx load =>
      match heap w !! p with
      | None => blocked
      | Some s =>
          match observe false g s load with
          | inl load' => moves (set_agent k (Tasking r x (TCheck ctx load')) w)
          | inr true =>
              moves (set_agent k (Tasking (set_registered None r) x (TIdle (Some Ready))) w)
          | inr false =>
              if match registered_task_waker r with Some i => matches i ctx | None => false end
              then moves (set_agent k (Tasking r x (TIdle (Some Pending))) w)
              else moves (set_agent k (Tasking r x (TFirst ctx)) w)
          end
      end
  | TFirst ctx =>
      match unlocked p w with
      | None => blocked
      | Some s =>
          let '(r', answer) := first_locked r ctx s in
          moves (set_agent k
                   (Tasking r' x match answer with
                                 | Some result => TIdle (Some result)
                                 | None => TClone ctx
                                 end) w)
      end
  | TClone ctx => run_clone k c ctx (fun new => Tasking r x (TSecond ctx new)) w
  | TSecond ctx replacement =>
      match unlocked p w with
      | None => blocked
      | Some s =>
          let '(r', s', detached, left_over) := second_locked r replacement s in
          moves (set_agent k (Tasking r' x (TRelease ctx detached left_over)) (set_slot p s' w))
      end
  | TRelease ctx _ _ => moves (set_agent k (Tasking r x (TFinal ctx LoadGeneration)) w)
  | TFinal ctx load =>
      match heap w !! p with
      | None => blocked
      | Some s =>
          moves (set_agent k
                   match observe false g s load with
                   | inl load' => Tasking r x (TFinal ctx load')
                   | inr true => Tasking (set_registered None r) x (TIdle (Some Ready))
                   | inr false => Tasking r x (TIdle (Some Pending))
                   end w)
      end
  | TDrop =>
      match unlocked p w with
      | None => blocked
      | Some s =>
          let '(detached, s') := drop_locked g s in
          moves (set_agent k (Tasking r x (TDropped detached)) (set_slot p s' w))
      end
  | TDropped _ => moves (set_agent k (Tasking r x TGone) w)
  end.

(** The calls of a token: [is_cancelled], [try_start_delivery] and
    [finish_delivery]. *)
Definition run_check (k : nat) (t : CancellationToken) (st : check + bool) (w : world) : effect :=
  match st, heap w !! token_slot t with
  | inl load, Some s =>
      moves (set_agent k (Checking t (observe true (token_generation t) s load)) w)
  | _, _ => blocked
  end.

Definition run_start (k : nat) (t : CancellationToken) (won : option bool) (w : world) : effect :=
  match won, unlocked (token_slot t) w with
  | None, Some s =>
      let '(b, s') := try_start_delivery (token_generation t) s in
      moves (set_agent k (Starting t (Some b)) (set_slot (token_slot t) s' w))
  | _, _ => blocked
  end.

Definition run_finish (k : nat) (t : CancellationToken) (returned : bool) (w : world) : effect :=
  match returned, unlocked (token_slot t) w with
  | false, Some s =>
      moves (set_agent k (Finishing t true)
               (set_slot (token_slot t) (finish_delivery (token_generation t) s) w))
  | _, _ => blocked
  end.

Definition run (k : nat) (c : pick) (w : world) : effect :=
  match agents w !! k with
  | None => blocked
  | Some (Allocating g st) => run_allocation k g st w
  | Some (Owning src g st) => run_source k c src g st w
  | Some (Cancelling owner src st) => run_cancel k c owner src st w
  | Some (Checking t st) => run_check k t st w
  | Some (Starting t won) => run_start k t won w
  | Some (Finishing t returned) => run_finish k t returned w
  | Some (Waiting f x st) => run_future k c f x st w
  | Some (Tasking r x st) => run_task k c r x st w
  end.

(** Tokens are copies of those a source was created with. *)
Definition issued (w : world) (t : CancellationToken) : bool :=
  existsb
    (fun a => match a with
              | Owning src g _ => bool_decide (token_of src g = t)
              | _ => false
              end) (agents w).

(** A source is dropped when no [cancel] borrows it. *)
Definition borrows (k : nat) (a : agent) : bool :=
  match a with
  | Cancelling owner _ CReturned => false
  | Cancelling owner _ _ => Nat.eqb owner k
  | _ => false
  end.

Definition call (k : nat) (w : world) (p : agent -> option agent) : effect :=
  match agents w !! k ≫= p with
  | Some a => moves (set_agent k a w)
  | None => blocked
  end.

Definition begin_poll (ctx : Waker) (a : agent) : option agent :=
  match a with
  | Waiting f _ (FIdle _) => Some (Waiting f (Watch (task ctx) false) (FCheck ctx LoadGeneration))
  | Tasking r _ (TIdle _) => Some (Tasking r (Watch (task ctx) false) (TCheck ctx LoadGeneration))
  | _ => None
  end.

(** [Drop] of a future or of a registration. *)
Definition begin_drop (a : agent) : option agent :=
  match a with
  | Waiting f x (FIdle _) =>
      Some (Waiting (Future (token f) None None) x
              match waiter_id f with Some id => FDrop id | None => FGone end)
  | Tasking r x (TIdle _) => Some (Tasking r x TDrop)
  | _ => None
  end.

Definition step (a : action) (w : world) : effect :=
  match a with
  | New shard g =>
      if (Z.of_nat shard <? CANCELLATION_SHARDS) then moves (spawn (Allocating g (AShard shard)) w)
      else blocked
  | Cancel k =>
      match agents w !! k with
      | Some (Owning src _ (SLive _)) => moves (spawn (Cancelling k src CLock) w)
      | _ => blocked
      end
  | DropSource k =>
      if existsb (borrows k) (agents w) then blocked
      else call k w (fun a => match a with
                              | Owning src g (SLive _) => Some (Owning src g SShard)
                              | _ => None
                              end)
  | IntoTask k =>
      match agents w !! k with
      | Some (Owning src g (SLive false)) =>
          moves (spawn (Tasking (into_parts src) (Watch 0 false) (TIdle None))
                   (set_agent k (Owning src g (SLive true)) w))
      | _ => blocked
      end
  | IsCancelled t => if issued w t then moves (spawn (Checking t (inl LoadGeneration)) w) else blocked
  | TryStartDelivery t => if issued w t then moves (spawn (Starting t None) w) else blocked
  | FinishDelivery t => if issued w t then moves (spawn (Finishing t false) w) else blocked
  | NewCancelled t =>
      if issued w t
      then moves (spawn (Waiting (token_cancelled t) (Watch 0 false) (FIdle None)) w) else blocked
  | Poll k ctx => if compatible w ctx then call k w (begin_poll ctx) else blocked
  | DropValue k => call k w begin_drop
  | Run k c => run k c w
  end.

Definition steps (w w' : world) : Prop := exists a, step a w = Done (Some w').

Definition reachable (w : world) : Prop := rtc steps initial w.

(** Runs a schedule. *)
Fixpoint schedule (l : list action) (w : world) : effect :=
  match l with
  | [] => moves w
  | a :: l =>
      let* o := step a w in
      match o with Some w' => schedule l w' | None => blocked end
  end.

End Cancellation.
