(* ===== verification/CancellationShape.v ===== *)
(** * What a step of cancellation changes

    The steps of Cancellation.v as one relation: which agent moves, and which
    slot or shard it writes.  The invariants are proved over this relation. *)

From S2P Require Import Prelude Cancellation.
Import Cancellation.

Local Open Scope Z_scope.

Module CancellationShape.

(** Moves that write neither a slot nor a shard. *)
Inductive quiet (w : world) (k : nat) : agent -> agent -> Prop :=
| quiet_release src g b :
    existsb (borrows k) (agents w) = false ->
    quiet w k (Owning src g (SLive b)) (Owning src g SShard)
| quiet_gone src g d :
    detached_entries d = ∅ -> detached_task d = None ->
    quiet w k (Owning src g (SWake d)) (Owning src g SGone)
| quiet_stale owner src s :
    heap w !! source_slot src = Some s ->
    waiters_generation (waiters s) <> source_generation src ->
    quiet w k (Cancelling owner src CLock) (Cancelling owner src CReturned)
| quiet_cancelled owner src d :
    detached_entries d = ∅ -> detached_task d = None ->
    quiet w k (Cancelling owner src (CWake d)) (Cancelling owner src CReturned)
| quiet_check t load s :
    heap w !! token_slot t = Some s ->
    quiet w k (Checking t (inl load)) (Checking t (observe true (token_generation t) s load))
| quiet_poll f x last ctx :
    compatible w ctx = true ->
    quiet w k (Waiting f x (FIdle last))
      (Waiting f (Watch (task ctx) false) (FCheck ctx LoadGeneration))
| quiet_poll_task r x last ctx :
    compatible w ctx = true ->
    quiet w k (Tasking r x (TIdle last))
      (Tasking r (Watch (task ctx) false) (TCheck ctx LoadGeneration))
| quiet_drop f x last :
    quiet w k (Waiting f x (FIdle last))
      (Waiting (Future (token f) None None) x
         match waiter_id f with Some id => FDrop id | None => FGone end)
| quiet_drop_task r x last : quiet w k (Tasking r x (TIdle last)) (Tasking r x TDrop)
| quiet_load f x ctx load load' s :
    heap w !! token_slot (token f) = Some s ->
    observe true (token_generation (token f)) s load = inl load' ->
    quiet w k (Waiting f x (FCheck ctx load)) (Waiting f x (FCheck ctx load'))
| quiet_ready f x ctx load s :
    heap w !! token_slot (token f) = Some s ->
    observe true (token_generation (token f)) s load = inr true ->
    quiet w k (Waiting f x (FCheck ctx load))
      (Waiting (Future (token f) None None) x
         match waiter_id f with Some id => FUnregister ctx id | None => FIdle (Some Ready) end)
| quiet_unchanged f x ctx load s i :
    heap w !! token_slot (token f) = Some s ->
    observe true (token_generation (token f)) s load = inr false ->
    registered_waker f = Some i -> matches i ctx = true ->
    quiet w k (Waiting f x (FCheck ctx load)) (Waiting f x (FIdle (Some Pending)))
| quiet_changed f x ctx load :
    quiet w k (Waiting f x (FCheck ctx load)) (Waiting f x (FClone ctx))
| quiet_clone f x ctx new :
    task new = task ctx -> compatible w new = true ->
    quiet w k (Waiting f x (FClone ctx)) (Waiting f x (FLock ctx new))
| quiet_released f x ctx a b result :
    quiet w k (Waiting f x (FRelease ctx a b result)) (Waiting f x (FIdle (Some result)))
| quiet_dropped f x a : quiet w k (Waiting f x (FDropped a)) (Waiting f x FGone)
| quiet_load_task r x ctx load load' s :
    heap w !! registration_slot r = Some s ->
    observe false (registration_generation r) s load = inl load' ->
    quiet w k (Tasking r x (TCheck ctx load)) (Tasking r x (TCheck ctx load'))
| quiet_ready_task r x ctx load s :
    heap w !! registration_slot r = Some s ->
    observe false (registration_generation r) s load = inr true ->
    quiet w k (Tasking r x (TCheck ctx load))
      (Tasking (set_registered None r) x (TIdle (Some Ready)))
| quiet_unchanged_task r x ctx load s i :
    heap w !! registration_slot r = Some s ->
    observe false (registration_generation r) s load = inr false ->
    registered_task_waker r = Some i -> matches i ctx = true ->
    quiet w k (Tasking r x (TCheck ctx load)) (Tasking r x (TIdle (Some Pending)))
| quiet_changed_task r x ctx load :
    quiet w k (Tasking r x (TCheck ctx load)) (Tasking r x (TFirst ctx))
| quiet_first_ready r x ctx s :
    heap w !! registration_slot r = Some s ->
    waiters_generation (waiters s) <> registration_generation r \/
      registration_is_cancelled (registration_generation r) s = true ->
    quiet w k (Tasking r x (TFirst ctx)) (Tasking (set_registered None r) x (TIdle (Some Ready)))
| quiet_first_same r x ctx s wk :
    heap w !! registration_slot r = Some s -> holder s = None ->
    waiters_generation (waiters s) = registration_generation r ->
    registration_is_cancelled (registration_generation r) s = false ->
    task_waker (waiters s) = Some wk -> will_wake wk ctx = true ->
    quiet w k (Tasking r x (TFirst ctx))
      (Tasking (set_registered (Some (identity_of wk)) r) x (TIdle (Some Pending)))
| quiet_first_replace r x ctx : quiet w k (Tasking r x (TFirst ctx)) (Tasking r x (TClone ctx))
| quiet_clone_task r x ctx new :
    task new = task ctx -> compatible w new = true ->
    quiet w k (Tasking r x (TClone ctx)) (Tasking r x (TSecond ctx new))
| quiet_released_task r x ctx a b :
    quiet w k (Tasking r x (TRelease ctx a b)) (Tasking r x (TFinal ctx LoadGeneration))
| quiet_final_load r x ctx load load' s :
    heap w !! registration_slot r = Some s ->
    observe false (registration_generation r) s load = inl load' ->
    quiet w k (Tasking r x (TFinal ctx load)) (Tasking r x (TFinal ctx load'))
| quiet_final_ready r x ctx load s :
    heap w !! registration_slot r = Some s ->
    observe false (registration_generation r) s load = inr true ->
    quiet w k (Tasking r x (TFinal ctx load))
      (Tasking (set_registered None r) x (TIdle (Some Ready)))
| quiet_final_pending r x ctx load s :
    heap w !! registration_slot r = Some s ->
    observe false (registration_generation r) s load = inr false ->
    quiet w k (Tasking r x (TFinal ctx load)) (Tasking r x (TIdle (Some Pending)))
| quiet_dropped_task r x a : quiet w k (Tasking r x (TDropped a)) (Tasking r x TGone).

(** Moves of an agent that find the slot at [p] unlocked, and leave it so or
    keep the lock. *)
Inductive section (w : world) (k : nat)
  : agent -> nat -> CancellationSlot -> CancellationSlot -> agent -> Prop :=
| section_reuse g shard index p s x :
    shards w !! shard = Some x -> slots x !! index = Some p ->
    waiters_generation (waiters s) < U64_MAX ->
    entries (waiters s) = ∅ -> task_waker (waiters s) = None ->
    section w k (Allocating g (AWaiters shard index)) p s
      (set_holder (Some k)
         (set_generation (waiters_generation (waiters s) + 1)
            (set_waiters (Waiters (waiters_generation (waiters s) + 1) 1 ∅ None) s)))
      (Allocating g (ACancelled shard index p (waiters_generation (waiters s) + 1)))
| section_end src g s x p :
    shards w !! shard_of (slot_index src) = Some x ->
    slots x !! index_of (slot_index src) = Some p ->
    waiters_generation (waiters s) = source_generation src ->
    section w k (Owning src g SWaiters) p s (set_holder (Some k) (cancel_claim s))
      (Owning src g (SStore p))
| section_cancel owner src s :
    waiters_generation (waiters s) = source_generation src ->
    section w k (Cancelling owner src CLock) (source_slot src) s
      (set_holder (Some k) (cancel_claim s)) (Cancelling owner src CStore)
| section_start t s :
    section w k (Starting t None) (token_slot t) s
      (snd (try_start_delivery (token_generation t) s))
      (Starting t (Some (fst (try_start_delivery (token_generation t) s))))
| section_finish t s :
    section w k (Finishing t false) (token_slot t) s
      (finish_delivery (token_generation t) s) (Finishing t true)
| section_unregister f x ctx id s :
    section w k (Waiting f x (FUnregister ctx id)) (token_slot (token f)) s
      (snd (unregister_locked (token_generation (token f)) id s))
      (Waiting f x
         (FRelease ctx (fst (unregister_locked (token_generation (token f)) id s)) None Ready))
| section_drop f x id s :
    section w k (Waiting f x (FDrop id)) (token_slot (token f)) s
      (snd (unregister_locked (token_generation (token f)) id s))
      (Waiting f x (FDropped (fst (unregister_locked (token_generation (token f)) id s))))
| section_register f x ctx new s f' s' a b result :
    poll_locked f ctx new s = Done (f', s', a, b, result) ->
    section w k (Waiting f x (FLock ctx new)) (token_slot (token f)) s s'
      (Waiting f' x (FRelease ctx a b result))
| section_register_task r x ctx new s r' s' a b :
    second_locked r new s = (r', s', a, b) ->
    section w k (Tasking r x (TSecond ctx new)) (registration_slot r) s s'
      (Tasking r' x (TRelease ctx a b))
| section_drop_task r x s :
    section w k (Tasking r x TDrop) (registration_slot r) s
      (snd (drop_locked (registration_generation r) s))
      (Tasking r x (TDropped (fst (drop_locked (registration_generation r) s)))).

(** Stores of an agent inside a slot's lock. *)
Inductive store (k : nat) : agent -> nat -> CancellationSlot -> CancellationSlot -> agent -> Prop :=
| store_cancelled g shard index p g' s :
    store k (Allocating g (ACancelled shard index p g')) p s (set_cancelled false s)
      (Allocating g (ADelivery shard index p g'))
| store_end src g p s :
    store k (Owning src g (SStore p)) p s (set_holder None (snd (cancel_publish s)))
      (Owning src g (SPush (fst (cancel_publish s))))
| store_cancel owner src s :
    store k (Cancelling owner src CStore) (source_slot src) s
      (set_holder None (snd (cancel_publish s)))
      (Cancelling owner src (CWake (fst (cancel_publish s)))).

(** Moves that take or release the lock of a shard. *)
Inductive sharded (k : nat) (heap : list CancellationSlot)
  : agent -> nat -> CancellationRegistryState -> CancellationRegistryState -> agent -> Prop :=
| sharded_pop g shard sl index rest :
    sharded k heap (Allocating g (AShard shard)) shard (Shard sl (index :: rest) None)
      (Shard sl rest (Some k)) (Allocating g (AWaiters shard index))
| sharded_lock src g sl fr :
    sharded k heap (Owning src g SShard) (shard_of (slot_index src)) (Shard sl fr None)
      (Shard sl fr (Some k)) (Owning src g SWaiters)
| sharded_stale src g x p s :
    slots x !! index_of (slot_index src) = Some p -> heap !! p = Some s ->
    waiters_generation (waiters s) <> source_generation src ->
    sharded k heap (Owning src g SWaiters) (shard_of (slot_index src)) x
      (Shard (slots x) (free x) None) (Owning src g SGone)
| sharded_push src g d x :
    sharded k heap (Owning src g (SPush d)) (shard_of (slot_index src)) x
      (Shard (slots x)
         (if source_generation src =? U64_MAX then free x
          else index_of (slot_index src) :: free x) None)
      (Owning src g (SWake d)).

(** Calls that begin with a new agent. *)
Inductive begins (w : world) : agent -> Prop :=
| begins_new shard g :
    Z.of_nat shard < CANCELLATION_SHARDS -> begins w (Allocating g (AShard shard))
| begins_cancel k src g b :
    agents w !! k = Some (Owning src g (SLive b)) -> begins w (Cancelling k src CLock)
| begins_check t : issued w t = true -> begins w (Checking t (inl LoadGeneration))
| begins_start t : issued w t = true -> begins w (Starting t None)
| begins_finish t : issued w t = true -> begins w (Finishing t false)
| begins_future t :
    issued w t = true -> begins w (Waiting (token_cancelled t) (Watch 0 false) (FIdle None)).

(** An agent that calls a detached waker. *)
Inductive waking : agent -> Waker -> agent -> Prop :=
| waking_end src g d wk rest id :
    wake id d = Woken wk rest -> waking (Owning src g (SWake d)) wk (Owning src g (SWake rest))
| waking_cancel owner src d wk rest id :
    wake id d = Woken wk rest ->
    waking (Cancelling owner src (CWake d)) wk (Cancelling owner src (CWake rest)).

Inductive transition (w : world) : world -> Prop :=
| by_spawn a : begins w a -> transition w (spawn a w)
| by_claim k src g :
    agents w !! k = Some (Owning src g (SLive false)) ->
    transition w (spawn (Tasking (into_parts src) (Watch 0 false) (TIdle None))
                    (set_agent k (Owning src g (SLive true)) w))
| by_quiet k a a' :
    agents w !! k = Some a -> quiet w k a a' -> transition w (set_agent k a' w)
| by_section k a a' p s s' :
    agents w !! k = Some a -> heap w !! p = Some s -> holder s = None ->
    section w k a p s s' a' -> transition w (set_agent k a' (set_slot p s' w))
| by_store k a a' p s s' :
    agents w !! k = Some a -> heap w !! p = Some s ->
    store k a p s s' a' -> transition w (set_agent k a' (set_slot p s' w))
| by_shard k a a' i x x' :
    agents w !! k = Some a -> shards w !! i = Some x ->
    sharded k (heap w) a i x x' a' -> transition w (set_agent k a' (set_shard i x' w))
| by_reused k g shard index p g' s x id :
    agents w !! k = Some (Allocating g (ADelivery shard index p g')) ->
    heap w !! p = Some s -> shards w !! shard = Some x -> slot_id shard index = Done id ->
    transition w
      (set_agent k (Owning (Source p g' id) g (SLive false))
         (set_shard shard (Shard (slots x) (free x) None)
            (set_slot p (set_holder None (set_delivery STATE_RUNNING s)) w)))
| by_fresh k g shard sl id :
    agents w !! k = Some (Allocating g (AShard shard)) ->
    shards w !! shard = Some (Shard sl [] None) ->
    slot_id shard (length sl) = Done id ->
    transition w
      (World (heap w ++ [new_slot])
         (<[shard := Shard (sl ++ [length (heap w)]) [] None]> (shards w))
         (<[k := Owning (Source (length (heap w)) 1 id) g (SLive false)]> (agents w)))
| by_wake k a a' wk :
    agents w !! k = Some a -> waking a wk a' -> transition w (notify wk (set_agent k a' w)).

(** The transitions that are a step of agent [k] itself. *)
Inductive acts (w : world) (k : nat) : world -> Prop :=
| act_quiet a a' :
    agents w !! k = Some a -> quiet w k a a' -> acts w k (set_agent k a' w)
| act_section a a' p s s' :
    agents w !! k = Some a -> heap w !! p = Some s -> holder s = None ->
    section w k a p s s' a' -> acts w k (set_agent k a' (set_slot p s' w))
| act_store a a' p s s' :
    agents w !! k = Some a -> heap w !! p = Some s ->
    store k a p s s' a' -> acts w k (set_agent k a' (set_slot p s' w))
| act_shard a a' i x x' :
    agents w !! k = Some a -> shards w !! i = Some x ->
    sharded k (heap w) a i x x' a' -> acts w k (set_agent k a' (set_shard i x' w))
| act_reused g shard index p g' s x id :
    agents w !! k = Some (Allocating g (ADelivery shard index p g')) ->
    heap w !! p = Some s -> shards w !! shard = Some x -> slot_id shard index = Done id ->
    acts w k
      (set_agent k (Owning (Source p g' id) g (SLive false))
         (set_shard shard (Shard (slots x) (free x) None)
            (set_slot p (set_holder None (set_delivery STATE_RUNNING s)) w)))
| act_fresh g shard sl id :
    agents w !! k = Some (Allocating g (AShard shard)) ->
    shards w !! shard = Some (Shard sl [] None) ->
    slot_id shard (length sl) = Done id ->
    acts w k
      (World (heap w ++ [new_slot])
         (<[shard := Shard (sl ++ [length (heap w)]) [] None]> (shards w))
         (<[k := Owning (Source (length (heap w)) 1 id) g (SLive false)]> (agents w)))
| act_wake a a' wk :
    agents w !! k = Some a -> waking a wk a' -> acts w k (notify wk (set_agent k a' w)).

Lemma acts_transition w k w' : acts w k w' -> transition w w'.
Proof.
  destruct 1; [eapply by_quiet|eapply by_section|eapply by_store|eapply by_shard|eapply by_reused
    |eapply by_fresh|eapply by_wake]; done.
Qed.

(** ** Every step is a transition *)

Lemma unlocked_Some p w s : unlocked p w = Some s -> heap w !! p = Some s /\ holder s = None.
Proof. unfold unlocked. intros. repeat case_match; simplify_eq. done. Qed.

Lemma checked_add_64 a b : checked_add 64 a 1 = Some b -> b = a + 1 /\ a < U64_MAX.
Proof. unfold checked_add, U64_MAX. case_match eqn:E; [|done]. intros [= <-]. lia. Qed.

Lemma wake_all id d : wake id d = AllWoken -> detached_entries d = ∅ /\ detached_task d = None.
Proof. unfold wake. intros. repeat case_match; simplify_eq; try case_bool_decide; done. Qed.

(** Splits a computation that ended in a world. *)
Ltac outcome_split H :=
  repeat match type of H with
         | context [match ?x with _ => _ end] => destruct x eqn:?; simplify_eq/=
         end;
  repeat match goal with
         | E : unlocked _ _ = Some _ |- _ => apply unlocked_Some in E as [? ?]
         | E : checked_add 64 _ 1 = Some _ |- _ => apply checked_add_64 in E as [-> ?]
         | E : negb (_ =? _) = true |- _ => apply negb_true_iff, Z.eqb_neq in E
         | E : negb (_ =? _) = false |- _ => apply negb_false_iff, Z.eqb_eq in E
         | E : bool_decide _ = true |- _ => apply bool_decide_eq_true in E
         | E : wake _ _ = AllWoken |- _ => apply wake_all in E as [? ?]
         end; simplify_eq/=.

Lemma run_allocation_shape k g st w w' :
  agents w !! k = Some (Allocating g st) ->
  run_allocation k g st w = Done (Some w') -> acts w k w'.
Proof.
  intros Hk H. destruct st as [i|i n|i n p g'|i n p g']; simpl in H.
  - destruct (shards w !! i) as [[sl fr h]|] eqn:Ei; [|done].
    destruct fr as [|index rest], h; try done.
    + case_match; [done|]. destruct (slot_id i (length sl)) eqn:Eid; simplify_eq/=.
      by eapply act_fresh.
    + simplify_eq. eapply act_shard; [done..|]. constructor.
  - destruct (shards w !! i) as [x|] eqn:Ei; [|done]. simpl in H.
    outcome_split H. destruct_and!.
    eapply act_section; [done..|]. by econstructor.
  - outcome_split H. eapply act_store; [done..|]. constructor.
  - destruct (heap w !! p) eqn:Ep; [|done]. destruct (shards w !! i) eqn:Ei; [|done].
    destruct (slot_id i n) eqn:Eid; simplify_eq/=. by eapply act_reused.
Qed.

Lemma run_source_shape k c src g st w w' :
  agents w !! k = Some (Owning src g st) ->
  run_source k c src g st w = Done (Some w') -> acts w k w'.
Proof.
  intros Hk H. destruct st as [b| | |p|d|d|]; simpl in H; try done.
  - destruct (shards w !! _) as [[sl fr h]|] eqn:Ei; [|done]. destruct h; [done|].
    simplify_eq. eapply act_shard; [done..|]. constructor.
  - destruct (shards w !! _) as [x|] eqn:Ei; [|done].
    outcome_split H.
    + eapply act_shard; [done..|]. by econstructor.
    + eapply act_section; [done..|]. by econstructor.
  - outcome_split H. eapply act_store; [done..|]. constructor.
  - destruct (shards w !! _) as [x|] eqn:Ei; [|done]. simplify_eq/=.
    eapply act_shard; [done..|]. constructor.
  - unfold run_wake in H. set (id := match c with Entry id => id | _ => 0 end) in H.
    destruct (wake id d) eqn:Ew; simplify_eq/=.
    + eapply act_wake; [done|]. by econstructor.
    + apply wake_all in Ew as [??]. eapply act_quiet; [done|]. by constructor.
Qed.

Lemma run_cancel_shape k c owner src st w w' :
  agents w !! k = Some (Cancelling owner src st) ->
  run_cancel k c owner src st w = Done (Some w') -> acts w k w'.
Proof.
  intros Hk H. destruct st as [| |d|]; simpl in H; try done.
  - outcome_split H.
    + eapply act_quiet; [done|]. by econstructor.
    + eapply act_section; [done..|]. by econstructor.
  - outcome_split H. eapply act_store; [done..|]. constructor.
  - unfold run_wake in H. set (id := match c with Entry id => id | _ => 0 end) in H.
    destruct (wake id d) eqn:Ew; simplify_eq/=.
    + eapply act_wake; [done|]. by econstructor.
    + apply wake_all in Ew as [??]. eapply act_quiet; [done|]. by constructor.
Qed.

Lemma run_clone_shape k c ctx next w w' :
  run_clone k c ctx next w = Done (Some w') ->
  exists new, task new = task ctx /\ compatible w new = true /\ w' = set_agent k (next new) w.
Proof.
  unfold run_clone. destruct c as [|d v|]; [done| |done].
  destruct (compatible _ _) eqn:E; [|done]. intros [= <-].
  by exists (RawWaker d v (task ctx)).
Qed.

Lemma run_future_shape k c f x st w w' :
  agents w !! k = Some (Waiting f x st) ->
  run_future k c f x st w = Done (Some w') -> acts w k w'.
Proof.
  intros Hk H. destruct st as [l|ctx c'|ctx id|ctx|ctx new|ctx a b res|id|a|]; simpl in H; try done.
  - destruct (heap w !! _) as [s|] eqn:Es; [|done].
    destruct (observe _ _ s c') as [c''|[]] eqn:Eo.
    + simplify_eq. eapply act_quiet; [done|]. by econstructor.
    + simplify_eq. eapply act_quiet; [done|].
      pose proof (quiet_ready w k f x ctx c' s Es Eo) as Hq. by destruct (waiter_id f).
    + destruct (registered_waker f) as [i|] eqn:Er; [destruct (matches i ctx) eqn:Em|];
        simplify_eq; eapply act_quiet; try done; by econstructor.
  - outcome_split H. eapply act_section; [done..|].
    match goal with E : unregister_locked _ _ ?s = _ |- _ =>
      pose proof (section_unregister w k f x ctx id s) as Hs; rewrite E in Hs; done end.
  - apply run_clone_shape in H as (new & ? & ? & ->). eapply act_quiet; [done|]. by constructor.
  - destruct (unlocked _ w) as [s|] eqn:Es; [|done]. apply unlocked_Some in Es as [??].
    destruct (poll_locked f ctx new s) as [[[[[f' s'] a] b] res]| |] eqn:El; simplify_eq/=.
    eapply act_section; [done..|]. by constructor.
  - simplify_eq. eapply act_quiet; [done|]. constructor.
  - outcome_split H. eapply act_section; [done..|].
    match goal with E : unregister_locked _ _ ?s = _ |- _ =>
      pose proof (section_drop w k f x id s) as Hs; rewrite E in Hs; done end.
  - simplify_eq. eapply act_quiet; [done|]. constructor.
Qed.

Lemma run_task_shape k c r x st w w' :
  agents w !! k = Some (Tasking r x st) ->
  run_task k c r x st w = Done (Some w') -> acts w k w'.
Proof.
  intros Hk H.
  destruct st as [l|ctx c'|ctx|ctx|ctx new|ctx a b|ctx c'| |a|]; simpl in H; try done.
  - destruct (heap w !! _) as [s|] eqn:Es; [|done].
    destruct (observe _ _ s c') as [c''|[]] eqn:Eo.
    + simplify_eq. eapply act_quiet; [done|]. by econstructor.
    + simplify_eq. eapply act_quiet; [done|]. by econstructor.
    + destruct (registered_task_waker r) as [i|] eqn:Er; [destruct (matches i ctx) eqn:Em|];
        simplify_eq; eapply act_quiet; try done; by econstructor.
  - destruct (unlocked _ w) as [s|] eqn:Es; [|done]. apply unlocked_Some in Es as [??].
    unfold first_locked in H.
    destruct (_ || _) eqn:Eg in H.
    + simplify_eq. eapply act_quiet; [done|]. eapply quiet_first_ready; [done|].
      apply orb_true_iff in Eg as [Eg|Eg]; [left|by right]. by apply negb_true_iff, Z.eqb_neq in Eg.
    + apply orb_false_iff in Eg as [Eg Ec]. apply negb_false_iff, Z.eqb_eq in Eg.
      destruct (task_waker _) as [wk|] eqn:Ew; [destruct (will_wake wk ctx) eqn:E|];
        simplify_eq; eapply act_quiet; try done; by econstructor.
  - apply run_clone_shape in H as (new & ? & ? & ->). eapply act_quiet; [done|]. by constructor.
  - destruct (unlocked _ w) as [s|] eqn:Es; [|done]. apply unlocked_Some in Es as [??].
    destruct (second_locked r new s) as [[[r' s'] a] b] eqn:El; simplify_eq/=.
    eapply act_section; [done..|]. by constructor.
  - simplify_eq. eapply act_quiet; [done|]. constructor.
  - destruct (heap w !! _) as [s|] eqn:Es; [|done].
    destruct (observe _ _ s c') as [c''|[]] eqn:Eo; simplify_eq;
      (eapply act_quiet; [done|]; by econstructor).
  - outcome_split H. eapply act_section; [done..|].
    match goal with E : drop_locked _ ?s = _ |- _ =>
      pose proof (section_drop_task w k r x s) as Hs; rewrite E in Hs; done end.
  - simplify_eq. eapply act_quiet; [done|]. constructor.
Qed.

Lemma run_shape k c w w' : run k c w = Done (Some w') -> acts w k w'.
Proof.
  unfold run. intros H. destruct (agents w !! k) as [a|] eqn:Hk; [|done]. destruct a.
  - by eapply run_allocation_shape.
  - by eapply run_source_shape.
  - by eapply run_cancel_shape.
  - unfold run_check in H. outcome_split H. eapply act_quiet; [done|]. by constructor.
  - unfold run_start in H. outcome_split H. eapply act_section; [done..|].
    match goal with E : try_start_delivery _ ?s = _ |- _ =>
      pose proof (section_start w k t s) as Hs; rewrite E in Hs; done end.
  - unfold run_finish in H. outcome_split H. eapply act_section; [done..|]. constructor.
  - by eapply run_future_shape.
  - by eapply run_task_shape.
Qed.

Lemma call_Some k w p w' :
  call k w p = Done (Some w') ->
  exists a a', agents w !! k = Some a /\ p a = Some a' /\ w' = set_agent k a' w.
Proof.
  unfold call. destruct (agents w !! k) as [a|]; simpl; [|done].
  destruct (p a) as [a'|] eqn:E; [|done]. intros [= <-]. by exists a, a'.
Qed.

Theorem step_transition a w w' : step a w = Done (Some w') -> transition w w'.
Proof.
  destruct a as [i g|k|k|k|t|t|t|t|k ctx|k|k c]; simpl; intros H.
  - destruct (_ <? _) eqn:E; simplify_eq. apply by_spawn. constructor. lia.
  - outcome_split H. apply by_spawn. by econstructor.
  - destruct (existsb _ _) eqn:Eb; [done|].
    apply call_Some in H as (a & a' & Hk & Hp & ->).
    outcome_split Hp. eapply by_quiet; [done|]. by constructor.
  - outcome_split H. by eapply by_claim.
  - outcome_split H. apply by_spawn. by constructor.
  - outcome_split H. apply by_spawn. by constructor.
  - outcome_split H. apply by_spawn. by constructor.
  - outcome_split H. apply by_spawn. by constructor.
  - destruct (compatible w ctx) eqn:Ec; [|done].
    apply call_Some in H as (a & a' & Hk & Hp & ->). unfold begin_poll in Hp.
    outcome_split Hp; (eapply by_quiet; [done|]; by constructor).
  - apply call_Some in H as (a & a' & Hk & Hp & ->). unfold begin_drop in Hp.
    destruct a as [| | | | | |f x [| | | | | | | |]|r x [| | | | | | | | |]];
      simplify_eq/=; eapply by_quiet; try done; constructor.
  - eapply acts_transition, run_shape, H.
Qed.

Lemma steps_transition w w' : steps w w' -> transition w w'.
Proof. intros [a Ha]. by eapply step_transition. Qed.

End CancellationShape.
