(* ===== verification/CancellationInvariant.v ===== *)
(** * Invariants of cancellation: locks, scopes and slots

    Who is inside which mutex, which scope an agent owns or observes, and the
    state of every slot, for all reachable worlds.  A projection of agents is
    read through [view], so that a step that leaves it alone is transparent. *)

From S2P Require Import Prelude Cancellation CancellationShape.
Import Cancellation CancellationShape.

Local Open Scope Z_scope.

Module CancellationInvariant.

(** ** Views of the agents *)
Definition view {B} (f : agent -> option B) (w : world) (k : nat) : option B := agents w !! k ≫= f.

Definition unique {B} (f : agent -> option B) (w : world) : Prop :=
  forall j k x, view f w j = Some x -> view f w k = Some x -> j = k.

Section Views.
Context {B : Type} (f : agent -> option B).

Lemma view_Some w k x :
  view f w k = Some x <-> exists a, agents w !! k = Some a /\ f a = Some x.
Proof. unfold view. apply bind_Some. Qed.

Lemma view_at w k a : agents w !! k = Some a -> view f w k = f a.
Proof. unfold view. by intros ->. Qed.

Lemma view_set w k a a' j :
  agents w !! k = Some a ->
  view f (set_agent k a' w) j = if decide (j = k) then f a' else view f w j.
Proof.
  intros Hk. unfold view. simpl. case_decide as E; [subst|].
  - by rewrite list_lookup_insert_eq by by eapply lookup_lt_Some.
  - by rewrite list_lookup_insert_ne.
Qed.

Lemma view_same w k a a' j :
  agents w !! k = Some a -> f a' = f a -> view f (set_agent k a' w) j = view f w j.
Proof.
  intros Hk Hf. rewrite (view_set w k a a' j Hk). case_decide; [subst|done].
  by rewrite (view_at w k a Hk), Hf.
Qed.

Lemma view_spawn w a j :
  view f (spawn a w) j = if decide (j = length (agents w)) then f a else view f w j.
Proof.
  unfold view. simpl. case_decide as E; [subst|].
  - by rewrite list_lookup_middle.
  - destruct (decide (j < length (agents w))%nat).
    + by rewrite lookup_app_l.
    + rewrite lookup_app_r, lookup_ge_None_2 by (simpl; lia).
      rewrite lookup_ge_None_2; [done|simpl; lia].
Qed.

Lemma view_spawn_None w a j : f a = None -> view f (spawn a w) j = view f w j.
Proof.
  intros Ha. rewrite view_spawn. case_decide as E; [|done]. subst.
  unfold view. by rewrite lookup_ge_None_2.
Qed.

Lemma view_notify w wk j :
  (forall t a, f (notify_agent t a) = f a) -> view f (notify wk w) j = view f w j.
Proof.
  intros Hf. unfold view. simpl. rewrite list_lookup_fmap.
  destruct (agents w !! j); simpl; [apply Hf|done].
Qed.

Lemma view_agents w w' j : agents w' = agents w -> view f w' j = view f w j.
Proof. unfold view. by intros ->. Qed.

(** A projection that stays distinct stays so when one agent's changes to
    something new. *)
Lemma unique_frame w w' : (forall j, view f w' j = view f w j) -> unique f w -> unique f w'.
Proof. intros Hv Hu j k x. rewrite !Hv. apply Hu. Qed.

Lemma unique_new w w' k v :
  (forall j, view f w' j = if decide (j = k) then v else view f w j) ->
  (forall x j, v = Some x -> view f w j = Some x -> j = k) ->
  unique f w -> unique f w'.
Proof.
  intros Hv Hn Hu i j x. rewrite !Hv. repeat case_decide; subst; try done.
  - intros Hx Hj. symmetry. by apply (Hn x).
  - intros Hi Hx. by apply (Hn x).
  - apply Hu.
Qed.

End Views.

(** ** Projections *)

(** The slot and the shard whose lock an agent holds. *)
Definition lock_held (a : agent) : option nat :=
  match a with
  | Allocating _ (ACancelled _ _ p _ | ADelivery _ _ p _) => Some p
  | Owning _ _ (SStore p) => Some p
  | Cancelling _ src CStore => Some (source_slot src)
  | _ => None
  end.

Definition shard_held (a : agent) : option nat :=
  match a with
  | Allocating _ (AWaiters i _ | ACancelled i _ _ _ | ADelivery i _ _ _) => Some i
  | Owning src _ (SWaiters | SStore _ | SPush _) => Some (shard_of (slot_index src))
  | _ => None
  end.

(** The place in the registry that an agent has taken from the free list, or
    created, and not given back. *)
Definition place (a : agent) : option (nat * nat) :=
  match a with
  | Allocating _ (AWaiters i n | ACancelled i n _ _ | ADelivery i n _ _) => Some (i, n)
  | Owning src _ (SLive _ | SShard | SWaiters | SStore _ | SPush _) =>
      Some (shard_of (slot_index src), index_of (slot_index src))
  | _ => None
  end.

(** The scope an agent brings into being or owns, or has owned. *)
Definition scope (a : agent) : option (nat * Z) :=
  match a with
  | Allocating _ (ACancelled _ _ p g | ADelivery _ _ p g) => Some (p, g)
  | Owning src _ _ => Some (source_slot src, source_generation src)
  | _ => None
  end.

Definition source_scope (a : agent) : option (nat * Z) :=
  match a with
  | Owning src _ _ => Some (source_slot src, source_generation src)
  | _ => None
  end.

(** The scope an agent observes. *)
Definition subject (a : agent) : option (nat * Z) :=
  match a with
  | Allocating _ _ | Owning _ _ _ => None
  | Cancelling _ src _ => Some (source_slot src, source_generation src)
  | Checking t _ | Starting t _ | Finishing t _ => Some (token_slot t, token_generation t)
  | Waiting f _ _ => Some (token_slot (token f), token_generation (token f))
  | Tasking r _ _ => Some (registration_slot r, registration_generation r)
  end.

Lemma notify_lock_held t a : lock_held (notify_agent t a) = lock_held a.
Proof. destruct a; simpl; try done; by case_match. Qed.
Lemma notify_shard_held t a : shard_held (notify_agent t a) = shard_held a.
Proof. destruct a; simpl; try done; by case_match. Qed.
Lemma notify_place t a : place (notify_agent t a) = place a.
Proof. destruct a; simpl; try done; by case_match. Qed.
Lemma notify_scope t a : scope (notify_agent t a) = scope a.
Proof. destruct a; simpl; try done; by case_match. Qed.
Lemma notify_source_scope t a : source_scope (notify_agent t a) = source_scope a.
Proof. destruct a; simpl; try done; by case_match. Qed.
Lemma notify_subject t a : subject (notify_agent t a) = subject a.
Proof. destruct a; simpl; try done; by case_match. Qed.

#[export] Hint Resolve notify_lock_held notify_shard_held notify_place notify_scope
  notify_source_scope notify_subject : xlfn.

Lemma poll_locked_token f ctx new s f' s' a b r :
  poll_locked f ctx new s = Done (f', s', a, b, r) -> token f' = token f.
Proof.
  unfold poll_locked. intros H.
  repeat (case_match; simplify_eq/=; try done).
Qed.

Lemma second_locked_scope r new s r' s' a b :
  second_locked r new s = (r', s', a, b) ->
  registration_slot r' = registration_slot r /\ registration_generation r' = registration_generation r.
Proof. unfold second_locked. intros H. by case_match; simplify_eq/=. Qed.

Lemma quiet_scope w k a a' :
  quiet w k a a' -> scope a' = scope a /\ source_scope a' = source_scope a /\
    lock_held a' = lock_held a /\ shard_held a' = shard_held a /\ subject a' = subject a.
Proof. destruct 1; try done; simpl; repeat case_match; done. Qed.

Lemma section_subject w k a p s s' a' :
  section w k a p s s' a' -> subject a' = subject a /\ source_scope a' = source_scope a /\
    shard_held a' = shard_held a.
Proof.
  destruct 1 as [| | | | | | |f x ctx new s f' s' a b r H|r x ctx new s r' s' a b H|]; try done; simpl.
  - by rewrite (poll_locked_token _ _ _ _ _ _ _ _ _ H).
  - by destruct (second_locked_scope _ _ _ _ _ _ _ H) as [-> ->].
Qed.

Lemma sharded_scope k h a i x x' a' :
  sharded k h a i x x' a' -> scope a' = scope a /\ source_scope a' = source_scope a /\
    lock_held a' = lock_held a /\ subject a' = subject a.
Proof. by destruct 1. Qed.

Lemma waking_scope a wk a' :
  waking a wk a' -> scope a' = scope a /\ source_scope a' = source_scope a /\
    lock_held a' = lock_held a /\ subject a' = subject a /\ shard_held a' = shard_held a /\
    place a' = place a.
Proof. by destruct 1. Qed.

Lemma store_scope k a p s s' a' :
  store k a p s s' a' -> scope a' = scope a /\ source_scope a' = source_scope a /\
    shard_held a' = shard_held a /\ subject a' = subject a /\ lock_held a = Some p /\
    place a' = place a.
Proof. by destruct 1. Qed.

Lemma begins_nothing w a :
  begins w a -> scope a = None /\ source_scope a = None /\ lock_held a = None /\ shard_held a = None /\
    place a = None.
Proof. by destruct 1. Qed.

(** ** Slot locks *)
Definition holder_of (w : world) (p : nat) : option nat := heap w !! p ≫= holder.

Definition locks_ok (w : world) : Prop :=
  forall p k, holder_of w p = Some k <-> view lock_held w k = Some p.

Lemma holder_set w p s s' q :
  heap w !! p = Some s ->
  holder_of (set_slot p s' w) q = if decide (q = p) then holder s' else holder_of w q.
Proof.
  intros Hp. unfold holder_of. simpl. case_decide as E; [subst|].
  - by rewrite list_lookup_insert_eq by by eapply lookup_lt_Some.
  - by rewrite list_lookup_insert_ne.
Qed.

Lemma holder_at w p s : heap w !! p = Some s -> holder_of w p = holder s.
Proof. unfold holder_of. by intros ->. Qed.

(** An agent's lock state and a slot's holder change together. *)
Lemma locks_change w w' k p v o :
  (forall j, view lock_held w' j = if decide (j = k) then v else view lock_held w j) ->
  (forall q, holder_of w' q = if decide (q = p) then o else holder_of w q) ->
  (v = Some p /\ o = Some k /\ view lock_held w k = None /\ holder_of w p = None) \/
  (v = None /\ o = None /\ view lock_held w k = Some p) ->
  locks_ok w -> locks_ok w'.
Proof.
  intros Hv Ho Hc Hl q j. rewrite Hv, Ho. destruct Hc as [(-> & -> & Hk & Hp)|(-> & -> & Hk)].
  - repeat case_decide; subst; try done.
    + split; [congruence|]. intros Hj. apply Hl in Hj. congruence.
    + split; [|congruence]. intros Hj. apply Hl in Hj. congruence.
  - repeat case_decide; subst; try done.
    + split; [done|]. intros Hj. apply Hl in Hj, Hk. congruence.
    + split; [|done]. intros Hj. apply Hl in Hj. congruence.
Qed.

Lemma locks_frame w w' :
  (forall j, view lock_held w' j = view lock_held w j) ->
  (forall q, holder_of w' q = holder_of w q) -> locks_ok w -> locks_ok w'.
Proof. intros Hv Ho Hl q j. rewrite Hv, Ho. apply Hl. Qed.

Lemma compare_exchange_holder e n s : holder (snd (compare_exchange e n s)) = holder s.
Proof. unfold compare_exchange. by case_match. Qed.

Lemma poll_locked_holder f ctx new s f' s' a b r :
  poll_locked f ctx new s = Done (f', s', a, b, r) -> holder s' = holder s.
Proof.
  unfold poll_locked. intros H.
  repeat (case_match; simplify_eq/=; try done).
Qed.

Lemma section_lock w k a p s s' a' :
  section w k a p s s' a' -> lock_held a = None /\
    (holder s' = Some k /\ lock_held a' = Some p \/ holder s' = holder s /\ lock_held a' = None).
Proof.
  destruct 1 as [| | | | | | |f x ctx new s f' s' a b r H|r x ctx new s r' s' a b H|]; simpl.
  1-3: by auto.
  - split; [done|right]. split; [|done]. unfold try_start_delivery. case_match; [done|].
    apply compare_exchange_holder.
  - split; [done|right]. split; [|done]. unfold finish_delivery. case_match; [|done].
    apply compare_exchange_holder.
  - split; [done|right]. split; [|done]. unfold unregister_locked. by case_match.
  - split; [done|right]. split; [|done]. unfold unregister_locked. by case_match.
  - split; [done|right]. split; [|done]. by eapply poll_locked_holder.
  - split; [done|right]. split; [|done]. unfold second_locked in H. by case_match; simplify_eq.
  - split; [done|right]. split; [|done]. unfold drop_locked. by case_match.
Qed.

Lemma locks_transition w w' : locks_ok w -> transition w w' -> locks_ok w'.
Proof.
  intros Hl Ht.
  destruct Ht as [a Hb|k src g Hk|k a a' Hk Hq|k a a' p s s' Hk Hp Hn Hs|k a a' p s s' Hk Hp Hs
    |k a a' i x x' Hk Hi Hs|k g i n p g' s x id Hk Hp Hi Hid|k g i sl id Hk Hi Hid|k a a' wk Hk Ha].
  - apply (locks_frame w); [|done..]. intros j. apply view_spawn_None.
    by apply begins_nothing in Hb as (? & ? & ? & ?).
  - apply (locks_frame w); [|done..]. intros j. rewrite view_spawn_None by done.
    by eapply view_same.
  - apply (locks_frame w); [|done..]. intros j. eapply view_same; [done|].
    by apply quiet_scope in Hq as (? & ? & ? & ? & ?).
  - destruct (section_lock _ _ _ _ _ _ _ Hs) as [Ha [[Ho Ha']|[Ho Ha']]].
    + apply (locks_change w _ k p (lock_held a') (holder s')).
      * intros j. by eapply (view_set lock_held (set_slot p s' w)).
      * intros q. by eapply holder_set.
      * left. repeat split; try done; [by rewrite (view_at _ _ _ _ Hk)|by rewrite (holder_at _ _ _ Hp)].
      * done.
    + apply (locks_frame w); [| |done].
      * intros j. rewrite (view_same lock_held (set_slot p s' w) k a a' j Hk) by congruence. done.
      * intros q. etransitivity; [apply (holder_set w p s s' q Hp)|]. case_decide; [|done]. subst.
        by rewrite (holder_at _ _ _ Hp).
  - assert (lock_held a = Some p) by by apply store_scope in Hs as (? & ? & ? & ? & ? & ?).
    assert (lock_held a' = Some p /\ holder s' = holder s \/ lock_held a' = None /\ holder s' = None)
      as [[Ha Ho]|[Ha Ho]] by (destruct Hs; by auto).
    + apply (locks_frame w); [| |done].
      * intros j. rewrite (view_same lock_held (set_slot p s' w) k a a' j Hk) by congruence. done.
      * intros q. etransitivity; [apply (holder_set w p s s' q Hp)|]. case_decide; [|done]. subst.
        by rewrite (holder_at _ _ _ Hp).
    + apply (locks_change w _ k p (lock_held a') (holder s')).
      * intros j. by eapply (view_set lock_held (set_slot p s' w)).
      * intros q. by eapply holder_set.
      * right. repeat split; try done. by rewrite (view_at _ _ _ _ Hk).
      * done.
  - apply (locks_frame w); [|done..]. intros j.
    rewrite (view_same lock_held (set_shard i x' w) k a a' j Hk); [done|].
    by apply sharded_scope in Hs as (? & ? & ? & ?).
  - apply (locks_change w _ k p None None).
    + intros j. by erewrite (view_set lock_held (set_shard i _ (set_slot p _ w))).
    + intros q. by apply (holder_set w p s (set_holder None (set_delivery STATE_RUNNING s)) q).
    + right. repeat split; try done. by rewrite (view_at _ _ _ _ Hk).
    + done.
  - intros p j. unfold holder_of, view. simpl.
    destruct (Hl p j) as [H1 H2]. unfold holder_of, view in H1, H2.
    assert ((<[k:=Owning (Source (length (heap w)) 1 id) g (SLive false)]> (agents w) !! j ≫= lock_held)
            = (agents w !! j ≫= lock_held)) as ->.
    { list_upd k j; [|done]. by rewrite Hk. }
    split.
    + intros H. apply H1. destruct (decide (p < length (heap w))%nat).
      * by rewrite lookup_app_l in H.
      * rewrite lookup_app_r in H by lia. by destruct (p - length (heap w))%nat as [|[]].
    + intros H. apply H2 in H. destruct (heap w !! p) eqn:E; [|done].
      by rewrite lookup_app_l, E by by eapply lookup_lt_Some.
  - apply (locks_frame w); [|done..]. intros j. rewrite view_notify by auto with xlfn.
    eapply view_same; [done|]. by apply waking_scope in Ha as (? & ? & ? & ? & ?).
Qed.


(** ** Slots *)
Record slot_ok (s : CancellationSlot) : Prop := SlotOk {
  so_generation : waiters_generation (waiters s) = generation s;
  so_bounds : 1 <= generation s <= U64_MAX;
  so_next : 1 <= next_id (waiters s) <= U64_MAX;
  so_ids : forall id x, entries (waiters s) !! id = Some x -> 1 <= id < next_id (waiters s);
  so_ended : cancelled s = true -> entries (waiters s) = ∅ /\ task_waker (waiters s) = None;
  so_unlocked : holder s = None -> delivery_state s = STATE_CANCELED -> cancelled s = true;
}.

Definition slots_ok (w : world) : Prop := forall p s, heap w !! p = Some s -> slot_ok s.

Lemma slot_ok_new : slot_ok new_slot.
Proof. by constructor. Qed.

Lemma slot_ok_held s k :
  slot_ok s -> slot_ok (set_holder (Some k) (cancel_claim s)).
Proof.
  intros [? ? ? ? ? ?]. unfold cancel_claim, compare_exchange.
  case_match; constructor; simpl; done.
Qed.

Lemma slot_ok_publish s : slot_ok s -> slot_ok (set_holder None (snd (cancel_publish s))).
Proof. intros [? ? ? ? ? ?]. constructor; simpl; try done. Qed.

Lemma slot_ok_delivery d s :
  d <> STATE_CANCELED -> slot_ok s -> slot_ok (set_delivery d s).
Proof. intros Hd [? ? ? ? ? ?]. by constructor. Qed.

Lemma slot_ok_waiters s x :
  slot_ok s -> waiters_generation x = generation s -> 1 <= next_id x <= U64_MAX ->
  (forall id y, entries x !! id = Some y -> 1 <= id < next_id x) ->
  (cancelled s = true -> entries x = ∅ /\ task_waker x = None) -> slot_ok (set_waiters x s).
Proof. intros [? ? ? ? ? ?] ? ? ? ?. by constructor. Qed.

Lemma slot_ok_unregister s g id : slot_ok s -> slot_ok (snd (unregister_locked g id s)).
Proof.
  intros Hs. unfold unregister_locked. case_match; [|done]. destruct Hs eqn:E.
  apply slot_ok_waiters; simpl; try done.
  - intros i y Hi. apply lookup_delete_Some in Hi as [??]. by eapply so_ids0.
  - intros Hc. destruct (so_ended0 Hc) as [-> ->]. by rewrite delete_empty.
Qed.

Lemma token_not_cancelled g s :
  token_is_cancelled g s = false ->
  generation s = g /\ cancelled s = false /\ delivery_state s <> STATE_CANCELED.
Proof.
  unfold token_is_cancelled. intros H. apply orb_false_iff in H as [Hg H].
  apply orb_false_iff in H as [H _]. apply orb_false_iff in H as [Hc Hd].
  apply negb_false_iff, Z.eqb_eq in Hg. apply Z.eqb_neq in Hd. done.
Qed.

Lemma registration_not_cancelled g s :
  registration_is_cancelled g s = false -> generation s = g /\ cancelled s = false.
Proof.
  unfold registration_is_cancelled. intros H. apply orb_false_iff in H as [H _].
  apply orb_false_iff in H as [Hg Hc]. apply negb_false_iff, Z.eqb_eq in Hg. done.
Qed.

(** The two outcomes of [poll_locked]. *)
Inductive registers (f : Cancelled) (ctx new : Waker) (s : CancellationSlot)
  : Cancelled -> CancellationSlot -> option Waker -> option Waker -> poll -> Prop :=
| registers_late :
    waiters_generation (waiters s) <> token_generation (token f) ->
    registers f ctx new s (Future (token f) None None) s None (Some new) Ready
| registers_gone id :
    waiter_id f = Some id -> waiters_generation (waiters s) = token_generation (token f) ->
    token_is_cancelled (token_generation (token f)) s = true ->
    registers f ctx new s (Future (token f) None None)
      (set_waiters (set_entries (delete id (entries (waiters s))) (waiters s)) s)
      (entries (waiters s) !! id) (Some new) Ready
| registers_over :
    token_is_cancelled (token_generation (token f)) s = true ->
    registers f ctx new s (Future (token f) None None) s None (Some new) Ready
| registers_same id wk :
    waiter_id f = Some id -> token_is_cancelled (token_generation (token f)) s = false ->
    waiters_generation (waiters s) = token_generation (token f) ->
    entries (waiters s) !! id = Some wk -> will_wake wk ctx = true ->
    registers f ctx new s (Future (token f) (Some id) (Some (identity_of wk))) s None (Some new)
      Pending
| registers_kept id n wk :
    token_is_cancelled (token_generation (token f)) s = false ->
    waiters_generation (waiters s) = token_generation (token f) ->
    entries (waiters s) !! id = Some wk -> will_wake wk ctx = true ->
    waiter_id f = None -> id = next_id (waiters s) -> n = id + 1 -> id < U64_MAX ->
    registers f ctx new s (Future (token f) (Some id) (Some (identity_of wk)))
      (set_waiters (set_next_id n (waiters s)) s) None (Some new) Pending
| registers_new id n :
    token_is_cancelled (token_generation (token f)) s = false ->
    waiters_generation (waiters s) = token_generation (token f) ->
    (waiter_id f = Some id /\ n = next_id (waiters s) \/
     waiter_id f = None /\ id = next_id (waiters s) /\ n = id + 1 /\ id < U64_MAX) ->
    registers f ctx new s (Future (token f) (Some id) (Some (identity_of new)))
      (set_waiters (Waiters (waiters_generation (waiters s)) n
                      (<[id := new]> (entries (waiters s))) (task_waker (waiters s))) s)
      (entries (waiters s) !! id) None Pending.

Lemma set_waiters_same s : set_waiters (waiters s) s = s.
Proof. by destruct s. Qed.

Lemma poll_locked_registers f ctx new s f' s' a b r :
  poll_locked f ctx new s = Done (f', s', a, b, r) -> registers f ctx new s f' s' a b r.
Proof.
  unfold poll_locked. intros H.
  destruct (negb _) eqn:Eg; [|apply negb_false_iff, Z.eqb_eq in Eg].
  { simplify_eq. constructor. by apply negb_true_iff, Z.eqb_neq in Eg. }
  destruct (token_is_cancelled _ s) eqn:Ec.
  { destruct (waiter_id f) eqn:Ei; simplify_eq; by constructor. }
  destruct (waiter_id f) as [id|] eqn:Ei; simpl in H.
  - destruct (entries (waiters s) !! id) as [wk|] eqn:Ee.
    + destruct (will_wake wk ctx) eqn:Ew; simplify_eq.
      * rewrite set_waiters_same. by eapply registers_same.
      * pose proof (registers_new f ctx new s id (next_id (waiters s))) as Hr.
        rewrite Ee in Hr. apply Hr; auto.
    + simplify_eq. pose proof (registers_new f ctx new s id (next_id (waiters s))) as Hr.
      rewrite Ee in Hr. apply Hr; auto.
  - destruct (checked_add 64 _ 1) as [n|] eqn:En; [|done]. apply checked_add_64 in En as [-> Hn].
    simpl in H. destruct (entries (waiters s) !! next_id (waiters s)) as [wk|] eqn:Ee.
    + destruct (will_wake wk ctx) eqn:Ew; simplify_eq.
      * by eapply registers_kept.
      * pose proof (registers_new f ctx new s (next_id (waiters s)) (next_id (waiters s) + 1) Ec Eg) as Hr.
        rewrite Ee in Hr. apply Hr; auto.
    + simplify_eq. pose proof (registers_new f ctx new s (next_id (waiters s)) (next_id (waiters s) + 1) Ec Eg) as Hr.
      rewrite Ee in Hr. apply Hr; auto.
Qed.

Lemma registers_slot_ok f ctx new s f' s' a b r :
  registers f ctx new s f' s' a b r -> slot_ok s ->
  (forall id, waiter_id f = Some id -> generation s = token_generation (token f) ->
    1 <= id < next_id (waiters s)) -> slot_ok s'.
Proof.
  intros Hr Hs Hf. pose proof Hs as [Hg Hb Hn Hi He Hu].
  destruct Hr as [| | |id wk|id n wk Hc Hw He' ? ? -> -> ?|id n Hc Hw Hid]; try done.
  - apply slot_ok_waiters; simpl; try done.
    + intros i y Hy. apply lookup_delete_Some in Hy as [??]. by eapply Hi.
    + intros Hc. destruct (He Hc) as [-> ->]. by rewrite delete_empty.
  - apply Hi in He'. lia.
  - apply token_not_cancelled in Hc as (Hgen & Hc & _).
    apply slot_ok_waiters; simpl; try congruence.
    + destruct Hid as [[? ->]|(? & -> & -> & ?)]; lia.
    + intros i y Hy. apply lookup_insert_Some in Hy as [[<- <-]|[_ Hy]].
      * destruct Hid as [[Hid ->]|(? & -> & -> & ?)]; [by apply Hf|lia].
      * apply Hi in Hy. destruct Hid as [[Hid ->]|(? & -> & -> & ?)]; lia.
Qed.

Lemma second_slot_ok r new s r' s' a b :
  second_locked r new s = (r', s', a, b) -> slot_ok s -> slot_ok s'.
Proof.
  unfold second_locked. intros H Hs. destruct (_ || _) eqn:E; simplify_eq; [done|].
  apply orb_false_iff in E as [E Ec]. apply registration_not_cancelled in Ec as [Hg Hc].
  pose proof Hs as []. apply slot_ok_waiters; simpl; try done. congruence.
Qed.

Lemma drop_slot_ok g s : slot_ok s -> slot_ok (snd (drop_locked g s)).
Proof.
  intros Hs. unfold drop_locked. case_match; [|done]. pose proof Hs as [].
  apply slot_ok_waiters; simpl; try done. intros Hc. by destruct (so_ended0 Hc).
Qed.


(** Inside a critical section only a reuse changes the generation, and none
    changes whether the scope ended. *)
Lemma compare_exchange_fields e n s :
  generation (snd (compare_exchange e n s)) = generation s /\
  cancelled (snd (compare_exchange e n s)) = cancelled s.
Proof. unfold compare_exchange. by case_match. Qed.

Lemma start_fields g s :
  generation (snd (try_start_delivery g s)) = generation s /\
  cancelled (snd (try_start_delivery g s)) = cancelled s.
Proof. unfold try_start_delivery. case_match; [done|]. apply compare_exchange_fields. Qed.

Lemma finish_fields g s :
  generation (finish_delivery g s) = generation s /\ cancelled (finish_delivery g s) = cancelled s.
Proof. unfold finish_delivery. case_match; [|done]. apply compare_exchange_fields. Qed.

Lemma section_fields w k a p s s' a' :
  section w k a p s s' a' ->
  (exists g i n x, a = Allocating g (AWaiters i n) /\ shards w !! i = Some x /\
     slots x !! n = Some p /\ generation s' = waiters_generation (waiters s) + 1 /\
     cancelled s' = cancelled s /\ waiters_generation (waiters s) < U64_MAX /\
     entries (waiters s) = ∅ /\ task_waker (waiters s) = None) \/
  generation s' = generation s /\ cancelled s' = cancelled s.
Proof.
  destruct 1 as [g i n p s x ? ? ? ? ?|src g s x p ? ?|owner src s|t s|t s|f x ctx id s|f x id s
      |f x ctx new s f' s' a b r H|r x ctx new s r' s' a b H|r x s].
  1: left; by exists g, i, n, x.
  all: right; simpl.
  1, 2: unfold cancel_claim, compare_exchange; by case_match.
  - apply start_fields.
  - apply finish_fields.
  - unfold unregister_locked. by case_match.
  - unfold unregister_locked. by case_match.
  - apply poll_locked_registers in H. by destruct H.
  - unfold second_locked in H. by case_match; simplify_eq.
  - unfold drop_locked. by case_match.
Qed.

End CancellationInvariant.
