(* ===== verification/CancellationScopes.v ===== *)
(** * Scopes of cancellation

    Each generation of a slot is one scope, brought into being and ended by one
    source.  This file shows which worlds are reachable as far as scopes are
    concerned: the places of the registry and the scopes are owned once, the
    generations only grow, observers only know scopes that were issued. *)

From S2P Require Import Prelude Cancellation CancellationShape CancellationInvariant.
Import Cancellation CancellationShape CancellationInvariant.

Local Open Scope Z_scope.

Module CancellationScopes.

(** ** What a transition writes *)
Inductive written (w : world) (p : nat) (s s' : CancellationSlot) : Prop :=
| written_section k a a' :
    agents w !! k = Some a -> holder s = None -> section w k a p s s' a' -> written w p s s'
| written_store k a a' :
    agents w !! k = Some a -> store k a p s s' a' -> written w p s s'
| written_ready k g i n g' :
    agents w !! k = Some (Allocating g (ADelivery i n p g')) ->
    s' = set_holder None (set_delivery STATE_RUNNING s) -> written w p s s'.

Lemma heap_forward w w' p s :
  transition w w' -> heap w !! p = Some s ->
  exists s', heap w' !! p = Some s' /\ (s' = s \/ written w p s s').
Proof.
  intros Ht Hp.
  destruct Ht as [a Hb|k src g Hk|k a a' Hk Hq|k a a' q t t' Hk Hq Hn Hs|k a a' q t t' Hk Hq Hs
    |k a a' i x x' Hk Hi Hs|k g i n q g' t x id Hk Hq Hi Hid|k g i sl id Hk Hi Hid|k a a' wk Hk Ha];
    simpl; try by (exists s; auto).
  - destruct (decide (p = q)) as [->|]; [|exists s; rewrite list_lookup_insert_ne by done; auto].
    rewrite list_lookup_insert_eq by by eapply lookup_lt_Some. exists t'. split; [done|right].
    rewrite Hp in Hq. simplify_eq. by eapply written_section.
  - destruct (decide (p = q)) as [->|]; [|exists s; rewrite list_lookup_insert_ne by done; auto].
    rewrite list_lookup_insert_eq by by eapply lookup_lt_Some. exists t'. split; [done|right].
    rewrite Hp in Hq. simplify_eq. by eapply written_store.
  - destruct (decide (p = q)) as [->|]; [|exists s; rewrite list_lookup_insert_ne by done; auto].
    rewrite list_lookup_insert_eq by by eapply lookup_lt_Some. eexists. split; [done|right].
    rewrite Hp in Hq. simplify_eq. by eapply written_ready.
  - exists s. rewrite lookup_app_l by by eapply lookup_lt_Some. auto.
Qed.

Lemma heap_length w w' :
  transition w w' ->
  length (heap w') = length (heap w) \/
  (length (heap w') = S (length (heap w)) /\ heap w' !! length (heap w) = Some new_slot).
Proof.
  destruct 1; simpl; rewrite ?length_insert; auto.
  right. rewrite length_app, list_lookup_middle by done. simpl. split; [lia|done].
Qed.

Lemma heap_backward w w' p s' :
  transition w w' -> heap w' !! p = Some s' ->
  (exists s, heap w !! p = Some s /\ (s' = s \/ written w p s s')) \/
  (p = length (heap w) /\ s' = new_slot).
Proof.
  intros Ht Hp. destruct (heap w !! p) as [s|] eqn:E.
  - left. exists s. split; [done|].
    destruct (heap_forward w w' p s Ht E) as (t & Ht' & H). by simplify_eq.
  - right. apply lookup_ge_None_1 in E. apply lookup_lt_Some in Hp as Hl.
    destruct (heap_length w w' Ht) as [Heq|[Heq Hn]]; [lia|].
    assert (p = length (heap w)) as -> by lia. by simplify_eq.
Qed.

(** Generations grow by one at a reuse and are kept otherwise. *)
Lemma written_generation w p s s' :
  slot_ok s -> written w p s s' ->
  generation s' = generation s /\ (cancelled s = true -> cancelled s' = true) \/
  (generation s' = generation s + 1 /\ cancelled s' = cancelled s /\
   exists k g i n, agents w !! k = Some (Allocating g (AWaiters i n))) \/
  (generation s' = generation s /\
   exists k g i n g', agents w !! k = Some (Allocating g (ACancelled i n p g'))).
Proof.
  intros Hs [k a a' Hk Hn Ht|k a a' Hk Ht|k g i n g' Hk ->]; [| |by left].
  - apply section_fields in Ht as [(g & i & n & x & -> & _ & _ & Hg & Hc & _)|[Hg Hc]].
    + right. left. rewrite Hg, (so_generation _ Hs). split; [done|]. split; [done|]. by exists k, g, i, n.
    + left. split; [done|]. by rewrite Hc.
  - destruct Ht; simpl; [|by left..]. right. right. split; [done|]. by repeat eexists.
Qed.

Lemma generation_grows w w' p s :
  slots_ok w -> transition w w' -> heap w !! p = Some s ->
  exists s', heap w' !! p = Some s' /\ generation s <= generation s'.
Proof.
  intros Hok Ht Hp. destruct (heap_forward w w' p s Ht Hp) as (s' & Hp' & [->|Hw]).
  - exists s. split; [done|lia].
  - exists s'. split; [done|].
    destruct (written_generation w p s s' (Hok _ _ Hp) Hw) as [[-> _]|[(-> & _)|(-> & _)]]; lia.
Qed.

(** ** The agent that moves

    Every transition moves one agent or adds one.  To the others it only does
    what [aside] says: a woken task, a source whose task was claimed. *)
Inductive aside : agent -> agent -> Prop :=
| aside_same a : aside a a
| aside_notified t a : aside a (notify_agent t a)
| aside_claimed src g : aside (Owning src g (SLive false)) (Owning src g (SLive true)).

Inductive moved (w w' : world) (k : nat) (a a' : agent) : Prop :=
| moved_quiet :
    quiet w k a a' -> heap w' = heap w -> shards w' = shards w -> moved w w' k a a'
| moved_section p s s' :
    heap w !! p = Some s -> holder s = None -> section w k a p s s' a' ->
    heap w' = <[p := s']> (heap w) -> shards w' = shards w -> moved w w' k a a'
| moved_store p s s' :
    heap w !! p = Some s -> store k a p s s' a' ->
    heap w' = <[p := s']> (heap w) -> shards w' = shards w -> moved w w' k a a'
| moved_shard i x x' :
    shards w !! i = Some x -> sharded k (heap w) a i x x' a' ->
    heap w' = heap w -> shards w' = <[i := x']> (shards w) -> moved w w' k a a'
| moved_ready g i n p g' s x id :
    a = Allocating g (ADelivery i n p g') -> a' = Owning (Source p g' id) g (SLive false) ->
    heap w !! p = Some s -> shards w !! i = Some x -> slot_id i n = Done id ->
    heap w' = <[p := set_holder None (set_delivery STATE_RUNNING s)]> (heap w) ->
    shards w' = <[i := Shard (slots x) (free x) None]> (shards w) -> moved w w' k a a'
| moved_fresh g i sl id :
    a = Allocating g (AShard i) ->
    a' = Owning (Source (length (heap w)) 1 id) g (SLive false) ->
    shards w !! i = Some (Shard sl [] None) -> slot_id i (length sl) = Done id ->
    heap w' = heap w ++ [new_slot] ->
    shards w' = <[i := Shard (sl ++ [length (heap w)]) [] None]> (shards w) -> moved w w' k a a'
| moved_waking wk :
    waking a wk a' -> heap w' = heap w -> shards w' = shards w ->
    agents w' = map (notify_agent (task wk)) (<[k := a']> (agents w)) -> moved w w' k a a'.

(** A new agent: a call that begins, or the task of a claimed source. *)
Inductive starts (w : world) : agent -> Prop :=
| starts_call a : begins w a -> starts w a
| starts_task k src g :
    agents w !! k = Some (Owning src g (SLive false)) ->
    starts w (Tasking (into_parts src) (Watch 0 false) (TIdle None)).

Inductive one_moves (w w' : world) (m : nat) : Prop :=
| one_moved a a' :
    agents w !! m = Some a -> agents w' !! m = Some a' -> moved w w' m a a' -> one_moves w w' m
| one_started a' :
    m = length (agents w) -> agents w' !! m = Some a' -> starts w a' ->
    heap w' = heap w -> shards w' = shards w -> one_moves w w' m.

Lemma set_agent_lookup w k a a' :
  agents w !! k = Some a -> agents (set_agent k a' w) !! k = Some a'.
Proof. intros Hk. simpl. by rewrite list_lookup_insert_eq by by eapply lookup_lt_Some. Qed.

Lemma waking_notify a wk a' t : waking a wk a' -> notify_agent t a' = a'.
Proof. by destruct 1. Qed.

Lemma agents_step w w' :
  transition w w' ->
  exists m, one_moves w w' m /\
    (forall j, j <> m -> agents w !! j = None -> agents w' !! j = None) /\
    forall j a, j <> m -> agents w !! j = Some a -> exists a', agents w' !! j = Some a' /\ aside a a'.
Proof.
  assert (Hset : forall u k a', agents u = agents w ->
    (forall j, j <> k -> agents w !! j = None -> agents (set_agent k a' u) !! j = None) /\
    forall j a, j <> k -> agents w !! j = Some a ->
      exists b, agents (set_agent k a' u) !! j = Some b /\ aside a b).
  { intros u k a' Hu. simpl. rewrite Hu. split; intros j.
    - intros. by rewrite list_lookup_insert_ne.
    - intros a Hj Ha. exists a. rewrite list_lookup_insert_ne by done. split; [done|constructor]. }
  assert (Hadd : forall a j (l : list agent), j <> length l -> l !! j = None -> (l ++ [a]) !! j = None).
  { intros a j l Hj Hn. apply lookup_ge_None in Hn. apply lookup_ge_None.
    rewrite length_app. simpl. lia. }
  intros Ht.
  destruct Ht as [a Hb|k src g Hk|k a a' Hk Hq|k a a' q t t' Hk Hq Hn Hs|k a a' q t t' Hk Hq Hs
    |k a a' i x x' Hk Hi Hs|k g i n q g' t x id Hk Hq Hi Hid|k g i sl id Hk Hi Hid|k a a' wk Hk Ha].
  - exists (length (agents w)). split; [|split].
    + eapply (one_started _ _ _ a); [done| |by constructor|done..]. simpl. by rewrite list_lookup_middle.
    + intros j Hj. by apply Hadd.
    + intros j b Hj Hb'. exists b. simpl. rewrite lookup_app_l by by eapply lookup_lt_Some.
      split; [done|constructor].
  - exists (length (agents w)). split; [|split].
    + eapply one_started; [done| |by econstructor|done..]. simpl.
      rewrite list_lookup_middle by by rewrite length_insert. done.
    + intros j Hj Hn. simpl. apply Hadd; [by rewrite length_insert|].
      apply lookup_ge_None. rewrite length_insert. by apply lookup_ge_None.
    + intros j b Hj Hb'. simpl.
      rewrite lookup_app_l by (rewrite length_insert; by eapply lookup_lt_Some).
      list_upd k j; [|exists b; split; [done|constructor]].
      simplify_eq. eexists. split; [done|constructor].
  - exists k. split; [|by apply Hset].
    eapply one_moved; [done|by eapply set_agent_lookup|]. by apply moved_quiet.
  - exists k. split; [|by apply Hset].
    eapply one_moved; [done|by eapply (set_agent_lookup (set_slot q t' w))|]. by eapply moved_section.
  - exists k. split; [|by apply Hset].
    eapply one_moved; [done|by eapply (set_agent_lookup (set_slot q t' w))|]. by eapply moved_store.
  - exists k. split; [|by apply Hset].
    eapply one_moved; [done|by eapply (set_agent_lookup (set_shard i x' w))|]. by eapply moved_shard.
  - exists k. split; [|by apply Hset].
    eapply one_moved; [done|by eapply (set_agent_lookup (set_shard i _ (set_slot q _ w)))|].
    by eapply moved_ready.
  - exists k. split; [|by apply (Hset w)].
    eapply one_moved; [done|by eapply (set_agent_lookup w)|]. by eapply moved_fresh.
  - exists k. split; [|split].
    + eapply one_moved; [done| |by eapply moved_waking].
      simpl. rewrite list_lookup_fmap. pose proof (set_agent_lookup w k a a' Hk) as E.
      simpl in E. rewrite E. simpl. by rewrite (waking_notify a wk a').
    + intros j Hj Hn. simpl. rewrite list_lookup_fmap, list_lookup_insert_ne by done. by rewrite Hn.
    + intros j b Hj Hb. simpl. rewrite list_lookup_fmap, list_lookup_insert_ne by done. rewrite Hb.
      eexists. split; [done|]. apply aside_notified.
Qed.

(** Views over a step: of a projection that [aside] respects, only the mover's
    changes. *)
Lemma view_step {B} (f : agent -> option B) w w' :
  (forall a a', aside a a' -> f a' = f a) -> transition w w' ->
  exists m, one_moves w w' m /\ forall j, j <> m -> view f w' j = view f w j.
Proof.
  intros Hf Ht. destruct (agents_step w w' Ht) as (m & Hm & Hnone & Hsome).
  exists m. split; [done|]. intros j Hj. unfold view. destruct (agents w !! j) as [a|] eqn:E.
  - destruct (Hsome j a Hj E) as (a' & -> & Ha). simpl. by apply Hf.
  - by rewrite (Hnone j Hj E).
Qed.

Lemma aside_scope a a' : aside a a' -> scope a' = scope a.
Proof. destruct 1; auto with xlfn. Qed.
Lemma aside_source_scope a a' : aside a a' -> source_scope a' = source_scope a.
Proof. destruct 1; auto with xlfn. Qed.
Lemma aside_subject a a' : aside a a' -> subject a' = subject a.
Proof. destruct 1; auto with xlfn. Qed.
Lemma aside_place a a' : aside a a' -> place a' = place a.
Proof. destruct 1; auto with xlfn. Qed.
Lemma aside_shard_held a a' : aside a a' -> shard_held a' = shard_held a.
Proof. destruct 1; auto with xlfn. Qed.

(** ** Scopes and observers *)
Definition scopes_ok (w : world) : Prop :=
  unique scope w /\
  forall k p g, view scope w k = Some (p, g) ->
    exists s, heap w !! p = Some s /\ 1 <= g <= generation s.

Lemma starts_nothing w a :
  starts w a -> scope a = None /\ source_scope a = None /\ shard_held a = None /\ place a = None.
Proof. destruct 1 as [a Hb|]; [|done]. by apply begins_nothing in Hb as (? & ? & ? & ? & ?). Qed.

(** The mover keeps its scope or brings a newer one into being. *)
Lemma scope_moved w w' k a a' :
  slots_ok w -> moved w w' k a a' ->
  scope a' = scope a \/
  (scope a = None /\ exists p s', scope a' = Some (p, generation s') /\
    heap w' !! p = Some s' /\ 1 <= generation s' /\
    forall s, heap w !! p = Some s -> generation s < generation s').
Proof.
  intros Hok Hm.
  destruct Hm as [Hq ? ?|q t t' Hq Hn Hs Hh ?|q t t' Hq Hs ? ?|i x x' Hi Hs ? ?
    |g i n q g' t x id -> -> ? ? ? ? ?|g i sl id -> -> Hi Hid Hh ?|wk Ha ? ?].
  - left. by apply quiet_scope in Hq as (? & ? & ? & ? & ?).
  - destruct Hs as [g i n p s x ? ? ? ? ?|src g s x p ? ?|owner src s|t s|t s|f x ctx id s|f x id s
      |f x ctx new s f' s' a b r H'|r x ctx new s r' s' a b H'|r x s]; try by left.
    right. split; [done|]. exists p. eexists. split; [|split].
    2: { rewrite Hh, list_lookup_insert_eq by (by eapply lookup_lt_Some). done. }
    1: done.
    simpl. pose proof (Hok _ _ Hq) as [Hg ? ? ? ?]. rewrite Hg. split; [lia|].
    intros ? Hp. simplify_eq. lia.
  - left. by apply store_scope in Hs as (? & ? & ? & ? & ?).
  - left. by apply sharded_scope in Hs as (? & ? & ? & ?).
  - by left.
  - right. split; [done|]. exists (length (heap w)), new_slot. split; [done|].
    rewrite Hh, list_lookup_middle by done. split; [done|]. split; [done|].
    intros s Hs. apply lookup_lt_Some in Hs. lia.
  - left. by apply waking_scope in Ha as (? & ? & ? & ? & ? & ?).
Qed.

Lemma scopes_transition w w' : slots_ok w -> scopes_ok w -> transition w w' -> scopes_ok w'.
Proof.
  intros Hok [Hu Hb] Ht.
  assert (Hkeep : forall k p g, view scope w k = Some (p, g) ->
    exists s, heap w' !! p = Some s /\ 1 <= g <= generation s).
  { intros k p g Hk. destruct (Hb _ _ _ Hk) as (s & Hs & ?).
    destruct (generation_grows w w' p s Hok Ht Hs) as (s' & ? & ?). exists s'. split; [done|lia]. }
  destruct (view_step scope w w' aside_scope Ht) as (m & Hm & Hv).
  assert (view scope w' m = view scope w m \/
    (exists p s', view scope w' m = Some (p, generation s') /\ heap w' !! p = Some s' /\
       1 <= generation s' /\ forall s, heap w !! p = Some s -> generation s < generation s'))
    as [Hsame|(p & s' & Hnew & Hp & Hg & Hn)].
  { destruct Hm as [a a' Ha Ha' Hm|a' Hm Ha' Hs ? ?].
    - rewrite !(view_at scope _ _ _ Ha), !(view_at scope _ _ _ Ha').
      destruct (scope_moved w w' m a a' Hok Hm) as [|[_ H]]; auto.
    - left. rewrite (view_at scope _ _ _ Ha'). apply starts_nothing in Hs as (-> & _).
      unfold view. by rewrite lookup_ge_None_2 by lia. }
  - assert (forall j, view scope w' j = view scope w j) as Hall.
    { intros j. destruct (decide (j = m)) as [->|]; auto. }
    split; [by eapply unique_frame|]. intros k p g. rewrite Hall. apply Hkeep.
  - assert (forall j, view scope w' j = if decide (j = m) then Some (p, generation s')
      else view scope w j) as Hall by (intros j; case_decide; subst; auto).
    split.
    + eapply unique_new; [done| |done]. intros x j [= <-] Hj. exfalso.
      destruct (Hb _ _ _ Hj) as (s & Hs & ?). apply Hn in Hs. lia.
    + intros j q g. rewrite Hall. case_decide; [|apply Hkeep]. intros [= <- <-].
      exists s'. split; [done|lia].
Qed.

(** A source's scope stays known. *)
Lemma source_scope_moved w w' k a a' x :
  moved w w' k a a' -> source_scope a = Some x -> source_scope a' = Some x.
Proof.
  destruct 1 as [Hq ? ?|q t t' Hq Hn Hs Hh ?|q t t' Hq Hs ? ?|i y x' Hi Hs ? ?
    |g i n q g' t y id -> -> ? ? ? ? ?|g i sl id -> -> Hi Hid Hh ?|wk Ha ? ?]; try done.
  - by apply quiet_scope in Hq as (? & -> & ? & ? & ?).
  - by apply section_subject in Hs as (? & -> & ?).
  - by apply store_scope in Hs as (? & -> & ? & ? & ?).
  - by apply sharded_scope in Hs as (? & -> & ? & ?).
  - by apply waking_scope in Ha as (? & -> & ? & ? & ? & ?).
Qed.

Lemma source_scope_kept w w' k x :
  transition w w' -> view source_scope w k = Some x -> view source_scope w' k = Some x.
Proof.
  intros Ht Hx. destruct (view_step source_scope w w' aside_source_scope Ht) as (m & Hm & Hv).
  destruct (decide (k = m)) as [->|]; [|by rewrite Hv].
  destruct Hm as [a a' Ha Ha' Hm|a' -> _ _ _ _].
  - rewrite (view_at _ _ _ _ Ha'). rewrite (view_at _ _ _ _ Ha) in Hx. by eapply source_scope_moved.
  - unfold view in Hx. by rewrite lookup_ge_None_2 in Hx by lia.
Qed.

Lemma source_scope_scope w k x : view source_scope w k = Some x -> view scope w k = Some x.
Proof. intros (a & Hk & Ha)%view_Some. apply view_Some. exists a. by destruct a. Qed.

Definition subjects_ok (w : world) : Prop :=
  forall k x, view subject w k = Some x -> exists j, view source_scope w j = Some x.

Lemma issued_source w t :
  issued w t = true -> exists j, view source_scope w j = Some (token_slot t, token_generation t).
Proof.
  unfold issued. intros (a & Ha & H)%existsb_exists. apply list_elem_of_In, list_elem_of_lookup in Ha
    as [j Hj].
  exists j. rewrite (view_at _ _ _ _ Hj). destruct a as [|src g st| | | | | |]; try done.
  apply bool_decide_eq_true in H as <-. done.
Qed.

Lemma starts_subject w a x :
  starts w a -> subject a = Some x -> exists j, view source_scope w j = Some x.
Proof.
  intros [b Hb|k src g Hk].
  - destruct Hb as [|k src g b Hk|t Ht|t Ht|t Ht|t Ht]; simpl; intros Hx; simplify_eq;
      try by apply issued_source.
    exists k. by rewrite (view_at _ _ _ _ Hk).
  - intros [= <-]. exists k. by rewrite (view_at _ _ _ _ Hk).
Qed.

Lemma subject_moved w w' k a a' : moved w w' k a a' -> subject a' = subject a.
Proof.
  destruct 1 as [Hq ? ?|q t t' Hq Hn Hs Hh ?|q t t' Hq Hs ? ?|i y x' Hi Hs ? ?
    |g i n q g' t y id -> -> ? ? ? ? ?|g i sl id -> -> Hi Hid Hh ?|wk Ha ? ?]; try done.
  - by apply quiet_scope in Hq as (? & ? & ? & ? & ->).
  - by apply section_subject in Hs as (-> & ? & ?).
  - by apply store_scope in Hs as (? & ? & ? & -> & ?).
  - by apply sharded_scope in Hs as (? & ? & ? & ->).
  - by apply waking_scope in Ha as (? & ? & ? & -> & ? & ?).
Qed.

Lemma subjects_transition w w' : subjects_ok w -> transition w w' -> subjects_ok w'.
Proof.
  intros Hs Ht k x Hx.
  assert (exists j, view source_scope w j = Some x) as [j Hj]; [|exists j; by eapply source_scope_kept].
  destruct (view_step subject w w' aside_subject Ht) as (m & Hm & Hv).
  destruct (decide (k = m)) as [->|]; [|rewrite Hv in Hx by done; by eapply Hs].
  destruct Hm as [a a' Ha Ha' Hm|a' -> Ha' Hb _ _]; rewrite (view_at _ _ _ _ Ha') in Hx.
  - rewrite (subject_moved _ _ _ _ _ Hm) in Hx. eapply (Hs m). by rewrite (view_at _ _ _ _ Ha).
  - by eapply starts_subject.
Qed.

(** An observed scope is not younger than its slot. *)
Lemma subject_bound w k p g :
  scopes_ok w -> subjects_ok w -> view subject w k = Some (p, g) ->
  exists s, heap w !! p = Some s /\ 1 <= g <= generation s.
Proof.
  intros [_ Hb] Hs Hk. destruct (Hs _ _ Hk) as [j Hj]. apply source_scope_scope in Hj. by eapply Hb.
Qed.

End CancellationScopes.
