(* ===== verification/CancellationPlaces.v ===== *)
(** * Places of the cancellation registry

    The tables of the shards, their free lists, and who owns which place: a
    place is free, or taken by one allocation or one source, or retired.  From
    it follow the state of the slot of every agent and the permanence of the
    end of a scope. *)

From S2P Require Import Prelude Cancellation CancellationShape CancellationInvariant CancellationScopes.
Import Cancellation CancellationShape CancellationInvariant CancellationScopes.

Local Open Scope Z_scope.

Module CancellationPlaces.

(** ** Slot identifiers *)
Lemma slot_id_decodes i n id :
  Z.of_nat i < CANCELLATION_SHARDS -> slot_id i n = Done id -> shard_of id = i /\ index_of id = n.
Proof.
  unfold slot_id, CANCELLATION_SHARDS, CANCELLATION_SHARD_BITS, U32_MAX, shard_of, index_of.
  change (Z.shiftr (2 ^ 32 - 1) 5) with (2 ^ 27 - 1). intros Hi.
  case_match eqn:Hn; [|done]. intros [= <-]. apply Z.leb_le in Hn.
  assert (Z.shiftl (Z.of_nat n) 5 = Z.of_nat n * 32) as E by by rewrite Z.shiftl_mul_pow2.
  rewrite wrap_small by (unfold in_width; rewrite E; lia).
  change CANCELLATION_SHARDS with (2 ^ 5). change CANCELLATION_SHARD_BITS with 5.
  change (2 ^ 5 - 1) with (Z.ones 5).
  rewrite Z.land_lor_distr_l, Z.shiftr_lor, !Z.land_ones by lia.
  rewrite E, !Z.shiftr_div_pow2 by lia. change (2 ^ 5) with 32.
  rewrite Z.mod_mul, Z.mod_small, Z.div_mul, Z.div_small, Z.lor_0_l, Z.lor_0_r by lia. lia.
Qed.

(** ** Tables *)
Definition located (w : world) (i n p : nat) : Prop :=
  exists x, shards w !! i = Some x /\ slots x !! n = Some p.

Record table_ok (w : world) : Prop := TableOk {
  to_length : Z.of_nat (length (shards w)) = CANCELLATION_SHARDS;
  to_valid : forall i n p, located w i n p -> (p < length (heap w))%nat;
  to_distinct : forall i n i' n' p, located w i n p -> located w i' n' p -> i = i' /\ n = n';
  to_index : forall i n p, located w i n p -> exists id, slot_id i n = Done id;
}.

Lemma sharded_slots k h a i x x' a' : sharded k h a i x x' a' -> slots x' = slots x.
Proof. by destruct 1. Qed.

Lemma located_insert w w' i x x' :
  shards w !! i = Some x -> slots x' = slots x -> shards w' = <[i := x']> (shards w) ->
  forall j n p, located w' j n p <-> located w j n p.
Proof.
  intros Hi Hx Hw j n p. unfold located. rewrite Hw. destruct (decide (j = i)) as [->|].
  - rewrite list_lookup_insert_eq by by eapply lookup_lt_Some.
    split; intros (y & Hy & Hp).
    + exists x. injection Hy as <-. by rewrite <- Hx.
    + exists x'. rewrite Hi in Hy. injection Hy as <-. by rewrite Hx.
  - by rewrite list_lookup_insert_ne.
Qed.

Lemma located_same w w' : shards w' = shards w -> forall j n p, located w' j n p <-> located w j n p.
Proof. intros H j n p. unfold located. by rewrite H. Qed.

(** The tables change only by a fresh slot. *)
Lemma located_moved w w' k a a' :
  moved w w' k a a' ->
  (forall j n p, located w' j n p <-> located w j n p) \/
  (exists g i sl id, a = Allocating g (AShard i) /\ shards w !! i = Some (Shard sl [] None) /\
    slot_id i (length sl) = Done id /\ heap w' = heap w ++ [new_slot] /\
    forall j n p, located w' j n p <->
      located w j n p \/ (j = i /\ n = length sl /\ p = length (heap w))).
Proof.
  intros [Hq ? ?|q t t' Hq Hn Hs Hh ?|q t t' Hq Hs ? ?|i y x' Hi Hs ? ?
    |g i n q g' t y id -> -> ? ? ? ? ?|g i sl id -> -> Hi Hid Hh Hsh|wk Ha ? ?];
    try by (left; apply located_same).
  - left. eapply located_insert; [done| |done]. by eapply sharded_slots.
  - left. by eapply located_insert; [done| |done].
  - right. exists g, i, sl, id. repeat split; try done.
    + intros (x & Hx & Hp). rewrite Hsh in Hx. unfold located. list_upd j i.
      * simplify_eq/=. apply lookup_app_Some in Hp as [Hp|[Hl Hp]]; [left; by eexists|].
        right. destruct (n - length sl)%nat eqn:E; simplify_eq/=. repeat split; lia.
      * left. by exists x.
    + intros [(x & Hx & Hp)|(-> & -> & ->)].
      * unfold located. rewrite Hsh. list_upd j i; [|by exists x].
        simplify_eq/=. eexists. split; [done|]. simpl. by rewrite lookup_app_l by by eapply lookup_lt_Some.
      * eexists. rewrite Hsh, list_lookup_insert_eq by by eapply lookup_lt_Some.
        split; [done|]. simpl. by rewrite list_lookup_middle.
Qed.

Lemma located_kept w w' i n p : transition w w' -> located w i n p -> located w' i n p.
Proof.
  intros Ht Hp. destruct (agents_step w w' Ht) as (m & [a a' Ha Ha' Hm|a' ? ? ? ? Hsh] & _).
  - destruct (located_moved _ _ _ _ _ Hm) as [H|(? & ? & ? & ? & ? & ? & ? & ? & H)]; apply H; auto.
  - by apply (located_same w w' Hsh).
Qed.

Lemma shards_length w w' : transition w w' -> length (shards w') = length (shards w).
Proof. destruct 1; simpl; by rewrite ?length_insert. Qed.

Lemma heap_length_le w w' : transition w w' -> (length (heap w) <= length (heap w'))%nat.
Proof. intros Ht. destruct (heap_length w w' Ht) as [->|[-> _]]; lia. Qed.

Lemma table_transition w w' : table_ok w -> transition w w' -> table_ok w'.
Proof.
  intros [Hl Hv Hd Hx] Ht.
  pose proof (heap_length_le w w' Ht) as Hle.
  pose proof (shards_length w w' Ht) as Hsl.
  assert ((forall j n p, located w' j n p <-> located w j n p) \/
    (exists i sl id, slot_id i (length sl) = Done id /\
       shards w !! i = Some (Shard sl [] None) /\ heap w' = heap w ++ [new_slot] /\
       forall j n p, located w' j n p <->
         located w j n p \/ (j = i /\ n = length sl /\ p = length (heap w))))
    as [H|(i & sl & id & Hid & Hi & Hh & H)].
  { destruct (agents_step w w' Ht) as (m & [a a' Ha Ha' Hm|a' ? ? ? ? Hsh] & _).
    - destruct (located_moved _ _ _ _ _ Hm) as [H|(? & i & sl & id & ? & ? & ? & ? & H)]; [by left|].
      right. by exists i, sl, id.
    - left. by apply located_same. }
  - split; [by rewrite Hsl| | |].
    + intros i n p Hp%H. specialize (Hv _ _ _ Hp). lia.
    + intros i n i' n' p Hp%H Hp'%H. by eapply Hd.
    + intros i n p Hp%H. by eapply Hx.
  - split; [by rewrite Hsl| | |].
    + intros j n p Hp. apply H in Hp as [Hp|(-> & -> & ->)]; [specialize (Hv _ _ _ Hp); lia|].
      rewrite Hh, length_app. simpl. lia.
    + intros j n j' n' p Hp Hp'. apply H in Hp, Hp'.
      destruct Hp as [Hp|(-> & -> & ->)], Hp' as [Hp'|(-> & -> & E)]; try done.
      * by eapply Hd.
      * subst. apply Hv in Hp. lia.
      * apply Hv in Hp'. lia.
    + intros j n p Hp. apply H in Hp as [Hp|(-> & -> & ->)]; [by eapply Hx|by exists id].
Qed.

(** ** Agents and their places *)

(** What a slot is while its place is free or about to be reused. *)
Definition idle (s : CancellationSlot) : Prop := generation s < U64_MAX /\ cancelled s = true.

(** The scope of generation [g] of a slot has ended. *)
Definition over (g : Z) (s : CancellationSlot) : Prop := generation s <> g \/ cancelled s = true.

Definition source_located (w : world) (src : CancellationSource) : Prop :=
  located w (shard_of (slot_index src)) (index_of (slot_index src)) (source_slot src).

Definition slot_is (w : world) (p : nat) (P : CancellationSlot -> Prop) : Prop :=
  exists s, heap w !! p = Some s /\ P s.

Definition agent_ok (w : world) (a : agent) : Prop :=
  match a with
  | Allocating _ (AShard i) => Z.of_nat i < CANCELLATION_SHARDS
  | Allocating _ (AWaiters i n) => exists p, located w i n p /\ slot_is w p idle
  | Allocating _ (ACancelled i n p g) =>
      located w i n p /\ slot_is w p (fun s => generation s = g /\ cancelled s = true)
  | Allocating _ (ADelivery i n p g) =>
      located w i n p /\ slot_is w p (fun s => generation s = g)
  | Owning src _ (SLive _ | SShard | SWaiters) =>
      source_located w src /\ slot_is w (source_slot src) (fun s => generation s = source_generation src)
  | Owning src _ (SStore p) =>
      p = source_slot src /\ source_located w src /\
      slot_is w (source_slot src) (fun s => generation s = source_generation src)
  | Owning src _ (SPush _) =>
      source_located w src /\
      slot_is w (source_slot src)
        (fun s => generation s = source_generation src /\ cancelled s = true)
  | Owning src _ (SWake _ | SGone) => slot_is w (source_slot src) (over (source_generation src))
  | _ => True
  end.

Record places_ok (w : world) : Prop := PlacesOk {
  po_unique : unique place w;
  po_taken : forall k i n, view place w k = Some (i, n) ->
    exists x, shards w !! i = Some x /\ (n < length (slots x))%nat /\ (n ∉ free x);
  po_free_once : forall i x, shards w !! i = Some x -> NoDup (free x);
  po_free : forall i x n, shards w !! i = Some x -> (n ∈ free x) ->
    exists p, slots x !! n = Some p /\ slot_is w p idle;
  po_agents : forall k a, agents w !! k = Some a -> agent_ok w a;
}.

Lemma place_located w a i n :
  agent_ok w a -> place a = Some (i, n) -> exists p, located w i n p /\ exists s, heap w !! p = Some s.
Proof.
  destruct a as [g [j|j m|j m p g'|j m p g']|src g [b| | |p|d|d|]| | | | | |]; simpl; try done;
    unfold slot_is, source_located; intros Ha [= <- <-];
    repeat match goal with
           | H : _ /\ _ |- _ => destruct H
           | H : exists _, _ |- _ => destruct H
           end; eauto.
Qed.

(** Slots keep their generation and their end, except for the owner of their
    place. *)
Definition steady (s s' : CancellationSlot) : Prop :=
  generation s' = generation s /\ (cancelled s = true -> cancelled s' = true).

Lemma moved_steady w w' k a a' p s :
  slots_ok w -> agent_ok w a -> moved w w' k a a' -> heap w !! p = Some s ->
  exists s', heap w' !! p = Some s' /\
    (steady s s' \/ exists i n, place a = Some (i, n) /\ located w i n p).
Proof.
  intros Hok Ha Hm Hp.
  assert (Hkept : forall t t' q, heap w !! q = Some t -> heap w' = <[q := t']> (heap w) ->
    (steady t t' \/ (exists i n, place a = Some (i, n) /\ located w i n q)) ->
    exists s', heap w' !! p = Some s' /\
      (steady s s' \/ exists i n, place a = Some (i, n) /\ located w i n p)).
  { intros t t' q Hq Hh Hs. rewrite Hh. list_upd q p.
    - simplify_eq. by eexists.
    - exists s. split; [done|]. left. by split. }
  destruct Hm as [Hq Hh ?|q t t' Hq Hn Hs Hh ?|q t t' Hq Hs Hh ?|i y x' Hi Hs Hh ?
    |g i n q g' t y id -> -> Hq Hi Hid Hh ?|g i sl id -> -> Hi Hid Hh Hsh|wk Hwk Hh ?].
  1, 4, 7: exists s; rewrite Hh; split; [done|left; by split].
  - eapply Hkept; [exact Hq|exact Hh|].
    apply section_fields in Hs as [(g & i & n & x & -> & Hi & Hx & _)|[Hg Hc]].
    + right. exists i, n. split; [done|]. by exists x.
    + left. split; [done|]. by rewrite Hc.
  - eapply Hkept; [exact Hq|exact Hh|]. destruct Hs; simpl in *; try by left.
    right. destruct Ha as [Hl _]. do 2 eexists. by split.
  - eapply Hkept; [exact Hq|exact Hh|]. left. by split.
  - exists s. rewrite Hh, lookup_app_l by by eapply lookup_lt_Some. split; [done|left; by split].
Qed.


(** ** The end of a scope is permanent *)
Lemma over_kept w w' j p g s s' :
  slots_ok w -> scopes_ok w -> (forall k a, agents w !! k = Some a -> agent_ok w a) ->
  transition w w' -> view source_scope w j = Some (p, g) ->
  heap w !! p = Some s -> heap w' !! p = Some s' -> over g s -> over g s'.
Proof.
  intros Hok [Hu Hb] Hag Ht Hj Hp Hp' Ho.
  destruct (heap_forward w w' p s Ht Hp) as (t & Hpt & Hw). assert (t = s') as -> by congruence.
  destruct Hw as [->|Hw]; [done|].
  destruct (written_generation w p s s' (Hok _ _ Hp) Hw)
    as [[Hg Hc]|[(Hg & _)|(Hg & k & gg & i & n & g' & Hk)]].
  - destruct Ho as [Ho|Ho]; [left; by rewrite Hg|right; auto].
  - left. apply source_scope_scope in Hj. destruct (Hb _ _ _ Hj) as (t & Ht' & ?). simplify_eq. lia.
  - left. destruct (Hag _ _ Hk) as (_ & t & Hpt' & Hgen & _). assert (t = s) as -> by congruence.
    rewrite Hg, Hgen. intros ->.
    pose proof Hj as Hj'. apply source_scope_scope in Hj'.
    assert (j = k) as -> by (eapply Hu; [done|]; by rewrite (view_at _ _ _ _ Hk)).
    by rewrite (view_at _ _ _ _ Hk) in Hj.
Qed.

(** ** Preservation *)
Lemma places_unique_located w j k a b i n i' n' p :
  table_ok w -> unique place w -> agents w !! j = Some a -> agents w !! k = Some b ->
  place a = Some (i, n) -> place b = Some (i', n') -> located w i n p -> located w i' n' p -> j = k.
Proof.
  intros Ht Hu Hj Hk Ha Hb Hp Hp'. destruct (to_distinct w Ht _ _ _ _ _ Hp Hp') as [-> ->].
  apply (Hu j k (i', n')); [by rewrite (view_at _ _ _ _ Hj)|by rewrite (view_at _ _ _ _ Hk)].
Qed.

(** Another agent's slot is left steady. *)
Lemma slot_is_kept w w' m a a' j b i n p (P : CancellationSlot -> Prop) :
  slots_ok w -> table_ok w -> places_ok w -> agents w !! m = Some a -> moved w w' m a a' ->
  agents w !! j = Some b -> j <> m -> place b = Some (i, n) -> located w i n p ->
  (forall s s', steady s s' -> P s -> P s') -> slot_is w p P -> slot_is w' p P.
Proof.
  intros Hok Ht [Hu _ _ _ Hag] Hm Hmv Hj Hne Hb Hp HP (s & Hs & Hps).
  destruct (moved_steady w w' m a a' p s Hok (Hag _ _ Hm) Hmv Hs) as (s' & Hs' & [Hst|(i' & n' & Ha & Hp')]).
  - exists s'. split; [done|]. by eapply HP.
  - destruct Hne. by eapply (places_unique_located w j m b a).
Qed.

Lemma aside_ok w a a' : aside a a' -> agent_ok w a -> agent_ok w a'.
Proof.
  destruct 1 as [a|t a|]; try done. destruct a; simpl; try done; by case_match.
Qed.

Lemma slot_is_transition w w' p P :
  heap w' = heap w -> slot_is w p P -> slot_is w' p P.
Proof. unfold slot_is. by intros ->. Qed.

Lemma agent_ok_same w w' a :
  heap w' = heap w -> (forall i n p, located w i n p -> located w' i n p) ->
  agent_ok w a -> agent_ok w' a.
Proof.
  intros Hh Hl. unfold agent_ok, slot_is, source_located. rewrite Hh.
  destruct a as [g [j|j m|j m p g'|j m p g']|src g [b| | |p|d|d|]| | | | | |]; try done.
  all: intros H; repeat match goal with
    | H : _ /\ _ |- _ => destruct H
    | H : exists _, _ |- _ => destruct H
    end; eauto 7.
Qed.

Lemma steady_generation g s s' : steady s s' -> generation s = g -> generation s' = g.
Proof. by intros [-> _]. Qed.
Lemma steady_idle s s' : steady s s' -> idle s -> idle s'.
Proof. intros [Hg Hc] [Hlt Hi]. split; [by rewrite Hg|auto]. Qed.
Lemma steady_cancelled g s s' :
  steady s s' -> generation s = g /\ cancelled s = true -> generation s' = g /\ cancelled s' = true.
Proof. intros [Hg Hc] [Hlt Hi]. split; [by rewrite Hg|auto]. Qed.

(** The agents that do not move. *)
Lemma agent_ok_other w w' m a a' j b :
  slots_ok w -> scopes_ok w -> table_ok w -> places_ok w -> transition w w' ->
  agents w !! m = Some a -> moved w w' m a a' -> agents w !! j = Some b -> j <> m ->
  agent_ok w' b.
Proof.
  intros Hok Hsc Htb Hpl Ht Hm Hmv Hj Hne. pose proof (po_agents w Hpl j b Hj) as Hb.
  assert (Hkeep : forall i n p P, place b = Some (i, n) -> located w i n p ->
    (forall s s', steady s s' -> P s -> P s') -> slot_is w p P -> slot_is w' p P).
  { intros i n p P ? ? ? ?. by apply (slot_is_kept w w' m a a' j b i n p P). }
  assert (Hloc : forall i n p, located w i n p -> located w' i n p).
  { intros. by eapply located_kept. }
  destruct b as [g [i|i n|i n p g'|i n p g']|src g [b| | |p|d|d|]| | | | | |]; simpl in *; try done.
  - destruct Hb as (p & Hp & Hs). exists p. split; [auto|].
    eapply Hkeep; [done|done|exact steady_idle|done].
  - destruct Hb as (Hp & Hs). split; [auto|]. eapply Hkeep; [done|done|apply steady_cancelled|done].
  - destruct Hb as (Hp & Hs). split; [auto|]. eapply Hkeep; [done|done|apply steady_generation|done].
  - destruct Hb as (Hp & Hs). split; [by apply Hloc|].
    eapply Hkeep; [done|done|apply steady_generation|done].
  - destruct Hb as (Hp & Hs). split; [by apply Hloc|].
    eapply Hkeep; [done|done|apply steady_generation|done].
  - destruct Hb as (Hp & Hs). split; [by apply Hloc|].
    eapply Hkeep; [done|done|apply steady_generation|done].
  - destruct Hb as (-> & Hp & Hs). split; [done|]. split; [by apply Hloc|].
    eapply Hkeep; [done|done|apply steady_generation|done].
  - destruct Hb as (Hp & Hs). split; [by apply Hloc|].
    eapply Hkeep; [done|done|apply steady_cancelled|done].
  - destruct Hb as (s & Hs & Ho).
    destruct (generation_grows w w' _ s Hok Ht Hs) as (s' & Hs' & _). exists s'. split; [done|].
    apply (over_kept w w' j (source_slot src) (source_generation src) s s' Hok Hsc (po_agents w Hpl) Ht);
      try done. by rewrite (view_at _ _ _ _ Hj).
  - destruct Hb as (s & Hs & Ho).
    destruct (generation_grows w w' _ s Hok Ht Hs) as (s' & Hs' & _). exists s'. split; [done|].
    apply (over_kept w w' j (source_slot src) (source_generation src) s s' Hok Hsc (po_agents w Hpl) Ht);
      try done. by rewrite (view_at _ _ _ _ Hj).
Qed.

Lemma slot_is_write w w' p s s' (P : CancellationSlot -> Prop) :
  heap w !! p = Some s -> heap w' = <[p := s']> (heap w) -> P s' -> slot_is w' p P.
Proof.
  intros Hp Hh HP. exists s'. rewrite Hh, list_lookup_insert_eq by by eapply lookup_lt_Some. done.
Qed.

Lemma slot_is_at w p s P : heap w !! p = Some s -> slot_is w p P -> P s.
Proof. by intros Hp (? & ? & ?); simplify_eq. Qed.

Lemma located_fun w i n p p' : located w i n p -> located w i n p' -> p = p'.
Proof. intros (x & Hx & Hp) (y & Hy & Hp'). by simplify_eq. Qed.

(** The agent that moves. *)
Lemma agent_ok_mover w w' m a a' :
  slots_ok w -> table_ok w -> places_ok w -> transition w w' ->
  agents w !! m = Some a -> moved w w' m a a' -> agent_ok w' a'.
Proof.
  intros Hok Htb Hpl Ht Hm Hmv. pose proof (po_agents w Hpl m a Hm) as Ha.
  assert (Hloc : forall i n p, located w i n p -> located w' i n p).
  { intros. by eapply located_kept. }
  destruct Hmv as [Hq Hh Hsh|q t t' Hq Hn Hs Hh ?|q t t' Hq Hs Hh ?|i y x' Hi Hs Hh ?
    |g i n q g' t y id -> -> Hq Hi Hid Hh Hsh|g i sl id -> -> Hi Hid Hh Hsh|wk Hwk Hh ?].
  - eapply agent_ok_same; [exact Hh|exact Hloc|]. destruct Hq; simpl in *; by repeat case_match.
  - destruct Hs as [g i n q t x Hi Hx Hmax ? ?|src g t x q Hi Hx Hg|owner src t|t t0|t t0|f x ctx id t
      |f x id t|f x ctx new t f' t' a b r H'|r x ctx new t r' t' a b H'|r x t]; simpl in *; try done.
    + destruct Ha as (p & Hp & Hs). assert (located w i n q) as Hq' by by exists x.
      assert (p = q) as -> by by eapply located_fun.
      split; [by apply Hloc|]. eapply slot_is_write; [done..|]. simpl. split; [done|].
      eapply slot_is_at in Hs as [_ Hs]; done.
    + destruct Ha as (Hp & Hs).
      assert (source_slot src = q) as <- by (eapply located_fun; [exact Hp|by exists x]).
      split; [done|]. split; [by apply Hloc|]. eapply slot_is_write; [done..|].
      eapply slot_is_at in Hs; [|done]. unfold cancel_claim, compare_exchange. by case_match.
  - destruct Hs as [g i n q g' t|src g q t|owner src t]; simpl in *; try done.
    + destruct Ha as (Hp & Hs). split; [by apply Hloc|]. eapply slot_is_write; [done..|].
      eapply slot_is_at in Hs; [|done]. by destruct Hs.
    + destruct Ha as (-> & Hp & Hs). split; [by apply Hloc|]. eapply slot_is_write; [done..|].
      by eapply slot_is_at in Hs; [|done].
  - destruct Hs as [g i sl n rest|src g sl fr|src g x q t Hx Ht' Hg|src g d x]; simpl in *.
    + destruct (po_free w Hpl _ _ n Hi) as (p & Hp & Hs); [by left|]. simpl in Hp.
      exists p. split; [apply Hloc; by eexists|]. by eapply slot_is_transition.
    + destruct Ha as (Hp & Hs). split; [by apply Hloc|]. by eapply slot_is_transition.
    + destruct Ha as (Hp & Hs).
      assert (source_slot src = q) as <- by (eapply located_fun; [exact Hp|by exists x]).
      eapply slot_is_at in Hs; [|done]. destruct Hg. by rewrite (so_generation _ (Hok _ _ Ht')).
    + destruct Ha as (Hp & s & Hs & _ & Hc). exists s. rewrite Hh. split; [done|by right].
  - simpl in *. destruct Ha as (Hp & Hs).
    assert (Z.of_nat i < CANCELLATION_SHARDS) as Hlt.
    { rewrite <- (to_length w Htb). apply lookup_lt_Some in Hi. lia. }
    destruct (slot_id_decodes i n id Hlt Hid) as [<- <-].
    split; [by apply Hloc|]. eapply slot_is_write; [done..|].
    by eapply slot_is_at in Hs; [|done].
  - simpl in *. destruct (slot_id_decodes i (length sl) id Ha Hid) as [Ei En].
    split.
    + unfold source_located. simpl. rewrite Ei, En. eexists. rewrite Hsh, list_lookup_insert_eq by by eapply lookup_lt_Some.
      split; [done|]. simpl. by rewrite list_lookup_middle.
    + exists new_slot. rewrite Hh, list_lookup_middle; done.
  - eapply agent_ok_same; [exact Hh|exact Hloc|]. by destruct Hwk.
Qed.

Lemma agents_ok_transition w w' :
  slots_ok w -> scopes_ok w -> table_ok w -> places_ok w -> transition w w' ->
  forall k a, agents w' !! k = Some a -> agent_ok w' a.
Proof.
  intros Hok Hsc Htb Hpl Ht k b Hb.
  destruct (agents_step w w' Ht) as (m & Hm & Hnone & Hsome).
  destruct (decide (k = m)) as [->|Hne].
  - destruct Hm as [a a' Ha Ha' Hmv|a' Hm Ha' Hs Hh Hsh]; simplify_eq.
    + by eapply agent_ok_mover.
    + destruct Hs as [a [i g Hi| | | | |]|]; done.
  - destruct (agents w !! k) as [a|] eqn:Ek; [|by rewrite (Hnone k Hne Ek) in Hb].
    destruct (Hsome k a Hne Ek) as (a' & Ha' & Has). simplify_eq. eapply aside_ok; [done|].
    destruct Hm as [c c' Hc Hc' Hmv|c' Hm Hc' Hs Hh Hsh].
    + by apply (agent_ok_other w w' m c c' k a).
    + eapply agent_ok_same; [exact Hh| |by eapply po_agents].
      intros. by eapply located_kept.
Qed.


(** What a move does to the shards: the lists only grow, an index leaves the
    free list for the mover, or comes back from it. *)
Inductive shard_change (a a' : agent) (i : nat) (x x' : CancellationRegistryState) : Prop :=
| shard_kept : free x' = free x -> shard_change a a' i x x'
| shard_taken n :
    free x = n :: free x' -> place a = None -> place a' = Some (i, n) -> shard_change a a' i x x'
| shard_returned n src g d :
    free x' = n :: free x -> place a = Some (i, n) -> place a' = None ->
    a = Owning src g (SPush d) -> source_generation src <> U64_MAX -> shard_change a a' i x x'.

Lemma shards_moved w w' m a a' i x' :
  moved w w' m a a' -> shards w' !! i = Some x' ->
  exists x, shards w !! i = Some x /\ (length (slots x) <= length (slots x'))%nat /\
    shard_change a a' i x x'.
Proof.
  intros Hm Hx.
  assert (Hsame : shards w' = shards w -> exists x, shards w !! i = Some x /\
    (length (slots x) <= length (slots x'))%nat /\ shard_change a a' i x x').
  { intros E. rewrite E in Hx. exists x'. split; [done|]. split; [done|]. by apply shard_kept. }
  assert (Hset : forall j y y', shards w !! j = Some y -> shards w' = <[j := y']> (shards w) ->
    (length (slots y) <= length (slots y'))%nat -> shard_change a a' j y y' ->
    exists x, shards w !! i = Some x /\ (length (slots x) <= length (slots x'))%nat /\
      shard_change a a' i x x').
  { intros j y y' Hj E Hl Hc. rewrite E in Hx. list_upd j i; simplify_eq; [by exists y|].
    exists x'. split; [done|]. split; [done|]. by apply shard_kept. }
  destruct Hm as [Hq Hh Hsh|q t t' Hq Hn Hs Hh ?|q t t' Hq Hs Hh ?|j y y' Hj Hs Hh ?
    |g j n q g' t y id -> -> Hq Hi Hid Hh Hsh|g j sl id -> -> Hi Hid Hh Hsh|wk Hwk Hh ?]; auto.
  - eapply Hset; [done..| |].
    + by rewrite (sharded_slots _ _ _ _ _ _ _ Hs).
    + destruct Hs as [g j sl n rest|src g sl fr|src g x q t Hx' Ht' Hg|src g d x]; try by apply shard_kept.
      * by eapply shard_taken.
      * simpl. case_match eqn:E; [by apply shard_kept|]. apply Z.eqb_neq in E.
        by eapply shard_returned.
  - eapply Hset; [done..|simpl; lia|]. by apply shard_kept.
  - eapply Hset; [done..|simpl; rewrite length_app; simpl; lia|]. by apply shard_kept.
Qed.

(** How the mover's place changes. *)
Lemma place_moved w w' m a a' :
  table_ok w -> agent_ok w a -> moved w w' m a a' ->
  place a' = place a \/ place a' = None \/
  (exists i n rest sl, place a = None /\ place a' = Some (i, n) /\
     shards w !! i = Some (Shard sl (n :: rest) None) /\
     shards w' = <[i := Shard sl rest (Some m)]> (shards w)) \/
  (exists i sl, place a = None /\ place a' = Some (i, length sl) /\
     shards w !! i = Some (Shard sl [] None) /\
     shards w' = <[i := Shard (sl ++ [length (heap w)]) [] None]> (shards w)).
Proof.
  intros Ht Ha.
  destruct 1 as [Hq Hh Hsh|q t t' Hq Hn Hs Hh ?|q t t' Hq Hs Hh ?|j y y' Hj Hs Hh ?
    |g j n q g' t y id -> -> Hq Hi Hid Hh Hsh|g j sl id -> -> Hi Hid Hh Hsh|wk Hwk Hh ?].
  - left. destruct Hq; simpl; repeat case_match; done.
  - left. destruct Hs; done.
  - left. by apply store_scope in Hs as (? & ? & ? & ? & ? & ?).
  - destruct Hs as [g j sl n rest|src g sl fr|src g x q t Hx' Ht' Hg|src g d x]; simpl; auto.
    right. right. left. by exists j, n, rest, sl.
  - left. simpl.
    assert (Z.of_nat j < CANCELLATION_SHARDS) as Hlt.
    { rewrite <- (to_length w Ht). apply lookup_lt_Some in Hi. lia. }
    by destruct (slot_id_decodes j n id Hlt Hid) as [-> ->].
  - right. right. right. exists j, sl. simpl.
    by destruct (slot_id_decodes j (length sl) id Ha Hid) as [-> ->].
  - left. by apply waking_scope in Hwk as (? & ? & ? & ? & ? & ?).
Qed.

Lemma place_unique_transition w w' :
  table_ok w -> places_ok w -> transition w w' -> unique place w'.
Proof.
  intros Ht Hpl Hst. destruct (view_step place w w' aside_place Hst) as (m & Hm & Hv).
  assert (Hnew : forall v, view place w' m = v ->
    (forall x j, v = Some x -> view place w j = Some x -> j = m) -> unique place w').
  { intros v Hm' Hx. eapply (unique_new place w w' m v); [|done|by apply po_unique].
    intros j. case_decide; subst; auto. }
  destruct Hm as [a a' Ha Ha' Hmv|a' Hm Ha' Hs Hh Hsh].
  - rewrite (view_at _ _ _ _ Ha') in Hnew. eapply Hnew; [done|].
    destruct (place_moved w w' m a a' Ht (po_agents w Hpl m a Ha) Hmv)
      as [E|[E|[(i & n & rest & sl & E & E' & Hi & _)|(i & sl & E & E' & Hi & _)]]]; intros x j Hx Hj.
    + rewrite E in Hx. apply (po_unique w Hpl j m x Hj). by rewrite (view_at _ _ _ _ Ha).
    + congruence.
    + rewrite E' in Hx. injection Hx as <-.
      destruct (po_taken w Hpl _ _ _ Hj) as (y & Hy & _ & Hn). rewrite Hi in Hy.
      injection Hy as <-. destruct Hn. by left.
    + rewrite E' in Hx. injection Hx as <-.
      destruct (po_taken w Hpl _ _ _ Hj) as (y & Hy & Hn & _). rewrite Hi in Hy.
      injection Hy as <-. simpl in Hn. lia.
  - apply starts_nothing in Hs as (_ & _ & _ & Hp).
    rewrite (view_at _ _ _ _ Ha') in Hnew. apply (Hnew None); [by rewrite Hp|]. done.
Qed.

Lemma taken_transition w w' :
  table_ok w -> places_ok w -> transition w w' ->
  forall k i n, view place w' k = Some (i, n) ->
    exists x, shards w' !! i = Some x /\ (n < length (slots x))%nat /\ (n ∉ free x).
Proof.
  intros Ht Hpl Hst k i n Hk.
  destruct (view_step place w w' aside_place Hst) as (m & Hm & Hv).
  assert (Hlen : forall i x, shards w !! i = Some x -> exists x', shards w' !! i = Some x').
  { intros j x Hj. apply lookup_lt_is_Some. rewrite (shards_length w w' Hst).
    by eapply lookup_lt_Some. }
  assert (Hold : forall a a', agents w !! m = Some a -> moved w w' m a a' ->
    view place w k = Some (i, n) -> (k = m -> place a' = place a) ->
    exists x, shards w' !! i = Some x /\ (n < length (slots x))%nat /\ (n ∉ free x)).
  { intros a a' Ha Hmv Hw Hkm. destruct (po_taken w Hpl _ _ _ Hw) as (x & Hx & Hl & Hn).
    destruct (Hlen i x Hx) as [x' Hx']. exists x'. split; [done|].
    destruct (shards_moved w w' m a a' i x' Hmv Hx') as (y & Hy & Hle & Hc).
    assert (y = x) as -> by congruence. split; [lia|].
    destruct Hc as [E|n' E _ _|n' src g d E Hp Hp' _ _]; [by rewrite E| |].
    - intros Hin. apply Hn. rewrite E. by right.
    - rewrite E. intros [->|Hin]%elem_of_cons; [|done].
      assert (k = m) as -> by (apply (po_unique w Hpl k m (i, n')); [done|by rewrite (view_at _ _ _ _ Ha)]).
      rewrite Hkm in Hp' by done. congruence. }
  destruct Hm as [a a' Ha Ha' Hmv|a' Hm Ha' Hs Hh Hsh].
  - destruct (decide (k = m)) as [->|]; [|rewrite Hv in Hk by done; by eapply Hold].
    rewrite (view_at _ _ _ _ Ha') in Hk.
    destruct (place_moved w w' m a a' Ht (po_agents w Hpl m a Ha) Hmv)
      as [E|[E|[(j & n' & rest & sl & E & E' & Hi & Hsh)|(j & sl & E & E' & Hi & Hsh)]]].
    + eapply Hold; [done..| |done]. rewrite (view_at _ _ _ _ Ha). congruence.
    + congruence.
    + rewrite E' in Hk. injection Hk as -> ->.
      destruct (po_free w Hpl i _ n Hi) as (p & Hp & _); [by left|].
      pose proof (po_free_once w Hpl i _ Hi) as [Hnd _]%NoDup_cons.
      apply lookup_lt_Some in Hp. eexists. rewrite Hsh.
      by rewrite list_lookup_insert_eq by by eapply lookup_lt_Some.
    + rewrite E' in Hk. injection Hk as -> <-. eexists. rewrite Hsh.
      rewrite list_lookup_insert_eq by by eapply lookup_lt_Some. split; [done|]. simpl.
      rewrite length_app. simpl. split; [lia|]. apply not_elem_of_nil.
  - destruct (decide (k = m)) as [->|].
    + rewrite (view_at _ _ _ _ Ha') in Hk. apply starts_nothing in Hs as (_ & _ & _ & Hp). congruence.
    + rewrite Hv in Hk by done. rewrite Hsh. by eapply po_taken.
Qed.


Lemma free_once_transition w w' :
  table_ok w -> places_ok w -> transition w w' ->
  forall i x, shards w' !! i = Some x -> NoDup (free x).
Proof.
  intros Ht Hpl Hst i x' Hx'.
  destruct (agents_step w w' Hst) as (m & [a a' Ha Ha' Hmv|a' Hm Ha' Hs Hh Hsh] & _).
  - destruct (shards_moved w w' m a a' i x' Hmv Hx') as (x & Hx & _ & Hc).
    pose proof (po_free_once w Hpl i x Hx) as Hnd.
    destruct Hc as [->|n E _ _|n src g d E Hp _ _ _]; [done| |].
    + rewrite E in Hnd. by apply NoDup_cons in Hnd as [_ ?].
    + rewrite E. apply NoDup_cons. split; [|done].
      destruct (po_taken w Hpl m i n) as (y & Hy & _ & Hn); [by rewrite (view_at _ _ _ _ Ha)|].
      congruence.
  - rewrite Hsh in Hx'. by eapply po_free_once.
Qed.

Lemma free_transition w w' :
  slots_ok w -> table_ok w -> places_ok w -> transition w w' ->
  forall i x n, shards w' !! i = Some x -> (n ∈ free x) ->
    exists p, slots x !! n = Some p /\ slot_is w' p idle.
Proof.
  intros Hok Ht Hpl Hst i x' n Hx' Hn.
  assert (exists p, located w i n p /\ slot_is w' p idle) as (p & Hp & Hs).
  { destruct (agents_step w w' Hst) as (m & [a a' Ha Ha' Hmv|a' Hm Ha' Hs Hh Hsh] & _).
    - destruct (shards_moved w w' m a a' i x' Hmv Hx') as (x & Hx & _ & Hc).
      assert (Hfree : (n ∈ free x) -> exists p, located w i n p /\ slot_is w' p idle).
      { intros Hin. destruct (po_free w Hpl i x n Hx Hin) as (p & Hp & s & Hs & Hidle).
        exists p. split; [by exists x|].
        destruct (moved_steady w w' m a a' p s Hok (po_agents w Hpl m a Ha) Hmv Hs)
          as (s' & Hs' & [Hst'|(j & n' & Hpa & Hl)]).
        - exists s'. split; [done|]. by eapply steady_idle.
        - destruct (to_distinct w Ht i n j n' p) as [<- <-]; [by exists x|done|].
          destruct (po_taken w Hpl m i n) as (y & Hy & _ & Hny); [by rewrite (view_at _ _ _ _ Ha)|].
          by assert (y = x) as -> by congruence. }
      destruct Hc as [E|n' E _ _|n' src g d E Hp _ -> Hmax].
      + rewrite E in Hn. auto.
      + apply Hfree. rewrite E. by right.
      + rewrite E in Hn. apply elem_of_cons in Hn as [->|Hn]; [|auto].
        simpl in Hp. injection Hp as <- <-.
        destruct (po_agents w Hpl m _ Ha) as (Hl & s & Hs & Hg & Hcc).
        exists (source_slot src). split; [done|].
        pose proof (so_bounds _ (Hok _ _ Hs)).
        destruct (moved_steady w w' m _ a' _ s Hok (po_agents w Hpl m _ Ha) Hmv Hs)
          as (s' & Hs' & _).
        exists s'. split; [done|]. inversion Hmv as [Hq| ? ? ? ? ? Hq|? ? ? ? Hq|? ? ? ? Hq Hh| | |? Hq];
          try done; try by inversion Hq.
        rewrite Hh in Hs'. simplify_eq. split; [lia|done].
    - rewrite Hsh in Hx'. destruct (po_free w Hpl i x' n Hx' Hn) as (p & Hp & Hi).
      exists p. split; [by exists x'|]. by eapply slot_is_transition. }
  exists p. split; [|done]. destruct (located_kept w w' i n p Hst Hp) as (y & Hy & Hpy).
  congruence.
Qed.

Lemma places_transition w w' :
  slots_ok w -> scopes_ok w -> table_ok w -> places_ok w -> transition w w' -> places_ok w'.
Proof.
  intros. split.
  - by eapply place_unique_transition.
  - by eapply taken_transition.
  - by eapply free_once_transition.
  - by eapply free_transition.
  - by eapply agents_ok_transition.
Qed.

End CancellationPlaces.
