(* ===== verification/CancellationWaiters.v ===== *)
(** * Waiters of cancellation scopes

    Waiter identifiers, registrations of framework tasks and the entries they
    stand for: each entry of a slot belongs to one future, a scope has at most
    one task, and what a future believes to be registered is registered unless
    the scope ended.  With this the invariant of all reachable worlds is
    complete up to the notification of waiters. *)

From S2P Require Import Prelude Cancellation CancellationShape CancellationInvariant CancellationScopes CancellationPlaces.
Import Cancellation CancellationShape CancellationInvariant CancellationScopes CancellationPlaces.

Local Open Scope Z_scope.

Module CancellationWaiters.

(** ** Projections *)

(** The entry a future answers for: slot, generation and identifier. *)
Definition waiter_key (a : agent) : option (nat * Z * Z) :=
  match a with
  | Waiting f _ st =>
      match (match st with FUnregister _ id | FDrop id => Some id | _ => waiter_id f end) with
      | Some id => Some (token_slot (token f), token_generation (token f), id)
      | None => None
      end
  | _ => None
  end.

Definition task_scope (a : agent) : option (nat * Z) :=
  match a with
  | Tasking r _ _ => Some (registration_slot r, registration_generation r)
  | _ => None
  end.

(** The identity a future or registration remembers, and the waker the slot
    stores for it. *)
Definition registered (a : agent) : option WakerIdentity :=
  match a with
  | Waiting f _ _ => registered_waker f
  | Tasking _ _ (TDropped _ | TGone) => None
  | Tasking r _ _ => registered_task_waker r
  | _ => None
  end.

Definition stored (a : agent) (s : CancellationSlot) : option Waker :=
  match a with
  | Waiting f _ _ => match waiter_id f with Some id => entries (waiters s) !! id | None => None end
  | Tasking _ _ _ => task_waker (waiters s)
  | _ => None
  end.

Lemma notify_waiter_key t a : waiter_key (notify_agent t a) = waiter_key a.
Proof. destruct a; simpl; try done; by case_match. Qed.
Lemma notify_task_scope t a : task_scope (notify_agent t a) = task_scope a.
Proof. destruct a; simpl; try done; by case_match. Qed.
Lemma notify_registered t a : registered (notify_agent t a) = registered a.
Proof. destruct a; simpl; try done; by case_match. Qed.
Lemma notify_stored t a s : stored (notify_agent t a) s = stored a s.
Proof. destruct a; simpl; try done; by case_match. Qed.

#[export] Hint Resolve notify_waiter_key notify_task_scope notify_registered notify_stored : xlfn.

Lemma aside_waiter_key a a' : aside a a' -> waiter_key a' = waiter_key a.
Proof. destruct 1; auto with xlfn. Qed.
Lemma aside_task_scope a a' : aside a a' -> task_scope a' = task_scope a.
Proof. destruct 1; auto with xlfn. Qed.
Lemma aside_registered a a' : aside a a' -> registered a' = registered a.
Proof. destruct 1; auto with xlfn. Qed.
Lemma aside_stored a a' s : aside a a' -> stored a' s = stored a s.
Proof. destruct 1; auto with xlfn. Qed.

(** ** What an agent knows by itself *)
Definition local_ok (a : agent) : Prop :=
  match a with
  | Waiting f x st =>
      (waiter_id f = None -> registered_waker f = None) /\
      match st with
      | FUnregister _ _ | FDrop _ | FDropped _ | FGone => waiter_id f = None
      | FCheck ctx _ | FClone ctx => task ctx = polled_by x
      | FLock ctx new => task ctx = polled_by x /\ task new = polled_by x
      | _ => True
      end
  | Tasking _ x st =>
      match st with
      | TCheck ctx _ | TFirst ctx | TClone ctx => task ctx = polled_by x
      | TSecond ctx new => task ctx = polled_by x /\ task new = polled_by x
      | _ => True
      end
  | _ => True
  end.

Definition locals_ok (w : world) : Prop := forall k a, agents w !! k = Some a -> local_ok a.

Lemma aside_local a a' : aside a a' -> local_ok a -> local_ok a'.
Proof.
  destruct 1 as [a|t a|]; try done.
  destruct a as [| | | | | |f x st|r x st]; simpl; try done;
    destruct (Nat.eqb_spec (polled_by x) t); simpl; subst; done.
Qed.

Lemma moved_local w w' k a a' : moved w w' k a a' -> local_ok a -> local_ok a'.
Proof.
  destruct 1 as [Hq Hh Hsh|q t t' Hq Hn Hs Hh ?|q t t' Hq Hs Hh ?|j y y' Hj Hs Hh ?
    |g j n q g' t y id -> -> Hq Hi Hid Hh Hsh|g j sl id -> -> Hi Hid Hh Hsh|wk Hwk Hh ?]; try done.
  - destruct Hq; simpl; try done; try by intros [? ?]; repeat case_match.
    all: repeat case_match; intuition congruence.
  - destruct Hs as [| | | | | | |f x ctx new s f' s' a b r Hl|r x ctx new s r' s' a b Hl|]; simpl; try done.
    + by intros [? ?].
    + intros _. apply poll_locked_registers in Hl. split; [|done]. by destruct Hl.
  - by destruct Hs.
  - by destruct Hs.
  - by destruct Hwk.
Qed.

Lemma starts_local w a : starts w a -> local_ok a.
Proof. by destruct 1 as [a []|]. Qed.

Lemma locals_transition w w' : locals_ok w -> transition w w' -> locals_ok w'.
Proof.
  intros Hl Ht k b Hb. destruct (agents_step w w' Ht) as (m & Hm & Hnone & Hsome).
  destruct (decide (k = m)) as [->|Hne].
  - destruct Hm as [a a' Ha Ha' Hmv|a' Hm Ha' Hs Hh Hsh]; simplify_eq.
    + eapply moved_local; [done|]. by eapply Hl.
    + by eapply starts_local.
  - destruct (agents w !! k) as [a|] eqn:Ek; [|by rewrite (Hnone k Hne Ek) in Hb].
    destruct (Hsome k a Hne Ek) as (a' & Ha' & Has). simplify_eq.
    eapply aside_local; [done|]. by eapply Hl.
Qed.

(** ** Known scopes

    What a move does to the slot of a scope that a source was created for: the
    generation stays, the end stays, and while the scope lives every entry but
    the mover's own stays. *)
Record keeps (a : agent) (p : nat) (g : Z) (s s' : CancellationSlot) : Prop := Keeps {
  k_generation : generation s = g;
  k_next : next_id (waiters s) <= next_id (waiters s');
  k_over : cancelled s = true -> cancelled s' = true;
  k_entries : cancelled s' = false -> forall id, id < next_id (waiters s) ->
    waiter_key a <> Some (p, g, id) -> entries (waiters s') !! id = entries (waiters s) !! id;
  k_task : cancelled s' = false -> task_scope a <> Some (p, g) ->
    task_waker (waiters s') = task_waker (waiters s);
}.

Lemma keeps_waiters a p g s s' :
  generation s' = generation s -> generation s' = g -> waiters s' = waiters s ->
  (cancelled s = true -> cancelled s' = true) -> keeps a p g s s'.
Proof. intros ? ? Hw ?. split; try done; rewrite ?Hw; try congruence. lia. Qed.

Lemma keeps_refl a p g s : generation s = g -> keeps a p g s s.
Proof. intros. by apply keeps_waiters. Qed.

Lemma claim_waiters s : waiters (cancel_claim s) = waiters s.
Proof. unfold cancel_claim, compare_exchange. by case_match. Qed.
Lemma claim_generation s : generation (cancel_claim s) = generation s.
Proof. unfold cancel_claim, compare_exchange. by case_match. Qed.
Lemma claim_cancelled s : cancelled (cancel_claim s) = cancelled s.
Proof. unfold cancel_claim, compare_exchange. by case_match. Qed.
Lemma compare_exchange_waiters e n s : waiters (snd (compare_exchange e n s)) = waiters s.
Proof. unfold compare_exchange. by case_match. Qed.
Lemma keeps_compare a p g e n s :
  generation (snd (compare_exchange e n s)) = g -> keeps a p g s (snd (compare_exchange e n s)).
Proof.
  intros Hg. destruct (compare_exchange_fields e n s) as [E1 E2].
  apply keeps_waiters; [done|done|apply compare_exchange_waiters|by rewrite E2].
Qed.

Lemma keeps_unregister a p g gk id s :
  slot_ok s -> waiter_key a = Some (p, gk, id) ->
  generation (snd (unregister_locked gk id s)) = g -> keeps a p g s (snd (unregister_locked gk id s)).
Proof.
  intros Hs Ha Hg. unfold unregister_locked in *. case_match eqn:E; [|by apply keeps_refl].
  apply Z.eqb_eq in E. rewrite (so_generation _ Hs) in E. simpl in Hg.
  split; simpl; try done; try lia. intros _ i _ Hi. rewrite lookup_delete_ne; [done|]. congruence.
Qed.

Lemma keeps_register f ctx new s f' s' b c r x p g :
  slot_ok s -> p = token_slot (token f) -> registers f ctx new s f' s' b c r -> generation s' = g ->
  keeps (Waiting f x (FLock ctx new)) p g s s'.
Proof.
  intros Hs -> Hr Hg. pose proof (so_generation _ Hs) as Hw.
  destruct Hr as [|id Hid Hgen Hc| | |id n wk Hc Hgen He ? ? -> -> ?|id n Hc Hgen Hid];
    try by apply keeps_refl.
  - split; simpl in *; try done; try lia. intros _ i _ Hi. rewrite lookup_delete_ne; [done|].
    intros ->. destruct Hi. rewrite Hid. congruence.
  - split; simpl in *; try done; lia.
  - split; simpl in *; try done; [destruct Hid as [[? ->]|(? & -> & -> & ?)]; lia|].
    intros _ i Hlt Hi. rewrite lookup_insert_ne; [done|]. intros ->.
    destruct Hid as [[Hid ->]|(? & -> & -> & ?)]; [|lia]. destruct Hi. rewrite Hid. congruence.
Qed.

Lemma keeps_register_task r ctx new s r' s' b c x p g :
  slot_ok s -> p = registration_slot r -> second_locked r new s = (r', s', b, c) ->
  generation s' = g -> keeps (Tasking r x (TSecond ctx new)) p g s s'.
Proof.
  intros Hs -> Hr Hg. unfold second_locked in Hr. destruct (_ || _) eqn:E; simplify_eq;
    [by apply keeps_refl|].
  apply orb_false_iff in E as [E _]. apply negb_false_iff, Z.eqb_eq in E.
  rewrite (so_generation _ Hs) in E.
  split; simpl; try done. intros _ Hne. destruct Hne. by rewrite E.
Qed.

Lemma keeps_drop_task r s x p g :
  slot_ok s -> p = registration_slot r ->
  generation (snd (drop_locked (registration_generation r) s)) = g ->
  keeps (Tasking r x TDrop) p g s (snd (drop_locked (registration_generation r) s)).
Proof.
  intros Hs -> Hg. unfold drop_locked in *. case_match eqn:E; [|by apply keeps_refl].
  apply Z.eqb_eq in E. rewrite (so_generation _ Hs) in E. simpl in Hg.
  split; simpl; try done. intros _ Hne. destruct Hne. simpl. by rewrite <- E, Hg.
Qed.

Lemma keeps_section w k a p s s' a' g :
  slot_ok s -> section w k a p s s' a' -> generation s' = g -> g <= generation s ->
  keeps a p g s s'.
Proof.
  intros Hs Ht Hg Hle.
  destruct Ht as [gg i n q s x ? ? ? ? ?|src gg s x q ? ?|owner src s|t s|t s|f x ctx id s|f x id s
    |f x ctx new s f' s' b c r H|r x ctx new s r' s' b c H|r x s].
  - simpl in Hg. rewrite (so_generation _ Hs) in Hg. lia.
  - simpl in Hg. rewrite claim_generation in Hg.
    apply keeps_waiters; simpl; rewrite ?claim_generation, ?claim_waiters, ?claim_cancelled; done.
  - simpl in Hg. rewrite claim_generation in Hg.
    apply keeps_waiters; simpl; rewrite ?claim_generation, ?claim_waiters, ?claim_cancelled; done.
  - unfold try_start_delivery in *. case_match; [by apply keeps_refl|]. by apply keeps_compare.
  - unfold finish_delivery in *. case_match; [|by apply keeps_refl]. by apply keeps_compare.
  - by apply keeps_unregister.
  - by apply keeps_unregister.
  - apply poll_locked_registers in H. by eapply keeps_register.
  - by eapply keeps_register_task.
  - by apply keeps_drop_task.
Qed.

Lemma known_kept w w' m a a' p g j s s' :
  slots_ok w -> scopes_ok w -> places_ok w -> agents w !! m = Some a -> moved w w' m a a' ->
  view source_scope w j = Some (p, g) ->
  heap w !! p = Some s -> heap w' !! p = Some s' -> generation s' = g -> keeps a p g s s'.
Proof.
  intros Hok [Hu Hb] Hpl Hm Hmv Hj Hp Hp' Hg.
  pose proof (Hok _ _ Hp) as Hs.
  pose proof Hj as Hj'. apply source_scope_scope in Hj'.
  destruct (Hb _ _ _ Hj') as (s0 & Hs0 & Hle). assert (s0 = s) as -> by congruence.
  assert (Hnot : forall i n q g' gg, a <> Allocating gg (ACancelled i n q g') \/ (q, g') <> (p, g)).
  { intros i n q g' gg. destruct (decide ((q, g') = (p, g))) as [[= -> ->]|]; [left|by right].
    intros ->. assert (j = m) as -> by (eapply Hu; [done|]; by rewrite (view_at _ _ _ _ Hm)).
    by rewrite (view_at _ _ _ _ Hm) in Hj. }
  assert (Hput : forall q t t', heap w !! q = Some t -> heap w' = <[q := t']> (heap w) ->
    (q = p -> t = s -> t' = s' -> keeps a p g s s') -> keeps a p g s s').
  { intros q t t' Hq Hh Hk. rewrite Hh in Hp'. list_upd q p; simplify_eq; auto.
    by apply keeps_refl. }
  destruct Hmv as [Hq Hh Hsh|q t t' Hq Hn Ht Hh ?|q t t' Hq Ht Hh ?|i y y' Hi Ht Hh ?
    |gg i n q g' t y id -> -> Hq Hi Hid Hh Hsh|gg i sl id -> -> Hi Hid Hh Hsh|wk Hwk Hh ?].
  1, 4, 7: rewrite Hh in Hp'; simplify_eq; by apply keeps_refl.
  - eapply Hput; [exact Hq|exact Hh|]. intros -> -> ->. eapply keeps_section; [done..|lia].
  - eapply Hput; [exact Hq|exact Hh|]. intros -> -> <-.
    destruct Ht as [gg i n q g' t|src gg q t|owner src t].
    + destruct (Hnot i n q g' gg) as [|Hne]; [done|]. destruct Hne.
      destruct (po_agents w Hpl m _ Hm) as (_ & t' & Ht' & Hgen & _).
      assert (t' = t) as -> by congruence. simpl in Hg. congruence.
    + split; simpl in *; try done; lia.
    + split; simpl in *; try done; lia.
  - eapply Hput; [exact Hq|exact Hh|]. intros -> -> <-. by apply keeps_waiters.
  - rewrite Hh, lookup_app_l in Hp' by (by eapply lookup_lt_Some). simplify_eq. by apply keeps_refl.
Qed.


(** ** Waiter identifiers *)
Definition waiters_ok (w : world) : Prop :=
  unique waiter_key w /\
  forall k p g id, view waiter_key w k = Some (p, g, id) ->
    slot_is w p (fun s => generation s = g -> 1 <= id < next_id (waiters s)).

Lemma waiter_key_subject a p g id : waiter_key a = Some (p, g, id) -> subject a = Some (p, g).
Proof. destruct a as [| | | | | |f x st|]; simpl; try done. intros. by case_match; simplify_eq. Qed.

Lemma task_scope_subject a x : task_scope a = Some x -> subject a = Some x.
Proof. by destruct a. Qed.

Lemma quiet_waiter_key w k a a' : quiet w k a a' -> local_ok a -> waiter_key a' = waiter_key a.
Proof. destruct 1; simpl; try done; by destruct (waiter_id f). Qed.

Lemma registers_key f ctx new s f' s' a b r x ctx' :
  slot_ok s -> registers f ctx new s f' s' a b r ->
  let before := Waiting f x (FLock ctx new) in
  let after := Waiting f' x (FRelease ctx' a b r) in
  waiter_key after = waiter_key before \/ waiter_key after = None \/
  (waiter_key before = None /\
   waiter_key after = Some (token_slot (token f), generation s, next_id (waiters s)) /\
   next_id (waiters s') = next_id (waiters s) + 1).
Proof.
  intros Hs Hr. pose proof (so_generation _ Hs) as Hw. simpl.
  destruct Hr as [|id Hid| |id wk Hid|id n wk Hc Hgen He ? Hf -> -> ?|id n Hc Hgen Hid]; auto.
  - left. by rewrite Hid.
  - right. right. rewrite Hf. simpl. split; [done|]. split; [congruence|done].
  - destruct Hid as [[Hid ->]|(Hf & -> & -> & ?)]; [left; by rewrite Hid|].
    right. right. rewrite Hf. simpl. split; [done|]. split; [congruence|done].
Qed.

Lemma waiter_key_moved w w' m a a' :
  slots_ok w -> local_ok a -> moved w w' m a a' ->
  waiter_key a' = waiter_key a \/ waiter_key a' = None \/
  exists p s s', waiter_key a = None /\ subject a = Some (p, generation s) /\
    heap w !! p = Some s /\ heap w' !! p = Some s' /\ generation s' = generation s /\
    waiter_key a' = Some (p, generation s, next_id (waiters s)) /\
    next_id (waiters s') = next_id (waiters s) + 1.
Proof.
  intros Hok Hl.
  destruct 1 as [Hq Hh Hsh|q t t' Hq Hn Hs Hh ?|q t t' Hq Hs Hh ?|j y y' Hj Hs Hh ?
    |g j n q g' t y id -> -> Hq Hi Hid Hh Hsh|g j sl id -> -> Hi Hid Hh Hsh|wk Hwk Hh ?]; auto.
  - left. by eapply quiet_waiter_key.
  - pose proof (Hok _ _ Hq) as Hst.
    destruct Hs as [| | | | |f x ctx id s|f x id s|f x ctx new s f' s' a b r Hr|r x ctx new s r' s' a b Hr|];
      auto; simpl in Hl.
    + right. left. simpl. by destruct Hl as [_ ->].
    + right. left. simpl. by destruct Hl as [_ ->].
    + apply poll_locked_registers in Hr.
      destruct (registers_key f ctx new s f' s' a b r x ctx Hst Hr) as [|[|(E & E' & En)]]; auto.
      right. right. exists (token_slot (token f)), s, s'. split; [done|].
      assert (Hg : generation s = token_generation (token f)).
      { simpl in E'. destruct Hr; simpl in *; try done; case_match; simplify_eq; done. }
      split; [simpl; by rewrite Hg|]. split; [done|].
      rewrite Hh, list_lookup_insert_eq by by eapply lookup_lt_Some. split; [done|].
      split; [by destruct Hr|]. done.
  - left. by destruct Hs.
  - left. by destruct Hs.
  - left. by destruct Hwk.
Qed.

Lemma slot_is_known w w' m a a' p g j (P Q : CancellationSlot -> Prop) :
  slots_ok w -> scopes_ok w -> places_ok w -> agents w !! m = Some a -> moved w w' m a a' ->
  transition w w' -> view source_scope w j = Some (p, g) ->
  slot_is w p (fun s => generation s = g -> P s) ->
  (forall s s', keeps a p g s s' -> P s -> Q s') ->
  slot_is w' p (fun s => generation s = g -> Q s).
Proof.
  intros Hok Hsc Hpl Hm Hmv Ht Hj (s & Hs & HP) HPQ.
  destruct (generation_grows w w' p s Hok Ht Hs) as (s' & Hs' & _).
  exists s'. split; [done|]. intros Hg.
  pose proof (known_kept w w' m a a' p g j s s' Hok Hsc Hpl Hm Hmv Hj Hs Hs' Hg) as Hk.
  eapply HPQ; [done|]. apply HP. by apply k_generation in Hk.
Qed.

Lemma waiters_transition w w' :
  slots_ok w -> scopes_ok w -> subjects_ok w -> places_ok w -> locals_ok w -> waiters_ok w ->
  transition w w' -> waiters_ok w'.
Proof.
  intros Hok Hsc Hsub Hpl Hl [Hu Hb] Ht.
  destruct (view_step waiter_key w w' aside_waiter_key Ht) as (m & Hm & Hv).
  destruct Hm as [a a' Ha Ha' Hmv|a' Hm Ha' Hs Hh Hsh].
  - assert (Hkeep : forall k p g id, view waiter_key w k = Some (p, g, id) ->
      slot_is w' p (fun s => generation s = g -> 1 <= id < next_id (waiters s))).
    { intros k p g id Hk.
      assert (exists j, view source_scope w j = Some (p, g)) as [j Hj].
      { apply (Hsub k). apply view_Some in Hk as (b & Hb' & Hk).
        rewrite (view_at _ _ _ _ Hb'). by eapply waiter_key_subject. }
      eapply slot_is_known; [done..|by eapply Hb|]. simpl. intros s s' [] ?. lia. }
    pose proof (view_at waiter_key w' m a' Ha') as Hva.
    destruct (waiter_key_moved w w' m a a' Hok (Hl m a Ha) Hmv)
      as [E|[E|(p & s & s' & E & Hsubj & Hp & Hp' & Hg & E' & En)]].
    + assert (forall j, view waiter_key w' j = view waiter_key w j) as Hall.
      { intros j. destruct (decide (j = m)) as [->|]; [|auto]. by rewrite Hva, (view_at _ _ _ _ Ha). }
      split; [by eapply unique_frame|]. intros k p g id. rewrite Hall. apply Hkeep.
    + split.
      * eapply (unique_new _ w w' m None); [|done|done].
        intros j. case_decide; subst; [congruence|auto].
      * intros k p g id Hk. destruct (decide (k = m)) as [->|]; [congruence|].
        rewrite Hv in Hk by done. by eapply Hkeep.
    + split.
      * eapply (unique_new _ w w' m (Some (p, generation s, next_id (waiters s)))); [| |done].
        { intros j. case_decide; subst; [congruence|auto]. }
        intros x j [= <-] Hj. destruct (Hb _ _ _ _ Hj) as (s0 & Hs0 & Hlt). simplify_eq.
        specialize (Hlt eq_refl). lia.
      * intros k q g id Hk. destruct (decide (k = m)) as [->|].
        -- rewrite Hva, E' in Hk. injection Hk as <- <- <-. exists s'. split; [done|]. intros _.
           pose proof (so_next _ (Hok _ _ Hp)). lia.
        -- rewrite Hv in Hk by done. by eapply Hkeep.
  - assert (forall j, view waiter_key w' j = view waiter_key w j) as Hall.
    { intros j. destruct (decide (j = m)) as [->|]; [|auto]. rewrite (view_at _ _ _ _ Ha').
      unfold view. rewrite lookup_ge_None_2 by lia. by destruct Hs as [a []|]. }
    split; [by eapply unique_frame|]. intros k p g id. rewrite Hall. intros Hk.
    eapply slot_is_transition; [done|]. by eapply Hb.
Qed.

(** ** Slots *)
Lemma slots_transition w w' :
  slots_ok w -> locks_ok w -> waiters_ok w -> transition w w' -> slots_ok w'.
Proof.
  intros Hok Hlk [_ Hb] Ht p s' Hp'.
  destruct (heap_backward w w' p s' Ht Hp') as [(s & Hp & [->|Hw])|[_ ->]];
    [by eapply Hok| |apply slot_ok_new].
  pose proof (Hok _ _ Hp) as Hs.
  destruct Hw as [k a a' Hk Hn Hsec|k a a' Hk Hst|k g i n g' Hk ->].
  - destruct Hsec as [gg i n q s x ? ? Hlt He Htw|src gg s x q ? ?|owner src s|t s|t s|f x ctx id s|f x id s
      |f x ctx new s f' s' b c r H|r x ctx new s r' s' b c H|r x s].
    + pose proof (so_bounds _ Hs). pose proof (so_generation _ Hs).
      constructor; simpl; try done. lia.
    + by apply slot_ok_held.
    + by apply slot_ok_held.
    + unfold try_start_delivery, compare_exchange. repeat case_match; try done; by apply slot_ok_delivery.
    + unfold finish_delivery, compare_exchange. repeat case_match; try done; by apply slot_ok_delivery.
    + by apply slot_ok_unregister.
    + by apply slot_ok_unregister.
    + apply poll_locked_registers in H. eapply registers_slot_ok; [done..|]. intros id Hid Hg.
      destruct (Hb k (token_slot (token f)) (token_generation (token f)) id) as (s0 & Hs0 & Hlt).
      { rewrite (view_at _ _ _ _ Hk). simpl. by rewrite Hid. }
      simplify_eq. auto.
    + by eapply second_slot_ok.
    + by apply drop_slot_ok.
  - assert (holder s = Some k) as Hh.
    { rewrite <- (holder_at _ _ _ Hp). apply Hlk. rewrite (view_at _ _ _ _ Hk).
      by apply store_scope in Hst as (? & ? & ? & ? & ? & ?). }
    destruct Hst; simpl in *; try by apply slot_ok_publish.
    destruct Hs as [? ? ? ? ? ?]. constructor; simpl; try done. by rewrite Hh.
  - destruct Hs as [? ? ? ? ? ?]. by constructor.
Qed.


(** ** Tasks and borrows *)
Definition unclaimed (a : agent) : option (nat * Z) :=
  match a with
  | Owning src _ (SLive false) => Some (source_slot src, source_generation src)
  | _ => None
  end.

Definition tasks_ok (w : world) : Prop :=
  unique task_scope w /\
  forall j k x, view unclaimed w j = Some x -> view task_scope w k <> Some x.

Lemma task_scope_moved w w' k a a' : moved w w' k a a' -> task_scope a' = task_scope a.
Proof.
  destruct 1 as [Hq Hh Hsh|q t t' Hq Hn Hs Hh ?|q t t' Hq Hs Hh ?|j y y' Hj Hs Hh ?
    |g j n q g' t y id -> -> Hq Hi Hid Hh Hsh|g j sl id -> -> Hi Hid Hh Hsh|wk Hwk Hh ?]; try done.
  - by destruct Hq.
  - destruct Hs as [| | | | | | | |r x ctx new s r' s' a b Hr|]; try done. simpl.
    by destruct (second_locked_scope _ _ _ _ _ _ _ Hr) as [-> ->].
  - by destruct Hs.
  - by destruct Hs.
  - by destruct Hwk.
Qed.

(** An unclaimed source was unclaimed before, or its scope is new. *)
Lemma unclaimed_step w w' j x :
  slots_ok w -> scopes_ok w -> subjects_ok w -> transition w w' -> view unclaimed w' j = Some x ->
  view unclaimed w j = Some x \/ forall k, view task_scope w k <> Some x.
Proof.
  intros Hok [Hu Hb] Hsub Ht Hj.
  assert (Htask : forall k x, view task_scope w k = Some x -> exists i, view source_scope w i = Some x).
  { intros k y Hk. apply (Hsub k). apply view_Some in Hk as (b & Hb' & Hk).
    rewrite (view_at _ _ _ _ Hb'). by apply task_scope_subject. }
  destruct (agents_step w w' Ht) as (m & Hm & Hnone & Hsome).
  destruct (decide (j = m)) as [->|Hne].
  - destruct Hm as [a a' Ha Ha' Hmv|a' Hm Ha' Hs Hh Hsh]; rewrite (view_at _ _ _ _ Ha') in Hj.
    + destruct Hmv as [Hq Hh Hsh|q t t' Hq Hn Hs Hh ?|q t t' Hq Hs Hh ?|i y y' Hi Hs Hh ?
        |g i n q g' t y id -> -> Hq Hi Hid Hh Hsh|g i sl id -> -> Hi Hid Hh Hsh|wk Hwk Hh ?].
      * by destruct Hq.
      * by destruct Hs.
      * by destruct Hs.
      * by destruct Hs.
      * right. intros k Hk. simpl in Hj. injection Hj as <-. destruct (Htask _ _ Hk) as [i' Hi'].
        pose proof Hi' as Hi2. apply source_scope_scope in Hi2.
        assert (i' = m) as -> by (eapply Hu; [done|]; by rewrite (view_at _ _ _ _ Ha)).
        by rewrite (view_at _ _ _ _ Ha) in Hi'.
      * right. intros k Hk. simpl in Hj. injection Hj as <-. destruct (Htask _ _ Hk) as [i' Hi'].
        apply source_scope_scope in Hi'. destruct (Hb _ _ _ Hi') as (s & Hs & _).
        apply lookup_lt_Some in Hs. lia.
      * by destruct Hwk.
    + by destruct Hs as [a []|].
  - destruct (agents w !! j) as [a|] eqn:Ej.
    + destruct (Hsome j a Hne Ej) as (a' & Ha' & Has). rewrite (view_at _ _ _ _ Ha') in Hj.
      left. rewrite (view_at _ _ _ _ Ej). destruct Has as [|t a|]; [done| |done].
      destruct a as [| | | | | |f x' st|r x' st]; simpl in *; try done; by case_match.
    + unfold view in Hj. by rewrite (Hnone j Hne Ej) in Hj.
Qed.

Lemma claimed_gone w k src g j x :
  scopes_ok w -> agents w !! k = Some (Owning src g (SLive false)) ->
  view unclaimed (set_agent k (Owning src g (SLive true)) w) j = Some x ->
  x <> (source_slot src, source_generation src).
Proof.
  intros [Hu _] Hk Hj ->. rewrite (view_set _ _ _ _ _ _ Hk) in Hj. case_decide; [done|].
  apply view_Some in Hj as (a & Ha & Hj). destruct a as [|src' g' st| | | | | |]; try done.
  simpl in Hj. destruct st as [[]| | | | | |]; simplify_eq.
  assert (j = k); [|done]. apply (Hu j k (source_slot src, source_generation src)).
  - rewrite (view_at _ _ _ _ Ha). simpl. congruence.
  - by rewrite (view_at _ _ _ _ Hk).
Qed.

Lemma task_scope_frame w w' :
  transition w w' -> length (agents w') = length (agents w) ->
  forall j, view task_scope w' j = view task_scope w j.
Proof.
  intros Ht Hl j. destruct (view_step task_scope w w' aside_task_scope Ht) as (m & Hm & Hv).
  destruct (decide (j = m)) as [->|]; [|auto].
  destruct Hm as [a a' Ha Ha' Hmv|a' Hm Ha' Hs Hh Hsh].
  - rewrite (view_at _ _ _ _ Ha), (view_at _ _ _ _ Ha'). by eapply task_scope_moved.
  - apply lookup_lt_Some in Ha'. lia.
Qed.

Lemma tasks_transition w w' :
  slots_ok w -> scopes_ok w -> subjects_ok w -> tasks_ok w -> transition w w' -> tasks_ok w'.
Proof.
  intros Hok Hsc Hsub [Hu Hn] Ht.
  assert ((forall j, view task_scope w' j = view task_scope w j) \/
    exists k src g, agents w !! k = Some (Owning src g (SLive false)) /\
      w' = spawn (Tasking (into_parts src) (Watch 0 false) (TIdle None))
             (set_agent k (Owning src g (SLive true)) w)) as [Hv|(k & src & g & Hk & ->)].
  { pose proof Ht as Ht0.
    destruct Ht0 as [a Hb|k src g Hk|k a a' Hk Hq|k a a' q t t' Hk Hq Hn' Hs|k a a' q t t' Hk Hq Hs
      |k a a' i x x' Hk Hi Hs|k g i n q g' t x id Hk Hq Hi Hid|k g i sl id Hk Hi Hid|k a a' wk Hk Ha];
      [|by right; exists k, src, g|left; apply task_scope_frame; [done|]..];
      try by (simpl; rewrite ?length_map, ?length_insert).
    left. intros j. apply view_spawn_None. by destruct Hb. }
  - split; [by eapply unique_frame|]. intros j k x Hj. rewrite Hv.
    destruct (unclaimed_step w w' j x Hok Hsc Hsub Ht Hj) as [Hj'|Hno]; [by eapply Hn|apply Hno].
  - set (w1 := set_agent k (Owning src g (SLive true)) w).
    assert (H1 : forall j, view task_scope w1 j = view task_scope w j).
    { intros j. by eapply view_same. }
    split.
    + eapply (unique_new task_scope w _ (length (agents w1))
        (Some (source_slot src, source_generation src))).
      * intros j. rewrite view_spawn. case_decide; [done|apply H1].
      * intros x j [= <-] Hj. exfalso.
        eapply (Hn k j); [by rewrite (view_at _ _ _ _ Hk)|done].
      * done.
    + intros j i x Hj. rewrite view_spawn_None in Hj by done.
      pose proof (claimed_gone w k src g j x Hsc Hk Hj) as Hx.
      rewrite view_spawn. case_decide; [intros [= <-]; by apply Hx|]. rewrite H1.
      apply (Hn j). unfold w1 in Hj. rewrite (view_set _ _ _ _ _ _ Hk) in Hj. by case_decide.
Qed.

(** [cancel] runs while its source is alive. *)
Definition borrows_ok (w : world) : Prop :=
  forall k owner src st, agents w !! k = Some (Cancelling owner src st) -> st <> CReturned ->
    exists g b, agents w !! owner = Some (Owning src g (SLive b)).

Lemma borrowed_live w k owner src st :
  agents w !! k = Some (Cancelling owner src st) -> st <> CReturned ->
  existsb (borrows owner) (agents w) = true.
Proof.
  intros Hk Hst. apply existsb_exists. exists (Cancelling owner src st). split.
  - apply list_elem_of_In, list_elem_of_lookup. by exists k.
  - destruct st; simpl; try done; apply Nat.eqb_refl.
Qed.

Lemma live_kept w w' j src g b :
  transition w w' -> agents w !! j = Some (Owning src g (SLive b)) ->
  existsb (borrows j) (agents w) = true -> exists b', agents w' !! j = Some (Owning src g (SLive b')).
Proof.
  intros Ht Hj Hb. destruct (agents_step w w' Ht) as (m & Hm & _ & Hsome).
  destruct (decide (j = m)) as [->|Hne].
  - destruct Hm as [a a' Ha Ha' Hmv|a' -> Ha' Hs Hh Hsh].
    + simplify_eq. destruct Hmv as [Hq Hh Hsh|q t t' Hq Hn Hs Hh ?|q t t' Hq Hs Hh ?|i y y' Hi Hs Hh ?
        |g' i n q g2 t y id Heq _ _ _ _ _ _|g' i sl id Heq _ _ _ _ _|wk Hwk Hh ?]; try done.
      * inversion Hq; congruence.
      * by inversion Hs.
      * by inversion Hs.
      * by inversion Hs.
      * by inversion Hwk.
    + apply lookup_lt_Some in Hj. lia.
  - destruct (Hsome j _ Hne Hj) as (a' & Ha' & Has). inversion Has; subst; by eexists.
Qed.

Lemma borrows_transition w w' : borrows_ok w -> transition w w' -> borrows_ok w'.
Proof.
  intros Hb Ht k owner src st Hk Hst.
  assert (Hold : forall st0, agents w !! k = Some (Cancelling owner src st0) -> st0 <> CReturned ->
    exists g b, agents w' !! owner = Some (Owning src g (SLive b))).
  { intros st0 Hk0 Hst0. destruct (Hb k owner src st0 Hk0 Hst0) as (g & b & Ho). exists g.
    eapply live_kept; [done..|]. by eapply borrowed_live. }
  destruct (agents_step w w' Ht) as (m & Hm & Hnone & Hsome).
  destruct (decide (k = m)) as [->|Hne].
  - destruct Hm as [a a' Ha Ha' Hmv|a' Hm Ha' Hs Hh Hsh]; simplify_eq.
    + destruct Hmv as [Hq Hh Hsh|q t t' Hq Hn Hs Hh ?|q t t' Hq Hs Hh ?|i y y' Hi Hs Hh ?
        |g' i n q g2 t y id _ Heq _ _ _ _ _|g' i sl id _ Heq _ _ _ _|wk Hwk Hh ?]; try done.
      * inversion Hq; subst; done.
      * inversion Hs; subst. by eapply Hold.
      * inversion Hs; subst. by eapply Hold.
      * inversion Hs.
      * inversion Hwk; subst. by eapply Hold.
    + inversion Hs as [a Hbeg|]; subst. inversion Hbeg as [|? ? g b Hlive| | | |]; subst.
      destruct (Hsome owner (Owning src g (SLive b))) as (a' & Ho & Has); [|done|].
      { intros ->. by rewrite lookup_ge_None_2 in Hlive by lia. }
      inversion Has; subst; by repeat eexists.
  - destruct (agents w !! k) as [a|] eqn:Ek; [|by rewrite (Hnone k Hne Ek) in Hk].
    destruct (Hsome k a Hne Ek) as (a' & Ha' & Has). simplify_eq.
    inversion Has as [| t b Heq|]; subst; [by eapply Hold|].
    destruct a; simpl in *; try case_match; simplify_eq. by eapply Hold.
Qed.


(** ** The invariant *)
Record base_ok (w : world) : Prop := BaseOk {
  b_locks : locks_ok w;
  b_slots : slots_ok w;
  b_scopes : scopes_ok w;
  b_subjects : subjects_ok w;
  b_table : table_ok w;
  b_places : places_ok w;
  b_locals : locals_ok w;
  b_waiters : waiters_ok w;
  b_tasks : tasks_ok w;
  b_borrows : borrows_ok w;
}.

Lemma base_transition w w' : base_ok w -> transition w w' -> base_ok w'.
Proof.
  intros [] Ht. split.
  - by eapply locks_transition.
  - by eapply slots_transition.
  - by eapply scopes_transition.
  - by eapply subjects_transition.
  - by eapply table_transition.
  - by eapply places_transition.
  - by eapply locals_transition.
  - by eapply waiters_transition.
  - by eapply tasks_transition.
  - by eapply borrows_transition.
Qed.

Lemma no_agents_view {B} (f : agent -> option B) k : view f initial k = None.
Proof. done. Qed.

Lemma registry_new_lookup i x : registry_new !! i = Some x -> x = Shard [] [] None.
Proof. unfold registry_new. by intros [-> _]%lookup_replicate. Qed.

Lemma base_initial : base_ok initial.
Proof.
  assert (Hloc : forall i n p, ~ located initial i n p).
  { intros i n p (x & Hx & Hp). by rewrite (registry_new_lookup i x Hx) in Hp. }
  split; try done.
  - split; [done| | |]; intros i n; intros; by edestruct Hloc.
  - split; try done.
    + intros i x Hx. rewrite (registry_new_lookup i x Hx). constructor.
    + intros i x n Hx. rewrite (registry_new_lookup i x Hx). by intros ?%not_elem_of_nil.
Qed.

Lemma reachable_invariant (P : world -> Prop) :
  P initial -> (forall w w', base_ok w -> P w -> transition w w' -> P w') ->
  forall w, reachable w -> base_ok w /\ P w.
Proof.
  intros H0 HP w Hw. unfold reachable in Hw.
  assert (forall u v, rtc steps u v -> base_ok u -> P u -> base_ok v /\ P v) as H.
  { induction 1 as [u|u v v' Hst _ IH]; [done|]. intros Hb Hu. apply steps_transition in Hst.
    apply IH; [by eapply base_transition|by eapply HP]. }
  apply (H initial w Hw); [apply base_initial|done].
Qed.

Lemma reachable_base w : reachable w -> base_ok w.
Proof. intros Hw. by destruct (reachable_invariant (fun _ => True) I (fun _ _ _ _ _ => I) w Hw). Qed.

(** ** Registrations

    What a future or a registration remembers as registered is stored in the
    slot, as long as its scope has not ended. *)
Definition registration_holds (w : world) (a : agent) : Prop :=
  forall i p g, registered a = Some i -> subject a = Some (p, g) ->
    slot_is w p (fun s => generation s = g -> cancelled s = false ->
      exists wk, stored a s = Some wk /\ identity_of wk = i).

Definition registered_ok (w : world) : Prop :=
  forall k a, agents w !! k = Some a -> registration_holds w a.

(** The slot keeps what it stores for the agents that do not move. *)
Lemma stored_kept w m b k a p g s s' :
  base_ok w -> agents w !! m = Some b -> agents w !! k = Some a -> k <> m ->
  subject a = Some (p, g) -> heap w !! p = Some s -> keeps b p g s s' -> cancelled s' = false ->
  stored a s' = stored a s.
Proof.
  intros Hb Hm Hk Hne Hsub Hp [Hg Hn _ He Ht] Hc.
  pose proof (b_locals w Hb k a Hk) as Hl.
  destruct a as [| | | | | |f x st|r x st]; simpl in Hsub; try done; simpl.
  - destruct (waiter_id f) as [id|] eqn:Hid; [|done]. injection Hsub as Hp' Hg'.
    assert (Hkey : view waiter_key w k = Some (p, g, id)).
    { rewrite (view_at _ _ _ _ Hk). simpl. simpl in Hl. rewrite Hid in *.
      destruct st; try (destruct Hl; congruence); congruence. }
    apply He; [done| |].
    + destruct (b_waiters w Hb) as [_ Hbound]. destruct (Hbound _ _ _ _ Hkey) as (s0 & Hs0 & Hlt).
      simplify_eq. apply Hlt. congruence.
    + intros Hkey'. apply Hne. destruct (b_waiters w Hb) as [Hu _]. apply (Hu k m (p, g, id)); [done|].
      by rewrite (view_at _ _ _ _ Hm).
  - apply Ht; [done|]. intros Hkey'. apply Hne. destruct (b_tasks w Hb) as [Hu _].
    apply (Hu k m (p, g)); [by rewrite (view_at _ _ _ _ Hk)|by rewrite (view_at _ _ _ _ Hm)].
Qed.

Lemma subject_known w k a p g :
  base_ok w -> agents w !! k = Some a -> subject a = Some (p, g) ->
  exists j, view source_scope w j = Some (p, g).
Proof. intros Hb Hk Hs. apply (b_subjects w Hb k). by rewrite (view_at _ _ _ _ Hk). Qed.

Lemma registration_other w w' m b b' k a a' :
  base_ok w -> transition w w' -> agents w !! m = Some b -> moved w w' m b b' ->
  agents w !! k = Some a -> k <> m -> aside a a' ->
  registration_holds w a -> registration_holds w' a'.
Proof.
  intros Hb Ht Hm Hmv Hk Hne Has Hr i p g. rewrite (aside_registered a a' Has), (aside_subject a a' Has).
  intros Hi Hsub. destruct (subject_known w k a p g Hb Hk Hsub) as [j Hj].
  destruct (Hr i p g Hi Hsub) as (s & Hp & Hs).
  destruct (generation_grows w w' p s (b_slots w Hb) Ht Hp) as (s' & Hp' & _).
  exists s'. split; [done|]. intros Hg Hc.
  pose proof (known_kept w w' m b b' p g j s s' (b_slots w Hb) (b_scopes w Hb) (b_places w Hb) Hm Hmv
    Hj Hp Hp' Hg) as Hkeep.
  rewrite (aside_stored a a' s' Has).
  rewrite (stored_kept w m b k a p g s s' Hb Hm Hk Hne Hsub Hp Hkeep Hc).
  apply Hs; [by apply k_generation in Hkeep|].
  destruct (cancelled s) eqn:E; [|done]. by rewrite (k_over _ _ _ _ _ Hkeep E) in Hc.
Qed.

Lemma registration_same_heap w w' a a' :
  heap w' = heap w -> (registered a' = None \/ registered a' = registered a) ->
  subject a' = subject a -> (forall s, registered a' <> None -> stored a' s = stored a s) ->
  registration_holds w a -> registration_holds w' a'.
Proof.
  intros Hh [Hn|Hn] Hs Hst Hr i p g Hi Hsub; [congruence|].
  rewrite Hn in Hi. rewrite Hs in Hsub. destruct (Hr i p g Hi Hsub) as (s & Hp & H).
  exists s. rewrite Hh. split; [done|]. rewrite Hst by congruence. done.
Qed.

Lemma registration_quiet w w' k a a' :
  base_ok w -> agents w !! k = Some a -> quiet w k a a' -> heap w' = heap w ->
  registration_holds w a -> registration_holds w' a'.
Proof.
  intros Hb Hk Hq Hh Hr.
  assert (Hgo : (registered a' = None \/ registered a' = registered a) -> subject a' = subject a ->
    (forall s, registered a' <> None -> stored a' s = stored a s) -> registration_holds w' a')
    by (intros; by eapply registration_same_heap).
  destruct Hq; try (apply Hgo; simpl; repeat case_match; by auto).
  intros i p g Hi Hsub. simpl in *. simplify_eq. exists s. rewrite Hh. split; [done|]. intros _ _.
  by exists wk.
Qed.

Lemma registration_section w w' k a a' p s s' :
  base_ok w -> agents w !! k = Some a -> heap w !! p = Some s -> section w k a p s s' a' ->
  heap w' = <[p := s']> (heap w) -> registration_holds w' a'.
Proof.
  intros Hb Hk Hp Ht Hh i q g Hi Hsub.
  assert (Hput : subject a' = Some (p, g) ->
    (generation s' = g -> cancelled s' = false ->
      exists wk, stored a' s' = Some wk /\ identity_of wk = i) ->
    slot_is w' q (fun s => generation s = g -> cancelled s = false ->
      exists wk, stored a' s = Some wk /\ identity_of wk = i)).
  { intros E HP. rewrite Hsub in E. injection E as ->. by eapply slot_is_write. }
  pose proof (b_locals w Hb k a Hk) as Hl.
  destruct Ht as [gg j n q' s x ? ? ? ? ?|src gg s x q' ? ?|owner src s|t s|t s|f x ctx id s|f x id s
    |f x ctx new s f' s' b c r H|r x ctx new s r' s' b c H|r x s]; simpl in Hi; try done.
  - destruct Hl as [Hl Hn]. by rewrite Hl in Hi.
  - destruct Hl as [Hl Hn]. by rewrite Hl in Hi.
  - apply poll_locked_registers in H. apply Hput; [|].
    + simpl in *. destruct H; simpl in *; congruence.
    + intros _ _. destruct H as [| | |id wk ? ? ? He|id n wk ? ? He|id n]; simpl in *; simplify_eq;
        eexists; split; try done; by rewrite ?lookup_insert_eq.
  - apply Hput.
    + simpl in *. destruct (second_locked_scope _ _ _ _ _ _ _ H). congruence.
    + intros _ _. unfold second_locked in H. case_match; simplify_eq/=. by eexists.
Qed.

Lemma registered_transition w w' : base_ok w -> registered_ok w -> transition w w' -> registered_ok w'.
Proof.
  intros Hb Hr Ht k c Hc. destruct (agents_step w w' Ht) as (m & Hm & Hnone & Hsome).
  destruct (decide (k = m)) as [->|Hne].
  - destruct Hm as [a a' Ha Ha' Hmv|a' Hm Ha' Hs Hh Hsh]; simplify_eq.
    + destruct Hmv as [Hq Hh Hsh|q t t' Hq Hn Hs Hh ?|q t t' Hq Hs Hh ?|i y y' Hi Hs Hh ?
        |g' i n q g2 t y id _ -> _ _ _ _ _|g' i sl id _ -> _ _ _ _|wk Hwk Hh ?]; try done.
      * eapply registration_quiet; [done..|by eapply Hr].
      * by eapply registration_section.
      * by destruct Hs.
      * by destruct Hs.
      * by destruct Hwk.
    + by destruct Hs as [a []|].
  - destruct (agents w !! k) as [a|] eqn:Ek; [|by rewrite (Hnone k Hne Ek) in Hc].
    destruct (Hsome k a Hne Ek) as (a' & Ha' & Has). simplify_eq.
    destruct Hm as [b b' Hb' Hb'' Hmv|b' Hm Hb' Hs Hh Hsh].
    + by apply (registration_other w w' m b b' k a c Hb Ht Hb' Hmv Ek Hne Has (Hr _ _ Ek)).
    + eapply registration_same_heap; [done|right; by apply aside_registered|by apply aside_subject| |by eapply Hr].
      intros s _. by apply aside_stored.
Qed.

Lemma reachable_registered w : reachable w -> base_ok w /\ registered_ok w.
Proof. apply reachable_invariant; [by intros k a|]. intros. by eapply registered_transition. Qed.

End CancellationWaiters.
