(* ===== verification/CancellationWakeups.v ===== *)
(** * Notification of cancellation waiters

    Two wakers alive at once that compare equal schedule the same task, and a
    waiter whose poll answered pending is notified, or its waker is stored in
    the live scope's slot, or is about to be called.  The second fact covers
    the polls that skip registration because the identity of the waker did not
    change: such a poll ends pending only while the stored waker is the task's. *)

From S2P Require Import Prelude Cancellation CancellationShape CancellationInvariant CancellationScopes CancellationPlaces CancellationWaiters.
Import Cancellation CancellationShape CancellationInvariant CancellationScopes CancellationPlaces CancellationWaiters.

Local Open Scope Z_scope.

Module CancellationWakeups.

(** ** Live wakers *)
Definition alive (w : world) (x : Waker) : Prop :=
  (exists p s, heap w !! p = Some s /\ (x ∈ slot_wakers s)) \/
  (exists k a, agents w !! k = Some a /\ (x ∈ agent_wakers a)).

Lemma elem_of_wakers w x : (x ∈ wakers w) <-> alive w x.
Proof.
  unfold wakers, alive. rewrite elem_of_app, !list_elem_of_bind. split.
  - intros [(s & Hx & (p & Hp)%list_elem_of_lookup)|(a & Hx & (k & Hk)%list_elem_of_lookup)];
      [left; by exists p, s|right; by exists k, a].
  - intros [(p & s & Hp & Hx)|(k & a & Hk & Hx)]; [left; exists s|right; exists a];
      (split; [done|]); apply list_elem_of_lookup; eauto.
Qed.

Lemma elem_of_option_wakers o x : (x ∈ option_wakers o) <-> o = Some x.
Proof.
  destruct o as [y|]; simpl.
  - rewrite list_elem_of_singleton. split; congruence.
  - split; [by intros ?%not_elem_of_nil|done].
Qed.

Lemma elem_of_map_wakers (m : gmap Z Waker) x : (x ∈ (map_to_list m).*2) <-> exists id, m !! id = Some x.
Proof.
  rewrite list_elem_of_fmap. split.
  - intros ([id y] & -> & H%elem_of_map_to_list). by exists id.
  - intros [id H]. exists (id, x). split; [done|]. by apply elem_of_map_to_list.
Qed.

Lemma elem_of_slot_wakers s x :
  (x ∈ slot_wakers s) <->
  (exists id, entries (waiters s) !! id = Some x) \/ task_waker (waiters s) = Some x.
Proof. unfold slot_wakers. by rewrite elem_of_app, elem_of_map_wakers, elem_of_option_wakers. Qed.

Lemma elem_of_detached d x :
  (x ∈ detached_wakers d) <->
  (exists id, detached_entries d !! id = Some x) \/ detached_task d = Some x.
Proof. unfold detached_wakers. by rewrite elem_of_app, elem_of_map_wakers, elem_of_option_wakers. Qed.

Definition wakers_ok (w : world) : Prop :=
  forall x y, alive w x -> alive w y -> will_wake x y = true -> task x = task y.

Lemma will_wake_sym x y : will_wake x y = will_wake y x.
Proof. unfold will_wake. by rewrite Z.eqb_sym, Nat.eqb_sym. Qed.

Lemma will_wake_matches x y : will_wake x y = matches (identity_of x) y.
Proof. done. Qed.

Lemma compatible_task w x y :
  compatible w x = true -> alive w y -> will_wake x y = true -> task x = task y.
Proof.
  unfold compatible. rewrite forallb_forall. intros Hc Hy%elem_of_wakers Hw.
  apply list_elem_of_In, Hc in Hy. rewrite Hw in Hy. by apply Nat.eqb_eq in Hy.
Qed.

Lemma elem_of_cons_wakers (x y : Waker) l : (x ∈ y :: l) <-> x = y \/ (x ∈ l).
Proof. apply elem_of_cons. Qed.

(** Where the wakers of an agent and of the slot it writes come from. *)
Definition from (a : agent) (s : CancellationSlot) (x : Waker) : Prop :=
  (x ∈ agent_wakers a) \/ (x ∈ slot_wakers s).

Ltac wakers_split :=
  repeat match goal with
    | H : _ ∈ _ :: _ |- _ => apply elem_of_cons_wakers in H
    | H : _ ∈ [] |- _ => by apply not_elem_of_nil in H
    | H : _ ∈ _ ++ _ |- _ => apply elem_of_app in H
    | H : _ ∈ option_wakers _ |- _ => apply elem_of_option_wakers in H
    | H : _ ∈ slot_wakers _ |- _ => apply elem_of_slot_wakers in H
    | H : _ ∈ detached_wakers _ |- _ => apply elem_of_detached in H
    | H : _ \/ _ |- _ => destruct H
    | H : exists _, _ |- _ => destruct H
    | H : Some _ = Some _ |- _ => injection H as H
    | H : None = Some _ |- _ => discriminate H
    | H : delete _ _ !! _ = Some _ |- _ => apply lookup_delete_Some in H as [? ?]
    | H : <[_ := _]> _ !! _ = Some _ |- _ => apply lookup_insert_Some in H as [[? ?]|[? ?]]
    | H : ∅ !! _ = Some _ |- _ => by rewrite lookup_empty in H
    end.

Ltac wakers_in := wakers_split; simpl in *; wakers_split; subst.

Ltac wakers_out :=
  unfold from; simpl;
  rewrite ?elem_of_cons_wakers, ?elem_of_app, ?elem_of_option_wakers, ?elem_of_slot_wakers,
    ?elem_of_detached; eauto 8.

Lemma unregister_from f x st g id s y :
  (y ∈ slot_wakers (snd (unregister_locked g id s))) \/
  fst (unregister_locked g id s) = Some y -> from (Waiting f x st) s y.
Proof.
  unfold unregister_locked. intros [H|H]; case_match; simpl in H; wakers_in; wakers_out.
Qed.

Lemma registers_from f ctx new s f' s' a b r x y :
  registers f ctx new s f' s' a b r ->
  (y ∈ slot_wakers s') \/ (y ∈ agent_wakers (Waiting f' x (FRelease ctx a b r))) ->
  from (Waiting f x (FLock ctx new)) s y.
Proof. intros [] [Hy|Hy]; simpl in Hy; wakers_in; wakers_out. Qed.

Lemma second_from r ctx new s r' s' a b x y :
  second_locked r new s = (r', s', a, b) ->
  (y ∈ slot_wakers s') \/ (y ∈ agent_wakers (Tasking r' x (TRelease ctx a b))) ->
  from (Tasking r x (TSecond ctx new)) s y.
Proof.
  unfold second_locked. intros H. case_match; simplify_eq; intros [Hy|Hy]; simpl in Hy;
    wakers_in; wakers_out.
Qed.

Lemma section_from w k a p s s' a' x :
  section w k a p s s' a' -> (x ∈ slot_wakers s') \/ (x ∈ agent_wakers a') -> from a s x.
Proof.
  destruct 1 as [gg j n q' s y ? ? ? ? ?|src gg s y q' ? ?|owner src s|t s|t s|f z ctx id s|f z id s
    |f z ctx new s f' s' b c r Hl|r z ctx new s r' s' b c Hl|r z s].
  - intros [Hy|Hy]; simpl in Hy; wakers_in; wakers_out.
  - intros [Hy|Hy]; [|simpl in Hy; wakers_in]. unfold slot_wakers in Hy. simpl in Hy.
    rewrite claim_waiters in Hy. right. done.
  - intros [Hy|Hy]; [|simpl in Hy; wakers_in]. unfold slot_wakers in Hy. simpl in Hy.
    rewrite claim_waiters in Hy. right. done.
  - intros [Hy|Hy]; [|simpl in Hy; wakers_in]. right. unfold try_start_delivery in Hy.
    case_match; [done|]. unfold slot_wakers in Hy. by rewrite compare_exchange_waiters in Hy.
  - intros [Hy|Hy]; [|simpl in Hy; wakers_in]. right. unfold finish_delivery in Hy.
    case_match; [|done]. unfold slot_wakers in Hy. by rewrite compare_exchange_waiters in Hy.
  - intros [Hy|Hy]; [by eapply unregister_from; left|].
    simpl in Hy. wakers_in; [wakers_out|by eapply unregister_from; right].
  - intros [Hy|Hy]; [by eapply unregister_from; left|].
    simpl in Hy. wakers_in. by eapply unregister_from; right.
  - apply poll_locked_registers in Hl. by eapply registers_from.
  - by eapply second_from.
  - unfold drop_locked. intros [Hy|Hy]; case_match; simpl in Hy; wakers_in; wakers_out.
Qed.

Lemma store_from k a p s s' a' x :
  store k a p s s' a' -> (x ∈ slot_wakers s') \/ (x ∈ agent_wakers a') -> from a s x.
Proof.
  destruct 1; intros [Hy|Hy]; simpl in Hy; try (right; done); wakers_in; wakers_out.
Qed.

(** Only polls and clones bring wakers in. *)
Lemma quiet_wakers w k a a' :
  quiet w k a a' ->
  (forall x, (x ∈ agent_wakers a') -> x ∈ agent_wakers a) \/
  exists new, compatible w new = true /\ forall x, (x ∈ agent_wakers a') -> (x ∈ agent_wakers a) \/ x = new.
Proof.
  destruct 1 as [| | | | |f x last ctx|r x last ctx| | | | | | |f x ctx new| | | | | | | | |
    |r x ctx new| | | | |]; simpl; auto.
  all: try by (left; intros y Hin; repeat case_match; wakers_in; wakers_out).
  - right. exists ctx. split; [done|]. intros y H'. wakers_in. by right.
  - right. exists ctx. split; [done|]. intros y H'. wakers_in. by right.
  - left. destruct (waiter_id f); [done|]. by intros y ?%not_elem_of_nil.
  - right. exists new. split; [done|]. intros y H'. wakers_in; [left|by right]. by left.
  - right. exists new. split; [done|]. intros y H'. wakers_in; [left|by right]. by left.
Qed.

Lemma sharded_wakers k h a i x x' a' : sharded k h a i x x' a' -> forall y, (y ∈ agent_wakers a') -> y ∈ agent_wakers a.
Proof. destruct 1; simpl; intros y Hy; try done; by apply not_elem_of_nil in Hy. Qed.

Lemma wake_rest id d wk rest x :
  wake id d = Woken wk rest -> (x ∈ detached_wakers rest) -> x ∈ detached_wakers d.
Proof.
  unfold wake. intros H Hx. case_bool_decide; repeat case_match; simplify_eq;
    rewrite elem_of_detached; wakers_in; eauto.
Qed.

Lemma waking_wakers a wk a' x : waking a wk a' -> (x ∈ agent_wakers a') -> x ∈ agent_wakers a.
Proof. destruct 1; simpl; by apply wake_rest with id wk. Qed.

Lemma aside_wakers a a' : aside a a' -> agent_wakers a' = agent_wakers a.
Proof. destruct 1 as [|t a|]; try done. destruct a; simpl; try done; by case_match. Qed.

Lemma moved_alive w w' m a a' :
  agents w !! m = Some a -> moved w w' m a a' ->
  exists new, (new = None \/ exists x, new = Some x /\ compatible w x = true) /\
    (forall x, (x ∈ agent_wakers a') -> alive w x \/ new = Some x) /\
    forall p s' x, heap w' !! p = Some s' -> (x ∈ slot_wakers s') -> alive w x.
Proof.
  intros Hm Hmv.
  assert (Hfrom : forall q t x, heap w !! q = Some t -> from a t x -> alive w x).
  { intros q t x Hq [H|H]; [right|left]; eauto. }
  assert (Hsame : heap w' = heap w ->
    forall p s' x, heap w' !! p = Some s' -> (x ∈ slot_wakers s') -> alive w x).
  { intros -> p s' x Hp Hx. left. eauto. }
  assert (Hput : forall q t t', heap w' = <[q := t']> (heap w) -> heap w !! q = Some t ->
    (forall x, (x ∈ slot_wakers t') -> alive w x) ->
    forall p s' x, heap w' !! p = Some s' -> (x ∈ slot_wakers s') -> alive w x).
  { intros q t t' Hh Hq Ht p s' x Hp Hx. rewrite Hh in Hp. list_upd q p; simplify_eq; [by apply Ht|].
    left. eauto. }
  destruct Hmv as [Hq Hh Hsh|q t t' Hq Hn Hs Hh ?|q t t' Hq Hs Hh ?|i y y' Hi Hs Hh ?
    |g i n q g2 t y id -> -> Hq Hi Hid Hh Hsh|g i sl id -> -> Hi Hid Hh Hsh|wk Hwk Hh ?].
  - destruct (quiet_wakers w m a a' Hq) as [H|(new & Hc & H)].
    + exists None. split; [by left|]. split; [|by apply Hsame]. intros x Hx. left. right. eauto.
    + exists (Some new). split; [right; by exists new|]. split; [|by apply Hsame].
      intros x [Hx| ->]%H; [left; right; eauto|by right].
  - exists None. split; [by left|]. split.
    + intros x Hx. left. eapply Hfrom; [done|]. eapply section_from; [done|by right].
    + eapply Hput; [done..|]. intros x Hx. eapply Hfrom; [done|]. eapply section_from; [done|by left].
  - exists None. split; [by left|]. split.
    + intros x Hx. left. eapply Hfrom; [done|]. eapply store_from; [done|by right].
    + eapply Hput; [done..|]. intros x Hx. eapply Hfrom; [done|]. eapply store_from; [done|by left].
  - exists None. split; [by left|]. split; [|by apply Hsame]. intros x Hx. left. right.
    exists m, a. split; [done|]. by eapply sharded_wakers.
  - exists None. split; [by left|]. split; [by intros x ?%not_elem_of_nil|].
    eapply Hput; [done..|]. intros x Hx. left. exists q, t. done.
  - exists None. split; [by left|]. split; [by intros x ?%not_elem_of_nil|].
    intros p s' x Hp Hx. rewrite Hh in Hp. apply lookup_app_Some in Hp as [Hp|[_ Hp]]; [left; eauto|].
    destruct (p - length (heap w))%nat as [|[]]; simplify_eq/=. by apply not_elem_of_nil in Hx.
  - exists None. split; [by left|]. split; [|by apply Hsame]. intros x Hx. left. right.
    exists m, a. split; [done|]. by eapply waking_wakers.
Qed.

Lemma wakers_transition w w' : wakers_ok w -> transition w w' -> wakers_ok w'.
Proof.
  intros Hw Ht. destruct (agents_step w w' Ht) as (m & Hm & Hnone & Hsome).
  assert (exists new, (new = None \/ exists x, new = Some x /\ compatible w x = true) /\
    forall x, alive w' x -> alive w x \/ new = Some x) as (new & Hnew & Halive).
  { assert (Hother : forall k a' x, k <> m -> agents w' !! k = Some a' -> (x ∈ agent_wakers a') ->
      alive w x).
    { intros k a' x Hne Hk Hx. destruct (agents w !! k) as [a|] eqn:Ek;
        [|by rewrite (Hnone k Hne Ek) in Hk].
      destruct (Hsome k a Hne Ek) as (b & Hb & Has). simplify_eq.
      rewrite (aside_wakers a a' Has) in Hx. right. eauto. }
    destruct Hm as [a a' Ha Ha' Hmv|a' Hm Ha' Hs Hh Hsh].
    - destruct (moved_alive w w' m a a' Ha Hmv) as (new & Hnew & Hag & Hsl).
      exists new. split; [done|]. intros x [(p & s' & Hp & Hx)|(k & b & Hk & Hx)].
      + left. by eapply Hsl.
      + destruct (decide (k = m)) as [->|]; [simplify_eq; by apply Hag|left; by eapply Hother].
    - exists None. split; [by left|]. intros x [(p & s' & Hp & Hx)|(k & b & Hk & Hx)]; left.
      + left. rewrite Hh in Hp. eauto.
      + destruct (decide (k = m)) as [->|]; [|by eapply Hother]. simplify_eq.
        destruct Hs as [b []|]; by apply not_elem_of_nil in Hx. }
  assert (Hwk : forall y, alive w y -> forall x, new = Some x -> will_wake x y = true -> task x = task y).
  { intros y Hy x -> Hxy. destruct Hnew as [|(z & [= ->] & Hc)]; [done|]. by eapply compatible_task. }
  intros x y Hx Hy Hxy. apply Halive in Hx, Hy.
  destruct Hx as [Hx|Hx], Hy as [Hy|Hy].
  - by apply Hw.
  - symmetry. eapply Hwk; [done..|]. by rewrite will_wake_sym.
  - by eapply Hwk.
  - congruence.
Qed.

End CancellationWakeups.
