(* ===== verification/CancellationCoverage.v ===== *)
(** * No waiter of an ended scope is forgotten

    [demand] says what a future or a registration relies on at each point of a
    poll, and [wakeups_ok] that it holds in all reachable worlds. *)

From S2P Require Import Prelude Cancellation CancellationShape CancellationInvariant CancellationScopes CancellationPlaces CancellationWaiters CancellationWakeups.
Import Cancellation CancellationShape CancellationInvariant CancellationScopes CancellationPlaces CancellationWaiters CancellationWakeups.

Local Open Scope Z_scope.

Module CancellationCoverage.

(** Wakers an agent has detached and will call. *)
Definition detached_by (a : agent) : list Waker :=
  match a with
  | Owning _ _ (SPush d | SWake d) | Cancelling _ _ (CWake d) => detached_wakers d
  | _ => []
  end.

Definition in_flight (w : world) (t : nat) : Prop :=
  exists k a x, agents w !! k = Some a /\ (x ∈ detached_by a) /\ task x = t.

Definition watch_of (a : agent) : option watch :=
  match a with Waiting _ x _ | Tasking _ x _ => Some x | _ => None end.

(** The slot of the agent's scope stores a waker of the task that polls it. *)
Definition kept_for (w : world) (a : agent) (t : nat) : Prop :=
  exists p s wk, subject a = Some (p, generation s) /\ heap w !! p = Some s /\
    stored a s = Some wk /\ task wk = t.

Definition covered (w : world) (a : agent) : Prop :=
  exists x, watch_of a = Some x /\
    (notified x = true \/ kept_for w a (polled_by x) \/ in_flight w (polled_by x)).

(** A check at [c] that cannot answer that the scope lives. *)
Definition doomed (w : world) (a : agent) (c : check) : Prop :=
  exists p g s, subject a = Some (p, g) /\ heap w !! p = Some s /\
    (generation s <> g \/ (cancelled s = true /\ (c = LoadGeneration \/ c = LoadCancelled))).

Inductive demand : Type := Nothing | Always | Unless (c : check).

Definition unchanged_for (i : option WakerIdentity) (ctx : Waker) : bool :=
  match i with Some i => matches i ctx | None => false end.

Definition demand_of (a : agent) : demand :=
  match a with
  | Waiting f _ (FCheck ctx c) => if unchanged_for (registered_waker f) ctx then Unless c else Nothing
  | Waiting _ _ (FIdle (Some Pending) | FRelease _ _ _ Pending) => Always
  | Tasking r _ (TCheck ctx c) =>
      if unchanged_for (registered_task_waker r) ctx then Unless c else Nothing
  | Tasking _ _ (TIdle (Some Pending)) => Always
  | Tasking _ _ (TRelease _ _ _) => Unless LoadGeneration
  | Tasking _ _ (TFinal _ c) => Unless c
  | _ => Nothing
  end.

Definition satisfied (w : world) (a : agent) : Prop :=
  match demand_of a with
  | Nothing => True
  | Always => covered w a
  | Unless c => covered w a \/ doomed w a c
  end.

Definition wakeups_ok (w : world) : Prop := forall k a, agents w !! k = Some a -> satisfied w a.

(** ** What others do to a waiter *)

Lemma stored_ended a s wk : slot_ok s -> stored a s = Some wk -> cancelled s = false.
Proof.
  intros Hs Hst. destruct (cancelled s) eqn:E; [|done].
  destruct (so_ended _ Hs E) as [He Ht].
  destruct a as [| | | | | |f x st|r x st]; simpl in Hst; try done; [|congruence].
  destruct (waiter_id f); [|done]. by rewrite He, lookup_empty in Hst.
Qed.

Lemma stored_in_slot a s wk : stored a s = Some wk -> wk ∈ slot_wakers s.
Proof.
  intros H. apply elem_of_slot_wakers. destruct a; simpl in H; try done; [|by right].
  case_match; [left; eauto|done].
Qed.

Lemma publish_detaches s wk :
  (wk ∈ slot_wakers s) -> wk ∈ detached_wakers (fst (cancel_publish s)).
Proof. rewrite elem_of_slot_wakers, elem_of_detached. done. Qed.

(** A stored waker stays stored, or the mover detaches it. *)
Lemma stored_fate w w' m b b' k a p s wk :
  base_ok w -> transition w w' -> agents w !! m = Some b -> moved w w' m b b' ->
  agents w !! k = Some a -> k <> m -> subject a = Some (p, generation s) ->
  heap w !! p = Some s -> stored a s = Some wk ->
  (exists s', heap w' !! p = Some s' /\ generation s' = generation s /\ stored a s' = Some wk) \/
  (wk ∈ detached_by b').
Proof.
  intros Hb Ht Hm Hmv Hk Hne Hsub Hp Hst.
  pose proof (b_slots w Hb p s Hp) as Hs. pose proof (stored_ended a s wk Hs Hst) as Hc.
  destruct (generation_grows w w' p s (b_slots w Hb) Ht Hp) as (s' & Hp' & _).
  destruct (subject_known w k a p (generation s) Hb Hk Hsub) as [j Hj].
  assert (Hkeep : generation s' = generation s -> cancelled s' = false ->
    exists s', heap w' !! p = Some s' /\ generation s' = generation s /\ stored a s' = Some wk).
  { intros Hg Hc'. exists s'. split; [done|]. split; [done|].
    pose proof (known_kept w w' m b b' p (generation s) j s s' (b_slots w Hb) (b_scopes w Hb)
      (b_places w Hb) Hm Hmv Hj Hp Hp' Hg) as Hkp.
    by rewrite (stored_kept w m b k a p (generation s) s s' Hb Hm Hk Hne Hsub Hp Hkp Hc'). }
  assert (Hsame : heap w' = heap w -> generation s' = generation s /\ cancelled s' = false).
  { intros E. rewrite E in Hp'. by simplify_eq. }
  assert (Hput : forall q t t', heap w !! q = Some t -> heap w' = <[q := t']> (heap w) ->
    q <> p /\ s' = s \/ q = p /\ t = s /\ s' = t').
  { intros q t t' Hq Hh. rewrite Hh in Hp'. list_upd q p; simplify_eq; auto. }
  destruct Hmv as [Hq Hh Hsh|q t t' Hq Hn Hsec Hh ?|q t t' Hq Hsec Hh ?|i y y' Hi Hsec Hh ?
    |g i n q g2 t y id -> -> Hq Hi Hid Hh Hsh|g i sl id -> -> Hi Hid Hh Hsh|wk' Hwk Hh ?].
  1, 4, 7: left; by apply Hkeep; apply Hsame.
  - left. destruct (Hput q t t' Hq Hh) as [[_ ->]|(-> & -> & ->)]; [by apply Hkeep|].
    apply section_fields in Hsec as [(? & ? & ? & ? & _ & _ & _ & _ & _ & _ & He & Hw)|[Hg Hcc]].
    + exfalso. apply stored_in_slot, elem_of_slot_wakers in Hst. destruct Hst as [[id Hid]|Hid]; [|congruence].
      by rewrite He, lookup_empty in Hid.
    + apply Hkeep; congruence.
  - destruct (Hput q t t' Hq Hh) as [[_ ->]|(-> & -> & ->)]; [left; by apply Hkeep|].
    destruct Hsec as [gg i n q g' t|src gg q t|owner src t].
    + exfalso. destruct (po_agents w (b_places w Hb) m _ Hm) as (_ & t' & Ht' & _ & Hcc). simplify_eq.
      congruence.
    + right. apply publish_detaches. by eapply stored_in_slot.
    + right. apply publish_detaches. by eapply stored_in_slot.
  - left. destruct (Hput q t _ Hq Hh) as [[_ ->]|(-> & -> & ->)]; [by apply Hkeep|].
    by apply Hkeep.
  - left. rewrite Hh, lookup_app_l in Hp' by by eapply lookup_lt_Some. simplify_eq. by apply Hkeep.
Qed.

Lemma doomed_kept w w' k a a' c :
  base_ok w -> transition w w' -> agents w !! k = Some a -> subject a' = subject a ->
  doomed w a c -> doomed w' a' c.
Proof.
  intros Hb Ht Hk Hs (p & g & s & Hsub & Hp & Hd).
  destruct (generation_grows w w' p s (b_slots w Hb) Ht Hp) as (s' & Hp' & Hle).
  exists p, g, s'. rewrite Hs. split; [done|]. split; [done|].
  destruct (subject_known w k a p g Hb Hk Hsub) as [j Hj].
  destruct Hd as [Hg|[Hc Hd]].
  - left. destruct (subject_bound w k p g (b_scopes w Hb) (b_subjects w Hb)) as (s0 & Hs0 & Hlt).
    { by rewrite (view_at _ _ _ _ Hk). }
    simplify_eq. lia.
  - destruct (over_kept w w' j p g s s' (b_slots w Hb) (b_scopes w Hb) (po_agents w (b_places w Hb)) Ht Hj Hp Hp')
      as [?|?]; [by right|by left|by right].
Qed.

(** A waker in flight is called, or stays in flight. *)
Lemma detached_moved w w' m b b' :
  moved w w' m b b' ->
  (forall x, (x ∈ detached_by b) -> x ∈ detached_by b') \/
  exists wk, (forall x, (x ∈ detached_by b) -> x = wk \/ (x ∈ detached_by b')) /\
    agents w' = map (notify_agent (task wk)) (<[m := b']> (agents w)).
Proof.
  destruct 1 as [Hq Hh Hsh|q t t' Hq Hn Hs Hh ?|q t t' Hq Hs Hh ?|i y y' Hi Hs Hh ?
    |g i n q g2 t y id -> -> Hq Hi Hid Hh Hsh|g i sl id -> -> Hi Hid Hh Hsh|wk Hwk Hh ? Hag]; try by left.
  - left. destruct Hq as [|src g d He Hd| |owner src d He Hd| | | | | | | | | | | | | | | | | | | | | | | | |];
      simpl; try done; intros x Hx; apply elem_of_detached in Hx as [[id Hx]|Hx];
      rewrite ?He, ?lookup_empty in Hx; congruence.
  - left. destruct Hs; simpl; try done; by intros x ?%not_elem_of_nil.
  - left. destruct Hs; simpl; try done; by intros x ?%not_elem_of_nil.
  - left. destruct Hs; simpl; try done; by intros x ?%not_elem_of_nil.
  - right. exists wk. split; [|done].
    assert (Hw : forall id d rest x, wake id d = Woken wk rest -> (x ∈ detached_wakers d) ->
      x = wk \/ (x ∈ detached_wakers rest)).
    { unfold wake. intros id d rest x Hwake Hx. rewrite elem_of_detached in Hx. rewrite elem_of_detached.
      case_bool_decide as E; repeat case_match; simplify_eq; simpl.
      - rewrite E in Hx. destruct Hx as [[i Hx]|Hx]; [by rewrite lookup_empty in Hx|]. left. congruence.
      - destruct Hx as [[i Hx]|Hx]; [|by right; right].
        destruct (decide (i = id)) as [->|]; [left; congruence|]. right. left. exists i.
        by rewrite lookup_delete_ne. }
    destruct Hwk; simpl; intros y; by eapply Hw.
Qed.

Lemma notify_watch t a : watch_of (notify_agent t a) =
  match watch_of a with
  | Some x => Some (if Nat.eqb (polled_by x) t then Watch t true else x)
  | None => None
  end.
Proof. destruct a as [| | | | | |f x st|r x st]; simpl; try done; by case_match. Qed.

Lemma aside_detached a a' : aside a a' -> detached_by a' = detached_by a.
Proof. destruct 1 as [|t a|]; try done. destruct a; simpl; try done; by case_match. Qed.

Lemma aside_watch a a' x :
  aside a a' -> watch_of a = Some x ->
  exists x', watch_of a' = Some x' /\ polled_by x' = polled_by x /\
    (notified x = true -> notified x' = true).
Proof.
  destruct 1 as [a|t a|]; [by exists x| |done]. intros Hx. rewrite notify_watch, Hx.
  eexists. split; [done|]. destruct (Nat.eqb_spec (polled_by x) t); by subst.
Qed.

Lemma in_flight_step w w' t :
  transition w w' -> in_flight w t ->
  in_flight w' t \/
  forall k a x, agents w' !! k = Some a -> watch_of a = Some x -> polled_by x = t -> notified x = true.
Proof.
  intros Ht (j & b & x & Hj & Hx & <-).
  destruct (agents_step w w' Ht) as (m & Hm & _ & Hsome).
  destruct (decide (j = m)) as [->|Hne].
  - destruct Hm as [a a' Ha Ha' Hmv|a' -> Ha' Hs Hh Hsh].
    + assert (b = a) as -> by congruence.
      destruct (detached_moved w w' m a a' Hmv) as [H|(wk & H & Hag)].
      * left. exists m, a', x. eauto.
      * destruct (H x Hx) as [-> |Hx']; [|left; exists m, a', x; eauto]. right.
        intros k c y Hk Hy Ht'. rewrite Hag, list_lookup_fmap in Hk.
        destruct (<[m:=a']> (agents w) !! k) as [c0|]; simplify_eq/=.
        rewrite notify_watch in Hy. destruct (watch_of c0) as [y0|]; simplify_eq.
        destruct (Nat.eqb_spec (polled_by y0) (task wk)); [done|]. by destruct n.
    + apply lookup_lt_Some in Hj. lia.
  - left. destruct (Hsome j b Hne Hj) as (b' & Hb' & Has). exists j, b', x. split; [done|].
    by rewrite (aside_detached b b' Has).
Qed.

(** What covers an agent that does not move goes on covering it. *)
Lemma covered_other w w' m b b' k a a' :
  base_ok w -> transition w w' -> agents w !! m = Some b -> agents w' !! m = Some b' ->
  moved w w' m b b' -> agents w !! k = Some a -> agents w' !! k = Some a' -> k <> m -> aside a a' ->
  covered w a -> covered w' a'.
Proof.
  intros Hb Ht Hm Hm' Hmv Hk Hk' Hne Has (x & Hx & Hc).
  destruct (aside_watch a a' x Has Hx) as (x' & Hx' & Hp & Hn).
  exists x'. split; [done|]. rewrite Hp. destruct Hc as [Hc|[Hc|Hc]]; [by auto| |].
  - destruct Hc as (p & s & wk & Hsub & Hps & Hst & Htk).
    destruct (stored_fate w w' m b b' k a p s wk Hb Ht Hm Hmv Hk Hne Hsub Hps Hst)
      as [(s' & Hps' & Hg & Hst')|Hd].
    + right. left. exists p, s', wk. rewrite (aside_subject a a' Has), (aside_stored a a' s' Has), Hg. done.
    + right. right. by exists m, b', wk.
  - destruct (in_flight_step w w' _ Ht Hc) as [|Hall]; [by auto|]. left. by eapply Hall.
Qed.

Lemma covered_same w w' k a a' x :
  transition w w' -> heap w' = heap w -> agents w' !! k = Some a' -> subject a' = subject a ->
  (forall s, stored a' s = stored a s) -> watch_of a = Some x -> watch_of a' = Some x ->
  covered w a -> covered w' a'.
Proof.
  intros Ht Hh Hk Hs Hst Hx Hx' (y & Hy & Hc). assert (y = x) as -> by congruence.
  exists x. split; [done|]. destruct Hc as [Hc|[Hc|Hc]]; [by auto| |].
  - destruct Hc as (p & s & wk & Hsub & Hps & Hs' & Htk). right. left. exists p, s, wk.
    by rewrite Hs, Hh, Hst.
  - destruct (in_flight_step w w' _ Ht Hc) as [|Hall]; [by auto|]. left. by eapply Hall.
Qed.


(** ** What a waiter does itself *)

Lemma over_check g s c c' with_delivery :
  generation s <> g \/ (cancelled s = true /\ (c = LoadGeneration \/ c = LoadCancelled)) ->
  observe with_delivery g s c = inl c' ->
  generation s <> g \/ (cancelled s = true /\ (c' = LoadGeneration \/ c' = LoadCancelled)).
Proof.
  intros Hd Ho. destruct c; simpl in Ho.
  - destruct (Z.eqb_spec (generation s) g) as [Hg|]; [|done]. injection Ho as <-.
    destruct Hd as [|[Hc _]]; [done|]. right. auto.
  - destruct (cancelled s); [done|]. destruct Hd as [|[]]; [by left|done].
  - case_match; [done|]. destruct Hd as [|[_ [|]]]; [by left|done..].
  - done.
Qed.

Lemma over_check_end g s c with_delivery :
  generation s <> g \/ (cancelled s = true /\ (c = LoadGeneration \/ c = LoadCancelled)) ->
  observe with_delivery g s c <> inr false.
Proof.
  intros Hd Ho. destruct c; simpl in Ho.
  - by case_match.
  - by case_match.
  - by case_match.
  - destruct Hd as [Hg|[_ [|]]]; try done. destruct (Z.eqb_spec (generation s) g); done.
Qed.

(** A check in progress goes on, or ends pending, with what covers it. *)
Lemma check_continues w w' k a a' c c' s p g x b :
  base_ok w -> transition w w' -> heap w' = heap w -> agents w !! k = Some a ->
  agents w' !! k = Some a' -> subject a' = subject a -> (forall s, stored a' s = stored a s) ->
  watch_of a = Some x -> watch_of a' = Some x ->
  subject a = Some (p, g) -> heap w !! p = Some s -> observe b g s c = inl c' ->
  covered w a \/ doomed w a c -> covered w' a' \/ doomed w' a' c'.
Proof.
  intros Hb Ht Hh Hk Hk' Hs Hst Hx Hx' Hsub Hp Ho [Hc|(q & h & t & Hq & Ht' & Hd)].
  - left. by eapply covered_same.
  - right. exists p, g, s. rewrite Hs, Hh. split; [done|]. split; [done|].
    rewrite Hsub in Hq. injection Hq as <- <-. assert (t = s) as -> by congruence.
    by eapply over_check.
Qed.

Lemma check_pending w w' k a a' c s p g x b :
  transition w w' -> heap w' = heap w -> agents w' !! k = Some a' -> subject a' = subject a ->
  (forall s, stored a' s = stored a s) -> watch_of a = Some x -> watch_of a' = Some x ->
  subject a = Some (p, g) -> heap w !! p = Some s -> observe b g s c = inr false ->
  covered w a \/ doomed w a c -> covered w' a'.
Proof.
  intros Ht Hh Hk' Hs Hst Hx Hx' Hsub Hp Ho [Hc|(q & h & t & Hq & Ht' & Hd)].
  - by eapply covered_same.
  - exfalso. rewrite Hsub in Hq. injection Hq as <- <-. assert (t = s) as -> by congruence.
    by eapply over_check_end in Ho.
Qed.

Lemma identity_will_wake x ctx i :
  identity_of x = i -> matches i ctx = true -> will_wake ctx x = true.
Proof. intros <- H. by rewrite will_wake_sym. Qed.

(** A poll that begins with an unchanged waker. *)
Lemma poll_begins w w' k a a' x ctx i p g :
  base_ok w -> registration_holds w a -> transition w w' -> heap w' = heap w ->
  agents w !! k = Some a -> subject a' = subject a ->
  (forall s, stored a' s = stored a s) -> watch_of a' = Some (Watch (task ctx) x) ->
  compatible w ctx = true -> registered a = Some i -> matches i ctx = true ->
  subject a = Some (p, g) -> covered w' a' \/ doomed w' a' LoadGeneration.
Proof.
  intros Hb Hr Ht Hh Hk Hs Hst Hx Hc Hi Hm Hsub.
  destruct (Hr i p g Hi Hsub) as (s & Hp & H).
  destruct (decide (generation s = g)) as [Hg|Hg].
  - destruct (cancelled s) eqn:E.
    + right. exists p, g, s. rewrite Hs, Hh. auto 6.
    + left. destruct (H Hg eq_refl) as (wk & Hwk & Hid).
      eexists. split; [done|]. right. left. exists p, s, wk. rewrite Hs, Hh, Hst, Hg.
      split; [done|]. split; [done|]. split; [done|]. simpl. symmetry.
      eapply compatible_task; [done| |by eapply identity_will_wake].
      left. exists p, s. split; [done|]. by eapply stored_in_slot.
  - right. exists p, g, s. rewrite Hs, Hh. auto.
Qed.

Lemma unchanged_Some i ctx : unchanged_for i ctx = true -> exists j, i = Some j /\ matches j ctx = true.
Proof. destruct i as [j|]; [|done]. by exists j. Qed.


Lemma satisfied_nothing w a : demand_of a = Nothing -> satisfied w a.
Proof. unfold satisfied. by intros ->. Qed.

Lemma satisfied_quiet w w' k a a' :
  base_ok w -> wakers_ok w -> registration_holds w a -> transition w w' -> heap w' = heap w ->
  agents w !! k = Some a -> agents w' !! k = Some a' -> quiet w k a a' ->
  satisfied w a -> satisfied w' a'.
Proof.
  intros Hb Hw Hr Ht Hh Hk Hk' Hq Hsat. pose proof (b_locals w Hb k a Hk) as Hl.
  destruct Hq as [| | | | |f x last ctx Hc|r x last ctx Hc|f x last|r x last|f x ctx c c' s Hp Ho
    |f x ctx c s Hp Ho|f x ctx c s i Hp Ho Hi Hm|f x ctx c|f x ctx new|f x ctx u v res|f x u
    |r x ctx c c' s Hp Ho|r x ctx c s|r x ctx c s i Hp Ho Hi Hm|r x ctx c|r x ctx s
    |r x ctx s wk Hp Hn Hg Hc Hwk Hww|r x ctx|r x ctx new|r x ctx u v|r x ctx c c' s Hp Ho|r x ctx c s
    |r x ctx c s Hp Ho|r x u]; try (by apply satisfied_nothing).
  - unfold satisfied. simpl. destruct (unchanged_for _ ctx) eqn:Eu; [|done].
    apply unchanged_Some in Eu as (i & Hi & Hm). by eapply poll_begins.
  - unfold satisfied. simpl. destruct (unchanged_for _ ctx) eqn:Eu; [|done].
    apply unchanged_Some in Eu as (i & Hi & Hm). by eapply poll_begins.
  - apply satisfied_nothing. simpl. by destruct (waiter_id f).
  - unfold satisfied in *. simpl in *. destruct (unchanged_for _ ctx) eqn:Eu; [|done].
    by eapply check_continues.
  - apply satisfied_nothing. simpl. by destruct (waiter_id f).
  - unfold satisfied in *. simpl in *. rewrite Hi in Hsat. simpl in Hsat. rewrite Hm in Hsat.
    by eapply check_pending.
  - unfold satisfied in *. simpl in *. destruct res; [|done]. by eapply covered_same.
  - unfold satisfied in *. simpl in *. destruct (unchanged_for _ ctx) eqn:Eu; [|done].
    by eapply check_continues.
  - unfold satisfied in *. simpl in *. rewrite Hi in Hsat. simpl in Hsat. rewrite Hm in Hsat.
    by eapply check_pending.
  - unfold satisfied. simpl. exists x. split; [done|]. right. left.
    apply registration_not_cancelled in Hc as [Hgen _].
    exists (registration_slot r), s, wk. simpl. rewrite Hgen, Hh. split; [done|]. split; [done|].
    split; [done|]. rewrite <- Hl. apply Hw; [| |done].
    + left. exists (registration_slot r), s. split; [done|]. apply elem_of_slot_wakers. by right.
    + right. exists k. eexists. split; [done|]. simpl. by left.
  - unfold satisfied in *. simpl in *. destruct Hsat as [Hc|Hd].
    + left. by eapply covered_same.
    + right. by eapply doomed_kept.
  - unfold satisfied in *. simpl in *. by eapply check_continues.
  - unfold satisfied in *. simpl in *. by eapply check_pending.
Qed.

(** The waker a future registers schedules the task that polls it. *)
Lemma registers_task f ctx new s f' s' a b x :
  registers f ctx new s f' s' a b Pending ->
  (forall y, (y ∈ slot_wakers s) -> will_wake y ctx = true -> task y = task ctx) ->
  task ctx = polled_by x -> task new = polled_by x ->
  token f' = token f /\ generation s' = generation s /\ generation s = token_generation (token f) /\
  exists wk, stored (Waiting f' x (FRelease ctx a b Pending)) s' = Some wk /\ task wk = polled_by x.
Proof.
  intros Hr Hy Hctx Hnew.
  inversion Hr as [| | |id wk Hid Hc Hg He Hw|id n wk Hc Hg He Hw|id n Hc Hg Hid]; subst;
    apply token_not_cancelled in Hc as (Hgen & _ & _); split; try done; split; try done; split; try done.
  - exists wk. split; [done|]. rewrite <- Hctx. apply Hy; [|done].
    apply elem_of_slot_wakers. left. eauto.
  - exists wk. split; [done|]. rewrite <- Hctx. apply Hy; [|done].
    apply elem_of_slot_wakers. left. eauto.
  - exists new. simpl. by rewrite lookup_insert_eq.
Qed.

Lemma satisfied_section w w' k a a' p s s' :
  base_ok w -> wakers_ok w -> heap w !! p = Some s -> heap w' = <[p := s']> (heap w) ->
  agents w !! k = Some a -> section w k a p s s' a' -> satisfied w' a'.
Proof.
  intros Hb Hw Hp Hh Hk Ht. pose proof (b_locals w Hb k a Hk) as Hl.
  pose proof (b_slots w Hb p s Hp) as Hs.
  assert (Hp' : heap w' !! p = Some s').
  { rewrite Hh. apply list_lookup_insert_eq. by eapply lookup_lt_Some. }
  destruct Ht as [| | | | | | |f x ctx new s f' s' b c res Hr|r x ctx new s r' s' b c Hr|];
    try (by apply satisfied_nothing).
  - apply poll_locked_registers in Hr. unfold satisfied. simpl. destruct res; [|done].
    destruct Hl as (_ & Hctx & Hnew).
    destruct (registers_task f ctx new s f' s' b c x Hr) as (Htk & Hg & Hg' & wk & Hst & Hwk); try done.
    { intros y Hy Hww. apply Hw; [| |done].
      - left. eauto.
      - right. exists k. eexists. split; [done|]. simpl. by left. }
    exists x. split; [done|]. right. left. exists (token_slot (token f)), s', wk. simpl.
    rewrite Htk, Hg, Hg'. done.
  - unfold satisfied. simpl. unfold second_locked in Hr.
    destruct (_ || _) eqn:E; simplify_eq.
    + right. exists (registration_slot r), (registration_generation r), s'. simpl.
      split; [done|]. split; [done|].
      destruct (decide (generation s' = registration_generation r)) as [Hg|]; [|by left]. right.
      split; [|by left]. rewrite (so_generation _ Hs) in E. unfold registration_is_cancelled in E.
      rewrite Hg, Z.eqb_refl in E. simpl in E. by rewrite orb_false_r in E.
    + left. apply orb_false_iff in E as [E _]. apply negb_false_iff, Z.eqb_eq in E.
      rewrite (so_generation _ Hs) in E. destruct Hl as [_ Hnew].
      exists x. split; [done|]. right. left. exists (registration_slot r). eexists. exists new.
      split; [|split; [exact Hp'|done]]. simpl. by rewrite E.
Qed.

Lemma aside_demand a a' : aside a a' -> demand_of a' = demand_of a.
Proof. destruct 1 as [|t a|]; try done. destruct a; simpl; try done; by case_match. Qed.

Lemma satisfied_other w w' m b b' k a a' :
  base_ok w -> transition w w' -> agents w !! m = Some b -> agents w' !! m = Some b' ->
  moved w w' m b b' -> agents w !! k = Some a -> agents w' !! k = Some a' -> k <> m -> aside a a' ->
  satisfied w a -> satisfied w' a'.
Proof.
  intros Hb Ht Hm Hm' Hmv Hk Hk' Hne Has. unfold satisfied. rewrite (aside_demand a a' Has).
  destruct (demand_of a); [done| |].
  - by apply (covered_other w w' m b b' k).
  - intros [Hc|Hd]; [left|right].
    + by apply (covered_other w w' m b b' k a).
    + eapply (doomed_kept w w' k a); try done. by apply aside_subject.
Qed.

Lemma satisfied_started w w' k a a' :
  base_ok w -> transition w w' -> heap w' = heap w -> agents w !! k = Some a ->
  agents w' !! k = Some a' -> aside a a' -> satisfied w a -> satisfied w' a'.
Proof.
  intros Hb Ht Hh Hk Hk' Has.
  assert (Hcov : covered w a -> covered w' a').
  { intros (x & Hx & Hc). destruct (aside_watch a a' x Has Hx) as (x' & Hx' & Hp & Hn).
    exists x'. split; [done|]. rewrite Hp. destruct Hc as [Hc|[Hc|Hc]]; [by auto| |].
    - destruct Hc as (p & s & wk & Hsub & Hps & Hst & Htk). right. left. exists p, s, wk.
      by rewrite (aside_subject a a' Has), (aside_stored a a' s Has), Hh.
    - destruct (in_flight_step w w' _ Ht Hc) as [|Hall]; [by auto|]. left. by eapply Hall. }
  unfold satisfied. rewrite (aside_demand a a' Has). destruct (demand_of a); [done|done|].
  intros [Hc|Hd]; [left; by apply Hcov|right].
  eapply (doomed_kept w w' k a); try done. by apply aside_subject.
Qed.

Definition notices_ok (w : world) : Prop := registered_ok w /\ wakers_ok w /\ wakeups_ok w.

Lemma notices_transition w w' : base_ok w -> notices_ok w -> transition w w' -> notices_ok w'.
Proof.
  intros Hb (Hr & Hw & Hs) Ht. split; [by eapply registered_transition|].
  split; [by eapply wakers_transition|]. intros k c Hc.
  destruct (agents_step w w' Ht) as (m & Hm & Hnone & Hsome).
  destruct (decide (k = m)) as [->|Hne].
  - destruct Hm as [a a' Ha Ha' Hmv|a' Hm Ha' Hst Hh Hsh]; simplify_eq.
    + destruct Hmv as [Hq Hh Hsh|q t t' Hq Hn Hsec Hh ?|q t t' Hq Hsec Hh ?|i y y' Hi Hsec Hh ?
        |g i n q g2 t y id -> -> Hq Hi Hid Hh Hsh|g i sl id -> -> Hi Hid Hh Hsh|wk Hwk Hh ? Hag];
        try (by apply satisfied_nothing).
      * by eapply satisfied_quiet; try done; [eapply Hr|eapply Hs].
      * by eapply satisfied_section.
      * apply satisfied_nothing. by destruct Hsec.
      * apply satisfied_nothing. by destruct Hsec.
      * apply satisfied_nothing. by destruct Hwk.
    + apply satisfied_nothing. by destruct Hst as [a []|].
  - destruct (agents w !! k) as [a|] eqn:Ek; [|by rewrite (Hnone k Hne Ek) in Hc].
    destruct (Hsome k a Hne Ek) as (a' & Ha' & Has). simplify_eq.
    destruct Hm as [b b' Hb' Hb'' Hmv|b' Hm Hb' Hst Hh Hsh].
    + by apply (satisfied_other w w' m b b' k a c Hb Ht Hb' Hb'' Hmv Ek Hc Hne Has (Hs _ _ Ek)).
    + by apply (satisfied_started w w' k a c Hb Ht Hh Ek Hc Has (Hs _ _ Ek)).
Qed.

End CancellationCoverage.
