(* ===== verification/CancellationAnswers.v ===== *)
(** * Answers of checks and polls

    The end of a scope as a token sees it is permanent; whoever was told that a
    scope ended was told the truth, and a check that begins after the end does
    not miss it, although its loads are spread over a reuse of the slot. *)

From S2P Require Import Prelude Cancellation CancellationShape CancellationInvariant CancellationScopes CancellationPlaces CancellationWaiters.
Import Cancellation CancellationShape CancellationInvariant CancellationScopes CancellationPlaces CancellationWaiters.

Local Open Scope Z_scope.

Module CancellationAnswers.

Lemma token_is_cancelled_iff g s :
  token_is_cancelled g s = true <->
  generation s <> g \/ cancelled s = true \/ delivery_state s = STATE_CANCELED.
Proof.
  unfold token_is_cancelled. rewrite !orb_true_iff, !negb_true_iff, Z.eqb_neq, Z.eqb_eq. tauto.
Qed.

Lemma registration_is_cancelled_over g s : registration_is_cancelled g s = true -> over g s.
Proof.
  unfold registration_is_cancelled, over. rewrite !orb_true_iff, !negb_true_iff, Z.eqb_neq. tauto.
Qed.

Lemma over_token g s : over g s -> token_is_cancelled g s = true.
Proof. rewrite token_is_cancelled_iff. intros [|]; auto. Qed.

(** A slot whose scope was claimed but not yet published is locked. *)
Lemma claimed_locked s :
  slot_ok s -> delivery_state s = STATE_CANCELED -> cancelled s = false -> holder s <> None.
Proof. intros Hs Hd Hc Hn. by rewrite (so_unlocked s Hs Hn Hd) in Hc. Qed.

(** Inside a generation the delivery state never leaves [STATE_CANCELED]. *)
Lemma canceled_kept w w' j p g s s' :
  base_ok w -> transition w w' -> view source_scope w j = Some (p, g) ->
  heap w !! p = Some s -> heap w' !! p = Some s' -> generation s' = g -> generation s = g ->
  delivery_state s = STATE_CANCELED -> delivery_state s' = STATE_CANCELED.
Proof.
  intros Hb Ht Hj Hp Hp' Hg' Hg Hd.
  destruct (heap_forward w w' p s Ht Hp) as (t & Hpt & Hw). assert (t = s') as -> by congruence.
  destruct Hw as [->|[k a a' Hk Hn Hsec|k a a' Hk Hst|k gg i n g' Hk ->]]; [done| | |].
  - assert (Hce : forall e n, e <> STATE_CANCELED ->
      delivery_state (snd (compare_exchange e n s)) = STATE_CANCELED).
    { intros e n He. unfold compare_exchange. destruct (Z.eqb_spec (delivery_state s) e); simpl; congruence. }
    destruct Hsec as [gg i n q s x|src gg s x q|owner src s|t s|t s|f x ctx id s|f x id s
      |f x ctx new s f' s' a b r Hl|r x ctx new s r' s' a b Hl|r x s]; simpl; try done.
    + by apply Hce.
    + by apply Hce.
    + unfold try_start_delivery. case_match; [done|]. by apply Hce.
    + unfold finish_delivery. case_match; [|done]. by apply Hce.
    + unfold unregister_locked. by case_match.
    + unfold unregister_locked. by case_match.
    + apply poll_locked_registers in Hl. by destruct Hl.
    + unfold second_locked in Hl. by case_match; simplify_eq.
    + unfold drop_locked. by case_match.
  - by destruct Hst.
  - exfalso. destruct (po_agents w (b_places w Hb) k _ Hk) as (_ & t & Ht' & Hgen).
    assert (t = s) as -> by congruence.
    pose proof Hj as Hj'. apply source_scope_scope in Hj'.
    assert (j = k) as ->.
    { apply (proj1 (b_scopes w Hb) j k (p, g)); [done|]. rewrite (view_at _ _ _ _ Hk). simpl. congruence. }
    by rewrite (view_at _ _ _ _ Hk) in Hj.
Qed.

Lemma token_over_kept w w' j p g s s' :
  base_ok w -> transition w w' -> view source_scope w j = Some (p, g) ->
  heap w !! p = Some s -> heap w' !! p = Some s' ->
  token_is_cancelled g s = true -> token_is_cancelled g s' = true.
Proof.
  intros Hb Ht Hj Hp Hp' Ho. apply token_is_cancelled_iff in Ho.
  assert (Hover : over g s -> token_is_cancelled g s' = true).
  { intros H. apply over_token.
    by apply (over_kept w w' j p g s s' (b_slots w Hb) (b_scopes w Hb) (po_agents w (b_places w Hb)) Ht). }
  destruct (decide (generation s = g)) as [Hg|Hg]; [|by apply Hover; left].
  destruct (cancelled s) eqn:Hc; [by apply Hover; right|].
  destruct Ho as [|[|Hd]]; [done|done|].
  apply token_is_cancelled_iff. destruct (decide (generation s' = g)) as [Hg'|]; [|by left].
  right. right. by eapply canceled_kept.
Qed.

Lemma observe_true b g s c :
  observe b g s c = inr true -> token_is_cancelled g s = true.
Proof.
  rewrite token_is_cancelled_iff. destruct c; simpl; intros H.
  - destruct (Z.eqb_spec (generation s) g); [done|auto].
  - destruct (cancelled s); [auto|done].
  - destruct (Z.eqb_spec (delivery_state s) STATE_CANCELED); [auto|done].
  - injection H as H. apply negb_true_iff, Z.eqb_neq in H. auto.
Qed.

(** ** Whoever ended a scope, or was told that it ended *)
Definition concluded (a : agent) : option (nat * Z) :=
  match a with
  | Cancelling _ src (CWake _ | CReturned) => Some (source_slot src, source_generation src)
  | Checking t (inr true) => Some (token_slot t, token_generation t)
  | Waiting f _ (FIdle (Some Ready) | FRelease _ _ _ Ready | FUnregister _ _) =>
      Some (token_slot (token f), token_generation (token f))
  | Tasking r _ (TIdle (Some Ready)) => Some (registration_slot r, registration_generation r)
  | _ => None
  end.

Definition answers_ok (w : world) : Prop :=
  forall k p g, view concluded w k = Some (p, g) ->
    slot_is w p (fun s => token_is_cancelled g s = true).

Lemma notify_concluded t a : concluded (notify_agent t a) = concluded a.
Proof. destruct a; simpl; try done; by case_match. Qed.

Lemma aside_concluded a a' : aside a a' -> concluded a' = concluded a.
Proof. destruct 1 as [|t a|]; try done. apply notify_concluded. Qed.

Lemma concluded_subject a x : concluded a = Some x -> subject a = Some x.
Proof. destruct a; simpl; try done; intros; repeat case_match; by simplify_eq. Qed.

Lemma concluded_quiet w k a a' p g :
  slots_ok w -> quiet w k a a' -> concluded a' = Some (p, g) ->
  concluded a = Some (p, g) \/ slot_is w p (fun s => token_is_cancelled g s = true).
Proof.
  intros Hok Hq.
  destruct Hq as [| |owner src s Hp Hc| |t c s Hp| | |f x last|r x last|f x ctx c c' s Hp Ho
    |f x ctx c s Hp Ho|f x ctx c s i Hp Ho Hi Hm|f x ctx c|f x ctx new|f x ctx u v res|f x u
    |r x ctx c c' s Hp Ho|r x ctx c s Hp Ho|r x ctx c s i Hp Ho Hi Hm|r x ctx c|r x ctx s Hp Hc
    |r x ctx s wk Hp Hn Hg Hc Hwk Hww|r x ctx|r x ctx new|r x ctx u v|r x ctx c c' s Hp Ho
    |r x ctx c s Hp Ho|r x ctx c s Hp Ho|r x u]; simpl; try done; auto.
  - intros [= <- <-]. right. exists s. split; [done|]. apply over_token. left.
    by rewrite <- (so_generation _ (Hok _ _ Hp)).
  - destruct (observe _ _ s c) as [|[]] eqn:Ho; try done. intros [= <- <-]. right. exists s.
    split; [done|]. by eapply observe_true.
  - by destruct (waiter_id f).
  - intros H. right. apply observe_true in Ho.
    assert (Some (token_slot (token f), token_generation (token f)) = Some (p, g)) as [= <- <-]
      by by destruct (waiter_id f).
    by exists s.
  - intros [= <- <-]. right. exists s. split; [done|]. by eapply observe_true.
  - intros [= <- <-]. right. exists s. split; [done|].
    rewrite (so_generation _ (Hok _ _ Hp)) in Hc.
    destruct Hc as [Hc|Hc]; [apply over_token; by left|]. by apply over_token, registration_is_cancelled_over.
  - intros [= <- <-]. right. exists s. split; [done|]. by eapply observe_true.
Qed.

Lemma answers_transition w w' : base_ok w -> answers_ok w -> transition w w' -> answers_ok w'.
Proof.
  intros Hb Ha Ht k p g Hk.
  assert (Hkeep : forall k, view concluded w k = Some (p, g) ->
    slot_is w' p (fun s => token_is_cancelled g s = true)).
  { intros i Hi. destruct (Ha i p g Hi) as (s & Hs & Ho).
    destruct (generation_grows w w' p s (b_slots w Hb) Ht Hs) as (s' & Hs' & _).
    apply view_Some in Hi as (a & Hai & Hi).
    destruct (subject_known w i a p g Hb Hai) as [j Hj]; [by apply concluded_subject|].
    exists s'. split; [done|]. by eapply token_over_kept. }
  destruct (view_step concluded w w' aside_concluded Ht) as (m & Hm & Hv).
  destruct (decide (k = m)) as [->|]; [|rewrite Hv in Hk by done; by eapply Hkeep].
  destruct Hm as [a a' Hma Hma' Hmv|a' -> Hma' Hst Hh Hsh]; rewrite (view_at _ _ _ _ Hma') in Hk.
  - assert (concluded a = Some (p, g) \/ slot_is w' p (fun s => token_is_cancelled g s = true)) as [H|H];
      [|by eapply Hkeep; rewrite (view_at _ _ _ _ Hma)|done].
    destruct Hmv as [Hq Hh Hsh|q t t' Hq Hn Hs Hh ?|q t t' Hq Hs Hh ?|i y y' Hi Hs Hh ?
      |gg i n q g' t y id -> -> Hq Hi Hid Hh Hsh|gg i sl id -> -> Hi Hid Hh Hsh|wk Hwk Hh ?]; try done.
    + destruct (concluded_quiet w m a a' p g (b_slots w Hb) Hq Hk) as [|Hs]; [by left|right].
      by eapply slot_is_transition.
    + destruct Hs as [| | | | |f x ctx id s|f x id s|f x ctx new s f' s' u b r Hl|r x ctx new s r' s' u b Hl|];
        try done; [by left|].
      right. apply poll_locked_registers in Hl. pose proof (so_generation _ (b_slots w Hb _ _ Hq)) as Hg.
      destruct Hl as [Hl|id Hid Hl Ho|Ho| | |]; simpl in Hk; try done; injection Hk as <- <-;
        (eapply slot_is_write; [exact Hq|exact Hh|]); [|done|done].
      apply over_token. left. congruence.
    + destruct Hs; try done. simpl in Hk. injection Hk as <- <-. right.
      eapply slot_is_write; [done..|]. apply over_token. by right.
    + by destruct Hs.
    + left. by destruct Hwk.
  - by destruct Hst as [a []|].
Qed.

(** ** Checks that begin after the end *)

(** A load at [c] from which no answer but true is possible. *)
Definition stuck (g : Z) (s : CancellationSlot) (c : check) : Prop :=
  match c with
  | LoadGeneration | LoadCancelled => token_is_cancelled g s = true
  | LoadDelivery => generation s <> g \/ delivery_state s = STATE_CANCELED
  | ReloadGeneration => generation s <> g
  end.

Lemma stuck_observe g s c :
  stuck g s c ->
  match observe true g s c with inl c' => stuck g s c' | inr b => b = true end.
Proof.
  destruct c; simpl.
  - destruct (Z.eqb_spec (generation s) g); simpl; auto.
  - rewrite token_is_cancelled_iff. destruct (cancelled s); simpl; [done|]. intros [|[|]]; auto; done.
  - destruct (Z.eqb_spec (delivery_state s) STATE_CANCELED); simpl; [done|]. intros [|]; done.
  - intros H. by apply negb_true_iff, Z.eqb_neq.
Qed.

Lemma stuck_kept w w' j p g s s' c :
  base_ok w -> transition w w' -> view source_scope w j = Some (p, g) ->
  heap w !! p = Some s -> heap w' !! p = Some s' -> stuck g s c -> stuck g s' c.
Proof.
  intros Hb Ht Hj Hp Hp'.
  assert (Hg : generation s <> g -> generation s' <> g).
  { intros H. pose proof Hj as Hj'. apply source_scope_scope in Hj'.
    destruct (proj2 (b_scopes w Hb) _ _ _ Hj') as (s0 & Hs0 & ?).
    destruct (generation_grows w w' p s (b_slots w Hb) Ht Hp) as (s1 & Hs1 & ?).
    assert (s0 = s) as -> by congruence. assert (s1 = s') as -> by congruence. lia. }
  destruct c; simpl.
  - by eapply token_over_kept.
  - by eapply token_over_kept.
  - destruct (decide (generation s' = g)) as [Hg'|]; [|by left]. intros [|Hd]; [by left; auto|right].
    destruct (decide (generation s = g)); [|by destruct Hg]. by eapply canceled_kept.
  - done.
Qed.

Definition check_stuck (w : world) (t : CancellationToken) (st : check + bool) : Prop :=
  match st with
  | inl c => slot_is w (token_slot t) (fun s => stuck (token_generation t) s c)
  | inr b => b = true
  end.

Definition late_ok (n : nat) (t : CancellationToken) (w : world) : Prop :=
  issued w t = true /\
  slot_is w (token_slot t) (fun s => token_is_cancelled (token_generation t) s = true) /\
  forall k st, (n <= k)%nat -> agents w !! k = Some (Checking t st) -> check_stuck w t st.

Lemma issued_kept w w' t : transition w w' -> issued w t = true -> issued w' t = true.
Proof.
  unfold issued. intros Ht (a & Ha & H)%existsb_exists.
  apply list_elem_of_In, list_elem_of_lookup in Ha as [j Hj]. apply existsb_exists.
  assert (exists a', agents w' !! j = Some a' /\ match a' with
    | Owning src g _ => bool_decide (token_of src g = t) | _ => false end = true) as (a' & Ha' & H').
  { destruct (agents_step w w' Ht) as (m & Hm & _ & Hsome).
    destruct (decide (j = m)) as [->|Hne].
    - destruct Hm as [b b' Hb Hb' Hmv|b' -> Hb' Hs Hh Hsh];
        [|by apply lookup_lt_Some in Hj; lia].
      simplify_eq. exists b'. split; [done|]. destruct a as [|src g st| | | | | |]; try done.
      destruct Hmv as [Hq Hh Hsh|q u u' Hq Hn Hs Hh ?|q u u' Hq Hs Hh ?|i y y' Hi Hs Hh ?
        |gg i n q g' u y id Heq|gg i sl id Heq|wk Hwk Hh ?]; try done.
      + by inversion Hq.
      + by inversion Hs.
      + by inversion Hs.
      + by inversion Hs.
      + by inversion Hwk.
    - destruct (Hsome j a Hne Hj) as (a' & Ha' & Has). exists a'. split; [done|].
      destruct Has as [|u a|]; try done. destruct a; try done. }
  exists a'. split; [|done]. apply list_elem_of_In, list_elem_of_lookup. by exists j.
Qed.

Lemma issued_view w t :
  issued w t = true -> exists j, view source_scope w j = Some (token_slot t, token_generation t).
Proof. apply issued_source. Qed.

Lemma check_stuck_kept w w' t st :
  base_ok w -> transition w w' -> issued w t = true -> check_stuck w t st -> check_stuck w' t st.
Proof.
  intros Hb Ht Hi. destruct st as [c|]; [|done]. intros (s & Hs & Hc).
  destruct (issued_view w t Hi) as [j Hj].
  destruct (generation_grows w w' _ s (b_slots w Hb) Ht Hs) as (s' & Hs' & _).
  exists s'. split; [done|]. by eapply stuck_kept.
Qed.

Lemma aside_checking a t st : aside a (Checking t st) -> a = Checking t st.
Proof.
  inversion 1 as [|u b Heq|]; subst; [done|].
  match goal with E : notify_agent _ _ = _ |- _ => destruct a; simpl in E; try case_match; by simplify_eq end.
Qed.

Lemma late_transition n t w w' : base_ok w -> late_ok n t w -> transition w w' -> late_ok n t w'.
Proof.
  intros Hb (Hi & Ho & Hc) Ht. split; [by eapply issued_kept|].
  assert (Ho' : check_stuck w' t (inl LoadGeneration)) by by eapply check_stuck_kept.
  split; [done|]. intros k st Hk Ha. destruct (agents_step w w' Ht) as (m & Hm & Hnone & Hsome).
  destruct (decide (k = m)) as [->|Hne].
  - destruct Hm as [b b' Hb' Hb'' Hmv|b' Hm Hb' Hs Hh Hsh]; simplify_eq.
    + destruct Hmv as [Hq Hh Hsh|q u u' Hq Hn Hs Hh ?|q u u' Hq Hs Hh ?|i y y' Hi' Hs Hh ?
        |gg i n' q g' u y id Heq Heq'|gg i sl id Heq Heq'|wk Hwk Hh ?]; try done.
      * inversion Hq as [| | | |t' c s Hs| | | | | | | | | | | | | | | | | | | | | | | |]; subst;
          try (by destruct (waiter_id f)).
        destruct (Hc _ _ Hk Hb') as (s0 & Hs0 & Hst). assert (s0 = s) as -> by congruence.
        apply stuck_observe in Hst. destruct (observe true (token_generation t) s c); [|done].
        exists s. rewrite Hh. done.
      * inversion Hs.
      * inversion Hs.
      * inversion Hs.
      * inversion Hwk.
    + inversion Hs as [c Hbeg|]; subst. by inversion Hbeg; subst.
  - destruct (agents w !! k) as [a|] eqn:Ek; [|by rewrite (Hnone k Hne Ek) in Ha].
    destruct (Hsome k a Hne Ek) as (a' & Ha' & Has). simplify_eq.
    rewrite (aside_checking _ _ _ Has) in Ek.
    eapply check_stuck_kept; [done..|by eapply Hc].
Qed.

End CancellationAnswers.
