(* ===== verification/CancellationDelivery.v ===== *)
(** * Delivery against cancellation

    [try_start_delivery] and [cancel_locked] race for the delivery state of a
    scope.  At most one call starts the delivery of a scope; once one has, the
    state of the scope never becomes cancelled. *)

From S2P Require Import Prelude Cancellation CancellationShape CancellationInvariant CancellationScopes CancellationPlaces CancellationWaiters CancellationAnswers.
Import Cancellation CancellationShape CancellationInvariant CancellationScopes CancellationPlaces CancellationWaiters CancellationAnswers.

Local Open Scope Z_scope.

Module CancellationDelivery.

(** The scope whose delivery an agent has started, or failed to start. *)
Definition winner (a : agent) : option (nat * Z) :=
  match a with
  | Starting t (Some true) => Some (token_slot t, token_generation t)
  | _ => None
  end.

Definition loser (a : agent) : option (nat * Z) :=
  match a with
  | Starting t (Some false) => Some (token_slot t, token_generation t)
  | _ => None
  end.

Definition won (w : world) (x : nat * Z) : Prop := exists k, view winner w k = Some x.

Definition settled (s : CancellationSlot) : Prop :=
  delivery_state s = STATE_DELIVERING \/ delivery_state s = STATE_DONE.

Lemma aside_winner a a' : aside a a' -> winner a' = winner a.
Proof. destruct 1 as [|t a|]; try done. destruct a; simpl; try done; by case_match. Qed.
Lemma aside_loser a a' : aside a a' -> loser a' = loser a.
Proof. destruct 1 as [|t a|]; try done. destruct a; simpl; try done; by case_match. Qed.

Lemma winner_subject a x : winner a = Some x -> subject a = Some x.
Proof. destruct a; simpl; try done; intros; repeat case_match; by simplify_eq. Qed.
Lemma loser_subject a x : loser a = Some x -> subject a = Some x.
Proof. destruct a; simpl; try done; intros; repeat case_match; by simplify_eq. Qed.

(** The delivery states a slot can have. *)
Definition domain_ok (w : world) : Prop :=
  forall p s, heap w !! p = Some s ->
    delivery_state s = STATE_RUNNING \/ delivery_state s = STATE_CANCELED \/ settled s.

(** How a slot's delivery state changes: not at all, to cancelled or to
    delivering from running, to done from delivering, or back to running when
    the slot is made ready for a new scope. *)
Inductive delivery_step (a a' : agent) (p : nat) (s s' : CancellationSlot) : Prop :=
| step_kept : delivery_state s' = delivery_state s -> winner a' = winner a ->
    delivery_step a a' p s s'
| step_canceled :
    delivery_state s = STATE_RUNNING -> delivery_state s' = STATE_CANCELED -> winner a' = winner a ->
    delivery_step a a' p s s'
| step_started :
    delivery_state s = STATE_RUNNING -> delivery_state s' = STATE_DELIVERING -> winner a = None ->
    winner a' = Some (p, generation s) -> delivery_step a a' p s s'
| change_done :
    delivery_state s = STATE_DELIVERING -> delivery_state s' = STATE_DONE -> winner a' = winner a ->
    delivery_step a a' p s s'
| step_ready g i n g' :
    a = Allocating g (ADelivery i n p g') -> delivery_state s' = STATE_RUNNING ->
    winner a' = winner a -> delivery_step a a' p s s'.

Lemma compare_exchange_cases e n s :
  (fst (compare_exchange e n s) = true /\ delivery_state s = e /\
    snd (compare_exchange e n s) = set_delivery n s) \/
  (fst (compare_exchange e n s) = false /\ delivery_state s <> e /\ snd (compare_exchange e n s) = s).
Proof. unfold compare_exchange. destruct (Z.eqb_spec (delivery_state s) e); auto. Qed.

Lemma section_delivery w k a p s s' a' :
  slot_ok s -> section w k a p s s' a' -> delivery_step a a' p s s'.
Proof.
  intros Hs.
  destruct 1 as [g i n p s x ? ? ? ? ?|src g s x p ? ?|owner src s|t s|t s|f x ctx id s|f x id s
      |f x ctx new s f' s' a b r H|r x ctx new s r' s' a b H|r x s].
  - by apply step_kept.
  - unfold cancel_claim. destruct (compare_exchange_cases STATE_RUNNING STATE_CANCELED s) as [(_ & Hd & ->)|(_ & _ & ->)];
      [by apply step_canceled|by apply step_kept].
  - unfold cancel_claim. destruct (compare_exchange_cases STATE_RUNNING STATE_CANCELED s) as [(_ & Hd & ->)|(_ & _ & ->)];
      [by apply step_canceled|by apply step_kept].
  - unfold try_start_delivery. destruct (negb _) eqn:E; [by apply step_kept|].
    apply negb_false_iff, Z.eqb_eq in E. rewrite (so_generation _ Hs) in E.
    destruct (compare_exchange_cases STATE_RUNNING STATE_DELIVERING s) as [(-> & Hd & ->)|(-> & _ & ->)];
      [|by apply step_kept].
    apply step_started; try done. simpl. by rewrite E.
  - unfold finish_delivery. case_match; [|by apply step_kept].
    destruct (compare_exchange_cases STATE_DELIVERING STATE_DONE s) as [(_ & Hd & ->)|(_ & _ & ->)];
      [by apply change_done|by apply step_kept].
  - apply step_kept; [|done]. unfold unregister_locked. by case_match.
  - apply step_kept; [|done]. unfold unregister_locked. by case_match.
  - apply poll_locked_registers in H. apply step_kept; [|done]. by destruct H.
  - apply step_kept; [|done]. unfold second_locked in H. by case_match; simplify_eq.
  - apply step_kept; [|done]. unfold drop_locked. by case_match.
Qed.

Lemma moved_winner w w' m a a' : moved w w' m a a' -> winner a' = winner a \/ winner a = None.
Proof.
  destruct 1 as [Hq Hh Hsh|q t t' Hq Hn Hs Hh ?|q t t' Hq Hs Hh ?|i y y' Hi Hs Hh ?
    |g i n q g' t y id -> -> Hq Hi Hid Hh Hsh|g i sl id -> -> Hi Hid Hh Hsh|wk Hwk Hh ?]; auto.
  - destruct Hq; auto.
  - destruct Hs; auto.
  - destruct Hs; auto.
  - destruct Hs; auto.
  - destruct Hwk; auto.
Qed.

Lemma delivery_moved w w' m a a' p s s' :
  slots_ok w -> moved w w' m a a' -> heap w !! p = Some s -> heap w' !! p = Some s' ->
  delivery_step a a' p s s' \/
  (delivery_state s' = delivery_state s /\
   forall g, winner a' = Some (p, g) -> winner a = Some (p, g)).
Proof.
  intros Hok Hmv Hp Hp'.
  assert (Hput : forall q t t', heap w !! q = Some t -> heap w' = <[q := t']> (heap w) ->
    q <> p /\ s' = s \/ q = p /\ t = s /\ s' = t').
  { intros q t t' Hq Hh. rewrite Hh in Hp'. list_upd q p; simplify_eq; auto. }
  destruct Hmv as [Hq Hh Hsh|q t t' Hq Hn Hs Hh ?|q t t' Hq Hs Hh ?|i y y' Hi Hs Hh ?
    |g i n q g' t y id -> -> Hq Hi Hid Hh Hsh|g i sl id -> -> Hi Hid Hh Hsh|wk Hwk Hh ?].
  - right. rewrite Hh in Hp'. simplify_eq. split; [done|]. by destruct Hq.
  - destruct (Hput q t t' Hq Hh) as [[Hne ->]|(-> & -> & ->)].
    + right. split; [done|]. intros g Hg. exfalso. destruct Hs; simpl in *; try done.
      repeat case_match; simplify_eq.
    + left. eapply section_delivery; [by eapply Hok|done].
  - destruct (Hput q t t' Hq Hh) as [[Hne ->]|(-> & -> & ->)].
    + right. split; [done|]. by destruct Hs.
    + left. by destruct Hs; apply step_kept.
  - right. rewrite Hh in Hp'. simplify_eq. split; [done|]. by destruct Hs.
  - destruct (Hput q t _ Hq Hh) as [[Hne ->]|(-> & -> & ->)]; [by right|].
    left. by eapply step_ready.
  - right. rewrite Hh, lookup_app_l in Hp' by by eapply lookup_lt_Some. by simplify_eq.
  - right. rewrite Hh in Hp'. simplify_eq. split; [done|]. by destruct Hwk.
Qed.

Lemma domain_transition w w' : base_ok w -> domain_ok w -> transition w w' -> domain_ok w'.
Proof.
  intros Hb Hd Ht p s' Hp'.
  destruct (heap_backward w w' p s' Ht Hp') as [(s & Hp & _)|[_ ->]]; [|by left].
  pose proof (Hd p s Hp) as Hs.
  destruct (agents_step w w' Ht) as (m & [a a' Ha Ha' Hmv|a' Hm Ha' Hst Hh Hsh] & _).
  - unfold settled. destruct (delivery_moved w w' m a a' p s s' (b_slots w Hb) Hmv Hp Hp') as [Hst|[-> _]];
      [|done].
    destruct Hst as [-> _| | | |]; auto.
  - rewrite Hh in Hp'. by simplify_eq.
Qed.

(** ** One winner *)
Record delivery_ok (w : world) : Prop := DeliveryOk {
  d_domain : domain_ok w;
  d_unique : unique winner w;
  d_settled : forall j p g, view source_scope w j = Some (p, g) ->
    slot_is w p (fun s => generation s = g -> settled s <-> won w (p, g));
  d_loser : forall k p g, view loser w k = Some (p, g) ->
    won w (p, g) \/ slot_is w p (fun s => token_is_cancelled g s = true);
}.

Lemma won_step w w' :
  transition w w' ->
  exists m, one_moves w w' m /\ forall x, won w' x <-> won w x \/ view winner w' m = Some x.
Proof.
  intros Ht. destruct (view_step winner w w' aside_winner Ht) as (m & Hm & Hv).
  exists m. split; [done|]. intros x. split.
  - intros [k Hk]. destruct (decide (k = m)) as [->|]; [by right|]. left. exists k. by rewrite <- Hv.
  - intros [[k Hk]|Hk]; [|by exists m]. destruct (decide (k = m)) as [->|]; [|exists k; by rewrite Hv].
    destruct Hm as [a a' Ha Ha' Hmv|a' -> Ha' _ _ _].
    + rewrite (view_at _ _ _ _ Ha) in Hk. exists m. rewrite (view_at _ _ _ _ Ha').
      destruct (moved_winner w w' m a a' Hmv) as [->|]; [done|congruence].
    + unfold view in Hk. by rewrite lookup_ge_None_2 in Hk by lia.
Qed.

Lemma won_kept w w' x : transition w w' -> won w x -> won w' x.
Proof. intros Ht Hx. destruct (won_step w w' Ht) as (m & _ & H). apply H. by left. Qed.

Lemma won_known w x : subjects_ok w -> won w x -> exists j, view source_scope w j = Some x.
Proof.
  intros Hs [k Hk]. apply (Hs k). apply view_Some in Hk as (a & Ha & Hk).
  rewrite (view_at _ _ _ _ Ha). by apply winner_subject.
Qed.

Lemma running_not_settled s : delivery_state s = STATE_RUNNING -> ~ settled s.
Proof. unfold settled. intros ->. by intros [|]. Qed.
Lemma canceled_not_settled s : delivery_state s = STATE_CANCELED -> ~ settled s.
Proof. unfold settled. intros ->. by intros [|]. Qed.

(** A scope that was known before the step. *)
Lemma settled_known w w' j p g :
  base_ok w -> delivery_ok w -> transition w w' -> view source_scope w j = Some (p, g) ->
  slot_is w' p (fun s => generation s = g -> settled s <-> won w' (p, g)).
Proof.
  intros Hb Hd Ht Hj. destruct (d_settled w Hd j p g Hj) as (s & Hp & Hs).
  destruct (generation_grows w w' p s (b_slots w Hb) Ht Hp) as (s' & Hp' & _).
  exists s'. split; [done|]. intros Hg'.
  destruct (won_step w w' Ht) as (m & [a a' Ha Ha' Hmv|a' Hm Ha' Hst Hh Hsh] & Hwon).
  - pose proof (known_kept w w' m a a' p g j s s' (b_slots w Hb) (b_scopes w Hb) (b_places w Hb)
      Ha Hmv Hj Hp Hp' Hg') as [Hg _ _ _ _].
    specialize (Hs Hg). rewrite Hwon, (view_at _ _ _ _ Ha').
    assert (Hsame : (forall h, winner a' = Some (p, h) -> winner a = Some (p, h)) ->
      won w (p, g) \/ winner a' = Some (p, g) <-> won w (p, g)).
    { intros H. split; [intros [|H']|]; auto. exists m. rewrite (view_at _ _ _ _ Ha). auto. }
    destruct (delivery_moved w w' m a a' p s s' (b_slots w Hb) Hmv Hp Hp') as [Hst|[Hds Hw]].
    + destruct Hst as [Hds Hw|H1 H2 Hw|H1 H2 H3 H4|H1 H2 Hw|gg i n g' -> H2 Hw].
      * rewrite Hsame by (intros; congruence). unfold settled in *. by rewrite Hds.
      * rewrite Hsame by (intros; congruence). rewrite <- Hs. split; intros H; exfalso.
        -- by eapply canceled_not_settled.
        -- by eapply running_not_settled.
      * split; [|by intros _; left]. intros _. right. congruence.
      * rewrite Hsame by (intros; congruence). rewrite <- Hs. split; intros _; [by left|by right].
      * exfalso. destruct (po_agents w (b_places w Hb) m _ Ha) as (_ & t & Hpt & Hgen).
        assert (t = s) as -> by congruence.
        pose proof Hj as Hj'. apply source_scope_scope in Hj'.
        assert (j = m) as ->.
        { apply (proj1 (b_scopes w Hb) j m (p, g)); [done|]. rewrite (view_at _ _ _ _ Ha). simpl. congruence. }
        by rewrite (view_at _ _ _ _ Ha) in Hj.
    + rewrite Hsame by done. unfold settled in *. by rewrite Hds.
  - rewrite Hh in Hp'. assert (s' = s) as -> by congruence. rewrite (Hs Hg'), Hwon.
    rewrite (view_at _ _ _ _ Ha'). destruct Hst as [a' []|]; simpl; split; intros; auto; destruct_or?; done.
Qed.

(** A scope that is new. *)
Lemma settled_new w w' j p g :
  base_ok w -> transition w w' -> view source_scope w' j = Some (p, g) ->
  (forall i, view source_scope w i <> Some (p, g)) ->
  slot_is w' p (fun s => generation s = g -> settled s <-> won w' (p, g)).
Proof.
  intros Hb Ht Hj Hnew. pose proof (base_transition w w' Hb Ht) as Hb'.
  destruct (won_step w w' Ht) as (m & Hm & Hwon).
  assert (Hnot : ~ won w (p, g)).
  { intros H. destruct (won_known w _ (b_subjects w Hb) H) as [i Hi]. by eapply Hnew. }
  destruct (view_step source_scope w w' aside_source_scope Ht) as (m' & Hm' & Hv).
  assert (j = m') as ->.
  { destruct (decide (j = m')); [done|]. rewrite Hv in Hj by done. by destruct (Hnew j). }
  destruct Hm' as [a a' Ha Ha' Hmv|a' -> Ha' Hst Hh Hsh]; rewrite (view_at _ _ _ _ Ha') in Hj.
  - assert (Hrun : forall s, heap w' !! p = Some s -> delivery_state s = STATE_RUNNING ->
      slot_is w' p (fun s => generation s = g -> settled s <-> won w' (p, g))).
    { intros s Hs Hd. exists s. split; [done|]. intros _. split; intros H; exfalso.
      - by eapply running_not_settled.
      - apply Hwon in H as [|H]; [done|]. destruct Hm as [b b' Hbm Hbm' Hbv|b' -> Hbm' Hst _ _].
        + rewrite (view_at _ _ _ _ Hbm') in H. apply winner_subject in H.
          rewrite (subject_moved _ _ _ _ _ Hbv) in H.
          destruct (subject_known w m b p g Hb Hbm H) as [i Hi]. by eapply Hnew.
        + rewrite (view_at _ _ _ _ Hbm') in H. by destruct Hst as [b' []|]. }
    assert (source_scope a = None) as Hna.
    { destruct (source_scope a) as [x|] eqn:E; [|done].
      pose proof (source_scope_moved _ _ _ _ _ _ Hmv E) as E'. assert (x = (p, g)) as -> by congruence.
      destruct (Hnew m'). by rewrite (view_at _ _ _ _ Ha). }
    destruct Hmv as [Hq Hh Hsh|q t t' Hq Hn Hs Hh ?|q t t' Hq Hs Hh ?|i y y' Hi Hs Hh ?
      |gg i n q g' t y id -> -> Hq Hi Hid Hh Hsh|gg i sl id -> -> Hi Hid Hh Hsh|wk Hwk Hh ?].
    + apply quiet_scope in Hq as (_ & E & _). congruence.
    + apply section_subject in Hs as (_ & E & _). congruence.
    + apply store_scope in Hs as (_ & E & _). congruence.
    + apply sharded_scope in Hs as (_ & E & _). congruence.
    + simpl in Hj. injection Hj as <- <-. apply (Hrun (set_holder None (set_delivery STATE_RUNNING t))); [|done].
      rewrite Hh. apply list_lookup_insert_eq. by eapply lookup_lt_Some.
    + simpl in Hj. injection Hj as <- <-. apply (Hrun new_slot); [|done]. rewrite Hh. by apply list_lookup_middle.
    + apply waking_scope in Hwk as (_ & E & _). congruence.
  - apply starts_nothing in Hst as (_ & E & _). congruence.
Qed.


Lemma unique_winner_transition w w' :
  base_ok w -> delivery_ok w -> transition w w' -> unique winner w'.
Proof.
  intros Hb Hd Ht. destruct (view_step winner w w' aside_winner Ht) as (m & Hm & Hv).
  assert (Hall : forall v, view winner w' m = v -> forall j, view winner w' j =
    if decide (j = m) then v else view winner w j).
  { intros v E j. case_decide; subst; auto. }
  destruct Hm as [a a' Ha Ha' Hmv|a' Hm Ha' Hst Hh Hsh].
  - pose proof (view_at winner w' m a' Ha') as E.
    eapply (unique_new winner w w' m (winner a')); [by apply Hall| |by apply d_unique].
    intros [p g] j Hw Hj.
    assert (view winner w m = winner a) as Em by by apply view_at.
    destruct (moved_winner w w' m a a' Hmv) as [Hsame|Hnone].
    { apply (d_unique w Hd j m (p, g)); [done|congruence]. }
    exfalso. assert (subject a = Some (p, g)) as Hsub.
    { rewrite <- (subject_moved _ _ _ _ _ Hmv). by apply winner_subject. }
    destruct (subject_known w m a p g Hb Ha Hsub) as [i Hi].
    destruct (d_settled w Hd i p g Hi) as (s & Hp & Hs).
    destruct (generation_grows w w' p s (b_slots w Hb) Ht Hp) as (s' & Hp' & _).
    destruct (delivery_moved w w' m a a' p s s' (b_slots w Hb) Hmv Hp Hp') as [Hst|[_ Hw']];
      [|rewrite (Hw' g Hw) in Hnone; done].
    destruct Hst as [_ Hw'|_ _ Hw'|H1 H2 H3 H4|_ _ Hw'|? ? ? ? _ _ Hw']; try congruence.
    assert (generation s = g) as Hg by congruence.
    apply (running_not_settled s H1). apply (Hs Hg). by exists j.
  - eapply (unique_new winner w w' m None); [apply Hall| done|by apply d_unique].
    rewrite (view_at _ _ _ _ Ha'). by destruct Hst as [a' []|].
Qed.

Lemma loser_moved w w' m a a' p g :
  base_ok w -> delivery_ok w -> agents w !! m = Some a -> moved w w' m a a' ->
  loser a' = Some (p, g) ->
  loser a = Some (p, g) \/ won w (p, g) \/ slot_is w p (fun s => token_is_cancelled g s = true).
Proof.
  intros Hb Hd Ha Hmv.
  destruct Hmv as [Hq Hh Hsh|q t t' Hq Hn Hs Hh ?|q t t' Hq Hs Hh ?|i y y' Hi Hs Hh ?
    |gg i n q g' t y id -> -> Hq Hi Hid Hh Hsh|gg i sl id -> -> Hi Hid Hh Hsh|wk Hwk Hh ?]; try done.
  - by destruct Hq.
  - destruct Hs as [| | |t s| | | | | |]; try done. simpl.
    unfold try_start_delivery. intros Hl. right.
    assert (Some (token_slot t, token_generation t) = Some (p, g)) as [= <- <-]
      by (repeat case_match; done).
    destruct (negb _) eqn:E.
    { right. exists s. split; [done|]. apply negb_true_iff, Z.eqb_neq in E.
      rewrite (so_generation _ (b_slots w Hb _ _ Hq)) in E. apply token_is_cancelled_iff. by left. }
    apply negb_false_iff, Z.eqb_eq in E. rewrite (so_generation _ (b_slots w Hb _ _ Hq)) in E.
    destruct (compare_exchange_cases STATE_RUNNING STATE_DELIVERING s) as [(Hf & _)|(_ & Hne & _)];
      [by rewrite Hf in Hl|].
    destruct (d_domain w Hd _ _ Hq) as [|[Hc|Hset]]; [done| |].
    + right. exists s. split; [done|]. apply token_is_cancelled_iff. auto.
    + left. destruct (subject_known w m _ (token_slot t) (token_generation t) Hb Ha eq_refl) as [j Hj].
      destruct (d_settled w Hd j _ _ Hj) as (s0 & Hs0 & Hw). assert (s0 = s) as -> by congruence.
      by apply Hw.
  - by destruct Hs.
  - by destruct Hs.
  - by destruct Hwk.
Qed.

Lemma loser_transition w w' k p g :
  base_ok w -> delivery_ok w -> transition w w' -> view loser w' k = Some (p, g) ->
  won w' (p, g) \/ slot_is w' p (fun s => token_is_cancelled g s = true).
Proof.
  intros Hb Hd Ht Hk.
  destruct (view_step loser w w' aside_loser Ht) as (m & Hm & Hv).
  assert (Hnow : (won w (p, g) \/ slot_is w p (fun s => token_is_cancelled g s = true)) /\
    exists j, view source_scope w j = Some (p, g)).
  { assert (Hold : view loser w k = Some (p, g) ->
      (won w (p, g) \/ slot_is w p (fun s => token_is_cancelled g s = true)) /\
      exists j, view source_scope w j = Some (p, g)).
    { intros H. split; [by eapply d_loser|]. apply view_Some in H as (a & Ha & H).
      eapply subject_known; [done..|]. by apply loser_subject. }
    destruct (decide (k = m)) as [->|]; [|apply Hold; by rewrite <- Hv].
    destruct Hm as [a a' Ha Ha' Hmv|a' -> Ha' Hst Hh Hsh]; rewrite (view_at _ _ _ _ Ha') in Hk;
      [|by destruct Hst as [a' []|]].
    destruct (loser_moved w w' m a a' p g Hb Hd Ha Hmv Hk) as [H|H].
    - apply Hold. by rewrite (view_at _ _ _ _ Ha).
    - split; [done|]. eapply subject_known; [done..|]. rewrite <- (subject_moved _ _ _ _ _ Hmv).
      by apply loser_subject. }
  destruct Hnow as [[Hw|(s & Hs & Ho)] [j Hj]]; [left; by eapply won_kept|right].
  destruct (generation_grows w w' p s (b_slots w Hb) Ht Hs) as (s' & Hs' & _).
  exists s'. split; [done|]. by eapply token_over_kept.
Qed.

Lemma delivery_transition w w' : base_ok w -> delivery_ok w -> transition w w' -> delivery_ok w'.
Proof.
  intros Hb Hd Ht. split.
  - eapply domain_transition; [done|by apply d_domain|done].
  - by eapply unique_winner_transition.
  - intros j p g Hj.
    assert ((exists i, view source_scope w i = Some (p, g)) \/
      forall i, view source_scope w i <> Some (p, g)) as [[i Hi]|Hnew].
    { destruct (existsb (fun a => bool_decide (source_scope a = Some (p, g))) (agents w)) eqn:E.
      - left. apply existsb_exists in E as (a & Ha & E).
        apply list_elem_of_In, list_elem_of_lookup in Ha as [i Hi]. exists i.
        rewrite (view_at _ _ _ _ Hi). by apply bool_decide_eq_true in E.
      - right. intros i Hi. apply view_Some in Hi as (a & Ha & Hi).
        apply not_true_iff_false in E. apply E, existsb_exists. exists a.
        split; [by apply list_elem_of_In, list_elem_of_lookup; exists i|]. by apply bool_decide_eq_true. }
    + by eapply settled_known.
    + by eapply settled_new.
  - intros k p g Hk. by eapply loser_transition.
Qed.

Lemma delivery_initial : delivery_ok initial.
Proof. by split. Qed.

Lemma reachable_delivery w : reachable w -> base_ok w /\ delivery_ok w.
Proof.
  apply (reachable_invariant delivery_ok); [apply delivery_initial|].
  intros. by eapply delivery_transition.
Qed.

End CancellationDelivery.
