(* ===== verification/CancellationEnding.v ===== *)
(** * No delivery after a cancellation

    [cancel_locked] takes the delivery state away before it publishes the end
    of the scope, so a slot marked cancelled is never one whose delivery can
    still be started.  Hence a call that starts the delivery of a scope has
    done so before the scope ended, if it ever ends. *)

From S2P Require Import Prelude Cancellation CancellationShape CancellationInvariant CancellationScopes CancellationPlaces CancellationWaiters CancellationAnswers CancellationDelivery.
Import Cancellation CancellationShape CancellationInvariant CancellationScopes CancellationPlaces CancellationWaiters CancellationAnswers CancellationDelivery.

Local Open Scope Z_scope.

Module CancellationEnding.

(** What the holder of a slot's lock knows of it between its two stores: a
    scope about to be published as ended is claimed, and a slot about to be
    made ready is not marked cancelled. *)
Definition holds_ok (a : agent) (s : CancellationSlot) : Prop :=
  match a with
  | Allocating _ (ADelivery _ _ _ _) => cancelled s = false
  | Owning _ _ (SStore _) | Cancelling _ _ CStore => delivery_state s <> STATE_RUNNING
  | _ => True
  end.

Record ending_ok (w : world) : Prop := EndingOk {
  e_slots : forall p s, heap w !! p = Some s -> cancelled s = true ->
    delivery_state s <> STATE_RUNNING;
  e_holders : forall k a p s, agents w !! k = Some a -> lock_held a = Some p ->
    heap w !! p = Some s -> holds_ok a s;
}.

Lemma claimed_not_running s : delivery_state (cancel_claim s) <> STATE_RUNNING.
Proof.
  unfold cancel_claim.
  by destruct (compare_exchange_cases STATE_RUNNING STATE_CANCELED s) as [(_ & _ & ->)|(_ & ? & ->)].
Qed.

(** A move writes only a slot that is unlocked or that the agent has locked. *)
Lemma locked_elsewhere w w' m a a' k b p s' :
  locks_ok w -> agents w !! m = Some a -> moved w w' m a a' ->
  agents w !! k = Some b -> k <> m -> lock_held b = Some p ->
  heap w' !! p = Some s' -> heap w !! p = Some s'.
Proof.
  intros Hl Ha Hmv Hk Hne Hb Hp'.
  assert (Hh : holder_of w p = Some k) by (apply Hl; by rewrite (view_at _ _ _ _ Hk)).
  assert (Hq : forall q t t', heap w !! q = Some t -> heap w' = <[q := t']> (heap w) ->
    holder t = None \/ lock_held a = Some q -> heap w !! p = Some s').
  { intros q t t' Hq E Ht. rewrite E in Hp'. list_upd q p; [|done]. exfalso.
    rewrite (holder_at _ _ _ Hq) in Hh. destruct Ht as [Ht|Ht]; [congruence|].
    assert (holder_of w p = Some m) as Hm by (apply Hl; by rewrite (view_at _ _ _ _ Ha)).
    rewrite (holder_at _ _ _ Hq) in Hm. congruence. }
  destruct Hmv as [_ E _|q t t' Ht Hn _ E _|q t t' Ht Hs E _|i y y' _ _ E _
    |g i n q g' t y id -> -> Ht _ _ E _|g i sl id -> -> _ _ E _|wk _ E _ _].
  - by rewrite E in Hp'.
  - eapply Hq; [exact Ht|exact E|by left].
  - eapply Hq; [exact Ht|exact E|]. right. by apply store_scope in Hs as (? & ? & ? & ? & ? & ?).
  - by rewrite E in Hp'.
  - eapply Hq; [exact Ht|exact E|by right].
  - destruct (heap w !! p) as [s|] eqn:Ep; [|by unfold holder_of in Hh; rewrite Ep in Hh].
    rewrite E, lookup_app_l in Hp' by by eapply lookup_lt_Some. congruence.
  - by rewrite E in Hp'.
Qed.

(** The slot a move writes, and what the agent then knows of it. *)
Lemma ending_moved w w' m a a' p s s' :
  base_ok w -> ending_ok w -> agents w !! m = Some a -> moved w w' m a a' ->
  heap w !! p = Some s -> heap w' !! p = Some s' ->
  (cancelled s' = true -> delivery_state s' <> STATE_RUNNING) /\
  (lock_held a' = Some p -> holds_ok a' s').
Proof.
  intros Hb He Ha Hmv Hp Hp'. pose proof (e_slots w He p s Hp) as Hs0.
  assert (Hput : forall q t t', heap w !! q = Some t -> heap w' = <[q := t']> (heap w) ->
    q <> p /\ s' = s \/ q = p /\ t = s /\ s' = t').
  { intros q t t' Hq E. rewrite E in Hp'. list_upd q p; simplify_eq; auto. }
  destruct Hmv as [Hq E _|q t t' Ht Hn Hs E _|q t t' Ht Hs E _|i y y' _ Hs E _
    |g i n q g' t y id -> -> Ht _ _ E _|g i sl id -> -> _ _ E _|wk Hw E _ _].
  - rewrite E in Hp'. simplify_eq. split; [done|]. by destruct Hq.
  - destruct (Hput q t t' Ht E) as [[Hne ->]|(-> & -> & ->)].
    { split; [done|]. apply section_lock in Hs as [_ [[_ ->]|[_ ->]]]; [congruence|done]. }
    split.
    + intros Hc. assert (cancelled s = true) as Hcs.
      { apply section_fields in Hs as [(? & ? & ? & ? & _ & _ & _ & _ & Hsame & _)|[_ Hsame]]; congruence. }
      destruct (section_delivery _ _ _ _ _ _ _ (b_slots w Hb _ _ Hp) Hs)
        as [Hd _|_ Hd _|_ Hd _ _|_ Hd _|? ? ? ? -> Hd _].
      * rewrite Hd. auto.
      * by rewrite Hd.
      * by rewrite Hd.
      * by rewrite Hd.
      * by inversion Hs.
    + destruct Hs; simpl; try done; intros _; apply claimed_not_running.
  - destruct (Hput q t t' Ht E) as [[Hne ->]|(-> & -> & ->)].
    { split; [done|]. destruct Hs; simpl; congruence. }
    destruct Hs; simpl; try done.
    + split; [|done]. intros _. by apply (e_holders w He m _ p s Ha).
    + split; [|done]. intros _. by apply (e_holders w He m _ (source_slot src) s Ha).
  - rewrite E in Hp'. simplify_eq. split; [done|]. by destruct Hs.
  - split; [|done]. destruct (Hput q t _ Ht E) as [[Hne ->]|(-> & -> & ->)]; [done|]. simpl.
    intros Hc. pose proof (e_holders w He m _ p s Ha eq_refl Hp) as Hf. simpl in Hf. congruence.
  - split; [|done]. rewrite E, lookup_app_l in Hp' by by eapply lookup_lt_Some. by simplify_eq.
  - rewrite E in Hp'. simplify_eq. split; [done|]. by destruct Hw.
Qed.

Lemma holds_aside a a' s : aside a a' -> holds_ok a s -> holds_ok a' s.
Proof. destruct 1 as [|t a|]; try done. destruct a; simpl; try done; by case_match. Qed.

Lemma aside_lock_held a a' : aside a a' -> lock_held a' = lock_held a.
Proof. destruct 1 as [|t a|]; try done. apply notify_lock_held. Qed.

Lemma ending_transition w w' : base_ok w -> ending_ok w -> transition w w' -> ending_ok w'.
Proof.
  intros Hb He Ht. destruct (agents_step w w' Ht) as (m & Hm & Hnone & Hsome).
  assert (Hback : forall p s', heap w' !! p = Some s' ->
    (exists s, heap w !! p = Some s) \/ s' = new_slot).
  { intros p s' Hp. destruct (heap_backward w w' p s' Ht Hp) as [(s & Hs & _)|[_ ->]]; eauto. }
  split.
  - intros p s' Hp' Hc. destruct (Hback p s' Hp') as [[s Hp]| ->]; [|done].
    destruct Hm as [a a' Ha Ha' Hmv|a' _ _ _ Hh _].
    + by eapply (proj1 (ending_moved w w' m a a' p s s' Hb He Ha Hmv Hp Hp')).
    + rewrite Hh in Hp'. by eapply e_slots.
  - intros k b p s' Hk Hl Hp'. destruct (decide (k = m)) as [->|Hne].
    + destruct Hm as [a a' Ha Ha' Hmv|a' _ Ha' Hst _ _]; simplify_eq.
      * assert (exists s, heap w !! p = Some s) as [s Hp].
        { destruct (heap w !! p) as [s|] eqn:Ep; [by exists s|]. exfalso.
          apply lookup_ge_None in Ep.
          destruct Hmv as [Hq E _|q t t' Hq Hn Hs E _|q t t' Hq Hs E _|i y y' _ Hs E _
            |g i n q g' t y id -> -> Hq _ _ E _|g i sl id -> -> _ _ E _|wk Hw E _ _]; try done.
          - apply lookup_lt_Some in Hp'. rewrite E in Hp'. lia.
          - apply lookup_lt_Some in Hp'. rewrite E, length_insert in Hp'. lia.
          - apply lookup_lt_Some in Hp'. rewrite E, length_insert in Hp'. lia.
          - apply lookup_lt_Some in Hp'. rewrite E in Hp'. lia.
          - apply lookup_lt_Some in Hp'. rewrite E in Hp'. lia. }
        by eapply (proj2 (ending_moved w w' m a _ p s s' Hb He Ha Hmv Hp Hp')).
      * by destruct Hst as [? []|].
    + destruct (agents w !! k) as [a|] eqn:Ek; [|by rewrite (Hnone k Hne Ek) in Hk].
      destruct (Hsome k a Hne Ek) as (b' & Hb' & Has). simplify_eq.
      rewrite (aside_lock_held _ _ Has) in Hl. apply (holds_aside a); [done|].
      apply (e_holders w He k a p s'); [done..|].
      destruct Hm as [c c' Hc Hc' Hmv|c' _ _ _ Hh _]; [|by rewrite <- Hh].
      eapply (locked_elsewhere w w' m c c' k a); [by apply b_locks|done..].
Qed.

Lemma reachable_ending w : reachable w -> base_ok w /\ ending_ok w.
Proof.
  apply (reachable_invariant ending_ok); [by split|]. intros. by eapply ending_transition.
Qed.

(** ** Who has started a delivery started it while the scope was running *)
Lemma started_backward w w' k t :
  base_ok w -> transition w w' -> agents w' !! k = Some (Starting t (Some true)) ->
  agents w !! k = Some (Starting t (Some true)) \/
  slot_is w (token_slot t)
    (fun s => generation s = token_generation t /\ delivery_state s = STATE_RUNNING).
Proof.
  intros Hb Ht Hk. destruct (agents_step w w' Ht) as (m & Hm & Hnone & Hsome).
  destruct (decide (k = m)) as [->|Hne].
  - destruct Hm as [a a' Ha Ha' Hmv|a' _ Ha' Hst _ _]; simplify_eq; [|by inversion Hst as [? []|]].
    right. destruct Hmv as [Hq E _|q s s' Hq Hn Hs E _|q s s' Hq Hs E _|i y y' _ Hs E _
      |g i n q g' s y id -> ? Hq _ _ E _|g i sl id -> ? _ _ E _|wk Hw E _ _]; try done.
    + by inversion Hq; try (destruct (waiter_id _)).
    + inversion Hs as [| | |u v Hu Hv Hp Hw Hst| | | | | |]; subst. exists s. split; [done|].
      unfold try_start_delivery in *. destruct (negb _) eqn:En; [done|].
      apply negb_false_iff, Z.eqb_eq in En. rewrite (so_generation _ (b_slots w Hb _ _ Hq)) in En.
      split; [done|].
      by destruct (compare_exchange_cases STATE_RUNNING STATE_DELIVERING s) as [(_ & ? & _)|(Hf & _)];
        [|congruence].
    + by inversion Hs.
    + by inversion Hs.
    + by inversion Hw.
  - left. destruct (agents w !! k) as [a|] eqn:Ek; [|by rewrite (Hnone k Hne Ek) in Hk].
    destruct (Hsome k a Hne Ek) as (a' & Ha' & Has). simplify_eq.
    inversion Has as [|u b|]; subst; [done|]. by destruct a; simpl in *; try case_match; simplify_eq.
Qed.

Lemma over_not_running w p g s :
  ending_ok w -> heap w !! p = Some s -> token_is_cancelled g s = true ->
  generation s = g -> delivery_state s <> STATE_RUNNING.
Proof.
  intros He Hs Ho Hg. apply token_is_cancelled_iff in Ho as [|[Hc|Hd]]; [done| |by rewrite Hd].
  by eapply e_slots.
Qed.

(** From a world in which the scope has ended on, nobody starts its delivery. *)
Lemma started_before_the_end w0 w k t :
  reachable w0 -> rtc steps w0 w -> issued w0 t = true ->
  slot_is w0 (token_slot t) (fun s => token_is_cancelled (token_generation t) s = true) ->
  agents w !! k = Some (Starting t (Some true)) ->
  agents w0 !! k = Some (Starting t (Some true)).
Proof.
  intros Hw Hsteps. destruct (reachable_ending w0 Hw) as [Hb He]. clear Hw.
  induction Hsteps as [w|w w1 w2 Hst _ IH]; [done|]. intros Hi (s & Hs & Ho) Hk.
  apply steps_transition in Hst. destruct (issued_view w t Hi) as [j Hj].
  destruct (generation_grows w w1 _ s (b_slots w Hb) Hst Hs) as (s1 & Hs1 & _).
  assert (Hk1 : agents w1 !! k = Some (Starting t (Some true))).
  { apply IH; [by eapply base_transition|by eapply ending_transition|by eapply issued_kept| |done].
    exists s1. split; [done|]. by eapply token_over_kept. }
  destruct (started_backward w w1 k t Hb Hst Hk1) as [|(s' & Hs' & Hg & Hd)]; [done|].
  assert (s' = s) as -> by congruence. by destruct (over_not_running w _ _ s He Hs Ho Hg).
Qed.

End CancellationEnding.
