(* ===== verification/CancellationProgress.v ===== *)
(** * Progress of cancellation

    Every call that has begun comes to its end: a step of an agent consumes a
    part of the work left, no reachable world is stuck while a call is in
    progress, and nothing panics until an identifier space is used up. *)

From S2P Require Import Prelude Cancellation CancellationShape CancellationInvariant CancellationScopes CancellationPlaces CancellationWaiters.
Import Cancellation CancellationShape CancellationInvariant CancellationScopes CancellationPlaces CancellationWaiters.

Local Open Scope Z_scope.

Module CancellationProgress.

(** Agents that are not inside a call. *)
Definition at_rest (a : agent) : bool :=
  match a with
  | Owning _ _ (SLive _ | SGone) | Cancelling _ _ CReturned | Checking _ (inr _)
  | Starting _ (Some _) | Finishing _ true | Waiting _ _ (FIdle _ | FGone)
  | Tasking _ _ (TIdle _ | TGone) => true
  | _ => false
  end.

(** ** The work left *)
Local Open Scope nat_scope.

Definition check_rank (c : check) : nat :=
  match c with LoadGeneration => 4 | LoadCancelled => 3 | LoadDelivery => 2 | ReloadGeneration => 1 end.

Definition rank (a : agent) : nat :=
  match a with
  | Allocating _ (AShard _) => 4
  | Allocating _ (AWaiters _ _) => 3
  | Allocating _ (ACancelled _ _ _ _) => 2
  | Allocating _ (ADelivery _ _ _ _) => 1
  | Owning _ _ st =>
      match st with
      | SLive _ | SGone => 0 | SShard => 6 | SWaiters => 5 | SStore _ => 4
      | SPush d => 3 + length (detached_wakers d) | SWake d => 2 + length (detached_wakers d)
      end
  | Cancelling _ _ st =>
      match st with
      | CLock => 4 | CStore => 3 | CWake d => 2 + length (detached_wakers d) | CReturned => 0
      end
  | Checking _ (inl c) => check_rank c
  | Checking _ (inr _) => 0
  | Starting _ won => match won with Some _ => 0 | None => 1 end
  | Finishing _ returned => if returned then 0 else 1
  | Waiting _ _ st =>
      match st with
      | FIdle _ | FGone => 0 | FCheck _ c => 10 + check_rank c | FUnregister _ _ => 3 | FClone _ => 8
      | FLock _ _ => 6 | FRelease _ _ _ _ => 1 | FDrop _ => 3 | FDropped _ => 1
      end
  | Tasking _ _ st =>
      match st with
      | TIdle _ | TGone => 0 | TCheck _ c => 20 + check_rank c | TFirst _ => 18 | TClone _ => 16
      | TSecond _ _ => 14 | TRelease _ _ _ => 10 | TFinal _ c => 4 + check_rank c | TDrop => 3
      | TDropped _ => 1
      end
  end.

(** Each stored waker may still have to be called. *)
Definition work (w : world) : nat :=
  sum_list_with rank (agents w) + sum_list_with (fun s => length (slot_wakers s)) (heap w).

Lemma rank_notify t a : rank (notify_agent t a) = rank a.
Proof. destruct a; simpl; try done; by case_match. Qed.

Lemma work_agent w k a a' :
  agents w !! k = Some a -> work (set_agent k a' w) + rank a = work w + rank a'.
Proof. intros Hk. pose proof (sum_list_with_insert rank _ k a a' Hk). unfold work. simpl. lia. Qed.

Lemma work_slot w p s s' :
  heap w !! p = Some s ->
  work (set_slot p s' w) + length (slot_wakers s) = work w + length (slot_wakers s').
Proof.
  intros Hp. pose proof (sum_list_with_insert (fun s => length (slot_wakers s)) _ p s s' Hp).
  unfold work. simpl. lia.
Qed.

Lemma work_notify wk w : work (notify wk w) = work w.
Proof.
  unfold work. simpl. f_equal. induction (agents w) as [|a l IH]; simpl; [done|].
  by rewrite rank_notify, IH.
Qed.

Lemma length_map_wakers (m : gmap Z Waker) : length ((map_to_list m).*2) = size m.
Proof. by rewrite length_fmap, length_map_to_list. Qed.

Lemma length_slot_wakers s :
  length (slot_wakers s) =
    size (entries (waiters s)) + length (option_wakers (task_waker (waiters s))).
Proof. unfold slot_wakers. by rewrite length_app, length_map_wakers. Qed.

Lemma length_detached d :
  length (detached_wakers d) = size (detached_entries d) + length (option_wakers (detached_task d)).
Proof. unfold detached_wakers. by rewrite length_app, length_map_wakers. Qed.

Lemma size_insert_le (m : gmap Z Waker) i x : size (<[i := x]> m) <= S (size m).
Proof.
  destruct (m !! i) eqn:E; [rewrite map_size_insert_Some by eauto|rewrite map_size_insert_None by done]; lia.
Qed.

Lemma size_delete_le (m : gmap Z Waker) i : size (delete i m) <= size m.
Proof. rewrite map_size_delete. destruct (m !! i); unfold id; lia. Qed.

Lemma unregister_wakers g id s :
  length (slot_wakers (snd (unregister_locked g id s))) <= length (slot_wakers s).
Proof.
  unfold unregister_locked. case_match; [|done]. rewrite !length_slot_wakers. simpl.
  pose proof (size_delete_le (entries (waiters s)) id). lia.
Qed.

Lemma registers_wakers f ctx new s f' s' a b r :
  registers f ctx new s f' s' a b r -> length (slot_wakers s') <= S (length (slot_wakers s)).
Proof.
  intros []; rewrite !length_slot_wakers; simpl; try lia.
  - pose proof (size_delete_le (entries (waiters s)) id). lia.
  - pose proof (size_insert_le (entries (waiters s)) id new). lia.
Qed.

Lemma second_wakers r new s r' s' a b :
  second_locked r new s = (r', s', a, b) -> length (slot_wakers s') <= S (length (slot_wakers s)).
Proof.
  unfold second_locked. intros H. case_match; simplify_eq; [lia|].
  rewrite !length_slot_wakers. simpl. lia.
Qed.

Lemma quiet_rank w k a a' : quiet w k a a' -> at_rest a = false -> rank a' < rank a.
Proof.
  destruct 1 as [| | | |t c s Hp| | |f x last|r x last|f x ctx c c' s Hp Ho
    |f x ctx c s Hp Ho|f x ctx c s i Hp Ho Hi Hm|f x ctx c|f x ctx new|f x ctx u v res|f x u
    |r x ctx c c' s Hp Ho|r x ctx c s Hp Ho|r x ctx c s i Hp Ho Hi Hm|r x ctx c|r x ctx s Hp Hc
    |r x ctx s wk Hp Hn Hg Hc Hwk Hww|r x ctx|r x ctx new|r x ctx u v|r x ctx c c' s Hp Ho
    |r x ctx c s Hp Ho|r x ctx c s Hp Ho|r x u]; simpl; intros Hr; try done; try lia.
  all: try (by destruct c; simpl; lia).
  - destruct c; simpl; repeat case_match; simplify_eq/=; lia.
  - destruct c; simpl in *; repeat case_match; simplify_eq/=; lia.
  - destruct (waiter_id f), c; simpl; lia.
  - destruct c; simpl in *; repeat case_match; simplify_eq/=; lia.
  - destruct c; simpl in *; repeat case_match; simplify_eq/=; lia.
Qed.

Lemma section_rank w k a p s s' a' :
  section w k a p s s' a' ->
  rank a' + length (slot_wakers s') < rank a + length (slot_wakers s).
Proof.
  assert (Hclaim : forall s h, slot_wakers (set_holder h (cancel_claim s)) = slot_wakers s).
  { intros t h. unfold slot_wakers. simpl. by rewrite claim_waiters. }
  assert (Hcx : forall s e n, slot_wakers (snd (compare_exchange e n s)) = slot_wakers s).
  { intros t e n. unfold slot_wakers. by rewrite compare_exchange_waiters. }
  destruct 1 as [g i n p s x ? ? ? He Ht|src g s x p ? ?|owner src s|t s|t s|f x ctx id s|f x id s
      |f x ctx new s f' s' a b r H|r x ctx new s r' s' a b H|r x s].
  - rewrite !length_slot_wakers. simpl. rewrite map_size_empty. lia.
  - rewrite Hclaim. simpl. lia.
  - rewrite Hclaim. simpl. lia.
  - unfold try_start_delivery. case_match; rewrite ?Hcx; simpl; lia.
  - unfold finish_delivery. case_match; rewrite ?Hcx; simpl; lia.
  - pose proof (unregister_wakers (token_generation (token f)) id s). simpl. lia.
  - pose proof (unregister_wakers (token_generation (token f)) id s). simpl. lia.
  - apply poll_locked_registers, registers_wakers in H. simpl. lia.
  - apply second_wakers in H. simpl. lia.
  - unfold drop_locked. case_match; simpl; [|lia]. rewrite !length_slot_wakers. simpl. lia.
Qed.

Lemma store_rank k a p s s' a' :
  store k a p s s' a' -> rank a' + length (slot_wakers s') < rank a + length (slot_wakers s).
Proof.
  destruct 1; simpl; rewrite !length_slot_wakers, ?length_detached; simpl; rewrite ?map_size_empty; lia.
Qed.

Lemma wake_length id d wk rest :
  wake id d = Woken wk rest -> length (detached_wakers rest) < length (detached_wakers d).
Proof.
  unfold wake. rewrite !length_detached. intros H. case_bool_decide as E; repeat case_match; simplify_eq; simpl.
  - rewrite E, !map_size_empty. lia.
  - rewrite map_size_delete. match goal with E : detached_entries d !! id = _ |- _ => rewrite E end.
    assert (size (detached_entries d) <> 0) by by rewrite map_size_empty_iff. lia.
Qed.

(** A step of an agent inside a call uses up work. *)
Lemma acts_work w k w' a :
  agents w !! k = Some a -> at_rest a = false -> acts w k w' -> work w' < work w.
Proof.
  intros Hk Hr. destruct 1 as [b a' Hb Hq|b a' p s s' Hb Hp Hn Hs|b a' p s s' Hb Hp Hs
    |b a' i x x' Hb Hi Hs|g i n p g' s x id Hb Hp Hi Hid|g i sl id Hb Hi Hid|b a' wk Hb Ha];
    try (assert (b = a) as -> by congruence).
  - apply quiet_rank in Hq; [|done]. pose proof (work_agent w k a a' Hk). lia.
  - apply section_rank in Hs. pose proof (work_agent (set_slot p s' w) k a a' Hk).
    pose proof (work_slot w p s s' Hp). lia.
  - apply store_rank in Hs. pose proof (work_agent (set_slot p s' w) k a a' Hk).
    pose proof (work_slot w p s s' Hp). lia.
  - pose proof (work_agent (set_shard i x' w) k a a' Hk) as H.
    assert (work (set_shard i x' w) = work w) as E by done. rewrite E in H.
    assert (rank a' < rank a) by (destruct Hs; simpl; lia). lia.
  - set (w1 := set_shard i (Shard (slots x) (free x) None)
      (set_slot p (set_holder None (set_delivery STATE_RUNNING s)) w)).
    pose proof (work_agent w1 k _ (Owning (Source p g' id) g (SLive false)) Hb) as H.
    pose proof (work_slot w p s (set_holder None (set_delivery STATE_RUNNING s)) Hp) as H'.
    assert (work w1 = work (set_slot p (set_holder None (set_delivery STATE_RUNNING s)) w)) as E by done.
    unfold slot_wakers in H' at 2. simpl in H, H'. unfold slot_wakers in H'. simpl in H'. lia.
  - unfold work. simpl. rewrite sum_list_with_app. simpl.
    pose proof (sum_list_with_insert rank _ k _ (Owning (Source (length (heap w)) 1 id) g (SLive false)) Hb).
    assert (length (slot_wakers new_slot) = 0) as E by done. rewrite E. simpl in *. lia.
  - rewrite work_notify. pose proof (work_agent w k a a' Hk).
    assert (rank a' < rank a).
    { destruct Ha; simpl; match goal with E : wake _ _ = _ |- _ => apply wake_length in E end; lia. }
    lia.
Qed.

Lemma run_busy k c w w' :
  run k c w = Done (Some w') -> exists a, agents w !! k = Some a /\ at_rest a = false.
Proof.
  unfold run. destruct (agents w !! k) as [a|]; [|done]. intros H. exists a. split; [done|].
  destruct a as [|src g []|owner src []|t []|t []|t []|f x []|r x []]; try done.
Qed.

Lemma run_work k c w w' : run k c w = Done (Some w') -> work w' < work w.
Proof. intros H. destruct (run_busy k c w w' H) as (a & Hk & Hr). eapply acts_work; [done..|by eapply run_shape]. Qed.


(** ** Shard locks *)
Definition shard_locks_ok (w : world) : Prop :=
  forall i x h, shards w !! i = Some x -> shard_holder x = Some h -> view shard_held w h = Some i.

Lemma sharded_lock k h a i x x' a' :
  sharded k h a i x x' a' ->
  (shard_held a = None /\ shard_holder x' = Some k /\ shard_held a' = Some i) \/
  (shard_held a = Some i /\ shard_holder x' = None).
Proof. destruct 1; auto. Qed.

Lemma shard_locks_transition w w' : shard_locks_ok w -> transition w w' -> shard_locks_ok w'.
Proof.
  intros Hl Ht i x' h Hx' Hh'.
  destruct (view_step shard_held w w' aside_shard_held Ht) as (m & Hm & Hv).
  destruct Hm as [a a' Ha Ha' Hmv|a' -> Ha' Hs Hh Hsh].
  - pose proof (view_at shard_held w m a Ha) as Em. pose proof (view_at shard_held w' m a' Ha') as Em'.
    assert (Hsame : shards w' = shards w -> shard_held a' = shard_held a -> view shard_held w' h = Some i).
    { intros E E'. rewrite E in Hx'. specialize (Hl i x' h Hx' Hh').
      destruct (decide (h = m)) as [->|]; [congruence|]. by rewrite Hv. }
    assert (Hput : forall j y, shards w' = <[j := y]> (shards w) ->
      (shard_held a = None \/ shard_held a = Some j) ->
      shard_holder y = None \/ (shard_holder y = Some m /\ shard_held a' = Some j) ->
      (j < length (shards w))%nat -> view shard_held w' h = Some i).
    { intros j y E Hheld Hy Hj. rewrite E in Hx'. destruct (decide (j = i)) as [->|].
      - rewrite list_lookup_insert_eq in Hx' by done. injection Hx' as <-.
        destruct Hy as [Hy|[Hy Hy']]; [congruence|]. assert (h = m) as -> by congruence. congruence.
      - rewrite list_lookup_insert_ne in Hx' by done. specialize (Hl i x' h Hx' Hh').
        destruct (decide (h = m)) as [->|]; [|by rewrite Hv]. destruct Hheld; congruence. }
    destruct Hmv as [Hq Hh Hsh|q t t' Hq Hn Hs Hh ?|q t t' Hq Hs Hh ?|j y y' Hi Hs Hh Hsh
      |g j n q g' t y id -> -> Hq Hi Hid Hh Hsh|g j sl id -> -> Hi Hid Hh Hsh|wk Hwk Hh ?].
    + apply Hsame; [done|]. by apply quiet_scope in Hq as (_ & _ & _ & ? & _).
    + apply Hsame; [done|]. by apply section_subject in Hs as (_ & _ & ?).
    + apply Hsame; [done|]. by apply store_scope in Hs as (_ & _ & ? & _).
    + apply lookup_lt_Some in Hi as Hlt. eapply Hput; [done| | |done];
        destruct (sharded_lock _ _ _ _ _ _ _ Hs) as [(? & ? & ?)|[? ?]]; auto.
    + apply lookup_lt_Some in Hi as Hlt. eapply Hput; [done|by right|by left|done].
    + apply lookup_lt_Some in Hi as Hlt. eapply Hput; [done|by left|by left|done].
    + apply Hsame; [done|]. by apply waking_scope in Hwk as (_ & _ & _ & _ & ? & _).
  - rewrite Hsh in Hx'. specialize (Hl i x' h Hx' Hh'). rewrite Hv; [done|].
    intros ->. unfold view in Hl. by rewrite lookup_ge_None_2 in Hl by lia.
Qed.

Lemma reachable_shard_locks w : reachable w -> base_ok w /\ shard_locks_ok w.
Proof.
  apply (reachable_invariant shard_locks_ok).
  - intros i x h Hx Hh. by rewrite (registry_new_lookup i x Hx) in Hh.
  - intros. by eapply shard_locks_transition.
Qed.

(** ** No panic before an identifier space is used up *)

(** A shard without room for another index, or a scope that has issued every
    waiter identifier. *)
Definition exhausted (w : world) : Prop :=
  (exists i x, shards w !! i = Some x /\
    (Z.shiftr U32_MAX CANCELLATION_SHARD_BITS < Z.of_nat (length (slots x)))%Z) \/
  (exists p s, heap w !! p = Some s /\ next_id (waiters s) = U64_MAX).

#[export] Instance exhausted_dec w : Decision (exhausted w).
Proof.
  destruct (decide (Exists (fun x => (Z.shiftr U32_MAX CANCELLATION_SHARD_BITS <
      Z.of_nat (length (slots x)))%Z) (shards w))) as [H|H];
    [|destruct (decide (Exists (fun s => next_id (waiters s) = U64_MAX) (heap w))) as [H'|H']].
  - left. left. apply Exists_exists in H as (x & (i & Hi)%list_elem_of_lookup & Hx). by exists i, x.
  - left. right. apply Exists_exists in H' as (s & (p & Hp)%list_elem_of_lookup & Hs). by exists p, s.
  - right. intros [(i & x & Hi & Hx)|(p & s & Hp & Hs)].
    + apply H, Exists_exists. exists x. split; [|done]. apply list_elem_of_lookup. by exists i.
    + apply H', Exists_exists. exists s. split; [|done]. apply list_elem_of_lookup. by exists p.
Defined.

Lemma unlocked_heap w p s : heap w !! p = Some s -> holder s = None -> unlocked p w = Some s.
Proof. intros Hp Hn. unfold unlocked. by rewrite Hp, Hn. Qed.

Lemma poll_locked_done f ctx new s :
  slot_ok s -> next_id (waiters s) <> U64_MAX -> exists r, poll_locked f ctx new s = Done r.
Proof.
  intros Hs Hn. unfold poll_locked. pose proof (so_next _ Hs).
  destruct (negb _); [by eexists|]. destruct (token_is_cancelled _ s).
  { destruct (waiter_id f); by eexists. }
  assert (checked_add 64 (next_id (waiters s)) 1 = Some (next_id (waiters s) + 1)%Z) as ->.
  { unfold checked_add. unfold U64_MAX in *. case_match eqn:E; [done|]. lia. }
  destruct (waiter_id f); simpl; repeat case_match; by eexists.
Qed.

Lemma run_allocation_done k g st w :
  base_ok w -> ~ exhausted w -> agents w !! k = Some (Allocating g st) ->
  exists o, run_allocation k g st w = Done o.
Proof.
  intros Hb He Hk. pose proof (po_agents w (b_places w Hb) k _ Hk) as Ha.
  destruct st as [i|i n|i n p g'|i n p g']; simpl in *.
  - assert (is_Some (shards w !! i)) as [[sl fr h] Hi].
    { apply lookup_lt_is_Some. pose proof (to_length w (b_table w Hb)). lia. }
    rewrite Hi. destruct fr as [|n rest], h; try by eexists.
    destruct (Z.ltb_spec U32_MAX (Z.of_nat (length sl))) as [Hlt|Hle].
    { destruct He. left. exists i, (Shard sl [] None). split; [done|]. simpl.
      unfold U32_MAX, CANCELLATION_SHARD_BITS in *. change (Z.shiftr (2 ^ 32 - 1) 5) with (2 ^ 27 - 1)%Z. lia. }
    unfold slot_id. destruct (Z.leb_spec (Z.of_nat (length sl)) (Z.shiftr U32_MAX CANCELLATION_SHARD_BITS));
      [by eexists|]. destruct He. left. by exists i, (Shard sl [] None).
  - destruct Ha as (p & (x & Hi & Hp) & s & Hs & Hidle). rewrite Hi. simpl. rewrite Hp.
    destruct (unlocked p w) as [s'|] eqn:Eu; [|by eexists]. apply unlocked_Some in Eu as [Hs' _].
    assert (s' = s) as -> by congruence. pose proof (b_slots w Hb p s Hs) as Hok.
    destruct Hidle as [Hlt Hc]. destruct (so_ended s Hok Hc) as [-> ->].
    assert (checked_add 64 (waiters_generation (waiters s)) 1 = Some (waiters_generation (waiters s) + 1)%Z) as ->.
    { rewrite (so_generation s Hok). unfold checked_add, U64_MAX in *. case_match eqn:E; [done|]. lia. }
    rewrite bool_decide_eq_true_2 by done. by eexists.
  - destruct Ha as (_ & s & -> & _). by eexists.
  - destruct Ha as (Hl & s & Hs & _). destruct (to_index w (b_table w Hb) i n p Hl) as [id Hid].
    destruct Hl as (x & Hi & _). rewrite Hs, Hi, Hid. by eexists.
Qed.

Lemma run_wake_done k c d more finish w : exists o, run_wake k c d more finish w = Done o.
Proof. unfold run_wake. case_match; by eexists. Qed.

Lemma run_source_done k c src g st w :
  base_ok w -> agents w !! k = Some (Owning src g st) -> exists o, run_source k c src g st w = Done o.
Proof.
  intros Hb Hk. pose proof (po_agents w (b_places w Hb) k _ Hk) as Ha.
  destruct st as [b| | |p|d|d|]; simpl in *; try by eexists.
  - destruct Ha as ((x & Hi & Hp) & _). rewrite Hi. destruct x as [sl fr []]; by eexists.
  - destruct Ha as ((x & Hi & Hp) & _). rewrite Hi, Hp. repeat case_match; by eexists.
  - repeat case_match; by eexists.
  - repeat case_match; by eexists.
  - apply run_wake_done.
Qed.

Lemma run_clone_done k c ctx next w : exists o, run_clone k c ctx next w = Done o.
Proof. unfold run_clone. repeat case_match; by eexists. Qed.

Lemma run_done k c w : base_ok w -> ~ exhausted w -> exists o, run k c w = Done o.
Proof.
  intros Hb He. unfold run. destruct (agents w !! k) as [a|] eqn:Hk; [|by eexists].
  destruct a as [g st|src g st|owner src st|t st|t won|t returned|f x st|r x st].
  - by apply run_allocation_done.
  - by apply run_source_done.
  - unfold run_cancel. destruct st; try (repeat case_match; by eexists). apply run_wake_done.
  - unfold run_check. repeat case_match; by eexists.
  - unfold run_start. repeat case_match; by eexists.
  - unfold run_finish. repeat case_match; by eexists.
  - destruct st as [l|ctx c'|ctx id|ctx|ctx new|ctx a b res|id|a|]; simpl; try by eexists.
    + repeat case_match; by eexists.
    + repeat case_match; by eexists.
    + apply run_clone_done.
    + destruct (unlocked _ w) as [s|] eqn:Eu; [|by eexists]. apply unlocked_Some in Eu as [Hs _].
      destruct (poll_locked_done f ctx new s) as [[[[[f' s'] a] b] res] ->]; [by eapply b_slots| |by eexists].
      intros Hn. destruct He. right. by repeat eexists.
    + repeat case_match; by eexists.
  - destruct st as [l|ctx c'|ctx|ctx|ctx new|ctx a b|ctx c'| |a|]; simpl; try by eexists.
    + repeat case_match; by eexists.
    + repeat case_match; by eexists.
    + apply run_clone_done.
    + repeat case_match; by eexists.
    + repeat case_match; by eexists.
    + repeat case_match; by eexists.
Qed.


Lemma every_step_is_done a w : base_ok w -> ~ exhausted w -> exists o, step a w = Done o.
Proof.
  intros Hb He. destruct a; simpl; try (unfold call; repeat case_match; by eexists). by apply run_done.
Qed.

(** ** No deadlock *)
Definition ready (w : world) (k : nat) : Prop := exists c w', run k c w = Done (Some w').

Lemma wake_picks d : exists id, wake id d <> NoEntry.
Proof.
  unfold wake. destruct (decide (detached_entries d = ∅)) as [E|E].
  - exists 0%Z. rewrite bool_decide_eq_true_2 by done. by case_match.
  - destruct (map_choose _ E) as (id & x & Hx). exists id.
    rewrite bool_decide_eq_false_2 by done. by rewrite Hx.
Qed.

Lemma run_wake_ready k d more finish w :
  exists c w', run_wake k c d more finish w = Done (Some w').
Proof.
  destruct (wake_picks d) as [id Hid]. exists (Entry id). unfold run_wake.
  destruct (wake id d); [by eexists..|done].
Qed.

Lemma run_clone_ready k ctx next w : exists c w', run_clone k c ctx next w = Done (Some w').
Proof.
  set (d := fresh (data <$> wakers w)). exists (CloneAs d 0). unfold run_clone.
  assert (compatible w (RawWaker d 0 (task ctx)) = true) as ->; [|by eexists].
  unfold compatible. apply forallb_forall. intros x Hx%list_elem_of_In.
  unfold will_wake. simpl. destruct (Z.eqb_spec d (data x)) as [E|]; [|done]. exfalso.
  apply (infinite_is_fresh (data <$> wakers w)). fold d. rewrite E.
  apply list_elem_of_fmap. by exists x.
Qed.

Lemma subject_slot w k a p g :
  base_ok w -> agents w !! k = Some a -> subject a = Some (p, g) -> exists s, heap w !! p = Some s.
Proof.
  intros Hb Hk Hs. destruct (subject_bound w k p g (b_scopes w Hb) (b_subjects w Hb)) as (s & Hp & _).
  - by rewrite (view_at _ _ _ _ Hk).
  - by exists s.
Qed.

(** Whoever is inside a slot's lock can leave it. *)
Lemma holder_ready w k p :
  base_ok w -> view lock_held w k = Some p -> ready w k.
Proof.
  intros Hb Hl. apply view_Some in Hl as (a & Hk & Ha).
  pose proof (po_agents w (b_places w Hb) k a Hk) as Hok. unfold ready, run. rewrite Hk. exists Go.
  destruct a as [g [i|i n|i n q g'|i n q g']|src g []|owner src []| | | | |]; simpl in Ha; try done.
  - destruct Hok as (_ & s & Hs & _). simpl. rewrite Hs. by eexists.
  - destruct Hok as (Hlo & s & Hs & _). destruct (to_index w (b_table w Hb) i n q Hlo) as [id Hid].
    destruct Hlo as (x & Hi & _). simpl. rewrite Hs, Hi, Hid. by eexists.
  - destruct Hok as (-> & _ & s & Hs & _). simpl. rewrite Hs. by eexists.
  - destruct (subject_slot w k _ _ _ Hb Hk eq_refl) as [s Hs]. simpl. rewrite Hs. by eexists.
Qed.

(** Either the slot at [p] is free or its holder can move. *)
Lemma slot_free_or w p s :
  base_ok w -> heap w !! p = Some s ->
  (unlocked p w = Some s) \/ (exists j, ready w j).
Proof.
  intros Hb Hp. destruct (holder s) as [h|] eqn:Eh.
  - right. exists h. apply (holder_ready w h p Hb). apply (b_locks w Hb). by rewrite (holder_at _ _ _ Hp).
  - left. by apply unlocked_heap.
Qed.

Lemma ready_done k c w o : run k c w = Done o -> o <> None -> ready w k.
Proof. intros H Ho. destruct o as [w'|]; [|done]. by exists c, w'. Qed.

Lemma source_ready k src g st w :
  base_ok w -> shard_locks_ok w -> agents w !! k = Some (Owning src g st) ->
  st <> SShard -> at_rest (Owning src g st) = false -> exists j, ready w j.
Proof.
  intros Hb Hl Hk Hne Hr. pose proof (po_agents w (b_places w Hb) k _ Hk) as Ha.
  destruct st as [b| | |p|d|d|]; simpl in Hr, Ha; try done.
  - destruct Ha as ((x & Hi & Hp) & s & Hs & _).
    destruct (slot_free_or w _ s Hb Hs) as [Hu|]; [|done].
    exists k, Go. unfold run. rewrite Hk. simpl. rewrite Hi, Hp, Hu. case_match; by eexists.
  - exists k. apply (holder_ready w k p Hb). by rewrite (view_at _ _ _ _ Hk).
  - destruct Ha as ((x & Hi & Hp) & _). exists k, Go. unfold run. rewrite Hk. simpl. rewrite Hi. by eexists.
  - exists k. unfold ready, run. rewrite Hk. apply run_wake_ready.
Qed.

Lemma allocation_ready k g st w :
  base_ok w -> ~ exhausted w -> agents w !! k = Some (Allocating g st) ->
  (forall i, st <> AShard i) -> exists j, ready w j.
Proof.
  intros Hb He Hk Hne. pose proof (po_agents w (b_places w Hb) k _ Hk) as Ha.
  destruct st as [i|i n|i n p g'|i n p g']; simpl in Ha.
  - by destruct (Hne i).
  - destruct (run_allocation_done k g (AWaiters i n) w Hb He Hk) as [o Ho].
    destruct Ha as (p & (x & Hi & Hp) & s & Hs & _).
    destruct (slot_free_or w _ s Hb Hs) as [Hu|]; [|done].
    exists k. eapply (ready_done k Go); [unfold run; rewrite Hk; exact Ho|].
    intros ->. simpl in Ho. rewrite Hi in Ho. simpl in Ho. rewrite Hp, Hu in Ho. repeat case_match; done.
  - exists k. apply (holder_ready w k p Hb). by rewrite (view_at _ _ _ _ Hk).
  - exists k. apply (holder_ready w k p Hb). by rewrite (view_at _ _ _ _ Hk).
Qed.

(** Either the lock of a shard is free or somebody can move. *)
Lemma shard_free_or w i x :
  base_ok w -> shard_locks_ok w -> ~ exhausted w -> shards w !! i = Some x ->
  shard_holder x = None \/ exists j, ready w j.
Proof.
  intros Hb Hl He Hi. destruct (shard_holder x) as [h|] eqn:Eh; [right|by left].
  specialize (Hl i x h Hi Eh) as Hh. apply view_Some in Hh as (a & Hk & Ha).
  destruct a as [g st|src g st| | | | | |]; simpl in Ha; try done.
  - eapply allocation_ready; [done..|]. intros j ->. done.
  - eapply source_ready; [done..| |]; destruct st; done.
Qed.

Lemma waiting_ready w k f x st :
  base_ok w -> ~ exhausted w -> agents w !! k = Some (Waiting f x st) ->
  at_rest (Waiting f x st) = false -> exists j, ready w j.
Proof.
  intros Hb He Hk Hr. destruct (subject_slot w k _ _ _ Hb Hk eq_refl) as [s Hs].
  destruct (slot_free_or w _ s Hb Hs) as [Hu|]; [|done].
  destruct st as [l|ctx c'|ctx id|ctx|ctx new|ctx a b res|id|a|]; try done.
  3: { exists k. unfold ready, run. rewrite Hk. apply run_clone_ready. }
  all: exists k; destruct (run_done k Go w Hb He) as [o Ho]; (eapply (ready_done k Go); [exact Ho|]);
    intros ->; unfold run in Ho; rewrite Hk in Ho; simpl in Ho; rewrite ?Hs, ?Hu in Ho;
    repeat case_match; try done.
  destruct (poll_locked_done f ctx new s (b_slots w Hb _ _ Hs)) as [[[[[f' s'] a] b] res] E].
  - intros Hn. destruct He. right. by repeat eexists.
  - by rewrite E in Ho.
Qed.

Lemma tasking_ready w k r x st :
  base_ok w -> ~ exhausted w -> agents w !! k = Some (Tasking r x st) ->
  at_rest (Tasking r x st) = false -> exists j, ready w j.
Proof.
  intros Hb He Hk Hr. destruct (subject_slot w k _ _ _ Hb Hk eq_refl) as [s Hs].
  destruct (slot_free_or w _ s Hb Hs) as [Hu|]; [|done].
  destruct st as [l|ctx c'|ctx|ctx|ctx new|ctx a b|ctx c'| |a|]; try done.
  3: { exists k. unfold ready, run. rewrite Hk. apply run_clone_ready. }
  all: exists k; destruct (run_done k Go w Hb He) as [o Ho]; (eapply (ready_done k Go); [exact Ho|]);
    intros ->; unfold run in Ho; rewrite Hk in Ho; simpl in Ho; rewrite ?Hs, ?Hu in Ho;
    repeat case_match; try done.
Qed.

Lemma no_deadlock w k a :
  base_ok w -> shard_locks_ok w -> ~ exhausted w -> agents w !! k = Some a -> at_rest a = false ->
  exists j, ready w j.
Proof.
  intros Hb Hl He Hk Hr. pose proof (po_agents w (b_places w Hb) k a Hk) as Ha.
  destruct a as [g st|src g st|owner src st|t st|t won|t returned|f x st|r x st].
  - destruct st as [i| | |]; [|by eapply allocation_ready..].
    assert (is_Some (shards w !! i)) as [x Hi].
    { apply lookup_lt_is_Some. pose proof (to_length w (b_table w Hb)). simpl in Ha. lia. }
    destruct (shard_free_or w i x Hb Hl He Hi) as [Hn|]; [|done].
    destruct (run_allocation_done k g (AShard i) w Hb He Hk) as [o Ho].
    exists k. eapply (ready_done k Go); [unfold run; rewrite Hk; exact Ho|].
    intros ->. simpl in Ho. rewrite Hi in Ho. destruct x as [sl [|] h]; simpl in *; subst; [|done].
    case_match; [done|]. by destruct (slot_id i (length sl)).
  - assert (st = SShard \/ st <> SShard) as [->|] by (destruct st; by auto); [|by eapply source_ready].
    destruct Ha as ((x & Hi & _) & _).
    destruct (shard_free_or w _ x Hb Hl He Hi) as [Hn|]; [|done].
    exists k, Go. unfold run. rewrite Hk. simpl. rewrite Hi. destruct x; simpl in *; subst. by eexists.
  - destruct (subject_slot w k _ _ _ Hb Hk eq_refl) as [s Hs].
    destruct st as [| |d|]; try done.
    + destruct (slot_free_or w _ s Hb Hs) as [Hu|]; [|done].
      exists k, Go. unfold run. rewrite Hk. simpl. rewrite Hu. case_match; by eexists.
    + exists k. eapply (holder_ready w k _ Hb). by rewrite (view_at _ _ _ _ Hk).
    + exists k. unfold ready, run. rewrite Hk. apply run_wake_ready.
  - destruct st as [c|]; [|done]. destruct (subject_slot w k _ _ _ Hb Hk eq_refl) as [s Hs].
    exists k, Go. unfold run, run_check. rewrite Hk, Hs. by eexists.
  - destruct won; [done|]. destruct (subject_slot w k _ _ _ Hb Hk eq_refl) as [s Hs].
    destruct (slot_free_or w _ s Hb Hs) as [Hu|]; [|done].
    exists k, Go. unfold run, run_start. rewrite Hk, Hu. case_match. by eexists.
  - destruct returned; [done|]. destruct (subject_slot w k _ _ _ Hb Hk eq_refl) as [s Hs].
    destruct (slot_free_or w _ s Hb Hs) as [Hu|]; [|done].
    exists k, Go. unfold run, run_finish. rewrite Hk, Hu. by eexists.
  - by eapply waiting_ready.
  - by eapply tasking_ready.
Qed.

End CancellationProgress.
