(* ===== verification/CancellationTheorems.v ===== *)
(** * Theorems about cancellation

    What sources, tokens, futures and the executor may rely on.  [initial] has
    no agents; a reachable world is any interleaving of calls on sources,
    tokens, futures and registrations. *)

From S2P Require Import Prelude Cancellation CancellationShape CancellationInvariant CancellationScopes CancellationPlaces CancellationWaiters CancellationWakeups CancellationCoverage CancellationAnswers CancellationDelivery CancellationEnding CancellationProgress.
Import Cancellation CancellationShape CancellationInvariant CancellationScopes CancellationPlaces CancellationWaiters CancellationWakeups CancellationCoverage CancellationAnswers CancellationDelivery CancellationEnding CancellationProgress.

Local Open Scope Z_scope.

Module CancellationTheorems.

(** What a token reports if nobody interferes. *)
Definition scope_cancelled (w : world) (t : CancellationToken) : bool :=
  match heap w !! token_slot t with
  | Some s => token_is_cancelled (token_generation t) s
  | None => false
  end.

Lemma scope_cancelled_slot w t :
  scope_cancelled w t = true <->
  slot_is w (token_slot t) (fun s => token_is_cancelled (token_generation t) s = true).
Proof.
  unfold scope_cancelled, slot_is. destruct (heap w !! token_slot t) as [s|]; split; try done.
  - intros H. by exists s.
  - by intros (? & [= <-] & ?).
  - by intros (? & ? & _).
Qed.

Lemma reachable_answers w k p g :
  reachable w -> view concluded w k = Some (p, g) ->
  slot_is w p (fun s => token_is_cancelled g s = true).
Proof.
  intros Hw. destruct (reachable_invariant answers_ok) with w as [_ Ha]; [done| |done|apply Ha].
  intros. by eapply answers_transition.
Qed.

(** ** Sources *)

(** C13: A slot belongs to one live source.  The slot of a live source carries
    its generation; every other source that ever owned the slot is older, and
    its tokens report cancelled. *)
Theorem live_source_owns_its_slot w j src g b :
  reachable w -> agents w !! j = Some (Owning src g (SLive b)) ->
  exists s, heap w !! source_slot src = Some s /\ generation s = source_generation src /\
    forall k src' g' st, k <> j -> agents w !! k = Some (Owning src' g' st) ->
      source_slot src' = source_slot src ->
      source_generation src' < source_generation src /\
      token_is_cancelled (source_generation src') s = true.
Proof.
  intros Hw Hj. pose proof (reachable_base w Hw) as Hb.
  destruct (po_agents w (b_places w Hb) j _ Hj) as (_ & s & Hs & Hg).
  exists s. split; [done|]. split; [done|]. intros k src' g' st Hne Hk Hslot.
  destruct (b_scopes w Hb) as [Hu Hbound].
  assert (Hk' : view scope w k = Some (source_slot src, source_generation src')).
  { rewrite (view_at _ _ _ _ Hk). simpl. by rewrite Hslot. }
  assert (Hj' : view scope w j = Some (source_slot src, source_generation src))
    by by rewrite (view_at _ _ _ _ Hj).
  destruct (Hbound _ _ _ Hk') as (s' & Hs' & Hle). assert (s' = s) as -> by congruence.
  assert (source_generation src' <> source_generation src) as Hneq.
  { intros E. rewrite E in Hk'. by apply Hne, (Hu k j _ Hk'). }
  split; [lia|]. apply token_is_cancelled_iff. left. congruence.
Qed.

(** ** Answers *)

(** Whoever ended a scope, or was told that it ended, is right, and stays
    right: when [cancel] or the drop of the source has detached the waiters,
    when a check has answered true, when a future or a task's poll is ready,
    the scope's tokens report cancelled now and in every continuation. *)
Theorem end_of_a_scope_is_permanent w w' k a p g :
  reachable w -> agents w !! k = Some a ->
  (concluded a = Some (p, g) \/
   exists src gg st, a = Owning src gg st /\ (p, g) = (source_slot src, source_generation src) /\
     match st with SPush _ | SWake _ | SGone => True | _ => False end) ->
  rtc steps w w' -> exists s, heap w' !! p = Some s /\ token_is_cancelled g s = true.
Proof.
  intros Hw Hk Hend Hsteps.
  assert (Hnow : (exists j, view source_scope w j = Some (p, g)) /\
    slot_is w p (fun s => token_is_cancelled g s = true)).
  { pose proof (reachable_base w Hw) as Hb. destruct Hend as [Hc|(src & gg & st & -> & [= -> ->] & Hst)].
    - split; [|by apply (reachable_answers w k); [|rewrite (view_at _ _ _ _ Hk)]].
      eapply subject_known; [done..|]. by apply concluded_subject.
    - split; [exists k; by rewrite (view_at _ _ _ _ Hk)|].
      pose proof (po_agents w (b_places w Hb) k _ Hk) as Hok.
      destruct st; try done; simpl in Hok.
      + destruct Hok as (_ & s & Hs & _ & Hc). exists s. split; [done|]. apply over_token. by right.
      + destruct Hok as (s & Hs & Ho). exists s. split; [done|]. by apply over_token.
      + destruct Hok as (s & Hs & Ho). exists s. split; [done|]. by apply over_token. }
  clear Hend Hk. pose proof (reachable_base w Hw) as Hb. clear Hw.
  induction Hsteps as [w|w w1 w2 Hst _ IH]; [apply Hnow|].
  apply steps_transition in Hst. destruct Hnow as [[j Hj] (s & Hs & Ho)].
  destruct (generation_grows w w1 p s (b_slots w Hb) Hst Hs) as (s1 & Hs1 & _).
  apply IH; [split|by eapply base_transition].
  - exists j. by eapply source_scope_kept.
  - exists s1. split; [done|]. by eapply token_over_kept.
Qed.

(** C6: A token's check, spread over four loads and any number of reuses of the
    slot, is linearizable: it answers true only if the scope has ended when it
    returns, and false only if the scope had not ended when it began. *)
Theorem token_check_is_linearizable w w' k t b :
  reachable w -> agents w !! k = None -> rtc steps w w' ->
  agents w' !! k = Some (Checking t (inr b)) ->
  (b = true -> scope_cancelled w' t = true) /\
  (b = false -> issued w t = true -> scope_cancelled w t = false).
Proof.
  intros Hw Hk Hsteps Hk'. split.
  - intros ->. apply scope_cancelled_slot.
    apply (reachable_answers w' k); [unfold reachable in *; by transitivity w|]. by rewrite (view_at _ _ _ _ Hk').
  - intros -> Hi. apply not_true_iff_false. intros Ho.
    enough (late_ok (length (agents w)) t w') as (_ & _ & Hl).
    { apply lookup_ge_None in Hk. by apply (Hl k _ Hk) in Hk'. }
    assert (late_ok (length (agents w)) t w) as Hstart.
    { split; [done|]. split; [by apply scope_cancelled_slot|]. intros i st Hn Ha.
      apply lookup_lt_Some in Ha. lia. }
    revert Hstart. generalize (length (agents w)). intros n Hstart.
    pose proof (reachable_base w Hw) as Hb. clear -Hstart Hb Hsteps.
    induction Hsteps as [w|w w1 w2 Hst _ IH]; [done|]. apply steps_transition in Hst.
    apply IH; [by eapply late_transition|by eapply base_transition].
Qed.

(** ** Delivery *)

(** C12: Delivery and cancellation exclude each other.  At most one call starts
    the delivery of a scope, and never after the scope's cancellation: if the
    scope had ended in some earlier world, the call had started the delivery in
    that world already.  Once it is started the scope's delivery state is
    delivering or done and never cancelled.  A call that fails to start the
    delivery fails because another one has, or because the scope has ended. *)
Theorem one_delivery_or_cancellation w k t b :
  reachable w -> agents w !! k = Some (Starting t (Some b)) ->
  (b = true ->
    (forall j t', agents w !! j = Some (Starting t' (Some true)) ->
      token_slot t' = token_slot t -> token_generation t' = token_generation t -> j = k) /\
    (forall w0, reachable w0 -> rtc steps w0 w -> issued w0 t = true ->
      scope_cancelled w0 t = true -> agents w0 !! k = Some (Starting t (Some true))) /\
    exists s, heap w !! token_slot t = Some s /\
      (generation s = token_generation t -> settled s)) /\
  (b = false ->
    (exists j t', agents w !! j = Some (Starting t' (Some true)) /\
      token_slot t' = token_slot t /\ token_generation t' = token_generation t) \/
    scope_cancelled w t = true).
Proof.
  intros Hw Hk. destruct (reachable_delivery w Hw) as [Hb Hd]. split; intros ->.
  - assert (Hwin : view winner w k = Some (token_slot t, token_generation t))
      by by rewrite (view_at _ _ _ _ Hk).
    split_and!.
    + intros j t' Hj Hs Hg. apply (d_unique w Hd j k (token_slot t, token_generation t)); [|done].
      rewrite (view_at _ _ _ _ Hj). simpl. by rewrite Hs, Hg.
    + intros w0 Hw0 Hsteps Hi Ho. apply (started_before_the_end w0 w); [done..| |done].
      by apply scope_cancelled_slot.
    + destruct (won_known w _ (b_subjects w Hb) (ex_intro _ k Hwin)) as [j Hj].
      destruct (d_settled w Hd j _ _ Hj) as (s & Hs & Hset). exists s. split; [done|].
      intros Hg. apply (Hset Hg). by exists k.
  - destruct (d_loser w Hd k (token_slot t) (token_generation t)) as [[j Hj]|Hs].
    + by rewrite (view_at _ _ _ _ Hk).
    + left. apply view_Some in Hj as (a & Ha & Hj). exists j.
      destruct a as [| | | |t' [[]|]| | |]; simpl in Hj; try done. exists t'. by simplify_eq.
    + right. by apply scope_cancelled_slot.
Qed.

(** ** Wakeups *)

(** A future or registration whose last poll answered pending, and which its
    task was not woken for since. *)
Definition waits (a : agent) (t : nat) : Prop :=
  match a with
  | Waiting _ x (FIdle (Some Pending)) | Tasking _ x (TIdle (Some Pending)) =>
      polled_by x = t /\ notified x = false
  | _ => False
  end.

Lemma reachable_notices w : reachable w -> base_ok w /\ notices_ok w.
Proof.
  apply (reachable_invariant notices_ok).
  - split; [by intros k a|]. split; [|by intros k a].
    by intros x y [(p & s & Hp & _)|(k & a & Hk & _)].
  - intros. by eapply notices_transition.
Qed.

(** C4: No waiter of an ended scope is forgotten.  When the scope of a waiting
    future or task has ended, some agent holds a waker of the task that polled
    it last and is about to call it, even if polls skipped the registration
    because the waker's identity was unchanged; once no call is in progress,
    every waiter of an ended scope has been woken. *)
Theorem no_cancellation_is_missed w k a t p g s :
  reachable w -> agents w !! k = Some a -> waits a t -> subject a = Some (p, g) ->
  heap w !! p = Some s -> over g s ->
  in_flight w t /\ exists j b, agents w !! j = Some b /\ at_rest b = false.
Proof.
  intros Hw Hk Hwait Hsub Hp Ho. destruct (reachable_notices w Hw) as (Hb & _ & _ & Hs).
  assert (Hf : in_flight w t).
  { pose proof (Hs k a Hk) as Hsat.
    assert (exists x, watch_of a = Some x /\ polled_by x = t /\ notified x = false /\ demand_of a = Always)
      as (x & Hx & Ht & Hn & Hd).
    { destruct a as [| | | | | |f x [[[]|]| | | | | | | |]|r x [[[]|]| | | | | | | | |]]; try done;
        exists x; by destruct Hwait. }
    unfold satisfied in Hsat. rewrite Hd in Hsat. destruct Hsat as (y & Hy & Hc).
    assert (y = x) as -> by congruence. rewrite Ht in Hc.
    destruct Hc as [Hc|[(q & s' & wk & Hq & Hs' & Hst & _)|Hc]]; [congruence| |done].
    exfalso. rewrite Hsub in Hq. injection Hq as <- Hg. assert (s' = s) as -> by congruence.
    destruct Ho as [Ho|Ho]; [by rewrite Hg in Ho|].
    by rewrite (stored_ended a s wk (b_slots w Hb _ _ Hp) Hst) in Ho. }
  split; [done|]. destruct Hf as (j & b & x & Hj & Hx & _). exists j, b. split; [done|].
  destruct b as [|src gg []|owner src []| | | | |]; try done; by apply not_elem_of_nil in Hx.
Qed.

(** ** Progress *)

(** No call panics or aborts unless a shard is full or a scope has issued
    every waiter identifier: slots are found, generations do not overflow, a
    reused slot has no waiters left, the source's drop finds its own slot. *)
Theorem cancellation_never_panics w a :
  reachable w -> ~ exhausted w -> exists o, step a w = Done o.
Proof. intros Hw He. apply every_step_is_done; [by apply reachable_base|done]. Qed.

Definition is_run (a : action) : bool := match a with Run _ _ => true | _ => false end.

Lemma steps_of_schedule l w w' : schedule l w = Done (Some w') -> rtc steps w w'.
Proof.
  revert w. induction l as [|a l IH]; simpl; intros w H; [by simplify_eq|].
  destruct (step a w) as [[w1|]| |] eqn:E; simplify_eq/=.
  eapply rtc_l; [by exists a|]. by apply IH.
Qed.

(** C28: Started calls finish, without deadlock.  However the calls in progress
    interleave, they take no more steps than the work left in the world; and
    from every reachable world they can be run until nobody is inside a call,
    unless an identifier space is used up on the way. *)
Theorem cancellation_calls_finish w :
  reachable w ->
  (forall l w', schedule l w = Done (Some w') -> Forall (fun a => is_run a = true) l ->
    (length l + work w' <= work w)%nat) /\
  exists l w', schedule l w = Done (Some w') /\ Forall (fun a => is_run a = true) l /\
    (exhausted w' \/ forall k a, agents w' !! k = Some a -> at_rest a = true).
Proof.
  intros Hw. split.
  - clear Hw. intros l. revert w. induction l as [|a l IH]; simpl; intros w w' H Hl.
    + by simplify_eq.
    + apply Forall_cons in Hl as [Ha Hl].
      destruct (step a w) as [[w1|]| |] eqn:E; simplify_eq/=. specialize (IH _ _ H Hl).
      destruct a; try done. apply run_work in E. lia.
  - remember (work w) as n eqn:En. revert w En Hw.
    induction n as [n IH] using (well_founded_induction lt_wf). intros w -> Hw.
    destruct (reachable_shard_locks w Hw) as [Hb Hl].
    destruct (decide (Forall (fun a => at_rest a = true) (agents w))) as [Hr|Hr].
    { exists [], w. split; [done|]. split; [done|]. right. intros k a Hk. exact (Forall_lookup_1 _ _ _ _ Hr Hk). }
    apply not_Forall_Exists in Hr; [|apply _]. apply Exists_exists in Hr as (a & Ha & Hr).
    apply list_elem_of_lookup in Ha as [k Hk]. apply not_true_is_false in Hr.
    destruct (decide (exhausted w)) as [He|He].
    { exists [], w. split; [done|]. split; [done|]. by left. }
    destruct (no_deadlock w k a Hb Hl He Hk Hr) as (j & c & w1 & Hrun).
    destruct (IH (work w1)) with w1 as (l & w' & Hs & Hf & Hend); [by eapply run_work|done| |].
    { eapply rtc_r; [done|]. by exists (Run j c). }
    exists (Run j c :: l), w'. split; [simpl; by rewrite Hrun|]. split; [by constructor|done].
Qed.


(** ** Witnesses

    A future of the first scope waits; its source cancels, or is dropped so that
    the slot goes to a second scope while a check of the first is under way. *)
Definition after (l : list action) : world :=
  match schedule l initial with Done (Some w) => w | _ => initial end.

Lemma after_cancellation_reachable l :
  (if schedule l initial is Done (Some _) then true else false) = true -> reachable (after l).
Proof.
  unfold after. destruct (schedule l initial) as [[w|]| |] eqn:E; try done.
  intros _. by eapply steps_of_schedule.
Qed.

Definition first_token : CancellationToken := Token 0 1 BestEffort.
Definition its_waker : Waker := RawWaker 7 1 5.

Definition one_source : list action := [New 0 BestEffort; Run 0 Go].

Definition one_waiter : list action :=
  one_source ++ [NewCancelled first_token; Poll 1 its_waker] ++ replicate 4 (Run 1 Go)
    ++ [Run 1 (CloneAs 8 1); Run 1 Go; Run 1 Go].

Definition waiter_cancelled : list action := one_waiter ++ [Cancel 0; Run 2 Go; Run 2 Go].

Definition check_under_way : list action := [IsCancelled first_token; Run 1 Go].
Definition source_replaced : list action :=
  DropSource 0 :: replicate 5 (Run 0 Go) ++ New 0 BestEffort :: replicate 4 (Run 2 Go).
Definition check_goes_on : list action := replicate 3 (Run 1 Go).

Definition slot_reused : list action := one_source ++ check_under_way ++ source_replaced.

Lemma live_source_owns_its_slot_witness :
  let w := after slot_reused in
  agents w !! 2%nat = Some (Owning (Source 0 2 0) BestEffort (SLive false)) /\
  agents w !! 0%nat = Some (Owning (Source 0 1 0) BestEffort SGone) /\
  exists s, heap w !! 0%nat = Some s /\ token_is_cancelled 1 s = true.
Proof.
  intros w. split; [by vm_compute|]. split; [by vm_compute|].
  destruct (live_source_owns_its_slot w 2 (Source 0 2 0) BestEffort false) as (s & Hs & _ & H).
  - apply after_cancellation_reachable. by vm_compute.
  - by vm_compute.
  - exists s. split; [exact Hs|].
    apply (H 0%nat (Source 0 1 0) BestEffort SGone); [done| |done]. by vm_compute.
Defined.

Lemma end_of_a_scope_is_permanent_witness :
  exists s, heap (after (waiter_cancelled ++ [TryStartDelivery first_token])) !! 0%nat = Some s /\
    token_is_cancelled 1 s = true.
Proof.
  apply (end_of_a_scope_is_permanent (after waiter_cancelled) _ 2
    (Cancelling 0 (Source 0 1 0) (CWake (Detached {[1 := RawWaker 8 1 5]} None)))).
  - apply after_cancellation_reachable. by vm_compute.
  - by vm_compute.
  - by left.
  - apply (steps_of_schedule [TryStartDelivery first_token]). by vm_compute.
Defined.

Lemma token_check_is_linearizable_witness :
  agents (after (slot_reused ++ check_goes_on)) !! 1%nat = Some (Checking first_token (inr true)) /\
  scope_cancelled (after (slot_reused ++ check_goes_on)) first_token = true.
Proof.
  split; [by vm_compute|].
  apply (token_check_is_linearizable (after one_source) _ 1 first_token true); [| | | |done].
  - apply after_cancellation_reachable. by vm_compute.
  - by vm_compute.
  - apply (steps_of_schedule (check_under_way ++ source_replaced ++ check_goes_on)). by vm_compute.
  - by vm_compute.
Defined.

(** Two calls race for the delivery; the source cancels once one has won. *)
Definition delivery_started : list action :=
  one_source ++ [TryStartDelivery first_token; Run 1 Go; TryStartDelivery first_token; Run 2 Go;
                 Cancel 0; Run 3 Go; Run 3 Go].
Definition delivery_finished : list action := [Run 3 (Entry 0); FinishDelivery first_token; Run 4 Go].

Lemma one_delivery_or_cancellation_witness :
  let w0 := after delivery_started in
  let w := after (delivery_started ++ delivery_finished) in
  scope_cancelled w0 first_token = true /\
  agents w !! 1%nat = Some (Starting first_token (Some true)) /\
  agents w !! 2%nat = Some (Starting first_token (Some false)) /\
  agents w0 !! 1%nat = Some (Starting first_token (Some true)) /\
  exists s, heap w !! 0%nat = Some s /\ (generation s = 1 -> settled s).
Proof.
  intros w0 w. split; [by vm_compute|]. split; [by vm_compute|]. split; [by vm_compute|].
  destruct (one_delivery_or_cancellation w 1 first_token true) as [(_ & Hbefore & Hs) _];
    [| |done| ].
  - apply after_cancellation_reachable. by vm_compute.
  - by vm_compute.
  - split; [|exact Hs]. apply Hbefore.
    + apply after_cancellation_reachable. by vm_compute.
    + apply (steps_of_schedule delivery_finished). by vm_compute.
    + by vm_compute.
    + by vm_compute.
Defined.

Lemma no_cancellation_is_missed_witness :
  in_flight (after waiter_cancelled) 5.
Proof.
  destruct (heap (after waiter_cancelled) !! 0%nat) as [s|] eqn:Hs; [|by vm_compute in Hs].
  apply (no_cancellation_is_missed (after waiter_cancelled) 1
    (Waiting (Future first_token (Some 1) (Some (Identity 8 1))) (Watch 5 false) (FIdle (Some Pending)))
    5 0 1 s).
  - apply after_cancellation_reachable. by vm_compute.
  - by vm_compute.
  - done.
  - done.
  - exact Hs.
  - right. vm_compute in Hs. by simplify_eq.
Defined.

Lemma cancellation_never_panics_witness :
  exists o, step (Run 2 (Entry 1)) (after waiter_cancelled) = Done o.
Proof.
  apply (cancellation_never_panics (after waiter_cancelled)).
  - apply after_cancellation_reachable. by vm_compute.
  - apply (bool_decide_eq_false_1 (exhausted _)). by vm_compute.
Defined.

Lemma cancellation_calls_finish_witness :
  exists l w', schedule l (after waiter_cancelled) = Done (Some w') /\
    Forall (fun a => is_run a = true) l /\
    (exhausted w' \/ forall k a, agents w' !! k = Some a -> at_rest a = true).
Proof.
  apply (cancellation_calls_finish (after waiter_cancelled)).
  apply after_cancellation_reachable. by vm_compute.
Defined.

End CancellationTheorems.
