(* ===== verification/HostCalls.v ===== *)
(** * Calls into Excel

    Models crates/xlfn/src/host_callback.rs, callback_value.rs, the generic
    calls of host_api.rs, [excel12_with_invocation] of
    crates/xlfn-sys/src/callback.rs and the views of value/raw.rs that decode
    results: a call is admitted by the session of the entry point and by the
    module, its result is released exactly once, and the first terminal status
    silences the session. *)

From S2P Require Import Prelude SealableCounter Names Errors Utf16 Dates.
Import Str Errors Utf16 F64.

Local Open Scope Z_scope.

Module HostCalls.

(** ** Operands

    An [XLOPER12] is the bits of [xltype] above [XLTYPE_MASK] and the union
    member its base type selects; [OUnknown] is a base type without one. *)
Inductive XLOPER12Value : Type :=
| ONumber (x : f64)
| OString (p : counted_pointer)
| OBoolean (b : Z)
| OReference
| OError (c : Z)
| OFlow
| OMulti
| OMissing
| ONil
| OSimpleReference
| OInteger (i : Z)
| OBigData
| OUnknown (base : Z).

Record XLOPER12 : Type := mk_oper { flags : Z; value : XLOPER12Value }.

Definition XLBIT_XL_FREE : Z := 0x1000.
Definition XLBIT_DLL_FREE : Z := 0x4000.

Definition number (x : f64) : XLOPER12 := mk_oper 0 (ONumber x).
Definition integer (i : Z) : XLOPER12 := mk_oper 0 (OInteger i).
Definition nil : XLOPER12 := mk_oper 0 ONil.

(** [XlValueType::from_raw] of the base type. *)
Definition from_raw (v : XLOPER12Value) : option XlValueType :=
  match v with
  | ONumber _ => Some TNumber
  | OString _ => Some TString
  | OBoolean _ => Some TBoolean
  | OReference => Some TReference
  | OError _ => Some TError
  | OFlow => Some TFlow
  | OMulti => Some TMulti
  | OMissing => Some TMissing
  | ONil => Some TNil
  | OSimpleReference => Some TSimpleReference
  | OInteger _ => Some TInteger
  | OBigData => Some TBigData
  | OUnknown _ => None
  end.

(** [ExcelCallbackValue::value_type] *)
Definition value_type (raw : XLOPER12) : XllResult XlValueType :=
  match from_raw (value raw) with
  | Some t => Ok t
  | None => Err (input "<callback>" (Malformed "unknown base xltype"))
  end.

(** [ExcelCallbackValue::borrow], that is [XlValueRef::from_array_cell]. *)
Definition borrow (raw : XLOPER12) : XllResult XLOPER12 :=
  if negb (Z.land (flags raw) (Z.lnot (Z.lor XLBIT_XL_FREE XLBIT_DLL_FREE)) =? 0)
  then Err (input "<raw>" (Malformed "unknown xltype flag"))
  else
    match from_raw (value raw) with
    | None => Err (input "<raw>" (Malformed "unknown base xltype"))
    | Some _ => Ok raw
    end.

(** [XlValueRef::wrong_type] of a borrowed value. *)
Definition wrong_type (v : XLOPER12) (argument expected : string) : XllError :=
  match value v with
  | OError c =>
      match from_code c with
      | Some e => ExcelValue e
      | None => input argument (Malformed "unknown error code")
      end
  | u =>
      match from_raw u with
      | Some t => input argument (WrongType expected t)
      | None => input argument (Malformed "unknown base xltype")
      end
  end.

(** [<f64 as FromExcel>::from_excel] *)
Definition f64_from_excel (v : XLOPER12) (argument : string) : XllResult f64 :=
  let checked x := if is_finite x then Ok x else Err (input argument NonFinite) in
  match value v with
  | ONumber x => checked x
  | OInteger i => checked (of_int i)
  | _ => Err (wrong_type v argument "number")
  end.

(** [XlValueRef::utf16] *)
Definition utf16 (v : XLOPER12) (argument : string) : XllResult (list Z) :=
  match value v with
  | OString p => borrow_counted p argument
  | _ => Err (wrong_type v argument "string")
  end.

Definition and_then {A B} (r : XllResult A) (f : A -> XllResult B) : XllResult B :=
  match r with Ok a => f a | Err e => Err e end.

(** ** The session of an entry point *)
Inductive HostCallbackState : Type := Available | Suppressed (status : ExcelCallbackStatus).

#[export] Instance ExcelCallbackStatus_eq_dec : EqDecision ExcelCallbackStatus.
Proof. solve_decision. Defined.

#[export] Instance HostCallbackState_eq_dec : EqDecision HostCallbackState.
Proof. solve_decision. Defined.

Definition blocked_status (s : HostCallbackState) : option ExcelCallbackStatus :=
  match s with Available => None | Suppressed status => Some status end.

(** What is outside: whether the module admits callbacks (callback_gate.rs,
    which other threads close), whether [MdCallBack12] resolves, and Excel. *)
Class Excel (E : Type) : Type := {
  enter_callback : E -> bool;
  resolve_callback : E -> bool;
  callback : Z -> list XLOPER12 -> E -> Z * XLOPER12 * E;
}.

Record Callbacks (E : Type) : Type := Calls { session : HostCallbackState; excel : E }.
Arguments Calls {E} _ _.
Arguments session {E} _.
Arguments excel {E} _.

(** Code that can call Excel: a state monad over the session and Excel. *)
Definition M (E A : Type) : Type := Callbacks E -> outcome (A * Callbacks E).

Definition ret {E A} (a : A) : M E A := fun s => Done (a, s).
Definition bind {E A B} (m : M E A) (k : A -> M E B) : M E B :=
  fun s => let* (a, s') := m s in k a s'.
Definition lift {E A} (o : outcome A) : M E A := fun s => let* a := o in Done (a, s).

End HostCalls.

Notation "'let!' x := e 'in' k" := (HostCalls.bind e (fun x => k))
  (at level 10, x pattern, e at level 100, k at level 200) : xlfn_scope.

Module HostSession.
Import HostCalls.

Definition XL_FREE : Z := 0x4000.
Definition XLRET_FAILED : Z := 32.

(** ** Results and their release *)
Inductive CallbackValueReleaseState : Type :=
| Live
| Released
| TerminalSuppressed (status : ExcelCallbackStatus)
| Indeterminate (status : ExcelCallbackStatus).

Record CallbackOwner : Type := Owner {
  raw : XLOPER12;
  release_required : bool;
  release_state : CallbackValueReleaseState;
}.

Definition set_release (r : CallbackValueReleaseState) (o : CallbackOwner) : CallbackOwner :=
  Owner (raw o) (release_required o) r.

Inductive CallbackResult : Type :=
| Readable (o : CallbackOwner)
| CleanupOnly (o : CallbackOwner)
| Empty.

(** What is known after one callback. *)
Inductive HostInvocation (T : Type) : Type :=
| ISuppressed (status : ExcelCallbackStatus)
| IDecoded (decoded : XllResult T) (cleanup : XllResult unit)
| IFailed (status : ExcelCallbackStatus) (cleanup : XllResult unit).
Arguments ISuppressed {T} _.
Arguments IDecoded {T} _ _.
Arguments IFailed {T} _ _.

Section Session.
Context {E : Type} {X : Excel E}.

Definition permits_callbacks (s : Callbacks E) : bool :=
  match session s with Available => true | Suppressed _ => false end.

Definition terminal_status (s : Callbacks E) : option ExcelCallbackStatus :=
  blocked_status (session s).

(** [HostCallbackSession::observe] *)
Definition observe (status : ExcelCallbackStatus) : M E unit :=
  fun s =>
    Done (tt,
      if is_terminal status && bool_decide (session s = Available)
      then Calls (Suppressed status) (excel s) else s).

Definition excel12_with_invocation (function : Z) (arguments : list XLOPER12)
  : M E (Z * XLOPER12 * bool) :=
  fun s =>
    if 2 ^ 31 - 1 <? Z.of_nat (length arguments) then Done (XLRET_FAILED, nil, false, s)
    else if negb (resolve_callback (excel s)) then Done (XLRET_FAILED, nil, false, s)
    else
      let '(status, result, e) := callback function arguments (excel s) in
      Done (status, result, true, Calls (session s) e).

Definition excel_free (v : XLOPER12) : M E Z :=
  fun s =>
    if negb (resolve_callback (excel s)) then Done (XLRET_FAILED, s)
    else
      let '(status, _, e) := callback XL_FREE [v] (excel s) in
      Done (status, Calls (session s) e).

(** [CallbackOwner::release_in_place] *)
Definition release_in_place (o : CallbackOwner) : M E (XllResult unit * CallbackOwner) :=
  match release_state o with
  | Released => ret (Ok tt, o)
  | Indeterminate status => ret (Err (ExcelApi Free (Errors.Indeterminate status)), o)
  | Live | TerminalSuppressed _ =>
      if negb (release_required o) then ret (Ok tt, set_release Released o)
      else
        let! raw_status := excel_free (raw o) in
        let status := status_from_raw raw_status in
        let! _ := observe status in
        match status with
        | Success => ret (Ok tt, set_release Released o)
        | _ => ret (Err (ExcelApi Free (Status status)), set_release (Indeterminate status) o)
        end
  end.

(** [CallbackOwner::release], then the owner's [Drop], which only reports. *)
Definition release_owner (o : CallbackOwner) : M E (XllResult unit) :=
  let! (r, o) := release_in_place o in
  let! _ := release_in_place o in
  ret r.

Definition release (r : CallbackResult) : M E (XllResult unit) :=
  match r with
  | Readable o | CleanupOnly o => release_owner o
  | Empty => ret (Ok tt)
  end.

Definition readable (r : CallbackResult) : XllResult XLOPER12 :=
  match r with
  | Readable o => Ok (raw o)
  | _ => Err (input "callback" (Malformed "callback result is not readable"))
  end.

(** [ExcelCallbackValue::call_with_session] *)
Definition call_with_session (function : Z) (arguments : list XLOPER12)
  : M E (result (Z * CallbackResult) ExcelCallbackStatus) :=
  fun s =>
    if negb (enter_callback (excel s)) then Done (Err (Failed XLRET_FAILED), s)
    else
      (let! (status, value, invoked) := excel12_with_invocation function arguments in
       ret (Ok
         (if negb invoked then (status, Empty)
          else
            let callback_status := status_from_raw status in
            (status,
             if is_terminal callback_status
             then CleanupOnly (Owner value true (TerminalSuppressed callback_status))
             else Readable (Owner value true Live))))) s.

(** [HostCallbackSession::call] *)
Definition call (function : Z) (arguments : list XLOPER12)
  : M E (result (ExcelCallbackStatus * CallbackResult) ExcelCallbackStatus) :=
  fun s =>
    match blocked_status (session s) with
    | Some status => Done (Err status, s)
    | None =>
        (let! r := call_with_session function arguments in
         match r with
         | Err status => ret (Err status)
         | Ok (raw_status, result) =>
             let status := status_from_raw raw_status in
             let! _ := observe status in
             ret (Ok (status, result))
         end) s
    end.

(** ** [ExcelHost] *)
Definition invoke_protocol {T} (function : Z) (arguments : list XLOPER12)
    (decode : XLOPER12 -> XllResult T) : M E (HostInvocation T) :=
  let! r := call function arguments in
  match r with
  | Err status => ret (ISuppressed status)
  | Ok (Success, result) =>
      let decoded := and_then (readable result) decode in
      let! cleanup := release result in
      ret (IDecoded decoded cleanup)
  | Ok (status, result) =>
      let! cleanup := release result in
      ret (IFailed status cleanup)
  end.

Definition err_or (r : XllResult unit) (e : XllError) : XllError :=
  match r with Err e' => e' | Ok _ => e end.

Definition invoke {T} (function_id : Z) (function : ExcelApiFunction)
    (arguments : list XLOPER12) (decode : XLOPER12 -> XllResult T) : M E (XllResult T) :=
  let! i := invoke_protocol function_id arguments decode in
  ret match i with
      | ISuppressed status => Err (ExcelApi function (Errors.Suppressed status))
      | IFailed status cleanup => Err (err_or cleanup (ExcelApi function (Status status)))
      | IDecoded (Err error) _ => Err error
      | IDecoded (Ok _) (Err error) => Err error
      | IDecoded (Ok v) (Ok _) => Ok v
      end.

End Session.
End HostSession.
