(* ===== verification/Preflight.v ===== *)
(** * Registration schema and preflight

    Models crates/xlfn/src/registration/schema.rs and preflight.rs: which
    signatures have a type text, and what a list of descriptors has to satisfy
    before Excel sees any of them. *)

From S2P Require Import Prelude SealableCounter Names Errors.
Import Str Modes Errors.

Local Open Scope Z_scope.

Module Preflight.

Definition REGISTRY : Z := from_ascii8 "REGISTRY".
Definition REGISTRATION_SIGNATURE : Z := from_ascii8 "REGSIGNA".
Definition STRING_LENGTH : Z := from_ascii8 "STRINGLE".

Definition MAX_REGISTER_ARGUMENT_HELP_ENTRIES : nat := 244.

Record ArgumentDescriptor : Type := Argument { argument_name : str; argument_description : str }.

Inductive FunctionVisibility : Type := Public | Hidden.

#[export] Instance ArgumentAbi_eq_dec : EqDecision ArgumentAbi.
Proof. solve_decision. Defined.

#[export] Instance ReturnAbi_eq_dec : EqDecision ReturnAbi.
Proof. solve_decision. Defined.

#[export] Instance ExecutionKind_eq_dec : EqDecision ExecutionKind.
Proof. solve_decision. Defined.

(** ** Signatures *)
Record RegistrationSignature : Type := Signature {
  execution : ExecutionKind;
  abi_arguments : list ArgumentAbi;
  return_abi : ReturnAbi;
  volatile : bool;
}.

#[export] Instance RegistrationSignature_eq_dec : EqDecision RegistrationSignature.
Proof. solve_decision. Defined.

Definition contains_abi (a : ArgumentAbi) (l : list ArgumentAbi) : bool :=
  existsb (fun b => bool_decide (a = b)) l.

Definition validate (s : RegistrationSignature) : XllResult unit :=
  if (max_excel_function_arguments (execution s) <? Z.of_nat (length (abi_arguments s)))
     || (contains_abi Reference12 (abi_arguments s)
         && negb (allows_reference_arguments (execution s)))
     || (contains_abi NumericArray12 (abi_arguments s) && is_async (execution s))
     || (bool_decide (return_abi s = RNumericArray12) && is_async (execution s))
  then Err (Internal REGISTRATION_SIGNATURE) else Ok tt.

(** [ValidatedSignature::try_from]; the wrapper carries no data. *)
Definition try_from (s : RegistrationSignature) : XllResult RegistrationSignature :=
  match validate s with Ok _ => Ok s | Err e => Err e end.

(** [ValidatedSignature::encode] *)
Definition encode (s : RegistrationSignature) : str :=
  (if is_async (execution s) then lit ">" else return_registration_code (return_abi s))
  ++ (abi_arguments s ≫= registration_code)
  ++ (if is_async (execution s) then lit "X" else [])
  ++ (match execution s with MacroSheet => lit "#" | _ => [] end)
  ++ (if is_thread_safe (execution s) then lit "$" else [])
  ++ (if volatile s then lit "!" else []).

(** ** Descriptors *)
Record RegistrationDescriptor : Type := Descriptor {
  export_name : str;
  excel_name : str;
  signature : RegistrationSignature;
  category : str;
  description : str;
  help_topic : str;
  visibility : FunctionVisibility;
  arguments : list ArgumentDescriptor;
}.

(** [ExcelNameKey::new] of ledger.rs: ASCII case is ignored. *)
Definition ExcelNameKey (name : str) : str := to_ascii_uppercase <$> name.

(** The loop of [validate_descriptors], with the two sets of keys seen. *)
Fixpoint validate_descriptors_from (pw : pointer_width) (exports excel_names : list str)
    (descriptors : list RegistrationDescriptor) : outcome (XllResult (list RegistrationSignature)) :=
  match descriptors with
  | [] => Done (Ok [])
  | d :: descriptors =>
      let max_arguments := max_excel_function_arguments (execution (signature d)) in
      let argument_names := argument_name <$> arguments d in
      if bool_decide (export_name d = []) then Done (Err (Internal REGISTRY)) else
      let* name := FunctionName.validate_function_name (excel_name d) in
      if is_err name
         || (max_arguments <? Z.of_nat (length (arguments d)))
         || is_err (ArgumentName.validate_argument_names pw argument_names)
         || bool_decide (ExcelNameKey (export_name d) ∈ exports)
         || bool_decide (ExcelNameKey (excel_name d) ∈ excel_names)
         || negb (Nat.eqb (length (abi_arguments (signature d))) (length (arguments d)))
      then Done (Err (Internal REGISTRY))
      else
        match try_from (signature d) with
        | Err _ => Done (Err (Internal REGISTRY))
        | Ok s =>
            let* rest := validate_descriptors_from pw
                           (ExcelNameKey (export_name d) :: exports)
                           (ExcelNameKey (excel_name d) :: excel_names) descriptors in
            Done match rest with Ok l => Ok (s :: l) | Err e => Err e end
        end
  end.

Definition validate_descriptors (pw : pointer_width) (descriptors : list RegistrationDescriptor)
  : outcome (XllResult (list RegistrationSignature)) :=
  validate_descriptors_from pw [] [] descriptors.

Definition validate_excel_string (s : str) : XllResult unit :=
  match ExcelString.validate_excel_string s with
  | Ok _ => Ok tt
  | Err _ => Err (Internal STRING_LENGTH)
  end.

(** The first failure of a sequence of checks. *)
Fixpoint validate_all (l : list str) : XllResult unit :=
  match l with
  | [] => Ok tt
  | s :: l => match validate_excel_string s with Ok _ => validate_all l | Err e => Err e end
  end.

Record PreparedRegistration : Type := Prepared {
  descriptor_index : nat;
  p_export_name : str;
  p_excel_name : str;
  p_signature : RegistrationSignature;
  p_visibility : FunctionVisibility;
  export_name_text : str;
  excel_name_text : str;
  category_text : str;
  help_topic_text : str;
  description_text : str;
  argument_names : str;
  type_text : str;
  argument_help : list str;
}.

(** The names separated by commas, as the loop builds them. *)
Fixpoint join_names (first : bool) (names : list str) : str :=
  match names with
  | [] => []
  | n :: names => (if first then [] else lit ",") ++ n ++ join_names false names
  end.

Definition help_entries (l : list ArgumentDescriptor) : list str :=
  let help_count := Nat.min (length l) MAX_REGISTER_ARGUMENT_HELP_ENTRIES in
  let help := argument_description <$> take help_count l in
  if bool_decide (help = []) then help else help ++ [[]].

Definition prepare (index : nat) (d : RegistrationDescriptor) (s : RegistrationSignature)
  : XllResult PreparedRegistration :=
  match validate_all
          ([export_name d; excel_name d; category d; help_topic d; description d]
           ++ (arguments d ≫= (fun a => [argument_name a; argument_description a]))) with
  | Err e => Err e
  | Ok _ =>
      let names :=
        match arguments d with
        | [] => []
        | [a] => argument_name a
        | l => join_names true (argument_name <$> l)
        end in
      match validate_all [names; encode s] with
      | Err e => Err e
      | Ok _ =>
          Ok (Prepared index (export_name d) (excel_name d) s (visibility d) (export_name d)
                (excel_name d) (category d) (help_topic d) (description d) names (encode s)
                (help_entries (arguments d)))
      end
  end.

Fixpoint prepare_all (index : nat)
    (l : list (RegistrationDescriptor * RegistrationSignature))
  : XllResult (list PreparedRegistration) :=
  match l with
  | [] => Ok []
  | (d, s) :: l =>
      match prepare index d s with
      | Err e => Err e
      | Ok p => match prepare_all (S index) l with Ok ps => Ok (p :: ps) | Err e => Err e end
      end
  end.

Definition preflight_registration (pw : pointer_width) (descriptors : list RegistrationDescriptor)
  : outcome (XllResult (list PreparedRegistration)) :=
  let* signatures := validate_descriptors pw descriptors in
  Done match signatures with
       | Err e => Err e
       | Ok signatures => prepare_all 0 (zip descriptors signatures)
       end.

End Preflight.
