(* ===== verification/RegistrationHost.v ===== *)
(** * The registration calls

    Models crates/xlfn/src/registration/host.rs: how arguments are encoded for
    [xlfRegister] and its relatives, how results are decoded, and which
    outcomes count as applied, rejected or indeterminate. *)

From S2P Require Import Prelude SealableCounter Names Errors Utf16 Dates HostCalls Preflight.
Import Str Modes Errors Utf16 F64 HostCalls HostSession Preflight.

Local Open Scope Z_scope.

Module RegistrationHost.

Definition XL_GET_NAME : Z := 0x4009.
Definition XL_EVENT_REGISTER : Z := 0x4011.
Definition XLF_SET_NAME : Z := 88.
Definition XLF_REGISTER : Z := 149.
Definition XLF_UNREGISTER : Z := 201.
Definition XLF_EVALUATE : Z := 257.

(** [==] on finite numbers. *)
Definition f64_eq (a b : f64) : bool :=
  match a, b with
  | Finite m e, Finite n k =>
      Z.shiftl m (e - Z.min e k) =? Z.shiftl n (k - Z.min e k)
  | Infinite s, Infinite t => eqb s t
  | _, _ => false
  end.

Definition is_zero (x : f64) : bool := match x with Finite m _ => m =? 0 | _ => false end.

Definition valid_registration_id (id : f64) : bool := is_finite id && negb (is_zero id).

Record RegistrationId : Type := Registration { id : f64; registered_name : str }.

(** A [&'static str] inside an error is its UTF-8 bytes. *)
Definition utf8 (s : str) : string :=
  String.string_of_list_ascii ((fun b => Ascii.ascii_of_nat (Z.to_nat b)) <$> bytes s).

Inductive RegistrationMutation (T : Type) : Type :=
| Applied (value : T) (cleanup : XllResult unit)
| Rejected (error : XllError)
| Indeterminate (status : ExcelCallbackStatus) (error : XllError).
Arguments Applied {T} _ _.
Arguments Rejected {T} _.
Arguments Indeterminate {T} _ _.

(** ** Temporary strings: the counted storage an operand points to. *)
Definition TemporaryString : Type := list Z.

Definition temporary_new (text : str) : outcome (XllResult TemporaryString) :=
  encode_counted text "registration" EXCEL_STRING_LIMIT.

Definition from_units (units : list Z) : XllResult TemporaryString :=
  if EXCEL_STRING_LIMIT <? Z.of_nat (length units)
  then Err (input "registration" (TooLarge EXCEL_STRING_LIMIT (Z.of_nat (length units))))
  else Ok (wrap 16 (Z.of_nat (length units)) :: units).

Definition pointer (s : TemporaryString) : XLOPER12 :=
  mk_oper 0 (OString match s with [] => NullPtr | n :: units => Ptr true n units end).

(** Temporaries are created in order; the first failure is the result. *)
Fixpoint temporaries (l : list (outcome (XllResult TemporaryString)))
  : outcome (XllResult (list XLOPER12)) :=
  match l with
  | [] => Done (Ok [])
  | t :: l =>
      let* t := t in
      match t with
      | Err e => Done (Err e)
      | Ok s =>
          let* rest := temporaries l in
          Done match rest with Ok ps => Ok (pointer s :: ps) | Err e => Err e end
      end
  end.

(** ** Decoding *)
Definition unexpected_result (f : ExcelApiFunction) : XllError := ExcelApi f UnexpectedResult.

Definition decode_registration_id (name : str) (result : XLOPER12) : XllResult RegistrationId :=
  and_then (value_type result) (fun t =>
    if negb (bool_decide (t = TNumber)) then Err (unexpected_result FRegister)
    else
      and_then (and_then (borrow result) (fun v => f64_from_excel v "registration")) (fun x =>
        if negb (valid_registration_id x) then Err (unexpected_result FRegister)
        else Ok (Registration x name))).

(** The union projection [raw.value.error] of an error operand. *)
Definition error_code (result : XLOPER12) : Z := match value result with OError c => c | _ => 0 end.

Definition decode_registration_id_result (name : str) (result : XLOPER12)
  : XllResult (option RegistrationId) :=
  and_then (value_type result) (fun t =>
    match t with
    | TError =>
        if error_code result =? XLERR_NAME then Ok None else Err (unexpected_result Evaluate)
    | TNumber =>
        and_then (and_then (borrow result) (fun v => f64_from_excel v "registration recovery"))
          (fun x =>
             if negb (valid_registration_id x) then Err (unexpected_result Evaluate)
             else Ok (Some (Registration x name)))
    | _ => Err (unexpected_result Evaluate)
    end).

Definition decode_is_registered (result : XLOPER12) : XllResult bool :=
  and_then (value_type result) (fun t =>
    Ok match t with
       | TError => negb (error_code result =? XLERR_NAME)
       | TNumber =>
           match and_then (borrow result) (fun v => f64_from_excel v "is_registered_name") with
           | Ok x => valid_registration_id x
           | Err _ => false
           end
       | _ => false
       end).

Definition read_excel_bool (function : ExcelApiFunction) (result : XLOPER12) : XllResult bool :=
  and_then (value_type result) (fun t =>
    if negb (bool_decide (t = TBoolean)) then Err (unexpected_result function)
    else Ok match value result with OBoolean b => negb (b =? 0) | _ => false end).

Definition read_applied_bool (function : ExcelApiFunction) (result : XLOPER12) : XllResult unit :=
  and_then (read_excel_bool function result) (fun b =>
    if b : bool then Ok tt else Err (unexpected_result function)).

Definition decode_event_registration_id (result : XLOPER12) : XllResult Z :=
  and_then (value_type result) (fun t =>
    if negb (bool_decide (t = TInteger)) then Err (unexpected_result EventRegister)
    else
      let v := match value result with OInteger i => i | _ => 0 end in
      if v =? 0 then Err (ExcelApi EventRegister (InvalidRegistrationId v)) else Ok v).

Definition decode_module_name (result : XLOPER12) : XllResult (list Z) :=
  and_then (borrow result) (fun v => utf16 v "module").

(** ** Mutations

    [RegistrationOperation]: the callback, its diagnostic identity, and
    whether an undecodable success leaves the mutation in doubt. *)
Record operation (T : Type) : Type := Operation {
  FUNCTION_ID : Z;
  FUNCTION : ExcelApiFunction;
  decode_failure_indeterminate : bool;
  decode : XLOPER12 -> XllResult T;
}.
Arguments Operation {T} _ _ _ _.
Arguments FUNCTION_ID {T} _.
Arguments FUNCTION {T} _.
Arguments decode_failure_indeterminate {T} _.
Arguments decode {T} _ _.

Definition Register (name : str) : operation RegistrationId :=
  Operation XLF_REGISTER FRegister true (decode_registration_id name).
Definition RegisterEvent : operation Z :=
  Operation XL_EVENT_REGISTER EventRegister true decode_event_registration_id.
Definition UnregisterOp : operation unit :=
  Operation XLF_UNREGISTER Unregister false (read_applied_bool Unregister).
Definition DeleteName : operation unit :=
  Operation XLF_SET_NAME SetName false (read_applied_bool SetName).

Definition mutation_from_invocation {T} (o : operation T) (i : HostInvocation T)
  : RegistrationMutation T :=
  match i with
  | ISuppressed status => Rejected (ExcelApi (FUNCTION o) (Errors.Suppressed status))
  | IFailed status cleanup =>
      let error := err_or cleanup (ExcelApi (FUNCTION o) (Status status)) in
      if is_terminal status then Indeterminate status error else Rejected error
  | IDecoded (Ok v) cleanup => Applied v cleanup
  | IDecoded (Err error) cleanup =>
      if decode_failure_indeterminate o then Indeterminate Success (err_or cleanup error)
      else Rejected error
  end.

Definition macro_type (v : FunctionVisibility) : f64 :=
  match v with Public => of_int 1 | Hidden => of_int 0 end.

Section Host.
Context {E : Type} {X : Excel E}.

Definition invoke_operation {T} (o : operation T) (arguments : list XLOPER12)
  : M E (RegistrationMutation T) :=
  let! i := invoke_protocol (FUNCTION_ID o) arguments (decode o) in
  ret (mutation_from_invocation o i).

(** The arguments are prepared first; a failure there is a rejection. *)
Definition with_arguments {T} (arguments : outcome (XllResult (list XLOPER12)))
    (k : list XLOPER12 -> M E (RegistrationMutation T)) : M E (RegistrationMutation T) :=
  let! r := lift arguments in
  match r with Err error => ret (Rejected error) | Ok l => k l end.

Definition module_name : M E (XllResult (list Z)) :=
  invoke XL_GET_NAME GetName [] decode_module_name.

(** The operands of [xlfRegister]. *)
Definition register_arguments (module_units : list Z) (d : PreparedRegistration)
  : outcome (XllResult (list XLOPER12)) :=
  let* head := temporaries
    [Done (from_units module_units); temporary_new (export_name_text d); temporary_new (type_text d);
     temporary_new (excel_name_text d); temporary_new (argument_names d)] in
  match head with
  | Err e => Done (Err e)
  | Ok head =>
      let* tail := temporaries
        ([temporary_new (category_text d); temporary_new []; temporary_new (help_topic_text d);
          temporary_new (description_text d)] ++ (temporary_new <$> argument_help d)) in
      Done match tail with
           | Err e => Err e
           | Ok tail => Ok (head ++ [number (macro_type (p_visibility d))] ++ tail)
           end
  end.

Definition register (module_units : list Z) (d : PreparedRegistration)
  : M E (RegistrationMutation RegistrationId) :=
  with_arguments (register_arguments module_units d) (invoke_operation (Register (p_excel_name d))).

Definition register_event (procedure : str) (event : Z) : M E (RegistrationMutation Z) :=
  with_arguments (temporaries [temporary_new procedure]) (fun l =>
    invoke_operation RegisterEvent (l ++ [integer event])).

Definition with_name {T} (name : str) (k : list XLOPER12 -> M E (XllResult T)) : M E (XllResult T) :=
  let! r := lift (temporaries [temporary_new name]) in
  match r with Err error => ret (Err error) | Ok l => k l end.

Definition registration_id (name : str) : M E (XllResult (option RegistrationId)) :=
  with_name name (fun l => invoke XLF_EVALUATE Evaluate l (decode_registration_id_result name)).

Definition is_registered_name (name : str) : M E (XllResult bool) :=
  with_name name (fun l => invoke XLF_EVALUATE Evaluate l decode_is_registered).

Definition unregister_registration (r : RegistrationId) : M E (RegistrationMutation unit) :=
  invoke_operation UnregisterOp [number (id r)].

Definition delete_name (name : str) : M E (RegistrationMutation unit) :=
  with_arguments (temporaries [temporary_new name]) (invoke_operation DeleteName).

Definition delete_name_if_binding_matches (name : str) (expected : list f64)
  : M E (RegistrationMutation unit) :=
  let! r := registration_id name in
  match r with
  | Ok None => ret (Applied tt (Ok tt))
  | Ok (Some current) =>
      if existsb (fun x => f64_eq x (id current)) expected then delete_name name
      else ret (Rejected (MetadataDebtBindingChanged (utf8 name)))
  | Err error => ret (Rejected error)
  end.

End Host.
End RegistrationHost.
