(* ===== verification/Registration.v ===== *)
(** * Registering functions with Excel, and owing their removal

    Models crates/xlfn/src/registration/ledger.rs, registrar.rs and
    recovery.rs, and runtime_components/host_ledger.rs: the transaction that
    registers the functions of an add-in, its roll-back, the journal of what a
    transaction owes, and the ledger that keeps the debts between calls. *)

From stdpp Require Import sorting.
From S2P Require Import Prelude SealableCounter Names Errors Utf16 Dates HostCalls Preflight RegistrationHost.
Import Str Modes Errors Utf16 F64 HostCalls HostSession Preflight RegistrationHost.

Local Open Scope Z_scope.

Module Registration.

(** ** Journals *)
Inductive RegistrationCleanupState : Type := Registered | Unregistered | NameDeleted.

#[export] Instance RegistrationCleanupState_eq_dec : EqDecision RegistrationCleanupState.
Proof. solve_decision. Defined.

Record PendingRegistration : Type := Pending {
  registration : RegistrationId;
  cleanup_state : RegistrationCleanupState;
}.

Definition pending_from (r : RegistrationId) : PendingRegistration := Pending r Registered.

Definition set_cleanup_state (c : RegistrationCleanupState) (p : PendingRegistration)
  : PendingRegistration := Pending (registration p) c.

Record MetadataDebt : Type := Debt {
  debt_registration : RegistrationId;
  attempts : Z;
  last_error : XllError;
}.

Definition debt_new (r : RegistrationId) (error : XllError) : MetadataDebt := Debt r 1 error.

Definition retry_failed (error : XllError) (d : MetadataDebt) : MetadataDebt :=
  Debt (debt_registration d) (saturating_add 32 (attempts d) 1) error.

Definition key (d : MetadataDebt) : str := ExcelNameKey (registered_name (debt_registration d)).

Record UnregisterResult : Type := Unregister {
  succeeded : list PendingRegistration;
  failed : list (PendingRegistration * XllError);
  unregister_debt : list MetadataDebt;
  cleanup_issues : list XllError;
}.

Definition unregister_new : UnregisterResult := Unregister [] [] [] [].

Definition push_succeeded (p : PendingRegistration) (o : UnregisterResult) : UnregisterResult :=
  Unregister (succeeded o ++ [p]) (failed o) (unregister_debt o) (cleanup_issues o).
Definition push_failed (p : PendingRegistration) (e : XllError) (o : UnregisterResult)
  : UnregisterResult :=
  Unregister (succeeded o) (failed o ++ [(p, e)]) (unregister_debt o) (cleanup_issues o).
Definition push_debt (d : MetadataDebt) (o : UnregisterResult) : UnregisterResult :=
  Unregister (succeeded o) (failed o) (unregister_debt o ++ [d]) (cleanup_issues o).
Definition push_issue (cleanup : XllResult unit) (o : UnregisterResult) : UnregisterResult :=
  match cleanup with
  | Ok _ => o
  | Err e => Unregister (succeeded o) (failed o) (unregister_debt o) (cleanup_issues o ++ [e])
  end.

Record UnknownRegistrationState : Type := Unknown_state {
  unknown_export : str;
  unknown_name : str;
  recovery_error : XllError;
}.

Record HostMutationJournal : Type := Journal {
  pending_registrations : list PendingRegistration;
  journal_debt : list MetadataDebt;
  unknown_registrations : list UnknownRegistrationState;
  superseded_metadata : list str;
}.

Definition journal_default : HostMutationJournal := Journal [] [] [] [].

Definition retain_pending (l : list PendingRegistration) (j : HostMutationJournal)
  : HostMutationJournal :=
  Journal (pending_registrations j ++ l) (journal_debt j) (unknown_registrations j)
    (superseded_metadata j).

Definition record_registrations (l : list RegistrationId) (j : HostMutationJournal)
  : HostMutationJournal := retain_pending (pending_from <$> l) j.

Definition from_registrations (l : list RegistrationId) : HostMutationJournal :=
  record_registrations l journal_default.

Definition retain_metadata (l : list MetadataDebt) (j : HostMutationJournal) : HostMutationJournal :=
  Journal (pending_registrations j) (journal_debt j ++ l) (unknown_registrations j)
    (superseded_metadata j).

Definition mark_unknown (u : UnknownRegistrationState) (j : HostMutationJournal)
  : HostMutationJournal :=
  Journal (pending_registrations j) (journal_debt j) (unknown_registrations j ++ [u])
    (superseded_metadata j).

Definition journal_merge (j k : HostMutationJournal) : HostMutationJournal :=
  Journal (pending_registrations j ++ pending_registrations k) (journal_debt j ++ journal_debt k)
    (unknown_registrations j ++ unknown_registrations k)
    (superseded_metadata j ++ superseded_metadata k).

Definition is_unknown (j : HostMutationJournal) : bool :=
  negb (bool_decide (length (unknown_registrations j) = 0%nat)).

(** [SuccessfulRegistrations::into_journal] *)
Definition into_journal (l : list RegistrationId) : HostMutationJournal :=
  let j := from_registrations l in
  Journal (pending_registrations j) (journal_debt j) (unknown_registrations j)
    ((fun r => ExcelNameKey (registered_name r)) <$> l).

Record RegistrationTransactionError : Type := TransactionError {
  source : XllError;
  journal : HostMutationJournal;
}.

Definition transaction_error (e : XllError) : RegistrationTransactionError :=
  TransactionError e journal_default.

Definition on_journal (f : HostMutationJournal -> HostMutationJournal)
    (e : RegistrationTransactionError) : RegistrationTransactionError :=
  TransactionError (source e) (f (journal e)).

(** ** The registrar *)
Section Registrar.
Context {E : Type} {X : Excel E}.

Abbreviation N A := (M E A).

(** The body of the loop of [HostRegistrar::unregister_pending], once the
    identity is gone. *)
Definition unregister_name (p : PendingRegistration) (o : UnregisterResult) : N UnregisterResult :=
  fun s =>
    if negb (permits_callbacks s)
    then Done (push_debt (debt_new (registration p) Closing) o, s)
    else
      (let! r := delete_name_if_binding_matches (registered_name (registration p))
                   [id (registration p)] in
       ret match r with
           | Applied _ cleanup =>
               push_succeeded (set_cleanup_state NameDeleted p) (push_issue cleanup o)
           | Rejected error | Indeterminate _ error =>
               push_debt (debt_new (registration p) error) o
           end) s.

Definition unregister_one (p : PendingRegistration) (o : UnregisterResult) : N UnregisterResult :=
  fun s =>
    if negb (permits_callbacks s) then Done (push_failed p Closing o, s)
    else
      match cleanup_state p with
      | NameDeleted => Done (push_succeeded p o, s)
      | Unregistered => unregister_name p o s
      | Registered =>
          (let! r := unregister_registration (registration p) in
           match r with
           | Applied _ cleanup =>
               unregister_name (set_cleanup_state Unregistered p) (push_issue cleanup o)
           | Rejected error | Indeterminate _ error => ret (push_failed p error o)
           end) s
      end.

Fixpoint unregister_loop (l : list PendingRegistration) (o : UnregisterResult)
  : N UnregisterResult :=
  match l with
  | [] => ret o
  | p :: l => let! o := unregister_one p o in unregister_loop l o
  end.

(** [HostRegistrar::unregister_pending] *)
Definition unregister_pending (l : list PendingRegistration) : N UnregisterResult :=
  unregister_loop (rev l) unregister_new.

(** What the roll-back of [l] leaves in the journal of [e]. *)
Definition roll_back (l : list PendingRegistration) (e : RegistrationTransactionError)
  : N RegistrationTransactionError :=
  fun s =>
    if negb (permits_callbacks s) then Done (on_journal (retain_pending l) e, s)
    else
      (let! o := unregister_pending l in
       ret (on_journal (fun j => retain_metadata (unregister_debt o)
                                   (retain_pending (failed o).*1 j)) e)) s.

(** [registration_release_failure] *)
Definition registration_release_failure (r : RegistrationId) (e : XllError)
  : N RegistrationTransactionError := roll_back [pending_from r] (transaction_error e).

Definition unknown_of (d : PreparedRegistration) (e : XllError) : UnknownRegistrationState :=
  Unknown_state (p_export_name d) (p_excel_name d) e.

(** [reconcile_malformed_registration_result] *)
Definition reconcile (d : PreparedRegistration) (e : XllError) : N RegistrationTransactionError :=
  let! r := registration_id (p_excel_name d) in
  match r with
  | Ok (Some r) => registration_release_failure r e
  | Ok None => ret (transaction_error e)
  | Err recovery => ret (on_journal (mark_unknown (unknown_of d recovery)) (transaction_error e))
  end.

(** The module path of a [HostRegistrar] is its units. *)
Definition register_one (module_units : list Z) (d : PreparedRegistration)
  : N (result RegistrationId RegistrationTransactionError) :=
  let! taken := is_registered_name (p_excel_name d) in
  match taken with
  | Err e => ret (Err (transaction_error e))
  | Ok true => ret (Err (transaction_error (RegistrationConflict (utf8 (p_excel_name d)))))
  | Ok false =>
      let! mutation := register module_units d in
      match mutation with
      | Applied r (Ok _) => ret (Ok r)
      | Applied r (Err e) => let! e := registration_release_failure r e in ret (Err e)
      | Rejected e => ret (Err (transaction_error e))
      | Indeterminate status e =>
          if is_terminal status
          then ret (Err (on_journal (mark_unknown (unknown_of d e)) (transaction_error e)))
          else let! e := reconcile d e in ret (Err e)
      end
  end.

(** [register_all_transaction], with the identities registered so far. *)
Fixpoint register_loop (module_units : list Z) (l : list PreparedRegistration)
    (registered : list RegistrationId)
  : N (result (list RegistrationId) RegistrationTransactionError) :=
  match l with
  | [] => ret (Ok registered)
  | d :: l =>
      let! r := register_one module_units d in
      match r with
      | Ok r => register_loop module_units l (registered ++ [r])
      | Err e => let! e := roll_back (pending_from <$> registered) e in ret (Err e)
      end
  end.

Definition register_all (module_units : list Z) (l : list PreparedRegistration)
  : N (result (list RegistrationId) RegistrationTransactionError) :=
  register_loop module_units l [].

(** [HostRegistrar::connect]; [is_absolute] is the standard library's
    predicate on paths of the platform. *)
Definition connect (is_absolute : list Z -> bool)
  : N (result (list Z) RegistrationTransactionError) :=
  let! r := module_name in
  ret match r with
      | Err e => Err (transaction_error e)
      | Ok units =>
          if negb (is_absolute units)
          then Err (transaction_error (input "module"
                 (Malformed "xlGetName did not return an absolute module path")))
          else Ok units
      end.

(** ** Recovery of metadata

    [BTreeMap] iteration is in the order of the keys. *)
Definition terminal_retry_error (s : Callbacks E) : option XllError :=
  match terminal_status s with
  | Some status => Some (ExcelApi Evaluate (Errors.Suppressed status))
  | None => None
  end.

Record MetadataDebtRetryResult : Type := Retry {
  remaining : list (str * list MetadataDebt);
  retry_issues : list XllError;
  terminal : option XllError;
}.

(** The loop of [retry_metadata_debt_with_host] over the entries left; what it
    returns is added to [o]. *)
Fixpoint retry_loop (l : list (str * list MetadataDebt)) (o : MetadataDebtRetryResult)
  : N MetadataDebtRetryResult :=
  match l with
  | [] => ret o
  | (_, []) :: l => retry_loop l o
  | (k, (first :: _) as bucket) :: l => fun s =>
      if negb (permits_callbacks s) then
        Done (Retry (remaining o ++ (k, bucket) :: l) (retry_issues o) (terminal_retry_error s), s)
      else
        (let! mutation := delete_name_if_binding_matches (registered_name (debt_registration first))
                            ((fun d => id (debt_registration d)) <$> bucket) in
         match mutation with
         | Applied _ cleanup =>
             retry_loop l
               (Retry (remaining o)
                  (match cleanup with Ok _ => retry_issues o | Err e => retry_issues o ++ [e] end)
                  (terminal o))
         | Rejected error | Indeterminate _ error => fun s =>
             let kept := remaining o ++ [(k, retry_failed error <$> bucket)] in
             if negb (permits_callbacks s)
             then Done (Retry (kept ++ l) (retry_issues o) (Some error), s)
             else retry_loop l (Retry kept (retry_issues o) (terminal o)) s
         end) s
  end.

Definition retry_metadata_debt_with_host (l : list (str * list MetadataDebt))
  : N MetadataDebtRetryResult :=
  let! o := retry_loop l (Retry [] [] None) in
  fun s =>
    Done (Retry (remaining o) (retry_issues o)
            (match terminal o with Some e => Some e | None => terminal_retry_error s end), s).

End Registrar.

(** ** The ledger *)
Inductive RegistrationState : Type := Known | Unknown.

#[export] Instance RegistrationState_eq_dec : EqDecision RegistrationState.
Proof. solve_decision. Defined.

Record HostLedgerState : Type := Ledger {
  registrations : list PendingRegistration;
  metadata_debt : gmap str (list MetadataDebt);
  registration_state : RegistrationState;
  cleanup_in_progress : bool;
  metadata_cleanup_in_progress : bool;
}.

Definition ledger_new : HostLedgerState := Ledger [] ∅ Known false false.

(** [entry(debt.key()).or_default().push(debt)] *)
Definition add_debt (m : gmap str (list MetadataDebt)) (d : MetadataDebt)
  : gmap str (list MetadataDebt) := <[key d := default [] (m !! key d) ++ [d]]> m.

(** [entry(key).or_default().append(&mut debts)] *)
Definition add_bucket (m : gmap str (list MetadataDebt)) (b : str * list MetadataDebt)
  : gmap str (list MetadataDebt) := <[b.1 := default [] (m !! b.1) ++ b.2]> m.

(** [HostLedger::merge] *)
Definition merge (j : HostMutationJournal) (s : HostLedgerState) : HostLedgerState :=
  Ledger (registrations s ++ pending_registrations j)
    (foldl add_debt (foldl (fun m k => delete k m) (metadata_debt s) (superseded_metadata j))
       (journal_debt j))
    (if is_unknown j then Unknown else registration_state s)
    (cleanup_in_progress s) (metadata_cleanup_in_progress s).

Definition generation_callbacks_detached (s : HostLedgerState) : bool :=
  negb (cleanup_in_progress s) && negb (metadata_cleanup_in_progress s)
  && bool_decide (length (registrations s) = 0%nat).

Definition is_quiescent (s : HostLedgerState) : bool :=
  negb (cleanup_in_progress s) && negb (metadata_cleanup_in_progress s)
  && bool_decide (length (registrations s) = 0%nat) && bool_decide (registration_state s = Known).

Definition registration_state_unknown (s : HostLedgerState) : bool :=
  cleanup_in_progress s || metadata_cleanup_in_progress s
  || bool_decide (registration_state s = Unknown).

Definition has_metadata_debt (s : HostLedgerState) : bool :=
  metadata_cleanup_in_progress s || negb (bool_decide (metadata_debt s = ∅)).

(** [HostLedger::claim_cleanup]: the entries move to the claim. *)
Definition claim_cleanup (s : HostLedgerState)
  : XllResult (list PendingRegistration * HostLedgerState) :=
  if cleanup_in_progress s then Err Closing
  else Ok (registrations s,
           Ledger [] (metadata_debt s) (registration_state s) true (metadata_cleanup_in_progress s)).

(** [RegistrationCleanupClaim::execute], after the host. *)
Definition finish_cleanup (o : UnregisterResult) (s : HostLedgerState) : HostLedgerState :=
  Ledger (registrations s ++ (failed o).*1) (foldl add_debt (metadata_debt s) (unregister_debt o))
    (registration_state s) false (metadata_cleanup_in_progress s).

(** Drop of a claim that has not been executed. *)
Definition restore_cleanup (l : list PendingRegistration) (s : HostLedgerState) : HostLedgerState :=
  Ledger (registrations s ++ l) (metadata_debt s) (registration_state s) false
    (metadata_cleanup_in_progress s).

(** The first section of [retry_metadata_cleanup]. *)
Definition claim_metadata (s : HostLedgerState)
  : XllResult (gmap str (list MetadataDebt) * HostLedgerState) :=
  if metadata_cleanup_in_progress s then Err Closing
  else Ok (metadata_debt s,
           Ledger (registrations s) ∅ (registration_state s) (cleanup_in_progress s) true).

(** [MetadataCleanupClaim::execute] after the host, and the claim's [Drop]. *)
Definition restore_metadata (l : list (str * list MetadataDebt)) (s : HostLedgerState)
  : HostLedgerState :=
  Ledger (registrations s) (foldl add_bucket (metadata_debt s) l) (registration_state s)
    (cleanup_in_progress s) false.

(** The order of [ExcelNameKey]. *)
Fixpoint str_leb (a b : str) : bool :=
  match a, b with
  | [], _ => true
  | _ :: _, [] => false
  | x :: a, y :: b => if x =? y then str_leb a b else x <? y
  end.

Definition key_le (a b : str * list MetadataDebt) : Prop := str_leb a.1 b.1 = true.

#[export] Instance key_le_dec : RelDecision key_le.
Proof. intros a b. unfold key_le. apply _. Defined.

Definition in_key_order (m : gmap str (list MetadataDebt)) : list (str * list MetadataDebt) :=
  merge_sort key_le (map_to_list m).

Section Cleanup.
Context {E : Type} {X : Excel E}.

(** [HostLedger::cleanup_registrations] with nothing in between. *)
Definition cleanup_registrations (l : HostLedgerState)
  : M E (XllResult UnregisterResult * HostLedgerState) :=
  match claim_cleanup l with
  | Err e => ret (Err e, l)
  | Ok (entries, l) =>
      let! o := unregister_pending entries in
      ret (Ok o, finish_cleanup o l)
  end.

(** [HostLedger::retry_metadata_cleanup] *)
Definition retry_metadata_cleanup (l : HostLedgerState)
  : M E (MetadataDebtRetryResult * HostLedgerState) :=
  match claim_metadata l with
  | Err _ => ret (Retry [] [] (Some Closing), l)
  | Ok (debts, l) =>
      let! o := retry_metadata_debt_with_host (in_key_order debts) in
      ret (Retry [] (retry_issues o) (terminal o), restore_metadata (remaining o) l)
  end.

(** [retry_metadata_debt]; reports are not modelled. *)
Definition retry_metadata_debt (l : HostLedgerState) : M E (XllResult unit * HostLedgerState) :=
  fun s =>
    if bool_decide (metadata_debt l = ∅) then
      Done (match terminal_retry_error s with Some e => Err e | None => Ok tt end, l, s)
    else
      (let! (o, l) := retry_metadata_cleanup l in
       ret (match terminal o with Some e => Err e | None => Ok tt end, l)) s.

End Cleanup.
End Registration.
