(* ===== verification/RegistrationHostSpecs.v ===== *)
(** * What Excel promises, and what the registration calls do

    [wp] is a total weakest precondition for code that calls Excel.
    [ExcelContract] states the behaviour of Excel the code relies on: which
    identities it holds for the add-in, and which value a name has. *)

From S2P Require Import Prelude SealableCounter Names Errors Utf16 Dates HostCalls Preflight RegistrationHost Registration.
Import Str Modes Errors Utf16Std Utf16 Utf16Lemmas F64 HostCalls HostSession Preflight RegistrationHost Registration.

Local Open Scope Z_scope.

Module RegistrationHostSpecs.

(** ** Weakest preconditions *)
Definition wp {E A} (m : M E A) (Q : A -> Callbacks E -> Prop) (s : Callbacks E) : Prop :=
  match m s with Done (a, s') => Q a s' | _ => False end.

Lemma wp_ret {E A} (a : A) Q (s : Callbacks E) : Q a s -> wp (ret a) Q s.
Proof. done. Qed.

Lemma wp_bind {E A B} (m : M E A) (k : A -> M E B) Q s :
  wp m (fun a => wp (k a) Q) s -> wp (bind m k) Q s.
Proof. unfold wp, bind. by destruct (m s) as [[a s']| |]. Qed.

Lemma wp_mono {E A} (m : M E A) (P Q : A -> Callbacks E -> Prop) s :
  wp m P s -> (forall a s', P a s' -> Q a s') -> wp m Q s.
Proof. unfold wp. destruct (m s) as [[a s']| |]; auto. Qed.

(** Sequencing through a known specification of the first part. *)
Lemma wp_step {E A B} (m : M E A) (k : A -> M E B) P Q s :
  wp m P s -> (forall a s', P a s' -> wp (k a) Q s') -> wp (bind m k) Q s.
Proof. intros Hm Hk. apply wp_bind. by eapply wp_mono. Qed.

Lemma wp_lift {E A} (o : outcome A) Q (s : Callbacks E) :
  match o with Done a => Q a s | _ => False end -> wp (lift o) Q s.
Proof. unfold wp, lift. by destruct o. Qed.

(** ** Excel *)
Section Calls.
Context {E : Type} {X : Excel E}.

Definition frees (e e' : E) : Prop :=
  e' = e \/ exists args st v, callback XL_FREE args e = (st, v, e').

Lemma observe_spec status (s : Callbacks E) Q :
  (forall s', excel s' = excel s -> Q tt s') -> wp (observe status) Q s.
Proof. intros H. unfold wp, observe. simpl. apply H. by case_match. Qed.

Lemma release_owner_spec o (s : Callbacks E) :
  release_state o = Live \/ (exists st, release_state o = TerminalSuppressed st) ->
  wp (release_owner o) (fun _ s' => frees (excel s) (excel s')) s.
Proof.
  intros Ho. unfold release_owner. apply wp_bind.
  eapply (wp_mono _ (fun a s' => frees (excel s) (excel s') /\
    match release_state a.2 with Released | HostSession.Indeterminate _ => True | _ => False end)).
  - unfold release_in_place. destruct Ho as [->|[st ->]];
      (destruct (negb (release_required o)); [by split; [left|]|]);
      (apply wp_bind; unfold wp at 1, excel_free; destruct (negb (resolve_callback (excel s)));
       [|destruct (callback XL_FREE [raw o] (excel s)) as [[raw_status v] e] eqn:Ef];
       apply wp_bind, observe_spec; intros s' Hs';
       (destruct (status_from_raw _); split; simpl; try done; rewrite Hs'; simpl;
        first [by left|right; by eauto])).
  - intros [r o'] s' [Hf Ho']. simpl in *. unfold bind, release_in_place.
    by destruct (release_state o').
Qed.

(** One callback: refused, not delivered, or a call of Excel and one release. *)
Lemma invoke_protocol_spec {T} f args (dec : XLOPER12 -> XllResult T) (s : Callbacks E)
    (Q : HostInvocation T -> Callbacks E -> Prop) :
  (forall st, Q (ISuppressed st) s) ->
  (forall cleanup, Q (IFailed (Failed XLRET_FAILED) cleanup) s) ->
  (forall st v e s' cleanup, callback f args (excel s) = (st, v, e) -> frees e (excel s') ->
    Q (if bool_decide (status_from_raw st = Success) then IDecoded (dec v) cleanup
       else IFailed (status_from_raw st) cleanup) s') ->
  wp (invoke_protocol f args dec) Q s.
Proof.
  intros Hsup Hfail Hcall. unfold invoke_protocol. apply wp_bind. unfold wp at 1, call.
  destruct (blocked_status (session s)) as [st|]; [by apply wp_ret|].
  unfold bind at 1, call_with_session.
  destruct (negb (enter_callback (excel s))); [by apply wp_ret|].
  unfold bind at 1, excel12_with_invocation.
  destruct (2 ^ 31 - 1 <? Z.of_nat (length args)); [apply Hfail|].
  destruct (negb (resolve_callback (excel s))); [apply Hfail|].
  destruct (callback f args (excel s)) as [[st v] e] eqn:Ec. simpl.
  set (s1 := if is_terminal (status_from_raw st) && _ then _ else _).
  assert (Hs1 : excel s1 = e) by (subst s1; by case_match).
  assert (Hrel : forall r, match r with
      | Readable o | CleanupOnly o =>
          release_state o = Live \/ (exists st, release_state o = TerminalSuppressed st)
      | Empty => False end ->
      wp (release r) (fun _ s' => frees e (excel s')) s1).
  { intros [o|o|] Ho; [| |done]; rewrite <- Hs1; by apply release_owner_spec. }
  specialize (Hcall st v e). clearbody s1.
  destruct (status_from_raw st) as [| | |code] eqn:Est; simpl; apply wp_bind;
    (eapply wp_mono;
      [first [apply (Hrel (Readable (Owner v true Live))); by left
             |eapply (Hrel (CleanupOnly (Owner v true (TerminalSuppressed _)))); right; by eexists]
      |intros cleanup s' Hf; exact (Hcall s' cleanup eq_refl Hf)]).
Qed.

End Calls.

(** The behaviour of Excel this code relies on.  [held] lists the identities
    under which Excel has functions of the add-in registered; [bound] is the
    number an operand's name evaluates to.  Only [xlfRegister] adds an
    identity, and after a failure that is not terminal it has not; a
    successful registration binds the name it was given and returns its
    identity if it returns a number; evaluation tells the truth; an
    acknowledged [xlfUnregister] has removed the identity. *)
Class ExcelContract (E : Type) `{X : Excel E} : Type := {
  held : E -> list f64;
  bound : E -> XLOPER12 -> option f64;
  others_add_nothing f args e st v e' :
    callback f args e = (st, v, e') -> f <> XLF_REGISTER -> held e' ⊆ held e;
  release_keeps_names args e st v e' n :
    callback XL_FREE args e = (st, v, e') -> bound e' n = bound e n;
  register_adds_one args e st v e' n :
    callback XLF_REGISTER args e = (st, v, e') -> is_terminal (status_from_raw st) = false ->
    args !! 3%nat = Some n ->
    held e' ⊆ held e \/
    status_from_raw st = Success /\
    exists x, held e' ⊆ x :: held e /\ bound e' n = Some x /\
      forall y, value v = ONumber y -> valid_registration_id y = true -> f64_eq y x = true;
  evaluation_is_truthful n e v e' :
    callback XLF_EVALUATE [n] e = (XLRET_SUCCESS, v, e') ->
    (value v = OError XLERR_NAME -> bound e n = None) /\
    (forall y, value v = ONumber y -> valid_registration_id y = true ->
      exists x, bound e n = Some x /\ f64_eq y x = true);
  unregister_removes x e v e' b y :
    callback XLF_UNREGISTER [number x] e = (XLRET_SUCCESS, v, e') ->
    value v = OBoolean b -> b <> 0 -> y ∈ held e' -> f64_eq x y = false;
}.

Lemma success_raw st : status_from_raw st = Success -> st = XLRET_SUCCESS.
Proof. unfold status_from_raw. repeat case_match; try done. intros _. by apply Z.eqb_eq. Qed.

(** ** Strings as operands *)
Definition operand (name : str) : XLOPER12 :=
  pointer (utf16_count name :: encode_utf16 name).

Lemma temporary_new_spec name :
  text name ->
  temporary_new name = Done (if utf16_count name <=? EXCEL_STRING_LIMIT
    then Ok (utf16_count name :: encode_utf16 name)
    else Err (input "registration" (TooLarge EXCEL_STRING_LIMIT (utf16_count name)))).
Proof.
  intros Ht. unfold temporary_new.
  by destruct (Utf16Theorems.counted_string_roundtrip W64 0 name "registration" EXCEL_STRING_LIMIT)
    as [-> _].
Qed.

Lemma temporaries_one name :
  text name ->
  temporaries [temporary_new name] = Done (if utf16_count name <=? EXCEL_STRING_LIMIT
    then Ok [operand name]
    else Err (input "registration" (TooLarge EXCEL_STRING_LIMIT (utf16_count name)))).
Proof. intros Ht. simpl. rewrite temporary_new_spec by done. by case_match. Qed.

(** Preparing texts never fails abnormally. *)
Lemma temporaries_done l :
  Forall (fun t => exists r, t = Done r) l -> exists r, temporaries l = Done r.
Proof.
  induction 1 as [|t l [r ->] _ [rest IH]]; [by eexists|]. simpl.
  destruct r as [s|e]; [|by eexists]. rewrite IH. by eexists.
Qed.

Lemma temporary_done name : text name -> exists r, temporary_new name = Done r.
Proof. intros Ht. rewrite temporary_new_spec by done. by eexists. Qed.

End RegistrationHostSpecs.
