(* ===== verification/RegistrationAccounts.v ===== *)
(** * Whose registrations Excel holds

    Every operation of the registrar against the contract of Excel: which
    identities can be held afterwards, and which entry of a journal or of a
    result stands for each of them. *)

From S2P Require Import Prelude SealableCounter Names Errors Utf16 Dates HostCalls Preflight RegistrationHost Registration RegistrationHostSpecs.
Import Str Modes Errors Utf16Std Utf16 Utf16Lemmas F64 HostCalls HostSession Preflight RegistrationHost Registration RegistrationHostSpecs.

Local Open Scope Z_scope.

Module RegistrationAccounts.

(** An entry that still has to be unregistered stands for [x]. *)
Definition stands_for (x : f64) (p : PendingRegistration) : Prop :=
  cleanup_state p = Registered /\ f64_eq (id (registration p)) x = true.

Definition covered (l : list PendingRegistration) (x : f64) : Prop := Exists (stands_for x) l.

Lemma covered_app l k x : covered (l ++ k) x <-> covered l x \/ covered k x.
Proof. apply Exists_app. Qed.

Lemma covered_rev l x : covered (rev l) x <-> covered l x.
Proof. unfold covered. by rewrite !Exists_exists; setoid_rewrite list_elem_of_In; setoid_rewrite <- in_rev. Qed.

Lemma covered_one p x : covered [p] x <-> stands_for x p.
Proof. unfold covered. rewrite Exists_cons, Exists_nil. tauto. Qed.

(** The names in entries and debts are texts, so that they can be encoded. *)
Definition named (r : RegistrationId) : Prop := text (registered_name r).
Definition entries_named (l : list PendingRegistration) : Prop :=
  Forall (fun p => named (registration p)) l.
Definition debts_named (l : list MetadataDebt) : Prop :=
  Forall (fun d => named (debt_registration d)) l.

Section Accounts.
Context {E : Type} {X : Excel E} {C : ExcelContract E}.

Definition holds (s : Callbacks E) : list f64 := held (excel s).

Lemma frees_held (e e' : E) : frees e e' -> held e' ⊆ held e.
Proof.
  intros [->|(args & st & v & Hc)]; [done|]. by eapply others_add_nothing.
Qed.

Lemma frees_bound (e e' : E) n : frees e e' -> bound e' n = bound e n.
Proof. intros [->|(args & st & v & Hc)]; [done|]. by eapply release_keeps_names. Qed.

(** A callback that is not [xlfRegister] adds nothing. *)
Lemma protocol_adds_nothing {T} f args (dec : XLOPER12 -> XllResult T) s :
  f <> XLF_REGISTER -> wp (invoke_protocol f args dec) (fun _ s' => holds s' ⊆ holds s) s.
Proof.
  intros Hf. apply invoke_protocol_spec; try done.
  intros st v e s' cleanup Hc Hfree. unfold holds. rewrite frees_held by done.
  by eapply others_add_nothing.
Qed.

Lemma invoke_adds_nothing {T} f g args (dec : XLOPER12 -> XllResult T) s :
  f <> XLF_REGISTER -> wp (invoke f g args dec) (fun _ s' => holds s' ⊆ holds s) s.
Proof. intros Hf. eapply wp_step; [by apply protocol_adds_nothing|]. done. Qed.

(** ** Evaluation of a name *)
Lemma registration_id_spec name s :
  text name ->
  wp (registration_id name) (fun r s' =>
    holds s' ⊆ holds s /\
    match r with
    | Ok None => bound (excel s) (operand name) = None
    | Ok (Some r) =>
        registered_name r = name /\
        exists x, bound (excel s) (operand name) = Some x /\ f64_eq (id r) x = true
    | Err _ => True
    end) s.
Proof.
  intros Ht. unfold registration_id, with_name. rewrite temporaries_one by done.
  apply wp_bind, wp_lift. destruct (_ <=? _); [|by apply wp_ret].
  unfold invoke. apply wp_bind. apply invoke_protocol_spec; [done..|].
  intros st v e s' cleanup Hc Hfree. apply wp_ret. split.
  { unfold holds. rewrite frees_held by done. by eapply others_add_nothing. }
  case_bool_decide as Hst; [|done]. apply success_raw in Hst as ->.
  destruct (evaluation_is_truthful _ _ _ _ Hc) as [Hnone Hsome].
  unfold decode_registration_id_result, value_type, and_then, borrow, f64_from_excel.
  destruct (value v) as [x|p|b| |code| | | | | |i| |base] eqn:Hv; simpl; try done.
  - destruct (negb (Z.land _ _ =? 0)); [done|]. rewrite Hv. destruct (is_finite x); [|done].
    destruct (valid_registration_id x) eqn:Hid; simpl; [|done].
    destruct cleanup; [|done]. split; [done|]. by apply Hsome.
  - unfold error_code. rewrite Hv. destruct (code =? XLERR_NAME) eqn:Hcode; [|done].
    destruct cleanup; [|done]. apply Hnone. by apply Z.eqb_eq in Hcode as ->.
Qed.

Lemma is_registered_name_spec name s :
  text name -> wp (is_registered_name name) (fun _ s' => holds s' ⊆ holds s) s.
Proof.
  intros Ht. unfold is_registered_name, with_name. rewrite temporaries_one by done.
  apply wp_bind, wp_lift. destruct (_ <=? _); [|by apply wp_ret]. by apply invoke_adds_nothing.
Qed.

(** ** Removal *)
Lemma operation_adds_nothing {T} (o : operation T) args s :
  FUNCTION_ID o <> XLF_REGISTER ->
  wp (invoke_operation o args) (fun _ s' => holds s' ⊆ holds s) s.
Proof. intros Ho. eapply wp_step; [by apply protocol_adds_nothing|]. done. Qed.

Lemma unregister_spec r s :
  wp (unregister_registration r) (fun m s' =>
    holds s' ⊆ holds s /\
    match m with
    | Applied _ _ => forall x, x ∈ holds s' -> f64_eq (id r) x = false
    | _ => True
    end) s.
Proof.
  unfold unregister_registration, invoke_operation. apply wp_bind.
  apply invoke_protocol_spec; [done..|]. intros st v e s' cleanup Hc Hfree. apply wp_ret. split.
  { unfold holds. rewrite frees_held by done. by eapply others_add_nothing. }
  case_bool_decide as Hst; [|simpl; by destruct (is_terminal _)]. apply success_raw in Hst as ->. simpl.
  unfold read_applied_bool, read_excel_bool, value_type, and_then.
  destruct (value v) as [x|p|b| |code| | | | | |i| |base] eqn:Hv; simpl; try done.
  destruct (b =? 0) eqn:Hb; simpl; [done|]. intros x Hx. apply frees_held in Hfree.
  eapply unregister_removes; [exact Hc|exact Hv|by apply Z.eqb_neq|by apply Hfree].
Qed.

Lemma delete_name_spec name ids s :
  text name ->
  wp (delete_name_if_binding_matches name ids) (fun _ s' => holds s' ⊆ holds s) s.
Proof.
  intros Ht. eapply wp_step; [by apply registration_id_spec|].
  intros [[r|]|e] s1 [Hs1 _]; [|done..].
  destruct (existsb _ _); [|done]. unfold delete_name, with_arguments.
  rewrite temporaries_one by done. apply wp_bind, wp_lift. destruct (_ <=? _); [|done].
  eapply wp_mono; [by apply operation_adds_nothing|]. intros m s' Hs'. simpl in *. set_unfold. auto.
Qed.

(** [unregister_pending] names what it leaves behind. *)
Definition result_named (o : UnregisterResult) : Prop :=
  entries_named (failed o).*1 /\ debts_named (unregister_debt o).

Lemma push_failed_named p e o :
  named (registration p) -> result_named o -> result_named (push_failed p e o).
Proof.
  intros Hp [Hf Hd]. split; [|done]. unfold entries_named in *. simpl. rewrite fmap_app.
  apply Forall_app. split; [done|]. by apply Forall_singleton.
Qed.

Lemma push_debt_named r e o : named r -> result_named o -> result_named (push_debt (debt_new r e) o).
Proof.
  intros Hr [Hf Hd]. split; [done|]. apply Forall_app. split; [done|]. by apply Forall_singleton.
Qed.

Lemma push_issue_failed c o : failed (push_issue c o) = failed o.
Proof. by destruct c. Qed.

Lemma push_issue_named c o : result_named o -> result_named (push_issue c o).
Proof. by destruct c. Qed.

Lemma push_failed_covers p e o x :
  covered (failed (push_failed p e o)).*1 x <-> covered (failed o).*1 x \/ stands_for x p.
Proof. simpl. rewrite fmap_app, covered_app. simpl. by rewrite covered_one. Qed.

(** Whatever Excel still holds and an entry stood for, a failed entry stands
    for afterwards. *)
Definition sheds (o : UnregisterResult) (l : list PendingRegistration) (s : Callbacks E)
    (o' : UnregisterResult) (s' : Callbacks E) : Prop :=
  holds s' ⊆ holds s /\ result_named o' /\
  forall x, x ∈ holds s' -> covered (failed o).*1 x \/ covered l x -> covered (failed o').*1 x.

Lemma unregister_name_spec p o s :
  named (registration p) -> result_named o ->
  wp (unregister_name p o) (fun o' s' =>
    holds s' ⊆ holds s /\ result_named o' /\ failed o' = failed o) s.
Proof.
  intros Hp Ho. unfold wp, unregister_name. destruct (negb (permits_callbacks s)).
  { split; [done|]. split; [by apply push_debt_named|done]. }
  apply (wp_step _ _ _ _ _ (delete_name_spec _ [id (registration p)] s Hp)).
  intros r s' Hs'. apply wp_ret. split; [done|].
  destruct r; (split; [|simpl; by rewrite ?push_issue_failed]).
  - split; simpl; [rewrite push_issue_failed; apply Ho|destruct cleanup; apply Ho].
  - by apply push_debt_named.
  - by apply push_debt_named.
Qed.

Lemma unregister_one_spec p o s :
  named (registration p) -> result_named o -> wp (unregister_one p o) (sheds o [p] s) s.
Proof.
  intros Hp Ho.
  assert (Hfailed : forall e s', holds s' ⊆ holds s -> sheds o [p] s (push_failed p e o) s').
  { intros e s' Hs'. split; [done|]. split; [by apply push_failed_named|].
    intros x _. rewrite push_failed_covers, covered_one. done. }
  unfold wp, unregister_one. destruct (negb (permits_callbacks s)); [by apply Hfailed|].
  destruct (cleanup_state p) eqn:Hc.
  - apply (wp_step _ _ _ _ _ (unregister_spec (registration p) s)).
    intros r s1 [Hs1 Hr]. destruct r as [v cleanup|error|st error]; [|by apply wp_ret, Hfailed..].
    eapply wp_mono; [by apply unregister_name_spec; [|apply push_issue_named]|].
    intros o' s' (Hs' & Hn & Hf). split; [by trans (holds s1)|]. split; [done|].
    intros x Hx. rewrite Hf, push_issue_failed, covered_one.
    intros [H|[_ Heq]]; [done|]. by rewrite (Hr x (Hs' _ Hx)) in Heq.
  - eapply wp_mono; [by apply unregister_name_spec|].
    intros o' s' (Hs' & Hn & Hf). split; [done|]. split; [done|].
    intros x _. rewrite Hf, covered_one. by intros [H|[H _]]; [|rewrite Hc in H].
  - split; [done|]. split; [done|]. intros x _. rewrite covered_one.
    by intros [H|[H _]]; [|rewrite Hc in H].
Qed.

Lemma unregister_loop_spec l : forall o s,
  entries_named l -> result_named o -> wp (unregister_loop l o) (sheds o l s) s.
Proof.
  induction l as [|p l IH]; intros o s Hl Ho.
  { apply wp_ret. split; [done|]. split; [done|]. intros x _ [?|[]%Exists_nil]. done. }
  apply Forall_cons in Hl as [Hp Hl].
  eapply wp_step; [by apply unregister_one_spec|]. intros o1 s1 (Hs1 & Hn1 & Hc1).
  eapply wp_mono; [by apply IH|]. intros o' s' (Hs' & Hn & Hc).
  split; [by trans (holds s1)|]. split; [done|]. intros x Hx Hcov. apply Hc; [done|].
  unfold covered in Hcov. rewrite Exists_cons in Hcov.
  destruct Hcov as [H|[H|H]]; [left; apply Hc1; [by apply Hs'|]..|by right].
  - by left.
  - right. by apply covered_one.
Qed.

Lemma unregister_pending_spec l s :
  entries_named l ->
  wp (unregister_pending l) (fun o s' =>
    holds s' ⊆ holds s /\ result_named o /\
    forall x, x ∈ holds s' -> covered l x -> covered (failed o).*1 x) s.
Proof.
  intros Hl. eapply wp_mono.
  - apply unregister_loop_spec; [|by split; apply Forall_nil].
    unfold entries_named in *. rewrite Forall_forall in *. intros p Hp. apply Hl.
    by rewrite list_elem_of_In, in_rev, <- list_elem_of_In.
  - intros o s' (Hs & Hn & Hc). split; [done|]. split; [done|].
    intros x Hx Hl'. apply Hc; [done|]. right. by apply covered_rev.
Qed.

(** ** Registration *)
Definition prepared_text (d : PreparedRegistration) : Prop :=
  excel_name_text d = p_excel_name d /\
  Forall text ([export_name_text d; type_text d; excel_name_text d; argument_names d;
                category_text d; help_topic_text d; description_text d] ++ argument_help d).

Lemma temporaries_pointers l ps :
  temporaries l = Done (Ok ps) ->
  Forall2 (fun t p => exists s, t = Done (Ok s) /\ p = pointer s) l ps.
Proof.
  revert ps. induction l as [|t l IH]; intros ps H; simplify_eq/=; [constructor|].
  destruct t as [[s|e]| |]; simplify_eq/=.
  destruct (temporaries l) as [[rest|e]| |]; simplify_eq/=. constructor; [by eexists|by apply IH].
Qed.

Lemma operand_of_temporary name s :
  text name -> temporary_new name = Done (Ok s) -> pointer s = operand name.
Proof. intros Ht. rewrite temporary_new_spec by done. case_match; [|done]. by intros [= <-]. Qed.

Lemma text_nil : text [].
Proof. apply Forall_nil. done. Qed.

Lemma register_arguments_spec u d :
  prepared_text d ->
  exists r, register_arguments u d = Done r /\
    match r with
    | Ok l => l !! 3%nat = Some (operand (p_excel_name d)) /\
              length l = (10 + length (argument_help d))%nat
    | Err _ => True
    end.
Proof.
  intros [Hname Ht]. rewrite Forall_app in Ht. destruct Ht as [Ht Hhelp].
  repeat match goal with H : Forall text (_ :: _) |- _ => apply Forall_cons in H as [? H] end.
  unfold register_arguments.
  match goal with |- context [temporaries (Done ?a :: ?l)] =>
    destruct (temporaries_done (Done a :: l)) as [head Hhead] end.
  { repeat (apply Forall_cons_2; [first [by apply temporary_done|by eexists]|]). apply Forall_nil_2. }
  rewrite Hhead. cbn [obind]. destruct head as [head|e]; [|by eexists].
  match goal with |- context [temporaries (?a ++ ?b)] =>
    destruct (temporaries_done (a ++ b)) as [tail Htail] end.
  { apply Forall_app. split.
    - repeat (apply Forall_cons_2; [apply temporary_done; first [done|apply text_nil]|]).
      apply Forall_nil_2.
    - apply Forall_fmap. eapply Forall_impl; [exact Hhelp|]. intros x. apply temporary_done. }
  rewrite Htail. cbn [obind]. eexists. split; [done|]. destruct tail as [tail|e]; [|done].
  apply temporaries_pointers in Hhead, Htail. split.
  - destruct (Forall2_lookup_l _ _ _ 3 _ Hhead eq_refl) as (p & Hp & s & Hs & ->).
    rewrite lookup_app_l by (by eapply lookup_lt_Some). rewrite Hp. f_equal. rewrite <- Hname.
    by apply operand_of_temporary.
  - rewrite !length_app, <- (Forall2_length _ _ _ Hhead), <- (Forall2_length _ _ _ Htail).
    rewrite length_app, length_fmap. simpl. lia.
Qed.

(** What may be held after [xlfRegister]: a rejection adds nothing; an applied
    call adds the identity it returned; an undecodable success adds what the
    name then evaluates to. *)
Lemma register_spec u d s :
  prepared_text d ->
  wp (register u d) (fun m s' =>
    match m with
    | Applied r _ =>
        registered_name r = p_excel_name d /\
        forall x, x ∈ holds s' -> x ∈ holds s \/ f64_eq (id r) x = true
    | Rejected _ => holds s' ⊆ holds s
    | Indeterminate status _ =>
        is_terminal status = true \/ holds s' ⊆ holds s \/
        exists x, holds s' ⊆ x :: holds s /\ bound (excel s') (operand (p_excel_name d)) = Some x
    end) s.
Proof.
  intros Hd. destruct (register_arguments_spec u d Hd) as ([args|e] & Ha & Hn);
    unfold register, with_arguments; rewrite Ha; apply wp_bind, wp_lift; [|by apply wp_ret].
  destruct Hn as [Hn _]. unfold invoke_operation. apply wp_bind.
  apply invoke_protocol_spec; [intros; apply wp_ret; simpl; set_solver..|]. intros st v e s' cleanup Hc Hfree. apply wp_ret.
  pose proof (frees_held _ _ Hfree) as Hh. pose proof (frees_bound _ _ (operand (p_excel_name d)) Hfree) as Hb.
  destruct (is_terminal (status_from_raw st)) eqn:Hst.
  { rewrite bool_decide_eq_false_2 by (intros H; by rewrite H in Hst). simpl. rewrite Hst. by left. }
  destruct (register_adds_one _ _ _ _ _ _ Hc Hst Hn) as [Hsub|(Hok & x & Hsub & Hx & Hv)].
  - case_bool_decide; simpl; [|rewrite Hst; unfold holds; by trans (held e)].
    assert (holds s' ⊆ holds s) by (unfold holds; by trans (held e)).
    destruct (decode_registration_id _ v) as [r|err] eqn:Hd'; [|by right; left]. split; [|by auto].
    unfold decode_registration_id, and_then in Hd'. repeat case_match; by simplify_eq.
  - rewrite bool_decide_eq_true_2 by done. simpl.
    assert (Hs' : holds s' ⊆ x :: holds s) by (unfold holds; by trans (held e)).
    destruct (decode_registration_id _ v) as [r|err] eqn:Hd'.
    2:{ right. right. exists x. split; [done|]. by rewrite Hb. }
    assert (registered_name r = p_excel_name d /\ value v = ONumber (id r) /\
            valid_registration_id (id r) = true) as (Hr & Hval & Hid).
    { unfold decode_registration_id, and_then, value_type, borrow, f64_from_excel in Hd'.
      destruct (value v) as [y|p|b| |code| | | | | |i| |base] eqn:Hv'; simplify_eq/=.
      destruct (negb _); [done|]. rewrite Hv' in Hd'. destruct (is_finite y); [|done].
      destruct (valid_registration_id y) eqn:Hid; simplify_eq/=. done. }
    split; [done|]. intros y Hy. apply Hs', elem_of_cons in Hy as [->|Hy]; [|by left].
    right. by apply Hv.
Qed.

(** ** Transactions *)
Definition journal_named (j : HostMutationJournal) : Prop :=
  entries_named (pending_registrations j) /\ debts_named (journal_debt j).

(** A journal answers for [x]: by an entry, or by not knowing. *)
Definition answers_for (j : HostMutationJournal) (x : f64) : Prop :=
  covered (pending_registrations j) x \/ is_unknown j = true.

Lemma journal_default_named : journal_named journal_default.
Proof. by split; apply Forall_nil. Qed.

Lemma is_unknown_mark u j : is_unknown (mark_unknown u j) = true.
Proof.
  unfold is_unknown. simpl. rewrite bool_decide_eq_false_2; [done|]. rewrite length_app. simpl. lia.
Qed.

Lemma roll_back_spec l e s :
  entries_named l -> journal_named (journal e) ->
  wp (roll_back l e) (fun e' s' =>
    holds s' ⊆ holds s /\ journal_named (journal e') /\
    forall x, x ∈ holds s' -> answers_for (journal e) x \/ covered l x -> answers_for (journal e') x) s.
Proof.
  intros Hl [Hp Hd]. unfold wp, roll_back. destruct (negb (permits_callbacks s)).
  - split; [done|]. split; [split; [by apply Forall_app|done]|].
    intros x _. unfold answers_for. simpl. rewrite covered_app. tauto.
  - apply (wp_step _ _ _ _ _ (unregister_pending_spec l s Hl)). intros o s' (Hs & [Hf Hu] & Hc).
    apply wp_ret. split; [done|]. split; [split; by apply Forall_app|].
    intros x Hx. specialize (Hc x Hx). unfold answers_for. simpl. rewrite covered_app. tauto.
Qed.

Lemma release_failure_spec r e s :
  named r ->
  wp (registration_release_failure r e) (fun e' s' =>
    holds s' ⊆ holds s /\ journal_named (journal e') /\
    forall x, x ∈ holds s' -> f64_eq (id r) x = true -> answers_for (journal e') x) s.
Proof.
  intros Hr. eapply wp_mono.
  - apply roll_back_spec; [by apply Forall_singleton|apply journal_default_named].
  - intros e' s' (Hs & Hn & Ha). split; [done|]. split; [done|].
    intros x Hx Heq. apply Ha; [done|]. right. by apply covered_one.
Qed.

(** The journal of a failed registration answers for everything new. *)
Definition owes (s : Callbacks E) (e : RegistrationTransactionError) (s' : Callbacks E) : Prop :=
  journal_named (journal e) /\ forall x, x ∈ holds s' -> x ∈ holds s \/ answers_for (journal e) x.

Lemma owes_nothing s e s' : holds s' ⊆ holds s -> owes s (transaction_error e) s'.
Proof. intros Hs. split; [apply journal_default_named|]. intros x Hx. left. by apply Hs. Qed.

Lemma owes_unknown s u e s' :
  journal_named (journal e) -> owes s (on_journal (mark_unknown u) e) s'.
Proof. intros Hn. split; [done|]. intros x _. right. right. apply is_unknown_mark. Qed.

Lemma reconcile_spec d e s s0 :
  text (p_excel_name d) ->
  holds s ⊆ holds s0 \/
    (exists x, holds s ⊆ x :: holds s0 /\ bound (excel s) (operand (p_excel_name d)) = Some x) ->
  wp (reconcile d e) (owes s0) s.
Proof.
  intros Ht Hs. eapply wp_step; [by apply registration_id_spec|]. intros r s1 [Hs1 Hr].
  destruct r as [[r|]|error].
  - destruct Hr as [Hname (x & Hx & Heq)].
    eapply wp_mono; [apply release_failure_spec; unfold named; by rewrite Hname|].
    intros e' s' (Hs' & Hn & Ha). split; [done|]. intros y Hy.
    destruct Hs as [Hs|(x' & Hs & Hx')]; [left; by apply Hs, Hs1, Hs'|].
    assert (x' = x) as -> by congruence.
    destruct (proj1 (elem_of_cons _ _ _) (Hs _ (Hs1 _ (Hs' _ Hy)))) as [->|Hy']; [|by left].
    right. by apply Ha.
  - destruct Hs as [Hs|(x' & _ & Hx')]; [|congruence]. apply wp_ret, owes_nothing. by trans (holds s).
  - apply wp_ret, owes_unknown, journal_default_named.
Qed.

Definition registers_one (d : PreparedRegistration) (s : Callbacks E)
    (r : result RegistrationId RegistrationTransactionError) (s' : Callbacks E) : Prop :=
  match r with
  | Ok r =>
      registered_name r = p_excel_name d /\
      forall x, x ∈ holds s' -> x ∈ holds s \/ f64_eq (id r) x = true
  | Err e => owes s e s'
  end.

Lemma prepared_name_text d : prepared_text d -> text (p_excel_name d).
Proof.
  intros [Hname Ht]. rewrite <- Hname. rewrite Forall_forall in Ht. apply Ht.
  apply elem_of_app. left. do 2 apply elem_of_cons, or_intror. apply elem_of_cons. by left.
Qed.

Lemma register_one_spec u d s : prepared_text d -> wp (register_one u d) (registers_one d s) s.
Proof.
  intros Hd. pose proof (prepared_name_text d Hd) as Ht.
  eapply wp_step; [by apply is_registered_name_spec|]. intros taken s1 Hs1.
  destruct taken as [[]|e]; [by apply wp_ret, owes_nothing| |by apply wp_ret, owes_nothing].
  eapply wp_step; [by apply register_spec|]. intros m s2 Hm.
  assert (Hnew : forall r x, x ∈ holds s1 \/ f64_eq (id r) x = true ->
    x ∈ holds s \/ f64_eq (id r) x = true) by (intros r x [H|H]; [left; by apply Hs1|by right]).
  destruct m as [r [[]|e]|e|status e].
  - apply wp_ret. destruct Hm as [Hr Hm]. split; [done|]. intros x Hx. by apply Hnew, Hm.
  - destruct Hm as [Hr Hm]. eapply wp_step; [apply release_failure_spec; unfold named; by rewrite Hr|].
    intros e' s' (Hs' & Hn & Ha). apply wp_ret. split; [done|]. intros x Hx.
    destruct (Hnew r x (Hm x (Hs' _ Hx))) as [H|H]; [by left|right; by apply Ha].
  - apply wp_ret, owes_nothing. by trans (holds s1).
  - destruct (is_terminal status); [apply wp_ret, owes_unknown, journal_default_named|].
    eapply wp_step; [apply reconcile_spec; [done|]|intros e' s' H; apply wp_ret; exact H].
    destruct Hm as [Hm|[Hm|(x & Hm & Hx)]]; [done|left; by trans (holds s1)|right].
    exists x. split; [|done]. intros y Hy. destruct (proj1 (elem_of_cons _ _ _) (Hm _ Hy)) as [->|H].
    + apply elem_of_cons. by left.
    + apply elem_of_cons. right. by apply Hs1.
Qed.

(** The transaction registers all of its functions, or its journal answers for
    whatever is left of them. *)
Definition registers_all (l : list PreparedRegistration) (s : Callbacks E)
    (r : result (list RegistrationId) RegistrationTransactionError) (s' : Callbacks E) : Prop :=
  match r with
  | Ok ids =>
      registered_name <$> ids = p_excel_name <$> l /\
      forall x, x ∈ holds s' -> x ∈ holds s \/ covered (pending_from <$> ids) x
  | Err e => owes s e s'
  end.

Lemma covered_pending_from r x : covered [pending_from r] x <-> f64_eq (id r) x = true.
Proof. rewrite covered_one. unfold stands_for. simpl. tauto. Qed.

Lemma register_loop_spec u l : forall done_ reg s0 s,
  Forall prepared_text l -> registered_name <$> reg = p_excel_name <$> done_ ->
  Forall named reg ->
  (forall x, x ∈ holds s -> x ∈ holds s0 \/ covered (pending_from <$> reg) x) ->
  wp (register_loop u l reg) (registers_all (done_ ++ l) s0) s.
Proof.
  induction l as [|d l IH]; intros done_ reg s0 s Hl Hnames Hreg Hs.
  { apply wp_ret. rewrite app_nil_r. by split. }
  apply Forall_cons in Hl as [Hd Hl].
  eapply wp_step; [by apply register_one_spec|]. intros [r|e] s1 H1.
  - destruct H1 as [Hr H1].
    change (wp (register_loop u l (reg ++ [r])) (registers_all (done_ ++ d :: l) s0) s1).
    rewrite (cons_middle d done_ l), app_assoc. apply IH; [done| | |].
    + rewrite !fmap_app, Hnames. simpl. by rewrite Hr.
    + apply Forall_app. split; [done|]. apply Forall_singleton. unfold named. rewrite Hr.
      by apply prepared_name_text.
    + intros x Hx. rewrite fmap_app, covered_app.
      destruct (H1 x Hx) as [H|H]; [|right; right; by apply covered_pending_from].
      destruct (Hs x H); auto.
  - destruct H1 as [Hn H1]. eapply wp_step; [apply roll_back_spec; [|done]|].
    { apply Forall_fmap. eapply Forall_impl; [exact Hreg|done]. }
    intros e' s' (Hs' & Hn' & Ha). apply wp_ret. split; [done|]. intros x Hx.
    destruct (H1 x (Hs' _ Hx)) as [H|H]; [|right; apply Ha; [done|by left]].
    destruct (Hs x H) as [H'|H']; [by left|right; apply Ha; [done|by right]].
Qed.

Lemma register_all_spec u l s :
  Forall prepared_text l -> wp (register_all u l) (registers_all l s) s.
Proof.
  intros Hl. apply (register_loop_spec u l [] [] s s Hl eq_refl); [by apply Forall_nil|auto].
Qed.

End Accounts.
End RegistrationAccounts.
