(* ===== verification/PreflightTheorems.v ===== *)
(** * Theorems about preflight

    What an accepted list of descriptors guarantees before Excel is called:
    the type text is read back as the signature, names are valid and distinct,
    and every operand of [xlfRegister] can be encoded. *)

From S2P Require Import Prelude SealableCounter Names Errors Utf16 Dates HostCalls Preflight RegistrationHost Registration RegistrationHostSpecs RegistrationAccounts.
Import Str StrLemmas Modes FunctionNameSpec NameLemmas Errors Utf16Std Utf16 Utf16Lemmas F64 HostCalls HostSession Preflight RegistrationHost Registration RegistrationHostSpecs RegistrationAccounts.

Local Open Scope Z_scope.

Module PreflightTheorems.

(** ** Reading a type text back *)
Fixpoint parse_arguments (t : str) : list ArgumentAbi * str :=
  let one a t := let '(l, rest) := parse_arguments t in (a :: l, rest) in
  match t with
  | 81 :: t => one Value12 t
  | 85 :: t => one Reference12 t
  | 66 :: t => one Float64 t
  | 65 :: t => one Boolean16 t
  | 74 :: t => one Integer32 t
  | 68 :: 37 :: t => one CountedUtf16 t
  | 75 :: 37 :: t => one NumericArray12 t
  | t => ([], t)
  end.

(** The modifiers after the arguments: kind of execution, volatility. *)
Definition parse_modifiers (async : bool) (t : str) : option (ExecutionKind * bool) :=
  match async, t with
  | true, [88; 36] => Some (Async, false)
  | true, [88; 36; 33] => Some (Async, true)
  | false, [] => Some (MainThread, false)
  | false, [33] => Some (MainThread, true)
  | false, [36] => Some (ThreadSafe, false)
  | false, [36; 33] => Some (ThreadSafe, true)
  | false, [35] => Some (MacroSheet, false)
  | false, [35; 33] => Some (MacroSheet, true)
  | _, _ => None
  end.

Definition parse_signature (t : str) : option RegistrationSignature :=
  let rest async r t :=
    let '(l, t) := parse_arguments t in
    match parse_modifiers async t with
    | Some (k, v) => Some (Signature k l r v)
    | None => None
    end in
  match t with
  | 62 :: t => rest true RValue12 t
  | 81 :: t => rest false RValue12 t
  | 75 :: 37 :: t => rest false RNumericArray12 t
  | _ => None
  end.

(** No argument code starts here. *)
Definition no_code (t : str) : bool :=
  match t with
  | [] => true
  | c :: _ => (c =? 88) || (c =? 35) || (c =? 36) || (c =? 33)
  end.

Lemma parse_arguments_codes l t :
  no_code t = true -> parse_arguments ((l ≫= registration_code) ++ t) = (l, t).
Proof.
  intros Ht. induction l as [|a l IH].
  - destruct t as [|c t]; [done|]. simpl in Ht. rewrite !orb_true_iff, !Z.eqb_eq in Ht.
    by destruct Ht as [[[->| ->]| ->]| ->].
  - change ((a :: l) ≫= registration_code) with (registration_code a ++ (l ≫= registration_code)).
    rewrite <- app_assoc. destruct a; simpl; by rewrite IH.
Qed.

(** C39: A validated signature and its type text determine each other: reading
    the text back, argument by argument and modifier by modifier, gives the
    signature, so Excel cannot take the text for another signature. *)
Theorem type_text_roundtrip s :
  try_from s = Ok s -> parse_signature (encode s) = Some s.
Proof.
  unfold try_from. destruct (validate s) eqn:Hv; [|done]. intros _.
  destruct s as [kind l r v]. unfold validate in Hv. simpl in Hv.
  destruct (_ || bool_decide (r = RNumericArray12) && is_async kind) eqn:Hr; [done|].
  apply orb_false_elim in Hr as [_ Hr].
  assert (r = RValue12 \/ kind <> Async) as Hasync.
  { destruct r; [by left|]. destruct kind; [by right..|]. done. }
  unfold encode, parse_signature. simpl.
  destruct kind, r; try (by destruct Hasync); destruct v; simpl;
    rewrite parse_arguments_codes by done; done.
Qed.

(** ** Accepted descriptors *)
Definition descriptor_text (d : RegistrationDescriptor) : Prop :=
  Forall text ([export_name d; excel_name d; category d; description d; help_topic d]
    ++ (argument_name <$> arguments d) ++ (argument_description <$> arguments d)).

Lemma validate_function_name_done name :
  exists r, FunctionName.validate_function_name name = Done r.
Proof.
  unfold FunctionName.validate_function_name. destruct name as [|c name]; [by eexists|].
  repeat (case_match; [by eexists|]).
  destruct (is_a1_reference_spec (c :: name)) as ([] & -> & _); [by eexists|].
  destruct (is_r1c1_reference_spec (c :: name)) as (b & -> & _). by eexists.
Qed.

(** What [validate_descriptors] has checked of one descriptor. *)
Definition accepted (pw : pointer_width) (d : RegistrationDescriptor) (s : RegistrationSignature)
  : Prop :=
  s = signature d /\ try_from s = Ok s /\ export_name d <> [] /\
  FunctionName.validate_function_name (excel_name d) = Done (Ok tt) /\
  ArgumentName.validate_argument_names pw (argument_name <$> arguments d) = Ok tt /\
  Z.of_nat (length (arguments d)) <= max_excel_function_arguments (execution s) /\
  length (abi_arguments s) = length (arguments d).

Lemma is_err_false {T} (r : result unit T) : is_err r = false -> r = Ok tt.
Proof. by destruct r as [[]|]. Qed.

Lemma validate_descriptors_spec pw : forall ds exports names,
  exists r, validate_descriptors_from pw exports names ds = Done r /\
    match r with
    | Ok sigs =>
        Forall2 (accepted pw) ds sigs /\
        NoDup (ExcelNameKey <$> (excel_name <$> ds)) /\
        NoDup (ExcelNameKey <$> (export_name <$> ds)) /\
        (forall k, k ∈ ExcelNameKey <$> (excel_name <$> ds) -> k ∉ names) /\
        (forall k, k ∈ ExcelNameKey <$> (export_name <$> ds) -> k ∉ exports)
    | Err _ => True
    end.
Proof.
  induction ds as [|d ds IH]; intros exports names.
  { eexists. split; [done|]. split; [constructor|]. repeat split; try constructor;
      by intros k ?%elem_of_nil. }
  simpl. case_bool_decide as Hexport; [by eexists|].
  destruct (validate_function_name_done (excel_name d)) as [rn Hrn]. rewrite Hrn. simpl.
  match goal with |- context [if ?b then _ else _] => destruct b eqn:Hb end; [by eexists|].
  rewrite !orb_false_iff in Hb. destruct Hb as [[[[[Hn Hmax] Ha] Hexp] Hexc] Hlen].
  destruct (try_from (signature d)) as [s|e] eqn:Hs; [|by eexists].
  assert (s = signature d) as -> by (unfold try_from in Hs; destruct (validate _); by simplify_eq).
  destruct (IH (ExcelNameKey (export_name d) :: exports) (ExcelNameKey (excel_name d) :: names))
    as ([sigs|e] & -> & Hrest); simpl; [|by eexists].
  destruct Hrest as (Hf & Hn1 & Hn2 & Hk1 & Hk2).
  apply is_err_false in Hn as ->. apply is_err_false in Ha. apply Z.ltb_ge in Hmax.
  apply bool_decide_eq_false in Hexp, Hexc. apply negb_false_iff, Nat.eqb_eq in Hlen.
  eexists. split; [done|]. split; [by constructor|].
  split; [|split; [|split]].
  - constructor; [|done]. intros Hin. apply Hk1 in Hin. apply not_elem_of_cons in Hin as [? _]. done.
  - constructor; [|done]. intros Hin. apply Hk2 in Hin. apply not_elem_of_cons in Hin as [? _]. done.
  - intros k [->|Hin]%elem_of_cons; [done|]. apply Hk1 in Hin. by apply not_elem_of_cons in Hin as [_ ?].
  - intros k [->|Hin]%elem_of_cons; [done|]. apply Hk2 in Hin. by apply not_elem_of_cons in Hin as [_ ?].
Qed.

(** ** Prepared registrations *)
Definition fits (s : str) : Prop := utf16_count s <= EXCEL_STRING_LIMIT.

Lemma validate_all_spec l : validate_all l = Ok tt -> Forall fits l.
Proof.
  induction l as [|s l IH]; simpl; [constructor|].
  unfold validate_excel_string, ExcelString.validate_excel_string.
  destruct (EXCEL_STRING_LIMIT <? utf16_count s) eqn:Hs; [done|].
  destruct (contains _ s); [done|]. intros H. constructor; [by apply Z.ltb_ge|by apply IH].
Qed.

Lemma join_names_join names : join_names true names = join names.
Proof.
  assert (forall l n, n ++ join_names false l = join (n :: l)) as H.
  { induction l as [|m l IH]; intros n; [by rewrite app_nil_r|].
    change (join (n :: m :: l)) with (n ++ 44 :: join (m :: l)). by rewrite <- IH. }
  destruct names as [|n names]; [done|]. apply H.
Qed.

Lemma text_app a b : text (a ++ b) <-> text a /\ text b.
Proof. apply Forall_app. Qed.

Lemma text_join names : Forall text names -> text (join names).
Proof.
  induction 1 as [|n [|m names] Hn _ IH]; [by apply text_nil|done|].
  change (join (n :: m :: names)) with (n ++ [44] ++ join (m :: names)).
  rewrite !text_app. split; [done|]. split; [|done]. by apply Forall_singleton.
Qed.

Lemma text_lit (t : str) : forallb is_scalar t = true -> text t.
Proof. apply forallb_Forall. Qed.

Lemma text_encode s : text (encode s).
Proof.
  assert (text (abi_arguments s ≫= registration_code)) as Ha.
  { induction (abi_arguments s) as [|a l IH]; [apply text_nil|].
    change ((a :: l) ≫= registration_code) with (registration_code a ++ (l ≫= registration_code)).
    apply text_app. split; [|done]. apply text_lit. by destruct a. }
  unfold encode. rewrite !text_app.
  destruct (execution s), (return_abi s), (volatile s); repeat split; first [exact Ha|by apply text_lit].
Qed.

Definition prepared_from (index : nat) (d : RegistrationDescriptor) (s : RegistrationSignature)
    (p : PreparedRegistration) : Prop :=
  descriptor_index p = index /\ p_excel_name p = excel_name d /\ p_export_name p = export_name d /\
  p_signature p = s /\ type_text p = encode s /\
  argument_names p = join (argument_name <$> arguments d) /\
  prepared_text p /\ (length (argument_help p) <= 245)%nat /\
  Forall fits ([export_name_text p; type_text p; excel_name_text p; argument_names p; category_text p;
                help_topic_text p; description_text p] ++ argument_help p).

Lemma help_entries_spec l :
  (length (help_entries l) <= 245)%nat /\
  forall (P : str -> Prop), P [] -> Forall P (argument_description <$> l) -> Forall P (help_entries l).
Proof.
  unfold help_entries, MAX_REGISTER_ARGUMENT_HELP_ENTRIES. cbv zeta. split.
  - case_bool_decide; rewrite ?length_app, length_fmap, length_take; simpl; lia.
  - intros P Hnil Hl.
    assert (Forall P (argument_description <$> take (Nat.min (length l) 244) l)) as Ht.
    { rewrite fmap_take. by apply Forall_take. }
    case_bool_decide; [done|]. apply Forall_app. split; [done|]. by apply Forall_singleton.
Qed.

Lemma descriptions_of {A} (P : str -> Prop) (f g : A -> str) (l : list A) :
  Forall P (l ≫= (fun a => [f a; g a])) -> Forall P (g <$> l).
Proof.
  induction l as [|a l IH]; simpl; [constructor|]. intros [_ [Hg H]%Forall_cons]%Forall_cons.
  constructor; [done|by apply IH].
Qed.

Lemma prepare_spec index d s p :
  descriptor_text d -> prepare index d s = Ok p -> prepared_from index d s p.
Proof.
  unfold descriptor_text. rewrite !Forall_app. intros (Hd & Hnames & Hdesc) Hp. unfold prepare in Hp.
  destruct (validate_all (_ ++ _)) as [[]|e] eqn:Hv; [|done].
  apply validate_all_spec, Forall_app in Hv as [Hv Hargs].
  match type of Hp with context [validate_all [?a; ?b]] =>
    destruct (validate_all [a; b]) as [[]|e] eqn:Hw; [|done];
    assert (Hn : a = join (argument_name <$> arguments d)) end.
  { destruct (arguments d) as [|a [|b l]]; [done..|]. apply join_names_join. }
  apply validate_all_spec in Hw. rewrite Hn in Hw, Hp. clear Hn. injection Hp as <-.
  destruct (help_entries_spec (arguments d)) as [Hlen Hhelp].
  repeat match goal with H : Forall _ (_ :: _) |- _ => apply Forall_cons in H as [? H] end.
  split; [done|]. do 5 (split; [done|]). split; [|split; [done|]].
  - split; [done|]. simpl. repeat (apply Forall_cons_2; [first [done|apply text_encode|by apply text_join]|]).
    by apply Hhelp; [apply text_nil|].
  - simpl. repeat (apply Forall_cons_2; [done|]). apply Hhelp; [done|].
    by eapply descriptions_of.
Qed.

Lemma prepare_all_spec l : forall index ps,
  Forall (fun x => descriptor_text x.1) l -> prepare_all index l = Ok ps ->
  Forall2 (fun x p => exists i, prepared_from i x.1 x.2 p) l ps.
Proof.
  induction l as [|[d s] l IH]; intros index ps Ht Hp; simpl in Hp; [by simplify_eq|].
  apply Forall_cons in Ht as [Hd Ht].
  destruct (prepare index d s) as [p|e] eqn:Hprep; [|done].
  destruct (prepare_all (S index) l) as [ps'|e] eqn:Hrest; simplify_eq.
  constructor; [exists index; by apply prepare_spec|by eapply IH].
Qed.

Lemma preflight_done pw ds : exists r, preflight_registration pw ds = Done r.
Proof.
  unfold preflight_registration, validate_descriptors.
  destruct (validate_descriptors_spec pw ds [] []) as (r & -> & _). by eexists.
Qed.

(** An accepted list, one descriptor at a time. *)
Lemma preflight_spec pw ds ps :
  Forall descriptor_text ds -> preflight_registration pw ds = Done (Ok ps) ->
  NoDup (ExcelNameKey <$> (excel_name <$> ds)) /\ NoDup (ExcelNameKey <$> (export_name <$> ds)) /\
  Forall2 (fun d p => accepted pw d (p_signature p) /\ exists i, prepared_from i d (p_signature p) p) ds ps.
Proof.
  intros Ht Hp. unfold preflight_registration, validate_descriptors in Hp.
  destruct (validate_descriptors_spec pw ds [] []) as (r & Hr & Hspec). rewrite Hr in Hp. simpl in Hp.
  destruct r as [sigs|e]; [|done]. destruct Hspec as (Hf & H1 & H2 & _).
  split; [done|]. split; [done|]. injection Hp as Hp.
  apply prepare_all_spec in Hp.
  - clear Hr H1 H2 Ht. revert ps Hp. induction Hf as [|d s ds sigs Hd Hf IH]; intros ps Hp;
      apply Forall2_cons_inv_l in Hp || (apply Forall2_nil_inv_l in Hp as ->; constructor).
    destruct Hp as (p & ps' & (i & Hi) & Hps & ->). simpl in Hi.
    assert (p_signature p = s) as Hs by apply Hi. constructor; [|by apply IH].
    rewrite Hs. split; [done|by exists i].
  - clear -Ht. revert sigs. induction Ht as [|d ds Hd Ht IH]; intros sigs; [constructor|].
    destruct sigs as [|s sigs]; simpl; constructor; [done|apply IH].
Qed.

Lemma temporaries_succeed l :
  Forall (fun t => exists s, t = Done (Ok s)) l -> exists ps, temporaries l = Done (Ok ps).
Proof.
  induction 1 as [|t l [s ->] _ [ps IH]]; [by eexists|]. simpl. rewrite IH. by eexists.
Qed.

Lemma temporary_fits s : text s -> fits s -> exists t, temporary_new s = Done (Ok t).
Proof.
  intros Ht Hs. rewrite temporary_new_spec by done. rewrite (proj2 (Z.leb_le _ _)) by done.
  by eexists.
Qed.

Lemma register_arguments_succeed units p :
  prepared_text p ->
  Forall fits ([export_name_text p; type_text p; excel_name_text p; argument_names p; category_text p;
                help_topic_text p; description_text p] ++ argument_help p) ->
  Z.of_nat (length units) <= EXCEL_STRING_LIMIT ->
  exists l, register_arguments units p = Done (Ok l).
Proof.
  intros [_ Ht] Hf Hu. rewrite Forall_app in Ht, Hf. destruct Ht as [Ht Hth], Hf as [Hf Hfh].
  repeat match goal with H : Forall _ (_ :: _) |- _ => apply Forall_cons in H as [? H] end.
  unfold register_arguments.
  match goal with |- context [temporaries (Done ?a :: ?l)] =>
    destruct (temporaries_succeed (Done a :: l)) as [head ->] end.
  { repeat (apply Forall_cons_2; [first [by apply temporary_fits|idtac]|]); [|apply Forall_nil_2].
    unfold from_units. rewrite (proj2 (Z.ltb_ge _ _)) by done. by eexists. }
  cbn [obind].
  match goal with |- context [temporaries (?a ++ ?b)] =>
    destruct (temporaries_succeed (a ++ b)) as [tail ->]; [|by eexists] end.
  apply Forall_app. split.
  - repeat (apply Forall_cons_2; [first [by apply temporary_fits
      |apply temporary_fits; [apply text_nil|done]]|]). apply Forall_nil_2.
  - apply Forall_fmap. rewrite Forall_forall in *. intros t Hin. apply temporary_fits; auto.
Qed.

(** C36: A list of descriptors that preflight accepts, which never panics, can
    be registered: the prepared registrations are those of the descriptors, in
    order, under valid names that differ in more than ASCII case; and for each
    of them every operand of [xlfRegister] can be encoded, at most 255 in
    number, so no local failure is left to occur between Excel's calls. *)
Theorem accepted_descriptors_can_be_registered pw ds :
  Forall descriptor_text ds ->
  exists r, preflight_registration pw ds = Done r /\
    forall ps, r = Ok ps ->
      p_excel_name <$> ps = excel_name <$> ds /\
      NoDup (ExcelNameKey <$> (p_excel_name <$> ps)) /\
      Forall (fun p => FunctionName.validate_function_name (p_excel_name p) = Done (Ok tt)) ps /\
      forall p units, p ∈ ps -> Z.of_nat (length units) <= EXCEL_STRING_LIMIT ->
        exists args, register_arguments units p = Done (Ok args) /\ (length args <= 255)%nat.
Proof.
  intros Ht. destruct (preflight_done pw ds) as [r Hr]. exists r. split; [done|]. intros ps ->.
  destruct (preflight_spec pw ds ps Ht Hr) as (Hn & _ & Hf).
  assert (p_excel_name <$> ps = excel_name <$> ds) as Hnames.
  { clear -Hf. induction Hf as [|d p ds ps (_ & i & _ & Hp & _) _ IH]; [done|].
    by rewrite !fmap_cons, Hp, IH. }
  split; [done|]. split; [by rewrite Hnames|].
  assert (forall p, p ∈ ps -> exists d i, accepted pw d (p_signature p) /\
    prepared_from i d (p_signature p) p) as Hin.
  { intros p [k Hk]%list_elem_of_lookup. destruct (Forall2_lookup_r _ _ _ _ _ Hf Hk)
      as (d & _ & Ha & i & Hp). by exists d, i. }
  split.
  - apply Forall_forall. intros p Hp. destruct (Hin p Hp) as (d & i & Ha & _ & -> & _). apply Ha.
  - intros p units Hp Hu. destruct (Hin p Hp) as (d & i & _ & _ & _ & _ & _ & _ & _ & Htext & Hh & Hfit).
    destruct (register_arguments_succeed units p Htext Hfit Hu) as [l Hl].
    exists l. split; [done|].
    destruct (register_arguments_spec units p Htext) as (r & Hr' & Hlen).
    rewrite Hl in Hr'. injection Hr' as <-. destruct Hlen as [_ ->]. lia.
Qed.

(** ** Witnesses *)
Definition example_signature : RegistrationSignature :=
  Signature ThreadSafe [Float64; NumericArray12] RNumericArray12 true.

Lemma type_text_roundtrip_witness :
  encode example_signature = lit "K%BK%$!" /\
  parse_signature (lit "K%BK%$!") = Some example_signature.
Proof.
  split; [by vm_compute|]. apply (type_text_roundtrip example_signature). by vm_compute.
Defined.

Definition example_descriptors : list RegistrationDescriptor :=
  [Descriptor (lit "price_export") (lit "PRICE") example_signature (lit "Rates") (lit "A price.") []
     Public [Argument (lit "rate") (lit "The rate."); Argument (lit "curve") (lit "Its curve.")];
   Descriptor (lit "now_export") (lit "NOW.LIVE") (Signature Async [] RValue12 false) (lit "Rates") []
     [] Hidden []].

Lemma accepted_descriptors_can_be_registered_witness :
  exists ps, preflight_registration W64 example_descriptors = Done (Ok ps) /\
    p_excel_name <$> ps = [lit "PRICE"; lit "NOW.LIVE"] /\
    forall p, p ∈ ps -> exists args, register_arguments [67] p = Done (Ok args).
Proof.
  destruct (accepted_descriptors_can_be_registered W64 example_descriptors) as (r & Hr & H).
  - repeat (apply Forall_cons_2; [by repeat (apply Forall_cons_2; [by apply text_lit|]); apply Forall_nil_2|]). apply Forall_nil_2.
  - destruct r as [ps|e]; [|by vm_compute in Hr]. exists ps. split; [done|].
    destruct (H ps eq_refl) as (Hn & _ & _ & Ha). split; [exact Hn|].
    intros p Hp. destruct (Ha p [67] Hp) as (args & Hargs & _); [done|]. by exists args.
Defined.

End PreflightTheorems.
