(* ===== verification/RegistrationMachine.v ===== *)
(** * The ledger over the life of the process

    Entry points of the add-in register, merge journals, and clean up; each
    uses a session of its own and the ledger of runtime_components/
    host_ledger.rs.  Claims move debts out of the ledger while Excel is called;
    other operations may come in between, and a claim can be lost to a panic. *)

From stdpp Require Import sorting.
From S2P Require Import Prelude SealableCounter Names Errors Utf16 Dates HostCalls Preflight RegistrationHost Registration RegistrationHostSpecs RegistrationAccounts PreflightTheorems.
Import Str Modes Errors Utf16Std Utf16 Utf16Lemmas F64 HostCalls HostSession Preflight RegistrationHost Registration RegistrationHostSpecs RegistrationAccounts PreflightTheorems.

Local Open Scope Z_scope.

Module RegistrationMachine.

(** [RegistrationCleanupClaim] and [MetadataCleanupClaim], before and after
    Excel was called; a lost claim was forgotten or unwound after that. *)
Inductive claim : Type :=
| CleanupClaim (l : list PendingRegistration)
| CleanupDone (o : UnregisterResult)
| CleanupLost
| MetadataClaim (l : list (str * list MetadataDebt))
| MetadataDone (o : MetadataDebtRetryResult)
| MetadataLost
| Finished.

Record world (E : Type) : Type := World {
  ledger : HostLedgerState;
  host : E;
  journals : list HostMutationJournal;
  claims : list claim;
}.
Arguments World {E} _ _ _ _.
Arguments ledger {E} _.
Arguments host {E} _.
Arguments journals {E} _.
Arguments claims {E} _.

(** The calls; each that reaches Excel brings its session. *)
Inductive action : Type :=
| Open (pw : pointer_width) (c : HostCallbackState) (module_units : list Z)
    (l : list RegistrationDescriptor)
| Stage (i j : nat)
| Merge (i : nat)
| ClaimCleanup
| ExecuteCleanup (k : nat) (c : HostCallbackState)
| FinishCleanup (k : nat)
| ClaimMetadata
| ExecuteMetadata (k : nat) (c : HostCallbackState)
| FinishMetadata (k : nat)
| DropClaim (k : nat)
| LoseClaim (k : nat).

Section Machine.
Context {E : Type} {X : Excel E}.

Abbreviation effect := (outcome (option (world E))).

Definition set_ledger (l : HostLedgerState) (w : world E) : world E :=
  World l (host w) (journals w) (claims w).
Definition set_host (e : E) (w : world E) : world E :=
  World (ledger w) e (journals w) (claims w).
Definition set_journals (l : list HostMutationJournal) (w : world E) : world E :=
  World (ledger w) (host w) l (claims w).
Definition set_claim (k : nat) (c : claim) (w : world E) : world E :=
  World (ledger w) (host w) (journals w) (<[k := c]> (claims w)).
Definition add_claim (c : claim) (w : world E) : world E :=
  World (ledger w) (host w) (journals w) (claims w ++ [c]).

(** Calls Excel in the session [c]. *)
Definition in_session {A} (c : HostCallbackState) (m : M E A) (w : world E)
    (k : A -> world E -> effect) : effect :=
  let* (a, s) := m (Calls c (host w)) in k a (set_host (excel s) w).

(** The registration part of [xlAutoOpen]: what was registered, or is owed,
    becomes a journal of the transaction. *)
Definition open_functions (pw : pointer_width) (c : HostCallbackState) (module_units : list Z)
    (l : list RegistrationDescriptor) (w : world E) : effect :=
  let* prepared := preflight_registration pw l in
  match prepared with
  | Err _ => Done (Some w)
  | Ok ps =>
      in_session c (register_all module_units ps) w (fun r w =>
        Done (Some (set_journals
          (journals w ++ [match r with Ok ids => into_journal ids | Err e => journal e end]) w)))
  end.

Definition perform (a : action) (w : world E) : effect :=
  match a with
  | Open pw c units l => open_functions pw c units l w
  | Stage i j =>
      match journals w !! i, journals w !! j with
      | Some a, Some b =>
          if Nat.eqb i j then Done None
          else Done (Some (set_journals
                 (<[i := journal_merge a b]> (<[j := journal_default]> (journals w))) w))
      | _, _ => Done None
      end
  | Merge i =>
      match journals w !! i with
      | Some j =>
          Done (Some (set_ledger (merge j (ledger w))
                        (set_journals (<[i := journal_default]> (journals w)) w)))
      | None => Done None
      end
  | ClaimCleanup =>
      match claim_cleanup (ledger w) with
      | Ok (l, s) => Done (Some (add_claim (CleanupClaim l) (set_ledger s w)))
      | Err _ => Done None
      end
  | ExecuteCleanup k c =>
      match claims w !! k with
      | Some (CleanupClaim l) =>
          in_session c (unregister_pending l) w (fun o w => Done (Some (set_claim k (CleanupDone o) w)))
      | _ => Done None
      end
  | FinishCleanup k =>
      match claims w !! k with
      | Some (CleanupDone o) =>
          Done (Some (set_claim k Finished (set_ledger (finish_cleanup o (ledger w)) w)))
      | _ => Done None
      end
  | ClaimMetadata =>
      match claim_metadata (ledger w) with
      | Ok (m, s) => Done (Some (add_claim (MetadataClaim (in_key_order m)) (set_ledger s w)))
      | Err _ => Done None
      end
  | ExecuteMetadata k c =>
      match claims w !! k with
      | Some (MetadataClaim l) =>
          in_session c (retry_metadata_debt_with_host l) w (fun o w =>
            Done (Some (set_claim k (MetadataDone o) w)))
      | _ => Done None
      end
  | FinishMetadata k =>
      match claims w !! k with
      | Some (MetadataDone o) =>
          Done (Some (set_claim k Finished
                        (set_ledger (restore_metadata (remaining o) (ledger w)) w)))
      | _ => Done None
      end
  | DropClaim k =>
      match claims w !! k with
      | Some (CleanupClaim l) =>
          Done (Some (set_claim k Finished (set_ledger (restore_cleanup l (ledger w)) w)))
      | Some (MetadataClaim l) =>
          Done (Some (set_claim k Finished (set_ledger (restore_metadata l (ledger w)) w)))
      | _ => Done None
      end
  | LoseClaim k =>
      match claims w !! k with
      | Some (CleanupClaim _ | CleanupDone _) => Done (Some (set_claim k CleanupLost w))
      | Some (MetadataClaim _ | MetadataDone _) => Done (Some (set_claim k MetadataLost w))
      | _ => Done None
      end
  end.

(** Descriptors are made of Rust strings. *)
Definition allowed (a : action) : Prop :=
  match a with Open _ _ _ l => Forall descriptor_text l | _ => True end.

Definition steps (w w' : world E) : Prop := exists a, allowed a /\ perform a w = Done (Some w').

Definition initial (e : E) : world E := World ledger_new e [] [].

Definition reachable (e : E) (w : world E) : Prop := rtc steps (initial e) w.

End Machine.

(** ** Metadata never adds a registration *)
Section Invariant.
Context {E : Type} {X : Excel E} {C : ExcelContract E}.

Definition buckets_named (l : list (str * list MetadataDebt)) : Prop :=
  Forall (fun b => debts_named b.2) l.

Lemma retry_failed_named e b : debts_named b -> debts_named (retry_failed e <$> b).
Proof. intros Hb. apply Forall_fmap. eapply Forall_impl; [exact Hb|done]. Qed.

Lemma retry_loop_spec l : forall o s,
  buckets_named l -> buckets_named (remaining o) ->
  wp (retry_loop l o) (fun o' s' => holds s' ⊆ holds s /\ buckets_named (remaining o')) s.
Proof.
  induction l as [|[k [|d b]] l IH]; intros o s Hl Ho; [by apply wp_ret| |];
    apply Forall_cons in Hl as [Hb Hl]; [by apply IH|].
  assert (named (debt_registration d)) as Hd by (by apply Forall_cons in Hb as [? _]).
  unfold wp. simpl. destruct (negb (permits_callbacks s)).
  { split; [done|]. apply Forall_app. split; [done|by constructor]. }
  apply (wp_step _ _ _ _ _ (delete_name_spec _ _ s Hd)). intros m s1 Hs1.
  assert (Hstop : forall error, buckets_named (remaining o ++ [(k, retry_failed error <$> d :: b)])).
  { intros error. apply Forall_app. split; [done|]. apply Forall_singleton. by apply retry_failed_named. }
  destruct m as [v cleanup|error|st error].
  - eapply wp_mono; [by apply IH|]. intros o' s' [Hs' Hn]. split; [by trans (holds s1)|done].
  - unfold wp. destruct (negb (permits_callbacks s1)); [split; [done|apply Forall_app; split; [apply Hstop|done]]|].
    eapply wp_mono; [apply IH; [done|apply Hstop]|]. intros o' s' [Hs' Hn]. split; [by trans (holds s1)|done].
  - unfold wp. destruct (negb (permits_callbacks s1)); [split; [done|apply Forall_app; split; [apply Hstop|done]]|].
    eapply wp_mono; [apply IH; [done|apply Hstop]|]. intros o' s' [Hs' Hn]. split; [by trans (holds s1)|done].
Qed.

Lemma retry_spec l s :
  buckets_named l ->
  wp (retry_metadata_debt_with_host l) (fun o s' => holds s' ⊆ holds s /\ buckets_named (remaining o)) s.
Proof.
  intros Hl. eapply wp_step; [apply retry_loop_spec; [done|by apply Forall_nil]|].
  intros o s' H. exact H.
Qed.

(** ** Names stay encodable *)
Definition map_named (m : gmap str (list MetadataDebt)) : Prop :=
  map_Forall (fun _ b => debts_named b) m.

Lemma default_named m k : map_named m -> debts_named (default [] (m !! k)).
Proof. intros Hm. destruct (m !! k) eqn:Hk; [by eapply Hm|by apply Forall_nil]. Qed.

Lemma add_bucket_named m b : map_named m -> debts_named b.2 -> map_named (add_bucket m b).
Proof.
  intros Hm Hb. apply map_Forall_insert_2; [|done]. apply Forall_app. split; [|done].
  by apply default_named.
Qed.

Lemma add_debts_named l : forall m, map_named m -> debts_named l -> map_named (foldl add_debt m l).
Proof.
  induction l as [|d l IH]; intros m Hm Hl; [done|]. apply Forall_cons in Hl as [Hd Hl].
  apply IH; [|done]. apply (add_bucket_named m (key d, [d])); [done|]. by apply Forall_singleton.
Qed.

Lemma add_buckets_named l : forall m,
  map_named m -> buckets_named l -> map_named (foldl add_bucket m l).
Proof.
  induction l as [|b l IH]; intros m Hm Hl; [done|]. apply Forall_cons in Hl as [Hb Hl].
  apply IH; [|done]. by apply add_bucket_named.
Qed.

Lemma supersede_named l : forall m,
  map_named m -> map_named (foldl (fun m k => delete k m) m l).
Proof. induction l as [|k l IH]; intros m Hm; [done|]. apply IH. by apply map_Forall_delete. Qed.

Lemma in_key_order_named m : map_named m -> buckets_named (in_key_order m).
Proof.
  intros Hm. unfold in_key_order, buckets_named. rewrite merge_sort_Permutation.
  apply Forall_forall. intros [k b] Hin%elem_of_map_to_list. by eapply Hm.
Qed.

(** ** Every identity Excel holds is answered for *)
Definition claim_entries (c : claim) : list PendingRegistration :=
  match c with CleanupClaim l => l | CleanupDone o => (failed o).*1 | _ => [] end.

Definition claim_debts (c : claim) : list (str * list MetadataDebt) :=
  match c with
  | CleanupDone o => [([], unregister_debt o)]
  | MetadataClaim l => l
  | MetadataDone o => remaining o
  | _ => []
  end.

Definition is_cleanup (c : claim) : bool :=
  match c with CleanupClaim _ | CleanupDone _ | CleanupLost => true | _ => false end.

Definition answered (w : world E) (x : f64) : Prop :=
  covered (registrations (ledger w)) x \/ registration_state (ledger w) = Unknown \/
  (exists i j, journals w !! i = Some j /\ answers_for j x) \/
  (exists k c, claims w !! k = Some c /\ (covered (claim_entries c) x \/ c = CleanupLost)).

Record inv (w : world E) : Prop := {
  inv_entries : entries_named (registrations (ledger w));
  inv_debts : map_named (metadata_debt (ledger w));
  inv_journals i j : journals w !! i = Some j -> journal_named j;
  inv_claims k c : claims w !! k = Some c ->
    entries_named (claim_entries c) /\ buckets_named (claim_debts c);
  inv_flag k c : claims w !! k = Some c -> is_cleanup c = true ->
    cleanup_in_progress (ledger w) = true;
  inv_one j k c d : claims w !! j = Some c -> claims w !! k = Some d ->
    is_cleanup c = true -> is_cleanup d = true -> j = k;
  inv_answered x : x ∈ held (host w) -> answered w x;
}.

Lemma initial_inv e : held e = [] -> inv (initial e).
Proof.
  intros He. split; try done.
  - by apply Forall_nil_2.
  - intros x Hx. simpl in Hx. rewrite He in Hx. by apply elem_of_nil in Hx.
Qed.

(** Excel calls that only remove. *)
Lemma shrink_inv e w : inv w -> held e ⊆ held (host w) -> inv (set_host e w).
Proof. intros [] He. split; try done. intros x Hx. apply inv_answered0. by apply He. Qed.

Lemma add_journal_inv j w e :
  inv w -> journal_named j ->
  (forall x, x ∈ held e -> x ∈ held (host w) \/ answers_for j x) ->
  inv (set_journals (journals w ++ [j]) (set_host e w)).
Proof.
  intros [] Hj He. split; try done.
  - intros i j' [Hi|[_ Hi]]%lookup_app_Some; [by eapply inv_journals0|].
    apply list_lookup_singleton_Some in Hi as [_ <-]. done.
  - intros x Hx. destruct (He x Hx) as [H|H].
    + destruct (inv_answered0 x H) as [A|[A|[(i & j' & Hi & A)|A]]]; [by left|by right; left| |by do 3 right].
      right; right; left. exists i, j'. split; [|done]. simpl. by apply lookup_app_l_Some.
    + right; right; left. exists (length (journals w)), j. split; [|done]. simpl.
      by rewrite lookup_app_r, Nat.sub_diag by done.
Qed.

Lemma into_journal_answers ids x :
  covered (pending_from <$> ids) x -> answers_for (into_journal ids) x.
Proof. by left. Qed.

Lemma names_named ids (names : list str) :
  registered_name <$> ids = names -> Forall text names -> Forall named ids.
Proof. intros <-. rewrite Forall_fmap. done. Qed.

Lemma prepared_names_text l : Forall prepared_text l -> Forall text (p_excel_name <$> l).
Proof.
  intros Hl. apply Forall_fmap. eapply Forall_impl; [exact Hl|]. apply prepared_name_text.
Qed.

Lemma preflight_prepared pw ds ps :
  Forall descriptor_text ds -> preflight_registration pw ds = Done (Ok ps) -> Forall prepared_text ps.
Proof.
  intros Ht Hp. destruct (preflight_spec pw ds ps Ht Hp) as (_ & _ & Hf).
  apply Forall_forall. intros p [k Hk]%list_elem_of_lookup.
  destruct (Forall2_lookup_r _ _ _ _ _ Hf Hk) as (d & _ & _ & i & Hpr). apply Hpr.
Qed.

(** Running host code in a session, from its specification. *)
Lemma in_session_spec {A} c (m : M E A) w (k : A -> world E -> outcome (option (world E))) P :
  wp m P (Calls c (host w)) ->
  exists a s, P a s /\ in_session c m w k = k a (set_host (excel s) w).
Proof.
  unfold wp, in_session. destruct (m (Calls c (host w))) as [[a s]| |]; try done.
  intros H. by exists a, s.
Qed.

Lemma open_inv pw c units ds w :
  inv w -> Forall descriptor_text ds ->
  exists w', open_functions pw c units ds w = Done (Some w') /\ inv w'.
Proof.
  intros I Ht. unfold open_functions. destruct (preflight_done pw ds) as [r Hr]. rewrite Hr. simpl.
  destruct r as [ps|e]; [|by exists w].
  pose proof (preflight_prepared pw ds ps Ht Hr) as Hps.
  destruct (in_session_spec c (register_all units ps) w (fun r w =>
    Done (Some (set_journals
      (journals w ++ [match r with Ok ids => into_journal ids | Err e => journal e end]) w)))
    _ (register_all_spec units ps _ Hps)) as (r & s & Hspec & ->).
  eexists. split; [done|].
  apply (add_journal_inv match r with Ok ids => into_journal ids | Err e => journal e end w (excel s));
    [done|..]; destruct r as [ids|e].
  - destruct Hspec as [Hn _]. split; [|by apply Forall_nil]. apply Forall_fmap.
    eapply Forall_impl; [eapply names_named; [exact Hn|by apply prepared_names_text]|done].
  - apply Hspec.
  - intros x Hx. destruct Hspec as [_ Hc]. destruct (Hc x Hx) as [H|H]; [by left|right].
    by apply into_journal_answers.
  - intros x Hx. by apply Hspec.
Qed.

(** A claim changes, with the ledger and Excel. *)
Lemma claim_inv k c c' s e w :
  inv w -> claims w !! k = Some c ->
  entries_named (registrations s) -> map_named (metadata_debt s) ->
  entries_named (claim_entries c') -> buckets_named (claim_debts c') ->
  (is_cleanup c' = true -> is_cleanup c = true /\ cleanup_in_progress s = true) ->
  (is_cleanup c = false -> cleanup_in_progress s = cleanup_in_progress (ledger w)) ->
  registration_state s = registration_state (ledger w) ->
  held e ⊆ held (host w) ->
  (forall x, x ∈ held e -> covered (registrations (ledger w)) x -> covered (registrations s) x) ->
  (forall x, x ∈ held e -> covered (claim_entries c) x \/ c = CleanupLost ->
    covered (registrations s) x \/ covered (claim_entries c') x \/ c' = CleanupLost) ->
  inv (set_claim k c' (set_ledger s (set_host e w))).
Proof.
  intros I Hk Hn Hm Hn' Hm' Hflag Hsame Hstate He Hr Hc. pose proof I as []. split; simpl; try done.
  - intros j d Hj. list_upd j k; [by simplify_eq|by eapply inv_claims0].
  - intros j d Hj Hd. list_upd j k; [simplify_eq; by apply Hflag|].
    destruct (is_cleanup c) eqn:Hc'; [|rewrite Hsame by done; by eapply inv_flag0].
    pose proof (inv_one0 _ _ _ _ Hj Hk Hd Hc'). congruence.
  - intros i j d d' Hi Hj Hd Hd'. list_upd i k; list_upd j k; simplify_eq; try done.
    + eapply inv_one0; [exact Hk|exact Hj|by apply Hflag|done].
    + eapply inv_one0; [exact Hi|exact Hk|done|by apply Hflag].
    + by eapply inv_one0.
  - intros x Hx. destruct (inv_answered0 x (He x Hx)) as [A|[A|[A|(j & d & Hj & A)]]].
    + left. by apply Hr.
    + right; left. simpl. congruence.
    + by right; right; left.
    + destruct (decide (j = k)) as [->|Hne].
      * assert (d = c) as -> by congruence. destruct (Hc x Hx A) as [B|B]; [by left|].
        right; right; right. exists k, c'. split; [|done].
        by apply list_lookup_insert_eq; eapply lookup_lt_Some.
      * right; right; right. exists j, d. split; [|done]. simpl. by rewrite list_lookup_insert_ne.
Qed.

(** The registrations move to a new claim, or stay. *)
Lemma new_claim_inv c s w :
  inv w -> entries_named (registrations s) -> map_named (metadata_debt s) ->
  entries_named (claim_entries c) -> buckets_named (claim_debts c) ->
  (is_cleanup c = true -> cleanup_in_progress (ledger w) = false /\ cleanup_in_progress s = true) ->
  (is_cleanup c = false -> cleanup_in_progress s = cleanup_in_progress (ledger w)) ->
  registration_state s = registration_state (ledger w) ->
  (forall x, covered (registrations (ledger w)) x ->
    covered (registrations s) x \/ covered (claim_entries c) x) ->
  inv (add_claim c (set_ledger s w)).
Proof.
  intros [] Hn Hm Hn' Hm' Hflag Hsame Hstate Hr.
  assert (Hnone : is_cleanup c = true -> forall k d, claims w !! k = Some d -> is_cleanup d = false).
  { intros Hc k d Hk. apply not_true_is_false. intros Hd.
    pose proof (inv_flag0 _ _ Hk Hd). by rewrite (proj1 (Hflag Hc)) in *. }
  assert (Hlook : forall k d, (claims w ++ [c]) !! k = Some d ->
    claims w !! k = Some d \/ k = length (claims w) /\ d = c).
  { intros k d [?|[Hge Hd]]%lookup_app_Some; [by left|right].
    apply list_lookup_singleton_Some in Hd as [Hd ->]. split; [lia|done]. }
  split; simpl; try done.
  - intros k d [Hk|[_ ->]]%Hlook; [by eapply inv_claims0|done].
  - intros k d [Hk|[_ ->]]%Hlook Hd; [|by apply Hflag].
    destruct (is_cleanup c) eqn:Hc; [by rewrite (Hnone eq_refl _ _ Hk) in Hd|].
    rewrite Hsame by done. by eapply inv_flag0.
  - intros j k d d' [Hj|[-> ->]]%Hlook [Hk|[-> ->]]%Hlook Hd Hd'; try done.
    + by eapply inv_one0.
    + by rewrite (Hnone Hd' _ _ Hj) in Hd.
    + by rewrite (Hnone Hd _ _ Hk) in Hd'.
  - intros x Hx. destruct (inv_answered0 x Hx) as [A|[A|[A|(k & d & Hk & A)]]].
    + destruct (Hr x A) as [B|B]; [by left|]. do 3 right. exists (length (claims w)), c.
      split; [|by left]. simpl. by rewrite lookup_app_r, Nat.sub_diag by done.
    + right; left. simpl. congruence.
    + by right; right; left.
    + do 3 right. exists k, d. split; [|done]. simpl. by apply lookup_app_l_Some.
Qed.

Lemma is_unknown_merge a b :
  is_unknown (journal_merge a b) = is_unknown a || is_unknown b.
Proof.
  unfold is_unknown. simpl. rewrite length_app.
  destruct (unknown_registrations a), (unknown_registrations b); done.
Qed.

Lemma answers_merge a b x : answers_for a x \/ answers_for b x -> answers_for (journal_merge a b) x.
Proof.
  unfold answers_for. rewrite is_unknown_merge, orb_true_iff. simpl. rewrite covered_app. tauto.
Qed.

Lemma journal_merge_named a b : journal_named a -> journal_named b -> journal_named (journal_merge a b).
Proof. intros [H1 H2] [H3 H4]. split; by apply Forall_app. Qed.

Lemma stage_inv w i j a b :
  inv w -> journals w !! i = Some a -> journals w !! j = Some b -> i <> j ->
  inv (set_journals (<[i := journal_merge a b]> (<[j := journal_default]> (journals w))) w).
Proof.
  intros [] Hi Hj Hne. split; try done; simpl.
  - intros k c [(-> & <- & _)|[_ Hk]]%list_lookup_insert_Some.
    { apply journal_merge_named; by eapply inv_journals0. }
    apply list_lookup_insert_Some in Hk as [(-> & <- & _)|[_ Hk]];
      [apply journal_default_named|by eapply inv_journals0].
  - intros x Hx. destruct (inv_answered0 x Hx) as [A|[A|[(k & c & Hk & A)|A]]];
      [by left|by right; left| |by do 3 right].
    right; right; left. simpl.
    assert (Hlen : (i < length (<[j := journal_default]> (journals w)))%nat).
    { rewrite length_insert. by eapply lookup_lt_Some. }
    destruct (decide (k = i)) as [->|Hki].
    { exists i, (journal_merge a b). split; [by apply list_lookup_insert_eq|].
      apply answers_merge. left. congruence. }
    destruct (decide (k = j)) as [->|Hkj].
    { exists i, (journal_merge a b). split; [by apply list_lookup_insert_eq|].
      apply answers_merge. right. congruence. }
    exists k, c. split; [|done]. by rewrite !list_lookup_insert_ne.
Qed.

Lemma merge_inv w i j :
  inv w -> journals w !! i = Some j ->
  inv (set_ledger (merge j (ledger w)) (set_journals (<[i := journal_default]> (journals w)) w)).
Proof.
  intros [] Hi. destruct (inv_journals0 _ _ Hi) as [Hp Hd]. split; try done; simpl.
  - by apply Forall_app.
  - apply add_debts_named; [by apply supersede_named|done].
  - intros k c [(-> & <- & _)|[_ Hk]]%list_lookup_insert_Some;
      [apply journal_default_named|by eapply inv_journals0].
  - intros x Hx. destruct (inv_answered0 x Hx) as [A|[A|[(k & c & Hk & A)|A]]].
    + left. simpl. apply covered_app. by left.
    + right; left. simpl. by destruct (is_unknown j).
    + destruct (decide (k = i)) as [->|Hki].
      * assert (c = j) as -> by congruence. destruct A as [A|A].
        -- left. simpl. apply covered_app. by right.
        -- right; left. simpl. by rewrite A.
      * right; right; left. exists k, c. split; [|done]. simpl. by rewrite list_lookup_insert_ne.
    + by do 3 right.
Qed.

Lemma perform_inv a w :
  inv w -> allowed a -> exists o, perform a w = Done o /\ forall w', o = Some w' -> inv w'.
Proof.
  intros I Ha. pose proof I as [Hreg Hdebt Hj Hcl Hfl Hone Hans].
  destruct a as [pw c units ds|i j|i| |k c|k| |k c|k|k|k]; simpl.
  - destruct (open_inv pw c units ds w I Ha) as (w' & -> & Hw'). eexists. split; [done|].
    by intros ? [= <-].
  - destruct (journals w !! i) as [a|] eqn:Hi; [|by eexists].
    destruct (journals w !! j) as [b|] eqn:Hj'; [|by eexists].
    destruct (Nat.eqb i j) eqn:Hij; [by eexists|]. eexists. split; [done|]. intros ? [= <-].
    apply Nat.eqb_neq in Hij. by apply stage_inv.
  - destruct (journals w !! i) as [j|] eqn:Hi; [|by eexists]. eexists. split; [done|].
    intros ? [= <-]. by apply merge_inv.
  - unfold claim_cleanup. destruct (cleanup_in_progress (ledger w)) eqn:Hf; [by eexists|].
    eexists. split; [done|]. intros ? [= <-].
    apply new_claim_inv; try done; [by apply Forall_nil_2|by apply Forall_nil_2|by right].
  - destruct (claims w !! k) as [[l|o| |l|o| |]|] eqn:Hk; try by eexists.
    destruct (Hcl _ _ Hk) as [Hl _].
    destruct (in_session_spec c (unregister_pending l) w
      (fun o w => Done (Some (set_claim k (CleanupDone o) w))) _ (unregister_pending_spec l _ Hl))
      as (o & s & (Hs & [Hn Hd] & Hc) & ->).
    eexists. split; [done|]. intros ? [= <-].
    apply (claim_inv k (CleanupClaim l) (CleanupDone o) (ledger w) (excel s) w); try done.
    + by apply Forall_singleton.
    + intros _. split; [done|]. by eapply Hfl.
    + intros x Hx [A|A]; [|done]. right; left. by apply Hc.
  - destruct (claims w !! k) as [[l|o| |l|o| |]|] eqn:Hk; try by eexists.
    destruct (Hcl _ _ Hk) as [Hl Hb]. apply Forall_cons in Hb as [Hb _].
    eexists. split; [done|]. intros ? [= <-].
    apply (claim_inv k (CleanupDone o) Finished (finish_cleanup o (ledger w)) (host w) w); try done; simpl.
    + by apply Forall_app.
    + apply add_debts_named; [exact Hdebt|exact Hb].
    + by apply Forall_nil_2.
    + by apply Forall_nil_2.
    + intros x _ A. apply covered_app. by left.
    + intros x _ [A|A]; [|done]. left. apply covered_app. by right.
  - unfold claim_metadata. destruct (metadata_cleanup_in_progress (ledger w)); [by eexists|].
    eexists. split; [done|]. intros ? [= <-].
    apply new_claim_inv; try done; [by apply Forall_nil_2|by apply in_key_order_named|by left].
  - destruct (claims w !! k) as [[l|o| |l|o| |]|] eqn:Hk; try by eexists.
    destruct (Hcl _ _ Hk) as [_ Hl].
    destruct (in_session_spec c (retry_metadata_debt_with_host l) w
      (fun o w => Done (Some (set_claim k (MetadataDone o) w))) _ (retry_spec l _ Hl))
      as (o & s & [Hs Hn] & ->).
    eexists. split; [done|]. intros ? [= <-].
    apply (claim_inv k (MetadataClaim l) (MetadataDone o) (ledger w) (excel s) w); try done.
    + by apply Forall_nil_2.
    + intros x Hx [A|A]; [|done]. by right; left.
  - destruct (claims w !! k) as [[l|o| |l|o| |]|] eqn:Hk; try by eexists.
    destruct (Hcl _ _ Hk) as [_ Hl]. eexists. split; [done|]. intros ? [= <-].
    apply (claim_inv k (MetadataDone o) Finished (restore_metadata (remaining o) (ledger w)) (host w) w);
      try done; simpl.
    + by apply add_buckets_named.
    + by apply Forall_nil_2.
    + by apply Forall_nil_2.
    + intros x Hx [A|A]; [|done]. by right; left.
  - destruct (claims w !! k) as [[l|o| |l|o| |]|] eqn:Hk; try by eexists.
    + destruct (Hcl _ _ Hk) as [Hl _]. eexists. split; [done|]. intros ? [= <-].
      apply (claim_inv k (CleanupClaim l) Finished (restore_cleanup l (ledger w)) (host w) w); try done; simpl.
      * by apply Forall_app.
      * by apply Forall_nil_2.
      * by apply Forall_nil_2.
      * intros x _ A. apply covered_app. by left.
      * intros x _ [A|A]; [|done]. left. apply covered_app. by right.
    + destruct (Hcl _ _ Hk) as [_ Hl]. eexists. split; [done|]. intros ? [= <-].
      apply (claim_inv k (MetadataClaim l) Finished (restore_metadata l (ledger w)) (host w) w); try done; simpl.
      * by apply add_buckets_named.
      * by apply Forall_nil_2.
      * by apply Forall_nil_2.
      * intros x Hx [A|A]; [|done]. by right; left.
  - destruct (claims w !! k) as [c|] eqn:Hk; [|by eexists].
    destruct (Hcl _ _ Hk) as [Hl Hb].
    assert (Hlost : forall c', is_cleanup c' = is_cleanup c ->
      claim_entries c' = [] -> claim_debts c' = [] -> (is_cleanup c = true -> c' = CleanupLost) ->
      inv (set_claim k c' w)).
    { intros c' Hsame He Hd Hc'.
      apply (claim_inv k c c' (ledger w) (host w) w); try done; rewrite ?He, ?Hd; try by apply Forall_nil_2.
      - rewrite Hsame. intros H. split; [done|]. by eapply Hfl.
      - intros x _ [A|A]; [|right; right; apply Hc'; by subst].
        destruct (is_cleanup c) eqn:Hic; [by right; right; apply Hc'|].
        destruct c; try done; by apply Exists_nil in A. }
    destruct c; try (by eexists); eexists; (split; [done|]); intros ? [= <-]; by apply Hlost.
Qed.

Lemma reachable_inv e w : held e = [] -> reachable e w -> inv w.
Proof.
  intros He Hw. unfold reachable in Hw. pose proof (initial_inv e He) as H.
  induction Hw as [|w w1 w2 (a & Ha & Hp) _ IH]; [done|]. apply IH.
  destruct (perform_inv a w H Ha) as (o & Ho & Hi). rewrite Hp in Ho. simplify_eq. by apply Hi.
Qed.

End Invariant.
End RegistrationMachine.
