(* ===== verification/ExampleExcel.v ===== *)
(** * A small Excel

    An executable host that satisfies [ExcelContract], with a limited number
    of functions; the witnesses of the registration theorems run on it. *)

From S2P Require Import Prelude SealableCounter Names Errors Utf16 Dates HostCalls Preflight RegistrationHost Registration RegistrationHostSpecs.
Import Str Modes Errors Utf16Std Utf16 Utf16Lemmas F64 HostCalls HostSession Preflight RegistrationHost Registration RegistrationHostSpecs.

Local Open Scope Z_scope.

Module ExampleExcel.

(** The functions registered, under the operand that names each; the next
    identity; how many functions there may be; whether calls are aborted. *)
Record small_excel : Type := Host {
  functions : list (XLOPER12 * f64);
  next : Z;
  capacity : nat;
  aborts : bool;
}.

Definition same_name (a b : XLOPER12) : bool :=
  match value a, value b with
  | OString (Ptr _ n u), OString (Ptr _ k v) => bool_decide (n = k) && bool_decide (u = v)
  | _, _ => false
  end.

Definition lookup_name (n : XLOPER12) (l : list (XLOPER12 * f64)) : option f64 :=
  snd <$> head (filter (fun p => same_name p.1 n = true) l).

Definition boolean (b : Z) : XLOPER12 := mk_oper 0 (OBoolean b).

Definition answer (f : Z) (args : list XLOPER12) (e : small_excel) : Z * XLOPER12 * small_excel :=
  if f =? XLF_REGISTER then
    match args !! 3%nat with
    | Some n =>
        if Nat.ltb (length (functions e)) (capacity e) && same_name n n
        then (XLRET_SUCCESS, number (of_int (next e)),
              Host ((n, of_int (next e)) :: functions e) (next e + 1) (capacity e) (aborts e))
        else (XLRET_FAILED, nil, e)
    | None => (XLRET_FAILED, nil, e)
    end
  else if f =? XLF_EVALUATE then
    match args with
    | [n] =>
        (XLRET_SUCCESS,
         match lookup_name n (functions e) with
         | Some x => number x
         | None => mk_oper 0 (OError XLERR_NAME)
         end, e)
    | _ => (XLRET_FAILED, nil, e)
    end
  else if f =? XLF_UNREGISTER then
    match args with
    | [x] =>
        match value x with
        | ONumber x =>
            (XLRET_SUCCESS, boolean 1,
             Host (filter (fun p => f64_eq x p.2 = false) (functions e)) (next e) (capacity e) (aborts e))
        | _ => (XLRET_SUCCESS, boolean 0, e)
        end
    | _ => (XLRET_FAILED, nil, e)
    end
  else if f =? XL_FREE then (XLRET_SUCCESS, nil, e)
  else (XLRET_SUCCESS, boolean 1, e).

(** The user interrupts every call but a release. *)
#[export] Instance example_excel : Excel small_excel := {|
  enter_callback _ := true;
  resolve_callback _ := true;
  callback f args e :=
    if aborts e && negb (f =? XL_FREE) then (XLRET_ABORT, nil, e) else answer f args e;
|}.

Lemma f64_eq_refl x : is_finite x = true -> f64_eq x x = true.
Proof. destruct x as [m k| |]; [|done..]. intros _. apply Z.eqb_refl. Qed.

Lemma valid_is_finite x : valid_registration_id x = true -> is_finite x = true.
Proof. unfold valid_registration_id. by destruct (is_finite x). Qed.

Lemma lookup_name_cons n x l :
  same_name n n = true -> lookup_name n ((n, x) :: l) = Some x.
Proof. intros Hn. unfold lookup_name. by rewrite filter_cons_True. Qed.

(** Aborted calls change nothing, and their result is empty. *)
Lemma callback_cases f args e st v e' :
  callback f args e = (st, v, e') ->
  (st, v, e') = (XLRET_ABORT, nil, e) \/ answer f args e = (st, v, e').
Proof. simpl. destruct (aborts e && negb (f =? XL_FREE)); [by left|by right]. Qed.

#[export] Program Instance example_contract : ExcelContract small_excel := {|
  held e := snd <$> functions e;
  bound e n := lookup_name n (functions e);
|}.
Next Obligation.
  intros f args e st v e' [[= -> -> ->]|H]%callback_cases Hf; [done|]. unfold answer in H.
  rewrite (proj2 (Z.eqb_neq _ _) Hf) in H. repeat case_match; simplify_eq; try done.
  intros y (p & -> & Hp)%list_elem_of_fmap. simpl in Hp. apply list_elem_of_filter in Hp as [_ Hp].
  by apply list_elem_of_fmap_2.
Qed.
Next Obligation.
  intros args e st v e' n [[= -> -> ->]|H]%callback_cases; [done|]. unfold answer in H. simpl in H.
  by simplify_eq.
Qed.
Next Obligation.
  intros args e st v e' n [[= -> -> ->]|H]%callback_cases Hst Hn; [by left|].
  unfold answer in H. simpl in H. rewrite Hn in H.
  destruct (Nat.ltb _ _ && same_name n n) eqn:Hb; simplify_eq; [|by left].
  apply andb_prop in Hb as [_ Hb]. right. split; [done|]. exists (of_int (next e)). split; [done|].
  split; [by apply lookup_name_cons|]. intros y [= <-] _. by apply f64_eq_refl.
Qed.
Next Obligation.
  intros n e v e' [H|H]%callback_cases; [done|]. unfold answer in H. simpl in H.
  destruct (lookup_name n (functions e)) as [x|]; simplify_eq; simpl; (split; [done|]); [|done].
  intros y [= <-] Hid. exists x. split; [done|]. by apply f64_eq_refl, valid_is_finite.
Qed.
Next Obligation.
  intros x e v e' b y [H|H]%callback_cases; [done|]. unfold answer in H. simpl in H. simplify_eq.
  intros _ _ (p & -> & Hp)%list_elem_of_fmap. simpl in Hp. by apply list_elem_of_filter in Hp as [Hp _].
Qed.

End ExampleExcel.
