(* ===== verification/RegistrationTheorems.v ===== *)
(** * Theorems about registration

    A transaction registers all of its functions or owes what is left of them;
    clean-up accounts for every entry; and a ledger that calls itself quiescent
    owns nothing that Excel still holds. *)

From S2P Require Import Prelude SealableCounter Names Errors Utf16 Dates HostCalls Preflight RegistrationHost Registration RegistrationHostSpecs RegistrationAccounts PreflightTheorems RegistrationMachine ExampleExcel.
Import Str StrLemmas Modes Errors Utf16Std Utf16 Utf16Lemmas F64 HostCalls HostSession Preflight RegistrationHost Registration RegistrationHostSpecs RegistrationAccounts PreflightTheorems RegistrationMachine ExampleExcel.

Local Open Scope Z_scope.

Module RegistrationTheorems.

Section Theorems.
Context {E : Type} {X : Excel E} {C : ExcelContract E}.

Lemma wp_done {A} (m : M E A) P s : wp m P s -> exists a s', m s = Done (a, s') /\ P a s'.
Proof. unfold wp. destruct (m s) as [[a s']| |]; [|done..]. intros H. by exists a, s'. Qed.

(** ** Which entries a clean-up returns *)
Definition outcome_of (o : UnregisterResult) : list RegistrationId :=
  (registration <$> succeeded o) ++ (registration <$> (failed o).*1)
  ++ (debt_registration <$> unregister_debt o).

Lemma outcome_push_succeeded p o :
  outcome_of (push_succeeded p o) ≡ₚ registration p :: outcome_of o.
Proof. unfold outcome_of. simpl. rewrite fmap_app. simpl. solve_Permutation. Qed.

Lemma outcome_push_failed p e o :
  outcome_of (push_failed p e o) ≡ₚ registration p :: outcome_of o.
Proof. unfold outcome_of. simpl. rewrite !fmap_app. simpl. solve_Permutation. Qed.

Lemma outcome_push_debt d o :
  outcome_of (push_debt d o) ≡ₚ debt_registration d :: outcome_of o.
Proof. unfold outcome_of. simpl. rewrite fmap_app. simpl. solve_Permutation. Qed.

Lemma outcome_push_issue r o : outcome_of (push_issue r o) = outcome_of o.
Proof. by destruct r. Qed.

Lemma unregister_name_partition p o s :
  named (registration p) ->
  wp (unregister_name p o) (fun o' _ => outcome_of o' ≡ₚ registration p :: outcome_of o) s.
Proof.
  intros Hp. unfold wp, unregister_name. destruct (negb (permits_callbacks s)).
  { apply outcome_push_debt. }
  apply (wp_step _ _ _ _ _ (delete_name_spec _ _ s Hp)). intros m s' _. apply wp_ret. destruct m.
  - rewrite outcome_push_succeeded, outcome_push_issue. done.
  - apply outcome_push_debt.
  - apply outcome_push_debt.
Qed.

Lemma unregister_one_partition p o s :
  named (registration p) ->
  wp (unregister_one p o) (fun o' _ => outcome_of o' ≡ₚ registration p :: outcome_of o) s.
Proof.
  intros Hp. unfold wp, unregister_one. destruct (negb (permits_callbacks s)).
  { apply outcome_push_failed. }
  destruct (cleanup_state p).
  - apply (wp_step _ _ _ _ _ (unregister_spec _ s)). intros [v cleanup|e|st e] s' _;
      [|apply wp_ret, outcome_push_failed..].
    eapply wp_mono; [by apply unregister_name_partition|]. intros o' s2. by rewrite outcome_push_issue.
  - by apply unregister_name_partition.
  - apply outcome_push_succeeded.
Qed.

Lemma unregister_loop_partition l : forall o s,
  entries_named l ->
  wp (unregister_loop l o) (fun o' _ => outcome_of o' ≡ₚ (registration <$> l) ++ outcome_of o) s.
Proof.
  induction l as [|p l IH]; intros o s Hl; [by apply wp_ret|]. apply Forall_cons in Hl as [Hp Hl].
  eapply wp_step; [by apply unregister_one_partition|]. intros o1 s1 H1.
  eapply wp_mono; [by apply IH|]. intros o' s' H. rewrite H, H1. simpl. solve_Permutation.
Qed.

Lemma unregister_pending_partition l s :
  entries_named l ->
  wp (unregister_pending l) (fun o _ => outcome_of o ≡ₚ registration <$> l) s.
Proof.
  intros Hl. assert (rev l ≡ₚ l) as Hrev by (symmetry; apply Permutation_rev).
  eapply wp_mono; [apply unregister_loop_partition; unfold entries_named; by rewrite Hrev|].
  intros o s' H. rewrite H, Hrev. unfold outcome_of. simpl. by rewrite app_nil_r.
Qed.

Lemma wp_and {A} (m : M E A) P Q s : wp m P s -> wp m Q s -> wp m (fun a s' => P a s' /\ Q a s') s.
Proof. unfold wp. by destruct (m s) as [[a s']| |]. Qed.

(** C22: Unregistering the entries of a claim never panics and accounts for
    every one of them: each comes back exactly once, as succeeded, as failed
    or as the debt of its name; and of the identities they stand for, Excel
    can afterwards still hold only those of entries that failed, which the
    ledger takes back. *)
Theorem clean_up_accounts_for_every_entry l s :
  entries_named l ->
  exists o s', unregister_pending l s = Done (o, s') /\
    (registration <$> succeeded o) ++ (registration <$> (failed o).*1)
      ++ (debt_registration <$> unregister_debt o) ≡ₚ registration <$> l /\
    (forall x, x ∈ held (excel s') -> covered l x ->
      x ∈ held (excel s) /\ covered (registrations (finish_cleanup o ledger_new)) x).
Proof.
  intros Hl.
  destruct (wp_done _ _ _ (wp_and _ _ _ _ (unregister_pending_partition l s Hl)
    (unregister_pending_spec l s Hl))) as (o & s' & Ho & Hp & Hs & _ & Hc).
  exists o, s'. split; [done|]. split; [done|]. intros x Hx Hcov. split; [by apply Hs|by apply Hc].
Qed.

(** C9: Registering an accepted list of descriptors never panics. Either it
    returns an identity for each function, in order, under its name, and every
    identity Excel holds that it did not hold before is one of those; or it
    fails and the journal answers for every new identity: by an entry
    that is still to be unregistered, or by declaring the state unknown,
    which keeps the module loaded. *)
Theorem registration_is_complete_or_owed pw ds ps units s :
  Forall descriptor_text ds -> preflight_registration pw ds = Done (Ok ps) ->
  exists r s', register_all units ps s = Done (r, s') /\
    match r with
    | Ok ids =>
        registered_name <$> ids = excel_name <$> ds /\
        forall x, x ∈ held (excel s') -> x ∈ held (excel s) \/
          exists i, i ∈ ids /\ f64_eq (id i) x = true
    | Err e =>
        forall x, x ∈ held (excel s') -> x ∈ held (excel s) \/
          covered (pending_registrations (journal e)) x \/ is_unknown (journal e) = true
    end.
Proof.
  intros Ht Hp.
  destruct (wp_done _ _ _ (register_all_spec units ps s (preflight_prepared pw ds ps Ht Hp)))
    as (r & s' & Hr & H).
  exists r, s'. split; [done|]. destruct r as [ids|e]; [|apply H]. destruct H as [Hn Hh]. split.
  - rewrite Hn. destruct (preflight_spec pw ds ps Ht Hp) as (_ & _ & Hf). clear -Hf.
    induction Hf as [|d p ds ps (_ & i & _ & Hp & _) _ IH]; [done|]. by rewrite !fmap_cons, Hp, IH.
  - intros x Hx. destruct (Hh x Hx) as [H|H]; [by left|right].
    apply Exists_exists in H as (p & Hi & _ & Heq).
    apply list_elem_of_fmap in Hi as (i & -> & Hi). by exists i.
Qed.

(** C5: However entry points, merges and claims interleave, whatever Excel
    answers and even when a claim is lost: when the ledger reports quiescence,
    which is what lets the module be unloaded, and no transaction still has a
    journal to merge, Excel holds no identity of the add-in's functions. *)
Theorem quiescent_ledger_owns_nothing e w :
  held e = [] -> reachable e w ->
  Forall (fun j => j = journal_default) (journals w) ->
  is_quiescent (ledger w) = true -> held (host w) = [].
Proof.
  intros He Hw Hj Hq. destruct (reachable_inv e w He Hw) as [_ _ _ _ Hflag _ Hans].
  unfold is_quiescent in Hq. rewrite !andb_true_iff, negb_true_iff, !bool_decide_eq_true in Hq.
  destruct Hq as [[[Hf _] Hr] Hk]. apply nil_length_inv in Hr.
  apply elem_of_nil_inv. intros x Hx. destruct (Hans x Hx) as [A|[A|[(i & j & Hi & A)|(k & c & Hc & A)]]].
  - rewrite Hr in A. by apply Exists_nil in A.
  - congruence.
  - rewrite Forall_lookup in Hj. rewrite (Hj _ _ Hi) in A. destruct A as [A|A]; [by apply Exists_nil in A|done].
  - assert (is_cleanup c = true) as Hcl.
    { destruct A as [A| ->]; [|done]. destruct c; try done; by apply Exists_nil in A. }
    by rewrite (Hflag _ _ Hc Hcl) in Hf.
Qed.

End Theorems.

(** ** Witnesses, on the small Excel *)
Section Run.
Context {E : Type} {X : Excel E}.

Fixpoint run (l : list action) (w : world E) : option (world E) :=
  match l with
  | [] => Some w
  | a :: l => match perform a w with Done (Some w') => run l w' | _ => None end
  end.

Lemma actions_reachable e l w w' :
  reachable e w -> Forall allowed l -> run l w = Some w' -> reachable e w'.
Proof.
  revert w. induction l as [|a l IH]; intros w Hw Hl Hr; simpl in Hr; [by simplify_eq|].
  apply Forall_cons in Hl as [Ha Hl].
  destruct (perform a w) as [[w1|]| |] eqn:Hp; try done. apply (IH w1); [|done|done].
  eapply rtc_r; [exact Hw|]. by exists a.
Qed.

End Run.

Lemma example_texts : Forall descriptor_text example_descriptors.
Proof.
  repeat (apply Forall_cons_2;
    [by repeat (apply Forall_cons_2; [by apply text_lit|]); apply Forall_nil_2|]). apply Forall_nil_2.
Qed.

Definition excel_for (n : nat) : small_excel := Host [] 1 n false.

Definition example_prepared : list PreparedRegistration :=
  match preflight_registration W64 example_descriptors with Done (Ok ps) => ps | _ => [] end.

(** Two functions are registered. *)
Definition example_opened : Callbacks small_excel :=
  match register_all [67; 58; 92] example_prepared (Calls Available (excel_for 2)) with
  | Done (_, s) => s
  | _ => Calls Available (excel_for 0)
  end.

Definition example_entries : list PendingRegistration :=
  [pending_from (Registration (of_int 1) (lit "PRICE"));
   pending_from (Registration (of_int 2) (lit "NOW.LIVE"))].

Lemma clean_up_accounts_for_every_entry_witness :
  held (excel example_opened) = [of_int 2; of_int 1] /\
  exists o s', unregister_pending example_entries example_opened = Done (o, s') /\
    held (excel s') = [] /\
    forall x, x ∈ held (excel s') -> covered example_entries x ->
      x ∈ held (excel example_opened) /\ covered (registrations (finish_cleanup o ledger_new)) x.
Proof.
  split; [by vm_compute|].
  destruct (clean_up_accounts_for_every_entry example_entries example_opened) as (o & s' & Ho & _ & Hx).
  - repeat (apply Forall_cons_2; [by apply text_lit|]). apply Forall_nil_2.
  - exists o, s'. split; [exact Ho|]. split; [|exact Hx].
    vm_compute in Ho. injection Ho as <- <-. by vm_compute.
Defined.

(** With room for one function the second registration fails, and the first
    is rolled back: nothing is held and nothing is owed. *)
Lemma registration_is_complete_or_owed_witness :
  exists e s', register_all [67; 58; 92] example_prepared (Calls Available (excel_for 1)) = Done (Err e, s') /\
    source e = ExcelApi FRegister (Status (Failed XLRET_FAILED)) /\ held (excel s') = [] /\
    forall x, x ∈ held (excel s') -> x ∈ held (excel_for 1) \/
      covered (pending_registrations (journal e)) x \/ is_unknown (journal e) = true.
Proof.
  destruct (registration_is_complete_or_owed W64 example_descriptors example_prepared [67; 58; 92]
    (Calls Available (excel_for 1)) example_texts) as (r & s' & Hr & H); [by vm_compute|].
  destruct r as [ids|e]; [by vm_compute in Hr|]. exists e, s'. split; [exact Hr|].
  split; [|split; [|exact H]]; vm_compute in Hr; injection Hr as <- <-; by vm_compute.
Defined.

(** Opening, merging the journal, and a clean-up in an own session. *)
Definition example_actions : list action :=
  [Open W64 Available [67; 58; 92] example_descriptors; Merge 0; ClaimCleanup;
   ExecuteCleanup 0 Available; FinishCleanup 0].

Definition after (l : list action) (n : nat) : world small_excel :=
  default (initial (excel_for n)) (run l (initial (excel_for n))).

Lemma example_allowed n : Forall allowed (take n example_actions).
Proof.
  apply Forall_take. repeat (apply Forall_cons_2; [first [apply example_texts|exact I]|]). apply Forall_nil_2.
Qed.

Lemma example_reachable k n :
  run (take k example_actions) (initial (excel_for n)) <> None ->
  reachable (excel_for n) (after (take k example_actions) n).
Proof.
  intros Hr. unfold after.
  destruct (run (take k example_actions) (initial (excel_for n))) as [w|] eqn:Hw; [|done].
  eapply actions_reachable; [|apply (example_allowed k)|exact Hw]. apply rtc_refl.
Qed.

Lemma quiescent_ledger_owns_nothing_witness :
  length (held (host (after (take 2 example_actions) 2))) = 2%nat /\
  is_quiescent (ledger (after (take 2 example_actions) 2)) = false /\
  is_quiescent (ledger (after (take 5 example_actions) 2)) = true /\
  held (host (after (take 5 example_actions) 2)) = [].
Proof.
  split; [by vm_compute|]. split; [by vm_compute|]. split; [by vm_compute|].
  apply (quiescent_ledger_owns_nothing (excel_for 2)).
  - done.
  - apply example_reachable. by vm_compute.
  - vm_compute. apply Forall_cons_2; [done|apply Forall_nil_2].
  - by vm_compute.
Defined.

End RegistrationTheorems.
