(* ===== verification/RegistrationSessions.v ===== *)
(** * Sessions fall silent

    Excel observed through a log of its callbacks: once one of them has
    returned a terminal status, the entry point makes no call but the releases
    of results it already has. *)

From S2P Require Import Prelude SealableCounter Names Errors Utf16 Dates HostCalls Preflight RegistrationHost Registration RegistrationHostSpecs RegistrationAccounts PreflightTheorems RegistrationMachine ExampleExcel RegistrationTheorems.
Import Str StrLemmas Modes Errors Utf16Std Utf16 Utf16Lemmas F64 HostCalls HostSession Preflight RegistrationHost Registration RegistrationHostSpecs RegistrationAccounts PreflightTheorems RegistrationMachine ExampleExcel RegistrationTheorems.

Local Open Scope Z_scope.

Module RegistrationSessions.

(** A callback, by its function and the status it returned. *)
Definition event : Type := Z * Z.

Record logged (E : Type) : Type := Logged { log : list event; inner : E }.
Arguments Logged {E} _ _.
Arguments log {E} _.
Arguments inner {E} _.

Definition is_release (ev : event) : Prop := ev.1 = XL_FREE.
Definition ends_session (ev : event) : Prop := is_terminal (status_from_raw ev.2) = true.

(** After a terminal status there are only releases. *)
Fixpoint silent (l : list event) : Prop :=
  match l with
  | [] => True
  | ev :: l => (ends_session ev -> Forall is_release l) /\ silent l
  end.

Lemma silent_snoc l ev :
  silent l -> (Exists ends_session l -> is_release ev) -> silent (l ++ [ev]).
Proof.
  induction l as [|a l IH]; intros Hs He; simpl in *; [by split|].
  destruct Hs as [Ha Hs]. split.
  - intros H. apply Forall_app. split; [by apply Ha|]. apply Forall_singleton, He. by left.
  - apply IH; [done|]. intros H. apply He. by right.
Qed.

Section Logged.
Context {E : Type} {X : Excel E}.

#[export] Instance logged_excel : Excel (logged E) := {|
  enter_callback l := enter_callback (inner l);
  resolve_callback l := resolve_callback (inner l);
  callback f args l :=
    let '(st, v, e) := callback f args (inner l) in (st, v, Logged (log l ++ [(f, st)]) e);
|}.

(** The contract speaks of Excel, not of the log. *)
#[export] Program Instance logged_contract {C : ExcelContract E} : ExcelContract (logged E) := {|
  held l := held (inner l);
  bound l n := bound (inner l) n;
|}.
Next Obligation.
  intros C f args l st v l' H Hf. simpl in H. destruct (callback f args (inner l)) as [[st' v'] e] eqn:Hc.
  simplify_eq. by eapply others_add_nothing.
Qed.
Next Obligation.
  intros C args l st v l' n H. simpl in H. destruct (callback _ args (inner l)) as [[st' v'] e] eqn:Hc.
  simplify_eq. by eapply release_keeps_names.
Qed.
Next Obligation.
  intros C args l st v l' n H Hst Hn. simpl in H.
  destruct (callback _ args (inner l)) as [[st' v'] e] eqn:Hc. simplify_eq. by eapply register_adds_one.
Qed.
Next Obligation.
  intros C n l v l' H. simpl in H. destruct (callback _ [n] (inner l)) as [[st' v'] e] eqn:Hc.
  simplify_eq. by eapply evaluation_is_truthful.
Qed.
Next Obligation.
  intros C x l v l' b y H Hv Hb Hy. simpl in H.
  destruct (callback _ _ (inner l)) as [[st' v'] e] eqn:Hc. simplify_eq. by eapply unregister_removes.
Qed.

(** ** The invariant of a session that began as [c] *)
Definition quiet (c : HostCallbackState) (s : Callbacks (logged E)) : Prop :=
  silent (log (excel s)) /\
  (session s = Available -> Forall (fun ev => ~ ends_session ev) (log (excel s))) /\
  (c <> Available -> session s <> Available /\ Forall is_release (log (excel s))).

Definition keeps {A} (m : M (logged E) A) : Prop :=
  forall c s, quiet c s -> match m s with Done (_, s') => quiet c s' | _ => True end.

Lemma keeps_ret {A} (a : A) : keeps (ret a).
Proof. intros c s H. exact H. Qed.

Lemma keeps_lift {A} (o : outcome A) : keeps (lift o).
Proof. intros c s H. unfold lift. by destruct o. Qed.

Lemma keeps_bind {A B} (m : M (logged E) A) (k : A -> M (logged E) B) :
  keeps m -> (forall a, keeps (k a)) -> keeps (bind m k).
Proof.
  intros Hm Hk c s H. unfold bind. specialize (Hm c s H).
  destruct (m s) as [[a s']| |]; [|done..]. by apply Hk.
Qed.

(** A callback whose status is observed at once. *)
Lemma quiet_callback c f st e (s : Callbacks (logged E)) :
  quiet c s -> (session s = Available \/ f = XL_FREE) ->
  quiet c
    (let s := Calls (session s) (Logged (log (excel s) ++ [(f, st)]) e) in
     if is_terminal (status_from_raw st) && bool_decide (session s = Available)
     then Calls (Suppressed (status_from_raw st)) (excel s) else s).
Proof.
  intros (Hs & Ha & Hc) Hf.
  assert (silent (log (excel s) ++ [(f, st)])) as Hsilent.
  { apply silent_snoc; [done|]. intros He. destruct Hf as [Hf|Hf]; [|done].
    rewrite Exists_exists in He. destruct He as (ev & Hin & He). exfalso.
    specialize (Ha Hf). rewrite Forall_forall in Ha. by apply (Ha ev Hin). }
  assert (c <> Available -> session s <> Available /\ Forall is_release (log (excel s) ++ [(f, st)])) as Hc'.
  { intros H. destruct (Hc H) as [H1 H2]. split; [done|]. apply Forall_app. split; [done|].
    apply Forall_singleton. by destruct Hf. }
  simpl. destruct (is_terminal (status_from_raw st)) eqn:Ht; simpl.
  - case_bool_decide as Hav; (split; [done|]); (split; [done|]); [|done].
    intros H. split; [done|by apply Hc'].
  - split; [done|]. split; [|done]. simpl. intros H. apply Forall_app. split; [by apply Ha|].
    apply Forall_singleton. unfold ends_session. simpl. by rewrite Ht.
Qed.

Lemma keeps_release_in_place o : keeps (release_in_place o).
Proof.
  intros c s H. unfold release_in_place. destruct (release_state o); try done;
    (destruct (negb (release_required o)); [done|]);
    unfold bind, excel_free; simpl; (destruct (negb (resolve_callback (inner (excel s))));
      [change (status_from_raw XLRET_FAILED) with (Failed 32); exact H|]);
    destruct (callback XL_FREE [raw o] (inner (excel s))) as [[st v] e]; simpl;
    pose proof (quiet_callback c XL_FREE st e s H (or_intror eq_refl)) as Hq; simpl in Hq;
    by destruct (status_from_raw st).
Qed.

Lemma keeps_release r : keeps (release r).
Proof.
  assert (forall o, keeps (release_owner o)) as Ho.
  { intros o. apply keeps_bind; [apply keeps_release_in_place|]. intros [r' o'].
    apply keeps_bind; [apply keeps_release_in_place|]. intros [r2 o2]. apply keeps_ret. }
  destruct r; [apply Ho..|apply keeps_ret].
Qed.

Lemma keeps_call f args : keeps (call f args).
Proof.
  intros c s H. unfold call. destruct (session s) as [|st] eqn:Hav; simpl; [|done].
  unfold call_with_session, excel12_with_invocation, bind, ret, observe. simpl.
  destruct (negb (enter_callback (inner (excel s)))); [exact H|].
  destruct (2 ^ 31 - 1 <? _).
  { change (status_from_raw XLRET_FAILED) with (Failed 32). exact H. }
  destruct (negb (resolve_callback (inner (excel s)))).
  { change (status_from_raw XLRET_FAILED) with (Failed 32). exact H. }
  destruct (callback f args (inner (excel s))) as [[st v] e]. simpl.
  apply (quiet_callback c f st e s H). by left.
Qed.

(** ** Everything the registrar does *)
Lemma keeps_protocol {T} f args (dec : XLOPER12 -> XllResult T) : keeps (invoke_protocol f args dec).
Proof.
  apply keeps_bind; [apply keeps_call|]. intros [[[] r]|st]; try apply keeps_ret;
    (apply keeps_bind; [apply keeps_release|intros cleanup; apply keeps_ret]).
Qed.

End Logged.

Create HintDb keeps.
#[export] Hint Resolve keeps_ret keeps_lift keeps_protocol keeps_call keeps_release : keeps.

(** Decomposes a computation along its structure. *)
Ltac keeps_tac :=
  repeat first
    [ progress (auto with keeps nocore)
    | apply keeps_bind; [|intros]
    | progress intros
    | match goal with
      | |- keeps (match ?x with _ => _ end) => destruct x
      | |- keeps (let '(_, _) := ?x in _) => destruct x
      end ].

Section Registrar.
Context {E : Type} {X : Excel E}.

(** Code that looks at the session first. *)
Lemma keeps_branch {A} (b : Callbacks (logged E) -> bool) (f : Callbacks (logged E) -> A) m :
  keeps m -> keeps (fun s => if b s then Done (f s, s) else m s).
Proof. intros Hm c s H. destruct (b s); [done|by apply Hm]. Qed.

Lemma keeps_operation {T} (o : operation T) args : keeps (E := E) (invoke_operation o args).
Proof. unfold invoke_operation. keeps_tac. Qed.

Lemma keeps_invoke {T} f g args (dec : XLOPER12 -> XllResult T) : keeps (E := E) (invoke f g args dec).
Proof. unfold invoke. keeps_tac. Qed.

Hint Resolve keeps_operation keeps_invoke : keeps.

Lemma keeps_registration_id name : keeps (E := E) (registration_id name).
Proof. unfold registration_id, with_name. keeps_tac. Qed.

Lemma keeps_is_registered name : keeps (E := E) (is_registered_name name).
Proof. unfold is_registered_name, with_name. keeps_tac. Qed.

Lemma keeps_delete name : keeps (E := E) (delete_name name).
Proof. unfold delete_name, with_arguments. keeps_tac. Qed.

Lemma keeps_xlf_register units d : keeps (E := E) (register units d).
Proof. unfold register, with_arguments. keeps_tac. Qed.

Hint Resolve keeps_registration_id keeps_is_registered keeps_delete keeps_xlf_register : keeps.

Lemma keeps_delete_if name ids : keeps (E := E) (delete_name_if_binding_matches name ids).
Proof. unfold delete_name_if_binding_matches. keeps_tac. Qed.

Hint Resolve keeps_delete_if : keeps.

Lemma keeps_unregister_name p o : keeps (E := E) (unregister_name p o).
Proof. apply keeps_branch. keeps_tac. Qed.

Hint Resolve keeps_unregister_name : keeps.

Lemma keeps_unregister_one p o : keeps (E := E) (unregister_one p o).
Proof.
  apply (keeps_branch _ (fun _ => push_failed p Closing o)
    (fun s => match cleanup_state p with
              | NameDeleted => Done (push_succeeded p o, s)
              | Unregistered => unregister_name p o s
              | Registered => _ s
              end)).
  destruct (cleanup_state p); [|apply keeps_unregister_name|apply (keeps_ret (push_succeeded p o))].
  apply keeps_bind; [unfold unregister_registration; keeps_tac|]. keeps_tac.
Qed.

Hint Resolve keeps_unregister_one : keeps.

Lemma keeps_unregister_loop l : forall o, keeps (E := E) (unregister_loop l o).
Proof. induction l as [|p l IH]; intros o; simpl; keeps_tac. Qed.

Lemma keeps_unregister_pending l : keeps (E := E) (unregister_pending l).
Proof. apply keeps_unregister_loop. Qed.

Hint Resolve keeps_unregister_pending : keeps.

Lemma keeps_roll_back l e : keeps (E := E) (roll_back l e).
Proof. apply keeps_branch. keeps_tac. Qed.

Hint Resolve keeps_roll_back : keeps.

Lemma keeps_register_one units d : keeps (E := E) (register_one units d).
Proof.
  unfold register_one, reconcile, registration_release_failure. keeps_tac.
Qed.

Hint Resolve keeps_register_one : keeps.

Lemma keeps_register_loop units l : forall reg, keeps (E := E) (register_loop units l reg).
Proof. induction l as [|d l IH]; intros reg; simpl; keeps_tac. Qed.

Lemma keeps_retry_loop l : forall o, keeps (E := E) (retry_loop l o).
Proof.
  induction l as [|[k [|d b]] l IH]; intros o; simpl; [keeps_tac|apply IH|].
  apply keeps_branch. apply keeps_bind; [auto with keeps|]. intros [v cleanup|e|st e];
    [apply IH|apply (keeps_branch (fun s => negb (permits_callbacks s))), IH..].
Qed.

Lemma keeps_retry l : keeps (E := E) (retry_metadata_debt_with_host l).
Proof. apply keeps_bind; [apply keeps_retry_loop|]. intros o c s H. done. Qed.

Lemma keeps_register_all units l : keeps (E := E) (register_all units l).
Proof. apply keeps_register_loop. Qed.

(** The session an action uses; the others call nothing. *)
Definition session_of (a : action) : HostCallbackState :=
  match a with
  | Open _ c _ _ | ExecuteCleanup _ c | ExecuteMetadata _ c => c
  | _ => Available
  end.

(** The log of one entry point that began in [c]. *)
Definition quiet_log (c : HostCallbackState) (l : list event) : Prop :=
  silent l /\ (c <> Available -> Forall is_release l).

Lemma in_session_quiet {A} c (m : M (logged E) A) w k w' :
  keeps m -> log (host w) = [] -> (forall a w1, k a w1 = Done (Some w') -> host w' = host w1) ->
  in_session c m w k = Done (Some w') -> quiet_log c (log (host w')).
Proof.
  intros Hm Hl Hk H. unfold in_session in H.
  assert (quiet c (Calls c (host w))) as Hq.
  { unfold quiet. simpl. rewrite Hl. split; [done|]. split; [by intros; apply Forall_nil|].
    intros Hc. split; [done|by apply Forall_nil]. }
  specialize (Hm c _ Hq). destruct (m (Calls c (host w))) as [[a s]| |]; simplify_eq/=.
  rewrite (Hk _ _ H). simpl. destruct Hm as (H1 & _ & H2). split; [done|by apply H2].
Qed.

Lemma perform_quiet a w w' :
  log (host w) = [] -> perform a w = Done (Some w') -> quiet_log (session_of a) (log (host w')).
Proof.
  intros Hl H.
  assert (Hno : forall c, host w' = host w -> quiet_log c (log (host w'))).
  { intros c ->. rewrite Hl. split; [done|]. intros _. by apply Forall_nil. }
  destruct a as [pw c units ds|i j|i| |k c|k| |k c|k|k|k]; simpl in H |- *.
  1:{ unfold open_functions in H. destruct (preflight_registration pw ds) as [[ps|e]| |];
        simplify_eq/=; [|by apply Hno].
      eapply in_session_quiet; [apply keeps_register_all|done| |exact H]. by intros r w1 [= <-]. }
  4:{ destruct (claims w !! k) as [[l|o| |l|o| |]|]; try done.
      eapply in_session_quiet; [apply keeps_unregister_pending|done| |exact H]. by intros r w1 [= <-]. }
  6:{ destruct (claims w !! k) as [[l|o| |l|o| |]|]; try done.
      eapply in_session_quiet; [apply keeps_retry|done| |exact H]. by intros r w1 [= <-]. }
  all: apply Hno; repeat case_match; by simplify_eq/=.
Qed.

(** C14: Every entry point returns without a panic, whatever state the ledger,
    the journals and the claims have reached and whatever Excel answers; and
    from the first callback of its session that Excel answers with a terminal
    status on, it makes no call but the release of results it already has.
    An entry point that begins in a suppressed session makes no other call. *)
Theorem terminal_status_silences_excel {C : ExcelContract E} e w a :
  held e = [] -> reachable e w -> allowed a ->
  exists o,
    perform a (World (ledger w) (Logged [] (host w)) (journals w) (claims w)) = Done o /\
    forall w', o = Some w' ->
      silent (log (host w')) /\ (session_of a <> Available -> Forall is_release (log (host w'))).
Proof.
  intros He Hw Ha. pose proof (reachable_inv e w He Hw) as [].
  set (v := World (ledger w) (Logged [] (host w)) (journals w) (claims w)).
  assert (inv v) as Hv by (by split).
  destruct (perform_inv a v Hv Ha) as (o & Ho & _). exists o. split; [done|].
  intros w' ->. by apply (perform_quiet a v w').
Qed.

End Registrar.

(** ** Witness *)

(** The user interrupts the opening: one call, aborted, and its release. *)
Definition interrupted : small_excel := Host [] 1 2 true.

Lemma terminal_status_silences_excel_witness :
  exists o, perform (Open W64 Available [67; 58; 92] example_descriptors)
      (initial (Logged [] interrupted)) = Done o /\
    (log ∘ host) <$> o = Some [(XLF_EVALUATE, XLRET_ABORT); (XL_FREE, XLRET_SUCCESS)] /\
    forall w', o = Some w' ->
      silent (log (host w')) /\ (Available <> Available -> Forall is_release (log (host w'))).
Proof.
  destruct (terminal_status_silences_excel interrupted (initial interrupted)
    (Open W64 Available [67; 58; 92] example_descriptors)) as (o & Ho & H).
  - done.
  - apply rtc_refl.
  - exact example_texts.
  - exists o. split; [exact Ho|]. split; [|exact H].
    vm_compute in Ho. injection Ho as <-. by vm_compute.
Defined.

End RegistrationSessions.
