(* ===== verification/PeImage.v ===== *)
(** * PE images of a package

    Models crates/xlfn-package/src/pe.rs with the name rules of names.rs and
    the marker of error.rs: the mapped sections of an image, the export policy
    of an XLL, and the dependency graph of a package.  A [BTreeSet] is the
    list of its elements and a [BTreeMap] the list of its entries, both in
    iteration order; the PE reader is the [object] crate, so its decoded
    tables are the inputs.  Errors keep the data their texts show. *)

From Stdlib Require Import Sorting.Sorted.
From S2P Require Import Prelude SealableCounter Names Errors Utf16.

Local Open Scope Z_scope.

(** ** Data *)
Module PeData.
Import Str.

Inductive EffectiveCrtPolicy : Type := Dynamic | Static.

Inductive ExportSymbol : Type := SymName (name : str) | SymOrdinal (ordinal : Z).

Inductive ImportTarget : Type := TargetName (name : str) | TargetOrdinal (ordinal : Z).

#[export] Instance ExportSymbol_eq_dec : EqDecision ExportSymbol.
Proof. solve_decision. Defined.

Record ForwardedExport : Type := mk_forwarded { library : str; symbol : ExportSymbol }.

Record PeInfo : Type := mk_info {
  machine : Z;
  characteristics : Z;
  exports : list str;
  forwarded_exports : list (ExportSymbol * ForwardedExport);
  executable_exports : list str;
  has_export_manifest : bool;
  expected_exports : list str;
  crt_policy : option EffectiveCrtPolicy;
  imports : list str;
  import_targets : list (str * list ImportTarget);
  delay_imports : list str;
  delay_import_targets : list (str * list ImportTarget);
  exported_ordinals : list Z;
  nonzero_export_slots : list Z;
  named_export_slots : list Z
}.

(** [BTreeMap::get]. *)
Fixpoint get {K V} `{EqDecision K} (k : K) (m : list (K * V)) : option V :=
  match m with
  | [] => None
  | (k', v) :: m => if decide (k' = k) then Some v else get k m
  end.

(** [BTreeSet::contains]. *)
Definition contains {A} `{EqDecision A} (x : A) (s : list A) : bool := bool_decide (x ∈ s).

(** [a.difference(&b)]. *)
Definition difference {A} `{EqDecision A} (a b : list A) : list A :=
  filter (fun x => x ∉ b) a.

Definition has_export_symbol (info : PeInfo) (s : ExportSymbol) : bool :=
  match s with
  | SymName name => contains name (exports info)
  | SymOrdinal ordinal => contains ordinal (exported_ordinals info)
  end.

Inductive Architecture : Type := X86 | X64.

Definition machine_code (a : Architecture) : Z :=
  match a with X86 => 0x014C | X64 => 0x8664 end.

Definition architecture_parse (target : str) : option Architecture :=
  if str_eqb target (lit "i686-pc-windows-msvc") then Some X86
  else if str_eqb target (lit "x86_64-pc-windows-msvc") then Some X64
  else None.

Inductive PackageError : Type :=
| WrongMachine
| NotExecutableImage
| NotDllImage
| SystemImage
| MissingExportManifest
| MissingCrtMarker
| MissingExport (name : str)
| ForwardsExport (name : str) (f : ForwardedExport)
| NotDirectTarget (name : str)
| IncompleteManifest (name : str)
| MissingExpected (names : list str)
| ExpectedNotExecutable (names : list str)
| UnexpectedExports (names : list str)
| OrdinalOnlyExports
| InvalidBasename (field : string) (name : str) (e : Basename.WindowsBasenameError)
| NotADllName (field : string) (name : str)
| BundledAndExternal (name : str)
| InternalGraphError (name : str)
| UnresolvedImport (chain : list str)
| UnresolvedImportTarget (chain : list str) (target : ImportTarget)
| CyclicForwardedExport (cycle : list (str * ExportSymbol))
| MissingForwardedTarget (display : str) (s : ExportSymbol)
| UnresolvedForwardedExport (display : str) (s : ExportSymbol) (f : ForwardedExport)
| ForwardedTargetMissing (display : str) (s : ExportSymbol) (target : str) (t : ExportSymbol)
| InconsistentAlignment
| SectionOverflow
| SectionLayout
| MalformedMarker (why : string)
| UnsupportedMarkerSchema (schema : Z)
| InvalidMarkerPolicy (value : Z).

Abbreviation PackageResult T := (result T PackageError).

(** Sequencing of fallible steps, the [?] of the source. *)
Definition rbind {A B} (r : PackageResult A) (f : A -> PackageResult B) : PackageResult B :=
  match r with Ok a => f a | Err e => Err e end.

(** [for x in l { step(x)?; }]. *)
Fixpoint for_each {A} (step : A -> PackageResult unit) (l : list A) : PackageResult unit :=
  match l with
  | [] => Ok tt
  | x :: l => rbind (step x) (fun _ => for_each step l)
  end.

Definition to_ascii_lowercase (c : char) : char := if is_ascii_uppercase c then c + 32 else c.
Definition lowercase (s : str) : str := to_ascii_lowercase <$> s.

Definition str_ends_with (suffix s : str) : bool :=
  bool_decide (drop (length s - length suffix) s = suffix).

Definition windows_name_key (field : string) (name : str) : PackageResult str :=
  match Basename.validate_windows_basename name with
  | Err e => Err (InvalidBasename field name e)
  | Ok _ => Ok (lowercase name)
  end.

Definition windows_dll_name_key (field : string) (name : str) : PackageResult str :=
  rbind (windows_name_key field name) (fun key =>
  if negb (str_ends_with (lit ".dll") (lowercase name)) then Err (NotADllName field name)
  else Ok key).

Definition SYSTEM_DLLS : list str :=
  lit <$> ["advapi32.dll"; "api-ms-win-core-synch-l1-1-0.dll"; "api-ms-win-core-synch-l1-2-0.dll";
    "bcrypt.dll"; "bcryptprimitives.dll"; "cabinet.dll"; "cfgmgr32.dll"; "comctl32.dll";
    "comdlg32.dll"; "combase.dll"; "crypt32.dll"; "d2d1.dll"; "d3d11.dll"; "dwrite.dll";
    "dwmapi.dll"; "dxgi.dll"; "gdi32.dll"; "imm32.dll"; "iphlpapi.dll"; "kernel32.dll"; "mpr.dll";
    "msvcrt.dll"; "netapi32.dll"; "ntdll.dll"; "ole32.dll"; "oleaut32.dll"; "powrprof.dll";
    "psapi.dll"; "rpcrt4.dll"; "secur32.dll"; "setupapi.dll"; "shell32.dll"; "shlwapi.dll";
    "ucrtbase.dll"; "user32.dll"; "userenv.dll"; "uxtheme.dll"; "version.dll"; "winhttp.dll";
    "wininet.dll"; "winmm.dll"; "wintrust.dll"; "ws2_32.dll"]%string.

Definition is_system (name : str) : bool := contains name SYSTEM_DLLS.

End PeData.

(** ** The CRT policy marker *)
Module Marker.
Import Str PeData.

Definition CRT_MARKER_MAGIC : list Z := lit "XLFNCRT" ++ [0].
Definition CRT_MARKER_SCHEMA : Z := 1.

(** [data.windows(n)]. *)
Fixpoint windows (n : nat) (data : list Z) : list (list Z) :=
  if (length data <? n)%nat then []
  else match data with [] => [] | _ :: data' => take n data :: windows n data' end.

Definition byte_at (data : list Z) (i : nat) : Z := nth i data 0.

Definition parse_crt_marker (data : list Z) : PackageResult EffectiveCrtPolicy :=
  if (length data <? 16)%nat || negb (bool_decide (take 8 data = CRT_MARKER_MAGIC))
  then Err (MalformedMarker "marker must start at section offset 0")
  else if negb (length (filter (fun w => w = CRT_MARKER_MAGIC) (windows 8 data)) =? 1)%nat
  then Err (MalformedMarker "multiple magic values")
  else if existsb (fun b => negb (b =? 0)) (drop 16 data)
  then Err (MalformedMarker "non-zero section padding")
  else
    let marker := take 16 data in
    if negb (byte_at marker 8 =? CRT_MARKER_SCHEMA)
    then Err (UnsupportedMarkerSchema (byte_at marker 8))
    else if existsb (fun b => negb (b =? 0)) (drop 10 marker)
    then Err (MalformedMarker "reserved bytes are not zero")
    else if byte_at marker 9 =? 0 then Ok Dynamic
    else if byte_at marker 9 =? 1 then Ok Static
    else Err (InvalidMarkerPolicy (byte_at marker 9)).

End Marker.

(** ** Mapped sections *)
Module Sections.
Import PeData.

(** The fields of an optional header and of a section header, as [u32]s; the
    executable flag is the one the section's characteristics carry. *)
Record OptionalHeader : Type := mk_optional {
  section_alignment : Z; file_alignment : Z; size_of_image : Z; size_of_headers : Z
}.

Record SectionHeader : Type := mk_section {
  virtual_address : Z; virtual_size : Z; size_of_raw_data : Z; mem_execute : bool
}.

Record MappedSection : Type := mk_mapped { start : Z; content_end : Z; executable : bool }.

(** [u32::is_power_of_two]. *)
Definition is_power_of_two (x : Z) : bool := (0 <? x) && (Z.land x (x - 1) =? 0).

Definition align_end (alignment end_ : Z) : PackageResult Z :=
  match checked_add 32 end_ (alignment - 1) with
  | Some e => Ok (Z.land e (Z.lxor (alignment - 1) (2 ^ 32 - 1)))
  | None => Err SectionOverflow
  end.

Fixpoint map_sections (alignment image_size previous_end : Z) (table : list SectionHeader)
  : PackageResult (list MappedSection) :=
  match table with
  | [] => Ok []
  | section :: table =>
      let start := virtual_address section in
      let size := Z.max (virtual_size section) (size_of_raw_data section) in
      if size =? 0 then map_sections alignment image_size previous_end table
      else
        match checked_add 32 start size with
        | None => Err SectionOverflow
        | Some content_end =>
            rbind (align_end alignment content_end) (fun mapped_end =>
            if negb (start mod alignment =? 0) || (start <? previous_end)
               || (image_size <? mapped_end)
            then Err SectionLayout
            else
              rbind (map_sections alignment image_size mapped_end table) (fun sections =>
              Ok (mk_mapped start content_end (mem_execute section) :: sections)))
        end
  end.

Definition validate_mapped_sections (optional : OptionalHeader) (table : list SectionHeader)
  : PackageResult (list MappedSection) :=
  let alignment := section_alignment optional in
  let image_size := size_of_image optional in
  let headers_size := size_of_headers optional in
  if negb (is_power_of_two alignment) || negb (is_power_of_two (file_alignment optional))
     || (alignment <? file_alignment optional)
     || ((alignment <? 4096) && negb (alignment =? file_alignment optional))
     || negb (image_size mod alignment =? 0) || (image_size <? headers_size)
  then Err InconsistentAlignment
  else
    rbind (align_end alignment headers_size) (fun previous_end =>
    map_sections alignment image_size previous_end table).

(** The section an export address falls in, as the export reader looks it up. *)
Definition section_of (address : Z) (sections : list MappedSection) : option MappedSection :=
  find (fun s => (start s <=? address) && (address <? content_end s)) sections.

End Sections.

(** ** Exports of an XLL *)
Module XllExports.
Import Str PeData.

Definition REQUIRED_XLL_EXPORTS : list str :=
  lit <$> ["xlAutoOpen"; "xlAutoClose"; "xlAutoRemove"; "xlAutoFree12"; "xlAddInManagerInfo12";
    "__xlfn_calculation_ended"]%string.

Definition loader_entry : str := lit "_DllMainCRTStartup".

Definition reject_forwarded_xll_export (info : PeInfo) (export : str) : PackageResult unit :=
  match get (SymName export) (forwarded_exports info) with
  | Some forwarded => Err (ForwardsExport export forwarded)
  | None => Ok tt
  end.

Definition check_direct (info : PeInfo) (export : str) : PackageResult unit :=
  if negb (contains export (exports info)) then Err (MissingExport export)
  else
    rbind (reject_forwarded_xll_export info export) (fun _ =>
    if negb (contains export (executable_exports info)) then Err (NotDirectTarget export)
    else Ok tt).

Definition check_required (info : PeInfo) (export : str) : PackageResult unit :=
  rbind (check_direct info export) (fun _ =>
  if negb (contains export (expected_exports info)) then Err (IncompleteManifest export)
  else Ok tt).

Definition verify_xll_exports (info : PeInfo) (required_exports : list str)
  : PackageResult unit :=
  if negb (has_export_manifest info) then Err MissingExportManifest
  else if bool_decide (crt_policy info = None) then Err MissingCrtMarker
  else
    rbind (for_each (check_required info) REQUIRED_XLL_EXPORTS) (fun _ =>
    rbind (for_each (check_direct info) required_exports) (fun _ =>
    let missing := difference (expected_exports info) (exports info) in
    if negb (bool_decide (missing = [])) then Err (MissingExpected missing)
    else
      rbind (for_each (reject_forwarded_xll_export info) (expected_exports info)) (fun _ =>
      let non_executable := difference (expected_exports info) (executable_exports info) in
      if negb (bool_decide (non_executable = [])) then Err (ExpectedNotExecutable non_executable)
      else
        let unexpected :=
          filter (fun name => name ∉ expected_exports info /\ name <> loader_entry)
                 (exports info) in
        if negb (bool_decide (unexpected = [])) then Err (UnexpectedExports unexpected)
        else
          let ordinal_only := difference (nonzero_export_slots info) (named_export_slots info) in
          if negb (bool_decide (ordinal_only = [])) then Err OrdinalOnlyExports
          else Ok tt))).

(** The image flags of the PE format, as the reader names them. *)
Section Flags.
Context (IMAGE_FILE_EXECUTABLE_IMAGE IMAGE_FILE_DLL IMAGE_FILE_SYSTEM : Z).

Definition verify_machine (info : PeInfo) (architecture : Architecture) : PackageResult unit :=
  if machine info =? machine_code architecture then Ok tt else Err WrongMachine.

Definition verify_image_characteristics (info : PeInfo) : PackageResult unit :=
  if Z.land (characteristics info) IMAGE_FILE_EXECUTABLE_IMAGE =? 0 then Err NotExecutableImage
  else if Z.land (characteristics info) IMAGE_FILE_DLL =? 0 then Err NotDllImage
  else if negb (Z.land (characteristics info) IMAGE_FILE_SYSTEM =? 0) then Err SystemImage
  else Ok tt.

Definition inspect_checked_info (info : PeInfo) (architecture : Architecture)
  : PackageResult PeInfo :=
  rbind (verify_machine info architecture) (fun _ =>
  rbind (verify_image_characteristics info) (fun _ => Ok info)).

End Flags.

End XllExports.

(** ** Lemmas on sections, exports and the marker *)
Module PeLemmas.
Import Str StrLemmas PeData Sections XllExports Utf16Lemmas.

Lemma power_of_two x : is_power_of_two x = true -> exists k, 0 <= k /\ x = 2 ^ k.
Proof.
  unfold is_power_of_two. rewrite andb_true_iff, Z.ltb_lt, Z.eqb_eq. intros [Hx H].
  exists (Z.log2 x). pose proof (Z.log2_nonneg x). split; [done|].
  pose proof (Z.log2_spec x Hx) as [L U]. set (k := Z.log2 x) in *.
  destruct (decide (x = 2 ^ k)) as [|Hne]; [done|].
  assert (Z.log2 (x - 1) = k) as E by (apply Z.log2_unique; lia).
  assert (Z.testbit (Z.land x (x - 1)) k = true) as B.
  { rewrite Z.land_spec. apply andb_true_iff. split; [by apply Z.bit_log2|].
    rewrite <- E. apply Z.bit_log2. pose proof (Z.pow_pos_nonneg 2 k). lia. }
  by rewrite H, Z.bits_0 in B.
Qed.

Lemma land_mask e k :
  0 <= k <= 32 -> 0 <= e < 2 ^ 32 ->
  Z.land e (Z.lxor (2 ^ k - 1) (2 ^ 32 - 1)) = e - e mod 2 ^ k.
Proof.
  intros Hk He. transitivity (Z.shiftl (Z.shiftr e k) k).
  - apply Z.bits_inj'. intros n Hn.
    rewrite Z.land_spec, Z.lxor_spec, !Z.sub_1_r, <- !Z.ones_equiv.
    destruct (Z.lt_ge_cases n k).
    + rewrite (Z.ones_spec_low k), (Z.ones_spec_low 32), Z.shiftl_spec_low by lia.
      by rewrite andb_false_r.
    + rewrite Z.shiftl_spec, Z.shiftr_spec, Z.sub_add by lia.
      rewrite (Z.ones_spec_high k) by lia. destruct (Z.lt_ge_cases n 32).
      * rewrite Z.ones_spec_low by lia. by rewrite andb_true_r.
      * rewrite Z.ones_spec_high by lia. rewrite andb_false_r. symmetry.
        destruct (decide (e = 0)) as [->|]; [by rewrite Z.bits_0|].
        apply Z.bits_above_log2; [lia|].
        assert (Z.log2 e < 32) by (apply Z.log2_lt_pow2; lia). lia.
  - rewrite Z.shiftl_mul_pow2, Z.shiftr_div_pow2 by lia.
    pose proof (Z.div_mod e (2 ^ k)). pose proof (Z.pow_pos_nonneg 2 k). lia.
Qed.

Lemma align_end_spec a end_ e :
  is_power_of_two a = true -> in_width 32 a -> in_width 32 end_ -> align_end a end_ = Ok e ->
  end_ <= e < end_ + a /\ e mod a = 0.
Proof.
  intros P Ha He. destruct (power_of_two a P) as (k & Hk & ->).
  assert (k < 32) by (apply (Z.pow_lt_mono_r_iff 2); unfold in_width in Ha; lia).
  pose proof (Z.pow_pos_nonneg 2 k). unfold align_end, checked_add.
  destruct (Z.ltb_spec (end_ + (2 ^ k - 1)) (2 ^ 32)); [|done]. intros [= <-].
  unfold in_width in *. rewrite land_mask by lia.
  pose proof (Z.mod_pos_bound (end_ + (2 ^ k - 1)) (2 ^ k)). split; [lia|].
  rewrite Zminus_mod_idemp_r, Z.sub_diag. done.
Qed.

(** One section behind the other inside the image. *)
Definition section_in (a lo hi : Z) (s : MappedSection) : Prop :=
  start s mod a = 0 /\ lo <= start s /\ start s < content_end s <= hi.

Lemma map_sections_spec a image prev table secs :
  is_power_of_two a = true -> in_width 32 a ->
  Forall (fun h => in_width 32 (virtual_address h) /\ 0 <= virtual_size h
                   /\ 0 <= size_of_raw_data h) table ->
  map_sections a image prev table = Ok secs ->
  StronglySorted (fun s t => content_end s <= start t) secs
  /\ Forall (section_in a prev image) secs.
Proof.
  intros P Ha F. revert prev secs. induction F as [|h table Hh F IH]; intros prev secs; simpl.
  { intros [= <-]. split; constructor. }
  destruct Hh as (Hv & Hs & Hr).
  destruct (Z.eqb_spec (Z.max (virtual_size h) (size_of_raw_data h)) 0) as [|Hz]; [apply IH|].
  set (size := Z.max (virtual_size h) (size_of_raw_data h)) in *.
  unfold checked_add. destruct (Z.ltb_spec (virtual_address h + size) (2 ^ 32)); [|done].
  destruct (align_end a (virtual_address h + size)) as [mapped|] eqn:Ea; [|done]. cbn [rbind].
  apply align_end_spec in Ea as [[Hm _] _]; try done; [|unfold in_width in *; lia].
  destruct (Z.eqb_spec (virtual_address h mod a) 0) as [E0|]; [|done]. cbn [negb orb].
  destruct (Z.ltb_spec (virtual_address h) prev); [done|].
  destruct (Z.ltb_spec image mapped); [done|]. cbn [orb].
  destruct (map_sections a image mapped table) as [rest|] eqn:Er; [|done]. cbn [rbind].
  intros [= <-]. destruct (IH mapped rest Er) as [S G]. split.
  - constructor; [done|]. eapply Forall_impl; [exact G|]. intros t (_ & ? & _). simpl. lia.
  - constructor.
    + unfold section_in. simpl. lia.
    + eapply Forall_impl; [exact G|]. unfold section_in. intros t (? & ? & ?). lia.
Qed.

(** *** Loops over checks *)
Lemma rbind_ok {A B} (r : PackageResult A) (f : A -> PackageResult B) b :
  rbind r f = Ok b <-> exists a, r = Ok a /\ f a = Ok b.
Proof.
  destruct r as [a|e]; simpl; [|split; [done|by intros (? & ? & _)]].
  split; [by exists a|by intros (? & [= <-] & ?)].
Qed.

(** A unit-valued step followed by the rest. *)
Lemma seq_ok {B} (r : PackageResult unit) (k : PackageResult B) b :
  rbind r (fun _ => k) = Ok b <-> r = Ok tt /\ k = Ok b.
Proof. destruct r as [[]|e]; simpl; [tauto|split; [done|by intros []]]. Qed.

Lemma for_each_ok {A} (step : A -> PackageResult unit) l :
  for_each step l = Ok tt <-> Forall (fun x => step x = Ok tt) l.
Proof.
  induction l as [|x l IH]; simpl; [split; [constructor|done]|].
  rewrite seq_ok, Forall_cons. tauto.
Qed.

Lemma if_ok {A} (b : bool) (e : PackageError) (k : PackageResult A) a :
  (if b then Err e else k) = Ok a <-> b = false /\ k = Ok a.
Proof. destruct b; split; [done|by intros []|done|tauto]. Qed.

Lemma contains_true {A} `{EqDecision A} (x : A) s : contains x s = true <-> x ∈ s.
Proof. apply bool_decide_eq_true. Qed.

Lemma difference_nil {A} `{EqDecision A} (a b : list A) :
  difference a b = [] <-> forall x, x ∈ a -> x ∈ b.
Proof.
  unfold difference. split.
  - intros E x Hx. destruct (decide (x ∈ b)) as [|N]; [done|].
    assert (x ∈ filter (fun x => x ∉ b) a) as H by (by apply list_elem_of_filter).
    rewrite E in H. by apply elem_of_nil in H.
  - intros H. apply elem_of_nil_inv. intros x [N Hx]%list_elem_of_filter. by apply N, H.
Qed.

(** An export that is present, points at code of the image and is not
    forwarded elsewhere. *)
Definition direct_export (info : PeInfo) (name : str) : Prop :=
  name ∈ exports info /\ name ∈ executable_exports info
  /\ get (SymName name) (forwarded_exports info) = None.

Lemma reject_forwarded_ok info name :
  reject_forwarded_xll_export info name = Ok tt
  <-> get (SymName name) (forwarded_exports info) = None.
Proof. unfold reject_forwarded_xll_export. by case_match. Qed.

Lemma check_direct_ok info name : check_direct info name = Ok tt <-> direct_export info name.
Proof.
  unfold check_direct, direct_export.
  rewrite if_ok, seq_ok, if_ok, !negb_false_iff, !contains_true, reject_forwarded_ok. tauto.
Qed.

Lemma check_required_ok info name :
  check_required info name = Ok tt <-> direct_export info name /\ name ∈ expected_exports info.
Proof.
  unfold check_required.
  rewrite seq_ok, if_ok, negb_false_iff, contains_true, check_direct_ok. tauto.
Qed.

Lemma unexpected_nil info :
  filter (fun n => n ∉ expected_exports info /\ n <> loader_entry) (exports info) = []
  <-> forall n, n ∈ exports info -> n ∈ expected_exports info \/ n = loader_entry.
Proof.
  split.
  - intros E n Hn. destruct (decide (n ∈ expected_exports info)); [by left|].
    destruct (decide (n = loader_entry)); [by right|].
    assert (n ∈ filter (fun n => n ∉ expected_exports info /\ n <> loader_entry) (exports info)) as H
      by (by apply list_elem_of_filter).
    rewrite E in H. by apply elem_of_nil in H.
  - intros H. apply elem_of_nil_inv. intros n [[N1 N2] Hn]%list_elem_of_filter.
    by destruct (H n Hn).
Qed.

(** *** The marker *)
Lemma windows_head n l w :
  (0 < n)%nat -> w ∈ Marker.windows n l -> exists x t, w = x :: t /\ x ∈ l.
Proof.
  intros Hn. induction l as [|b l IH]; simpl.
  { case_match; by rewrite elem_of_nil. }
  case_match; [by rewrite elem_of_nil|]. rewrite elem_of_cons. intros [->|Hw].
  - destruct n as [|n]; [lia|]. simpl. eexists _, _. split; [done|]. by left.
  - destruct (IH Hw) as (x & t & -> & Hx). eexists _, _. split; [done|]. by right.
Qed.

Lemma no_second_magic l :
  88 ∉ l -> filter (fun w => w = Marker.CRT_MARKER_MAGIC) (Marker.windows 8 l) = [].
Proof.
  intros N. apply elem_of_nil_inv. intros w [-> Hw]%list_elem_of_filter.
  apply windows_head in Hw as (x & t & E & Hx); [|lia].
  vm_compute in E. injection E as <- _. done.
Qed.

Lemma existsb_nonzero l : existsb (fun b => negb (b =? 0)) l = false <-> l = replicate (length l) 0.
Proof.
  induction l as [|b l IH]; simpl; [done|]. rewrite orb_false_iff, negb_false_iff, Z.eqb_eq, IH.
  split; [intros [-> E]; by rewrite <- E|]. intros [= -> E]. split; [done|]. exact E.
Qed.

Definition policy_code (p : EffectiveCrtPolicy) : Z := match p with Dynamic => 0 | Static => 1 end.

Definition marker_bytes (p : EffectiveCrtPolicy) (padding : nat) : list Z :=
  Marker.CRT_MARKER_MAGIC ++ [Marker.CRT_MARKER_SCHEMA; policy_code p]
  ++ replicate 6 0 ++ replicate padding 0.

End PeLemmas.

(** ** Correctness of the image checks *)
Module PeTheorems.
Import Str StrLemmas PeData Sections XllExports PeLemmas.

Definition u32_header (o : OptionalHeader) : Prop :=
  in_width 32 (section_alignment o) /\ in_width 32 (size_of_headers o).

Definition u32_section (h : SectionHeader) : Prop :=
  in_width 32 (virtual_address h) /\ 0 <= virtual_size h /\ 0 <= size_of_raw_data h.

(** C38: The mapped sections an image is accepted with are aligned, lie behind
    the headers and inside the image, and follow one another without overlap,
    arithmetic on 32-bit fields included; so an export address belongs to at
    most one section and the lookup finds it. *)
Theorem mapped_sections_disjoint optional table sections :
  u32_header optional -> Forall u32_section table ->
  validate_mapped_sections optional table = Ok sections ->
  StronglySorted (fun s t => content_end s <= start t) sections
  /\ Forall (section_in (section_alignment optional) (size_of_headers optional)
                        (size_of_image optional)) sections
  /\ forall address s, s ∈ sections -> start s <= address < content_end s ->
       section_of address sections = Some s.
Proof.
  intros [Ha Hh] F. unfold validate_mapped_sections. cbv zeta. rewrite if_ok, rbind_ok.
  intros (G & prev & Ep & E). rewrite !orb_false_iff, !negb_false_iff in G.
  destruct G as (((((P & _) & _) & _) & _) & _).
  apply align_end_spec in Ep as [[Hp _] _]; try done.
  apply map_sections_spec in E as [S I]; try done. split; [done|]. split.
  - eapply Forall_impl; [exact I|]. unfold section_in. intros s (? & ? & ?). lia.
  - intros address s Hs Hr. unfold section_of. clear -S I Hs Hr.
    induction S as [|t secs S IH G]; [by apply elem_of_nil in Hs|]. simpl.
    apply Forall_cons in I as [It I]. apply elem_of_cons in Hs as [->|Hs].
    + by rewrite (proj2 (Z.leb_le _ _)), (proj2 (Z.ltb_lt _ _)) by lia.
    + pose proof (proj1 (Forall_forall _ _) G s Hs) as L. simpl in L.
      rewrite (proj2 (Z.ltb_ge address (content_end t))) by lia. rewrite andb_false_r. by apply IH.
Qed.

Definition example_optional : OptionalHeader := mk_optional 0x1000 0x200 0x4000 0x400.
Definition example_table : list SectionHeader :=
  [mk_section 0x1000 0xF10 0x1000 true; mk_section 0x2000 0x10 0 false;
   mk_section 0x3000 0x800 0x200 false].
Definition example_sections : list MappedSection :=
  [mk_mapped 0x1000 0x2000 true; mk_mapped 0x2000 0x2010 false; mk_mapped 0x3000 0x3800 false].

Lemma mapped_sections_disjoint_witness :
  validate_mapped_sections example_optional example_table = Ok example_sections
  /\ section_of 0x3004 example_sections = Some (mk_mapped 0x3000 0x3800 false).
Proof.
  assert (validate_mapped_sections example_optional example_table = Ok example_sections) as E
    by (vm_compute; reflexivity).
  split; [exact E|].
  assert (u32_header example_optional) as H by (unfold u32_header, in_width; simpl; lia).
  assert (Forall u32_section example_table) as F
    by (unfold example_table; repeat (apply Forall_cons; split;
          [unfold u32_section, in_width; simpl; lia|]); apply Forall_nil_2).
  apply (proj2 (proj2 (mapped_sections_disjoint _ _ _ H F E))).
  - unfold example_sections. set_solver.
  - simpl. lia.
Defined.

(** An XLL passes the export policy exactly when it carries its manifest
    and CRT marker, the manifest lists the entry points Excel calls, every
    manifest and every required export is a direct, unforwarded code address
    of the image, and the image exports nothing else, by name (the loader
    entry apart) or by ordinal. *)
Theorem xll_export_policy info required_exports :
  verify_xll_exports info required_exports = Ok tt
  <-> has_export_manifest info = true /\ crt_policy info <> None
      /\ (forall n, n ∈ REQUIRED_XLL_EXPORTS -> n ∈ expected_exports info)
      /\ (forall n, n ∈ required_exports \/ n ∈ expected_exports info -> direct_export info n)
      /\ (forall n, n ∈ exports info -> n ∈ expected_exports info \/ n = loader_entry)
      /\ (forall s, s ∈ nonzero_export_slots info -> s ∈ named_export_slots info).
Proof.
  unfold verify_xll_exports. cbv zeta.
  rewrite !if_ok, !seq_ok, !if_ok, seq_ok, !if_ok, !negb_false_iff, bool_decide_eq_false,
    !bool_decide_eq_true, !difference_nil, unexpected_nil, !for_each_ok, !Forall_forall.
  setoid_rewrite check_required_ok. setoid_rewrite check_direct_ok.
  setoid_rewrite reject_forwarded_ok. split.
  - intros (? & ? & R & Q & M & Fw & X & U & O & _). split_and!; try done.
    + intros n Hn. by apply R.
    + intros n [Hn|Hn]; [by apply Q|]. split; [by apply M|]. split; [by apply X|by apply Fw].
  - intros (? & ? & R & Q & U & O). split_and!; try done; intros n Hn.
    + split; [apply Q; right; by apply R|by apply R].
    + apply Q. by left.
    + apply Q. by right.
    + apply Q. by right.
    + apply Q. by right.
Qed.

(** The CRT marker has one spelling per policy: a section is read as a
    policy exactly when it is the magic, the schema, the policy byte and
    nothing but zero bytes after them. *)
Theorem crt_marker_canonical data p :
  Marker.parse_crt_marker data = Ok p <-> exists padding, data = marker_bytes p padding.
Proof.
  split.
  - unfold Marker.parse_crt_marker. cbv zeta. rewrite !if_ok, orb_false_iff, negb_false_iff,
      bool_decide_eq_true, Nat.ltb_ge, !existsb_nonzero.
    intros ([Hl Hm] & _ & Hp & Hs & Hr & E). exists (length (drop 16 data)).
    rewrite negb_false_iff, Z.eqb_eq in Hs.
    assert (take 16 data = Marker.CRT_MARKER_MAGIC ++ [1; policy_code p] ++ replicate 6 0) as T.
    { rewrite <- (take_drop 8 (take 16 data)), take_take, Nat.min_l, Hm by lia. f_equal.
      assert (length (take 16 data) = 16%nat) as L by (rewrite length_take; lia).
      destruct (take 16 data) as [|b0 [|b1 [|b2 [|b3 [|b4 [|b5 [|b6 [|b7 [|b8 [|b9 rest]]]]]]]]]] eqn:Et;
        simpl in L; try lia.
      unfold Marker.byte_at in *. simpl in Hs, Hr, E |- *. subst b8.
      assert (length rest = 6%nat) as Lr by lia. rewrite drop_0, Lr in Hr. rewrite Hr.
      destruct (Z.eqb_spec b9 0) as [->|]; [by simplify_eq|].
      destruct (Z.eqb_spec b9 1) as [->|]; by simplify_eq. }
    unfold marker_bytes. rewrite <- Hp. transitivity (take 16 data ++ drop 16 data).
    + by rewrite take_drop.
    + by rewrite T, <- !app_assoc.
  - intros [k ->]. unfold Marker.parse_crt_marker. cbv zeta.
    assert (length (marker_bytes p k) = (16 + k)%nat) as L
      by (unfold marker_bytes; rewrite !length_app, !length_replicate; done).
    assert (take 16 (marker_bytes p k)
      = Marker.CRT_MARKER_MAGIC ++ [1; policy_code p] ++ replicate 6 0) as -> by (by destruct p, k).
    assert (drop 16 (marker_bytes p k) = replicate k 0) as -> by (by destruct p).
    assert (take 8 (marker_bytes p k) = Marker.CRT_MARKER_MAGIC) as -> by (by destruct p).
    assert (exists l, marker_bytes p k = 88 :: l /\ 88 ∉ l) as (l & El & Nl).
    { exists ((lit "LFNCRT" ++ [0; 1; policy_code p] ++ replicate 6 0) ++ replicate k 0).
      split; [by destruct p|]. rewrite not_elem_of_app, elem_of_replicate. split; [|by intros []].
      apply (bool_decide_eq_false_1 (88 ∈ _)). by destruct p. }
    assert (length (filter (fun w => w = Marker.CRT_MARKER_MAGIC)
              (Marker.windows 8 (marker_bytes p k))) = 1%nat) as ->.
    { assert (Marker.windows 8 (marker_bytes p k)
        = take 8 (marker_bytes p k) :: Marker.windows 8 l) as ->.
      { rewrite El in L |- *. cbn [Marker.windows]. rewrite L. done. }
      rewrite filter_cons_True by (by destruct p). by rewrite no_second_magic. }
    rewrite L. rewrite (proj2 (Nat.ltb_ge _ _)) by lia. rewrite bool_decide_true by done.
    assert (existsb (fun b => negb (b =? 0)) (replicate k 0) = false) as ->.
    { apply existsb_nonzero. by rewrite length_replicate. }
    by destruct p.
Qed.

End PeTheorems.
