(* ===== verification/PeGraph.v ===== *)
(** * The dependency graph of a package

    Models the closure checks of crates/xlfn-package/src/pe.rs: the iterative
    depth-first walk over imports with its shared visited set, and the walk
    along forwarded exports with its cycle detection.  The walks are loops
    with fuel; the fuel the graph needs is computed from the images and proved
    to be enough. *)

From Stdlib Require Import Sorting.Sorted.
From S2P Require Import Prelude SealableCounter Names Errors Utf16 PeImage.

Local Open Scope Z_scope.

Module Graph.
Import Str PeData XllExports.

(** [BTreeMap<String, (String, PeInfo)>]: key, display name and image. *)
Abbreviation Images := (list (str * (str * PeInfo))).

Abbreviation Import := (str * option (list ImportTarget))%type.

Definition dependency_imports (image : PeInfo) : list Import :=
  ((fun name => (name, get name (import_targets image))) <$> imports image)
  ++ ((fun name => (name, get name (delay_import_targets image))) <$> delay_imports image).

Definition target_exists (image : PeInfo) (target : ImportTarget) : bool :=
  match target with
  | TargetName name => contains name (exports image)
  | TargetOrdinal ordinal => contains ordinal (exported_ordinals image)
  end.

(** The first target of an import that the image does not export. *)
Definition missing_target (image : PeInfo) (targets : option (list ImportTarget))
  : option ImportTarget :=
  match targets with
  | None => None
  | Some targets => find (fun t => negb (target_exists image t)) targets
  end.

(** A frame of the walk: the image and the imports left of its iterator. *)
Abbreviation Frame := (str * list Import)%type.

(** The display names along the stack, outermost first. *)
Definition stack_displays (images : Images) (stack : list Frame) : list str :=
  omap (fun f => fst <$> get (fst f) images) (rev stack).

(** The loop of [validate_dependency_node]; the head of [stack] is its last
    frame.  [None] is exhausted fuel. *)
Fixpoint dependency_loop (fuel : nat) (images : Images) (external : list str)
    (stack : list Frame) (visited : list str) : option (PackageResult (list str)) :=
  match fuel with
  | O => None
  | S fuel =>
      match stack with
      | [] => Some (Ok visited)
      | (_, []) :: stack => dependency_loop fuel images external stack visited
      | (current, (imported_name, targets) :: rest) :: below =>
          let stack := (current, rest) :: below in
          match windows_dll_name_key "PE import" imported_name with
          | Err e => Some (Err e)
          | Ok imported =>
              if is_system imported || contains imported external
              then dependency_loop fuel images external stack visited
              else
                match get imported images with
                | None =>
                    Some (Err (UnresolvedImport (stack_displays images stack ++ [imported])))
                | Some (imported_display, imported_image) =>
                    match missing_target imported_image targets with
                    | Some target =>
                        Some (Err (UnresolvedImportTarget
                                     (stack_displays images stack ++ [imported_display]) target))
                    | None =>
                        if contains imported visited
                        then dependency_loop fuel images external stack visited
                        else
                          dependency_loop fuel images external
                            ((imported, dependency_imports imported_image) :: stack)
                            (imported :: visited)
                    end
                end
          end
      end
  end.

Definition validate_dependency_node (fuel : nat) (current : str) (images : Images)
    (external : list str) (visited : list str) : option (PackageResult (list str)) :=
  if contains current visited then Some (Ok visited)
  else
    match get current images with
    | None => Some (Err (InternalGraphError current))
    | Some (_, image) =>
        dependency_loop fuel images external [(current, dependency_imports image)]
          (current :: visited)
    end.

Fixpoint validate_roots (fuel : nat) (roots : list str) (images : Images) (external : list str)
    (visited : list str) : option (PackageResult unit) :=
  match roots with
  | [] => Some (Ok tt)
  | root :: roots =>
      match validate_dependency_node fuel root images external visited with
      | None => None
      | Some (Err e) => Some (Err e)
      | Some (Ok visited) => validate_roots fuel roots images external visited
      end
  end.

Abbreviation Node := (str * ExportSymbol)%type.

(** [stack[position..]]: the part of the chain from the first visit of [node]. *)
Fixpoint from_first (node : Node) (chain : list Node) : list Node :=
  match chain with
  | [] => []
  | n :: chain' => if decide (n = node) then chain else from_first node chain'
  end.

(** The loop of [validate_forwarded_symbol]; [stack] holds the nodes walked so
    far, last first, and stands for the position map too.  The result is the
    new set of resolved nodes. *)
Fixpoint forward_loop (fuel : nat) (images : Images) (external : list str) (node : Node)
    (stack resolved : list Node) : option (PackageResult (list Node)) :=
  match fuel with
  | O => None
  | S fuel =>
      if contains node resolved then Some (Ok (stack ++ resolved))
      else if contains node stack
      then Some (Err (CyclicForwardedExport (from_first node (rev stack) ++ [node])))
      else
        let '(image_name, symbol_) := node in
        match get image_name images with
        | None => Some (Err (InternalGraphError image_name))
        | Some (display, image) =>
            match get symbol_ (forwarded_exports image) with
            | None =>
                if has_export_symbol image symbol_
                then Some (Ok (stack ++ node :: resolved))
                else Some (Err (MissingForwardedTarget display symbol_))
            | Some forwarded =>
                let stack := node :: stack in
                let target_library := lowercase (library forwarded) in
                if is_system target_library || contains target_library external
                then Some (Ok (stack ++ resolved))
                else
                  match get target_library images with
                  | None => Some (Err (UnresolvedForwardedExport display symbol_ forwarded))
                  | Some (target_display, target_image) =>
                      if negb (has_export_symbol target_image (symbol forwarded))
                      then Some (Err (ForwardedTargetMissing display symbol_ target_display
                                        (symbol forwarded)))
                      else forward_loop fuel images external (target_library, symbol forwarded)
                             stack resolved
                  end
            end
        end
  end.

Fixpoint validate_forwarded_nodes (fuel : nat) (nodes : list Node) (images : Images)
    (external : list str) (resolved : list Node) : option (PackageResult unit) :=
  match nodes with
  | [] => Some (Ok tt)
  | node :: nodes =>
      match forward_loop fuel images external node [] resolved with
      | None => None
      | Some (Err e) => Some (Err e)
      | Some (Ok resolved) => validate_forwarded_nodes fuel nodes images external resolved
      end
  end.

(** The forwarded symbols of all images, in iteration order. *)
Definition forwarded_nodes (images : Images) : list Node :=
  images ≫= (fun entry => (fun f => (entry.1, f.1)) <$> forwarded_exports entry.2.2).

Definition validate_forwarded_exports (fuel : nat) (images : Images) (external : list str)
  : option (PackageResult unit) :=
  validate_forwarded_nodes fuel (forwarded_nodes images) images external [].

(** Enough for every walk: one step per import and per frame of each image,
    and one per forwarded symbol. *)
Definition image_weight (entry : str * (str * PeInfo)) : nat :=
  S (length (dependency_imports entry.2.2)).
Definition import_fuel (images : Images) : nat := S (sum_list_with image_weight images).
Definition forward_fuel (images : Images) : nat := S (S (length (forwarded_nodes images))).

Definition validate_dependency_graph (images : Images) (external : list str)
  : option (PackageResult unit) :=
  match filter (fun name => name ∈ images.*1) external with
  | name :: _ => Some (Err (BundledAndExternal name))
  | [] =>
      match validate_roots (import_fuel images) images.*1 images external [] with
      | Some (Ok _) => validate_forwarded_exports (forward_fuel images) images external
      | r => r
      end
  end.

(** *** Assembling the images of a package *)

(** Byte order of strings, the order of a [BTreeMap<String, _>]. *)
Fixpoint str_ltb (a b : str) : bool :=
  match a, b with
  | [], [] => false
  | [], _ :: _ => true
  | _ :: _, [] => false
  | x :: a, y :: b => if x =? y then str_ltb a b else x <? y
  end.

(** [BTreeMap::insert]: the map and whether a value was replaced. *)
Fixpoint insert (key : str) (v : str * PeInfo) (m : Images) : Images * bool :=
  match m with
  | [] => ([(key, v)], false)
  | (k, w) :: m' =>
      if decide (k = key) then ((key, v) :: m', true)
      else if str_ltb key k then ((key, v) :: m, false)
      else let '(m'', replaced) := insert key v m' in ((k, w) :: m'', replaced)
  end.

Inductive ClosureError : Type :=
| Package (e : PackageError)
| UnsupportedTarget (target : str)
| RootCollision (name root : str)
| DuplicateDll (name : str)
| ShadowsSystemDll (name : str).

Section Closure.
(** A bundled file is its name and its bytes, which the PE reader parses. *)
Context {Bytes : Type} (parse_pe_bytes : Bytes -> PackageResult PeInfo)
        (IMAGE_FILE_EXECUTABLE_IMAGE IMAGE_FILE_DLL IMAGE_FILE_SYSTEM : Z).

Definition inspect_checked (file : str * Bytes) (architecture : Architecture)
  : PackageResult PeInfo :=
  rbind (parse_pe_bytes file.2) (fun info =>
  inspect_checked_info IMAGE_FILE_EXECUTABLE_IMAGE IMAGE_FILE_DLL IMAGE_FILE_SYSTEM
    info architecture).

Definition is_dll_name (name : str) : bool := str_ends_with (lit ".dll") (lowercase name).

(** The loop of [verify_dependency_closure] over the bundle. *)
Fixpoint add_bundled (architecture : Architecture) (root_key root_name : str)
    (files : list (str * Bytes)) (images : Images) : result Images ClosureError :=
  match files with
  | [] => Ok images
  | file :: files =>
      if negb (is_dll_name file.1)
      then add_bundled architecture root_key root_name files images
      else
        match windows_dll_name_key "bundled DLL" file.1 with
        | Err e => Err (Package e)
        | Ok key =>
            if decide (key = root_key) then Err (RootCollision file.1 root_name)
            else
              match inspect_checked file architecture with
              | Err e => Err (Package e)
              | Ok info =>
                  match insert key (file.1, info) images with
                  | (_, true) => Err (DuplicateDll file.1)
                  | (images, false) => add_bundled architecture root_key root_name files images
                  end
              end
        end
  end.

Definition verify_dependency_closure (root_name target : str) (files : list (str * Bytes))
    (external : list str) (xll_info : PeInfo) : option (result unit ClosureError) :=
  match architecture_parse target with
  | None => Some (Err (UnsupportedTarget target))
  | Some architecture =>
      match windows_name_key "XLL basename" root_name with
      | Err e => Some (Err (Package e))
      | Ok root_key =>
          match add_bundled architecture root_key root_name files
                  [(root_key, (root_name, xll_info))] with
          | Err e => Some (Err e)
          | Ok images =>
              match validate_dependency_graph images external with
              | None => None
              | Some (Err e) => Some (Err (Package e))
              | Some (Ok _) => Some (Ok tt)
              end
          end
      end
  end.

(** The loop of [verify_pe_dependency_closure] over its colocated DLLs. *)
Fixpoint add_colocated (architecture : Architecture) (root_key root_name : str)
    (files : list (str * Bytes)) (images : Images) : result Images ClosureError :=
  match files with
  | [] => Ok images
  | file :: files =>
      match windows_dll_name_key "bundled DLL" file.1 with
      | Err e => Err (Package e)
      | Ok key =>
          if is_system key then Err (ShadowsSystemDll file.1)
          else if decide (key = root_key) then Err (RootCollision file.1 root_name)
          else
            match inspect_checked file architecture with
            | Err e => Err (Package e)
            | Ok info =>
                match insert key (file.1, info) images with
                | (_, true) => Err (DuplicateDll file.1)
                | (images, false) => add_colocated architecture root_key root_name files images
                end
            end
      end
  end.

Definition verify_pe_dependency_closure (root : str * Bytes) (target : str)
    (bundled : list (str * Bytes)) : option (result unit ClosureError) :=
  match architecture_parse target with
  | None => Some (Err (UnsupportedTarget target))
  | Some architecture =>
      match windows_name_key "PE root basename" root.1 with
      | Err e => Some (Err (Package e))
      | Ok root_key =>
          match inspect_checked root architecture with
          | Err e => Some (Err (Package e))
          | Ok root_info =>
              match add_colocated architecture root_key root.1 bundled
                      [(root_key, (root.1, root_info))] with
              | Err e => Some (Err e)
              | Ok images =>
                  match validate_dependency_graph images [] with
                  | None => None
                  | Some (Err e) => Some (Err (Package e))
                  | Some (Ok _) => Some (Ok tt)
                  end
              end
          end
      end
  end.

End Closure.

End Graph.

(** ** What the walks decide *)
Module GraphSpec.
Import Str PeData XllExports PeLemmas Graph.

Section Spec.
Context (images : Images) (external : list str).

(** An import resolves: it names a DLL outside the package, or an image of the
    package that exports everything imported from it. *)
Definition resolves (i : Import) : Prop :=
  exists key, windows_dll_name_key "PE import" i.1 = Ok key
    /\ (is_system key = true \/ key ∈ external
        \/ exists display image, get key images = Some (display, image)
                                 /\ missing_target image i.2 = None).

(** A forwarded symbol reaches an export after finitely many hops. *)
Inductive forward_resolves : Node -> Prop :=
| forward_export name s display image :
    get name images = Some (display, image) -> get s (forwarded_exports image) = None ->
    has_export_symbol image s = true -> forward_resolves (name, s)
| forward_outside name s display image f :
    get name images = Some (display, image) -> get s (forwarded_exports image) = Some f ->
    is_system (lowercase (library f)) = true \/ lowercase (library f) ∈ external ->
    forward_resolves (name, s)
| forward_hop name s display image f target_display target :
    get name images = Some (display, image) -> get s (forwarded_exports image) = Some f ->
    is_system (lowercase (library f)) = false -> lowercase (library f) ∉ external ->
    get (lowercase (library f)) images = Some (target_display, target) ->
    has_export_symbol target (symbol f) = true ->
    forward_resolves (lowercase (library f), symbol f) ->
    forward_resolves (name, s).

Definition closed_package : Prop :=
  (forall name, name ∈ external -> name ∉ images.*1)
  /\ (forall key display image i, get key images = Some (display, image) ->
        i ∈ dependency_imports image -> resolves i)
  /\ (forall n, n ∈ forwarded_nodes images -> forward_resolves n).

(** *** Maps *)
Lemma get_elem {V} (k : str) (m : list (str * V)) v : get k m = Some v -> (k, v) ∈ m.
Proof.
  induction m as [|[k' v'] m IH]; simpl; [done|]. case_decide as E.
  - intros [= ->]. subst. left.
  - intros H. right. by apply IH.
Qed.

Lemma elem_get {V} (k : str) (m : list (str * V)) v :
  NoDup m.*1 -> (k, v) ∈ m -> get k m = Some v.
Proof.
  induction m as [|[k' v'] m IH]; simpl; intros N H; [by apply elem_of_nil in H|].
  apply NoDup_cons in N as [N1 N]. apply elem_of_cons in H as [[= -> ->]|H].
  - by rewrite decide_True.
  - rewrite decide_False; [by apply IH|]. intros ->. apply N1.
    apply list_elem_of_fmap. by exists (k, v).
Qed.

Lemma key_get {V} (k : str) (m : list (str * V)) : k ∈ m.*1 -> exists v, get k m = Some v.
Proof.
  induction m as [|[k' v'] m IH]; simpl; intros H; [by apply elem_of_nil in H|].
  case_decide as E; [by eexists|]. apply elem_of_cons in H as [->|H]; [done|]. by apply IH.
Qed.

(** *** Imports *)
Definition imports_of (key : str) : list Import :=
  match get key images with Some (_, image) => dependency_imports image | None => [] end.

(** A frame holds imports of its image. *)
Definition frame_ok (visited : list str) (f : Frame) : Prop :=
  f.1 ∈ visited /\ f.1 ∈ images.*1 /\ forall i, i ∈ f.2 -> i ∈ imports_of f.1.

(** Every import of a visited image has been checked or waits in a frame. *)
Definition walk_ok (stack : list Frame) (visited : list str) : Prop :=
  Forall (frame_ok visited) stack
  /\ forall key i, key ∈ visited -> i ∈ imports_of key ->
       resolves i \/ exists rest, (key, rest) ∈ stack /\ i ∈ rest.

Definition weight_left (visited : list str) : nat :=
  sum_list_with image_weight (filter (fun e => e.1 ∉ visited) images).

Definition stack_weight (stack : list Frame) : nat :=
  sum_list_with (fun f => S (length f.2)) stack.

Lemma filter_weight_le (P Q : str * (str * PeInfo) -> Prop) `{!forall x, Decision (P x)}
    `{!forall x, Decision (Q x)} (l : Images) :
  (forall e, P e -> Q e) ->
  (sum_list_with image_weight (filter P l) <= sum_list_with image_weight (filter Q l))%nat.
Proof.
  intros Sub. induction l as [|e l IH]; [done|]. rewrite !filter_cons.
  destruct (decide (P e)) as [p|p], (decide (Q e)) as [q|q]; simpl; try lia.
  by destruct q; apply Sub.
Qed.

Lemma weight_visit key display image visited :
  get key images = Some (display, image) -> key ∉ visited ->
  (weight_left (key :: visited) + S (length (dependency_imports image)) <= weight_left visited)%nat.
Proof.
  unfold weight_left. intros G N. induction images as [|[k [d im]] l IH]; simpl in G; [done|].
  rewrite !filter_cons. cbn [fst]. case_decide as E.
  - subst k. injection G as -> ->. rewrite decide_False by (intros H; apply H; left).
    rewrite decide_True by done. simpl.
    pose proof (filter_weight_le (fun e => e.1 ∉ key :: visited) (fun e => e.1 ∉ visited) l) as L.
    assert (forall e : str * (str * PeInfo), e.1 ∉ key :: visited -> e.1 ∉ visited) as Hi
      by (intros e H H'; apply H; by right).
    specialize (L Hi). change (image_weight (key, (display, image))) with (S (length (dependency_imports image))).
    lia.
  - specialize (IH G).
    destruct (decide (k ∉ key :: visited)) as [H1|H1], (decide (k ∉ visited)) as [H2|H2]; simpl; try lia.
    by destruct H2; intros ?; apply H1; right.
Qed.

Lemma walk_step current i rest below visited :
  walk_ok ((current, i :: rest) :: below) visited -> resolves i ->
  walk_ok ((current, rest) :: below) visited.
Proof.
  intros [F C] R. split.
  - apply Forall_cons in F as [(H1 & H2 & H3) F]. apply Forall_cons. split; [|done].
    split; [done|]. split; [done|]. intros j Hj. apply H3. by right.
  - intros key j Hk Hj. destruct (C key j Hk Hj) as [|(r & Hr & Hin)]; [by left|].
    apply elem_of_cons in Hr as [[= -> ->]|Hr].
    + apply elem_of_cons in Hin as [->|Hin]; [by left|]. right. exists rest. split; [left|done].
    + right. exists r. split; [by right|done].
Qed.

Lemma walk_pop current below visited :
  walk_ok ((current, []) :: below) visited -> walk_ok below visited.
Proof.
  intros [F C]. apply Forall_cons in F as [_ F]. split; [done|].
  intros key j Hk Hj. destruct (C key j Hk Hj) as [|(r & Hr & Hin)]; [by left|].
  apply elem_of_cons in Hr as [[= -> ->]|Hr]; [by apply elem_of_nil in Hin|].
  right. by exists r.
Qed.

Lemma walk_push key display image stack visited :
  get key images = Some (display, image) ->
  walk_ok stack visited -> walk_ok ((key, dependency_imports image) :: stack) (key :: visited).
Proof.
  intros G [F C]. assert (imports_of key = dependency_imports image) as E
    by (unfold imports_of; by rewrite G).
  split.
  - apply Forall_cons. split.
    + split; [left|]. cbn [fst snd]. split; [|by rewrite E].
      apply get_elem in G. apply list_elem_of_fmap. by eexists (_, _).
    + eapply Forall_impl; [exact F|]. intros f (H1 & H2 & H3). split; [by right|done].
  - intros k j Hk Hj. apply elem_of_cons in Hk as [->|Hk].
    + right. exists (dependency_imports image). rewrite E in Hj. split; [left|done].
    + destruct (C k j Hk Hj) as [|(r & Hr & Hin)]; [by left|]. right. exists r.
      split; [by right|done].
Qed.

(** The loop ends within its measure.  Success means that everything visited
    is checked; failure exhibits an import that does not resolve. *)
Lemma dependency_loop_spec fuel stack visited :
  (stack_weight stack + weight_left visited < fuel)%nat -> walk_ok stack visited ->
  match dependency_loop fuel images external stack visited with
  | None => False
  | Some (Ok visited') => walk_ok [] visited' /\ forall k, k ∈ visited -> k ∈ visited'
  | Some (Err _) => exists key i, key ∈ images.*1 /\ i ∈ imports_of key /\ ~ resolves i
  end.
Proof.
  revert stack visited. induction fuel as [|fuel IH]; intros stack visited Hf W; [lia|].
  cbn [dependency_loop]. destruct stack as [|[current [|[name targets] rest]] below].
  { split; [done|auto]. }
  { apply IH; [unfold stack_weight in *; simpl in *; lia|by eapply walk_pop]. }
  assert (current ∈ images.*1 /\ (name, targets) ∈ imports_of current) as [Hcur Hin].
  { destruct W as [F _]. apply Forall_cons in F as [(_ & H2 & H3) _]. split; [done|].
    apply H3. left. }
  assert (stack_weight ((current, rest) :: below) + weight_left visited < fuel)%nat as Hf'
    by (unfold stack_weight in *; simpl in *; lia).
  destruct (windows_dll_name_key "PE import" name) as [key|e] eqn:Ek.
  2: { exists current, (name, targets). split_and!; try done.
       intros (k & E & _). simpl in E. congruence. }
  destruct (is_system key || contains key external) eqn:Eo.
  { apply IH; [done|]. eapply walk_step; [exact W|]. exists key. split; [done|].
    apply orb_true_iff in Eo as [?|?%contains_true]; [by left|by right; left]. }
  apply orb_false_iff in Eo as [Es Ex].
  assert (key ∉ external) as Ex' by (intros ?; apply not_true_iff_false in Ex; by apply Ex, contains_true).
  destruct (get key images) as [[display image]|] eqn:Eg.
  2: { exists current, (name, targets). split_and!; try done.
       intros (k & E & R). simpl in E. assert (k = key) as -> by congruence.
       destruct R as [?|[?|(d & im & G & _)]]; congruence. }
  destruct (missing_target image targets) as [t|] eqn:Em.
  { exists current, (name, targets). split_and!; try done.
    intros (k & E & R). simpl in E. assert (k = key) as -> by congruence.
    destruct R as [?|[?|(d & im & G & M)]]; [congruence|done|]. simpl in M. congruence. }
  assert (resolves (name, targets)) as R
    by (exists key; split; [done|]; right; right; by exists display, image).
  destruct (contains key visited) eqn:Ev.
  { apply IH; [done|]. by eapply walk_step. }
  assert (key ∉ visited) as Nv by (intros ?; apply not_true_iff_false in Ev; by apply Ev, contains_true).
  pose proof (weight_visit key display image visited Eg Nv) as Hw.
  specialize (IH ((key, dependency_imports image) :: (current, rest) :: below) (key :: visited)).
  destruct (dependency_loop fuel images external _ (key :: visited)) as [[v'|e]|];
    [|apply IH..]; try (unfold stack_weight in *; simpl in *; lia);
    try (eapply walk_push; [done|by eapply walk_step]).
  destruct IH as [W' Sub]; [unfold stack_weight in *; simpl in *; lia| |].
  - eapply walk_push; [done|by eapply walk_step].
  - split; [done|]. intros k Hk. apply Sub. by right.
Qed.

Lemma weight_left_le visited : (weight_left visited < import_fuel images)%nat.
Proof.
  unfold weight_left, import_fuel.
  assert (sum_list_with image_weight (filter (fun e => e.1 ∉ visited) images)
          <= sum_list_with image_weight images)%nat; [|lia].
  induction images as [|e l IH]; [done|]. rewrite filter_cons. case_decide; simpl; lia.
Qed.

Lemma validate_roots_spec roots visited :
  walk_ok [] visited -> (forall r, r ∈ roots -> r ∈ images.*1) ->
  match validate_roots (import_fuel images) roots images external visited with
  | None => False
  | Some (Ok _) => forall key i, key ∈ roots \/ key ∈ visited -> i ∈ imports_of key -> resolves i
  | Some (Err _) => exists key i, key ∈ images.*1 /\ i ∈ imports_of key /\ ~ resolves i
  end.
Proof.
  revert visited. induction roots as [|root roots IH]; intros visited W Hr; cbn [validate_roots].
  { intros key i [Hk|Hk]; [by apply elem_of_nil in Hk|]. intros Hi.
    destruct W as [_ C]. destruct (C key i Hk Hi) as [|(r & Hin & _)]; [done|].
    by apply elem_of_nil in Hin. }
  assert (forall r, r ∈ roots -> r ∈ images.*1) as Hr' by (intros r Hin; apply Hr; by right).
  unfold validate_dependency_node. destruct (contains root visited) eqn:Ev.
  - apply contains_true in Ev. specialize (IH visited W Hr').
    destruct (validate_roots _ roots images external visited) as [[[]|e]|]; try done.
    intros key i Hk Hi. apply (IH key i); [|done].
    destruct Hk as [[->|Hk]%elem_of_cons|Hk]; [by right|by left|by right].
  - assert (root ∉ visited) as Nv
      by (intros ?; apply not_true_iff_false in Ev; by apply Ev, contains_true).
    destruct (key_get root images) as [[display image] G]; [apply Hr; left|]. rewrite G.
    pose proof (weight_visit root display image visited G Nv). pose proof (weight_left_le visited).
    pose proof (dependency_loop_spec (import_fuel images) [(root, dependency_imports image)]
      (root :: visited)) as L.
    destruct (dependency_loop _ images external _ (root :: visited)) as [[v'|e]|].
    + destruct L as [W' Sub]; [unfold stack_weight; simpl; lia|by eapply walk_push|].
      specialize (IH v' W' Hr').
      destruct (validate_roots _ roots images external v') as [[[]|e]|]; try done.
      intros key i Hk Hi. apply (IH key i); [|done].
      destruct Hk as [[->|Hk]%elem_of_cons|Hk]; [right|by left|right]; apply Sub; [left|by right].
    + apply L; [unfold stack_weight; simpl; lia|by eapply walk_push].
    + apply L; [unfold stack_weight; simpl; lia|by eapply walk_push].
Qed.

(** *** Forwarded exports *)
Definition next (n : Node) : option Node :=
  match get n.1 images with
  | None => None
  | Some (_, image) =>
      match get n.2 (forwarded_exports image) with
      | None => None
      | Some f =>
          if is_system (lowercase (library f)) || contains (lowercase (library f)) external
          then None
          else
            match get (lowercase (library f)) images with
            | None => None
            | Some (_, target) =>
                if has_export_symbol target (symbol f)
                then Some (lowercase (library f), symbol f) else None
            end
      end
  end.

Definition hop (n n' : Node) : Prop := next n = Some n'.

Lemma contains_false {A} `{EqDecision A} (x : A) s : contains x s = false <-> x ∉ s.
Proof. apply bool_decide_eq_false. Qed.

Lemma hop_inv n n' :
  hop n n' ->
  exists display image f td target,
    get n.1 images = Some (display, image) /\ get n.2 (forwarded_exports image) = Some f
    /\ is_system (lowercase (library f)) = false /\ lowercase (library f) ∉ external
    /\ get (lowercase (library f)) images = Some (td, target)
    /\ has_export_symbol target (symbol f) = true /\ n' = (lowercase (library f), symbol f).
Proof.
  unfold hop, next. destruct (get n.1 images) as [[display image]|] eqn:E1; [|done].
  destruct (get n.2 (forwarded_exports image)) as [f|] eqn:E2; [|done].
  destruct (is_system _ || _) eqn:E3; [done|]. apply orb_false_iff in E3 as [E3 E4].
  apply contains_false in E4. destruct (get (lowercase _) images) as [[td target]|] eqn:E5; [|done].
  destruct (has_export_symbol target (symbol f)) eqn:E6; [|done]. intros [= <-].
  by exists display, image, f, td, target.
Qed.

Lemma forwarder_inv name s display image f :
  get name images = Some (display, image) -> get s (forwarded_exports image) = Some f ->
  forward_resolves (name, s) ->
  is_system (lowercase (library f)) = true \/ lowercase (library f) ∈ external
  \/ exists td target, get (lowercase (library f)) images = Some (td, target)
       /\ has_export_symbol target (symbol f) = true.
Proof.
  intros E1 E2.
  inversion 1 as [? ? d i G1 G2|? ? d i f' G1 G2 G3|? ? d i f' td' t' G1 G2 G3 G4 G5 G6 G7]; subst;
    rewrite E1 in G1; injection G1 as <- <-; rewrite E2 in G2; try done; injection G2 as <-.
  - destruct G3; auto.
  - right; right. by exists td', t'.
Qed.

Lemma forward_hop_iff n n' : hop n n' -> forward_resolves n <-> forward_resolves n'.
Proof.
  intros (display & image & f & td & target & E1 & E2 & E3 & E4 & E5 & E6 & ->)%hop_inv.
  destruct n as [name s]. cbn [fst snd] in *. split.
  - inversion 1 as [? ? d i G1 G2|? ? d i f' G1 G2 G3|? ? d i f' td' t' G1 G2 G3 G4 G5 G6 G7]; subst;
      rewrite E1 in G1; injection G1 as <- <-; rewrite E2 in G2; try done; injection G2 as <-.
    + destruct G3; congruence.
    + done.
  - intros R. by eapply forward_hop.
Qed.

(** The first hop of a walk. *)
Lemma tc_first n n' : tc hop n n' -> exists m, hop n m /\ rtc hop m n'.
Proof.
  inversion 1 as [? ? H'|? m ? H' T]; subst; [by exists n'; split; [|apply rtc_refl]|].
  exists m. split; [done|by apply tc_rtc].
Qed.

Lemma forward_no_cycle n : forward_resolves n -> ~ tc hop n n.
Proof.
  induction 1 as [name s d i G1 G2 G3|name s d i f G1 G2 G3|name s d i f td t G1 G2 G3 G4 G5 G6 R IH];
    intros T; apply tc_first in T as (m & Hm & T).
  - apply hop_inv in Hm as (? & ? & ? & ? & ? & E1 & E2 & _). cbn [fst snd] in *. congruence.
  - apply hop_inv in Hm as (? & ? & ? & ? & ? & E1 & E2 & E3 & E4 & _). cbn [fst snd] in *.
    rewrite E1 in G1. injection G1 as -> ->. rewrite E2 in G2. injection G2 as ->.
    destruct G3; congruence.
  - apply IH. assert (hop (name, s) (lowercase (library f), symbol f)) as Hn.
    { unfold hop, next. cbn [fst snd]. rewrite G1, G2, G3. cbn [orb].
      rewrite (proj2 (contains_false _ _)), G5, G6 by done. done. }
    assert (m = (lowercase (library f), symbol f)) as -> by (unfold hop in *; congruence).
    eapply tc_rtc_l; [exact T|]. by apply tc_once.
Qed.

Lemma forward_tc_iff n n' : tc hop n n' -> forward_resolves n <-> forward_resolves n'.
Proof.
  induction 1 as [n n' H|n m n' H _ IH]; [by apply forward_hop_iff|].
  rewrite (forward_hop_iff n m H). done.
Qed.

Lemma get_symbol_elem (s : ExportSymbol) (m : list (ExportSymbol * ForwardedExport)) v :
  get s m = Some v -> (s, v) ∈ m.
Proof.
  induction m as [|[k' v'] m IH]; simpl; [done|]. case_decide as E.
  - intros [= ->]. subst. left.
  - intros H. right. by apply IH.
Qed.

Lemma forwarder_in_nodes name s display image f :
  get name images = Some (display, image) -> get s (forwarded_exports image) = Some f ->
  (name, s) ∈ forwarded_nodes images.
Proof.
  intros G1%get_elem G2%get_symbol_elem. unfold forwarded_nodes. apply list_elem_of_bind.
  exists (name, (display, image)). split; [|done]. apply list_elem_of_fmap. by exists (s, f).
Qed.

Definition forwards_ok (resolved : list Node) : Prop :=
  forall n, n ∈ resolved -> forward_resolves n.

Lemma forward_loop_spec fuel node stack resolved :
  (length (forwarded_nodes images) < fuel + length stack)%nat ->
  NoDup stack -> (forall n, n ∈ stack -> n ∈ forwarded_nodes images /\ tc hop n node) ->
  forwards_ok resolved ->
  match forward_loop fuel images external node stack resolved with
  | None => False
  | Some (Ok resolved') => forwards_ok resolved' /\ forward_resolves node
  | Some (Err _) => ~ forward_resolves node
  end.
Proof.
  revert node stack. induction fuel as [|fuel IH]; intros node stack Hf N St Ro.
  { assert (length stack <= length (forwarded_nodes images))%nat; [|lia].
    apply submseteq_length, NoDup_submseteq; [done|]. intros n Hn. by apply St. }
  assert (forward_resolves node -> forwards_ok (stack ++ resolved)) as Done_.
  { intros R n [Hn|Hn]%elem_of_app; [|by apply Ro]. by apply (forward_tc_iff n node), R; apply St. }
  cbn [forward_loop]. destruct (contains node resolved) eqn:Er.
  { apply contains_true, Ro in Er. split; [by apply Done_|done]. }
  destruct (contains node stack) eqn:Es.
  { apply contains_true in Es. intros R. by apply (forward_no_cycle node R), St. }
  apply contains_false in Es. destruct node as [name s].
  destruct (get name images) as [[display image]|] eqn:G1; [|intros R; inversion R; congruence].
  destruct (get s (forwarded_exports image)) as [f|] eqn:G2.
  2: { destruct (has_export_symbol image s) eqn:G3.
       - assert (forward_resolves (name, s)) as R by (by eapply forward_export).
         split; [|done]. intros n [Hn|Hn]%elem_of_app; [apply (Done_ R), elem_of_app; by left|].
         apply elem_of_cons in Hn as [->|Hn]; [done|by apply Ro].
       - intros R; inversion R; congruence. }
  cbv zeta. destruct (is_system (lowercase (library f)) || contains (lowercase (library f)) external) eqn:G3.
  { assert (forward_resolves (name, s)) as R.
    { eapply forward_outside; [done..|]. apply orb_true_iff in G3 as [?|?%contains_true]; auto. }
    split; [|done]. intros n Hn. cbn [app] in Hn. apply elem_of_cons in Hn as [->|Hn]; [done|].
    by apply (Done_ R). }
  apply orb_false_iff in G3 as [G3 G4]. apply contains_false in G4.
  destruct (get (lowercase (library f)) images) as [[td target]|] eqn:G5.
  2: { intros R. destruct (forwarder_inv _ _ _ _ _ G1 G2 R) as [|[|(? & ? & ? & _)]]; congruence. }
  destruct (has_export_symbol target (symbol f)) eqn:G6; cbn [negb].
  2: { intros R. destruct (forwarder_inv _ _ _ _ _ G1 G2 R) as [|[|(? & ? & ? & ?)]]; congruence. }
  assert (hop (name, s) (lowercase (library f), symbol f)) as Hn.
  { unfold hop, next. cbn [fst snd]. rewrite G1, G2, G3. cbn [orb].
    by rewrite (proj2 (contains_false _ _)), G5, G6 by done. }
  assert (forall n, n ∈ (name, s) :: stack ->
    n ∈ forwarded_nodes images /\ tc hop n (lowercase (library f), symbol f)) as St'.
  { intros n [->|Hin]%elem_of_cons.
    - split; [by eapply forwarder_in_nodes|by apply tc_once].
    - destruct (St n Hin) as [? T]. split; [done|]. eapply tc_r; [exact T|done]. }
  assert (length (forwarded_nodes images) < fuel + length ((name, s) :: stack))%nat as Hf'
    by (cbn [length]; lia).
  specialize (IH _ _ Hf' (NoDup_cons_2 _ _ Es N) St' Ro).
  pose proof (forward_hop_iff _ _ Hn) as Hiff.
  destruct (forward_loop fuel images external _ _ resolved) as [[r'|e]|]; tauto.
Qed.

Lemma validate_forwarded_spec nodes resolved :
  forwards_ok resolved ->
  match validate_forwarded_nodes (forward_fuel images) nodes images external resolved with
  | None => False
  | Some (Ok _) => forall n, n ∈ nodes -> forward_resolves n
  | Some (Err _) => exists n, n ∈ nodes /\ ~ forward_resolves n
  end.
Proof.
  revert resolved. induction nodes as [|node nodes IH]; intros resolved Ro;
    cbn [validate_forwarded_nodes].
  { intros n Hn. by apply elem_of_nil in Hn. }
  pose proof (forward_loop_spec (forward_fuel images) node [] resolved) as L.
  destruct (forward_loop _ images external node [] resolved) as [[r'|e]|].
  - destruct L as [Ro' R]; [unfold forward_fuel; simpl; lia|constructor| |done|].
    { intros n Hn. by apply elem_of_nil in Hn. }
    specialize (IH r' Ro').
    destruct (validate_forwarded_nodes _ nodes images external r') as [[[]|e]|]; try done.
    + intros n [->|Hn]%elem_of_cons; [done|by apply IH].
    + destruct IH as (n & Hn & Nn). exists n. split; [by right|done].
  - exists node. split; [left|]. apply L; [unfold forward_fuel; simpl; lia|constructor| |done].
    intros n Hn. by apply elem_of_nil in Hn.
  - apply L; [unfold forward_fuel; simpl; lia|constructor| |done].
    intros n Hn. by apply elem_of_nil in Hn.
Qed.

End Spec.
End GraphSpec.

(** ** Correctness of the closure check *)
Module GraphTheorems.
Import Str PeData XllExports PeLemmas Graph GraphSpec.

Lemma closure_decided images external :
  exists r, validate_dependency_graph images external = Some r
            /\ (r = Ok tt <-> closed_package images external).
Proof.
  unfold validate_dependency_graph, closed_package.
  destruct (filter (fun name => name ∈ images.*1) external) as [|name rest] eqn:Ef.
  2: { eexists. split; [done|]. split; [done|]. intros (H & _).
       assert (name ∈ filter (fun name => name ∈ images.*1) external) as Hin
         by (rewrite Ef; left).
       apply list_elem_of_filter in Hin as [H1 H2]. by destruct (H name H2). }
  assert (forall name, name ∈ external -> name ∉ images.*1) as Hx.
  { intros name H1 H2. assert (name ∈ filter (fun name => name ∈ images.*1) external) as Hin
      by (by apply list_elem_of_filter). rewrite Ef in Hin. by apply elem_of_nil in Hin. }
  pose proof (validate_roots_spec images external images.*1 []) as L.
  destruct (validate_roots _ images.*1 images external []) as [[[]|e]|].
  - assert (forall key display image i, get key images = Some (display, image) ->
        i ∈ dependency_imports image -> resolves images external i) as Hi.
    { intros key display image i G Hin. apply (L ltac:(split; [constructor|]; intros ? ? H; by apply elem_of_nil in H) ltac:(auto) key).
      - left. apply get_elem in G. apply list_elem_of_fmap. by eexists (_, _).
      - unfold imports_of. by rewrite G. }
    unfold validate_forwarded_exports.
    pose proof (validate_forwarded_spec images external (forwarded_nodes images) []) as F.
    destruct (validate_forwarded_nodes _ (forwarded_nodes images) images external []) as [[[]|e]|].
    + eexists. split; [done|]. split; [|done]. intros _. split; [done|]. split; [done|].
      apply F. intros n Hn. by apply elem_of_nil in Hn.
    + eexists. split; [done|]. split; [done|]. intros (_ & _ & H).
      destruct F as (n & Hn & Nn); [intros n Hn; by apply elem_of_nil in Hn|]. by destruct Nn; apply H.
    + destruct F. intros n Hn. by apply elem_of_nil in Hn.
  - eexists. split; [done|]. split; [done|]. intros (_ & H & _).
    destruct L as (key & i & Hk & Hi & Nr);
      [split; [constructor|]; intros ? ? H'; by apply elem_of_nil in H'|auto|].
    destruct (key_get key images Hk) as [[display image] G]. unfold imports_of in Hi.
    rewrite G in Hi. destruct Nr. by eapply H.
  - destruct L; [split; [constructor|]; intros ? ? H'; by apply elem_of_nil in H'|auto].
Qed.

(** C32: Validating the dependency graph of a package always ends, cyclic
    imports and forwarders included, and accepts exactly the closed packages:
    no image is both bundled and external, every import of every image,
    delay-loaded ones included, names a system or external DLL or a bundled
    image that exports each imported name and ordinal, and every forwarded
    export reaches an export after finitely many hops. *)
Theorem dependency_graph_decides_closure images external :
  exists r, validate_dependency_graph images external = Some r
            /\ (r = Ok tt <-> closed_package images external).
Proof. apply closure_decided. Qed.

(** *** Assembled packages *)
Lemma str_ltb_irrefl a : str_ltb a a = false.
Proof. induction a as [|x a IH]; [done|]. simpl. by rewrite Z.eqb_refl. Qed.

Lemma str_ltb_trans a b c : str_ltb a b = true -> str_ltb b c = true -> str_ltb a c = true.
Proof.
  revert b c. induction a as [|x a IH]; intros [|y b] [|z c]; simpl; try done.
  destruct (Z.eqb_spec x y) as [->|Hxy], (Z.eqb_spec y z) as [->|Hyz].
  - apply IH.
  - done.
  - intros ?%Z.ltb_lt _. destruct (Z.eqb_spec x z); [lia|]. by apply Z.ltb_lt.
  - intros ?%Z.ltb_lt ?%Z.ltb_lt. destruct (Z.eqb_spec x z); [lia|]. apply Z.ltb_lt. lia.
Qed.

Lemma str_ltb_total a b : a <> b -> str_ltb a b = false -> str_ltb b a = true.
Proof.
  revert b. induction a as [|x a IH]; intros [|y b]; simpl; try done.
  intros N. destruct (Z.eqb_spec x y) as [->|Hxy].
  - rewrite Z.eqb_refl. intros. apply IH; [congruence|done].
  - intros ?%Z.ltb_ge. destruct (Z.eqb_spec y x); [congruence|]. apply Z.ltb_lt. lia.
Qed.

(** The entries of a map, in strictly increasing key order. *)
Definition ordered (m : Images) : Prop := StronglySorted (fun a b => str_ltb a b = true) m.*1.

Lemma insert_spec key v m m' :
  ordered m -> insert key v m = (m', false) ->
  ordered m' /\ key ∉ m.*1 /\ forall k w, (k, w) ∈ m' <-> (k = key /\ w = v) \/ (k, w) ∈ m.
Proof.
  unfold ordered. revert m'. induction m as [|[k0 w0] m IH]; intros m' So; simpl.
  { intros [= <-]. split; [repeat constructor|]. split; [apply not_elem_of_nil|].
    intros k w. rewrite elem_of_cons, elem_of_nil. intuition congruence. }
  simpl in So. apply StronglySorted_inv in So as [So F0].
  case_decide as Ek; [done|]. destruct (str_ltb key k0) eqn:El.
  { intros [= <-]. split; [|split].
    - constructor; [by constructor|]. simpl. constructor; [done|].
      eapply Forall_impl; [exact F0|]. intros k Hk. simpl in Hk. by eapply str_ltb_trans.
    - apply not_elem_of_cons. split; [done|]. intros Hin.
      pose proof (proj1 (Forall_forall _ _) F0 key Hin) as Hk. simpl in Hk.
      pose proof (str_ltb_trans key k0 key El Hk) as C. by rewrite str_ltb_irrefl in C.
    - intros k w. rewrite elem_of_cons. intuition congruence. }
  destruct (insert key v m) as [m1 replaced] eqn:E. intros [= <- ->].
  destruct (IH m1 So eq_refl) as (So1 & Nk & L). split; [|split].
  - simpl. constructor; [done|]. apply Forall_forall.
    intros k ([k' w'] & -> & Hin)%list_elem_of_fmap. simpl.
    apply L in Hin as [[-> _]|Hin]; [by apply str_ltb_total|].
    apply (proj1 (Forall_forall _ _) F0). apply list_elem_of_fmap. by exists (k', w').
  - apply not_elem_of_cons. split; [by apply not_eq_sym|done].
  - intros k w. rewrite !elem_of_cons, L. tauto.
Qed.

Lemma ordered_nodup m : ordered m -> NoDup m.*1.
Proof.
  unfold ordered. induction 1 as [|k l S IH F]; constructor; [|done].
  intros Hin. pose proof (proj1 (Forall_forall _ _) F k Hin) as C. simpl in C.
  by rewrite str_ltb_irrefl in C.
Qed.

Section Assembled.
Context {Bytes : Type} (parse_pe_bytes : Bytes -> PackageResult PeInfo)
        (exe dll sys : Z) (architecture : Architecture) (root_key root_name : str).

Abbreviation inspect f := (inspect_checked parse_pe_bytes exe dll sys f architecture).

(** The entry of the map that a bundled file makes: the file is a DLL, and the
    entry holds its key, its name and the image its bytes parse to. *)
Definition ships (file : str * Bytes) (e : str * (str * PeInfo)) : Prop :=
  exists key info, is_dll_name file.1 = true
    /\ windows_dll_name_key "bundled DLL" file.1 = Ok key /\ key <> root_key
    /\ inspect file = Ok info /\ e = (key, (file.1, info)).

Definition bundled_in (images : Images) (file : str * Bytes) : Prop :=
  exists e, ships file e /\ e ∈ images.

Lemma add_bundled_spec files images images' :
  ordered images ->
  add_bundled parse_pe_bytes exe dll sys architecture root_key root_name files images = Ok images' ->
  ordered images'
  /\ (forall e, e ∈ images' <-> e ∈ images \/ exists f, f ∈ files /\ ships f e)
  /\ (forall f, f ∈ files -> is_dll_name f.1 = true -> bundled_in images' f).
Proof.
  revert images. induction files as [|file files IH]; intros images So; simpl.
  { intros [= <-]. split; [done|]. split; [|intros f Hf; by apply elem_of_nil in Hf].
    intros e. split; [by left|]. intros [|(f & Hf & _)]; [done|]. by apply elem_of_nil in Hf. }
  destruct (is_dll_name file.1) eqn:Ed; cbn [negb].
  2: { intros E. destruct (IH images So E) as (So' & Iff & B). split; [done|]. split.
       - intros e. rewrite Iff. split; (intros [|(f & Hf & Hs)]; [by left|]).
         + right. exists f. split; [by right|done].
         + apply elem_of_cons in Hf as [->|Hf]; [|right; by exists f].
           destruct Hs as (? & ? & ? & _). congruence.
       - intros f [->|Hf]%elem_of_cons Hd; [congruence|by apply B]. }
  destruct (windows_dll_name_key "bundled DLL" file.1) as [key|] eqn:Ek; [|done].
  case_decide as Er; [done|]. destruct (inspect file) as [info|] eqn:Ei; [|done].
  destruct (insert key (file.1, info) images) as [images1 [|]] eqn:En; [done|]. intros E.
  destruct (insert_spec key (file.1, info) images images1 So En) as (So1 & _ & L).
  assert (Hfile : forall e, ships file e <-> e = (key, (file.1, info))).
  { intros e. split; [|intros ->; by exists key, info].
    intros (key' & info' & _ & Ek' & _ & Ei' & ->). congruence. }
  assert (L1 : forall e, e ∈ images1 <-> e ∈ images \/ ships file e).
  { intros [k w]. rewrite L, Hfile. intuition congruence. }
  destruct (IH images1 So1 E) as (So' & Iff & B). split; [done|]. split.
  - intros e. rewrite Iff, L1. split.
    + intros [[He|Hs]|(f & Hf & Hs)]; [by left| |]; right; eexists; (split; [|exact Hs]);
        [left|by right].
    + intros [He|(f & [->|Hf]%elem_of_cons & Hs)]; [by left; left|by left; right|].
      right. by exists f.
  - intros f [->|Hf]%elem_of_cons Hd; [|by apply B]. exists (key, (file.1, info)).
    split; [by apply Hfile|]. apply Iff. left. apply L1. right. by apply Hfile.
Qed.

End Assembled.

(** C33: Verifying a package against its bundle always ends, and a package it
    accepts is closed over exactly the images that ship.  The map holds the XLL
    under its own key and the bundled DLLs, each of them, and no other entry:
    an entry is the XLL's, or that of a file of the bundle that is a DLL, under
    the key of its name, with the image its own bytes parse to and the
    requested machine.  The names are distinct ignoring case, and every import
    and forwarder of these images resolves among them. *)
Theorem accepted_bundle_is_closed {Bytes} (parse_pe_bytes : Bytes -> PackageResult PeInfo)
    exe dll sys root_name target files external xll_info :
  exists r,
    verify_dependency_closure parse_pe_bytes exe dll sys root_name target files external xll_info
    = Some r
    /\ (r = Ok tt ->
        exists architecture root_key images,
          architecture_parse target = Some architecture
          /\ windows_name_key "XLL basename" root_name = Ok root_key
          /\ NoDup images.*1 /\ get root_key images = Some (root_name, xll_info)
          /\ (forall f, f ∈ files -> is_dll_name f.1 = true ->
                bundled_in parse_pe_bytes exe dll sys architecture root_key images f)
          /\ (forall e, e ∈ images <->
                e = (root_key, (root_name, xll_info))
                \/ exists f, f ∈ files /\ ships parse_pe_bytes exe dll sys architecture root_key f e)
          /\ closed_package images external).
Proof.
  unfold verify_dependency_closure.
  destruct (architecture_parse target) as [architecture|]; [|by eexists].
  destruct (windows_name_key "XLL basename" root_name) as [root_key|]; [|by eexists].
  destruct (add_bundled parse_pe_bytes exe dll sys architecture root_key root_name files
    [(root_key, (root_name, xll_info))]) as [images|] eqn:E; [|by eexists].
  apply add_bundled_spec in E as (So & Iff & B); [|repeat constructor].
  destruct (closure_decided images external) as (r & -> & Hr).
  destruct r as [[]|e]; eexists; (split; [done|]); [|done]. intros _.
  exists architecture, root_key, images. split_and!; try done.
  - by apply ordered_nodup.
  - apply elem_get; [by apply ordered_nodup|]. apply Iff. left. left.
  - intros e. by rewrite Iff, list_elem_of_singleton.
  - by apply Hr.
Qed.

End GraphTheorems.
